(* ===== verification/_CoqProject ===== *)
-Q . S2P
Prelude.v
GoTime.v
GoStrings.v
Cron.v
Json.v
JsonDecode.v
JsonStruct.v
EventLog.v
JobStore.v
FileJobStore.v
FileJobStoreFacts.v
FileJobStoreSpec.v
SchedulerStore.v
FileSchedulerStore.v
FileSchedulerStoreFacts.v
FileSchedulerStoreSpec.v
Jobs.v
JobQueue.v
JobQueueFacts.v
JobWorkers.v
Stream.v
Subscription.v
ResourceBroker.v
ResourceBrokerFacts.v
Container.v
ContainerFacts.v
Scheduler.v
SchedulerPersistent.v
SchedulerFacts.v
FileTransfer.v
FileTransferUploads.v
FileTransferCalls.v
FileTransferFacts.v
FileTransferClose.v
Exceptions.v
Router.v
RouterFacts.v
RequestValidation.v
Statements.v
SqlJobStore.v
SqlJobStoreFacts.v
SqlJobStoreSpec.v
SqlSchedulerStore.v
SqlSchedulerStoreSpec.v
Redis.v
RedisSchedulerStore.v
RedisSchedulerStoreSpec.v
RedisJobStore.v
RedisJobStoreFacts.v
RedisJobStoreSpec.v
Migrations.v
MigrationsFacts.v
Validation.v
Schema.v
SchemaReferences.v
SchemaCompat.v
SchemaContract.v
SchemaCompatFacts.v
Config.v
Application.v
ApplicationFacts.v
Events.v
SemanticVersion.v
Project.v
Upgrade.v
UpgradeFacts.v
UpgradeReleases.v
UpgradeManifest.v
UpgradePlan.v
UpgradeApply.v
UpgradeApplyFacts.v
Server.v
ServerFacts.v
RateLimiter.v
StreamDispatch.v
Http.v
HttpMetrics.v
HttpTransfers.v
EmbeddedRuntime.v
DevSession.v
