(* ===== verification/Prelude.v ===== *)
(** * A verification development of the Bridra framework

    Bridra is a desktop application framework: a Go backend
    ([src/backend/framework/]) that serves a web or native frontend over a local
    protocol, with a code generator ([src/backend/codegen/]) and a command line
    ([src/backend/cmd/bridra/]) around it.  This library models the framework's
    core, the generator's schemas, and the upgrades and development sessions of
    the command line in Rocq
    and proves what makes them correct.

    ** What is modelled, and where

    Where no directory is given, a file models Go files under
    [src/backend/framework/]; definitions keep
    the names of the code, a method being named after its function ([Reserve]
    for [FileJobStore.Reserve]).  The part of a method between [Lock] and
    [Unlock] is [X_locked] where the method does more than that.

    - [Prelude]: Go's errors, results and contexts, 64-bit integers, loops.
      [GoTime]: instants, the civil calendar and time zones.  [GoStrings]:
      byte strings, UTF-8, [strconv] and [strings].  [Json]: the encoder of
      [encoding/json] for the values the framework writes, and the recognizer
      [json.Valid].
    - [Cron] (scheduler_cron.go): parsing a cron expression, matching, and the
      search for the next run, with the location's offsets as a parameter.
    - [JobStore] (job_store.go) and [SchedulerStore] (scheduler_store.go): the
      store interfaces as type classes, each with the laws that state what the
      rest of the framework relies on, and what follows from the laws alone.
      [JsonStruct] decodes JSON text into structs, as [json.Decoder] does with
      unknown fields refused.  [EventLog] is the append-only log that both local
      stores keep, a sequence of bytes that opening the store reads back with
      that decoder;
      [FileJobStore], [FileJobStoreFacts], [FileJobStoreSpec]
      (file_job_store.go) and [FileSchedulerStore], [FileSchedulerStoreFacts],
      [FileSchedulerStoreSpec] (file_scheduler_store.go) model the stores,
      prove what each operation does to the log and to memory, and discharge
      the interfaces' laws.
    - [Jobs], [JobQueue], [JobQueueFacts] (jobs.go, jobs_delayed.go): handlers,
      options, dispatching, and the in-memory queue as a transition system over
      its channels.  [JobWorkers] (jobs_persistent.go): the
      workers of a persistent queue, over the interface [JobStore].
    - [Stream] (stream.go, protocol.go) and [Subscription]
      (subscription_buffer.go, subscription.go): streamed responses and the
      replay buffer.
    - [ResourceBroker], [ResourceBrokerFacts] (resource_broker.go): leases and
      capabilities, as a transition system of calls over the broker's mutex,
      wait group and close channel.
    - [Container], [ContainerFacts] (container.go): the service container, its
      lifetimes, scopes and the resolution of factories that resolve others.
    - [Scheduler] (scheduler.go, scheduler_dynamic.go, scheduler_persistent.go):
      registration, handles, shutdown and the turn of a persistent task;
      [SchedulerFacts]: its goroutines as a transition
      system; [SchedulerPersistent]: its tasks over the interface
      [SchedulerStore].
    - [FileTransfer] (file_transfer.go): staged files and uploads in chunks over
      a file system of names and inodes; [FileTransferUploads]: its methods one
      after the other; [FileTransferCalls], [FileTransferFacts],
      [FileTransferClose]: its methods interleaved.
    - [Exceptions] (exception.go, validation.go) and [Router], [RouterFacts]
      (router.go, route_group.go, middleware.go, crash_reporting.go,
      authentication.go): errors and their rendering, middlewares, groups,
      policies and dispatching.
    - [JsonDecode]: decoding JSON text to a tree.  [RequestValidation]
      (request_validation.go): the presence check of request payloads, and a
      typing relation of its own that it decides.
      [Validation] (validation.go): the rules of values, fields and requests.
    - [Statements]: methods that are programs of statements on a database other
      clients use too.  [SqlJobStore], [SqlJobStoreFacts],
      [SqlJobStoreSpec] (sql_job_store.go), [SqlSchedulerStore] and
      [SqlSchedulerStoreSpec] (sql_scheduler_store.go): the SQL stores.
      [Redis], [RedisJobStore], [RedisJobStoreFacts],
      [RedisJobStoreSpec] (redis_job_store.go), [RedisSchedulerStore] and
      [RedisSchedulerStoreSpec] (redis_scheduler_store.go): the Redis stores,
      a Lua script being one statement.
    - [Migrations], [MigrationsFacts] (database.go, migrations.go,
      migration_store.go): transactions, and migrating and rolling back.
    - [Config] (config.go, config_loader.go): the configuration
      and its loader.  [Application], [ApplicationFacts] (application.go,
      provider_manifest.go): the lifecycle of service providers.  [Events]
      (events.go, queued_events.go): listeners and dispatching.
    - [Server], [ServerFacts] (server.go): the sidecar server, its scanning
      goroutine and workers as a transition system over the registry of
      requests, the flow control of streams and the shared encoder.
    - [RateLimiter] (rate_limiter.go, http_rate_limit.go): the token buckets,
      computed in binary64.  [StreamDispatch] (router.go, stream.go): a stream
      dispatched by the router, its writer in the context of the handler.
    - [Http] (http_handler.go, authentication.go) and
      [HttpMetrics] (http_observability.go): a request from its headers to the
      router and back, its observation, and metrics kept by atomic operations.
      [HttpTransfers] (file_transfer_http_handler.go): the store of
      [FileTransfer] behind the same kind of handler.
    - [EmbeddedRuntime] (embedded_runtime.go, sidecar_launch.go): the runtime
      inside an application's process, its calls, streams and its closing as a
      transition system of goroutines, and the handshake of a sidecar.
    - [Schema], [SchemaReferences] ([backend/codegen/schema.go],
      [schema_refs.go], [schema_names.go]): schemas, their validation and the
      resolution of references.  [SchemaCompat], [SchemaContract],
      [SchemaCompatFacts] ([compatibility.go], and what the
      code written by [generator.go] and [typescript.go] does with a value):
      the comparison of two schemas.
    - [SemanticVersion], [Project], [Upgrade],
      [UpgradeFacts], [UpgradeReleases], [UpgradePlan], [UpgradeManifest],
      [UpgradeApply], [UpgradeApplyFacts]
      ([backend/cmd/bridra/semantic_version.go], [project.go], [upgrade.go],
      [upgrade_catalog.go], [upgrade_requirements.go], [upgrade_apply.go]):
      planning an upgrade of a project and applying it.
    - [DevSession] ([backend/cmd/bridra/dev.go], [dev_watch.go]): a development
      session: its options, the watcher of sources, the installation of a
      rebuilt backend, and the supervisor of the child processes as a
      transition system.

    ** How code becomes definitions

    A Go method is a function from the receiver's state to the new state and a
    [result]: a value, an error, or a panic.  A nil receiver is [None].  What
    the operating system, [crypto/rand], the clock, an application's handlers
    or factories and a resolver do is an argument or a label of a step.  Times
    are integers of nanoseconds since Go's zero time; a duration is an [int64]
    with its wrap-around where the code adds to it.  Mutexes make their
    critical section one step; channels, wait groups and goroutines are states
    of a step relation, so that theorems hold for every interleaving.  A database
    may refuse a statement or lose its answer; the statements and scripts
    themselves are functions written after their text.  How a language outside
    the repository reads a number or a date is a parameter.

    ** What the theorems show

    Durability: in a session of calls as the framework makes them, reopening a
    store's log finds the records of before or after the last call, whatever its
    write did.  Exclusion: a reserved job or task
    is not given to another worker while its lease holds, and a stale worker
    cannot finish it.  Workers: a job's handler runs at most as often as its own
    [MaxAttempts] says, and an execution makes the store transition its outcome asks for.  The queue in
    memory: no accepted job is lost at shutdown, shutdown ends, channels are
    used safely.  Cron: a parsed expression allows what a grammar stated
    on its own means by it, and the search gives the first firing minute, in zones of a fixed offset.
    Subscriptions, streams, leases, services: a resumed reader misses nothing,
    frames are consecutive, every lease is released exactly once, services are
    built once and resolution returns.  The scheduler: triggers are served,
    invocations of a name never overlap, shutdown waits for every task and ends.
    File transfers: what is read is what was sent, in every interleaving, any
    upload in chunks is accepted, and closing leaves no file.  Requests: a
    dispatch runs the layers of all groups around a route like a stack, nothing depends on a handler whose
    permission is missing, and the check of a payload decides a typing relation.  Stores
    in databases: the same exclusion for any number of clients, whatever answers
    are lost, and the five Redis keys of a queue agree.  Migrations: what is
    applied is an initial part of what is pending, and a rollback takes back
    exactly the last run.  The server: a queued request is answered exactly
    once, the data frames of a stream stay within its window, and a server that
    drains can go on unless a stream without an id waits for credits, which it
    then does for ever.  The HTTP handlers: the router sees only
    requests that pass every check, a dispatched stream is completed once, a
    staged transfer is consumed when it was delivered and only then, and its
    file removed if the system can, the metrics add up, a burst is exactly the
    limit.  The embedded runtime: the shutdown
    runs once, after the last request, and closing can always go on to it.
    Configuration and lifecycle: the last
    source wins, providers are booted in order and terminated in reverse.
    Schemas: the check for cycles decides, and a change reported as compatible
    keeps old and new peers working.  Upgrades: the path is a shortest one, a
    plan that may be applied is complete, and applying is all or nothing.
    Development sessions: no change of a source is missed, no child outlives
    a session that returns unnoticed (a signal before the session listens for
    signals ends the program instead), an install never loses the backend.  Some
    theorems are about what goes wrong: logs that a torn or unsynced write makes
    unreadable, a cron search that does not end, a step that overflows, a
    release that releases nothing, a limit that wraps, a call refused after the
    delay it was told, an upgraded project that no longer loads, a client that
    rejects a response called compatible.

    ** Bounds and fuel

    Loops of the code are recursions on fuel or on a list, with a theorem that
    the fuel given is enough: [Cron.next] by a measure of the search window,
    [Container.enough_fuel] by the number of registered services, scanning
    loops over a string and the members of a JSON object by its length, [JsonDecode.read_value] by the length of
    its text ([Unmarshal_fuel]), the check of a payload by its depth,
    references between types by the number of definitions, the search for
    migrations by the number of releases.

    ** What is not modelled

    Packages net/http, mime and flag and the decoding of requests enter as
    parameters; a response is what a handler writes, not what the server makes
    of it.  The native and mobile bindings, the programs that wire the parts
    together, the text the generator writes and the rest of the command line,
    which runs external tools, are left out; so is [Close] of the database.
    The rate limiter's products are rounded before they are added: a platform
    that fuses the two operations may differ.  Time zones other than fixed
    offsets enter only as a parameter.  The sequence numbers of the frames that
    [Server] sends are not wrapped at 64 bits. *)
From stdpp Require Export base gmap strings list sorting.
From Stdlib Require Export Ascii ZArith Lia.

Set Default Goal Selector "!".
Set Warnings "-register-all".

(** ** Go errors

    A Go [error] value is its identity (what [errors.Is] compares), its text
    (what [Error()] prints) and the causes it wraps.  A sentinel made by
    [errors.New] is identified by its text: the framework's sentinels all have
    distinct texts. *)
Inductive goerror : Type :=
| ErrNew (text : string)
| ErrWrap (text : string) (causes : list goerror).

Fixpoint errors_is (e target : goerror) : bool :=
  match e with
  | ErrNew t => match target with ErrNew u => String.eqb t u | _ => false end
  | ErrWrap _ causes => existsb (fun c => errors_is c target) causes
  end.

(** [err.Error()]. *)
Definition error_text (e : goerror) : string :=
  match e with ErrNew t => t | ErrWrap t _ => t end.

(** [fmt.Errorf("%w: middle: %w", a, b)] and [fmt.Errorf("%w: detail", a)]. *)
Definition errorf2 (a : goerror) (middle : string) (b : goerror) : goerror :=
  ErrWrap (error_text a +:+ ": " +:+ middle +:+ ": " +:+ error_text b) [a; b].
Definition errorf1 (a : goerror) (detail : string) : goerror :=
  ErrWrap (error_text a +:+ ": " +:+ detail) [a].
(** [fmt.Errorf] in general: text, and errors wrapped with the verb [%w]. *)
Inductive fmt_part :=
| T (text : string)
| W (e : goerror).
Definition Errorf (parts : list fmt_part) : goerror :=
  ErrWrap (foldr (fun p acc => match p with T t => t | W e => error_text e end +:+ acc) EmptyString parts)
    (omap (fun p => match p with W e => Some e | T _ => None end) parts).
(** [errors.Join(a, b)] of two non-nil errors. *)
Definition errors_join (a b : goerror) : goerror :=
  ErrWrap (error_text a +:+ String "010" (error_text b)) [a; b].

(** [errors.Join] in general: it drops the nil errors, and is nil if all are. *)
Definition errors_Join (errs : list (option goerror)) : option goerror :=
  match omap id errs with
  | [] => None
  | e :: l => Some (ErrWrap (foldl (fun acc e => acc +:+ String "010" (error_text e)) (error_text e) l) (e :: l))
  end.

(** What a Go call comes back with: a value, an error, or a panic. *)
Inductive result (A : Type) : Type :=
| Ok (a : A)
| Err (e : goerror)
| Panicked (message : string).
Arguments Ok {A} a.
Arguments Err {A} e.
Arguments Panicked {A} message.

Definition is_ok {A} (r : result A) : bool :=
  match r with Ok _ => true | _ => false end.

Definition result_bind {A B} (r : result A) (k : A -> result B) : result B :=
  match r with
  | Ok a => k a
  | Err e => Err e
  | Panicked m => Panicked m
  end.

Declare Scope go_scope.
Delimit Scope go_scope with go.
Notation "'let*' x ':=' r 'in' k" := (result_bind r (fun x => k))
  (at level 10, x pattern, r at level 100, k at level 200) : go_scope.
Open Scope go_scope.

(** ** [context.Context]

    What the code asks of a context at an entry point: whether it is nil, and
    what [ctx.Err()] returns there. *)
Inductive context : Type :=
| NilContext
| Ctx (err : option goerror).

Definition Background : context := Ctx None.
Definition context_Canceled : goerror := ErrNew "context canceled".
Definition context_DeadlineExceeded : goerror := ErrNew "context deadline exceeded".

(** [Err()] of a live context is nil, of a done one one of the two errors. *)
Definition standard_context (ctx : context) : Prop :=
  match ctx with
  | Ctx (Some err) => err = context_Canceled \/ err = context_DeadlineExceeded
  | _ => True
  end.

(** A method with a nil-receiver guard: [if store == nil { return ..., err }]. *)
Definition with_receiver {S A} (unavailable : goerror)
    (receiver : option S) (op : S -> S * result A) : option S * result A :=
  match receiver with
  | None => (None, Err unavailable)
  | Some s => let '(s', r) := op s in (Some s', r)
  end.

(** ** Machine integers *)
Open Scope Z_scope.

Definition int64_min : Z := - 2 ^ 63.
Definition int64_max : Z := 2 ^ 63 - 1.
Definition uint64_max : Z := 2 ^ 64 - 1.

(** Two's-complement wrap-around of a 64-bit [int]. *)
Definition wrap64 (z : Z) : Z := (z + 2 ^ 63) mod 2 ^ 64 - 2 ^ 63.

Definition in_int64 (z : Z) : Prop := int64_min <= z <= int64_max.

Lemma wrap64_id z : in_int64 z -> wrap64 z = z.
Proof.
  unfold in_int64, wrap64, int64_min, int64_max. intros H.
  rewrite Z.mod_small; lia.
Qed.

Lemma wrap64_range z : in_int64 (wrap64 z).
Proof.
  unfold in_int64, wrap64, int64_min, int64_max.
  pose proof (Z.mod_pos_bound (z + 2 ^ 63) (2 ^ 64)). lia.
Qed.

(** ** Bounded iteration with logarithmic fuel

    [iter_until k step s] runs [step] at most [2^k] times and stops at the
    first [inr].  A loop of the source is [step]; the bound is a power of two,
    so millions of iterations need a fuel of about twenty. *)
Fixpoint iter_until {S R} (k : nat) (step : S -> S + R) (s : S) : S + R :=
  match k with
  | O => step s
  | Datatypes.S k =>
      match iter_until k step s with
      | inl s' => iter_until k step s'
      | inr r => inr r
      end
  end.

Section IterUntil.
Context {S R : Type} (step : S -> S + R).

(** A measure that decreases on every continuing step bounds the loop. *)
Lemma iter_until_measure (Inv : S -> Prop) (m : S -> Z) :
  (forall s s', Inv s -> step s = inl s' -> Inv s' /\ m s' < m s) ->
  forall k s s', Inv s -> iter_until k step s = inl s' ->
  Inv s' /\ m s' <= m s - 2 ^ Z.of_nat k.
Proof.
  intros Hstep k. induction k as [|k IH]; intros s s' Hinv Hrun; simpl in Hrun.
  - destruct (Hstep _ _ Hinv Hrun). change (2 ^ Z.of_nat 0) with 1. split; [done|lia].
  - destruct (iter_until k step s) as [s1|r] eqn:E; [|discriminate].
    destruct (IH _ _ Hinv E) as [Hinv1 Hm1].
    destruct (IH _ _ Hinv1 Hrun) as [Hinv2 Hm2].
    split; [done|]. rewrite Nat2Z.inj_succ, Z.pow_succ_r by lia. lia.
Qed.

Lemma iter_until_terminates (Inv : S -> Prop) (m : S -> Z) k s :
  (forall s, Inv s -> 0 <= m s) ->
  (forall s s', Inv s -> step s = inl s' -> Inv s' /\ m s' < m s) ->
  Inv s -> m s < 2 ^ Z.of_nat k ->
  exists r, iter_until k step s = inr r.
Proof.
  intros Hpos Hstep Hinv Hm.
  destruct (iter_until k step s) as [s'|r] eqn:E; [|eauto].
  destruct (iter_until_measure Inv m Hstep k s s' Hinv E) as [Hi Hle].
  specialize (Hpos _ Hi). lia.
Qed.

(** An invariant of the running states holds where the loop stops. *)
Lemma iter_until_result (Inv : S -> Prop) (Post : R -> Prop) :
  (forall s, Inv s -> match step s with inl s' => Inv s' | inr r => Post r end) ->
  forall k s, Inv s ->
  match iter_until k step s with inl s' => Inv s' | inr r => Post r end.
Proof.
  intros Hstep k. induction k as [|k IH]; intros s Hinv; simpl; [by apply Hstep|].
  specialize (IH s Hinv) as IH1. destruct (iter_until k step s); [by apply IH|done].
Qed.

(** A state that steps to itself runs forever, whatever the fuel. *)
Lemma iter_until_stuck k s : step s = inl s -> iter_until k step s = inl s.
Proof. intros H. induction k as [|k IH]; simpl; [done|]. by rewrite IH. Qed.

(** A result that some fuel reaches is the result with any larger fuel. *)
Lemma iter_until_mono k k' s r :
  (k <= k')%nat -> iter_until k step s = inr r -> iter_until k' step s = inr r.
Proof.
  intros Hk H. induction Hk as [|k' Hk IH]; [done|]. simpl. by rewrite IH.
Qed.
End IterUntil.

(** ** Sorting and selection

    [sort.Slice] with a comparison that is a strict total order on the
    elements returns the one sorted permutation, so any sorting algorithm
    models it: stdpp's [merge_sort] is the executable one used here. *)
Section Selection.
Context {A : Type} (R : relation A) `{!RelDecision R, !Total R, !Transitive R}.

Lemma merge_sort_elem_of (l : list A) x : x ∈ merge_sort R l <-> x ∈ l.
Proof. by rewrite (merge_sort_Permutation R l). Qed.

Lemma merge_sort_head_min (l : list A) x xs y :
  merge_sort R l = x :: xs -> y ∈ l -> R x y.
Proof.
  intros E Hy. assert (y ∈ x :: xs) as Hin by (rewrite <- E; by apply merge_sort_elem_of).
  pose proof (StronglySorted_merge_sort R l) as Hs. rewrite E in Hs.
  apply elem_of_cons in Hin as [->|Hin].
  - by destruct (total R x x).
  - apply StronglySorted_inv in Hs as [_ Hall]. by eapply (proj1 (Forall_forall _ _) Hall).
Qed.

Lemma merge_sort_nil_inv (l : list A) : merge_sort R l = [] -> l = [].
Proof.
  intros E. pose proof (merge_sort_Permutation R l) as P. rewrite E in P.
  by apply Permutation_nil_l in P.
Qed.
End Selection.

(** ** Automation *)

(** Case analysis on the guards and matches of a handler. *)
Ltac go_step :=
  match goal with
  | H : (_, _) = (_, _) |- _ => injection H as ? ?; subst
  | H : Ok _ = Ok _ |- _ => injection H as ?; subst
  | H : Some _ = Some _ |- _ => injection H as ?; subst
  | H : Ok _ = Err _ |- _ => discriminate H
  | H : Err _ = Ok _ |- _ => discriminate H
  | H : Panicked _ = Ok _ |- _ => discriminate H
  | H : Ok _ = Panicked _ |- _ => discriminate H
  | H : context [if ?b then _ else _] |- _ => destruct b eqn:?
  | H : context [match ?x with _ => _ end] |- _ => destruct x eqn:?
  end.
Ltac go_inv H := repeat (first [progress simplify_eq/= | go_step]).

Ltac bool_prop :=
  repeat match goal with
  | H : andb _ _ = true |- _ => apply andb_true_iff in H as [? ?]
  | H : andb _ _ = false |- _ => apply andb_false_iff in H
  | H : orb _ _ = false |- _ => apply orb_false_iff in H as [? ?]
  | H : orb _ _ = true |- _ => apply orb_true_iff in H
  | H : negb _ = true |- _ => apply negb_true_iff in H
  | H : negb _ = false |- _ => apply negb_false_iff in H
  | H : Z.ltb _ _ = true |- _ => apply Z.ltb_lt in H
  | H : Z.ltb _ _ = false |- _ => apply Z.ltb_ge in H
  | H : Z.leb _ _ = true |- _ => apply Z.leb_le in H
  | H : Z.leb _ _ = false |- _ => apply Z.leb_gt in H
  | H : Z.eqb _ _ = true |- _ => apply Z.eqb_eq in H
  | H : Z.eqb _ _ = false |- _ => apply Z.eqb_neq in H
  | H : String.eqb _ _ = true |- _ => apply String.eqb_eq in H
  | H : String.eqb _ _ = false |- _ => apply String.eqb_neq in H
  | H : bool_decide _ = true |- _ => apply bool_decide_eq_true in H
  | H : bool_decide _ = false |- _ => apply bool_decide_eq_false in H
  end.

Create HintDb go.
#[export] Hint Resolve wrap64_range : go.
