(* ===== verification/GoTime.v ===== *)
(** * Go's [time] package as the framework uses it

    An instant ([time.Time]) is the number of nanoseconds since the zero time,
    0001-01-01T00:00:00 UTC, so [IsZero] is equality with [0], [After] and
    [Before] are [<], and [UTC()] is the identity.  A [Duration] is a 64-bit
    count of nanoseconds.  A location is its [lookup] function: the offset in
    force at a second, with the bounds of its validity, exactly what
    [time.Date] consults.  The calendar is the proleptic Gregorian one. *)
From S2P Require Import Prelude.
Open Scope Z_scope.
Open Scope go_scope.

Abbreviation time := Z (only parsing).
Abbreviation Duration := Z (only parsing).

Definition Nanosecond : Z := 1.
Definition Millisecond : Z := 1000000.
Definition Second : Z := 1000000000.
Definition Minute : Z := 60 * Second.
Definition Hour : Z := 60 * Minute.

Definition zero_time : Z := 0.
Definition IsZero (t : Z) : bool := t =? 0.
Definition After (t u : Z) : bool := u <? t.
Definition Before (t u : Z) : bool := t <? u.
Definition Equal (t u : Z) : bool := t =? u.

(** [t.Sub(u)] saturates at the ends of the [Duration] range. *)
Definition Sub (t u : Z) : Z := Z.max int64_min (Z.min int64_max (t - u)).

(** [t.Truncate(d)]: rounds down to a multiple of [d] since the zero time. *)
Definition Truncate (t d : Z) : Z := if d <=? 0 then t else t - t mod d.

(** ** Calendar *)

Record civil := Civil { civ_year : Z; civ_month : Z; civ_day : Z }.

(** Days since 0001-01-01 to year, month, day, and back.  Years of the
    computation start in March; an era is 400 years, 146097 days. *)
Definition civil_of_days (days : Z) : civil :=
  let z := days + 306 in
  let era := z / 146097 in
  let doe := z mod 146097 in
  let yoe := (doe - doe / 1460 + doe / 36524 - doe / 146096) / 365 in
  let doy := doe - (365 * yoe + yoe / 4 - yoe / 100) in
  let mp := (5 * doy + 2) / 153 in
  let m := if mp <? 10 then mp + 3 else mp - 9 in
  Civil (yoe + era * 400 + (if m <=? 2 then 1 else 0)) m (doy - (153 * mp + 2) / 5 + 1).

Definition days_of_civil (y m d : Z) : Z :=
  let y' := if m <=? 2 then y - 1 else y in
  let era := y' / 400 in
  let yoe := y' mod 400 in
  let doy := (153 * (if 2 <? m then m - 3 else m + 9) + 2) / 5 + d - 1 in
  era * 146097 + (yoe * 365 + yoe / 4 - yoe / 100 + doy) - 306.

(** Sunday is [0]; 0001-01-01 was a Monday. *)
Definition weekday_of_days (days : Z) : Z := (days + 1) mod 7.

(** ** Locations *)

Record zone_span := ZoneSpan { zs_offset : Z; zs_start : Z; zs_end : Z }.

(** Seconds since the zero time to the zone in force. *)
Abbreviation Location := (Z -> zone_span).

Definition FixedZone (offset : Z) : Location :=
  fun _ => ZoneSpan offset int64_min int64_max.
Definition UTC : Location := FixedZone 0.

Definition seconds (t : Z) : Z := t / Second.

(** Seconds of the wall clock that [t.In(loc)] shows. *)
Definition local_seconds (loc : Location) (t : Z) : Z :=
  seconds t + zs_offset (loc (seconds t)).

Definition local_day (loc : Location) (t : Z) : Z := local_seconds loc t / 86400.
Definition Year (loc : Location) (t : Z) : Z := civ_year (civil_of_days (local_day loc t)).
Definition Month (loc : Location) (t : Z) : Z := civ_month (civil_of_days (local_day loc t)).
Definition Day (loc : Location) (t : Z) : Z := civ_day (civil_of_days (local_day loc t)).
Definition Weekday (loc : Location) (t : Z) : Z := weekday_of_days (local_day loc t).
Definition ClockHour (loc : Location) (t : Z) : Z := local_seconds loc t mod 86400 / 3600.
Definition ClockMinute (loc : Location) (t : Z) : Z := local_seconds loc t mod 3600 / 60.
Definition ClockSecond (loc : Location) (t : Z) : Z := local_seconds loc t mod 60.
Definition ClockNanosecond (t : Z) : Z := t mod Second.

(** [time.Date]: months out of range carry into the year, days, hours, minutes
    and seconds out of range carry along the time line, and the offset is the
    one looked up at the wall clock read as UTC, corrected once when that
    offset is not in force at the instant it gives. *)
Definition Date (year month day hour min sec nsec : Z) (loc : Location) : Z :=
  let y := year + (month - 1) / 12 in
  let m := (month - 1) mod 12 + 1 in
  let wall := days_of_civil y m day * 86400 + hour * 3600 + min * 60 + sec in
  let span := loc wall in
  let offset :=
    if zs_offset span =? 0 then 0
    else let utc := wall - zs_offset span in
         if (utc <? zs_start span) || (zs_end span <=? utc)
         then zs_offset (loc utc) else zs_offset span in
  (wall - offset) * Second + nsec.

Definition AddDate (loc : Location) (t years months days : Z) : Z :=
  Date (Year loc t + years) (Month loc t + months) (Day loc t + days)
    (ClockHour loc t) (ClockMinute loc t) (ClockSecond loc t) (ClockNanosecond t) loc.

(** First day of the month after the month of day [z]. *)
Definition next_month_day (z : Z) : Z :=
  let c := civil_of_days z in
  let month := civ_month c + 1 in
  days_of_civil (civ_year c + (month - 1) / 12) ((month - 1) mod 12 + 1) 1.

(** ** The calendar in March-based years

    [yst y] counts the days before March 1st of year [y] since March 1st of
    year 0; a day is a March-based year, a month [0..11] of it and an offset. *)
Definition yst (y : Z) : Z := 365 * y + y / 4 - y / 100 + y / 400.
Definition march_year (days : Z) : Z :=
  let z := days + 306 in
  let doe := z mod 146097 in
  (doe - doe / 1460 + doe / 36524 - doe / 146096) / 365 + z / 146097 * 400.
Definition march_month (days : Z) : Z := (5 * (days + 306 - yst (march_year days)) + 2) / 153.

Module Euclid.
Ltac Zify.zify_post_hook ::= Z.to_euclidean_division_equations.

Lemma yoe_spec doe : 0 <= doe < 146097 ->
  let yoe := (doe - doe / 1460 + doe / 36524 - doe / 146096) / 365 in
  0 <= yoe <= 399 /\ 365 * yoe + yoe / 4 - yoe / 100 <= doe /\
  (doe < 365 * (yoe + 1) + (yoe + 1) / 4 - (yoe + 1) / 100 \/ (yoe = 399 /\ doe <= 146096)).
Proof. intros H. cbv zeta. lia. Qed.

Lemma yst_era yoe era : 0 <= yoe <= 399 ->
  yst (yoe + era * 400) = 365 * yoe + yoe / 4 - yoe / 100 + 146097 * era.
Proof. unfold yst. lia. Qed.

Lemma yst_step y : yst y + 365 <= yst (y + 1) <= yst y + 366.
Proof. unfold yst. lia. Qed.

Lemma yst_mono y y' : y < y' -> yst y + 365 <= yst y'.
Proof. unfold yst. lia. Qed.

Lemma month_of_doy doy mp : 0 <= mp <= 11 -> doy <= 365 ->
  (153 * mp + 2) / 5 <= doy -> (mp = 11 \/ doy < (153 * (mp + 1) + 2) / 5) ->
  (5 * doy + 2) / 153 = mp.
Proof. lia. Qed.

Lemma doy_month doy : 0 <= doy <= 365 ->
  let mp := (5 * doy + 2) / 153 in
  0 <= mp <= 11 /\ (153 * mp + 2) / 5 <= doy /\
  doy < (153 * (mp + 1) + 2) / 5 /\ doy - (153 * mp + 2) / 5 <= 30.
Proof. cbv zeta. lia. Qed.

Lemma month_length mp : (153 * (mp + 1) + 2) / 5 <= (153 * mp + 2) / 5 + 31.
Proof. lia. Qed.

Lemma days_of_civil_yst y m d : 1 <= m <= 12 ->
  days_of_civil y m d =
  yst (if m <=? 2 then y - 1 else y) +
  (153 * (if m <=? 2 then m + 9 else m - 3) + 2) / 5 + d - 1 - 306.
Proof.
  intros Hm. unfold days_of_civil, yst.
  destruct (Z.leb_spec m 2), (Z.ltb_spec 2 m); lia.
Qed.
End Euclid.

Lemma march_spec z :
  yst (march_year z) <= z + 306 < yst (march_year z + 1).
Proof.
  unfold march_year. cbv zeta.
  pose proof (Euclid.yoe_spec ((z + 306) mod 146097)) as H. cbv zeta in H.
  specialize (H ltac:(apply Z.mod_pos_bound; lia)).
  set (doe := (z + 306) mod 146097) in *. set (yoe := (doe - _ + _ - _) / 365) in *.
  destruct H as (Hy & Hlo & Hhi).
  pose proof (Z.div_mod (z + 306) 146097 ltac:(lia)) as E. fold doe in E.
  rewrite Euclid.yst_era by done. split; [lia|].
  destruct (Z.eq_dec yoe 399) as [E399|Hne].
  - rewrite E399. replace (399 + (z + 306) / 146097 * 400 + 1)
      with (0 + ((z + 306) / 146097 + 1) * 400) by lia.
    rewrite Euclid.yst_era by lia. cbn. pose proof (Z.mod_pos_bound (z + 306) 146097). lia.
  - replace (yoe + (z + 306) / 146097 * 400 + 1) with (yoe + 1 + (z + 306) / 146097 * 400) by lia.
    rewrite Euclid.yst_era by lia. lia.
Qed.

Lemma march_unique y y' x :
  yst y <= x < yst (y + 1) -> yst y' <= x < yst (y' + 1) -> y = y'.
Proof.
  intros H H'. destruct (Z.lt_trichotomy y y') as [Hl|[->|Hl]]; [|done|].
  - destruct (Z.eq_dec y' (y + 1)) as [->|]; [lia|].
    pose proof (Euclid.yst_mono (y + 1) y'). lia.
  - destruct (Z.eq_dec y (y' + 1)) as [->|]; [lia|].
    pose proof (Euclid.yst_mono (y' + 1) y). lia.
Qed.

Lemma march_doy z : 0 <= z + 306 - yst (march_year z) <= 365.
Proof. pose proof (march_spec z). pose proof (Euclid.yst_step (march_year z)). lia. Qed.

Lemma civil_march z :
  civil_of_days z =
  let Y := march_year z in let mp := march_month z in
  let m := if mp <? 10 then mp + 3 else mp - 9 in
  Civil (Y + (if m <=? 2 then 1 else 0)) m (z + 306 - yst Y - (153 * mp + 2) / 5 + 1).
Proof.
  unfold civil_of_days, march_month, march_year. cbv zeta.
  pose proof (Euclid.yoe_spec ((z + 306) mod 146097)) as H. cbv zeta in H.
  specialize (H ltac:(apply Z.mod_pos_bound; lia)).
  pose proof (Z.div_mod (z + 306) 146097 ltac:(lia)) as E.
  set (doe := (z + 306) mod 146097) in *. set (yoe := (doe - _ + _ - _) / 365) in *.
  destruct H as (Hy & _ & _). rewrite Euclid.yst_era by done.
  replace (z + 306 - (365 * yoe + yoe / 4 - yoe / 100 + 146097 * ((z + 306) / 146097)))
    with (doe - (365 * yoe + yoe / 4 - yoe / 100)) by lia.
  done.
Qed.

Lemma civil_valid z :
  1 <= civ_month (civil_of_days z) <= 12 /\ 1 <= civ_day (civil_of_days z) <= 31.
Proof.
  rewrite civil_march. cbv zeta. cbn [civ_month civ_day].
  pose proof (Euclid.doy_month _ (march_doy z)) as H. cbv zeta in H.
  fold (march_month z) in H. destruct (Z.ltb_spec (march_month z) 10); lia.
Qed.

Lemma days_of_civil_of_days z :
  days_of_civil (civ_year (civil_of_days z)) (civ_month (civil_of_days z))
    (civ_day (civil_of_days z)) = z.
Proof.
  rewrite Euclid.days_of_civil_yst by apply civil_valid.
  rewrite civil_march. cbv zeta. cbn [civ_year civ_month civ_day].
  pose proof (Euclid.doy_month _ (march_doy z)) as H. cbv zeta in H.
  fold (march_month z) in H. destruct (Z.ltb_spec (march_month z) 10).
  - destruct (Z.leb_spec (march_month z + 3) 2); [lia|].
    rewrite Z.add_0_r. replace (march_month z + 3 - 3) with (march_month z) by lia. lia.
  - destruct (Z.leb_spec (march_month z - 9) 2); [|lia].
    replace (march_year z + 1 - 1) with (march_year z) by lia.
    replace (march_month z - 9 + 9) with (march_month z) by lia. lia.
Qed.

Lemma next_month_march z :
  next_month_day z + 306 =
  if march_month z <? 11 then yst (march_year z) + (153 * (march_month z + 1) + 2) / 5
  else yst (march_year z + 1).
Proof.
  unfold next_month_day. cbv zeta.
  pose proof (civil_valid z) as [Hv _].
  rewrite Euclid.days_of_civil_yst
    by (pose proof (Z.mod_pos_bound (civ_month (civil_of_days z) + 1 - 1) 12); lia).
  rewrite civil_march in *. cbv zeta in *. cbn [civ_year civ_month civ_day] in *.
  pose proof (Euclid.doy_month _ (march_doy z)) as H. cbv zeta in H.
  fold (march_month z) in H. set (mp := march_month z) in *. set (Y := march_year z).
  assert (mp < 9 \/ mp = 9 \/ mp = 10 \/ mp = 11) as [Hlt|[->|[->| ->]]] by lia.
  - rewrite (proj2 (Z.ltb_lt mp 10)), (proj2 (Z.ltb_lt mp 11)) by lia.
    rewrite (proj2 (Z.leb_gt (mp + 3) 2)) by lia.
    replace (mp + 3 + 1 - 1) with (mp + 3) by lia.
    rewrite Z.mod_small, Z.div_small by lia.
    rewrite (proj2 (Z.leb_gt (mp + 3 + 1) 2)) by lia.
    rewrite !Z.add_0_r. replace (mp + 3 + 1 - 3) with (mp + 1) by lia. lia.
  - change (yst (Y + 0 + 1 - 1) + 306 + 1 - 1 - 306 + 306 = yst Y + 306).
    replace (Y + 0 + 1 - 1) with Y by lia. lia.
  - change (yst (Y + 1 + 0 - 1) + 337 + 1 - 1 - 306 + 306 = yst Y + 337).
    replace (Y + 1 + 0 - 1) with Y by lia. lia.
  - change (yst (Y + 1 + 0) + 0 + 1 - 1 - 306 + 306 = yst (Y + 1)).
    replace (Y + 1 + 0) with (Y + 1) by lia. lia.
Qed.

Lemma next_month_bounds z : z < next_month_day z <= z + 31.
Proof.
  pose proof (next_month_march z) as E.
  pose proof (Euclid.doy_month _ (march_doy z)) as H. cbv zeta in H.
  fold (march_month z) in H. pose proof (march_spec z). pose proof (Euclid.yst_step (march_year z)).
  destruct (Z.ltb_spec (march_month z) 11).
  - pose proof (Euclid.month_length (march_month z)). lia.
  - assert (march_month z = 11) as E11 by lia. rewrite E11 in *.
    change ((153 * 11 + 2) / 5) with 337 in *. lia.
Qed.

(** Days before the first of the next month are in the same month. *)
Lemma same_month_until z x :
  z <= x < next_month_day z ->
  civ_month (civil_of_days x) = civ_month (civil_of_days z) /\
  civ_year (civil_of_days x) = civ_year (civil_of_days z).
Proof.
  intros Hx. pose proof (next_month_march z) as E.
  pose proof (Euclid.doy_month _ (march_doy z)) as H. cbv zeta in H.
  fold (march_month z) in H. pose proof (march_spec z) as Hz.
  pose proof (Euclid.yst_step (march_year z)) as Hstep.
  assert (x + 306 < yst (march_year z + 1)) as Hxy.
  { destruct (Z.ltb_spec (march_month z) 11); [|lia].
    assert ((153 * (march_month z + 1) + 2) / 5 <= (153 * 11 + 2) / 5)
      by (apply Z.div_le_mono; lia).
    change ((153 * 11 + 2) / 5) with 337 in *. lia. }
  assert (march_year x = march_year z) as EY.
  { eapply march_unique; [apply march_spec|lia]. }
  assert (march_month x = march_month z) as EM.
  { unfold march_month at 1. rewrite EY. apply Euclid.month_of_doy; [lia..|].
    destruct (Z.ltb_spec (march_month z) 11); lia. }
  rewrite !civil_march. cbv zeta. cbn [civ_year civ_month]. by rewrite EY, EM.
Qed.

(** Moving within a month is addition. *)
Lemma days_of_civil_add y m d k : days_of_civil y m (d + k) = days_of_civil y m d + k.
Proof. unfold days_of_civil. destruct (m <=? 2); lia. Qed.

#[global] Opaque civil_of_days days_of_civil yst march_year march_month.

(** ** Unix microseconds *)

Definition unix_epoch : Z := 62135596800 * Second.   (* 1970-01-01T00:00:00Z *)

(** [t.UnixMicro()]: the microseconds since the epoch, rounded down; instants
    too far away wrap around. *)
Definition UnixMicro (t : Z) : Z := wrap64 ((t - unix_epoch) / 1000).
(** [time.UnixMicro(usec)]. *)
Definition FromUnixMicro (usec : Z) : Z := usec * 1000 + unix_epoch.

(** An instant at the resolution of microseconds. *)
Definition to_microseconds (t : Z) : Z := FromUnixMicro (UnixMicro t).

Lemma FromUnixMicro_le a b : FromUnixMicro a <= FromUnixMicro b <-> a <= b.
Proof. unfold FromUnixMicro. lia. Qed.
Lemma FromUnixMicro_inj a b : FromUnixMicro a = FromUnixMicro b <-> a = b.
Proof. unfold FromUnixMicro. lia. Qed.

Lemma UnixMicro_FromUnixMicro usec : in_int64 usec -> UnixMicro (FromUnixMicro usec) = usec.
Proof.
  intros H. unfold UnixMicro, FromUnixMicro.
  replace (usec * 1000 + unix_epoch - unix_epoch) with (usec * 1000) by lia.
  rewrite Z.div_mul by lia. by apply wrap64_id.
Qed.

(** An instant in range loses less than a microsecond. *)
Lemma to_microseconds_bounds t : in_int64 ((t - unix_epoch) / 1000) ->
  to_microseconds t <= t < to_microseconds t + 1000.
Proof.
  intros H. unfold to_microseconds, UnixMicro, FromUnixMicro. rewrite wrap64_id by done.
  pose proof (Z.div_mod (t - unix_epoch) 1000 ltac:(lia)). pose proof (Z.mod_pos_bound (t - unix_epoch) 1000). lia.
Qed.
