(* ===== verification/GoStrings.v ===== *)
(** * Go strings: the parts of [strings], [strconv] and [unicode/utf8] used

    A Go string is its bytes: a [string] whose characters are bytes.  The
    definitions follow the documented behaviour of the standard library,
    including its treatment of Unicode white space and of invalid UTF-8. *)
From S2P Require Import Prelude.
From stdpp Require Import pretty.
Open Scope Z_scope.
Open Scope go_scope.

Definition byte_of (c : ascii) : Z := Z.of_N (N_of_ascii c).
Definition chr (z : Z) : ascii := ascii_of_N (Z.to_N z).

Fixpoint string_length (s : string) : Z :=
  match s with EmptyString => 0 | String _ r => 1 + string_length r end.

Fixpoint bytes (l : list Z) : string :=
  match l with [] => EmptyString | z :: l => String (chr z) (bytes l) end.

Fixpoint string_forall (P : ascii -> bool) (s : string) : bool :=
  match s with EmptyString => true | String c r => P c && string_forall P r end.

Fixpoint contains_char (c : ascii) (s : string) : bool :=
  match s with EmptyString => false | String d r => Ascii.eqb c d || contains_char c r end.

(** [strings.HasPrefix], and the rest after the prefix. *)
Fixpoint cut_prefix (p s : string) : option string :=
  match p, s with
  | EmptyString, _ => Some s
  | String a p, String b s => if Ascii.eqb a b then cut_prefix p s else None
  | String _ _, EmptyString => None
  end.
Definition has_prefix (p s : string) : bool :=
  match cut_prefix p s with Some _ => true | None => false end.

(** [strings.Contains]. *)
Fixpoint contains (p s : string) : bool :=
  has_prefix p s || match s with EmptyString => false | String _ r => contains p r end.

(** [strings.Split] with a one-byte separator. *)
Fixpoint split (sep : ascii) (s : string) : list string :=
  match s with
  | EmptyString => [EmptyString]
  | String c r =>
      if Ascii.eqb c sep then EmptyString :: split sep r
      else match split sep r with
           | [] => [String c EmptyString]
           | x :: xs => String c x :: xs
           end
  end.

(** [strings.Cut] with a one-byte separator: before, after, found. *)
Fixpoint cut (sep : ascii) (s : string) : string * string * bool :=
  match s with
  | EmptyString => (EmptyString, EmptyString, false)
  | String c r =>
      if Ascii.eqb c sep then (EmptyString, r, true)
      else let '(b, a, ok) := cut sep r in (String c b, a, ok)
  end.

Fixpoint join (sep : string) (l : list string) : string :=
  match l with
  | [] => EmptyString
  | [x] => x
  | x :: l => x +:+ sep +:+ join sep l
  end.

(** ** White space: [unicode.IsSpace] *)

Definition wide_spaces : list string :=
  map bytes ([[194;133]; [194;160]; [225;154;128]; [226;128;168]; [226;128;169]; [226;128;175];
   [226;129;159]; [227;128;128]] ++ map (fun d => [226;128;128 + d]) [0;1;2;3;4;5;6;7;8;9;10]).

Definition ascii_space (c : ascii) : bool :=
  let b := byte_of c in ((9 <=? b) && (b <=? 13)) || (b =? 32).

(** The rest of [s] after a leading white-space rune. *)
Definition cut_space (s : string) : option string :=
  match s with
  | EmptyString => None
  | String c r => if ascii_space c then Some r
                  else head (omap (fun w => cut_prefix w s) wide_spaces)
  end.

Fixpoint trim_left_go (fuel : nat) (s : string) : string :=
  match fuel with
  | O => s
  | S fuel => match cut_space s with Some r => trim_left_go fuel r | None => s end
  end.
Definition trim_left (s : string) : string := trim_left_go (String.length s) s.

Definition all_space (s : string) : bool := String.eqb (trim_left s) EmptyString.

(** Cuts where the rest is nothing but white space. *)
Fixpoint trim_right (s : string) : string :=
  match s with
  | EmptyString => EmptyString
  | String c r => if all_space s then EmptyString else String c (trim_right r)
  end.

Definition TrimSpace (s : string) : string := trim_right (trim_left s).

(** [strings.Fields]: the maximal runs without white space. *)
Fixpoint fields_go (fuel : nat) (s current : string) : list string :=
  match fuel with
  | O => []
  | S fuel =>
      match s with
      | EmptyString => if String.eqb current EmptyString then [] else [current]
      | String c r =>
          match cut_space s with
          | Some r' => if String.eqb current EmptyString then fields_go fuel r' EmptyString
                       else current :: fields_go fuel r' EmptyString
          | None => fields_go fuel r (current +:+ String c EmptyString)
          end
      end
  end.
Definition Fields (s : string) : list string := fields_go (S (String.length s)) s EmptyString.

(** [strings.Trim(s, cutset)] for one cutset byte. *)
Fixpoint trim_char_left (c : ascii) (s : string) : string :=
  match s with
  | EmptyString => EmptyString
  | String d r => if Ascii.eqb c d then trim_char_left c r else s
  end.
Fixpoint trim_char_right (c : ascii) (s : string) : string :=
  match s with
  | EmptyString => EmptyString
  | String d r => match trim_char_right c r with
                  | EmptyString => if Ascii.eqb c d then EmptyString else String d EmptyString
                  | r' => String d r'
                  end
  end.
Definition Trim (c : ascii) (s : string) : string := trim_char_right c (trim_char_left c s).

(** [strings.ToUpper], as far as the result is ASCII: besides [a-z], the two
    runes U+0131 and U+017F have ASCII upper cases; every other non-ASCII rune
    stays non-ASCII and is kept as it is. *)
Fixpoint to_upper (s : string) : string :=
  match s with
  | EmptyString => EmptyString
  | String c r =>
      let b := byte_of c in
      match r with
      | String d r' =>
          if (b =? 196) && (byte_of d =? 177) then String "I"%char (to_upper r')
          else if (b =? 197) && (byte_of d =? 191) then String "S"%char (to_upper r')
          else if (97 <=? b) && (b <=? 122) then String (chr (b - 32)) (to_upper r)
          else String c (to_upper r)
      | EmptyString =>
          if (97 <=? b) && (b <=? 122) then String (chr (b - 32)) EmptyString
          else String c EmptyString
      end
  end.

(** ** Numbers: [strconv] *)

Definition digit_value (c : ascii) : option Z :=
  let b := byte_of c in if (48 <=? b) && (b <=? 57) then Some (b - 48) else None.

Fixpoint parse_digits (acc : Z) (s : string) : option Z :=
  match s with
  | EmptyString => Some acc
  | String c r => match digit_value c with
                  | Some d => parse_digits (10 * acc + d) r
                  | None => None
                  end
  end.

(** [strconv.ParseUint(s, 10, 64)]. *)
Definition ParseUint (s : string) : option Z :=
  match s with
  | EmptyString => None
  | _ => match parse_digits 0 s with
         | Some n => if n <=? uint64_max then Some n else None
         | None => None
         end
  end.

(** [strconv.FormatUint(n, 10)]. *)
Definition FormatUint (n : Z) : string := pretty (Z.to_N n).

(** [strconv.Atoi]: an optional sign, then digits, within [int]. *)
Definition Atoi (s : string) : option Z :=
  let number (neg : bool) (digits : string) :=
    match digits with
    | EmptyString => None
    | _ => match parse_digits 0 digits with
           | Some n => let v := if neg then - n else n in
                       if (int64_min <=? v) && (v <=? int64_max) then Some v else None
           | None => None
           end
    end in
  match s with
  | String c r => if Ascii.eqb c "-"%char then number true r
                  else if Ascii.eqb c "+"%char then number false r
                  else number false s
  | EmptyString => None
  end.

(** [strconv.Itoa]. *)
Definition Itoa (z : Z) : string :=
  if z <? 0 then "-" +:+ FormatUint (- z) else FormatUint z.

(** ** UTF-8 *)

Definition in_range (lo hi : Z) (c : ascii) : bool := (lo <=? byte_of c) && (byte_of c <=? hi).

(** The leading well-formed rune: its width and the rest.  [None] when the
    first byte does not start one (then Go decodes one byte as U+FFFD). *)
Definition cut_rune (s : string) : option (Z * string) :=
  match s with
  | EmptyString => None
  | String a r =>
      let cont := in_range 128 191 in
      if byte_of a <? 128 then Some (1, r)
      else if in_range 194 223 a then
        match r with String b r => if cont b then Some (2, r) else None | _ => None end
      else if in_range 224 239 a then
        let lo := if byte_of a =? 224 then 160 else 128 in
        let hi := if byte_of a =? 237 then 159 else 191 in
        match r with
        | String b (String c r) => if in_range lo hi b && cont c then Some (3, r) else None
        | _ => None
        end
      else if in_range 240 244 a then
        let lo := if byte_of a =? 240 then 144 else 128 in
        let hi := if byte_of a =? 244 then 143 else 191 in
        match r with
        | String b (String c (String d r)) =>
            if in_range lo hi b && cont c && cont d then Some (4, r) else None
        | _ => None
        end
      else None
  end.

Fixpoint valid_go (fuel : nat) (s : string) : bool :=
  match fuel, s with
  | _, EmptyString => true
  | O, _ => false
  | S fuel, _ => match cut_rune s with Some (_, r) => valid_go fuel r | None => false end
  end.
(** [utf8.ValidString]. *)
Definition ValidString (s : string) : bool := valid_go (String.length s) s.

Fixpoint rune_count_go (fuel : nat) (s : string) : Z :=
  match fuel, s with
  | _, EmptyString => 0
  | O, _ => 0
  | S fuel, String _ r =>
      1 + match cut_rune s with Some (_, r') => rune_count_go fuel r' | None => rune_count_go fuel r end
  end.
(** [utf8.RuneCountInString]. *)
Definition RuneCountInString (s : string) : Z := rune_count_go (String.length s) s.

Definition take_bytes (n : Z) (s : string) : string := String.substring 0 (Z.to_nat n) s.

(** [for !utf8.ValidString(value) { value = value[:len(value)-1] }] *)
Fixpoint shorten_to_valid (fuel : nat) (value : string) : string :=
  if ValidString value then value
  else match fuel with
       | O => value
       | S fuel => shorten_to_valid fuel (take_bytes (string_length value - 1) value)
       end.

(** ** Quoting: the verb [%q] *)
Definition hex_char (d : Z) : ascii := if d <? 10 then chr (48 + d) else chr (87 + d).
Definition hex_escape (b : Z) : string :=
  String (chr 92) (String (chr 120) (String (hex_char (b / 16)) (String (hex_char (b mod 16)) EmptyString))).

(** [strconv.Quote]: the short escapes, [\x] escapes for other control bytes
    and for bytes that start no rune.  Runes beyond ASCII are kept: those that
    [unicode.IsPrint] refuses, which Go escapes, are not told apart. *)
Definition quote_ascii (b : Z) : string :=
  let short (c : Z) := String (chr 92) (String (chr c) EmptyString) in
  if (b =? 34) || (b =? 92) then short b
  else if b =? 7 then short 97 else if b =? 8 then short 98 else if b =? 12 then short 102
  else if b =? 10 then short 110 else if b =? 13 then short 114 else if b =? 9 then short 116
  else if b =? 11 then short 118
  else if (b <? 32) || (b =? 127) then hex_escape b
  else String (chr b) EmptyString.
Fixpoint quote_go (fuel : nat) (s : string) : string :=
  match fuel, s with
  | O, _ => EmptyString
  | _, EmptyString => EmptyString
  | S fuel, String a r =>
      if byte_of a <? 128 then quote_ascii (byte_of a) +:+ quote_go fuel r
      else match cut_rune s with
           | Some (width, rest) => take_bytes width s +:+ quote_go fuel rest
           | None => hex_escape (byte_of a) +:+ quote_go fuel r
           end
  end.
Definition Quote (s : string) : string :=
  String (chr 34) (quote_go (String.length s) s +:+ String (chr 34) EmptyString).

(** The lower-case hexadecimal strings that [hex.EncodeToString] produces. *)
Definition lower_hex (c : ascii) : bool := in_range 48 57 c || in_range 97 102 c.

(** Go's [<=] and [<] on strings: byte order. *)
Definition string_le (a b : string) : bool := String.leb a b.
Definition string_lt (a b : string) : bool := String.ltb a b.

(** ** Lemmas *)

Lemma string_length_nat s : string_length s = Z.of_nat (String.length s).
Proof. induction s as [|c s IH]; cbn [string_length String.length]; lia. Qed.

Lemma string_app_assoc (a b c : string) : a +:+ (b +:+ c) = (a +:+ b) +:+ c.
Proof. induction a as [|x a IH]; [done|]. by apply (f_equal (String x)). Qed.
Lemma string_app_nil_r (a : string) : a +:+ EmptyString = a.
Proof. induction a as [|x a IH]; [done|]. by apply (f_equal (String x)). Qed.
Lemma string_length_app s t : string_length (s +:+ t) = string_length s + string_length t.
Proof.
  induction s as [|c s IH]; [done|].
  change (String c s +:+ t) with (String c (s +:+ t)). cbn [string_length]. lia.
Qed.

Lemma string_length_pos s : 0 <= string_length s.
Proof. rewrite string_length_nat. lia. Qed.

Lemma parse_digits_go x : (0 <= x)%N -> forall s,
  parse_digits 0 (pretty_N_go x s) = parse_digits (Z.of_N x) s.
Proof.
  intros _. induction (N.lt_wf_0 x) as [x _ IH]. intros s.
  destruct (decide (0 < x)%N) as [Hpos|Hz].
  - rewrite pretty_N_go_step by done. rewrite IH by (apply N.div_lt; lia).
    cbn [parse_digits].
    assert (digit_value (pretty_N_char (x `mod` 10)) = Some (Z.of_N (x `mod` 10))) as ->.
    { assert (x `mod` 10 < 10)%N as Hlt by (apply N.mod_lt; lia).
      assert (forall d, (d < 10)%N -> digit_value (pretty_N_char d) = Some (Z.of_N d)) as Hd.
      { intros d Hd.
        assert (d = 0 \/ d = 1 \/ d = 2 \/ d = 3 \/ d = 4 \/ d = 5 \/ d = 6 \/ d = 7 \/ d = 8 \/ d = 9)%N
          as Hcases by lia.
        repeat destruct Hcases as [->|Hcases]; [reflexivity..|by subst]. }
      by apply Hd. }
    f_equal. pose proof (N.div_mod x 10 ltac:(lia)). lia.
  - assert (x = 0%N) as -> by lia. by rewrite pretty_N_go_0.
Qed.

Lemma parse_digits_FormatUint n : 0 <= n -> parse_digits 0 (FormatUint n) = Some n.
Proof.
  intros Hn. unfold FormatUint, pretty, pretty_N. destruct (decide (Z.to_N n = 0%N)) as [Hz|Hnz].
  - assert (n = 0) as -> by lia. reflexivity.
  - rewrite parse_digits_go by lia. cbn [parse_digits]. f_equal. lia.
Qed.

Lemma digits_first c r n : parse_digits 0 (String c r) = Some n -> Ascii.eqb c "-"%char = false /\ Ascii.eqb c "+"%char = false.
Proof.
  intros H. split; apply Ascii.eqb_neq; intros ->; done.
Qed.

Lemma FormatUint_not_empty n : 0 <= n -> FormatUint n <> EmptyString.
Proof.
  unfold FormatUint, pretty, pretty_N. intros Hn. destruct (decide (Z.to_N n = 0%N)); [done|].
  rewrite pretty_N_go_step by lia. 
  assert (forall x s c, pretty_N_go x (String c s) <> EmptyString) as Hne; [|apply Hne].
  clear. intros x. induction (N.lt_wf_0 x) as [x _ IH]. intros s c. destruct (decide (0 < x)%N).
  - rewrite pretty_N_go_step by done. apply IH. apply N.div_lt; lia.
  - assert (x = 0%N) as -> by lia. by rewrite pretty_N_go_0.
Qed.

Lemma Atoi_Itoa n : in_int64 n -> Atoi (Itoa n) = Some n.
Proof.
  unfold in_int64. intros Hn. unfold Itoa. destruct (Z.ltb_spec n 0) as [Hneg|Hpos].
  - change ("-" +:+ FormatUint (- n)) with (String "-"%char (FormatUint (- n))). cbn [Atoi Ascii.eqb Bool.eqb].
    pose proof (parse_digits_FormatUint (- n) ltac:(lia)) as Hp.
    destruct (FormatUint (- n)) as [|c r] eqn:E; [by apply FormatUint_not_empty in E; [|lia]|].
    rewrite Hp. replace (- - n) with n by lia.
    by rewrite (proj2 (Z.leb_le int64_min n)), (proj2 (Z.leb_le n int64_max)) by lia.
  - pose proof (parse_digits_FormatUint n ltac:(lia)) as Hp.
    destruct (FormatUint n) as [|c r] eqn:E; [by apply FormatUint_not_empty in E|].
    destruct (digits_first _ _ _ Hp) as [H1 H2]. unfold Atoi. rewrite H1, H2, Hp.
    by rewrite (proj2 (Z.leb_le int64_min n)), (proj2 (Z.leb_le n int64_max)) by lia.
Qed.

(** Parsing what was printed gives the number back. *)
Lemma ParseUint_FormatUint n : 0 <= n <= uint64_max -> ParseUint (FormatUint n) = Some n.
Proof.
  intros Hn. unfold ParseUint. rewrite parse_digits_FormatUint by lia.
  destruct (FormatUint n) eqn:E; [by apply FormatUint_not_empty in E; [|lia]|].
  by rewrite (proj2 (Z.leb_le n uint64_max)) by lia.
Qed.
Lemma Itoa_inj a b : in_int64 a -> in_int64 b -> Itoa a = Itoa b -> a = b.
Proof. intros Ha Hb E. apply (f_equal Atoi) in E. rewrite !Atoi_Itoa in E by done. by injection E. Qed.
Lemma Itoa_not_empty n : in_int64 n -> Itoa n <> EmptyString.
Proof. intros Hn E. apply Atoi_Itoa in Hn. by rewrite E in Hn. Qed.

(** [split] against concatenation. *)
Lemma split_none sep s : contains_char sep s = false -> split sep s = [s].
Proof.
  induction s as [|c s IH]; [done|]. cbn. intros (Hc & Hs)%orb_false_iff. by rewrite Ascii.eqb_sym, Hc, (IH Hs).
Qed.
Lemma split_append sep a b : contains_char sep a = false -> split sep (a +:+ String sep b) = a :: split sep b.
Proof.
  induction a as [|c a IH]; intros H.
  - change (EmptyString +:+ String sep b) with (String sep b). cbn. by rewrite Ascii.eqb_refl.
  - change (String c a +:+ String sep b) with (String c (a +:+ String sep b)). cbn in H |- *. apply orb_false_iff in H as [Hc Ha].
    by rewrite Ascii.eqb_sym, Hc, (IH Ha).
Qed.
Lemma split_inv sep s : match split sep s with
  | [] => False
  | a :: l => contains_char sep a = false /\
      match l with [] => s = a | _ => exists b, s = a +:+ String sep b /\ split sep b = l end
  end.
Proof.
  induction s as [|c s IH]; [done|]. cbn. destruct (Ascii.eqb_spec c sep) as [->|Hne].
  - split; [done|]. destruct (split sep s) eqn:E; [done|]. by exists s.
  - destruct (split sep s) as [|a l]; [done|]. destruct IH as [Ha IH]. cbn.
    destruct (Ascii.eqb_spec sep c) as [->|_]; [done|]. split; [done|].
    destruct l; [by subst|]. destruct IH as (b & -> & Eb). by exists b.
Qed.

(** [split] undoes [join] of parts without the separator, and the other way around. *)
Lemma split_join sep parts : parts <> [] -> Forall (fun s => contains_char sep s = false) parts ->
  split sep (join (String sep EmptyString) parts) = parts.
Proof.
  intros Hne H. induction H as [|x parts Hx Hp IH]; [done|]. destruct parts as [|y parts]; [by apply split_none|].
  change (join (String sep EmptyString) (x :: y :: parts)) with (x +:+ String sep (join (String sep EmptyString) (y :: parts))).
  rewrite split_append by done. by rewrite IH.
Qed.
Lemma join_split sep s : join (String sep EmptyString) (split sep s) = s /\ Forall (fun s => contains_char sep s = false) (split sep s).
Proof.
  remember (split sep s) as l eqn:E. revert s E. induction l as [|x l IH]; intros s E; pose proof (split_inv sep s) as H; rewrite <- E in H; [done|].
  destruct H as [Hx H]. destruct l as [|y l]; [subst s; split; [done|by constructor]|].
  destruct H as (t & -> & Et). destruct (IH t (eq_sym Et)) as [Hj Hf]. split; [|by constructor].
  change (join (String sep EmptyString) (x :: y :: l)) with (x +:+ String sep (join (String sep EmptyString) (y :: l))). by rewrite Hj.
Qed.

(** The separator cut at its first occurrence. *)
Lemma cut_app sep b a : contains_char sep b = false ->
  cut sep (b +:+ String sep a) = (b, a, true).
Proof.
  induction b as [|c b IH]; intros H.
  - change ("" +:+ String sep a) with (String sep a). cbn [cut].
    by rewrite Ascii.eqb_refl.
  - change (String c b +:+ String sep a) with (String c (b +:+ String sep a)).
    cbn [cut contains_char] in *. apply orb_false_iff in H as [Hc Hb].
    rewrite Ascii.eqb_sym, Hc. rewrite IH by done. done.
Qed.

Lemma string_lt_asymm a b : string_lt a b = true -> string_lt b a = false.
Proof.
  unfold string_lt, String.ltb. rewrite (String.compare_antisym a b).
  destruct (String.compare b a); done.
Qed.

Lemma string_lt_trichotomy a b : string_lt a b = false -> string_lt b a = false -> a = b.
Proof.
  unfold string_lt, String.ltb. rewrite (String.compare_antisym a b).
  destruct (String.compare b a) eqn:E; try done.
  intros _ _. symmetry. by apply String.compare_eq_iff.
Qed.

Lemma string_lt_trans a b c : string_lt a b = true -> string_lt b c = true -> string_lt a c = true.
Proof.
  intros H1 H2. destruct (string_lt a c) eqn:E; [done|].
  assert (String.le a b /\ String.le b c) as [Hab Hbc].
  { unfold String.le, String.leb. unfold string_lt, String.ltb in *.
    destruct (String.compare a b), (String.compare b c); done. }
  pose proof (transitivity Hab Hbc) as Hac.
  unfold String.le, String.leb in Hac. unfold string_lt, String.ltb in E.
  destruct (String.compare a c) eqn:Eac; try done.
  apply String.compare_eq_iff in Eac as ->.
  apply string_lt_asymm in H1. congruence.
Qed.

Lemma string_lt_irrefl a : string_lt a a = false.
Proof.
  destruct (string_lt a a) eqn:E; [|done]. pose proof (string_lt_asymm _ _ E). congruence.
Qed.
#[export] Hint Resolve string_lt_irrefl string_length_pos : go.

(** Evaluates the lengths of the literals in the goal and the hypotheses. *)
Ltac string_literals :=
  repeat match goal with
  | H : context [string_length (String ?c ?s)] |- _ =>
      let v := eval vm_compute in (string_length (String c s)) in
      lazymatch v with context [string_length] => fail | _ => change (string_length (String c s)) with v in H end
  | |- context [string_length (String ?c ?s)] =>
      let v := eval vm_compute in (string_length (String c s)) in
      lazymatch v with context [string_length] => fail | _ => change (string_length (String c s)) with v end
  end.
