(* ===== verification/Cron.v ===== *)
(** * Cron expressions: [backend/framework/scheduler_cron.go]

    The parser of five-field expressions and the search for the next
    occurrence, and the grammar that the parser is held to.  Error texts leave out the quoted operand ([%q]).  An index
    out of a field's range panics, as in Go. *)
From S2P Require Import Prelude GoTime GoStrings.
Open Scope Z_scope.
Open Scope go_scope.

Definition cronSearchYears : Z := 8.

Definition cronMonthNames : gmap string Z :=
  list_to_map [("JAN",1); ("FEB",2); ("MAR",3); ("APR",4); ("MAY",5); ("JUN",6); ("JUL",7);
               ("AUG",8); ("SEP",9); ("OCT",10); ("NOV",11); ("DEC",12)].

Definition cronWeekdayNames : gmap string Z :=
  list_to_map [("SUN",0); ("MON",1); ("TUE",2); ("WED",3); ("THU",4); ("FRI",5); ("SAT",6)].

Record cronField := CronField { allowed : list bool }.

Record cronExpression := CronExpression {
  minutes : cronField;
  hours : cronField;
  daysOfMonth : cronField;
  months : cronField;
  weekdays : cronField;
  dayWildcard : bool;
  weekdayWildcard : bool
}.

(** [field.allowed[i]]; [false] out of range, which [next] never reads
    (lemma [fields_in_range]). *)
Definition allowed_at (f : cronField) (i : Z) : bool :=
  if (i <? 0) then false else nth (Z.to_nat i) (allowed f) false.

(** [for value := minimum; value <= maximum; value++] *)
Fixpoint allowsEvery_go (n : nat) (f : cronField) (value : Z) : bool :=
  match n with
  | O => true
  | S n => if negb (allowed_at f value) then false else allowsEvery_go n f (value + 1)
  end.
Definition allowsEvery (f : cronField) (minimum maximum : Z) : bool :=
  allowsEvery_go (Z.to_nat (maximum - minimum + 1)) f minimum.

Definition parseCronStep (value : string) : result (string * Z * bool) :=
  let invalid (text : string) := Err (ErrNew ("invalid step " +:+ Quote text)) in
  match split "/"%char value with
  | [] => invalid value
  | EmptyString :: _ => invalid value
  | [base] => Ok (base, 1, false)
  | [base; text] =>
      match Atoi text with
      | Some step => if step <=? 0 then invalid text else Ok (base, step, true)
      | None => invalid text
      end
  | _ => invalid value
  end.

Definition parseCronValue (value : string) (minimum maximum : Z) (names : gmap string Z) : result Z :=
  let outside := Err (ErrNew ("value " +:+ Quote value +:+ " is outside " +:+ Itoa minimum +:+ "-" +:+ Itoa maximum)) in
  match names !! value with
  | Some named => Ok named
  | None =>
      match Atoi value with
      | Some parsed =>
          if (parsed <? minimum) || (maximum <? parsed)
          then outside else Ok parsed
      | None => outside
      end
  end.

(** The body of the item loop up to the marking: start, end and step. *)
Definition parseCronItem (item : string) (minimum maximum : Z) (names : gmap string Z)
    : result (Z * Z * Z) :=
  if String.eqb item "" then Err (ErrNew "empty list item") else
  let* (base, step, hasStep) := parseCronStep item in
  if String.eqb base "*" then Ok (minimum, maximum, step)
  else if contains_char "-"%char base then
    match split "-"%char base with
    | [lo; hi] =>
        if String.eqb lo "" || String.eqb hi "" then Err (ErrNew ("invalid range " +:+ Quote base)) else
        let* start := parseCronValue lo minimum maximum names in
        let* stop := parseCronValue hi minimum maximum names in
        if stop <? start then Err (ErrNew ("range " +:+ Quote base +:+ " is reversed")) else Ok (start, stop, step)
    | _ => Err (ErrNew ("invalid range " +:+ Quote base))
    end
  else
    let* start := parseCronValue base minimum maximum names in
    Ok (start, (if hasStep then maximum else start), step).

(** [for current := start; current <= end; current += step]: 64-bit addition;
    an index outside the slice panics.  One unit of fuel per marked value. *)
Fixpoint mark (fuel : nat) (current stop step : Z) (cells : list bool) : result (list bool) :=
  if stop <? current then Ok cells else
  if (current <? 0) || (Z.of_nat (length cells) <=? current)
  then Panicked "index out of range" else
  match fuel with
  | O => Panicked "out of fuel"
  | S fuel => mark fuel (wrap64 (current + step)) stop step (<[Z.to_nat current := true]> cells)
  end.

Fixpoint parseCronItems (items : list string) (minimum maximum : Z) (names : gmap string Z)
    (cells : list bool) : result (list bool) :=
  match items with
  | [] => Ok cells
  | item :: items =>
      let* (start, stop, step) := parseCronItem item minimum maximum names in
      let* cells' := mark (Z.to_nat (maximum + 1)) start stop step cells in
      parseCronItems items minimum maximum names cells'
  end.

Definition parseCronField (value : string) (minimum maximum : Z) (names : gmap string Z)
    : result cronField :=
  let* cells := parseCronItems (split ","%char (to_upper value)) minimum maximum names
                  (replicate (Z.to_nat (maximum + 1)) false) in
  Ok (CronField cells).

(** [weekdays.allowed[0] = weekdays.allowed[0] || weekdays.allowed[7]], then
    the slice without its last cell. *)
Definition foldSunday (f : cronField) : cronField :=
  CronField (take 7 (<[0%nat := allowed_at f 0 || allowed_at f 7]> (allowed f))).

Definition prefix_error {A} (prefix : string) (r : result A) : result A :=
  match r with
  | Err e => Err (ErrWrap (prefix +:+ ": " +:+ error_text e) [e])
  | r => r
  end.

Definition parseCronExpression (value : string) : result cronExpression :=
  match Fields value with
  | [f0; f1; f2; f3; f4] =>
      let* minutes := prefix_error "minute" (parseCronField f0 0 59 ∅) in
      let* hours := prefix_error "hour" (parseCronField f1 0 23 ∅) in
      let* daysOfMonth := prefix_error "day of month" (parseCronField f2 1 31 ∅) in
      let* months := prefix_error "month" (parseCronField f3 1 12 cronMonthNames) in
      let* weekdays7 := prefix_error "day of week" (parseCronField f4 0 7 cronWeekdayNames) in
      let weekdays := foldSunday weekdays7 in
      Ok (CronExpression minutes hours daysOfMonth months weekdays
            (allowsEvery daysOfMonth 1 31) (allowsEvery weekdays 0 6))
  | _ => Err (ErrNew "expected 5 fields")
  end.

Definition matchesDay (e : cronExpression) (loc : Location) (candidate : Z) : bool :=
  let dayMatches := allowed_at (daysOfMonth e) (Day loc candidate) in
  let weekdayMatches := allowed_at (weekdays e) (Weekday loc candidate) in
  if dayWildcard e then weekdayMatches
  else if weekdayWildcard e then dayMatches
  else dayMatches || weekdayMatches.

(** One turn of the search loop: the next candidate, or the result. *)
Definition next_step (e : cronExpression) (loc : Location) (limit candidate : Z)
    : Z + option Z :=
  if After candidate limit then inr None
  else if negb (allowed_at (months e) (Month loc candidate)) then
    inl (Date (Year loc candidate) (Month loc candidate + 1) 1 0 0 0 0 loc)
  else if negb (matchesDay e loc candidate) then
    inl (Date (Year loc candidate) (Month loc candidate) (Day loc candidate + 1) 0 0 0 0 loc)
  else if negb (allowed_at (hours e) (ClockHour loc candidate)) then
    inl (candidate + (60 - ClockMinute loc candidate) * Minute)
  else if negb (allowed_at (minutes e) (ClockMinute loc candidate)) then
    inl (candidate + Minute)
  else inr (Some candidate).

Definition first_candidate (after : Z) : Z := Truncate after Minute + Minute.
Definition search_limit (loc : Location) (after : Z) : Z :=
  AddDate loc (first_candidate after) cronSearchYears 0 0.

(** The loop of [next], [2^fuel] turns at most: [inl] is a search still
    running, [inr None] the zero time with [false]. *)
Definition next_loop (fuel : nat) (e : cronExpression) (after : Z) (loc : Location)
    : Z + option Z :=
  iter_until fuel (next_step e loc (search_limit loc after)) (first_candidate after).

Definition next_fuel : nat := 23.
Definition next (e : cronExpression) (after : Z) (loc : Location) : option Z :=
  match next_loop next_fuel e after loc with inr r => r | inl _ => None end.

Record cronSchedule := CronSchedule { expression : cronExpression; location : Location }.

Definition nextDelay (schedule : cronSchedule) (now : Z) : option Z :=
  match next (expression schedule) now (location schedule) with
  | Some t => Some (Sub t now)
  | None => None
  end.

(** ** What an expression means *)

(** The instants an expression denotes: whole minutes whose local fields are
    all allowed. *)
Definition fires (e : cronExpression) (loc : Location) (t : Z) : bool :=
  allowed_at (months e) (Month loc t) && matchesDay e loc t &&
  allowed_at (hours e) (ClockHour loc t) && allowed_at (minutes e) (ClockMinute loc t).

Definition on_minute (t : Z) : Prop := t mod Minute = 0.

(** The grammar of a field's items and what each item stands for, written down
    without the parser.  A number is decimal digits after an optional plus sign. *)
Inductive digits_mean : string -> Z -> Prop :=
| one_digit d : 0 <= d <= 9 -> digits_mean (String (chr (48 + d)) EmptyString) d
| more_digits s n d : digits_mean s n -> 0 <= d <= 9 ->
    digits_mean (s +:+ String (chr (48 + d)) EmptyString) (10 * n + d).
Inductive number_means : string -> Z -> Prop :=
| plain_number s n : digits_mean s n -> number_means s n
| plus_number s n : digits_mean s n -> number_means (String "+" s) n.

(** The names of the months and of the weekdays, by their position. *)
Definition no_name (text : string) (v : Z) : Prop := False.
Definition month_name (text : string) (v : Z) : Prop :=
  1 <= v /\ ["JAN"; "FEB"; "MAR"; "APR"; "MAY"; "JUN"; "JUL"; "AUG"; "SEP"; "OCT"; "NOV"; "DEC"] !! Z.to_nat (v - 1) = Some text.
Definition weekday_name (text : string) (v : Z) : Prop :=
  0 <= v /\ ["SUN"; "MON"; "TUE"; "WED"; "THU"; "FRI"; "SAT"] !! Z.to_nat v = Some text.

Section Grammar.
Variables minimum maximum : Z.
Variable named : string -> Z -> Prop.

Inductive value_means (text : string) (v : Z) : Prop :=
| by_name : named text v -> value_means text v
| by_number : number_means text v -> minimum <= v <= maximum -> value_means text v.

(** The first and the last value of an item without its step; a single value
    with a step reaches to the end of the field. *)
Inductive base_means : string -> bool -> Z -> Z -> Prop :=
| every_value stepped : base_means "*" stepped minimum maximum
| range_of first last a b stepped : value_means first a -> value_means last b -> a <= b ->
    base_means (first +:+ "-" +:+ last) stepped a b
| single_value text a : value_means text a -> base_means text false a a
| from_value text a : value_means text a -> base_means text true a maximum.

(** The values one list item stands for: those of its base, or every so many
    of them from the first on. *)
Inductive item_means : string -> Z -> Prop :=
| whole_base base a b v : base_means base false a b -> a <= v <= b -> item_means base v
| every_nth base text a b n k : base_means base true a b -> number_means text n -> 0 < n <= int64_max ->
    0 <= k -> a + k * n <= b -> item_means (base +:+ "/" +:+ text) (a + k * n).
End Grammar.

(** What the parser makes of an item. *)
Definition item_covers (minimum maximum : Z) (names : gmap string Z) (item : string) (v : Z) : Prop :=
  exists start stop step,
    parseCronItem item minimum maximum names = Ok (start, stop, step) /\
    start <= v <= stop /\ (v - start) mod step = 0.

(** ** The field parser *)

Lemma mark_spec fuel : forall current stop step cells cells',
  mark fuel current stop step cells = Ok cells' ->
  0 < step <= int64_max -> 0 <= current <= int64_max -> stop < Z.of_nat (length cells) ->
  stop < int64_max ->
  length cells' = length cells /\
  forall v : nat, nth v cells' false = true <->
    nth v cells false = true \/
    (current <= Z.of_nat v <= stop /\ (Z.of_nat v - current) mod step = 0).
Proof.
  induction fuel as [|fuel IH]; intros current stop step cells cells' Hmark Hstep Hcur Hstop Hmax;
    simpl in Hmark; destruct (Z.ltb_spec stop current) as [Hlt|Hle].
  - injection Hmark as <-. split; [done|]. intros v. split; [auto|]. intros [?|[? _]]; [done|lia].
  - destruct (_ || _) eqn:Eb in Hmark; discriminate.
  - injection Hmark as <-. split; [done|]. intros v. split; [auto|]. intros [?|[? _]]; [done|lia].
  - destruct (_ || _) eqn:Eb in Hmark; [discriminate|]. bool_prop.
    destruct (Z.le_gt_cases (current + step) int64_max) as [Hfit|Hover].
    2:{ (* the addition wraps to a negative index: the next turn panics *)
        exfalso. assert (wrap64 (current + step) < 0) as Hneg.
        { unfold wrap64, int64_max in *.
          replace (current + step + 2 ^ 63) with (current + step - 2 ^ 63 + 1 * 2 ^ 64) by lia.
          rewrite Z.mod_add, Z.mod_small by lia. lia. }
        destruct fuel; simpl in Hmark;
          rewrite (proj2 (Z.ltb_ge stop (wrap64 (current + step)))) in Hmark by lia;
          rewrite (proj2 (Z.ltb_lt (wrap64 (current + step)) 0)) in Hmark by lia;
          discriminate. }
    rewrite wrap64_id in Hmark by (unfold in_int64, int64_min; lia).
    apply IH in Hmark as [Hlen Hv]; [|lia|lia|rewrite length_insert; lia|done].
    rewrite length_insert in Hlen. split; [done|]. intros v. rewrite Hv.
    assert (nth v (<[Z.to_nat current:=true]> cells) false = true <->
            nth v cells false = true \/ Z.of_nat v = current) as ->.
    { rewrite !nth_lookup. destruct (decide (v = Z.to_nat current)) as [->|Hne].
      - rewrite list_lookup_insert_eq by lia. simpl. split; [intros _; right; lia|done].
      - rewrite list_lookup_insert_ne by done. split; [auto|]. intros [?|?]; [done|lia]. }
    split.
    + intros [[?|Heq]|[Hr Hm]]; [by left| |].
      * right. split; [lia|]. by rewrite Heq, Z.sub_diag, Z.mod_0_l by lia.
      * right. split; [lia|].
        replace (Z.of_nat v - current) with (Z.of_nat v - (current + step) + 1 * step) by lia.
        by rewrite Z.mod_add by lia.
    + intros [?|[Hr Hm]]; [by left; left|].
      destruct (Z.eq_dec (Z.of_nat v) current) as [|Hne]; [by left; right|]. right.
      replace (Z.of_nat v - current) with (Z.of_nat v - (current + step) + 1 * step) in Hm by lia.
      rewrite Z.mod_add in Hm by lia. split; [|done].
      destruct (Z.le_gt_cases (current + step) (Z.of_nat v)); [lia|].
      exfalso. replace (Z.of_nat v - (current + step)) with (Z.of_nat v - current + -1 * step) in Hm by lia.
      rewrite Z.mod_add, Z.mod_small in Hm by lia. lia.
Qed.

Section FieldParser.
Context (minimum maximum : Z) (names : gmap string Z).
Context (Hrange : 0 <= minimum <= maximum) (Hmax : maximum < 1000).
Context (Hnames : forall n v, names !! n = Some v -> minimum <= v <= maximum).

Lemma parseCronValue_range value v :
  parseCronValue value minimum maximum names = Ok v -> minimum <= v <= maximum.
Proof using Hnames.
  unfold parseCronValue. intros H. destruct (names !! value) eqn:E; [go_inv H; eauto|].
  destruct (Atoi value); [|done]. destruct (_ || _) eqn:Eb in H; [done|]. bool_prop.
  injection H as <-. lia.
Qed.

Lemma Atoi_range s v : Atoi s = Some v -> in_int64 v.
Proof using Type.
  clear. unfold Atoi, in_int64. intros H.
  repeat match type of H with context [match ?x with _ => _ end] => destruct x eqn:?; try done end;
    bool_prop; injection H as <-; lia.
Qed.

Lemma parseCronStep_range item base step hasStep :
  parseCronStep item = Ok (base, step, hasStep) -> 0 < step <= int64_max.
Proof using Type.
  clear. unfold parseCronStep. intros H.
  destruct (split _ item) as [|[|c b] [|text [|]]]; try done.
  - go_inv H. unfold int64_max. lia.
  - destruct (Atoi text) as [st|] eqn:E; [|done]. apply Atoi_range in E. unfold in_int64 in E.
    destruct (st <=? 0) eqn:E0; [done|]. bool_prop. go_inv H. lia.
Qed.

Lemma parseCronItem_range item start stop step :
  parseCronItem item minimum maximum names = Ok (start, stop, step) ->
  minimum <= start <= maximum /\ stop <= maximum /\ 0 < step <= int64_max.
Proof using All.
  unfold parseCronItem, result_bind. intros H.
  destruct (String.eqb item ""); [done|].
  destruct (parseCronStep item) as [[[base st] has]| |] eqn:Est; [|done..].
  apply parseCronStep_range in Est.
  destruct (String.eqb base "*"); [go_inv H; lia|].
  destruct (contains_char _ base).
  - destruct (split _ base) as [|lo [|hi [|]]]; try done.
    destruct (_ || _) in H; [done|].
    destruct (parseCronValue lo _ _ _) as [a| |] eqn:Ea; [|done..].
    destruct (parseCronValue hi _ _ _) as [b| |] eqn:Eb; [|done..].
    apply parseCronValue_range in Ea. apply parseCronValue_range in Eb.
    destruct (b <? a); go_inv H. lia.
  - destruct (parseCronValue base _ _ _) as [a| |] eqn:Ea; [|done..].
    apply parseCronValue_range in Ea. destruct has; go_inv H; lia.
Qed.

Lemma parseCronItems_spec items : forall cells cells',
  parseCronItems items minimum maximum names cells = Ok cells' ->
  Z.of_nat (length cells) = maximum + 1 ->
  Z.of_nat (length cells') = maximum + 1 /\
  forall v : nat, nth v cells' false = true <->
    nth v cells false = true \/
    exists item, item ∈ items /\ item_covers minimum maximum names item (Z.of_nat v).
Proof using All.
  induction items as [|item items IH]; intros cells cells' H Hlen; simpl in H.
  - injection H as <-. split; [done|]. intros v. split; [auto|].
    intros [?|(? & Hin & _)]; [done|by apply elem_of_nil in Hin].
  - unfold result_bind in H.
    destruct (parseCronItem item _ _ _) as [[[start stop] step]| |] eqn:Ei; [|done..].
    pose proof (parseCronItem_range _ _ _ _ Ei) as (Hs & He & Hst).
    destruct (mark _ start stop step cells) as [cells1| |] eqn:Em; [|done..].
    apply mark_spec in Em as [Hlen1 Hv1]; [|lia|unfold int64_max; lia|lia|unfold int64_max; lia].
    apply IH in H as [Hlen2 Hv2]; [|lia]. split; [done|]. intros v. rewrite Hv2, Hv1. split.
    + intros [[?|[Hr Hm]]|(i & Hin & Hc)]; [by left| |].
      * right. exists item. split; [by left|]. by exists start, stop, step.
      * right. exists i. split; [by right|done].
    + intros [?|(i & Hin & Hc)]; [by left; left|].
      apply elem_of_cons in Hin as [->|Hin].
      * destruct Hc as (s' & e' & st' & Ei' & Hr & Hm). rewrite Ei in Ei'. go_inv Ei'.
        left. right. done.
      * right. eauto.
Qed.

(** Every value a parsed field allows is covered by one of its list items,
    and the other way around; the field has a cell for every value. *)
Lemma parseCronField_denotes value f :
  parseCronField value minimum maximum names = Ok f ->
  Z.of_nat (length (allowed f)) = maximum + 1 /\
  forall v, allowed_at f v = true <-> 0 <= v /\
    exists item, item ∈ split ","%char (to_upper value) /\
                 item_covers minimum maximum names item v.
Proof using All.
  unfold parseCronField, result_bind. intros H.
  destruct (parseCronItems _ _ _ _ _) as [cells| |] eqn:E; [|done..]. injection H as <-.
  apply parseCronItems_spec in E as [Hlen Hv]; [|rewrite length_replicate; lia].
  split; [done|]. intros v. unfold allowed_at. destruct (Z.ltb_spec v 0) as [|Hv0].
  { split; [done|]. intros [? _]. lia. }
  cbn [allowed]. rewrite Hv, Z2Nat.id by done. split.
  - intros [Hr|?]; [|done].
    rewrite nth_lookup in Hr. destruct (_ !! _) eqn:El in Hr; [|done].
    apply lookup_replicate_1 in El as [-> _]. done.
  - intros [_ ?]. by right.
Qed.

(** A covered value is within the field's bounds. *)
Lemma item_covers_range item v : item_covers minimum maximum names item v -> minimum <= v <= maximum.
Proof using All.
  intros (start & stop & step & Ei & Hr & _). apply parseCronItem_range in Ei. lia.
Qed.
End FieldParser.

Lemma month_names_range n v : cronMonthNames !! n = Some v -> 1 <= v <= 12.
Proof.
  intros H. apply elem_of_map_to_list in H. revert H. vm_compute map_to_list.
  intros H. repeat (apply elem_of_cons in H as [H|H]; [simplify_eq; lia|]). by apply elem_of_nil in H.
Qed.

Lemma weekday_names_range n v : cronWeekdayNames !! n = Some v -> 0 <= v <= 7.
Proof.
  intros H. apply elem_of_map_to_list in H. revert H. vm_compute map_to_list.
  intros H. repeat (apply elem_of_cons in H as [H|H]; [simplify_eq; lia|]). by apply elem_of_nil in H.
Qed.

(** ** The item parser reads the grammar *)

(** Numbers. *)
Lemma parse_digits_snoc s : forall acc n d, parse_digits acc s = Some n -> 0 <= d <= 9 ->
  parse_digits acc (s +:+ String (chr (48 + d)) EmptyString) = Some (10 * n + d).
Proof.
  assert (forall d, 0 <= d <= 9 -> digit_value (chr (48 + d)) = Some d) as Hd.
  { intros d Hd. assert (d = 0 \/ d = 1 \/ d = 2 \/ d = 3 \/ d = 4 \/ d = 5 \/ d = 6 \/ d = 7 \/ d = 8 \/ d = 9) as H by lia.
    repeat destruct H as [->|H]; [reflexivity..|subst d; reflexivity]. }
  induction s as [|c s IH]; intros acc n d H Hr.
  - injection H as ->. change (match digit_value (chr (48 + d)) with Some e => Some (10 * n + e) | None => None end = Some (10 * n + d)).
    by rewrite Hd.
  - change (String c s +:+ String (chr (48 + d)) EmptyString) with (String c (s +:+ String (chr (48 + d)) EmptyString)).
    cbn [parse_digits] in *. destruct (digit_value c); [by apply IH|done].
Qed.
Lemma digits_mean_parse s n : digits_mean s n -> s <> EmptyString /\ parse_digits 0 s = Some n /\ 0 <= n.
Proof.
  induction 1 as [d Hd|s n d H (Hne & IH & Hn) Hd].
  - split; [done|]. split; [|lia]. apply (parse_digits_snoc EmptyString 0 0 d); [done|lia].
  - split; [by destruct s|]. split; [by apply parse_digits_snoc|lia].
Qed.
Lemma digit_value_chr c d : digit_value c = Some d -> c = chr (48 + d) /\ 0 <= d <= 9.
Proof.
  unfold digit_value, byte_of. intros H. destruct (_ && _) eqn:E; [|done]. bool_prop. injection H as <-.
  split; [|lia]. unfold chr. rewrite Zplus_minus, N2Z.id. symmetry. apply ascii_N_embedding.
Qed.
Lemma parse_digits_mean s : forall before acc n, digits_mean before acc -> parse_digits acc s = Some n -> digits_mean (before +:+ s) n.
Proof.
  induction s as [|c s IH]; intros before acc n Hb H; cbn in H.
  - injection H as <-. by rewrite string_app_nil_r.
  - destruct (digit_value c) as [d|] eqn:E; [|done]. apply digit_value_chr in E as [-> Hd].
    change (String (chr (48 + d)) s) with (String (chr (48 + d)) EmptyString +:+ s). rewrite string_app_assoc.
    apply (IH _ (10 * acc + d)); [by constructor|done].
Qed.
Lemma parse_means s n : s <> EmptyString -> parse_digits 0 s = Some n -> digits_mean s n.
Proof.
  destruct s as [|c s]; [done|]. intros _ H. cbn in H. destruct (digit_value c) as [d|] eqn:E; [|done].
  apply digit_value_chr in E as [-> Hd]. apply (parse_digits_mean s (String (chr (48 + d)) EmptyString) d); [by constructor|done].
Qed.

Lemma number_Atoi text n : number_means text n -> n <= int64_max -> Atoi text = Some n.
Proof.
  intros H Hn.
  assert (forall c r m, digits_mean (String c r) m -> m <= int64_max -> parse_digits 0 (String c r) = Some m /\
    (int64_min <=? m) && (m <=? int64_max) = true) as Hr.
  { intros c r m (_ & E & ?)%digits_mean_parse Hm. split; [done|]. unfold int64_min, int64_max in *. apply andb_true_iff. split; apply Z.leb_le; lia. }
  destruct H as [s n H|s n H].
  - destruct s as [|c r]; [by apply digits_mean_parse in H as [? _]|]. destruct (Hr _ _ _ H Hn) as [E1 E2].
    destruct (digits_first _ _ _ E1) as [H1 H2]. unfold Atoi. by rewrite H1, H2, E1, E2.
  - destruct s as [|c r]; [by apply digits_mean_parse in H as [? _]|]. destruct (Hr _ _ _ H Hn) as [E1 E2].
    unfold Atoi. cbn [Ascii.eqb Bool.eqb]. by rewrite E1, E2.
Qed.
(** Without a minus sign [Atoi] reads numbers of the grammar. *)
Lemma Atoi_number text n : Atoi text = Some n -> 0 <= n -> contains_char "-" text = false \/ 0 < n -> number_means text n /\ n <= int64_max.
Proof.
  intros H Hn Hs. assert (n <= int64_max) as Hm by (apply Atoi_range in H; unfold in_int64 in H; lia). split; [|done].
  unfold Atoi in H. destruct text as [|c r]; [done|]. destruct (Ascii.eqb_spec c "-") as [->|_].
  { exfalso. destruct Hs as [Hs|Hs]; [done|]. destruct r; [done|].
    destruct (parse_digits 0 _) as [m|] eqn:E; [|done]. apply parse_means in E; [|done]. apply digits_mean_parse in E as (_ & _ & ?).
    destruct (_ && _); [|done]. injection H as <-. lia. }
  destruct (Ascii.eqb_spec c "+") as [->|_].
  - destruct r; [done|]. destruct (parse_digits 0 _) as [m|] eqn:E; [|done]. destruct (_ && _); [|done]. injection H as <-.
    apply plus_number. by apply parse_means.
  - destruct (parse_digits 0 _) as [m|] eqn:E; [|done]. destruct (_ && _); [|done]. injection H as <-.
    apply plain_number. by apply parse_means.
Qed.

(** A number has no separator in it. *)
Lemma number_chars text n : number_means text n ->
  string_forall (fun c => negb (Ascii.eqb c "-") && negb (Ascii.eqb c "/") && negb (Ascii.eqb c "*")) text = true /\ text <> EmptyString.
Proof.
  assert (forall s n, digits_mean s n -> string_forall (fun c => negb (Ascii.eqb c "-") && negb (Ascii.eqb c "/") && negb (Ascii.eqb c "*")) s = true) as Hd.
  { intros s m (_ & H & _)%digits_mean_parse. revert H. generalize 0. induction s as [|c s IH]; intros acc H; [done|].
    cbn in H |- *. destruct (digit_value c) as [d|] eqn:E; [|done]. rewrite (IH _ H), andb_true_r.
    destruct (Ascii.eqb_spec c "-") as [->|]; [done|]. destruct (Ascii.eqb_spec c "/") as [->|]; [done|]. by destruct (Ascii.eqb_spec c "*") as [->|]. }
  intros [s m H|s m H]; (split; [|try done]); [by eapply Hd|by apply digits_mean_parse in H as [? _]|].
  cbn. by eapply Hd.
Qed.

(** A table of names against their meaning. *)
Definition names_mean (names : gmap string Z) (named : string -> Z -> Prop) (minimum maximum : Z) : Prop :=
  (forall text v, names !! text = Some v <-> named text v) /\
  (forall text v, named text v -> minimum <= v <= maximum /\ text <> "*" /\ text <> EmptyString /\ contains_char "-" text = false /\
     contains_char "/" text = false /\ forall n, ~ number_means text n).

Section ItemParser.
Context (minimum maximum : Z) (names : gmap string Z) (named : string -> Z -> Prop).
Context (Hrange : 0 <= minimum <= maximum) (Hmax : maximum < 1000) (Hnames : names_mean names named minimum maximum).

Lemma value_means_parse text v : value_means minimum maximum named text v -> parseCronValue text minimum maximum names = Ok v.
Proof using All.
  destruct Hnames as [Hn Hclean]. unfold parseCronValue. intros [H|H Hr]; [by rewrite (proj2 (Hn text v) H)|].
  destruct (names !! text) as [w|] eqn:E; [apply Hn, Hclean in E as (_ & _ & _ & _ & _ & E); by destruct (E v)|].
  rewrite (number_Atoi _ _ H) by (unfold int64_max; lia).
  destruct (Z.ltb_spec v minimum); [lia|]. destruct (Z.ltb_spec maximum v); [lia|]. done.
Qed.
Lemma parse_value_means text v : parseCronValue text minimum maximum names = Ok v -> contains_char "-" text = false ->
  value_means minimum maximum named text v.
Proof using All.
  destruct Hnames as [Hn Hclean]. unfold parseCronValue. intros H Hd. destruct (names !! text) as [w|] eqn:E.
  - injection H as ->. apply by_name. by apply Hn.
  - destruct (Atoi text) as [n|] eqn:Ea; [|done]. destruct (_ || _) eqn:Er; [done|]. injection H as ->. bool_prop.
    apply by_number; [|lia]. apply Atoi_number in Ea as [? _]; [done|lia|by left].
Qed.

Lemma number_char text n c : number_means text n -> (c = "-" \/ c = "/" \/ c = "*")%char -> contains_char c text = false.
Proof using Type.
  intros [H _]%number_chars Hc. induction text as [|d text IH]; [done|]. cbn in *. apply andb_true_iff in H as [Hd Hs].
  rewrite (IH Hs), orb_false_r. rewrite Ascii.eqb_sym. bool_prop. by destruct Hc as [-> | [-> | ->]].
Qed.
Lemma value_means_chars text v : value_means minimum maximum named text v ->
  text <> "*" /\ text <> EmptyString /\ contains_char "-" text = false /\ contains_char "/" text = false /\ minimum <= v <= maximum.
Proof using All.
  destruct Hnames as [_ Hclean]. intros [H|H Hr]; [by apply Hclean in H as (? & ? & ? & ? & ? & _)|].
  split; [|split; [by apply number_chars in H as [_ ?]|]].
  - intros ->. pose proof (number_char _ _ "*" H ltac:(auto)). done.
  - split; [by eapply number_char; [exact H|auto]|]. split; [by eapply number_char; [exact H|auto]|done].
Qed.

(** The base of an item, whether a step follows it or not. *)
Definition parse_base (base : string) (step : Z) (hasStep : bool) : result (Z * Z * Z) :=
  if String.eqb base "*" then Ok (minimum, maximum, step)
  else if contains_char "-" base then
    match split "-" base with
    | [lo; hi] =>
        if String.eqb lo "" || String.eqb hi "" then Err (ErrNew ("invalid range " +:+ Quote base)) else
        let* start := parseCronValue lo minimum maximum names in
        let* stop := parseCronValue hi minimum maximum names in
        if stop <? start then Err (ErrNew ("range " +:+ Quote base +:+ " is reversed")) else Ok (start, stop, step)
    | _ => Err (ErrNew ("invalid range " +:+ Quote base))
    end
  else
    let* start := parseCronValue base minimum maximum names in
    Ok (start, (if hasStep then maximum else start), step).

Lemma base_means_parse base hasStep a b step : base_means minimum maximum named base hasStep a b ->
  parse_base base step hasStep = Ok (a, b, step) /\ base <> EmptyString /\ contains_char "/" base = false.
Proof using All.
  assert (forall text v h, value_means minimum maximum named text v ->
    parse_base text step h = Ok (v, (if h then maximum else v), step) /\ text <> EmptyString /\ contains_char "/" text = false) as Hsingle.
  { intros text v h H. destruct (value_means_chars _ _ H) as (H1 & H2 & H3 & H4 & _). split; [|done].
    unfold parse_base. rewrite (proj2 (String.eqb_neq _ _) H1), H3, (value_means_parse _ _ H). done. }
  intros [h|first last a' b' h Hf Hl Hle|text v H|text v H].
  - done.
  - destruct (value_means_chars _ _ Hf) as (F1 & F2 & F3 & F4 & _), (value_means_chars _ _ Hl) as (L1 & L2 & L3 & L4 & _).
    change ("-" +:+ last) with (String "-" last).
    assert (contains_char "-" (first +:+ String "-" last) = true /\ contains_char "/" (first +:+ String "-" last) = false) as [Hc Hs].
    { clear -F4 L4. induction first as [|c s IH]; [done|]. change (String c s +:+ String "-" last) with (String c (s +:+ String "-" last)).
      cbn in *. apply orb_false_iff in F4 as [E F4]. destruct (IH F4) as [-> ->]. by rewrite E, orb_true_r. }
    split; [|split; [by destruct first|done]]. unfold parse_base. rewrite Hc, split_append, split_none by done.
    destruct (String.eqb_spec (first +:+ String "-" last) "*") as [E|_]; [by rewrite E in Hc|].
    rewrite (proj2 (String.eqb_neq _ _) F2), (proj2 (String.eqb_neq _ _) L2). cbn [orb].
    rewrite (value_means_parse _ _ Hf), (value_means_parse _ _ Hl). cbn. by destruct (Z.ltb_spec b' a'); [lia|].
  - exact (Hsingle text v false H).
  - exact (Hsingle text v true H).
Qed.

Lemma parse_base_means base step step' hasStep a b : parse_base base step hasStep = Ok (a, b, step') ->
  step' = step /\ base_means minimum maximum named base hasStep a b.
Proof using All.
  unfold parse_base. intros H. destruct (String.eqb_spec base "*") as [->|_].
  { injection H as <- <- <-. split; [done|constructor]. }
  destruct (contains_char "-" base) eqn:Hc.
  - pose proof (split_inv "-" base) as Hs. destruct (split "-" base) as [|lo [|hi [|]]]; try done.
    destruct Hs as [Hlo (t & -> & Et)]. pose proof (split_inv "-" t) as Ht. rewrite Et in Ht. destruct Ht as [Hhi ->].
    destruct (_ || _); [done|]. unfold result_bind in H.
    destruct (parseCronValue lo _ _ _) as [x| |] eqn:Ex; [|done..]. destruct (parseCronValue hi _ _ _) as [y| |] eqn:Ey; [|done..].
    destruct (Z.ltb_spec y x); [done|]. injection H as <- <- <-. split; [done|].
    apply (range_of _ _ _ lo hi); [by apply parse_value_means..|lia].
  - unfold result_bind in H. destruct (parseCronValue base _ _ _) as [x| |] eqn:Ex; [|done..]. injection H as <- <- <-.
    split; [done|]. apply parse_value_means in Ex; [|done]. destruct hasStep; by constructor.
Qed.

Lemma parseCronItem_base item : parseCronItem item minimum maximum names =
  if String.eqb item "" then Err (ErrNew "empty list item") else
  let* (base, step, hasStep) := parseCronStep item in parse_base base step hasStep.
Proof using Type. reflexivity. Qed.

Lemma base_range base hasStep a b : base_means minimum maximum named base hasStep a b -> minimum <= a /\ b <= maximum.
Proof using All.
  intros [h|first last a' b' h Hf Hl Hle|text v H|text v H]; [lia| | |];
    repeat match goal with H : value_means _ _ _ _ _ |- _ => apply value_means_chars in H as (_ & _ & _ & _ & ?) end; lia.
Qed.

(** What the parser makes of an item is what the grammar says of it. *)
Lemma item_covers_means item v : item_covers minimum maximum names item v <-> item_means minimum maximum named item v.
Proof using All.
  unfold item_covers. setoid_rewrite parseCronItem_base. split.
  - intros (start & stop & step & H & Hv & Hm). destruct (String.eqb item ""); [done|]. unfold result_bind, parseCronStep in H.
    pose proof (split_inv "/" item) as Hs. destruct (split "/" item) as [|b [|text [|]]]; try done.
    + destruct Hs as [_ ->]. destruct b as [|c b]; [done|]. apply parse_base_means in H as [-> H].
      by apply (whole_base _ _ _ _ start stop).
    + destruct b as [|c b]; [done|].
      destruct Hs as [_ (t & -> & Et)]. pose proof (split_inv "/" t) as Ht. rewrite Et in Ht. destruct Ht as [_ ->].
      destruct (Atoi text) as [n|] eqn:Ea; [|done]. destruct (Z.leb_spec n 0); [done|].
      apply parse_base_means in H as [-> H]. apply Atoi_number in Ea as [Hn Hle]; [|lia|by right].
      pose proof (Z_div_exact_2 (v - start) n ltac:(lia) Hm) as E. pose proof (Z.div_pos (v - start) n ltac:(lia) ltac:(lia)).
      replace v with (start + (v - start) / n * n) by lia.
      apply (every_nth _ _ _ _ _ _ stop); [done|done|lia|done|lia].
    + by destruct b.
  - intros [base a b w Hb Hv|base text a b n k Hb Hn Hr Hk Hle].
    + destruct (base_means_parse _ _ _ _ 1 Hb) as (E & Hne & Hs). exists a, b, 1.
      rewrite (proj2 (String.eqb_neq _ _) Hne). unfold parseCronStep. rewrite (split_none _ _ Hs).
      destruct base; [done|]. split; [exact E|]. split; [done|apply Z.mod_1_r].
    + destruct (base_means_parse _ _ _ _ n Hb) as (E & Hne & Hs). exists a, b, n.
      change ("/" +:+ text) with (String "/" text). pose proof (number_char _ _ "/" Hn ltac:(auto)) as Ht.
      destruct (String.eqb_spec (base +:+ String "/" text) "") as [E0|_]; [by destruct base|].
      unfold parseCronStep. rewrite (split_append _ _ _ Hs), (split_none _ _ Ht). destruct base as [|c base]; [done|].
      rewrite (number_Atoi _ _ Hn) by lia. destruct (Z.leb_spec n 0); [lia|]. split; [exact E|]. split; [nia|].
      replace (a + k * n - a) with (k * n) by lia. apply Z.mod_mul. lia.
Qed.
End ItemParser.

Lemma no_names_mean minimum maximum : names_mean ∅ no_name minimum maximum.
Proof. split; [|by intros]. intros text v. by rewrite lookup_empty. Qed.

(** Tables of upper-case names. *)
Definition letters (text : string) : bool := string_forall (fun c => (65 <=? byte_of c) && (byte_of c <=? 90)) text && negb (String.eqb text "").
Lemma letters_clean text : letters text = true -> text <> "*" /\ text <> EmptyString /\ contains_char "-" text = false /\
  contains_char "/" text = false /\ forall n, ~ number_means text n.
Proof.
  unfold letters. intros H. apply andb_true_iff in H as [H Hne].
  assert (forall c, (byte_of c < 65) -> contains_char c text = false) as Hc.
  { intros c Hc. clear Hne. induction text as [|d text IH]; [done|]. cbn in *. apply andb_true_iff in H as [Hd H]. rewrite (IH H), orb_false_r.
    destruct (Ascii.eqb_spec c d) as [->|]; [|done]. bool_prop. lia. }
  split; [by intros ->|]. split; [by intros ->|]. split; [by apply Hc|]. split; [by apply Hc|].
  assert (forall s n, digits_mean s n -> string_forall (fun c => (65 <=? byte_of c) && (byte_of c <=? 90)) s = true -> False) as Hd.
  { intros s n (Hs & E & _)%digits_mean_parse. destruct s as [|c s]; [done|]. cbn in E |- *. destruct (digit_value c) eqn:Ed; [|done].
    unfold digit_value in Ed. intros [Hb _]%andb_true_iff. destruct (_ && _) eqn:Eb in Ed; [|done].
    apply andb_true_iff in Hb as [Hb _], Eb as [_ Eb]. apply Z.leb_le in Hb, Eb. lia. }
  intros n Hn. inversion Hn as [s m Hm|s m Hm]; subst; [exact (Hd _ _ Hm H)|]. done.
Qed.

Ltac table_cases H :=
  repeat (apply elem_of_cons in H as [H|H]; [injection H as -> ->; (split; [lia|]); reflexivity|]); by apply elem_of_nil in H.
Lemma month_names_mean : names_mean cronMonthNames month_name 1 12.
Proof.
  assert (forall text v, month_name text v -> cronMonthNames !! text = Some v /\ 1 <= v <= 12 /\ letters text = true) as Hm.
  { intros text v [Hv H]. pose proof (lookup_lt_Some _ _ _ H) as Hl. cbn in Hl.
    assert (v = 1 \/ v = 2 \/ v = 3 \/ v = 4 \/ v = 5 \/ v = 6 \/ v = 7 \/ v = 8 \/ v = 9 \/ v = 10 \/ v = 11 \/ v = 12) as E by lia.
    repeat destruct E as [->|E]; try subst v; cbn in H; injection H as <-; repeat split; try done; vm_compute; reflexivity. }
  split; [|intros text v H; destruct (Hm text v H) as (_ & Hr & Hl); split; [done|by apply letters_clean]].
  intros text v. split; [|intros H; by apply Hm]. intros H%elem_of_list_to_map_2. unfold month_name. table_cases H.
Qed.
Lemma weekday_names_mean : names_mean cronWeekdayNames weekday_name 0 7.
Proof.
  assert (forall text v, weekday_name text v -> cronWeekdayNames !! text = Some v /\ 0 <= v <= 7 /\ letters text = true) as Hm.
  { intros text v [Hv H]. pose proof (lookup_lt_Some _ _ _ H) as Hl. cbn in Hl.
    assert (v = 0 \/ v = 1 \/ v = 2 \/ v = 3 \/ v = 4 \/ v = 5 \/ v = 6) as E by lia.
    repeat destruct E as [->|E]; try subst v; cbn in H; injection H as <-; repeat split; try done; vm_compute; reflexivity. }
  split; [|intros text v H; destruct (Hm text v H) as (_ & Hr & Hl); split; [done|by apply letters_clean]].
  intros text v. split; [|intros H; by apply Hm]. intros H%elem_of_list_to_map_2. unfold weekday_name. table_cases H.
Qed.

(** ** The search in a fixed-offset zone *)

Section FixedZoneSearch.
Context (off60 : Z).
Let loc : Location := FixedZone (off60 * 60).

(** The local minute of a whole-minute instant. *)
Definition local_minute (t : Z) : Z := t / Minute + off60.

Lemma Minute_val : Minute = 60 * Second. Proof. done. Qed.

Lemma on_minute_eq t : on_minute t -> t = t / Minute * Minute.
Proof using Type.
  clear. unfold on_minute. intros H. pose proof (Z.div_mod t Minute ltac:(done)). lia.
Qed.

Lemma local_seconds_minute t : on_minute t -> local_seconds loc t = local_minute t * 60.
Proof using Type.
  clear. intros H. apply on_minute_eq in H. unfold local_seconds, seconds, local_minute. cbn [zs_offset loc FixedZone].
  rewrite H at 1. rewrite Minute_val at 2.
  replace (t / Minute * (60 * Second)) with (t / Minute * 60 * Second) by lia.
  rewrite Z.div_mul by done. unfold loc, FixedZone. cbn [zs_offset]. lia.
Qed.

Lemma local_day_minute t : on_minute t -> local_day loc t = local_minute t / 1440.
Proof using Type.
  clear. intros H. unfold local_day. rewrite local_seconds_minute by done.
  change 86400 with (1440 * 60). by rewrite Z.div_mul_cancel_r by lia.
Qed.

Lemma clock_hour_minute t : on_minute t -> ClockHour loc t = local_minute t mod 1440 / 60.
Proof using Type.
  clear. intros H. unfold ClockHour. rewrite local_seconds_minute by done.
  change 86400 with (1440 * 60). change 3600 with (60 * 60).
  rewrite Z.mul_mod_distr_r by lia. by rewrite Z.div_mul_cancel_r by lia.
Qed.

Lemma clock_minute_minute t : on_minute t -> ClockMinute loc t = local_minute t mod 60.
Proof using Type.
  clear. intros H. unfold ClockMinute. rewrite local_seconds_minute by done.
  change 3600 with (60 * 60). rewrite Z.mul_mod_distr_r by lia. by rewrite Z.div_mul by lia.
Qed.

Lemma clock_second_minute t : on_minute t -> ClockSecond loc t = 0.
Proof using Type.
  clear. intros H. unfold ClockSecond. rewrite local_seconds_minute by done. by apply Z.mod_mul.
Qed.

(** [Date] in a fixed zone is affine in the wall-clock fields. *)
Lemma Date_fixed y mo d h mi s ns :
  Date y mo d h mi s ns loc =
  (days_of_civil (y + (mo - 1) / 12) ((mo - 1) mod 12 + 1) d * 86400 + h * 3600 + mi * 60 + s
   - off60 * 60) * Second + ns.
Proof using Type.
  clear. unfold Date, loc, FixedZone. cbn [zs_offset zs_start zs_end].
  destruct (Z.eqb_spec (off60 * 60) 0) as [->|]; [done|]. by destruct (_ || _).
Qed.

Lemma Date_midnight y mo d D :
  days_of_civil (y + (mo - 1) / 12) ((mo - 1) mod 12 + 1) d = D ->
  Date y mo d 0 0 0 0 loc = (D * 1440 - off60) * Minute.
Proof using Type. clear. intros <-. rewrite Date_fixed, Minute_val. lia. Qed.

Lemma minutes_on k : on_minute (k * Minute).
Proof using Type. clear. unfold on_minute. by apply Z.mod_mul. Qed.

Lemma local_minute_of k : local_minute (k * Minute) = k + off60.
Proof using Type. clear. unfold local_minute. by rewrite Z.div_mul. Qed.

(** [fires] as a function of the local minute. *)
Definition fires_at (e : cronExpression) (lm : Z) : bool :=
  let day := lm / 1440 in
  let dayMatches := allowed_at (daysOfMonth e) (civ_day (civil_of_days day)) in
  let weekdayMatches := allowed_at (weekdays e) (weekday_of_days day) in
  allowed_at (months e) (civ_month (civil_of_days day)) &&
  (if dayWildcard e then weekdayMatches
   else if weekdayWildcard e then dayMatches else dayMatches || weekdayMatches) &&
  allowed_at (hours e) (lm mod 1440 / 60) && allowed_at (minutes e) (lm mod 60).

Lemma fires_local e t : on_minute t -> fires e loc t = fires_at e (local_minute t).
Proof using Type.
  intros H. unfold fires, fires_at, matchesDay, Month, Day, Weekday.
  rewrite local_day_minute, clock_hour_minute, clock_minute_minute by done. done.
Qed.

(** What a turn of the loop does to the local minute [lm]: it moves forward,
    by at most 31 days, and skips only minutes that do not fire. *)
Lemma next_step_progress e limit t t' :
  on_minute t -> next_step e loc limit t = inl t' ->
  on_minute t' /\ t < t' /\ t' <= t + 31 * 1440 * Minute /\ After t limit = false /\
  (forall u, on_minute u -> t <= u < t' -> fires e loc u = false).
Proof using Type.
  intros Ht Hstep. unfold next_step in Hstep. destruct (After t limit); [done|].
  pose proof (on_minute_eq t Ht) as Et. set (lm := local_minute t).
  assert (t / Minute = lm - off60) as Etm by (unfold lm, local_minute; lia).
  pose proof (Z.div_mod lm 1440 ltac:(lia)) as Elm.
  pose proof (Z.mod_pos_bound lm 1440 ltac:(lia)) as Hlm.
  (* it is enough to find the next local minute and argue there *)
  assert (forall lm', t' = (lm' - off60) * Minute -> lm < lm' -> lm' <= lm + 31 * 1440 ->
            (forall l, lm <= l < lm' -> fires_at e l = false) ->
            on_minute t' /\ t < t' /\ t' <= t + 31 * 1440 * Minute /\ false = false /\
            (forall u, on_minute u -> t <= u < t' -> fires e loc u = false)) as Hlocal.
  { intros lm' -> Hlo Hhi Hno. rewrite Et, Etm.
    assert (0 < Minute) as Hpos by done.
    split; [apply minutes_on|]. split; [nia|]. split; [nia|]. split; [done|].
    intros u Hu Hr. rewrite fires_local by done. apply Hno.
    pose proof (on_minute_eq u Hu). unfold local_minute. nia. }
  assert (local_day loc t = lm / 1440) as Eday by (by apply local_day_minute).
  unfold Month, Year, Day in Hstep. unfold matchesDay, Day, Weekday in Hstep.
  rewrite clock_hour_minute, clock_minute_minute, Eday in Hstep by done. fold lm in Hstep.
  set (day := lm / 1440) in *. pose proof (civil_valid day) as [Hm _].
  destruct (allowed_at (months e) _) eqn:Emonth; cbn [negb] in Hstep.
  2:{ injection Hstep as <-. apply (Hlocal (next_month_day day * 1440)).
      - rewrite (Date_midnight _ _ _ (next_month_day day)) by reflexivity. done.
      - pose proof (next_month_bounds day). lia.
      - pose proof (next_month_bounds day). lia.
      - intros l Hl. unfold fires_at.
        destruct (same_month_until day (l / 1440)) as [-> _]; [|by rewrite Emonth].
        split; [apply Z.div_le_mono; lia|]. apply Z.div_lt_upper_bound; lia. }
  destruct (if dayWildcard e then _ else _) eqn:Ematch in Hstep; cbn [negb] in Hstep.
  2:{ injection Hstep as <-. apply (Hlocal ((day + 1) * 1440)); [|lia..|].
      - rewrite (Date_midnight _ _ _ (day + 1)); [done|].
        rewrite Z.mod_small, Z.div_small by lia.
        rewrite Z.add_0_r, Z.sub_add, days_of_civil_add, days_of_civil_of_days. done.
      - intros l Hl. unfold fires_at. assert (l / 1440 = day) as ->
          by (symmetry; apply Z.div_unique with (l - day * 1440); lia).
        rewrite Ematch, andb_false_r. done. }
  destruct (allowed_at (hours e) _) eqn:Ehour; cbn [negb] in Hstep.
  2:{ injection Hstep as <-.
      pose proof (Z.div_mod lm 60 ltac:(lia)). pose proof (Z.mod_pos_bound lm 60 ltac:(lia)).
      apply (Hlocal (lm + (60 - lm mod 60))); [rewrite Et, Etm; lia|lia..|].
      intros l Hl. unfold fires_at.
      assert (l mod 1440 / 60 = lm mod 1440 / 60) as ->; [|by rewrite Ehour, andb_false_r].
      assert (forall x, x mod 1440 / 60 = (x / 60) mod 24) as Hdm.
      { intros x. change 1440 with (60 * 24). rewrite Z.rem_mul_r, Z.mul_comm, Z.div_add by lia.
        rewrite (Z.div_small (x mod 60)) by (apply Z.mod_pos_bound; lia). done. }
      rewrite !Hdm. f_equal. symmetry. apply Z.div_unique with (l - lm / 60 * 60); lia. }
  destruct (allowed_at (minutes e) _) eqn:Eminute; cbn [negb] in Hstep; [done|].
  injection Hstep as <-. apply (Hlocal (lm + 1)); [rewrite Et, Etm; lia|lia..|].
  intros l Hl. assert (l = lm) as -> by lia. unfold fires_at. by rewrite Eminute, andb_false_r.
Qed.

(** Where the search stops: at a firing minute, or past the limit. *)
Lemma next_step_stop e limit t r :
  next_step e loc limit t = inr r ->
  (r = None /\ limit < t) \/ (r = Some t /\ t <= limit /\ fires e loc t = true).
Proof using Type.
  unfold next_step, fires, After. intros H. destruct (Z.ltb_spec limit t).
  - left. split; [congruence|done].
  - right. repeat match type of H with context [negb ?b] =>
      destruct b eqn:?; cbn [negb] in H; [|discriminate] end.
    injection H as <-. done.
Qed.

Lemma search_limit_bound after :
  search_limit loc after <= first_candidate after + 2928 * 1440 * Minute.
Proof using Type.
  unfold search_limit, AddDate, cronSearchYears. set (t := first_candidate after).
  assert (on_minute t) as Ht.
  { unfold t, first_candidate, Truncate, on_minute. change (Minute <=? 0) with false. cbv match.
    rewrite Z.add_mod, Z_mod_same_full, Z.add_0_r, Z.mod_mod by done.
    rewrite Zminus_mod, Z.mod_mod, Z.sub_diag by done. done. }
  rewrite Date_fixed, !Z.add_0_r.
  pose proof (civil_valid (local_day loc t)) as [Hm _]. fold (Month loc t) in Hm.
  rewrite Z.mod_small, Z.div_small, Z.add_0_r, Z.sub_add by lia.
  assert (forall y m d, 1 <= m <= 12 -> days_of_civil (y + 8) m d <= days_of_civil y m d + 2928) as H8.
  { clear. intros y m d Hm. rewrite !Euclid.days_of_civil_yst by done.
    assert (forall y, yst (y + 8) <= yst y + 2928) as Hy.
    { intros z. pose proof (Euclid.yst_step z). pose proof (Euclid.yst_step (z + 1)).
      pose proof (Euclid.yst_step (z + 1 + 1)). pose proof (Euclid.yst_step (z + 1 + 1 + 1)).
      pose proof (Euclid.yst_step (z + 1 + 1 + 1 + 1)). pose proof (Euclid.yst_step (z + 1 + 1 + 1 + 1 + 1)).
      pose proof (Euclid.yst_step (z + 1 + 1 + 1 + 1 + 1 + 1)).
      pose proof (Euclid.yst_step (z + 1 + 1 + 1 + 1 + 1 + 1 + 1)).
      replace (z + 8) with (z + 1 + 1 + 1 + 1 + 1 + 1 + 1 + 1) by lia. lia. }
    destruct (m <=? 2).
    - replace (y + 8 - 1) with (y - 1 + 8) by lia. specialize (Hy (y - 1)). lia.
    - specialize (Hy y). lia. }
  specialize (H8 (Year loc t) (Month loc t) (Day loc t) Hm).
  assert (days_of_civil (Year loc t) (Month loc t) (Day loc t) = local_day loc t) as Ed
    by apply days_of_civil_of_days.
  rewrite Ed in H8.
  rewrite local_day_minute, clock_hour_minute, clock_minute_minute, clock_second_minute in * by done.
  assert (ClockNanosecond t = 0) as ->.
  { unfold ClockNanosecond. pose proof (on_minute_eq t Ht) as E. set (q := t / Minute) in E.
    replace t with (q * 60 * Second) by (rewrite E, Minute_val; lia). by apply Z.mod_mul. }
  set (lm := local_minute t) in *.
  assert (t = (lm - off60) * Minute) as Et
    by (rewrite (on_minute_eq t Ht) at 1; unfold lm, local_minute; f_equal; lia).
  pose proof (Z.div_mod lm 1440 ltac:(lia)) as E1. pose proof (Z.mod_pos_bound lm 1440 ltac:(lia)).
  pose proof (Z.div_mod (lm mod 1440) 60 ltac:(lia)) as E2.
  assert (lm mod 1440 mod 60 = lm mod 60) as E3.
  { change 1440 with (60 * 24). rewrite Z.rem_mul_r by lia.
    rewrite (Z.mul_comm 60), Z.mod_add, Z.mod_mod by lia. done. }
  rewrite E3 in E2. rewrite Minute_val in *. unfold Second in *. lia.
Qed.
End FixedZoneSearch.

Lemma first_candidate_spec after :
  on_minute (first_candidate after) /\ after < first_candidate after /\
  forall u, on_minute u -> after < u -> first_candidate after <= u.
Proof.
  unfold first_candidate, Truncate. change (Minute <=? 0) with false. cbv match.
  pose proof (Z.div_mod after Minute ltac:(done)) as E.
  pose proof (Z.mod_pos_bound after Minute ltac:(done)) as Hb.
  assert (after - after mod Minute + Minute = (after / Minute + 1) * Minute) as -> by lia.
  split; [apply minutes_on|]. split; [lia|]. intros u Hu Hlt.
  rewrite (on_minute_eq u Hu) in *. assert (after / Minute < u / Minute); [|unfold Minute, Second in *; nia].
  apply Z.div_lt_upper_bound; [done|]. lia.
Qed.

Lemma on_minute_lt t u : on_minute t -> on_minute u -> t < u -> t / Minute < u / Minute.
Proof.
  intros Ht Hu Hlt. rewrite (on_minute_eq t Ht), (on_minute_eq u Hu) in Hlt.
  unfold Minute, Second in *. nia.
Qed.

(** The states the search passes through in a fixed zone. *)
Definition searching (off60 : Z) (e : cronExpression) (after candidate : Z) : Prop :=
  on_minute candidate /\ first_candidate after <= candidate <= first_candidate after + 2959 * 1440 * Minute /\
  forall u, on_minute u -> first_candidate after <= u < candidate ->
    fires e (FixedZone (off60 * 60)) u = false.

Lemma searching_start off60 e after : searching off60 e after (first_candidate after).
Proof.
  split; [apply first_candidate_spec|]. split; [unfold Minute, Second; lia|]. intros u _ Hu. lia.
Qed.

Lemma searching_step off60 e after t t' :
  searching off60 e after t ->
  next_step e (FixedZone (off60 * 60)) (search_limit (FixedZone (off60 * 60)) after) t = inl t' ->
  searching off60 e after t' /\ t / Minute < t' / Minute.
Proof.
  intros (Ht & Hb & Hno) Hs.
  destruct (next_step_progress off60 e _ t t' Ht Hs) as (Ht' & Hlt & Hle & Haf & Hskip).
  unfold After in Haf. bool_prop. pose proof (search_limit_bound off60 after).
  split; [|by apply on_minute_lt]. split; [done|]. split; [lia|].
  intros u Hu Hr. destruct (Z.lt_ge_cases u t); [apply Hno|apply Hskip]; lia || done.
Qed.

Lemma searching_stop off60 e after t r :
  searching off60 e after t ->
  next_step e (FixedZone (off60 * 60)) (search_limit (FixedZone (off60 * 60)) after) t = inr r ->
  match r with
  | Some t => after < t /\ on_minute t /\ fires e (FixedZone (off60 * 60)) t = true /\
      forall u, on_minute u -> after < u < t -> fires e (FixedZone (off60 * 60)) u = false
  | None => forall u, on_minute u ->
      after < u <= search_limit (FixedZone (off60 * 60)) after ->
      fires e (FixedZone (off60 * 60)) u = false
  end.
Proof.
  intros (Ht & Hb & Hno) Hs. destruct (first_candidate_spec after) as (_ & Hfirst & Hleast).
  apply next_step_stop in Hs as [[-> Hlim]|(-> & Hlim & Hf)].
  - intros u Hu Hr. apply Hno; [done|]. specialize (Hleast u Hu ltac:(lia)). lia.
  - split; [lia|]. split; [done|]. split; [done|]. intros u Hu Hr. apply Hno; [done|].
    specialize (Hleast u Hu ltac:(lia)). lia.
Qed.

(** ** A zone whose spring transition skips midnight *)

(** America/Havana around the spring transition of 2024: clocks go from
    2024-03-10 00:00 (UTC-5) to 01:00 (UTC-4), and back on 2024-11-03. *)
Definition havana_spring : Z := days_of_civil 2024 3 10 * 86400 + 5 * 3600.
Definition havana_autumn : Z := days_of_civil 2024 11 3 * 86400 + 5 * 3600.
Definition America_Havana_2024 : Location := fun s =>
  if s <? havana_spring then ZoneSpan (-18000) int64_min havana_spring
  else if s <? havana_autumn then ZoneSpan (-14400) havana_spring havana_autumn
  else ZoneSpan (-18000) havana_autumn int64_max.

(** [0 12 15 * *]: noon on the 15th of every month. *)
Definition noon_on_the_15th : cronExpression :=
  match parseCronExpression "0 12 15 * *" with
  | Ok e => e
  | _ => CronExpression (CronField []) (CronField []) (CronField []) (CronField []) (CronField []) false false
  end.

(** 2024-03-01 00:00 in Havana, and 2024-03-09 23:00. *)
Definition march_first : Z := (days_of_civil 2024 3 1 * 86400 + 5 * 3600) * Second.
Definition eve_of_the_gap : Z := (days_of_civil 2024 3 9 * 86400 + 28 * 3600) * Second.

Lemma havana_reaches_eve :
  next_loop 4 noon_on_the_15th march_first America_Havana_2024 = inl eve_of_the_gap.
Proof. vm_compute. reflexivity. Qed.

Lemma havana_stuck :
  next_step noon_on_the_15th America_Havana_2024
    (search_limit America_Havana_2024 march_first) eve_of_the_gap = inl eve_of_the_gap.
Proof. vm_compute. reflexivity. Qed.

Lemma mark_overflow_panics start stop step cells :
  0 <= start <= stop -> stop < Z.of_nat (length cells) -> Z.of_nat (length cells) < 1000 ->
  int64_max - start < step <= int64_max ->
  mark (length cells) start stop step cells = Panicked "index out of range".
Proof.
  intros Hs Hlen Hbig Hstep. destruct cells as [|c cells]; [simpl in Hlen; lia|].
  cbn [length mark]. rewrite (proj2 (Z.ltb_ge stop start)) by lia.
  rewrite (proj2 (Z.ltb_ge start 0)), (proj2 (Z.leb_gt _ start)) by (simpl in Hlen; simpl; lia).
  cbn [orb]. assert (wrap64 (start + step) < 0) as Hneg.
  { unfold wrap64, int64_max in *.
    replace (start + step + 2 ^ 63) with (start + step - 2 ^ 63 + 1 * 2 ^ 64) by lia.
    rewrite Z.mod_add, Z.mod_small by lia. lia. }
  destruct (length cells); cbn [mark];
    rewrite (proj2 (Z.ltb_ge stop (wrap64 (start + step)))) by lia;
    by rewrite (proj2 (Z.ltb_lt (wrap64 (start + step)) 0)) by lia.
Qed.

(** ** Properties *)

(** Every field of a parsed expression has a cell for every value the search
    reads. *)
Definition fields_in_range (e : cronExpression) : Prop :=
  length (allowed (minutes e)) = 60%nat /\ length (allowed (hours e)) = 24%nat /\
  length (allowed (daysOfMonth e)) = 32%nat /\ length (allowed (months e)) = 13%nat /\
  length (allowed (weekdays e)) = 7%nat.

(** Some item of the comma-separated list stands for [v]. *)
Definition covered (text : string) (minimum maximum : Z) (named : string -> Z -> Prop) (v : Z) : Prop :=
  exists item, item ∈ split ","%char (to_upper text) /\ item_means minimum maximum named item v.

(** A parsed field has a cell for every value, and allows those its items mean. *)
Lemma parseCronField_covered minimum maximum names named value f :
  0 <= minimum <= maximum -> maximum < 1000 -> names_mean names named minimum maximum ->
  parseCronField value minimum maximum names = Ok f ->
  Z.of_nat (length (allowed f)) = maximum + 1 /\
  forall v, allowed_at f v = true <-> 0 <= v /\ covered value minimum maximum named v.
Proof.
  intros Hr Hm Hn H.
  assert (forall n v, names !! n = Some v -> minimum <= v <= maximum) as Hnr by (intros n v E; by apply Hn, Hn in E as [? _]).
  destruct (parseCronField_denotes minimum maximum names Hr Hm Hnr _ _ H) as [Hl Hd]. split; [done|].
  intros v. rewrite Hd. unfold covered. by setoid_rewrite (item_covers_means minimum maximum names named Hr Hm Hn).
Qed.

Lemma allowsEvery_spec f minimum maximum :
  allowsEvery f minimum maximum = true <->
  forall v, minimum <= v <= maximum -> allowed_at f v = true.
Proof.
  unfold allowsEvery.
  assert (forall n m, allowsEvery_go n f m = true <->
            forall v, m <= v < m + Z.of_nat n -> allowed_at f v = true) as H.
  { induction n as [|n IH]; intros m; cbn [allowsEvery_go].
    - split; [|done]. intros _ v Hv. lia.
    - destruct (allowed_at f m) eqn:E; cbn [negb].
      + rewrite IH. split; intros H v Hv; [|apply H; lia].
        destruct (Z.eq_dec v m) as [->|]; [done|]. apply H. lia.
      + split; [done|]. intros H. rewrite (H m) in E by lia. done. }
  rewrite H. split; intros Hv v Hr; apply Hv; lia.
Qed.

Lemma foldSunday_spec f : length (allowed f) = 8%nat ->
  length (allowed (foldSunday f)) = 7%nat /\
  forall v, 0 <= v <= 6 ->
    allowed_at (foldSunday f) v = true <-> allowed_at f v = true \/ (v = 0 /\ allowed_at f 7 = true).
Proof.
  destruct f as [cells]. cbn [allowed]. intros Hlen.
  do 9 (destruct cells as [|? cells]; try discriminate). split; [done|].
  intros v Hv. assert (v = 0 \/ v = 1 \/ v = 2 \/ v = 3 \/ v = 4 \/ v = 5 \/ v = 6) as Hc by lia.
  repeat destruct Hc as [->|Hc]; [..|subst v]; unfold foldSunday, allowed_at; cbn [allowed];
    [|match goal with |- (?l = true <-> ?r = true \/ _) =>
        change l with r; intuition (lia || auto) end ..].
  change (b || b6 = true <-> b = true \/ 0 = 0 /\ b6 = true).
  destruct b, b6; intuition.
Qed.

(** C8.  A parsed expression denotes what its five fields say: a value is
    allowed exactly when some comma-separated item of the field means it by the
    grammar above ([*], a number, a name, a range, a step; weekday 7 counts as
    Sunday), the wildcard flags say whether a field allows every value, and
    every index the search uses is inside its slice. *)
Theorem parseCronExpression_denotes text e :
  parseCronExpression text = Ok e ->
  exists f0 f1 f2 f3 f4, Fields text = [f0; f1; f2; f3; f4] /\ fields_in_range e /\
  (forall v, allowed_at (minutes e) v = true <-> 0 <= v /\ covered f0 0 59 no_name v) /\
  (forall v, allowed_at (hours e) v = true <-> 0 <= v /\ covered f1 0 23 no_name v) /\
  (forall v, allowed_at (daysOfMonth e) v = true <-> 0 <= v /\ covered f2 1 31 no_name v) /\
  (forall v, allowed_at (months e) v = true <-> 0 <= v /\ covered f3 1 12 month_name v) /\
  (forall v, 0 <= v <= 6 -> allowed_at (weekdays e) v = true <->
     covered f4 0 7 weekday_name v \/ (v = 0 /\ covered f4 0 7 weekday_name 7)) /\
  (dayWildcard e = true <-> forall v, 1 <= v <= 31 -> allowed_at (daysOfMonth e) v = true) /\
  (weekdayWildcard e = true <-> forall v, 0 <= v <= 6 -> allowed_at (weekdays e) v = true).
Proof.
  unfold parseCronExpression, result_bind. intros H.
  destruct (Fields text) as [|f0 [|f1 [|f2 [|f3 [|f4 [|]]]]]]; try done.
  destruct (parseCronField f0 0 59 ∅) as [c0| |] eqn:E0; cbn in H; try done.
  destruct (parseCronField f1 0 23 ∅) as [c1| |] eqn:E1; cbn in H; try done.
  destruct (parseCronField f2 1 31 ∅) as [c2| |] eqn:E2; cbn in H; try done.
  destruct (parseCronField f3 1 12 _) as [c3| |] eqn:E3; cbn in H; try done.
  destruct (parseCronField f4 0 7 _) as [c4| |] eqn:E4; cbn in H; try done.
  injection H as <-.
  apply (parseCronField_covered _ _ _ no_name) in E0 as [L0 D0]; [|lia|lia|apply no_names_mean].
  apply (parseCronField_covered _ _ _ no_name) in E1 as [L1 D1]; [|lia|lia|apply no_names_mean].
  apply (parseCronField_covered _ _ _ no_name) in E2 as [L2 D2]; [|lia|lia|apply no_names_mean].
  apply (parseCronField_covered _ _ _ month_name) in E3 as [L3 D3]; [|lia|lia|apply month_names_mean].
  apply (parseCronField_covered _ _ _ weekday_name) in E4 as [L4 D4]; [|lia|lia|apply weekday_names_mean].
  destruct (foldSunday_spec c4) as [L4' D4']; [lia|].
  exists f0, f1, f2, f3, f4. split; [done|].
  split; [unfold fields_in_range; cbn [minutes hours daysOfMonth months weekdays]; lia|].
  do 4 (split; [done|]). split; [|split; apply allowsEvery_spec].
  intros v Hv. cbn [weekdays]. rewrite D4', !D4 by done. intuition lia.
Qed.

(** C9.  in a zone with a fixed offset of whole minutes the search always
    stops; what it returns is the first whole minute after [after] that the
    expression allows, and when it returns none there is no such minute up to
    the eight-year limit. *)
Theorem next_is_first_firing_minute off60 e after :
  let loc := FixedZone (off60 * 60) in
  match next_loop next_fuel e after loc with
  | inr (Some t) =>
      after < t /\ on_minute t /\ fires e loc t = true /\
      forall u, on_minute u -> after < u < t -> fires e loc u = false
  | inr None =>
      forall u, on_minute u -> after < u <= search_limit loc after -> fires e loc u = false
  | inl _ => False
  end.
Proof.
  cbv zeta. unfold next_loop. set (loc := FixedZone (off60 * 60)).
  set (step := next_step e loc (search_limit loc after)).
  set (m := fun t => first_candidate after / Minute + 2960 * 1440 - t / Minute).
  destruct (iter_until_terminates step (searching off60 e after) m next_fuel (first_candidate after))
    as [r Hr].
  - intros t (Ht & Hb & _). unfold m. destruct (first_candidate_spec after) as [Hf _].
    rewrite (on_minute_eq t Ht), (on_minute_eq _ Hf) in Hb. unfold Minute, Second in *. nia.
  - intros t t' Hs Hstep. destruct (searching_step off60 e after t t' Hs Hstep) as [Hs' Hlt].
    split; [done|]. unfold m. lia.
  - apply searching_start.
  - unfold m. change (2 ^ Z.of_nat next_fuel) with 8388608. lia.
  - pose proof (iter_until_result step (searching off60 e after)) as Hres.
    rewrite Hr. specialize (Hres (fun r => match r with
      | Some t => after < t /\ on_minute t /\ fires e loc t = true /\
          forall u, on_minute u -> after < u < t -> fires e loc u = false
      | None => forall u, on_minute u -> after < u <= search_limit loc after -> fires e loc u = false
      end)). cbv beta in Hres.
    specialize (Hres ltac:(intros t Ht; destruct (step t) eqn:Es;
      [by eapply searching_step|by eapply searching_stop]) next_fuel (first_candidate after)
      (searching_start off60 e after)).
    rewrite Hr in Hres. exact Hres.
Qed.

(** C10.  the search never stops in a zone whose spring transition skips
    midnight (America/Havana): asked on 2024-03-01 for noon on the 15th, the
    loop reaches 2024-03-09 23:00 and stays there, because [time.Date] of the
    missing midnight of the 10th gives that same instant. *)
Theorem next_diverges_at_midnight_gap fuel :
  exists candidate,
    next_loop fuel noon_on_the_15th march_first America_Havana_2024 = inl candidate.
Proof.
  destruct (next_loop fuel noon_on_the_15th march_first America_Havana_2024) as [c|r] eqn:E; [eauto|].
  exfalso. unfold next_loop in E. set (step := next_step _ _ _) in E.
  assert (forall k, iter_until (4 + k) step (first_candidate march_first) = inl eve_of_the_gap) as Hs.
  { induction k as [|k IH]; [exact havana_reaches_eve|].
    change (iter_until (4 + S k) step (first_candidate march_first)) with
      (match iter_until (4 + k) step (first_candidate march_first) with
       | inl s' => iter_until (4 + k) step s' | inr r => inr r end).
    rewrite IH. apply iter_until_stuck. exact havana_stuck. }
  pose proof (iter_until_mono step fuel (4 + fuel) _ r ltac:(lia) E) as E'.
  rewrite Hs in E'. discriminate.
Qed.

(** a step so large that [current += step] overflows an [int] makes the
    parser panic: after the first marked value the index is negative. *)
Theorem parseCronField_overflow_panics value minimum maximum names item items start stop step :
  0 <= minimum <= maximum -> maximum < 999 ->
  (forall n v, names !! n = Some v -> minimum <= v <= maximum) ->
  split ","%char (to_upper value) = item :: items ->
  parseCronItem item minimum maximum names = Ok (start, stop, step) ->
  start <= stop -> int64_max - start < step ->
  parseCronField value minimum maximum names = Panicked "index out of range".
Proof.
  intros Hr Hm Hn Hsplit Hitem Hle Hstep. unfold parseCronField. rewrite Hsplit.
  cbn [parseCronItems]. rewrite Hitem. cbn [result_bind].
  destruct (parseCronItem_range minimum maximum names Hr ltac:(lia) Hn item start stop step Hitem)
    as (Hs & He & Hst).
  pose proof (mark_overflow_panics start stop step (replicate (Z.to_nat (maximum + 1)) false)) as Hp.
  rewrite length_replicate in Hp. rewrite Hp by lia. done.
Qed.

(** ** Witnesses *)

Lemma parseCronExpression_denotes_witness :
  exists e, parseCronExpression "*/15 9-17 1,15 jan-mar MON-FRI/2" = Ok e /\
  exists f0 f1 f2 f3 f4, Fields "*/15 9-17 1,15 jan-mar MON-FRI/2" = [f0; f1; f2; f3; f4].
Proof.
  eexists. split; [vm_compute; reflexivity|].
  destruct (parseCronExpression_denotes "*/15 9-17 1,15 jan-mar MON-FRI/2" _ ltac:(vm_compute; reflexivity))
    as (f0 & f1 & f2 & f3 & f4 & E & _). by exists f0, f1, f2, f3, f4.
Defined.

Lemma parseCronField_overflow_panics_witness :
  parseCronField "1/9223372036854775807" 1 31 ∅ = Panicked "index out of range".
Proof.
  apply (parseCronField_overflow_panics "1/9223372036854775807" 1 31 ∅
    "1/9223372036854775807" [] 1 31 9223372036854775807);
    [lia|lia|intros n v; rewrite lookup_empty; discriminate|reflexivity|vm_compute; reflexivity|lia|reflexivity].
Defined.
