(* ===== verification/Json.v ===== *)
(** * [encoding/json], as far as the stores' event logs use it

    The grammar check [json.Valid] (the scanner's states and stack), the
    compaction that [json.Marshal] applies to a [RawMessage], the encoding of
    strings, integers and times, and what decoding gives back for an encoded
    string.  HTML escaping is on, as in [json.Marshal]. *)
From stdpp Require Import pretty.
From S2P Require Import Prelude GoTime GoStrings.
Open Scope Z_scope.
Open Scope go_scope.

(** ** The scanner *)

Inductive container := InObjectKey | InObjectValue | InArray.

Inductive scan_state :=
| BeginValue            (* a value is expected *)
| BeginValueOrEnd       (* just after an opening bracket *)
| BeginKeyOrEnd         (* just after an opening brace *)
| BeginKey              (* after a comma in an object *)
| EndValue              (* a value is complete *)
| InString | InStringEsc | InStringEscU (n : nat)
| InNeg | InInt | InZero | InDot | InFrac | InExp | InExpSign | InExpDigits
| InLiteral (rest : string).

Definition json_space (c : ascii) : bool :=
  let b := byte_of c in (b =? 32) || (b =? 9) || (b =? 13) || (b =? 10).
Definition is_char (z : Z) (c : ascii) : bool := byte_of c =? z.
Definition digit09 (c : ascii) : bool := in_range 48 57 c.
Definition digit19 (c : ascii) : bool := in_range 49 57 c.
Definition hex_digit (c : ascii) : bool := digit09 c || in_range 97 102 c || in_range 65 70 c.

Definition max_nesting : nat := 10000.

Definition push (k : container) (state : scan_state) (stack : list container)
    : option (scan_state * list container) :=
  if (max_nesting <=? length stack)%nat then None else Some (state, k :: stack).

Definition begin_value (c : ascii) (stack : list container)
    : option (scan_state * list container) :=
  if json_space c then Some (BeginValue, stack)
  else if is_char 123 c then push InObjectKey BeginKeyOrEnd stack
  else if is_char 91 c then push InArray BeginValueOrEnd stack
  else if is_char 34 c then Some (InString, stack)
  else if is_char 45 c then Some (InNeg, stack)
  else if is_char 48 c then Some (InZero, stack)
  else if is_char 116 c then Some (InLiteral "rue", stack)
  else if is_char 102 c then Some (InLiteral "alse", stack)
  else if is_char 110 c then Some (InLiteral "ull", stack)
  else if digit19 c then Some (InInt, stack)
  else None.

Definition end_value (c : ascii) (stack : list container)
    : option (scan_state * list container) :=
  if json_space c then Some (EndValue, stack) else
  match stack with
  | [] => None
  | InObjectKey :: stack => if is_char 58 c then Some (BeginValue, InObjectValue :: stack) else None
  | InObjectValue :: stack =>
      if is_char 44 c then Some (BeginKey, InObjectKey :: stack)
      else if is_char 125 c then Some (EndValue, stack) else None
  | InArray :: stack' =>
      if is_char 44 c then Some (BeginValue, stack)
      else if is_char 93 c then Some (EndValue, stack') else None
  end.

Definition scan_step (c : ascii) (state : scan_state) (stack : list container)
    : option (scan_state * list container) :=
  let number (next : scan_state) (ok : bool) := if ok then Some (next, stack) else None in
  match state with
  | BeginValue => begin_value c stack
  | BeginValueOrEnd =>
      if json_space c then Some (BeginValueOrEnd, stack)
      else if is_char 93 c then Some (EndValue, tail stack) else begin_value c stack
  | BeginKeyOrEnd =>
      if json_space c then Some (BeginKeyOrEnd, stack)
      else if is_char 125 c then Some (EndValue, tail stack)
      else number InString (is_char 34 c)
  | BeginKey => if json_space c then Some (BeginKey, stack) else number InString (is_char 34 c)
  | EndValue => end_value c stack
  | InString =>
      if is_char 34 c then Some (EndValue, stack)
      else if is_char 92 c then Some (InStringEsc, stack)
      else if byte_of c <? 32 then None else Some (InString, stack)
  | InStringEsc =>
      if is_char 117 c then Some (InStringEscU 4, stack)
      else number InString (existsb (fun z => is_char z c) [98;102;110;114;116;92;47;34])
  | InStringEscU n =>
      if hex_digit c then Some (match n with S (S n) => InStringEscU (S n) | _ => InString end, stack)
      else None
  | InNeg => if is_char 48 c then Some (InZero, stack) else number InInt (digit19 c)
  | InInt =>
      if digit09 c then Some (InInt, stack)
      else if is_char 46 c then Some (InDot, stack)
      else if is_char 101 c || is_char 69 c then Some (InExp, stack) else end_value c stack
  | InZero =>
      if is_char 46 c then Some (InDot, stack)
      else if is_char 101 c || is_char 69 c then Some (InExp, stack) else end_value c stack
  | InDot => number InFrac (digit09 c)
  | InFrac =>
      if digit09 c then Some (InFrac, stack)
      else if is_char 101 c || is_char 69 c then Some (InExp, stack) else end_value c stack
  | InExp => if is_char 43 c || is_char 45 c then Some (InExpSign, stack)
             else number InExpDigits (digit09 c)
  | InExpSign => number InExpDigits (digit09 c)
  | InExpDigits => if digit09 c then Some (InExpDigits, stack) else end_value c stack
  | InLiteral rest =>
      match rest with
      | String d EmptyString => number EndValue (Ascii.eqb c d)
      | String d rest => number (InLiteral rest) (Ascii.eqb c d)
      | EmptyString => None
      end
  end.

Fixpoint scan (s : string) (state : scan_state) (stack : list container) : bool :=
  match s with
  | EmptyString =>
      match state, stack with
      | (EndValue | InInt | InZero | InFrac | InExpDigits), [] => true
      | _, _ => false
      end
  | String c s => match scan_step c state stack with
                  | Some (state, stack) => scan s state stack
                  | None => false
                  end
  end.

(** [json.Valid]. *)
Definition Valid (s : string) : bool := scan s BeginValue [].

(** ** Encoding *)

Definition unicode_escape (b : Z) : string :=
  String (chr 92) (String (chr 117) (String (chr 48) (String (chr 48)
    (String (hex_char (b / 16)) (String (hex_char (b mod 16)) EmptyString))))).
Definition replacement_escape : string := String (chr 92) "ufffd".
Definition separator_escape (last : Z) : string :=
  String (chr 92) (String (chr 117) (String (chr 50) (String (chr 48) (String (chr 50)
    (String (hex_char (last mod 16)) EmptyString))))).
Definition html_char (b : Z) : bool := (b =? 60) || (b =? 62) || (b =? 38).

(** The escape of one ASCII byte in a JSON string. *)
Definition escape_ascii (b : Z) : string :=
  if (b =? 34) || (b =? 92) then String (chr 92) (String (chr b) EmptyString)
  else if b =? 8 then String (chr 92) "b"
  else if b =? 12 then String (chr 92) "f"
  else if b =? 10 then String (chr 92) "n"
  else if b =? 13 then String (chr 92) "r"
  else if b =? 9 then String (chr 92) "t"
  else if (b <? 32) || html_char b then unicode_escape b
  else String (chr b) EmptyString.

Fixpoint escape_go (fuel : nat) (s : string) : string :=
  match fuel, s with
  | O, _ => EmptyString
  | _, EmptyString => EmptyString
  | S fuel, String a r =>
      if byte_of a <? 128 then escape_ascii (byte_of a) +:+ escape_go fuel r
      else match cut_rune s with
           | None => replacement_escape +:+ escape_go fuel r
           | Some (width, rest) =>
               match r with
               | String b (String c _) =>
                   if (byte_of a =? 226) && (byte_of b =? 128) &&
                      ((byte_of c =? 168) || (byte_of c =? 169))
                   then separator_escape (byte_of c) +:+ escape_go fuel rest
                   else take_bytes width s +:+ escape_go fuel rest
               | _ => take_bytes width s +:+ escape_go fuel rest
               end
           end
  end.
Definition quote : string := String (chr 34) EmptyString.
Definition encode_string (s : string) : string :=
  quote +:+ escape_go (String.length s) s +:+ quote.

(** [hex.EncodeToString]. *)
Definition hex_byte (b : Z) : string :=
  String (hex_char (b mod 256 / 16)) (String (hex_char (b mod 16)) EmptyString).
Definition hex_encode (l : list Z) : string :=
  fold_right (fun b acc => hex_byte b +:+ acc) EmptyString l.

(** What decoding an encoded string gives: every byte that does not start a
    well-formed rune has become U+FFFD. *)
Fixpoint sanitize_go (fuel : nat) (s : string) : string :=
  match fuel, s with
  | O, _ => EmptyString
  | _, EmptyString => EmptyString
  | S fuel, String _ r =>
      match cut_rune s with
      | None => bytes [239;191;189] +:+ sanitize_go fuel r
      | Some (width, rest) => take_bytes width s +:+ sanitize_go fuel rest
      end
  end.
Definition sanitize (s : string) : string := sanitize_go (String.length s) s.

(** The compaction of a valid [RawMessage]: white space outside strings goes,
    HTML characters and the two line separators are escaped. *)
Fixpoint compact_go (in_string escaped : bool) (s : string) : string :=
  match s with
  | EmptyString => EmptyString
  | String a r =>
      let b := byte_of a in
      let in_string' := if in_string then escaped || negb (b =? 34) else b =? 34 in
      let escaped' := in_string && negb escaped && (b =? 92) in
      if html_char b then unicode_escape b +:+ compact_go in_string' escaped' r
      else if negb in_string && json_space a then compact_go in_string' escaped' r
      else match r with
           | String c (String d r') =>
               if (b =? 226) && (byte_of c =? 128) && ((byte_of d =? 168) || (byte_of d =? 169))
               then separator_escape (byte_of d) +:+ compact_go in_string' false r'
               else String a (compact_go in_string' escaped' r)
           | _ => String a (compact_go in_string' escaped' r)
           end
  end.
Definition compact (s : string) : string := compact_go false false s.

(** ** Times: RFC 3339 with the nanoseconds' trailing zeros cut *)

Fixpoint pad_left (width : nat) (s : string) : string :=
  if (String.length s <? width)%nat then
    match width with O => s | S width => "0" +:+ pad_left width s end
  else s.
Definition pad (width : nat) (z : Z) : string := pad_left width (FormatUint z).

Definition fraction (ns : Z) : string :=
  if ns =? 0 then EmptyString else "." +:+ trim_char_right "0"%char (pad 9 ns).

(** [time.Time.MarshalJSON] of a UTC time: fails outside years 0 to 9999. *)
Definition encode_time (t : Z) : option string :=
  let y := Year UTC t in
  if (y <? 0) || (9999 <? y) then None
  else Some (quote +:+ pad 4 y +:+ "-" +:+ pad 2 (Month UTC t) +:+ "-" +:+ pad 2 (Day UTC t) +:+
    "T" +:+ pad 2 (ClockHour UTC t) +:+ ":" +:+ pad 2 (ClockMinute UTC t) +:+ ":" +:+
    pad 2 (ClockSecond UTC t) +:+ fraction (ClockNanosecond t) +:+ "Z" +:+ quote).

(** One member of an object; an omitted one ([omitempty]) is [None]. *)
Definition member (name : string) (value : string) : string :=
  encode_string name +:+ ":" +:+ value.
Definition encode_object (members : list (option string)) : string :=
  "{" +:+ join "," (omap id members) +:+ "}".

(** A string member with [omitempty]. *)
Definition omit_empty (name value : string) : option string :=
  if String.eqb value "" then None else Some (member name (encode_string value)).

(** ** Sizes *)

Lemma escape_ascii_length b : string_length (escape_ascii b) <= 6.
Proof.
  unfold escape_ascii. repeat match goal with |- context [if ?c then _ else _] => destruct c end;
    cbn; lia.
Qed.

Lemma take_bytes_length n s : 0 <= n -> string_length (take_bytes n s) <= n.
Proof.
  intros Hn. unfold take_bytes. rewrite string_length_nat.
  assert (forall k s, String.length (String.substring 0 k s) <= k)%nat as H.
  { clear. induction k as [|k IH]; intros [|a s]; cbn; try lia. specialize (IH s). lia. }
  specialize (H (Z.to_nat n) s). lia.
Qed.

(** A rune is at most four bytes and no longer than what it is cut from. *)
Lemma cut_rune_length s w r : cut_rune s = Some (w, r) ->
  1 <= w <= 4 /\ string_length s = w + string_length r.
Proof.
  unfold cut_rune. intros H. destruct s as [|a s]; [done|].
  repeat match type of H with
  | context [if ?c then _ else _] => destruct c; try done
  | context [match ?x with EmptyString => _ | String _ _ => _ end] => destruct x; try done
  end; injection H as <- <-; cbn [string_length]; lia.
Qed.

Lemma escape_go_length fuel : forall s, string_length (escape_go fuel s) <= 6 * string_length s.
Proof.
  induction fuel as [|fuel IH]; intros s; [cbn; pose proof (string_length_pos s); lia|].
  destruct s as [|a r]; [cbn; lia|]. cbn [escape_go].
  destruct (byte_of a <? 128).
  - rewrite string_length_app. pose proof (escape_ascii_length (byte_of a)). specialize (IH r).
    cbn [string_length]. lia.
  - destruct (cut_rune (String a r)) as [[w rest]|] eqn:Er.
    + apply cut_rune_length in Er as [Hw Hl].
      pose proof (take_bytes_length w (String a r) ltac:(lia)). specialize (IH rest).
      assert (string_length (separator_escape 168) = 6) as Hsep by done.
      assert (forall z, string_length (separator_escape z) = 6) as Hsep' by done.
      destruct r as [|b [|c r]]; rewrite ?string_length_app; [lia..|].
      destruct (_ && _); rewrite ?string_length_app, ?Hsep'; [|lia].
      cbn [string_length] in Hl |- *. pose proof (string_length_pos rest). pose proof (string_length_pos r).
      lia.
    + rewrite string_length_app. specialize (IH r). cbn [string_length].
      change (string_length replacement_escape) with 6. lia.
Qed.

Lemma encode_string_length s : string_length (encode_string s) <= 6 * string_length s + 2.
Proof.
  unfold encode_string. rewrite !string_length_app. change (string_length quote) with 1.
  pose proof (escape_go_length (String.length s) s). lia.
Qed.

(** ** Well-formed strings survive a round trip *)

Lemma cut_rune_app s w r : cut_rune s = Some (w, r) -> take_bytes w s +:+ r = s.
Proof.
  unfold cut_rune. intros H. destruct s as [|a s]; [done|].
  repeat match type of H with
  | context [if ?c then _ else _] => destruct c; try done
  | context [match ?x with EmptyString => _ | String _ _ => _ end] => destruct x; try done
  end; injection H as <- <-; try reflexivity;
    repeat (destruct s as [|? s]; try reflexivity); destruct r; reflexivity.
Qed.

Lemma sanitize_valid s : ValidString s = true -> sanitize s = s.
Proof.
  unfold ValidString, sanitize. generalize (String.length s). intros fuel. revert s.
  induction fuel as [|fuel IH]; intros [|a r] H; try done.
  cbn [valid_go] in H. cbn [sanitize_go]. destruct (cut_rune (String a r)) as [[w rest]|] eqn:E; [|done].
  rewrite (IH _ H). by apply cut_rune_app.
Qed.

(** ASCII bytes are runes of their own. *)
Lemma valid_ascii s : string_forall (fun c => byte_of c <? 128) s = true -> ValidString s = true.
Proof.
  unfold ValidString. induction s as [|a s IH]; [done|]. intros H. cbn [string_forall] in H.
  apply andb_true_iff in H as [Ha Hs]. cbn [String.length valid_go cut_rune]. rewrite Ha. by apply IH.
Qed.

Lemma string_forall_weaken (P Q : ascii -> bool) s :
  (forall c, P c = true -> Q c = true) -> string_forall P s = true -> string_forall Q s = true.
Proof.
  intros HPQ. induction s as [|a s IH]; [done|]. cbn [string_forall]. intros H.
  apply andb_true_iff in H as [Ha Hs]. by rewrite (HPQ _ Ha), IH.
Qed.

Lemma lower_hex_valid s : string_forall lower_hex s = true -> ValidString s = true.
Proof.
  intros H. apply valid_ascii. revert H. apply string_forall_weaken. intros c.
  unfold lower_hex, in_range. intros H. apply Z.ltb_lt. bool_prop. destruct H; bool_prop; lia.
Qed.

Lemma string_forall_app P s t : string_forall P (s +:+ t) = string_forall P s && string_forall P t.
Proof.
  induction s as [|a s IH]; [done|]. change (String a s +:+ t) with (String a (s +:+ t)).
  cbn [string_forall]. by rewrite IH, andb_assoc.
Qed.

Lemma hex_char_lower d : 0 <= d < 16 -> lower_hex (hex_char d) = true.
Proof.
  intros H. assert (exists n, d = Z.of_nat n /\ (n < 16)%nat) as (n & -> & Hn).
  { exists (Z.to_nat d). lia. }
  do 16 (destruct n as [|n]; [vm_compute; reflexivity|]). lia.
Qed.

Lemma hex_encode_spec l :
  string_length (hex_encode l) = 2 * Z.of_nat (length l) /\ string_forall lower_hex (hex_encode l) = true.
Proof.
  induction l as [|b l [IHl IHf]]; [done|].
  change (hex_encode (b :: l)) with (hex_byte b +:+ hex_encode l).
  rewrite string_length_app, string_forall_app, IHl, IHf.
  split; [cbn [hex_byte string_length length]; lia|]. unfold hex_byte. cbn [string_forall].
  rewrite !hex_char_lower; [done|apply Z.mod_pos_bound; lia|].
  pose proof (Z.mod_pos_bound b 256 ltac:(lia)). split; [apply Z.div_pos; lia|].
  apply Z.div_lt_upper_bound; lia.
Qed.

(** ** Sizes of numbers, times and objects *)

Lemma pretty_N_go_length k : forall x s, (x < 10 ^ N.of_nat k)%N ->
  string_length (pretty_N_go x s) <= Z.of_nat k + string_length s.
Proof.
  induction k as [|k IH]; intros x s Hx.
  - change (10 ^ N.of_nat 0)%N with 1%N in Hx. assert (x = 0%N) as -> by lia.
    rewrite pretty_N_go_0. lia.
  - destruct (decide (0 < x)%N) as [Hp|Hp].
    + rewrite pretty_N_go_step by done.
      assert (x `div` 10 < 10 ^ N.of_nat k)%N as Hd.
      { apply N.Div0.div_lt_upper_bound. rewrite Nat2N.inj_succ, N.pow_succ_r' in Hx. lia. }
      specialize (IH _ (String (pretty_N_char (x `mod` 10)) s) Hd). cbn [string_length] in IH. lia.
    + assert (x = 0%N) as -> by lia. rewrite pretty_N_go_0. lia.
Qed.

Lemma FormatUint_length k n : 0 <= n < 10 ^ Z.of_nat k -> (1 <= k)%nat ->
  string_length (FormatUint n) <= Z.of_nat k.
Proof.
  intros Hn Hk. unfold FormatUint, pretty, pretty_N. destruct (decide _); [cbn [string_length]; lia|].
  pose proof (pretty_N_go_length k (Z.to_N n) "") as H. cbn [string_length] in H.
  rewrite Z.add_0_r in H. apply H. apply N2Z.inj_lt.
  rewrite N2Z.inj_pow, Z2N.id, nat_N_Z by lia. lia.
Qed.

Lemma Itoa_length z : in_int64 z -> string_length (Itoa z) <= 21.
Proof.
  unfold in_int64, int64_min, int64_max, Itoa. intros H. destruct (Z.ltb_spec z 0).
  - rewrite string_length_app. change (string_length "-") with 1.
    pose proof (FormatUint_length 20 (- z) ltac:(lia) ltac:(lia)). lia.
  - pose proof (FormatUint_length 20 z ltac:(lia) ltac:(lia)). lia.
Qed.

Lemma pad_left_length w : forall s, string_length (pad_left w s) <= Z.max (Z.of_nat w) (string_length s).
Proof.
  induction w as [|w IH]; intros s; cbn [pad_left].
  - destruct (_ <? _)%nat; lia.
  - destruct (Nat.ltb_spec (String.length s) (S w)); [|lia].
    rewrite string_length_app. change (string_length "0") with 1. specialize (IH s).
    rewrite (string_length_nat s) in *. lia.
Qed.

Lemma pad_length w n : 0 <= n < 10 ^ Z.of_nat w -> (1 <= w)%nat -> string_length (pad w n) <= Z.of_nat w.
Proof.
  intros Hn Hw. pose proof (pad_left_length w (FormatUint n)).
  pose proof (FormatUint_length w n Hn Hw). unfold pad. lia.
Qed.

Lemma trim_char_right_length c s : string_length (trim_char_right c s) <= string_length s.
Proof.
  induction s as [|a s IH]; cbn [trim_char_right string_length]; [lia|].
  pose proof (string_length_pos s).
  destruct (trim_char_right c s) eqn:E; [destruct (Ascii.eqb _ _)|]; cbn [string_length] in *; lia.
Qed.

Lemma join_length sep l : string_length (join sep l) <=
  foldr (fun s n => string_length s + string_length sep + n) 0 l.
Proof.
  induction l as [|s l IH]; [done|]. cbn [join foldr]. pose proof (string_length_pos sep).
  destruct l as [|t l]; [cbn; lia|]. rewrite !string_length_app. lia.
Qed.

Lemma fraction_length ns : 0 <= ns < Second -> string_length (fraction ns) <= 10.
Proof.
  intros H. unfold fraction. destruct (ns =? 0); [cbn; lia|].
  rewrite string_length_app. change (string_length ".") with 1.
  pose proof (trim_char_right_length "0" (pad 9 ns)).
  pose proof (pad_length 9 ns ltac:(change Second with (10 ^ 9) in H; lia) ltac:(lia)). lia.
Qed.

Lemma encode_time_length t s : encode_time t = Some s -> string_length s <= 32.
Proof.
  unfold encode_time. intros H. destruct (_ || _) eqn:Ey; [done|]. injection H as <-. bool_prop.
  pose proof (civil_valid (local_day UTC t)) as [Hm Hd].
  pose proof (pad_length 4 (Year UTC t) ltac:(lia) ltac:(lia)).
  pose proof (pad_length 2 (Month UTC t) ltac:(unfold Month; lia) ltac:(lia)).
  pose proof (pad_length 2 (Day UTC t) ltac:(unfold Day; lia) ltac:(lia)).
  assert (forall q m, 0 < q -> 0 < m -> m / q < 100 -> forall x, 0 <= x mod m / q < 10 ^ Z.of_nat 2) as Hpart.
  { intros q m Hq Hm' Hb x. pose proof (Z.mod_pos_bound x m Hm').
    split; [apply Z.div_pos; lia|]. apply Z.le_lt_trans with (m / q); [|done].
    apply Z.div_le_mono; lia. }
  pose proof (pad_length 2 (ClockHour UTC t) (Hpart 3600 86400 ltac:(lia) ltac:(lia) ltac:(done) _) ltac:(lia)).
  pose proof (pad_length 2 (ClockMinute UTC t) (Hpart 60 3600 ltac:(lia) ltac:(lia) ltac:(done) _) ltac:(lia)).
  assert (0 <= ClockSecond UTC t < 10 ^ Z.of_nat 2) as Hs.
  { unfold ClockSecond. pose proof (Z.mod_pos_bound (local_seconds UTC t) 60). lia. }
  pose proof (pad_length 2 (ClockSecond UTC t) Hs ltac:(lia)).
  pose proof (fraction_length (ClockNanosecond t) (Z.mod_pos_bound t Second ltac:(done))).
  rewrite !string_length_app. change (string_length quote) with 1.
  change (string_length "-") with 1. change (string_length ":") with 1.
  change (string_length "T") with 1. change (string_length "Z") with 1. lia.
Qed.

Lemma member_length n v : string_length (member n v) <= 6 * string_length n + 3 + string_length v.
Proof.
  unfold member. rewrite !string_length_app. pose proof (encode_string_length n).
  change (string_length ":") with 1. lia.
Qed.

Definition members_length (members : list (option string)) : Z :=
  foldr (fun m n => match m with Some s => string_length s + 1 + n | None => n end) 0 members.
Lemma encode_object_length ms : string_length (encode_object ms) <= 2 + members_length ms.
Proof.
  unfold encode_object. rewrite !string_length_app. pose proof (join_length "," (omap id ms)) as H.
  enough (foldr (fun s n => string_length s + string_length "," + n) 0 (omap id ms) = members_length ms)
    by (change (string_length "{") with 1; change (string_length "}") with 1; lia).
  clear H. change (string_length ",") with 1.
  induction ms as [|[s|] ms IH]; [done| |exact IH].
  change (string_length s + 1 + foldr (fun s n => string_length s + 1 + n) 0 (omap id ms)
          = string_length s + 1 + members_length ms). by rewrite IH.
Qed.

Lemma omit_empty_length n v : match omit_empty n v with Some s => string_length s | None => 0 end
  <= 6 * string_length n + 5 + 6 * string_length v.
Proof.
  unfold omit_empty. destruct (String.eqb v "").
  - pose proof (string_length_pos n). pose proof (string_length_pos v). lia.
  - pose proof (member_length n (encode_string v)). pose proof (encode_string_length v). lia.
Qed.

Lemma members_length_cons m ms : members_length (m :: ms) <=
  (match m with Some s => string_length s | None => 0 end) + 1 + members_length ms.
Proof. destruct m; unfold members_length; cbn [foldr]; lia. Qed.

(** Bounds every member of an object in sight. *)
Ltac pose_member n v :=
  lazymatch goal with
  | _ : string_length (member n v) <= _ |- _ => fail
  | _ => pose proof (member_length n v)
  end.
Ltac pose_members :=
  repeat match goal with
  | |- context [string_length (member ?n ?v)] => pose_member n v
  | _ : context [string_length (member ?n ?v)] |- _ => pose_member n v
  end.

Ltac pose_lists :=
  repeat match goal with
  | _ : context [members_length (?m :: ?ms)] |- _ =>
    lazymatch goal with
    | _ : members_length (m :: ms) <= _ |- _ => fail
    | _ => pose proof (members_length_cons m ms)
    end end.

(** ** Sanitized strings are well formed *)

Lemma substring_none s : String.substring 0 0 s = EmptyString.
Proof. by destruct s. Qed.

Lemma cut_rune_take s w r t : cut_rune s = Some (w, r) -> cut_rune (take_bytes w s +:+ t) = Some (w, t).
Proof.
  destruct s as [|a s]; [done|]. unfold cut_rune at 1. intros H.
  repeat match type of H with
  | context [if ?c then _ else _] => destruct c eqn:?; try done
  | context [match ?x with EmptyString => _ | String _ _ => _ end] => destruct x; try done
  end; injection H as <- <-; unfold take_bytes;
    match goal with |- context [Z.to_nat ?w] => let n := eval vm_compute in (Z.to_nat w) in
      change (Z.to_nat w) with n end;
    cbn [String.substring]; rewrite substring_none;
    repeat match goal with |- context [String ?x ?s +:+ ?u] =>
      change (String x s +:+ u) with (String x (s +:+ u)) end;
    change (EmptyString +:+ t) with t; unfold cut_rune;
    repeat match goal with H : ?b = _ |- context [if ?b then _ else _] => rewrite H; cbv iota end; done.
Qed.

Lemma take_bytes_exact s w r : cut_rune s = Some (w, r) -> string_length (take_bytes w s) = w.
Proof.
  intros H. pose proof (cut_rune_app _ _ _ H) as E. apply cut_rune_length in H as [_ Hl].
  rewrite <- E, string_length_app in Hl at 1. lia.
Qed.

Lemma valid_go_mono n : forall m s, (n <= m)%nat -> valid_go n s = true -> valid_go m s = true.
Proof.
  induction n as [|n IH]; intros m [|a s] Hm H; try done; [by destruct m| by destruct m|].
  destruct m as [|m]; [lia|]. cbn [valid_go] in *.
  destruct (cut_rune _) as [[w r]|]; [|done]. apply IH; [lia|done].
Qed.

Lemma valid_cons s w r t :
  cut_rune s = Some (w, r) -> ValidString t = true -> ValidString (take_bytes w s +:+ t) = true.
Proof.
  intros H Ht. pose proof (cut_rune_take _ _ _ t H) as Hc. pose proof (take_bytes_exact _ _ _ H) as Hl.
  apply cut_rune_length in H as [Hw _]. unfold ValidString.
  destruct (take_bytes w s +:+ t) as [|a u] eqn:E; [done|].
  cbn [String.length valid_go]. rewrite Hc. apply (valid_go_mono (String.length t)); [|done].
  assert (string_length (String a u) = w + string_length t) as El
    by (rewrite <- E, string_length_app, Hl; lia).
  rewrite !string_length_nat in El. cbn [String.length] in El. lia.
Qed.

Lemma ValidString_sanitize s : ValidString (sanitize s) = true.
Proof.
  unfold sanitize. generalize (String.length s). intros fuel. revert s.
  induction fuel as [|fuel IH]; intros [|a r]; try done. cbn [sanitize_go].
  destruct (cut_rune (String a r)) as [[w rest]|] eqn:E.
  - by apply (valid_cons _ _ _ _ E).
  - by apply (valid_cons (bytes [239;191;189]) 3 "").
Qed.

Lemma sanitize_idemp s : sanitize (sanitize s) = sanitize s.
Proof. apply sanitize_valid, ValidString_sanitize. Qed.

Lemma shorten_to_valid_length fuel : forall s, string_length (shorten_to_valid fuel s) <= string_length s.
Proof.
  induction fuel as [|fuel IH]; intros s; cbn [shorten_to_valid]; destruct (ValidString s); try lia.
  destruct s as [|a s]; [by rewrite IH|].
  pose proof (take_bytes_length (string_length (String a s) - 1) (String a s)) as H.
  specialize (IH (take_bytes (string_length (String a s) - 1) (String a s))).
  cbn [string_length] in *. pose proof (string_length_pos s). lia.
Qed.

Lemma shorten_to_valid_valid fuel : forall s, (String.length s <= fuel)%nat ->
  ValidString (shorten_to_valid fuel s) = true.
Proof.
  induction fuel as [|fuel IH]; intros s Hs; cbn [shorten_to_valid];
    destruct (ValidString s) eqn:E; try done.
  - destruct s; [done|cbn in Hs; lia].
  - apply IH. destruct s as [|a s]; [done|].
    pose proof (take_bytes_length (string_length (String a s) - 1) (String a s)) as H.
    rewrite !string_length_nat in *. cbn [String.length] in *. lia.
Qed.
