(* ===== verification/JsonDecode.v ===== *)
(** * Decoding JSON text to a tree

    What [json.Unmarshal] builds for an [any], kept as a tree: the code that
    walks decoded documents is modelled on it.  The text is checked first by
    [Json.Valid], then read by recursion on fuel, the length of the text. *)
From S2P Require Import Prelude GoStrings Json.
Open Scope Z_scope.
Open Scope go_scope.

Inductive json :=
| JNull
| JBool (b : bool)
| JNumber (text : string)
| JString (s : string)
| JArray (l : list json)
| JObject (members : list (string * json)).

(** ** Strings *)

Definition encode_rune (r : Z) : string :=
  if r <? 128 then bytes [r]
  else if r <? 2048 then bytes [192 + r / 64; 128 + r mod 64]
  else if (55296 <=? r) && (r <? 57344) then bytes [239; 191; 189]
  else if r <? 65536 then bytes [224 + r / 4096; 128 + r / 64 mod 64; 128 + r mod 64]
  else bytes [240 + r / 262144; 128 + r / 4096 mod 64; 128 + r / 64 mod 64; 128 + r mod 64].

Definition hex_digit_value (c : ascii) : Z :=
  if digit09 c then byte_of c - 48 else if in_range 97 102 c then byte_of c - 87 else byte_of c - 55.
(** The four digits after [\u]. *)
Definition hex4 (s : string) : option (Z * string) :=
  match s with
  | String a (String b (String c (String d r))) =>
      Some (4096 * hex_digit_value a + 256 * hex_digit_value b + 16 * hex_digit_value c + hex_digit_value d, r)
  | _ => None
  end.
Definition high_surrogate (r : Z) : bool := (55296 <=? r) && (r <? 56320).
Definition low_surrogate (r : Z) : bool := (56320 <=? r) && (r <? 57344).

Definition simple_escape (c : ascii) : string :=
  if is_char 98 c then bytes [8] else if is_char 102 c then bytes [12] else if is_char 110 c then bytes [10]
  else if is_char 114 c then bytes [13] else if is_char 116 c then bytes [9] else String c EmptyString.

(** The rest of a string after its opening quote, and what follows it.  A pair
    of surrogates is one rune, a lone one is U+FFFD, as is a byte that starts
    no rune. *)
Fixpoint read_string (fuel : nat) (s : string) : option (string * string) :=
  match fuel, s with
  | O, _ | _, EmptyString => None
  | S fuel, String c r =>
      let after (text : string) (rest : string) :=
        match read_string fuel rest with Some (t, rest) => Some (text +:+ t, rest) | None => None end in
      if is_char 34 c then Some (EmptyString, r)
      else if is_char 92 c then
        match r with
        | String e r =>
            if is_char 117 e then
              match hex4 r with
              | None => None
              | Some (r1, rest) =>
                  match (if high_surrogate r1 then cut_prefix (String (chr 92) "u") rest else None) with
                  | Some rest' =>
                      match hex4 rest' with
                      | Some (r2, rest2) =>
                          if low_surrogate r2 then after (encode_rune (65536 + (r1 - 55296) * 1024 + (r2 - 56320))) rest2
                          else after (encode_rune r1) rest
                      | None => after (encode_rune r1) rest
                      end
                  | None => after (encode_rune r1) rest
                  end
              end
            else after (simple_escape e) r
        | EmptyString => None
        end
      else match cut_rune s with
           | Some (width, rest) => after (take_bytes width s) rest
           | None => after (encode_rune 65533) r
           end
  end.

(** ** Values *)

Fixpoint skip_space (s : string) : string :=
  match s with String c r => if json_space c then skip_space r else s | EmptyString => s end.
Fixpoint read_number (s : string) : string * string :=
  match s with
  | String c r =>
      if digit09 c || is_char 45 c || is_char 43 c || is_char 46 c || is_char 101 c || is_char 69 c
      then let '(t, rest) := read_number r in (String c t, rest) else (EmptyString, s)
  | EmptyString => (EmptyString, s)
  end.

(** The elements of an array after its opening bracket, and the members of an
    object, each value read by [value]. *)
Fixpoint read_array (value : string -> option (json * string)) (n : nat) (s : string) : option (list json * string) :=
  match n with
  | O => None
  | S n =>
      match value s with
      | None => None
      | Some (v, rest) =>
          match skip_space rest with
          | String c r =>
              if is_char 44 c then match read_array value n r with Some (l, rest) => Some (v :: l, rest) | None => None end
              else Some ([v], r)
          | EmptyString => None
          end
      end
  end.
Definition read_member (value : string -> option (json * string)) (s : string) : option (string * json * string) :=
  match skip_space s with
  | String _ r =>
      match read_string (S (String.length r)) r with
      | None => None
      | Some (key, rest) =>
          match skip_space rest with
          | String _ r => match value r with None => None | Some (v, rest) => Some (key, v, rest) end
          | EmptyString => None
          end
      end
  | EmptyString => None
  end.
Fixpoint read_members (value : string -> option (json * string)) (n : nat) (s : string) : option (list (string * json) * string) :=
  match n with
  | O => None
  | S n =>
      match read_member value s with
      | None => None
      | Some (key, v, rest) =>
          match skip_space rest with
          | String c r =>
              if is_char 44 c then match read_members value n r with Some (l, rest) => Some ((key, v) :: l, rest) | None => None end
              else Some ([(key, v)], r)
          | EmptyString => None
          end
      end
  end.

Fixpoint read_value (fuel : nat) (s : string) : option (json * string) :=
  match fuel with
  | O => None
  | S fuel =>
      match skip_space s with
      | EmptyString => None
      | String c r =>
          if is_char 123 c then
            match skip_space r with
            | String d r' => if is_char 125 d then Some (JObject [], r')
                             else match read_members (read_value fuel) fuel r with Some (l, rest) => Some (JObject l, rest) | None => None end
            | EmptyString => None
            end
          else if is_char 91 c then
            match skip_space r with
            | String d r' => if is_char 93 d then Some (JArray [], r')
                             else match read_array (read_value fuel) fuel r with Some (l, rest) => Some (JArray l, rest) | None => None end
            | EmptyString => None
            end
          else if is_char 34 c then
            match read_string (S (String.length r)) r with Some (t, rest) => Some (JString t, rest) | None => None end
          else if is_char 116 c then match cut_prefix "rue" r with Some rest => Some (JBool true, rest) | None => None end
          else if is_char 102 c then match cut_prefix "alse" r with Some rest => Some (JBool false, rest) | None => None end
          else if is_char 110 c then match cut_prefix "ull" r with Some rest => Some (JNull, rest) | None => None end
          else match read_number (String c r) with (EmptyString, _) => None | (t, rest) => Some (JNumber t, rest) end
      end
  end.

(** [json.Unmarshal] into an [any]. *)
Definition Unmarshal (text : string) : option json :=
  if Valid text then match read_value (S (String.length text)) text with Some (v, _) => Some v | None => None end else None.

Fixpoint json_depth (v : json) : nat :=
  match v with
  | JArray l => S (list_max (json_depth <$> l))
  | JObject l => S (list_max ((fun kv => json_depth kv.2) <$> l))
  | _ => O
  end.

Definition doc (s : string) : string := String.concat (String (chr 34) EmptyString) (split "'" s).
Example decodes_nested :
  Unmarshal (doc " { 'a' : [1, -2.5e3, true], 'b\u0041\n' : { } , 'a':null } ") =
    Some (JObject [("a", JArray [JNumber "1"; JNumber "-2.5e3"; JBool true]); ("bA" +:+ bytes [10], JObject []); ("a", JNull)]).
Proof. vm_compute. reflexivity. Qed.
Example decodes_surrogates : Unmarshal (doc "'\ud83d\ude00 \ud83d!'") = Some (JString (bytes [240; 159; 152; 128; 32; 239; 191; 189; 33])).
Proof. vm_compute. reflexivity. Qed.
Example refuses_trailing_comma : Unmarshal "[1,]" = None.
Proof. vm_compute. reflexivity. Qed.

(** ** The fuel is enough

    Every reader consumes text, so that with more fuel than characters the
    result no longer depends on the fuel. *)
Definition consumes {A} (x : option (A * string)) (s : string) : Prop :=
  match x with Some (_, rest) => (String.length rest < String.length s)%nat | None => True end.

Lemma skip_space_length s : (String.length (skip_space s) <= String.length s)%nat.
Proof. induction s as [|c s IH]; cbn; [done|]. destruct (json_space c); cbn; lia. Qed.
Lemma cut_prefix_length p s r : cut_prefix p s = Some r -> (String.length r <= String.length s)%nat.
Proof.
  revert s. induction p as [|a p IH]; intros s H; cbn in H; [injection H as <-; lia|].
  destruct s as [|b s]; [done|]. destruct (Ascii.eqb a b); [|done]. apply IH in H. cbn. lia.
Qed.
Lemma hex4_length s z r : hex4 s = Some (z, r) -> (String.length r < String.length s)%nat.
Proof. do 4 (destruct s as [|? s]; [done|]). intros H. injection H as _ <-. cbn. lia. Qed.
Lemma cut_rune_shorter s w r : cut_rune s = Some (w, r) -> (String.length r < String.length s)%nat.
Proof.
  destruct s as [|a [|b [|c [|d s]]]]; cbn [cut_rune]; intros H; repeat case_match; try done; injection H as _ <-; cbn; lia.
Qed.
Lemma read_string_consumes fuel s : consumes (read_string fuel s) s.
Proof.
  revert s. induction fuel as [|fuel IH]; intros [|c r]; try done. cbn [read_string].
  assert (forall t rest, (String.length rest < String.length (String c r))%nat ->
    consumes (match read_string fuel rest with Some (t', rest) => Some (t +:+ t', rest) | None => None end) (String c r)) as Hgo.
  { intros t rest Hl. specialize (IH rest). destruct (read_string fuel rest) as [[t' rest']|]; [|done]. cbn in *. lia. }
  destruct (is_char 34 c); [cbn; lia|]. destruct (is_char 92 c).
  - destruct r as [|e r]; [done|]. destruct (is_char 117 e); [|apply Hgo; cbn; lia].
    destruct (hex4 r) as [[r1 rest]|] eqn:E1; [|done]. apply hex4_length in E1.
    destruct (if high_surrogate r1 then _ else _) as [rest'|] eqn:E2; [|apply Hgo; cbn; lia].
    assert (String.length rest' <= String.length rest)%nat by (destruct (high_surrogate r1); [by apply cut_prefix_length in E2|done]).
    destruct (hex4 rest') as [[r2 rest2]|] eqn:E3; [|apply Hgo; cbn; lia]. apply hex4_length in E3.
    destruct (low_surrogate r2); apply Hgo; cbn; lia.
  - destruct (cut_rune (String c r)) as [[w rest]|] eqn:E; [|apply Hgo; cbn; lia]. apply Hgo. by apply cut_rune_shorter in E.
Qed.
Lemma read_number_length s t r : read_number s = (t, r) -> (String.length r + String.length t = String.length s)%nat.
Proof.
  revert t r. induction s as [|c s IH]; intros t r H; cbn in H; [by injection H as <- <-|].
  destruct (_ || _); [|by injection H as <- <-]. destruct (read_number s) as [t' r']. injection H as <- <-. specialize (IH _ _ eq_refl). cbn. lia.
Qed.

Section Consuming.
Variable value1 : string -> option (json * string).

Lemma read_array_consumes n s : (forall s, consumes (value1 s) s) -> consumes (read_array value1 n s) s.
Proof.
  intros Hv. revert s. induction n as [|n IH]; intros s; [done|]. cbn [read_array]. specialize (Hv s).
  destruct (value1 s) as [[v rest]|]; [|done]. cbn in Hv. pose proof (skip_space_length rest).
  destruct (skip_space rest) as [|c r]; [done|]. cbn [String.length] in *. destruct (is_char 44 c); [|cbn; lia].
  specialize (IH r). destruct (read_array value1 n r) as [[l rest']|]; [|done]. cbn in *. lia.
Qed.
Lemma read_member_consumes s : (forall s, consumes (value1 s) s) -> consumes (read_member value1 s) s.
Proof.
  intros Hv. unfold read_member. pose proof (skip_space_length s). destruct (skip_space s) as [|c r]; [done|]. cbn [String.length] in *.
  pose proof (read_string_consumes (S (String.length r)) r) as H1. destruct (read_string _ r) as [[key rest]|]; [|done]. cbn in H1.
  pose proof (skip_space_length rest). destruct (skip_space rest) as [|d r']; [done|]. cbn [String.length] in *.
  specialize (Hv r'). destruct (value1 r') as [[v rest']|]; [|done]. cbn in *. lia.
Qed.
Lemma read_members_consumes n s : (forall s, consumes (value1 s) s) -> consumes (read_members value1 n s) s.
Proof.
  intros Hv. revert s. induction n as [|n IH]; intros s; [done|]. cbn [read_members]. pose proof (read_member_consumes s Hv) as Hm.
  destruct (read_member value1 s) as [[[key v] rest]|]; [|done]. cbn in Hm. pose proof (skip_space_length rest).
  destruct (skip_space rest) as [|c r]; [done|]. cbn [String.length] in *. destruct (is_char 44 c); [|cbn; lia].
  specialize (IH r). destruct (read_members value1 n r) as [[l rest']|]; [|done]. cbn in *. lia.
Qed.

End Consuming.

(** Readers that agree on shorter texts read the same elements and members. *)
Section Agreeing.
Variables value1 value2 : string -> option (json * string).
Variable b : nat.
Hypothesis agree : forall s, (String.length s < b)%nat -> value1 s = value2 s.
Hypothesis consuming : forall s, consumes (value1 s) s.

Lemma read_array_agree n m s : (String.length s < b)%nat -> (String.length s < n)%nat -> (String.length s < m)%nat ->
  read_array value1 n s = read_array value2 m s.
Proof.
  revert m s. induction n as [|n IH]; intros [|m] s Hb Hn Hm; try lia. cbn [read_array]. rewrite <- agree by done.
  specialize (consuming s). destruct (value1 s) as [[v rest]|]; [|done]. cbn in consuming. pose proof (skip_space_length rest).
  destruct (skip_space rest) as [|c r]; [done|]. cbn [String.length] in *. destruct (is_char 44 c); [|done].
  by rewrite (IH m) by lia.
Qed.
Lemma read_member_agree s : (String.length s < b)%nat -> read_member value1 s = read_member value2 s.
Proof.
  intros Hb. unfold read_member. pose proof (skip_space_length s). destruct (skip_space s) as [|c r]; [done|]. cbn [String.length] in *.
  pose proof (read_string_consumes (S (String.length r)) r) as H1. destruct (read_string _ r) as [[key rest]|]; [|done]. cbn in H1.
  pose proof (skip_space_length rest). destruct (skip_space rest) as [|d r']; [done|]. cbn [String.length] in *. by rewrite agree by lia.
Qed.
Lemma read_members_agree n m s : (String.length s < b)%nat -> (String.length s < n)%nat -> (String.length s < m)%nat ->
  read_members value1 n s = read_members value2 m s.
Proof.
  revert m s. induction n as [|n IH]; intros [|m] s Hb Hn Hm; try lia. cbn [read_members]. rewrite <- read_member_agree by done.
  pose proof (read_member_consumes value1 s consuming) as Hc. destruct (read_member value1 s) as [[[key v] rest]|]; [|done]. cbn in Hc.
  pose proof (skip_space_length rest). destruct (skip_space rest) as [|c r]; [done|]. cbn [String.length] in *.
  destruct (is_char 44 c); [|done]. by rewrite (IH m) by lia.
Qed.
End Agreeing.

Lemma read_value_consumes n s : consumes (read_value n s) s.
Proof.
  revert s. induction n as [|n IH]; intros s; [done|]. cbn [read_value]. pose proof (skip_space_length s).
  destruct (skip_space s) as [|c r] eqn:Es; [done|]. cbn [String.length] in *.
  assert (forall (l : string) v rest, cut_prefix l r = Some rest -> consumes (A := json) (Some (v, rest)) s) as Hlit.
  { intros l v rest E%cut_prefix_length. cbn. lia. }
  destruct (is_char 123 c).
  { pose proof (skip_space_length r). destruct (skip_space r) as [|d r']; [done|]. cbn [String.length] in *. destruct (is_char 125 d); [cbn; lia|].
    pose proof (read_members_consumes (read_value n) n r IH) as Hc. destruct (read_members _ n r) as [[l rest]|]; [|done]. cbn in *. lia. }
  destruct (is_char 91 c).
  { pose proof (skip_space_length r). destruct (skip_space r) as [|d r']; [done|]. cbn [String.length] in *. destruct (is_char 93 d); [cbn; lia|].
    pose proof (read_array_consumes (read_value n) n r IH) as Hc. destruct (read_array _ n r) as [[l rest]|]; [|done]. cbn in *. lia. }
  destruct (is_char 34 c).
  { pose proof (read_string_consumes (S (String.length r)) r) as Hc. destruct (read_string _ r) as [[t rest]|]; [|done]. cbn in *. lia. }
  destruct (is_char 116 c); [destruct (cut_prefix "rue" r) eqn:E; [by eapply Hlit|done]|].
  destruct (is_char 102 c); [destruct (cut_prefix "alse" r) eqn:E; [by eapply Hlit|done]|].
  destruct (is_char 110 c); [destruct (cut_prefix "ull" r) eqn:E; [by eapply Hlit|done]|].
  destruct (read_number (String c r)) as [[|d t] rest] eqn:E; [done|]. apply read_number_length in E. cbn in *. lia.
Qed.

Lemma read_value_stable n : forall m s, (String.length s < n)%nat -> (String.length s < m)%nat -> read_value n s = read_value m s.
Proof.
  induction n as [|n IH]; intros [|m] s Hn Hm; try lia. cbn [read_value]. pose proof (skip_space_length s).
  destruct (skip_space s) as [|c r]; [done|]. cbn [String.length] in *. pose proof (skip_space_length r).
  destruct (is_char 123 c).
  { destruct (skip_space r) as [|d r']; [done|]. destruct (is_char 125 d); [done|].
    rewrite (read_members_agree (read_value n) (read_value m) (S (String.length r)) ltac:(intros; apply IH; lia) (read_value_consumes n) n m) by lia. done. }
  destruct (is_char 91 c); [|done].
  destruct (skip_space r) as [|d r']; [done|]. destruct (is_char 93 d); [done|].
  rewrite (read_array_agree (read_value n) (read_value m) (S (String.length r)) ltac:(intros; apply IH; lia) (read_value_consumes n) n m) by lia. done.
Qed.
(** What [Unmarshal] reads does not depend on its fuel. *)
Lemma Unmarshal_fuel n text : (String.length text < n)%nat ->
  Unmarshal text = if Valid text then match read_value n text with Some (v, _) => Some v | None => None end else None.
Proof. intros H. unfold Unmarshal. by rewrite (read_value_stable (S (String.length text)) n) by lia. Qed.
