(* ===== verification/JsonStruct.v ===== *)
(** * Decoding JSON text into structs

    What the event logs use of [json.Decoder]: cutting the first value off a
    text ([readValue]) with the scanner of [Json.v], and storing an object into
    a struct with [DisallowUnknownFields].  A struct is a record and a field is
    a decoder that stores the text of a value into it; an error that Go saves
    while it goes on decoding is kept beside the record.  The texts of the
    errors are shortened: they name the kind of error and not its place. *)
From stdpp Require Import pretty.
From S2P Require Import Prelude GoTime GoStrings Json JsonDecode.
Open Scope Z_scope.
Open Scope go_scope.

Definition io_EOF : goerror := ErrNew "EOF".
Definition io_ErrUnexpectedEOF : goerror := ErrNew "unexpected EOF".
Definition json_syntax_error : goerror := ErrNew "invalid character in JSON text".
Definition json_type_error (kind type_ : string) : goerror :=
  ErrNew ("json: cannot unmarshal " +:+ kind +:+ " into Go value of type " +:+ type_).
Definition json_unknown_field (key : string) : goerror := ErrNew ("json: unknown field " +:+ Quote key).

(** ** Cutting a value off a text *)

(** Whether the text read so far is a whole value, and whether a further
    character belongs to it (as more digits do). *)
Definition complete (state : scan_state) (stack : list container) : bool :=
  match state, stack with (EndValue | InInt | InZero | InFrac | InExpDigits), [] => true | _, _ => false end.
Definition goes_on (c : ascii) (state : scan_state) (stack : list container) : bool :=
  match scan_step c state stack with Some (EndValue, _) | None => false | Some _ => true end.
Definition ended (c : ascii) (state : scan_state) (stack : list container) : bool :=
  complete state stack && negb (goes_on c state stack).

Fixpoint take_value (state : scan_state) (stack : list container) (s : string) : result (string * string) :=
  match s with
  | EmptyString => if complete state stack then Ok (EmptyString, EmptyString) else Err io_ErrUnexpectedEOF
  | String c r =>
      if ended c state stack then Ok (EmptyString, s)
      else match scan_step c state stack with
           | None => Err json_syntax_error
           | Some (state', stack') => let* (v, rest) := take_value state' stack' r in Ok (String c v, rest)
           end
  end.
(** [Decoder.readValue]. *)
Definition readValue (s : string) : result (string * string) :=
  if string_forall json_space s then Err io_EOF else take_value BeginValue [] s.

(** ** Objects *)

(** The members of an object after its brace or a comma, each with the text of
    its value.  The text has been through the scanner. *)
Fixpoint raw_members (fuel : nat) (s : string) : option (list (string * string)) :=
  match fuel with
  | O => None
  | S fuel =>
      match skip_space s with
      | EmptyString => None
      | String _ r =>
          match read_string (S (String.length r)) r with
          | None => None
          | Some (key, rest) =>
              match skip_space rest with
              | EmptyString => None
              | String _ r =>
                  match take_value BeginValue [] (skip_space r) with
                  | Ok (value, rest) =>
                      match skip_space rest with
                      | EmptyString => None
                      | String c r =>
                          if is_char 44 c then cons (key, value) <$> raw_members fuel r else Some [(key, value)]
                      end
                  | _ => None
                  end
              end
          end
      end
  end.
(** The members of a value that is an object. *)
Definition object_members (value : string) : option (list (string * string)) :=
  match skip_space value with
  | String c r =>
      if is_char 123 c then
        match skip_space r with
        | String d _ => if is_char 125 d then Some [] else raw_members (String.length value) r
        | EmptyString => None
        end
      else None
  | EmptyString => None
  end.

(** ** Structs *)

(** The name a field is found under when no field has the key itself: ASCII
    letters are folded, as are the two runes that fold to one. *)
Definition upper_ascii (c : ascii) : ascii := if in_range 97 122 c then chr (byte_of c - 32) else c.
Fixpoint fold_name (s : string) : string :=
  match s with
  | EmptyString => EmptyString
  | String c r =>
      match cut_prefix (bytes [197; 191]) s, cut_prefix (bytes [226; 132; 170]) s, r with
      | Some _, _, String _ r' => String "S" (fold_name r')
      | _, Some _, String _ (String _ r') => String "K" (fold_name r')
      | _, _, _ => String (upper_ascii c) (fold_name r)
      end
  end.

(** Stores the text of a value into a struct; the second part of the state is
    the first error saved so far. *)
Definition decoder (T : Type) : Type := string -> T * option goerror -> result (T * option goerror).
Definition save_error (err : goerror) (saved : option goerror) : option goerror :=
  match saved with Some _ => saved | None => Some err end.

(** What kind of value a text starts. *)
Inductive json_kind := KNull | KBool | KNumber | KString | KArray | KObject.
Definition kind_of (value : string) : json_kind :=
  match value with
  | EmptyString => KNull
  | String c _ =>
      if is_char 123 c then KObject else if is_char 91 c then KArray else if is_char 34 c then KString
      else if is_char 110 c then KNull else if is_char 116 c || is_char 102 c then KBool else KNumber
  end.
Definition kind_name (k : json_kind) : string :=
  match k with KNull => "null" | KBool => "bool" | KNumber => "number" | KString => "string" | KArray => "array" | KObject => "object" end.

Section Fields.
Context {T : Type}.
Definition type_error (value type_ : string) (x : T * option goerror) : result (T * option goerror) :=
  Ok (x.1, save_error (json_type_error (kind_name (kind_of value)) type_) x.2).

(** An [int] field. *)
Definition decode_int (set : Z -> T -> T) : decoder T := fun value x =>
  match kind_of value with
  | KNull => Ok x
  | KNumber => match Atoi value with Some n => Ok (set n x.1, x.2) | None => type_error value "int" x end
  | _ => type_error value "int" x
  end.
(** A [string] field. *)
Definition decode_string (set : string -> T -> T) : decoder T := fun value x =>
  match value, kind_of value with
  | _, KNull => Ok x
  | String _ r, KString =>
      match read_string (S (String.length r)) r with
      | Some (text, _) => Ok (set text x.1, x.2)
      | None => Err json_syntax_error
      end
  | _, _ => type_error value "string" x
  end.
(** A [json.RawMessage] field, which keeps the text. *)
Definition decode_raw (set : string -> T -> T) : decoder T := fun value x => Ok (set value x.1, x.2).

(** The members of an object, stored one after the other: a field is found by
    its name, or else by its folded name. *)
Definition field_named (fields : list (string * decoder T)) (key : string) : option (decoder T) :=
  match List.find (fun f => String.eqb f.1 key) fields with
  | Some f => Some f.2
  | None => snd <$> List.find (fun f => String.eqb (fold_name f.1) (fold_name key)) fields
  end.
Fixpoint decode_members (fields : list (string * decoder T)) (members : list (string * string)) (x : T * option goerror)
    : result (T * option goerror) :=
  match members with
  | [] => Ok x
  | (key, value) :: members =>
      let* x' := match field_named fields key with
                 | Some store => store value x
                 | None => Ok (x.1, save_error (json_unknown_field key) x.2)
                 end in
      decode_members fields members x'
  end.
Definition decode_struct (fields : list (string * decoder T)) (type_ : string) : decoder T := fun value x =>
  match kind_of value with
  | KNull => Ok x
  | KObject => match object_members value with
               | Some members => decode_members fields members x
               | None => Err json_syntax_error
               end
  | _ => type_error value type_ x
  end.
(** [d.unmarshal]: a value that was read, stored into the struct [zero]. *)
Definition unmarshal_struct (fields : list (string * decoder T)) (type_ : string) (zero : T) (value : string) : result T :=
  let* (x, saved) := decode_struct fields type_ (skip_space value) (zero, None) in
  match saved with Some err => Err err | None => Ok x end.
End Fields.

(** A field that is a pointer to a struct: [null] makes it nil, an object is
    stored into the struct there is, or into a new one. *)
Definition decode_pointer {T P : Type} (fields : list (string * decoder P)) (type_ : string) (zero : P)
    (get : T -> option P) (set : option P -> T -> T) : decoder T := fun value x =>
  match kind_of value with
  | KNull => Ok (set None x.1, x.2)
  | KObject =>
      let* (p, saved) := decode_struct fields type_ value (default zero (get x.1), x.2) in
      Ok (set (Some p) x.1, saved)
  | _ => type_error value type_ x
  end.

(** ** Times

    [time.Time.UnmarshalJSON], which reads the text between the quotes as
    [time.Parse(time.RFC3339, s)] does. *)

Definition isLeap (year : Z) : bool := (year mod 4 =? 0) && (negb (year mod 100 =? 0) || (year mod 400 =? 0)).
Definition daysIn (month year : Z) : Z :=
  if month =? 2 then if isLeap year then 29 else 28
  else if (month =? 4) || (month =? 6) || (month =? 9) || (month =? 11) then 30 else 31.

(** A number of two digits, or of one unless [fixed]. *)
Definition getnum (fixed : bool) (s : string) : option (Z * string) :=
  match s with
  | EmptyString => None
  | String a r =>
      d ← digit_value a;
      match r with
      | String b r' => match digit_value b with
                       | Some e => Some (10 * d + e, r')
                       | None => if fixed then None else Some (d, r)
                       end
      | EmptyString => if fixed then None else Some (d, r)
      end
  end.
Definition getyear (s : string) : option (Z * string) :=
  '(hi, s) ← getnum true s; '(lo, s) ← getnum true s; Some (100 * hi + lo, s).
Definition within (lo hi : Z) (x : Z * string) : option (Z * string) :=
  if (lo <=? x.1) && (x.1 <=? hi) then Some x else None.
Fixpoint span_digits (s : string) : string * string :=
  match s with
  | String c r => if digit09 c then let '(d, rest) := span_digits r in (String c d, rest) else (EmptyString, s)
  | EmptyString => (EmptyString, EmptyString)
  end.
(** Digits after the ninth are dropped. *)
Definition parseNanoseconds (digits : string) : Z :=
  let kept := take_bytes 9 digits in
  default 0 (parse_digits 0 kept) * 10 ^ (9 - string_length kept).
Definition parse_fraction (s : string) : Z * string :=
  match s with
  | String c r =>
      if is_char 46 c || is_char 44 c then
        match span_digits r with
        | (EmptyString, _) => (0, s)
        | (digits, rest) => (parseNanoseconds digits, rest)
        end
      else (0, s)
  | EmptyString => (0, s)
  end.
(** The seconds east of UTC. *)
Definition parse_zone (s : string) : option (Z * string) :=
  match s with
  | EmptyString => None
  | String c r =>
      if is_char 90 c then Some (0, r)
      else if negb (is_char 43 c || is_char 45 c) then None
      else '(hours, r) ← getnum true r;
           r ← cut_prefix ":" r;
           '(minutes, r) ← getnum true r;
           if (24 <? hours) || (60 <? minutes) then None
           else let offset := (hours * 60 + minutes) * 60 in Some (if is_char 45 c then - offset else offset, r)
  end.
Definition ParseRFC3339 (s : string) : option Z :=
  '(year, s) ← getyear s;
  s ← cut_prefix "-" s;
  '(month, s) ← (getnum true s ≫= within 1 12);
  s ← cut_prefix "-" s;
  '(day, s) ← getnum true s;
  s ← cut_prefix "T" s;
  '(hour, s) ← (getnum false s ≫= within 0 23);
  s ← cut_prefix ":" s;
  '(min, s) ← (getnum true s ≫= within 0 59);
  s ← cut_prefix ":" s;
  '(sec, s) ← (getnum true s ≫= within 0 59);
  let '(nsec, s) := parse_fraction s in
  '(offset, s) ← parse_zone s;
  if negb (String.eqb s "") || (day <? 1) || (daysIn month year <? day) then None
  else Some (Date year month day hour min sec nsec UTC - offset * Second).

Definition json_time_error : goerror := ErrNew "Time.UnmarshalJSON: input is not a JSON string".
Definition parsing_time_error (s : string) : goerror := ErrNew ("parsing time " +:+ Quote s).
(** The text between the quotes of a string. *)
Definition unquoted (value : string) : string :=
  match value with String _ r => take_bytes (string_length r - 1) r | EmptyString => EmptyString end.
(** A [time.Time] field. *)
Definition decode_time {T} (set : Z -> T -> T) : decoder T := fun value x =>
  match kind_of value with
  | KNull => Ok x
  | KString => match ParseRFC3339 (unquoted value) with
               | Some t => Ok (set t x.1, x.2)
               | None => Err (parsing_time_error (unquoted value))
               end
  | _ => Err json_time_error
  end.

Example reads_times : ParseRFC3339 <$> ["2024-02-29T7:05:09.25+02:30"; "2023-02-29T07:05:09Z"; "0001-01-01T00:00:00Z"; "2024-02-29T07:05Z"] =
  [Some (Date 2024 2 29 4 35 9 250000000 UTC); None; Some zero_time; None].
Proof. vm_compute. reflexivity. Qed.
#[local] Opaque max_nesting.
(** ** Runs of the scanner *)

Fixpoint runs (s : string) (x : scan_state * list container) : option (scan_state * list container) :=
  match s with
  | EmptyString => Some x
  | String c r => if ended c x.1 x.2 then None else y ← scan_step c x.1 x.2; runs r y
  end.
Lemma runs_app s t x : runs (s +:+ t) x = (y ← runs s x; runs t y).
Proof.
  revert x. induction s as [|c s IH]; intros x; [done|]. change (String c s +:+ t) with (String c (s +:+ t)). cbn.
  destruct (ended _ _ _); [done|]. destruct (scan_step _ _ _); [|done]. apply IH.
Qed.
Lemma runs_take s t st k y : runs s (st, k) = Some y ->
  take_value st k (s +:+ t) = (let* (v, rest) := take_value y.1 y.2 t in Ok (s +:+ v, rest)).
Proof.
  revert st k. induction s as [|c s IH]; intros st k H.
  - injection H as <-. cbn [fst snd]. change (EmptyString +:+ t) with t. by destruct (take_value st k t) as [[v rest]| |].
  - change (String c s +:+ t) with (String c (s +:+ t)). cbn in *. destruct (ended c st k); [done|].
    destruct (scan_step c st k) as [[st1 k1]|]; [|done]. cbn in H. rewrite (IH _ _ H).
    by destruct (take_value y.1 y.2 t) as [[v rest]| |].
Qed.

Definition printable (c : ascii) : bool := 32 <=? byte_of c.
(** A stack below the one a text is scanned on makes no difference, but for the
    bound of the depth. *)
Definition scannable (st : scan_state) (k : list container) : Prop :=
  match st with
  | BeginValueOrEnd | BeginKeyOrEnd | BeginKey => k <> []
  | InLiteral rest => string_forall (in_range 97 122) rest = true
  | _ => True
  end.
Lemma scan_step_scannable c st k st' k' : scannable st k -> scan_step c st k = Some (st', k') -> scannable st' k'.
Proof.
  unfold scan_step, begin_value, end_value, push. intros Ho H. repeat case_match; simplify_eq/=; bool_prop; try done; by apply andb_true_iff.
Qed.
Lemma scan_step_below c st k K st' k' : scannable st k -> scan_step c st k = Some (st', k') ->
  scan_step c st (k ++ K) = Some (st', k' ++ K) \/ (scan_step c st (k ++ K) = None /\ (max_nesting < length (k' ++ K))%nat).
Proof.
  assert (forall x st0 st1 k1, push x st0 k = Some (st1, k1) ->
    push x st0 (k ++ K) = Some (st1, k1 ++ K) \/ (push x st0 (k ++ K) = None /\ (max_nesting < length (k1 ++ K))%nat)) as Hpush.
  { unfold push. intros x st0 st1 k1 H. case_match; [done|]. injection H as <- <-.
    destruct (Nat.leb_spec max_nesting (length (k ++ K))); [right; split; [done|cbn [length app]; lia]|by left]. }
  assert (forall st1 k1, begin_value c k = Some (st1, k1) ->
    begin_value c (k ++ K) = Some (st1, k1 ++ K) \/ (begin_value c (k ++ K) = None /\ (max_nesting < length (k1 ++ K))%nat)) as Hbegin.
  { unfold begin_value. intros st1 k1 H. repeat (case_match; [first [by apply Hpush | simplify_eq; by left]|]). done. }
  assert (forall st1 k1, end_value c k = Some (st1, k1) -> end_value c (k ++ K) = Some (st1, k1 ++ K)) as Hend.
  { unfold end_value. intros st1 k1 H. destruct (json_space c); [by simplify_eq|]. destruct k as [|[] k]; cbn; [done|..]; repeat case_match; by simplify_eq. }
  intros Ho H. destruct st; cbn in *; try (by apply Hbegin); try (left; by apply Hend);
    try (destruct k as [|x k]; [done|]; cbn in *);
    repeat (case_match; simplify_eq/=; try (by left); try (left; by apply Hend); try by apply Hbegin).
Qed.
Lemma scan_step_printable c st k : scannable st k -> json_space c = false -> printable c = false -> scan_step c st k = None.
Proof.
  intros Ho Hs Hp. assert (byte_of c < 32) as Hc by (unfold printable in Hp; by bool_prop).
  assert (forall z, 32 <= z -> is_char z c = false) as Hz by (intros z Hz; unfold is_char; apply Z.eqb_neq; lia).
  assert (forall lo hi, 32 <= lo -> in_range lo hi c = false) as Hr.
  { intros lo hi Hl. unfold in_range. destruct (Z.leb_spec lo (byte_of c)); [lia|done]. }
  assert (begin_value c k = None) as Hb.
  { unfold begin_value, digit19. rewrite Hs, !Hz, Hr by lia. done. }
  assert (end_value c k = None) as He.
  { unfold end_value. rewrite Hs. destruct k as [|[] k]; rewrite ?Hz by lia; done. }
  destruct st; cbn; unfold hex_digit, digit09, digit19; rewrite ?Hs, ?Hb, ?He, ?Hz, ?Hr by lia; try done.
  - by rewrite (proj2 (Z.ltb_lt _ _) Hc).
  - destruct rest as [|d rest]; [done|]. cbn in Ho. apply andb_true_iff in Ho as [Hd _].
    destruct (Ascii.eqb_spec c d) as [<-|]; [unfold in_range in Hd; bool_prop; lia|]. by destruct rest.
Qed.

(** ** Valid texts *)

Fixpoint steps (s : string) (x : scan_state * list container) : option (scan_state * list container) :=
  match s with
  | EmptyString => Some x
  | String c r => y ← scan_step c x.1 x.2; steps r y
  end.
(** How deep brackets and braces are nested in a text. *)
Fixpoint deepest (s : string) (st : scan_state) (k : list container) : nat :=
  match s with
  | EmptyString => length k
  | String c r => Nat.max (length k) (match scan_step c st k with Some (st', k') => deepest r st' k' | None => O end)
  end.
Definition nesting (s : string) : nat := deepest s BeginValue [].
(** A value is finished: what follows it need not be looked at. *)
Definition ready (st : scan_state) : Prop :=
  match st with EndValue | InInt | InZero | InFrac | InExpDigits => True | _ => False end.
Lemma complete_ready st k : complete st k = true <-> ready st /\ k = [].
Proof. destruct st, k; cbn; intuition (done || congruence). Qed.

Lemma scan_steps s st k : scan s st k = true -> exists st', steps s (st, k) = Some (st', []) /\ ready st'.
Proof.
  revert st k. induction s as [|c s IH]; intros st k H; cbn in *.
  - exists st. destruct st, k; try done; cbn; eauto.
  - destruct (scan_step c st k) as [[st' k']|]; [|done]. by apply IH.
Qed.
Lemma runs_steps s x y : runs s x = Some y -> steps s x = Some y.
Proof.
  revert x. induction s as [|c s IH]; intros x H; [done|]. cbn in *. destruct (ended _ _ _); [done|].
  destruct (scan_step _ _ _); [|done]. by apply IH.
Qed.
Lemma ended_nested c st k : k <> [] -> ended c st k = false.
Proof. intros H. unfold ended. by destruct k, st. Qed.
Lemma steps_below s K : K <> [] -> forall st k st' k', steps s (st, k) = Some (st', k') -> scannable st k ->
  (deepest s st k + length K <= max_nesting)%nat -> runs s (st, k ++ K) = Some (st', k' ++ K).
Proof.
  intros HK. induction s as [|c s IH]; intros st k st' k' H Ho Hd; cbn in *; [by simplify_eq|].
  rewrite ended_nested by (by destruct k). destruct (scan_step c st k) as [[st1 k1]|] eqn:E; [|done].
  pose proof (scan_step_scannable _ _ _ _ _ Ho E) as Ho1. cbn in H.
  destruct (scan_step_below _ _ _ K _ _ Ho E) as [E'|[_ Hl]]; [rewrite E'; cbn; apply IH; [done|done|lia]|].
  exfalso. rewrite length_app in Hl. assert (length k1 <= deepest s st1 k1)%nat by (destruct s; cbn; lia). lia.
Qed.
(** On a stack that is not empty no value ends with the text. *)
Lemma take_value_nested s K : K <> [] -> forall st k y, steps s (st, k) = Some y -> scannable st k ->
  exists err, take_value st (k ++ K) s = Err err.
Proof.
  intros HK. induction s as [|c s IH]; intros st k y H Ho; cbn in *.
  - assert (k ++ K <> []) as Hne by (by destruct k). destruct (complete st (k ++ K)) eqn:E; [|eauto].
    apply complete_ready in E as [_ E]. congruence.
  - rewrite ended_nested by (by destruct k). destruct (scan_step c st k) as [[st1 k1]|] eqn:E; [|done].
    destruct (scan_step_below _ _ _ K _ _ Ho E) as [->|[-> _]]; [|eauto].
    destruct (IH st1 k1 y H (scan_step_scannable _ _ _ _ _ Ho E)) as [err ->]. eauto.
Qed.

(** ** Compacted texts *)

(** No white space outside strings. *)
Fixpoint tidy (in_string escaped : bool) (s : string) : bool :=
  match s with
  | EmptyString => true
  | String a r =>
      let b := byte_of a in
      (in_string || negb (json_space a)) &&
      tidy (if in_string then escaped || negb (b =? 34) else b =? 34) (in_string && negb escaped && (b =? 92)) r
  end.
Lemma tidy_escape i e b t : html_char b = true -> tidy i e (unicode_escape b +:+ t) = tidy i false t.
Proof.
  intros H. assert (b = 60 \/ b = 62 \/ b = 38) as [->|[->| ->]] by (unfold html_char in H; rewrite !orb_true_iff, !Z.eqb_eq in H; lia);
    by destruct i, e.
Qed.
Lemma tidy_separator i e b t : (b =? 168) || (b =? 169) = true -> tidy i e (separator_escape b +:+ t) = tidy i false t.
Proof.
  intros H. assert (b = 168 \/ b = 169) as [->| ->] by (rewrite orb_true_iff, !Z.eqb_eq in H; lia); by destruct i, e.
Qed.
Lemma tidy_outside e t : tidy false e t = tidy false false t.
Proof. by destruct t. Qed.
Lemma tidy_compact n : forall i e s, (String.length s <= n)%nat -> tidy i e (compact_go i e s) = true.
Proof.
  induction n as [|n IH]; intros i e [|a r] Hn; try done; [cbn in Hn; lia|]. cbn [compact_go]. cbn [String.length] in Hn.
  destruct (html_char (byte_of a)) eqn:Eh.
  { rewrite tidy_escape by done. assert ((byte_of a =? 34) = false /\ (byte_of a =? 92) = false) as [-> ->].
    { unfold html_char in Eh. rewrite !orb_true_iff, !Z.eqb_eq in Eh. rewrite !Z.eqb_neq. lia. }
    rewrite andb_false_r, orb_true_r. destruct i; apply IH; lia. }
  destruct (negb i && json_space a) eqn:Es.
  { destruct i; [done|]. change (json_space a = true) in Es. unfold json_space in Es. cbv zeta in Es. rewrite !orb_true_iff, !Z.eqb_eq in Es.
    rewrite (proj2 (Z.eqb_neq (byte_of a) 34)) by lia. cbn. rewrite tidy_outside. apply IH. lia. }
  assert (forall t, tidy (if i then e || negb (byte_of a =? 34) else byte_of a =? 34) (i && negb e && (byte_of a =? 92)) t = true ->
    tidy i e (String a t) = true) as Hcopy.
  { intros t Ht. cbn. rewrite Ht, andb_true_r. by destruct i, (json_space a). }
  destruct r as [|c [|d r']]; [apply Hcopy; apply IH; cbn in *; lia..|].
  destruct (_ && (_ || _)) eqn:Ex; [|apply Hcopy; apply IH; lia].
  rewrite !andb_true_iff, Z.eqb_eq in Ex. destruct Ex as [[-> _] Ex]. rewrite tidy_separator by done. cbn. rewrite orb_true_r.
  destruct i; apply IH; cbn in *; lia.
Qed.

Definition in_string (st : scan_state) : bool := match st with InString | InStringEsc | InStringEscU _ => true | _ => false end.
Definition in_escape (st : scan_state) : bool := match st with InStringEsc => true | _ => false end.
Lemma scan_step_strings c st k st' k' : scannable st k -> scan_step c st k = Some (st', k') ->
  in_string st' = (if in_string st then in_escape st || negb (byte_of c =? 34) else byte_of c =? 34) /\
  in_escape st' = (in_string st && negb (in_escape st) && (byte_of c =? 92)).
Proof.
  unfold scan_step, begin_value, end_value, push, digit09, digit19, hex_digit, digit09, in_range, is_char, json_space. intros Ho H.
  repeat (case_match; simplify_eq/=); bool_prop; split; rewrite ?orb_true_r; try done; try (symmetry; apply Z.eqb_neq; lia); try by apply Z.eqb_eq.
  all: try (symmetry; apply negb_true_iff, Z.eqb_neq; repeat match goal with H : _ \/ _ |- _ => destruct H end; bool_prop; lia).
  all: match goal with H : Ascii.eqb _ _ = true |- _ => apply Ascii.eqb_eq in H as -> end; cbn in *; unfold in_range in *; bool_prop; symmetry; apply Z.eqb_neq; lia.
Qed.
Lemma steps_tidy s : forall st k y, scannable st k -> steps s (st, k) = Some y -> tidy (in_string st) (in_escape st) s = true ->
  runs s (st, k) = Some y /\ string_forall printable s = true.
Proof.
  induction s as [|c s IH]; intros st k y Ho H Ht; [done|]. cbn in *. destruct (scan_step c st k) as [[st1 k1]|] eqn:E; [|done].
  apply andb_true_iff in Ht as [Hs Ht]. destruct (scan_step_strings _ _ _ _ _ Ho E) as [E1 E2]. rewrite <- E1, <- E2 in Ht.
  destruct (IH st1 k1 y (scan_step_scannable _ _ _ _ _ Ho E) H Ht) as [Hr Hp]. cbn. rewrite Hp, andb_true_r.
  split.
  - cut (ended c st k = false); [intros ->; exact Hr|]. unfold ended, goes_on. rewrite E. destruct (complete st k) eqn:Ec; [|done]. destruct st1; try done. exfalso.
    apply complete_ready in Ec as [Hst ->].
    assert (json_space c = true) as Hsp; [|by destruct st; rewrite Hsp in Hs].
    destruct (json_space c) eqn:Hsp; [done|]. revert E. unfold scan_step, end_value. rewrite Hsp. by destruct st; repeat case_match.
  - destruct (printable c) eqn:Ep; [done|]. destruct (json_space c) eqn:Hsp; [|by rewrite (scan_step_printable c st k Ho Hsp Ep) in E].
    destruct (in_string st) eqn:Ei; [|done].
    assert (byte_of c < 32) as Hc by (unfold printable in Ep; by bool_prop).
    exfalso. destruct st; try done; cbn in E; unfold is_char, hex_digit, digit09, in_range in E.
    + rewrite !(proj2 (Z.eqb_neq (byte_of c) _)) in E by lia. by rewrite (proj2 (Z.ltb_lt _ _) Hc) in E.
    + rewrite !(proj2 (Z.eqb_neq (byte_of c) _)) in E by lia. done.
    + rewrite !(proj2 (Z.leb_gt _ (byte_of c))) in E by lia. done.
Qed.

(** ** Texts that stand for a value

    Wherever a value may begin, on a stack that leaves room for the nesting of
    the text, the scanner reads the whole text as one value. *)
Definition passes (d : nat) (v : string) : Prop :=
  (forall K, (length K + d <= max_nesting)%nat -> exists st, ready st /\ runs v (BeginValue, K) = Some (st, K)) /\
  string_forall printable v = true /\ skip_space v = v.
Lemma passes_mono d d' v : (d <= d')%nat -> passes d v -> passes d' v.
Proof. intros Hd [H Hp]. split; [|exact Hp]. intros K HK. apply H. lia. Qed.

(** A valid text that compaction leaves alone. *)
Lemma compacted_passes p d : Valid p = true -> compact p = p -> (nesting p <= d)%nat -> (d <= max_nesting)%nat -> passes d p.
Proof.
  intros (st & Hs & Hst)%scan_steps Hc Hd Hm.
  assert (tidy false false p = true) as Ht by (rewrite <- Hc; by eapply tidy_compact).
  destruct (steps_tidy p BeginValue [] (st, []) I Hs Ht) as [Hr Hp].
  split; [|split; [done|destruct p as [|c p]; [done|]; cbn in Ht |- *; by destruct (json_space c)]].
  intros K HK. exists st. split; [done|]. destruct K as [|x K]; [done|].
  apply (steps_below p (x :: K) ltac:(done) BeginValue [] st [] Hs I). unfold nesting in Hd. lia.
Qed.

(** ** Encoded strings *)

Lemma string_forall_bytes lo s w r : cut_rune s = Some (w, r) ->
  match s with String a _ => lo <=? byte_of a | EmptyString => true end = true -> lo <= 128 ->
  string_forall (fun c => lo <=? byte_of c) (take_bytes w s) = true.
Proof.
  unfold cut_rune. intros H Ha Hlo. destruct s as [|a s]; [done|].
  repeat match type of H with
  | context [if ?c then _ else _] => destruct c eqn:?; try done
  | context [match ?x with EmptyString => _ | String _ _ => _ end] => destruct x; try done
  end; injection H as <- <-; unfold take_bytes;
    match goal with |- context [Z.to_nat ?w] => let n := eval vm_compute in (Z.to_nat w) in change (Z.to_nat w) with n end;
    cbn [String.substring]; rewrite ?substring_none; cbn [string_forall]; unfold in_range in *; bool_prop;
    rewrite ?andb_true_iff, ?Z.leb_le; repeat match goal with H : context [if ?b then _ else _] |- _ => destruct b end; repeat split; lia.
Qed.

Lemma runs_in_string s K : string_forall (fun c => 128 <=? byte_of c) s = true -> runs s (InString, K) = Some (InString, K).
Proof.
  induction s as [|c s IH]; [done|]. intros H. cbn [string_forall] in H. apply andb_true_iff in H as [Hc Hs]. bool_prop.
  change (runs (String c s) (InString, K)) with (y ← scan_step c InString K; runs s y). cbn. unfold is_char.
  rewrite (proj2 (Z.eqb_neq (byte_of c) 34)), (proj2 (Z.eqb_neq (byte_of c) 92)), (proj2 (Z.ltb_ge (byte_of c) 32)) by lia. by apply IH.
Qed.
Lemma string_forall_printable s : string_forall (fun c => 128 <=? byte_of c) s = true -> string_forall printable s = true.
Proof. apply string_forall_weaken. intros c H. unfold printable. bool_prop. apply Z.leb_le. lia. Qed.

(** What one encoded character is to the scanner and to the reader. *)
Definition in_strings (t : string) : Prop :=
  (forall K, runs t (InString, K) = Some (InString, K)) /\ string_forall printable t = true.
Lemma ascii_of_byte a : byte_of a < 128 -> exists n, (n < 128)%nat /\ a = chr (Z.of_nat n) /\ byte_of a = Z.of_nat n.
Proof.
  intros H. exists (N.to_nat (N_of_ascii a)). unfold byte_of, chr in *. split; [lia|]. split; [|lia].
  rewrite N_nat_Z, N2Z.id. by rewrite ascii_N_embedding.
Qed.
Lemma take_one a r : take_bytes 1 (String a r) = String a EmptyString.
Proof. unfold take_bytes. change (Z.to_nat 1) with 1%nat. cbn [String.substring]. by rewrite substring_none. Qed.
Lemma read_string_plain m c rest : is_char 34 c = false -> is_char 92 c = false -> (byte_of c <? 128) = true ->
  read_string (S m) (String c rest) = match read_string m rest with Some (y, rest) => Some (String c y, rest) | None => None end.
Proof.
  intros H1 H2 H3. cbn [read_string cut_rune]. rewrite H1, H2, H3. by rewrite take_one.
Qed.
Lemma escape_ascii_spec n : (n < 128)%nat -> in_strings (escape_ascii (Z.of_nat n)) /\
  forall m rest, read_string (S m) (escape_ascii (Z.of_nat n) +:+ rest) =
    match read_string m rest with Some (y, rest) => Some (String (chr (Z.of_nat n)) y, rest) | None => None end.
Proof.
  intros Hn. do 128 (destruct n as [|n]; [split; [split; [intros K; reflexivity|reflexivity]|intros m rest; first [reflexivity|match goal with |- context [escape_ascii ?z] => exact (read_string_plain m (chr z) rest eq_refl eq_refl eq_refl) end]]|]). lia.
Qed.

Lemma take_bytes_take s w r t : cut_rune s = Some (w, r) -> take_bytes w (take_bytes w s +:+ t) = take_bytes w s.
Proof.
  intros H. pose proof (cut_rune_take _ _ _ t H) as H1. pose proof (cut_rune_app _ _ _ H1) as E.
  pose proof (take_bytes_exact _ _ _ H) as L1. pose proof (take_bytes_exact _ _ _ H1) as L2.
  assert (forall a b c : string, a +:+ c = b +:+ c -> a = b) as Hinj; [|by apply (Hinj _ _ t)].
  clear. intros a. induction a as [|x a IH]; intros [|y b] c E; [done|exfalso|exfalso|].
  - apply (f_equal string_length) in E. rewrite !string_length_app in E. cbn [string_length] in E. pose proof (string_length_pos b). lia.
  - apply (f_equal string_length) in E. rewrite !string_length_app in E. cbn [string_length] in E. pose proof (string_length_pos a). lia.
  - injection E as -> E. f_equal. by apply (IH b c).
Qed.

Lemma escape_go_in_strings n : forall s, in_strings (escape_go n s).
Proof.
  assert (forall t u, in_strings t -> in_strings u -> in_strings (t +:+ u)) as Happ.
  { intros t u [H1 P1] [H2 P2]. split; [|by rewrite string_forall_app, P1, P2]. intros K. rewrite runs_app, H1. apply H2. }
  induction n as [|n IH]; intros [|a r]; try (by split). cbn [escape_go].
  destruct (Z.ltb_spec (byte_of a) 128) as [Ha|Ha].
  { destruct (ascii_of_byte a Ha) as (k & Hk & _ & ->). apply Happ; [by apply escape_ascii_spec|apply IH]. }
  destruct (cut_rune (String a r)) as [[w rest]|] eqn:E; [|apply Happ; [by split|apply IH]].
  assert (in_strings (take_bytes w (String a r) +:+ escape_go n rest)) as Hw.
  { apply Happ; [|apply IH]. pose proof (string_forall_bytes 128 _ _ _ E ltac:(by apply Z.leb_le) ltac:(lia)) as Hb.
    split; [intros K; by apply runs_in_string|by apply string_forall_printable]. }
  destruct r as [|b [|c r]]; [exact Hw..|]. destruct (_ && (_ || _)) eqn:Ex; [|exact Hw].
  apply Happ; [|apply IH]. rewrite !andb_true_iff, orb_true_iff, !Z.eqb_eq in Ex. destruct Ex as [_ [->| ->]]; by split.
Qed.
Lemma passes_string s : passes 0 (encode_string s).
Proof.
  unfold encode_string. destruct (escape_go_in_strings (String.length s) s) as [H Hp]. split.
  - intros K _. exists EndValue. split; [done|]. rewrite runs_app. change (runs quote (BeginValue, K)) with (Some (InString, K)). cbn [mbind option_bind]. by rewrite runs_app, H.
  - split; [|done]. by rewrite !string_forall_app, Hp.
Qed.

Lemma escape_go_longer n : forall s, (String.length s <= n)%nat -> string_length s <= string_length (escape_go n s).
Proof.
  induction n as [|n IH]; intros [|a r] Hn; try done; [cbn in Hn; lia|]. cbn [escape_go]. cbn [String.length] in Hn.
  assert (forall b, 1 <= string_length (escape_ascii b)) as Hb.
  { intros b. unfold escape_ascii. repeat case_match; done. }
  destruct (_ <? _); [rewrite string_length_app; cbn [string_length]; specialize (IH r ltac:(lia)); specialize (Hb (byte_of a)); lia|].
  destruct (cut_rune (String a r)) as [[w rest]|] eqn:E.
  2:{ rewrite string_length_app. cbn [string_length]. change (string_length replacement_escape) with 6. specialize (IH r ltac:(lia)). lia. }
  pose proof (take_bytes_exact _ _ _ E) as L. apply cut_rune_length in E as [Hw El].
  assert (String.length rest <= n)%nat as Hrest by (rewrite !string_length_nat in El; cbn [String.length] in El; lia). specialize (IH rest Hrest).
  rewrite El. assert (forall z, string_length (separator_escape z) = 6) as Hsep by done.
  destruct r as [|b [|c r]]; rewrite ?string_length_app, ?L; [lia..|]. destruct (_ && _); rewrite string_length_app, ?L, ?Hsep; lia.
Qed.

Lemma read_string_escaped n : forall s m rest, (n <= m)%nat ->
  read_string (S m) (escape_go n s +:+ quote +:+ rest) = Some (sanitize_go n s, rest).
Proof.
  induction n as [|n IH]; intros [|a r] m rest Hm; try reflexivity. destruct m as [|m]; [lia|].
  cbn [escape_go sanitize_go]. specialize (fun s => IH s m rest ltac:(lia)).
  destruct (Z.ltb_spec (byte_of a) 128) as [Ha|Ha].
  { cbn [cut_rune]. rewrite (proj2 (Z.ltb_lt _ _) Ha). destruct (ascii_of_byte a Ha) as (k & Hk & Ea & ->).
    rewrite <- string_app_assoc, (proj2 (escape_ascii_spec k Hk)), IH, <- Ea, take_one. reflexivity. }
  destruct (cut_rune (String a r)) as [[w rest']|] eqn:E.
  2:{ rewrite <- string_app_assoc. remember (S m) as m' eqn:Em. change (read_string (S m') (replacement_escape +:+ (escape_go n r +:+ quote +:+ rest)) = Some (bytes [239; 191; 189] +:+ sanitize_go n r, rest)).
      transitivity (match read_string m' (escape_go n r +:+ quote +:+ rest) with Some (t, rest) => Some (bytes [239; 191; 189] +:+ t, rest) | None => None end); [reflexivity|].
      subst m'. by rewrite IH. }
  assert (read_string (S (S m)) ((take_bytes w (String a r) +:+ escape_go n rest') +:+ quote +:+ rest) = Some (take_bytes w (String a r) +:+ sanitize_go n rest', rest)) as Hw.
  { rewrite <- string_app_assoc. pose proof (cut_rune_take _ _ _ (escape_go n rest' +:+ quote +:+ rest) E) as E1.
    pose proof (take_bytes_take _ _ _ (escape_go n rest' +:+ quote +:+ rest) E) as E2.
    remember (take_bytes w (String a r) +:+ escape_go n rest' +:+ quote +:+ rest) as text eqn:Et.
    destruct text as [|a' text]; [done|].
    assert (a' = a) as ->.
    { apply cut_rune_length in E as [Hl _]. unfold take_bytes in Et. destruct (Z.to_nat w) eqn:Ew; [lia|]. cbn in Et. by injection Et. }
    remember (S m) as m' eqn:Em. cbn [read_string]. subst m'. unfold is_char. rewrite (proj2 (Z.eqb_neq (byte_of a) 34)), (proj2 (Z.eqb_neq (byte_of a) 92)), E1, E2, IH by lia. done. }
  destruct r as [|b [|c r]]; [exact Hw..|]. destruct (_ && (_ || _)) eqn:Ex; [|exact Hw]. clear Hw.
  rewrite !andb_true_iff, orb_true_iff, !Z.eqb_eq in Ex. destruct Ex as [[Ea Eb] Ec].
  assert (w = 3 /\ rest' = r) as [-> ->].
  { unfold cut_rune in E. rewrite Ea in E. unfold in_range in E. rewrite Ea in E. cbn in E. case_match; [|done]. by injection E as <- <-. }
  rewrite <- string_app_assoc. remember (S m) as m' eqn:Em.
  transitivity (match read_string m' (escape_go n r +:+ quote +:+ rest) with Some (t, rest) => Some (take_bytes 3 (String a (String b (String c r))) +:+ t, rest) | None => None end);
    [|subst m'; by rewrite IH].
  assert (take_bytes 3 (String a (String b (String c r))) = bytes [226; 128; byte_of c]) as ->.
  { unfold take_bytes. change (Z.to_nat 3) with 3%nat. cbn [String.substring]. rewrite substring_none. unfold bytes, chr.
    rewrite <- Ea, <- Eb. unfold byte_of. by rewrite !N2Z.id, !ascii_N_embedding. }
  by destruct Ec as [-> | ->].
Qed.
(** ** Numbers *)

Lemma pretty_N_char_digit d : (d < 10)%N -> pretty_N_char d = chr (48 + Z.of_N d) .
Proof.
  intros H. assert (d = 0 \/ d = 1 \/ d = 2 \/ d = 3 \/ d = 4 \/ d = 5 \/ d = 6 \/ d = 7 \/ d = 8 \/ d = 9)%N as Hc by lia.
  by repeat destruct Hc as [->|Hc]; [..|subst].
Qed.
Lemma byte_of_chr z : 0 <= z < 256 -> byte_of (chr z) = z.
Proof. intros H. unfold byte_of, chr. rewrite N_ascii_embedding by lia. lia. Qed.
Lemma digit_chr d : 0 <= d < 10 -> digit09 (chr (48 + d)) = true /\ digit_value (chr (48 + d)) = Some d.
Proof.
  intros H. unfold digit09, in_range, digit_value. rewrite byte_of_chr by lia.
  rewrite (proj2 (Z.leb_le 48 _)), (proj2 (Z.leb_le _ 57)) by lia. split; [done|]. cbn. f_equal. lia.
Qed.
Lemma pretty_N_go_digits x : (0 < x)%N -> forall s, string_forall digit09 s = true ->
  exists c t, pretty_N_go x s = String c t /\ digit19 c = true /\ string_forall digit09 t = true.
Proof.
  induction (N.lt_wf_0 x) as [x _ IH]. intros Hx s Hs. rewrite pretty_N_go_step by done.
  pose proof (N.mod_lt x 10 ltac:(lia)) as Hm. rewrite pretty_N_char_digit by done.
  destruct (digit_chr (Z.of_N (x `mod` 10))) as [Hd _]; [lia|].
  destruct (decide (0 < x `div` 10)%N) as [Hq|Hq].
  - apply IH; [apply N.div_lt; lia|done|]. cbn. by rewrite Hd.
  - assert (x `div` 10 = 0)%N as -> by lia. rewrite pretty_N_go_0. eexists _, _. split; [reflexivity|]. split; [|done].
    pose proof (N.div_mod x 10 ltac:(lia)). unfold digit19, in_range. rewrite byte_of_chr by lia. apply andb_true_iff. rewrite !Z.leb_le. lia.
Qed.
Lemma FormatUint_positive n : 0 < n -> exists c t, FormatUint n = String c t /\ digit19 c = true /\ string_forall digit09 t = true.
Proof.
  intros H. unfold FormatUint, pretty, pretty_N. rewrite decide_False by lia. apply pretty_N_go_digits; [lia|done].
Qed.
Lemma digit19_09 c : digit19 c = true -> digit09 c = true.
Proof. unfold digit19, digit09, in_range. intros H. bool_prop. apply andb_true_iff. rewrite !Z.leb_le. lia. Qed.
Lemma FormatUint_digits n : 0 <= n -> string_forall digit09 (FormatUint n) = true.
Proof.
  intros H. destruct (decide (n = 0)) as [->|]; [done|]. destruct (FormatUint_positive n) as (c & t & -> & Hc & Ht); [lia|].
  cbn. by rewrite (digit19_09 _ Hc).
Qed.
Lemma runs_digits s K : string_forall digit09 s = true -> runs s (InInt, K) = Some (InInt, K).
Proof.
  induction s as [|c s IH]; intros H; [done|]. cbn [string_forall] in H. apply andb_true_iff in H as [Hc Hs]. cbn [runs fst snd].
  unfold ended, goes_on. cbn [scan_step]. rewrite Hc, andb_false_r. by apply IH.
Qed.
Lemma digits_printable s : string_forall digit09 s = true -> string_forall printable s = true.
Proof. apply string_forall_weaken. unfold digit09, in_range, printable. intros c H. bool_prop. apply Z.leb_le. lia. Qed.
Lemma passes_Itoa n : passes 0 (Itoa n).
Proof.
  assert (forall m K st, 0 < m -> st = BeginValue \/ st = InNeg -> runs (FormatUint m) (st, K) = Some (InInt, K)) as Hpos.
  { intros m K st Hm Hst. destruct (FormatUint_positive m Hm) as (c & t & -> & Hc & Ht). cbn [runs fst snd].
    assert (ended c st K = false) as -> by (by destruct Hst as [-> | ->]).
    assert (scan_step c st K = Some (InInt, K)) as ->; [|by apply runs_digits].
    assert (forall z, z < 49 \/ 57 < z -> is_char z c = false) as Hz.
    { unfold digit19, in_range in Hc. bool_prop. intros z Hz. apply Z.eqb_neq. lia. }
    destruct Hst as [-> | ->]; cbn; [unfold begin_value, json_space; fold (is_char 32 c) (is_char 9 c) (is_char 13 c) (is_char 10 c)|];
      rewrite ?Hz by lia; by rewrite Hc. }
  split.
  - intros K _. unfold Itoa. destruct (Z.ltb_spec n 0).
    + exists InInt. split; [done|]. change ("-" +:+ FormatUint (- n)) with (String "-"%char (FormatUint (- n))). cbn. apply Hpos; [lia|by right].
    + destruct (decide (n = 0)) as [->|]; [by exists InZero|]. exists InInt. split; [done|]. apply Hpos; [lia|by left].
  - split; [unfold Itoa; destruct (Z.ltb_spec n 0); [rewrite string_forall_app; apply andb_true_iff; split; [done|]|]; apply digits_printable, FormatUint_digits; lia|].
    unfold Itoa. destruct (Z.ltb_spec n 0); [done|]. destruct (decide (n = 0)) as [->|]; [done|].
    destruct (FormatUint_positive n) as (c & t & -> & Hc & _); [lia|]. cbn. unfold json_space. unfold digit19, in_range in Hc. bool_prop.
    by rewrite !(proj2 (Z.eqb_neq (byte_of c) _)) by lia.
Qed.
(** ** Encoded times *)

Definition plain (c : ascii) : bool := printable c && negb (is_char 34 c) && negb (is_char 92 c).
Lemma runs_plain s K : string_forall plain s = true -> runs s (InString, K) = Some (InString, K).
Proof.
  induction s as [|c s IH]; [done|]. intros H. cbn [string_forall] in H. apply andb_true_iff in H as [Hc Hs]. unfold plain, printable in Hc. bool_prop.
  change (runs (String c s) (InString, K)) with (y ← scan_step c InString K; runs s y). cbn.
  repeat match goal with H : is_char _ _ = false |- _ => rewrite H end. rewrite (proj2 (Z.ltb_ge (byte_of c) 32)) by lia. by apply IH.
Qed.
Lemma passes_plain s : string_forall plain s = true -> passes 0 (quote +:+ s +:+ quote).
Proof.
  intros H. split.
  - intros K _. exists EndValue. split; [done|]. rewrite runs_app. change (runs quote (BeginValue, K)) with (Some (InString, K)). cbn [mbind option_bind].
    by rewrite runs_app, runs_plain.
  - split; [|done]. rewrite !string_forall_app. rewrite (string_forall_weaken plain printable s); [done| |done]. intros c Hc. unfold plain in Hc. by bool_prop.
Qed.
Lemma digits_plain s : string_forall digit09 s = true -> string_forall plain s = true.
Proof.
  apply string_forall_weaken. unfold digit09, in_range, plain, printable, is_char. intros c H. bool_prop.
  rewrite (proj2 (Z.leb_le 32 _)), (proj2 (Z.eqb_neq _ 34)), (proj2 (Z.eqb_neq _ 92)) by lia. done.
Qed.
Lemma pad_left_digits w : forall s, string_forall digit09 s = true -> string_forall digit09 (pad_left w s) = true.
Proof.
  induction w as [|w IH]; intros s H; cbn [pad_left]; destruct (_ <? _)%nat; try done.
  rewrite string_forall_app. by rewrite IH.
Qed.
Lemma pad_digits w n : 0 <= n -> string_forall digit09 (pad w n) = true.
Proof. intros H. by apply pad_left_digits, FormatUint_digits. Qed.
Lemma trim_char_right_forall P c s : string_forall P s = true -> string_forall P (trim_char_right c s) = true.
Proof.
  induction s as [|d s IH]; [done|]. cbn. intros H. apply andb_true_iff in H as [Hd Hs]. specialize (IH Hs).
  destruct (trim_char_right c s); [destruct (Ascii.eqb c d); cbn; [done|by rewrite Hd]|]. cbn [string_forall] in *. by rewrite Hd.
Qed.
Lemma fraction_plain ns : 0 <= ns -> string_forall plain (fraction ns) = true.
Proof.
  intros H. unfold fraction. destruct (_ =? _); [done|]. rewrite string_forall_app.
  by rewrite (digits_plain (trim_char_right _ _)) by (by apply trim_char_right_forall, pad_digits).
Qed.

(** The parts of an instant are in the ranges the parser asks for. *)
Lemma clock_ranges t : 0 <= ClockHour UTC t <= 23 /\ 0 <= ClockMinute UTC t <= 59 /\ 0 <= ClockSecond UTC t <= 59 /\ 0 <= ClockNanosecond t < Second.
Proof.
  assert (forall q m, 0 < q -> 0 < m -> forall x, 0 <= x mod m / q <= (m - 1) / q) as Hpart.
  { intros q m Hq Hm x. pose proof (Z.mod_pos_bound x m Hm). split; [apply Z.div_pos; lia|apply Z.div_le_mono; lia]. }
  unfold ClockHour, ClockMinute, ClockSecond, ClockNanosecond.
  pose proof (Hpart 3600 86400 ltac:(lia) ltac:(lia) (local_seconds UTC t)). pose proof (Hpart 60 3600 ltac:(lia) ltac:(lia) (local_seconds UTC t)).
  pose proof (Z.mod_pos_bound (local_seconds UTC t) 60 ltac:(lia)). pose proof (Z.mod_pos_bound t Second ltac:(done)).
  change ((86400 - 1) / 3600) with 23 in *. change ((3600 - 1) / 60) with 59 in *. lia.
Qed.
Lemma passes_time t s : encode_time t = Some s -> passes 0 s.
Proof.
  unfold encode_time. destruct (_ || _) eqn:Ey; [done|]. intros [= <-]. bool_prop. pose proof (civil_valid (local_day UTC t)) as [Hm Hd].
  destruct (clock_ranges t) as (H1 & H2 & H3 & H4).
  match goal with |- passes 0 (quote +:+ ?a +:+ "-" +:+ ?b +:+ "-" +:+ ?c +:+ "T" +:+ ?d +:+ ":" +:+ ?e +:+ ":" +:+ ?f +:+ ?g +:+ "Z" +:+ quote) =>
    replace (quote +:+ a +:+ "-" +:+ b +:+ "-" +:+ c +:+ "T" +:+ d +:+ ":" +:+ e +:+ ":" +:+ f +:+ g +:+ "Z" +:+ quote)
    with (quote +:+ (a +:+ "-" +:+ b +:+ "-" +:+ c +:+ "T" +:+ d +:+ ":" +:+ e +:+ ":" +:+ f +:+ g +:+ "Z") +:+ quote) by (by rewrite <- !string_app_assoc) end.
  apply passes_plain. rewrite !string_forall_app, fraction_plain, !(fun w n H => digits_plain _ (pad_digits w n H)); try done; unfold Month, Day; lia.
Qed.

(** ** Reading a time back *)

Lemma pad2_chars n : 0 <= n < 100 -> pad 2 n = String (chr (48 + n / 10)) (String (chr (48 + n mod 10)) EmptyString).
Proof.
  intros H. assert (forallb (fun n => String.eqb (pad 2 n) (String (chr (48 + n / 10)) (String (chr (48 + n mod 10)) EmptyString))) (seqZ 0 100) = true) as Hall
    by (vm_compute; reflexivity).
  apply String.eqb_eq. rewrite forallb_forall in Hall. apply Hall. apply list_elem_of_In, elem_of_seqZ. lia.
Qed.
Lemma pad4_halves n : 0 <= n < 10000 -> pad 4 n = pad 2 (n / 100) +:+ pad 2 (n mod 100).
Proof.
  intros H. assert (forallb (fun n => String.eqb (pad 4 n) (pad 2 (n / 100) +:+ pad 2 (n mod 100))) (seqZ 0 10000) = true) as Hall
    by (vm_compute; reflexivity).
  apply String.eqb_eq. rewrite forallb_forall in Hall. apply Hall. apply list_elem_of_In, elem_of_seqZ. lia.
Qed.
Lemma getnum_pad b n t : 0 <= n < 100 -> getnum b (pad 2 n +:+ t) = Some (n, t).
Proof.
  intros H. rewrite pad2_chars by done. pose proof (Z.mod_pos_bound n 10 ltac:(lia)). pose proof (Z.div_mod n 10 ltac:(lia)).
  assert (0 <= n / 10 < 10) by (split; [apply Z.div_pos; lia|apply Z.div_lt_upper_bound; lia]).
  change (String ?a (String ?b EmptyString) +:+ t) with (String a (String b t)). cbn [getnum].
  rewrite !(fun d H => proj2 (digit_chr d H)) by lia. cbn. do 2 f_equal. lia.
Qed.
Lemma getyear_pad n t : 0 <= n < 10000 -> getyear (pad 4 n +:+ t) = Some (n, t).
Proof.
  intros H. unfold getyear. pose proof (Z.mod_pos_bound n 100 ltac:(lia)). pose proof (Z.div_mod n 100 ltac:(lia)).
  assert (0 <= n / 100 < 100) by (split; [apply Z.div_pos; lia|apply Z.div_lt_upper_bound; lia]).
  rewrite pad4_halves by done. rewrite <- string_app_assoc. rewrite (getnum_pad true (n / 100)) by done. cbn [mbind option_bind]. rewrite (getnum_pad true (n mod 100)) by done. cbn. do 2 f_equal. lia.
Qed.
Lemma parse_digits_app s t acc : parse_digits acc (s +:+ t) = (x ← parse_digits acc s; parse_digits x t).
Proof.
  revert acc. induction s as [|c s IH]; intros acc; [done|]. change (String c s +:+ t) with (String c (s +:+ t)). cbn. destruct (digit_value c); [apply IH|done].
Qed.
Lemma parse_digits_pad w s : parse_digits 0 (pad_left w s) = parse_digits 0 s.
Proof.
  revert s. induction w as [|w IH]; intros s; cbn [pad_left]; destruct (_ <? _)%nat; try done.
  change ("0" +:+ pad_left w s) with (String "0" (pad_left w s)). cbn. apply IH.
Qed.
Lemma pad_left_exact w s : (String.length s <= w)%nat -> String.length (pad_left w s) = w.
Proof.
  revert s. induction w as [|w IH]; intros s H; cbn [pad_left]; destruct (Nat.ltb_spec (String.length s) (S w)) || idtac.
  - destruct (Nat.ltb_spec (String.length s) 0); lia.
  - change ("0" +:+ pad_left w s) with (String "0" (pad_left w s)). cbn. rewrite IH by lia. done.
  - lia.
Qed.
(** A number without its trailing zeros. *)
Fixpoint zeros (k : nat) : string := match k with O => EmptyString | S k => String "0" (zeros k) end.
Lemma trim_zeros s : exists k, s = trim_char_right "0" s +:+ zeros k.
Proof.
  induction s as [|c s [k IH]]; [by exists O|]. cbn [trim_char_right]. destruct (trim_char_right "0" s) as [|d t] eqn:E.
  - change (EmptyString +:+ zeros k) with (zeros k) in IH. destruct (Ascii.eqb_spec "0" c) as [<-|]; [exists (S k); by rewrite IH|]. exists k. by rewrite IH.
  - exists k. change (String c (String d t) +:+ zeros k) with (String c (String d t +:+ zeros k)). by rewrite <- IH.
Qed.
Lemma parse_digits_zeros k acc : parse_digits acc (zeros k) = Some (acc * 10 ^ Z.of_nat k).
Proof.
  revert acc. induction k as [|k IH]; intros acc; [cbn; f_equal; lia|]. change (parse_digits acc (zeros (S k))) with (parse_digits (10 * acc + 0) (zeros k)). rewrite IH.
  f_equal. rewrite Nat2Z.inj_succ, Z.pow_succ_r by lia. lia.
Qed.
Lemma zeros_length k : string_length (zeros k) = Z.of_nat k.
Proof. induction k as [|k IH]; [done|]. cbn [zeros string_length]. lia. Qed.
Lemma span_digits_app s t : string_forall digit09 s = true -> match t with String c _ => digit09 c = false | EmptyString => True end ->
  span_digits (s +:+ t) = (s, t).
Proof.
  induction s as [|c s IH]; intros H Ht.
  - change (EmptyString +:+ t) with t. destruct t as [|c t]; [done|]. cbn. by rewrite Ht.
  - change (String c s +:+ t) with (String c (s +:+ t)). cbn in H |- *. apply andb_true_iff in H as [-> Hs]. by rewrite IH.
Qed.
Lemma take_bytes_all n s : string_length s <= n -> take_bytes n s = s.
Proof.
  unfold take_bytes. intros H. assert (String.length s <= Z.to_nat n)%nat as Hl by (rewrite string_length_nat in H; lia). clear H.
  revert s Hl. induction (Z.to_nat n) as [|k IH]; intros [|c s] Hl; cbn in *; try done; [lia|]. f_equal. apply IH. lia.
Qed.

Lemma fraction_parsed ns : 0 <= ns < Second -> parse_fraction (fraction ns +:+ "Z") = (ns, "Z").
Proof.
  intros H. unfold fraction. destruct (Z.eqb_spec ns 0) as [->|Hns]; [done|]. set (t := trim_char_right "0" (pad 9 ns)).
  rewrite <- string_app_assoc. change ("." +:+ t +:+ "Z") with (String "." (t +:+ "Z")). unfold parse_fraction. cbn [is_char byte_of].
  destruct (trim_zeros (pad 9 ns)) as [k Hk]. fold t in Hk.
  assert (string_forall digit09 t = true) as Hd by (apply trim_char_right_forall, pad_digits; lia).
  assert (string_length (FormatUint ns) <= 9) as Hl by (apply (FormatUint_length 9); [change (10 ^ Z.of_nat 9) with Second; lia|lia]).
  assert (string_length t + Z.of_nat k = 9) as Hlen.
  { pose proof (pad_left_exact 9 (FormatUint ns)) as E. fold (pad 9 ns) in E. rewrite string_length_nat in Hl. specialize (E ltac:(lia)).
    apply (f_equal string_length) in Hk. rewrite string_length_app, zeros_length in Hk. rewrite <- Hk, string_length_nat. lia. }
  assert (exists v, parse_digits 0 t = Some v /\ v * 10 ^ Z.of_nat k = ns) as (v & Ev & Hv).
  { pose proof (parse_digits_FormatUint ns ltac:(lia)) as E. rewrite <- (parse_digits_pad 9) in E. fold (pad 9 ns) in E. rewrite Hk, parse_digits_app in E.
    destruct (parse_digits 0 t) as [v|]; [|done]. cbn [mbind option_bind] in E. rewrite parse_digits_zeros in E. exists v. split; [done|congruence]. }
  rewrite span_digits_app by done. change (is_char 46 ".") with true. cbn [orb].
  destruct t as [|c t'] eqn:Et; [cbn in Ev; injection Ev as <-; lia|]. rewrite <- Et in *.
  unfold parseNanoseconds. rewrite take_bytes_all by lia. rewrite Ev. cbn [default]. f_equal.
  replace (9 - string_length t) with (Z.of_nat k) by lia. exact Hv.
Qed.

(** The day of an instant is one of its month. *)
#[local] Transparent yst.
Module Leap.
Ltac Zify.zify_post_hook ::= Z.to_euclidean_division_equations.
Lemma yst_leap y : yst y = yst (y - 1) + 365 + (if isLeap y then 1 else 0).
Proof.
  unfold yst, isLeap. destruct (Z.eqb_spec (y mod 4) 0), (Z.eqb_spec (y mod 100) 0), (Z.eqb_spec (y mod 400) 0); cbn [andb orb negb]; lia.
Qed.
End Leap.
#[local] Opaque yst.
Ltac constants :=
  repeat match goal with
  | |- context [?a mod ?b] => let v := eval vm_compute in (a mod b) in lazymatch v with Z0 => idtac | Zpos _ => idtac end; change (a mod b) with v
  | |- context [?a / ?b] => let v := eval vm_compute in (a / b) in lazymatch v with Z0 => idtac | Zpos _ => idtac end; change (a / b) with v
  | |- context [?a <=? ?b] => let v := eval vm_compute in (a <=? b) in lazymatch v with true => idtac | false => idtac end; change (a <=? b) with v; cbv iota
  end.
Lemma days_of_month m y : 1 <= m <= 12 ->
  days_of_civil (y + (m + 1 - 1) / 12) ((m + 1 - 1) mod 12 + 1) 1 = days_of_civil y m 1 + daysIn m y.
Proof.
  intros Hm. rewrite !Euclid.days_of_civil_yst by (pose proof (Z.mod_pos_bound (m + 1 - 1) 12); lia).
  assert (m = 1 \/ m = 2 \/ m = 3 \/ m = 4 \/ m = 5 \/ m = 6 \/ m = 7 \/ m = 8 \/ m = 9 \/ m = 10 \/ m = 11 \/ m = 12) as Hc by lia.
  pose proof (Leap.yst_leap y) as Hy.
  repeat destruct Hc as [->|Hc]; [..|subst m]; cbn -[yst Z.mul Z.div Z.add isLeap]; constants;
    rewrite ?Z.add_0_r, ?Z.add_simpl_r; constants; destruct (isLeap y); lia.
Qed.
Lemma day_in_month z : civ_day (civil_of_days z) <= daysIn (civ_month (civil_of_days z)) (civ_year (civil_of_days z)).
Proof.
  pose proof (civil_valid z) as [Hm _]. pose proof (next_month_bounds z) as [Hn _]. unfold next_month_day in Hn. cbv zeta in Hn.
  rewrite days_of_month in Hn by done. pose proof (days_of_civil_of_days z) as E.
  pose proof (days_of_civil_add (civ_year (civil_of_days z)) (civ_month (civil_of_days z)) 1 (civ_day (civil_of_days z) - 1)) as Ha.
  replace (1 + (civ_day (civil_of_days z) - 1)) with (civ_day (civil_of_days z)) in Ha by lia. lia.
Qed.

Lemma take_bytes_prefix v t : take_bytes (string_length v) (v +:+ t) = v.
Proof.
  unfold take_bytes. rewrite string_length_nat, Nat2Z.id. induction v as [|c v IH]; [apply substring_none|].
  change (String c v +:+ t) with (String c (v +:+ t)). cbn. by rewrite IH.
Qed.
Lemma cut_prefix_app p t : cut_prefix p (p +:+ t) = Some t.
Proof. induction p as [|c p IH]; [done|]. change (String c p +:+ t) with (String c (p +:+ t)). cbn [cut_prefix]. by rewrite Ascii.eqb_refl. Qed.
Lemma Date_parts t : Date (Year UTC t) (Month UTC t) (Day UTC t) (ClockHour UTC t) (ClockMinute UTC t) (ClockSecond UTC t) (ClockNanosecond t) UTC = t.
Proof.
  unfold Date, Year, Month, Day. pose proof (civil_valid (local_day UTC t)) as [Hm _].
  rewrite Z.div_small, Z.mod_small by lia. replace (civ_month (civil_of_days (local_day UTC t)) - 1 + 1) with (civ_month (civil_of_days (local_day UTC t))) by lia.
  rewrite Z.add_0_r, days_of_civil_of_days. cbn [UTC FixedZone zs_offset]. rewrite Z.eqb_refl. unfold ClockHour, ClockMinute, ClockSecond, ClockNanosecond, local_day.
  assert (local_seconds UTC t = seconds t) as -> by (unfold local_seconds; cbn; lia). unfold seconds. set (x := t / Second).
  pose proof (Z.div_mod t Second ltac:(done)) as E. fold x in E.
  assert (x = x / 86400 * 86400 + x mod 86400 / 3600 * 3600 + x mod 3600 / 60 * 60 + x mod 60) as Ex; [|unfold Second in *; lia].
  clear. Z.to_euclidean_division_equations. lia.
Qed.
Lemma encode_time_parsed t s : encode_time t = Some s -> kind_of s = KString /\ ParseRFC3339 (unquoted s) = Some t.
Proof.
  unfold encode_time. destruct (_ || _) eqn:Ey; [done|]. intros [= <-]. bool_prop. split; [done|].
  pose proof (civil_valid (local_day UTC t)) as [Hm Hd]. pose proof (day_in_month (local_day UTC t)) as Hday.
  destruct (clock_ranges t) as (H1 & H2 & H3 & H4).
  match goal with |- context [unquoted (quote +:+ ?a +:+ "-" +:+ ?b +:+ "-" +:+ ?c +:+ "T" +:+ ?d +:+ ":" +:+ ?e +:+ ":" +:+ ?f +:+ ?g +:+ "Z" +:+ quote)] =>
    assert (unquoted (quote +:+ a +:+ "-" +:+ b +:+ "-" +:+ c +:+ "T" +:+ d +:+ ":" +:+ e +:+ ":" +:+ f +:+ g +:+ "Z" +:+ quote) =
      a +:+ "-" +:+ b +:+ "-" +:+ c +:+ "T" +:+ d +:+ ":" +:+ e +:+ ":" +:+ f +:+ g +:+ "Z") as -> end.
  { match goal with |- unquoted ?u = ?v => replace u with (String (chr 34) (v +:+ quote)) by (unfold quote; by rewrite <- !string_app_assoc) end.
    cbn [unquoted]. rewrite string_length_app. change (string_length quote) with 1.
    match goal with |- take_bytes (?l + 1 - 1) (?v +:+ _) = _ => replace (l + 1 - 1) with l by lia; apply take_bytes_prefix end. }
  pose proof (Date_parts t) as Ht. unfold ParseRFC3339, within. rewrite (getyear_pad (Year UTC t)) by lia. cbn [mbind option_bind].
  rewrite cut_prefix_app. cbn [mbind option_bind]. rewrite (getnum_pad true (Month UTC t)) by (unfold Month; lia). cbn [mbind option_bind fst].
  rewrite (proj2 (Z.leb_le 1 (Month UTC t))), (proj2 (Z.leb_le (Month UTC t) 12)) by (unfold Month; lia). cbn [mbind option_bind andb].
  rewrite cut_prefix_app. cbn [mbind option_bind]. rewrite (getnum_pad true (Day UTC t)) by (unfold Day; lia). cbn [mbind option_bind fst].
  rewrite cut_prefix_app. cbn [mbind option_bind]. rewrite (getnum_pad false (ClockHour UTC t)) by lia. cbn [mbind option_bind fst].
  rewrite (proj2 (Z.leb_le 0 (ClockHour UTC t))), (proj2 (Z.leb_le (ClockHour UTC t) 23)) by lia. cbn [mbind option_bind andb].
  rewrite cut_prefix_app. cbn [mbind option_bind]. rewrite (getnum_pad true (ClockMinute UTC t)) by lia. cbn [mbind option_bind fst].
  rewrite (proj2 (Z.leb_le 0 (ClockMinute UTC t))), (proj2 (Z.leb_le (ClockMinute UTC t) 59)) by lia. cbn [mbind option_bind andb].
  rewrite cut_prefix_app. cbn [mbind option_bind]. rewrite (getnum_pad true (ClockSecond UTC t)) by lia. cbn [mbind option_bind fst].
  rewrite (proj2 (Z.leb_le 0 (ClockSecond UTC t))), (proj2 (Z.leb_le (ClockSecond UTC t) 59)) by lia. cbn [mbind option_bind andb].
  rewrite fraction_parsed by done. change (parse_zone "Z") with (Some (0, EmptyString)). cbn [mbind option_bind]. change (negb (String.eqb "" "")) with false.
  rewrite (proj2 (Z.ltb_ge (Day UTC t) 1)), (proj2 (Z.ltb_ge (daysIn (Month UTC t) (Year UTC t)) (Day UTC t))) by (unfold Day, Month, Year in *; lia).
  cbn [orb]. rewrite Ht. f_equal. lia.
Qed.
(** ** Encoded objects *)

Definition members_text (l : list (string * string)) : string := join "," ((fun m => member m.1 m.2) <$> l).
Definition object_text (l : list (string * string)) : string := "{" +:+ members_text l +:+ "}".
(** The members an object has: those with a value. *)
Definition present (ms : list (string * option string)) : list (string * string) := omap (fun m => (fun v => (m.1, v)) <$> m.2) ms.
Lemma encode_object_present ms : encode_object ((fun m : string * option string => (fun v => member m.1 v) <$> m.2) <$> ms) = object_text (present ms).
Proof.
  unfold encode_object, object_text, members_text, present. do 3 f_equal. induction ms as [|[n [v|]] ms IH]; [done| |exact IH]. cbn. by rewrite <- IH.
Qed.
Lemma present_passes d ms : Forall (fun m => ValidString m.1 = true /\ match m.2 with Some v => passes d v | None => True end) ms ->
  Forall (fun m => passes d m.2 /\ ValidString m.1 = true) (present ms).
Proof. induction 1 as [|[n [v|]] ms [Hn Hv] _ IH]; [by constructor| |exact IH]. by constructor. Qed.
Lemma members_text_cons m l : members_text (m :: l) = member m.1 m.2 +:+ match l with [] => EmptyString | _ => "," +:+ members_text l end.
Proof. unfold members_text. destruct l; [cbn; by rewrite string_app_nil_r|done]. Qed.

Lemma runs_member d n v st K : passes d v -> (S (length K) + d <= max_nesting)%nat -> st = BeginKeyOrEnd \/ st = BeginKey ->
  exists st', ready st' /\ runs (member n v) (st, InObjectKey :: K) = Some (st', InObjectValue :: K).
Proof.
  intros [Hv _] Hd Hst. destruct (Hv (InObjectValue :: K) ltac:(cbn [length]; lia)) as (st' & Hr & H). exists st'. split; [done|].
  unfold member, encode_string. rewrite <- !string_app_assoc, runs_app.
  assert (runs quote (st, InObjectKey :: K) = Some (InString, InObjectKey :: K)) as -> by (by destruct Hst as [-> | ->]).
  cbn [mbind option_bind]. rewrite runs_app, (proj1 (escape_go_in_strings _ _)). cbn [mbind option_bind].
  rewrite runs_app. change (runs quote (InString, InObjectKey :: K)) with (Some (EndValue, InObjectKey :: K)). cbn [mbind option_bind].
  rewrite runs_app. exact H.
Qed.
Lemma runs_members d l : l <> [] -> Forall (fun m => passes d m.2) l -> forall st K, (S (length K) + d <= max_nesting)%nat -> st = BeginKeyOrEnd \/ st = BeginKey ->
  runs (members_text l +:+ "}") (st, InObjectKey :: K) = Some (EndValue, K).
Proof.
  intros Hne H. induction H as [|m l Hm Hl IH]; [done|]. intros st K Hd Hst. rewrite members_text_cons, <- string_app_assoc, runs_app.
  destruct (runs_member d m.1 m.2 st K Hm Hd Hst) as (st' & Hr & ->). cbn [mbind option_bind]. destruct l as [|m' l].
  - by destruct st'.
  - rewrite <- string_app_assoc, runs_app.
    assert (runs "," (st', InObjectValue :: K) = Some (BeginKey, InObjectKey :: K)) as -> by (by destruct st').
    cbn [mbind option_bind]. apply IH; [done|done|by right].
Qed.
Lemma runs_object d l K : Forall (fun m => passes d m.2) l -> (S (length K) + d <= max_nesting)%nat ->
  runs (object_text l) (BeginValue, K) = Some (EndValue, K).
Proof.
  intros H Hd. unfold object_text. rewrite runs_app.
  assert (runs "{" (BeginValue, K) = Some (BeginKeyOrEnd, InObjectKey :: K)) as ->.
  { change (runs "{" (BeginValue, K)) with (push InObjectKey BeginKeyOrEnd K ≫= Some). unfold push. by rewrite (proj2 (Nat.leb_gt max_nesting (length K))) by lia. }
  cbn [mbind option_bind]. destruct l as [|m l]; [done|]. apply (runs_members d); [done|exact H|exact Hd|by left].
Qed.
Lemma members_printable l : Forall (fun m => string_forall printable m.2 = true) l -> string_forall printable (members_text l) = true.
Proof.
  induction 1 as [|m l Hm Hl IH]; [done|]. rewrite members_text_cons, string_forall_app. unfold member. rewrite !string_forall_app.
  rewrite (proj1 (proj2 (passes_string m.1))), Hm. destruct l; [done|]. rewrite string_forall_app, IH. done.
Qed.
Lemma passes_object d l : Forall (fun m => passes d m.2) l -> (S d <= max_nesting)%nat -> passes (S d) (object_text l).
Proof.
  intros H Hd. split; [intros K HK; exists EndValue; split; [done|]; eapply runs_object; [done|lia]|]. split; [|done].
  unfold object_text. rewrite !string_forall_app, members_printable; [done|]. eapply Forall_impl; [exact H|]. intros m Hm. apply Hm.
Qed.

(** ** Reading an object back *)

Lemma take_value_ready st t c r : ready st -> t = "," \/ t = "}" -> take_value st [] (t +:+ String c r) = Ok (EmptyString, t +:+ String c r).
Proof. intros Hst [-> | ->]; by destruct st. Qed.
Lemma take_passed d v t : (d <= max_nesting)%nat -> passes d v -> (exists r, t = String "," r \/ t = String "}" r) -> take_value BeginValue [] (v +:+ t) = Ok (v, t).
Proof.
  intros Hd [Hv _] [r Ht]. destruct (Hv [] Hd) as (st & Hst & H). rewrite (runs_take _ _ _ _ _ H). cbn [fst snd].
  assert (take_value st [] t = Ok (EmptyString, t)) as -> by (by destruct Ht as [-> | ->], st).
  cbn. by rewrite string_app_nil_r.
Qed.
Lemma skip_space_app v t : v <> EmptyString -> skip_space v = v -> skip_space (v +:+ t) = v +:+ t.
Proof.
  destruct v as [|c v]; [done|]. intros _ H. change (String c v +:+ t) with (String c (v +:+ t)). cbn in *. destruct (json_space c); [|done].
  pose proof (skip_space_length v) as Hl. rewrite H in Hl. cbn in Hl. lia.
Qed.
Lemma passes_not_empty d v : (d <= max_nesting)%nat -> passes d v -> v <> EmptyString.
Proof. intros Hd [Hv _] ->. destruct (Hv [] Hd) as (st & Hst & H). by injection H as <-. Qed.

Lemma read_key n t : read_string (S (String.length (escape_go (String.length n) n +:+ quote +:+ t))) (escape_go (String.length n) n +:+ quote +:+ t) = Some (sanitize n, t).
Proof.
  apply read_string_escaped. pose proof (escape_go_longer (String.length n) n ltac:(done)) as H. rewrite !string_length_nat in H.
  assert (forall a b, String.length (a +:+ b) = (String.length a + String.length b)%nat) as Hl; [|rewrite Hl; lia].
  intros a b. pose proof (string_length_app a b) as E. rewrite !string_length_nat in E. lia.
Qed.
Lemma raw_members_text d l rest : (d <= max_nesting)%nat -> l <> [] -> Forall (fun m => passes d m.2) l -> forall n, (length l <= n)%nat ->
  raw_members n (members_text l +:+ String "}" rest) = Some ((fun m => (sanitize m.1, m.2)) <$> l).
Proof.
  intros Hd Hne H. induction H as [|[k v] l Hm Hl IH]; [done|]. intros [|n] Hn; [cbn in Hn; lia|]. cbn [fst snd] in *.
  rewrite members_text_cons. unfold member, encode_string. cbn [fst snd]. rewrite <- !string_app_assoc.
  change (quote +:+ ?t) with (String (chr 34) t) at 1. cbn [raw_members]. change (skip_space (String (chr 34) ?t)) with (String (chr 34) t). cbv iota beta.
  rewrite read_key. cbn [skip_space]. change (":" +:+ ?t) with (String ":" t). change (skip_space (String ":" ?t)) with (String ":" t). cbv iota beta.
  pose proof (proj2 (proj2 Hm)) as Hs. rewrite skip_space_app by (try done; by apply (passes_not_empty d)).
  destruct l as [|m l].
  - change (EmptyString +:+ String "}" rest) with (String "}" rest). rewrite (take_passed d) by (try done; eexists; by right). done.
  - rewrite <- string_app_assoc. change ("," +:+ ?t) with (String "," t).
    rewrite (take_passed d) by (try done; eexists; by left). cbn [skip_space]. change (json_space ",") with false. cbv iota beta. change (is_char 44 ",") with true. cbv iota.
    rewrite IH; [done|done|cbn in *; lia].
Qed.
Lemma members_text_length l : (length l <= String.length (members_text l))%nat.
Proof.
  induction l as [|m l IH]; [done|]. rewrite members_text_cons. unfold member.
  assert (forall a b, String.length (a +:+ b) = (String.length a + String.length b)%nat) as Hl.
  { intros a b. pose proof (string_length_app a b) as E. rewrite !string_length_nat in E. lia. }
  rewrite !Hl. change (String.length ":") with 1%nat. destruct l; [cbn; lia|]. rewrite Hl. cbn [length] in *. lia.
Qed.
Lemma object_members_text d l : (d <= max_nesting)%nat -> Forall (fun m => passes d m.2) l ->
  object_members (object_text l) = Some ((fun m => (sanitize m.1, m.2)) <$> l).
Proof.
  intros Hd H. destruct l as [|m l]; [done|]. unfold object_members, object_text.
  change ("{" +:+ ?t) with (String "{" t). change (skip_space (String "{" ?t)) with (String "{" t). cbv iota beta. change (is_char 123 "{") with true. cbv iota.
  rewrite members_text_cons at 1. unfold member, encode_string. rewrite <- !string_app_assoc. change (quote +:+ ?t) with (String (chr 34) t) at 1.
  change (skip_space (String (chr 34) ?t)) with (String (chr 34) t). cbv iota beta. change (is_char 125 (chr 34)) with false. cbv iota.
  apply (raw_members_text d); [done|done|done|]. cbn [String.length].
  assert (forall a b, String.length (a +:+ b) = (String.length a + String.length b)%nat) as Hl.
  { intros a b. pose proof (string_length_app a b) as E. rewrite !string_length_nat in E. lia. }
  rewrite Hl. pose proof (members_text_length (m :: l)). lia.
Qed.
(** ** Reading a struct back *)

Section Decoders.
Context {T : Type} (x : T * option goerror).
Lemma decode_encoded_string (set : string -> T -> T) s : decode_string set (encode_string s) x = Ok (set (sanitize s) x.1, x.2).
Proof.
  unfold encode_string. change (quote +:+ ?t) with (String (chr 34) t) at 1. cbn [decode_string]. change (kind_of (String (chr 34) ?t)) with KString. cbv iota beta.
  rewrite <- (string_app_nil_r quote) at 1 2. by rewrite read_key.
Qed.
Lemma Itoa_kind n : kind_of (Itoa n) = KNumber.
Proof.
  unfold Itoa. destruct (Z.ltb_spec n 0); [done|]. destruct (decide (n = 0)) as [->|]; [done|].
  destruct (FormatUint_positive n) as (c & t & -> & Hc & _); [lia|]. unfold digit19, in_range in Hc. bool_prop. unfold kind_of, is_char.
  by rewrite !(proj2 (Z.eqb_neq (byte_of c) _)) by lia.
Qed.
Lemma decode_encoded_int (set : Z -> T -> T) n : in_int64 n -> decode_int set (Itoa n) x = Ok (set n x.1, x.2).
Proof. intros H. unfold decode_int. by rewrite Itoa_kind, Atoi_Itoa. Qed.
Lemma decode_encoded_time (set : Z -> T -> T) t s : encode_time t = Some s -> decode_time set s x = Ok (set t x.1, x.2).
Proof. intros [Hk Hp]%encode_time_parsed. unfold decode_time. by rewrite Hk, Hp. Qed.
Lemma decode_present (fields : list (string * decoder T)) store n o ms x' :
  field_named fields n = Some store -> match o with Some v => store v x | None => Ok x end = Ok x' ->
  decode_members fields (present ((n, o) :: ms)) x = decode_members fields (present ms) x'.
Proof.
  intros Hf H. destruct o as [v|]; [|by injection H as ->].
  change (decode_members fields ((n, v) :: present ms) x = decode_members fields (present ms) x'). cbn [decode_members]. by rewrite Hf, H.
Qed.
End Decoders.

Lemma object_members_named d l : (d <= max_nesting)%nat -> Forall (fun m => passes d m.2 /\ ValidString m.1 = true) l ->
  object_members (object_text l) = Some l.
Proof.
  intros Hd H. rewrite (object_members_text d); [|done|by apply (Forall_impl _ _ _ H); intros m [? _]]. f_equal.
  induction H as [|[k v] l Hm _ IH]; [done|]. destruct Hm as [_ Hk]. rewrite fmap_cons. cbn [fst snd] in *. by rewrite (sanitize_valid _ Hk), IH.
Qed.
Lemma decode_object {T} (fields : list (string * decoder T)) type_ d l x : (d <= max_nesting)%nat ->
  Forall (fun m => passes d m.2 /\ ValidString m.1 = true) l ->
  decode_struct fields type_ (object_text l) x = decode_members fields l x.
Proof. intros Hd H. unfold decode_struct. change (kind_of (object_text l)) with KObject. cbv iota. by rewrite (object_members_named d). Qed.

(** ** Members with [omitempty] *)

(** The value of a string member that is left out when it is empty. *)
Definition optional (v : string) : option string := if String.eqb v "" then None else Some (encode_string v).
Lemma omit_empty_optional n v : omit_empty n v = (fun v => member n v) <$> optional v.
Proof. unfold omit_empty, optional. by destruct (String.eqb v ""). Qed.
Lemma optional_passes d v : match optional v with Some s => passes d s | None => True end.
Proof. unfold optional. destruct (String.eqb v ""); [done|]. apply (passes_mono 0); [lia|apply passes_string]. Qed.
(** Every member of an object in sight is the text of a value. *)
Ltac passing d :=
  apply (present_passes d); repeat (apply Forall_cons_2; [split; [reflexivity|cbn [snd]]|]); [..|by apply Forall_nil_2];
  try apply optional_passes; try match goal with |- match (if ?b then _ else _) with _ => _ end => destruct b; [done|] end;
  try (apply (passes_mono 0); [lia|first [apply passes_string|apply passes_Itoa|eapply passes_time; eassumption]]).
Lemma read_optional {T} (set : string -> T -> T) v x : (set EmptyString x.1, x.2) = x ->
  match optional v with Some s => decode_string set s x | None => Ok x end = Ok (set (sanitize v) x.1, x.2).
Proof. intros Hx. unfold optional. destruct (String.eqb_spec v "") as [->|]; [by rewrite <- Hx at 1|apply decode_encoded_string]. Qed.
Lemma read_nonzero {T} (set : Z -> T -> T) n x : in_int64 n -> (set 0 x.1, x.2) = x ->
  match (if n =? 0 then None else Some (Itoa n)) with Some s => decode_int set s x | None => Ok x end = Ok (set n x.1, x.2).
Proof. intros Hn Hx. destruct (Z.eqb_spec n 0) as [->|]; [by rewrite <- Hx at 1|by apply decode_encoded_int]. Qed.
Ltac read_member :=
  etransitivity; [eapply decode_present; [reflexivity|cbv iota beta;
    first [apply decode_encoded_string|eapply decode_encoded_int; eassumption|apply read_optional; reflexivity|apply read_nonzero; [assumption|reflexivity]|eapply decode_encoded_time; eassumption|reflexivity]]|].

(** ** Lines

    The text of one event: an object whose first key starts like ["version"]. *)
Record line_text (t : string) : Prop := LineText {
  lt_runs : runs t (BeginValue, []) = Some (EndValue, []);
  lt_printable : string_forall printable t = true;
  lt_starts : exists r, t = String "{" (quote +:+ String "v" r)
}.
Lemma object_line d v l : Forall (fun m => passes d m.2) (("version", v) :: l) -> (S d <= max_nesting)%nat ->
  line_text (object_text (("version", v) :: l)).
Proof.
  intros H Hd. split; [by apply (runs_object d)|by apply (passes_object d)|].
  unfold object_text. rewrite members_text_cons. unfold member. rewrite <- !string_app_assoc. by eexists.
Qed.

Lemma ended_done c : ended c EndValue [] = true.
Proof. unfold ended, goes_on, scan_step, end_value. by destruct (json_space c). Qed.
Lemma readValue_line t rest : line_text t -> readValue (t +:+ rest) = Ok (t, rest).
Proof.
  intros [H _ (r & E)]. unfold readValue. assert (string_forall json_space (t +:+ rest) = false) as -> by (by rewrite E).
  rewrite (runs_take _ _ _ _ _ H). cbn [fst snd]. destruct rest as [|c rest]; [cbn; by rewrite string_app_nil_r|].
  cbn [take_value]. rewrite ended_done. cbn. by rewrite string_app_nil_r.
Qed.

(** A line cut short leaves the scanner inside its object. *)
Lemma scan_step_closes c st k st' k' : scannable st k -> (k <> [] \/ st = EndValue) -> scan_step c st k = Some (st', k') -> k' <> [] \/ st' = EndValue.
Proof.
  unfold scan_step, begin_value, end_value, push. intros Ho [H| ->] E; repeat (case_match; simplify_eq/=; try done; try (by left); try (by right)).
Qed.
Lemma runs_inside s : forall x y, scannable x.1 x.2 -> (x.2 <> [] \/ x.1 = EndValue) -> runs s x = Some y -> scannable y.1 y.2 /\ (y.2 <> [] \/ y.1 = EndValue).
Proof.
  induction s as [|c s IH]; intros [st k] y Ho Hx H; [by injection H as <-|]. cbn in H, Ho, Hx. destruct (ended c st k); [done|].
  destruct (scan_step c st k) as [[st1 k1]|] eqn:E; [|done].
  apply (IH (st1, k1)); [by apply (scan_step_scannable c st k)|by apply (scan_step_closes c st k)|exact H].
Qed.
Lemma cut_line t p q : line_text t -> t = p +:+ q -> p <> EmptyString -> q <> EmptyString ->
  exists st k, runs p (BeginValue, []) = Some (st, k) /\ scannable st k /\ k <> [].
Proof.
  intros [H _ (r & E)] Et Hp Hq. destruct p as [|c p]; [done|]. rewrite Et, runs_app in H.
  destruct (runs (String c p) (BeginValue, [])) as [[st k]|] eqn:E1; [|done]. exists st, k. split; [done|].
  change (String c p +:+ q) with (String c (p +:+ q)) in Et. rewrite E in Et. injection Et as <- _.
  change (runs p (BeginKeyOrEnd, [InObjectKey]) = Some (st, k)) in E1.
  apply runs_inside in E1 as [Ho Hk]; [|done|by left]. cbn in Ho, Hk. split; [done|]. destruct Hk as [Hk| ->]; [done|]. intros ->.
  destruct q as [|c q]; [done|]. cbn [mbind option_bind runs fst snd] in H.
  by rewrite ended_done in H.
Qed.
(** A line after a torn one makes no value. *)
Lemma take_value_glued t st k : line_text t -> scannable st k -> k <> [] -> exists err, take_value st k t = Err err.
Proof.
  intros [H _ (r & E)] Ho Hk.
  destruct (take_value_nested t k Hk BeginValue [] _ (runs_steps _ _ _ H) I) as [err He]. change ([] ++ k) with k in He.
  assert (forall st', scan_step "{" st' k = None -> exists err, take_value st' k t = Err err) as Hnone.
  { intros st' Hst. rewrite E. cbn [take_value]. rewrite ended_nested, Hst by done. eauto. }
  assert (end_value "{" k = None) as Hend by (by destruct k as [|[] k]).
  destruct st; try (by apply Hnone); try (by exists err).
  - exists err. rewrite <- He, E. cbn [take_value]. by rewrite !ended_nested by done.
  - assert (take_value EndValue k (String "v" r) = Err json_syntax_error) as Hv.
    { cbn [take_value]. rewrite ended_nested by done. change (scan_step "v" EndValue k) with (end_value "v" k). by destruct k as [|[] k]. }
    rewrite E. change (quote +:+ String "v" r) with (String (chr 34) (String "v" r)). remember (String "v" r) as r' eqn:Er. cbn [take_value].
    rewrite ended_nested by done. change (scan_step "{" InString k) with (Some (InString, k)). cbv iota beta.
    rewrite ended_nested by done. change (scan_step (chr 34) InString k) with (Some (EndValue, k)). cbv iota beta. rewrite Hv. by eexists.
  - apply Hnone. cbn in Ho. destruct rest as [|d rest]; [done|].
    change (match rest with EmptyString => if Ascii.eqb "{" d then Some (EndValue, k) else None | _ => if Ascii.eqb "{" d then Some (InLiteral rest, k) else None end = None). cbn [string_forall] in Ho. apply andb_true_iff in Ho as [Hd _].
    destruct (Ascii.eqb_spec "{" d) as [<-|]; [by vm_compute in Hd|]. by destruct rest.
Qed.
Lemma readValue_glued t1 t2 p q : line_text t1 -> line_text t2 -> t1 = p +:+ q -> p <> EmptyString -> q <> EmptyString ->
  exists err, readValue (p +:+ t2) = Err err.
Proof.
  intros H1 H2 E Hp Hq. unfold readValue. destruct (string_forall json_space (p +:+ t2)); [eauto|].
  destruct (cut_line _ _ _ H1 E Hp Hq) as (st & k & Hr & Ho & Hk). rewrite (runs_take _ _ _ _ _ Hr). cbn [fst snd].
  destruct (take_value_glued t2 st k H2 Ho Hk) as [err ->]. by exists err.
Qed.
