(* ===== verification/EventLog.v ===== *)
(** * The append-only event log of the local stores

    [file_job_store.go] and [file_scheduler_store.go] keep their state in a log
    of one JSON event per line, written and replayed by the same code; the
    parts they share are here, over the type [Ev] of events and the type [St] of
    the state an event changes.  A log is its bytes, cut at the newlines: what
    is appended is the text [json.Marshal] makes of an event and a newline, and
    replaying reads each line back with the decoder of [JsonStruct.v].  Writing
    goes through an oracle: it succeeds, it stops after some bytes, or the final
    sync fails. *)
From S2P Require Import Prelude GoTime GoStrings Json JsonDecode JsonStruct.
Open Scope Z_scope.
Open Scope go_scope.

Record log_file := LogFile {
  log_lines : list string;
  log_torn : string  (* the bytes after the last newline *)
}.

(** [file.Write] at the end of the log. *)
Fixpoint log_write (f : log_file) (s : string) : log_file :=
  match s with
  | EmptyString => f
  | String c r =>
      log_write (if is_char 10 c then LogFile (log_lines f ++ [log_torn f]) EmptyString
                 else LogFile (log_lines f) (log_torn f +:+ String c EmptyString)) r
  end.
Definition newline : string := String (chr 10) EmptyString.

(** What a write to the file does. *)
Inductive append_io :=
| AppendOk
| WriteStops (written : Z) (err : goerror)
| SyncFails (err : goerror).

Definition json_year_error : goerror :=
  ErrNew "json: error calling MarshalJSON for type time.Time: year outside of range [0,9999]".

(** The system calls of opening and replaying a log; [None] is success. *)
Record open_env := OpenEnv {
  io_mkdir : option goerror; io_open : option goerror; io_chmod : option goerror;
  io_seek_start : option goerror; io_truncate : option goerror; io_sync : option goerror;
  io_seek_end : option goerror
}.
Definition io_fine : open_env := OpenEnv None None None None None None None.

Section EventLog.
Context {Ev St : Type}.
Variable encode : Ev -> option string.      (* json.Marshal *)
Variable unmarshal : string -> result Ev.   (* d.unmarshal into an event *)
Variable apply : St -> Ev -> result St.     (* applyEvent *)
Variable limit : Z.                         (* the longest line replay accepts *)
Variable failed corrupt : goerror.          (* the store's two sentinels *)

(** [append]: encode, write the line, sync.  A write that stops has not
    written the last byte. *)
Definition append_event (io : append_io) (f : log_file) (e : Ev) : log_file * result unit :=
  match encode e with
  | None => (f, Err (errorf2 failed "encode event" json_year_error))
  | Some encoded =>
      let line := encoded +:+ newline in
      match io with
      | AppendOk => (log_write f line, Ok tt)
      | WriteStops written err =>
          (log_write f (take_bytes (Z.min written (string_length line - 1)) line), Err (errorf2 failed "append event" err))
      | SyncFails err => (log_write f line, Err (errorf2 failed "sync event" err))
      end
  end.

(** [fmt.Errorf("%w: %w", corrupt, decodeErr)]. *)
Definition corrupt_with (err : goerror) : goerror := Errorf [W corrupt; T ": "; W err].
Definition is_EOF (err : goerror) : bool := match err with ErrNew t => String.eqb t "EOF" | _ => false end.

(** The two calls of [decoder.Decode] on one line. *)
Definition decode_line (line : string) : result Ev :=
  match readValue line with
  | Err err => Err (corrupt_with err)
  | Panicked m => Panicked m
  | Ok (value, rest) =>
      match unmarshal value with
      | Err err => Err (corrupt_with err)
      | Panicked m => Panicked m
      | Ok event => match readValue rest with
                    | Err err => if is_EOF err then Ok event else Err corrupt
                    | _ => Err corrupt
                    end
      end
  end.

(** One turn of the read loop: the size check, the decoding, the event. *)
Definition replay_line (m : St) (line : string) : result St :=
  if limit <? string_length line + 1 then Err corrupt
  else let* e := decode_line line in apply m e.

Fixpoint replay_lines (m : St) (l : list string) : result St :=
  match l with
  | [] => Ok m
  | x :: l => let* m' := replay_line m x in replay_lines m' l
  end.

Definition syscall (what : string) (io : option goerror) : result unit :=
  match io with Some err => Err (errorf2 failed what err) | None => Ok tt end.

(** [replay]: the lines in order, then a torn tail is truncated away. *)
Definition replay_log (io : open_env) (m : St) (f : log_file) : result (St * log_file) :=
  let* _ := syscall "seek log" (io_seek_start io) in
  let* m' := replay_lines m (log_lines f) in
  let* f' := (if String.eqb (log_torn f) "" then Ok f
             else let* _ := syscall "discard incomplete event" (io_truncate io) in
                  let* _ := syscall "sync repaired log" (io_sync io) in
                  Ok (LogFile (log_lines f) EmptyString)) in
  let* _ := syscall "seek log end" (io_seek_end io) in
  Ok (m', f').

(** [MkdirAll], [OpenFile] and [Chmod], before the replay. *)
Definition open_log (io : open_env) (m : St) (f : log_file) : result (St * log_file) :=
  let* _ := syscall "create directory" (io_mkdir io) in
  let* _ := syscall "open log" (io_open io) in
  let* _ := syscall "secure log" (io_chmod io) in
  replay_log io m f.

(** ** Laws *)

(** The log rebuilds [m] from [m0]. *)
Definition rebuilds (m0 m : St) (f : log_file) : Prop := replay_lines m0 (log_lines f) = Ok m.

Lemma replay_lines_app m l1 l2 :
  replay_lines m (l1 ++ l2) = (let* m' := replay_lines m l1 in replay_lines m' l2).
Proof.
  revert m. induction l1 as [|x l1 IH]; intros m; [done|]. cbn.
  destruct (replay_line m x); cbn; auto.
Qed.

Lemma replay_lines_fail m l1 l2 err : replay_lines m l1 = Err err -> replay_lines m (l1 ++ l2) = Err err.
Proof. intros H. by rewrite replay_lines_app, H. Qed.

(** What is written up to a newline. *)
Lemma log_write_plain s f : string_forall printable s = true -> log_write f s = LogFile (log_lines f) (log_torn f +:+ s).
Proof.
  revert f. induction s as [|c s IH]; intros f H; [destruct f; cbn; by rewrite string_app_nil_r|].
  cbn [string_forall] in H. apply andb_true_iff in H as [Hc Hs]. unfold printable in Hc. bool_prop. cbn [log_write]. unfold is_char.
  rewrite (proj2 (Z.eqb_neq (byte_of c) 10)), IH by (done || lia). cbn. by rewrite <- string_app_assoc.
Qed.
Lemma log_write_app s t f : log_write f (s +:+ t) = log_write (log_write f s) t.
Proof. revert f. induction s as [|c s IH]; intros f; [done|]. change (String c s +:+ t) with (String c (s +:+ t)). apply IH. Qed.
Lemma log_write_line s f : string_forall printable s = true ->
  log_write f (s +:+ newline) = LogFile (log_lines f ++ [log_torn f +:+ s]) EmptyString.
Proof. intros H. rewrite log_write_app, (log_write_plain s) by done. reflexivity. Qed.
Lemma log_write_grows s f : exists l, log_lines (log_write f s) = log_lines f ++ l.
Proof.
  revert f. induction s as [|c s IH]; intros f; [exists []; by rewrite app_nil_r|]. cbn [log_write].
  match goal with |- exists l, log_lines (log_write ?g s) = _ => destruct (IH g) as [l ->] end.
  destruct (is_char 10 c); cbn; [exists (log_torn f :: l); by rewrite <- app_assoc|by exists l].
Qed.
Lemma append_event_grows io f e : exists l, log_lines (append_event io f e).1 = log_lines f ++ l.
Proof.
  unfold append_event. destruct (encode e) as [encoded|]; [|exists []; by rewrite app_nil_r].
  destruct io; cbn; apply log_write_grows.
Qed.

(** The line of [e] is one that replaying accepts and reads as [e']. *)
Definition writes (e e' : Ev) : Prop := forall encoded, encode e = Some encoded ->
  line_text encoded /\ string_length encoded + 1 <= limit /\ unmarshal encoded = Ok e'.
Lemma decode_written encoded e' : line_text encoded -> unmarshal encoded = Ok e' -> decode_line encoded = Ok e'.
Proof.
  intros Hl Hu. unfold decode_line. rewrite <- (string_app_nil_r encoded), (readValue_line _ _ Hl), Hu. done.
Qed.

(** A successful append adds one line. *)
Lemma append_event_ok io f e e' f' : writes e e' -> append_event io f e = (f', Ok tt) ->
  exists encoded, encode e = Some encoded /\ f' = LogFile (log_lines f ++ [log_torn f +:+ encoded]) EmptyString.
Proof.
  unfold append_event, writes. intros Hw H. destruct (encode e) as [s|]; [|done]. destruct (Hw s eq_refl) as (Hl & _).
  destruct io; simplify_eq; rewrite (log_write_line s) by apply Hl; eauto.
Qed.

Lemma append_event_never_panics io f e f' msg : append_event io f e <> (f', Panicked msg).
Proof. unfold append_event. destruct (encode e); [destruct io|]; intros H; simplify_eq. Qed.

(** What was durable stays durable when the event applies and fits. *)
Lemma append_rebuilds io m0 m m' f e e' f' :
  log_torn f = EmptyString -> rebuilds m0 m f -> append_event io f e = (f', Ok tt) -> writes e e' -> apply m e' = Ok m' ->
  log_torn f' = EmptyString /\ rebuilds m0 m' f'.
Proof.
  unfold rebuilds. intros Ht Hr H Hw Ha. destruct (append_event_ok _ _ _ _ _ Hw H) as (encoded & He & ->).
  destruct (Hw _ He) as (Hl & Hs & Hu). rewrite Ht. split; [done|]. cbn [log_lines]. change (EmptyString +:+ encoded) with encoded.
  rewrite replay_lines_app, Hr. cbn. unfold replay_line. rewrite (proj2 (Z.ltb_ge _ _) Hs), (decode_written _ _ Hl Hu). cbn. by rewrite Ha.
Qed.

(** A write that stops leaves the whole lines as they were, and a part of the
    event's line. *)
Lemma take_bytes_part n s : exists q, s = take_bytes n s +:+ q.
Proof.
  unfold take_bytes. revert s. induction (Z.to_nat n) as [|k IH]; intros [|c s]; try (by eexists).
  destruct (IH s) as [q E]. exists q. cbn. change (String c ?a +:+ q) with (String c (a +:+ q)). by rewrite <- E.
Qed.
Lemma take_bytes_line n s : exists p q, take_bytes (Z.min n (string_length (s +:+ newline) - 1)) (s +:+ newline) = p /\ s = p +:+ q.
Proof.
  destruct (take_bytes_part (Z.min n (string_length (s +:+ newline) - 1)) (s +:+ newline)) as [q E].
  set (p := take_bytes _ _) in *. exists p.
  assert (string_length p <= string_length s) as Hp.
  { subst p. destruct (Z.le_gt_cases 0 (Z.min n (string_length (s +:+ newline) - 1))) as [Hn|Hn].
    - pose proof (take_bytes_length _ (s +:+ newline) Hn). rewrite string_length_app in *. change (string_length newline) with 1 in *. lia.
    - unfold take_bytes. rewrite Z2Nat.nonpos, substring_none by lia. pose proof (string_length_pos s). cbn. lia. }
  clearbody p. revert p E Hp. induction s as [|c s IH]; intros [|d p] E Hp; [by exists EmptyString|cbn in Hp; pose proof (string_length_pos p); lia|by eexists|].
  change (String c s +:+ newline) with (String c (s +:+ newline)) in E. change (String d p +:+ q) with (String d (p +:+ q)) in E. injection E as -> E.
  destruct (IH p E) as (q' & _ & ->); [cbn in Hp; lia|]. by exists q'.
Qed.
Lemma append_stops n err f e e' : writes e e' ->
  (append_event (WriteStops n err) f e).1 = f \/
  exists encoded p q, encode e = Some encoded /\ encoded = p +:+ q /\
    (append_event (WriteStops n err) f e).1 = LogFile (log_lines f) (log_torn f +:+ p).
Proof.
  unfold append_event, writes. intros Hw. destruct (encode e) as [s|]; [|by left]. right. destruct (Hw s eq_refl) as ([_ Hp _] & _).
  destruct (take_bytes_line n s) as (p & q & E & Es). exists s, p, q. split; [done|]. split; [done|]. cbn [fst]. rewrite E. apply log_write_plain.
  rewrite Es, string_forall_app in Hp. by apply andb_true_iff in Hp as [? _].
Qed.
Lemma append_stops_rebuilds n err m0 m f e e' : writes e e' -> rebuilds m0 m f -> rebuilds m0 m (append_event (WriteStops n err) f e).1.
Proof. intros Hw Hr. destruct (append_stops n err f e e' Hw) as [->|(? & ? & ? & _ & _ & ->)]; exact Hr. Qed.

(** Opening a log whose lines replay gives their state and drops the tail. *)
Lemma open_log_rebuilds m0 m f : rebuilds m0 m f -> open_log io_fine m0 f = Ok (m, LogFile (log_lines f) EmptyString).
Proof.
  unfold rebuilds, open_log, replay_log. intros Hr. cbn. rewrite Hr. cbn.
  destruct (String.eqb_spec (log_torn f) "") as [E|E]; cbn; [|done]. destruct f as [l t]. cbn in *. by subst.
Qed.
(** A log with a line that cannot be replayed does not open, whatever follows it. *)
Lemma open_log_fails m0 f f' l err : replay_lines m0 (log_lines f) = Err err -> log_lines f' = log_lines f ++ l -> open_log io_fine m0 f' = Err err.
Proof. intros Hr Hl. unfold open_log, replay_log. cbn. by rewrite Hl, (replay_lines_fail _ _ _ _ Hr). Qed.

(** The line of an event after a part of another line is no event: there is no
    value, or more than one. *)
Definition corrupted (err : goerror) : Prop := err = corrupt \/ exists d, err = corrupt_with d.
Lemma glued_line m p q t1 t2 e1 : line_text t1 -> unmarshal t1 = Ok e1 -> line_text t2 -> t1 = p +:+ q -> p <> EmptyString ->
  exists err, replay_line m (p +:+ t2) = Err err /\ corrupted err.
Proof.
  intros H1 Hu H2 E Hp. unfold replay_line. destruct (_ <? _); [exists corrupt; split; [done|by left]|]. unfold decode_line.
  destruct (decide (q = EmptyString)) as [->|Hq].
  - rewrite string_app_nil_r in E. subst p. rewrite (readValue_line _ _ H1), Hu. exists corrupt. split; [|by left].
    rewrite <- (string_app_nil_r t2), (readValue_line _ _ H2). done.
  - destruct (readValue_glued _ _ _ _ H1 H2 E Hp Hq) as [err ->]. exists (corrupt_with err). split; [done|right; by exists err].
Qed.
Lemma append_after_torn io1 n err1 io2 m0 m f e1 e1' e2 e2' f1 f2 : log_torn f = EmptyString -> rebuilds m0 m f ->
  writes e1 e1' -> writes e2 e2' -> io1 = WriteStops n err1 -> (append_event io1 f e1).1 = f1 -> log_torn f1 <> EmptyString ->
  append_event io2 f1 e2 = (f2, Ok tt) -> exists err, replay_lines m0 (log_lines f2) = Err err /\ corrupted err.
Proof.
  unfold rebuilds. intros Ht Hr Hw1 Hw2 -> Hf1 Ht1 H2. destruct (append_event_ok _ _ _ _ _ Hw2 H2) as (t2 & He2 & ->).
  destruct (append_stops n err1 f e1 e1' Hw1) as [E|(t1 & p & q & He1 & Et & E)]; rewrite E in Hf1; subst f1; [by rewrite Ht in Ht1|].
  cbn [log_lines log_torn] in *. rewrite Ht in *. change (EmptyString +:+ p) with p in *.
  destruct (Hw1 _ He1) as (Hl1 & _ & Hu1). destruct (Hw2 _ He2) as (Hl2 & _).
  destruct (glued_line m p q t1 t2 e1' Hl1 Hu1 Hl2 Et Ht1) as (err & H & Hc). exists err. split; [|done].
  rewrite replay_lines_app, Hr. cbn. by rewrite H.
Qed.

(** ** Stores over a log

A call of a store either leaves its log and its state [m] alone, whatever
the I/O, or appends one event; the event replays, from what a restart would
find, to what a restart would find after the call.  [persist m] is that
part of [m] which the log keeps, [ok] the store's invariant. *)
Variable persist : St -> St.
Variable ok : St -> Prop.

Inductive effect (f : log_file) (m : St) (op : append_io -> log_file * St) : Prop :=
| EffectNone : (forall io, op io = (f, m)) -> effect f m op
| EffectEvent ev ev' m' :
    writes ev ev' -> apply (persist m) ev' = Ok (persist m') -> ok m' ->
    (forall io, op io = ((append_event io f ev).1, if is_ok (append_event io f ev).2 then m' else m)) ->
    effect f m op.

(** What a restart finds after a call: the completed call, or the state before
it when the write stopped part way. *)
Definition survivor (m : St) (io : append_io) (op : append_io -> log_file * St) : St :=
  match io with WriteStops _ _ => m | _ => (op AppendOk).2 end.

Lemma effect_rebuilds m0 f m op io :
  log_torn f = EmptyString -> ok m -> rebuilds m0 (persist m) f -> effect f m op ->
  ok (survivor m io op) /\
  match io with WriteStops _ _ => (op io).2 = m | _ => log_torn (op io).1 = EmptyString end /\
  rebuilds m0 (persist (survivor m io op)) (op io).1.
Proof.
  intros Ht Hok Hr [Hn|ev ev' m' Hw Ha Hm Hop]; unfold survivor.
  { rewrite !Hn. by destruct io. }
  destruct (encode ev) as [line|] eqn:He.
  2:{ rewrite !Hop. unfold append_event. rewrite He. destruct io; cbn; by rewrite ?Ht. }
  assert (forall io, io = AppendOk \/ (exists err, io = SyncFails err) -> (append_event io f ev).1 = (append_event AppendOk f ev).1) as Hsame.
  { unfold append_event. rewrite He. by intros ? [->|[err ->]]. }
  destruct (append_rebuilds AppendOk m0 _ _ f ev ev' (append_event AppendOk f ev).1 Ht Hr ltac:(unfold append_event; by rewrite He) Hw Ha) as [Ht' Hr'].
  assert ((op AppendOk).2 = m') as Em by (rewrite Hop; unfold append_event; by rewrite He).
  destruct io as [|n err|err]; rewrite ?Em, !Hop; cbn [fst snd].
  - auto.
  - split; [done|]. split; [unfold append_event; by rewrite He|]. by eapply append_stops_rebuilds.
  - rewrite (Hsame (SyncFails err)) by eauto. auto.
Qed.

(** After a torn write, a successful append of a later call ends the log. *)
Lemma effect_after_torn m0 f m op1 n err op2 m1 : log_torn f = EmptyString -> rebuilds m0 (persist m) f -> effect f m op1 ->
  log_torn (op1 (WriteStops n err)).1 <> EmptyString -> effect (op1 (WriteStops n err)).1 m1 op2 ->
  (op2 AppendOk).1 <> (op1 (WriteStops n err)).1 ->
  exists e, replay_lines m0 (log_lines (op2 AppendOk).1) = Err e /\ corrupted e.
Proof.
  intros Ht Hr [Hn1|e1 e1' m1' Hw1 _ _ Hop1] Ht1 H2 Hne; [by rewrite Hn1 in Ht1|].
  pose proof (f_equal fst (Hop1 (WriteStops n err))) as Hf1. cbn [fst] in Hf1. set (f1 := (op1 (WriteStops n err)).1) in *.
  destruct H2 as [Hn2|e2 e2' m2' Hw2 _ _ Hop2]; [by rewrite Hn2 in Hne|]. rewrite Hop2 in Hne |- *. cbn [fst] in *.
  destruct (append_event AppendOk f1 e2) as [f2 r] eqn:E.
  assert (r = Ok tt) as ->.
  { unfold append_event in E. destruct (encode e2); [by injection E|]. by injection E as <- <-. }
  by apply (append_after_torn (WriteStops n err) n err AppendOk m0 (persist m) f e1 e1' e2 e2' f1 f2).
Qed.

Lemma effect_ext f m op op' : (forall io, op io = op' io) -> effect f m op -> effect f m op'.
Proof.
  intros Heq [Hn|ev ev' m' Hw Ha Hm Hop]; [apply EffectNone|apply (EffectEvent _ _ _ ev ev' m' Hw Ha Hm)];
    intros io; by rewrite <- Heq.
Qed.
End EventLog.
