(* ===== verification/JobStore.v ===== *)
(** * The contract of a job store: [backend/framework/job_store.go]

    The data every store exchanges with the queue, and the abstract
    specification of [JobStore] as a type class: a store is seen as a finite
    map from job identifiers to jobs with a status, and each operation either
    makes one described transition of that map or leaves it alone.  The queue's
    workers ([Jobs.v]) are proved against this class; [FileJobStore.v] is an
    instance. *)
From S2P Require Import Prelude GoTime GoStrings.
Open Scope Z_scope.
Open Scope go_scope.

Definition ErrJobStoreUnavailable := ErrNew "framework: job store is unavailable".
Definition ErrJobStoreClosed := ErrNew "framework: job store is closed".
Definition ErrJobStoreEmpty := ErrNew "framework: job store has no ready jobs".
Definition ErrJobStoreFull := ErrNew "framework: job store is full".
Definition ErrJobStoreConflict := ErrNew "framework: job store record conflicts".
Definition ErrJobReservationInvalid := ErrNew "framework: job reservation is invalid".
Definition ErrJobPayloadEncodingFailed := ErrNew "framework: job payload encoding failed".
Definition ErrJobPayloadDecodingFailed := ErrNew "framework: job payload decoding failed".
Definition ErrJobStoreOperationFailed := ErrNew "framework: job store operation failed".
Definition ErrInvalidFileJobStoreOptions := ErrNew "framework: file job store options are invalid".
Definition ErrFileJobStoreCorrupt := ErrNew "framework: file job store log is corrupt".
Definition ErrJobContextUnavailable := ErrNew "framework: job context is unavailable".

Record StoredJob := MkStoredJob {
  ID : string;
  Handler : string;
  Payload : string;
  AvailableAt : Z;
  EnqueuedAt : Z;
  Attempts : Z
}.

Record JobReservation := MkJobReservation {
  res_Job : StoredJob;
  res_Token : string;
  res_ReservedUntil : Z
}.

Record FailedStoredJob := MkFailedStoredJob {
  failed_Job : StoredJob;
  failed_FailedAt : Z;
  failed_Error : string
}.

#[export] Instance StoredJob_eq_dec : EqDecision StoredJob.
Proof. solve_decision. Defined.

(** ** The abstract state *)

Inductive job_status :=
| Waiting
| Reserved (token : string) (until : Z)
| Failed (at_ : Z) (error : string).

Abbreviation job_view := (gmap string (StoredJob * job_status)).

Definition with_attempts (j : StoredJob) (n : Z) : StoredJob :=
  MkStoredJob (ID j) (Handler j) (Payload j) (AvailableAt j) (EnqueuedAt j) n.
Definition with_available (j : StoredJob) (t : Z) : StoredJob :=
  MkStoredJob (ID j) (Handler j) (Payload j) t (EnqueuedAt j) (Attempts j).

(** A job a worker may take at [now]: not failed, due, not under a live lease. *)
Definition reservable (now : Z) (entry : StoredJob * job_status) : Prop :=
  AvailableAt entry.1 <= now /\
  match entry.2 with
  | Waiting => True
  | Reserved _ until => until <= now
  | Failed _ _ => False
  end.

(** The order in which due jobs are taken: available time, then enqueue time,
    then identifier. *)
Definition job_before (a b : StoredJob) : Prop :=
  AvailableAt a < AvailableAt b \/
  (AvailableAt a = AvailableAt b /\
   (EnqueuedAt a < EnqueuedAt b \/
    (EnqueuedAt a = EnqueuedAt b /\ String.le (ID a) (ID b)))).

#[export] Instance job_before_trans : Transitive job_before.
Proof.
  intros a b c. unfold job_before. intros Hab Hbc.
  destruct Hab as [Hab|[Hab [Hab'|[Hab' Hab'']]]], Hbc as [Hbc|[Hbc [Hbc'|[Hbc' Hbc'']]]]; try (left; lia);
    right; (split; [lia|]); try (left; lia). right. split; [lia|]. by trans (ID b).
Qed.
#[export] Instance job_before_total : Total job_before.
Proof.
  intros a b. unfold job_before.
  destruct (Z.lt_trichotomy (AvailableAt a) (AvailableAt b)) as [|[|]]; [tauto| |tauto].
  destruct (Z.lt_trichotomy (EnqueuedAt a) (EnqueuedAt b)) as [|[|]];
    [left; tauto| |right; right; split; [lia|tauto]].
  destruct (total String.le (ID a) (ID b)); [left|right]; right; (split; [lia|]); right; (split; [lia|done]).
Qed.

(** The reservation is the current one of its job. *)
Definition holds (v : job_view) (r : JobReservation) : Prop :=
  exists job until, v !! ID (res_Job r) = Some (job, Reserved (res_Token r) until).

(** ** The transitions *)

Definition view_release (v : job_view) (id : string) (availableAt : Z) : job_view :=
  match v !! id with
  | Some (job, _) => <[id := (with_available job availableAt, Waiting)]> v
  | None => v
  end.
Definition view_fail (v : job_view) (id : string) (failedAt : Z) (error : string) : job_view :=
  match v !! id with
  | Some (job, _) => <[id := (job, Failed failedAt error)]> v
  | None => v
  end.

(** ** The interface *)

(** The operations of a store with state [S]; [E] is what one call takes from
    its environment: the outcome of its I/O, the random token, the clock. *)
Class JobStore (S E : Type) := {
  store_Enqueue : E -> context -> StoredJob -> S -> S * result unit;
  store_Reserve : E -> context -> Z -> Z -> S -> S * result JobReservation;
  store_Release : E -> context -> JobReservation -> Z -> string -> S -> S * result unit;
  store_Complete : E -> context -> JobReservation -> S -> S * result unit;
  store_Fail : E -> context -> JobReservation -> string -> S -> S * result unit
}.

(** What every store promises.  [store_ok] is its invariant, [store_view] its
    abstract state, [store_failedAt] the instant a failure is stamped with and
    [store_error] what it keeps of an error text.  A store keeps instants to its
    own resolution, [store_instant], and of a new job what [store_kept] says. *)
Class JobStoreLaws (S E : Type) `{!JobStore S E} := {
  store_ok : S -> Prop;
  store_view : S -> job_view;
  store_failedAt : E -> Z;
  store_error : string -> string;
  store_instant : Z -> Z;
  store_kept : StoredJob -> StoredJob;

  kept_ID j : ID (store_kept j) = ID j;
  kept_Attempts j : Attempts (store_kept j) = Attempts j;

  Enqueue_ok e ctx job s s' r :
    store_ok s -> store_Enqueue e ctx job s = (s', r) -> store_ok s' /\
    match r with
    | Ok _ => store_view s !! ID job = None /\
              store_view s' = <[ID job := (store_kept job, Waiting)]> (store_view s)
    | _ => store_view s' = store_view s
    end;

  Reserve_ok e ctx now lease s s' r :
    store_ok s -> store_Reserve e ctx now lease s = (s', r) -> store_ok s' /\
    match r with
    | Ok res =>
        exists job status, store_view s !! ID job = Some (job, status) /\
          reservable (store_instant now) (job, status) /\
          (forall id' job' status', store_view s !! id' = Some (job', status') ->
             reservable (store_instant now) (job', status') -> job_before job job') /\
          res_Job res = with_attempts job (wrap64 (Attempts job + 1)) /\
          res_ReservedUntil res = now + lease /\
          store_view s' = <[ID job := (res_Job res, Reserved (res_Token res) (store_instant (now + lease)))]> (store_view s)
    | Err err => store_view s' = store_view s /\
        (standard_context ctx -> err = ErrJobStoreEmpty ->
         forall id entry, store_view s !! id = Some entry -> ~ reservable (store_instant now) entry)
    | Panicked _ => store_view s' = store_view s
    end;

  Release_ok e ctx res availableAt error s s' r :
    store_ok s -> store_Release e ctx res availableAt error s = (s', r) -> store_ok s' /\
    match r with
    | Ok _ => holds (store_view s) res /\
              store_view s' = view_release (store_view s) (ID (res_Job res)) (store_instant availableAt)
    | _ => store_view s' = store_view s
    end;

  Complete_ok e ctx res s s' r :
    store_ok s -> store_Complete e ctx res s = (s', r) -> store_ok s' /\
    match r with
    | Ok _ => holds (store_view s) res /\
              store_view s' = delete (ID (res_Job res)) (store_view s)
    | _ => store_view s' = store_view s
    end;

  Fail_ok e ctx res error s s' r :
    store_ok s -> store_Fail e ctx res error s = (s', r) -> store_ok s' /\
    match r with
    | Ok _ => holds (store_view s) res /\
              store_view s' = view_fail (store_view s) (ID (res_Job res)) (store_failedAt e) (store_error error)
    | _ => store_view s' = store_view s
    end
}.

(** ** Runs of a store, and what leases guarantee along them *)
Section Leases.
Context {S E : Type} `{!JobStore S E, !JobStoreLaws S E}.

(** One call with its visible outcome. *)
Inductive outcome :=
| Enqueued (job : StoredJob)
| TookAt (now : Z) (r : JobReservation)
| Finished (r : JobReservation)
| Nothing.
Definition finished {A} (res : JobReservation) (r : result A) : outcome :=
  match r with Ok _ => Finished res | _ => Nothing end.

Inductive store_step (s : S) : outcome -> S -> Prop :=
| step_Enqueue e ctx j s' r : store_Enqueue e ctx j s = (s', r) ->
    store_step s (match r with Ok _ => Enqueued j | _ => Nothing end) s'
| step_Reserve e ctx now lease s' r : store_Reserve e ctx now lease s = (s', r) ->
    store_step s (match r with Ok res => TookAt now res | _ => Nothing end) s'
| step_Release e ctx res t error s' r : store_Release e ctx res t error s = (s', r) ->
    store_step s (finished res r) s'
| step_Complete e ctx res s' r : store_Complete e ctx res s = (s', r) -> store_step s (finished res r) s'
| step_Fail e ctx res error s' r : store_Fail e ctx res error s = (s', r) -> store_step s (finished res r) s'.

Inductive run (P : outcome -> Prop) : S -> S -> Prop :=
| run_refl s : run P s s
| run_step s o s' s'' : store_step s o s' -> P o -> run P s' s'' -> run P s s''.

(** Each outcome's change of the view. *)
Lemma store_step_view s o s' : store_ok s -> store_step s o s' -> store_ok s' /\
  match o with
  | Enqueued j => store_view s !! ID j = None /\
      store_view s' = <[ID j := (store_kept j, Waiting)]> (store_view s)
  | TookAt now r => exists j st, store_view s !! ID j = Some (j, st) /\
      reservable (store_instant now) (j, st) /\ ID (res_Job r) = ID j /\
      store_view s' = <[ID j := (res_Job r, Reserved (res_Token r) (store_instant (res_ReservedUntil r)))]>
        (store_view s)
  | Finished r => holds (store_view s) r /\
      forall k, k <> ID (res_Job r) -> store_view s' !! k = store_view s !! k
  | Nothing => store_view s' = store_view s
  end.
Proof.
  intros Hok Hstep. destruct Hstep as [e ctx j s' r H|e ctx now lease s' r H|e ctx res t err s' r H
    |e ctx res s' r H|e ctx res err s' r H].
  - apply (Enqueue_ok _ _ _ _ _ _ Hok) in H as [? H]. by destruct r.
  - apply (Reserve_ok _ _ _ _ _ _ _ Hok) in H as [? H]. split; [done|]. destruct r; [|tauto|done].
    destruct H as (j & st & Hl & Hr & _ & -> & -> & Hv). exists j, st. by rewrite Hv.
  - apply (Release_ok _ _ _ _ _ _ _ _ Hok) in H as [? H]. split; [done|]. destruct r; [|done..].
    destruct H as [Hh ->]. split; [done|]. intros k Hk. unfold view_release.
    destruct (store_view s !! _) as [[]|]; [|done]. by rewrite lookup_insert_ne.
  - apply (Complete_ok _ _ _ _ _ _ Hok) in H as [? H]. split; [done|]. destruct r; [|done..].
    destruct H as [Hh ->]. split; [done|]. intros k Hk. by rewrite lookup_delete_ne.
  - apply (Fail_ok _ _ _ _ _ _ _ Hok) in H as [? H]. split; [done|]. destruct r; [|done..].
    destruct H as [Hh ->]. split; [done|]. intros k Hk. unfold view_fail.
    destruct (store_view s !! _) as [[]|]; [|done]. by rewrite lookup_insert_ne.
Qed.

(** A call that can neither steal a live lease before [until] nor end it,
    instants being compared at the resolution [instant]. *)
Definition keeps_lease_at (instant : Z -> Z) (res : JobReservation) (until : Z) (o : outcome) : Prop :=
  match o with
  | TookAt now _ => instant now < until
  | Finished res' => ID (res_Job res') = ID (res_Job res) -> res_Token res' <> res_Token res
  | _ => True
  end.
Definition keeps_lease : JobReservation -> Z -> outcome -> Prop := keeps_lease_at (fun t => t).
Definition leased (res : JobReservation) (s : S) : Prop :=
  store_view s !! ID (res_Job res) =
    Some (res_Job res, Reserved (res_Token res) (store_instant (res_ReservedUntil res))).

(** While the lease lasts the job stays with its worker. *)
Lemma lease_kept res s s' :
  store_ok s -> leased res s -> run (keeps_lease_at store_instant res (store_instant (res_ReservedUntil res))) s s' ->
  store_ok s' /\ leased res s'.
Proof.
  intros Hok Hl Hrun. induction Hrun as [s|s o s1 s2 Hs Ho _ IH]; [done|].
  destruct (store_step_view _ _ _ Hok Hs) as [Hok1 Hv]. apply IH; [done|]. clear IH Hs.
  unfold leased in *. destruct o as [j|now r|r|]; cbn in Ho.
  - destruct Hv as [Hn ->]. rewrite lookup_insert_ne; [done|]. intros E0. congruence.
  - destruct Hv as (j & st & Hj & Hr & Hid & ->). rewrite lookup_insert_ne; [done|].
    intros E0. rewrite E0, Hl in Hj. injection Hj as <- <-. destruct Hr as [_ Hr]. cbn in Hr. lia.
  - destruct Hv as [(j & u & Hj) Hv].
    destruct (decide (ID (res_Job r) = ID (res_Job res))) as [E0|E0]; [|rewrite Hv; [done|congruence]].
    rewrite E0, Hl in Hj. injection Hj as _ Ht _. specialize (Ho E0). congruence.
  - by rewrite Hv.
Qed.

Lemma reservation_leased e ctx now lease s s' res :
  store_ok s -> store_Reserve e ctx now lease s = (s', Ok res) ->
  store_ok s' /\ leased res s' /\ res_ReservedUntil res = now + lease.
Proof.
  intros Hok H. apply (Reserve_ok _ _ _ _ _ _ _ Hok) in H as [Hok' (j & st & Hl & Hr & _ & Hj & Hu & Hv)].
  split; [done|]. split; [|done]. unfold leased. rewrite Hv, Hj, Hu. apply lookup_insert_eq.
Qed.

(** No other worker takes a leased job before its lease ends. *)
Lemma lease_excludes e ctx now lease s s' res res' :
  store_ok s -> leased res s -> store_instant now < store_instant (res_ReservedUntil res) ->
  store_Reserve e ctx now lease s = (s', Ok res') -> ID (res_Job res') <> ID (res_Job res).
Proof.
  intros Hok Hl Hlt H E0. apply (Reserve_ok _ _ _ _ _ _ _ Hok) in H as [_ (j & st & Hj & [_ Hr] & _ & Hid & _)].
  assert (ID j = ID (res_Job res)) as Ej by (rewrite <- E0, Hid; done).
  rewrite Ej, Hl in Hj. injection Hj as <- <-. cbn in Hr. lia.
Qed.

(** A reservation that is no longer current stays so until its token is issued
    again, and cannot finish the job. *)
Lemma stale_stays s s' res :
  store_ok s -> ~ holds (store_view s) res ->
  run (fun o => match o with TookAt _ r => res_Token r <> res_Token res | _ => True end) s s' ->
  store_ok s' /\ ~ holds (store_view s') res.
Proof.
  intros Hok Hn Hrun. induction Hrun as [s|s o s1 s2 Hs Ho _ IH]; [done|].
  pose proof (store_step_view _ _ _ Hok Hs) as [Hok1 Hv]. apply IH; [done|]. clear IH.
  intros Hh. apply Hn. destruct Hh as (j0 & u & Hh). unfold holds.
  destruct o as [j|now r|r|].
  - destruct Hv as [Hno Hv]. rewrite Hv in Hh.
    destruct (decide (ID j = ID (res_Job res))) as [E0|E0];
      [rewrite E0, lookup_insert_eq in Hh; done|rewrite lookup_insert_ne in Hh by done; eauto].
  - destruct Hv as (j & st & Hj & _ & Hid & Hv). rewrite Hv in Hh.
    destruct (decide (ID j = ID (res_Job res))) as [E0|E0].
    + rewrite E0, lookup_insert_eq in Hh. injection Hh as _ Ht _. done.
    + rewrite lookup_insert_ne in Hh by done. eauto.
  - destruct Hv as [Hr Hv]. destruct (decide (ID (res_Job r) = ID (res_Job res))) as [E0|E0].
    + exfalso. clear Hv Ho Hn. revert Hh. inversion Hs as [? ? ? ? ? H1 H2|? ? ? ? ? ? H1 H2
        |? ? ? ? ? ? r0 H1 H2|? ? ? ? r0 H1 H2|? ? ? ? ? r0 H1 H2]; subst;
        repeat match goal with r0 : result _ |- _ => destruct r0 end; try discriminate;
        injection H2 as ->; rewrite <- E0.
      * apply (Release_ok _ _ _ _ _ _ _ _ Hok) in H1 as [_ [_ ->]]. unfold view_release.
        destruct Hr as (jr & ur & Hr). rewrite Hr. by rewrite lookup_insert_eq.
      * apply (Complete_ok _ _ _ _ _ _ Hok) in H1 as [_ [_ ->]]. by rewrite lookup_delete_eq.
      * apply (Fail_ok _ _ _ _ _ _ _ Hok) in H1 as [_ [_ ->]]. unfold view_fail.
        destruct Hr as (jr & ur & Hr). rewrite Hr. by rewrite lookup_insert_eq.
    + rewrite (Hv (ID (res_Job res))) in Hh by congruence. eauto.
  - rewrite Hv in Hh. eauto.
Qed.
End Leases.
