(* ===== verification/FileJobStore.v ===== *)
(** * The durable local job store: [backend/framework/file_job_store.go]

    A store is its map of records and its event log ([EventLog.v]).  The
    operations take the outcome of their I/O, the random bytes and the clock
    from their environment; [replay] is what opening the log does.  The
    theorems are in [FileJobStoreFacts.v]. *)
From S2P Require Import Prelude GoTime GoStrings Json JsonDecode JsonStruct EventLog JobStore.
Open Scope Z_scope.
Open Scope go_scope.

Definition defaultFileJobStoreMaxJobs : Z := 10000.
Definition defaultFileJobStoreMaxPayloadBytes : Z := 4 * 1024 * 1024.
Definition fileJobStoreEventVersion : Z := 1.
Definition fileJobStoreEventOverhead : Z := 64 * 1024.
Definition fileJobStoreMaxErrorBytes : Z := 4 * 1024.
Definition fileJobStoreMaxHandlerBytes : Z := 1024.
Definition jobIdentifierBytes : nat := 32.

(** ** Data *)

Record fileStoredJob := FileStoredJob {
  job : StoredJob;
  reservationToken : string;
  reservedUntil : Z;
  failedAt : Z;
  lastError : string
}.

Record fileJobPayload := FileJobPayload {
  p_ID : string;
  p_Handler : string;
  p_Payload : string;
  p_AvailableAt : Z;
  p_EnqueuedAt : Z;
  p_Attempts : Z
}.

Record fileJobStoreEvent := FileJobStoreEvent {
  ev_Version : Z;
  ev_Type : string;
  ev_Job : option fileJobPayload;
  ev_ID : string;
  ev_Token : string;
  ev_ReservedUntil : Z;
  ev_AvailableAt : Z;
  ev_Attempts : Z;
  ev_Error : string;
  ev_FailedAt : Z
}.

Record FileJobStore := MkFileJobStore {
  path : string;
  maxJobs : Z;
  maxPayloadBytes : Z;
  file : log_file;
  jobs : gmap string fileStoredJob;
  closed : bool
}.

(** What one call takes from its environment. *)
Record store_env := StoreEnv {
  env_io : append_io;
  env_random : result (nat -> Z);   (* crypto/rand *)
  env_now : positive                (* time.Now(), after the zero time *)
}.

Definition set_jobs (s : FileJobStore) (m : gmap string fileStoredJob) : FileJobStore :=
  MkFileJobStore (path s) (maxJobs s) (maxPayloadBytes s) (file s) m (closed s).
Definition set_file (s : FileJobStore) (f : log_file) : FileJobStore :=
  MkFileJobStore (path s) (maxJobs s) (maxPayloadBytes s) f (jobs s) (closed s).

(** ** Helpers of the source *)

Definition newJobIdentifier (random : result (nat -> Z)) : result string :=
  match random with
  | Ok f => Ok (hex_encode (map f (seq 0 jobIdentifierBytes)))
  | Err err => Err (errorf2 ErrJobStoreOperationFailed "random identifier" err)
  | Panicked m => Panicked m
  end.

Definition validJobIdentifier (value : string) : bool :=
  (string_length value =? Z.of_nat jobIdentifierBytes * 2) && string_forall lower_hex value.

Definition normalizeFileJobStoreError (value : string) : string :=
  if string_length value <=? fileJobStoreMaxErrorBytes then value
  else let value := take_bytes fileJobStoreMaxErrorBytes value in
       shorten_to_valid (String.length value) value.

Definition validateStoredJob (j : StoredJob) (maxPayloadBytes : Z) : result unit :=
  if negb (validJobIdentifier (ID j)) ||
     String.eqb (TrimSpace (Handler j)) "" ||
     (fileJobStoreMaxHandlerBytes <? string_length (Handler j)) ||
     (string_length (Payload j) =? 0) ||
     (maxPayloadBytes <? string_length (Payload j)) ||
     negb (Valid (Payload j)) ||
     IsZero (AvailableAt j) ||
     IsZero (EnqueuedAt j) ||
     (Attempts j <? 0)
  then Err ErrJobStoreConflict else Ok tt.

Definition fileJobPayloadFromStored (j : StoredJob) : fileJobPayload :=
  FileJobPayload (ID j) (Handler j) (Payload j) (AvailableAt j) (EnqueuedAt j) (Attempts j).
Definition stored (p : fileJobPayload) : StoredJob :=
  MkStoredJob (p_ID p) (p_Handler p) (p_Payload p) (p_AvailableAt p) (p_EnqueuedAt p) (p_Attempts p).

Definition reservationFromFileRecord (r : fileStoredJob) : JobReservation :=
  MkJobReservation (job r) (reservationToken r) (reservedUntil r).

(** ** The JSON line of an event *)

Definition encode_payload (p : fileJobPayload) : option string :=
  a ← encode_time (p_AvailableAt p);
  e ← encode_time (p_EnqueuedAt p);
  Some (encode_object [
    Some (member "id" (encode_string (p_ID p)));
    Some (member "handler" (encode_string (p_Handler p)));
    Some (member "payload" (compact (p_Payload p)));
    Some (member "availableAt" a);
    Some (member "enqueuedAt" e);
    Some (member "attempts" (Itoa (p_Attempts p)))]).

(** [json.Marshal(event)]; a time outside years 0 to 9999 fails. *)
Definition encode_event (e : fileJobStoreEvent) : option string :=
  j ← match ev_Job e with
      | Some p => s ← encode_payload p; Some (Some (member "job" s))
      | None => Some None
      end;
  ru ← encode_time (ev_ReservedUntil e);
  aa ← encode_time (ev_AvailableAt e);
  fa ← encode_time (ev_FailedAt e);
  Some (encode_object [
    Some (member "version" (Itoa (ev_Version e)));
    Some (member "type" (encode_string (ev_Type e)));
    j;
    omit_empty "id" (ev_ID e);
    omit_empty "token" (ev_Token e);
    Some (member "reservedUntil" ru);
    Some (member "availableAt" aa);
    (if ev_Attempts e =? 0 then None else Some (member "attempts" (Itoa (ev_Attempts e))));
    omit_empty "error" (ev_Error e);
    Some (member "failedAt" fa)]).

(** The structs of the decoder, field by field. *)
Definition payload_fields : list (string * decoder fileJobPayload) := [
  ("id", decode_string (fun v p => FileJobPayload v (p_Handler p) (p_Payload p) (p_AvailableAt p) (p_EnqueuedAt p) (p_Attempts p)));
  ("handler", decode_string (fun v p => FileJobPayload (p_ID p) v (p_Payload p) (p_AvailableAt p) (p_EnqueuedAt p) (p_Attempts p)));
  ("payload", decode_raw (fun v p => FileJobPayload (p_ID p) (p_Handler p) v (p_AvailableAt p) (p_EnqueuedAt p) (p_Attempts p)));
  ("availableAt", decode_time (fun v p => FileJobPayload (p_ID p) (p_Handler p) (p_Payload p) v (p_EnqueuedAt p) (p_Attempts p)));
  ("enqueuedAt", decode_time (fun v p => FileJobPayload (p_ID p) (p_Handler p) (p_Payload p) (p_AvailableAt p) v (p_Attempts p)));
  ("attempts", decode_int (fun v p => FileJobPayload (p_ID p) (p_Handler p) (p_Payload p) (p_AvailableAt p) (p_EnqueuedAt p) v))].
Definition zero_payload : fileJobPayload := FileJobPayload "" "" "" zero_time zero_time 0.

Definition with_ev_Version v e := FileJobStoreEvent v (ev_Type e) (ev_Job e) (ev_ID e) (ev_Token e) (ev_ReservedUntil e) (ev_AvailableAt e) (ev_Attempts e) (ev_Error e) (ev_FailedAt e).
Definition with_ev_Type v e := FileJobStoreEvent (ev_Version e) v (ev_Job e) (ev_ID e) (ev_Token e) (ev_ReservedUntil e) (ev_AvailableAt e) (ev_Attempts e) (ev_Error e) (ev_FailedAt e).
Definition with_ev_Job v e := FileJobStoreEvent (ev_Version e) (ev_Type e) v (ev_ID e) (ev_Token e) (ev_ReservedUntil e) (ev_AvailableAt e) (ev_Attempts e) (ev_Error e) (ev_FailedAt e).
Definition with_ev_ID v e := FileJobStoreEvent (ev_Version e) (ev_Type e) (ev_Job e) v (ev_Token e) (ev_ReservedUntil e) (ev_AvailableAt e) (ev_Attempts e) (ev_Error e) (ev_FailedAt e).
Definition with_ev_Token v e := FileJobStoreEvent (ev_Version e) (ev_Type e) (ev_Job e) (ev_ID e) v (ev_ReservedUntil e) (ev_AvailableAt e) (ev_Attempts e) (ev_Error e) (ev_FailedAt e).
Definition with_ev_ReservedUntil v e := FileJobStoreEvent (ev_Version e) (ev_Type e) (ev_Job e) (ev_ID e) (ev_Token e) v (ev_AvailableAt e) (ev_Attempts e) (ev_Error e) (ev_FailedAt e).
Definition with_ev_AvailableAt v e := FileJobStoreEvent (ev_Version e) (ev_Type e) (ev_Job e) (ev_ID e) (ev_Token e) (ev_ReservedUntil e) v (ev_Attempts e) (ev_Error e) (ev_FailedAt e).
Definition with_ev_Attempts v e := FileJobStoreEvent (ev_Version e) (ev_Type e) (ev_Job e) (ev_ID e) (ev_Token e) (ev_ReservedUntil e) (ev_AvailableAt e) v (ev_Error e) (ev_FailedAt e).
Definition with_ev_Error v e := FileJobStoreEvent (ev_Version e) (ev_Type e) (ev_Job e) (ev_ID e) (ev_Token e) (ev_ReservedUntil e) (ev_AvailableAt e) (ev_Attempts e) v (ev_FailedAt e).
Definition with_ev_FailedAt v e := FileJobStoreEvent (ev_Version e) (ev_Type e) (ev_Job e) (ev_ID e) (ev_Token e) (ev_ReservedUntil e) (ev_AvailableAt e) (ev_Attempts e) (ev_Error e) v.
Definition event_fields : list (string * decoder fileJobStoreEvent) := [
  ("version", decode_int with_ev_Version); ("type", decode_string with_ev_Type);
  ("job", decode_pointer payload_fields "framework.fileJobPayload" zero_payload ev_Job with_ev_Job);
  ("id", decode_string with_ev_ID); ("token", decode_string with_ev_Token);
  ("reservedUntil", decode_time with_ev_ReservedUntil); ("availableAt", decode_time with_ev_AvailableAt);
  ("attempts", decode_int with_ev_Attempts); ("error", decode_string with_ev_Error);
  ("failedAt", decode_time with_ev_FailedAt)].
Definition zero_event : fileJobStoreEvent :=
  FileJobStoreEvent 0 "" None "" "" zero_time zero_time 0 "" zero_time.
Definition unmarshal_event : string -> result fileJobStoreEvent :=
  unmarshal_struct event_fields "framework.fileJobStoreEvent" zero_event.

(** ** The log *)

Definition append (io : append_io) (s : FileJobStore) (e : fileJobStoreEvent)
    : FileJobStore * result unit :=
  let '(f, r) := append_event encode_event ErrJobStoreOperationFailed io (file s) e in
  (set_file s f, r).

Definition ready (s : FileJobStore) (ctx : context) : result unit :=
  match ctx with
  | Ctx (Some err) => Err err
  | _ => if closed s then Err ErrJobStoreClosed else Ok tt
  end.

(** ** Operations *)

Definition Enqueue_locked (env : store_env) (ctx : context) (j : StoredJob) (s : FileJobStore)
    : FileJobStore * result unit :=
  match ctx with
  | NilContext => (s, Err ErrJobContextUnavailable)
  | Ctx _ =>
      match validateStoredJob j (maxPayloadBytes s) with
      | Ok _ =>
          match ready s ctx with
          | Ok _ =>
              if maxJobs s <=? Z.of_nat (size (jobs s)) then (s, Err ErrJobStoreFull) else
              match jobs s !! ID j with
              | Some _ => (s, Err ErrJobStoreConflict)
              | None =>
                  let ev := FileJobStoreEvent fileJobStoreEventVersion "enqueue"
                              (Some (fileJobPayloadFromStored j)) "" "" zero_time zero_time 0 "" zero_time in
                  match append (env_io env) s ev with
                  | (s', Ok _) =>
                      (set_jobs s' (<[ID j := FileStoredJob j "" zero_time zero_time ""]> (jobs s')), Ok tt)
                  | (s', r) => (s', r)
                  end
              end
          | r => (s, r)
          end
      | r => (s, r)
      end
  end.
Definition Enqueue (env : store_env) (ctx : context) (j : StoredJob)
    : option FileJobStore -> option FileJobStore * result unit :=
  fun store => with_receiver ErrJobStoreUnavailable store (Enqueue_locked env ctx j).

(** The test of the loop over [store.jobs]. *)
Definition eligible (now : Z) (r : fileStoredJob) : bool :=
  negb (negb (IsZero (failedAt r)) || After (AvailableAt (job r)) now ||
        (negb (String.eqb (reservationToken r) "") && After (reservedUntil r) now)).

(** The comparison given to [sort.Slice], as the order it sorts by. *)
Definition less_or_same (a b : fileStoredJob) : Prop := job_before (job a) (job b).
#[export] Instance job_before_dec a b : Decision (job_before a b).
Proof. unfold job_before. apply _. Defined.
#[export] Instance less_or_same_dec a b : Decision (less_or_same a b).
Proof. unfold less_or_same. apply _. Defined.

Definition eligible_records (now : Z) (m : gmap string fileStoredJob) : list fileStoredJob :=
  filter (fun r => eligible now r = true) (map_to_list m).*2.

Definition Reserve_locked (env : store_env) (ctx : context) (now lease : Z) (s : FileJobStore)
    : FileJobStore * result JobReservation :=
  match ctx with
  | NilContext => (s, Err ErrJobContextUnavailable)
  | Ctx _ =>
      if IsZero now || (lease <=? 0) then (s, Err ErrJobReservationInvalid) else
      match ready s ctx with
      | Ok _ =>
          match merge_sort less_or_same (eligible_records now (jobs s)) with
          | [] => (s, Err ErrJobStoreEmpty)
          | record :: _ =>
              match newJobIdentifier (env_random env) with
              | Ok token =>
                  let record := FileStoredJob
                    (with_attempts (job record) (wrap64 (Attempts (job record) + 1)))
                    token (now + lease) (failedAt record) (lastError record) in
                  let ev := FileJobStoreEvent fileJobStoreEventVersion "reserve" None
                    (ID (job record)) token (reservedUntil record) zero_time
                    (Attempts (job record)) "" zero_time in
                  match append (env_io env) s ev with
                  | (s', Ok _) =>
                      (set_jobs s' (<[ID (job record) := record]> (jobs s')),
                       Ok (reservationFromFileRecord record))
                  | (s', Err e) => (s', Err e)
                  | (s', Panicked m) => (s', Panicked m)
                  end
              | Err e => (s, Err e)
              | Panicked m => (s, Panicked m)
              end
          end
      | Err e => (s, Err e)
      | Panicked m => (s, Panicked m)
      end
  end.
Definition Reserve (env : store_env) (ctx : context) (now lease : Z)
    : option FileJobStore -> option FileJobStore * result JobReservation :=
  fun store => with_receiver ErrJobStoreUnavailable store (Reserve_locked env ctx now lease).

(** [finishReservation] past its nil checks. *)
Definition finishReservation_locked (env : store_env) (ctx : context) (reservation : JobReservation)
    (ev : fileJobStoreEvent) (apply : fileStoredJob -> fileStoredJob * bool) (s : FileJobStore)
    : FileJobStore * result unit :=
  match ctx with
  | NilContext => (s, Err ErrJobContextUnavailable)
  | Ctx _ =>
      if String.eqb (ID (res_Job reservation)) "" || String.eqb (res_Token reservation) ""
      then (s, Err ErrJobReservationInvalid) else
      match ready s ctx with
      | Ok _ =>
          match jobs s !! ID (res_Job reservation) with
          | None => (s, Err ErrJobReservationInvalid)
          | Some record =>
              if negb (String.eqb (reservationToken record) (res_Token reservation))
              then (s, Err ErrJobReservationInvalid) else
              match append (env_io env) s ev with
              | (s', Ok _) =>
                  let '(updated, keep) := apply record in
                  (set_jobs s' (if keep : bool then <[ID (job record) := updated]> (jobs s')
                                else delete (ID (job record)) (jobs s')), Ok tt)
              | (s', r) => (s', r)
              end
          end
      | r => (s, r)
      end
  end.
Definition finishReservation (env : store_env) (ctx : context) (reservation : JobReservation)
    (ev : fileJobStoreEvent) (apply : fileStoredJob -> fileStoredJob * bool)
    : option FileJobStore -> option FileJobStore * result unit :=
  fun store => with_receiver ErrJobStoreUnavailable store
    (finishReservation_locked env ctx reservation ev apply).

Definition release_event (res : JobReservation) (availableAt : Z) (error : string) : fileJobStoreEvent :=
  FileJobStoreEvent fileJobStoreEventVersion "release" None (ID (res_Job res)) (res_Token res)
    zero_time availableAt 0 error zero_time.
Definition release_apply (availableAt : Z) (error : string) (r : fileStoredJob) : fileStoredJob * bool :=
  (FileStoredJob (with_available (job r) availableAt) "" zero_time (failedAt r) error, true).
Definition Release (env : store_env) (ctx : context) (res : JobReservation) (availableAt : Z)
    (error : string) (store : option FileJobStore) : option FileJobStore * result unit :=
  if IsZero availableAt then (store, Err ErrJobReservationInvalid) else
  let error := normalizeFileJobStoreError error in
  finishReservation env ctx res (release_event res availableAt error) (release_apply availableAt error) store.

Definition complete_event (res : JobReservation) : fileJobStoreEvent :=
  FileJobStoreEvent fileJobStoreEventVersion "complete" None (ID (res_Job res)) (res_Token res)
    zero_time zero_time 0 "" zero_time.
Definition Complete (env : store_env) (ctx : context) (res : JobReservation)
    (store : option FileJobStore) : option FileJobStore * result unit :=
  finishReservation env ctx res (complete_event res) (fun r => (r, false)) store.

Definition fail_event (res : JobReservation) (at_ : Z) (error : string) : fileJobStoreEvent :=
  FileJobStoreEvent fileJobStoreEventVersion "fail" None (ID (res_Job res)) (res_Token res)
    zero_time zero_time 0 error at_.
Definition fail_apply (at_ : Z) (error : string) (r : fileStoredJob) : fileStoredJob * bool :=
  (FileStoredJob (job r) "" zero_time at_ error, true).
Definition Fail (env : store_env) (ctx : context) (res : JobReservation) (error : string)
    (store : option FileJobStore) : option FileJobStore * result unit :=
  let error := normalizeFileJobStoreError error in
  let at_ := Z.pos (env_now env) in
  finishReservation env ctx res (fail_event res at_ error) (fail_apply at_ error) store.

(** The order of [FailedJobs]. *)
Definition failed_before (a b : FailedStoredJob) : Prop :=
  failed_FailedAt a < failed_FailedAt b \/
  (failed_FailedAt a = failed_FailedAt b /\ String.le (ID (failed_Job a)) (ID (failed_Job b))).
#[export] Instance failed_before_dec a b : Decision (failed_before a b).
Proof. unfold failed_before. apply _. Defined.

Definition FailedJobs (store : option FileJobStore) : list FailedStoredJob :=
  match store with
  | None => []
  | Some s =>
      merge_sort failed_before
        ((fun r => MkFailedStoredJob (job r) (failedAt r) (lastError r)) <$>
           filter (fun r => negb (IsZero (failedAt r)) = true) (map_to_list (jobs s)).*2)
  end.

Definition RetryFailed_locked (env : store_env) (ctx : context) (id : string) (availableAt : Z)
    (s : FileJobStore) : FileJobStore * result unit :=
  match ctx with
  | NilContext => (s, Err ErrJobContextUnavailable)
  | Ctx _ =>
      if String.eqb id "" || IsZero availableAt then (s, Err ErrJobStoreConflict) else
      match ready s ctx with
      | Ok _ =>
          match jobs s !! id with
          | None => (s, Err ErrJobStoreConflict)
          | Some record =>
              if IsZero (failedAt record) then (s, Err ErrJobStoreConflict) else
              match append (env_io env) s
                      (FileJobStoreEvent fileJobStoreEventVersion "retry" None id "" zero_time
                         availableAt 0 "" zero_time) with
              | (s', Ok _) =>
                  (set_jobs s' (<[id := FileStoredJob
                      (with_available (with_attempts (job record) 0) availableAt)
                      (reservationToken record) (reservedUntil record) zero_time ""]> (jobs s')), Ok tt)
              | (s', r) => (s', r)
              end
          end
      | r => (s, r)
      end
  end.
Definition RetryFailed (env : store_env) (ctx : context) (id : string) (availableAt : Z)
    : option FileJobStore -> option FileJobStore * result unit :=
  fun store => with_receiver ErrJobStoreUnavailable store (RetryFailed_locked env ctx id availableAt).

Definition ForgetFailed_locked (env : store_env) (ctx : context) (id : string)
    (s : FileJobStore) : FileJobStore * result unit :=
  match ctx with
  | NilContext => (s, Err ErrJobContextUnavailable)
  | Ctx _ =>
      if String.eqb id "" then (s, Err ErrJobStoreConflict) else
      match ready s ctx with
      | Ok _ =>
          match jobs s !! id with
          | None => (s, Err ErrJobStoreConflict)
          | Some record =>
              if IsZero (failedAt record) then (s, Err ErrJobStoreConflict) else
              match append (env_io env) s
                      (FileJobStoreEvent fileJobStoreEventVersion "forget" None id "" zero_time
                         zero_time 0 "" zero_time) with
              | (s', Ok _) => (set_jobs s' (delete id (jobs s')), Ok tt)
              | (s', r) => (s', r)
              end
          end
      | r => (s, r)
      end
  end.
Definition ForgetFailed (env : store_env) (ctx : context) (id : string)
    : option FileJobStore -> option FileJobStore * result unit :=
  fun store => with_receiver ErrJobStoreUnavailable store (ForgetFailed_locked env ctx id).

Definition Close (close_io : option goerror) (store : option FileJobStore)
    : option FileJobStore * result unit :=
  match store with
  | None => (None, Ok tt)
  | Some s =>
      if closed s then (Some s, Ok tt) else
      (Some (MkFileJobStore (path s) (maxJobs s) (maxPayloadBytes s) (file s) (jobs s) true),
       match close_io with
       | Some err => Err (errorf2 ErrJobStoreOperationFailed "close log" err)
       | None => Ok tt
       end)
  end.

(** ** Replay *)

Definition replayReservation (m : gmap string fileStoredJob) (e : fileJobStoreEvent)
    : option fileStoredJob :=
  match m !! ev_ID e with
  | Some record =>
      if String.eqb (ev_Token e) "" || negb (String.eqb (reservationToken record) (ev_Token e))
      then None else Some record
  | None => None
  end.

Definition applyEvent (maxPayload : Z) (m : gmap string fileStoredJob) (e : fileJobStoreEvent)
    : result (gmap string fileStoredJob) :=
  let corrupt := Err ErrFileJobStoreCorrupt in
  if negb (ev_Version e =? fileJobStoreEventVersion) then corrupt
  else if String.eqb (ev_Type e) "enqueue" then
    match ev_Job e with
    | None => corrupt
    | Some p =>
        let j := stored p in
        match validateStoredJob j maxPayload with
        | Ok _ => match m !! ID j with
                  | Some _ => corrupt
                  | None => Ok (<[ID j := FileStoredJob j "" zero_time zero_time ""]> m)
                  end
        | Err err => Err (ErrWrap (error_text ErrFileJobStoreCorrupt +:+ ": " +:+ error_text err)
                            [ErrFileJobStoreCorrupt; err])
        | Panicked msg => Panicked msg
        end
    end
  else if String.eqb (ev_Type e) "reserve" then
    match m !! ev_ID e with
    | Some record =>
        if String.eqb (ev_Token e) "" || IsZero (ev_ReservedUntil e) ||
           negb (ev_Attempts e =? wrap64 (Attempts (job record) + 1)) then corrupt
        else Ok (<[ev_ID e := FileStoredJob (with_attempts (job record) (ev_Attempts e)) (ev_Token e)
                     (ev_ReservedUntil e) (failedAt record) (lastError record)]> m)
    | None => corrupt
    end
  else if String.eqb (ev_Type e) "release" then
    match replayReservation m e with
    | Some record =>
        if IsZero (ev_AvailableAt e) then corrupt
        else Ok (<[ev_ID e := FileStoredJob (with_available (job record) (ev_AvailableAt e)) ""
                     zero_time (failedAt record) (ev_Error e)]> m)
    | None => corrupt
    end
  else if String.eqb (ev_Type e) "complete" then
    match replayReservation m e with
    | Some _ => Ok (delete (ev_ID e) m)
    | None => corrupt
    end
  else if String.eqb (ev_Type e) "fail" then
    match replayReservation m e with
    | Some record =>
        if IsZero (ev_FailedAt e) then corrupt
        else Ok (<[ev_ID e := FileStoredJob (job record) "" zero_time (ev_FailedAt e) (ev_Error e)]> m)
    | None => corrupt
    end
  else if String.eqb (ev_Type e) "retry" then
    match m !! ev_ID e with
    | Some record =>
        if IsZero (failedAt record) || IsZero (ev_AvailableAt e) then corrupt
        else Ok (<[ev_ID e := FileStoredJob
                     (with_available (with_attempts (job record) 0) (ev_AvailableAt e))
                     (reservationToken record) (reservedUntil record) zero_time ""]> m)
    | None => corrupt
    end
  else if String.eqb (ev_Type e) "forget" then
    match m !! ev_ID e with
    | Some record => if IsZero (failedAt record) then corrupt else Ok (delete (ev_ID e) m)
    | None => corrupt
    end
  else corrupt.

(** [replay]: the lines in order, then a torn tail is truncated away. *)
Definition replay (io : open_env) (s : FileJobStore) : result FileJobStore :=
  let* (m, f) := replay_log unmarshal_event (applyEvent (maxPayloadBytes s))
                   (maxPayloadBytes s + fileJobStoreEventOverhead)
                   ErrJobStoreOperationFailed ErrFileJobStoreCorrupt io (jobs s) (file s) in
  Ok (set_file (set_jobs s m) f).

Record FileJobStoreOptions := MkFileJobStoreOptions {
  opt_Path : string; opt_MaxJobs : Z; opt_MaxPayloadBytes : Z
}.

(** [filepath.Abs] is the argument [abs]. *)
Definition normalizeFileJobStoreOptions (abs : string -> result string) (o : FileJobStoreOptions)
    : result FileJobStoreOptions :=
  let p := TrimSpace (opt_Path o) in
  if String.eqb p "" || (opt_MaxJobs o <? 0) || (opt_MaxPayloadBytes o <? 0)
  then Err ErrInvalidFileJobStoreOptions else
  let maxJobs := if opt_MaxJobs o =? 0 then defaultFileJobStoreMaxJobs else opt_MaxJobs o in
  let maxPayload := if opt_MaxPayloadBytes o =? 0 then defaultFileJobStoreMaxPayloadBytes
                    else opt_MaxPayloadBytes o in
  match abs p with
  | Ok p => Ok (MkFileJobStoreOptions p maxJobs maxPayload)
  | Err err => Err (errorf2 ErrInvalidFileJobStoreOptions "path" err)
  | Panicked m => Panicked m
  end.

Definition NewFileJobStore (abs : string -> result string) (io : open_env)
    (content : log_file) (o : FileJobStoreOptions) : result FileJobStore :=
  let* o := normalizeFileJobStoreOptions abs o in
  let* _ := syscall ErrJobStoreOperationFailed "create directory" (io_mkdir io) in
  let* _ := syscall ErrJobStoreOperationFailed "open log" (io_open io) in
  let* _ := syscall ErrJobStoreOperationFailed "secure log" (io_chmod io) in
  replay io (MkFileJobStore (opt_Path o) (opt_MaxJobs o) (opt_MaxPayloadBytes o) content ∅ false).
