(* ===== verification/FileJobStoreFacts.v ===== *)
(** * The local job store is durable and implements the job store contract

    Part one: every call appends at most one event, its line is read back by the
    decoder of [JsonStruct.v], and replaying it from the state on disk gives the
    state in memory, so that reopening the log
    after any outcome of the I/O gives the memory of before or after the call.
    Part two: the store is an instance of [JobStoreLaws]. *)
From S2P Require Import Prelude GoTime GoStrings Json JsonDecode JsonStruct EventLog JobStore FileJobStore.
Open Scope Z_scope.
Open Scope go_scope.

(** ** The invariant of the records *)

Record record_ok (k : string) (r : fileStoredJob) : Prop := RecordOk {
  rec_key : ID (job r) = k;
  rec_id : validJobIdentifier k = true;
  rec_attempts : in_int64 (Attempts (job r));
  rec_failed : failedAt r <> zero_time -> reservationToken r = "";
  rec_token : ValidString (reservationToken r) = true /\ string_length (reservationToken r) <= 64
}.
Definition records_ok (m : gmap string fileStoredJob) : Prop := map_Forall record_ok m.

(** What a record is after a restart: its error text has been through JSON. *)
Definition persisted (r : fileStoredJob) : fileStoredJob :=
  FileStoredJob (job r) (reservationToken r) (reservedUntil r) (failedAt r) (sanitize (lastError r)).

(** What decoding the line of an event gives. *)
Definition decoded_payload (p : fileJobPayload) : fileJobPayload :=
  FileJobPayload (sanitize (p_ID p)) (sanitize (p_Handler p)) (compact (p_Payload p)) (p_AvailableAt p) (p_EnqueuedAt p) (p_Attempts p).
Definition decoded (e : fileJobStoreEvent) : fileJobStoreEvent :=
  FileJobStoreEvent (ev_Version e) (sanitize (ev_Type e)) (decoded_payload <$> ev_Job e)
    (sanitize (ev_ID e)) (sanitize (ev_Token e)) (ev_ReservedUntil e) (ev_AvailableAt e)
    (ev_Attempts e) (sanitize (ev_Error e)) (ev_FailedAt e).

(** ** Events fit their line *)

Definition payload_fits (max : Z) (p : fileJobPayload) : Prop :=
  string_length (p_ID p) <= 64 /\ string_length (p_Handler p) <= 1024 /\
  string_length (compact (p_Payload p)) <= max /\ in_int64 (p_Attempts p) /\
  Valid (p_Payload p) = true /\ compact (p_Payload p) = p_Payload p /\ (nesting (p_Payload p) + 2 <= max_nesting)%nat.
Definition event_fits (max : Z) (e : fileJobStoreEvent) : Prop :=
  ev_Version e = 1 /\ string_length (ev_Type e) <= 10 /\
  match ev_Job e with Some p => payload_fits max p | None => True end /\
  string_length (ev_ID e) <= 64 /\ string_length (ev_Token e) <= 64 /\
  in_int64 (ev_Attempts e) /\ string_length (ev_Error e) <= 4096.

Lemma encode_payload_length max p s :
  payload_fits max p -> encode_payload p = Some s -> string_length s <= max + 8000.
Proof.
  intros (Hid & Hh & Hp & Ha & _) H. unfold encode_payload in H.
  destruct (encode_time (p_AvailableAt p)) as [a|] eqn:E1; [|done].
  destruct (encode_time (p_EnqueuedAt p)) as [b|] eqn:E2; [|done].
  apply encode_time_length in E1, E2. cbn in H. injection H as <-.
  etrans; [apply encode_object_length|]. unfold members_length. cbn [foldr].
  pose proof (encode_string_length (p_ID p)). pose proof (encode_string_length (p_Handler p)).
  pose proof (Itoa_length _ Ha).
  pose_members.
  string_literals. lia.
Qed.

Lemma encode_event_fits max e s : 0 <= max -> event_fits max e -> encode_event e = Some s ->
  string_length s + 1 <= max + fileJobStoreEventOverhead.
Proof.
  intros Hmax (Hv & Hty & Hj & Hid & Htok & Hat & Herr) H. unfold encode_event in H.
  set (J := match ev_Job e with
            | Some p => s ← encode_payload p; Some (Some (member "job" s))
            | None => Some None
            end) in H.
  assert (forall j, J = Some j -> match j with Some s => string_length s | None => 0 end <= max + 8100) as HJ.
  { subst J. intros j. destruct (ev_Job e) as [p|]; [|intros [= <-]; lia].
    destruct (encode_payload p) as [q|] eqn:Eq; [|done]. cbn. intros [= <-].
    apply (encode_payload_length max) in Eq; [|done]. pose proof (member_length "job" q) as Hm.
    string_literals. lia. }
  destruct J as [j|]; [|done]. specialize (HJ _ eq_refl).
  destruct (encode_time (ev_ReservedUntil e)) as [t1|] eqn:E1; [|done].
  destruct (encode_time (ev_AvailableAt e)) as [t2|] eqn:E2; [|done].
  destruct (encode_time (ev_FailedAt e)) as [t3|] eqn:E3; [|done].
  apply encode_time_length in E1, E2, E3. cbn in H. injection H as <-.
  pose proof (Itoa_length (ev_Version e) ltac:(rewrite Hv; by vm_compute)) as HiV.
  pose proof (Itoa_length _ Hat) as HiA.
  pose proof (encode_string_length (ev_Type e)).
  match goal with |- string_length (encode_object ?ms) + 1 <= _ =>
    pose proof (encode_object_length ms) as Ho end.
  pose_lists.
  change (members_length []) with 0 in *.
  pose proof (omit_empty_length "id" (ev_ID e)). pose proof (omit_empty_length "token" (ev_Token e)).
  pose proof (omit_empty_length "error" (ev_Error e)).
  assert (match (if ev_Attempts e =? 0 then None else Some (member "attempts" (Itoa (ev_Attempts e))))
          with Some s => string_length s | None => 0 end <= 80).
  { destruct (_ =? 0); [lia|]. pose proof (member_length "attempts" (Itoa (ev_Attempts e))) as Hm.
    string_literals. lia. }
  cbv beta iota in *. pose_members.
  string_literals. unfold fileJobStoreEventOverhead. lia.
Qed.

(** ** Lines are read back *)

Definition payload_members (p : fileJobPayload) (a e : string) : list (string * option string) := [
  ("id", Some (encode_string (p_ID p))); ("handler", Some (encode_string (p_Handler p))); ("payload", Some (compact (p_Payload p)));
  ("availableAt", Some a); ("enqueuedAt", Some e); ("attempts", Some (Itoa (p_Attempts p)))].
Definition event_members (e : fileJobStoreEvent) (j : option string) (ru aa fa : string) : list (string * option string) := [
  ("version", Some (Itoa (ev_Version e))); ("type", Some (encode_string (ev_Type e))); ("job", j);
  ("id", optional (ev_ID e)); ("token", optional (ev_Token e)); ("reservedUntil", Some ru); ("availableAt", Some aa);
  ("attempts", if ev_Attempts e =? 0 then None else Some (Itoa (ev_Attempts e))); ("error", optional (ev_Error e)); ("failedAt", Some fa)].
#[local] Opaque max_nesting.
Lemma payload_passes max p a e : payload_fits max p -> encode_time (p_AvailableAt p) = Some a -> encode_time (p_EnqueuedAt p) = Some e ->
  Forall (fun m => passes (nesting (p_Payload p)) m.2 /\ ValidString m.1 = true) (present (payload_members p a e)).
Proof.
  intros (_ & _ & _ & _ & Hv & Hc & Hn) Ea Ee. unfold payload_members. passing (nesting (p_Payload p)).
  rewrite Hc. apply compacted_passes; [done|done|done|lia].
Qed.
Lemma encode_payload_line max p s : payload_fits max p -> encode_payload p = Some s ->
  passes (S (nesting (p_Payload p))) s /\ kind_of s = KObject /\
  forall saved, decode_struct payload_fields "framework.fileJobPayload" s (zero_payload, saved) = Ok (decoded_payload p, saved).
Proof.
  intros Hfit H. pose proof Hfit as (_ & _ & _ & Hat & _ & _ & Hn). unfold encode_payload in H.
  destruct (encode_time (p_AvailableAt p)) as [a|] eqn:Ea; [|done]. destruct (encode_time (p_EnqueuedAt p)) as [e|] eqn:Ee; [|done].
  pose proof (payload_passes _ _ _ _ Hfit Ea Ee) as Hp. injection H as H.
  change (encode_object ((fun m : string * option string => (fun v => member m.1 v) <$> m.2) <$> payload_members p a e) = s) in H.
  rewrite encode_object_present in H. subst s. split; [|split; [done|]].
  - apply passes_object; [|lia]. eapply Forall_impl; [exact Hp|]. by intros m [? _].
  - intros saved. rewrite (decode_object _ _ (nesting (p_Payload p))) by (lia || done). unfold payload_members.
    do 6 read_member. reflexivity.
Qed.

(** The line of an event that fits is read back as the event. *)
Lemma event_written max e : 0 <= max -> event_fits max e ->
  writes encode_event unmarshal_event (max + fileJobStoreEventOverhead) e (decoded e).
Proof.
  intros Hmax Hfit line H. pose proof (encode_event_fits max e line Hmax Hfit H) as Hlen.
  destruct Hfit as (Hv & _ & Hj & _ & _ & Hat & _). unfold encode_event in H.
  set (J := match ev_Job e with Some p => s ← encode_payload p; Some (Some (member "job" s)) | None => Some None end) in H.
  assert (exists d, (S d <= max_nesting)%nat /\ forall j, J = Some j -> exists v, j = (fun v => member "job" v) <$> v /\
    match v with Some v => passes d v /\ kind_of v = KObject | None => True end /\
    forall x, ev_Job x.1 = None -> match v with
      | Some v => decode_pointer payload_fields "framework.fileJobPayload" zero_payload ev_Job with_ev_Job v x
      | None => Ok x end = Ok (with_ev_Job (decoded_payload <$> ev_Job e) x.1, x.2)) as (d & Hd & HJ).
  { subst J. destruct (ev_Job e) as [p|].
    - exists (S (nesting (p_Payload p))). split; [destruct Hj as (_ & _ & _ & _ & _ & _ & Hn); lia|]. intros j HJ.
      destruct (encode_payload p) as [s|] eqn:Es; [|done]. destruct (encode_payload_line max p s Hj Es) as (Hp & Hk & Hdec).
      injection HJ as <-. exists (Some s). split; [done|]. split; [done|]. intros x Hx. unfold decode_pointer. rewrite Hk, Hx. cbn [default]. by rewrite Hdec.
    - exists O. split; [apply Nat.leb_le; vm_compute; reflexivity|]. intros j [= <-]. exists None. split; [done|]. split; [done|].
      intros [[] saved] Hx. cbn in Hx. by subst. }
  destruct J as [j|]; [|done]. destruct (HJ j eq_refl) as (v & -> & Hpass & Hdec).
  destruct (encode_time (ev_ReservedUntil e)) as [t1|] eqn:E1; [|done].
  destruct (encode_time (ev_AvailableAt e)) as [t2|] eqn:E2; [|done].
  destruct (encode_time (ev_FailedAt e)) as [t3|] eqn:E3; [|done]. injection H as H.
  assert (line = object_text (present (event_members e v t1 t2 t3))) as ->.
  { rewrite <- H, <- encode_object_present. rewrite !omit_empty_optional. cbn. by destruct (ev_Attempts e =? 0). }
  assert (Forall (fun m => passes d m.2 /\ ValidString m.1 = true) (present (event_members e v t1 t2 t3))) as Hall.
  { unfold event_members. passing d. by destruct v as [v|]; [destruct Hpass|]. }
  split; [|split; [done|]].
  - change (present (event_members e v t1 t2 t3)) with (("version", Itoa (ev_Version e)) :: present (tail (event_members e v t1 t2 t3))) in *.
    apply (object_line d); [|lia]. eapply Forall_impl; [exact Hall|]. by intros m [? _].
  - unfold unmarshal_event, unmarshal_struct. change (skip_space (object_text ?l)) with (object_text l). rewrite (decode_object _ _ d) by (done || lia).
    assert (in_int64 (ev_Version e)) as HV by (by rewrite Hv).
    enough (decode_members event_fields (present (event_members e v t1 t2 t3)) (zero_event, None) = Ok (decoded e, None)) as -> by done.
    unfold event_members. do 2 read_member. etransitivity; [eapply decode_present; [reflexivity|apply Hdec; reflexivity]|].
    do 7 read_member. reflexivity.
Qed.

(** ** The effect of a call

    Whatever the outcome of the I/O, a call either leaves the log and the
    records alone or appends one event, which replays to the records it keeps
    when the append succeeds. *)
Definition effect (s : FileJobStore) (op : append_io -> FileJobStore) : Prop :=
  (forall io, maxPayloadBytes (op io) = maxPayloadBytes s) /\
  EventLog.effect encode_event unmarshal_event (applyEvent (maxPayloadBytes s))
    (maxPayloadBytes s + fileJobStoreEventOverhead) ErrJobStoreOperationFailed
    (fmap persisted) records_ok (file s) (jobs s) (fun io => (file (op io), jobs (op io))).

Ltac no_effect := split; [done|by apply EffectNone].

(** The shape of every operation: append the event, then update the map. *)
Lemma effect_append s op ev (update : gmap string fileStoredJob -> gmap string fileStoredJob) :
  applyEvent (maxPayloadBytes s) (persisted <$> jobs s) (decoded ev) = Ok (persisted <$> update (jobs s)) ->
  0 <= maxPayloadBytes s -> event_fits (maxPayloadBytes s) ev ->
  records_ok (update (jobs s)) ->
  (forall io, op io = let '(s', r) := append io s ev in
                      match r with Ok _ => set_jobs s' (update (jobs s')) | _ => s' end) ->
  effect s op.
Proof.
  intros Ha Hmax Hfit Hok Hop. split.
  - intros io. rewrite Hop. unfold append. by destruct (append_event _ _ _ _ _) as [f [| |]].
  - apply (EffectEvent _ _ _ _ _ _ _ _ _ _ ev (decoded ev) (update (jobs s))); [by apply event_written|done|done|].
    intros io. rewrite Hop. unfold append. by destruct (append_event _ _ _ _ _) as [f [| |]].
Qed.

Ltac effect_event ev update :=
  apply (effect_append _ _ ev update);
  [|done| | |intros io; cbn [env_io]; destruct (append io _ _) as [? [| |]]; try done].

(** Applies the decoded event up to the strings it carries. *)
#[local] Opaque sanitize compact.
Ltac replay_event type_ :=
  unfold applyEvent, decoded, decoded_payload, stored, replayReservation; cbn;
  rewrite (sanitize_valid type_ eq_refl), ?(sanitize_valid "" eq_refl); cbn.

(** The identifiers and tokens the store makes survive JSON. *)
Lemma sanitize_identifier k : validJobIdentifier k = true -> sanitize k = k /\ string_length k = 64.
Proof.
  unfold validJobIdentifier. intros H. bool_prop. split; [|done].
  by apply sanitize_valid, lower_hex_valid.
Qed.

Lemma newJobIdentifier_ok random token : newJobIdentifier random = Ok token ->
  validJobIdentifier token = true /\ ValidString token = true /\ string_length token = 64.
Proof.
  unfold newJobIdentifier. intros H. destruct random as [f| |]; try done.
  assert (hex_encode (map f (seq 0 jobIdentifierBytes)) = token) as <- by congruence.
  destruct (hex_encode_spec (map f (seq 0 jobIdentifierBytes))) as [Hl Hf].
  rewrite length_map, length_seq in Hl. unfold validJobIdentifier.
  rewrite Hl, Hf. split; [done|]. split; [by apply lower_hex_valid|done].
Qed.

Lemma validateStoredJob_ok j max : validateStoredJob j max = Ok tt ->
  validJobIdentifier (ID j) = true /\ string_length (Handler j) <= 1024 /\
  string_length (Payload j) <= max /\ Valid (Payload j) = true.
Proof.
  unfold validateStoredJob. intros H. destruct (_ || _) eqn:E; [done|]. bool_prop.
  unfold fileJobStoreMaxHandlerBytes in *. split; [done|]. split; [lia|]. split; [lia|done].
Qed.

Lemma normalizeFileJobStoreError_length e : string_length (normalizeFileJobStoreError e) <= 4096.
Proof.
  unfold normalizeFileJobStoreError, fileJobStoreMaxErrorBytes.
  destruct (Z.leb_spec (string_length e) (4 * 1024)); [lia|].
  etrans; [apply shorten_to_valid_length|]. by apply take_bytes_length.
Qed.

(** What the queue enqueues: the payload is the output of [json.Marshal], the
handler's name well-formed UTF-8, the attempts an [int].  The decoder refuses
texts nested deeper than [max_nesting], and the event puts two objects around
the payload. *)
Definition job_canonical (j : StoredJob) : Prop :=
  compact (Payload j) = Payload j /\ ValidString (Handler j) = true /\ in_int64 (Attempts j) /\
  (nesting (Payload j) + 2 <= max_nesting)%nat.

Lemma persisted_lookup (m : gmap string fileStoredJob) k : (persisted <$> m) !! k = persisted <$> m !! k.
Proof. apply lookup_fmap. Qed.

Lemma Enqueue_effect random now ctx j s :
  0 <= maxPayloadBytes s -> records_ok (jobs s) -> job_canonical j ->
  effect s (fun io => (Enqueue_locked (StoreEnv io random now) ctx j s).1).
Proof.
  intros Hmax Hrec (Hc & Hh & Hat & Hn). unfold Enqueue_locked. destruct ctx as [|err]; [no_effect|].
  destruct (validateStoredJob j (maxPayloadBytes s)) as [[]| |] eqn:Hv; [|no_effect..].
  destruct (ready s (Ctx err)); [|no_effect..].
  destruct (_ <=? _); [no_effect|]. destruct (jobs s !! ID j) eqn:Hk; [no_effect|].
  pose proof (validateStoredJob_ok _ _ Hv) as (Hid & Hlh & Hlp & Hvp).
  destruct (sanitize_identifier _ Hid) as [Hsid Hlid].
  effect_event (FileJobStoreEvent fileJobStoreEventVersion "enqueue"
      (Some (fileJobPayloadFromStored j)) "" "" zero_time zero_time 0 "" zero_time)
    (fun m : gmap string fileStoredJob => <[ID j := FileStoredJob j "" zero_time zero_time ""]> m).
  - replay_event "enqueue". rewrite Hsid, Hc, (sanitize_valid _ Hh).
    replace (MkStoredJob _ _ _ _ _ _) with j by (by destruct j).
    rewrite Hv, lookup_fmap, Hk. cbn. by rewrite fmap_insert.
  - unfold event_fits, payload_fits, fileJobStoreEventVersion. cbn. rewrite Hlid, Hc.
    repeat split; try lia; try done; apply Hat.
  - apply map_Forall_insert_2; [|done]. by constructor.
Qed.

(** Any element the selection can return is a record of the store. *)
Lemma eligible_records_spec now m r :
  r ∈ eligible_records now m <-> exists k, m !! k = Some r /\ eligible now r = true.
Proof.
  unfold eligible_records. rewrite list_elem_of_filter, list_elem_of_fmap. split.
  - intros (He & [k r'] & -> & Hm). apply elem_of_map_to_list in Hm. eauto.
  - intros (k & Hk & He). split; [done|]. exists (k, r). split; [done|]. by apply elem_of_map_to_list.
Qed.

Lemma Reserve_effect random now ctx t lease s :
  0 <= maxPayloadBytes s -> records_ok (jobs s) -> 0 < t ->
  effect s (fun io => (Reserve_locked (StoreEnv io random now) ctx t lease s).1).
Proof.
  intros Hmax Hrec Ht. unfold Reserve_locked. destruct ctx as [|err]; [no_effect|].
  destruct (IsZero t || (lease <=? 0)) eqn:Hz; [no_effect|].
  destruct (ready s (Ctx err)); [|no_effect..].
  destruct (merge_sort _ _) as [|r rest] eqn:Em; [no_effect|]. cbn [env_random].
  destruct (newJobIdentifier random) as [token| |] eqn:Er; [|no_effect..].
  apply newJobIdentifier_ok in Er as (Hvt & Hvs & Hlt).
  assert (r ∈ eligible_records t (jobs s)) as Hin.
  { rewrite <- (merge_sort_Permutation less_or_same), Em. apply list_elem_of_here. }
  apply eligible_records_spec in Hin as (k & Hk & He).
  pose proof (Hrec _ _ Hk) as [Hkey Hid Hat Hf Htok]. cbn [job with_attempts ID Attempts reservedUntil].
  destruct (sanitize_identifier _ Hid) as [Hsid Hlid].
  assert (failedAt r = zero_time) as Hf0.
  { unfold eligible in He. bool_prop. unfold IsZero in *. by bool_prop. }
  set (rec := FileStoredJob _ _ _ _ _).
  effect_event (FileJobStoreEvent fileJobStoreEventVersion "reserve" None (ID (job r)) token
                  (t + lease) zero_time (wrap64 (Attempts (job r) + 1)) "" zero_time)
    (fun m : gmap string fileStoredJob => <[ID (job r) := rec]> m).
  - replay_event "reserve". rewrite Hkey, Hsid, (sanitize_valid token Hvs), lookup_fmap, Hk. cbn.
    destruct (String.eqb_spec token ""); [by subst|]. unfold IsZero, zero_time in *. bool_prop.
    destruct (Z.eqb_spec (t + lease) 0); [lia|]. rewrite Z.eqb_refl. cbn. by rewrite fmap_insert.
  - unfold event_fits. cbn. rewrite Hkey, Hlid, Hlt. repeat split; try done; try lia; apply wrap64_range.
  - apply map_Forall_insert_2; [|done]. subst rec.
    constructor; cbn; [done|by rewrite Hkey|apply wrap64_range|done|split; [done|lia]].
Qed.

(** The three ways to finish a reservation, through [finishReservation]. *)
Lemma finish_effect random now ctx res ev (apply : fileStoredJob -> fileStoredJob * bool) s :
  0 <= maxPayloadBytes s -> records_ok (jobs s) ->
  (forall r, jobs s !! ID (res_Job res) = Some r -> reservationToken r = res_Token res ->
     reservationToken r <> "" ->
     event_fits (maxPayloadBytes s) ev /\
     applyEvent (maxPayloadBytes s) (persisted <$> jobs s) (decoded ev) =
       Ok (persisted <$> ((if (apply r).2 then <[ID (job r) := (apply r).1]> (jobs s)
                           else delete (ID (job r)) (jobs s)) : gmap string fileStoredJob)) /\
     ((apply r).2 = true -> record_ok (ID (job r)) (apply r).1)) ->
  effect s (fun io => (finishReservation_locked (StoreEnv io random now) ctx res ev apply s).1).
Proof.
  intros Hmax Hrec Hev. unfold finishReservation_locked. destruct ctx as [|err]; [no_effect|].
  destruct (_ || _) eqn:Hne; [no_effect|]. destruct (ready s (Ctx err)); [|no_effect..].
  destruct (jobs s !! _) as [r|] eqn:Hk; [|no_effect].
  destruct (negb _) eqn:Htok; [no_effect|]. bool_prop.
  destruct (Hev r eq_refl) as (Hfit & Happ & Hok); [done|congruence|].
  effect_event ev (fun m : gmap string fileStoredJob =>
    if (apply r).2 then <[ID (job r) := (apply r).1]> m else delete (ID (job r)) m).
  - exact Happ.
  - exact Hfit.
  - destruct (apply r) as [r' []]; cbn in *; [apply map_Forall_insert_2; auto|].
    by apply map_Forall_delete.
  - by destruct (apply r).
Qed.

Lemma job_effect_ext s op op' : (forall io, op io = op' io) -> effect s op -> effect s op'.
Proof.
  intros Heq [Hm He]. split; [intros io; by rewrite <- Heq|].
  apply (EventLog.effect_ext _ _ _ _ _ _ _ _ _ _ _ (fun io => f_equal2 pair (f_equal file (Heq io)) (f_equal jobs (Heq io))) He).
Qed.

Lemma finish_default random now ctx res ev apply s io :
  (finishReservation_locked (StoreEnv io random now) ctx res ev apply s).1 =
  default s (finishReservation (StoreEnv io random now) ctx res ev apply (Some s)).1.
Proof. unfold finishReservation, with_receiver. by destruct (finishReservation_locked _ _ _ _ _ _). Qed.

Lemma finish_record s k r : records_ok (jobs s) -> jobs s !! k = Some r ->
  ID (job r) = k /\ sanitize k = k /\ string_length k = 64 /\
  sanitize (reservationToken r) = reservationToken r /\ string_length (reservationToken r) <= 64.
Proof.
  intros Hrec Hk. destruct (Hrec _ _ Hk) as [Hkey Hid _ _ [Htok Hl]].
  destruct (sanitize_identifier _ Hid). by rewrite (sanitize_valid _ Htok).
Qed.

Lemma Release_effect random now ctx res t error s :
  0 <= maxPayloadBytes s -> records_ok (jobs s) ->
  effect s (fun io => default s (Release (StoreEnv io random now) ctx res t error (Some s)).1).
Proof.
  intros Hmax Hrec. unfold Release. destruct (IsZero t) eqn:Hz; [no_effect|].
  set (e := normalizeFileJobStoreError error).
  assert (string_length e <= 4096) as He by apply normalizeFileJobStoreError_length. clearbody e.
  apply (job_effect_ext _ _ _ (finish_default _ _ _ _ _ _ _)).
  apply finish_effect; [done..|]. intros r Hk Htok Hne.
  destruct (finish_record _ _ _ Hrec Hk) as (Hkey & Hsid & Hlid & Hst & Hlt). rewrite Htok in *.
  split; [unfold event_fits; cbn; rewrite Hlid; repeat split; try done; lia|].
  split.
  - replay_event "release". rewrite Hsid, Hst, lookup_fmap, Hk. cbn. rewrite Htok, String.eqb_refl.
    destruct (String.eqb_spec (res_Token res) ""); [done|]. cbn. rewrite Hz. by rewrite fmap_insert, Hkey.
  - intros _. destruct (Hrec _ _ Hk). constructor; cbn; try done. by rewrite Hkey.
Qed.

Lemma Complete_effect random now ctx res s :
  0 <= maxPayloadBytes s -> records_ok (jobs s) ->
  effect s (fun io => default s (Complete (StoreEnv io random now) ctx res (Some s)).1).
Proof.
  intros Hmax Hrec. unfold Complete. apply (job_effect_ext _ _ _ (finish_default _ _ _ _ _ _ _)).
  apply finish_effect; [done..|]. intros r Hk Htok Hne.
  destruct (finish_record _ _ _ Hrec Hk) as (Hkey & Hsid & Hlid & Hst & Hlt). rewrite Htok in *.
  split; [unfold event_fits; cbn; rewrite Hlid; repeat split; try done; lia|].
  split; [|done]. replay_event "complete". rewrite Hsid, Hst, lookup_fmap, Hk. cbn.
  rewrite Htok, String.eqb_refl. destruct (String.eqb_spec (res_Token res) ""); [done|]. cbn.
  by rewrite fmap_delete, Hkey.
Qed.

Lemma Fail_effect random now ctx res error s :
  0 <= maxPayloadBytes s -> records_ok (jobs s) ->
  effect s (fun io => default s (Fail (StoreEnv io random now) ctx res error (Some s)).1).
Proof.
  intros Hmax Hrec. unfold Fail. cbn [env_now].
  set (e := normalizeFileJobStoreError error).
  assert (string_length e <= 4096) as He by apply normalizeFileJobStoreError_length. clearbody e.
  apply (job_effect_ext _ _ _ (finish_default _ _ _ _ _ _ _)).
  apply finish_effect; [done..|]. intros r Hk Htok Hne.
  destruct (finish_record _ _ _ Hrec Hk) as (Hkey & Hsid & Hlid & Hst & Hlt). rewrite Htok in *.
  split; [unfold event_fits; cbn; rewrite Hlid; repeat split; try done; lia|].
  split.
  - replay_event "fail". rewrite Hsid, Hst, lookup_fmap, Hk. cbn. rewrite Htok, String.eqb_refl.
    destruct (String.eqb_spec (res_Token res) ""); [done|]. cbn. by rewrite fmap_insert, Hkey.
  - intros _. destruct (Hrec _ _ Hk). constructor; cbn; try done. by rewrite Hkey.
Qed.

Lemma RetryFailed_effect random now ctx id t s :
  0 <= maxPayloadBytes s -> records_ok (jobs s) ->
  effect s (fun io => (RetryFailed_locked (StoreEnv io random now) ctx id t s).1).
Proof.
  intros Hmax Hrec. unfold RetryFailed_locked. destruct ctx as [|err]; [no_effect|].
  destruct (_ || IsZero t) eqn:Hz; [no_effect|]. destruct (ready s (Ctx err)); [|no_effect..].
  destruct (jobs s !! id) as [r|] eqn:Hk; [|no_effect]. destruct (IsZero (failedAt r)) eqn:Hf; [no_effect|].
  destruct (finish_record _ _ _ Hrec Hk) as (Hkey & Hsid & Hlid & Hst & Hlt). bool_prop.
  effect_event (FileJobStoreEvent fileJobStoreEventVersion "retry" None id "" zero_time t 0 "" zero_time)
    (fun m : gmap string fileStoredJob => <[id := FileStoredJob
       (with_available (with_attempts (job r) 0) t) (reservationToken r) (reservedUntil r) zero_time ""]> m).
  - replay_event "retry". rewrite Hsid, lookup_fmap, Hk. cbn. rewrite Hf.
    match goal with H : IsZero t = false |- _ => rewrite H end. cbn. by rewrite fmap_insert.
  - unfold event_fits. cbn. rewrite Hlid. repeat split; try done; lia.
  - apply map_Forall_insert_2; [|done]. destruct (Hrec _ _ Hk). by constructor.
Qed.

Lemma ForgetFailed_effect random now ctx id s :
  0 <= maxPayloadBytes s -> records_ok (jobs s) ->
  effect s (fun io => (ForgetFailed_locked (StoreEnv io random now) ctx id s).1).
Proof.
  intros Hmax Hrec. unfold ForgetFailed_locked. destruct ctx as [|err]; [no_effect|].
  destruct (_ =? _)%string eqn:Hz; [no_effect|]. destruct (ready s (Ctx err)); [|no_effect..].
  destruct (jobs s !! id) as [r|] eqn:Hk; [|no_effect]. destruct (IsZero (failedAt r)) eqn:Hf; [no_effect|].
  destruct (finish_record _ _ _ Hrec Hk) as (Hkey & Hsid & Hlid & Hst & Hlt).
  effect_event (FileJobStoreEvent fileJobStoreEventVersion "forget" None id "" zero_time zero_time 0 "" zero_time)
    (fun m : gmap string fileStoredJob => delete id m).
  - replay_event "forget". rewrite Hsid, lookup_fmap, Hk. cbn. rewrite Hf. by rewrite fmap_delete.
  - unfold event_fits. cbn. rewrite Hlid. repeat split; try done; lia.
  - by apply map_Forall_delete.
Qed.

(** ** Sessions: calls, crashes and restarts *)

Inductive call :=
| CallEnqueue (ctx : context) (j : StoredJob)
| CallReserve (ctx : context) (t lease : Z)
| CallRelease (ctx : context) (res : JobReservation) (t : Z) (error : string)
| CallComplete (ctx : context) (res : JobReservation)
| CallFail (ctx : context) (res : JobReservation) (error : string)
| CallRetryFailed (ctx : context) (id : string) (t : Z)
| CallForgetFailed (ctx : context) (id : string)
| CallClose (io : option goerror).

Definition call_ok (c : call) : Prop :=
  match c with
  | CallEnqueue _ j => job_canonical j
  | CallReserve _ t _ => 0 < t
  | _ => True
  end.

Definition perform (env : store_env) (c : call) (s : FileJobStore) : FileJobStore :=
  default s
    match c with
    | CallEnqueue ctx j => (Enqueue env ctx j (Some s)).1
    | CallReserve ctx t lease => (Reserve env ctx t lease (Some s)).1
    | CallRelease ctx res t error => (Release env ctx res t error (Some s)).1
    | CallComplete ctx res => (Complete env ctx res (Some s)).1
    | CallFail ctx res error => (Fail env ctx res error (Some s)).1
    | CallRetryFailed ctx id t => (RetryFailed env ctx id t (Some s)).1
    | CallForgetFailed ctx id => (ForgetFailed env ctx id (Some s)).1
    | CallClose io => (Close io (Some s)).1
    end.

(** A store opened on an empty file, after calls whose appends succeeded, and
    restarts after a call that met any I/O outcome. *)
Inductive session (abs : string -> result string) (o : FileJobStoreOptions) : FileJobStore -> Prop :=
| session_new s : NewFileJobStore abs io_fine (LogFile [] EmptyString) o = Ok s -> session abs o s
| session_call s c random now : session abs o s -> call_ok c ->
    session abs o (perform (StoreEnv AppendOk random now) c s)
| session_restart s c env s' : session abs o s -> call_ok c ->
    NewFileJobStore abs io_fine (file (perform env c s)) o = Ok s' -> session abs o s'.

Lemma default_locked {A} (op : FileJobStore -> FileJobStore * result A) s :
  (op s).1 = default s (with_receiver ErrJobStoreUnavailable (Some s) op).1.
Proof. cbn. by destruct (op s). Qed.

Lemma perform_effect random now c s :
  0 <= maxPayloadBytes s -> records_ok (jobs s) -> call_ok c ->
  effect s (fun io => perform (StoreEnv io random now) c s).
Proof.
  intros Hmax Hrec Hc. unfold perform, Enqueue, Reserve, RetryFailed, ForgetFailed.
  destruct c as [ctx j|ctx t lease|ctx res t error|ctx res|ctx res error|ctx id t|ctx id|cio].
  - apply (job_effect_ext _ _ _ (fun io => default_locked (Enqueue_locked (StoreEnv io random now) ctx j) s)).
    by apply Enqueue_effect.
  - apply (job_effect_ext _ _ _ (fun io => default_locked (Reserve_locked (StoreEnv io random now) ctx t lease) s)).
    by apply Reserve_effect.
  - by apply Release_effect.
  - by apply Complete_effect.
  - by apply Fail_effect.
  - apply (job_effect_ext _ _ _ (fun io => default_locked (RetryFailed_locked (StoreEnv io random now) ctx id t) s)).
    by apply RetryFailed_effect.
  - apply (job_effect_ext _ _ _ (fun io => default_locked (ForgetFailed_locked (StoreEnv io random now) ctx id) s)).
    by apply ForgetFailed_effect.
  - unfold Close. split; [intros io; by destruct (closed s)|].
    apply EffectNone. intros io. by destruct (closed s).
Qed.

(** What a session keeps: the log rebuilds the records. *)
Record durable (s : FileJobStore) : Prop := Durable {
  dur_limit : 0 <= maxPayloadBytes s;
  dur_records : records_ok (jobs s);
  dur_whole : log_torn (file s) = EmptyString;
  dur_log : rebuilds unmarshal_event (applyEvent (maxPayloadBytes s)) (maxPayloadBytes s + fileJobStoreEventOverhead)
              ErrFileJobStoreCorrupt ∅ (persisted <$> jobs s) (file s)
}.

(** The records a restart finds after a call with the given I/O outcome: those
    of the completed call, unless the write stopped part way. *)
Definition surviving (random : result (nat -> Z)) (now : positive) (c : call) (io : append_io)
    (s : FileJobStore) : gmap string fileStoredJob :=
  match io with
  | WriteStops _ _ => jobs s
  | _ => jobs (perform (StoreEnv AppendOk random now) c s)
  end.

Lemma perform_rebuilds random now c io s : durable s -> call_ok c ->
  let s' := perform (StoreEnv io random now) c s in
  maxPayloadBytes s' = maxPayloadBytes s /\
  records_ok (surviving random now c io s) /\
  match io with WriteStops _ _ => jobs s' = jobs s | _ => log_torn (file s') = EmptyString end /\
  rebuilds unmarshal_event (applyEvent (maxPayloadBytes s)) (maxPayloadBytes s + fileJobStoreEventOverhead)
    ErrFileJobStoreCorrupt ∅ (persisted <$> surviving random now c io s) (file s').
Proof.
  intros [Hmax Hrec Hw Hlog] Hc. destruct (perform_effect random now c s Hmax Hrec Hc) as [Hl He].
  split; [apply Hl|]. by apply (effect_rebuilds _ _ _ _ _ _ _ _ _ _ _ _ io Hw Hrec Hlog) in He.
Qed.

Definition opened (o : FileJobStoreOptions) (r : gmap string fileStoredJob * log_file)
    : FileJobStore :=
  MkFileJobStore (opt_Path o) (opt_MaxJobs o) (opt_MaxPayloadBytes o) r.2 r.1 false.

Lemma NewFileJobStore_open abs o o' io f :
  normalizeFileJobStoreOptions abs o = Ok o' ->
  NewFileJobStore abs io f o =
    (let* r := open_log unmarshal_event (applyEvent (opt_MaxPayloadBytes o')) (opt_MaxPayloadBytes o' + fileJobStoreEventOverhead)
                 ErrJobStoreOperationFailed ErrFileJobStoreCorrupt io ∅ f in
     Ok (opened o' r)).
Proof.
  intros Ho. unfold NewFileJobStore, open_log, replay. rewrite Ho. cbn.
  do 3 (destruct (syscall _ _ _); [cbn|done..]). by destruct (replay_log _ _ _ _ _ _ _) as [[]| |].
Qed.

Lemma NewFileJobStore_rebuilds abs o o' m f :
  normalizeFileJobStoreOptions abs o = Ok o' ->
  rebuilds unmarshal_event (applyEvent (opt_MaxPayloadBytes o')) (opt_MaxPayloadBytes o' + fileJobStoreEventOverhead)
    ErrFileJobStoreCorrupt ∅ m f ->
  NewFileJobStore abs io_fine f o = Ok (opened o' (m, LogFile (log_lines f) EmptyString)).
Proof. intros Ho Hr. rewrite (NewFileJobStore_open _ _ _ _ _ Ho). by rewrite (open_log_rebuilds _ _ _ _ _ _ _ _ Hr). Qed.

Lemma normalize_limit abs o o' :
  normalizeFileJobStoreOptions abs o = Ok o' -> 0 <= opt_MaxPayloadBytes o'.
Proof.
  unfold normalizeFileJobStoreOptions. intros H. destruct (_ || _) eqn:E; [done|]. bool_prop.
  destruct (abs _); simplify_eq/=. unfold defaultFileJobStoreMaxPayloadBytes.
  destruct (_ =? 0); lia.
Qed.

Lemma records_persisted m : records_ok m -> records_ok (persisted <$> m).
Proof.
  intros H k r. rewrite lookup_fmap. destruct (m !! k) as [r0|] eqn:Hk; [|done]. intros [= <-].
  destruct (H _ _ Hk). by constructor.
Qed.

Lemma persisted_idemp (m : gmap string fileStoredJob) : persisted <$> (persisted <$> m) = persisted <$> m.
Proof.
  rewrite <- map_fmap_compose. apply map_fmap_ext. intros k r _.
  unfold persisted, compose. cbn. by rewrite sanitize_idemp.
Qed.

(** The invariant of a session. *)
Lemma session_durable abs o s : session abs o s ->
  durable s /\ exists o', normalizeFileJobStoreOptions abs o = Ok o' /\
    maxPayloadBytes s = opt_MaxPayloadBytes o'.
Proof.
  induction 1 as [s Hnew|s c random now _ [Hd (o' & Ho & Hlim)] Hc|s c [io random now] s' _ [Hd (o' & Ho & Hlim)] Hc Hnew].
  - destruct (normalizeFileJobStoreOptions abs o) as [o'| |] eqn:Ho; [|by unfold NewFileJobStore in Hnew; rewrite Ho in Hnew..].
    rewrite (NewFileJobStore_rebuilds abs o o' ∅ _ Ho) in Hnew by done. injection Hnew as <-.
    split; [|eauto]. pose proof (normalize_limit _ _ _ Ho). by constructor.
  - destruct (perform_rebuilds random now c AppendOk s Hd Hc) as (Hl & Hrec & Hw & Hr).
    split; [|exists o'; by rewrite Hl]. destruct Hd. constructor; rewrite ?Hl; done.
  - destruct (perform_rebuilds random now c io s Hd Hc) as (Hl & Hrec & _ & Hr).
    rewrite Hlim in Hr. rewrite (NewFileJobStore_rebuilds _ _ _ _ _ Ho Hr) in Hnew. injection Hnew as <-.
    split; [|by exists o']. pose proof (normalize_limit _ _ _ Ho).
    constructor; cbn; [done|by apply records_persisted|done|by rewrite persisted_idemp].
Qed.


(** Concrete inputs for the witnesses. *)
Module Sample.
Definition options : FileJobStoreOptions := MkFileJobStoreOptions "/var/lib/jobs.log" 2 0.
Definition id1 : string := hex_encode (repeat 17 32).
Definition id2 : string := hex_encode (repeat 34 32).
Definition random (b : Z) : result (nat -> Z) := Ok (fun _ => b).
Definition job1 : StoredJob := MkStoredJob id1 "mail" "[1,2]" 5000 4000 0.
Definition job2 : StoredJob := MkStoredJob id2 "mail" "{}" 4500 4400 0.
Definition empty : FileJobStore := MkFileJobStore "/var/lib/jobs.log" 2 (4 * 1024 * 1024) (LogFile [] EmptyString) ∅ false.
Definition env : store_env := StoreEnv AppendOk (random 51) 7000.
Definition one : FileJobStore := perform env (CallEnqueue Background job1) empty.
Definition two : FileJobStore := perform env (CallEnqueue Background job2) one.

Lemma session_empty : session Ok options empty.
Proof. by apply session_new. Qed.
Lemma session_one : session Ok options one.
Proof. apply (session_call _ _ _ _ _ _ session_empty). split; [vm_compute; reflexivity|]. split; [done|]. split; [done|apply Nat.leb_le; vm_compute; reflexivity]. Qed.
Lemma session_two : session Ok options two.
Proof. apply (session_call _ _ _ _ _ _ session_one). split; [vm_compute; reflexivity|]. split; [done|]. split; [done|apply Nat.leb_le; vm_compute; reflexivity]. Qed.
End Sample.


(** ** Carrying on after a failed append *)

(** No call takes a line away. *)
Definition grows (s s' : FileJobStore) : Prop := exists l, log_lines (file s') = log_lines (file s) ++ l.
Lemma grows_refl s : grows s s.
Proof. exists []. by rewrite app_nil_r. Qed.
Lemma append_grows io s e : grows s (append io s e).1.
Proof.
  unfold grows, append. pose proof (append_event_grows encode_event ErrJobStoreOperationFailed io (file s) e) as H. by destruct (append_event _ _ _ _ _).
Qed.
Lemma grows_locked {A} (op : FileJobStore -> FileJobStore * result A) s : grows s (op s).1 ->
  grows s (default s (with_receiver ErrJobStoreUnavailable (Some s) op).1).
Proof. by rewrite default_locked. Qed.
Ltac growing :=
  repeat match goal with
  | |- context [append ?io ?s ?e] => pose proof (append_grows io s e); destruct (append io s e) as [? [| |]]; cbn in *
  | |- grows _ (match ?x with _ => _ end).1 => destruct x; try apply grows_refl
  | |- grows _ (let '(_, _) := ?x in _).1 => destruct x
  end; done.
Lemma finish_grows env ctx res ev apply s : grows s (finishReservation_locked env ctx res ev apply s).1.
Proof. unfold finishReservation_locked. growing. Qed.
Lemma perform_grows env c s : grows s (perform env c s).
Proof.
  unfold perform, Enqueue, Reserve, Release, Complete, Fail, RetryFailed, ForgetFailed, Close, finishReservation.
  destruct c as [ctx j|ctx t lease|ctx res t error|ctx res|ctx res error|ctx id t|ctx id|cio].
  - apply grows_locked. unfold Enqueue_locked. growing.
  - apply grows_locked. unfold Reserve_locked. growing.
  - destruct (IsZero t); [apply grows_refl|]. apply grows_locked, finish_grows.
  - apply grows_locked, finish_grows.
  - apply grows_locked, finish_grows.
  - apply grows_locked. unfold RetryFailed_locked. growing.
  - apply grows_locked. unfold ForgetFailed_locked. growing.
  - destruct (closed s); [apply grows_refl|exact (grows_refl s)].
Qed.
Definition perform_all (calls : list (store_env * call)) (s : FileJobStore) : FileJobStore :=
  foldl (fun s c => perform c.1 c.2 s) s calls.
Lemma perform_all_grows calls : forall s, grows s (perform_all calls s).
Proof.
  induction calls as [|[env c] calls IH]; intros s; [apply grows_refl|].
  destruct (IH (perform env c s)) as [l El]. destruct (perform_grows env c s) as [l' El']. exists (l' ++ l).
  change (perform_all ((env, c) :: calls) s) with (perform_all calls (perform env c s)). by rewrite El, El', app_assoc.
Qed.

(** C7.  After a write that stopped part way, the store stays open and its next
    successful append puts its line behind the torn bytes.  No such line can be
    read: where the line was cut inside, there is no JSON value, and where only
    the newline is missing there are two.  From then on, whatever calls are
    made, the log never opens again, and the error is the one of a corrupt
    log. *)
Theorem append_after_failed_write_corrupts abs o s c1 n err random1 now1 c2 random2 now2 calls :
  session abs o s -> call_ok c1 -> call_ok c2 ->
  let s1 := perform (StoreEnv (WriteStops n err) random1 now1) c1 s in
  let s2 := perform (StoreEnv AppendOk random2 now2) c2 s1 in
  log_torn (file s1) <> EmptyString -> file s2 <> file s1 ->
  exists e, NewFileJobStore abs io_fine (file (perform_all calls s2)) o = Err e /\ errors_is e ErrFileJobStoreCorrupt = true.
Proof.
  intros Hs Hc1 Hc2 s1 s2 Ht Hne. destruct (session_durable _ _ _ Hs) as [Hd (o' & Ho & Hlim)].
  destruct (perform_rebuilds random1 now1 c1 (WriteStops n err) s Hd Hc1) as (Hl & Hrec & Hj & _). fold s1 in Hl, Hj. destruct Hd as [Hmax Hrec0 Hw Hlog].
  destruct (perform_effect random1 now1 c1 s Hmax Hrec0 Hc1) as [_ He1].
  destruct (perform_effect random2 now2 c2 s1 ltac:(by rewrite Hl) ltac:(by rewrite Hj) Hc2) as [_ He2]. rewrite Hl in He2.
  destruct (effect_after_torn _ _ _ _ _ ErrFileJobStoreCorrupt _ _ _ _ _ _ n err _ _ Hw Hlog He1 Ht He2 Hne) as (e & He & Hc).
  cbn [fst] in He. fold s2 in He. destruct (perform_all_grows calls s2) as [l Hlines]. exists e. split.
  - rewrite (NewFileJobStore_open _ _ _ _ _ Ho), <- Hlim. by rewrite (open_log_fails _ _ _ _ _ _ _ _ _ _ He Hlines).
  - destruct Hc as [->|[d ->]]; [done|]. unfold corrupt_with. cbn. done.
Qed.

Lemma append_after_failed_write_corrupts_witness :
  let reserve := CallReserve Background 6000 100 in
  let s1 := perform (StoreEnv (WriteStops 10 (ErrNew "disk full")) (Sample.random 51) 7000) reserve Sample.two in
  let s2 := perform (StoreEnv AppendOk (Sample.random 68) 7000) reserve s1 in
  string_length (log_torn (file s1)) = 10 /\
  exists e, NewFileJobStore Ok io_fine (file (perform_all [(Sample.env, reserve)] s2)) Sample.options = Err e /\
    errors_is e ErrFileJobStoreCorrupt = true.
Proof.
  intros reserve s1 s2. split; [vm_compute; reflexivity|].
  apply (append_after_failed_write_corrupts Ok Sample.options Sample.two reserve 10 (ErrNew "disk full") (Sample.random 51) 7000 reserve
           (Sample.random 68) 7000 [(Sample.env, reserve)]); [exact Sample.session_two|done|done|vm_compute; discriminate|vm_compute; discriminate].
Defined.
