(* ===== verification/FileJobStoreSpec.v ===== *)
(** * The local job store implements the job store contract

    The instance of [JobStoreLaws] for [FileJobStore]: the records seen as jobs
    with a status, every operation one transition of that view or none; what
    leases guarantee follows from the contract. *)
From S2P Require Import Prelude GoTime GoStrings Json EventLog JobStore FileJobStore FileJobStoreFacts.
Open Scope Z_scope.
Open Scope go_scope.

Definition status_of (r : fileStoredJob) : job_status :=
  if negb (IsZero (failedAt r)) then Failed (failedAt r) (lastError r)
  else if String.eqb (reservationToken r) "" then Waiting
  else Reserved (reservationToken r) (reservedUntil r).
Definition entry_of (r : fileStoredJob) : StoredJob * job_status := (job r, status_of r).
Definition view_of (s : option FileJobStore) : job_view :=
  match s with Some s => entry_of <$> jobs s | None => ∅ end.

Definition contract_record (k : string) (r : fileStoredJob) : Prop :=
  ID (job r) = k /\ (failedAt r <> zero_time -> reservationToken r = "").
Definition contract_ok (s : option FileJobStore) : Prop :=
  match s with Some s => map_Forall contract_record (jobs s) | None => True end.

(** A call leaves the records alone unless it succeeds. *)
Lemma append_cases io s ev : exists s' r, append io s ev = (s', r) /\ jobs s' = jobs s /\
  (forall m, r <> Panicked m).
Proof.
  unfold append. destruct (append_event _ _ _ _ _) as [f r] eqn:E. eexists _, _.
  split; [done|]. split; [done|]. intros m ->. by apply append_event_never_panics in E.
Qed.

Lemma contract_insert (m : gmap string fileStoredJob) k r : map_Forall contract_record m -> contract_record k r ->
  map_Forall contract_record (<[k := r]> m).
Proof. intros. by apply map_Forall_insert_2. Qed.

Lemma view_lookup (s : FileJobStore) k : view_of (Some s) !! k = entry_of <$> jobs s !! k.
Proof. apply lookup_fmap. Qed.

Lemma eligible_reservable t r : eligible t r = true <-> reservable t (entry_of r).
Proof.
  unfold eligible, reservable, entry_of, status_of, After. cbn.
  destruct (IsZero (failedAt r)) eqn:Hz; cbn; [|split; [done|tauto]].
  destruct (String.eqb (reservationToken r) ""); cbn.
  - rewrite orb_false_r, negb_true_iff, Z.ltb_ge. tauto.
  - rewrite negb_true_iff, orb_false_iff, !Z.ltb_ge. tauto.
Qed.

Lemma Enqueue_contract env ctx j s s' r : contract_ok s -> Enqueue env ctx j s = (s', r) ->
  contract_ok s' /\
  match r with
  | Ok _ => view_of s !! ID j = None /\ view_of s' = <[ID j := (j, Waiting)]> (view_of s)
  | _ => view_of s' = view_of s
  end.
Proof.
  unfold Enqueue, with_receiver. destruct s as [s|]; [|by intros _ [= <- <-]]. intros Hok.
  unfold Enqueue_locked. destruct ctx as [|err]; [by intros [= <- <-]|].
  destruct (validateStoredJob j _); [|by intros [= <- <-]..].
  destruct (ready s _); [|by intros [= <- <-]..]. destruct (_ <=? _); [by intros [= <- <-]|].
  destruct (jobs s !! ID j) eqn:Hk; [by intros [= <- <-]|]. cbv zeta.
  match goal with |- context [append ?io s ?ev] =>
    destruct (append_cases io s ev) as (s1 & r1 & -> & Hj & Hp) end.
  unfold contract_ok, view_of in *.
  destruct r1 as [u|e|m]; [| |by destruct (Hp m)]; intros [= <- <-]; cbn; rewrite Hj; [|done].
  split; [by apply contract_insert|]. rewrite lookup_fmap, Hk. split; [done|].
  by rewrite fmap_insert.
Qed.

#[export] Instance less_or_same_trans : Transitive less_or_same.
Proof. intros a b c. apply job_before_trans. Qed.
#[export] Instance less_or_same_total : Total less_or_same.
Proof. intros a b. apply job_before_total. Qed.

(** The head of the sorted eligible records comes first among them all. *)
Lemma reserve_choice t (m : gmap string fileStoredJob) r rest :
  map_Forall contract_record m ->
  merge_sort less_or_same (eligible_records t m) = r :: rest ->
  m !! ID (job r) = Some r /\ eligible t r = true /\
  forall k r', m !! k = Some r' -> eligible t r' = true -> job_before (job r) (job r').
Proof.
  intros Hok E.
  assert (r ∈ eligible_records t m) as (k & Hk & He)%eligible_records_spec.
  { rewrite <- (merge_sort_Permutation less_or_same), E. apply list_elem_of_here. }
  destruct (Hok _ _ Hk) as [-> _]. split; [done|]. split; [done|].
  intros k' r' Hk' He'. apply (merge_sort_head_min less_or_same _ _ _ r' E).
  apply eligible_records_spec. eauto.
Qed.

Lemma Reserve_contract env ctx t lease s s' r :
  contract_ok s -> Reserve env ctx t lease s = (s', r) -> contract_ok s' /\
  match r with
  | Ok res =>
      exists j status, view_of s !! ID j = Some (j, status) /\ reservable t (j, status) /\
        (forall id' j' status', view_of s !! id' = Some (j', status') ->
           reservable t (j', status') -> job_before j j') /\
        res_Job res = with_attempts j (wrap64 (Attempts j + 1)) /\
        res_ReservedUntil res = t + lease /\
        view_of s' = <[ID j := (res_Job res, Reserved (res_Token res) (t + lease))]> (view_of s)
  | Err err => view_of s' = view_of s /\
      (standard_context ctx -> err = ErrJobStoreEmpty -> forall id entry, view_of s !! id = Some entry -> ~ reservable t entry)
  | Panicked _ => view_of s' = view_of s
  end.
Proof.
  unfold Reserve, with_receiver. destruct s as [s|]; [|by intros _ [= <- <-]]. intros Hok.
  unfold Reserve_locked. destruct ctx as [|err]; [by intros [= <- <-]|].
  destruct (IsZero t || _); [by intros [= <- <-]|].
  destruct (ready s _) as [|e|] eqn:Hready; [|intros [= <- <-]; split; [done|split; [done|]]|by intros [= <- <-]].
  2: { unfold ready in Hready. destruct err as [c|]; [|by destruct (closed s); simplify_eq].
       injection Hready as ->. by intros [-> | ->]. }
  destruct (merge_sort _ _) as [|rec rest] eqn:Em.
  { intros [= <- <-]. split; [done|]. split; [done|]. intros _ _ id entry Hid Hr.
    rewrite view_lookup in Hid. destruct (jobs s !! id) as [rec|] eqn:Hk; [|done]. injection Hid as <-.
    apply eligible_reservable in Hr. apply merge_sort_nil_inv in Em.
    assert (rec ∈ eligible_records t (jobs s)) as Hin by (apply eligible_records_spec; eauto).
    rewrite Em in Hin. by apply not_elem_of_nil in Hin. }
  apply (reserve_choice _ _ _ _ Hok) in Em as (Hk & He & Hmin).
  destruct (newJobIdentifier (env_random env)) as [token|e|] eqn:Er; [|intros [= <- <-]|by intros [= <- <-]].
  2: { split; [done|]. split; [done|]. intros _ ->.
       unfold newJobIdentifier in Er. destruct (env_random env); [done|by injection Er|done]. }
  apply newJobIdentifier_ok in Er as (_ & _ & Hlen). cbv zeta.
  match goal with |- context [append ?io s ?ev] =>
    destruct (append_cases io s ev) as (s1 & r1 & E & Hj & Hp) end. rewrite E.
  destruct r1 as [u|e|m]; [| |by destruct (Hp m)]; intros [= <- <-].
  - assert (IsZero (failedAt rec) = true) as Hz.
    { unfold eligible in He. apply negb_true_iff in He. by bool_prop. }
    unfold contract_ok, view_of in *. cbn. rewrite Hj.
    split; [apply contract_insert; [done|split; [done|]]; intros Hf; by apply Z.eqb_eq in Hz|].
    exists (job rec), (status_of rec).
    rewrite lookup_fmap, Hk. split; [done|]. apply eligible_reservable in He as Hr. split; [done|].
    split; [|split; [done|split; [done|]]].
    + intros id' j' st' Hid' Hr'. rewrite lookup_fmap in Hid'.
      destruct (jobs s !! id') as [rec'|] eqn:Hk'; [|done]. cbn in Hid'.
      injection Hid' as <- <-. apply (Hmin _ _ Hk'). by apply eligible_reservable.
    + rewrite fmap_insert. f_equal. unfold entry_of, status_of. cbn.
      rewrite Hz. cbn.
      destruct (String.eqb_spec token ""); [by subst|done].
  - split; [|split; [|intros _ ->]]; unfold contract_ok, view_of in *; rewrite ?Hj; try done.
    unfold append, append_event in E. destruct (encode_event _); [destruct (env_io env)|]; discriminate E.
Qed.

(** A finished reservation was the current one, and its record is replaced or
    removed. *)
Lemma finish_contract env ctx res ev (apply : fileStoredJob -> fileStoredJob * bool) s s' r :
  contract_ok s -> finishReservation env ctx res ev apply s = (s', r) ->
  match r with
  | Ok _ =>
      exists rec, from_option jobs ∅ s !! ID (res_Job res) = Some rec /\ ID (job rec) = ID (res_Job res) /\
        holds (view_of s) res /\
        from_option jobs ∅ s' = (if (apply rec).2 then <[ID (res_Job res) := (apply rec).1]> (from_option jobs ∅ s)
                          else delete (ID (res_Job res)) (from_option jobs ∅ s) : gmap string fileStoredJob)
  | _ => from_option jobs ∅ s' = from_option jobs ∅ s
  end.
Proof.
  unfold finishReservation, with_receiver. destruct s as [s|]; [|by intros _ [= <- <-]]. intros Hok.
  unfold finishReservation_locked. destruct ctx as [|err]; [by intros [= <- <-]|].
  destruct (_ || _) eqn:Hne; [by intros [= <- <-]|].
  destruct (ready s _); [|by intros [= <- <-]..].
  destruct (jobs s !! _) as [rec|] eqn:Hk; [|by intros [= <- <-]].
  destruct (negb _) eqn:Htok; [by intros [= <- <-]|]. bool_prop.
  destruct (append_cases (env_io env) s ev) as (s1 & r1 & -> & Hj & Hp).
  destruct r1 as [u|e|m]; [| |by destruct (Hp m)];
    [destruct (apply rec) as [upd keep] eqn:Ha|]; intros [= <- <-]; [|done].
  destruct (Hok _ _ Hk) as [Hid Hf]. exists rec. rewrite Ha. cbn. rewrite Hj, Hid.
  split; [done|]. split; [done|]. split; [|by destruct keep].
  exists (job rec), (reservedUntil rec). rewrite lookup_fmap, Hk. cbn. unfold entry_of, status_of.
  assert (reservationToken rec <> "") as Hn by congruence.
  destruct (IsZero (failedAt rec)) eqn:Hz; cbn.
  - destruct (String.eqb_spec (reservationToken rec) ""); [done|]. congruence.
  - apply Z.eqb_neq in Hz. by apply Hf in Hz.
Qed.

Lemma view_of_jobs s : view_of s = entry_of <$> from_option jobs ∅ s.
Proof. destruct s; cbn; [done|by rewrite fmap_empty]. Qed.
Lemma contract_ok_jobs s : contract_ok s <-> map_Forall contract_record (from_option jobs ∅ s).
Proof. destruct s; cbn; [done|]. split; [intros _; apply map_Forall_empty|done]. Qed.

(** An updated record is a transition of the view. *)
Lemma finish_update_contract env ctx res ev apply s s' r status :
  contract_ok s -> finishReservation env ctx res ev apply s = (s', r) ->
  (forall rec, ID (job rec) = ID (res_Job res) -> contract_record (ID (res_Job res)) rec ->
     (apply rec).2 = true /\ contract_record (ID (res_Job res)) (apply rec).1 /\
     (holds (view_of s) res -> IsZero (failedAt rec) = true -> entry_of (apply rec).1 = status (job rec))) ->
  contract_ok s' /\
  match r with
  | Ok _ => holds (view_of s) res /\
      exists j st, view_of s !! ID (res_Job res) = Some (j, st) /\
        view_of s' = <[ID (res_Job res) := status j]> (view_of s)
  | _ => view_of s' = view_of s
  end.
Proof.
  intros Hok Hf Hupd. apply (finish_contract _ _ _ _ _ _ _ _ Hok) in Hf.
  rewrite contract_ok_jobs, !view_of_jobs in *. destruct r as [u|e|m]; [|by rewrite Hf..].
  destruct Hf as (rec & Hk & Hid & Hh & Hj).
  destruct (Hupd rec Hid ltac:(by apply Hok)) as (Hkeep & Hrec & Hst). rewrite Hkeep in Hj.
  rewrite Hj. split; [by apply contract_insert|]. split; [done|].
  exists (job rec), (status_of rec). rewrite lookup_fmap, Hk. split; [done|].
  rewrite fmap_insert. f_equal. apply Hst; [done|].
  destruct Hh as (j & until & Hh). rewrite lookup_fmap, Hk in Hh. cbn in Hh. unfold entry_of, status_of in Hh.
  by destruct (IsZero (failedAt rec)).
Qed.

Lemma Release_contract env ctx res t error s s' r :
  contract_ok s -> Release env ctx res t error s = (s', r) -> contract_ok s' /\
  match r with
  | Ok _ => holds (view_of s) res /\ view_of s' = view_release (view_of s) (ID (res_Job res)) t
  | _ => view_of s' = view_of s
  end.
Proof.
  intros Hok. unfold Release. destruct (IsZero t); [by intros [= <- <-]|]. intros H.
  apply (finish_update_contract _ _ _ _ _ _ _ _ (fun j => (with_available j t, Waiting)) Hok) in H.
  - destruct H as [Hok' H]. split; [done|]. destruct r as [u|e|m]; [|done..].
    destruct H as (Hh & j & st & Hl & Hv). split; [done|]. unfold view_release. by rewrite Hl.
  - intros rec Hid [_ Hrec]. split; [done|]. split; [by split|]. intros _ Hz.
    unfold entry_of, status_of. cbn. by rewrite Hz.
Qed.

Lemma Fail_contract env ctx res error s s' r :
  contract_ok s -> Fail env ctx res error s = (s', r) -> contract_ok s' /\
  match r with
  | Ok _ => holds (view_of s) res /\
      view_of s' = view_fail (view_of s) (ID (res_Job res)) (Z.pos (env_now env)) (normalizeFileJobStoreError error)
  | _ => view_of s' = view_of s
  end.
Proof.
  intros Hok. unfold Fail. intros H.
  apply (finish_update_contract _ _ _ _ _ _ _ _
           (fun j => (j, Failed (Z.pos (env_now env)) (normalizeFileJobStoreError error))) Hok) in H.
  - destruct H as [Hok' H]. split; [done|]. destruct r as [u|e|m]; [|done..].
    destruct H as (Hh & j & st & Hl & Hv). split; [done|]. unfold view_fail. by rewrite Hl.
  - intros rec Hid [_ Hrec]. split; [done|]. split; [by split|]. done.
Qed.

Lemma Complete_contract env ctx res s s' r :
  contract_ok s -> Complete env ctx res s = (s', r) -> contract_ok s' /\
  match r with
  | Ok _ => holds (view_of s) res /\ view_of s' = delete (ID (res_Job res)) (view_of s)
  | _ => view_of s' = view_of s
  end.
Proof.
  intros Hok H. apply (finish_contract _ _ _ _ _ _ _ _ Hok) in H.
  rewrite contract_ok_jobs, !view_of_jobs in *. destruct r as [u|e|m]; [|by rewrite H..].
  destruct H as (rec & _ & _ & Hh & ->). cbn. rewrite fmap_delete.
  split; [by apply map_Forall_delete|done].
Qed.

#[export] Instance FileJobStore_ops : JobStore (option FileJobStore) store_env := {
  store_Enqueue := Enqueue; store_Reserve := Reserve; store_Release := Release;
  store_Complete := Complete; store_Fail := Fail
}.
#[export] Instance FileJobStore_laws : JobStoreLaws (option FileJobStore) store_env := {
  store_ok := contract_ok; store_view := view_of;
  store_failedAt e := Z.pos (env_now e); store_error := normalizeFileJobStoreError;
  store_instant t := t; store_kept j := j; kept_ID _ := eq_refl; kept_Attempts _ := eq_refl;
  Enqueue_ok := Enqueue_contract; Reserve_ok := Reserve_contract; Release_ok := Release_contract;
  Complete_ok := Complete_contract; Fail_ok := Fail_contract
}.

(** ** Examples: a failed sync, a payload that grows

    When only the sync fails the event is in the log and not in memory: the
    worker's next poll reserves again with the same attempt number, and the log
    no longer opens. *)
Example reserve_after_failed_sync_corrupts :
  let reserve := CallReserve Background 6000 100 in
  let s1 := perform (StoreEnv (SyncFails (ErrNew "EIO")) (Sample.random 51) 7000) reserve Sample.two in
  let s2 := perform (StoreEnv AppendOk (Sample.random 68) 7000) reserve s1 in
  is_ok (NewFileJobStore Ok io_fine (file s1) Sample.options) = true /\
  NewFileJobStore Ok io_fine (file s2) Sample.options = Err ErrFileJobStoreCorrupt.
Proof. split; vm_compute; reflexivity. Qed.

(** A payload within the limit whose compact form exceeds it is accepted, and
    makes the log unreadable: [<] takes six bytes there. *)
Example expanding_payload_corrupts :
  let o := MkFileJobStoreOptions "/var/lib/jobs.log" 2 8 in

  let html := quote +:+ "<<<<" +:+ quote in
  let empty := MkFileJobStore "/var/lib/jobs.log" 2 8 (LogFile [] EmptyString) ∅ false in
  let '(s, r) := Enqueue Sample.env Background (MkStoredJob Sample.id1 "mail" html 5000 4000 0) (Some empty) in
  r = Ok tt /\
  match s with
  | Some s => match NewFileJobStore Ok io_fine (file s) o with
              | Err e => errors_is e ErrFileJobStoreCorrupt = true
              | _ => False
              end
  | None => False
  end.
Proof. split; vm_compute; reflexivity. Qed.

(** ** Leases: the contract's theorems at this store *)
Definition file_reservation_leased := reservation_leased (S := option FileJobStore) (E := store_env).
Definition file_lease_kept := lease_kept (S := option FileJobStore) (E := store_env).
Definition file_lease_excludes := lease_excludes (S := option FileJobStore) (E := store_env).
Definition file_stale_stays := stale_stays (S := option FileJobStore) (E := store_env).

(** C2.  Mutual exclusion.  Once [Reserve] has handed a job out until
    [now + lease], no [Reserve] made before that instant hands it out again,
    whatever other calls are made meanwhile, short of finishing it with its own
    token; and at that time the store still holds the job as it was handed out. *)
Theorem reserved_job_is_exclusive env ctx now lease s s1 res s2 env' ctx' now' lease' s3 res' :
  contract_ok s ->
  Reserve env ctx now lease s = (s1, Ok res) ->
  run (E := store_env) (keeps_lease res (now + lease)) s1 s2 ->
  Reserve env' ctx' now' lease' s2 = (s3, Ok res') -> now' < now + lease ->
  ID (res_Job res') <> ID (res_Job res) /\
  view_of s2 !! ID (res_Job res) = Some (res_Job res, Reserved (res_Token res) (now + lease)).
Proof.
  intros Hok H Hrun H' Hlt.
  destruct (file_reservation_leased env ctx now lease s s1 res Hok H) as (Hok1 & Hl & Hu).
  rewrite <- Hu in *. destruct (file_lease_kept res s1 s2 Hok1 Hl Hrun) as [Hok2 Hl2].
  split; [|exact Hl2]. by apply (file_lease_excludes env' ctx' now' lease' s2 s3 res res' Hok2 Hl2 Hlt).
Qed.

(** C3.  Fencing.  When a job whose lease ran out has been handed out again
    under another token, the first worker can no longer release, complete or
    fail it, at any later time (as long as its token is not drawn again). *)
Theorem stale_reservation_is_rejected env now lease ctx s s1 res res' s2 :
  contract_ok s ->
  Reserve env ctx now lease s = (s1, Ok res') ->
  ID (res_Job res') = ID (res_Job res) -> res_Token res' <> res_Token res ->
  run (E := store_env)
    (fun o => match o with TookAt _ r => res_Token r <> res_Token res | _ => True end) s1 s2 ->
  forall env2 ctx2 t error,
    is_ok (Release env2 ctx2 res t error s2).2 = false /\
    is_ok (Complete env2 ctx2 res s2).2 = false /\
    is_ok (Fail env2 ctx2 res error s2).2 = false.
Proof.
  intros Hok H Hid Ht Hrun env2 ctx2 t error.
  destruct (file_reservation_leased env ctx now lease s s1 res' Hok H) as (Hok1 & Hl & _).
  assert (~ holds (view_of s1) res) as Hn.
  { intros (j & u & Hh). unfold leased in Hl. rewrite Hid in Hl. cbn in Hl. rewrite Hl in Hh.
    by injection Hh. }
  destruct (file_stale_stays s1 s2 res Hok1 Hn Hrun) as [Hok2 Hn2]. cbn in Hok2, Hn2.
  split; [|split].
  - destruct (Release _ _ _ _ _ _) as [s' [u|e|m]] eqn:E; [|done..].
    by apply (Release_contract _ _ _ _ _ _ _ _ Hok2) in E as [_ [? _]].
  - destruct (Complete _ _ _ _) as [s' [u|e|m]] eqn:E; [|done..].
    by apply (Complete_contract _ _ _ _ _ _ Hok2) in E as [_ [? _]].
  - destruct (Fail _ _ _ _ _) as [s' [u|e|m]] eqn:E; [|done..].
    by apply (Fail_contract _ _ _ _ _ _ _ Hok2) in E as [_ [? _]].
Qed.

(** A worker takes [job2] at 6000 for 100, another takes [job1] at 6050. *)
Module Race.
Definition res1 : JobReservation :=
  MkJobReservation (with_attempts Sample.job2 1) (hex_encode (repeat 51 32)) 6100.
Definition taken : option FileJobStore := (Reserve Sample.env Background 6000 100 (Some Sample.two)).1.
Definition env' : store_env := StoreEnv AppendOk (Sample.random 68) 7000.
Lemma taken_by_worker : Reserve Sample.env Background 6000 100 (Some Sample.two) = (taken, Ok res1).
Proof. vm_compute. reflexivity. Qed.
Lemma sample_ok : contract_ok (Some Sample.two).
Proof. repeat (apply contract_insert; [|done]). apply map_Forall_empty. Qed.
Lemma taken_ok : contract_ok taken.
Proof. apply (Reserve_contract _ _ _ _ _ _ _ sample_ok taken_by_worker). Qed.
Definition res2 : JobReservation :=
  MkJobReservation (with_attempts Sample.job2 2) (hex_encode (repeat 68 32)) 6300.
Definition retaken : option FileJobStore := (Reserve env' Background 6200 100 taken).1.
Lemma retaken_by_worker : Reserve env' Background 6200 100 taken = (retaken, Ok res2).
Proof. vm_compute. reflexivity. Qed.
Lemma other_token : res_Token res2 <> res_Token res1.
Proof. vm_compute. discriminate. Qed.
End Race.

Lemma reserved_job_is_exclusive_witness :
  exists s3 res', Reserve Race.env' Background 6050 100 Race.taken = (s3, Ok res') /\
    ID (res_Job res') <> Sample.id2 /\
    view_of Race.taken !! Sample.id2 = Some (res_Job Race.res1, Reserved (res_Token Race.res1) 6100).
Proof.
  eexists _, _. split; [vm_compute; reflexivity|].
  eapply (reserved_job_is_exclusive Sample.env Background 6000 100 (Some Sample.two) Race.taken Race.res1
    Race.taken Race.env' Background 6050 100);
    [exact Race.sample_ok|exact Race.taken_by_worker|apply run_refl|vm_compute; reflexivity|done].
Defined.

Lemma stale_reservation_is_rejected_witness :
  is_ok (Complete Sample.env Background Race.res1 Race.retaken).2 = false.
Proof.
  exact (proj1 (proj2 (stale_reservation_is_rejected Race.env' 6200 100 Background Race.taken Race.retaken
    Race.res1 Race.res2 Race.retaken Race.taken_ok Race.retaken_by_worker eq_refl Race.other_token
    (run_refl _ _) Sample.env Background 0 ""))).
Defined.
