(* ===== verification/SchedulerStore.v ===== *)
(** * The contract of a scheduler store: [backend/framework/scheduler_store.go]

    The data a scheduler store exchanges with the scheduler, and the abstract
    specification of [SchedulerStore] as a type class: a finite map from task
    names to their state and the token of their current reservation (empty when
    there is none).  [FileSchedulerStoreFacts.v] has the instance for the local
    store. *)
From S2P Require Import Prelude GoTime GoStrings.
Open Scope Z_scope.
Open Scope go_scope.

Definition ErrSchedulerStoreUnavailable := ErrNew "framework: scheduler store is unavailable".
Definition ErrSchedulerStoreClosed := ErrNew "framework: scheduler store is closed".
Definition ErrSchedulerStoreFull := ErrNew "framework: scheduler store is full".
Definition ErrSchedulerStoreConflict := ErrNew "framework: scheduler store record conflicts".
Definition ErrScheduledTaskStateNotFound := ErrNew "framework: scheduled task state is not found".
Definition ErrScheduledTaskNotDue := ErrNew "framework: scheduled task is not due".
Definition ErrScheduledTaskReserved := ErrNew "framework: scheduled task is reserved".
Definition ErrScheduledTaskReservationInvalid :=
  ErrNew "framework: scheduled task reservation is invalid".
Definition ErrSchedulerStoreOperationFailed :=
  ErrNew "framework: scheduler store operation failed".
Definition ErrInvalidFileSchedulerStoreOptions :=
  ErrNew "framework: file scheduler store options are invalid".
Definition ErrFileSchedulerStoreCorrupt := ErrNew "framework: file scheduler store log is corrupt".
Definition ErrSchedulerContextUnavailable := ErrNew "framework: scheduler context is unavailable".

Record StoredScheduledTask := MkStoredScheduledTask {
  Name : string;
  NextRunAt : Z;
  LastScheduledAt : Z;
  LastCompletedAt : Z;
  LastError : string;
  ReservedUntil : Z
}.

Record ScheduledTaskReservation := MkScheduledTaskReservation {
  sres_Task : StoredScheduledTask;
  sres_Token : string;
  sres_ReservedUntil : Z
}.

Abbreviation task_view := (gmap string (StoredScheduledTask * string)).

Definition new_task (name : string) (nextRunAt : Z) : StoredScheduledTask :=
  MkStoredScheduledTask name nextRunAt zero_time zero_time "" zero_time.
Definition with_lease (t : StoredScheduledTask) (until : Z) : StoredScheduledTask :=
  MkStoredScheduledTask (Name t) (NextRunAt t) (LastScheduledAt t) (LastCompletedAt t) (LastError t) until.
Definition with_completion (t : StoredScheduledTask) (next scheduled completed : Z) (error : string)
    : StoredScheduledTask :=
  MkStoredScheduledTask (Name t) next scheduled completed error zero_time.

(** A task whose occurrence may be taken at [now]. *)
Definition task_reservable (now : Z) (entry : StoredScheduledTask * string) : Prop :=
  NextRunAt entry.1 <= now /\ (entry.2 = EmptyString \/ ReservedUntil entry.1 <= now).

(** The reservation is the current one: its token, for its occurrence, at the
    resolution [instant]. *)
Definition task_holds_at (instant : Z -> Z) (v : task_view) (r : ScheduledTaskReservation) : Prop :=
  exists t, v !! Name (sres_Task r) = Some (t, sres_Token r) /\
    NextRunAt t = instant (NextRunAt (sres_Task r)).
Definition task_holds : task_view -> ScheduledTaskReservation -> Prop := task_holds_at (fun t => t).

(** ** The transitions

    What a call makes of the view when it returns its last-but-two argument, for
    a store that keeps instants as [instant] says and error texts as [kept]. *)
Section Transitions.
Variables (instant : Z -> Z) (kept : string -> string).

Definition initialize_to (name : string) (next : Z) (_ : unit) (v v' : task_view) : Prop :=
  (exists entry, v !! name = Some entry /\ v' = v) \/
  (v !! name = None /\ v' = <[name := (new_task name (instant next), EmptyString)]> v).
Definition reserve_to (name : string) (now lease : Z) (res : ScheduledTaskReservation) (v v' : task_view) : Prop :=
  exists entry, v !! name = Some entry /\ task_reservable (instant now) entry /\
    sres_Task res = with_lease entry.1 (now + lease) /\ Name (sres_Task res) = name /\
    sres_ReservedUntil res = now + lease /\ sres_Token res <> EmptyString /\
    v' = <[name := (with_lease entry.1 (instant (now + lease)), sres_Token res)]> v.
Definition complete_to (res : ScheduledTaskReservation) (next completed : Z) (error : string) (_ : unit)
    (v v' : task_view) : Prop :=
  completed < next /\ exists t, v !! Name (sres_Task res) = Some (t, sres_Token res) /\
    NextRunAt t = instant (NextRunAt (sres_Task res)) /\
    v' = <[Name (sres_Task res) :=
      (with_completion t (instant next) (NextRunAt t) (instant completed) (kept error), EmptyString)]> v.
End Transitions.

(** ** The interface *)

Class SchedulerStore (S E : Type) := {
  sstore_Initialize : E -> context -> string -> Z -> S -> S * result unit;
  sstore_State : E -> context -> string -> S -> result StoredScheduledTask;
  sstore_Reserve : E -> context -> string -> Z -> Z -> S -> S * result ScheduledTaskReservation;
  sstore_Complete : E -> context -> ScheduledTaskReservation -> Z -> Z -> string -> S -> S * result unit
}.

(** [sstore_instant] is the resolution at which the store keeps instants. *)
Class SchedulerStoreLaws (S E : Type) `{!SchedulerStore S E} := {
  sstore_ok : S -> Prop;
  sstore_view : S -> task_view;
  sstore_error : string -> string;
  sstore_instant : Z -> Z;

  Initialize_ok e ctx name next s s' r :
    sstore_ok s -> sstore_Initialize e ctx name next s = (s', r) -> sstore_ok s' /\
    match r with
    | Ok u => initialize_to sstore_instant name next u (sstore_view s) (sstore_view s')
    | _ => sstore_view s' = sstore_view s
    end;

  State_ok e ctx name s t :
    sstore_ok s -> sstore_State e ctx name s = Ok t -> exists token, sstore_view s !! name = Some (t, token);

  Reserve_task_ok e ctx name now lease s s' r :
    sstore_ok s -> sstore_Reserve e ctx name now lease s = (s', r) -> sstore_ok s' /\
    match r with
    | Ok res => reserve_to sstore_instant name now lease res (sstore_view s) (sstore_view s')
    | _ => sstore_view s' = sstore_view s
    end;

  Complete_task_ok e ctx res next completed error s s' r :
    sstore_ok s -> sstore_Complete e ctx res next completed error s = (s', r) -> sstore_ok s' /\
    match r with
    | Ok u => complete_to sstore_instant sstore_error res next completed error u (sstore_view s) (sstore_view s')
    | _ => sstore_view s' = sstore_view s
    end
}.

(** ** Runs of a scheduler store *)
Section TaskLeases.
Context {S E : Type} `{!SchedulerStore S E, !SchedulerStoreLaws S E}.

Inductive task_outcome :=
| TaskTookAt (now : Z) (r : ScheduledTaskReservation)
| TaskCompleted (r : ScheduledTaskReservation) (next completed : Z)
| TaskNothing.

Inductive task_step (s : S) : task_outcome -> S -> Prop :=
| task_step_Initialize e ctx name next s' r : sstore_Initialize e ctx name next s = (s', r) ->
    task_step s TaskNothing s'
| task_step_Reserve e ctx name now lease s' r : sstore_Reserve e ctx name now lease s = (s', r) ->
    task_step s (match r with Ok res => TaskTookAt now res | _ => TaskNothing end) s'
| task_step_Complete e ctx res next completed error s' r :
    sstore_Complete e ctx res next completed error s = (s', r) ->
    task_step s (match r with Ok _ => TaskCompleted res next completed | _ => TaskNothing end) s'.

Inductive task_run (P : task_outcome -> Prop) : S -> S -> Prop :=
| task_run_refl s : task_run P s s
| task_run_step s o s' s'' : task_step s o s' -> P o -> task_run P s' s'' -> task_run P s s''.

(** A reservation that is not current stays so until its token is drawn again:
an occurrence is completed at most once, and by the last worker that took it. *)
Lemma task_stale_stays s s' res :
  sstore_ok s -> sres_Token res <> EmptyString -> ~ task_holds_at sstore_instant (sstore_view s) res ->
  task_run (fun o => match o with TaskTookAt _ r => sres_Token r <> sres_Token res | _ => True end) s s' ->
  sstore_ok s' /\ ~ task_holds_at sstore_instant (sstore_view s') res.
Proof.
  intros Hok Hne Hn Hrun. induction Hrun as [s|s o s1 s2 Hs Ho _ IH]; [done|].
  enough (sstore_ok s1 /\ ~ task_holds_at sstore_instant (sstore_view s1) res) as [? ?] by auto. clear IH.
  unfold task_holds_at in *. destruct Hs as [e ctx name next s' r H|e ctx name now lease s' r H|e ctx r0 next completed error s' r H].
  - apply (Initialize_ok _ _ _ _ _ _ _ Hok) in H as [Hok' H]. split; [done|].
    destruct r; [|by rewrite H..]. destruct H as [(en & _ & ->)|[Hl ->]]; [done|].
    intros (t & Ht & Hr). destruct (decide (name = Name (sres_Task res))) as [->|Hd].
    + rewrite lookup_insert_eq in Ht. congruence.
    + rewrite lookup_insert_ne in Ht by done. eauto.
  - apply (Reserve_task_ok _ _ _ _ _ _ _ _ Hok) in H as [Hok' H]. split; [done|].
    destruct r as [r| |]; [|by rewrite H..]. destruct H as (en & Hl & Hres & Ht & Hnm & Hu & Htok & ->).
    intros (t & Hlk & Hr). destruct (decide (name = Name (sres_Task res))) as [->|Hd].
    + rewrite lookup_insert_eq in Hlk. congruence.
    + rewrite lookup_insert_ne in Hlk by done. eauto.
  - apply (Complete_task_ok _ _ _ _ _ _ _ _ _ Hok) in H as [Hok' H]. split; [done|].
    destruct r; [|by rewrite H..]. destruct H as (_ & t0 & Hl & Hnr & ->).
    intros (t & Hlk & Hr). destruct (decide (Name (sres_Task r0) = Name (sres_Task res))) as [E0|Hd].
    + rewrite E0, lookup_insert_eq in Hlk. congruence.
    + rewrite lookup_insert_ne in Hlk by done. eauto.
Qed.

(** The entry a reservation leaves. *)
Definition task_leased (res : ScheduledTaskReservation) (s : S) : Prop :=
  sstore_view s !! Name (sres_Task res) =
    Some (with_lease (sres_Task res) (sstore_instant (sres_ReservedUntil res)), sres_Token res) /\
  sres_ReservedUntil res = ReservedUntil (sres_Task res) /\ sres_Token res <> EmptyString.

Definition task_keeps_at (instant : Z -> Z) (res : ScheduledTaskReservation) (o : task_outcome) : Prop :=
  match o with
  | TaskTookAt now _ => instant now < instant (sres_ReservedUntil res)
  | TaskCompleted r _ _ => Name (sres_Task r) = Name (sres_Task res) -> sres_Token r <> sres_Token res
  | TaskNothing => True
  end.

Definition task_keeps : ScheduledTaskReservation -> task_outcome -> Prop := task_keeps_at (fun t => t).

Lemma task_reservation_leased e ctx name now lease s s' res :
  sstore_ok s -> sstore_Reserve e ctx name now lease s = (s', Ok res) ->
  sstore_ok s' /\ task_leased res s' /\ Name (sres_Task res) = name /\ sres_ReservedUntil res = now + lease.
Proof.
  intros Hok H. apply (Reserve_task_ok _ _ _ _ _ _ _ _ Hok) in H as [Hok' (en & Hl & _ & Ht & Hn & Hu & Htok & Hv)].
  split; [done|]. unfold task_leased. rewrite Hv, Hn, lookup_insert_eq, Hu. by rewrite Ht.
Qed.

Lemma task_lease_kept res s s' :
  sstore_ok s -> task_leased res s -> task_run (task_keeps_at sstore_instant res) s s' -> sstore_ok s' /\ task_leased res s'.
Proof.
  intros Hok (Hl & Hu & Htok) Hrun. induction Hrun as [s|s o s1 s2 Hs Ho _ IH]; [done|].
  enough (sstore_ok s1 /\ sstore_view s1 !! Name (sres_Task res) =
    Some (with_lease (sres_Task res) (sstore_instant (sres_ReservedUntil res)), sres_Token res))
    as [? ?] by auto. clear IH.
  destruct Hs as [e ctx name next s' r H|e ctx name now lease s' r H|e ctx r0 next completed error s' r H].
  - apply (Initialize_ok _ _ _ _ _ _ _ Hok) in H as [Hok' H]. split; [done|].
    destruct r; [|by rewrite H..]. destruct H as [(en & _ & ->)|[Hn ->]]; [done|].
    rewrite lookup_insert_ne; [done|]. intros ->. congruence.
  - apply (Reserve_task_ok _ _ _ _ _ _ _ _ Hok) in H as [Hok' H]. split; [done|].
    destruct r as [r| |]; [|by rewrite H..]. destruct H as (en & Hle & [_ Hres] & _ & _ & _ & _ & ->).
    rewrite lookup_insert_ne; [done|]. intros ->. rewrite Hl in Hle. injection Hle as <-. cbn in Hres, Ho.
    destruct Hres as [?|Hres]; [done|]. lia.
  - apply (Complete_task_ok _ _ _ _ _ _ _ _ _ Hok) in H as [Hok' H]. split; [done|].
    destruct r; [|by rewrite H..]. destruct H as (_ & t0 & Hl0 & _ & ->).
    rewrite lookup_insert_ne; [done|]. intros E0. rewrite E0, Hl in Hl0. injection Hl0 as _ Heq.
    cbn in Ho. specialize (Ho E0). congruence.
Qed.

Lemma task_lease_excludes e ctx now lease s res s' res' :
  sstore_ok s -> task_leased res s -> sstore_instant now < sstore_instant (sres_ReservedUntil res) ->
  sstore_Reserve e ctx (Name (sres_Task res)) now lease s <> (s', Ok res').
Proof.
  intros Hok (Hl & Hu & Htok) Hlt H.
  apply (Reserve_task_ok _ _ _ _ _ _ _ _ Hok) in H as [_ (en & Hle & [_ Hres] & _)].
  rewrite Hl in Hle. injection Hle as <-. cbn in Hres. destruct Hres as [?|Hres]; [done|]. lia.
Qed.
End TaskLeases.
