(* ===== verification/FileSchedulerStore.v ===== *)
(** * The durable local scheduler store: [backend/framework/file_scheduler_store.go]

    A store is its map of task states and its event log ([EventLog.v]); the
    theorems are in [FileSchedulerStoreFacts.v]. *)
From S2P Require Import Prelude GoTime GoStrings Json JsonDecode JsonStruct EventLog SchedulerStore.
Open Scope Z_scope.
Open Scope go_scope.

Definition defaultFileSchedulerStoreMaxTasks : Z := 1000.
Definition fileSchedulerStoreEventVersion : Z := 1.
Definition fileSchedulerStoreMaxEventBytes : Z := 64 * 1024.
Definition fileSchedulerStoreMaxNameBytes : Z := 1024.
Definition fileSchedulerStoreMaxErrorBytes : Z := 4 * 1024.
Definition schedulerReservationTokenBytes : nat := 32.

Record fileStoredScheduledTask := FileStoredScheduledTask {
  state : StoredScheduledTask;
  reservationToken : string
}.

Record fileSchedulerStoreEvent := FileSchedulerStoreEvent {
  ev_Version : Z;
  ev_Type : string;
  ev_Name : string;
  ev_Token : string;
  ev_ScheduledAt : Z;
  ev_ReservedUntil : Z;
  ev_NextRunAt : Z;
  ev_LastCompletedAt : Z;
  ev_Error : string
}.

Record FileSchedulerStore := MkFileSchedulerStore {
  path : string;
  maxTasks : Z;
  file : log_file;
  tasks : gmap string fileStoredScheduledTask;
  closed : bool
}.

(** What one call takes from its environment. *)
Record scheduler_store_env := SchedulerStoreEnv {
  env_io : append_io;
  env_random : result (nat -> Z)  (* crypto/rand *)
}.

Definition set_tasks (s : FileSchedulerStore) (m : gmap string fileStoredScheduledTask) : FileSchedulerStore :=
  MkFileSchedulerStore (path s) (maxTasks s) (file s) m (closed s).
Definition set_file (s : FileSchedulerStore) (f : log_file) : FileSchedulerStore :=
  MkFileSchedulerStore (path s) (maxTasks s) f (tasks s) (closed s).

(** ** Helpers of the source *)

Definition validStoredScheduledTaskName (name : string) : bool :=
  negb (String.eqb (TrimSpace name) "") && (string_length name <=? fileSchedulerStoreMaxNameBytes).

Definition newSchedulerReservationToken (random : result (nat -> Z)) : result string :=
  match random with
  | Ok f => Ok (hex_encode (map f (seq 0 schedulerReservationTokenBytes)))
  | Err err => Err (errorf2 ErrSchedulerStoreOperationFailed "random reservation token" err)
  | Panicked m => Panicked m
  end.

Definition normalizeFileSchedulerStoreError (value : string) : string :=
  if string_length value <=? fileSchedulerStoreMaxErrorBytes then value
  else let value := take_bytes fileSchedulerStoreMaxErrorBytes value in
       shorten_to_valid (String.length value) value.

(** ** The JSON line of an event *)

(** [json.Marshal(event)]; a time outside years 0 to 9999 fails. *)
Definition encode_event (e : fileSchedulerStoreEvent) : option string :=
  sa ← encode_time (ev_ScheduledAt e);
  ru ← encode_time (ev_ReservedUntil e);
  nr ← encode_time (ev_NextRunAt e);
  lc ← encode_time (ev_LastCompletedAt e);
  Some (encode_object [
    Some (member "version" (Itoa (ev_Version e)));
    Some (member "type" (encode_string (ev_Type e)));
    Some (member "name" (encode_string (ev_Name e)));
    omit_empty "token" (ev_Token e);
    Some (member "scheduledAt" sa);
    Some (member "reservedUntil" ru);
    Some (member "nextRunAt" nr);
    Some (member "lastCompletedAt" lc);
    omit_empty "error" (ev_Error e)]).

(** The struct of the decoder, field by field. *)
Definition with_ev_Version v e := FileSchedulerStoreEvent v (ev_Type e) (ev_Name e) (ev_Token e) (ev_ScheduledAt e) (ev_ReservedUntil e) (ev_NextRunAt e) (ev_LastCompletedAt e) (ev_Error e).
Definition with_ev_Type v e := FileSchedulerStoreEvent (ev_Version e) v (ev_Name e) (ev_Token e) (ev_ScheduledAt e) (ev_ReservedUntil e) (ev_NextRunAt e) (ev_LastCompletedAt e) (ev_Error e).
Definition with_ev_Name v e := FileSchedulerStoreEvent (ev_Version e) (ev_Type e) v (ev_Token e) (ev_ScheduledAt e) (ev_ReservedUntil e) (ev_NextRunAt e) (ev_LastCompletedAt e) (ev_Error e).
Definition with_ev_Token v e := FileSchedulerStoreEvent (ev_Version e) (ev_Type e) (ev_Name e) v (ev_ScheduledAt e) (ev_ReservedUntil e) (ev_NextRunAt e) (ev_LastCompletedAt e) (ev_Error e).
Definition with_ev_ScheduledAt v e := FileSchedulerStoreEvent (ev_Version e) (ev_Type e) (ev_Name e) (ev_Token e) v (ev_ReservedUntil e) (ev_NextRunAt e) (ev_LastCompletedAt e) (ev_Error e).
Definition with_ev_ReservedUntil v e := FileSchedulerStoreEvent (ev_Version e) (ev_Type e) (ev_Name e) (ev_Token e) (ev_ScheduledAt e) v (ev_NextRunAt e) (ev_LastCompletedAt e) (ev_Error e).
Definition with_ev_NextRunAt v e := FileSchedulerStoreEvent (ev_Version e) (ev_Type e) (ev_Name e) (ev_Token e) (ev_ScheduledAt e) (ev_ReservedUntil e) v (ev_LastCompletedAt e) (ev_Error e).
Definition with_ev_LastCompletedAt v e := FileSchedulerStoreEvent (ev_Version e) (ev_Type e) (ev_Name e) (ev_Token e) (ev_ScheduledAt e) (ev_ReservedUntil e) (ev_NextRunAt e) v (ev_Error e).
Definition with_ev_Error v e := FileSchedulerStoreEvent (ev_Version e) (ev_Type e) (ev_Name e) (ev_Token e) (ev_ScheduledAt e) (ev_ReservedUntil e) (ev_NextRunAt e) (ev_LastCompletedAt e) v.
Definition event_fields : list (string * decoder fileSchedulerStoreEvent) := [
  ("version", decode_int with_ev_Version);
  ("type", decode_string with_ev_Type);
  ("name", decode_string with_ev_Name);
  ("token", decode_string with_ev_Token);
  ("scheduledAt", decode_time with_ev_ScheduledAt);
  ("reservedUntil", decode_time with_ev_ReservedUntil);
  ("nextRunAt", decode_time with_ev_NextRunAt);
  ("lastCompletedAt", decode_time with_ev_LastCompletedAt);
  ("error", decode_string with_ev_Error)].
Definition zero_event : fileSchedulerStoreEvent :=
  FileSchedulerStoreEvent 0 "" "" "" zero_time zero_time zero_time zero_time "".
Definition unmarshal_event : string -> result fileSchedulerStoreEvent :=
  unmarshal_struct event_fields "framework.fileSchedulerStoreEvent" zero_event.

Definition append (io : append_io) (s : FileSchedulerStore) (e : fileSchedulerStoreEvent)
    : FileSchedulerStore * result unit :=
  let '(f, r) := append_event encode_event ErrSchedulerStoreOperationFailed io (file s) e in
  (set_file s f, r).

Definition ready (s : FileSchedulerStore) (ctx : context) : result unit :=
  match ctx with
  | Ctx (Some err) => Err err
  | _ => if closed s then Err ErrSchedulerStoreClosed else Ok tt
  end.

(** ** Operations *)

Definition Initialize_locked (env : scheduler_store_env) (ctx : context) (name : string) (nextRunAt : Z)
    (s : FileSchedulerStore) : FileSchedulerStore * result unit :=
  match ctx with
  | NilContext => (s, Err ErrSchedulerContextUnavailable)
  | Ctx _ =>
      if negb (validStoredScheduledTaskName name) || IsZero nextRunAt
      then (s, Err ErrSchedulerStoreConflict) else
      match ready s ctx with
      | Ok _ =>
          match tasks s !! name with
          | Some _ => (s, Ok tt)
          | None =>
              if maxTasks s <=? Z.of_nat (size (tasks s)) then (s, Err ErrSchedulerStoreFull) else
              match append (env_io env) s
                      (FileSchedulerStoreEvent fileSchedulerStoreEventVersion "initialize" name ""
                         zero_time zero_time nextRunAt zero_time "") with
              | (s', Ok _) =>
                  (set_tasks s' (<[name := FileStoredScheduledTask (new_task name nextRunAt) ""]> (tasks s')), Ok tt)
              | (s', r) => (s', r)
              end
          end
      | r => (s, r)
      end
  end.
Definition Initialize (env : scheduler_store_env) (ctx : context) (name : string) (nextRunAt : Z)
    : option FileSchedulerStore -> option FileSchedulerStore * result unit :=
  fun store => with_receiver ErrSchedulerStoreUnavailable store (Initialize_locked env ctx name nextRunAt).

Definition State (ctx : context) (name : string) (store : option FileSchedulerStore)
    : result StoredScheduledTask :=
  match store with
  | None => Err ErrSchedulerStoreUnavailable
  | Some s =>
      match ctx with
      | NilContext => Err ErrSchedulerContextUnavailable
      | Ctx _ =>
          if negb (validStoredScheduledTaskName name) then Err ErrSchedulerStoreConflict else
          let* _ := ready s ctx in
          match tasks s !! name with
          | Some record => Ok (state record)
          | None => Err ErrScheduledTaskStateNotFound
          end
      end
  end.

Definition Reserve_locked (env : scheduler_store_env) (ctx : context) (name : string) (now lease : Z)
    (s : FileSchedulerStore) : FileSchedulerStore * result ScheduledTaskReservation :=
  match ctx with
  | NilContext => (s, Err ErrSchedulerContextUnavailable)
  | Ctx _ =>
      if negb (validStoredScheduledTaskName name) || IsZero now || (lease <=? 0)
      then (s, Err ErrScheduledTaskReservationInvalid) else
      match ready s ctx with
      | Ok _ =>
          match tasks s !! name with
          | None => (s, Err ErrScheduledTaskStateNotFound)
          | Some record =>
              if negb (String.eqb (reservationToken record) "") && After (ReservedUntil (state record)) now
              then (s, Err ErrScheduledTaskReserved)
              else if After (NextRunAt (state record)) now then (s, Err ErrScheduledTaskNotDue) else
              match newSchedulerReservationToken (env_random env) with
              | Ok token =>
                  let reservedUntil := now + lease in
                  match append (env_io env) s
                          (FileSchedulerStoreEvent fileSchedulerStoreEventVersion "reserve" name token
                             (NextRunAt (state record)) reservedUntil zero_time zero_time "") with
                  | (s', Ok _) =>
                      let record := FileStoredScheduledTask (with_lease (state record) reservedUntil) token in
                      (set_tasks s' (<[name := record]> (tasks s')),
                       Ok (MkScheduledTaskReservation (state record) token reservedUntil))
                  | (s', Err e) => (s', Err e)
                  | (s', Panicked m) => (s', Panicked m)
                  end
              | Err e => (s, Err e)
              | Panicked m => (s, Panicked m)
              end
          end
      | Err e => (s, Err e)
      | Panicked m => (s, Panicked m)
      end
  end.
Definition Reserve (env : scheduler_store_env) (ctx : context) (name : string) (now lease : Z)
    : option FileSchedulerStore -> option FileSchedulerStore * result ScheduledTaskReservation :=
  fun store => with_receiver ErrSchedulerStoreUnavailable store (Reserve_locked env ctx name now lease).

Definition Complete_locked (env : scheduler_store_env) (ctx : context) (reservation : ScheduledTaskReservation)
    (nextRunAt completedAt : Z) (lastError : string) (s : FileSchedulerStore)
    : FileSchedulerStore * result unit :=
  match ctx with
  | NilContext => (s, Err ErrSchedulerContextUnavailable)
  | Ctx _ =>
      let task := sres_Task reservation in
      if negb (validStoredScheduledTaskName (Name task)) || String.eqb (sres_Token reservation) "" ||
         IsZero (NextRunAt task) || IsZero nextRunAt || IsZero completedAt ||
         negb (After nextRunAt completedAt)
      then (s, Err ErrScheduledTaskReservationInvalid) else
      let lastError := normalizeFileSchedulerStoreError lastError in
      match ready s ctx with
      | Ok _ =>
          match tasks s !! Name task with
          | None => (s, Err ErrScheduledTaskReservationInvalid)
          | Some record =>
              if negb (String.eqb (reservationToken record) (sres_Token reservation)) ||
                 negb (Equal (NextRunAt (state record)) (NextRunAt task))
              then (s, Err ErrScheduledTaskReservationInvalid) else
              match append (env_io env) s
                      (FileSchedulerStoreEvent fileSchedulerStoreEventVersion "complete" (Name task)
                         (sres_Token reservation) (NextRunAt task) zero_time nextRunAt completedAt lastError) with
              | (s', Ok _) =>
                  let record := FileStoredScheduledTask
                    (with_completion (state record) nextRunAt (NextRunAt task) completedAt lastError) "" in
                  (set_tasks s' (<[Name (state record) := record]> (tasks s')), Ok tt)
              | (s', r) => (s', r)
              end
          end
      | r => (s, r)
      end
  end.
Definition Complete (env : scheduler_store_env) (ctx : context) (reservation : ScheduledTaskReservation)
    (nextRunAt completedAt : Z) (lastError : string)
    : option FileSchedulerStore -> option FileSchedulerStore * result unit :=
  fun store => with_receiver ErrSchedulerStoreUnavailable store
    (Complete_locked env ctx reservation nextRunAt completedAt lastError).

(** The order of [States]. *)
Definition name_before (a b : StoredScheduledTask) : Prop := String.le (Name a) (Name b).
#[export] Instance name_before_dec a b : Decision (name_before a b).
Proof. unfold name_before. apply _. Defined.

Definition States (store : option FileSchedulerStore) : list StoredScheduledTask :=
  match store with
  | None => []
  | Some s => merge_sort name_before (state <$> (map_to_list (tasks s)).*2)
  end.

Definition Close (close_io : option goerror) (store : option FileSchedulerStore)
    : option FileSchedulerStore * result unit :=
  match store with
  | None => (None, Ok tt)
  | Some s =>
      if closed s then (Some s, Ok tt) else
      (Some (MkFileSchedulerStore (path s) (maxTasks s) (file s) (tasks s) true),
       match close_io with
       | Some err => Err (errorf2 ErrSchedulerStoreOperationFailed "close log" err)
       | None => Ok tt
       end)
  end.

(** ** Replay *)

Definition applyEvent (m : gmap string fileStoredScheduledTask) (e : fileSchedulerStoreEvent)
    : result (gmap string fileStoredScheduledTask) :=
  let corrupt := Err ErrFileSchedulerStoreCorrupt in
  if negb (ev_Version e =? fileSchedulerStoreEventVersion) || negb (validStoredScheduledTaskName (ev_Name e))
  then corrupt
  else if String.eqb (ev_Type e) "initialize" then
    if IsZero (ev_NextRunAt e) then corrupt else
    match m !! ev_Name e with
    | Some _ => corrupt
    | None => Ok (<[ev_Name e := FileStoredScheduledTask (new_task (ev_Name e) (ev_NextRunAt e)) ""]> m)
    end
  else if String.eqb (ev_Type e) "reserve" then
    match m !! ev_Name e with
    | Some record =>
        if String.eqb (ev_Token e) "" || IsZero (ev_ScheduledAt e) ||
           negb (Equal (ev_ScheduledAt e) (NextRunAt (state record))) || IsZero (ev_ReservedUntil e)
        then corrupt
        else Ok (<[ev_Name e := FileStoredScheduledTask (with_lease (state record) (ev_ReservedUntil e))
                     (ev_Token e)]> m)
    | None => corrupt
    end
  else if String.eqb (ev_Type e) "complete" then
    match m !! ev_Name e with
    | Some record =>
        if String.eqb (ev_Token e) "" || negb (String.eqb (reservationToken record) (ev_Token e)) ||
           IsZero (ev_ScheduledAt e) || negb (Equal (ev_ScheduledAt e) (NextRunAt (state record))) ||
           IsZero (ev_NextRunAt e) || IsZero (ev_LastCompletedAt e) ||
           negb (After (ev_NextRunAt e) (ev_LastCompletedAt e))
        then corrupt
        else Ok (<[ev_Name e := FileStoredScheduledTask
                     (with_completion (state record) (ev_NextRunAt e) (ev_ScheduledAt e)
                        (ev_LastCompletedAt e) (ev_Error e)) ""]> m)
    | None => corrupt
    end
  else corrupt.

Definition replay (io : open_env) (s : FileSchedulerStore) : result FileSchedulerStore :=
  let* (m, f) := replay_log unmarshal_event applyEvent fileSchedulerStoreMaxEventBytes
                   ErrSchedulerStoreOperationFailed ErrFileSchedulerStoreCorrupt io (tasks s) (file s) in
  Ok (set_file (set_tasks s m) f).

Record FileSchedulerStoreOptions := MkFileSchedulerStoreOptions { opt_Path : string; opt_MaxTasks : Z }.

(** [filepath.Abs] is the argument [abs]. *)
Definition normalizeFileSchedulerStoreOptions (abs : string -> result string) (o : FileSchedulerStoreOptions)
    : result FileSchedulerStoreOptions :=
  let p := TrimSpace (opt_Path o) in
  if String.eqb p "" || (opt_MaxTasks o <? 0) then Err ErrInvalidFileSchedulerStoreOptions else
  let maxTasks := if opt_MaxTasks o =? 0 then defaultFileSchedulerStoreMaxTasks else opt_MaxTasks o in
  match abs p with
  | Ok p => Ok (MkFileSchedulerStoreOptions p maxTasks)
  | Err err => Err (errorf2 ErrInvalidFileSchedulerStoreOptions "path" err)
  | Panicked m => Panicked m
  end.

Definition NewFileSchedulerStore (abs : string -> result string) (io : open_env)
    (content : log_file) (o : FileSchedulerStoreOptions) : result FileSchedulerStore :=
  let* o := normalizeFileSchedulerStoreOptions abs o in
  let* _ := syscall ErrSchedulerStoreOperationFailed "create directory" (io_mkdir io) in
  let* _ := syscall ErrSchedulerStoreOperationFailed "open log" (io_open io) in
  let* _ := syscall ErrSchedulerStoreOperationFailed "secure log" (io_chmod io) in
  replay io (MkFileSchedulerStore (opt_Path o) (opt_MaxTasks o) content ∅ false).
