(* ===== verification/FileSchedulerStoreFacts.v ===== *)
(** * The local scheduler store is durable and implements its contract

    As for the local job store: every call appends at most one event, whose
    replay from the state on disk gives the state in memory; and the store is
    an instance of [SchedulerStoreLaws]. *)
From S2P Require Import Prelude GoTime GoStrings Json JsonDecode JsonStruct EventLog SchedulerStore FileSchedulerStore.
Open Scope Z_scope.
Open Scope go_scope.

Abbreviation records := (gmap string fileStoredScheduledTask).

Record record_ok (k : string) (r : fileStoredScheduledTask) : Prop := RecordOk {
  rec_key : Name (state r) = k;
  rec_name : validStoredScheduledTaskName k = true;
  rec_utf8 : ValidString k = true;
  rec_next : NextRunAt (state r) <> zero_time;
  rec_token : ValidString (reservationToken r) = true /\ string_length (reservationToken r) <= 64
}.
Definition records_ok (m : records) : Prop := map_Forall record_ok m.

(** What a record is after a restart: its error text has been through JSON. *)
Definition persisted (r : fileStoredScheduledTask) : fileStoredScheduledTask :=
  let t := state r in
  FileStoredScheduledTask
    (MkStoredScheduledTask (Name t) (NextRunAt t) (LastScheduledAt t) (LastCompletedAt t)
       (sanitize (LastError t)) (ReservedUntil t)) (reservationToken r).

(** ** Events fit their line *)

Definition event_fits (e : fileSchedulerStoreEvent) : Prop :=
  ev_Version e = 1 /\ string_length (ev_Type e) <= 10 /\ string_length (ev_Name e) <= 1024 /\
  string_length (ev_Token e) <= 64 /\ string_length (ev_Error e) <= 4096.

Lemma task_encode_event_fits e s : event_fits e -> encode_event e = Some s ->
  string_length s + 1 <= fileSchedulerStoreMaxEventBytes.
Proof.
  intros (Hv & Hty & Hn & Htok & Herr) H. unfold encode_event in H.
  destruct (encode_time (ev_ScheduledAt e)) as [t1|] eqn:E1; [|done].
  destruct (encode_time (ev_ReservedUntil e)) as [t2|] eqn:E2; [|done].
  destruct (encode_time (ev_NextRunAt e)) as [t3|] eqn:E3; [|done].
  destruct (encode_time (ev_LastCompletedAt e)) as [t4|] eqn:E4; [|done].
  apply encode_time_length in E1, E2, E3, E4. cbn in H. injection H as <-.
  pose proof (Itoa_length (ev_Version e) ltac:(rewrite Hv; by vm_compute)).
  pose proof (encode_string_length (ev_Type e)). pose proof (encode_string_length (ev_Name e)).
  match goal with |- string_length (encode_object ?ms) + 1 <= _ => pose proof (encode_object_length ms) as Ho end.
  pose_lists. change (members_length []) with 0 in *.
  pose proof (omit_empty_length "token" (ev_Token e)). pose proof (omit_empty_length "error" (ev_Error e)).
  cbv beta iota in *. pose_members. string_literals. unfold fileSchedulerStoreMaxEventBytes. lia.
Qed.

(** ** Lines are read back *)

(** What decoding the line of an event gives. *)
Definition decoded (e : fileSchedulerStoreEvent) : fileSchedulerStoreEvent :=
  FileSchedulerStoreEvent (ev_Version e) (sanitize (ev_Type e)) (sanitize (ev_Name e))
    (sanitize (ev_Token e)) (ev_ScheduledAt e) (ev_ReservedUntil e) (ev_NextRunAt e)
    (ev_LastCompletedAt e) (sanitize (ev_Error e)).
#[local] Opaque max_nesting.
Definition event_members (e : fileSchedulerStoreEvent) (sa ru nr lc : string) : list (string * option string) := [
  ("version", Some (Itoa (ev_Version e))); ("type", Some (encode_string (ev_Type e))); ("name", Some (encode_string (ev_Name e)));
  ("token", optional (ev_Token e)); ("scheduledAt", Some sa); ("reservedUntil", Some ru); ("nextRunAt", Some nr);
  ("lastCompletedAt", Some lc); ("error", optional (ev_Error e))].
Lemma task_event_written e : event_fits e -> writes encode_event unmarshal_event fileSchedulerStoreMaxEventBytes e (decoded e).
Proof.
  intros Hfit line H. pose proof (task_encode_event_fits e line Hfit H) as Hlen. destruct Hfit as (Hv & _). unfold encode_event in H.
  destruct (encode_time (ev_ScheduledAt e)) as [t1|] eqn:E1; [|done].
  destruct (encode_time (ev_ReservedUntil e)) as [t2|] eqn:E2; [|done].
  destruct (encode_time (ev_NextRunAt e)) as [t3|] eqn:E3; [|done].
  destruct (encode_time (ev_LastCompletedAt e)) as [t4|] eqn:E4; [|done]. injection H as H.
  assert (line = object_text (present (event_members e t1 t2 t3 t4))) as ->.
  { rewrite <- H, <- encode_object_present. rewrite !omit_empty_optional. done. }
  assert (Forall (fun m => passes 0 m.2 /\ ValidString m.1 = true) (present (event_members e t1 t2 t3 t4))) as Hall.
  { unfold event_members. passing O. }
  assert (1 <= max_nesting)%nat as Hd by (apply Nat.leb_le; vm_compute; reflexivity).
  split; [|split; [done|]].
  - change (present (event_members e t1 t2 t3 t4)) with (("version", Itoa (ev_Version e)) :: present (tail (event_members e t1 t2 t3 t4))) in *.
    apply (object_line 0); [|lia]. eapply Forall_impl; [exact Hall|]. by intros m [? _].
  - unfold unmarshal_event, unmarshal_struct. change (skip_space (object_text ?l)) with (object_text l). rewrite (decode_object _ _ 0) by (done || lia).
    assert (in_int64 (ev_Version e)) as HV by (by rewrite Hv).
    enough (decode_members event_fields (present (event_members e t1 t2 t3 t4)) (zero_event, None) = Ok (decoded e, None)) as -> by done.
    unfold event_members. do 9 read_member. reflexivity.
Qed.

(** ** The effect of a call *)

Definition effect (s : FileSchedulerStore) (op : append_io -> FileSchedulerStore) : Prop :=
  EventLog.effect encode_event unmarshal_event applyEvent fileSchedulerStoreMaxEventBytes
    ErrSchedulerStoreOperationFailed (fmap persisted) records_ok (file s) (tasks s)
    (fun io => (file (op io), tasks (op io))).

Ltac no_effect := by apply EffectNone.

Lemma task_effect_append s op ev (update : records -> records) :
  applyEvent (persisted <$> tasks s) (decoded ev) = Ok (persisted <$> update (tasks s)) ->
  event_fits ev -> records_ok (update (tasks s)) ->
  (forall io, op io = let '(s', r) := append io s ev in
                      match r with Ok _ => set_tasks s' (update (tasks s')) | _ => s' end) ->
  effect s op.
Proof.
  intros Ha Hfit Hok Hop. apply (EffectEvent _ _ _ _ _ _ _ _ _ _ ev (decoded ev) (update (tasks s))); [by apply task_event_written|done|done|].
  intros io. rewrite Hop. unfold append. by destruct (append_event _ _ _ _ _) as [f [| |]].
Qed.

Ltac effect_event ev update :=
  apply (task_effect_append _ _ ev update);
  [| | |intros io; cbn [env_io]; destruct (append io _ _) as [? [| |]]; try done].

#[local] Opaque sanitize.
Ltac replay_event type_ :=
  unfold applyEvent, decoded; cbn;
  rewrite (sanitize_valid type_ eq_refl), ?(sanitize_valid "" eq_refl); cbn.

Lemma newSchedulerReservationToken_ok random token : newSchedulerReservationToken random = Ok token ->
  ValidString token = true /\ string_length token = 64.
Proof.
  unfold newSchedulerReservationToken. intros H. destruct random as [f| |]; try done.
  assert (hex_encode (map f (seq 0 schedulerReservationTokenBytes)) = token) as <- by congruence.
  destruct (hex_encode_spec (map f (seq 0 schedulerReservationTokenBytes))) as [Hl Hf].
  rewrite length_map, length_seq in Hl. rewrite Hl. split; [by apply lower_hex_valid|done].
Qed.

Lemma normalizeFileSchedulerStoreError_length e : string_length (normalizeFileSchedulerStoreError e) <= 4096.
Proof.
  unfold normalizeFileSchedulerStoreError, fileSchedulerStoreMaxErrorBytes.
  destruct (Z.leb_spec (string_length e) (4 * 1024)); [lia|].
  etrans; [apply shorten_to_valid_length|]. by apply take_bytes_length.
Qed.

Lemma valid_name_length k : validStoredScheduledTaskName k = true -> string_length k <= 1024.
Proof. unfold validStoredScheduledTaskName, fileSchedulerStoreMaxNameBytes. intros. bool_prop. lia. Qed.

Lemma records_insert (m : records) k r : records_ok m -> record_ok k r -> records_ok (<[k := r]> m).
Proof. intros. by apply map_Forall_insert_2. Qed.

Lemma Initialize_effect random ctx name t s :
  records_ok (tasks s) -> ValidString name = true ->
  effect s (fun io => (Initialize_locked (SchedulerStoreEnv io random) ctx name t s).1).
Proof.
  intros Hrec Hutf. unfold Initialize_locked. destruct ctx as [|err]; [no_effect|].
  destruct (_ || IsZero t) eqn:Hg; [no_effect|]. bool_prop.
  destruct (ready s (Ctx err)); [|no_effect..].
  destruct (tasks s !! name) eqn:Hk; [no_effect|]. destruct (_ <=? _); [no_effect|].
  effect_event (FileSchedulerStoreEvent fileSchedulerStoreEventVersion "initialize" name ""
                  zero_time zero_time t zero_time "")
    (fun m : records => <[name := FileStoredScheduledTask (new_task name t) ""]> m).
  - replay_event "initialize". rewrite (sanitize_valid _ Hutf).
    repeat match goal with H : _ = _ |- _ => rewrite H end. cbn. rewrite lookup_fmap, Hk. cbn.
    by rewrite fmap_insert.
  - unfold event_fits. cbn. repeat split; try done. by apply valid_name_length.
  - apply records_insert; [done|]. constructor; try done.
    by match goal with H : IsZero t = false |- _ => apply Z.eqb_neq in H end.
Qed.

Lemma task_Reserve_effect random ctx name now lease s :
  records_ok (tasks s) -> 0 < now ->
  effect s (fun io => (Reserve_locked (SchedulerStoreEnv io random) ctx name now lease s).1).
Proof.
  intros Hrec Hnow. unfold Reserve_locked. destruct ctx as [|err]; [no_effect|].
  destruct (_ || (lease <=? 0)) eqn:Hg; [no_effect|]. bool_prop.
  destruct (ready s (Ctx err)); [|no_effect..].
  destruct (tasks s !! name) as [r|] eqn:Hk; [|no_effect]. cbn [env_random].
  destruct (_ && After (ReservedUntil _) _); [no_effect|]. destruct (After (NextRunAt _) _); [no_effect|].
  destruct (newSchedulerReservationToken random) as [token| |] eqn:Er; [|no_effect..].
  apply newSchedulerReservationToken_ok in Er as [Hvs Hlt].
  destruct (Hrec _ _ Hk) as [Hkey Hname Hutf Hnext Htok].
  effect_event (FileSchedulerStoreEvent fileSchedulerStoreEventVersion "reserve" name token
                  (NextRunAt (state r)) (now + lease) zero_time zero_time "")
    (fun m : records => <[name := FileStoredScheduledTask (with_lease (state r) (now + lease)) token]> m).
  - replay_event "reserve". rewrite (sanitize_valid _ Hutf), (sanitize_valid _ Hvs), Hname. cbn.
    rewrite lookup_fmap, Hk. cbn. destruct (String.eqb_spec token ""); [by subst|].
    unfold IsZero, Equal. rewrite Z.eqb_refl. destruct (Z.eqb_spec (NextRunAt (state r)) 0); [done|].
    destruct (Z.eqb_spec (now + lease) 0); [lia|]. cbn. by rewrite fmap_insert.
  - unfold event_fits. cbn. rewrite Hlt. repeat split; try done. by apply valid_name_length.
  - apply records_insert; [done|]. constructor; cbn; try done. split; [done|lia].
Qed.

Lemma task_Complete_effect random ctx res next completed error s :
  records_ok (tasks s) ->
  effect s (fun io => (Complete_locked (SchedulerStoreEnv io random) ctx res next completed error s).1).
Proof.
  intros Hrec. unfold Complete_locked. destruct ctx as [|err]; [no_effect|]. cbv zeta.
  destruct (_ || negb (After next completed)) eqn:Hg; [no_effect|]. bool_prop.
  pose proof (normalizeFileSchedulerStoreError_length error) as He.
  set (e := normalizeFileSchedulerStoreError error) in *. clearbody e.
  destruct (ready s (Ctx err)); [|no_effect..].
  destruct (tasks s !! Name (sres_Task res)) as [r|] eqn:Hk; [|no_effect].
  destruct (negb _ || negb _) eqn:Hc; [no_effect|]. bool_prop. unfold Equal in *. bool_prop.
  destruct (Hrec _ _ Hk) as [Hkey Hname Hutf Hnext [Htok Hlt]].
  effect_event (FileSchedulerStoreEvent fileSchedulerStoreEventVersion "complete" (Name (sres_Task res))
                  (sres_Token res) (NextRunAt (sres_Task res)) zero_time next completed e)
    (fun m : records => <[Name (state r) := FileStoredScheduledTask
       (with_completion (state r) next (NextRunAt (sres_Task res)) completed e) ""]> m).
  - assert (sanitize (sres_Token res) = sres_Token res) as Hst by (by apply sanitize_valid; congruence).
    replay_event "complete". rewrite (sanitize_valid _ Hutf), Hst, Hname. cbn.
    rewrite lookup_fmap, Hk. cbn. unfold Equal.
    repeat match goal with H : _ = _ |- _ => rewrite H end. rewrite String.eqb_refl, Z.eqb_refl.
    destruct (String.eqb_spec (sres_Token res) ""); [done|]. cbn. rewrite fmap_insert. unfold persisted, with_completion. cbn. by rewrite Hkey.
  - unfold event_fits. cbn. repeat split; try done; try by apply valid_name_length.
    match goal with H : reservationToken r = _ |- _ => by rewrite <- H end.
  - apply records_insert; [done|]. rewrite Hkey. constructor; cbn; try done.
    by match goal with H : IsZero next = false |- _ => apply Z.eqb_neq in H end.
Qed.

(** ** Sessions: calls, crashes and restarts *)

Inductive call :=
| CallInitialize (ctx : context) (name : string) (t : Z)
| CallReserve (ctx : context) (name : string) (now lease : Z)
| CallComplete (ctx : context) (res : ScheduledTaskReservation) (next completed : Z) (error : string)
| CallClose (io : option goerror).

Definition call_ok (c : call) : Prop :=
  match c with
  | CallInitialize _ name _ => ValidString name = true
  | CallReserve _ _ now _ => 0 < now
  | _ => True
  end.

Definition perform (env : scheduler_store_env) (c : call) (s : FileSchedulerStore) : FileSchedulerStore :=
  default s
    match c with
    | CallInitialize ctx name t => (Initialize env ctx name t (Some s)).1
    | CallReserve ctx name now lease => (Reserve env ctx name now lease (Some s)).1
    | CallComplete ctx res next completed error => (Complete env ctx res next completed error (Some s)).1
    | CallClose io => (Close io (Some s)).1
    end.

Inductive session (abs : string -> result string) (o : FileSchedulerStoreOptions) : FileSchedulerStore -> Prop :=
| session_new s : NewFileSchedulerStore abs io_fine (LogFile [] EmptyString) o = Ok s -> session abs o s
| session_call s c random : session abs o s -> call_ok c ->
    session abs o (perform (SchedulerStoreEnv AppendOk random) c s)
| session_restart s c env s' : session abs o s -> call_ok c ->
    NewFileSchedulerStore abs io_fine (file (perform env c s)) o = Ok s' -> session abs o s'.

Lemma task_default_locked {A} (op : FileSchedulerStore -> FileSchedulerStore * result A) s :
  (op s).1 = default s (with_receiver ErrSchedulerStoreUnavailable (Some s) op).1.
Proof. cbn. by destruct (op s). Qed.

Lemma effect_default {A} (op : append_io -> FileSchedulerStore -> FileSchedulerStore * result A) s :
  effect s (fun io => (op io s).1) ->
  effect s (fun io => default s (with_receiver ErrSchedulerStoreUnavailable (Some s) (op io)).1).
Proof. apply EventLog.effect_ext. intros io. by rewrite <- task_default_locked. Qed.

Lemma task_perform_effect random c s : records_ok (tasks s) -> call_ok c ->
  effect s (fun io => perform (SchedulerStoreEnv io random) c s).
Proof.
  intros Hrec Hc. unfold perform, Initialize, Reserve, Complete.
  destruct c as [ctx name t|ctx name now lease|ctx res next completed error|cio].
  - by apply effect_default, Initialize_effect.
  - by apply effect_default, task_Reserve_effect.
  - by apply effect_default, task_Complete_effect.
  - apply EffectNone. intros _. unfold Close. by destruct (closed s).
Qed.

Record durable (s : FileSchedulerStore) : Prop := Durable {
  dur_records : records_ok (tasks s);
  dur_whole : log_torn (file s) = EmptyString;
  dur_log : rebuilds unmarshal_event applyEvent fileSchedulerStoreMaxEventBytes ErrFileSchedulerStoreCorrupt
              ∅ (persisted <$> tasks s) (file s)
}.

(** The records a restart finds after a call with the given I/O outcome. *)
Definition surviving (random : result (nat -> Z)) (c : call) (io : append_io) (s : FileSchedulerStore) : records :=
  match io with
  | WriteStops _ _ => tasks s
  | _ => tasks (perform (SchedulerStoreEnv AppendOk random) c s)
  end.

Lemma task_perform_rebuilds random c io s : durable s -> call_ok c ->
  let s' := perform (SchedulerStoreEnv io random) c s in
  records_ok (surviving random c io s) /\
  match io with WriteStops _ _ => tasks s' = tasks s | _ => log_torn (file s') = EmptyString end /\
  rebuilds unmarshal_event applyEvent fileSchedulerStoreMaxEventBytes ErrFileSchedulerStoreCorrupt
    ∅ (persisted <$> surviving random c io s) (file s').
Proof.
  intros [Hrec Hw Hlog] Hc. pose proof (task_perform_effect random c s Hrec Hc) as He.
  by apply (effect_rebuilds _ _ _ _ _ _ _ _ _ _ _ _ io Hw Hrec Hlog) in He.
Qed.

Lemma NewFileSchedulerStore_rebuilds abs o o' m f :
  normalizeFileSchedulerStoreOptions abs o = Ok o' ->
  rebuilds unmarshal_event applyEvent fileSchedulerStoreMaxEventBytes ErrFileSchedulerStoreCorrupt ∅ m f ->
  NewFileSchedulerStore abs io_fine f o =
    Ok (MkFileSchedulerStore (opt_Path o') (opt_MaxTasks o') (LogFile (log_lines f) EmptyString) m false).
Proof.
  intros Ho Hr. unfold NewFileSchedulerStore. rewrite Ho.
  pose proof (open_log_rebuilds _ _ _ ErrSchedulerStoreOperationFailed _ _ _ _ Hr) as H.
  unfold open_log, syscall in H. cbn in H. cbn. unfold replay. cbn. by rewrite H.
Qed.

Lemma task_persisted_idemp (m : records) : persisted <$> (persisted <$> m) = persisted <$> m.
Proof.
  rewrite <- map_fmap_compose. apply map_fmap_ext. intros k r _.
  unfold persisted, compose. cbn. by rewrite sanitize_idemp.
Qed.

Lemma task_records_persisted m : records_ok m -> records_ok (persisted <$> m).
Proof.
  intros H k r. rewrite lookup_fmap. destruct (m !! k) as [r0|] eqn:Hk; [|done]. intros [= <-].
  destruct (H _ _ Hk). by constructor.
Qed.

Lemma task_session_durable abs o s : session abs o s ->
  durable s /\ exists o', normalizeFileSchedulerStoreOptions abs o = Ok o'.
Proof.
  induction 1 as [s Hnew|s c random _ [Hd Ho] Hc|s c [io random] s' _ [Hd (o' & Ho)] Hc Hnew].
  - destruct (normalizeFileSchedulerStoreOptions abs o) as [o'| |] eqn:Ho;
      [|by unfold NewFileSchedulerStore in Hnew; rewrite Ho in Hnew..].
    rewrite (NewFileSchedulerStore_rebuilds abs o o' ∅ _ Ho) in Hnew by done. injection Hnew as <-.
    split; [by constructor|eauto].
  - destruct (task_perform_rebuilds random c AppendOk s Hd Hc) as (Hrec & Hw & Hr). split; [by constructor|done].
  - destruct (task_perform_rebuilds random c io s Hd Hc) as (Hrec & _ & Hr).
    rewrite (NewFileSchedulerStore_rebuilds _ _ _ _ _ Ho Hr) in Hnew. injection Hnew as <-.
    split; [|eauto]. constructor; cbn; [by apply task_records_persisted|done|by rewrite task_persisted_idemp].
Qed.

(** The local scheduler store survives crashes: in every session, after
    any further call and whatever happens to its append, reopening the log finds
    exactly the task states of the completed call, or those of before it when
    the write stopped part way. *)
Theorem restart_finds_task_states abs o s c io random :
  session abs o s -> call_ok c ->
  exists s', NewFileSchedulerStore abs io_fine (file (perform (SchedulerStoreEnv io random) c s)) o = Ok s' /\
    tasks s' = persisted <$> surviving random c io s /\
    log_torn (file s') = EmptyString /\ closed s' = false.
Proof.
  intros Hs Hc. destruct (task_session_durable _ _ _ Hs) as [Hd (o' & Ho)].
  destruct (task_perform_rebuilds random c io s Hd Hc) as (_ & _ & Hr).
  rewrite (NewFileSchedulerStore_rebuilds _ _ _ _ _ Ho Hr). by eexists.
Qed.
