(* ===== verification/FileSchedulerStoreSpec.v ===== *)
(** * The local scheduler store implements the scheduler store contract

    The instance of [SchedulerStoreLaws] for [FileSchedulerStore], what
    reservations guarantee there, and the concrete runs that witness the
    theorems. *)
From S2P Require Import Prelude GoTime GoStrings Json EventLog SchedulerStore FileSchedulerStore FileSchedulerStoreFacts.
Open Scope Z_scope.
Open Scope go_scope.

Definition entry_of (r : fileStoredScheduledTask) : StoredScheduledTask * string :=
  (state r, reservationToken r).
Definition view_of (s : option FileSchedulerStore) : task_view :=
  match s with Some s => entry_of <$> tasks s | None => ∅ end.
Definition contract_record (k : string) (r : fileStoredScheduledTask) : Prop := Name (state r) = k.
Definition contract_ok (s : option FileSchedulerStore) : Prop :=
  match s with Some s => map_Forall contract_record (tasks s) | None => True end.

Lemma task_append_cases io s ev : exists s' r, append io s ev = (s', r) /\ tasks s' = tasks s /\
  (forall m, r <> Panicked m).
Proof.
  unfold append. destruct (append_event _ _ _ _ _) as [f r] eqn:E. eexists _, _.
  split; [done|]. split; [done|]. intros m ->. by apply append_event_never_panics in E.
Qed.

Ltac append_outcome :=
  match goal with |- context [append ?io ?s ?ev] =>
    let Hp := fresh "Hp" in
    destruct (task_append_cases io s ev) as (s1 & [u|e|m] & -> & Hj & Hp); [| |by destruct (Hp m)] end.

Lemma task_contract_insert (m : records) k r :
  map_Forall contract_record m -> contract_record k r -> map_Forall contract_record (<[k := r]> m).
Proof. intros. by apply map_Forall_insert_2. Qed.

Lemma Initialize_contract env ctx name next s s' r :
  contract_ok s -> Initialize env ctx name next s = (s', r) -> contract_ok s' /\
  match r with
  | Ok _ => (exists entry, view_of s !! name = Some entry /\ view_of s' = view_of s) \/
            (view_of s !! name = None /\
             view_of s' = <[name := (new_task name next, EmptyString)]> (view_of s))
  | _ => view_of s' = view_of s
  end.
Proof.
  unfold Initialize, with_receiver. destruct s as [s|]; [|by intros _ [= <- <-]]. intros Hok.
  unfold Initialize_locked. destruct ctx as [|err]; [by intros [= <- <-]|].
  destruct (_ || _); [by intros [= <- <-]|]. destruct (ready s _); [|by intros [= <- <-]..].
  destruct (tasks s !! name) as [rec|] eqn:Hk.
  { intros [= <- <-]. split; [done|]. left. exists (entry_of rec). cbn. by rewrite lookup_fmap, Hk. }
  destruct (_ <=? _); [by intros [= <- <-]|].
  append_outcome; intros [= <- <-]; unfold contract_ok, view_of in *; cbn; rewrite Hj; [|done].
  split; [by apply task_contract_insert|]. right. rewrite lookup_fmap, Hk. split; [done|]. by rewrite fmap_insert.
Qed.

Lemma State_contract ctx name s t :
  contract_ok s -> State ctx name s = Ok t -> exists token, view_of s !! name = Some (t, token).
Proof.
  intros _ H. unfold State in H. destruct s as [s|]; [|done]. destruct ctx as [|err]; [done|].
  destruct (negb _); [done|]. destruct (ready s _); [|done..]. cbn in H |- *. rewrite lookup_fmap.
  destruct (tasks s !! name) as [rec|]; [|done]. injection H as <-. by eexists.
Qed.

Lemma task_Reserve_contract env ctx name now lease s s' r :
  contract_ok s -> Reserve env ctx name now lease s = (s', r) -> contract_ok s' /\
  match r with
  | Ok res => exists entry, view_of s !! name = Some entry /\ task_reservable now entry /\
      sres_Task res = with_lease entry.1 (now + lease) /\ Name (sres_Task res) = name /\
      sres_ReservedUntil res = now + lease /\ sres_Token res <> EmptyString /\
      view_of s' = <[name := (with_lease entry.1 (now + lease), sres_Token res)]> (view_of s)
  | _ => view_of s' = view_of s
  end.
Proof.
  unfold Reserve, with_receiver. destruct s as [s|]; [|by intros _ [= <- <-]]. intros Hok.
  unfold Reserve_locked. destruct ctx as [|err]; [by intros [= <- <-]|].
  destruct (_ || _); [by intros [= <- <-]|]. destruct (ready s _); [|by intros [= <- <-]..].
  destruct (tasks s !! name) as [rec|] eqn:Hk; [|by intros [= <- <-]].
  destruct (_ && _) eqn:Hlease; [by intros [= <- <-]|].
  destruct (After (NextRunAt _) now) eqn:Hdue; [by intros [= <- <-]|].
  destruct (newSchedulerReservationToken _) as [token| |] eqn:Er; [|by intros [= <- <-]..].
  apply newSchedulerReservationToken_ok in Er as [_ Hlen]. cbv zeta.
  append_outcome; intros [= <- <-]; unfold contract_ok, view_of in *; cbn; rewrite Hj; [|done].
  pose proof (Hok _ _ Hk) as Hname. split; [by apply task_contract_insert|].
  exists (entry_of rec). rewrite lookup_fmap, Hk, fmap_insert. split; [done|]. split.
  - unfold task_reservable, entry_of, After in *. cbn. apply Z.ltb_ge in Hdue. split; [done|].
    bool_prop. destruct Hlease as [H|H]; bool_prop; [left|right; lia].
    by destruct (reservationToken rec).
  - repeat split; try done. intros ->. done.
Qed.

Lemma task_Complete_contract env ctx res next completed error s s' r :
  contract_ok s -> Complete env ctx res next completed error s = (s', r) -> contract_ok s' /\
  match r with
  | Ok _ => completed < next /\ exists t, view_of s !! Name (sres_Task res) = Some (t, sres_Token res) /\
      NextRunAt t = NextRunAt (sres_Task res) /\
      view_of s' = <[Name (sres_Task res) :=
        (with_completion t next (NextRunAt t) completed (normalizeFileSchedulerStoreError error), EmptyString)]>
        (view_of s)
  | _ => view_of s' = view_of s
  end.
Proof.
  unfold Complete, with_receiver. destruct s as [s|]; [|by intros _ [= <- <-]]. intros Hok.
  unfold Complete_locked. destruct ctx as [|err]; [by intros [= <- <-]|]. cbv zeta.
  destruct (_ || negb (After next completed)) eqn:Hg; [by intros [= <- <-]|]. bool_prop.
  destruct (ready s _); [|by intros [= <- <-]..].
  destruct (tasks s !! _) as [rec|] eqn:Hk; [|by intros [= <- <-]].
  destruct (negb _ || negb _) eqn:Hc; [by intros [= <- <-]|]. unfold Equal, After in *. bool_prop.
  append_outcome; intros [= <- <-]; unfold contract_ok, view_of in *; cbn; rewrite Hj; [|done].
  pose proof (Hok _ _ Hk) as Hname. unfold contract_record in Hname. rewrite Hname.
  split; [by apply task_contract_insert|]. split; [done|].
  exists (state rec). rewrite lookup_fmap, Hk, fmap_insert. cbn. unfold entry_of.
  match goal with H : reservationToken rec = _, H' : NextRunAt (state rec) = _ |- _ => rewrite H, H' end.
  done.
Qed.

#[export] Instance FileSchedulerStore_ops : SchedulerStore (option FileSchedulerStore) scheduler_store_env := {
  sstore_Initialize := Initialize; sstore_State _ := State; sstore_Reserve := Reserve;
  sstore_Complete := Complete
}.
#[export] Instance FileSchedulerStore_laws :
    SchedulerStoreLaws (option FileSchedulerStore) scheduler_store_env := {
  sstore_ok := contract_ok; sstore_view := view_of; sstore_error := normalizeFileSchedulerStoreError;
  sstore_instant t := t;
  Initialize_ok := Initialize_contract; State_ok _ := State_contract;
  Reserve_task_ok := task_Reserve_contract; Complete_task_ok := task_Complete_contract
}.

(** ** Reservations: the contract's theorems at this store *)
Definition file_task_leased :=
  task_reservation_leased (S := option FileSchedulerStore) (E := scheduler_store_env).
Definition file_task_kept := task_lease_kept (S := option FileSchedulerStore) (E := scheduler_store_env).
Definition file_task_excludes := task_lease_excludes (S := option FileSchedulerStore) (E := scheduler_store_env).
Definition file_task_stale := task_stale_stays (S := option FileSchedulerStore) (E := scheduler_store_env).

(** One worker per occurrence.  While the lease of a reserved task lasts,
    [Reserve] refuses the task to everybody else, whatever calls are made
    meanwhile short of completing it with its own token. *)
Theorem reserved_task_is_exclusive env ctx name now lease s s1 res s2 env' ctx' now' lease' :
  contract_ok s ->
  Reserve env ctx name now lease s = (s1, Ok res) ->
  task_run (E := scheduler_store_env) (task_keeps res) s1 s2 ->
  now' < now + lease ->
  is_ok (Reserve env' ctx' name now' lease' s2).2 = false.
Proof.
  intros Hok H Hrun Hlt.
  destruct (file_task_leased env ctx name now lease s s1 res Hok H) as (Hok1 & Hl & Hn & Hu).
  destruct (file_task_kept res s1 s2 Hok1 Hl Hrun) as [Hok2 Hl2]. rewrite <- Hn.
  destruct (Reserve env' _ _ _ _ _) as [s3 [res'|e|m]] eqn:E; [|done..]. exfalso. revert E.
  apply (file_task_excludes env' ctx' now' lease' s2 res s3 res' Hok2 Hl2). by rewrite Hu.
Qed.

(** A completed occurrence is completed once: after a successful
    [Complete] the same reservation is refused at any later time, as long as its
    token is not drawn again. *)
Theorem occurrence_completes_once env ctx res next completed error s s1 s2 :
  contract_ok s ->
  Complete env ctx res next completed error s = (s1, Ok tt) ->
  task_run (E := scheduler_store_env)
    (fun o => match o with TaskTookAt _ r => sres_Token r <> sres_Token res | _ => True end) s1 s2 ->
  forall env' ctx' next' completed' error',
    is_ok (Complete env' ctx' res next' completed' error' s2).2 = false.
Proof.
  intros Hok H Hrun env' ctx' next' completed' error'.
  assert (sres_Token res <> "") as Hne.
  { intros E. unfold Complete, with_receiver, Complete_locked in H. destruct s as [s|]; [|done].
    destruct ctx as [|err]; [done|]. rewrite E in H. cbn [String.eqb] in H.
    rewrite orb_true_r in H. by cbn in H. }
  apply (task_Complete_contract _ _ _ _ _ _ _ _ _ Hok) in H as [Hok1 (_ & t & Hl & Hn & Hv)].
  assert (~ task_holds (view_of s1) res) as Hst.
  { intros (t' & Ht' & _). rewrite Hv, lookup_insert_eq in Ht'. congruence. }
  destruct (file_task_stale s1 s2 res Hok1 Hne Hst Hrun) as [Hok2 Hst2].
  destruct (Complete _ _ _ _ _ _ s2) as [s3 [u|e|m]] eqn:E; [|done..].
  apply (task_Complete_contract _ _ _ _ _ _ _ _ _ Hok2) in E as [_ (_ & t' & Hl' & Hn' & _)].
  destruct Hst2. by exists t'.
Qed.

(** ** Concrete runs *)
Module Sample.
Definition options : FileSchedulerStoreOptions := MkFileSchedulerStoreOptions "/var/lib/tasks.log" 4.
Definition env (b : Z) : scheduler_store_env := SchedulerStoreEnv AppendOk (Ok (fun _ => b)).
Definition empty : FileSchedulerStore := MkFileSchedulerStore "/var/lib/tasks.log" 4 (LogFile [] EmptyString) ∅ false.
Definition one : FileSchedulerStore := perform (env 0) (CallInitialize Background "report" 5000) empty.
Definition res : ScheduledTaskReservation :=
  MkScheduledTaskReservation (MkStoredScheduledTask "report" 5000 0 0 "" 6100) (hex_encode (repeat 51 32)) 6100.
Definition taken : option FileSchedulerStore := (Reserve (env 51) Background "report" 6000 100 (Some one)).1.
Definition done_ : option FileSchedulerStore := (Complete (env 0) Background res 9000 6050 "" taken).1.
Lemma task_session_one : session Ok options one.
Proof. apply (session_call _ _ empty _ (Ok (fun _ => 0))); [by apply session_new|done]. Qed.
Lemma one_ok : contract_ok (Some one).
Proof. apply task_contract_insert; [apply map_Forall_empty|done]. Qed.
Lemma task_taken_by_worker : Reserve (env 51) Background "report" 6000 100 (Some one) = (taken, Ok res).
Proof. vm_compute. reflexivity. Qed.
Lemma task_taken_ok : contract_ok taken.
Proof. apply (task_Reserve_contract _ _ _ _ _ _ _ _ one_ok task_taken_by_worker). Qed.
Lemma completed : Complete (env 0) Background res 9000 6050 "" taken = (done_, Ok tt).
Proof. vm_compute. reflexivity. Qed.
End Sample.

Lemma restart_finds_task_states_witness :
  exists s', NewFileSchedulerStore Ok io_fine
      (file (perform (SchedulerStoreEnv (SyncFails (ErrNew "EIO")) (Ok (fun _ => 51)))
         (CallReserve Background "report" 6000 100) Sample.one)) Sample.options = Ok s' /\
    tasks s' = persisted <$> surviving (Ok (fun _ => 51)) (CallReserve Background "report" 6000 100)
      (SyncFails (ErrNew "EIO")) Sample.one /\ log_torn (file s') = EmptyString /\ closed s' = false.
Proof. apply (restart_finds_task_states Ok Sample.options); [exact Sample.task_session_one|done]. Defined.

Lemma reserved_task_is_exclusive_witness :
  is_ok (Reserve (Sample.env 68) Background "report" 6050 100 Sample.taken).2 = false.
Proof.
  exact (reserved_task_is_exclusive (Sample.env 51) Background "report" 6000 100 (Some Sample.one) Sample.taken
    Sample.res Sample.taken (Sample.env 68) Background 6050 100 Sample.one_ok Sample.task_taken_by_worker
    (task_run_refl _ _) eq_refl).
Defined.

Lemma occurrence_completes_once_witness :
  is_ok (Complete (Sample.env 0) Background Sample.res 9900 6060 "" Sample.done_).2 = false.
Proof.
  exact (occurrence_completes_once (Sample.env 0) Background Sample.res 9000 6050 "" Sample.taken Sample.done_
    Sample.done_ Sample.task_taken_ok Sample.completed (task_run_refl _ _) (Sample.env 0) Background 9900 6060 "").
Defined.
