(* ===== verification/Jobs.v ===== *)
(** * Jobs: handlers, options, dispatching and one execution
    [backend/framework/jobs.go], [jobs_persistent.go]

    The data of the job queue and the parts of it that do not depend on how its
    goroutines interleave: normalising options, registering handlers, preparing
    a dispatch, the attempts of one execution.  [JobQueue.v] has the queue in
    memory as a transition system, [JobWorkers.v] the workers of a persistent
    queue over the contract of its store.  A Go type is its name; the values of
    jobs are the type [V]; encoding and decoding them is part of the handler's
    entry, and what running the handler does is given by an oracle. *)
From S2P Require Import Prelude GoTime GoStrings JobStore.
Open Scope Z_scope.
Open Scope go_scope.

Definition ErrJobQueueUnavailable := ErrNew "framework: job queue is unavailable".
Definition ErrInvalidJobQueueOptions := ErrNew "framework: job queue options are invalid".
Definition ErrInvalidJobHandler := ErrNew "framework: job handler is invalid".
Definition ErrInvalidJobHandlerOptions := ErrNew "framework: job handler options are invalid".
Definition ErrJobHandlerAlreadyDefined := ErrNew "framework: job handler is already defined".
Definition ErrJobHandlerNameAlreadyDefined := ErrNew "framework: job handler name is already defined".
Definition ErrJobHandlerRegistrationClosed := ErrNew "framework: job handler registration is closed".
Definition ErrJobHandlerNotFound := ErrNew "framework: job handler is not registered".
Definition ErrJobQueueNotRunning := ErrNew "framework: job queue is not running".
Definition ErrJobQueueStopped := ErrNew "framework: job queue has stopped".
Definition ErrInvalidJobDelay := ErrNew "framework: job delay is invalid".
Definition ErrJobDispatchFailed := ErrNew "framework: job dispatch failed".
Definition ErrJobExecutionFailed := ErrNew "framework: job execution failed".
Definition ErrJobRetriesExhausted := ErrNew "framework: job retries exhausted".

Definition defaultJobQueueCapacity : Z := 64.
Definition defaultJobQueueWorkers : Z := 1.
Definition defaultJobPollInterval : Z := 100 * Millisecond.
Definition defaultJobLeaseDuration : Z := Minute.

(** ** Data *)

Record JobFailure := MkJobFailure {
  failure_JobID : string;
  failure_Handler : string;
  failure_JobType : string;
  failure_Attempts : Z;
  failure_MaxAttempts : Z;
  failure_Err : goerror
}.

(** [HasStore] is [Store != nil]. *)
Record JobQueueOptions := MkJobQueueOptions {
  Capacity : Z;
  Workers : Z;
  JobTimeout : Z;
  HasStore : bool;
  PollInterval : Z;
  LeaseDuration : Z
}.

Record JobHandlerOptions := MkJobHandlerOptions {
  MaxAttempts : Z;
  RetryBackoff : Z
}.

Definition DefaultJobQueueOptions : JobQueueOptions :=
  MkJobQueueOptions defaultJobQueueCapacity defaultJobQueueWorkers (30 * Second) false
    defaultJobPollInterval defaultJobLeaseDuration.

Inductive jobQueueState :=
| jobQueueCollecting
| jobQueueRunning
| jobQueueStopping
| jobQueueStopped.
#[export] Instance jobQueueState_eq_dec : EqDecision jobQueueState.
Proof. solve_decision. Defined.

Section Jobs.
Context {V : Type}.

Record jobHandlerEntry := JobHandlerEntry {
  jobType : string;
  name : string;
  handlerOptions : JobHandlerOptions;
  encode : V -> result string;
  decode : string -> result V
}.

Record queuedJob := QueuedJob {
  q_jobType : string;
  q_value : V;
  q_handler : jobHandlerEntry
}.

(** The registry part of a queue. *)
Record registry := Registry {
  reg_options : JobQueueOptions;
  handlers : gmap string jobHandlerEntry;
  handlersByName : gmap string jobHandlerEntry;
  reg_state : jobQueueState
}.

(** ** Options *)

Definition normalizeJobQueueOptions (o : JobQueueOptions) : result JobQueueOptions :=
  if (Capacity o <? 0) || (Workers o <? 0) || (JobTimeout o <? 0) || (PollInterval o <? 0) ||
     (LeaseDuration o <? 0)
  then Err ErrInvalidJobQueueOptions else
  let capacity := if Capacity o =? 0 then defaultJobQueueCapacity else Capacity o in
  let workers := if Workers o =? 0 then defaultJobQueueWorkers else Workers o in
  if HasStore o then
    let timeout := if JobTimeout o =? 0 then JobTimeout DefaultJobQueueOptions else JobTimeout o in
    let poll := if PollInterval o =? 0 then defaultJobPollInterval else PollInterval o in
    let lease := if LeaseDuration o =? 0 then defaultJobLeaseDuration else LeaseDuration o in
    if lease <=? timeout then Err ErrInvalidJobQueueOptions
    else Ok (MkJobQueueOptions capacity workers timeout true poll lease)
  else Ok (MkJobQueueOptions capacity workers (JobTimeout o) false (PollInterval o) (LeaseDuration o)).

Definition normalizeJobHandlerOptions (o : JobHandlerOptions) : result JobHandlerOptions :=
  if (MaxAttempts o <? 0) || (RetryBackoff o <? 0) then Err ErrInvalidJobHandlerOptions
  else Ok (MkJobHandlerOptions (if MaxAttempts o =? 0 then 1 else MaxAttempts o) (RetryBackoff o)).

(** ** Registration

    [handler] is [None] for a nil function; [encode] and [decode] are the
    closures built for the type [T]. *)
Definition HandleJobWithOptions (queue : option registry) (name : string) (o : JobHandlerOptions)
    (handler : option ((V -> result string) * (string -> result V))) (jobType : string)
    : option registry * result unit :=
  match queue with
  | None => (None, Err ErrJobQueueUnavailable)
  | Some q =>
      let name := TrimSpace name in
      match String.eqb name "", handler with
      | false, Some (enc, dec) =>
          match normalizeJobHandlerOptions o with
          | Ok o =>
              let entry := JobHandlerEntry jobType name o enc dec in
              if negb (bool_decide (reg_state q = jobQueueCollecting))
              then (Some q, Err ErrJobHandlerRegistrationClosed) else
              match handlers q !! jobType with
              | Some registered =>
                  (Some q, Err (Errorf [W ErrJobHandlerAlreadyDefined; T ": "; T jobType; T " handler ";
                                        T (Quote (Jobs.name registered))]))
              | None =>
                  match (if HasStore (reg_options q) then handlersByName q !! name else None) with
                  | Some registered =>
                      (Some q, Err (Errorf [W ErrJobHandlerNameAlreadyDefined; T ": handler "; T (Quote name);
                                            T " already belongs to "; T (Jobs.jobType registered)]))
                  | None =>
                      let byName := if HasStore (reg_options q) then <[name := entry]> (handlersByName q)
                                    else handlersByName q in
                      (Some (Registry (reg_options q) (<[jobType := entry]> (handlers q)) byName (reg_state q)),
                       Ok tt)
                  end
              end
          | Err e => (Some q, Err e)
          | Panicked m => (Some q, Panicked m)
          end
      | _, _ => (Some q, Err ErrInvalidJobHandler)
      end
  end.
Definition HandleJob (queue : option registry) (name : string)
    (handler : option ((V -> result string) * (string -> result V))) (jobType : string) :=
  HandleJobWithOptions queue name (MkJobHandlerOptions 0 0) handler jobType.

(** ** Dispatching *)

Definition dispatch_error (jobType : string) (cause : list fmt_part) : goerror :=
  Errorf (W ErrJobDispatchFailed :: T ": job " :: T jobType :: cause).
Definition stoppedJobDispatchError (jobType : string) : goerror :=
  dispatch_error jobType [T ": "; W ErrJobQueueStopped].
Definition contextJobDispatchError (jobType : string) (err : goerror) : goerror :=
  dispatch_error jobType [T " enqueue context: "; W err].

Definition prepareJobDispatch (ctx : context) (queue : option registry) (jobType : string) (job : V)
    : result queuedJob :=
  match queue with
  | None => Err ErrJobQueueUnavailable
  | Some q =>
      match ctx with
      | NilContext => Err ErrJobContextUnavailable
      | Ctx (Some err) => Err (contextJobDispatchError jobType err)
      | Ctx None =>
          match reg_state q with
          | jobQueueCollecting => Err (dispatch_error jobType [T ": "; W ErrJobQueueNotRunning])
          | jobQueueStopping | jobQueueStopped => Err (dispatch_error jobType [T ": "; W ErrJobQueueStopped])
          | jobQueueRunning =>
              match handlers q !! jobType with
              | None => Err (dispatch_error jobType [T ": "; W ErrJobHandlerNotFound])
              | Some handler => Ok (QueuedJob jobType job handler)
              end
          end
      end
  end.

(** What a dispatch goes on to do: send the job, or hold it until [readyAt].
    With a store both become [persistJob]. *)
Inductive dispatch_plan :=
| DispatchNow (j : queuedJob)
| DispatchLater (j : queuedJob) (readyAt : Z).

Definition DispatchJob (ctx : context) (queue : option registry) (jobType : string) (job : V)
    : result dispatch_plan :=
  let* queued := prepareJobDispatch ctx queue jobType job in Ok (DispatchNow queued).
Definition dispatchJobAt (ctx : context) (queue : option registry) (readyAt : Z) (jobType : string) (job : V)
    : result dispatch_plan :=
  let* queued := prepareJobDispatch ctx queue jobType job in Ok (DispatchLater queued readyAt).

Definition DispatchJobAfter (ctx : context) (queue : option registry) (delay now : Z)
    (jobType : string) (job : V) : result dispatch_plan :=
  match queue, ctx with
  | None, _ => Err ErrJobQueueUnavailable
  | _, NilContext => Err ErrJobContextUnavailable
  | _, _ =>
      if delay <? 0 then Err (Errorf [W ErrJobDispatchFailed; T ": "; W ErrInvalidJobDelay;
                                      T ": delay must not be negative"])
      else if delay =? 0 then DispatchJob ctx queue jobType job
      else dispatchJobAt ctx queue (now + delay) jobType job
  end.
Definition DispatchJobAt (ctx : context) (queue : option registry) (readyAt now : Z)
    (jobType : string) (job : V) : result dispatch_plan :=
  match queue, ctx with
  | None, _ => Err ErrJobQueueUnavailable
  | _, NilContext => Err ErrJobContextUnavailable
  | _, _ => if negb (After readyAt now) then DispatchJob ctx queue jobType job
            else dispatchJobAt ctx queue readyAt jobType job
  end.

(** ** One execution

    [outcome n] is what the [n]-th call of the handler does. *)
Definition executeAttempt (outcome : result unit) : option goerror :=
  match outcome with
  | Ok _ => None
  | Err e => Some e
  | Panicked m => Some (ErrNew ("handler panic: " +:+ m))
  end.

(** [for attempt := 1; attempt <= MaxAttempts; attempt++]: the number of calls
    made and the error of the last one. *)
Fixpoint attempts_loop (n : nat) (attempt : Z) (outcome : Z -> result unit) (last : option goerror)
    : Z * option goerror :=
  match n with
  | O => (attempt - 1, last)
  | S n => match executeAttempt (outcome attempt) with
           | None => (attempt, None)
           | Some e => attempts_loop n (attempt + 1) outcome (Some e)
           end
  end.

Definition exhausted_error (handler : jobHandlerEntry) (attempts : Z) (cause : goerror) : goerror :=
  let failure := Errorf [W ErrJobExecutionFailed; T ": job "; T (jobType handler); T " handler ";
    T (Quote (name handler)); T " after "; T (Itoa attempts); T " attempt(s): "; W cause] in
  if 1 <? MaxAttempts (handlerOptions handler)
  then Errorf [W ErrJobRetriesExhausted; T ": "; W failure] else failure.

(** [execute]: the calls made and the failure reported, if any. *)
Definition execute (job : queuedJob) (outcome : Z -> result unit) : Z * option JobFailure :=
  let max := MaxAttempts (handlerOptions (q_handler job)) in
  match attempts_loop (Z.to_nat max) 1 outcome None with
  | (calls, None) => (calls, None)
  | (calls, Some cause) =>
      (calls, Some (MkJobFailure "" (name (q_handler job)) (q_jobType job) max max
                      (exhausted_error (q_handler job) max cause)))
  end.

(** ** Theorems *)

Lemma attempts_loop_spec outcome n : forall attempt last calls err, n <> O ->
  attempts_loop n attempt outcome last = (calls, err) ->
  attempt <= calls < attempt + Z.of_nat n /\
  (forall k, attempt <= k < calls -> executeAttempt (outcome k) <> None) /\
  err = executeAttempt (outcome calls) /\
  (err <> None -> calls = attempt + Z.of_nat n - 1).
Proof.
  induction n as [|n IH]; intros attempt last calls err Hn H; [done|]. cbn [attempts_loop] in H.
  destruct (executeAttempt (outcome attempt)) as [e|] eqn:E.
  - destruct n as [|n].
    + cbn in H. replace (attempt + 1 - 1) with attempt in H by lia. injection H as <- <-.
      split; [lia|]. split; [lia|]. split; [done|]. lia.
    + apply IH in H as (Hc & Hk & He & Hm); [|done]. split; [lia|]. split; [|split; [done|lia]].
      intros k Hk'. destruct (decide (k = attempt)) as [->|]; [by rewrite E|]. apply Hk. lia.
  - injection H as <- <-. split; [lia|]. split; [lia|]. by rewrite E.
Qed.

(** One execution in memory: the handler is called until it succeeds, at
    most [MaxAttempts] times; a failure is reported exactly when every call
    failed (a panic counts as a failure), it wraps the last error, and it says
    that retries were exhausted when there was more than one attempt. *)
Theorem execute_attempts_and_reports job outcome calls report :
  1 <= MaxAttempts (handlerOptions (q_handler job)) ->
  execute job outcome = (calls, report) ->
  1 <= calls <= MaxAttempts (handlerOptions (q_handler job)) /\
  (forall k, 1 <= k < calls -> executeAttempt (outcome k) <> None) /\
  match report with
  | None => executeAttempt (outcome calls) = None
  | Some f => calls = MaxAttempts (handlerOptions (q_handler job)) /\ failure_Attempts f = calls /\
      exists cause, executeAttempt (outcome calls) = Some cause /\
        errors_is (failure_Err f) ErrJobExecutionFailed = true /\
        (errors_is cause ErrJobRetriesExhausted = false ->
         errors_is (failure_Err f) ErrJobRetriesExhausted = (1 <? calls))
  end.
Proof.
  intros Hmax H. unfold execute in H. set (max := MaxAttempts _) in *.
  destruct (attempts_loop (Z.to_nat max) 1 outcome None) as [c err] eqn:E.
  apply attempts_loop_spec in E as (Hc & Hk & He & Hm); [|lia].
  destruct err as [cause|]; injection H as <- <-; (split; [lia|]; split; [done|]); [|done].
  assert (c = max) as -> by (rewrite Hm; [lia|done]).
  split; [done|]. split; [done|]. exists cause. split; [done|]. cbn [failure_Err].
  unfold exhausted_error. fold max. destruct (1 <? max); cbn; [done|].
  split; [done|]. intros ->. done.
Qed.
End Jobs.
Arguments jobHandlerEntry : clear implicits.
Arguments queuedJob : clear implicits.
Arguments registry : clear implicits.

Lemma execute_attempts_and_reports_witness :
  let job := QueuedJob "int" 7%nat (JobHandlerEntry "int" "count" (MkJobHandlerOptions 3 0)
               (fun _ => Ok "7") (fun _ => Ok 7%nat)) in
  executeAttempt (if Z.eqb 2 2 then Ok tt else Panicked "boom") = None.
Proof.
  exact (proj2 (proj2 (execute_attempts_and_reports
    (QueuedJob "int" 7%nat (JobHandlerEntry "int" "count" (MkJobHandlerOptions 3 0)
       (fun _ => Ok "7") (fun _ => Ok 7%nat)))
    (fun n => if Z.eqb n 2 then Ok tt else Panicked "boom") 2 None
    ltac:(cbn; lia) eq_refl))).
Defined.
