(* ===== verification/JobQueue.v ===== *)
(** * The in-memory job queue as a transition system
    [backend/framework/jobs.go], [jobs_delayed.go]

    The queue without a store: its channels are lists bounded by [Capacity],
    its goroutines are the callers inside a dispatch, the scheduler of delayed
    jobs, the workers, and the goroutines of [Shutdown].  A step is one of
    their actions between two synchronisations.  [accepted] and [executed] are
    history: the jobs whose dispatch returned nil, the jobs whose execution
    ended. *)
From S2P Require Import Prelude GoTime GoStrings JobStore Jobs.
Open Scope Z_scope.
Open Scope go_scope.

Section JobQueue.
Context {V : Type}.
Abbreviation job := (queuedJob V).

(** ** Delayed jobs: the heap *)

Record scheduledJob := ScheduledJob {
  s_job : job;
  readyAt : Z;
  sequence : Z
}.

(** [Less]. *)
Definition Less (a b : scheduledJob) : bool :=
  if Equal (readyAt a) (readyAt b) then sequence a <? sequence b else Before (readyAt a) (readyAt b).

(** [heap.Pop]: a least element, the one added first among equals, and the
    rest.  The heap's array order is not modelled. *)
Fixpoint Pop (pending : list scheduledJob) : option (scheduledJob * list scheduledJob) :=
  match pending with
  | [] => None
  | x :: rest =>
      match Pop rest with
      | None => Some (x, rest)
      | Some (y, rest') => if Less y x then Some (y, x :: rest') else Some (x, rest)
      end
  end.
(** [heap.Push]. *)
Definition Push (pending : list scheduledJob) (x : scheduledJob) : list scheduledJob := pending ++ [x].
Definition with_sequence (x : scheduledJob) (n : Z) : scheduledJob := ScheduledJob (s_job x) (readyAt x) n.

(** ** State *)

(** A caller between [prepareJobDispatch] and its return. *)
Inductive dispatcher :=
| Sending (j : job)                  (* at the select of [DispatchJob] *)
| WaitingSlot (x : scheduledJob)     (* at the select of [dispatchJobAt] *)
| HoldingSlot (x : scheduledJob).    (* about to send to [queue.scheduled] *)

(** Where [schedule] and [drainScheduledJobs] are. *)
Inductive scheduler :=
| NotStarted
| Selecting (pending : list scheduledJob) (seq : Z)
| Promoting (x : scheduledJob) (pending : list scheduledJob) (seq : Z)
| DrainReceiving (pending : list scheduledJob) (seq : Z)
| DrainPopping (pending : list scheduledJob)
| DrainPromoting (x : scheduledJob) (pending : list scheduledJob)
| SchedulerDone.

Record system := System {
  capacity : nat;
  workers : nat;
  state : jobQueueState;
  jobs : list job;                  (* the channel [queue.jobs] *)
  jobsClosed : bool;
  scheduled : list scheduledJob;    (* the channel [queue.scheduled] *)
  delayedSlots : nat;               (* tokens in [queue.delayedSlots] *)
  stopping : bool;                  (* [queue.stopping] is closed *)
  scheduleStop : bool;
  dispatchers : list dispatcher;    (* as many as [queue.dispatches] counts *)
  sched : scheduler;
  busy : list job;                  (* jobs the workers are executing *)
  accepted : list job;
  executed : list job
}.

Definition NewJobQueue (capacity workers : nat) : system :=
  System capacity workers jobQueueCollecting [] false [] 0 false false [] NotStarted [] [] [].

Definition set_dispatchers (s : system) (l : list dispatcher) : system :=
  System (capacity s) (workers s) (state s) (jobs s) (jobsClosed s) (scheduled s) (delayedSlots s)
    (stopping s) (scheduleStop s) l (sched s) (busy s) (accepted s) (executed s).
Definition set_sched (s : system) (x : scheduler) : system :=
  System (capacity s) (workers s) (state s) (jobs s) (jobsClosed s) (scheduled s) (delayedSlots s)
    (stopping s) (scheduleStop s) (dispatchers s) x (busy s) (accepted s) (executed s).
Definition set_scheduled (s : system) (l : list scheduledJob) : system :=
  System (capacity s) (workers s) (state s) (jobs s) (jobsClosed s) l (delayedSlots s)
    (stopping s) (scheduleStop s) (dispatchers s) (sched s) (busy s) (accepted s) (executed s).
Definition set_slots (s : system) (n : nat) : system :=
  System (capacity s) (workers s) (state s) (jobs s) (jobsClosed s) (scheduled s) n
    (stopping s) (scheduleStop s) (dispatchers s) (sched s) (busy s) (accepted s) (executed s).
Definition set_work (s : system) (channel running finished : list job) : system :=
  System (capacity s) (workers s) (state s) channel (jobsClosed s) (scheduled s) (delayedSlots s)
    (stopping s) (scheduleStop s) (dispatchers s) (sched s) running (accepted s) finished.
Definition set_state (s : system) (st : jobQueueState) (stop schedStop closed : bool) (x : scheduler) : system :=
  System (capacity s) (workers s) st (jobs s) closed (scheduled s) (delayedSlots s)
    stop schedStop (dispatchers s) x (busy s) (accepted s) (executed s).
Definition accept (s : system) (j : job) : system :=
  System (capacity s) (workers s) (state s) (jobs s) (jobsClosed s) (scheduled s) (delayedSlots s)
    (stopping s) (scheduleStop s) (dispatchers s) (sched s) (busy s) (accepted s ++ [j]) (executed s).

(** ** The operations *)

(** [Start], past its nil check. *)
Definition Start (s : system) : system * result unit :=
  match state s with
  | jobQueueRunning => (s, Ok tt)
  | jobQueueStopping | jobQueueStopped => (s, Err ErrJobQueueStopped)
  | jobQueueCollecting =>
      (set_state s jobQueueRunning (stopping s) (scheduleStop s) (jobsClosed s) (Selecting [] 0), Ok tt)
  end.

(** What the locked part of [Shutdown] does and how the call goes on. *)
Inductive shutdown_next := Returned (r : result unit) | WaitDone | WaitDispatches.
Definition Shutdown (ctx : context) (s : system) : system * shutdown_next :=
  match ctx with
  | NilContext => (s, Returned (Err ErrJobContextUnavailable))
  | Ctx err =>
      match state s with
      | jobQueueStopped => (s, Returned (Ok tt))
      | jobQueueStopping => (s, WaitDone)
      | st =>
          match err with
          | Some err => (s, Returned (Err err))
          | None =>
              match st with
              | jobQueueCollecting =>
                  (set_state s jobQueueStopped true true true SchedulerDone, Returned (Ok tt))
              | _ => (set_state s jobQueueStopping true (scheduleStop s) (jobsClosed s) (sched s), WaitDispatches)
              end
          end
      end
  end.

(** [promoteScheduledJob]: the send and the return of the slot. *)
Definition promoteScheduledJob (s : system) (x : scheduledJob) (next : scheduler) : system :=
  set_sched (set_slots (set_work s (jobs s ++ [s_job x]) (busy s) (executed s)) (delayedSlots s - 1)) next.

(** Removing one element of a list of goroutines. *)
Inductive removed {A} (x : A) : list A -> list A -> Prop :=
| removed_here l : removed x (x :: l) l
| removed_there y l l' : removed x l l' -> removed x (y :: l) (y :: l').

(** ** The steps *)

(** Steps of callers. *)
Inductive caller_step (s : system) : system -> Prop :=
| step_start s' : Start s = (s', Ok tt) -> caller_step s s'
| step_dispatch j : state s = jobQueueRunning ->
    caller_step s (set_dispatchers s (dispatchers s ++ [Sending j]))
| step_dispatch_at x : state s = jobQueueRunning ->
    caller_step s (set_dispatchers s (dispatchers s ++ [WaitingSlot x]))
| step_shutdown ctx s' next : Shutdown ctx s = (s', next) -> caller_step s s'.

(** Steps of the dispatches under way, the scheduler, the workers and the
    goroutines of [Shutdown]. *)
Inductive internal_step (now : Z) (s : system) : system -> Prop :=
| step_send j l : removed (Sending j) (dispatchers s) l -> (length (jobs s) < capacity s)%nat ->
    internal_step now s (accept (set_dispatchers (set_work s (jobs s ++ [j]) (busy s) (executed s)) l) j)
| step_take_slot x l : removed (WaitingSlot x) (dispatchers s) l -> (delayedSlots s < capacity s)%nat ->
    internal_step now s (set_dispatchers (set_slots s (delayedSlots s + 1)) (HoldingSlot x :: l))
| step_abort d l : removed d (dispatchers s) l ->
    (forall x, d <> HoldingSlot x) ->  (* the [stopping] and [ctx.Done()] cases *)
    internal_step now s (set_dispatchers s l)
| step_send_scheduled x l : removed (HoldingSlot x) (dispatchers s) l -> (length (scheduled s) < capacity s)%nat ->
    internal_step now s (accept (set_dispatchers (set_scheduled s (scheduled s ++ [x])) l) (s_job x))
| step_receive x r p seq : sched s = Selecting p seq -> scheduled s = x :: r ->
    internal_step now s
      (set_sched (set_scheduled s r) (Selecting (Push p (with_sequence x (seq + 1))) (seq + 1)))
| step_timer p seq x p' : sched s = Selecting p seq -> Pop p = Some (x, p') -> readyAt x <= now ->
    internal_step now s (set_sched s (Promoting x p' seq))
| step_promote x p seq : sched s = Promoting x p seq -> (length (jobs s) < capacity s)%nat ->
    internal_step now s (promoteScheduledJob s x (Selecting p seq))
| step_schedule_stop p seq : sched s = Selecting p seq -> scheduleStop s = true ->
    internal_step now s (set_sched s (DrainReceiving p seq))
| step_drain_receive x r p seq : sched s = DrainReceiving p seq -> scheduled s = x :: r ->
    internal_step now s
      (set_sched (set_scheduled s r) (DrainReceiving (Push p (with_sequence x (seq + 1))) (seq + 1)))
| step_drain_default p seq : sched s = DrainReceiving p seq -> scheduled s = [] ->
    internal_step now s (set_sched s (DrainPopping p))
| step_drain_pop p x p' : sched s = DrainPopping p -> Pop p = Some (x, p') ->
    internal_step now s (set_sched s (DrainPromoting x p'))
| step_drain_promote x p : sched s = DrainPromoting x p -> (length (jobs s) < capacity s)%nat ->
    internal_step now s (promoteScheduledJob s x (DrainPopping p))
| step_drain_done : sched s = DrainPopping [] -> internal_step now s (set_sched s SchedulerDone)
| step_work j r : sched s <> NotStarted -> jobs s = j :: r -> (length (busy s) < workers s)%nat ->
    internal_step now s (set_work s r (busy s ++ [j]) (executed s))
| step_worked j l : removed j (busy s) l ->
    internal_step now s (set_work s (jobs s) l (executed s ++ [j]))
| step_dispatches_done : state s = jobQueueStopping -> dispatchers s = [] -> scheduleStop s = false ->
    internal_step now s (set_state s (state s) (stopping s) true (jobsClosed s) (sched s))
| step_close_jobs : state s = jobQueueStopping -> sched s = SchedulerDone -> jobsClosed s = false ->
    internal_step now s (set_state s (state s) (stopping s) (scheduleStop s) true (sched s))
| step_stopped : state s = jobQueueStopping -> jobsClosed s = true -> jobs s = [] -> busy s = [] ->
    internal_step now s (set_state s jobQueueStopped (stopping s) (scheduleStop s) (jobsClosed s) (sched s)).

Inductive reachable (capacity workers : nat) : system -> Prop :=
| reachable_new : reachable capacity workers (NewJobQueue capacity workers)
| reachable_caller s s' : reachable capacity workers s -> caller_step s s' -> reachable capacity workers s'
| reachable_internal now s s' :
    reachable capacity workers s -> internal_step now s s' -> reachable capacity workers s'.
End JobQueue.
