(* ===== verification/JobQueueFacts.v ===== *)
(** * The in-memory job queue loses no job and its shutdown terminates

    An invariant of the reachable states of [JobQueue.v], then what follows:
    every job whose dispatch returned nil has been executed when the queue has
    stopped, the channels are used as they may be (no send on a closed channel,
    the send to [queue.scheduled] never blocks), and shutting down cannot get
    stuck nor go on forever. *)
From S2P Require Import Prelude GoTime GoStrings JobStore Jobs JobQueue.
Open Scope Z_scope.
Open Scope go_scope.

Section Facts.
Context {V : Type}.
Implicit Types (s : system (V := V)).

Lemma Pop_permutation (p : list (scheduledJob (V := V))) x p' : Pop p = Some (x, p') -> p ≡ₚ x :: p'.
Proof.
  revert x p'. induction p as [|y p IH]; intros x p' H; [done|]. cbn in H.
  destruct (Pop p) as [[z q]|] eqn:E; [|by injection H as <- <-].
  destruct (Less z y); injection H as <- <-; [|done]. rewrite (IH z q eq_refl). constructor.
Qed.

Lemma Pop_none (p : list (scheduledJob (V := V))) : Pop p = None -> p = [].
Proof. destruct p as [|y p]; [done|]. cbn. by destruct (Pop p) as [[z q]|]; [destruct (Less z y)|]. Qed.

Lemma removed_permutation {A} (x : A) l l' : removed x l l' -> l ≡ₚ x :: l'.
Proof. induction 1 as [|y l l' _ IH]; [done|]. rewrite IH. constructor. Qed.

Lemma removed_exists {A} (x : A) l : x ∈ l -> exists l', removed x l l'.
Proof.
  induction l as [|y l IH]; intros H; [by apply not_elem_of_nil in H|].
  apply elem_of_cons in H as [->|H]; [eexists; constructor|].
  destruct (IH H) as [l' ?]. eexists. by constructor.
Qed.

(** The delayed jobs the scheduler holds. *)
Definition in_scheduler (x : scheduler (V := V)) : list scheduledJob :=
  match x with
  | Selecting p _ | DrainReceiving p _ | DrainPopping p => p
  | Promoting x p _ | DrainPromoting x p => x :: p
  | NotStarted | SchedulerDone => []
  end.
Definition holding (d : dispatcher (V := V)) : nat := match d with HoldingSlot _ => 1 | _ => 0 end.
Definition holders (l : list (dispatcher (V := V))) : nat := sum_list_with holding l.
#[local] Arguments holders : simpl never.

Definition in_flight s : list (queuedJob V) :=
  busy s ++ jobs s ++ (s_job <$> in_scheduler (sched s)) ++ (s_job <$> scheduled s).

Definition phase_ok s : Prop :=
  match state s with
  | jobQueueCollecting => sched s = NotStarted /\ dispatchers s = [] /\ in_flight s = [] /\
      stopping s = false /\ scheduleStop s = false /\ jobsClosed s = false
  | jobQueueRunning => (exists p n, sched s = Selecting p n \/ exists x, sched s = Promoting x p n) /\
      stopping s = false /\ scheduleStop s = false /\ jobsClosed s = false
  | jobQueueStopping => sched s <> NotStarted /\ stopping s = true /\
      (if scheduleStop s then dispatchers s = []
       else (exists p n, sched s = Selecting p n \/ exists x, sched s = Promoting x p n)) /\
      (jobsClosed s = true -> sched s = SchedulerDone)
  | jobQueueStopped => sched s = SchedulerDone /\ dispatchers s = [] /\ in_flight s = [] /\ jobsClosed s = true
  end.

Definition drained (x : scheduler (V := V)) : bool :=
  match x with DrainPopping _ | DrainPromoting _ _ | SchedulerDone => true | _ => false end.

Record inv s : Prop := Inv {
  inv_jobs : accepted s ≡ₚ executed s ++ in_flight s;
  inv_slots : delayedSlots s = (holders (dispatchers s) + length (scheduled s) + length (in_scheduler (sched s)))%nat;
  inv_capacity : (delayedSlots s <= capacity s)%nat /\ (length (jobs s) <= capacity s)%nat;
  inv_phase : phase_ok s;
  inv_drained : drained (sched s) = true -> scheduled s = []
}.

Lemma holders_removed d l l' : removed d l l' -> holders l = (holding d + holders l')%nat.
Proof. induction 1 as [|y l l' _ IH]; [done|]. unfold holders in *. cbn [sum_list_with]. lia. Qed.

Lemma holders_app l d : holders (l ++ [d]) = (holders l + holding d)%nat.
Proof. unfold holders. rewrite sum_list_with_app. cbn. lia. Qed.

Lemma new_inv cap w : inv (NewJobQueue cap w).
Proof. constructor; cbn; try done. lia. Qed.

Ltac queue_cases :=
  unfold phase_ok, in_flight, promoteScheduledJob in *; cbn in *;
  repeat match goal with
  | H : sched _ = _ |- _ => rewrite H in *
  | H : scheduled _ = _ |- _ => rewrite H in *
  | H : dispatchers _ = _ |- _ => rewrite H in *
  | H : jobs _ = _ |- _ => rewrite H in *
  | H : state _ = _ |- _ => rewrite H in *
  end; cbn in *.

Lemma caller_inv s s' : inv s -> caller_step s s' -> inv s'.
Proof.
  intros [Hj Hs [Hc1 Hc2] Hp Hd] Hstep.
  destruct Hstep as [s' H|j H|x H|ctx s' next H].
  - unfold Start in H. destruct (state s) eqn:E; try discriminate; injection H as <-; [|by constructor].
    queue_cases. destruct Hp as (Hsch & Hdis & Hfl & ? & ? & ?). rewrite Hsch in *. cbn in *.
    constructor; cbn; try done; unfold phase_ok; cbn; eauto 10.
  - queue_cases. constructor; cbn; try done; [|unfold phase_ok; cbn; by rewrite H].
    rewrite holders_app. cbn. lia.
  - queue_cases. constructor; cbn; try done; [|unfold phase_ok; cbn; by rewrite H].
    rewrite holders_app. cbn. lia.
  - unfold Shutdown in H. destruct ctx as [|err]; [injection H as <- <-; by constructor|].
    destruct (state s) eqn:E; [| |injection H as <- <-; by constructor..];
      (destruct err; injection H as <- <-; [by constructor|]); queue_cases.
    + destruct Hp as (Hsch & Hdis & Hfl & ? & ? & ?). rewrite Hsch, Hdis in *. cbn in *.
      apply app_eq_nil in Hfl as [Hb Hfl]. apply app_eq_nil in Hfl as [Hjb Hfl].
      apply fmap_nil_inv in Hfl. rewrite Hb, Hjb, Hfl in *.
      constructor; unfold phase_ok, in_flight; cbn; rewrite ?Hb, ?Hjb, ?Hfl, ?Hdis; try done; cbn; lia.
    + destruct Hp as ((p & n & Hsel) & H1 & H2 & H3).
      constructor; unfold phase_ok, in_flight; cbn; try done. rewrite H2, H3.
      destruct Hsel as [Hsel|[x Hsel]]; rewrite Hsel; repeat split; try done; eauto.
Qed.

(** One goal per part of the invariant, for a step. *)
Ltac parts := constructor; unfold phase_ok, in_flight, promoteScheduledJob; cbn; try done; try lia.
Ltac flights :=
  repeat match goal with H : removed _ (busy _) _ |- _ => apply removed_permutation in H; rewrite H end;
  repeat match goal with H : Pop _ = Some _ |- _ => apply Pop_permutation in H; rewrite H end;
  unfold Push; rewrite ?fmap_app; cbn; solve_Permutation.

Lemma send_inv s j l : inv s -> removed (Sending j) (dispatchers s) l -> (length (jobs s) < capacity s)%nat ->
  inv (accept (set_dispatchers (set_work s (jobs s ++ [j]) (busy s) (executed s)) l) j).
Proof.
  intros [Hj Hs [Hc1 Hc2] Hp Hd] Hr Hl. pose proof (holders_removed _ _ _ Hr) as Hh. cbn in Hh.
  assert (dispatchers s <> []) as Hne by (by destruct Hr). parts.
  - rewrite Hj. unfold in_flight. flights.
  - rewrite length_app. cbn. lia.
  - unfold phase_ok in Hp. destruct (state s).
    + by destruct Hp as (_ & ? & _).
    + done.
    + destruct Hp as (? & ? & Hp & ?). by destruct (scheduleStop s).
    + by destruct Hp as (_ & ? & _).
Qed.

(** The phase of a queue whose scheduler is at a select or a promotion. *)
Definition live (x : scheduler (V := V)) : Prop :=
  match x with Selecting _ _ | Promoting _ _ _ => True | _ => False end.
Lemma live_iff x : live x <-> exists p n, x = Selecting p n \/ exists y, x = Promoting y p n.
Proof.
  destruct x; cbn; split; intros H; try done; eauto 10;
    by destruct H as (p & n & [H|[y H]]).
Qed.

Definition active s : Prop := state s = jobQueueRunning \/ state s = jobQueueStopping.

(** What every internal step but those of [Shutdown] needs of the phase: it
    keeps the state and the flags, keeps a live scheduler live or has seen the
    stop, and removes dispatchers only. *)
Lemma phase_step s s' :
  phase_ok s ->
  state s' = state s -> stopping s' = stopping s -> scheduleStop s' = scheduleStop s ->
  jobsClosed s' = jobsClosed s ->
  active s ->
  (sched s' = NotStarted -> sched s = NotStarted) ->
  (live (sched s) -> live (sched s') \/ scheduleStop s = true) ->
  (sched s = SchedulerDone -> sched s' = SchedulerDone) ->
  (dispatchers s = [] -> dispatchers s' = []) ->
  phase_ok s'.
Proof.
  unfold phase_ok. unfold active. intros Hp Hst Hstop Hss Hjc Hact Hns Hlive Hdone Hdisp. rewrite Hst, Hstop, Hss, Hjc.
  destruct (state s) eqn:E.
  - by destruct Hact.
  - destruct Hp as (Hl & ? & Hs & ?). apply live_iff in Hl. split; [|done]. apply live_iff.
    destruct (Hlive Hl); [done|congruence].
  - destruct Hp as (Hn & ? & Hb & Hc). split; [tauto|]. split; [done|]. split; [|tauto].
    destruct (scheduleStop s); [tauto|]. apply live_iff. apply live_iff in Hb. by destruct (Hlive Hb).
  - by destruct Hact.
Qed.

(** In a queue that is neither running nor stopping nothing is under way. *)
Lemma phase_active s : phase_ok s ->
  dispatchers s <> [] \/ busy s <> [] \/ jobs s <> [] \/
  (sched s <> NotStarted /\ sched s <> SchedulerDone) -> active s.
Proof.
  unfold phase_ok, in_flight, active. intros Hp Hb. destruct (state s) eqn:E; [|tauto|tauto|]; exfalso.
  - destruct Hp as (Hs & Hd & H & _). apply app_eq_nil in H as [? H]. apply app_eq_nil in H as [? _]. tauto.
  - destruct Hp as (Hs & Hd & H & _). apply app_eq_nil in H as [? H]. apply app_eq_nil in H as [? _]. tauto.
Qed.

Lemma removed_nonempty {A} (x : A) l l' : removed x l l' -> l <> [].
Proof. by destruct 1. Qed.

(** While a dispatch is under way the scheduler still takes delayed jobs. *)
Lemma dispatching_live s : phase_ok s -> dispatchers s <> [] -> live (sched s) /\ scheduleStop s = false.
Proof.
  intros Hp Hne. destruct (phase_active s Hp (or_introl Hne)) as [E|E]; unfold phase_ok in Hp; rewrite E in Hp.
  - destruct Hp as (Hl & _ & ? & _). by apply live_iff in Hl.
  - destruct Hp as (_ & _ & Hb & _). destruct (scheduleStop s); [done|]. by apply live_iff in Hb.
Qed.

(** Closes the phase of a step at [s], given why the queue is active there. *)
Ltac phase why := match goal with Hp : phase_ok ?s |- _ =>
    apply (phase_step s _ Hp); cbn; try done; try (intros; by left); [apply (phase_active s Hp); why|..];
    try (by match goal with H : sched s = _ |- _ => rewrite H end) end.
Ltac by_dispatcher := left; by eapply removed_nonempty.
Ltac by_scheduler E := right; right; right; by rewrite E.

Lemma internal_inv now s s' : inv s -> internal_step now s s' -> inv s'.
Proof.
  intros Hinv Hstep. destruct Hstep as
    [j l Hr Hl|x l Hr Hl|d l Hr Hd0|x l Hr Hl|x r p seq E Er|p seq x p' E Ep Ht|x p seq E Hl|p seq E Hss
    |x r p seq E Er|p seq E Er|p x p' E Ep|x p E Hl|E|j r Hns E Hl|j l Hr|E Hdn Hss|E Ed Hc|E Hc Ej Eb];
    [by apply send_inv|..]; destruct Hinv as [Hj Hs [Hc1 Hc2] Hp Hd].
  - pose proof (holders_removed _ _ _ Hr) as Hh. cbn in Hh. constructor; cbn; try done.
    + change (holders (HoldingSlot x :: l)) with (1 + holders l)%nat. lia.
    + split; [lia|done].
    + phase by_dispatcher. intros E. rewrite E in Hr. inversion Hr.
  - pose proof (holders_removed _ _ _ Hr) as Hh.
    assert (holding d = 0%nat) as Hz by (destruct d; [done|done|by destruct (Hd0 x)]).
    constructor; cbn; try done; [lia|]. phase by_dispatcher. intros E. rewrite E in Hr. inversion Hr.
  - pose proof (holders_removed _ _ _ Hr) as Hh. cbn in Hh. constructor; cbn; try done.
    + rewrite Hj. unfold in_flight. cbn. flights.
    + rewrite length_app. cbn. lia.
    + phase by_dispatcher. intros E. rewrite E in Hr. inversion Hr.
    + intros Hdr. destruct (dispatching_live s Hp (removed_nonempty _ _ _ Hr)) as [? _]. by destruct (sched s).
  - rewrite E, Er in *. cbn in *. constructor; cbn; try done.
    + rewrite Hj. unfold in_flight. cbn. rewrite E, Er. flights.
    + unfold Push. rewrite length_app. cbn. lia.
    + phase ltac:(by_scheduler E).
  - rewrite E in *. apply Pop_permutation in Ep as Epp. constructor; cbn; try done.
    + rewrite Hj. unfold in_flight. cbn. rewrite E. cbn. rewrite Epp. done.
    + rewrite Hs. cbn. by rewrite Epp.
    + phase ltac:(by_scheduler E).
  - rewrite E in *. cbn in *. constructor; cbn; try done; [|lia| |].
    + rewrite Hj. unfold in_flight. cbn. rewrite E. flights.
    + rewrite length_app. cbn. lia.
    + phase ltac:(by_scheduler E).
  - rewrite E in *. constructor; cbn; try done.
    + rewrite Hj. unfold in_flight. cbn. by rewrite E.
    + phase ltac:(by_scheduler E). intros _. by right.
  - rewrite E, Er in *. cbn in *. constructor; cbn; try done.
    + rewrite Hj. unfold in_flight. cbn. rewrite E, Er. flights.
    + unfold Push. rewrite length_app. cbn. lia.
    + phase ltac:(by_scheduler E).
  - rewrite E in *. constructor; cbn; try done.
    + rewrite Hj. unfold in_flight. cbn. by rewrite E.
    + phase ltac:(by_scheduler E).
  - rewrite E in *. apply Pop_permutation in Ep as Epp. constructor; cbn; try done.
    + rewrite Hj. unfold in_flight. cbn. rewrite E. cbn. rewrite Epp. done.
    + rewrite Hs. cbn. by rewrite Epp.
    + phase ltac:(by_scheduler E).
  - rewrite E in *. cbn in *. constructor; cbn; try done; [|lia| |].
    + rewrite Hj. unfold in_flight. cbn. rewrite E. flights.
    + rewrite length_app. cbn. lia.
    + phase ltac:(by_scheduler E).
  - rewrite E in *. constructor; cbn; try done.
    + rewrite Hj. unfold in_flight. cbn. by rewrite E.
    + phase ltac:(by_scheduler E).
  - constructor; cbn; try done.
    + rewrite Hj. unfold in_flight. cbn. rewrite E. flights.
    + rewrite E in Hc2. cbn in Hc2. split; lia.
    + phase ltac:(right; right; left; by rewrite E).
  - apply removed_permutation in Hr as Hrp. constructor; cbn; try done.
    + rewrite Hj. unfold in_flight. cbn. rewrite Hrp. solve_Permutation.
    + phase ltac:(right; left; by eapply removed_nonempty).
  - constructor; cbn; try done. unfold phase_ok in *. cbn. rewrite E in *.
    rewrite Hss in Hp. destruct Hp as (? & ? & ? & ?). by rewrite Hdn.
  - constructor; cbn; try done. unfold phase_ok in *. cbn. rewrite E in *.
    destruct Hp as (? & ? & ? & ?). by rewrite Ed in *.
  - unfold phase_ok in Hp. rewrite E in Hp. destruct Hp as (Hns & Hst & Hb & Hdone). specialize (Hdone Hc).
    assert (in_flight s = []) as Hf
      by (unfold in_flight; rewrite Hdone, Ej, Eb, Hd by (by rewrite Hdone); done).
    constructor; cbn; try done.
    unfold phase_ok. cbn. split; [done|]. split; [|done].
    destruct (scheduleStop s); [done|]. destruct Hb as (p & n & [?|[y ?]]); congruence.
Qed.

Lemma reachable_inv cap w s : reachable cap w s -> inv s.
Proof.
  induction 1 as [|s s' _ IH Hs|now s s' _ IH Hs]; [apply new_inv|by eapply caller_inv|by eapply internal_inv].
Qed.

(** C5.  No accepted job is lost: when the queue has stopped, the jobs whose
    execution ended are exactly those whose dispatch returned nil, delayed ones
    included. *)
Theorem stopped_queue_executed_every_accepted_job cap w s :
  reachable cap w s -> state s = jobQueueStopped -> accepted s ≡ₚ executed s.
Proof.
  intros Hr E. destruct (reachable_inv _ _ _ Hr) as [Hj _ _ Hp _].
  unfold phase_ok in Hp. rewrite E in Hp. destruct Hp as (_ & _ & Hf & _). by rewrite Hj, Hf, app_nil_r.
Qed.

(** The channels are used as the code relies on: a caller about to send on
    [queue.scheduled] never blocks there and the scheduler still receives; no
    job is sent on [queue.jobs] once it is closed; and the buffers and slots
    stay within [Capacity]. *)
Theorem channels_are_used_safely cap w s :
  reachable cap w s ->
  (forall x, HoldingSlot x ∈ dispatchers s -> (length (scheduled s) < capacity s)%nat /\ live (sched s)) /\
  (jobsClosed s = true -> dispatchers s = [] /\ in_scheduler (sched s) = [] /\ scheduled s = []) /\
  (delayedSlots s <= capacity s)%nat /\ (length (jobs s) <= capacity s)%nat.
Proof.
  intros Hr. destruct (reachable_inv _ _ _ Hr) as [_ Hs [Hc1 Hc2] Hp Hd]. split; [|split; [|done]].
  - intros x Hx. destruct (removed_exists _ _ Hx) as [l Hrm].
    pose proof (holders_removed _ _ _ Hrm) as Hh. cbn in Hh. split; [lia|].
    by apply (dispatching_live s Hp), (removed_nonempty _ _ _ Hrm).
  - intros Hcl. unfold phase_ok in Hp. destruct (state s).
    + destruct Hp as (_ & _ & _ & _ & _ & ?). congruence.
    + destruct Hp as (_ & _ & _ & ?). congruence.
    + destruct Hp as (_ & _ & Hb & Hdone). specialize (Hdone Hcl). rewrite Hdone in *.
      split; [|split; [done|by apply Hd]]. destruct (scheduleStop s); [done|].
      by destruct Hb as (p & n & [?|[y ?]]).
    + destruct Hp as (Hsd & -> & Hf & _). rewrite Hsd in *. split; [done|]. split; [done|]. by apply Hd.
Qed.

(** ** Shutdown terminates

A measure of the work left: every step of the goroutines decreases it. *)
Definition dispatcher_work (d : dispatcher (V := V)) : nat :=
  match d with Sending _ => 3 | WaitingSlot _ => 7 | HoldingSlot _ => 6 end.
Definition scheduler_work (x : scheduler (V := V)) : nat :=
  match x with
  | NotStarted | SchedulerDone => 0
  | Selecting p _ => 4 * length p + 10
  | Promoting _ p _ => 4 * length p + 13
  | DrainReceiving p _ => 4 * length p + 9
  | DrainPopping p => 4 * length p + 8
  | DrainPromoting _ p => 4 * length p + 11
  end.
Definition flag (b : bool) : nat := if b then 0 else 1.
Definition work_left s : nat :=
  sum_list_with dispatcher_work (dispatchers s) + 5 * length (scheduled s) + scheduler_work (sched s) +
  2 * length (jobs s) + length (busy s) + flag (scheduleStop s) + flag (jobsClosed s) +
  match state s with jobQueueStopped => 0 | _ => 1 end.

Lemma dispatcher_work_pos d : (0 < dispatcher_work d)%nat.
Proof. destruct d; cbn; lia. Qed.
Lemma removed_work (d : dispatcher (V := V)) l l' : removed d l l' ->
  sum_list_with dispatcher_work l = (dispatcher_work d + sum_list_with dispatcher_work l')%nat.
Proof. induction 1 as [|y l l' _ IH]; [done|]. cbn [sum_list_with]. lia. Qed.
Lemma removed_length {A} (x : A) l l' : removed x l l' -> length l = S (length l').
Proof. intros H. by rewrite (removed_permutation _ _ _ H). Qed.
Lemma Pop_length (p : list (scheduledJob (V := V))) x p' : Pop p = Some (x, p') -> length p = S (length p').
Proof. intros H. by rewrite (Pop_permutation _ _ _ H). Qed.

Lemma internal_work now s s' : internal_step now s s' -> (work_left s' < work_left s)%nat.
Proof.
  intros Hstep. unfold work_left. destruct Hstep as
    [|x l Hr Hl|d l Hr Hd|x l Hr Hl|x r p seq E Er|p seq x p' E Ep Ht|x p seq E Hl|p seq E Hss
    |x r p seq E Er|p seq E Er|p x p' E Ep|x p E Hl|E|j r Hns E Hl|j l Hr|E Hdn Hss|E Ed Hc|E Hc Ej Eb]; cbn -[sum_list_with];
    repeat match goal with
    | H : removed _ (dispatchers _) _ |- _ => apply removed_work in H; cbn -[sum_list_with] in H
    | H : removed _ (busy _) _ |- _ => apply removed_length in H
    | H : Pop _ = Some _ |- _ => apply Pop_length in H
    | H : sched _ = _ |- _ => rewrite H
    | H : scheduled _ = _ |- _ => rewrite H
    | H : jobs _ = _ |- _ => rewrite H
    | H : scheduleStop _ = _ |- _ => rewrite H
    | H : jobsClosed _ = _ |- _ => rewrite H
    | H : state _ = _ |- _ => rewrite H
    end; unfold Push; rewrite ?length_app; cbn -[sum_list_with]; cbn [sum_list_with dispatcher_work]; try lia.
  pose proof (dispatcher_work_pos d). lia.
Qed.

Lemma caller_limits s s' : caller_step s s' -> capacity s' = capacity s /\ workers s' = workers s.
Proof.
  destruct 1 as [s' H|j H|x H|ctx s' next H]; try done.
  - unfold Start in H. by destruct (state s); simplify_eq.
  - unfold Shutdown in H. destruct ctx as [|[e|]], (state s); by simplify_eq.
Qed.
Lemma internal_limits now s s' : internal_step now s s' -> capacity s' = capacity s /\ workers s' = workers s.
Proof. by destruct 1. Qed.
Lemma reachable_limits cap w s : reachable cap w s -> capacity s = cap /\ workers s = w.
Proof.
  induction 1 as [|s s' _ [<- <-] Hs|now s s' _ [<- <-] Hs];
    [done|by apply caller_limits|by eapply internal_limits].
Qed.

(** A stopping queue always has a step, whatever the time. *)
Lemma stopping_progress now s :
  inv s -> (1 <= capacity s)%nat -> (1 <= workers s)%nat -> state s = jobQueueStopping ->
  exists s', internal_step now s s'.
Proof.
  intros [_ Hs [Hc1 Hc2] Hp Hd] Hcap Hw E. unfold phase_ok in Hp. rewrite E in Hp.
  destruct Hp as (Hns & _ & Hb & Hcl).
  destruct (busy s) as [|j r] eqn:Eb; [|eexists; eapply (step_worked _ _ j r); rewrite Eb; constructor].
  destruct (jobs s) as [|j r] eqn:Ej; [|eexists; eapply (step_work _ _ j r); try done; rewrite Eb; cbn; lia].
  assert (length (jobs s) < capacity s)%nat as Hroom by (rewrite Ej; cbn; lia).
  destruct (dispatchers s) as [|d l] eqn:Ed.
  - destruct (scheduleStop s) eqn:Ess; [|eexists; by apply step_dispatches_done].
    destruct (sched s) as [|p n|x p n|p n|p|x p|] eqn:Esch; [done| | | | | |].
    + eexists. by eapply step_schedule_stop.
    + eexists. by eapply step_promote.
    + destruct (scheduled s) as [|x r] eqn:Er; eexists; [by eapply step_drain_default|by eapply step_drain_receive].
    + destruct (Pop p) as [[x p']|] eqn:Ep; [eexists; by eapply step_drain_pop|].
      apply Pop_none in Ep as ->. eexists. by apply step_drain_done.
    + eexists. by eapply step_drain_promote.
    + destruct (jobsClosed s) eqn:Ec; eexists; [by apply step_stopped|by apply step_close_jobs].
  - assert (removed d (dispatchers s) l) as Hr by (rewrite Ed; constructor).
    destruct d as [j|x|x]; [eexists; by eapply step_abort|eexists; by eapply step_abort|].
    eexists. eapply step_send_scheduled; [done|]. cbn in Hs. unfold holders in Hs. cbn in Hs. lia.
Qed.

Lemma stopping_stays now s s' : internal_step now s s' -> state s = jobQueueStopping ->
  state s' = jobQueueStopping \/ state s' = jobQueueStopped.
Proof. destruct 1; cbn; auto. Qed.

(** C6.  Shutdown terminates, provided handlers return.  Once a reachable
    queue with a worker and some capacity is stopping, its goroutines always
    have a step to take, at any time and whatever they did before, each step
    decreases the work left, and the queue ends up stopped. *)
Theorem shutdown_terminates cap w s now :
  reachable cap w s -> (1 <= cap)%nat -> (1 <= w)%nat -> state s = jobQueueStopping ->
  (exists s', internal_step now s s') /\
  (forall s', internal_step now s s' -> (work_left s' < work_left s)%nat /\
     (state s' = jobQueueStopping \/ state s' = jobQueueStopped)) /\
  (exists s', rtc (internal_step now) s s' /\ state s' = jobQueueStopped).
Proof.
  intros Hr Hcap Hw E. destruct (reachable_limits _ _ _ Hr) as [Ec Ew]. apply reachable_inv in Hr as Hinv.
  rewrite <- Ec in Hcap. rewrite <- Ew in Hw. clear Hr Ec Ew.
  split; [by apply stopping_progress|].
  split; [intros s' Hs; split; [by eapply internal_work|by eapply stopping_stays]|].
  induction s as [s IH] using (well_founded_induction (well_founded_ltof _ work_left)).
  destruct (stopping_progress now s Hinv Hcap Hw E) as [s1 H1].
  destruct (internal_limits _ _ _ H1) as [Ec Ew].
  destruct (stopping_stays _ _ _ H1 E) as [E1|E1].
  - destruct (IH s1) as (s2 & H2 & E2); [by eapply internal_work|lia|lia|done|by eapply internal_inv|].
    exists s2. split; [by eapply rtc_l|done].
  - exists s1. split; [by apply rtc_once|done].
Qed.
End Facts.

(** ** A concrete run: one job dispatched, then a shutdown *)
Module Run.
Definition sample_job : queuedJob nat :=
  QueuedJob "int" 7%nat
    (JobHandlerEntry "int" "count" (MkJobHandlerOptions 1 0) (fun _ => Ok "7") (fun _ => Ok 7%nat)).
Definition stopping_state : system (V := nat) :=
  System 1 1 jobQueueStopping [sample_job] false [] 0 true false [] (Selecting [] 0) [] [sample_job] [].
Definition final_state : system (V := nat) :=
  System 1 1 jobQueueStopped [] true [] 0 true true [] SchedulerDone [] [sample_job] [sample_job].

Lemma reaches_stopping : reachable 1 1 stopping_state.
Proof.
  pose proof (reachable_new (V := nat) 1 1) as H.
  eapply reachable_caller in H; [|by eapply step_start].
  eapply reachable_caller in H; [|by apply (step_dispatch _ sample_job)].
  eapply (reachable_internal _ _ 0) in H; [|eapply (step_send _ _ sample_job []); [constructor|cbn; lia]].
  eapply reachable_caller in H; [|by eapply (step_shutdown _ Background)]. exact H.
Qed.

Lemma reaches_final : reachable 1 1 final_state.
Proof.
  pose proof reaches_stopping as H.
  eapply (reachable_internal _ _ 0) in H; [|by apply step_dispatches_done].
  eapply (reachable_internal _ _ 0) in H; [|by eapply step_schedule_stop].
  eapply (reachable_internal _ _ 0) in H; [|by eapply step_drain_default].
  eapply (reachable_internal _ _ 0) in H; [|by eapply step_drain_done].
  eapply (reachable_internal _ _ 0) in H; [|by eapply step_close_jobs].
  eapply (reachable_internal _ _ 0) in H; [|eapply (step_work _ _ sample_job []); [done|done|cbn; lia]].
  eapply (reachable_internal _ _ 0) in H; [|eapply (step_worked _ _ sample_job []); constructor].
  eapply (reachable_internal _ _ 0) in H; [|by eapply step_stopped]. exact H.
Qed.
End Run.

Lemma stopped_queue_executed_every_accepted_job_witness :
  accepted Run.final_state ≡ₚ executed Run.final_state.
Proof. exact (stopped_queue_executed_every_accepted_job 1 1 _ Run.reaches_final eq_refl). Defined.

Lemma channels_are_used_safely_witness :
  (delayedSlots Run.stopping_state <= 1)%nat /\ (length (jobs Run.stopping_state) <= 1)%nat.
Proof. exact (proj2 (proj2 (channels_are_used_safely 1 1 _ Run.reaches_stopping))). Defined.

Lemma shutdown_terminates_witness :
  exists s', rtc (internal_step 0) Run.stopping_state s' /\ state s' = jobQueueStopped.
Proof.
  exact (proj2 (proj2 (shutdown_terminates 1 1 _ 0 Run.reaches_stopping (le_n 1) (le_n 1) eq_refl))).
Defined.
