(* ===== verification/JobWorkers.v ===== *)
(** * Workers of a persistent job queue: [backend/framework/jobs_persistent.go]

    Proved against the contract of a job store ([JobStore.v]), whatever the
    store.  The worker takes from its environment what the handler does with
    the job, the clock, and the environment of its store calls. *)
From S2P Require Import Prelude GoTime GoStrings Json EventLog JobStore FileJobStore FileJobStoreFacts FileJobStoreSpec Jobs.
Open Scope Z_scope.
Open Scope go_scope.

Section Workers.
Context {V S E : Type} `{!JobStore S E, !JobStoreLaws S E}.
Variable handlersByName : gmap string (jobHandlerEntry V).

Record worker_env := WorkerEnv {
  env_outcome : V -> result unit;       (* what the handler does *)
  env_time : Z;                         (* time.Now() *)
  env_store : E
}.

(** What one execution leaves: the store, the failures reported, whether the
    handler was called, whether the other workers were woken. *)
Record execution := Execution {
  ex_store : S;
  ex_reports : list JobFailure;
  ex_called : bool;
  ex_wake : bool
}.

Definition handler_type (h : option (jobHandlerEntry V)) : string :=
  match h with Some h => jobType h | None => EmptyString end.
Definition handler_max (h : option (jobHandlerEntry V)) : Z :=
  match h with Some h => MaxAttempts (handlerOptions h) | None => 0 end.

Definition reportPersistentStoreFailure (reservation : JobReservation) (h : option (jobHandlerEntry V))
    (operation : string) (err : goerror) : JobFailure :=
  let j := res_Job reservation in
  MkJobFailure (ID j) (Handler j) (handler_type h) (Attempts j) (handler_max h)
    (Errorf [W ErrJobStoreOperationFailed; T ": "; T operation; T " job "; T (ID j); T ": "; W err]).

Definition failPersistentReservation (e : E) (reservation : JobReservation) (h : option (jobHandlerEntry V))
    (failure : goerror) (s : S) : S * list JobFailure :=
  let j := res_Job reservation in
  match store_Fail e Background reservation (error_text failure) s with
  | (s', Ok _) => (s', [MkJobFailure (ID j) (Handler j) (handler_type h) (Attempts j) (handler_max h) failure])
  | (s', Err err) => (s', [reportPersistentStoreFailure reservation h "fail" (errors_join failure err)])
  | (s', Panicked m) => (s', [])
  end.

Definition executePersistent (e : worker_env) (reservation : JobReservation) (s : S) : execution :=
  let j := res_Job reservation in
  let fail (h : option (jobHandlerEntry V)) (called : bool) (failure : goerror) :=
    let '(s', reports) := failPersistentReservation (env_store e) reservation h failure s in
    Execution s' reports called false in
  match handlersByName !! Handler j with
  | None => fail None false (Errorf [W ErrJobExecutionFailed; T ": handler "; T (Quote (Handler j));
                                     T ": "; W ErrJobHandlerNotFound])
  | Some h =>
      if MaxAttempts (handlerOptions h) <? Attempts j then
        fail (Some h) false (Errorf [W ErrJobRetriesExhausted; T ": job "; T (jobType h); T " handler ";
          T (Quote (name h)); T " exceeded "; T (Itoa (MaxAttempts (handlerOptions h))); T " attempt(s)"])
      else
        match decode h (Payload j) with
        | Ok value =>
            match executeAttempt (env_outcome e value) with
            | None =>
                match store_Complete (env_store e) Background reservation s with
                | (s', Err err) =>
                    Execution s' [reportPersistentStoreFailure reservation (Some h) "complete" err] true false
                | (s', _) => Execution s' [] true false
                end
            | Some executionError =>
                if Attempts j <? MaxAttempts (handlerOptions h) then
                  match store_Release (env_store e) Background reservation
                          (env_time e + RetryBackoff (handlerOptions h)) (error_text executionError) s with
                  | (s', Err err) =>
                      Execution s' [reportPersistentStoreFailure reservation (Some h) "release" err] true false
                  | (s', _) => Execution s' [] true true
                  end
                else fail (Some h) true (exhausted_error h (Attempts j) executionError)
            end
        | Err err => fail (Some h) false err
        | Panicked m => Execution s [] false false
        end
  end.

(** [persistJob]: the store, the result, whether the workers were woken. *)
Definition persistJob (e : E) (random : result string) (now : Z) (ctx : context) (job : queuedJob V)
    (availableAt : Z) (s : S) : S * result unit * bool :=
  match encode (q_handler job) (q_value job) with
  | Err err => (s, Err (dispatch_error (q_jobType job) [T ": "; W err]), false)
  | Panicked m => (s, Panicked m, false)
  | Ok payload =>
      match random with
      | Err err => (s, Err (dispatch_error (q_jobType job) [T ": "; W err]), false)
      | Panicked m => (s, Panicked m, false)
      | Ok id =>
          let available := if Before availableAt now then now else availableAt in
          match store_Enqueue e ctx (MkStoredJob id (name (q_handler job)) payload available now 0) s with
          | (s', Ok _) => (s', Ok tt, true)
          | (s', Err err) => (s', Err (dispatch_error (q_jobType job) [T " store enqueue: "; W err]), false)
          | (s', Panicked m) => (s', Panicked m, false)
          end
      end
  end.

(** One turn of [workPersistent]: stop, go on at once, or wait. *)
Inductive turn := Stop | Again (x : execution) | Wait (s : S) (reports : list JobFailure).
Definition workPersistent_turn (e : worker_env) (workerCtx : context) (lease : Z) (s : S) : turn :=
  match workerCtx with
  | Ctx (Some _) => Stop
  | _ =>
      match store_Reserve (env_store e) workerCtx (env_time e) lease s with
      | (s', Ok reservation) => Again (executePersistent e reservation s')
      | (s', Err err) =>
          Wait s' (if negb (errors_is err ErrJobStoreEmpty) && negb (errors_is err context_Canceled)
                   then [MkJobFailure "" "" "" 0 0
                           (Errorf [W ErrJobStoreOperationFailed; T ": reserve: "; W err])] else [])
      | (s', Panicked _) => Wait s' []
      end
  end.

(** ** What an execution does to the job *)

(** What a worker decides about a reserved job. *)
Inductive verdict := Completed | Retry (availableAt : Z) | GiveUp.
Definition verdict_of (e : worker_env) (j : StoredJob) : verdict * bool :=
  match handlersByName !! Handler j with
  | None => (GiveUp, false)
  | Some h =>
      if MaxAttempts (handlerOptions h) <? Attempts j then (GiveUp, false) else
      match decode h (Payload j) with
      | Ok value =>
          match executeAttempt (env_outcome e value) with
          | None => (Completed, true)
          | Some _ => if Attempts j <? MaxAttempts (handlerOptions h)
                      then (Retry (env_time e + RetryBackoff (handlerOptions h)), true) else (GiveUp, true)
          end
      | _ => (GiveUp, false)
      end
  end.

(** The transition of the contract that carries a verdict out. *)
Definition carried_out (e : worker_env) (id : string) (v : verdict) (before after : job_view) : Prop :=
  match v with
  | Completed => after = delete id before
  | Retry t => after = view_release before id (store_instant t)
  | GiveUp => exists text, after = view_fail before id (store_failedAt (env_store e)) text
  end.

Lemma fail_transition e res h failure s s' reports :
  store_ok s -> failPersistentReservation e res h failure s = (s', reports) ->
  store_ok s' /\
  (store_view s' = store_view s \/
   holds (store_view s) res /\
   store_view s' = view_fail (store_view s) (ID (res_Job res)) (store_failedAt e) (store_error (error_text failure))).
Proof.
  intros Hok H. unfold failPersistentReservation in H.
  destruct (store_Fail e Background res _ s) as [s1 r] eqn:Ef.
  apply (Fail_ok _ _ _ _ _ _ _ Hok) in Ef as [Hok' Hv].
  destruct r as [u|err|m]; injection H as <- <-; (split; [done|]); [right; tauto|by left|by left].
Qed.

(** One execution of a reserved job makes at most one change to the
    store: the one its verdict asks for - removed when the handler succeeded,
    made available again after the backoff when attempts are left, failed
    otherwise - and only while the worker still holds the reservation; the
    handler is called exactly when it is known, the payload decodes and the
    attempts are not used up. *)
Theorem execution_carries_out_verdict e res s :
  store_ok s ->
  let x := executePersistent e res s in
  store_ok (ex_store x) /\
  ex_called x = (verdict_of e (res_Job res)).2 /\
  (store_view (ex_store x) = store_view s \/
   holds (store_view s) res /\
   carried_out e (ID (res_Job res)) (verdict_of e (res_Job res)).1 (store_view s) (store_view (ex_store x))).
Proof.
  intros Hok. unfold executePersistent, verdict_of.
  assert (forall h (called : bool) failure,
    let x := (let '(s', reports) := failPersistentReservation (env_store e) res h failure s in
              Execution s' reports called false) in
    store_ok (ex_store x) /\ ex_called x = called /\
    (store_view (ex_store x) = store_view s \/ holds (store_view s) res /\
     carried_out e (ID (res_Job res)) GiveUp (store_view s) (store_view (ex_store x)))) as Hfail'.
  { intros h called failure. destruct (failPersistentReservation _ _ _ _ _) as [s' reports] eqn:Ef.
    apply (fail_transition _ _ _ _ _ _ _ Hok) in Ef as [? Hv]. split; [done|]. split; [done|].
    destruct Hv as [?|[? ?]]; [by left|right]. split; [done|]. by eexists. }
  destruct (handlersByName !! _) as [h|]; [|apply Hfail'].
  destruct (_ <? Attempts _); [apply Hfail'|].
  destruct (decode h _) as [value|err|m]; [|apply Hfail'|by repeat split; try left].
  destruct (executeAttempt _) as [err|].
  - destruct (Attempts _ <? _); [|apply Hfail'].
    destruct (store_Release _ _ _ _ _ _) as [s' r] eqn:Er. apply (Release_ok _ _ _ _ _ _ _ _ Hok) in Er as [? Hv].
    destruct r; cbn; repeat split; try done; auto.
  - destruct (store_Complete _ _ _ _) as [s' r] eqn:Er. apply (Complete_ok _ _ _ _ _ _ Hok) in Er as [? Hv].
    destruct r; cbn; repeat split; try done; auto.
Qed.

(** ** Handler calls over a whole run

A state of the run: the store, the reservations that workers have taken
and not yet executed, and the jobs handlers have been called with so far,
each with its handler's name and the attempt it was. *)
Record run_state := RunState {
  rs_store : S;
  rs_held : list JobReservation;
  rs_calls : list StoredJob
}.
Definition seen (s : run_state) : list StoredJob := (res_Job <$> rs_held s) ++ rs_calls s.

(** Any number of workers, dispatchers and crashes: a worker takes a job, a
worker executes a job it took, a worker dies with its job, another call
of the store happens.  Identifiers are not drawn twice, and no attempt
counter is at the largest [int]. *)
Inductive run_step (s : run_state) : run_state -> Prop :=
| run_take e now lease s' res :
    store_Reserve e Background now lease (rs_store s) = (s', Ok res) ->
    (forall id j st, store_view (rs_store s) !! id = Some (j, st) -> Attempts j < int64_max) ->
    run_step s (RunState s' (res :: rs_held s) (rs_calls s))
| run_execute e l1 res l2 :
    rs_held s = l1 ++ res :: l2 ->
    let x := executePersistent e res (rs_store s) in
    run_step s (RunState (ex_store x) (l1 ++ l2) (if ex_called x then res_Job res :: rs_calls s else rs_calls s))
| run_crash l1 res l2 : rs_held s = l1 ++ res :: l2 ->
    run_step s (RunState (rs_store s) (l1 ++ l2) (rs_calls s))
| run_dispatch e ctx j s' r : store_Enqueue e ctx j (rs_store s) = (s', r) ->
    Attempts j = 0 -> ID j ∉ ID <$> seen s ->
    run_step s (RunState s' (rs_held s) (rs_calls s)).

Definition attempt_of (j : StoredJob) : string * Z := (ID j, Attempts j).

(** The job's own handler allows the attempt. *)
Definition allowed (c : StoredJob) : Prop :=
  exists h, handlersByName !! Handler c = Some h /\ Attempts c <= MaxAttempts (handlerOptions h).

(** Every call and every taken job has its own attempt number, which the
stored counter has reached, and the handler the job was dispatched with. *)
Record run_ok (s : run_state) : Prop := RunOk {
  ro_store : store_ok (rs_store s);
  ro_attempts : NoDup (attempt_of <$> seen s);
  ro_positive : forall c, c ∈ seen s -> 1 <= Attempts c;
  ro_keys : forall id j st, store_view (rs_store s) !! id = Some (j, st) -> ID j = id /\ 0 <= Attempts j;
  ro_counter : forall c j st, c ∈ seen s -> store_view (rs_store s) !! ID c = Some (j, st) ->
    Attempts c <= Attempts j /\ Handler c = Handler j;
  ro_handler : forall c d, c ∈ seen s -> d ∈ seen s -> ID c = ID d -> Handler c = Handler d;
  ro_calls : forall c, c ∈ rs_calls s -> allowed c
}.

(** A view whose jobs keep their identifiers, handlers and attempts. *)
Definition keeps_attempts (before after : job_view) : Prop :=
  forall id j st, after !! id = Some (j, st) ->
  exists j0 st0, before !! id = Some (j0, st0) /\ ID j = ID j0 /\ Handler j = Handler j0 /\ Attempts j = Attempts j0.

Lemma keeps_update (v : job_view) id j st j0 st0 :
  v !! id = Some (j0, st0) -> ID j = ID j0 -> Handler j = Handler j0 -> Attempts j = Attempts j0 ->
  keeps_attempts v (<[id := (j, st)]> v).
Proof.
  intros Hl Hi Hh Ha k j' st' Hk. destruct (decide (id = k)) as [->|Hne].
  - rewrite lookup_insert_eq in Hk. injection Hk as <- <-. eauto 10.
  - rewrite lookup_insert_ne in Hk by done. eauto 10.
Qed.

Lemma carried_out_keeps e id v before after : carried_out e id v before after -> keeps_attempts before after.
Proof.
  destruct v as [|t|]; cbn; [intros ->| intros ->|intros [text ->]].
  - intros k j st Hk. apply lookup_delete_Some in Hk as [_ Hk]. eauto 10.
  - unfold view_release. destruct (before !! id) as [[j0 st0]|] eqn:Hl; [by eapply keeps_update|].
    intros k j st Hk. eauto 10.
  - unfold view_fail. destruct (before !! id) as [[j0 st0]|] eqn:Hl; [by eapply keeps_update|].
    intros k j st Hk. eauto 10.
Qed.

(** Changing the store without new attempts or jobs keeps a run's invariant. *)
Lemma run_ok_keeps store held calls store' held' calls' :
  run_ok (RunState store held calls) -> store_ok store' ->
  keeps_attempts (store_view store) (store_view store') ->
  seen (RunState store' held' calls') ⊆ seen (RunState store held calls) ->
  NoDup (attempt_of <$> seen (RunState store' held' calls')) ->
  (forall c, c ∈ calls' -> allowed c) ->
  run_ok (RunState store' held' calls').
Proof.
  intros [Hok Hnd Hpos Hid Hle Hhd Hmax] Hok' Hk Hsub Hnd' Hmax'.
  constructor; [done|done| | | |by auto|done].
  - intros c Hin. by apply Hpos, Hsub.
  - intros id j st Hv. destruct (Hk _ _ _ Hv) as (j0 & st0 & Hv0 & -> & _ & ->). by eapply Hid.
  - intros c j st Hin Hv. destruct (Hk _ _ _ Hv) as (j0 & st0 & Hv0 & _ & -> & ->).
    eapply Hle; [by apply Hsub|done].
Qed.

(** The seen attempts lose one held job, or move it to the calls. *)
Lemma seen_drop store store' l1 res l2 calls :
  seen (RunState store (l1 ++ res :: l2) calls) ≡ₚ res_Job res :: seen (RunState store' (l1 ++ l2) calls).
Proof. unfold seen. cbn. rewrite !fmap_app. cbn. solve_Permutation. Qed.

Lemma run_ok_take store held calls e now lease s' res :
  run_ok (RunState store held calls) -> store_Reserve e Background now lease store = (s', Ok res) ->
  (forall id j st, store_view store !! id = Some (j, st) -> Attempts j < int64_max) ->
  run_ok (RunState s' (res :: held) calls).
Proof.
  intros [Hok Hnd Hpos Hid Hle Hhd Hmax] H Hmaxint. cbn in *.
  apply (Reserve_ok _ _ _ _ _ _ _ Hok) in H as [Hok' (j & st & Hl & _ & _ & Hj & _ & Hv)].
  destruct (Hid _ _ _ Hl) as [_ Hge]. specialize (Hmaxint _ _ _ Hl).
  assert (ID (res_Job res) = ID j /\ Handler (res_Job res) = Handler j /\ Attempts (res_Job res) = Attempts j + 1) as (Hri & Hrh & Hra).
  { rewrite Hj. cbn. rewrite wrap64_id; [done|]. unfold in_int64, int64_min, int64_max in *. lia. }
  assert (forall c, c ∈ seen (RunState store held calls) -> ID c = ID j -> Attempts c <= Attempts j /\ Handler c = Handler j) as Hold.
  { intros c Hin Ec. apply (Hle c j st Hin). by rewrite Ec. }
  constructor; cbn; [done| | | | | |done].
  - constructor; [|done]. intros (c & Hc & Hin)%list_elem_of_fmap. unfold attempt_of in Hc. injection Hc as Hc1 Hc2.
    destruct (Hold c Hin ltac:(congruence)). lia.
  - intros c [->|Hin]%elem_of_cons; [lia|by apply Hpos].
  - intros id j' st' Hlk. rewrite Hv in Hlk. destruct (decide (ID j = id)) as [<-|Hne].
    + rewrite lookup_insert_eq in Hlk. injection Hlk as <- <-. rewrite Hri. split; [done|lia].
    + rewrite lookup_insert_ne in Hlk by done. by eapply Hid.
  - intros c j' st' Hin Hlk. rewrite Hv in Hlk. destruct (decide (ID j = ID c)) as [Ec|Hne].
    + rewrite Ec, lookup_insert_eq in Hlk. injection Hlk as <- <-.
      apply elem_of_cons in Hin as [->|Hin]; [done|]. destruct (Hold c Hin) as [? ->]; [done|]. rewrite Hrh. split; [lia|done].
    + rewrite lookup_insert_ne in Hlk by done. apply elem_of_cons in Hin as [->|Hin]; [congruence|by eapply Hle].
  - intros c d [->|Hc]%elem_of_cons [->|Hd]%elem_of_cons Ecd; [done| | |by apply Hhd].
    + destruct (Hold d Hd) as [_ ->]; congruence.
    + destruct (Hold c Hc) as [_ ->]; congruence.
Qed.

Lemma run_ok_execute store l1 res l2 calls e :
  run_ok (RunState store (l1 ++ res :: l2) calls) ->
  let x := executePersistent e res store in
  run_ok (RunState (ex_store x) (l1 ++ l2) (if ex_called x then res_Job res :: calls else calls)).
Proof.
  intros Hinv x. pose proof Hinv as [Hok Hnd _ _ _ _ Hmax].
  destruct (execution_carries_out_verdict e res store Hok) as (Hok' & Hcalled & Hv). fold x in Hok', Hcalled, Hv.
  assert (keeps_attempts (store_view store) (store_view (ex_store x))) as Hk.
  { destruct Hv as [->|[_ Hv]]; [intros ? ? ? ?; eauto 10|by eapply carried_out_keeps]. }
  rewrite (seen_drop _ (ex_store x)) in Hnd. destruct (ex_called x) eqn:Ec.
  - assert (seen (RunState (ex_store x) (l1 ++ l2) (res_Job res :: calls)) ≡ₚ
            res_Job res :: seen (RunState (ex_store x) (l1 ++ l2) calls)) as Hp
      by (unfold seen; cbn; solve_Permutation).
    apply (run_ok_keeps _ _ _ _ _ _ Hinv); [done|done| |by rewrite Hp|].
    + intros c. by rewrite Hp, (seen_drop _ (ex_store x)).
    + intros c [->|Hin]%elem_of_cons; [|by apply Hmax].
      symmetry in Hcalled. unfold verdict_of in Hcalled. unfold allowed.
      destruct (handlersByName !! _) as [h|] eqn:Eh; [|done].
      destruct (Z.ltb_spec (MaxAttempts (handlerOptions h)) (Attempts (res_Job res))); [done|]. by exists h.
  - apply (run_ok_keeps _ _ _ _ _ _ Hinv); [done|done| |by apply NoDup_cons in Hnd as [_ ?]|done].
    intros c. rewrite (seen_drop _ (ex_store x)). intros ?. by right.
Qed.

Lemma run_ok_step s s' : run_ok s -> run_step s s' -> run_ok s'.
Proof.
  intros Hinv Hstep. destruct s as [store held calls]. destruct Hstep as
    [e now lease s' res H Hmaxint|e l1 res l2 Hheld x|l1 res l2 Hheld|e ctx j s' r H Ha Hfresh]; cbn in *.
  - by eapply run_ok_take.
  - subst held. by apply run_ok_execute.
  - subst held. pose proof Hinv as [Hok Hnd _ _ _ _ Hmax]. rewrite (seen_drop _ store) in Hnd.
    apply (run_ok_keeps _ _ _ _ _ _ Hinv); [done|intros ? ? ? ?; eauto 10| |by apply NoDup_cons in Hnd as [_ ?]|done].
    intros c. rewrite (seen_drop _ store). intros ?. by right.
  - pose proof Hinv as [Hok Hnd Hpos Hid Hle Hhd Hmax]. cbn in *.
    apply (Enqueue_ok _ _ _ _ _ _ Hok) in H as [Hok' Hv].
    destruct r; [|by constructor; cbn; rewrite ?Hv..]. destruct Hv as [Hn Hv].
    constructor; cbn; [done|done|done| | |done|done].
    + intros id j' st' Hlk. rewrite Hv in Hlk. destruct (decide (ID j = id)) as [<-|Hne].
      * rewrite lookup_insert_eq in Hlk. injection Hlk as <- <-. rewrite kept_ID, kept_Attempts. split; [done|lia].
      * rewrite lookup_insert_ne in Hlk by done. by eapply Hid.
    + intros c j' st' Hin Hlk. rewrite Hv in Hlk. destruct (decide (ID j = ID c)) as [Ec|Hne].
      * destruct Hfresh. rewrite Ec. by apply list_elem_of_fmap_2.
      * rewrite lookup_insert_ne in Hlk by done. by eapply Hle.
Qed.

(** Distinct numbers between 1 and [m] are at most [m] many. *)
Lemma bounded_count (l : list Z) m : NoDup l -> (forall n, n ∈ l -> 1 <= n <= m) -> (length l <= Z.to_nat m)%nat.
Proof.
  intros Hnd Hb. rewrite <- (length_seqZ 1 m). apply submseteq_length, NoDup_submseteq; [done|].
  intros n Hn. apply elem_of_seqZ. specialize (Hb n Hn). lia.
Qed.

(** C4.  A job runs at most [MaxAttempts] times.  Start from a store where no
    worker is busy, and let workers, dispatchers and crashes run in any order:
    every call of a handler with a job is a call of the one handler the job
    names, and there are no more of them than that handler's own [MaxAttempts],
    even when leases expire under running workers, store calls fail, or workers
    die between taking a job and finishing it.  (Identifiers are not drawn
    again, and no counter reaches the largest [int].) *)
Theorem handler_called_at_most_max_attempts store s job :
  store_ok store ->
  (forall k j st, store_view store !! k = Some (j, st) -> ID j = k /\ 0 <= Attempts j) ->
  rtc run_step (RunState store [] []) s -> job ∈ rs_calls s ->
  exists h, handlersByName !! Handler job = Some h /\
    (forall c, c ∈ rs_calls s -> ID c = ID job -> Handler c = Handler job) /\
    (length (filter (fun c => ID c = ID job) (rs_calls s)) <= Z.to_nat (MaxAttempts (handlerOptions h)))%nat.
Proof.
  intros Hok Hid Hrun Hjob.
  assert (run_ok (RunState store [] [])) as Hinit.
  { constructor; cbn; [done|constructor|by intros c []%elem_of_nil|done|by intros c j st []%elem_of_nil|
      by intros c d []%elem_of_nil|by intros c []%elem_of_nil]. }
  assert (run_ok s) as [_ Hnd Hpos _ _ Hhd Hmax].
  { clear -Hinit Hrun. induction Hrun as [|s1 s2 s3 Hstep _ IH]; [done|]. by eapply IH, run_ok_step. }
  assert (forall c, c ∈ rs_calls s -> c ∈ seen s) as Hin by (intros c ?; apply elem_of_app; by right).
  destruct (Hmax _ Hjob) as (h & Hh & _). exists h. split; [done|].
  split; [by intros c Hc Ec; apply Hhd; auto|].
  unfold seen in Hnd. rewrite fmap_app in Hnd. apply NoDup_app in Hnd as (_ & _ & Hnd).
  rewrite <- (length_fmap Attempts). apply bounded_count.
  - apply (NoDup_fmap_1 attempt_of) in Hnd as Hc. apply NoDup_fmap_2_strong; [|by apply NoDup_filter].
    intros c d Hc1 Hd1 Ecd. apply list_elem_of_filter in Hc1 as [Ec Hc1], Hd1 as [Ed Hd1].
    apply list_elem_of_lookup in Hc1 as [i Hi], Hd1 as [k Hk].
    assert (i = k) as ->; [|congruence].
    eapply (NoDup_lookup _ i k (attempt_of c) Hnd); rewrite list_lookup_fmap; [by rewrite Hi|].
    rewrite Hk. cbn. unfold attempt_of. by rewrite Ec, Ed, Ecd.
  - intros n Hn. apply list_elem_of_fmap in Hn as (c & -> & Hc). apply list_elem_of_filter in Hc as [Ec Hc].
    split; [by apply Hpos, Hin|]. destruct (Hmax _ Hc) as (h' & Hh' & Hle).
    rewrite (Hhd _ _ (Hin _ Hc) (Hin _ Hjob) Ec) in Hh'. by simplify_eq.
Qed.
End Workers.

(** ** Workers over the local job store: concrete runs

    The theorems of [JobWorkers.v] at [FileJobStore]: one worker takes a job
    from the store of [FileJobStoreFacts.Sample], executes it and completes it. *)

Definition mail_handler : jobHandlerEntry nat :=
  JobHandlerEntry "mail" "mail" (MkJobHandlerOptions 2 50) (fun _ => Ok "{}") (fun _ => Ok 1%nat).
Definition mail_handlers : gmap string (jobHandlerEntry nat) := {[ "mail" := mail_handler ]}.
Definition failing : worker_env (V := nat) (E := store_env) :=
  WorkerEnv (fun _ => Panicked "boom") 6010 Sample.env.
Definition after_execution : run_state (S := option FileJobStore) :=
  let x := executePersistent mail_handlers failing Race.res1 Race.taken in
  RunState (ex_store x) [] (if ex_called x then [res_Job Race.res1] else []).

(** The records of the sample store, checked by computation. *)
Lemma two_records k r : jobs Sample.two !! k = Some r -> (0 <=? Attempts (job r)) && (Attempts (job r) <? int64_max) = true.
Proof.
  intros Hk. apply elem_of_map_to_list, list_elem_of_In in Hk.
  assert (forallb (fun kr => (0 <=? Attempts (job kr.2)) && (Attempts (job kr.2) <? int64_max))
            (map_to_list (jobs Sample.two)) = true) as Hall by (vm_compute; reflexivity).
  rewrite forallb_forall in Hall. exact (Hall _ Hk).
Qed.

Lemma two_entries k j st : view_of (Some Sample.two) !! k = Some (j, st) -> ID j = k /\ 0 <= Attempts j.
Proof.
  rewrite view_lookup. destruct (jobs Sample.two !! k) as [r|] eqn:Hk; [|discriminate]. intros Heq.
  injection Heq as <- _. destruct (Race.sample_ok _ _ Hk) as [Hid _]. split; [exact Hid|].
  apply two_records, andb_true_iff in Hk as [Hk _]. by apply Z.leb_le.
Qed.

Lemma two_attempts k j st : view_of (Some Sample.two) !! k = Some (j, st) -> Attempts j < int64_max.
Proof.
  rewrite view_lookup. destruct (jobs Sample.two !! k) as [r|] eqn:Hk; [|discriminate]. intros Heq.
  injection Heq as <- _. apply two_records, andb_true_iff in Hk as [_ Hk]. by apply Z.ltb_lt.
Qed.

Lemma one_attempt_run :
  rtc (run_step (E := store_env) mail_handlers) (RunState (Some Sample.two) [] []) after_execution.
Proof.
  eapply rtc_l.
  { apply (run_take (E := store_env) _ _ Sample.env 6000 100 Race.taken Race.res1).
    - exact Race.taken_by_worker.
    - exact two_attempts. }
  eapply rtc_l; [|apply rtc_refl].
  apply (run_execute (E := store_env) _ (RunState Race.taken [Race.res1] []) failing [] Race.res1 []). done.
Qed.

Lemma file_store_ok (s : option FileJobStore) : contract_ok s -> store_ok (E := store_env) s.
Proof. exact (fun H => H). Qed.

Lemma handler_called_at_most_max_attempts_witness :
  exists h, mail_handlers !! "mail" = Some h /\
    (length (filter (fun c => ID c = Sample.id2) (rs_calls after_execution)) <= Z.to_nat (MaxAttempts (handlerOptions h)))%nat.
Proof.
  destruct (handler_called_at_most_max_attempts (E := store_env) mail_handlers (Some Sample.two) after_execution
    (res_Job Race.res1) (file_store_ok _ Race.sample_ok) two_entries one_attempt_run) as (h & Hh & _ & Hle);
    [vm_compute; constructor|]. by exists h.
Defined.

Lemma execution_carries_out_verdict_witness :
  ex_called (executePersistent mail_handlers failing Race.res1 Race.taken) =
    (verdict_of mail_handlers failing (res_Job Race.res1)).2.
Proof.
  exact (proj1 (proj2 (execution_carries_out_verdict (E := store_env) mail_handlers failing Race.res1 Race.taken
    (file_store_ok Race.taken Race.taken_ok)))).
Defined.
