(* ===== verification/Stream.v ===== *)
(** * RPC errors and streaming responses
    [backend/framework/protocol.go], [stream.go]

    The wire data of a stream, and the writer that numbers its frames. *)
From S2P Require Import Prelude GoStrings.
Open Scope Z_scope.
Open Scope go_scope.

Definition MaxRequestBytes : Z := 4 * 1024 * 1024.
Definition io_EOF : goerror := ErrNew "EOF".

(** [NewError(code, message)], whose text is [code: message]. *)
Definition NewError (code message : string) : goerror := ErrNew (code +:+ ": " +:+ message).

Definition streamDataKind : string := "data".
Definition streamProgressKind : string := "progress".
Definition streamCompleteKind : string := "complete".

Record Progress := MkProgress {
  progress_Completed : Z;
  progress_Total : Z;
  progress_Message : string;
  progress_Unit : string
}.

Section Stream.
Context {V : Type}.  (* the results that frames carry *)

Record StreamFrame := MkStreamFrame {
  frame_Sequence : Z;
  frame_Kind : string;
  frame_Progress : option Progress
}.

Record Response := MkResponse {
  response_ID : string;
  response_Result : option V;
  response_Error : option goerror;
  response_Stream : option StreamFrame
}.

Record StreamWriter := MkStreamWriter {
  w_ctx : context;
  w_requestID : string;
  w_sequence : Z;
  w_completed : bool;
  w_err : option goerror
}.

(** What a call of the writer does: the error it returns and the response it
    handed to [emit].  [emit] is the transport's verdict on the response. *)
Definition emitFrame (emit : Response -> option goerror) (kind : string) (value : option V)
    (progress : option Progress) (rpcError : option goerror) (w : option StreamWriter)
    : option StreamWriter * result unit * option Response :=
  match w with
  | None => (None, Err (ErrNew "framework: stream writer is nil"), None)
  | Some w =>
      match w_err w with
      | Some err => (Some w, Err err, None)
      | None =>
          if w_completed w then (Some w, Err (NewError "stream_closed" "The stream is already complete."), None)
          else
          match w_ctx w with
          | Ctx (Some err) => (Some w, Err err, None)
          | _ =>
              let sequence := wrap64 (w_sequence w + 1) in
              let response := MkResponse (w_requestID w) value rpcError
                                (Some (MkStreamFrame sequence kind progress)) in
              match emit response with
              | Some err =>
                  (Some (MkStreamWriter (w_ctx w) (w_requestID w) sequence (w_completed w) (Some err)),
                   Err err, Some response)
              | None =>
                  (Some (MkStreamWriter (w_ctx w) (w_requestID w) sequence
                           (String.eqb kind streamCompleteKind || w_completed w) None), Ok tt, Some response)
              end
          end
      end
  end.

Definition Send (emit : Response -> option goerror) (value : V) (w : option StreamWriter) :=
  emitFrame emit streamDataKind (Some value) None None w.

Definition Report (emit : Response -> option goerror) (p : Progress) (w : option StreamWriter) :=
  if (progress_Completed p <? 0) || (progress_Total p <=? 0) || (progress_Total p <? progress_Completed p)
  then (w, Err (NewError "invalid_progress" "Progress requires 0 <= completed <= total and total > 0."), None)
  else emitFrame emit streamProgressKind None (Some p) None w.

Definition complete (emit : Response -> option goerror) (rpcError : option goerror) (w : option StreamWriter) :=
  emitFrame emit streamCompleteKind None None rpcError w.

(** [ProduceStream]: the writer is nil outside a streaming call, the producer
    is what runs on it. *)
Definition ProduceStream (w : option StreamWriter)
    (producer : option (option StreamWriter -> option StreamWriter * result unit)) : option StreamWriter * result unit :=
  match w with
  | None => (None, Err (NewError "streaming_required" "This method must be called through the streaming RPC API."))
  | Some _ =>
      match producer with
      | None => (w, Err (NewError "invalid_stream" "The stream producer is required."))
      | Some producer => producer w
      end
  end.

(** ** The frames of a stream *)

Inductive stream_call :=
| CallSend (value : V)
| CallReport (p : Progress)
| CallComplete (rpcError : option goerror).
Definition stream_perform (emit : Response -> option goerror) (c : stream_call) (w : option StreamWriter) :=
  match c with
  | CallSend v => Send emit v w
  | CallReport p => Report emit p w
  | CallComplete e => complete emit e w
  end.

(** The responses emitted by a sequence of calls, each with its transport. *)
Fixpoint emitted (calls : list (stream_call * (Response -> option goerror))) (w : option StreamWriter)
    : list Response * option StreamWriter :=
  match calls with
  | [] => ([], w)
  | (c, emit) :: calls =>
      let '(w', _, r) := stream_perform emit c w in
      let '(l, w'') := emitted calls w' in
      (match r with Some r => r :: l | None => l end, w'')
  end.

Definition sequence_of (r : Response) : Z :=
  match response_Stream r with Some f => frame_Sequence f | None => 0 end.
Definition completes (r : Response) : bool :=
  match response_Stream r with Some f => String.eqb (frame_Kind f) streamCompleteKind | None => false end.

(** One call emits nothing, or the next frame; a frame that completes the
    stream, or that the transport refuses, is the last. *)
Lemma stream_perform_spec emit c w w' res r :
  stream_perform emit c (Some w) = (w', res, r) ->
  match r with
  | None => w' = Some w
  | Some r => exists w1, w' = Some w1 /\ w_err w = None /\ w_completed w = false /\
      w_sequence w1 = wrap64 (w_sequence w + 1) /\ sequence_of r = w_sequence w1 /\
      response_ID r = w_requestID w /\ w_requestID w1 = w_requestID w /\
      (completes r = true -> w_completed w1 = true \/ w_err w1 <> None)
  end.
Proof.
  assert (forall kind value progress err, emitFrame emit kind value progress err (Some w) = (w', res, r) ->
    match r with
    | None => w' = Some w
    | Some r => exists w1, w' = Some w1 /\ w_err w = None /\ w_completed w = false /\
        w_sequence w1 = wrap64 (w_sequence w + 1) /\ sequence_of r = w_sequence w1 /\
        response_ID r = w_requestID w /\ w_requestID w1 = w_requestID w /\
        (completes r = true -> w_completed w1 = true \/ w_err w1 <> None)
    end) as Hemit.
  { intros kind value progress err H. unfold emitFrame in H.
    destruct (w_err w) eqn:Ee; [by injection H as <- <- <-|].
    destruct (w_completed w) eqn:Ec; [by injection H as <- <- <-|].
    destruct (w_ctx w) as [|[e|]]; [|by injection H as <- <- <-|];
      (destruct (emit _) as [e'|]; injection H as <- <- <-; eexists; split; first done;
       repeat split; try done; cbn; intros Hk; first [by right|left; by rewrite Hk]). }
  destruct c as [v|p|e]; cbn; [apply Hemit| |apply Hemit].
  unfold Report. destruct (_ || _); [by intros [= <- <- <-]|apply Hemit].
Qed.

Lemma closed_emits_nothing calls w :
  w_completed w = true \/ w_err w <> None -> emitted calls (Some w) = ([], Some w).
Proof.
  intros Hc. induction calls as [|[c emit] calls IH]; [done|]. cbn [emitted].
  destruct (stream_perform emit c (Some w)) as [[w' res] r] eqn:E. apply stream_perform_spec in E.
  destruct r as [r|]; [|subst w'; by rewrite IH].
  destruct E as (w1 & _ & He & Hcf & _). destruct Hc; congruence.
Qed.

(** Frames are numbered without gaps: whatever the producer calls and the
    transport answers, the frames of a stream carry the numbers after the
    writer's, in order, and the request's identifier; and nothing follows a
    completing frame. *)
Theorem frames_are_consecutive calls w :
  0 <= w_sequence w -> w_sequence w + Z.of_nat (length calls) <= int64_max ->
  let frames := (emitted calls (Some w)).1 in
  (forall i r, frames !! i = Some r ->
     sequence_of r = w_sequence w + 1 + Z.of_nat i /\ response_ID r = w_requestID w) /\
  (forall i r, frames !! i = Some r -> completes r = true -> S i = length frames).
Proof.
  revert w. induction calls as [|[c emit] calls IH]; intros w H0 Hmax; cbn [emitted]; [done|].
  destruct (stream_perform emit c (Some w)) as [[w' res] r] eqn:E. apply stream_perform_spec in E.
  cbn [length] in Hmax. destruct r as [r|].
  - destruct E as (w1 & -> & _ & _ & Hs & Hr & Hid & Hid1 & Hlast).
    rewrite wrap64_id in Hs by (unfold in_int64, int64_min, int64_max in *; lia).
    specialize (IH w1). destruct (emitted calls (Some w1)) as [l w''] eqn:El. cbn [fst] in *.
    destruct IH as [IHs IHc]; [lia|lia|]. split.
    + intros [|i] r' Hl; cbn in Hl; [injection Hl as <-; split; [lia|done]|].
      destruct (IHs _ _ Hl) as [-> ->]. split; [lia|done].
    + intros [|i] r' Hl Hcm; cbn in Hl; [|cbn; f_equal; by eapply IHc]. injection Hl as <-.
      rewrite closed_emits_nothing in El by auto. by injection El as <- _.
  - subst w'. specialize (IH w). destruct (emitted calls (Some w)) as [l w''] eqn:El. cbn [fst] in *.
    apply IH; [done|lia].
Qed.
End Stream.
Arguments StreamFrame : clear implicits.
Arguments Response : clear implicits.

Lemma frames_are_consecutive_witness :
  let w := MkStreamWriter Background "7" 4 false None in
  let ok (_ : Response nat) : option goerror := None in
  sequence_of (MkResponse "7" (Some 9%nat) None (Some (MkStreamFrame 5 "data" None))) = 5.
Proof.
  exact (proj1 (proj1 (frames_are_consecutive
    [(CallSend 9%nat, fun _ => None); (CallComplete None, fun _ => None)]
    (MkStreamWriter Background "7" 4 false None)
    ltac:(cbn; lia) ltac:(cbn; unfold int64_max; lia)) 0%nat _ eq_refl)).
Defined.
