(* ===== verification/Subscription.v ===== *)
(** * Subscriptions: the replay buffer and the stream that serves it
    [backend/framework/subscription_buffer.go], [subscription.go]

    A buffer keeps the last [capacity] published values with their sequence
    numbers; a cursor is the buffer's epoch and a sequence number.  [Next] is
    one evaluation of its loop: it returns, or it waits for a change. *)
From S2P Require Import Prelude GoTime GoStrings Json Stream.
Open Scope Z_scope.
Open Scope go_scope.

Definition ErrSubscriptionClosed := ErrNew "framework: subscription buffer is closed".

Record SubscriptionBufferOptions := MkSubscriptionBufferOptions {
  opt_Capacity : Z;
  opt_MaxEventBytes : Z
}.

Record subscriptionRecord := SubscriptionRecord {
  sequence : Z;
  value : string   (* the JSON text *)
}.

Record SubscriptionBuffer := MkSubscriptionBuffer {
  epoch : string;
  capacity : Z;
  maxEventBytes : Z;
  b_sequence : Z;
  records : list subscriptionRecord;
  closed : bool
}.

Record SubscriptionItem (V : Type) := MkSubscriptionItem {
  item_Cursor : string;
  item_Value : V
}.
Arguments MkSubscriptionItem {V} _ _.
Arguments item_Cursor {V} _.
Arguments item_Value {V} _.

Definition NewSubscriptionBuffer (random : result (nat -> Z)) (o : SubscriptionBufferOptions)
    : result SubscriptionBuffer :=
  let cap := if opt_Capacity o =? 0 then 256 else opt_Capacity o in
  let bytes := if opt_MaxEventBytes o =? 0 then 64 * 1024 else opt_MaxEventBytes o in
  if (cap <? 1) || (4096 <? cap) || (bytes <? 1) || (MaxRequestBytes <? bytes)
  then Err (ErrNew ("framework: subscription capacity must be 1..4096 and event bytes must be 1.." +:+
                    Itoa MaxRequestBytes))
  else match random with
       | Ok f => Ok (MkSubscriptionBuffer (hex_encode (map f (seq 0 16))) cap bytes 0 [] false)
       | Err err => Err (Errorf [T "framework: subscription epoch: "; W err])
       | Panicked m => Panicked m
       end.

Definition cursor (b : SubscriptionBuffer) (n : Z) : string := epoch b +:+ ":" +:+ FormatUint n.

(** [encoded] is the result of [json.Marshal(value)]. *)
Definition Publish (encoded : result string) (b : SubscriptionBuffer) : SubscriptionBuffer * result string :=
  match encoded with
  | Err err => (b, Err (Errorf [T "framework: encode subscription value: "; W err]))
  | Panicked m => (b, Panicked m)
  | Ok encoded =>
      if maxEventBytes b <? string_length encoded
      then (b, Err (NewError "subscription_event_too_large" "The subscription event exceeds its byte limit."))
      else if closed b then (b, Err ErrSubscriptionClosed)
      else if b_sequence b =? uint64_max then (b, Err (ErrNew "framework: subscription sequence exhausted"))
      else
        let n := b_sequence b + 1 in
        let kept := if Z.of_nat (length (records b)) =? capacity b then drop 1 (records b) else records b in
        (MkSubscriptionBuffer (epoch b) (capacity b) (maxEventBytes b) n
           (kept ++ [SubscriptionRecord n encoded]) (closed b),
         Ok (cursor b n))
  end.

Definition Cursor (b : SubscriptionBuffer) : string := cursor b (b_sequence b).
Definition Close (b : SubscriptionBuffer) : SubscriptionBuffer :=
  MkSubscriptionBuffer (epoch b) (capacity b) (maxEventBytes b) (b_sequence b) (records b) true.

(** The sequence number of a non-empty cursor. *)
Definition parse_cursor (b : SubscriptionBuffer) (after : string) : result Z :=
  let '(ep, suffix, ok) := cut ":" after in
  match ParseUint suffix with
  | Some parsed =>
      if negb ok || negb (String.eqb (FormatUint parsed) suffix)
      then Err (NewError "subscription_cursor_invalid" "The replay cursor is invalid.")
      else if negb (String.eqb ep (epoch b))
      then Err (NewError "subscription_cursor_expired" "The replay source changed; fetch a fresh snapshot.")
      else Ok parsed
  | None => Err (NewError "subscription_cursor_invalid" "The replay cursor is invalid.")
  end.

Section Next.
Context {V : Type}.
Variable unmarshal : string -> result V.  (* json.Unmarshal into the value's type *)

Inductive next_outcome :=
| Returned (r : result (SubscriptionItem V))
| Waits.

Definition Next (ctx : context) (after : string) (b : SubscriptionBuffer) : next_outcome :=
  match (if String.eqb after "" then Ok 0 else parse_cursor b after) with
  | Err e => Returned (Err e)
  | Panicked m => Returned (Panicked m)
  | Ok n =>
      match ctx with
      | Ctx (Some err) => Returned (Err err)
      | _ =>
          let resumed := negb (String.eqb after "") in
          let behind := match records b with r :: _ => n <? sequence r - 1 | [] => false end in
          if resumed && ((b_sequence b <? n) || behind) then
            Returned (Err (NewError
              (if b_sequence b <? n then "subscription_cursor_invalid" else "subscription_cursor_expired")
              "The replay cursor cannot be resumed; fetch a fresh snapshot."))
          else
          match filter (fun r => negb resumed || (n <? sequence r) = true) (records b) with
          | r :: _ =>
              match unmarshal (value r) with
              | Ok v => Returned (Ok (MkSubscriptionItem (cursor b (sequence r)) v))
              | Err err => Returned (Err (Errorf [T "framework: decode subscription value: "; W err]))
              | Panicked m => Returned (Panicked m)
              end
          | [] => if closed b then Returned (Err io_EOF) else Waits
          end
      end
  end.

(** ** [ProduceSubscription] *)

Record SubscriptionOptions := MkSubscriptionOptions { opt_AfterCursor : string; opt_HeartbeatInterval : Z }.

Definition subscription_guard (has_source : bool) (o : SubscriptionOptions) : result Z :=
  if negb has_source || (opt_HeartbeatInterval o <? 0)
  then Err (NewError "invalid_subscription" "A source and a non-negative heartbeat interval are required.")
  else if 4096 <? string_length (opt_AfterCursor o)
  then Err (NewError "subscription_cursor_invalid" "The replay cursor exceeds 4096 bytes.")
  else Ok (if opt_HeartbeatInterval o =? 0 then 15 * Second else opt_HeartbeatInterval o).

(** What one turn of the loop does with what [next] returned: stop with a
    result, or send an envelope and go on at a cursor. *)
Inductive envelope := Heartbeat (at_ : string) | Data (item : SubscriptionItem V).
Inductive subscription_turn :=
| Finish (r : result unit)
| SendThen (e : envelope) (cursor : string).

Definition turn_of (stream_ctx : context) (timedOut : bool) (next : result (SubscriptionItem V)) (cursor : string)
    : subscription_turn :=
  match stream_ctx with
  | Ctx (Some err) => Finish (Err err)
  | _ =>
      match next with
      | Err err =>
          if errors_is err io_EOF then Finish (Ok tt)
          else if errors_is err context_DeadlineExceeded && timedOut then SendThen (Heartbeat cursor) cursor
          else Finish (Err err)
      | Panicked m => Finish (Panicked m)
      | Ok item =>
          if String.eqb (item_Cursor item) "" || String.eqb (item_Cursor item) cursor ||
             (4096 <? string_length (item_Cursor item))
          then Finish (Err (NewError "subscription_cursor_invalid"
                 "The source must advance a non-empty replay cursor of at most 4096 bytes."))
          else SendThen (Data item) (item_Cursor item)
      end
  end.

(** The items a subscriber of a buffer at rest gets before the source waits or
    ends: as many turns of the loop as the buffer has records. *)
Fixpoint served (fuel : nat) (b : SubscriptionBuffer) (cursor : string) : list (SubscriptionItem V) * option (result unit) :=
  match fuel with
  | O => ([], None)
  | S fuel =>
      match Next Background cursor b with
      | Waits => ([], None)
      | Returned r =>
          match turn_of Background false r cursor with
          | Finish r => ([], Some r)
          | SendThen (Data item) cursor => let '(l, r) := served fuel b cursor in (item :: l, r)
          | SendThen (Heartbeat _) _ => ([], None)
          end
      end
  end.
End Next.
Arguments next_outcome : clear implicits.

(** ** The history of a buffer *)

(** [published h b]: the buffer's state after the values [h] were published:
    the last [capacity] of them, numbered from the first. *)
Fixpoint numbered (n : Z) (l : list string) : list subscriptionRecord :=
  match l with
  | [] => []
  | v :: l => SubscriptionRecord (n + 1) v :: numbered (n + 1) l
  end.
Definition published (h : list string) (b : SubscriptionBuffer) : Prop :=
  b_sequence b = Z.of_nat (length h) /\ b_sequence b <= uint64_max /\ 1 <= capacity b /\
  contains_char ":" (epoch b) = false /\ string_length (epoch b) <= 64 /\
  exists dropped, (dropped <= length h)%nat /\
    records b = numbered (Z.of_nat dropped) (drop dropped h) /\
    Z.of_nat (length h - dropped) <= capacity b /\
    (dropped <> 0%nat -> Z.of_nat (length h - dropped) = capacity b).

Lemma numbered_app n l1 l2 : numbered n (l1 ++ l2) = numbered n l1 ++ numbered (n + Z.of_nat (length l1)) l2.
Proof.
  revert n. induction l1 as [|v l1 IH]; intros n; cbn; [by rewrite Z.add_0_r|].
  rewrite IH. do 2 f_equal. change (length (v :: l1)) with (S (length l1)). f_equal. lia.
Qed.
Lemma numbered_length n l : length (numbered n l) = length l.
Proof. revert n. induction l as [|v l IH]; intros n; cbn; [done|]. by rewrite IH. Qed.

(** Publishing extends the history by one value, or leaves the buffer alone. *)
Lemma Publish_published h b encoded b' r :
  published h b -> Publish encoded b = (b', r) ->
  match r, encoded with
  | Ok c, Ok v => published (h ++ [v]) b' /\ c = cursor b (Z.of_nat (length h) + 1)
  | Ok _, _ => False
  | _, _ => b' = b
  end.
Proof.
  intros (Hn & Hmax & Hcap & Hep & Hel & d & Hd & Hr & Hle & Heq) H. unfold Publish in H.
  destruct encoded as [encoded|e|m]; [|by injection H as <- <-..].
  destruct (_ <? _); [by injection H as <- <-|]. destruct (closed b); [by injection H as <- <-|].
  destruct (Z.eqb_spec (b_sequence b) uint64_max); [by injection H as <- <-|].
  injection H as <- <-. split; [|by rewrite Hn].
  unfold published. cbn. rewrite length_app. cbn. split; [lia|]. split; [lia|]. do 3 (split; [done|]).
  assert (length (records b) = (length h - d)%nat) as Hlen by (by rewrite Hr, numbered_length, length_drop).
  rewrite Hlen. destruct (Z.eqb_spec (Z.of_nat (length h - d)) (capacity b)) as [E|E].
  - exists (S d). split; [lia|]. split; [|split; [lia|lia]].
    rewrite Hr. rewrite drop_app_le by lia. destruct (drop d h) as [|v l] eqn:El.
    + exfalso. apply (f_equal length) in El. rewrite length_drop in El. cbn in El. lia.
    + assert (drop (S d) h = l) as -> by (replace (S d) with (d + 1)%nat by lia; by rewrite <- drop_drop, El).
      cbn. rewrite numbered_app. replace (Z.of_nat (S d)) with (Z.of_nat d + 1) by lia. f_equal. cbn.
      apply (f_equal length) in El. rewrite length_drop in El. cbn in El. do 2 f_equal; lia.
  - exists d. split; [lia|]. split; [|split; [lia|lia]].
    rewrite Hr, drop_app_le, numbered_app by lia. f_equal. cbn. rewrite length_drop. do 2 f_equal; lia.
Qed.

Lemma lower_hex_no_colon s : string_forall lower_hex s = true -> contains_char ":" s = false.
Proof.
  induction s as [|a s IH]; [done|]. cbn [string_forall contains_char]. intros [Ha Hs]%andb_true_iff.
  rewrite (IH Hs), orb_false_r. apply Ascii.eqb_neq. by intros <-.
Qed.

Lemma New_published random o b : NewSubscriptionBuffer random o = Ok b -> published [] b.
Proof.
  unfold NewSubscriptionBuffer. intros H. destruct (_ || _) eqn:E; [done|]. bool_prop.
  destruct random as [f| |]; try done.
  destruct (hex_encode_spec (map f (seq 0 16))) as [Hl Hx]. rewrite length_map, length_seq in Hl.
  revert H Hl Hx. generalize (hex_encode (map f (seq 0 16))). intros s H Hl Hx. injection H as <-.
  unfold published. cbn -[string_length]. rewrite Hl. do 2 (split; [done|]). split; [lia|].
  split; [by apply lower_hex_no_colon|]. split; [lia|]. exists 0%nat. repeat split; try done; lia.
Qed.

(** A session: values published one after another, and [Close] at any point.
    With the buffer at the end, the values the buffer accepted. *)
Inductive buffer_op := OpPublish (encoded : result string) | OpClose.
Fixpoint session (ops : list buffer_op) (b : SubscriptionBuffer) : SubscriptionBuffer * list string :=
  match ops with
  | [] => (b, [])
  | OpClose :: ops => session ops (Close b)
  | OpPublish encoded :: ops =>
      let '(b1, r) := Publish encoded b in
      let '(b2, h) := session ops b1 in
      (b2, match r, encoded with Ok _, Ok v => v :: h | _, _ => h end)
  end.

Lemma Publish_same encoded b : let b' := (Publish encoded b).1 in epoch b' = epoch b /\ capacity b' = capacity b.
Proof. unfold Publish. destruct encoded; [|done..]. by repeat case_match. Qed.
Lemma session_same ops : forall b b' h, session ops b = (b', h) -> epoch b' = epoch b /\ capacity b' = capacity b.
Proof.
  induction ops as [|[enc|] ops IH]; cbn; intros b b' h H; [by injection H as <- <-| |exact (IH _ _ _ H)].
  pose proof (Publish_same enc b) as Hs. destruct (Publish enc b) as [b1 r] eqn:E1.
  destruct (session ops b1) as [b2 h'] eqn:E2. injection H as <- <-. destruct (IH _ _ _ E2) as [-> ->]. exact Hs.
Qed.
Lemma session_published ops : forall b b' h h0, published h0 b -> session ops b = (b', h) -> published (h0 ++ h) b'.
Proof.
  induction ops as [|[enc|] ops IH]; cbn; intros b b' h h0 Hp H.
  - injection H as <- <-. by rewrite app_nil_r.
  - destruct (Publish enc b) as [b1 r] eqn:E1. pose proof (Publish_published _ _ _ _ _ Hp E1) as Hs.
    destruct (session ops b1) as [b2 h'] eqn:E2. injection H as <- <-.
    destruct r, enc; try done; try (subst b1; exact (IH _ _ _ _ Hp E2)).
    destruct Hs as [Hs _]. pose proof (IH _ _ _ _ Hs E2) as Hq. by rewrite <- app_assoc in Hq.
  - apply (IH (Close b) _ _ _); [exact Hp|exact H].
Qed.

(** ** Reading *)
Lemma parse_cursor_cursor h b k : published h b -> 0 <= k <= uint64_max -> parse_cursor b (cursor b k) = Ok k.
Proof.
  intros (_ & _ & _ & Hep & _) Hk. unfold parse_cursor, cursor.
  change (epoch b +:+ ":" +:+ FormatUint k) with (epoch b +:+ String ":" (FormatUint k)). rewrite (cut_app ":" _ _ Hep).
  cbn. rewrite ParseUint_FormatUint, String.eqb_refl, String.eqb_refl by done. done.
Qed.
Lemma cursor_nonempty b k : String.eqb (cursor b k) "" = false.
Proof. unfold cursor. by destruct (epoch b). Qed.
Lemma cursor_injective h b j k : published h b -> 0 <= j <= uint64_max -> 0 <= k <= uint64_max ->
  cursor b j = cursor b k -> j = k.
Proof.
  intros Hp Hj Hk E. pose proof (parse_cursor_cursor _ _ _ Hp Hj) as H. rewrite E in H.
  rewrite (parse_cursor_cursor _ _ _ Hp Hk) in H. congruence.
Qed.
Lemma cursor_length h b k : published h b -> 0 <= k <= uint64_max -> string_length (cursor b k) <= 4096.
Proof.
  intros (_ & _ & _ & _ & Hl & _) Hk. unfold cursor. rewrite !string_length_app. cbn [string_length].
  pose proof (FormatUint_length 20 k ltac:(unfold uint64_max in *; lia) ltac:(lia)). lia.
Qed.

Lemma filter_numbered (P : subscriptionRecord -> Prop) `{!forall r, Decision (P r)} n l : forall m, m <= n ->
  (forall r, P r <-> n < sequence r) -> filter P (numbered m l) = numbered n (drop (Z.to_nat (n - m)) l).
Proof.
  intros m Hm HP. revert m Hm. induction l as [|v l IH]; intros m Hm; [by rewrite drop_nil|].
  cbn [numbered]. destruct (decide (m = n)) as [->|].
  - rewrite Z.sub_diag. change (drop (Z.to_nat 0) (v :: l)) with (v :: l). cbn [numbered]. rewrite filter_cons_True by (apply HP; cbn; lia). f_equal.
    assert (forall k, n <= k -> filter P (numbered k l) = numbered k l) as Hall; [|apply Hall; lia].
    clear IH Hm v. induction l as [|v l IH]; intros k Hk; [done|]. cbn [numbered].
    rewrite filter_cons_True by (apply HP; cbn; lia). rewrite IH by lia. done.
  - rewrite filter_cons_False by (rewrite HP; cbn; lia). rewrite IH by lia.
    replace (Z.to_nat (n - m)) with (S (Z.to_nat (n - (m + 1)))) by lia. done.
Qed.

Section Serve.
Context {V : Type}.
Variable unmarshal : string -> result V.
Variable decode : string -> V.

(** The items of the values [l], the first one numbered [n + 1]. *)
Fixpoint items (b : SubscriptionBuffer) (n : Z) (l : list string) : list (SubscriptionItem V) :=
  match l with
  | [] => []
  | v :: l => MkSubscriptionItem (cursor b (n + 1)) (decode v) :: items b (n + 1) l
  end.

Lemma Next_published h b k : published h b -> 0 <= k <= Z.of_nat (length h) ->
  (forall v, v ∈ h -> unmarshal v = Ok (decode v)) ->
  Next unmarshal Background (cursor b k) b =
    if k <? Z.of_nat (length h) - capacity b
    then Returned (Err (NewError "subscription_cursor_expired" "The replay cursor cannot be resumed; fetch a fresh snapshot."))
    else match drop (Z.to_nat k) h with
         | v :: _ => Returned (Ok (MkSubscriptionItem (cursor b (k + 1)) (decode v)))
         | [] => if closed b then Returned (Err io_EOF) else Waits
         end.
Proof.
  intros Hp Hk Hu. pose proof Hp as (Hn & Hmax & Hcap & _ & _ & d & Hd & Hr & Hle & Heq).
  unfold Next. rewrite cursor_nonempty, (parse_cursor_cursor _ _ _ Hp) by lia. cbn [Background].
  unfold Background. rewrite Hr, Hn. destruct (Z.ltb_spec (Z.of_nat (length h)) k) as [?|_]; [lia|].
  assert (match numbered (Z.of_nat d) (drop d h) with r :: _ => k <? sequence r - 1 | [] => false end
          = (k <? Z.of_nat (length h) - capacity b)) as ->.
  { destruct (drop d h) as [|v l] eqn:El; cbn [numbered].
    - symmetry. apply Z.ltb_ge. apply (f_equal length) in El. rewrite length_drop in El. cbn in El.
      destruct d; lia.
    - cbn [sequence]. apply Bool.eq_iff_eq_true. rewrite !Z.ltb_lt. destruct d; lia. }
  cbn [negb andb orb]. destruct (Z.ltb_spec k (Z.of_nat (length h) - capacity b)) as [?|Hge]; [done|].
  rewrite (filter_numbered _ k); [|destruct d; lia|intros r; apply Z.ltb_lt].
  rewrite drop_drop. replace (d + Z.to_nat (k - Z.of_nat d))%nat with (Z.to_nat k) by (destruct d; lia).
  destruct (drop (Z.to_nat k) h) as [|v l] eqn:El; cbn [numbered]; [done|]. cbn [value sequence].
  rewrite Hu; [done|]. rewrite <- (take_drop (Z.to_nat k) h), El. apply elem_of_app. right. left.
Qed.

Lemma served_published h b : published h b -> (forall v, v ∈ h -> unmarshal v = Ok (decode v)) ->
  forall fuel k, Z.max 0 (Z.of_nat (length h) - capacity b) <= k <= Z.of_nat (length h) ->
  (length h - Z.to_nat k < fuel)%nat ->
  served unmarshal fuel b (cursor b k) =
    (items b k (drop (Z.to_nat k) h), if closed b then Some (Ok tt) else None).
Proof.
  intros Hp Hu. pose proof Hp as (Hn & Hmax & _). induction fuel as [|fuel IH]; intros k Hk Hf; [lia|].
  cbn [served]. rewrite (Next_published h) by (done || lia).
  destruct (Z.ltb_spec k (Z.of_nat (length h) - capacity b)); [lia|].
  destruct (drop (Z.to_nat k) h) as [|v l] eqn:El; [by destruct (closed b)|].
  assert (length (drop (Z.to_nat k) h) = length h - Z.to_nat k)%nat as Hlen by apply length_drop.
  rewrite El in Hlen. cbn [length] in Hlen. cbn [turn_of Background]. unfold Background. cbn [turn_of item_Cursor].
  rewrite cursor_nonempty. destruct (String.eqb_spec (cursor b (k + 1)) (cursor b k)) as [E|_].
  { apply (cursor_injective _ _ _ _ Hp) in E; lia. }
  destruct (Z.ltb_spec 4096 (string_length (cursor b (k + 1)))) as [?|_].
  { pose proof (cursor_length _ _ (k + 1) Hp). lia. }
  cbn [orb]. rewrite IH by lia. cbn [items]. do 3 f_equal.
  replace (Z.to_nat (k + 1)) with (Z.to_nat k + 1)%nat by lia. by rewrite <- drop_drop, El.
Qed.
End Serve.

(** C11. A subscriber that resumes from the cursor of any value the buffer ever
    accepted gets exactly the values accepted after it, each once, in order and
    with its own cursor, and then the end of the stream if the buffer was
    closed, or waits; unless one of those values has been dropped to respect
    the capacity, and then it is told that the cursor has expired. *)
Theorem resumed_subscriber_misses_nothing {V} (unmarshal : string -> result V) decode random o b0 ops b h k :
  NewSubscriptionBuffer random o = Ok b0 -> session ops b0 = (b, h) ->
  (forall v, v ∈ h -> unmarshal v = Ok (decode v)) -> 0 <= k <= Z.of_nat (length h) ->
  served unmarshal (S (length h)) b (cursor b0 k) =
    if k <? Z.of_nat (length h) - capacity b0
    then ([], Some (Err (NewError "subscription_cursor_expired" "The replay cursor cannot be resumed; fetch a fresh snapshot.")))
    else (items decode b0 k (drop (Z.to_nat k) h), if closed b then Some (Ok tt) else None).
Proof.
  intros H0 Hs Hu Hk. pose proof (session_published _ _ _ _ _ (New_published _ _ _ H0) Hs) as Hp.
  destruct (session_same _ _ _ _ Hs) as [He Hc]. rewrite <- Hc.
  assert (forall n, cursor b0 n = cursor b n) as Hcur by (intros n; unfold cursor; by rewrite He).
  assert (forall l n, items decode b0 n l = items decode b n l) as Hit.
  { intros l. induction l as [|v l IH]; intros n; cbn; [done|]. by rewrite IH, Hcur. }
  rewrite Hcur, Hit. destruct (Z.ltb_spec k (Z.of_nat (length h) - capacity b)) as [Hlt|].
  - cbn [served]. rewrite (Next_published unmarshal decode h) by (done || lia).
    destruct (Z.ltb_spec k (Z.of_nat (length h) - capacity b)); [done|lia].
  - apply served_published; try done; lia.
Qed.

Lemma resumed_subscriber_misses_nothing_witness :
  exists b0, let ops := [OpPublish (Ok "1"); OpPublish (Ok "2"); OpPublish (Ok "3"); OpClose; OpPublish (Ok "4")] in
  NewSubscriptionBuffer (Ok Z.of_nat) (MkSubscriptionBufferOptions 2 0) = Ok b0 /\
  served (fun s => Ok s) 4 (session ops b0).1 (cursor b0 1) =
    ([MkSubscriptionItem "000102030405060708090a0b0c0d0e0f:2" "2"; MkSubscriptionItem "000102030405060708090a0b0c0d0e0f:3" "3"],
     Some (Ok tt)).
Proof.
  eexists. split; [reflexivity|].
  exact (resumed_subscriber_misses_nothing (fun s => Ok s) (fun s => s) (Ok Z.of_nat) (MkSubscriptionBufferOptions 2 0) _
    [OpPublish (Ok "1"); OpPublish (Ok "2"); OpPublish (Ok "3"); OpClose; OpPublish (Ok "4")] _ ["1"; "2"; "3"] 1
    eq_refl eq_refl (fun _ _ => eq_refl) ltac:(cbn; lia)).
Defined.
