(* ===== verification/ResourceBroker.v ===== *)
(** * The broker of resource bookmarks  [backend/framework/resource_broker.go]

    The broker resolves bookmarks into leases, keeps at most [maxActiveGrants]
    of them and hands out opaque capabilities.  Each critical section of its
    mutex is a function on its state; the goroutines that run them are in
    [ResourceBrokerFacts.v].  A lease is named by the number of the call of
    [ResolveBookmark] that gave it: the resolver and the native release are not
    the framework's code. *)
From S2P Require Import Prelude GoStrings Json.
Open Scope Z_scope.
Open Scope go_scope.

Definition defaultResourceBookmarkMaxBytes : Z := Z.shiftl 1 20.
Definition defaultResourceGrantLimit : Z := 64.
Definition resourceCapabilityNonceBytes : nat := 32.
Definition resourceCapabilityMACBytes : nat := 16.
Definition resourceCapabilityBytes : nat := resourceCapabilityNonceBytes + resourceCapabilityMACBytes.

Definition ErrResourceBookmarkUnavailable := ErrNew "framework: resource bookmarks are unavailable".
Definition ErrResourceBookmarkInvalid := ErrNew "framework: resource bookmark is invalid".
Definition ErrResourceBookmarkTooLarge := ErrNew "framework: resource bookmark is too large".
Definition ErrResourceBookmarkStale := ErrNew "framework: resource bookmark is stale".
Definition ErrResourceBookmarkResolve := ErrNew "framework: resource bookmark could not be resolved".
Definition ErrResourceBookmarkAccess := ErrNew "framework: resource bookmark access was denied".
Definition ErrResourceBrokerOptions := ErrNew "framework: resource broker options are invalid".
Definition ErrResourceBrokerClosed := ErrNew "framework: resource broker is closed".
Definition ErrResourceGrantLimit := ErrNew "framework: resource grant limit was reached".
Definition ErrResourceCapabilityInvalid := ErrNew "framework: resource capability is invalid".
Definition ErrResourceCapabilityNotFound := ErrNew "framework: resource capability was not found".
Definition ErrResourceCapabilityCreate := ErrNew "framework: resource capability could not be created".
Definition ErrResourceLeaseInvalid := ErrNew "framework: resource lease is invalid".
Definition ErrResourceLeaseRelease := ErrNew "framework: resource lease could not be released".

Definition ResourceBookmarkEphemeral := "ephemeral".
Definition ResourceBookmarkPersistent := "persistent".

Record ResourceBrokerOptions := MkResourceBrokerOptions {
  MaxBookmarkBytes : Z;
  MaxActiveGrants : Z
}.
Definition DefaultResourceBrokerOptions :=
  MkResourceBrokerOptions defaultResourceBookmarkMaxBytes defaultResourceGrantLimit.

Record resourceLeaseEntry := MkLeaseEntry {
  lease : nat;
  path : string
}.

(** The state of [broker.closeDone]: not made, open, closed. *)
Inductive close_channel := NotMade | OpenChannel | ClosedChannel.

Record ResourceBroker := MkResourceBroker {
  maxBookmarkBytes : Z;
  maxActiveGrants : Z;
  capabilityKey : list Z;
  active : nat;            (* the WaitGroup's counter *)
  leases : gmap string resourceLeaseEntry;
  pending : nat;
  closed : bool;
  closeDone : close_channel;
  closeErr : option goerror
}.

Definition with_leases (b : ResourceBroker) l act :=
  MkResourceBroker (maxBookmarkBytes b) (maxActiveGrants b) (capabilityKey b) act l (pending b) (closed b) (closeDone b) (closeErr b).
Definition with_grants (b : ResourceBroker) pend act :=
  MkResourceBroker (maxBookmarkBytes b) (maxActiveGrants b) (capabilityKey b) act (leases b) pend (closed b) (closeDone b) (closeErr b).
Definition with_close (b : ResourceBroker) done_ err :=
  MkResourceBroker (maxBookmarkBytes b) (maxActiveGrants b) (capabilityKey b) (active b) (leases b) (pending b) true done_ err.

(** [random] is what [rand.Read] gives. *)
Definition NewResourceBroker (has_resolver : bool) (random : option (list Z)) (o : ResourceBrokerOptions)
    : result ResourceBroker :=
  if negb has_resolver then Err ErrResourceBrokerOptions
  else
    let bytes := if MaxBookmarkBytes o =? 0 then defaultResourceBookmarkMaxBytes else MaxBookmarkBytes o in
    let grants := if MaxActiveGrants o =? 0 then defaultResourceGrantLimit else MaxActiveGrants o in
    if (bytes <? 0) || (grants <? 0) then Err ErrResourceBrokerOptions
    else match random with
         | Some key => Ok (MkResourceBroker bytes grants key 0 ∅ 0 false NotMade None)
         | None => Err ErrResourceCapabilityCreate
         end.

(** ** Capabilities *)

(** [hex.DecodeString]: it accepts both cases of the letters. *)
Definition hex_value (c : ascii) : option Z :=
  if in_range 48 57 c then Some (byte_of c - 48)
  else if in_range 97 102 c then Some (byte_of c - 87)
  else if in_range 65 70 c then Some (byte_of c - 55)
  else None.
Fixpoint DecodeString (s : string) : option (list Z) :=
  match s with
  | EmptyString => Some []
  | String a (String b s) =>
      match hex_value a, hex_value b, DecodeString s with
      | Some x, Some y, Some l => Some (16 * x + y :: l)
      | _, _, _ => None
      end
  | String _ EmptyString => None
  end.

Definition validResourceCapability (capability : string) : bool :=
  if negb (string_length capability =? Z.of_nat resourceCapabilityBytes * 2) then false
  else match DecodeString capability with Some _ => true | None => false end.

Definition validResourceBookmarkScope (scope : string) : bool :=
  String.eqb scope ResourceBookmarkEphemeral || String.eqb scope ResourceBookmarkPersistent.

Section Mac.
(** HMAC-SHA256 of a message under a key. *)
Variable mac : list Z -> list Z -> list Z.

Definition capability_of (key nonce : list Z) : string :=
  hex_encode (nonce ++ take resourceCapabilityMACBytes (mac key nonce)).

(** [draws]: what the calls of [rand.Read] give. *)
Fixpoint createCapability (tries : nat) (b : ResourceBroker) (draws : nat -> option (list Z)) : result string :=
  match tries with
  | O => Err ErrResourceCapabilityCreate
  | S tries =>
      match draws O with
      | None => Err ErrResourceCapabilityCreate
      | Some nonce =>
          let capability := capability_of (capabilityKey b) nonce in
          match leases b !! capability with
          | None => Ok capability
          | Some _ => createCapability tries b (fun n => draws (S n))
          end
      end
  end.

Definition capabilityBelongsToBroker (b : ResourceBroker) (capability : string) : bool :=
  match DecodeString capability with
  | None => false
  | Some value =>
      if negb (Nat.eqb (length value) resourceCapabilityBytes) then false
      else
        let nonce := take resourceCapabilityNonceBytes value in
        let provided := drop resourceCapabilityNonceBytes value in
        bool_decide (provided = take resourceCapabilityMACBytes (mac (capabilityKey b) nonce))
  end.

(** ** The critical sections *)

Definition Grant_guard (b : ResourceBroker) (bookmark : list Z) (scope : string) : option goerror :=
  if Nat.eqb (length bookmark) 0 || negb (validResourceBookmarkScope scope) then Some ErrResourceBookmarkInvalid
  else if maxBookmarkBytes b <? Z.of_nat (length bookmark) then Some ErrResourceBookmarkTooLarge
  else None.

Definition beginGrant (b : ResourceBroker) : ResourceBroker * option goerror :=
  if closed b then (b, Some ErrResourceBrokerClosed)
  else if maxActiveGrants b <=? Z.of_nat (size (leases b) + pending b) then (b, Some ErrResourceGrantLimit)
  else (with_grants b (S (pending b)) (S (active b)), None).

(** The last critical section of [Grant]. *)
Definition commitGrant (b : ResourceBroker) (capability : string) (e : resourceLeaseEntry) : ResourceBroker * option goerror :=
  if closed b then (b, Some ErrResourceBrokerClosed)
  else (with_leases b (<[capability := e]> (leases b)) (active b), None).

Definition finishGrant (b : ResourceBroker) : ResourceBroker := with_grants b (pending b - 1) (active b).
Definition activeDone (b : ResourceBroker) : ResourceBroker := with_grants b (pending b) (active b - 1).

Definition ResolvePath (b : ResourceBroker) (capability : string) : result string :=
  if negb (validResourceCapability capability) then Err ErrResourceCapabilityInvalid
  else if closed b then Err ErrResourceBrokerClosed
  else match leases b !! capability with
       | None => Err ErrResourceCapabilityNotFound
       | Some entry => Ok (path entry)
       end.

Inductive release_outcome :=
| ReleaseReturns (err : option goerror)
| ReleasesLease (l : nat).

Definition Release_locked (b : ResourceBroker) (capability : string) : ResourceBroker * release_outcome :=
  if negb (validResourceCapability capability) then (b, ReleaseReturns (Some ErrResourceCapabilityInvalid))
  else if closed b then (b, ReleaseReturns (Some ErrResourceBrokerClosed))
  else match leases b !! capability with
       | None =>
           (b, ReleaseReturns (if capabilityBelongsToBroker b capability then None else Some ErrResourceCapabilityNotFound))
       | Some entry => (with_leases b (delete capability (leases b)) (S (active b)), ReleasesLease (lease entry))
       end.
End Mac.

(** [releaseResourceLease], from what the lease's [Release] returns. *)
Definition releaseResourceLease (native : option goerror) : option goerror :=
  match native with Some _ => Some ErrResourceLeaseRelease | None => None end.

Definition sanitizeResourceBookmarkError (err : goerror) : goerror :=
  let stable := [ErrResourceBookmarkUnavailable; ErrResourceBookmarkInvalid; ErrResourceBookmarkTooLarge;
                 ErrResourceBookmarkStale; ErrResourceBookmarkResolve; ErrResourceBookmarkAccess] in
  match List.find (errors_is err) stable with
  | Some candidate => candidate
  | None => ErrResourceBookmarkResolve
  end.

(** [Close]: the first caller goes on, the others wait for it. *)
Definition Close_locked (b : ResourceBroker) : ResourceBroker * bool :=
  if closed b then (b, false) else (with_close b OpenChannel (closeErr b), true).
(** After [active.Wait()]: the map is emptied. *)
Definition Close_collect (b : ResourceBroker) : ResourceBroker := with_leases b ∅ (active b).
Definition Close_finish (b : ResourceBroker) (releaseErrors : list goerror) : ResourceBroker :=
  with_close b ClosedChannel (errors_Join (Some <$> releaseErrors)).

(** ** The goroutines

    A call in progress, at the point of the code it has reached; [Returned] is
    a call that has come back. *)
Inductive outcome :=
| Granted (r : result string)
| Resolved (r : result string)
| Released (err : option goerror)
| Closed (err : option goerror).

Inductive call :=
| Granting (bookmark : list Z) (scope : string)
| Resolving                                       (* in [ResolveBookmark] *)
| Creating (l : nat) (p : string)                 (* in [createCapability] *)
| Committing (capability : string) (l : nat) (p : string)
| Dropping (l : nat) (cause : goerror)            (* in [releaseResourceLease] of a failed grant *)
| Finishing (r : result string)                   (* in the deferred [finishGrant] *)
| GrantLeaving (r : result string)                (* in its [active.Done] *)
| ResolvingPath (capability : string)
| Releasing (capability : string)
| ReleasingLease (l : nat)
| ReleaseLeaving (err : option goerror)           (* in the deferred [active.Done] *)
| Closing
| ClosingWait                                     (* in [active.Wait] *)
| ClosingLeases (left_ : list nat) (releaseErrors : list goerror)
| ClosingOther                                    (* waiting for the first [Close] *)
| Returned (o : outcome).

(** What the goroutines share; [resolved] leases were given by the resolver,
    [released] are those whose [Release] was called, in order, and [drawn] the
    nonces drawn from [crypto/rand]. *)
Record shared := Shared {
  broker : ResourceBroker;
  resolved : nat;
  released : list nat;
  drawn : list (list Z)
}.

Section Steps.
Variable mac : list Z -> list Z -> list Z.

(** A nonce [crypto/rand] may give: 32 bytes it has not given before. *)
Definition fresh_nonce (drawn : list (list Z)) (nonce : list Z) : Prop :=
  length nonce = resourceCapabilityNonceBytes /\ Forall (fun b => 0 <= b < 256) nonce /\ nonce ∉ drawn.

Inductive call_step : shared -> call -> shared -> call -> Prop :=
| grant_refused b n rel dr bm scope err : Grant_guard b bm scope = Some err ->
    call_step (Shared b n rel dr) (Granting bm scope) (Shared b n rel dr) (Returned (Granted (Err err)))
| grant_begun b n rel dr bm scope b' r : Grant_guard b bm scope = None -> beginGrant b = (b', r) ->
    call_step (Shared b n rel dr) (Granting bm scope) (Shared b' n rel dr)
      (match r with Some err => Returned (Granted (Err err)) | None => Resolving end)
| resolve_failed b n rel dr err :
    call_step (Shared b n rel dr) Resolving (Shared b n rel dr) (Finishing (Err (sanitizeResourceBookmarkError err)))
| resolve_nil b n rel dr :
    call_step (Shared b n rel dr) Resolving (Shared b n rel dr) (Finishing (Err ErrResourceLeaseInvalid))
| resolve_ok b n rel dr p :
    call_step (Shared b n rel dr) Resolving (Shared b (S n) rel dr)
      (if String.eqb (TrimSpace p) "" then Dropping n ErrResourceLeaseInvalid else Creating n p)
| create_ok b n rel dr l p nonce rest : fresh_nonce dr nonce ->
    forall cap, createCapability mac 4 b (fun i => match i with O => Some nonce | S i => rest i end) = Ok cap ->
    call_step (Shared b n rel dr) (Creating l p) (Shared b n rel (nonce :: dr)) (Committing cap l p)
| create_failed b n rel dr l p :
    call_step (Shared b n rel dr) (Creating l p) (Shared b n rel dr) (Dropping l ErrResourceCapabilityCreate)
| commit b n rel dr cap l p b' r : commitGrant b cap (MkLeaseEntry l p) = (b', r) ->
    call_step (Shared b n rel dr) (Committing cap l p) (Shared b' n rel dr)
      (match r with Some err => Dropping l err | None => Finishing (Ok cap) end)
| drop_lease b n rel dr l cause native :
    call_step (Shared b n rel dr) (Dropping l cause) (Shared b n (rel ++ [l]) dr)
      (Finishing (match errors_Join [Some cause; releaseResourceLease native] with Some e => Err e | None => Ok "" end))
| grant_finish b n rel dr r :
    call_step (Shared b n rel dr) (Finishing r) (Shared (finishGrant b) n rel dr) (GrantLeaving r)
| grant_leave b n rel dr r :
    call_step (Shared b n rel dr) (GrantLeaving r) (Shared (activeDone b) n rel dr) (Returned (Granted r))
| path_resolved b n rel dr cap :
    call_step (Shared b n rel dr) (ResolvingPath cap) (Shared b n rel dr) (Returned (Resolved (ResolvePath b cap)))
| release_begun b n rel dr cap b' o : Release_locked mac b cap = (b', o) ->
    call_step (Shared b n rel dr) (Releasing cap) (Shared b' n rel dr)
      (match o with ReleaseReturns err => Returned (Released err) | ReleasesLease l => ReleasingLease l end)
| release_lease b n rel dr l native :
    call_step (Shared b n rel dr) (ReleasingLease l) (Shared b n (rel ++ [l]) dr) (ReleaseLeaving (releaseResourceLease native))
| release_leave b n rel dr err :
    call_step (Shared b n rel dr) (ReleaseLeaving err) (Shared (activeDone b) n rel dr) (Returned (Released err))
| close_begun b n rel dr b' first : Close_locked b = (b', first) ->
    call_step (Shared b n rel dr) Closing (Shared b' n rel dr) (if first then ClosingWait else ClosingOther)
| close_collect b n rel dr ls : active b = 0%nat -> ls ≡ₚ (lease <$> (map_to_list (leases b)).*2) ->
    call_step (Shared b n rel dr) ClosingWait (Shared (Close_collect b) n rel dr) (ClosingLeases ls [])
| close_lease b n rel dr l ls errs native :
    call_step (Shared b n rel dr) (ClosingLeases (l :: ls) errs) (Shared b n (rel ++ [l]) dr)
      (ClosingLeases ls (errs ++ option_list (releaseResourceLease native)))
| close_finish b n rel dr errs :
    call_step (Shared b n rel dr) (ClosingLeases [] errs) (Shared (Close_finish b errs) n rel dr)
      (Returned (Closed (errors_Join (Some <$> errs))))
| close_other b n rel dr : closeDone b = ClosedChannel ->
    call_step (Shared b n rel dr) ClosingOther (Shared b n rel dr) (Returned (Closed (closeErr b))).

(** The calls a program can make. *)
Definition starts (c : call) : Prop :=
  match c with Granting _ _ | ResolvingPath _ | Releasing _ | Closing => True | _ => False end.

Inductive step : shared * list call -> shared * list call -> Prop :=
| call_made s l c : starts c -> step (s, l) (s, l ++ [c])
| call_moves s l1 c l2 s' c' : call_step s c s' c' -> step (s, l1 ++ c :: l2) (s', l1 ++ c' :: l2).

Definition reachable (b : ResourceBroker) (st : shared * list call) : Prop :=
  rtc step (Shared b 0 [] [], []) st.
End Steps.
