(* ===== verification/ResourceBrokerFacts.v ===== *)
(** * The resource broker releases every lease exactly once

    An invariant of the reachable states of [ResourceBroker.v]: every lease the
    resolver gave is released, retained by the broker or held by one call, and
    never two of these.  It gives what the broker promises: the bound on the
    active grants, and that [Close] returns once every lease was released. *)
From S2P Require Import Prelude GoStrings Json ResourceBroker.
Open Scope Z_scope.
Open Scope go_scope.

(** ** Capabilities and their encoding *)

Lemma hex_value_char d : 0 <= d < 16 -> hex_value (hex_char d) = Some d.
Proof.
  intros H. assert (exists n, d = Z.of_nat n /\ (n < 16)%nat) as (n & -> & Hn) by (exists (Z.to_nat d); lia).
  do 16 (destruct n as [|n]; [vm_compute; reflexivity|]). lia.
Qed.

Lemma DecodeString_encode l : Forall (fun b => 0 <= b < 256) l -> DecodeString (hex_encode l) = Some l.
Proof.
  induction 1 as [|b l Hb Hl IH]; [done|].
  change (hex_encode (b :: l)) with (hex_byte b +:+ hex_encode l). unfold hex_byte. rewrite (Z.mod_small b) by lia.
  pose proof (Z.mod_pos_bound b 16 ltac:(lia)). pose proof (Z.div_mod b 16 ltac:(lia)).
  change (DecodeString (String (hex_char (b / 16)) (String (hex_char (b mod 16)) (hex_encode l))) = Some (b :: l)).
  cbn [DecodeString]. rewrite !hex_value_char, IH by lia. do 2 f_equal. lia.
Qed.

Section Broker.
Variable mac : list Z -> list Z -> list Z.
(** HMAC-SHA256 gives 32 bytes. *)
Hypothesis mac_bytes : forall key message, length (mac key message) = 32%nat /\ Forall (fun b => 0 <= b < 256) (mac key message).

Definition nonce_ok (nonce : list Z) : Prop :=
  length nonce = resourceCapabilityNonceBytes /\ Forall (fun b => 0 <= b < 256) nonce.

Lemma capability_decodes key nonce : nonce_ok nonce ->
  DecodeString (capability_of mac key nonce) = Some (nonce ++ take resourceCapabilityMACBytes (mac key nonce)).
Proof.
  intros [_ Hb]. apply DecodeString_encode, Forall_app. split; [done|]. apply Forall_take, mac_bytes.
Qed.
Lemma capability_injective key n1 n2 : nonce_ok n1 -> nonce_ok n2 ->
  capability_of mac key n1 = capability_of mac key n2 -> n1 = n2.
Proof.
  intros H1 H2 E. pose proof (capability_decodes key _ H1) as D. rewrite E, capability_decodes in D by done.
  injection D as D. symmetry. apply app_inj_1 in D; [by destruct D|]. destruct H1, H2. congruence.
Qed.
Lemma mac_length key nonce : length (take resourceCapabilityMACBytes (mac key nonce)) = resourceCapabilityMACBytes.
Proof. rewrite length_take. by rewrite (proj1 (mac_bytes key nonce)). Qed.
Lemma capability_valid key nonce : nonce_ok nonce -> validResourceCapability (capability_of mac key nonce) = true.
Proof.
  intros H. unfold validResourceCapability. rewrite capability_decodes by done. unfold capability_of.
  rewrite (proj1 (hex_encode_spec _)), length_app, mac_length, (proj1 H). by vm_compute.
Qed.
Lemma capability_belongs b nonce : nonce_ok nonce ->
  capabilityBelongsToBroker mac b (capability_of mac (capabilityKey b) nonce) = true.
Proof.
  intros H. unfold capabilityBelongsToBroker. rewrite capability_decodes by done.
  rewrite length_app, mac_length, (proj1 H). cbn [Nat.add Nat.eqb negb resourceCapabilityBytes].
  change (negb _) with false. cbn iota. apply bool_decide_eq_true.
  rewrite <- (proj1 H) at 1 2. by rewrite drop_app_length, take_app_length.
Qed.

(** ** The invariant *)

Definition held (c : call) : list nat :=
  match c with
  | Creating l _ | Committing _ l _ | Dropping l _ | ReleasingLease l => [l]
  | ClosingLeases ls _ => ls
  | _ => []
  end.
Definition reserving (c : call) : list string := match c with Committing cap _ _ => [cap] | _ => [] end.
(** Calls counted in [pending], in [active], as future leases; a [Close] at work, and one past [Wait]. *)
Definition is_pending (c : call) : nat :=
  match c with Resolving | Creating _ _ | Committing _ _ _ | Dropping _ _ | Finishing _ => 1 | _ => 0 end.
Definition is_active (c : call) : nat :=
  match c with GrantLeaving _ | ReleasingLease _ | ReleaseLeaving _ => 1 | _ => is_pending c end.
Definition uncommitted (c : call) : nat :=
  match c with Resolving | Creating _ _ | Committing _ _ _ => 1 | _ => 0 end.
Definition is_closer (c : call) : nat := match c with ClosingWait | ClosingLeases _ _ => 1 | _ => 0 end.
Definition is_draining (c : call) : nat := match c with ClosingLeases _ _ => 1 | _ => 0 end.
Definition close_returned (c : call) : nat := match c with Returned (Closed _) => 1 | _ => 0 end.

Definition owned (m : gmap string resourceLeaseEntry) : list nat := lease <$> (map_to_list m).*2.
Definition caps (m : gmap string resourceLeaseEntry) : list string := (map_to_list m).*1.
#[local] Abbreviation total f l := (sum_list_with f l).
#[local] Abbreviation all f l := (l ≫= f).

Record inv (st : shared * list call) : Prop := Inv {
  i_owned : seq 0 (resolved st.1) ≡ₚ released st.1 ++ owned (leases (broker st.1)) ++ all held st.2;
  i_caps : NoDup (caps (leases (broker st.1)) ++ all reserving st.2) /\
    (forall c, c ∈ caps (leases (broker st.1)) ++ all reserving st.2 ->
      exists n, n ∈ drawn st.1 /\ c = capability_of mac (capabilityKey (broker st.1)) n) /\
    Forall nonce_ok (drawn st.1);
  i_active : active (broker st.1) = total is_active st.2;
  i_pending : pending (broker st.1) = total is_pending st.2;
  i_limit : Z.of_nat (size (leases (broker st.1)) + total uncommitted st.2) <= maxActiveGrants (broker st.1);
  i_closers : total is_closer st.2 = match closeDone (broker st.1) with OpenChannel => 1%nat | _ => 0%nat end;
  i_closed : closed (broker st.1) = match closeDone (broker st.1) with NotMade => false | _ => true end;
  i_drained : (total is_draining st.2 = 0%nat /\ closeDone (broker st.1) <> ClosedChannel) \/
    (active (broker st.1) = 0%nat /\ leases (broker st.1) = ∅);
  i_returned : total close_returned st.2 = 0%nat \/ closeDone (broker st.1) = ClosedChannel
}.

Lemma inv_permutation s l l' : l ≡ₚ l' -> inv (s, l) -> inv (s, l').
Proof.
  intros E []; cbn [fst snd] in *. assert (forall f, total f l' = total f l) as Ht.
  { intros f. clear -E. induction E; cbn [sum_list_with]; lia. }
  assert (forall {A} (f : call -> list A), all f l' ≡ₚ all f l) as Hb by (intros A f; by rewrite E).
  constructor; cbn [fst snd]; rewrite ?Ht; try done; [by rewrite Hb|]. destruct i_caps0 as (N & C & D).
  split; [by rewrite Hb|]. split; [|done]. intros c Hc. apply C. by rewrite <- Hb.
Qed.

Lemma owned_insert m c e : m !! c = None -> owned (<[c := e]> m) ≡ₚ lease e :: owned m.
Proof. intros H. unfold owned. by rewrite (map_to_list_insert m c e H). Qed.
Lemma owned_delete m c e : m !! c = Some e -> owned m ≡ₚ lease e :: owned (delete c m).
Proof. intros H. unfold owned. by rewrite <- (map_to_list_delete m c e H). Qed.
Lemma caps_insert m c e : m !! c = None -> caps (<[c := e]> m) ≡ₚ c :: caps m.
Proof. intros H. unfold caps. by rewrite (map_to_list_insert m c e H). Qed.
Lemma caps_delete m c e : m !! c = Some e -> caps m ≡ₚ c :: caps (delete c m).
Proof. intros H. unfold caps. by rewrite <- (map_to_list_delete m c e H). Qed.
Lemma caps_none m c : c ∉ caps m -> m !! c = None.
Proof.
  intros H. destruct (m !! c) as [e|] eqn:E; [|done]. destruct H. rewrite (caps_delete m c e E). left.
Qed.

Lemma not_in_left {A} (x : A) l1 l2 : x ∉ l1 ++ l2 -> x ∉ l1.
Proof. intros H Hx. apply H, elem_of_app. by left. Qed.

(** Closing a call's case: the equations of the counters, the lists as they were. *)
Ltac counters := cbn -[seq size map_to_list] in *; first [done | lia | intuition (congruence || lia)].
Ltac same_lists := match goal with
  | H : seq _ _ ≡ₚ _ |- seq _ _ ≡ₚ _ => cbn -[seq] in *; by rewrite H, ?app_nil_r, <- ?app_assoc
  | H : NoDup _ /\ _ |- NoDup _ /\ _ => cbn in *; exact H
  end.

(** A case that leaves the map of leases and the held leases as they are. *)
Ltac plain_case := match goal with
  H : inv _ |- _ => destruct H; constructor; [same_lists|same_lists|counters..]
  end.

Lemma total_le (f g : call -> nat) l : (forall c, f c <= g c)%nat -> (total f l <= total g l)%nat.
Proof. intros H. induction l as [|c l IH]; cbn [sum_list_with]; [lia|]. specialize (H c). lia. Qed.
Lemma open_inv s l : inv (s, l) -> closed (broker s) = false ->
  closeDone (broker s) = NotMade /\ total is_draining l = 0%nat /\ total is_closer l = 0%nat.
Proof.
  intros [] Hc. cbn in *. rewrite Hc in i_closed0. destruct (closeDone _); try done.
  pose proof (total_le is_draining is_closer l ltac:(intros []; cbn; lia)). split; [done|lia].
Qed.

(** The calls of [Grant]. *)
Definition is_Grant (c : call) : bool :=
  match c with
  | Granting _ _ | Resolving | Creating _ _ | Committing _ _ _ | Dropping _ _ | Finishing _ | GrantLeaving _ => true
  | _ => false
  end.

Lemma grant_call_inv s c s' c' l :
  is_Grant c = true ->
  call_step mac s c s' c' -> inv (s, c :: l) -> inv (s', c' :: l).
Proof.
  intros Hk Hs Hi. destruct Hs; try done.
  - plain_case.
  - unfold beginGrant in *. destruct (closed b) eqn:Ec; [simplify_eq; plain_case|].
    destruct (Z.leb_spec (maxActiveGrants b) (Z.of_nat (size (leases b) + pending b))); simplify_eq; [plain_case|].
    pose proof (total_le uncommitted is_pending l ltac:(intros []; cbn; lia)).
    destruct (open_inv _ _ Hi Ec) as (Hd & Hdr & Hcl). plain_case.
  - plain_case.
  - plain_case.
  - assert (seq 0 (S n) ≡ₚ rel ++ owned (leases b) ++ n :: all held l) as Hn.
    { rewrite seq_S. destruct Hi; cbn -[seq] in *. rewrite i_owned0. solve_Permutation. }
    destruct (String.eqb _ _); destruct Hi; (constructor; [exact Hn|same_lists|counters..]).
  - destruct Hi as [Ho (N & C & D)]. assert (nonce_ok nonce) as Hok by (destruct H as (? & ? & _); by split).
    assert (capability_of mac (capabilityKey b) nonce ∉ caps (leases b) ++ all reserving l) as Hnew.
    { intros Hin. destruct (C _ Hin) as (m & Hm & E). apply capability_injective in E; [|done|].
      - subst m. by destruct H as (_ & _ & ?).
      - by apply (proj1 (Forall_forall _ _) D). }
    assert (cap = capability_of mac (capabilityKey b) nonce) as ->.
    { cbn in H0. rewrite (caps_none _ _ (not_in_left _ _ _ Hnew)) in H0. by injection H0 as <-. }
    constructor; [same_lists| |counters..]. cbn in *. rewrite <- Permutation_middle. split; [by constructor|].
    split; [|by constructor]. intros c Hc. rewrite <- Permutation_middle in Hc. apply elem_of_cons in Hc as [->|Hc]; [eexists; split; [left|done]|].
    destruct (C c Hc) as (m & Hm & ->). eexists. split; [by right|done].
  - plain_case.
  - unfold commitGrant in *. destruct (closed b) eqn:Ec; simplify_eq.
    + destruct Hi as [Ho (N & C & D)]; constructor; [same_lists| |counters..]. cbn in *.
      rewrite <- Permutation_middle in N. apply NoDup_cons in N as [_ N]. split; [done|]. split; [|done].
      intros c Hc. apply C. rewrite <- Permutation_middle. by right.
    + destruct (open_inv _ _ Hi Ec) as (Hd & Hdr & Hcl). destruct Hi as [Ho (N & C & D)]. cbn -[seq size] in *.
      rewrite <- Permutation_middle in N. apply NoDup_cons in N as [Hnew N].
      assert (leases b !! cap = None) as Hnone by (by apply caps_none, (not_in_left _ _ _ Hnew)).
      constructor; cbn -[seq size]; [|split; [|split]| | | | | | |].
      * rewrite Ho, (owned_insert _ _ _ Hnone). solve_Permutation.
      * rewrite (caps_insert _ _ _ Hnone). by constructor.
      * intros c. rewrite (caps_insert _ _ _ Hnone). intros Hc. apply C. by rewrite <- Permutation_middle.
      * done.
      * counters. * counters. * rewrite map_size_insert_None by done. counters. * counters. * counters. * counters. * counters.
  - destruct Hi. constructor; [|same_lists|counters..]. cbn -[seq] in *. rewrite i_owned0. solve_Permutation.
  - plain_case.
  - plain_case.
Qed.

Lemma other_call_inv s c s' c' l :
  is_Grant c = false ->
  call_step mac s c s' c' -> inv (s, c :: l) -> inv (s', c' :: l).
Proof.
  intros Hk Hs Hi. destruct Hs; try done.
  - plain_case.
  - unfold Release_locked in *. destruct (validResourceCapability cap); cbn [negb] in *; [|simplify_eq; plain_case].
    destruct (closed b) eqn:Ec; [simplify_eq; plain_case|].
    destruct (leases b !! cap) as [entry|] eqn:El; [|simplify_eq; destruct (capabilityBelongsToBroker _ _ _); plain_case].
    simplify_eq. destruct (open_inv _ _ Hi Ec) as (Hd & Hdr & Hcl). destruct Hi as [Ho (N & C & D)]. cbn -[seq size] in *.
    rewrite (caps_delete _ _ _ El) in N. cbn in N. apply NoDup_cons in N as [Hnew N].
    constructor; cbn -[seq size]; [|split; [|split]| | | | | | |]; try done; try counters.
    + rewrite Ho, (owned_delete _ _ _ El). solve_Permutation.
    + intros c Hc. apply C. rewrite (caps_delete _ _ _ El). by right.
    + rewrite map_size_delete_Some by done. lia.
  - destruct Hi. constructor; [|same_lists|counters..]. cbn -[seq] in *. rewrite i_owned0. solve_Permutation.
  - plain_case.
  - unfold Close_locked in *. destruct (closed b) eqn:Ec; simplify_eq; [plain_case|].
    destruct (open_inv _ _ Hi Ec) as (Hd & Hdr & Hcl). plain_case.
  - destruct Hi as [Ho (N & C & D)]. cbn -[seq size] in *. apply NoDup_app in N as (_ & _ & N).
    pose proof (total_le uncommitted is_active l ltac:(intros []; cbn; lia)).
    constructor; cbn -[seq size]; [|split; [|split]| | | | | | |]; try done; try counters.
    + rewrite Ho. unfold owned at 2. rewrite map_to_list_empty. cbn. rewrite <- H0. done.
    + intros c Hc. apply C. rewrite elem_of_app. by right.
    + rewrite map_size_empty. lia.
  - destruct Hi. constructor; [|same_lists|counters..]. cbn -[seq] in *. rewrite i_owned0. solve_Permutation.
  - assert (total is_closer l = 0%nat) by (destruct Hi; cbn in *; destruct (closeDone b); lia). plain_case.
  - plain_case.
Qed.

Lemma broker_step_inv st st' : step mac st st' -> inv st -> inv st'.
Proof.
  intros [s l c Hc|s l1 c l2 s' c' Hs] Hi.
  - apply (inv_permutation _ (c :: l)); [by rewrite Permutation_app_comm|]. destruct c; try done; plain_case.
  - apply (inv_permutation _ (c' :: l1 ++ l2)); [by rewrite Permutation_middle|].
    apply (inv_permutation _ _ (c :: l1 ++ l2)) in Hi; [|by rewrite Permutation_middle].
    destruct (is_Grant c) eqn:Hc; [by eapply grant_call_inv|by eapply other_call_inv].
Qed.

Lemma broker_new_inv has random o b : NewResourceBroker has random o = Ok b -> inv (Shared b 0 [] [], []).
Proof.
  unfold NewResourceBroker. intros H. destruct has; [|done]. cbn [negb] in H.
  destruct (_ || _) eqn:E; [done|]. destruct random; [|done]. injection H as <-. bool_prop.
  constructor; cbn; rewrite ?map_size_empty; try done; try lia; try (by left).
  split; [constructor|]. split; [|constructor]. intros c Hc. by apply elem_of_nil in Hc.
Qed.

Lemma broker_reachable_inv b st : inv (Shared b 0 [] [], []) -> reachable mac b st -> inv st.
Proof. intros Hi Hr. induction Hr as [|st1 st2 st3 Hs _ IH]; [done|]. apply IH. by eapply broker_step_inv. Qed.

Lemma step_max st st' : step mac st st' -> maxActiveGrants (broker st'.1) = maxActiveGrants (broker st.1).
Proof.
  intros [s l c Hc|s l1 c l2 s' c' Hs]; [done|]. destruct Hs; try done; cbn;
    [unfold beginGrant in *|unfold commitGrant in *|unfold Release_locked in *|unfold Close_locked in *];
    by repeat case_match; simplify_eq.
Qed.
Lemma reachable_max b st : reachable mac b st -> maxActiveGrants (broker st.1) = maxActiveGrants b.
Proof.
  intros Hr. assert (forall st0, rtc (step mac) st0 st -> maxActiveGrants (broker st.1) = maxActiveGrants (broker st0.1)) as H.
  { intros st0 H0. induction H0 as [|st1 st2 st3 Hs _ IH]; [done|]. rewrite <- (step_max _ _ Hs). by apply IH. }
  by apply (H (Shared b 0 [] [], [])).
Qed.

Lemma nothing_held l : total is_active l = 0%nat -> total is_draining l = 0%nat -> all held l = [].
Proof. induction l as [|c l IH]; [done|]. cbn. intros Ha Hd. rewrite IH by lia. by destruct c. Qed.

(** C12. Whatever the resolver, the native releases and the interleaving of
    calls of [Grant], [Release], [ResolvePath] and [Close] do, no lease is
    released twice; and once a call of [Close] has returned, every lease the
    resolver ever gave has been released, so exactly once. *)
Theorem close_releases_every_lease_once has random o b s l :
  NewResourceBroker has random o = Ok b -> reachable mac b (s, l) ->
  NoDup (released s) /\
  forall err, Returned (Closed err) ∈ l -> released s ≡ₚ seq 0 (resolved s).
Proof.
  intros Hn Hr. pose proof (broker_reachable_inv _ _ (broker_new_inv _ _ _ _ Hn) Hr) as [Ho _ Ha _ _ Hcl _ Hd Hret].
  cbn -[seq] in *. split.
  - pose proof (NoDup_seq 0 (resolved s)) as N. rewrite Ho in N. by apply NoDup_app in N as [N _].
  - intros err Hin. destruct Hret as [Hret|Hret].
    + apply list_elem_of_split in Hin as (l1 & l2 & ->). rewrite sum_list_with_app in Hret. cbn in Hret. lia.
    + destruct Hd as [[_ ?]|[H0 Hl]]; [done|]. rewrite Ho, Hl. unfold owned. rewrite map_to_list_empty. cbn.
      rewrite nothing_held, app_nil_r; [done|lia|].
      pose proof (total_le is_draining is_closer l ltac:(intros []; cbn; lia)). rewrite Hret in Hcl. lia.
Qed.

(** The broker never retains more leases than its limit, the grants on
    their way to the map included. *)
Theorem active_grants_are_bounded has random o b s l :
  NewResourceBroker has random o = Ok b -> reachable mac b (s, l) ->
  Z.of_nat (size (leases (broker s)) + total uncommitted l) <=
    (if MaxActiveGrants o =? 0 then defaultResourceGrantLimit else MaxActiveGrants o).
Proof.
  intros Hn Hr. pose proof (broker_reachable_inv _ _ (broker_new_inv _ _ _ _ Hn) Hr) as Hi. apply i_limit in Hi. cbn in Hi.
  pose proof (reachable_max _ _ Hr) as Hm. cbn in Hm. rewrite Hm in Hi.
  unfold NewResourceBroker in Hn. destruct has; [|done]. cbn [negb] in Hn.
  destruct (_ || _); [done|]. destruct random; [|done]. by injection Hn as <-.
Qed.

(** Releasing a capability a second time returns nil and changes nothing,
    while a well-formed capability that this broker never made is refused. *)
Theorem release_is_idempotent b nonce :
  nonce_ok nonce -> closed b = false ->
  let c := capability_of mac (capabilityKey b) nonce in
  let b1 := (Release_locked mac b c).1 in
  Release_locked mac b1 c = (b1, ReleaseReturns None) /\ ResolvePath b1 c = Err ErrResourceCapabilityNotFound /\
  forall other, validResourceCapability other = true -> leases b !! other = None ->
    capabilityBelongsToBroker mac b other = false ->
    Release_locked mac b other = (b, ReleaseReturns (Some ErrResourceCapabilityNotFound)).
Proof.
  intros Hok Hc c b1. assert (validResourceCapability c = true) as Hv by (by apply capability_valid).
  assert (b1 = with_leases b (delete c (leases b)) (active b1) /\ closed b1 = false) as [Hb1 Hc1].
  { subst b1. unfold Release_locked. rewrite Hv, Hc. cbn [negb].
    destruct (leases b !! c) as [e|] eqn:E; [done|]. cbn. rewrite delete_id by done. by destruct b. }
  assert (leases b1 !! c = None) as Hnone by (rewrite Hb1; cbn; apply lookup_delete_eq).
  split; [|split].
  - unfold Release_locked at 1. rewrite Hv, Hc1, Hnone. cbn [negb].
    assert (capabilityBelongsToBroker mac b1 c = true) as ->; [|done].
    assert (capabilityKey b1 = capabilityKey b) as E by (by rewrite Hb1). unfold c. rewrite <- E. by apply capability_belongs.
  - unfold ResolvePath. by rewrite Hv, Hc1, Hnone.
  - intros other Hv' Ho Hb. unfold Release_locked. by rewrite Hv', Hc, Ho, Hb.
Qed.

(** A capability written with other letter cases than the active one's is
    accepted as released: [Release] returns nil, and the lease stays active. *)
Theorem release_of_other_spelling_keeps_lease b nonce spelling :
  nonce_ok nonce -> closed b = false -> let c := capability_of mac (capabilityKey b) nonce in
  DecodeString spelling = DecodeString c -> string_length spelling = string_length c -> leases b !! spelling = None ->
  Release_locked mac b spelling = (b, ReleaseReturns None).
Proof.
  intros Hok Hc c Hd Hl Hn. unfold Release_locked. rewrite Hc, Hn.
  assert (validResourceCapability spelling = true) as ->.
  { pose proof (capability_valid (capabilityKey b) nonce Hok) as Hv. unfold validResourceCapability in *. by rewrite Hl, Hd. }
  assert (capabilityBelongsToBroker mac b spelling = true) as ->; [|done].
  pose proof (capability_belongs b nonce Hok) as Hb. unfold capabilityBelongsToBroker in *. by rewrite Hd.
Qed.
End Broker.

(** ** A run: a grant, then [Close] *)
Module Sample.
Definition zero_mac (key message : list Z) : list Z := repeat 0 32.
Definition nonce : list Z := repeat 171 32.
Definition options := MkResourceBrokerOptions 0 1.
Definition start := MkResourceBroker (Z.shiftl 1 20) 1 [] 0 ∅ 0 false NotMade None.
Definition capability := capability_of zero_mac [] nonce.
Definition granted := MkResourceBroker (Z.shiftl 1 20) 1 [] 0 {[capability := MkLeaseEntry 0 "/data"]} 0 false NotMade None.
Definition finished := MkResourceBroker (Z.shiftl 1 20) 1 [] 0 ∅ 0 true ClosedChannel None.

Lemma zero_mac_bytes key message : length (zero_mac key message) = 32%nat /\ Forall (fun b => 0 <= b < 256) (zero_mac key message).
Proof. split; [reflexivity|]. unfold zero_mac. cbn [repeat]. repeat constructor; lia. Qed.
Lemma nonce_is_ok : nonce_ok nonce.
Proof. split; [reflexivity|]. unfold nonce. cbn [repeat]. repeat constructor; lia. Qed.
Lemma nonce_is_fresh : fresh_nonce [] nonce.
Proof. destruct nonce_is_ok. split; [done|]. split; [done|]. apply not_elem_of_nil. Qed.

Lemma one_call s c s' c' l : call_step zero_mac s c s' c' -> step zero_mac (s, c :: l) (s', c' :: l).
Proof. intros H. exact (call_moves _ s [] c l s' c' H). Qed.

Lemma grants : reachable zero_mac start (Shared granted 1 [] [nonce], [Returned (Granted (Ok capability))]).
Proof.
  unfold reachable. eapply rtc_l; [exact (call_made _ _ [] (Granting [1] "ephemeral") I)|].
  eapply rtc_l; [eapply one_call, grant_begun; reflexivity|].
  eapply rtc_l; [eapply one_call, (resolve_ok _ _ _ _ _ "/data")|].
  eapply rtc_l; [eapply one_call, (create_ok _ _ _ _ _ _ _ nonce (fun _ => None) nonce_is_fresh capability); reflexivity|].
  eapply rtc_l; [eapply one_call, commit; reflexivity|].
  eapply rtc_l; [eapply one_call, grant_finish|].
  eapply rtc_l; [eapply one_call, grant_leave|]. apply rtc_refl.
Qed.

Lemma closes : reachable zero_mac start
  (Shared finished 1 [0%nat] [nonce], [Returned (Granted (Ok capability)); Returned (Closed None)]).
Proof.
  pose proof grants as H. unfold reachable in *. eapply rtc_trans; [exact H|]. clear H.
  set (g := Returned (Granted (Ok capability))).
  eapply rtc_l; [exact (call_made _ _ [g] Closing I)|].
  eapply rtc_l; [eapply (call_moves _ _ [g] _ []), close_begun; reflexivity|].
  eapply rtc_l; [eapply (call_moves _ _ [g] _ []), (close_collect _ _ _ _ _ [0%nat]); reflexivity|].
  eapply rtc_l; [eapply (call_moves _ _ [g] _ []), (close_lease _ _ _ _ _ 0%nat [] [] None)|].
  eapply rtc_l; [eapply (call_moves _ _ [g] _ []), close_finish|]. apply rtc_refl.
Qed.
End Sample.

Import Sample.
Lemma close_releases_every_lease_once_witness :
  let s := Shared finished 1 [0%nat] [nonce] in NoDup (released s) /\ released s ≡ₚ seq 0 (resolved s).
Proof.
  destruct (close_releases_every_lease_once zero_mac zero_mac_bytes true (Some []) options start _ _ eq_refl closes) as [N H].
  split; [exact N|exact (H None ltac:(right; left))].
Defined.
Lemma active_grants_are_bounded_witness : let s := Shared granted 1 [] [nonce] in
  Z.of_nat (size (leases (broker s)) + 0) <= 1.
Proof.
  exact (active_grants_are_bounded zero_mac zero_mac_bytes true (Some []) options start _ _ eq_refl grants).
Defined.
Lemma release_is_idempotent_witness :
  let b1 := (Release_locked zero_mac granted capability).1 in
  (Release_locked zero_mac granted capability).2 = ReleasesLease 0 /\
  Release_locked zero_mac b1 capability = (b1, ReleaseReturns None).
Proof.
  split; [vm_compute; reflexivity|].
  exact (proj1 (release_is_idempotent zero_mac zero_mac_bytes granted nonce nonce_is_ok eq_refl)).
Defined.
Lemma release_of_other_spelling_keeps_lease_witness : exists spelling,
  leases granted !! capability = Some (MkLeaseEntry 0 "/data") /\
  Release_locked zero_mac granted spelling = (granted, ReleaseReturns None).
Proof.
  exists (to_upper capability). split; [vm_compute; reflexivity|].
  exact (release_of_other_spelling_keeps_lease zero_mac zero_mac_bytes granted nonce (to_upper capability)
    nonce_is_ok eq_refl ltac:(vm_compute; reflexivity) ltac:(vm_compute; reflexivity) ltac:(vm_compute; reflexivity)).
Defined.
