(* ===== verification/ContainerFacts.v ===== *)
(** * Resolution always returns, and a singleton is built once

    What a resolution changes ([evolves]) and what it keeps ([world_ok]): the
    mutexes held are those of the stack, so none is locked twice; the stack
    holds registered identifiers without repetition, so the resolution ends;
    the calls of a singleton's factory that succeeded are the one whose result
    the binding keeps. *)
From S2P Require Import Prelude GoStrings Container.
Open Scope Z_scope.
Open Scope go_scope.

Section Facts.
Context {V : Type}.
Variable has_type : V -> string -> bool.
Variable regs : gset serviceID.  (* what is registered: resolving does not change it *)
Implicit Types (w : world (V := V)) (c : Container (V := V)) (b : serviceBinding (V := V)).
Abbreviation Scope_ := (gmap serviceID (scopeEntry (V := V))).

Definition ids (stack : list resolutionFrame) : list serviceID := frame_id <$> stack.
Definition entry_at (s : Scope_) (i : serviceID) : scopeEntry := default (MkScopeEntry false None) (s !! i).

(** A mutex keeps its state; an instance, once there, stays, and one under a
    held mutex does not appear. *)
Record evolves w w' : Prop := Evolves {
  ev_services : services (container w') = services (container w);
  ev_aliases : aliases (container w') = aliases (container w);
  ev_bindings : forall i, match bindings (container w) !! i, bindings (container w') !! i with
    | None, None => True
    | Some b, Some b' => lifetime b' = lifetime b /\ factory b' = factory b /\ locked b' = locked b /\
        (instance b' = instance b \/ (instance b = None /\ locked b = false))
    | _, _ => False
    end;
  ev_scope : match scope w, scope w' with
    | None, None => True
    | Some s, Some s' => forall i, entry_locked (entry_at s' i) = entry_locked (entry_at s i) /\
        (entry_instance (entry_at s' i) = entry_instance (entry_at s i) \/
         (entry_instance (entry_at s i) = None /\ entry_locked (entry_at s i) = false))
    | _, _ => False
    end
}.

Lemma evolves_same w w' : container w' = container w -> scope w' = scope w -> evolves w w'.
Proof. intros Hc Hs. constructor; rewrite ?Hc, ?Hs; try done; [intros i; case_match; naive_solver|case_match; naive_solver]. Qed.
#[export] Instance evolves_preorder : PreOrder evolves.
Proof.
  split.
  - intros w. by apply evolves_same.
  - intros w1 w2 w3 [S1 A1 B1 C1] [S2 A2 B2 C2]. constructor; [congruence..| |].
    + intros i. specialize (B1 i). specialize (B2 i).
      destruct (bindings (container w1) !! i), (bindings (container w2) !! i), (bindings (container w3) !! i); try done.
      destruct B1 as (E1 & E2 & E & ?), B2 as (-> & -> & -> & ?). rewrite E in *. intuition congruence.
    + destruct (scope w1), (scope w2), (scope w3); try done. intros i. specialize (C1 i) as [E1 D1]. specialize (C2 i) as [E2 D2].
      rewrite E1 in *. intuition congruence.
Qed.

Lemma evolves_registered w w' : evolves w w' -> registered_ids (container w') = registered_ids (container w).
Proof.
  intros [E1 E2 E3 _]. unfold registered_ids. rewrite E1, E2. do 2 f_equal. apply set_eq. intros i.
  rewrite !elem_of_dom. specialize (E3 i). destruct (bindings (container w) !! i), (bindings (container w') !! i); done || (split; intros; by eexists).
Qed.

(** The services the factory of [i] gave. *)
Definition built (i : serviceID) (h : list (serviceID * result V)) : list V :=
  omap (fun e => if decide (e.1 = i) then ok_value e.2 else None) h.
Lemma built_app i h1 h2 : built i (h1 ++ h2) = built i h1 ++ built i h2.
Proof. apply omap_app. Qed.

Record world_ok (stack : list resolutionFrame) w : Prop := WorldOk {
  wo_stack : registered_ids (container w) = regs /\ NoDup (ids stack) /\ forall i, i ∈ ids stack -> i ∈ regs;
  wo_locks : forall i b, bindings (container w) !! i = Some b -> locked b = true -> i ∈ ids stack;
  wo_entries : forall s i, scope w = Some s -> entry_locked (entry_at s i) = true -> i ∈ ids stack;
  wo_singletons : forall i b, bindings (container w) !! i = Some b -> lifetime b = LifetimeSingleton ->
    built i (history w) = option_list (instance b);
  wo_unbound : forall i, bindings (container w) !! i = None -> built i (history w) = []
}.

Definition returns (stack : list resolutionFrame) w (x : run_result (V := V)) : Prop :=
  exists r w', x = Done r w' /\ evolves w w' /\ world_ok stack w' /\
    (hasLifetime stack LifetimeSingleton = true -> scope w' = scope w).
Definition resolver_ok (stack : list resolutionFrame) (resolver : serviceID -> world -> run_result) : Prop :=
  forall id w, world_ok stack w -> returns stack w (resolver id w).

Lemma returns_done stack w r : world_ok stack w -> returns stack w (Done r w).
Proof. intros H. by exists r, w. Qed.
Lemma returns_trans stack w w1 x : evolves w w1 -> (hasLifetime stack LifetimeSingleton = true -> scope w1 = scope w) ->
  returns stack w1 x -> returns stack w x.
Proof.
  intros He Hs (r & w' & -> & He' & Hok & Hs'). exists r, w'. split; [done|]. split; [by etransitivity|].
  split; [done|]. intros H. rewrite Hs', Hs; done.
Qed.

Lemma run_program_returns stack resolver p : resolver_ok stack resolver -> forall w, world_ok stack w ->
  returns stack w (run_program has_type resolver p w).
Proof.
  intros Hr. induction p as [r|key k IH]; intros w Hw; [by apply returns_done|]. cbn. unfold Resolve.
  destruct (key_id key) as [id|]; [|by apply IH].
  destruct (Hr id w Hw) as (r & w1 & -> & He & Hw1 & Hs).
  destruct r as [v|err|m]; [|by eapply returns_trans, IH|by exists (Panicked m), w1].
  destruct (has_type v (valueType key)); by eapply returns_trans, IH.
Qed.

Definition logged (id : serviceID) (r : result V) w : world :=
  World (container w) (scope w) (calls w) (history w ++ [(id, r)]).

Lemma world_ok_evolves stack w w' : world_ok stack w -> evolves w w' ->
  (forall i b, bindings (container w') !! i = Some b -> lifetime b = LifetimeSingleton ->
    built i (history w') = option_list (instance b)) ->
  (forall i, bindings (container w') !! i = None -> built i (history w') = []) -> world_ok stack w'.
Proof.
  intros [(G & N & R) L E _ _] He Hs Hu. split; [split; [by rewrite (evolves_registered _ _ He)|done]| | |done|done].
  - intros i b Hb Hl. pose proof (ev_bindings _ _ He i) as Hi. rewrite Hb in Hi.
    destruct (bindings (container w) !! i) as [b0|] eqn:Eb; [|done]. apply (L i b0 Eb). destruct Hi as (_ & _ & <- & _). done.
  - intros s i Hw Hl. pose proof (ev_scope _ _ He) as Hi. rewrite Hw in Hi. destruct (scope w) as [s0|] eqn:Es; [|done].
    apply (E s0 i eq_refl). by rewrite <- (proj1 (Hi i)).
Qed.

Lemma call_factory_returns stack resolver id b w : resolver_ok stack resolver -> world_ok stack w ->
  exists r w1, call_factory has_type resolver id b w = Done r (logged id r w1) /\ evolves w w1 /\ world_ok stack w1 /\
    (hasLifetime stack LifetimeSingleton = true -> scope w1 = scope w).
Proof.
  intros Hr Hw. unfold call_factory. set (w0 := World _ _ _ _).
  assert (evolves w w0) as H0 by (by apply evolves_same).
  assert (world_ok stack w0) as Hw0 by (eapply world_ok_evolves; [done..| |]; apply Hw).
  destruct (run_program_returns _ _ (factory b (calls w)) Hr w0 Hw0) as (r & w1 & -> & He & Hw1 & Hs).
  exists r, w1. split; [done|]. split; [by etransitivity|]. split; [done|]. exact Hs.
Qed.

Lemma built_other i id r h : i <> id -> built i (h ++ [(id, r)]) = built i h.
Proof. intros H. rewrite built_app. cbn. rewrite decide_False by done. by rewrite app_nil_r. Qed.
Lemma built_same id r h : built id (h ++ [(id, r)]) = built id h ++ option_list (ok_value r).
Proof. rewrite built_app. cbn. rewrite decide_True by done. by destruct (ok_value r). Qed.

#[local] Arguments built : simpl never.

Lemma hasLifetime_push stack id lt lt' : hasLifetime (push stack id lt') lt = hasLifetime stack lt || bool_decide (lt' = Some lt).
Proof. unfold hasLifetime, push. rewrite existsb_app. cbn. by rewrite orb_false_r. Qed.
Lemma ids_push stack id lt : ids (push stack id lt) = ids stack ++ [id].
Proof. unfold ids, push. by rewrite fmap_app. Qed.
Lemma stackIndex_none stack id : stackIndex stack id = None -> id ∉ ids stack.
Proof.
  induction stack as [|f stack IH]; cbn; [intros _; apply not_elem_of_nil|]. destruct (decide _) as [|n]; [done|].
  intros H. apply not_elem_of_cons. split; [by intros ->|]. apply IH. by destruct (stackIndex stack id).
Qed.

Lemma world_ok_push stack id lt w : world_ok stack w -> id ∉ ids stack -> id ∈ regs ->
  world_ok (push stack id lt) w.
Proof.
  intros [(G & N & R) L E S U] Hid Hreg. split; [split; [done|split]| | |done|done]; rewrite ids_push.
  - apply NoDup_app. split; [done|]. split; [|apply NoDup_singleton]. intros x Hx ->%list_elem_of_singleton. done.
  - intros i [Hi| ->%list_elem_of_singleton]%elem_of_app; [by apply R|done].
  - intros i b Hb Hl. apply elem_of_app. left. by eapply L.
  - intros s i Hs Hl. apply elem_of_app. left. by eapply E.
Qed.

Lemma registered_binding c id b : bindings c !! id = Some b -> id ∈ registered_ids c.
Proof. intros H. unfold registered_ids. rewrite !elem_of_union, !elem_of_dom. left. right. by eexists. Qed.
Lemma registered_alias c id a : aliases c !! id = Some a -> id ∈ registered_ids c.
Proof. intros H. unfold registered_ids. rewrite !elem_of_union, !elem_of_dom. right. by eexists. Qed.

Lemma returns_pop stack id lt w x : world_ok stack w -> returns (push stack id lt) w x -> returns stack w x.
Proof.
  intros Hw (r & w' & -> & He & Hw' & Hs). exists r, w'. split; [done|]. split; [done|]. split.
  - eapply world_ok_evolves; [done..| |]; apply Hw'.
  - intros H. apply Hs. by rewrite hasLifetime_push, H.
Qed.

(** The three ways of a binding. *)
Lemma transient_returns stack id b resolver w : world_ok stack w ->
  resolver_ok stack resolver -> bindings (container w) !! id = Some b -> lifetime b = LifetimeTransient ->
  returns stack w (call_factory has_type resolver id b w).
Proof.
  intros Hw Hr Hb Hl. destruct (call_factory_returns stack resolver id b w Hr Hw) as (r & w1 & -> & He & Hw1 & Hs).
  exists r, (logged id r w1). split; [done|]. split; [etransitivity; [done|by apply evolves_same]|]. split; [|done].
  pose proof (ev_bindings _ _ He id) as Hi. rewrite Hb in Hi.
  eapply world_ok_evolves; [exact Hw1|by apply evolves_same| |]; cbn.
  - intros i b' Hb' Hl'. rewrite built_other; [by apply (wo_singletons _ _ Hw1)|]. intros ->. rewrite Hb' in Hi.
    destruct Hi as [Hi _]. congruence.
  - intros i Hi'. rewrite built_other; [by apply (wo_unbound _ _ Hw1)|]. intros ->. by rewrite Hi' in Hi.
Qed.

Lemma evolves_unlock_binding id b r w w1 : bindings (container w) !! id = Some b -> locked b = false -> instance b = None ->
  evolves (set_binding id (MkServiceBinding (lifetime b) (factory b) true None) w) w1 ->
  evolves w (set_binding id (MkServiceBinding (lifetime b) (factory b) false (ok_value r)) (logged id r w1)).
Proof.
  intros Hb Hl Hn [E1 E2 E3 E4]. constructor; try done. intros i. specialize (E3 i). cbn in *.
  destruct (decide (i = id)) as [->|Hne]; [|by rewrite !lookup_insert_ne in * by done].
  rewrite Hb, lookup_insert_eq. cbn. rewrite Hl. by repeat split; try right.
Qed.
Lemma evolves_unlock_entry id e s r w w1 : scope w = Some s -> entry_at s id = e -> entry_locked e = false -> entry_instance e = None ->
  evolves (set_entry id (MkScopeEntry true None) w) w1 ->
  evolves w (set_entry id (MkScopeEntry false (ok_value r)) (logged id r w1)).
Proof.
  intros Hs He Hl Hn [E1 E2 E3 E4]. constructor; try done. cbn in *. rewrite Hs in *. cbn in *.
  destruct (scope w1) as [s1|]; [|done]. cbn. intros i. specialize (E4 i). unfold entry_at in *.
  destruct (decide (i = id)) as [->|Hne]; [|by rewrite !lookup_insert_ne in * by done].
  rewrite lookup_insert_eq. cbn. rewrite He, Hl, Hn. split; [done|]. by right.
Qed.

Lemma world_ok_lock_binding stack id b w : world_ok stack w -> id ∈ ids stack ->
  bindings (container w) !! id = Some b -> instance b = None ->
  world_ok stack (set_binding id (MkServiceBinding (lifetime b) (factory b) true None) w).
Proof.
  intros [(G & N & R) L E S U] Hid Hb Hn. split; [split; [|done]| |done| |]; cbn.
  - rewrite <- G. unfold registered_ids. cbn. rewrite dom_insert_lookup_L; [done|by eexists].
  - intros i b'. destruct (decide (i = id)) as [->|]; [by intros; subst|]. rewrite lookup_insert_ne by done. apply L.
  - intros i b'. destruct (decide (i = id)) as [->|]; [|rewrite lookup_insert_ne by done; apply S].
    rewrite lookup_insert_eq. intros [= <-] Hl. cbn in *. by rewrite (S id b Hb Hl), Hn.
  - intros i H. apply U. destruct (decide (i = id)) as [->|]; [by rewrite lookup_insert_eq in H|by rewrite lookup_insert_ne in H].
Qed.
Lemma world_ok_lock_entry stack id w : world_ok stack w -> id ∈ ids stack ->
  world_ok stack (set_entry id (MkScopeEntry true None) w).
Proof.
  intros [NR L E S U] Hid. split; [done|done| |done|done]. cbn. intros s i Hs. destruct (scope w) as [s0|]; [|done].
  injection Hs as <-. destruct (decide (i = id)) as [->|]; [done|]. unfold entry_at. rewrite lookup_insert_ne by done.
  by apply E.
Qed.

Lemma binding_resolve_returns stack id b resolver w : world_ok stack w -> id ∉ ids stack ->
  bindings (container w) !! id = Some b ->
  bool_decide (lifetime b = LifetimeScoped) && hasLifetime stack LifetimeSingleton = false ->
  resolver_ok (push stack id (Some (lifetime b))) resolver ->
  returns stack w (binding_resolve has_type resolver id b w).
Proof.
  intros Hw Hid Hb Hg Hr. set (stack' := push stack id (Some (lifetime b))) in *.
  assert (world_ok stack' w) as Hw'.
  { apply world_ok_push; [done..|]. rewrite <- (proj1 (wo_stack _ _ Hw)). by eapply registered_binding. }
  assert (id ∈ ids stack') as Hid' by (unfold stack'; rewrite ids_push; apply elem_of_app; right; left).
  unfold binding_resolve. destruct (lifetime b) eqn:El.
  - assert (locked b = false) as Hlk by (apply not_true_is_false; intros H; by apply Hid, (wo_locks _ _ Hw id b)).
    rewrite Hlk. destruct (instance b) as [v|] eqn:En; [by apply returns_done|]. rewrite <- El.
    pose proof (world_ok_lock_binding _ _ _ _ Hw' Hid' Hb En) as Hlw.
    destruct (call_factory_returns stack' resolver id b _ Hr Hlw) as (r & w1 & -> & He & Hw1 & Hs).
    pose proof (evolves_unlock_binding id b r w w1 Hb Hlk En He) as He'. eexists r, _. split; [done|]. split; [exact He'|].
    split; [|cbn; intros _; rewrite Hs; [done|unfold stack'; rewrite hasLifetime_push, orb_true_iff; right; by rewrite bool_decide_eq_true_2]].
    eapply world_ok_evolves; [exact Hw|exact He'| |]; cbn.
    { intros i b' Hb' Hl'. destruct (decide (i = id)) as [->|Hne];
        [|rewrite lookup_insert_ne in Hb' by done; rewrite built_other by done; by apply (wo_singletons _ _ Hw1)].
      rewrite lookup_insert_eq in Hb'. injection Hb' as <-. cbn. rewrite built_same.
      pose proof (ev_bindings _ _ He id) as Hi. cbn in Hi. rewrite lookup_insert_eq in Hi.
      destruct (bindings (container w1) !! id) as [b1|] eqn:Eb1; [|done]. destruct Hi as (L1 & _ & K1 & [I1|[_ I1]]); [|done].
      cbn in *. rewrite (wo_singletons _ _ Hw1 id b1 Eb1) by congruence. by rewrite I1. }
    intros i H. destruct (decide (i = id)) as [->|Hne]; [by rewrite lookup_insert_eq in H|].
    rewrite lookup_insert_ne in H by done. rewrite built_other by done. by apply (wo_unbound _ _ Hw1).
  - eapply returns_pop; [exact Hw|]. by apply transient_returns.
  - cbn in Hg. destruct (scope w) as [entries|] eqn:Es; [|by apply returns_done].
    change (default (MkScopeEntry false None) (entries !! id)) with (entry_at entries id).
    assert (entry_locked (entry_at entries id) = false) as Hlk
      by (apply not_true_is_false; intros H; by apply Hid, (wo_entries _ _ Hw entries id)).
    rewrite Hlk. destruct (entry_instance (entry_at entries id)) as [v|] eqn:En; [by apply returns_done|].
    pose proof (world_ok_lock_entry _ _ _ Hw' Hid') as Hlw.
    destruct (call_factory_returns stack' resolver id b _ Hr Hlw) as (r & w1 & -> & He & Hw1 & Hs).
    pose proof (evolves_unlock_entry id _ entries r w w1 Es eq_refl Hlk En He) as He'.
    eexists r, _. split; [done|]. split; [exact He'|]. split; [|intros H; by rewrite H in Hg].
    pose proof (ev_bindings _ _ He id) as Hi. cbn in Hi. rewrite Hb in Hi.
    eapply world_ok_evolves; [exact Hw|exact He'| |]; cbn.
    + intros i b' Hb' Hl'. rewrite built_other; [by apply (wo_singletons _ _ Hw1)|]. intros ->. rewrite Hb' in Hi.
      destruct Hi as [Hi _]. congruence.
    + intros i Hi'. rewrite built_other; [by apply (wo_unbound _ _ Hw1)|]. intros ->. by rewrite Hi' in Hi.
Qed.

Lemma returns_map stack w x (f : result V -> result V) : returns stack w x ->
  returns stack w (match x with Done r w' => Done (f r) w' | other => other end).
Proof. intros (r & w' & -> & H). by exists (f r), w'. Qed.

Lemma resolve_returns_on fuel : forall stack, (size regs < fuel + length stack)%nat -> resolver_ok stack (resolve has_type fuel stack).
Proof.
  induction fuel as [|fuel IH]; intros stack Hf id w Hw.
  { exfalso. destruct (wo_stack _ _ Hw) as (_ & N & R). cbn in Hf.
    assert (list_to_set (ids stack) ⊆ regs) as Hsub.
    { intros i Hi. apply R. by apply elem_of_list_to_set in Hi. }
    apply subseteq_size in Hsub. rewrite size_list_to_set in Hsub by done. unfold ids in Hsub. rewrite length_fmap in Hsub. lia. }
  assert (forall lt, resolver_ok (push stack id lt) (resolve has_type fuel (push stack id lt))) as Hnext.
  { intros lt. apply IH. unfold push. rewrite length_app. cbn. lia. }
  cbn [resolve]. destruct (stackIndex stack id) eqn:Ei; [by apply returns_done|]. apply stackIndex_none in Ei.
  destruct (services _ !! id) eqn:Es; [by apply returns_done|].
  destruct (aliases _ !! id) as [a|] eqn:Ea.
  - eapply returns_pop; [exact Hw|]. apply Hnext, world_ok_push; [done..|].
    rewrite <- (proj1 (wo_stack _ _ Hw)). by eapply registered_alias.
  - destruct (bindings _ !! id) as [b|] eqn:Eb; [|by apply returns_done].
    destruct (_ && _) eqn:Eg; [by apply returns_done|].
    pose proof (binding_resolve_returns stack id b _ w Hw Ei Eb Eg (Hnext _)) as (r & w' & -> & H).
    destruct r; by eexists _, w'.
Qed.
End Facts.

(** ** The scope is out of a singleton's reach *)
Section NoScope.
Context {V : Type}.
Variable has_type : V -> string -> bool.
Implicit Types (w : world (V := V)).

Definition with_scope (s : option (gmap serviceID (scopeEntry (V := V)))) w : world :=
  World (container w) s (calls w) (history w).
Definition map_scope s (x : run_result (V := V)) : run_result :=
  match x with Done r w => Done r (with_scope s w) | other => other end.
Definition blind s (resolver : serviceID -> world -> run_result) : Prop :=
  forall id w, resolver id (with_scope s w) = map_scope s (resolver id w).

Lemma run_program_blind s resolver p : blind s resolver -> forall w,
  run_program has_type resolver p (with_scope s w) = map_scope s (run_program has_type resolver p w).
Proof.
  intros Hb. induction p as [r|key k IH]; intros w; [done|]. cbn. unfold Resolve.
  destruct (key_id key) as [id|]; [|apply IH]. rewrite Hb. destruct (resolver id w) as [| |r w1]; try done.
  destruct r; cbn; [destruct (has_type a (valueType key)); apply IH|apply IH|done].
Qed.
Lemma call_factory_blind s resolver id b w : blind s resolver ->
  call_factory has_type resolver id b (with_scope s w) = map_scope s (call_factory has_type resolver id b w).
Proof.
  intros Hb. unfold call_factory.
  change (World (container (with_scope s w)) (scope (with_scope s w)) (S (calls (with_scope s w))) (history (with_scope s w)))
    with (with_scope s (World (container w) (scope w) (S (calls w)) (history w))).
  rewrite run_program_blind by done. by destruct (run_program _ _ _ _).
Qed.
Lemma resolve_blind s fuel : forall stack, hasLifetime stack LifetimeSingleton = true -> blind s (resolve has_type fuel stack).
Proof.
  induction fuel as [|fuel IH]; intros stack Hs id w; [done|]. cbn [resolve]. cbn [with_scope container].
  destruct (stackIndex stack id); [done|]. destruct (services _ !! id); [done|].
  destruct (aliases _ !! id) as [a|]; [apply IH; by rewrite hasLifetime_push, Hs|].
  destruct (bindings _ !! id) as [b|]; [|done].
  assert (blind s (resolve has_type fuel (push stack id (Some (lifetime b))))) as Hb
    by (apply IH; by rewrite hasLifetime_push, Hs).
  rewrite Hs. unfold binding_resolve. destruct (lifetime b) eqn:El; cbn.
  - destruct (locked b); [done|]. destruct (instance b); [done|].
    change (set_binding ?i ?x (with_scope s w)) with (with_scope s (set_binding i x w)).
    rewrite call_factory_blind by done. by destruct (call_factory _ _ _ _ _) as [| |[] ?].
  - rewrite call_factory_blind by done. by destruct (call_factory _ _ _ _ _) as [| |[] ?].
  - done.
Qed.
End NoScope.

(** ** An application: registrations and resolutions, in any order *)
Section Application.
Context {V : Type}.
Variable has_type : V -> string -> bool.
Variable assignable : string -> string -> bool.
Abbreviation Scope_ := (gmap serviceID (scopeEntry (V := V))).

Inductive request :=
| Register (key : serviceID) (service : V)
| Bind (key : serviceID) (lt : ServiceLifetime) (f : nat -> program V)
| AddAlias (alias target : serviceID)
| ResolveIn (from : option nat) (key : serviceID).   (* from the container, or a scope *)

Record application := MkApplication {
  a_container : Container (V := V);
  a_scopes : gmap nat Scope_;
  a_calls : nat;
  a_history : list (serviceID * result V);
  answers : list (option nat * serviceID * result V)
}.
Definition start : application := MkApplication NewContainer ∅ 0 [] [].
Definition scope_of (a : application) (n : nat) : Scope_ := default NewScope (a_scopes a !! n).
Definition world_at (a : application) (from : option nat) : world :=
  World (a_container a) (scope_of a <$> from) (a_calls a) (a_history a).
Definition put_back (a : application) (from : option nat) (key : serviceID) (r : result V) (w : world) : application :=
  MkApplication (container w)
    (match from, scope w with Some n, Some s => <[n := s]> (a_scopes a) | _, _ => a_scopes a end)
    (calls w) (history w) (answers a ++ [(from, key, r)]).
Definition with_container (a : application) (c : result Container) : application :=
  match c with Ok c => MkApplication c (a_scopes a) (a_calls a) (a_history a) (answers a) | _ => a end.

(** [None]: the resolution does not come back. *)
Definition perform (q : request) (a : application) : option application :=
  match q with
  | Register key v => Some (with_container a (Instance_ (Some (a_container a)) key v))
  | Bind key lt f => Some (with_container a (bind (Some (a_container a)) key lt (Some f)))
  | AddAlias al t => Some (with_container a (Alias assignable (Some (a_container a)) al t))
  | ResolveIn from key =>
      match Resolve has_type (resolve_from has_type) key (world_at a from) with
      | Done r w => Some (put_back a from key r w)
      | _ => None
      end
  end.
Fixpoint perform_all (l : list request) (a : application) : option application :=
  match l with
  | [] => Some a
  | q :: l => match perform q a with Some a => perform_all l a | None => None end
  end.

Definition kept (b : serviceBinding) (from : option nat) (key : serviceID) (v : V) (a : application) : Prop :=
  match lifetime b with
  | LifetimeSingleton => instance b = Some v
  | LifetimeScoped => exists n, from = Some n /\ entry_instance (entry_at (scope_of a n) key) = Some v
  | LifetimeTransient => True
  end.
Record app_ok (a : application) : Prop := AppOk {
  ok_world : forall from, world_ok (registered_ids (a_container a)) [] (world_at a from);
  ok_disjoint : forall i b, bindings (a_container a) !! i = Some b ->
    services (a_container a) !! i = None /\ aliases (a_container a) !! i = None;
  ok_answers : forall from key v, (from, key, Ok v) ∈ answers a -> registered (a_container a) key = true /\
    forall b, bindings (a_container a) !! key = Some b -> kept b from key v a
}.

Lemma start_ok : app_ok start.
Proof.
  split; [|done|by intros ??? ?%elem_of_nil]. intros from. split; cbn.
  - split; [done|]. split; [constructor|by intros ? ?%elem_of_nil].
  - done.
  - intros s i Hs. destruct from; [|done]. injection Hs as <-. unfold entry_at, scope_of, NewScope. cbn.
    rewrite !lookup_empty. cbn. by rewrite lookup_empty.
  - done.
  - done.
Qed.

Lemma registered_false c (i : serviceID) : registered (V := V) c i = false ->
  services c !! i = None /\ bindings c !! i = None /\ aliases c !! i = None.
Proof. unfold registered. by repeat case_match. Qed.
Lemma registered_true c (i : serviceID) b : bindings (V := V) c !! i = Some b -> registered c i = true.
Proof. unfold registered. intros ->. by case_match. Qed.

(** A container that only got more services, aliases or fresh bindings. *)
Lemma with_container_ok a c : app_ok a ->
  (forall i b, bindings c !! i = Some b -> bindings (a_container a) !! i = Some b \/
     registered (a_container a) i = false /\ locked b = false /\ instance b = None) ->
  (forall i, bindings (a_container a) !! i <> None -> bindings c !! i <> None) ->
  (forall i b, bindings c !! i = Some b -> services c !! i = None /\ aliases c !! i = None) ->
  (forall i, registered (a_container a) i = true -> registered c i = true) ->
  app_ok (with_container a (Ok c)).
Proof.
  intros [W D A] Hb Hn Hd Hr. split; cbn; [|done|].
  - intros from. destruct (W from) as [_ L E S U]. split; cbn in *.
    + split; [done|]. split; [constructor|by intros ? ?%elem_of_nil].
    + intros i b Hi Hl. destruct (Hb i b Hi) as [?|(_ & ? & _)]; [by eapply L|congruence].
    + exact E.
    + intros i b Hi Hl. destruct (Hb i b Hi) as [?|(Hf & _ & ->)]; [by apply S|].
      apply U. by destruct (registered_false _ _ Hf) as (_ & ? & _).
    + intros i Hi. apply U. destruct (bindings (a_container a) !! i) eqn:E'; [|done]. exfalso. by apply (Hn i); [rewrite E'|].
  - intros from key v Hin. destruct (A from key v Hin) as [Hreg Hk]. split; [by apply Hr|].
    intros b Hi. destruct (Hb key b Hi) as [?|(Hf & _)]; [by apply Hk|congruence].
Qed.

Lemma registration_ok a q : app_ok a -> match q with ResolveIn _ _ => False | _ => True end ->
  forall a', perform q a = Some a' -> app_ok a'.
Proof.
  intros Ha Hq a' H. pose proof (ok_disjoint _ Ha) as D.
  assert (forall i j, registered (a_container a) i = false -> bindings (a_container a) !! j <> None -> i <> j) as Hne.
  { intros i j Hf Hj ->. by destruct (registered_false _ _ Hf) as (_ & ? & _). }
  destruct q as [key v|key lt f|al t|from key]; [| | |done]; injection H as <-.
  - unfold Instance_. destruct (key_id key) as [id|]; [|done]. destruct (registered _ id) eqn:Er; [done|].
    apply with_container_ok; cbn; [done|by left|done| |].
    + intros i b Hi. destruct (D i b Hi) as [Hs Hal]. split; [|done]. rewrite lookup_insert_ne; [done|].
      apply Hne; [done|by rewrite Hi].
    + intros i. unfold registered. cbn. destruct (decide (id = i)) as [->|Hn]; [by rewrite lookup_insert_eq|].
      by rewrite lookup_insert_ne.
  - unfold bind. destruct (key_id key) as [id|]; [|done]. destruct (registered _ id) eqn:Er; [done|].
    destruct (registered_false _ _ Er) as (Es & Eb & Ea).
    apply with_container_ok; cbn; [done| | | |].
    + intros i b Hi. destruct (decide (id = i)) as [->|Hn]; [right; by rewrite lookup_insert_eq in Hi; injection Hi as <-|].
      left. by rewrite lookup_insert_ne in Hi.
    + intros i Hi. by rewrite lookup_insert_ne by by apply Hne.
    + intros i b Hi. destruct (decide (id = i)) as [->|Hn]; [done|]. rewrite lookup_insert_ne in Hi by done. by eapply D.
    + intros i Hr. destruct (decide (id = i)) as [->|Hn]; [congruence|]. revert Hr. unfold registered. cbn.
      by rewrite lookup_insert_ne.
  - unfold Alias. destruct (key_id al) as [id|], (key_id t) as [tid|]; try done.
    destruct (_ || _); [done|]. destruct (registered _ id) eqn:Er; [done|]. destruct (negb _); [done|].
    apply with_container_ok; cbn; [done|by left|done| |].
    + intros i b Hi. destruct (D i b Hi) as [Hs Hal]. split; [done|]. rewrite lookup_insert_ne; [done|].
      apply Hne; [done|by rewrite Hi].
    + intros i Hr. destruct (decide (id = i)) as [->|Hn]; [congruence|]. revert Hr. unfold registered. cbn.
      by rewrite lookup_insert_ne.
Qed.

Lemma scope_of_put a n key r (w : world (V := V)) s : scope w = Some s -> scope_of (put_back a (Some n) key r w) n = s.
Proof. intros H. unfold scope_of, put_back. cbn. rewrite H. by rewrite lookup_insert_eq. Qed.

(** What a resolution that succeeds leaves. *)
Lemma resolved_registered fuel id (w : world (V := V)) v w' : resolve has_type fuel [] id w = Done (Ok v) w' ->
  registered (container w) id = true.
Proof.
  destruct fuel as [|fuel]; [done|]. cbn. unfold registered. repeat case_match; done.
Qed.
Lemma resolved_kept a from id v w' b : app_ok a -> evolves (world_at a from) w' -> bindings (a_container a) !! id = Some b ->
  resolve_from has_type id (world_at a from) = Done (Ok v) w' ->
  forall b', bindings (container w') !! id = Some b' -> lifetime b' = lifetime b ->
  kept b' from id v (put_back a from id (Ok v) w').
Proof.
  intros Ha He Hb H b' Hb' Hlt. destruct (ok_disjoint _ Ha _ _ Hb) as [Hs Hal]. unfold resolve_from, enough_fuel in H.
  cbn [resolve stackIndex] in H. cbn [world_at container] in H. rewrite Hs, Hal, Hb in H. rewrite andb_false_r in H.
  unfold binding_resolve in H. unfold kept. rewrite Hlt. destruct (lifetime b) eqn:El; [|done|].
  - destruct (locked b); [done|]. destruct (instance b) as [v0|] eqn:Ei.
    + injection H as -> <-. cbn in Hb'. congruence.
    + destruct (call_factory _ _ _ _ _) as [| |r w1]; try done. destruct r; try done. injection H as -> <-.
      cbn in Hb'. rewrite lookup_insert_eq in Hb'. by injection Hb' as <-.
  - cbn [world_at scope] in H. destruct from as [n|]; [|done]. cbn [fmap option_fmap option_map] in H. exists n. split; [done|].
    change (default (MkScopeEntry false None) (scope_of a n !! id)) with (entry_at (scope_of a n) id) in H.
    destruct (entry_locked _); [done|]. destruct (entry_instance (entry_at (scope_of a n) id)) as [v0|] eqn:Ei.
    + injection H as -> <-. by rewrite (scope_of_put _ _ _ _ _ (scope_of a n)).
    + destruct (call_factory _ _ _ _ _) as [| |r w1] eqn:Ec; try done. destruct r; try done. injection H as -> <-.
      pose proof (ev_scope _ _ He) as Hsc. cbn in Hsc. destruct (scope w1) as [s1|] eqn:Es1; [|done].
      rewrite (scope_of_put _ _ _ _ _ (<[id := MkScopeEntry false (Some v)]> s1)) by (cbn; by rewrite Es1).
      unfold entry_at. by rewrite lookup_insert_eq.
Qed.

Lemma entry_at_scope a from n (w : world (V := V)) key r : evolves (world_at a from) w -> forall i,
  entry_locked (entry_at (scope_of (put_back a from key r w) n) i) = entry_locked (entry_at (scope_of a n) i) /\
  (forall v, entry_locked (entry_at (scope_of a n) i) = false -> entry_instance (entry_at (scope_of a n) i) = Some v ->
    entry_instance (entry_at (scope_of (put_back a from key r w) n) i) = Some v).
Proof.
  intros He i. destruct (decide (from = Some n)) as [->|Hn].
  - pose proof (ev_scope _ _ He) as Hs. cbn in Hs. destruct (scope w) as [s|] eqn:Es; [|done].
    rewrite (scope_of_put _ _ _ _ _ s Es). destruct (Hs i) as [-> Hi]. split; [done|]. intros v _ Hv.
    destruct Hi as [->|[Hi _]]; [done|congruence].
  - assert (scope_of (put_back a from key r w) n = scope_of a n) as ->; [|done]. unfold scope_of, put_back. cbn.
    destruct from as [m|]; [|done]. destruct (scope w); [|done]. rewrite lookup_insert_ne; [done|congruence].
Qed.

Lemma put_back_ok a from key r w : app_ok a -> evolves (world_at a from) w ->
  world_ok (registered_ids (a_container a)) [] w ->
  (forall v, r = Ok v -> registered (a_container a) key = true /\
    forall b, bindings (container w) !! key = Some b -> kept b from key v (put_back a from key r w)) ->
  app_ok (put_back a from key r w).
Proof.
  intros Ha He Hw Hr. pose proof (evolves_registered _ _ He) as Hreg. cbn in Hreg.
  assert (forall i, registered (container w) i = registered (a_container a) i) as Hri.
  { intros i. unfold registered. rewrite (ev_services _ _ He), (ev_aliases _ _ He).
    pose proof (ev_bindings _ _ He i) as Hb. cbn in *. destruct (services _ !! i); [done|].
    by destruct (bindings (container w) !! i), (bindings (a_container a) !! i). }
  split.
  - intros from'. destruct Hw as [_ L _ S U]. split; cbn; [|exact L| |exact S|exact U].
    + split; [done|]. split; [constructor|by intros ? ?%elem_of_nil].
    + intros s i Hs Hl. destruct from' as [n|]; [|done]. injection Hs as <-.
      rewrite (proj1 (entry_at_scope a from n w key r He i)) in Hl.
      by apply (wo_entries _ _ _ (ok_world _ Ha (Some n)) (scope_of a n) i).
  - intros i b Hb. pose proof (ev_bindings _ _ He i) as Hi. cbn in *. rewrite Hb in Hi.
    destruct (bindings (a_container a) !! i) as [b0|] eqn:E; [|done].
    rewrite (ev_services _ _ He), (ev_aliases _ _ He). by apply (ok_disjoint _ Ha i b0).
  - intros from' key' v Hin. cbn in *. apply elem_of_app in Hin as [Hin|Hin].
    + destruct (ok_answers _ Ha _ _ _ Hin) as [Hg Hk]. rewrite Hri. split; [done|]. intros b Hb.
      pose proof (ev_bindings _ _ He key') as Hi. cbn in Hi. rewrite Hb in Hi.
      destruct (bindings (a_container a) !! key') as [b0|] eqn:E; [|done]. specialize (Hk b0 eq_refl).
      destruct Hi as (El & _ & _ & Hi). unfold kept in *. rewrite El. destruct (lifetime b0); [|done|].
      * destruct Hi as [->|[Hi _]]; [done|congruence].
      * destruct Hk as (n & -> & Hv). exists n. split; [done|].
        apply (proj2 (entry_at_scope a from n w key r He key') v); [|done].
        apply not_true_is_false. intros Hl. by apply (wo_entries _ _ _ (ok_world _ Ha (Some n)) (scope_of a n) key') in Hl; [apply elem_of_nil in Hl|].
    + apply list_elem_of_singleton in Hin. injection Hin as -> -> <-. rewrite Hri. by apply Hr.
Qed.

Lemma perform_ok a q : app_ok a -> exists a', perform q a = Some a' /\ app_ok a'.
Proof.
  intros Ha. destruct q as [key v|key lt f|al t|from key];
    [eexists; split; [reflexivity|exact (registration_ok a (Register key v) Ha I _ eq_refl)]
    |eexists; split; [reflexivity|exact (registration_ok a (Bind key lt f) Ha I _ eq_refl)]
    |eexists; split; [reflexivity|exact (registration_ok a (AddAlias al t) Ha I _ eq_refl)]|].
  pose proof (resolve_returns_on has_type (registered_ids (a_container a)) (enough_fuel (a_container a)) []
    ltac:(cbn; lia) key (world_at a from) (ok_world _ Ha from)) as (r & w & Hres & He & Hw & _).
  unfold perform, Resolve. destruct (key_id key) as [id|] eqn:Ek.
  - assert (id = key) as -> by (unfold key_id in Ek; destruct (_ || _); congruence).
    unfold resolve_from. change (container (world_at a from)) with (a_container a). rewrite Hres.
    destruct r as [v|err|m]; (eexists; split; [reflexivity|]); apply put_back_ok; try done.
    intros v' Hv'. destruct (has_type v (valueType key)); [|done]. injection Hv' as <-.
    split; [exact (resolved_registered _ _ (world_at a from) _ _ Hres)|]. intros b' Hb'.
    pose proof (ev_bindings _ _ He key) as Hi. cbn in Hi. rewrite Hb' in Hi.
    destruct (bindings (a_container a) !! key) as [b|] eqn:Eb; [|done]. destruct Hi as [Hl _].
    by apply (resolved_kept a from key v w b).
  - eexists. split; [reflexivity|]. apply put_back_ok; [done| |by apply (ok_world _ Ha)|done]. by apply evolves_same.
Qed.

Lemma perform_all_ok l : forall a, app_ok a -> exists a', perform_all l a = Some a' /\ app_ok a'.
Proof.
  induction l as [|q l IH]; intros a Ha; cbn; [by exists a|].
  destruct (perform_ok a q Ha) as (a1 & -> & Ha1). by apply IH.
Qed.

(** Whatever services, factories and aliases are registered, cyclic ones
    included, and in whatever order registrations and resolutions follow each
    other in one goroutine, every resolution comes back: none recurses for
    ever, and none waits for a mutex that its own goroutine holds. *)
Theorem resolutions_return l : exists a, perform_all l start = Some a.
Proof. destruct (perform_all_ok l start start_ok) as (a & H & _). by exists a. Qed.

(** A singleton's factory succeeds at most once, and every successful
    resolution of it, from the container or any scope, gives that one service;
    the successful resolutions of a scoped service in one scope all give the
    same service, and those outside a scope never succeed. *)
Theorem instances_are_shared l a key b :
  perform_all l start = Some a -> bindings (a_container a) !! key = Some b ->
  match lifetime b with
  | LifetimeSingleton => (length (built key (a_history a)) <= 1)%nat /\
      forall from v, (from, key, Ok v) ∈ answers a -> built key (a_history a) = [v]
  | LifetimeScoped => forall from v, (from, key, Ok v) ∈ answers a -> from <> None /\
      forall v', (from, key, Ok v') ∈ answers a -> v' = v
  | LifetimeTransient => True
  end.
Proof.
  intros Hl Hb. destruct (perform_all_ok l start start_ok) as (a' & H & Ha). assert (a' = a) as -> by congruence.
  pose proof (ok_answers _ Ha) as Hans. unfold kept in Hans. destruct (lifetime b) eqn:El; [|done|].
  - pose proof (wo_singletons _ _ _ (ok_world _ Ha None) key b Hb El) as Hs.
    change (history (world_at a None)) with (a_history a) in Hs. rewrite Hs.
    split; [by destruct (instance b); cbn; lia|]. intros from v Hin.
    pose proof (proj2 (Hans _ _ _ Hin) b Hb) as Hk. rewrite El in Hk. by rewrite Hk.
  - intros from v Hin. pose proof (proj2 (Hans _ _ _ Hin) b Hb) as Hk. rewrite El in Hk. destruct Hk as (n & -> & Hv).
    split; [done|]. intros v' Hin'. pose proof (proj2 (Hans _ _ _ Hin') b Hb) as Hk'. rewrite El in Hk'.
    destruct Hk' as (n' & [= <-] & Hv'). congruence.
Qed.

(** Resolving a singleton does not depend on the scope it is asked from,
    and does not touch it: no scoped service can be captured. *)
Theorem singleton_ignores_scope id b (w : world (V := V)) s fuel :
  services (container w) !! id = None -> aliases (container w) !! id = None ->
  bindings (container w) !! id = Some b -> lifetime b = LifetimeSingleton ->
  resolve has_type fuel [] id (with_scope s w) = map_scope s (resolve has_type fuel [] id w).
Proof.
  intros Hs Ha Hb Hl. destruct fuel as [|fuel]; [done|]. cbn [resolve stackIndex]. cbn [with_scope container].
  rewrite Hs, Ha, Hb, andb_false_r.
  pose proof (resolve_blind has_type s fuel (push [] id (Some (lifetime b)))) as Hbl.
  rewrite hasLifetime_push, Hl in Hbl. cbn in Hbl. specialize (Hbl eq_refl). unfold binding_resolve. rewrite Hl.
  destruct (locked b); [done|]. destruct (instance b); [done|].
  change (set_binding ?i ?x (with_scope s w)) with (with_scope s (set_binding i x w)).
  rewrite call_factory_blind by done. by destruct (call_factory _ _ _ _ _) as [| |[] ?].
Qed.
End Application.

(** ** A run: a singleton asked twice, from a scope and not; a cycle *)
Module Sample.
Definition text (s : nat) (t : string) : bool := String.eqb t "text".
Definition config := ServiceID "config" "text".
Definition session_ := ServiceID "session" "text".
Definition loop := ServiceID "loop" "text".
Definition requests : list (request (V := nat)) :=
  [ Bind config LifetimeSingleton (fun n => Ask session_ (fun _ => Finish (Ok n)));
    Bind session_ LifetimeScoped (fun n => Ask config (fun _ => Finish (Ok (100 + n))));
    Bind loop LifetimeSingleton (fun n => Ask loop (fun r => Finish r));
    ResolveIn (Some 1) session_; ResolveIn (Some 1) session_; ResolveIn (Some 2) session_; ResolveIn None config;
    ResolveIn None loop; ResolveIn None session_ ]%nat.
Definition config_built := MkServiceBinding LifetimeSingleton (fun n => Ask session_ (fun _ => Finish (Ok n))) false (Some 1%nat).
Definition finished := default start (perform_all text (fun _ _ => true) requests start).
(** The services given: the scoped one is built once per scope. *)
Example given : omap (fun x => ok_value x.2) (answers finished) = [100; 100; 102; 1]%nat.
Proof. vm_compute. reflexivity. Qed.
Lemma runs : perform_all text (fun _ _ => true) requests start = Some finished.
Proof. vm_compute. reflexivity. Qed.
End Sample.
Import Sample.

Lemma instances_are_shared_witness :
  bindings (a_container finished) !! config = Some config_built /\ built config (a_history finished) = [1]%nat.
Proof.
  assert (bindings (a_container finished) !! config = Some config_built) as Hb by (vm_compute; reflexivity).
  split; [exact Hb|].
  refine (proj2 (instances_are_shared text (fun _ _ => true) requests finished config config_built runs Hb) None 1%nat _).
  vm_compute. right. right. right. left.
Defined.
Lemma singleton_ignores_scope_witness :
  let w := world_at finished None in
  resolve text 5 [] config (with_scope (Some (scope_of finished 1)) w) = Done (Ok 1%nat) (with_scope (Some (scope_of finished 1)) w).
Proof.
  intros w. rewrite (singleton_ignores_scope text config _ w (Some (scope_of finished 1)) 5
    ltac:(vm_compute; reflexivity) ltac:(vm_compute; reflexivity) ltac:(vm_compute; reflexivity) ltac:(reflexivity)).
  vm_compute. reflexivity.
Defined.
