(* ===== verification/Scheduler.v ===== *)
(** * The scheduler: options, registration, one invocation, one persistent turn
    [backend/framework/scheduler.go], [scheduler_dynamic.go],
    [scheduler_persistent.go], [scheduler_cron.go]

    The parts of the scheduler that are functions of its state: what each
    critical section of [scheduler.mu] and of a task handle's mutex does, one
    invocation of a task, and one turn of the loop of a persistent task over the
    contract of its store.  [SchedulerFacts.v] has the goroutines.  A task's
    code is given by what an invocation comes back with. *)
From S2P Require Import Prelude GoTime GoStrings Cron SchedulerStore.
Open Scope Z_scope.
Open Scope go_scope.

Definition ErrSchedulerUnavailable := ErrNew "framework: scheduler is unavailable".
Definition ErrInvalidSchedulerOptions := ErrNew "framework: scheduler options are invalid".
Definition ErrInvalidScheduledTask := ErrNew "framework: scheduled task is invalid".
Definition ErrInvalidCronExpression := ErrNew "framework: cron expression is invalid".
Definition ErrScheduledTaskAlreadyDefined := ErrNew "framework: scheduled task is already defined".
Definition ErrScheduledTaskRegistrationClosed := ErrNew "framework: scheduled task registration is closed".
Definition ErrSchedulerStopped := ErrNew "framework: scheduler has stopped".
Definition ErrSchedulerNotRunning := ErrNew "framework: scheduler is not running".
Definition ErrScheduledTaskStopped := ErrNew "framework: scheduled task has stopped".
Definition ErrDynamicSchedulingUnsupported := ErrNew "framework: dynamic tasks require a scheduler without a store".
Definition ErrScheduledTaskExecutionFailed := ErrNew "framework: scheduled task execution failed".

Definition defaultSchedulerPollInterval : Z := 100 * Millisecond.
Definition defaultSchedulerLeaseDuration : Z := Minute.

Record ScheduledTaskFailure := MkScheduledTaskFailure {
  failed_Task : string;
  ScheduledAt : Z;
  failed_Err : goerror
}.

(** [has_store] is [Store != nil]; the reporter's panics are recovered, so it
    does not appear. *)
Record SchedulerOptions := MkSchedulerOptions {
  TaskTimeout : Z;
  opt_Location : Location;
  has_store : bool;
  PollInterval : Z;
  LeaseDuration : Z
}.
Definition DefaultSchedulerOptions (local : Location) : SchedulerOptions :=
  MkSchedulerOptions (30 * Second) local false defaultSchedulerPollInterval defaultSchedulerLeaseDuration.

Inductive schedulerState := schedulerCollecting | schedulerRunning | schedulerStopping | schedulerStopped.

Inductive scheduledTaskSchedule :=
| fixedDelaySchedule (interval : Z)
| cronTaskSchedule (schedule : cronSchedule).
Definition schedule_nextDelay (s : scheduledTaskSchedule) (now : Z) : option Z :=
  match s with
  | fixedDelaySchedule interval => Some interval
  | cronTaskSchedule schedule => nextDelay schedule now
  end.

Record scheduledTaskEntry := MkTaskEntry {
  task_name : string;
  task_schedule : scheduledTaskSchedule
}.

(** A dynamic task is named by the number of its runner; [runners] is the
    counter of the wait group. *)
Record Scheduler := MkScheduler {
  options : SchedulerOptions;
  tasks : list scheduledTaskEntry;
  taskNames : gset string;
  dynamicTasks : gmap string nat;
  stopping_closed : bool;
  shutdownDone_closed : bool;
  worker_cancelled : bool;
  state : schedulerState;
  runners : nat
}.

Definition with_tasks (s : Scheduler) ts names dyn runs :=
  MkScheduler (options s) ts names dyn (stopping_closed s) (shutdownDone_closed s) (worker_cancelled s) (state s) runs.
Definition with_state (s : Scheduler) stopping done cancelled st runs :=
  MkScheduler (options s) (tasks s) (taskNames s) (dynamicTasks s) stopping done cancelled st runs.

(** [Location == nil] is [None]; [local] is [time.Local]. *)
Definition newScheduler (o : SchedulerOptions) (location_ : option Location) (local : Location) (has_clock : bool)
    : result Scheduler :=
  if (TaskTimeout o <? 0) || (PollInterval o <? 0) || (LeaseDuration o <? 0) then Err ErrInvalidSchedulerOptions
  else if negb has_clock then Err ErrSchedulerUnavailable
  else
    let loc := default local location_ in
    let make o := Ok (MkScheduler o [] ∅ ∅ false false false schedulerCollecting 0) in
    if has_store o then
      let timeout := if TaskTimeout o =? 0 then TaskTimeout (DefaultSchedulerOptions local) else TaskTimeout o in
      let poll := if PollInterval o =? 0 then defaultSchedulerPollInterval else PollInterval o in
      let lease := if LeaseDuration o =? 0 then defaultSchedulerLeaseDuration else LeaseDuration o in
      if lease <=? timeout then Err ErrInvalidSchedulerOptions
      else make (MkSchedulerOptions timeout loc true poll lease)
    else make (MkSchedulerOptions (TaskTimeout o) loc false (PollInterval o) (LeaseDuration o)).

(** ** Registration *)

Definition registerTask (name : string) (schedule : scheduledTaskSchedule) (s : Scheduler) : Scheduler * result unit :=
  match state s with
  | schedulerCollecting =>
      if decide (name ∈ taskNames s) then (s, Err (Errorf [W ErrScheduledTaskAlreadyDefined; T ": "; T name]))
      else (with_tasks s (tasks s ++ [MkTaskEntry name schedule]) ({[name]} ∪ taskNames s) (dynamicTasks s) (runners s), Ok tt)
  | _ => (s, Err ErrScheduledTaskRegistrationClosed)
  end.

Definition ScheduleTask (name : string) (interval : Z) (has_task : bool) (s : Scheduler) : Scheduler * result unit :=
  let name := TrimSpace name in
  if String.eqb name "" || (interval <=? 0) || negb has_task then (s, Err ErrInvalidScheduledTask)
  else registerTask name (fixedDelaySchedule interval) s.

(** [%v] prints the cause without wrapping it. *)
Definition ScheduleCronTask (name expression_ : string) (has_task : bool) (now : Z) (s : Scheduler) : Scheduler * result unit :=
  let name := TrimSpace name in
  if String.eqb name "" || negb has_task then (s, Err ErrInvalidScheduledTask)
  else match parseCronExpression expression_ with
       | Err err => (s, Err (Errorf [W ErrInvalidCronExpression; T ": "; T (error_text err)]))
       | Panicked m => (s, Panicked m)
       | Ok parsed =>
           let schedule := CronSchedule parsed (opt_Location (options s)) in
           match nextDelay schedule now with
           | None => (s, Err (Errorf [W ErrInvalidCronExpression; T ": expression has no reachable occurrence"]))
           | Some _ => registerTask name (cronTaskSchedule schedule) s
           end
       end.

(** The order of [sort.Strings]. *)
Definition string_order (a b : string) : Prop := string_le a b = true.
#[export] Instance string_order_dec a b : Decision (string_order a b).
Proof. unfold string_order. apply _. Defined.
Definition ScheduledTasks (s : Scheduler) : list string :=
  (task_name <$> tasks s) ++ merge_sort string_order (map_to_list (dynamicTasks s)).*1.

(** ** One invocation *)

(** What an invocation does: the error [task.run] returns, or its panic. *)
Definition taskError (outcome : result unit) : option goerror :=
  match outcome with
  | Ok _ => None
  | Err e => Some e
  | Panicked m => Some (ErrNew ("task panic: " +:+ m))
  end.
(** [executeContext]: the error it returns and the failures it reports;
    [parent] is [parent.Err()] after the invocation. *)
Definition executeContext (parent : option goerror) (name : string) (scheduledAt : Z) (outcome : result unit)
    : option goerror * list ScheduledTaskFailure :=
  match taskError outcome with
  | None => (None, [])
  | Some err =>
      match parent with
      | Some cancelled =>
          if errors_is err cancelled then (Some err, [])
          else (Some err, [MkScheduledTaskFailure name scheduledAt
                 (Errorf [W ErrScheduledTaskExecutionFailed; T ": task "; T (Quote name); T ": "; W err])])
      | None => (Some err, [MkScheduledTaskFailure name scheduledAt
                 (Errorf [W ErrScheduledTaskExecutionFailed; T ": task "; T (Quote name); T ": "; W err])])
      end
  end.
Definition execute (name : string) (scheduledAt : Z) (outcome : result unit) := executeContext None name scheduledAt outcome.

(** ** Starting and stopping: the critical sections *)

(** [Start] without a store: the tasks whose goroutines are launched. *)
Definition Start_memory (s : Scheduler) : Scheduler * result (list scheduledTaskEntry) :=
  match state s with
  | schedulerRunning => (s, Ok [])
  | schedulerStopping | schedulerStopped => (s, Err ErrSchedulerStopped)
  | schedulerCollecting =>
      (with_state s (stopping_closed s) (shutdownDone_closed s) (worker_cancelled s) schedulerRunning
         (runners s + length (tasks s)), Ok (tasks s))
  end.

Inductive shutdown_outcome :=
| ShutdownReturns (err : option goerror)
| ShutdownWaits                    (* for [shutdownDone] *)
| ShutdownStops.                   (* launches [finishShutdown], and waits *)

Definition Shutdown_locked (ctx : context) (s : Scheduler) : Scheduler * shutdown_outcome :=
  match ctx with
  | NilContext => (s, ShutdownReturns (Some ErrSchedulerContextUnavailable))
  | Ctx err =>
      match state s with
      | schedulerStopped => (s, ShutdownReturns None)
      | schedulerStopping => (s, ShutdownWaits)
      | st =>
          match err with
          | Some err => (s, ShutdownReturns (Some err))
          | None =>
              match st with
              | schedulerCollecting => (with_state s true true (worker_cancelled s) schedulerStopped (runners s), ShutdownReturns None)
              | _ => (with_state s true (shutdownDone_closed s) true schedulerStopping (runners s), ShutdownStops)
              end
          end
      end
  end.

(** [finishShutdown], once the wait group is at zero. *)
Definition finishShutdown (s : Scheduler) : Scheduler :=
  with_state s (stopping_closed s) true (worker_cancelled s) schedulerStopped (runners s).

Definition Running (s : option Scheduler) : bool :=
  match s with Some s => match state s with schedulerRunning => true | _ => false end | None => false end.
Definition Stopped (s : option Scheduler) : bool :=
  match s with Some s => match state s with schedulerStopped => true | _ => false end | None => false end.

(** ** Dynamic tasks *)

(** [cancelled]: the handle's context; [wake]: its channel holds a value;
    [done]: closed. *)
Record ScheduledTaskHandle := MkHandle {
  cancelled : bool;
  done : bool;
  wake : bool;
  interval : Z;
  revision : Z;
  trigger : bool
}.

(** [StartTask]'s critical section; [id] is the number of the new runner. *)
Definition StartTask (name : string) (interval_ : Z) (has_task : bool) (id : nat) (s : Scheduler)
    : Scheduler * result ScheduledTaskHandle :=
  let name := TrimSpace name in
  if String.eqb name "" || (interval_ <=? 0) || negb has_task then (s, Err ErrInvalidScheduledTask)
  else match state s with
       | schedulerStopping | schedulerStopped => (s, Err ErrSchedulerStopped)
       | schedulerCollecting => (s, Err ErrSchedulerNotRunning)
       | schedulerRunning =>
           if has_store (options s) then (s, Err ErrDynamicSchedulingUnsupported)
           else if decide (name ∈ taskNames s) then (s, Err (Errorf [W ErrScheduledTaskAlreadyDefined; T ": "; T name]))
           else (with_tasks s (tasks s) ({[name]} ∪ taskNames s) (<[name := id]> (dynamicTasks s)) (S (runners s)),
                 Ok (MkHandle false false false interval_ 0 false))
       end.

Definition with_wake (h : ScheduledTaskHandle) w := MkHandle (cancelled h) (done h) w (interval h) (revision h) (trigger h).
(** A send to the channel of capacity one, or nothing. *)
Definition notify (h : ScheduledTaskHandle) : ScheduledTaskHandle := with_wake h true.
Definition drainWake (h : ScheduledTaskHandle) : ScheduledTaskHandle := with_wake h false.

Definition Stop (h : ScheduledTaskHandle) : ScheduledTaskHandle :=
  MkHandle true (done h) (wake h) (interval h) (revision h) (trigger h).

Definition SetInterval (i : Z) (h : ScheduledTaskHandle) : ScheduledTaskHandle * result unit :=
  if i <=? 0 then (h, Err ErrInvalidScheduledTask)
  else if cancelled h then (h, Err ErrScheduledTaskStopped)
  else (notify (MkHandle (cancelled h) (done h) (wake h) i ((revision h + 1) mod 2 ^ 64) (trigger h)), Ok tt).

Definition TriggerNow (h : ScheduledTaskHandle) : ScheduledTaskHandle * result unit :=
  if cancelled h then (h, Err ErrScheduledTaskStopped)
  else (notify (MkHandle (cancelled h) (done h) (wake h) (interval h) (revision h) true), Ok tt).

(** The two critical sections of [runDynamicTask]: what is read first, and what
    the runner decides after its timer's tick. *)
Definition read_handle (h : ScheduledTaskHandle) : ScheduledTaskHandle * (Z * Z * bool) :=
  (drainWake (MkHandle (cancelled h) (done h) (wake h) (interval h) (revision h) false),
   (interval h, revision h, trigger h)).
Definition after_tick (revision_ : Z) (h : ScheduledTaskHandle) : ScheduledTaskHandle * bool :=
  (drainWake (MkHandle (cancelled h) (done h) (wake h) (interval h) (revision h) false),
   negb (revision_ =? revision h) && negb (trigger h)).

(** The deferred function's critical section. *)
Definition unregister (name : string) (s : Scheduler) : Scheduler :=
  with_tasks s (tasks s) (taskNames s ∖ {[name]}) (delete name (dynamicTasks s)) (runners s).

(** ** Persistent tasks *)
Section Persistent.
Context {S E : Type} `{!SchedulerStore S E}.

(** [initializePersistentTasks]: the tasks that have a next run; [e name] is the
    environment of the call for the task of that name. *)
Fixpoint initializePersistentTasks (e : string -> E) (now : Z) (ts : list scheduledTaskEntry) (s : S)
    : S * result (list scheduledTaskEntry) :=
  match ts with
  | [] => (s, Ok [])
  | task :: ts =>
      match schedule_nextDelay (task_schedule task) now with
      | None => initializePersistentTasks e now ts s
      | Some delay =>
          match sstore_Initialize (e (task_name task)) Background (task_name task) (now + delay) s with
          | (s', Ok _) =>
              match initializePersistentTasks e now ts s' with
              | (s'', Ok runnable) => (s'', Ok (task :: runnable))
              | other => other
              end
          | (s', Err err) => (s', Err (Errorf [W ErrSchedulerStoreOperationFailed; T ": initialize task ";
                                                T (Quote (task_name task)); T ": "; W err]))
          | (s', Panicked m) => (s', Panicked m)
          end
      end
  end.

(** [Start] over a store. *)
Definition Start_store (e : string -> E) (now : Z) (sched : Scheduler) (s : S) : Scheduler * S * result (list scheduledTaskEntry) :=
  match state sched with
  | schedulerRunning => (sched, s, Ok [])
  | schedulerStopping | schedulerStopped => (sched, s, Err ErrSchedulerStopped)
  | schedulerCollecting =>
      match initializePersistentTasks e now (tasks sched) s with
      | (s', Ok runnable) =>
          (with_state sched (stopping_closed sched) (shutdownDone_closed sched) false schedulerRunning
             (runners sched + length runnable), s', Ok runnable)
      | (s', Err err) => (sched, s', Err err)
      | (s', Panicked m) => (sched, s', Panicked m)
      end
  end.

Definition reportSchedulerStoreFailure (task : string) (scheduledAt : Z) (operation : string) (err : goerror) : ScheduledTaskFailure :=
  MkScheduledTaskFailure task scheduledAt
    (Errorf [W ErrSchedulerStoreOperationFailed; T ": "; T operation; T " task "; T (Quote task); T ": "; W err]).

(** What one turn of [runPersistentTaskLoop] works with: the context
    [workerCtx], the clock's readings, whether a wait is interrupted by
    [stopping], and what the invocation comes back with. *)
Record turn_env := TurnEnv {
  te_stopping : bool;
  te_state_store : E;         (* the environments of the three calls to the store *)
  te_reserve_store : E;
  te_complete_store : E;
  te_ctx : context;
  te_state_time : Z;
  te_wait : Z -> bool;        (* [waitForPersistentTask] of a positive or zero delay *)
  te_waiting : S -> S;        (* what others do to the store while it waits *)
  te_reserve_time : Z;
  te_running : S -> S;        (* and while the task runs *)
  te_outcome : result unit;
  te_completed_at : Z
}.
Inductive turn_end := TurnAgain | TurnExits | TurnPanics (message : string).
Record turn_result := TurnResult {
  tr_store : S;
  tr_end : turn_end;
  tr_reports : list ScheduledTaskFailure;
  tr_executed : option ScheduledTaskReservation;  (* the reservation the task ran under *)
  tr_waited : list Z
}.

Definition waitForPersistentTask (e : turn_env) (delay : Z) : bool := te_wait e (Z.max delay 0).

(** The part of a turn past the reservation. *)
Definition run_reserved (e : turn_env) (task : scheduledTaskEntry) (reservation : ScheduledTaskReservation)
    (waited : list Z) (s : S) : turn_result :=
  let scheduledAt := NextRunAt (sres_Task reservation) in
  let '(taskError, reports) := execute (task_name task) scheduledAt (te_outcome e) in
  let completedAt := te_completed_at e in
  match schedule_nextDelay (task_schedule task) completedAt with
  | None =>
      TurnResult s TurnExits (reports ++ [reportSchedulerStoreFailure (task_name task) scheduledAt "calculate next run" ErrInvalidScheduledTask])
        (Some reservation) waited
  | Some delay =>
      let lastError := match taskError with Some err => error_text err | None => "" end in
      match sstore_Complete (te_complete_store e) Background reservation (completedAt + delay) completedAt lastError s with
      | (s', Ok _) => TurnResult s' TurnAgain reports (Some reservation) waited
      | (s', Err err) =>
          TurnResult s' TurnAgain (reports ++ [reportSchedulerStoreFailure (task_name task) scheduledAt "complete" err])
            (Some reservation) waited
      | (s', Panicked m) => TurnResult s' (TurnPanics m) reports (Some reservation) waited
      end
  end.

(** Wait [PollInterval] after an error, then go on or stop. *)
Definition poll_again (e : turn_env) (o : SchedulerOptions) (reports : list ScheduledTaskFailure) (waited : list Z) (s : S) : turn_result :=
  TurnResult s (if waitForPersistentTask e (PollInterval o) then TurnAgain else TurnExits) reports None (waited ++ [PollInterval o]).

Definition persistent_turn (e : turn_env) (o : SchedulerOptions) (task : scheduledTaskEntry) (s : S) : turn_result :=
  if te_stopping e then TurnResult s TurnExits [] None []
  else
    match sstore_State (te_state_store e) (te_ctx e) (task_name task) s with
    | Err err =>
        if errors_is err context_Canceled then TurnResult s TurnExits [] None []
        else poll_again e o [reportSchedulerStoreFailure (task_name task) zero_time "state" err] [] s
    | Panicked m => TurnResult s (TurnPanics m) [] None []
    | Ok st =>
        let now := te_state_time e in
        let wait := if After (ReservedUntil st) now then Sub (ReservedUntil st) now else Sub (NextRunAt st) now in
        let waited := if 0 <? wait then [wait] else [] in
        if (0 <? wait) && negb (waitForPersistentTask e wait) then TurnResult (te_waiting e s) TurnExits [] None waited
        else
          match sstore_Reserve (te_reserve_store e) (te_ctx e) (task_name task) (te_reserve_time e) (LeaseDuration o) (te_waiting e s) with
          | (s', Ok reservation) => run_reserved e task reservation waited (te_running e s')
          | (s', Err err) =>
              if errors_is err context_Canceled then TurnResult s' TurnExits [] None waited
              else poll_again e o
                     (if negb (errors_is err ErrScheduledTaskNotDue) && negb (errors_is err ErrScheduledTaskReserved)
                      then [reportSchedulerStoreFailure (task_name task) (NextRunAt st) "reserve" err] else []) waited s'
          | (s', Panicked m) => TurnResult s' (TurnPanics m) [] None waited
          end
    end.
End Persistent.
