(* ===== verification/SchedulerPersistent.v ===== *)
(** * The loop of a persistent task over the contract of its store
    [scheduler_persistent.go]

    What one turn of [runPersistentTaskLoop] guarantees while other schedulers
    work on the same store, from the laws of [SchedulerStore] alone, and what
    [Start] leaves in the store; then the local store as an instance. *)
From S2P Require Import Prelude GoTime GoStrings Json EventLog Cron SchedulerStore FileSchedulerStore FileSchedulerStoreFacts FileSchedulerStoreSpec Scheduler.
Open Scope Z_scope.
Open Scope go_scope.

Section Turn.
Context {S E : Type} `{!SchedulerStore S E, !SchedulerStoreLaws S E}.

(** The entry a completed reservation leaves: the next run, the occurrence as
    the last one scheduled, and no lease. *)
Definition completed_entry (res : ScheduledTaskReservation) (next completed : Z) (error : string) : StoredScheduledTask * string :=
  (with_completion (sres_Task res) (sstore_instant next) (NextRunAt (sres_Task res)) (sstore_instant completed)
     (sstore_error error), EmptyString).

Definition outcome_text (outcome : result unit) : string :=
  match taskError outcome with Some err => error_text err | None => "" end.

Lemma run_reserved_executed (e : turn_env) task res waited (s : S) : tr_executed (run_reserved e task res waited s) = Some res.
Proof.
  unfold run_reserved. destruct (execute _ _ _). destruct (schedule_nextDelay _ _); [|done].
  by destruct (sstore_Complete _ _ _ _ _ _ _) as [? []].
Qed.
Lemma run_reserved_spec (e : turn_env) task res waited s : sstore_ok s -> task_leased res s ->
  let tr := run_reserved e task res waited s in
  sstore_ok (tr_store tr) /\ tr_executed tr = Some res /\
  ((exists delay, schedule_nextDelay (task_schedule task) (te_completed_at e) = Some delay /\ 0 < delay /\
      sstore_view (tr_store tr) !! Name (sres_Task res) =
        Some (completed_entry res (te_completed_at e + delay) (te_completed_at e) (outcome_text (te_outcome e)))) \/
   (task_leased res (tr_store tr) /\ (tr_reports tr <> [] \/ exists m, tr_end tr = TurnPanics m))).
Proof.
  intros Hok Hl. unfold run_reserved, execute, executeContext. destruct (taskError (te_outcome e)) as [err|] eqn:Et;
    (destruct (schedule_nextDelay _ _) as [delay|]; [|cbn; split; [done|]; split; [done|]; right; split; [done|left; done]]).
  all: unfold outcome_text; rewrite Et.
  all: destruct (sstore_Complete _ _ _ _ _ _ s) as [s' r] eqn:Ec.
  all: apply (Complete_task_ok _ _ _ _ _ _ _ _ _ Hok) in Ec as [Hok' Hc].
  all: destruct r as [u|er|m]; cbn; (split; [done|]; split; [done|]).
  all: try (right; unfold task_leased; rewrite Hc; split; [exact Hl|]; first [left; by destruct (_ : list _)|left; done|right; by eexists]).
  all: left; destruct Hc as (Hlt & t & Ht & _ & Hv); destruct Hl as (Hl & _); rewrite Hl in Ht; injection Ht as <-.
  all: exists delay; (split; [done|]; split; [lia|]); by rewrite Hv, lookup_insert_eq.
Qed.

(** A turn of a persistent task runs it only under a reservation of an
    occurrence that was due and that nobody held.  If nobody outlives or steals
    the lease meanwhile, the occurrence ends either completed in the store,
    with its next run after the completion and the error of the invocation, or
    still reserved with the failure reported. *)
Theorem persistent_turn_completes_due_occurrence (e : turn_env) o task s res :
  sstore_ok s -> task_run (E := E) (fun _ => True) s (te_waiting e s) ->
  (forall s1, task_run (E := E) (task_keeps_at sstore_instant res) s1 (te_running e s1)) ->
  let tr := persistent_turn e o task s in
  tr_executed tr = Some res ->
  Name (sres_Task res) = task_name task /\
  (exists entry, sstore_view (te_waiting e s) !! task_name task = Some entry /\ task_reservable (sstore_instant (te_reserve_time e)) entry /\
     NextRunAt (sres_Task res) = NextRunAt entry.1 /\ sres_ReservedUntil res = te_reserve_time e + LeaseDuration o) /\
  ((exists delay, schedule_nextDelay (task_schedule task) (te_completed_at e) = Some delay /\ 0 < delay /\
      sstore_view (tr_store tr) !! task_name task =
        Some (completed_entry res (te_completed_at e + delay) (te_completed_at e) (outcome_text (te_outcome e)))) \/
   (task_leased res (tr_store tr) /\ (tr_reports tr <> [] \/ exists m, tr_end tr = TurnPanics m))).
Proof.
  intros Hok Hwait Hrun tr. subst tr. unfold persistent_turn. destruct (te_stopping e); [done|].
  assert (sstore_ok (te_waiting e s)) as Hok1.
  { revert Hok Hwait. generalize (te_waiting e s). intros s1 Hok Hw. induction Hw as [|? ? ? ? Hs _ _ IH]; [done|]. apply IH.
    destruct Hs as [? ? ? ? ? ? H|? ? ? ? ? ? ? H|? ? ? ? ? ? ? ? H];
      [by apply (Initialize_ok _ _ _ _ _ _ _ Hok) in H as [? _]|by apply (Reserve_task_ok _ _ _ _ _ _ _ _ Hok) in H as [? _]
      |by apply (Complete_task_ok _ _ _ _ _ _ _ _ _ Hok) in H as [? _]]. }
  destruct (sstore_State _ _ _ s) as [st|err|m]; [|by destruct (errors_is err _)|done].
  destruct (_ && _); [done|]. destruct (sstore_Reserve _ _ _ _ _ _) as [s1 r] eqn:Er.
  destruct r as [res'|err|m]; [|by destruct (errors_is err _)|done].
  pose proof (task_reservation_leased _ _ _ _ _ _ _ _ Hok1 Er) as (Hok2 & Hl & Hname & Hu).
  apply (Reserve_task_ok _ _ _ _ _ _ _ _ Hok1) in Er as [_ (entry & He & Hres & Ht & _)].
  intros Hex. rewrite run_reserved_executed in Hex. injection Hex as ->.
  destruct (task_lease_kept res s1 _ Hok2 Hl (Hrun s1)) as [Hok3 Hl3].
  split; [done|]. split.
  - exists entry. split; [done|]. split; [done|]. rewrite Ht. by split.
  - rewrite <- Hname. by apply run_reserved_spec.
Qed.

(** [Start] over a store runs exactly the tasks that have a next run, each
    has an entry in the store, and entries that were there are kept. *)
Theorem initialized_tasks_present (e : string -> E) now ts : forall (s s' : S) runnable, sstore_ok s ->
  initializePersistentTasks e now ts s = (s', Ok runnable) ->
  sstore_ok s' /\ (forall name, is_Some (sstore_view s !! name) -> sstore_view s' !! name = sstore_view s !! name) /\
  (forall t, t ∈ runnable <-> t ∈ ts /\ is_Some (schedule_nextDelay (task_schedule t) now)) /\
  forall t, t ∈ runnable -> is_Some (sstore_view s' !! task_name t).
Proof.
  induction ts as [|t ts IH]; intros s s' runnable Hok H; cbn in H.
  - injection H as <- <-. split; [done|]. split; [done|]. split; [|intros ? Hx; by apply elem_of_nil in Hx].
    intros t. split; [intros Hx|intros [Hx _]]; by apply elem_of_nil in Hx.
  - destruct (schedule_nextDelay (task_schedule t) now) as [delay|] eqn:Ed.
    + destruct (sstore_Initialize _ _ _ _ s) as [s1 r] eqn:Ei. apply (Initialize_ok _ _ _ _ _ _ _ Hok) in Ei as [Hok1 Hi].
      destruct r as [[]|err|m]; [|done..].
      assert ((forall name, is_Some (sstore_view s !! name) -> sstore_view s1 !! name = sstore_view s !! name) /\
              is_Some (sstore_view s1 !! task_name t)) as [Hkeep Ht].
      { destruct Hi as [(entry & He & ->)|[He ->]]; [by rewrite He|]. rewrite lookup_insert_eq. split; [|done].
        intros name Hn. rewrite lookup_insert_ne; [done|]. intros <-. rewrite He in Hn. by destruct Hn. }
      destruct (initializePersistentTasks e now ts s1) as [s2 [l|err|m]] eqn:E2; [|done..]. injection H as <- <-.
      destruct (IH s1 s2 l Hok1 E2) as (Hok2 & Hk2 & Hmem & Hpres). split; [done|]. split.
      { intros name Hn. rewrite Hk2; [by apply Hkeep|]. by rewrite Hkeep. }
      split.
      * intros t'. rewrite !elem_of_cons, Hmem. split; [intros [->|[? ?]]; [split; [by left|by eexists]|split; [by right|done]]|].
        intros [[->|?] ?]; [by left|by right].
      * intros t' [->|Hin]%elem_of_cons; [rewrite Hk2 by done; done|by apply Hpres].
    + destruct (IH s s' runnable Hok H) as (? & ? & Hmem & ?). split; [done|]. split; [done|]. split; [|done].
      intros t'. rewrite Hmem, elem_of_cons. split; [intros [? ?]; split; [by right|done]|].
      intros [[->|?] Hs]; [rewrite Ed in Hs; by destruct Hs|done].
Qed.
End Turn.

(** ** The local store: a due task runs and completes *)
Module Sample.
Definition report := MkTaskEntry "report" (fixedDelaySchedule 3000).
Definition scheduler_options := MkSchedulerOptions 50 UTC true 10 100.
Definition env : turn_env (S := option FileSchedulerStore) (E := scheduler_store_env) :=
  TurnEnv false (FileSchedulerStoreSpec.Sample.env 51) (FileSchedulerStoreSpec.Sample.env 51)
    (FileSchedulerStoreSpec.Sample.env 51) Background 6000 (fun _ => true) (fun s => s) 6000 (fun s => s)
    (Err (ErrNew "no disk")) 6040.
Definition turn := persistent_turn env scheduler_options report (Some FileSchedulerStoreSpec.Sample.one).
Definition reservation := default (MkScheduledTaskReservation (new_task "" 0) "" 0) (tr_executed turn).
Lemma file_tasks_ok (s : option FileSchedulerStore) : contract_ok s -> sstore_ok (E := scheduler_store_env) s.
Proof. exact (fun H => H). Qed.
Lemma empty_ok : contract_ok (Some FileSchedulerStoreSpec.Sample.empty).
Proof. cbn [contract_ok]. apply map_Forall_empty. Qed.
End Sample.
Import Sample.

Lemma persistent_turn_completes_due_occurrence_witness :
  exists delay, schedule_nextDelay (task_schedule report) 6040 = Some delay /\
    view_of (tr_store turn) !! "report" = Some (completed_entry reservation (6040 + delay) 6040 "no disk").
Proof.
  destruct (persistent_turn_completes_due_occurrence (S := option FileSchedulerStore) (E := scheduler_store_env)
    env scheduler_options report (Some FileSchedulerStoreSpec.Sample.one) reservation
    (file_tasks_ok _ FileSchedulerStoreSpec.Sample.one_ok) (task_run_refl _ _) (fun s1 => task_run_refl _ s1) ltac:(vm_compute; reflexivity))
    as (_ & _ & [(delay & Hd & _ & Hv)|[(H & _) _]]).
  - exists delay. split; [exact Hd|exact Hv].
  - exfalso. revert H. vm_compute. discriminate.
Defined.

Lemma initialized_tasks_present_witness :
  let run := initializePersistentTasks (fun _ => FileSchedulerStoreSpec.Sample.env 0) 1000 [report] (Some FileSchedulerStoreSpec.Sample.empty) in
  is_Some (view_of run.1 !! "report").
Proof.
  exact (proj2 (proj2 (proj2 (initialized_tasks_present (S := option FileSchedulerStore) (E := scheduler_store_env)
    (fun _ => FileSchedulerStoreSpec.Sample.env 0) 1000 [report] (Some FileSchedulerStoreSpec.Sample.empty) _ [report]
    (file_tasks_ok (Some FileSchedulerStoreSpec.Sample.empty) empty_ok) ltac:(vm_compute; reflexivity)))) report ltac:(left)).
Defined.
