(* ===== verification/SchedulerFacts.v ===== *)
(** * The scheduler's runners: no lost trigger, one runner per name, an end

    An invariant of the reachable states of the goroutines and what
    follows: two invocations of a name never overlap, [Shutdown] waits for
    every invocation and comes back, an accepted trigger leads to an
    invocation, and a dynamic task waits its current interval. *)
From S2P Require Import Prelude GoTime GoStrings Cron SchedulerStore Scheduler.
Open Scope Z_scope.
Open Scope go_scope.

(** ** The scheduler's goroutines  [scheduler.go], [scheduler_dynamic.go]

    A scheduler without a store as a transition system: the runner of each task
    ([runTaskLoop], [runDynamicTask]), the callers that register, start, change
    and stop tasks, and [finishShutdown].  A critical section is one step; a
    timer may tick at any time, and an invocation ends when it likes. *)

(** Where a runner is.  A dynamic runner remembers the interval and the
    revision it read with its handle. *)
Inductive runner_pc :=
| S_check | S_waiting | S_ticked | S_invoking | S_leaving
| D_top
| D_read (interval_ revision_ : Z) (triggered : bool)
| D_waiting (interval_ revision_ : Z)
| D_ticked (interval_ revision_ : Z)
| D_ready (waited : option Z)      (* after a tick of this delay, or triggered *)
| D_invoking
| D_cancelling | D_unregistering | D_closing | D_leaving
| Gone.

(** [owed]: a trigger was accepted and no invocation has begun since;
    [changes]: the accepted [SetInterval] calls.  The code has neither. *)
Record runner := MkRunner {
  r_name : string;
  r_handle : option ScheduledTaskHandle;
  r_pc : runner_pc;
  owed : bool;
  changes : Z
}.
Definition at_pc (r : runner) (p : runner_pc) : runner := MkRunner (r_name r) (r_handle r) p (owed r) (changes r).
Definition moved (r : runner) (h : ScheduledTaskHandle) (p : runner_pc) : runner :=
  MkRunner (r_name r) (Some h) p (owed r) (changes r).
Definition static_runner (t : scheduledTaskEntry) : runner := MkRunner (task_name t) None S_check false 0.
Definition dynamic_runner (name : string) (h : ScheduledTaskHandle) : runner := MkRunner name (Some h) D_top false 0.

Definition finished (s : Scheduler) : Scheduler := with_tasks s (tasks s) (taskNames s) (dynamicTasks s) (runners s - 1).
Definition close_done (h : ScheduledTaskHandle) : ScheduledTaskHandle :=
  MkHandle (cancelled h) true (wake h) (interval h) (revision h) (trigger h).

Inductive runner_step : Scheduler -> runner -> Scheduler -> runner -> Prop :=
(* runTaskLoop *)
| s_stop s r : r_pc r = S_check \/ r_pc r = S_waiting \/ r_pc r = S_ticked -> stopping_closed s = true ->
    runner_step s r s (at_pc r S_leaving)
| s_no_next s r : r_pc r = S_check -> stopping_closed s = false -> runner_step s r s (at_pc r S_leaving)
| s_timer s r : r_pc r = S_check -> stopping_closed s = false -> runner_step s r s (at_pc r S_waiting)
| s_tick s r : r_pc r = S_waiting -> runner_step s r s (at_pc r S_ticked)
| s_invoke s r : r_pc r = S_ticked -> stopping_closed s = false -> runner_step s r s (at_pc r S_invoking)
| s_invoked s r : r_pc r = S_invoking -> runner_step s r s (at_pc r S_check)
| s_leave s r : r_pc r = S_leaving -> runner_step s r (finished s) (at_pc r Gone)
(* runDynamicTask *)
| d_read s r h h' i v t : r_pc r = D_top -> r_handle r = Some h -> read_handle h = (h', (i, v, t)) ->
    runner_step s r s (moved r h' (D_read i v t))
| d_stop s r h i v t w : r_pc r = D_read i v t \/ r_pc r = D_waiting i v \/ r_pc r = D_ready w ->
    r_handle r = Some h -> cancelled h = true -> runner_step s r s (at_pc r D_cancelling)
| d_triggered s r h i v : r_pc r = D_read i v true -> r_handle r = Some h -> cancelled h = false ->
    runner_step s r s (at_pc r (D_ready None))
| d_timer s r h i v : r_pc r = D_read i v false -> r_handle r = Some h -> cancelled h = false ->
    runner_step s r s (at_pc r (D_waiting i v))
| d_wake s r h i v : r_pc r = D_waiting i v -> r_handle r = Some h -> wake h = true ->
    runner_step s r s (moved r (drainWake h) D_top)
| d_tick s r i v : r_pc r = D_waiting i v -> runner_step s r s (at_pc r (D_ticked i v))
| d_ticked s r h h' i v changed : r_pc r = D_ticked i v -> r_handle r = Some h -> after_tick v h = (h', changed) ->
    runner_step s r s (moved r h' (if changed : bool then D_top else D_ready (if trigger h then None else Some i)))
| d_invoke s r h w : r_pc r = D_ready w -> r_handle r = Some h -> cancelled h = false ->
    runner_step s r s (MkRunner (r_name r) (Some h) D_invoking false (changes r))
| d_invoked s r : r_pc r = D_invoking -> runner_step s r s (at_pc r D_top)
| d_cancel s r h : r_pc r = D_cancelling -> r_handle r = Some h -> runner_step s r s (moved r (Stop h) D_unregistering)
| d_unregister s r : r_pc r = D_unregistering -> runner_step s r (unregister (r_name r) s) (at_pc r D_closing)
| d_close s r h : r_pc r = D_closing -> r_handle r = Some h -> runner_step s r s (moved r (close_done h) D_leaving)
| d_leave s r : r_pc r = D_leaving -> runner_step s r (finished s) (at_pc r Gone).

(** A runner is named by its position; [finishing]: [finishShutdown] waits. *)
Record system := Sys {
  sched : Scheduler;
  rs : list runner;
  finishing : bool
}.

(** [handle.Stop()] for the handles of [dynamicTasks]. *)
Definition stop_registered (dyn : gmap string nat) (i : nat) (r : runner) : runner :=
  if decide (dyn !! r_name r = Some i)
  then MkRunner (r_name r) (Stop <$> r_handle r) (r_pc r) (owed r) (changes r) else r.

(** What a caller does to the handle of a runner. *)
Definition call_SetInterval (d : Z) (r : runner) : runner :=
  match r_handle r with
  | None => r
  | Some h => match SetInterval d h with
              | (h', Ok _) => MkRunner (r_name r) (Some h') (r_pc r) (owed r) (changes r + 1)
              | (h', _) => MkRunner (r_name r) (Some h') (r_pc r) (owed r) (changes r)
              end
  end.
Definition call_TriggerNow (r : runner) : runner :=
  match r_handle r with
  | None => r
  | Some h => match TriggerNow h with
              | (h', Ok _) => MkRunner (r_name r) (Some h') (r_pc r) true (changes r)
              | (h', _) => MkRunner (r_name r) (Some h') (r_pc r) (owed r) (changes r)
              end
  end.
Definition call_Stop (r : runner) : runner :=
  MkRunner (r_name r) (Stop <$> r_handle r) (r_pc r) (owed r) (changes r).

Inductive label := Caller | Runner (i : nat) | Finisher.
#[export] Instance label_eq : EqDecision label.
Proof. solve_decision. Defined.
Inductive step : label -> system -> system -> Prop :=
| step_ScheduleTask s l f name d s' r : ScheduleTask name d true s = (s', r) -> step Caller (Sys s l f) (Sys s' l f)
| step_ScheduleCronTask s l f name e now s' r : ScheduleCronTask name e true now s = (s', r) ->
    step Caller (Sys s l f) (Sys s' l f)
| step_Start s l f s' r : has_store (options s) = false -> Start_memory s = (s', r) ->
    step Caller (Sys s l f) (Sys s' (l ++ (static_runner <$> match r with Ok ts => ts | _ => [] end)) f)
| step_StartTask s l f name d s' r : StartTask name d true (length l) s = (s', r) ->
    step Caller (Sys s l f) (Sys s' (l ++ match r with Ok h => [dynamic_runner (TrimSpace name) h] | _ => [] end) f)
| step_SetInterval s l f i d : step Caller (Sys s l f) (Sys s (alter (call_SetInterval d) i l) f)
| step_TriggerNow s l f i : step Caller (Sys s l f) (Sys s (alter call_TriggerNow i l) f)
| step_Stop s l f i : step Caller (Sys s l f) (Sys s (alter call_Stop i l) f)
| step_Shutdown s l f ctx s' o : Shutdown_locked ctx s = (s', o) ->
    step Caller (Sys s l f)
      (match o with
       | ShutdownStops => Sys s' (imap (stop_registered (dynamicTasks s)) l) true
       | _ => Sys s' l f
       end)
| step_finish s l : runners s = 0%nat -> step Finisher (Sys s l true) (Sys (finishShutdown s) l false)
| step_runner s l f i r s' r' : l !! i = Some r -> runner_step s r s' r' ->
    step (Runner i) (Sys s l f) (Sys s' (<[i := r']> l) f).

Definition any_step (s s' : system) : Prop := exists l, step l s s'.
Definition reachable (o : SchedulerOptions) (s : system) : Prop :=
  exists location_ local sched0, newScheduler o location_ local true = Ok sched0 /\ has_store o = false /\
    rtc any_step (Sys sched0 [] false) s.

(** ** One runner *)

(** The delay read with revision [v] is the current interval unless it was
    changed since. *)
Definition armed (i v : Z) (h : ScheduledTaskHandle) (changes : Z) : Prop :=
  exists c, 0 <= c <= changes /\ v = c mod 2 ^ 64 /\ (c = changes -> i = interval h).
(** A change or a trigger since the read has woken the runner. *)
Definition awake (v : Z) (h : ScheduledTaskHandle) : Prop :=
  (trigger h = true -> wake h = true) /\ (v <> revision h -> wake h = true).

Definition is_static (p : runner_pc) : bool :=
  match p with S_check | S_waiting | S_ticked | S_invoking | S_leaving | Gone => true | _ => false end.
Definition is_dynamic (p : runner_pc) : bool :=
  match p with S_check | S_waiting | S_ticked | S_invoking | S_leaving => false | _ => true end.
(** Past the loop, in the deferred function. *)
Definition ending (p : runner_pc) : bool :=
  match p with D_cancelling | D_unregistering | D_closing | D_leaving | Gone => true | _ => false end.
(** On the way to an invocation, the trigger consumed. *)
Definition committed (p : runner_pc) : bool :=
  match p with D_read _ _ true | D_ready _ => true | _ => false end.

Definition runner_ok (r : runner) : Prop :=
  match r_handle r with
  | None => is_static (r_pc r) = true /\ owed r = false
  | Some h =>
      is_dynamic (r_pc r) = true /\ 0 <= changes r /\ revision h = changes r mod 2 ^ 64 /\
      (owed r = true -> trigger h = true \/ committed (r_pc r) = true \/ ending (r_pc r) = true) /\
      (ending (r_pc r) = true -> cancelled h = true) /\
      (done h = true -> r_pc r = D_leaving \/ r_pc r = Gone) /\
      match r_pc r with
      | D_read i v _ | D_waiting i v => armed i v h (changes r) /\ awake v h
      | D_ticked i v => armed i v h (changes r)
      | _ => True
      end
  end.

Lemma revision_next c : 0 <= c -> (c mod 2 ^ 64 + 1) mod 2 ^ 64 = (c + 1) mod 2 ^ 64.
Proof. intros _. by rewrite Z.add_mod_idemp_l. Qed.

Lemma armed_next i v h h' c : armed i v h c -> armed i v h' (c + 1).
Proof. intros (c0 & Hc & -> & _). exists c0. split; [lia|]. split; [done|]. lia. Qed.
Lemma armed_same i v h h' c : interval h' = interval h -> armed i v h c -> armed i v h' c.
Proof. intros E (c0 & Hc & -> & H). exists c0. rewrite E. done. Qed.
Lemma armed_now h c : 0 <= c -> revision h = c mod 2 ^ 64 -> armed (interval h) (revision h) h c.
Proof. intros Hc Hr. exists c. repeat split; [lia..|done]. Qed.

(** What the program's calls on a handle keep of a runner. *)
Definition same_place (r r' : runner) : Prop :=
  r_name r' = r_name r /\ r_pc r' = r_pc r /\ (is_Some (r_handle r') <-> is_Some (r_handle r)) /\
  (forall h h', r_handle r = Some h -> r_handle r' = Some h' -> cancelled h = true -> cancelled h' = true).

Lemma call_SetInterval_ok d r : runner_ok r -> runner_ok (call_SetInterval d r) /\ same_place r (call_SetInterval d r).
Proof.
  unfold runner_ok, same_place, call_SetInterval. destruct (r_handle r) as [h|] eqn:Eh; [|rewrite Eh; by split; [|repeat split]].
  intros (Hd & Hc & Hr & Ho & He & Hdn & Hp). unfold SetInterval.
  destruct (d <=? 0); [cbn; split; [tauto|repeat split; try done; congruence]|].
  destruct (cancelled h) eqn:Ec; [cbn; split; [tauto|repeat split; try done; congruence]|]. cbn.
  rewrite Hr, revision_next by done. split; [|repeat split; try done; congruence].
  repeat (split; [done || lia|]). destruct (r_pc r); try done.
  - destruct Hp as [Hp _]. split; [by eapply armed_next|done].
  - destruct Hp as [Hp _]. split; [by eapply armed_next|done].
  - by eapply armed_next.
Qed.

Lemma call_TriggerNow_ok r : runner_ok r -> runner_ok (call_TriggerNow r) /\ same_place r (call_TriggerNow r).
Proof.
  unfold runner_ok, same_place, call_TriggerNow. destruct (r_handle r) as [h|] eqn:Eh; [|rewrite Eh; by split; [|repeat split]].
  intros (Hd & Hc & Hr & Ho & He & Hdn & Hp). unfold TriggerNow.
  destruct (cancelled h) eqn:Ec; [cbn; split; [tauto|repeat split; try done; congruence]|]. cbn.
  split; [|repeat split; try done; congruence]. repeat (split; [done || tauto|]).
  destruct (r_pc r); try done; (split; [exact (proj1 Hp)|done]).
Qed.

Lemma Stop_ok r : runner_ok r -> runner_ok (call_Stop r) /\ same_place r (call_Stop r).
Proof.
  unfold runner_ok, same_place, call_Stop. destruct (r_handle r) as [h|] eqn:Eh; cbn; [|by split; [|repeat split]].
  intros (Hd & Hc & Hr & Ho & He & Hdn & Hp). split; [|repeat split; try done; by intros ?? [= <-] [= <-]]. repeat (split; [done|]).
  by destruct (r_pc r).
Qed.
Lemma stop_registered_ok dyn i r : runner_ok r -> runner_ok (stop_registered dyn i r) /\ same_place r (stop_registered dyn i r).
Proof.
  intros H. unfold stop_registered. destruct (decide _); [by apply Stop_ok|]. split; [done|]. repeat split; try done. congruence.
Qed.

(** A runner's own steps. *)
Lemma runner_step_ok s r s' r' : runner_step s r s' r' -> runner_ok r ->
  runner_ok r' /\ r_name r' = r_name r /\ (is_Some (r_handle r') <-> is_Some (r_handle r)) /\
  (forall h h', r_handle r = Some h -> r_handle r' = Some h' -> cancelled h = true -> cancelled h' = true).
Proof.
  intros Hs Hr.
  unfold runner_ok in Hr.
  destruct Hs; unfold runner_ok, at_pc, moved; cbn;
    repeat match goal with H : r_pc _ = _ \/ _ |- _ => destruct H end;
    match goal with H : r_pc _ = _ |- _ => rewrite H in Hr; clear H end;
    try (destruct (r_handle r) as [h0|]; cbn in Hr; [|by destruct Hr]);
    try (destruct (r_handle r) as [h0|]; cbn in Hr; [by destruct Hr|]);
    try match goal with H : Some _ = Some _ |- _ => injection H as -> end;
    try (split; [|repeat split; try done; by intros ?? [= <-] [= <-]]);
    try (cbn; intuition (done || congruence)).
  - injection H1 as <- <- <- <-. cbn. destruct Hr as (_ & Hc & Hr & Ho & _ & Hd & _).
    split; [|repeat split; try done; by intros ?? [= <-] [= <-]]. repeat (split; [done|]). split; [|split; [done|]].
    + intros Hw. destruct (Ho Hw) as [->|[?|?]]; [tauto|done|done].
    + split; [intros Hw; by destruct (Hd Hw)|]. split; [by apply (armed_now h)|]. by split.
  - injection H1 as <- <-. cbn. destruct Hr as (_ & Hc & Hr & Ho & _ & Hd & _).
    split; [|repeat split; try done; by intros ?? [= <-] [= <-]].
    destruct (trigger h), (v =? revision h); cbn; intuition (done || congruence).
Qed.

(** ** The system *)

(** The name a runner keeps taken, and a runner that is not gone. *)
Definition occupies (r : runner) : option string :=
  match r_handle r, r_pc r with
  | Some _, (D_closing | D_leaving | Gone) => None
  | _, _ => Some (r_name r)
  end.
Definition live (r : runner) : option unit := match r_pc r with Gone => None | _ => Some tt end.

Lemma omap_insert_same {A B} (f : A -> option B) (l : list A) i x y : l !! i = Some x -> f y = f x -> omap f (<[i := y]> l) = omap f l.
Proof.
  intros Hl Hf. rewrite <- (take_drop_middle l i x Hl) at 2. rewrite insert_take_drop by (by eapply lookup_lt_Some).
  rewrite !omap_app. cbn. by rewrite Hf.
Qed.
Lemma omap_insert_none {A B} (f : A -> option B) (l : list A) i x y b : l !! i = Some x -> f x = Some b -> f y = None ->
  omap f l ≡ₚ b :: omap f (<[i := y]> l).
Proof.
  intros Hl Hx Hy. rewrite <- (take_drop_middle l i x Hl) at 1. rewrite insert_take_drop by (by eapply lookup_lt_Some).
  rewrite !omap_app. cbn. rewrite Hx, Hy. by rewrite Permutation_middle.
Qed.
Lemma omap_pointwise {A B} (f : A -> option B) (g : nat -> A -> A) (l : list A) : (forall i x, f (g i x) = f x) -> omap f (imap g l) = omap f l.
Proof. revert g. induction l as [|x l IH]; intros g H; [done|]. cbn. by rewrite H, (IH (g ∘ S)) by (intros; apply H). Qed.

Definition cancelled_runner (r : runner) : Prop :=
  match r_handle r with Some h => occupies r <> None -> cancelled h = true | None => True end.

Record inv (st : system) : Prop := Inv {
  i_runners : Forall runner_ok (rs st);
  i_names : NoDup (omap occupies (rs st)) /\
    match state (sched st) with
    | schedulerCollecting => NoDup (task_name <$> tasks (sched st)) /\ taskNames (sched st) = list_to_set (task_name <$> tasks (sched st))
    | schedulerRunning | schedulerStopping => taskNames (sched st) = list_to_set (omap occupies (rs st))
    | schedulerStopped => True
    end;
  i_count : runners (sched st) = length (omap live (rs st));
  i_dynamic : forall n i, dynamicTasks (sched st) !! n = Some i <->
    exists r, rs st !! i = Some r /\ is_Some (r_handle r) /\ occupies r = Some n;
  i_phase : match state (sched st) with
    | schedulerCollecting => stopping_closed (sched st) = false /\ shutdownDone_closed (sched st) = false /\ finishing st = false /\ rs st = []
    | schedulerRunning => stopping_closed (sched st) = false /\ shutdownDone_closed (sched st) = false /\ finishing st = false
    | schedulerStopping => stopping_closed (sched st) = true /\ shutdownDone_closed (sched st) = false /\ finishing st = true /\
        Forall cancelled_runner (rs st)
    | schedulerStopped => stopping_closed (sched st) = true /\ shutdownDone_closed (sched st) = true /\ finishing st = false /\
        omap live (rs st) = []
    end
}.

Lemma same_place_occupies r r' : same_place r r' -> occupies r' = occupies r /\ live r' = live r.
Proof.
  intros (Hn & Hp & Hh & _). unfold occupies, live. rewrite Hn, Hp. split; [|done].
  destruct (r_handle r), (r_handle r'); try done; [by destruct (proj2 Hh ltac:(by eexists))|by destruct (proj1 Hh ltac:(by eexists))].
Qed.
Lemma same_place_cancelled r r' : same_place r r' -> cancelled_runner r -> cancelled_runner r'.
Proof.
  intros Hs. unfold cancelled_runner. rewrite (proj1 (same_place_occupies _ _ Hs)). destruct Hs as (_ & _ & Hh & Hc).
  destruct (r_handle r) as [h|], (r_handle r') as [h'|]; try done; [|by destruct (proj1 Hh ltac:(by eexists))].
  intros H Ho. by apply (Hc h h'), H.
Qed.

Definition pointwise (g : nat -> runner -> runner) : Prop :=
  forall i r, runner_ok r -> runner_ok (g i r) /\ same_place r (g i r).
Lemma pointwise_occupies g l : pointwise g -> Forall runner_ok l ->
  omap occupies (imap g l) = omap occupies l /\ omap live (imap g l) = omap live l /\ Forall runner_ok (imap g l).
Proof.
  revert g. induction l as [|r l IH]; intros g Hg Hl; [done|]. apply Forall_cons in Hl as [Hr Hl]. rewrite imap_cons.
  destruct (Hg 0%nat r Hr) as [Hok Hs]. destruct (same_place_occupies _ _ Hs) as [Ho Hv].
  destruct (IH (g ∘ S) (fun i => Hg (S i)) Hl) as (H1 & H2 & H3). cbn. rewrite Ho, Hv, H1, H2. split; [done|]. split; [done|].
  by constructor.
Qed.
Lemma pointwise_dynamic g l (dyn : gmap string nat) : pointwise g -> Forall runner_ok l ->
  (forall n i, dyn !! n = Some i <-> exists r, l !! i = Some r /\ is_Some (r_handle r) /\ occupies r = Some n) ->
  forall n i, dyn !! n = Some i <-> exists r, imap g l !! i = Some r /\ is_Some (r_handle r) /\ occupies r = Some n.
Proof.
  intros Hg Hl H n i. rewrite H, list_lookup_imap. split.
  - intros (r & Hr & Hh & Ho). rewrite Hr. exists (g i r). destruct (Hg i r) as [_ Hs]; [by eapply (proj1 (Forall_lookup _ _) Hl)|].
    split; [done|]. rewrite (proj1 (same_place_occupies _ _ Hs)). split; [|done]. apply Hs, Hh.
  - intros (r' & Hr & Hh & Ho). destruct (l !! i) as [r|] eqn:E; [|done]. injection Hr as <-. exists r. split; [done|].
    destruct (Hg i r) as [_ Hs]; [by eapply (proj1 (Forall_lookup _ _) Hl)|].
    rewrite (proj1 (same_place_occupies _ _ Hs)) in Ho. split; [|done]. by apply Hs.
Qed.
Lemma pointwise_cancelled g l : pointwise g -> Forall runner_ok l -> Forall cancelled_runner l -> Forall cancelled_runner (imap g l).
Proof.
  intros Hg Hl Hc. apply Forall_lookup. intros i r Hr. rewrite list_lookup_imap in Hr. destruct (l !! i) as [r0|] eqn:E; [|done].
  injection Hr as <-. eapply same_place_cancelled; [apply Hg|]; by eapply (proj1 (Forall_lookup _ _)).
Qed.
Lemma pointwise_inv g s l f : pointwise g -> inv (Sys s l f) -> inv (Sys s (imap g l) f).
Proof.
  intros Hg [Hr Hn Hc Hd Hp]. cbn in *. destruct (pointwise_occupies g l Hg Hr) as (Ho & Hv & Hok).
  constructor; cbn; rewrite ?Ho, ?Hv; try done; [by apply pointwise_dynamic|].
  destruct (state s); [|done| |done].
  - destruct Hp as (? & ? & ? & ->). done.
  - destruct Hp as (? & ? & ? & ?). repeat (split; [done|]). by apply pointwise_cancelled.
Qed.

Lemma alter_imap (g : runner -> runner) i l : alter g i l = imap (fun j r => if decide (j = i) then g r else r) l.
Proof.
  apply list_eq. intros j. rewrite list_lookup_imap. destruct (decide (j = i)) as [->|Hn].
  - rewrite list_lookup_alter_eq. by destruct (l !! i).
  - rewrite list_lookup_alter_ne by done. by destruct (l !! j).
Qed.
Lemma pointwise_at (g : runner -> runner) i : (forall r, runner_ok r -> runner_ok (g r) /\ same_place r (g r)) ->
  pointwise (fun j r => if decide (j = i) then g r else r).
Proof. intros Hg j r Hr. destruct (decide _); [by apply Hg|]. split; [done|]. repeat split; try done. congruence. Qed.
Lemma pointwise_stop dyn : pointwise (stop_registered dyn).
Proof. intros i r Hr. by apply stop_registered_ok. Qed.

(** [Shutdown] cancels every dynamic task whose name is still taken. *)
Lemma stop_all_cancelled (dyn : gmap string nat) l :
  (forall n i, dyn !! n = Some i <-> exists r, l !! i = Some r /\ is_Some (r_handle r) /\ occupies r = Some n) ->
  Forall cancelled_runner (imap (stop_registered dyn) l).
Proof.
  intros H. apply Forall_lookup. intros i r Hr. rewrite list_lookup_imap in Hr. destruct (l !! i) as [r0|] eqn:E; [|done].
  injection Hr as <-. unfold stop_registered. destruct (decide _) as [|Hn].
  - unfold cancelled_runner. by destruct (r_handle r0).
  - unfold cancelled_runner. destruct (r_handle r0) as [h|] eqn:Eh; [|done]. intros Ho. destruct Hn. apply H. exists r0.
    split; [done|]. rewrite Eh. split; [by eexists|]. destruct (occupies r0) as [n|] eqn:En; [|done].
    unfold occupies in En. rewrite Eh in En. destruct (r_pc r0); done || congruence.
Qed.

Lemma names_snoc (l : list string) x : list_to_set (l ++ [x]) = ({[x]} ∪ list_to_set l : gset string).
Proof. rewrite list_to_set_app_L. cbn. rewrite (right_id_L ∅ (∪)). apply (comm_L (∪)). Qed.

Lemma registerTask_inv name sch s l f s' r : registerTask name sch s = (s', r) -> inv (Sys s l f) -> inv (Sys s' l f).
Proof.
  unfold registerTask. intros H Hi. destruct (state s) eqn:Es; try by injection H as <- <-.
  destruct (decide _) as [|Hnew]; [by injection H as <- <-|]. injection H as <- <-.
  destruct Hi as [Hr Hn Hc Hd Hp]. cbn in *. rewrite Es in *. destruct Hn as (Hn & Hnd & Hnames).
  constructor; cbn; rewrite ?Es; try done. split; [done|]. rewrite fmap_app. cbn. split.
  - apply NoDup_app. split; [done|]. split; [|apply NoDup_singleton]. intros x Hx ->%list_elem_of_singleton.
    apply Hnew. rewrite Hnames. by apply elem_of_list_to_set.
  - by rewrite names_snoc, Hnames.
Qed.

Lemma static_runners ts : omap occupies (static_runner <$> ts) = task_name <$> ts /\
  length (omap live (static_runner <$> ts)) = length ts /\ Forall runner_ok (static_runner <$> ts).
Proof. induction ts as [|t ts (IH1 & IH2 & IH3)]; [done|]. cbn. rewrite IH1, IH2. by repeat constructor. Qed.

Lemma Start_inv s l f s' r : Start_memory s = (s', r) -> inv (Sys s l f) ->
  inv (Sys s' (l ++ (static_runner <$> match r with Ok ts => ts | _ => [] end)) f).
Proof.
  unfold Start_memory. intros H Hi. destruct (state s) eqn:Es; injection H as <- <-; cbn; rewrite ?app_nil_r; try done.
  destruct Hi as [Hr Hn Hc Hd Hp]. cbn in *. rewrite Es in *. destruct Hp as (? & ? & ? & ->). destruct Hn as (_ & Hnd & Hnames).
  destruct (static_runners (tasks s)) as (Ho & Hl & Hok). constructor; cbn in *; try done.
  - by rewrite Ho.
  - rewrite Hl, Hc. done.
  - intros n i. rewrite Hd. split; [by intros (r & Hx & _)|]. intros (r & Hx & Hh & _).
    rewrite list_lookup_fmap in Hx. destruct (tasks s !! i); [|done]. injection Hx as <-. by destruct Hh.
Qed.

Lemma StartTask_inv s l f name d s' r : StartTask name d true (length l) s = (s', r) -> inv (Sys s l f) ->
  inv (Sys s' (l ++ match r with Ok h => [dynamic_runner (TrimSpace name) h] | _ => [] end) f).
Proof.
  unfold StartTask. intros H Hi. destruct (_ || _) eqn:Eg; [injection H as <- <-; by rewrite app_nil_r|].
  destruct (state s) eqn:Es; try (injection H as <- <-; by rewrite app_nil_r).
  destruct (has_store _); [injection H as <- <-; by rewrite app_nil_r|].
  destruct (decide _) as [|Hnew]; [injection H as <- <-; by rewrite app_nil_r|].
  injection H as <- <-. destruct Hi as [Hr Hn Hc Hd Hp]. cbn in *. rewrite Es in *. destruct Hn as (Hn & Hnames).
  assert (omap occupies (l ++ [dynamic_runner (TrimSpace name) (MkHandle false false false d 0 false)])
    = omap occupies l ++ [TrimSpace name]) as Ho by (by rewrite omap_app).
  constructor; cbn; rewrite ?Es; try done.
  - apply Forall_app. split; [done|]. repeat constructor; cbn; try lia; done.
  - rewrite Ho. split; [|by rewrite names_snoc, Hnames].
    apply NoDup_app. split; [done|]. split; [|apply NoDup_singleton]. intros x Hx ->%list_elem_of_singleton.
    apply Hnew. rewrite Hnames. by apply elem_of_list_to_set.
  - rewrite omap_app, length_app, Hc. cbn. lia.
  - intros n i. destruct (decide (n = TrimSpace name)) as [->|Hne].
    + rewrite lookup_insert_eq. split.
      * intros [= <-]. exists (dynamic_runner (TrimSpace name) (MkHandle false false false d 0 false)).
        rewrite lookup_app_r, Nat.sub_diag by lia. split; [done|]. split; [by eexists|done].
      * intros (r & Hx & Hh & Hoc). apply lookup_app_Some in Hx as [Hx|[Hle Hx]].
        -- exfalso. apply Hnew. rewrite Hnames. apply elem_of_list_to_set, list_elem_of_omap. exists r.
           split; [by eapply list_elem_of_lookup_2|done].
        -- apply list_lookup_singleton_Some in Hx as [Hx _]. f_equal. lia.
    + rewrite lookup_insert_ne by done. rewrite Hd. split.
      * intros (r & Hx & Hh & Hoc). exists r. split; [by apply lookup_app_l_Some|done].
      * intros (r & Hx & Hh & Hoc). apply lookup_app_Some in Hx as [Hx|[Hle Hx]]; [by exists r|].
        apply list_lookup_singleton_Some in Hx as [_ <-]. cbn in Hoc. congruence.
Qed.

Lemma Shutdown_inv s l f ctx s' o : Shutdown_locked ctx s = (s', o) -> inv (Sys s l f) ->
  inv (match o with ShutdownStops => Sys s' (imap (stop_registered (dynamicTasks s)) l) true | _ => Sys s' l f end).
Proof.
  unfold Shutdown_locked. intros H Hi. destruct ctx as [|err]; [by injection H as <- <-|].
  destruct (state s) eqn:Es; [| |by injection H as <- <-|by injection H as <- <-];
    (destruct err as [err|]; [by injection H as <- <-|]); injection H as <- <-.
  - destruct Hi as [Hr Hn Hc Hd Hp]. cbn in *. rewrite Es in *. destruct Hp as (? & ? & ? & ->). destruct Hn. constructor; cbn; try done.
  - pose proof (stop_all_cancelled (dynamicTasks s) l (i_dynamic _ Hi)) as Hcanc.
    apply (pointwise_inv _ _ _ _ (pointwise_stop (dynamicTasks s))) in Hi.
    destruct Hi as [Hr Hn Hc Hd Hp]. cbn in *. rewrite Es in *. destruct Hp as (? & ? & ?). constructor; cbn; try done.
Qed.

Lemma finish_inv s l : runners s = 0%nat -> inv (Sys s l true) -> inv (Sys (finishShutdown s) l false).
Proof.
  intros H0 [Hr Hn Hc Hd Hp]. cbn in *. destruct (state s) eqn:Es; try by destruct Hp as (? & ? & ? & _). { by destruct Hp as (? & ? & ?). }
  destruct Hn as [Hn Hnames]. constructor; cbn; try done. rewrite H0 in Hc. symmetry in Hc. apply length_zero_iff_nil in Hc.
  repeat split; try done. apply Hp.
Qed.

(** What a runner's step does to the scheduler and to the runner's place. *)
Lemma runner_step_kinds s r s' r' : runner_step s r s' r' -> runner_ok r -> live r = Some tt /\
  ((s' = s /\ occupies r' = occupies r /\ live r' = Some tt) \/
   (s' = unregister (r_name r) s /\ is_Some (r_handle r) /\ occupies r = Some (r_name r) /\ occupies r' = None /\ live r' = Some tt) \/
   (s' = finished s /\ occupies r' = occupies r /\ live r' = None)).
Proof.
  intros Hs Hr. unfold runner_ok in Hr.
  destruct Hs; unfold live, occupies, at_pc, moved; cbn;
    repeat match goal with H : r_pc _ = _ \/ _ |- _ => destruct H end;
    match goal with H : r_pc _ = _ |- _ => rewrite H in Hr |- *; clear H end;
    try (destruct (r_handle r) as [h0|]; cbn in Hr; [|by destruct Hr]);
    try (destruct (r_handle r) as [h0|]; cbn in Hr; [by destruct Hr|]);
    (split; [done|]); first [left; by repeat split|right; left; by repeat split; eexists|right; right; by repeat split|idtac].
  left. destruct changed; by repeat split.
Qed.

Lemma occupied_unique l i j r r' n : NoDup (omap occupies l) -> l !! i = Some r -> l !! j = Some r' ->
  occupies r = Some n -> occupies r' = Some n -> i = j.
Proof.
  revert i j. induction l as [|x l IH]; intros i j Hn Hi Hj Ho Ho'; [done|]. cbn in Hn.
  assert (forall k y, l !! k = Some y -> occupies y = Some n -> occupies x = Some n -> False) as Hx.
  { intros k y Hk Hy Hxn. rewrite Hxn in Hn. apply NoDup_cons in Hn as [Hn _]. apply Hn, list_elem_of_omap.
    exists y. split; [by eapply list_elem_of_lookup_2|done]. }
  destruct i as [|i], j as [|j]; cbn in Hi, Hj; [done|injection Hi as ->; by destruct (Hx j r')|injection Hj as ->; by destruct (Hx i r)|].
  f_equal. apply (IH i j); try done. destruct (occupies x); [by apply NoDup_cons in Hn as [_ Hn]|done].
Qed.

(** One runner changes and keeps its place. *)
Definition names_runners (dyn : gmap string nat) (l : list runner) : Prop :=
  forall n i, dyn !! n = Some i <-> exists r, l !! i = Some r /\ is_Some (r_handle r) /\ occupies r = Some n.
Lemma dynamic_kept dyn l i r r' : l !! i = Some r -> occupies r' = occupies r ->
  (is_Some (r_handle r') <-> is_Some (r_handle r)) -> names_runners dyn l -> names_runners dyn (<[i := r']> l).
Proof.
  intros Hl Ho Hh Hd n j. rewrite (Hd n j). destruct (decide (j = i)) as [->|Hne]; [|by rewrite list_lookup_insert_ne].
  rewrite list_lookup_insert_eq by (by eapply lookup_lt_Some). rewrite Hl. split; intros (x & [= <-] & Hx & Hox).
  - exists r'. split; [done|]. rewrite Ho. split; [by apply Hh|done].
  - exists r. split; [done|]. rewrite <- Ho. split; [by apply Hh|done].
Qed.
Lemma cancelled_kept l i r r' : l !! i = Some r -> (is_Some (r_handle r') <-> is_Some (r_handle r)) ->
  (forall h h', r_handle r = Some h -> r_handle r' = Some h' -> cancelled h = true -> cancelled h' = true) ->
  (occupies r' <> None -> occupies r <> None) -> Forall cancelled_runner l -> Forall cancelled_runner (<[i := r']> l).
Proof.
  intros Hl Hh Hcn Ho H. apply Forall_insert; [done|]. pose proof (proj1 (Forall_lookup _ _) H i r Hl) as Hx.
  unfold cancelled_runner in *. destruct (r_handle r') as [h'|]; [|done].
  destruct (r_handle r) as [h|] eqn:E; [|by destruct (proj1 Hh ltac:(by eexists))].
  intros Hoc. by apply (Hcn h h'), Hx, Ho.
Qed.

Lemma runner_step_inv s l f i r s' r' : l !! i = Some r -> runner_step s r s' r' -> inv (Sys s l f) ->
  inv (Sys s' (<[i := r']> l) f).
Proof.
  intros Hl Hs [Hr [Hn Hnm] Hc Hd Hp]. cbn in *. assert (runner_ok r) as Hok by (by eapply (proj1 (Forall_lookup _ _) Hr)).
  destruct (runner_step_ok _ _ _ _ Hs Hok) as (Hok' & Hname & Hh & Hcn).
  destruct (runner_step_kinds _ _ _ _ Hs Hok) as [Hlive Hk].
  assert (Forall runner_ok (<[i := r']> l)) as Hr' by (by apply Forall_insert).
  assert (state s <> schedulerStopped) as Hst.
  { intros E. rewrite E in Hp. destruct Hp as (_ & _ & _ & Hp). apply (list_elem_of_lookup_2 l i r) in Hl.
    assert (tt ∈ omap live l) as Hin by (apply list_elem_of_omap; by exists r). rewrite Hp in Hin. by apply elem_of_nil in Hin. }
  assert (state s <> schedulerCollecting) as Hcoll by (intros E; rewrite E in Hp; by destruct Hp as (_ & _ & _ & ->)).
  destruct Hk as [(-> & Ho & Hv)|[(-> & Hsome & Ho & Ho' & Hv)|(-> & Ho & Hv)]].
  - constructor; cbn; rewrite ?(omap_insert_same occupies l i r r' Hl Ho), ?(omap_insert_same live l i r r' Hl) by congruence; try done.
    + by eapply dynamic_kept.
    + destruct (state s); try done. destruct Hp as (? & ? & ? & Hall). repeat (split; [done|]). eapply cancelled_kept; done || congruence.
  - pose proof (omap_insert_none occupies l i r r' _ Hl Ho Ho') as Hperm. pose proof Hn as Hn'. rewrite Hperm in Hn'.
    apply NoDup_cons in Hn' as [Hnew Hn'].
    constructor; cbn; rewrite ?(omap_insert_same live l i r r' Hl) by congruence; try done.
    + split; [done|]. assert (taskNames s = list_to_set (omap occupies l) ->
        taskNames s ∖ {[r_name r]} = list_to_set (omap occupies (<[i:=r']> l))) as Hset; [|by destruct (state s); auto].
      intros ->. rewrite (list_to_set_perm_L _ _ Hperm). cbn. apply set_eq. intros x.
      rewrite elem_of_difference, elem_of_union, elem_of_singleton, elem_of_list_to_set. split; [tauto|].
      intros Hx. split; [by right|]. by intros ->.
    + intros n j. destruct (decide (n = r_name r)) as [->|Hne].
      * rewrite lookup_delete_eq. split; [done|]. intros (x & Hx & _ & Hox). exfalso. destruct (decide (j = i)) as [->|Hj].
        -- rewrite list_lookup_insert_eq in Hx by (by eapply lookup_lt_Some). injection Hx as <-. congruence.
        -- rewrite list_lookup_insert_ne in Hx by done. apply Hj. by eapply (occupied_unique l j i x r (r_name r)).
      * rewrite lookup_delete_ne by done. rewrite Hd. destruct (decide (j = i)) as [->|Hj]; [|by rewrite list_lookup_insert_ne].
        rewrite list_lookup_insert_eq by (by eapply lookup_lt_Some). rewrite Hl.
        split; intros (x & [= <-] & Hx & Hox); congruence.
    + destruct (state s); try done. destruct Hp as (? & ? & ? & Hall). repeat (split; [done|]). eapply cancelled_kept; done || congruence.
  - pose proof (omap_insert_none live l i r r' _ Hl Hlive Hv) as Hperm.
    constructor; cbn; rewrite ?(omap_insert_same occupies l i r r' Hl Ho); try done.
    + rewrite Hc, Hperm. cbn. lia.
    + by eapply dynamic_kept.
    + destruct (state s); try done. destruct Hp as (? & ? & ? & Hall). repeat (split; [done|]). eapply cancelled_kept; done || congruence.
Qed.

Lemma step_inv lb st st' : step lb st st' -> inv st -> inv st'.
Proof.
  intros [s l f name d s' r H|s l f name e now s' r H|s l f s' r _ H|s l f name d s' r H|s l f i d|s l f i|s l f i
    |s l f ctx s' o H|s l H|s l f i r s' r' Hl H] Hi.
  - unfold ScheduleTask in H. destruct (_ || _); [by injection H as <- <-|]. by eapply registerTask_inv.
  - unfold ScheduleCronTask in H. destruct (_ || _); [by injection H as <- <-|].
    destruct (parseCronExpression e); [|by injection H as <- <-..].
    destruct (nextDelay _ now); [by eapply registerTask_inv|by injection H as <- <-].
  - by eapply Start_inv.
  - by eapply StartTask_inv.
  - rewrite alter_imap. apply pointwise_inv; [|done]. apply pointwise_at, call_SetInterval_ok.
  - rewrite alter_imap. apply pointwise_inv; [|done]. apply pointwise_at, call_TriggerNow_ok.
  - rewrite alter_imap. apply pointwise_inv; [|done]. apply pointwise_at, Stop_ok.
  - by eapply Shutdown_inv.
  - by apply finish_inv.
  - by eapply runner_step_inv.
Qed.

Lemma scheduler_reachable_inv o st : reachable o st -> inv st.
Proof.
  intros (loc & local & s0 & Hn & Hst & Hr). assert (inv (Sys s0 [] false)) as H0.
  { unfold newScheduler in Hn. destruct (_ || _); [done|]. cbn in Hn. rewrite Hst in Hn. injection Hn as <-.
    constructor; cbn; try done; repeat first [constructor | split]. { by rewrite lookup_empty. } by intros (? & ? & _). }
  clear Hn. induction Hr as [|st1 st2 st3 [lb Hs] _ IH]; [done|]. apply IH. by eapply step_inv.
Qed.

(** ** What follows *)

Definition invoking (r : runner) : bool := match r_pc r with S_invoking | D_invoking => true | _ => false end.

(** Whatever calls and runners do, two invocations of tasks of one name
    never overlap: a name is taken by at most one runner, and a dynamic task's
    name is free again only once its last invocation has ended. *)
Theorem invocations_of_a_name_do_not_overlap o st i j r r' :
  reachable o st -> rs st !! i = Some r -> rs st !! j = Some r' ->
  invoking r = true -> invoking r' = true -> r_name r = r_name r' -> i = j.
Proof.
  intros Hr Hi Hj Hv Hv' Hn. destruct (i_names _ (scheduler_reachable_inv _ _ Hr)) as [Hnd _].
  assert (forall x, invoking x = true -> occupies x = Some (r_name x)) as Ho.
  { intros x Hx. unfold invoking, occupies in *. by destruct (r_handle x), (r_pc x). }
  eapply (occupied_unique (rs st) i j r r'); [done..|by apply Ho|]. rewrite Hn. by apply Ho.
Qed.

(** When a call of [Shutdown] can return nil the scheduler is over: no
    invocation is running, every runner has left, and no step of the system
    can start another one. *)
Theorem shutdown_waits_for_every_task o st :
  reachable o st -> shutdownDone_closed (sched st) = true ->
  state (sched st) = schedulerStopped /\ Forall (fun r => r_pc r = Gone) (rs st) /\
  forall lb st', step lb st st' -> Forall (fun r => r_pc r = Gone) (rs st').
Proof.
  intros Hr Hd. assert (forall st', inv st' -> state (sched st') = schedulerStopped -> Forall (fun r => r_pc r = Gone) (rs st')) as Hall.
  { intros st' Hi E. pose proof (i_phase _ Hi) as Hp. rewrite E in Hp. destruct Hp as (_ & _ & _ & Hp).
    apply Forall_forall. intros r Hin. destruct (decide (live r = None)) as [Hl|Hl]; [unfold live in Hl; by destruct (r_pc r)|].
    destruct (live r) as [[]|] eqn:El; [|done]. assert (tt ∈ omap live (rs st')) as Hx by (apply list_elem_of_omap; by exists r).
    rewrite Hp in Hx. by apply elem_of_nil in Hx. }
  pose proof (scheduler_reachable_inv _ _ Hr) as Hi. pose proof (i_phase _ Hi) as Hp.
  destruct (state (sched st)) eqn:E; try (exfalso; destruct Hp as (? & ? & _); congruence). clear Hp.
  split; [done|]. split; [by apply Hall|]. intros lb st' Hs. apply Hall; [by eapply step_inv|].
  destruct Hs as [s l f name d s' r H|s l f name e now s' r H|s l f s' r _ H|s l f name d s' r H|s l f i d|s l f i|s l f i
    |s l f ctx s' out H|s l H|s l f i r s' r' Hl H]; cbn in *; try done.
  - unfold ScheduleTask, registerTask in H. rewrite E in H. destruct (_ || _); by injection H as <- <-.
  - unfold ScheduleCronTask, registerTask in H. destruct (_ || _); [by injection H as <- <-|].
    destruct (parseCronExpression e); [|by injection H as <- <-..]. rewrite E in H. by destruct (nextDelay _ now); injection H as <- <-.
  - unfold Start_memory in H. rewrite E in H. by injection H as <- <-.
  - unfold StartTask in H. rewrite E in H. destruct (_ || _); by injection H as <- <-.
  - unfold Shutdown_locked in H. rewrite E in H. destruct ctx; by injection H as <- <-.
  - exfalso. specialize (Hall _ Hi E). cbn in Hall. pose proof (proj1 (Forall_lookup _ _) Hall i r Hl) as Hg. cbn in Hg.
    destruct (runner_step_kinds _ _ _ _ H) as [Hlv _]; [by eapply (proj1 (Forall_lookup _ _) (i_runners _ Hi))|].
    unfold live in Hlv. by rewrite Hg in Hlv.
Qed.

(** The moves a dynamic runner makes at most before the next invocation once
    it owes one. *)
Definition moves_to_invocation (r : runner) : nat :=
  match r_pc r with
  | D_ready _ => 1
  | D_read _ _ true => 2
  | D_top => 3
  | D_ticked _ _ => 4
  | D_waiting _ _ => 5
  | D_read _ _ false => 6
  | D_invoking => 7
  | _ => 0
  end.
Definition owes (r : runner) : Prop :=
  owed r = true /\ exists h, r_handle r = Some h /\ cancelled h = false.

Lemma owes_progress r : runner_ok r -> owes r -> (1 <= moves_to_invocation r <= 7)%nat /\
  forall v w, r_pc r = D_waiting v w -> exists h, r_handle r = Some h /\ wake h = true.
Proof.
  intros Hr (Hw & h & Eh & Hc). unfold runner_ok in Hr. rewrite Eh in Hr.
  destruct Hr as (Hd & _ & _ & Ho & He & _ & Hp). specialize (Ho Hw). unfold moves_to_invocation.
  destruct (r_pc r) as [| | | | | |i v [|]|i v|i v|w| | | | | |]; cbn in *; try done;
    try (by rewrite He in Hc by done); try (split; [lia|done]).
  split; [lia|]. intros ?? [= -> ->]. exists h. split; [done|]. destruct Hp as [_ [Hp _]]. apply Hp. by destruct Ho as [?|[?|?]].
Qed.
Lemma owes_can_move s r : runner_ok r -> owes r -> exists s' r', runner_step s r s' r'.
Proof.
  intros Hr Ho. destruct (owes_progress _ Hr Ho) as [Hm Hwk]. destruct Ho as (_ & h & Eh & Hc).
  unfold moves_to_invocation in Hm. destruct (r_pc r) as [| | | | | |i v [|]|i v|i v|w| | | | | |] eqn:Ep; try lia.
  - destruct (read_handle h) as [h' [[i v] t]] eqn:E. eexists _, _. by eapply d_read.
  - eexists _, _. by eapply d_triggered.
  - eexists _, _. by eapply d_timer.
  - destruct (Hwk _ _ eq_refl) as (h0 & E0 & Hw). eexists _, _. by eapply d_wake.
  - destruct (after_tick v h) as [h' c] eqn:E. eexists _, _. by eapply d_ticked.
  - eexists _, _. by eapply d_invoke.
  - eexists _, _. by eapply d_invoked.
Qed.
Lemma owes_moves s r s' r' : runner_step s r s' r' -> runner_ok r -> owes r ->
  (exists h, r_handle r' = Some h /\ cancelled h = true) \/ r_pc r' = D_invoking \/
  (owes r' /\ (moves_to_invocation r' + 1 <= moves_to_invocation r)%nat).
Proof.
  intros Hs Hr (Hw & h & Eh & Hc). unfold runner_ok in Hr. rewrite Eh in Hr.
  destruct Hr as (Hd & _ & _ & Ho & He & _ & Hp). specialize (Ho Hw). unfold moves_to_invocation, owes.
  destruct Hs; cbn;
    repeat match goal with H : r_pc _ = _ \/ _ |- _ => destruct H end;
    match goal with H : r_pc _ = _ |- _ => rewrite H in *; cbn in * end; try done;
    try match goal with H : r_handle r = Some _ |- _ => rewrite Eh in H; injection H as <- end; try congruence;
    try (by rewrite He in Hc by done); try (right; left; done);
    try (right; right; split; [split; [done|by exists h]|lia]).
  - unfold read_handle in *. simplify_eq/=. right; right. split; [split; [done|eexists; split; [done|done]]|].
    destruct Ho as [->|[?|?]]; [lia|done|done].
  - right; right. split; [split; [done|eexists; split; [done|done]]|lia].
  - unfold after_tick in *. simplify_eq/=. destruct Ho as [->|[?|?]]; [|done..]. rewrite andb_false_r. cbn.
    right; right. split; [split; [done|eexists; split; [done|done]]|lia].
Qed.

(** What callers do to a runner that owes. *)
Definition owes_kept (r r' : runner) : Prop :=
  (exists h, r_handle r' = Some h /\ cancelled h = true) \/ (owes r' /\ moves_to_invocation r' = moves_to_invocation r).
Lemma owes_kept_refl r : owes r -> owes_kept r r.
Proof. by right. Qed.
Lemma owes_kept_calls r d : owes r ->
  owes_kept r (call_SetInterval d r) /\ owes_kept r (call_TriggerNow r) /\ owes_kept r (call_Stop r).
Proof.
  intros (Hw & h & Eh & Hc). unfold owes_kept, owes, call_SetInterval, call_TriggerNow, call_Stop, SetInterval, TriggerNow. rewrite Eh, Hc.
  split; [|split; [|left; by eexists]].
  - destruct (d <=? 0); cbn; right; (split; [split; [done|by eexists]|done]).
  - cbn. right. split; [split; [done|by eexists]|done].
Qed.
Lemma owes_kept_at (g : runner -> runner) i j (l : list runner) r : l !! j = Some r -> owes r -> owes_kept r (g r) ->
  exists r', alter g i l !! j = Some r' /\ owes_kept r r'.
Proof.
  intros Hl Ho Hg. destruct (decide (i = j)) as [->|Hn]; [rewrite list_lookup_alter_eq|rewrite list_lookup_alter_ne by done];
    rewrite Hl; cbn; eexists; (split; [done|]); [done|by apply owes_kept_refl].
Qed.

(** C13. A trigger is never lost: once [TriggerNow] was accepted, whatever the
    other goroutines do and until the task is cancelled, the runner owes an
    invocation until it begins one; it can always move without waiting for a
    timer, each of its moves brings it nearer, and it takes at most seven. *)
Theorem accepted_trigger_leads_to_invocation o st i r :
  reachable o st -> rs st !! i = Some r -> owes r ->
  (1 <= moves_to_invocation r <= 7)%nat /\
  (exists st', step (Runner i) st st' /\ forall v w, r_pc r = D_waiting v w ->
     exists h, r_handle r = Some h /\ wake h = true) /\
  forall lb st', step lb st st' -> exists r', rs st' !! i = Some r' /\
    ((exists h, r_handle r' = Some h /\ cancelled h = true) \/
     (lb = Runner i /\ r_pc r' = D_invoking) \/
     (owes r' /\ (moves_to_invocation r' + (if decide (lb = Runner i) then 1 else 0) <= moves_to_invocation r)%nat)).
Proof.
  intros Hr Hi Ho. pose proof (scheduler_reachable_inv _ _ Hr) as Hinv.
  assert (runner_ok r) as Hok by (by eapply (proj1 (Forall_lookup _ _) (i_runners _ Hinv))).
  destruct (owes_progress _ Hok Ho) as [Hm Hwk]. split; [done|]. split.
  - destruct (owes_can_move (sched st) r Hok Ho) as (s' & r' & Hs). destruct st as [s l f].
    eexists. split; [by eapply step_runner|done].
  - intros lb st' Hs. assert (forall r', owes_kept r r' -> (exists h, r_handle r' = Some h /\ cancelled h = true) \/
      (lb = Runner i /\ r_pc r' = D_invoking) \/ (owes r' /\ (moves_to_invocation r' + 0 <= moves_to_invocation r)%nat)) as Hk.
    { intros r' [?|[? ->]]; [by left|]. right. right. split; [done|lia]. }
    destruct (owes_kept_calls r 0 Ho) as (_ & Ht & Hst).
    destruct Hs as [s l f name d s' x H|s l f name e now s' x H|s l f s' x _ H|s l f name d s' x H|s l f j d|s l f j|s l f j
      |s l f ctx s' out H|s l H|s l f j r0 s' r0' Hl H]; cbn in *;
      try (exists r; split; [done|]; by apply Hk, owes_kept_refl).
    + exists r. split; [by apply lookup_app_l_Some|]. by apply Hk, owes_kept_refl.
    + exists r. split; [by apply lookup_app_l_Some|]. by apply Hk, owes_kept_refl.
    + destruct (owes_kept_at (call_SetInterval d) j i l r Hi Ho (proj1 (owes_kept_calls r d Ho))) as (r' & -> & ?). exists r'. auto.
    + destruct (owes_kept_at call_TriggerNow j i l r Hi Ho Ht) as (r' & -> & ?). exists r'. auto.
    + destruct (owes_kept_at call_Stop j i l r Hi Ho Hst) as (r' & -> & ?). exists r'. auto.
    + destruct out; [exists r; split; [done|by apply Hk, owes_kept_refl]..|]. cbn. rewrite list_lookup_imap, Hi. cbn.
      eexists. split; [done|]. unfold stop_registered. destruct (decide _); [by apply Hk|by apply Hk, owes_kept_refl].
    + destruct (decide (j = i)) as [->|Hn].
      * rewrite Hi in Hl. injection Hl as <-. exists r0'. rewrite list_lookup_insert_eq by (by eapply lookup_lt_Some).
        split; [done|]. rewrite decide_True by done. destruct (owes_moves _ _ _ _ H Hok Ho) as [?|[?|?]]; tauto.
      * exists r. rewrite list_lookup_insert_ne by done. split; [done|]. rewrite decide_False by congruence.
        by apply Hk, owes_kept_refl.
Qed.

(** An invocation that no trigger caused begins after a wait of exactly the
    task's current interval, however [SetInterval] and the timer race (for
    fewer than 2^64 changes, the width of the revision). *)
Theorem timed_invocation_waits_current_interval o st i r h d v s' r' w :
  reachable o st -> rs st !! i = Some r -> r_handle r = Some h -> changes r < 2 ^ 64 ->
  r_pc r = D_ticked d v -> runner_step (sched st) r s' r' -> r_pc r' = D_ready (Some w) -> w = interval h.
Proof.
  intros Hr Hi Eh Hlt Ep Hs Ew. pose proof (i_runners _ (scheduler_reachable_inv _ _ Hr)) as Hok.
  apply (proj1 (Forall_lookup _ _)) with (i := i) (x := r) in Hok; [|done]. unfold runner_ok in Hok. rewrite Eh, Ep in Hok.
  destruct Hok as (_ & Hc & Hrev & _ & _ & _ & (c & Hle & -> & Hint)).
  destruct Hs; cbn in Ew; try congruence;
    repeat match goal with H : _ \/ _ |- _ => destruct H as [H|H] end; try congruence.
  unfold after_tick in *. rewrite Ep in H. injection H as <- <-. rewrite Eh in H0. injection H0 as <-. injection H1 as <- <-.
  destruct (trigger h); [by rewrite andb_false_r in Ew|]. rewrite andb_true_r in Ew.
  destruct (Z.eqb_spec (c mod 2 ^ 64) (revision h)) as [E|]; [|done]. cbn in Ew. injection Ew as <-. apply Hint.
  rewrite Hrev, !Z.mod_small in E by lia. done.
Qed.

(** ** Shutdown ends *)

Definition work (r : runner) : nat :=
  match r_pc r with
  | S_check | S_ticked => 2 | S_waiting | S_invoking => 3 | S_leaving => 1
  | D_top => 6 | D_read _ _ _ | D_ready _ => 5 | D_waiting _ _ => 8 | D_ticked _ _ => 7 | D_invoking => 7
  | D_cancelling => 4 | D_unregistering => 3 | D_closing => 2 | D_leaving => 1
  | Gone => 0
  end.
Definition work_left (st : system) : nat := sum_list_with work (rs st) + (if finishing st then 1 else 0).

Lemma work_insert l i r r' : l !! i = Some r -> (sum_list_with work (<[i := r']> l) + work r = sum_list_with work l + work r')%nat.
Proof.
  intros Hl. rewrite <- (take_drop_middle l i r Hl) at 2. rewrite insert_take_drop by (by eapply lookup_lt_Some).
  rewrite !sum_list_with_app. cbn. lia.
Qed.
Lemma work_imap g l : (forall i r, r_pc (g i r) = r_pc r) -> sum_list_with work (imap g l) = sum_list_with work l.
Proof.
  revert g. induction l as [|r l IH]; intros g Hg; [done|]. rewrite imap_cons. cbn [sum_list_with].
  rewrite (IH (g ∘ S)) by (intros; apply Hg). unfold work. by rewrite Hg.
Qed.

Lemma stopping_runner_works s r s' r' : runner_step s r s' r' -> runner_ok r -> stopping_closed s = true -> cancelled_runner r ->
  (work r' < work r)%nat.
Proof.
  intros Hs Hok Hst Hc. unfold cancelled_runner, occupies in Hc. unfold work.
  destruct Hs; cbn;
    repeat match goal with H : r_pc _ = _ \/ _ |- _ => destruct H end;
    match goal with H : r_pc _ = _ |- _ => rewrite H in *; cbn in * end; try lia; try congruence;
    try (match goal with H : r_handle r = Some _ |- _ => rewrite H in Hc end; rewrite Hc in *; done).
  destruct changed; lia.
Qed.
Lemma stopping_runner_moves s r : runner_ok r -> stopping_closed s = true -> cancelled_runner r -> r_pc r <> Gone ->
  exists s' r', runner_step s r s' r'.
Proof.
  intros Hok Hst Hc Hg. unfold runner_ok in Hok. unfold cancelled_runner, occupies in Hc.
  destruct (r_pc r) eqn:Ep; try done; destruct (r_handle r) as [h|] eqn:Eh; try (by destruct Hok).
  - eexists _, _. eapply s_stop; [by left|done].
  - eexists _, _. by eapply s_tick.
  - eexists _, _. eapply s_stop; [by right; right|done].
  - eexists _, _. by eapply s_invoked.
  - eexists _, _. by eapply s_leave.
  - destruct (read_handle h) as [h' [[i v] t]] eqn:E. eexists _, _. by eapply d_read.
  - eexists _, _. eapply (d_stop _ _ h interval_ revision_ triggered None); [by left|done|by apply Hc].
  - eexists _, _. by eapply d_tick.
  - destruct (after_tick revision_ h) as [h' c] eqn:E. eexists _, _. by eapply d_ticked.
  - eexists _, _. eapply (d_stop _ _ h 0 0 false waited); [by right; right|done|by apply Hc].
  - eexists _, _. by eapply d_invoked.
  - eexists _, _. by eapply d_cancel.
  - eexists _, _. by eapply d_unregister.
  - eexists _, _. by eapply d_close.
  - eexists _, _. by eapply d_leave.
Qed.

Definition internal (st st' : system) : Prop := exists lb, lb <> Caller /\ step lb st st'.

Lemma stopping_internal st st' : inv st -> state (sched st) = schedulerStopping -> internal st st' ->
  (work_left st' < work_left st)%nat /\
  (state (sched st') = schedulerStopping \/ state (sched st') = schedulerStopped).
Proof.
  intros Hi E (lb & Hlb & Hs). pose proof (i_phase _ Hi) as Hp. rewrite E in Hp. destruct Hp as (Hst & _ & _ & Hc).
  destruct Hs as [ | | | | | | | |s l H|s l f i r s' r' Hl H]; try done; unfold work_left; cbn in *; [split; [lia|by right]|].
  assert (runner_ok r) as Hok by (by eapply (proj1 (Forall_lookup _ _) (i_runners _ Hi))).
  pose proof (stopping_runner_works _ _ _ _ H Hok Hst (proj1 (Forall_lookup _ _) Hc i r Hl)) as Hw.
  pose proof (work_insert l i r r' Hl). split; [lia|]. left.
  destruct (runner_step_kinds _ _ _ _ H Hok) as [_ [(-> & _)|[(-> & _)|(-> & _)]]]; done.
Qed.
Lemma stopping_can_move st : inv st -> state (sched st) = schedulerStopping -> exists st', internal st st'.
Proof.
  intros Hi E. pose proof (i_phase _ Hi) as Hp. rewrite E in Hp. destruct Hp as (Hst & _ & Hf & Hc). destruct st as [s l f]. cbn in *.
  destruct (decide (Forall (fun r => live r = None) l)) as [Hall|Hsome].
  - eexists. exists Finisher. split; [done|]. rewrite Hf. apply step_finish. pose proof (i_count _ Hi) as Hn. cbn in Hn. rewrite Hn.
    clear -Hall. induction Hall as [|r l Hr _ IH]; [done|]. cbn. by rewrite Hr.
  - apply not_Forall_Exists, Exists_exists in Hsome as (r & Hin & Hr); [|intros x; apply _].
    apply list_elem_of_lookup in Hin as [i Hl].
    destruct (stopping_runner_moves s r) as (s' & r' & H); [by eapply (proj1 (Forall_lookup _ _) (i_runners _ Hi))|done
      |by eapply (proj1 (Forall_lookup _ _) Hc)|intros Eg; apply Hr; unfold live; by rewrite Eg|].
    eexists. exists (Runner i). split; [done|]. by eapply step_runner.
Qed.

(** A scheduler that is stopping stops, if the invocations under way end:
    as long as it is stopping some runner or [finishShutdown] can move, every
    move of theirs leaves less to do, what callers do in the meantime adds
    nothing, and so it stops. *)
Theorem scheduler_shutdown_terminates o st : reachable o st -> state (sched st) = schedulerStopping ->
  (exists st', internal st st') /\
  (forall st', internal st st' -> (work_left st' < work_left st)%nat /\
     (state (sched st') = schedulerStopping \/ state (sched st') = schedulerStopped)) /\
  (forall st', step Caller st st' -> work_left st' = work_left st /\ state (sched st') = schedulerStopping) /\
  (exists st', rtc internal st st' /\ state (sched st') = schedulerStopped).
Proof.
  intros Hr E. pose proof (scheduler_reachable_inv _ _ Hr) as Hi. split; [exact (stopping_can_move st Hi E)|].
  split; [exact (fun st' => stopping_internal st st' Hi E)|]. split.
  - intros st' Hs. assert (forall g j l0, (forall r, r_pc (g r) = r_pc r) -> sum_list_with work (alter g j l0) = sum_list_with work l0) as Ha.
    { intros g j l0 Hg. rewrite alter_imap. apply work_imap. intros k r. destruct (decide _); [apply Hg|done]. }
    inversion Hs as [s l f name d s' x H|s l f name e now s' x H|s l f s' x _ H|s l f name d s' x H|s l f j d|s l f j|s l f j
      |s l f ctx s' out H| |]; subst; unfold work_left; cbn in *.
    + unfold ScheduleTask, registerTask in H. rewrite E in H. destruct (_ || _); by injection H as <- <-.
    + unfold ScheduleCronTask, registerTask in H. destruct (_ || _); [by injection H as <- <-|].
      destruct (parseCronExpression e); [|by injection H as <- <-..]. rewrite E in H. by destruct (nextDelay _ now); injection H as <- <-.
    + unfold Start_memory in H. rewrite E in H. injection H as <- <-. cbn. by rewrite app_nil_r.
    + unfold StartTask in H. rewrite E in H. destruct (_ || _); injection H as <- <-; by rewrite app_nil_r.
    + rewrite Ha; [done|]. intros r. unfold call_SetInterval. destruct (r_handle r); [|done]. by destruct (SetInterval _ _) as [? []].
    + rewrite Ha; [done|]. intros r. unfold call_TriggerNow. destruct (r_handle r); [|done]. by destruct (TriggerNow _) as [? []].
    + by rewrite Ha.
    + unfold Shutdown_locked in H. rewrite E in H. destruct ctx; by injection H as <- <-.
  - clear Hr. remember (work_left st) as n eqn:En. revert st Hi E En. induction (lt_wf n) as [n _ IH]. intros st Hi E ->.
    destruct (stopping_can_move _ Hi E) as (st1 & H1). destruct (stopping_internal _ _ Hi E H1) as [Hw [E1|E1]].
    + destruct (IH _ Hw st1) as (st2 & H2 & E2); [destruct H1 as (lb & _ & H1); by eapply step_inv|done..|].
      exists st2. split; [by eapply rtc_l|done].
    + exists st1. split; [by apply rtc_once|done].
Qed.

(** ** Runs of one dynamic task *)
Module Sample.
Definition options := DefaultSchedulerOptions UTC.
Definition fresh := MkScheduler (MkSchedulerOptions (30 * Second) UTC false defaultSchedulerPollInterval defaultSchedulerLeaseDuration)
  [] ∅ ∅ false false false schedulerCollecting 0.
Definition polling := MkScheduler (Scheduler.options fresh) [] {["poll"]} {["poll" := 0%nat]} false false false schedulerRunning 1.
Definition handle := MkHandle false false false 5 0 false.

Lemma started : reachable options (Sys polling [dynamic_runner "poll" handle] false).
Proof.
  exists None, UTC, fresh. split; [reflexivity|]. split; [reflexivity|].
  eapply rtc_l; [eexists; eapply step_Start; reflexivity|].
  eapply rtc_l; [eexists; apply (step_StartTask _ _ _ "poll" 5 polling (Ok handle)); reflexivity|]. apply rtc_refl.
Qed.

Lemma runs_on st st' : reachable options st -> any_step st st' -> reachable options st'.
Proof.
  intros (a & b & c & H1 & H2 & H3) Hs. exists a, b, c. split; [done|]. split; [done|]. by eapply rtc_r.
Qed.
Lemma runner_moves s r s' r' f : runner_step s r s' r' -> any_step (Sys s [r] f) (Sys s' [r'] f).
Proof. intros H. exists (Runner 0). by apply (step_runner s [r] f 0 r s' r'). Qed.

Definition triggered := MkRunner "poll" (Some (MkHandle false false true 5 0 true)) D_top true 0.
Lemma triggers : reachable options (Sys polling [triggered] false).
Proof. eapply runs_on; [exact started|]. exists Caller. exact (step_TriggerNow _ [dynamic_runner "poll" handle] _ 0). Qed.

Definition at_ (p : runner_pc) := MkRunner "poll" (Some handle) p false 0.
Lemma ticks : reachable options (Sys polling [at_ (D_ticked 5 0)] false).
Proof.
  eapply runs_on; [eapply runs_on; [eapply runs_on; [exact started|]|]|].
  - apply runner_moves. by eapply d_read.
  - apply runner_moves. by apply (d_timer _ (at_ (D_read 5 0 false)) handle 5 0).
  - apply runner_moves. by apply (d_tick _ (at_ (D_waiting 5 0)) 5 0).
Qed.
Lemma tick_decides : runner_step polling (at_ (D_ticked 5 0)) polling (at_ (D_ready (Some 5))).
Proof. by apply (d_ticked _ (at_ (D_ticked 5 0)) handle handle 5 0 false). Qed.
Lemma invokes : reachable options (Sys polling [at_ D_invoking] false).
Proof.
  eapply runs_on; [eapply runs_on; [exact ticks|]|].
  - apply runner_moves, tick_decides.
  - apply runner_moves. by apply (d_invoke _ (at_ (D_ready (Some 5))) handle (Some 5)).
Qed.

Definition stopping := MkScheduler (Scheduler.options fresh) [] {["poll"]} {["poll" := 0%nat]} true false true schedulerStopping 1.
Definition stopped_at (p : runner_pc) (done_ : bool) := MkRunner "poll" (Some (MkHandle true done_ false 5 0 false)) p false 0.
Lemma stops : reachable options (Sys stopping [stopped_at D_top false] true).
Proof.
  eapply runs_on; [exact started|]. exists Caller. apply (step_Shutdown polling [dynamic_runner "poll" handle] false Background stopping ShutdownStops).
  reflexivity.
Qed.
Definition over := finishShutdown (finished (unregister "poll" stopping)).
Lemma stops_at_last : reachable options (Sys over [stopped_at Gone true] false).
Proof.
  destruct stops as (a & b & c & H1 & H2 & H3). exists a, b, c. split; [done|]. split; [done|].
  eapply rtc_trans; [exact H3|].
  eapply rtc_l; [apply runner_moves; by eapply d_read|].
  eapply rtc_l; [apply runner_moves; eapply (d_stop _ (stopped_at (D_read 5 0 false) false) _ 5 0 false None); [by left|done|done]|].
  eapply rtc_l; [apply runner_moves; by eapply d_cancel|].
  eapply rtc_l; [apply runner_moves; by eapply d_unregister|].
  eapply rtc_l; [apply runner_moves; by eapply d_close|].
  eapply rtc_l; [apply runner_moves; by eapply d_leave|].
  apply rtc_once. exists Finisher. by apply step_finish.
Qed.
End Sample.
Import Sample.

Lemma invocations_of_a_name_do_not_overlap_witness : invoking (at_ D_invoking) = true /\ 0%nat = 0%nat.
Proof.
  split; [reflexivity|].
  exact (invocations_of_a_name_do_not_overlap Sample.options _ 0 0 (at_ D_invoking) (at_ D_invoking) invokes
    eq_refl eq_refl eq_refl eq_refl eq_refl).
Defined.
Lemma shutdown_waits_for_every_task_witness : Forall (fun r => r_pc r = Gone) [stopped_at Gone true].
Proof. exact (proj1 (proj2 (shutdown_waits_for_every_task Sample.options _ stops_at_last eq_refl))). Defined.
Lemma accepted_trigger_leads_to_invocation_witness : (1 <= moves_to_invocation triggered <= 7)%nat.
Proof.
  exact (proj1 (accepted_trigger_leads_to_invocation Sample.options _ 0 triggered triggers eq_refl
    (conj eq_refl (ex_intro _ _ (conj eq_refl eq_refl))))).
Defined.
Lemma timed_invocation_waits_current_interval_witness : 5 = interval handle.
Proof.
  exact (timed_invocation_waits_current_interval Sample.options _ 0 (at_ (D_ticked 5 0)) handle 5 0 _ _ 5 ticks eq_refl eq_refl
    eq_refl eq_refl tick_decides eq_refl).
Defined.
Lemma scheduler_shutdown_terminates_witness : exists st', rtc internal (Sys stopping [stopped_at D_top false] true) st' /\
  state (sched st') = schedulerStopped.
Proof. exact (proj2 (proj2 (proj2 (scheduler_shutdown_terminates Sample.options _ stops eq_refl)))). Defined.
