(* ===== verification/FileTransfer.v ===== *)
(** * File transfers  [backend/framework/file_transfer.go]

    The store of staged files and of uploads made in chunks.  A file system is
    a map from names to inodes and from inodes to contents, since an open file
    outlives its name.  Each critical section of the mutex is a function on the
    store's state, each method the function that the code composes from them;
    the goroutines that interleave them are in [FileTransferCalls.v].
    [crypto/rand], the clock and the outcomes of system calls are arguments. *)
From S2P Require Import Prelude GoTime GoStrings Json.
Open Scope Z_scope.
Open Scope go_scope.

Definition defaultFileTransferTTL : Z := 15 * Minute.
Definition defaultFileTransferMaxBytes : Z := Z.shiftl 2 30.
Definition fileTransferIDBytes : nat := 32.
Definition emptyFileSHA256 : string := "e3b0c44298fc1c149afbf4c8996fb92427ae41e4649b934ca495991b7852b855".

Definition ErrFileTransferClosed := ErrNew "framework: file transfer store is closed".
Definition ErrFileTransferExpired := ErrNew "framework: file transfer has expired".
Definition ErrFileTransferBusy := ErrNew "framework: file transfer is busy".
Definition ErrFileTransferChecksum := ErrNew "framework: file transfer checksum does not match".
Definition ErrFileTransferIncomplete := ErrNew "framework: file transfer is incomplete".
Definition ErrFileTransferInvalid := ErrNew "framework: file transfer is invalid".
Definition ErrFileTransferNotFound := ErrNew "framework: file transfer was not found".
Definition ErrFileTransferOffset := ErrNew "framework: file transfer offset does not match".
Definition ErrFileTransferTooLarge := ErrNew "framework: file transfer is too large".
Definition ErrInvalidFileTransferOpts := ErrNew "framework: file transfer options are invalid".

Record FileReference := MkFileReference {
  ID : string;
  Name : string;
  MediaType : string;
  Size : Z;
  SHA256 : string;
  ExpiresAt : Z;
  LocalPath : string
}.
Definition with_expiry (r : FileReference) t := MkFileReference (ID r) (Name r) (MediaType r) (Size r) (SHA256 r) t (LocalPath r).
Definition with_local_path (r : FileReference) p := MkFileReference (ID r) (Name r) (MediaType r) (Size r) (SHA256 r) (ExpiresAt r) p.

Record FileTransferOptions := MkFileTransferOptions {
  RootDir : string;
  TTL : Z;
  MaxBytes : Z;
  ExposeLocalPath : bool
}.
Definition DefaultFileTransferOptions := MkFileTransferOptions "" defaultFileTransferTTL defaultFileTransferMaxBytes false.

Record fileTransferEntry := MkTransferEntry {
  reference : FileReference;
  path : string;
  offset : Z;
  upload : bool;
  complete : bool;
  busy : bool
}.
(** The entry a lookup gives when there is none. *)
Definition zero_reference := MkFileReference "" "" "" 0 "" zero_time "".
Definition zero_entry := MkTransferEntry zero_reference "" 0 false false false.
Definition with_busy (e : fileTransferEntry) b := MkTransferEntry (reference e) (path e) (offset e) (upload e) (complete e) b.

Record FileUploadStatus := MkFileUploadStatus {
  us_reference : FileReference;
  us_offset : Z;
  us_complete : bool
}.
Definition zero_status := MkFileUploadStatus zero_reference 0 false.

Record FileTransferStore := MkFileTransferStore {
  root : string;
  ownsRoot : bool;
  ttl : Z;
  maxBytes : Z;
  exposeLocalPath : bool;
  active : nat;            (* the WaitGroup's counter *)
  entries : gmap string fileTransferEntry;
  closed : bool
}.
Definition with_active (s : FileTransferStore) n :=
  MkFileTransferStore (root s) (ownsRoot s) (ttl s) (maxBytes s) (exposeLocalPath s) n (entries s) (closed s).
Definition with_entries (s : FileTransferStore) m :=
  MkFileTransferStore (root s) (ownsRoot s) (ttl s) (maxBytes s) (exposeLocalPath s) (active s) m (closed s).
Definition with_closed (s : FileTransferStore) :=
  MkFileTransferStore (root s) (ownsRoot s) (ttl s) (maxBytes s) (exposeLocalPath s) (active s) (entries s) true.

(** [directory] is what [os.MkdirTemp], or [filepath.Abs] and [os.MkdirAll], give. *)
Definition NewFileTransferStore (directory : result string) (o : FileTransferOptions) : result FileTransferStore :=
  let t := if TTL o =? 0 then defaultFileTransferTTL else TTL o in
  let m := if MaxBytes o =? 0 then defaultFileTransferMaxBytes else MaxBytes o in
  if (t <? 0) || (m <? 0) then Err ErrInvalidFileTransferOpts
  else match directory with
       | Ok r => Ok (MkFileTransferStore r (String.eqb (RootDir o) "") t m (ExposeLocalPath o) 0 ∅ false)
       | Err e => Err (Errorf [T "framework: create file transfer directory: "; W e])
       | Panicked m => Panicked m
       end.

(** ** The file system *)

Record file_system := FS {
  names : gmap string nat;
  inodes : gmap nat (list Z);
  next_inode : nat
}.
(** [os.OpenFile(path, O_CREATE|O_EXCL|O_WRONLY)]: [None] when the name exists. *)
Definition fs_create (d : file_system) (p : string) : option (file_system * nat) :=
  match names d !! p with
  | Some _ => None
  | None => Some (FS (<[p := next_inode d]> (names d)) (<[next_inode d := []]> (inodes d)) (S (next_inode d)), next_inode d)
  end.
Definition fs_open (d : file_system) (p : string) : option nat := names d !! p.
Definition fs_remove (d : file_system) (p : string) : file_system := FS (delete p (names d)) (inodes d) (next_inode d).
Definition contents (d : file_system) (ino : nat) : list Z := default [] (inodes d !! ino).
(** A write at a position: what was before it (zeros where the file is
    shorter), the bytes, what was after them. *)
Definition overwrite (c : list Z) (pos : nat) (bs : list Z) : list Z :=
  take pos (c ++ repeat 0 (pos - length c)) ++ bs ++ drop (pos + length bs) c.
Definition fs_write (d : file_system) (ino : nat) (pos : nat) (bs : list Z) : file_system :=
  FS (names d) (<[ino := overwrite (contents d ino) pos bs]> (inodes d)) (next_inode d).

(** [filepath.Join] of an absolute clean directory and a name. *)
Definition Join (dir name : string) : string :=
  if String.eqb dir "/" then "/" +:+ name else dir +:+ "/" +:+ name.

(** What [os.Open] of a missing file returns. *)
Definition err_not_exist := ErrNew "file does not exist".
Definition io_EOF := ErrNew "EOF".

(** ** Copying from a source

    A turn of [io.Copy]: what [ctx.Err()] returns before and after the source's
    [Read], what that [Read] gives (at most as much as the buffer holds), and,
    when the write fails, how much it wrote.  The source is the list of its
    turns; after them it gives [io.EOF]. *)
Record copy_turn := MkTurn {
  ctx_before : option goerror;
  data : list Z;
  read_err : option goerror;
  ctx_after : option goerror;
  write_fails : option (nat * goerror)
}.
Definition plain_turn (bs : list Z) := MkTurn None bs None None None.

(** [contextReader.Read] into a buffer of [room] bytes: what does not fit
    stays with the source. *)
Definition contextReader_Read (t : copy_turn) (room : nat) : list Z * option goerror :=
  match ctx_before t with
  | Some err => ([], Some err)
  | None =>
      let err := if Nat.ltb room (length (data t)) then None else read_err t in
      (take room (data t), match err with Some e => Some e | None => ctx_after t end)
  end.
(** [io.LimitReader]'s [Read] when [limit] bytes are left. *)
Definition LimitReader_Read (t : copy_turn) (limit : Z) : list Z * option goerror :=
  if limit <=? 0 then ([], Some io_EOF) else contextReader_Read t (Z.to_nat limit).

(** A turn of [io.Copy]'s loop: the bytes that reach the file, and whether it
    stops, with the error it then returns. *)
Definition copy_one (t : copy_turn) (limit : Z) : list Z * option (option goerror) :=
  let '(bs, er) := LimitReader_Read t limit in
  match (if Nat.eqb (length bs) 0 then None else write_fails t) with
  | Some (n, ew) => (take n bs, Some (Some ew))
  | None =>
      (bs, match er with
           | Some e => Some (if errors_is e io_EOF then None else Some e)
           | None => None
           end)
  end.
Fixpoint io_Copy (turns : list copy_turn) (limit : Z) : list Z * option goerror :=
  match turns with
  | [] => ([], None)
  | t :: turns =>
      let '(bs, stop) := copy_one t limit in
      match stop with
      | Some err => (bs, err)
      | None => let '(rest, err) := io_Copy turns (limit - Z.of_nat (length bs)) in (bs ++ rest, err)
      end
  end.

(** ** Names, identifiers and checksums *)

Fixpoint after_last_slash (s acc : string) : string :=
  match s with
  | EmptyString => acc
  | String c r => if Ascii.eqb c "/" then after_last_slash r EmptyString else after_last_slash r (acc +:+ String c EmptyString)
  end.
(** [filepath.Base] on a system whose separator is the slash. *)
Definition Base (p : string) : string :=
  if String.eqb p "" then "."
  else let b := after_last_slash (trim_char_right "/" p) EmptyString in if String.eqb b "" then "/" else b.

(** [strings.IndexFunc(s, unicode.IsControl) >= 0]: U+0000-1F and U+007F-9F. *)
Fixpoint has_control_go (fuel : nat) (s : string) : bool :=
  match fuel, s with
  | O, _ | _, EmptyString => false
  | S fuel, String a r =>
      match cut_rune s with
      | Some (width, rest) =>
          (in_range 0 31 a || in_range 127 127 a ||
           (in_range 194 194 a && match r with String b _ => in_range 128 159 b | _ => false end))
          || has_control_go fuel rest
      | None => has_control_go fuel r
      end
  end.
Definition has_control (s : string) : bool := has_control_go (String.length s) s.

(** The identifiers are ASCII, so that ranging over runes and over bytes agree
    on them; a byte outside ASCII is part of a rune the test refuses. *)
Definition validFileTransferID (id : string) : bool :=
  (string_length id =? Z.of_nat fileTransferIDBytes * 2) && string_forall lower_hex id.
Definition validFileTransferChecksum (checksum : string) : bool := validFileTransferID checksum.

(** What a critical section decides about an entry. *)
Inductive decision (A : Type) :=
| Refuse (a : A) (err : goerror)       (* return [a] and the error *)
| Expire (p : string)                  (* the entry was removed: remove its file *)
| Proceed (e : fileTransferEntry)
| Answer (a : A).                      (* return [a] *)
Arguments Refuse {A}.
Arguments Expire {A}.
Arguments Proceed {A}.
Arguments Answer {A}.

Section Transfers.
(** The lower-case hexadecimal SHA-256 digest of some bytes. *)
Variable sha256 : list Z -> string.
(** [mime.ParseMediaType] followed by [mime.FormatMediaType]. *)
Variable normalizeMediaType : string -> option string.

Definition validateFileTransferMetadata (name mediaType : string) : result (string * string) :=
  if String.eqb name "" || String.eqb name "." || String.eqb name ".." || negb (String.eqb (Base name) name) ||
     contains_char "/" name || contains_char (chr 92) name || has_control name
  then Err ErrFileTransferInvalid
  else
    let mediaType := if String.eqb mediaType "" then "application/octet-stream" else mediaType in
    match normalizeMediaType mediaType with
    | None => Err ErrFileTransferInvalid
    | Some m => Ok (name, m)
    end.

(** ** The critical sections *)

Definition begin (s : FileTransferStore) : FileTransferStore * option goerror :=
  if closed s then (s, Some ErrFileTransferClosed) else (with_active s (S (active s)), None).
(** [store.active.Done()]. *)
Definition activeDone (s : FileTransferStore) : FileTransferStore := with_active s (active s - 1).

Definition prunable (now : Z) (e : fileTransferEntry) : bool := negb (busy e) && negb (Before now (ExpiresAt (reference e))).
Definition pruneExpired_locked (now : Z) (s : FileTransferStore) : FileTransferStore * list string :=
  (with_entries s (filter (fun ie => prunable now ie.2 = false) (entries s)),
   path <$> (map_to_list (filter (fun ie => prunable now ie.2 = true) (entries s))).*2).

(** [createFile]; [draws] is what the calls of [rand.Read] give, [opens] the
    errors of [os.OpenFile] other than that the file exists. *)
Fixpoint createFile (tries : nat) (r : string) (d : file_system) (draws : nat -> result (list Z)) (opens : nat -> option goerror)
    : result (string * string * nat * file_system) :=
  match tries with
  | O => Err (ErrNew "framework: could not allocate a unique file transfer id")
  | S tries =>
      match draws O with
      | Err e => Err (Errorf [T "framework: create file transfer id: "; W e])
      | Panicked m => Panicked m
      | Ok random =>
          let id := hex_encode random in
          let p := Join r id in
          match opens O with
          | Some e => Err (Errorf [T "framework: create file transfer: "; W e])
          | None =>
              match fs_create d p with
              | Some (d, ino) => Ok (id, p, ino, d)
              | None => createFile tries r d (fun n => draws (S n)) (fun n => opens (S n))
              end
          end
      end
  end.

Definition uploadStatus (e : fileTransferEntry) : FileUploadStatus :=
  MkFileUploadStatus (with_local_path (reference e) "") (offset e) (complete e).

Definition stage_reference (now : Z) (s : FileTransferStore) (id p name mediaType : string) (bs : list Z) : FileReference :=
  MkFileReference id name mediaType (Z.of_nat (length bs)) (sha256 bs) (now + ttl s) (if exposeLocalPath s then p else "").
(** The last critical section of [Stage] and of [BeginUpload]. *)
Definition commit_locked (s : FileTransferStore) (id : string) (e : fileTransferEntry) : FileTransferStore * option goerror :=
  if closed s then (s, Some ErrFileTransferClosed) else (with_entries s (<[id := e]> (entries s)), None).

Definition staged_entry (r : FileReference) (p : string) := MkTransferEntry r p (Size r) false true false.
Definition upload_entry (r : FileReference) (p : string) := MkTransferEntry r p 0 true (Size r =? 0) false.

Definition Take_locked (s : FileTransferStore) (id : string) : FileTransferStore * result fileTransferEntry :=
  if closed s then (s, Err ErrFileTransferClosed)
  else match entries s !! id with
       | None => (s, Err ErrFileTransferNotFound)
       | Some e =>
           if negb (complete e) then (s, Err ErrFileTransferIncomplete)
           else if busy e then (s, Err ErrFileTransferBusy)
           else (with_entries s (delete id (entries s)), Ok e)
       end.

Definition UploadStatus_locked (now : Z) (s : FileTransferStore) (id : string) : FileTransferStore * decision FileUploadStatus :=
  if closed s then (s, Refuse zero_status ErrFileTransferClosed)
  else match entries s !! id with
       | None => (s, Refuse zero_status ErrFileTransferNotFound)
       | Some e =>
           if negb (upload e) then (s, Refuse zero_status ErrFileTransferNotFound)
           else if negb (Before now (ExpiresAt (reference e))) then (with_entries s (delete id (entries s)), Expire (path e))
           else (s, Answer (uploadStatus e))
       end.

Definition AppendUpload_locked (now : Z) (s : FileTransferStore) (id : string) (off : Z)
    : FileTransferStore * decision FileUploadStatus :=
  if closed s then (s, Refuse zero_status ErrFileTransferClosed)
  else match entries s !! id with
       | None => (s, Refuse zero_status ErrFileTransferNotFound)
       | Some e =>
           if negb (upload e) then (s, Refuse zero_status ErrFileTransferNotFound)
           else if negb (Before now (ExpiresAt (reference e))) then (with_entries s (delete id (entries s)), Expire (path e))
           else if busy e then (s, Refuse (uploadStatus e) ErrFileTransferBusy)
           else if negb (off =? offset e) then (s, Refuse (uploadStatus e) ErrFileTransferOffset)
           else if complete e then (s, Answer (uploadStatus e))
           else (with_entries s (<[id := with_busy e true]> (entries s)), Proceed e)
       end.

Definition OpenDownload_locked (now : Z) (s : FileTransferStore) (id : string) (off : Z) : FileTransferStore * decision unit :=
  if closed s then (s, Refuse tt ErrFileTransferClosed)
  else match entries s !! id with
       | None => (s, Refuse tt ErrFileTransferNotFound)
       | Some e =>
           if upload e || negb (complete e) then (s, Refuse tt ErrFileTransferNotFound)
           else if negb (Before now (ExpiresAt (reference e))) then (with_entries s (delete id (entries s)), Expire (path e))
           else if busy e then (s, Refuse tt ErrFileTransferBusy)
           else if Size (reference e) <? off then (s, Refuse tt ErrFileTransferOffset)
           else (with_entries s (<[id := with_busy e true]> (entries s)), Proceed e)
       end.

Definition released_entry (now : Z) (s : FileTransferStore) (e : fileTransferEntry) (off : Z) : fileTransferEntry :=
  MkTransferEntry (with_expiry (reference e) (now + ttl s)) (path e) off (upload e) (off =? Size (reference e)) false.
(** [releaseUpload]: the entry it leaves in the variable [entry]. *)
Definition releaseUpload_locked (now : Z) (s : FileTransferStore) (id filePath : string) (off : Z) (remove : bool)
    : FileTransferStore * fileTransferEntry :=
  match entries s !! id with
  | None => (s, zero_entry)
  | Some e =>
      if negb (String.eqb (path e) filePath) then (s, e)
      else if remove then (with_entries s (delete id (entries s)), e)
      else let e := released_entry now s e off in (with_entries s (<[id := e]> (entries s)), e)
  end.

Definition finishDownload_locked (s : FileTransferStore) (id filePath : string) (consume : bool) : FileTransferStore :=
  match entries s !! id with
  | None => s
  | Some e =>
      if negb (String.eqb (path e) filePath) then s
      else if consume then with_entries s (delete id (entries s))
      else with_entries s (<[id := with_busy e false]> (entries s))
  end.

Definition discard_locked (s : FileTransferStore) (id : string) : FileTransferStore * option string :=
  match entries s !! id with
  | None => (s, None)
  | Some e => (with_entries s (delete id (entries s)), Some (path e))
  end.

(** [ConsumeUpload]'s check of the reference the caller presents. *)
Definition ConsumeUpload_locked (s : FileTransferStore) (r : FileReference) : option goerror :=
  match entries s !! ID r with
  | None => Some ErrFileTransferInvalid
  | Some e =>
      if upload e && complete e && String.eqb (Name (reference e)) (Name r) &&
         String.eqb (MediaType (reference e)) (MediaType r) && (Size (reference e) =? Size r) &&
         String.eqb (SHA256 (reference e)) (SHA256 r)
      then None
      else if negb (complete e) then Some ErrFileTransferIncomplete else Some ErrFileTransferInvalid
  end.

Definition Close_locked (s : FileTransferStore) : FileTransferStore * bool :=
  if closed s then (s, false) else (with_closed s, true).
(** After [active.Wait()]. *)
Definition Close_collect (s : FileTransferStore) : FileTransferStore * list string :=
  (with_entries s ∅, path <$> (map_to_list (entries s)).*2).

(** What [AppendUpload] does with the upload once the copy is over: drop it
    with an error, or release it at the new offset.  [sum] is what
    [fileSHA256] returns. *)
Inductive verdict := Drop (err : goerror) | Release (off : Z).
Definition append_verdict (e : fileTransferEntry) (off written : Z) (syncErr closeErr : option goerror) (sum : goerror + string)
    : verdict :=
  let remaining := wrap64 (Size (reference e) - off) in
  if remaining <? written then Drop ErrFileTransferTooLarge
  else match errors_Join [syncErr; closeErr] with
       | Some err => Drop (Errorf [T "framework: persist file upload: "; W err])
       | None =>
           if off + written =? Size (reference e)
           then match sum with
                | inr checksum =>
                    if String.eqb checksum (SHA256 (reference e)) then Release (off + written)
                    else Drop ErrFileTransferChecksum
                | inl err => Drop err
                end
           else Release (off + written)
       end.

(** What a caller of [os.Open] gets. *)
Definition os_open (d : file_system) (p : string) (fault : option goerror) : goerror + nat :=
  match fault with
  | Some e => inl e
  | None => match fs_open d p with Some i => inr i | None => inl err_not_exist end
  end.
(** The faults are the errors of system calls that fail. *)
Definition fileSHA256 (d : file_system) (p : string) (open_fault read_fault : option goerror) : goerror + string :=
  match os_open d p open_fault with
  | inl e => inl (Errorf [T "framework: open file upload for verification: "; W e])
  | inr ino =>
      match read_fault with
      | Some e => inl (Errorf [T "framework: verify file upload: "; W e])
      | None => inr (sha256 (contents d ino))
      end
  end.

(** ** The methods, run without another goroutine in between

    What the system calls of one method return. *)
Record syscalls := MkSyscalls {
  draws : nat -> result (list Z);
  create_fault : nat -> option goerror;
  open_fault : option goerror;
  seek_fault : option goerror;
  sync_fault : option goerror;
  close_fault : option goerror;
  sum_open_fault : option goerror;
  sum_read_fault : option goerror
}.
Definition working (random : list Z) := MkSyscalls (fun _ => Ok random) (fun _ => None) None None None None None None.

Record world := World { store : FileTransferStore; files : file_system }.

Definition remove_all (d : file_system) (paths : list string) : file_system := foldl fs_remove d paths.
Definition pruneExpired (now : Z) (w : world) : world :=
  let '(s, paths) := pruneExpired_locked now (store w) in World s (remove_all (files w) paths).
(** [defer store.active.Done()]. *)
Definition leave {A} (w : world) (r : A) : world * A := (World (activeDone (store w)) (files w), r).
(** The cleanup of a file that is not kept, then [active.Done()]. *)
Definition abandon {A} (w : world) (p : string) (r : A) : world * A := leave (World (store w) (fs_remove (files w) p)) r.

(** The limit of [Stage]'s reader: [store.maxBytes+1] on an [int64]. *)
Definition stage_limit (s : FileTransferStore) : Z := wrap64 (maxBytes s + 1).
(** From the copy to the last critical section: the reference, or the error.
    [io.MultiWriter] writes to the file, then to the hash. *)
Definition stage_outcome (now : Z) (sys : syscalls) (s : FileTransferStore) (id p name mediaType : string)
    (written : list Z) (err : option goerror) : result FileReference :=
  match err with
  | Some e => Err (Errorf [T "framework: stage file transfer: "; W e])
  | None =>
      if maxBytes s <? Z.of_nat (length written) then Err ErrFileTransferTooLarge
      else match sync_fault sys, close_fault sys with
           | Some e, _ => Err (Errorf [T "framework: sync file transfer: "; W e])
           | None, Some e => Err (Errorf [T "framework: close file transfer: "; W e])
           | None, None => Ok (stage_reference now s id p name mediaType written)
           end
  end.

Definition Stage (t_prune t_stage : Z) (sys : syscalls) (ctx : context) (has_source : bool)
    (name mediaType : string) (source : list copy_turn) (w : world) : world * result FileReference :=
  match ctx, has_source with
  | NilContext, _ | _, false => (w, Err ErrFileTransferInvalid)
  | _, true =>
      match validateFileTransferMetadata name mediaType with
      | Err e => (w, Err e) | Panicked m => (w, Panicked m)
      | Ok (name, mediaType) =>
          let '(s, refused) := begin (store w) in
          match refused with
          | Some e => (w, Err e)
          | None =>
              let w := pruneExpired t_prune (World s (files w)) in
              match createFile 4 (root s) (files w) (draws sys) (create_fault sys) with
              | Err e => leave w (Err e) | Panicked m => leave w (Panicked m)
              | Ok (id, p, ino, d) =>
                  let '(written, err) := io_Copy source (stage_limit s) in
                  let w := World (store w) (fs_write d ino 0 written) in
                  match stage_outcome t_stage sys s id p name mediaType written err with
                  | Ok r =>
                      let '(s, refused) := commit_locked (store w) id (staged_entry r p) in
                      match refused with
                      | Some e => abandon w p (Err e)
                      | None => leave (World s (files w)) (Ok r)
                      end
                  | Err e => abandon w p (Err e)
                  | Panicked m => abandon w p (Panicked m)
                  end
              end
          end
      end
  end.

(** A download in the hands of its reader: [download.store] is nil for those
    of [Take]. *)
Record FileDownload := MkFileDownload {
  dl_reference : FileReference;
  dl_inode : nat;
  dl_position : Z;
  dl_path : string;
  dl_store : bool;
  dl_id : string;
  dl_consume : bool
}.
(** Everything the reader gets from the download from now on. *)
Definition download_bytes (d : file_system) (dl : FileDownload) : list Z :=
  drop (Z.to_nat (dl_position dl)) (contents d (dl_inode dl)).

Definition taken_download (e : fileTransferEntry) (ino : nat) : FileDownload :=
  MkFileDownload (with_local_path (reference e) "") ino 0 (path e) false "" true.
Definition opened_download (e : fileTransferEntry) (id : string) (ino : nat) (off : Z) : FileDownload :=
  MkFileDownload (with_local_path (reference e) "") ino off (path e) true id false.

(** The transfer stays active until the download is closed. *)
Definition Take (t : Z) (sys : syscalls) (id : string) (w : world) : world * result FileDownload :=
  if negb (validFileTransferID id) then (w, Err ErrFileTransferNotFound)
  else
    let '(s, refused) := begin (store w) in
    match refused with
    | Some e => (w, Err e)
    | None =>
        let '(s, r) := Take_locked s id in
        let w := World s (files w) in
        match r with
        | Err e => leave w (Err e) | Panicked m => leave w (Panicked m)
        | Ok e =>
            if negb (Before t (ExpiresAt (reference e))) then abandon w (path e) (Err ErrFileTransferExpired)
            else match os_open (files w) (path e) (open_fault sys) with
                 | inl err => abandon w (path e) (Err (Errorf [T "framework: open file transfer: "; W err]))
                 | inr ino => (w, Ok (taken_download e ino))
                 end
        end
    end.

Definition BeginUpload (t_prune t_begin : Z) (sys : syscalls) (name mediaType : string) (size : Z) (checksum : string)
    (w : world) : world * result FileUploadStatus :=
  match validateFileTransferMetadata name mediaType with
  | Err _ => (w, Err ErrFileTransferInvalid) | Panicked m => (w, Panicked m)
  | Ok (name, mediaType) =>
      if (size <? 0) || negb (validFileTransferChecksum checksum) then (w, Err ErrFileTransferInvalid)
      else if maxBytes (store w) <? size then (w, Err ErrFileTransferTooLarge)
      else
        let '(s, refused) := begin (store w) in
        match refused with
        | Some e => (w, Err e)
        | None =>
            let w := pruneExpired t_prune (World s (files w)) in
            match createFile 4 (root s) (files w) (draws sys) (create_fault sys) with
            | Err e => leave w (Err e) | Panicked m => leave w (Panicked m)
            | Ok (id, p, ino, d) =>
                let w := World (store w) d in
                let e := upload_entry (MkFileReference id name mediaType size checksum (t_begin + ttl s) "") p in
                match close_fault sys with
                | Some err => abandon w p (Err (Errorf [T "framework: close file upload: "; W err]))
                | None =>
                    if complete e && negb (String.eqb checksum emptyFileSHA256)
                    then abandon w p (Err ErrFileTransferChecksum)
                    else
                      let '(s, refused) := commit_locked (store w) id e in
                      match refused with
                      | Some err => abandon w p (Err err)
                      | None => leave (World s (files w)) (Ok (uploadStatus e))
                      end
                end
            end
        end
  end.

Definition UploadStatus (t : Z) (id : string) (w : world) : world * result FileUploadStatus :=
  if negb (validFileTransferID id) then (w, Err ErrFileTransferNotFound)
  else
    let '(s, r) := UploadStatus_locked t (store w) id in
    match r with
    | Expire p => (World s (fs_remove (files w) p), Err ErrFileTransferExpired)
    | Refuse _ e => (w, Err e)
    | Answer st => (w, Ok st)
    | Proceed e => (w, Ok (uploadStatus e))
    end.

(** [releaseUpload]. *)
Definition releaseUpload (t : Z) (w : world) (id filePath : string) (off : Z) (remove : bool) : world * FileUploadStatus :=
  let '(s, e) := releaseUpload_locked t (store w) id filePath off remove in
  if remove then (World s (fs_remove (files w) filePath), zero_status) else (World s (files w), uploadStatus e).

(** The reader of an append: [remaining+1] on an [int64]. *)
Definition append_limit (e : fileTransferEntry) (off : Z) : Z := wrap64 (wrap64 (Size (reference e) - off) + 1).
(** The method returns a status beside its error. *)
Definition AppendUpload (t_append t_release : Z) (sys : syscalls) (ctx : context) (has_source : bool)
    (id : string) (off : Z) (source : list copy_turn) (w : world) : world * (FileUploadStatus * option goerror) :=
  if match ctx with NilContext => true | _ => false end || negb has_source || (off <? 0) || negb (validFileTransferID id)
  then (w, (zero_status, Some ErrFileTransferInvalid))
  else
    let '(s, refused) := begin (store w) in
    match refused with
    | Some e => (w, (zero_status, Some e))
    | None =>
        let '(s, r) := AppendUpload_locked t_append s id off in
        let w := World s (files w) in
        match r with
        | Refuse st e => leave w (st, Some e)
        | Answer st => leave w (st, None)
        | Expire p => abandon w p (zero_status, Some ErrFileTransferExpired)
        | Proceed e =>
            let back_out (err : goerror) := let '(w, _) := releaseUpload t_release w id (path e) (offset e) false in leave w (zero_status, Some err) in
            match os_open (files w) (path e) (open_fault sys), seek_fault sys with
            | inl err, _ => back_out (Errorf [T "framework: open file upload: "; W err])
            | inr _, Some err => back_out (Errorf [T "framework: seek file upload: "; W err])
            | inr ino, None =>
                let '(written, copyErr) := io_Copy source (append_limit e off) in
                let w := World (store w) (fs_write (files w) ino (Z.to_nat off) written) in
                let sum := fileSHA256 (files w) (path e) (sum_open_fault sys) (sum_read_fault sys) in
                match append_verdict e off (Z.of_nat (length written)) (sync_fault sys) (close_fault sys) sum with
                | Drop err =>
                    let '(w, _) := releaseUpload t_release w id (path e) (off + Z.of_nat (length written)) true in
                    leave w (zero_status, Some err)
                | Release off' =>
                    let '(w, st) := releaseUpload t_release w id (path e) off' false in
                    leave w (st, match copyErr with
                                 | Some err => Some (Errorf [T "framework: append file upload: "; W err])
                                 | None => None
                                 end)
                end
            end
        end
    end.

Definition ConsumeUpload (t : Z) (sys : syscalls) (r : FileReference) (w : world) : world * result FileDownload :=
  if negb (validFileTransferID (ID r)) then (w, Err ErrFileTransferNotFound)
  else match ConsumeUpload_locked (store w) r with
       | Some e => (w, Err e)
       | None => Take t sys (ID r) w
       end.

Definition discard (id : string) (w : world) : world :=
  let '(s, p) := discard_locked (store w) id in
  World s (match p with Some p => fs_remove (files w) p | None => files w end).

(** For an empty file one byte is asked of the source.  After an error of
    [AppendUpload] what is discarded is the identifier of the status that came
    with the error, as in the code. *)
Definition ImportUpload (t_prune t_begin t_append t_release : Z) (sys : syscalls) (ctx : context) (has_source : bool)
    (name mediaType : string) (size : Z) (checksum : string) (source : list copy_turn) (w : world)
    : world * result FileReference :=
  match ctx, has_source with
  | NilContext, _ | _, false => (w, Err ErrFileTransferInvalid)
  | _, true =>
      let '(w, r) := BeginUpload t_prune t_begin sys name mediaType size checksum w in
      match r with
      | Err e => (w, Err e) | Panicked m => (w, Panicked m)
      | Ok status =>
          let id := ID (us_reference status) in
          if size =? 0 then
            let '(read, readErr) := match source with [] => ([], Some io_EOF) | t :: _ => contextReader_Read t 1 end in
            if Nat.ltb 0 (length read) then (discard id w, Err ErrFileTransferTooLarge)
            else match readErr with
                 | Some e =>
                     if errors_is e io_EOF then (w, Ok (us_reference status))
                     else (discard id w, Err (Errorf [T "framework: import file upload: "; W e]))
                 | None => (w, Ok (us_reference status))
                 end
          else
            let '(w, (status, err)) := AppendUpload t_append t_release sys ctx true id 0 source w in
            match err with
            | Some e => (discard (ID (us_reference status)) w, Err e)
            | None =>
                if us_complete status then (w, Ok (us_reference status))
                else (discard (ID (us_reference status)) w, Err ErrFileTransferIncomplete)
            end
      end
  end.

Definition OpenDownload (t : Z) (sys : syscalls) (id : string) (off : Z) (w : world) : world * result FileDownload :=
  if negb (validFileTransferID id) || (off <? 0) then (w, Err ErrFileTransferNotFound)
  else
    let '(s, refused) := begin (store w) in
    match refused with
    | Some e => (w, Err e)
    | None =>
        let '(s, r) := OpenDownload_locked t s id off in
        let w := World s (files w) in
        match r with
        | Refuse _ e => leave w (Err e)
        | Answer _ => leave w (Err ErrFileTransferNotFound)
        | Expire p => abandon w p (Err ErrFileTransferExpired)
        | Proceed e =>
            let back_out (err : goerror) := leave (World (finishDownload_locked (store w) id (path e) false) (files w)) (Err err) in
            match os_open (files w) (path e) (open_fault sys), seek_fault sys with
            | inl err, _ => back_out (Errorf [T "framework: open file transfer: "; W err])
            | inr _, Some err => back_out (Errorf [T "framework: seek file transfer: "; W err])
            | inr ino, None => (w, Ok (opened_download e id ino off))
            end
        end
    end.

(** [os.Remove] of a file that may be missing, which is no error: the disk
    after it, and the error when the file is there and stays. *)
Definition remove_present (d : file_system) (p : string) (fault : option goerror) : file_system * option goerror :=
  match names d !! p, fault with
  | Some _, Some err => (d, Some err)
  | _, _ => (fs_remove d p, None)
  end.
(** The first [FileDownload.Close], which [once] lets through; [Commit] sets
    [consume] before it.  What closing the file and removing it return comes
    from the system; the result is [closeErr], which a later [Close] returns
    again.  The entry goes before the file, whether or not that can be removed. *)
Definition FileDownload_Close (closing removing : option goerror) (dl : FileDownload) (w : world) : world * option goerror :=
  let s := if dl_store dl then finishDownload_locked (store w) (dl_id dl) (dl_path dl) (dl_consume dl) else store w in
  let '(d, cleanupErr) := if dl_consume dl then remove_present (files w) (dl_path dl) removing else (files w, None) in
  (World (activeDone s) d, errors_Join [closing; cleanupErr]).
Definition Commit (closing removing : option goerror) (dl : FileDownload) (w : world) : world * option goerror :=
  FileDownload_Close closing removing (MkFileDownload (dl_reference dl) (dl_inode dl) (dl_position dl) (dl_path dl) (dl_store dl) (dl_id dl) true) w.
End Transfers.
