(* ===== verification/FileTransferUploads.v ===== *)
(** * Uploads in chunks, and what a limit of all bytes does

    The methods of [FileTransfer.v] run one after the other: an upload made in
    any chunks is read back by [ConsumeUpload], and the copy's limit wraps when
    [MaxBytes] is the largest [int64]. *)
From S2P Require Import Prelude GoTime GoStrings Json FileTransfer.
Open Scope Z_scope.
Open Scope go_scope.

(** ** Copies *)

Lemma copy_one_plain bs limit : Z.of_nat (length bs) < limit -> copy_one (plain_turn bs) limit = (bs, None).
Proof.
  intros H. unfold copy_one, LimitReader_Read. destruct (Z.leb_spec limit 0); [lia|].
  unfold contextReader_Read. cbn [plain_turn ctx_before data read_err ctx_after write_fails].
  destruct (Nat.ltb_spec (Z.to_nat limit) (length bs)); [lia|]. rewrite take_ge by lia. by destruct (Nat.eqb _ _).
Qed.

Lemma io_Copy_plain chunks limit : Z.of_nat (length (concat chunks)) < limit ->
  io_Copy (plain_turn <$> chunks) limit = (concat chunks, None).
Proof.
  revert limit. induction chunks as [|bs chunks IH]; intros limit H; [done|]. cbn [concat] in *. rewrite length_app in H.
  cbn [fmap list_fmap io_Copy]. rewrite copy_one_plain by lia. change (list_fmap _ _ plain_turn chunks) with (plain_turn <$> chunks).
  by rewrite IH by lia.
Qed.

(** A copy never takes more than its limit. *)
Lemma copy_one_bound t limit : Z.of_nat (length (copy_one t limit).1) <= Z.max 0 limit.
Proof.
  unfold copy_one, LimitReader_Read. destruct (Z.leb_spec limit 0); [cbn; lia|]. unfold contextReader_Read.
  destruct (ctx_before t); [cbn; lia|]. destruct (if _ : bool then _ else _) as [[n e]|] eqn:?; cbn [fst];
    rewrite ?length_take; lia.
Qed.
Lemma io_Copy_bound turns limit : Z.of_nat (length (io_Copy turns limit).1) <= Z.max 0 limit.
Proof.
  revert limit. induction turns as [|t turns IH]; intros limit; [cbn; lia|]. cbn [io_Copy].
  pose proof (copy_one_bound t limit). destruct (copy_one t limit) as [bs [err|]]; cbn [fst] in *; [done|].
  specialize (IH (limit - Z.of_nat (length bs))). destruct (io_Copy _ _) as [rest err]. cbn [fst] in *. rewrite length_app. lia.
Qed.
(** With nothing to take, the first turn ends it. *)
Lemma io_Copy_nothing turns limit : limit <= 0 -> io_Copy turns limit = ([], None).
Proof.
  intros H. destruct turns as [|t turns]; [done|]. cbn [io_Copy]. unfold copy_one, LimitReader_Read.
  destruct (Z.leb_spec limit 0); [|lia]. done.
Qed.

Section Uploads.
Variable sha256 : list Z -> string.
Variable normalizeMediaType : string -> option string.

(** An upload at rest: what the store and the disk have of it. *)
Record at_rest (w : world) (id : string) (e : fileTransferEntry) (c : list Z) (ino : nat) : Prop := AtRest {
  r_open : closed (store w) = false;
  r_limit : maxBytes (store w) < int64_max;
  r_id : ID (reference e) = id /\ validFileTransferID id = true;
  r_entry : entries (store w) !! id = Some e;
  r_upload : upload e = true /\ busy e = false /\ complete e = (offset e =? Size (reference e));
  r_file : names (files w) !! path e = Some ino /\ inodes (files w) !! ino = Some c;
  r_offset : Z.of_nat (length c) = offset e;
  r_size : Size (reference e) <= maxBytes (store w)
}.

Lemma AppendUpload_chunk w id e c ino t data random :
  at_rest w id e c ino -> Before t (ExpiresAt (reference e)) = true ->
  let bs := concat data in bs <> [] -> offset e + Z.of_nat (length bs) <= Size (reference e) ->
  (offset e + Z.of_nat (length bs) = Size (reference e) -> sha256 (c ++ bs) = SHA256 (reference e)) ->
  let e' := released_entry t (store w) e (offset e + Z.of_nat (length bs)) in
  exists w', AppendUpload sha256 t t (working random) Background true id (offset e) (plain_turn <$> data) w = (w', (uploadStatus e', None)) /\
    at_rest w' id e' (c ++ bs) ino /\ ttl (store w') = ttl (store w).
Proof.
  intros [Ho Hm [Hid Hv] He (Hu & Hb & Hc) [Hn Hi] Hl Hs] Ht bs Hbs Hle Hsum e'.
  assert (0 < Z.of_nat (length bs)) as Hpos by (destruct bs; [done|cbn; lia]).
  unfold AppendUpload. cbn [Background negb orb]. destruct (Z.ltb_spec (offset e) 0); [lia|]. rewrite Hv. cbn [orb negb].
  unfold begin. rewrite Ho. unfold AppendUpload_locked. cbn [with_active closed entries]. rewrite Ho, He, Hu, Ht, Hb, Z.eqb_refl. cbn [negb].
  rewrite Hc. destruct (Z.eqb_spec (offset e) (Size (reference e))); [lia|].
  cbn [working open_fault seek_fault store files]. unfold os_open, fs_open. rewrite Hn.
  assert (append_limit e (offset e) = Size (reference e) - offset e + 1) as ->.
  { unfold append_limit. rewrite (wrap64_id (_ - _)), wrap64_id; unfold in_int64, int64_min, int64_max in *; lia. }
  rewrite io_Copy_plain by (fold bs; lia). fold bs. cbn [store files].
  assert (overwrite (contents (files w) ino) (Z.to_nat (offset e)) bs = c ++ bs) as Hw.
  { unfold contents. rewrite Hi. cbn [default]. unfold overwrite. replace (Z.to_nat (offset e)) with (length c) by lia.
    rewrite Nat.sub_diag. cbn [repeat]. rewrite app_nil_r, (take_ge c) by lia. rewrite (drop_ge c) by lia. by rewrite app_nil_r. }
  assert (append_verdict e (offset e) (Z.of_nat (length bs)) None None
    (fileSHA256 sha256 (fs_write (files w) ino (Z.to_nat (offset e)) bs) (path e) None None) = Release (offset e + Z.of_nat (length bs))) as Hverdict.
  { unfold append_verdict. rewrite wrap64_id by (unfold in_int64, int64_min, int64_max in *; lia). cbn zeta.
    destruct (Z.ltb_spec (Size (reference e) - offset e) (Z.of_nat (length bs))); [lia|]. change (errors_Join [None; None]) with (@None goerror). cbn iota.
    destruct (Z.eqb_spec (offset e + Z.of_nat (length bs)) (Size (reference e))) as [E|]; [|done].
    unfold fileSHA256, os_open, fs_open, fs_write. cbn [names inodes]. rewrite Hn. unfold contents at 1. cbn [inodes].
    rewrite lookup_insert_eq. cbn [default]. unfold Datatypes.id. rewrite Hw, (Hsum E). by rewrite String.eqb_refl. }
  cbn [working sync_fault close_fault sum_open_fault sum_read_fault] in *. rewrite Hverdict.
  unfold releaseUpload, releaseUpload_locked. cbn [store with_entries with_active entries files]. rewrite lookup_insert_eq.
  cbn [with_busy path]. rewrite String.eqb_refl. cbn [negb]. cbn iota.
  unfold leave, activeDone. cbn [store files with_active with_entries active entries].
  eexists. split; [reflexivity|]. split; [|done]. rewrite insert_insert_eq.
  constructor; cbn [store files closed maxBytes with_active with_entries entries fs_write names inodes]; try done.
  - by rewrite lookup_insert_eq.
  - rewrite lookup_insert_eq. split; [exact Hn|]. by rewrite Hw.
  - rewrite length_app. unfold e'. cbn [released_entry offset]. lia.
Qed.

(** ** From the first call to the last *)

Lemma remove_all_none d ps p : names d !! p = None -> names (remove_all d ps) !! p = None.
Proof.
  unfold remove_all. revert d. induction ps as [|q ps IH]; intros d H; [done|]. cbn [foldl]. apply IH. cbn [fs_remove names].
  destruct (decide (q = p)) as [->|]; [by rewrite lookup_delete_eq|by rewrite lookup_delete_ne].
Qed.

(** The entry of an upload, its reference expiring at [x]. *)
Definition upload_at (w : world) (id name mediaType : string) (size : Z) (checksum : string) (x off : Z) : fileTransferEntry :=
  MkTransferEntry (MkFileReference id name mediaType size checksum x "") (Join (root (store w)) id) off true (off =? size) false.

Lemma BeginUpload_rest w t random name mediaType m size checksum :
  let id := hex_encode random in
  closed (store w) = false -> maxBytes (store w) < int64_max -> validFileTransferID id = true ->
  names (files w) !! Join (root (store w)) id = None ->
  validateFileTransferMetadata normalizeMediaType name mediaType = Ok (name, m) ->
  0 <= size <= maxBytes (store w) -> validFileTransferChecksum checksum = true -> (size = 0 -> checksum = emptyFileSHA256) ->
  let e := upload_at w id name m size checksum (t + ttl (store w)) 0 in
  exists w' ino, BeginUpload normalizeMediaType t t (working random) name mediaType size checksum w = (w', Ok (uploadStatus e)) /\
    at_rest w' id e [] ino /\ ttl (store w') = ttl (store w).
Proof.
  intros id Ho Hm Hv Hf Hmeta Hs Hc Hz e. unfold BeginUpload. rewrite Hmeta, Hc. cbn [negb]. rewrite orb_false_r.
  destruct (Z.ltb_spec size 0); [lia|]. destruct (Z.ltb_spec (maxBytes (store w)) size); [lia|].
  unfold begin. rewrite Ho. unfold pruneExpired, pruneExpired_locked. cbn [store files working draws create_fault createFile root with_active].
  change (hex_encode random) with id. unfold fs_create at 1. rewrite remove_all_none by exact Hf.
  set (d := remove_all _ _). cbn [store files close_fault].
  assert (upload_entry (MkFileReference id name m size checksum (t + ttl (with_active (store w) (S (active (store w))))) "") (Join (root (store w)) id) = e) as ->.
  { unfold upload_entry, e, upload_at. cbn [Size ttl with_active]. by rewrite Z.eqb_sym. }
  assert (complete e && negb (String.eqb checksum emptyFileSHA256) = false) as ->.
  { unfold e, upload_at. cbn [complete]. destruct (Z.eqb_spec 0 size) as [E|]; [|done]. rewrite Hz by done. by rewrite String.eqb_refl. }
  unfold commit_locked. cbn [with_entries with_active closed]. rewrite Ho. unfold leave, activeDone. cbn [store files with_active with_entries active].
  eexists _, _. split; [reflexivity|]. split; [|done].
  constructor; cbn [store files closed maxBytes with_active with_entries entries names inodes]; try done; try (by rewrite lookup_insert_eq); try lia.
  - unfold e, upload_at. cbn [path]. by rewrite !lookup_insert_eq.
Qed.

(** A client that sends its chunks one append after the other, each at a time
    of its own and from the offset the last answer gave. *)
Fixpoint send (random : list Z) (id : string) (off : Z) (chunks : list (Z * list (list Z))) (w : world) : world :=
  match chunks with
  | [] => w
  | (t, data) :: chunks =>
      let '(w, (status, _)) := AppendUpload sha256 t t (working random) Background true id off (plain_turn <$> data) w in
      send random id (us_offset status) chunks w
  end.
Definition sent_bytes (chunks : list (Z * list (list Z))) : list Z := concat ((fun chunk => concat chunk.2) <$> chunks).
(** Each call comes before the expiry the call before it has set. *)
Fixpoint in_time (lifetime expires : Z) (chunks : list (Z * list (list Z))) (last : Z) : Prop :=
  match chunks with
  | [] => last < expires
  | (t, data) :: chunks => t < expires /\ concat data <> [] /\ in_time lifetime (t + lifetime) chunks last
  end.

Lemma sends_all random id name m checksum w0 chunks : forall w c x ino last,
  let size := Z.of_nat (length (c ++ sent_bytes chunks)) in
  at_rest w id (upload_at w0 id name m size checksum x (Z.of_nat (length c))) c ino ->
  in_time (ttl (store w)) x chunks last -> sha256 (c ++ sent_bytes chunks) = checksum ->
  exists w' x', send random id (Z.of_nat (length c)) chunks w = w' /\ last < x' /\
    at_rest w' id (upload_at w0 id name m size checksum x' size) (c ++ sent_bytes chunks) ino.
Proof.
  induction chunks as [|[t data] chunks IH]; intros w c x ino last size Hr Ht Hsum.
  - exists w, x. split; [done|]. split; [done|]. unfold size in *. cbn [sent_bytes fmap list_fmap concat] in *. by rewrite app_nil_r in *.
  - destruct Ht as (Hx & Hne & Ht). assert (sent_bytes ((t, data) :: chunks) = concat data ++ sent_bytes chunks) as E by done.
    unfold size in *. rewrite E, app_assoc in *. set (total := Z.of_nat (length ((c ++ concat data) ++ sent_bytes chunks))) in *.
    assert (Hlen : total = Z.of_nat (length c) + Z.of_nat (length (concat data)) + Z.of_nat (length (sent_bytes chunks))) by (unfold total; rewrite !length_app; lia).
    destruct (AppendUpload_chunk w id _ c ino t data random Hr) as (w1 & Hw1 & Hr1 & Httl); cbn [upload_at reference ExpiresAt offset Size SHA256].
    + unfold Before. apply Z.ltb_lt. exact Hx.
    + exact Hne.
    + lia.
    + intros Hend. assert (sent_bytes chunks = []) as Hnil by (destruct (sent_bytes chunks); [done|cbn in Hlen; lia]).
      rewrite Hnil, app_nil_r in Hsum. exact Hsum.
    + cbn [send]. cbn [upload_at offset] in Hw1. rewrite Hw1. cbn [uploadStatus released_entry us_offset upload_at offset].
      destruct (IH w1 (c ++ concat data) (t + ttl (store w)) ino last) as (w' & x' & Hs & Hl & Hr').
      * fold total. replace (Z.of_nat (length (c ++ concat data))) with (Z.of_nat (length c) + Z.of_nat (length (concat data))) by (rewrite length_app; lia).
        exact Hr1.
      * by rewrite Httl.
      * exact Hsum.
      * exists w', x'. split; [|by split]. rewrite <- Hs. rewrite length_app. f_equal. lia.
Qed.

Lemma ConsumeUpload_rest w id e c ino t random r :
  at_rest w id e c ino -> offset e = Size (reference e) -> Before t (ExpiresAt (reference e)) = true ->
  ID r = id -> Name r = Name (reference e) -> MediaType r = MediaType (reference e) -> Size r = Size (reference e) ->
  SHA256 r = SHA256 (reference e) ->
  exists w' dl, ConsumeUpload t (working random) r w = (w', Ok dl) /\ download_bytes (files w') dl = c /\
    entries (store w') !! id = None /\ names (files (FileDownload_Close None None dl w').1) !! path e = None.
Proof.
  intros [Ho Hm [Hid Hv] He (Hu & Hb & Hc) [Hn Hi] Hl Hs] Hsz Ht Hrid Hname Hmt Hsize Hsha.
  unfold ConsumeUpload. rewrite Hrid, Hv. cbn [negb]. unfold ConsumeUpload_locked. rewrite Hrid, He, Hu, Hc, Hname, Hmt, Hsize, Hsha, Hsz.
  rewrite !String.eqb_refl, !Z.eqb_refl. cbn [andb]. unfold Take. rewrite Hv. cbn [negb]. unfold begin. rewrite Ho.
  unfold Take_locked. cbn [with_active closed entries]. rewrite Ho, He, Hc, Hsz, Z.eqb_refl, Hb. cbn [negb].
  rewrite Ht. cbn [negb]. cbn [files working open_fault]. unfold os_open, fs_open. rewrite Hn.
  eexists _, _. split; [reflexivity|]. cbn [files store with_entries entries]. split; [|split].
  - unfold download_bytes, contents, taken_download. cbn [dl_position dl_inode]. by rewrite Hi.
  - by rewrite lookup_delete_eq.
  - unfold FileDownload_Close, remove_present. cbn [taken_download dl_consume dl_path files]. destruct (names _ !! path e); cbn; by rewrite lookup_delete_eq.
Qed.

(** C15. An upload of any bytes, cut into any chunks read in any pieces, is
    accepted: [BeginUpload] answers with a reference, [AppendUpload] takes the
    chunks, [ConsumeUpload] of the reference reads back exactly the bytes; the
    upload can be consumed no second time, and closing the download removes
    its file. *)
Theorem upload_round_trip w t random name mediaType m chunks last :
  let id := hex_encode random in
  let bytes := sent_bytes chunks in
  let size := Z.of_nat (length bytes) in
  sha256 [] = emptyFileSHA256 -> validFileTransferChecksum (sha256 bytes) = true ->
  closed (store w) = false -> maxBytes (store w) < int64_max -> validFileTransferID id = true ->
  names (files w) !! Join (root (store w)) id = None ->
  validateFileTransferMetadata normalizeMediaType name mediaType = Ok (name, m) ->
  size <= maxBytes (store w) -> in_time (ttl (store w)) (t + ttl (store w)) chunks last ->
  exists w1 status w2 dl,
    BeginUpload normalizeMediaType t t (working random) name mediaType size (sha256 bytes) w = (w1, Ok status) /\
    ConsumeUpload last (working random) (us_reference status) (send random id 0 chunks w1) = (w2, Ok dl) /\
    download_bytes (files w2) dl = bytes /\ entries (store w2) !! id = None /\
    names (files (FileDownload_Close None None dl w2).1) !! Join (root (store w)) id = None.
Proof.
  intros id bytes size Hempty Hc Ho Hm Hv Hf Hmeta Hs Ht.
  destruct (BeginUpload_rest w t random name mediaType m size (sha256 bytes)) as (w1 & ino & Hb & Hr & Httl); try done.
  { unfold size. lia. }
  { unfold size. intros E. destruct bytes; [done|cbn in E; lia]. }
  destruct (sends_all random id name m (sha256 bytes) w chunks w1 [] (t + ttl (store w)) ino last) as (w2 & x & Hw2 & Hx & Hr2); [exact Hr|by rewrite Httl|done|].
  destruct (ConsumeUpload_rest _ _ _ _ _ last random
    (us_reference (uploadStatus (upload_at w id name m size (sha256 bytes) (t + ttl (store w)) 0))) Hr2) as (w3 & dl & Hc3 & Hd & Hgone & Hrm);
    try done; [by apply Z.ltb_lt|].
  eexists w1, _, w3, dl. split; [exact Hb|]. change (send random id 0 chunks w1 = w2) in Hw2. rewrite Hw2. done.
Qed.

(** With [MaxBytes] the largest [int64] the reader's limit wraps to the
    smallest, and [Stage] of any source succeeds with an empty file. *)
Theorem stage_without_limit_is_empty w t random name mediaType m source :
  let id := hex_encode random in
  maxBytes (store w) = int64_max -> closed (store w) = false -> names (files w) !! Join (root (store w)) id = None ->
  validateFileTransferMetadata normalizeMediaType name mediaType = Ok (name, m) ->
  exists w' r, Stage sha256 normalizeMediaType t t (working random) Background true name mediaType source w = (w', Ok r) /\
    ID r = id /\ Size r = 0 /\ SHA256 r = sha256 [].
Proof.
  intros id Hm Ho Hf Hmeta. unfold Stage. cbn [Background]. rewrite Hmeta. unfold begin. rewrite Ho.
  unfold pruneExpired, pruneExpired_locked. cbn [store files working draws create_fault createFile root with_active].
  change (hex_encode random) with id. unfold fs_create at 1. rewrite remove_all_none by exact Hf.
  rewrite io_Copy_nothing.
  - unfold stage_outcome. cbn [length with_active with_entries maxBytes store]. rewrite Hm. change (int64_max <? Z.of_nat 0) with false.
    cbn iota. cbn [working sync_fault close_fault]. unfold commit_locked. cbn [store with_entries with_active closed]. rewrite Ho.
    eexists _, _. split; [reflexivity|]. done.
  - unfold stage_limit. cbn [with_active maxBytes]. rewrite Hm. vm_compute. discriminate.
Qed.
End Uploads.

(** ** A digest and a media type function to evaluate the model with *)
Module Toy.
Definition digest (bs : list Z) : string :=
  if bool_decide (bs = []) then emptyFileSHA256 else hex_encode (repeat (foldr Z.add 0 bs mod 256) 32).
Definition media (m : string) : option string := Some m.
Definition random : list Z := repeat 171 32.
Definition id : string := hex_encode random.
Definition fresh_world (limit : Z) := World (MkFileTransferStore "/files" false 100 limit false 0 ∅ false) (FS ∅ ∅ 0).
(** Two appends, the first of a source that gives its bytes in two reads. *)
Definition chunks : list (Z * list (list Z)) := [(50, [[1; 2]; [3]]); (120, [[4]])].
End Toy.

Import Toy.
Lemma upload_round_trip_witness :
  exists w1 status w2 dl,
    BeginUpload media 0 0 (working random) "a.txt" "text/plain" 4 (digest [1; 2; 3; 4]) (fresh_world 10) = (w1, Ok status) /\
    ConsumeUpload 200 (working random) (us_reference status) (send digest random id 0 chunks w1) = (w2, Ok dl) /\
    download_bytes (files w2) dl = [1; 2; 3; 4].
Proof.
  destruct (upload_round_trip digest media (fresh_world 10) 0 random "a.txt" "text/plain" "text/plain" chunks 200)
    as (w1 & status & w2 & dl & H1 & H2 & H3 & _);
    [vm_compute; reflexivity..|vm_compute; discriminate|vm_compute; repeat split; discriminate|].
  exists w1, status, w2, dl. split; [exact H1|]. split; [exact H2|exact H3].
Defined.

Lemma stage_without_limit_is_empty_witness :
  exists w' r, Stage digest media 0 0 (working random) Background true "a.txt" "text/plain" [plain_turn [1; 2; 3]] (fresh_world int64_max) = (w', Ok r) /\
    Size r = 0.
Proof.
  destruct (stage_without_limit_is_empty digest media (fresh_world int64_max) 0 random "a.txt" "text/plain" "text/plain" [plain_turn [1; 2; 3]])
    as (w' & r & H & _ & Hs & _); [vm_compute; reflexivity..|].
  exists w', r. split; [exact H|exact Hs].
Defined.
