(* ===== verification/FileTransferCalls.v ===== *)
(** * The goroutines of the file transfer store  [backend/framework/file_transfer.go]

    Every method of [FileTransfer.v] cut where another goroutine can come in
    between: around each critical section of the mutex, at each system call
    and each turn of a copy.  What is read here of the methods are the same
    functions that [FileTransfer.v] composes.  A download is a call that goes
    on until its reader closes it. *)
From S2P Require Import Prelude GoTime GoStrings Json FileTransfer.
Open Scope Z_scope.
Open Scope go_scope.

Inductive outcome :=
| Staged (r : result FileReference)
| Began (r : result FileUploadStatus)
| StatusIs (r : result FileUploadStatus)
| Appended (st : FileUploadStatus) (err : option goerror)
| NotOpened (err : goerror)          (* [Take] or [OpenDownload] failed *)
| DownloadClosed
| Discarded
| AlreadyClosed.

(** The two methods that make a file. *)
Inductive making :=
| MStage (name mediaType : string)
| MBegin (name mediaType : string) (size : Z) (checksum : string).
Definition make_failed (m : making) (e : goerror) : outcome :=
  match m with MStage _ _ => Staged (Err e) | MBegin _ _ _ _ => Began (Err e) end.

(** What follows the removal of some files. *)
Inductive resume :=
| ThenMake (m : making)
| ThenLeave (o : outcome)            (* [active.Done()], then return *)
| ThenReturn (o : outcome).

Inductive call :=
| Making (m : making)                                 (* before [begin] *)
| Pruning (m : making)
| Creating (m : making)
| StageCopying (id p : string) (ino : nat) (name mediaType : string) (written : list Z)
| StageCommitting (r : FileReference) (p : string)
| BeginCommitting (e : fileTransferEntry)
| GettingStatus (id : string)
| Appending (id : string) (off : Z)
| AppendOpening (e : fileTransferEntry)
| AppendCopying (e : fileTransferEntry) (ino : nat) (written : list Z)
| AppendCopied (e : fileTransferEntry) (written : list Z) (copyErr : option goerror)
| AppendReleasing (e : fileTransferEntry) (off : Z) (remove : bool) (err : option goerror) (with_status : bool)
| Taking (id : string)
| TakeOpening (e : fileTransferEntry)
| Opening (id : string) (off : Z)
| OpenOpening (e : fileTransferEntry) (off : Z)
| OpenGivingUp (e : fileTransferEntry) (err : goerror)
| Reading (dl : FileDownload)
| Finishing (dl : FileDownload)
| Discarding (id : string)
| Removing (paths : list string) (k : resume)
| Leaving (o : outcome)
| Closing
| ClosingWait
| ClosingRemoving (paths : list string)
| ClosedStore                                         (* the [Close] that closed the store has returned *)
| Returned (o : outcome).

Definition resumed (k : resume) : call :=
  match k with ThenMake m => Creating m | ThenLeave o => Leaving o | ThenReturn o => Returned o end.

(** What the goroutines share, and a history of it: [born] is the inode made
    for each identifier, [sent] the bytes the sources gave for it, and [stuck]
    the files whose removal failed. *)
Record shared := Shared {
  st : FileTransferStore;
  fs : file_system;
  born : gmap string nat;
  sent : gmap string (list Z);
  stuck : list string
}.
Definition on_store (s : shared) (t : FileTransferStore) : shared := Shared t (fs s) (born s) (sent s) (stuck s).
Definition on_files (s : shared) (d : file_system) : shared := Shared (st s) d (born s) (sent s) (stuck s).
Definition sent_for (s : shared) (id : string) : list Z := default [] (sent s !! id).

Section Steps.
Variable sha256 : list Z -> string.
Variable normalizeMediaType : string -> option string.

(** The guards before [begin]: the metadata as it will be recorded. *)
Definition make_guard (t : FileTransferStore) (m : making) : result making :=
  match m with
  | MStage name mediaType =>
      let* nm := validateFileTransferMetadata normalizeMediaType name mediaType in Ok (MStage nm.1 nm.2)
  | MBegin name mediaType size checksum =>
      match validateFileTransferMetadata normalizeMediaType name mediaType with
      | Ok nm =>
          if (size <? 0) || negb (validFileTransferChecksum checksum) then Err ErrFileTransferInvalid
          else if maxBytes t <? size then Err ErrFileTransferTooLarge else Ok (MBegin nm.1 nm.2 size checksum)
      | _ => Err ErrFileTransferInvalid
      end
  end.

(** After [createFile]: [Stage] copies, [BeginUpload] closes the file. *)
Definition made (now : Z) (close_fault : option goerror) (t : FileTransferStore) (m : making) (id p : string) (ino : nat) : call :=
  match m with
  | MStage name mediaType => StageCopying id p ino name mediaType []
  | MBegin name mediaType size checksum =>
      match close_fault with
      | Some err => Removing [p] (ThenLeave (Began (Err (Errorf [T "framework: close file upload: "; W err]))))
      | None =>
          let e := upload_entry (MkFileReference id name mediaType size checksum (now + ttl t) "") p in
          if complete e && negb (String.eqb checksum emptyFileSHA256)
          then Removing [p] (ThenLeave (Began (Err ErrFileTransferChecksum)))
          else BeginCommitting e
      end
  end.

Definition decided {A} (d : decision A) (answer : A -> option goerror -> call) (proceed : fileTransferEntry -> call)
    (expired : string -> call) : call :=
  match d with
  | Refuse a e => answer a (Some e)
  | Answer a => answer a None
  | Expire p => expired p
  | Proceed e => proceed e
  end.
Definition to_result (a : FileUploadStatus) (err : option goerror) : result FileUploadStatus :=
  match err with Some e => Err e | None => Ok a end.

(** One step of a call.  [os.RemoveAll], of a root the store owns, leaves some
    files when it fails. *)
Inductive call_step : shared -> call -> shared -> call -> Prop :=
| make_refused s m e : make_guard (st s) m = Err e -> call_step s (Making m) s (Returned (make_failed m e))
| make_begun s m m' t r : make_guard (st s) m = Ok m' -> begin (st s) = (t, r) ->
    call_step s (Making m) (on_store s t) (match r with Some e => Returned (make_failed m e) | None => Pruning m' end)
| make_pruned s m now t ps ps' : pruneExpired_locked now (st s) = (t, ps) -> ps ≡ₚ ps' ->
    call_step s (Pruning m) (on_store s t) (Removing ps' (ThenMake m))
| make_failed_ s m e : call_step s (Creating m) s (Leaving (make_failed m e))
| make_created s m ds fl id p ino d now cf :
    createFile 4 (root (st s)) (fs s) ds fl = Ok (id, p, ino, d) -> born s !! id = None ->
    call_step s (Creating m) (Shared (st s) d (<[id := ino]> (born s)) (<[id := []]> (sent s)) (stuck s))
      (made now cf (st s) m id p ino)
| stage_turn s id p ino name mt w t bs stop now sys :
    copy_one t (stage_limit (st s) - Z.of_nat (length w)) = (bs, stop) ->
    call_step s (StageCopying id p ino name mt w)
      (Shared (st s) (fs_write (fs s) ino (length w) bs) (born s) (<[id := sent_for s id ++ bs]> (sent s)) (stuck s))
      (match stop with
       | None => StageCopying id p ino name mt (w ++ bs)
       | Some err =>
           match stage_outcome sha256 now sys (st s) id p name mt (w ++ bs) err with
           | Ok r => StageCommitting r p
           | Err e => Removing [p] (ThenLeave (Staged (Err e)))
           | Panicked m => Removing [p] (ThenLeave (Staged (Panicked m)))
           end
       end)
| stage_commit s r p t refused : commit_locked (st s) (ID r) (staged_entry r p) = (t, refused) ->
    call_step s (StageCommitting r p) (on_store s t)
      (match refused with Some e => Removing [p] (ThenLeave (Staged (Err e))) | None => Leaving (Staged (Ok r)) end)
| begin_commit s e t refused : commit_locked (st s) (ID (reference e)) e = (t, refused) ->
    call_step s (BeginCommitting e) (on_store s t)
      (match refused with
       | Some err => Removing [path e] (ThenLeave (Began (Err err)))
       | None => Leaving (Began (Ok (uploadStatus e)))
       end)
| status_refused s id : validFileTransferID id = false ->
    call_step s (GettingStatus id) s (Returned (StatusIs (Err ErrFileTransferNotFound)))
| status_locked s id now t d : validFileTransferID id = true -> UploadStatus_locked now (st s) id = (t, d) ->
    call_step s (GettingStatus id) (on_store s t)
      (decided d (fun a err => Returned (StatusIs (to_result a err))) (fun e => Returned (StatusIs (Ok (uploadStatus e))))
         (fun p => Removing [p] (ThenReturn (StatusIs (Err ErrFileTransferExpired)))))
| append_refused s id off : (off <? 0) || negb (validFileTransferID id) = true ->
    call_step s (Appending id off) s (Returned (Appended zero_status (Some ErrFileTransferInvalid)))
| append_closed s id off t e : begin (st s) = (t, Some e) ->
    call_step s (Appending id off) (on_store s t) (Returned (Appended zero_status (Some e)))
| append_locked s id off t now t' d : (off <? 0) || negb (validFileTransferID id) = false ->
    begin (st s) = (t, None) -> AppendUpload_locked now t id off = (t', d) ->
    call_step s (Appending id off) (on_store s t')
      (decided d (fun a err => Leaving (Appended a err)) AppendOpening
         (fun p => Removing [p] (ThenLeave (Appended zero_status (Some ErrFileTransferExpired)))))
| append_not_opened s e err :
    call_step s (AppendOpening e) s (AppendReleasing e (offset e) false (Some err) false)
| append_opened s e ino : fs_open (fs s) (path e) = Some ino ->
    call_step s (AppendOpening e) s (AppendCopying e ino [])
| append_turn s e ino w t bs stop :
    copy_one t (append_limit e (offset e) - Z.of_nat (length w)) = (bs, stop) ->
    call_step s (AppendCopying e ino w)
      (Shared (st s) (fs_write (fs s) ino (Z.to_nat (offset e) + length w) bs) (born s)
         (<[ID (reference e) := sent_for s (ID (reference e)) ++ bs]> (sent s)) (stuck s))
      (match stop with None => AppendCopying e ino (w ++ bs) | Some err => AppendCopied e (w ++ bs) err end)
| append_judged s e w copyErr syncErr closeErr f1 f2 :
    call_step s (AppendCopied e w copyErr) s
      (match append_verdict e (offset e) (Z.of_nat (length w)) syncErr closeErr (fileSHA256 sha256 (fs s) (path e) f1 f2) with
       | Drop err => AppendReleasing e (offset e + Z.of_nat (length w)) true (Some err) false
       | Release off =>
           AppendReleasing e off false
             (match copyErr with Some err => Some (Errorf [T "framework: append file upload: "; W err]) | None => None end) true
       end)
| append_released s e off remove err with_status now t e' :
    releaseUpload_locked now (st s) (ID (reference e)) (path e) off remove = (t, e') ->
    call_step s (AppendReleasing e off remove err with_status) (on_store s t)
      (let o := Appended (if with_status then uploadStatus e' else zero_status) err in
       if remove then Removing [path e] (ThenLeave o) else Leaving o)
| take_refused s id : validFileTransferID id = false ->
    call_step s (Taking id) s (Returned (NotOpened ErrFileTransferNotFound))
| take_closed s id t e : begin (st s) = (t, Some e) -> call_step s (Taking id) (on_store s t) (Returned (NotOpened e))
| take_failed s id t t' e : begin (st s) = (t, None) -> Take_locked t id = (t', Err e) ->
    call_step s (Taking id) (on_store s t') (Leaving (NotOpened e))
| take_locked s id t t' e : validFileTransferID id = true -> begin (st s) = (t, None) -> Take_locked t id = (t', Ok e) ->
    call_step s (Taking id) (on_store s t') (TakeOpening e)
| take_expired s e now : Before now (ExpiresAt (reference e)) = false ->
    call_step s (TakeOpening e) s (Removing [path e] (ThenLeave (NotOpened ErrFileTransferExpired)))
| take_not_opened s e now err : Before now (ExpiresAt (reference e)) = true ->
    call_step s (TakeOpening e) s
      (Removing [path e] (ThenLeave (NotOpened (Errorf [T "framework: open file transfer: "; W err]))))
| take_opened s e now ino : Before now (ExpiresAt (reference e)) = true -> fs_open (fs s) (path e) = Some ino ->
    call_step s (TakeOpening e) s (Reading (taken_download e ino))
| open_refused s id off : negb (validFileTransferID id) || (off <? 0) = true ->
    call_step s (Opening id off) s (Returned (NotOpened ErrFileTransferNotFound))
| open_closed s id off t e : begin (st s) = (t, Some e) ->
    call_step s (Opening id off) (on_store s t) (Returned (NotOpened e))
| open_locked s id off t now t' d : negb (validFileTransferID id) || (off <? 0) = false ->
    begin (st s) = (t, None) -> OpenDownload_locked now t id off = (t', d) ->
    call_step s (Opening id off) (on_store s t')
      (decided d (fun _ err => Leaving (NotOpened (default ErrFileTransferNotFound err))) (fun e => OpenOpening e off)
         (fun p => Removing [p] (ThenLeave (NotOpened ErrFileTransferExpired))))
| open_not_opened s e off err : call_step s (OpenOpening e off) s (OpenGivingUp e err)
| open_given_up s e err :
    call_step s (OpenGivingUp e err) (on_store s (finishDownload_locked (st s) (ID (reference e)) (path e) false))
      (Leaving (NotOpened err))
| open_opened s e off ino : fs_open (fs s) (path e) = Some ino ->
    call_step s (OpenOpening e off) s (Reading (opened_download e (ID (reference e)) ino off))
| download_read s dl n : 0 <= n ->
    call_step s (Reading dl) s (Reading (MkFileDownload (dl_reference dl) (dl_inode dl) (dl_position dl + n) (dl_path dl) (dl_store dl) (dl_id dl) (dl_consume dl)))
| download_close s dl : call_step s (Reading dl) s (Finishing dl)
| download_commit s dl : call_step s (Reading dl) s
    (Finishing (MkFileDownload (dl_reference dl) (dl_inode dl) (dl_position dl) (dl_path dl) (dl_store dl) (dl_id dl) true))
| download_finish s dl :
    call_step s (Finishing dl)
      (on_store s (if dl_store dl then finishDownload_locked (st s) (dl_id dl) (dl_path dl) (dl_consume dl) else st s))
      (if dl_consume dl then Removing [dl_path dl] (ThenLeave DownloadClosed) else Leaving DownloadClosed)
| discarded s id t p : discard_locked (st s) id = (t, p) ->
    call_step s (Discarding id) (on_store s t) (Removing (option_list p) (ThenReturn Discarded))
| removed s p ps k :
    call_step s (Removing (p :: ps) k) (on_files s (fs_remove (fs s) p)) (Removing ps k)
| not_removed s p ps k :
    call_step s (Removing (p :: ps) k) (Shared (st s) (fs s) (born s) (sent s) (p :: stuck s)) (Removing ps k)
| all_removed s k : call_step s (Removing [] k) s (resumed k)
| left_ s o : call_step s (Leaving o) (on_store s (activeDone (st s))) (Returned o)
| close_begun s t first : Close_locked (st s) = (t, first) ->
    call_step s Closing (on_store s t) (if first then ClosingWait else Returned AlreadyClosed)
| close_collected s t ps ps' : active (st s) = 0%nat -> Close_collect (st s) = (t, ps) -> ps ≡ₚ ps' ->
    call_step s ClosingWait (on_store s t) (ClosingRemoving ps')
| close_removed s p ps :
    call_step s (ClosingRemoving (p :: ps)) (on_files s (fs_remove (fs s) p)) (ClosingRemoving ps)
| close_not_removed s p ps :
    call_step s (ClosingRemoving (p :: ps)) (Shared (st s) (fs s) (born s) (sent s) (p :: stuck s)) (ClosingRemoving ps)
| close_done s : ownsRoot (st s) = false -> call_step s (ClosingRemoving []) s ClosedStore
| close_removed_root s kept : ownsRoot (st s) = true -> kept ⊆ names (fs s) ->
    call_step s (ClosingRemoving []) (on_files s (FS kept (inodes (fs s)) (next_inode (fs s)))) ClosedStore.

(** The calls a program makes; [ImportUpload] is [BeginUpload], then
    [AppendUpload], then perhaps [discard]. *)
Definition starts (c : call) : Prop :=
  match c with
  | Making _ | GettingStatus _ | Appending _ _ | Taking _ | Opening _ _ | Discarding _ | Closing => True
  | _ => False
  end.

Inductive step : shared * list call -> shared * list call -> Prop :=
| call_made s l c : starts c -> step (s, l) (s, l ++ [c])
| call_moves s l1 c l2 s' c' : call_step s c s' c' -> step (s, l1 ++ c :: l2) (s', l1 ++ c' :: l2).

(** A store just made, in a directory of its own. *)
Definition initially (t : FileTransferStore) : shared := Shared t (FS ∅ ∅ 0) ∅ ∅ [].
Definition reachable (t : FileTransferStore) (x : shared * list call) : Prop := rtc step (initially t, []) x.
End Steps.
