(* ===== verification/FileTransferFacts.v ===== *)
(** * What a download reads is what was sent

    Invariants of the reachable states of [FileTransferCalls.v]. *)
From S2P Require Import Prelude GoTime GoStrings Json FileTransfer FileTransferUploads FileTransferCalls.
Open Scope Z_scope.
Open Scope go_scope.

#[local] Abbreviation all f l := (l ≫= f).

Lemma string_append_inj_l a b c : a +:+ b = a +:+ c -> b = c.
Proof. induction a as [|x a IH]; [done|]. cbn. intros H. injection H as H. by apply IH. Qed.
Lemma Join_inj r a b : Join r a = Join r b -> a = b.
Proof.
  unfold Join. destruct (String.eqb r "/"); intros H; apply string_append_inj_l in H; [done|].
  by apply string_append_inj_l in H.
Qed.

(** Writing at the end of a file appends. *)
Lemma overwrite_end c pos bs : pos = length c -> overwrite c pos bs = c ++ bs.
Proof.
  intros ->. unfold overwrite. rewrite Nat.sub_diag. cbn [repeat]. rewrite app_nil_r, take_ge by lia.
  rewrite drop_ge by lia. by rewrite app_nil_r.
Qed.

Lemma createFile_ok tries r d ds fl id p ino d' : createFile tries r d ds fl = Ok (id, p, ino, d') ->
  p = Join r id /\ fs_create d p = Some (d', ino).
Proof.
  revert ds fl. induction tries as [|n IH]; intros ds fl H; [done|]. cbn [createFile] in H.
  destruct (ds O) as [a| |]; try done. cbn zeta in H. destruct (fl O); [done|]. destruct (fs_create d (Join r (hex_encode a))) as [[d1 i]|] eqn:E; [|eauto]. by injection H as <- <- <- <-.
Qed.

Section Facts.
Variable sha256 : list Z -> string.
Variable normalizeMediaType : string -> option string.
(** The digest of no bytes, which the code has as a constant. *)
Hypothesis sha256_empty : sha256 [] = emptyFileSHA256.

Definition verified (c : list Z) (r : FileReference) : Prop := Z.of_nat (length c) = Size r /\ sha256 c = SHA256 r.

(** The identifiers whose file a call may write, and those it reads. *)
Definition writing (c : call) : list string :=
  match c with
  | StageCopying id _ _ _ _ _ => [id]
  | StageCommitting r _ => [ID r]
  | BeginCommitting e | AppendOpening e | AppendCopying e _ _ | AppendCopied e _ _ | AppendReleasing e _ _ _ _ => [ID (reference e)]
  | _ => []
  end.
Definition reading (c : call) : list string :=
  match c with
  | TakeOpening e | OpenOpening e _ | OpenGivingUp e _ => [ID (reference e)]
  | Reading dl | Finishing dl => [ID (dl_reference dl)]
  | _ => []
  end.

Definition path_of (s : shared) (id : string) : string := Join (root (st s)) id.

Record entry_ok (s : shared) (id : string) (e : fileTransferEntry) : Prop := EntryOk {
  e_id : ID (reference e) = id;
  e_path : path e = path_of s id;
  e_born : is_Some (born s !! id);
  e_complete : complete e = true -> verified (sent_for s id) (reference e);
  e_upload : upload e = true -> busy e = false \/ complete e = true ->
    Z.of_nat (length (sent_for s id)) = offset e /\ complete e = (offset e =? Size (reference e))
}.

(** An append at work, on the entry [e] it found, has appended [w]. *)
Definition append_ok (s : shared) (e : fileTransferEntry) (w : list Z) : Prop :=
  upload e = true /\ complete e = false /\ path e = path_of s (ID (reference e)) /\
  Z.of_nat (length (sent_for s (ID (reference e)))) = offset e + Z.of_nat (length w) /\ 0 <= offset e /\
  offset e <> Size (reference e) /\
  forall e', entries (st s) !! ID (reference e) = Some e' -> e' = with_busy e true.

Definition call_ok (s : shared) (c : call) : Prop :=
  match c with
  | StageCopying id p ino _ _ w => born s !! id = Some ino /\ sent_for s id = w /\ p = path_of s id
  | StageCommitting r p => p = path_of s (ID r) /\ verified (sent_for s (ID r)) r
  | BeginCommitting e =>
      path e = path_of s (ID (reference e)) /\ sent_for s (ID (reference e)) = [] /\ upload e = true /\ offset e = 0 /\
      complete e = (Size (reference e) =? 0) /\ (complete e = true -> verified [] (reference e)) /\ busy e = false
  | AppendOpening e => append_ok s e []
  | AppendCopying e ino w => append_ok s e w /\ born s !! ID (reference e) = Some ino
  | AppendCopied e w _ => append_ok s e w
  | AppendReleasing e off remove _ _ =>
      exists w, append_ok s e w /\ (remove = false -> off = offset e + Z.of_nat (length w) /\
        (off = Size (reference e) -> verified (sent_for s (ID (reference e))) (reference e)))
  | TakeOpening e | OpenGivingUp e _ =>
      path e = path_of s (ID (reference e)) /\ verified (sent_for s (ID (reference e))) (reference e)
  | OpenOpening e off =>
      path e = path_of s (ID (reference e)) /\ verified (sent_for s (ID (reference e))) (reference e) /\ 0 <= off
  | Reading dl | Finishing dl =>
      born s !! ID (dl_reference dl) = Some (dl_inode dl) /\ verified (sent_for s (ID (dl_reference dl))) (dl_reference dl) /\
      0 <= dl_position dl /\ (dl_store dl = true -> dl_id dl = ID (dl_reference dl))
  | _ => True
  end.

Record inv (x : shared * list call) : Prop := Inv {
  i_born : forall id ino, born x.1 !! id = Some ino ->
    (ino < next_inode (fs x.1))%nat /\ inodes (fs x.1) !! ino = Some (sent_for x.1 id);
  i_inj : forall id1 id2 ino, born x.1 !! id1 = Some ino -> born x.1 !! id2 = Some ino -> id1 = id2;
  i_names : forall p ino, names (fs x.1) !! p = Some ino -> exists id, p = path_of x.1 id /\ born x.1 !! id = Some ino;
  i_entries : forall id e, entries (st x.1) !! id = Some e -> entry_ok x.1 id e;
  i_calls : Forall (call_ok x.1) x.2;
  i_writers : NoDup (all writing x.2);
  i_writing : forall id, id ∈ all writing x.2 -> is_Some (born x.1 !! id) /\
    forall e, entries (st x.1) !! id = Some e -> upload e = true /\ busy e = true /\ complete e = false;
  i_reading : forall id, id ∈ all reading x.2 -> is_Some (born x.1 !! id) /\ (id ∉ all writing x.2) /\
    forall e, entries (st x.1) !! id = Some e -> complete e = true
}.

Lemma transfer_inv_permutation s l l' : l ≡ₚ l' -> inv (s, l) -> inv (s, l').
Proof.
  intros E []; cbn [fst snd] in *. constructor; cbn [fst snd]; try done.
  - by rewrite <- E.
  - by rewrite <- E.
  - intros id. rewrite <- E. apply i_writing0.
  - intros id. rewrite <- E. apply i_reading0.
Qed.

Lemma call_ok_frame s s' c :
  root (st s') = root (st s) ->
  (forall id, id ∈ writing c ++ reading c -> born s' !! id = born s !! id /\ sent_for s' id = sent_for s id) ->
  (forall id e, id ∈ writing c -> entries (st s') !! id = Some e -> entries (st s) !! id = Some e) ->
  call_ok s c -> call_ok s' c.
Proof.
  intros Hr Hs He. assert (forall e w, writing c = [ID (reference e)] -> append_ok s e w -> append_ok s' e w) as Ha.
  { intros e w Hw (U & C & P & L & O & N & E). destruct (Hs (ID (reference e))) as [_ Hs']; [rewrite Hw; left|].
    unfold append_ok, path_of in *. rewrite Hr, Hs'. repeat split; try done. intros e' He'. apply E, He; [rewrite Hw; left|done]. }
  unfold path_of in *. destruct c; cbn [call_ok]; try done; unfold path_of in *; rewrite ?Hr.
  - destruct (Hs id) as [-> ->]; [left|done].
  - destruct (Hs (ID r)) as [_ ->]; [left|done].
  - destruct (Hs (ID (reference e))) as [_ ->]; [left|done].
  - by apply Ha.
  - intros [H ?]. destruct (Hs (ID (reference e))) as [-> _]; [left|]. split; [by apply Ha|done].
  - by apply Ha.
  - intros (w & H & Hrel). destruct (Hs (ID (reference e))) as [_ ->]; [left|]. exists w. split; [by apply Ha|done].
  - destruct (Hs (ID (reference e))) as [_ ->]; [left|done].
  - destruct (Hs (ID (reference e))) as [_ ->]; [left|done].
  - destruct (Hs (ID (reference e))) as [_ ->]; [left|done].
  - destruct (Hs (ID (dl_reference dl))) as [-> ->]; [left|done].
  - destruct (Hs (ID (dl_reference dl))) as [-> ->]; [left|done].
Qed.

Lemma entry_ok_frame s s' id e : root (st s') = root (st s) -> born s' !! id = born s !! id -> sent_for s' id = sent_for s id ->
  entry_ok s id e -> entry_ok s' id e.
Proof. intros Hr Hb Hs []. constructor; unfold path_of in *; by rewrite ?Hr, ?Hb, ?Hs. Qed.

Lemma all_cons (f : call -> list string) c l : all f (c :: l) = f c ++ all f l.
Proof. reflexivity. Qed.

(** A call's lists shrink to nothing, or stay. *)
Definition shrinks (a b : list string) : Prop := b = [] \/ b = a.

(** Entries and names go, nothing else changes but the call. *)
Lemma inv_shrink s s' c c' l :
  inv (s, c :: l) -> root (st s') = root (st s) -> born s' = born s -> sent s' = sent s -> inodes (fs s') = inodes (fs s) ->
  next_inode (fs s') = next_inode (fs s) -> names (fs s') ⊆ names (fs s) -> entries (st s') ⊆ entries (st s) ->
  shrinks (writing c) (writing c') ->
  (forall id, id ∈ reading c' -> id ∈ reading c \/
    (id ∉ writing c) /\ exists e, entries (st s) !! id = Some e /\ complete e = true) ->
  call_ok s' c' -> inv (s', c' :: l).
Proof.
  intros [] Hr Hb Hs Hi Hn Hnames He Hw Hrd Hok; cbn [fst snd] in *.
  assert (forall id, sent_for s' id = sent_for s id) as Hsf by (intros id; unfold sent_for; by rewrite Hs).
  assert (forall id e, entries (st s') !! id = Some e -> entries (st s) !! id = Some e) as He' by (intros id e H; exact (lookup_weaken _ _ _ _ H He)).
  assert (forall id, id ∈ all writing (c' :: l) -> id ∈ all writing (c :: l)) as Hww.
  { intros id. rewrite !all_cons, !elem_of_app. intros [H|H]; [|by right]. destruct Hw as [E|E]; rewrite E in H; [by apply elem_of_nil in H|by left]. }
  constructor; cbn [fst snd]; rewrite ?Hb.
  - intros id ino H. rewrite Hn, Hi, Hsf. by apply i_born0.
  - done.
  - intros p ino H. unfold path_of. rewrite Hr. apply i_names0. by eapply lookup_weaken.
  - intros id e H. apply (entry_ok_frame s); [done|by rewrite Hb|done|by apply i_entries0, He'].
  - apply Forall_cons in i_calls0 as [_ H]. constructor; [done|]. eapply Forall_impl; [exact H|]. intros c2.
    apply call_ok_frame; [done|intros; by rewrite Hb|eauto].
  - rewrite all_cons in *. apply NoDup_app in i_writers0 as (N1 & N2 & N3). destruct Hw as [->| ->]; [done|]. by apply NoDup_app.
  - intros id H. destruct (i_writing0 id (Hww _ H)) as [? E]. split; [done|]. eauto.
  - intros id H. rewrite all_cons, elem_of_app in H.
    assert (id ∈ all reading (c :: l) \/ (id ∉ writing c) /\ exists e, entries (st s) !! id = Some e /\ complete e = true) as [Hin|(Hnw & e & E & Ec)].
    { destruct H as [H|H]; [destruct (Hrd id H); [left|by right]|left]; rewrite all_cons, elem_of_app; auto. }
    + destruct (i_reading0 id Hin) as (? & ? & E). split; [done|]. split; [by intros Hin'%Hww|]. eauto.
    + split; [exact (e_born _ _ _ (i_entries0 id e E))|]. split.
      * intros Hin%Hww. destruct (i_writing0 id Hin) as [_ Hx]. destruct (Hx e E) as (_ & _ & ?). congruence.
      * intros e' E'%He'. congruence.
Qed.

Lemma sent_for_on_store s t id : sent_for (on_store s t) id = sent_for s id.
Proof. reflexivity. Qed.

(** An entry is set, by the call that writes its file or on a file nobody writes. *)
Lemma inv_update s c c' l id e t :
  inv (s, c :: l) -> root t = root (st s) -> entries t = <[id := e]> (entries (st s)) ->
  entry_ok s id e -> id ∉ all writing l -> (id ∈ all reading (c' :: l) -> complete e = true) ->
  (writing c' = [] \/ writing c' = [id] /\ upload e = true /\ busy e = true /\ complete e = false) ->
  (forall id', id' ∈ reading c' -> id' ∈ reading c \/ id' = id) -> (forall id', id' ∈ reading c' -> writing c' = []) ->
  call_ok (on_store s t) c' -> inv (on_store s t, c' :: l).
Proof.
  intros [] Hr He Hok Hw Hrd Hw' Hrd' Hrw Hc; cbn [fst snd] in *.
  assert (forall id' e', entries t !! id' = Some e' -> id' = id /\ e' = e \/ id' <> id /\ entries (st s) !! id' = Some e') as Hl.
  { intros id' e'. rewrite He. destruct (decide (id = id')) as [<-|].
    - rewrite lookup_insert_eq. intros H. left. split; congruence.
    - rewrite lookup_insert_ne by done. right. by split. }
  assert (forall id', id' ∈ all writing (c' :: l) -> id' ∈ all writing l \/ id' = id /\ writing c' = [id]) as Hww.
  { intros id'. rewrite all_cons, elem_of_app. intros [H|H]; [|by left]. destruct Hw' as [E|[E _]]; rewrite E in H.
    - by apply elem_of_nil in H.
    - apply list_elem_of_singleton in H. by right. }
  constructor; cbn [fst snd]; try done.
  - intros p ino H. unfold path_of. cbn. rewrite Hr. by apply i_names0.
  - intros id' e' H. apply (entry_ok_frame s); [done..|]. destruct (Hl _ _ H) as [[-> ->]|[_ H']]; [done|by apply i_entries0].
  - constructor; [done|]. apply Forall_forall. intros c2 Hc2. apply Forall_cons in i_calls0 as [_ H].
    pose proof (proj1 (Forall_forall _ _) H c2 Hc2) as Hok2. revert Hok2. apply call_ok_frame; [done|done|].
    intros id' e' Hin H'. destruct (Hl _ _ H') as [[-> ->]|[_ ?]]; [|done]. destruct Hw. apply list_elem_of_bind. eauto.
  - rewrite all_cons in *. apply NoDup_app in i_writers0 as (N1 & N2 & N3). destruct Hw' as [->|[-> _]]; [done|]. by apply NoDup_cons.
  - intros id' Hin. destruct (Hww _ Hin) as [Hin'|[-> Ew]].
    + destruct (i_writing0 id') as [Hb Hx]; [rewrite all_cons, elem_of_app; by right|]. split; [done|].
      intros e' H. destruct (Hl _ _ H) as [[-> ->]|[_ ?]]; [done|by apply Hx].
    + split; [exact (e_born _ _ _ Hok)|]. intros e' H. destruct (Hl _ _ H) as [[_ ->]|[? _]]; [|done].
      destruct Hw' as [E|[_ ?]]; [congruence|done].
  - intros id' Hin. split; [|split].
    + rewrite all_cons, elem_of_app in Hin. destruct Hin as [Hin|Hin].
      * destruct (Hrd' _ Hin) as [Hin'|Hid]; [|rewrite Hid; exact (e_born _ _ _ Hok)].
        apply i_reading0. rewrite all_cons, elem_of_app. by left.
      * apply i_reading0. rewrite all_cons, elem_of_app. by right.
    + intros Hin2. destruct (Hww _ Hin2) as [Hin'|[-> Ew]].
      * rewrite all_cons, elem_of_app in Hin.
        assert (id' ∈ reading c \/ id' = id \/ id' ∈ all reading l) as [H|[H|H]] by (destruct Hin as [Hin|Hin]; [destruct (Hrd' _ Hin)|]; auto).
        -- destruct (i_reading0 id') as (_ & Hx & _); [rewrite all_cons, elem_of_app; by left|]. apply Hx. rewrite all_cons, elem_of_app. by right.
        -- congruence.
        -- destruct (i_reading0 id') as (_ & Hx & _); [rewrite all_cons, elem_of_app; by right|]. apply Hx. rewrite all_cons, elem_of_app. by right.
      * destruct Hw' as [E|(_ & _ & _ & E)]; [congruence|]. by rewrite Hrd in E.
    + intros e' H. destruct (Hl _ _ H) as [[-> ->]|[Hne H']]; [by apply Hrd|].
      rewrite all_cons, elem_of_app in Hin. destruct Hin as [Hin|Hin].
      * destruct (Hrd' _ Hin) as [Hin'|?]; [|done]. apply (i_reading0 id'); [|done]. rewrite all_cons, elem_of_app. by left.
      * apply (i_reading0 id'); [|done]. rewrite all_cons, elem_of_app. by right.
Qed.

(** The call that writes a file appends to it. *)
Lemma inv_write s c c' l id ino pos bs :
  inv (s, c :: l) -> writing c = [id] -> born s !! id = Some ino -> pos = length (sent_for s id) ->
  shrinks [id] (writing c') -> reading c' = [] ->
  let s' := Shared (st s) (fs_write (fs s) ino pos bs) (born s) (<[id := sent_for s id ++ bs]> (sent s)) (stuck s) in
  call_ok s' c' -> inv (s', c' :: l).
Proof.
  intros [] Hw Hb -> Hw' Hr s' Hc; cbn [fst snd] in *.
  assert (sent_for s' id = sent_for s id ++ bs) as Hs1 by (unfold sent_for, s'; cbn [sent]; by rewrite lookup_insert_eq).
  assert (forall id', id' <> id -> sent_for s' id' = sent_for s id') as Hs2.
  { intros id' Hn. unfold sent_for, s'. cbn [sent]. by rewrite lookup_insert_ne. }
  rewrite all_cons, Hw in i_writers0. apply NoDup_cons in i_writers0 as [Hnw N].
  assert (id ∉ all reading l) as Hnr.
  { intros Hin. destruct (i_reading0 id) as (_ & H & _); [rewrite all_cons, elem_of_app; by right|]. apply H. rewrite all_cons, Hw. left. }
  assert (forall id', id' ∈ all writing (c' :: l) -> id' ∈ all writing (c :: l)) as Hww.
  { intros id'. rewrite !all_cons, !elem_of_app, Hw. intros [H|H]; [left|by right]. destruct Hw' as [E|E]; rewrite E in H; [by apply elem_of_nil in H|done]. }
  constructor; cbn [fst snd].
  - intros id' ino' H. destruct (decide (id' = id)) as [->|Hn].
    + change (born s' !! id) with (born s !! id) in H. rewrite Hs1. assert (ino' = ino) as -> by congruence.
      destruct (i_born0 _ _ Hb) as [H1 H2]. split; [done|]. cbn [fs s' fs_write inodes]. rewrite lookup_insert_eq. f_equal.
      unfold contents. rewrite H2. cbn [default]. by apply overwrite_end.
    + rewrite Hs2 by done. destruct (i_born0 _ _ H) as [H1 H2]. split; [done|]. cbn [fs s' fs_write inodes].
      rewrite lookup_insert_ne; [done|]. intros <-. by apply Hn, (i_inj0 _ _ ino).
  - done.
  - done.
  - intros id' e H. destruct (decide (id' = id)) as [->|Hn].
    + destruct (i_writing0 id) as [_ Hx]; [rewrite all_cons, Hw; left|]. destruct (Hx e H) as (U & B & C).
      destruct (i_entries0 id e H). constructor; try done; [by rewrite C|]. rewrite B, C. intros _ [?|?]; done.
    + apply (entry_ok_frame s); [done|done|by apply Hs2|by apply i_entries0].
  - constructor; [done|]. apply Forall_forall. intros c2 Hc2. apply Forall_cons in i_calls0 as [_ H].
    pose proof (proj1 (Forall_forall _ _) H c2 Hc2) as Hok2. revert Hok2. apply call_ok_frame; [done| |done].
    intros id' Hin. split; [done|]. apply Hs2. intros ->. apply elem_of_app in Hin as [Hin|Hin].
    + apply Hnw, list_elem_of_bind. eauto.
    + apply Hnr, list_elem_of_bind. eauto.
  - rewrite all_cons. destruct Hw' as [->| ->]; [done|by apply NoDup_cons].
  - intros id' Hin. by apply i_writing0, Hww.
  - intros id' Hin. rewrite all_cons, Hr in Hin. destruct (i_reading0 id') as (H1 & H2 & H3); [rewrite all_cons, elem_of_app; by right|].
    split; [done|]. split; [|done]. by intros Hin2%Hww.
Qed.

(** A new file is made under an identifier never used. *)
Lemma inv_create s c c' l id ino p d :
  inv (s, c :: l) -> writing c = [] -> reading c = [] -> born s !! id = None -> fs_create (fs s) p = Some (d, ino) ->
  p = path_of s id -> (writing c' = [] \/ writing c' = [id]) -> reading c' = [] ->
  let s' := Shared (st s) d (<[id := ino]> (born s)) (<[id := []]> (sent s)) (stuck s) in
  call_ok s' c' -> inv (s', c' :: l).
Proof.
  intros [] Hw Hrd Hb Hf -> Hw' Hrd' s' Hc; cbn [fst snd] in *. unfold fs_create in Hf. destruct (names (fs s) !! _); [done|].
  injection Hf as <- <-.
  assert (forall id', id' <> id -> sent_for s' id' = sent_for s id' /\ born s' !! id' = born s !! id') as Hs2.
  { intros id' Hn. unfold sent_for, s'. cbn [sent born]. by rewrite !lookup_insert_ne. }
  assert (forall id', is_Some (born s !! id') -> id' <> id) as Hne by (intros id' [? E] ->; congruence).
  assert (forall id', id' ∈ all writing l -> id' <> id) as Hwl by (intros id' H; apply Hne, i_writing0; rewrite all_cons, Hw; done).
  assert (forall id', id' ∈ all reading l -> id' <> id) as Hrl by (intros id' H; apply Hne, i_reading0; rewrite all_cons, Hrd; done).
  constructor; cbn [fst snd].
  - intros id' ino' H. destruct (decide (id' = id)) as [->|Hn].
    + unfold sent_for, s' in *. cbn [born sent fs inodes next_inode] in *. rewrite lookup_insert_eq in H. injection H as <-.
      split; [lia|by rewrite !lookup_insert_eq].
    + destruct (Hs2 id' Hn) as [-> E]. rewrite E in H. destruct (i_born0 _ _ H) as [H1 H2]. cbn [fs s' inodes next_inode].
      split; [lia|]. rewrite lookup_insert_ne by lia. done.
  - assert (forall i1 i2, i1 <> id -> born s' !! i1 = Some i2 -> i2 <> next_inode (fs s)) as Hold.
    { intros i1 i2 Hn. destruct (Hs2 i1 Hn) as [_ ->]. intros H. destruct (i_born0 _ _ H). lia. }
    intros i1 i2 ino H1 H2. destruct (decide (i1 = id)) as [->|N1], (decide (i2 = id)) as [->|N2]; [done| | |].
    + destruct (Hold _ _ N2 H2). cbn [s' born] in H1. rewrite lookup_insert_eq in H1. by injection H1.
    + destruct (Hold _ _ N1 H1). cbn [s' born] in H2. rewrite lookup_insert_eq in H2. by injection H2.
    + destruct (Hs2 _ N1) as [_ E1], (Hs2 _ N2) as [_ E2]. rewrite E1 in H1. rewrite E2 in H2. by apply (i_inj0 _ _ ino).
  - intros p ino H. cbn [fs s' names] in H. destruct (decide (p = path_of s id)) as [->|Hn].
    + rewrite lookup_insert_eq in H. exists id. split; [done|]. cbn [born s']. by rewrite lookup_insert_eq.
    + rewrite lookup_insert_ne in H by done. destruct (i_names0 _ _ H) as (id' & -> & E). exists id'. split; [done|].
      by destruct (Hs2 id') as [_ ->]; [apply Hne; eauto|].
  - intros id' e H. pose proof (i_entries0 id' e H) as Hok. destruct (Hs2 id') as [? ?]; [exact (Hne _ (e_born _ _ _ Hok))|].
    by apply (entry_ok_frame s).
  - constructor; [done|]. apply Forall_forall. intros c2 Hc2. apply Forall_cons in i_calls0 as [_ H].
    pose proof (proj1 (Forall_forall _ _) H c2 Hc2) as Hok2. revert Hok2. apply call_ok_frame; [done| |done].
    intros id' Hin. destruct (Hs2 id') as [? ?]; [|done]. apply elem_of_app in Hin as [Hin|Hin].
    + apply Hwl, list_elem_of_bind. eauto.
    + apply Hrl, list_elem_of_bind. eauto.
  - rewrite all_cons, Hw in i_writers0. rewrite all_cons. destruct Hw' as [->| ->]; [done|]. apply NoDup_cons. split; [|done].
    intros Hin. by apply (Hwl _ Hin).
  - intros id' Hin. rewrite all_cons, elem_of_app in Hin. destruct (decide (id' = id)) as [->|Hn].
    + split; [cbn [born s']; rewrite lookup_insert_eq; by eexists|]. intros e H. pose proof (e_born _ _ _ (i_entries0 id e H)) as [? E]. congruence.
    + destruct Hin as [Hin|Hin]; [destruct Hw' as [E|E]; rewrite E in Hin; [by apply elem_of_nil in Hin|by apply list_elem_of_singleton in Hin]|].
      destruct (Hs2 id' Hn) as [_ ->]. apply i_writing0. by rewrite all_cons, Hw.
  - intros id' Hin. rewrite all_cons, Hrd' in Hin. pose proof (Hrl _ Hin) as Hn. destruct (Hs2 id' Hn) as [_ ->].
    destruct (i_reading0 id') as (H1 & H2 & H3); [by rewrite all_cons, Hrd|]. split; [done|]. split; [|done].
    rewrite all_cons, Hw in H2. rewrite all_cons, elem_of_app. intros [Hin2|Hin2]; [|done].
    destruct Hw' as [E|E]; rewrite E in Hin2; [by apply elem_of_nil in Hin2|by apply list_elem_of_singleton in Hin2].
Qed.

(** ** What the critical sections do *)

Lemma begin_spec t t' r : begin t = (t', r) ->
  entries t' = entries t /\ root t' = root t /\ ttl t' = ttl t /\ ownsRoot t' = ownsRoot t /\ closed t' = closed t /\
  active t' = (match r with None => 1 | _ => 0 end + active t)%nat /\ (r = None -> closed t = false).
Proof. unfold begin. intros H. destruct (closed t) eqn:E; injection H as <- <-; rewrite ?E; done. Qed.

Lemma Take_locked_spec t id t' r : Take_locked t id = (t', r) ->
  (exists err, r = Err err /\ t' = t) \/
  exists e, r = Ok e /\ entries t !! id = Some e /\ complete e = true /\ t' = with_entries t (delete id (entries t)).
Proof.
  unfold Take_locked. intros H. destruct (closed t); [injection H as <- <-; eauto|].
  destruct (entries t !! id) as [e|] eqn:E; [|injection H as <- <-; eauto].
  destruct (complete e) eqn:C; cbn [negb] in H; [|injection H as <- <-; eauto].
  destruct (busy e); injection H as <- <-; eauto 6.
Qed.

Lemma UploadStatus_locked_spec now t id t' d : UploadStatus_locked now t id = (t', d) ->
  t' = t \/ exists e, entries t !! id = Some e /\ d = Expire (path e) /\ t' = with_entries t (delete id (entries t)).
Proof.
  unfold UploadStatus_locked. intros H. destruct (closed t); [injection H as <- <-; auto|].
  destruct (entries t !! id) as [e|] eqn:E; [|injection H as <- <-; auto].
  destruct (negb (upload e)); [injection H as <- <-; auto|].
  destruct (negb _); injection H as <- <-; eauto 6.
Qed.

Lemma AppendUpload_locked_spec now t id off t' d : AppendUpload_locked now t id off = (t', d) ->
  (t' = t /\ (forall e, d <> Proceed e) /\ forall p, d <> Expire p) \/
  exists e, entries t !! id = Some e /\ upload e = true /\
    ((d = Expire (path e) /\ t' = with_entries t (delete id (entries t))) \/
     (d = Proceed e /\ busy e = false /\ complete e = false /\ off = offset e /\
      t' = with_entries t (<[id := with_busy e true]> (entries t)))).
Proof.
  unfold AppendUpload_locked. intros H. destruct (closed t); [injection H as <- <-; by left|].
  destruct (entries t !! id) as [e|] eqn:E; [|injection H as <- <-; by left].
  destruct (upload e) eqn:U; cbn [negb] in H; [|injection H as <- <-; by left].
  destruct (negb (Before now _)); [injection H as <- <-; right; exists e; auto 7|].
  destruct (busy e) eqn:B; [injection H as <- <-; by left|].
  destruct (Z.eqb_spec off (offset e)); cbn [negb] in H; [|injection H as <- <-; by left].
  destruct (complete e) eqn:C; injection H as <- <-; [by left|]. right. exists e. split; [done|]. split; [done|]. right. auto.
Qed.

Lemma OpenDownload_locked_spec now t id off t' d : OpenDownload_locked now t id off = (t', d) ->
  (t' = t /\ (forall e, d <> Proceed e) /\ forall p, d <> Expire p) \/
  exists e, entries t !! id = Some e /\ upload e = false /\ complete e = true /\
    ((d = Expire (path e) /\ t' = with_entries t (delete id (entries t))) \/
     (d = Proceed e /\ busy e = false /\ off <= Size (reference e) /\
      t' = with_entries t (<[id := with_busy e true]> (entries t)))).
Proof.
  unfold OpenDownload_locked. intros H. destruct (closed t); [injection H as <- <-; by left|].
  destruct (entries t !! id) as [e|] eqn:E; [|injection H as <- <-; by left].
  destruct (upload e) eqn:U; cbn [orb] in H; [injection H as <- <-; by left|].
  destruct (complete e) eqn:C; cbn [negb] in H; [|injection H as <- <-; by left].
  destruct (negb (Before now _)); [injection H as <- <-; right; exists e; auto 7|].
  destruct (busy e) eqn:B; [injection H as <- <-; by left|].
  destruct (Z.ltb_spec (Size (reference e)) off); injection H as <- <-; [by left|]. right. exists e.
  split; [done|]. split; [done|]. split; [done|]. right. auto.
Qed.

Lemma releaseUpload_locked_spec now t id p off remove t' e' : releaseUpload_locked now t id p off remove = (t', e') ->
  (t' = t /\ (forall e, entries t !! id = Some e -> path e <> p)) \/
  exists e, entries t !! id = Some e /\ path e = p /\
    ((remove = true /\ t' = with_entries t (delete id (entries t))) \/
     (remove = false /\ e' = released_entry now t e off /\ t' = with_entries t (<[id := e']> (entries t)))).
Proof.
  unfold releaseUpload_locked. intros H. destruct (entries t !! id) as [e|] eqn:E; [|injection H as <- <-; by left].
  destruct (String.eqb_spec (path e) p); cbn [negb] in H.
  - right. exists e. split; [done|]. split; [done|]. destruct remove; injection H as <- <-; auto.
  - injection H as <- <-. left. split; [done|]. congruence.
Qed.

Lemma finishDownload_locked_spec t id p consume :
  (finishDownload_locked t id p consume = t /\ forall e, entries t !! id = Some e -> path e <> p) \/
  exists e, entries t !! id = Some e /\ path e = p /\
    ((consume = true /\ finishDownload_locked t id p consume = with_entries t (delete id (entries t))) \/
     (consume = false /\ finishDownload_locked t id p consume = with_entries t (<[id := with_busy e false]> (entries t)))).
Proof.
  unfold finishDownload_locked. destruct (entries t !! id) as [e|] eqn:E; [|by left].
  destruct (String.eqb_spec (path e) p); cbn [negb].
  - right. exists e. split; [done|]. split; [done|]. destruct consume; auto.
  - left. split; [done|]. congruence.
Qed.

Lemma commit_locked_spec t id e t' r : commit_locked t id e = (t', r) ->
  (t' = t /\ exists err, r = Some err) \/ (r = None /\ closed t = false /\ t' = with_entries t (<[id := e]> (entries t))).
Proof. unfold commit_locked. intros H. destruct (closed t); injection H as <- <-; eauto. Qed.

Lemma append_verdict_release e written sync close sum off :
  append_verdict e (offset e) written sync close sum = Release off ->
  off = offset e + written /\ (off = Size (reference e) -> sum = inr (SHA256 (reference e))).
Proof.
  unfold append_verdict. cbn zeta. destruct (_ <? _); [done|]. destruct (errors_Join _); [done|].
  destruct (Z.eqb_spec (offset e + written) (Size (reference e))).
  - destruct sum; [done|]. destruct (String.eqb_spec s (SHA256 (reference e))); [|done]. intros H. injection H as <-. split; [done|congruence].
  - intros H. injection H as <-. done.
Qed.

(** ** Every step keeps the invariant *)

Lemma prune_spec now t t' ps : pruneExpired_locked now t = (t', ps) ->
  root t' = root t /\ entries t' ⊆ entries t.
Proof. unfold pruneExpired_locked. intros H. injection H as <- <-. split; [done|]. apply map_filter_subseteq. Qed.

Lemma sent_for_set t d b m k id x : sent_for (Shared t d b (<[id := x]> m) k) id = x.
Proof. unfold sent_for. cbn [sent]. by rewrite lookup_insert_eq. Qed.

(** The steps that set no entry and write no file. *)
Ltac shrink_by Hi := apply (inv_shrink _ _ _ _ _ Hi); cbn [on_store on_files st fs born sent names inodes next_inode fs_remove root entries with_entries with_active activeDone];
  first [reflexivity | by left | by right | done | apply delete_subseteq | apply map_empty_subseteq
        | (intros ? ?%elem_of_nil; done) | (intros ? ?; by left) | idtac].

Definition is_make (c : call) : bool :=
  match c with
  | Making _ | Pruning _ | Creating _ | StageCopying _ _ _ _ _ _ | StageCommitting _ _ | BeginCommitting _ | GettingStatus _ => true
  | _ => false
  end.
Definition is_append (c : call) : bool :=
  match c with
  | Appending _ _ | AppendOpening _ | AppendCopying _ _ _ | AppendCopied _ _ _ | AppendReleasing _ _ _ _ _ => true
  | _ => false
  end.

Lemma stage_outcome_ok now sys t id p name mt w err r : stage_outcome sha256 now sys t id p name mt w err = Ok r ->
  ID r = id /\ verified w r.
Proof.
  unfold stage_outcome. destruct err; [done|]. destruct (_ <? _); [done|]. destruct (sync_fault sys); [done|].
  destruct (close_fault sys); [done|]. intros H. injection H as <-. done.
Qed.

Lemma own_fresh s c l id : inv (s, c :: l) -> id ∈ writing c -> (id ∉ all writing l) /\ id ∉ all reading (c :: l).
Proof.
  intros [] Hin; cbn [fst snd] in *. split.
  - rewrite all_cons in i_writers0. apply NoDup_app in i_writers0 as (_ & N & _). by apply N.
  - intros Hr. apply (i_reading0 id Hr). rewrite all_cons, elem_of_app. by left.
Qed.

Lemma make_step_inv s c s' c' l : is_make c = true ->
  call_step sha256 normalizeMediaType s c s' c' -> inv (s, c :: l) -> inv (s', c' :: l).
Proof.
  intros Hk Hs Hi. destruct Hs; try done.
  - shrink_by Hi.
  - destruct (begin_spec _ _ _ H0) as (He & Hr & _). destruct r; shrink_by Hi; by rewrite ?He, ?Hr.
  - destruct (prune_spec _ _ _ _ H) as [Hr He]. shrink_by Hi; done.
  - shrink_by Hi.
  - apply createFile_ok in H as [-> Hf]. unfold made. destruct m as [name mt|name mt size checksum].
    + apply (inv_create _ _ _ _ id ino (Join (root (st s)) id) d Hi); try done; [by right|].
      cbn [call_ok born]. by rewrite sent_for_set, lookup_insert_eq.
    + destruct cf; [apply (inv_create _ _ _ _ id ino (Join (root (st s)) id) d Hi); try done; by left|].
      destruct (complete _ && _) eqn:Hc; [apply (inv_create _ _ _ _ id ino (Join (root (st s)) id) d Hi); try done; by left|].
      apply (inv_create _ _ _ _ id ino (Join (root (st s)) id) d Hi); try done; [by right|].
      cbn [call_ok upload_entry reference path ID upload offset complete Size busy] in *. rewrite sent_for_set. repeat (split; [done|]). split; [|done]. intros E. rewrite E in Hc. cbn in Hc.
      apply Z.eqb_eq in E. destruct (String.eqb_spec checksum emptyFileSHA256); [|done]. split; cbn; [lia|]. by subst checksum.
  - pose proof (i_calls _ Hi) as Hc. apply Forall_cons in Hc as [(Hb & Hw & Hp) _]. cbn [fst] in *.
    assert (length w = length (sent_for s id)) as Hl by (by rewrite Hw).
    destruct stop as [err|].
    + destruct (stage_outcome _ _ _ _ _ _ _ _ _ err) as [r|e|m] eqn:Ho.
      * destruct (stage_outcome_ok _ _ _ _ _ _ _ _ _ _ Ho) as [Hid Hv].
        apply (inv_write _ _ _ _ id ino _ _ Hi); try done; [by right; cbn; rewrite Hid|]. cbn [call_ok]. split; [by rewrite Hid|].
        by rewrite Hid, sent_for_set, Hw.
      * apply (inv_write _ _ _ _ id ino _ _ Hi); try done. by left.
      * apply (inv_write _ _ _ _ id ino _ _ Hi); try done. by left.
    + apply (inv_write _ _ _ _ id ino _ _ Hi); try done; [by right|]. cbn [call_ok]. split; [done|].
      by rewrite sent_for_set, Hw.
  - pose proof (i_calls _ Hi) as Hc. apply Forall_cons in Hc as [(Hp & Hv) _]. cbn [fst] in *.
    destruct (own_fresh _ _ _ (ID r) Hi) as [Hnw Hnr]; [left|]. destruct (i_writing _ Hi (ID r)) as [Hb _]; [cbn; left|].
    destruct (commit_locked_spec _ _ _ _ _ H) as [[-> [err ->]]|(-> & _ & ->)]; [shrink_by Hi|].
    apply (inv_update _ _ _ _ (ID r) (staged_entry r p) _ Hi); try done; [by left|intros ? ?; by left].
  - pose proof (i_calls _ Hi) as Hc. apply Forall_cons in Hc as [(Hp & Hw & U & O & C & V & B) _]. cbn [fst] in *.
    destruct (own_fresh _ _ _ (ID (reference e)) Hi) as [Hnw Hnr]; [left|].
    destruct (i_writing _ Hi (ID (reference e))) as [Hb _]; [cbn; left|].
    destruct (commit_locked_spec _ _ _ _ _ H) as [[-> [err ->]]|(-> & _ & ->)]; [shrink_by Hi|].
    apply (inv_update _ _ _ _ (ID (reference e)) e _ Hi); try done; [|by left|intros ? ?; by left].
    constructor; rewrite ?Hw; try done. intros _ _. rewrite O, C. split; [done|]. apply Z.eqb_sym.
  - shrink_by Hi.
  - destruct (UploadStatus_locked_spec _ _ _ _ _ H0) as [->|(e & He & -> & ->)]; [destruct d|]; shrink_by Hi.
Qed.

Lemma append_found s e w e' : append_ok s e w -> entries (st s) !! ID (reference e) = Some e' -> e' = with_busy e true.
Proof. intros (_ & _ & _ & _ & _ & _ & H). apply H. Qed.

Lemma release_step_inv s e off remove err ws now t e' l :
  releaseUpload_locked now (st s) (ID (reference e)) (path e) off remove = (t, e') ->
  inv (s, AppendReleasing e off remove err ws :: l) ->
  let o := Appended (if ws then uploadStatus e' else zero_status) err in
  inv (on_store s t, (if remove then Removing [path e] (ThenLeave o) else Leaving o) :: l).
Proof.
  intros H Hi o. pose proof (i_calls _ Hi) as Hc. apply Forall_cons in Hc as [(w & Ha & Hrel) _]. cbn [fst] in *.
  destruct (own_fresh _ _ _ (ID (reference e)) Hi) as [Hnw Hnr]; [left|].
  destruct (i_writing _ Hi (ID (reference e))) as [Hb _]; [cbn; left|]. cbn [fst] in Hb.
  destruct (releaseUpload_locked_spec _ _ _ _ _ _ _ _ H) as [[-> _]|(e0 & He & Hp & [[-> ->]|(-> & -> & ->)])].
  - destruct remove; shrink_by Hi.
  - shrink_by Hi.
  - pose proof (append_found _ _ _ _ Ha He) as ->. destruct (Hrel eq_refl) as [-> Hv]. clear Hrel.
    destruct Ha as (U & C & P & L & O & N & _).
    apply (inv_update _ _ _ _ (ID (reference e)) (released_entry now (st s) (with_busy e true) (offset e + Z.of_nat (length w))) _ Hi);
      try done; [|by left|intros ? ?; by left].
    constructor; try done; cbn [released_entry with_busy reference with_expiry complete Size upload offset].
    intros Ec%Z.eqb_eq. by apply Hv.
Qed.

Lemma append_step_inv s c s' c' l : is_append c = true ->
  call_step sha256 normalizeMediaType s c s' c' -> inv (s, c :: l) -> inv (s', c' :: l).
Proof.
  intros Hk Hs Hi. destruct Hs; try done.
  - shrink_by Hi.
  - destruct (begin_spec _ _ _ H) as (He & Hr & _). shrink_by Hi; by rewrite ?He, ?Hr.
  - destruct (begin_spec _ _ _ H0) as (He & Hr & _).
    destruct (AppendUpload_locked_spec _ _ _ _ _ _ H1) as [(-> & Hd & Hx)|(e & Hl & U & [[-> ->]|(-> & B & C & -> & ->)])].
    + destruct d as [a er|p|e|a]; [|by destruct (Hx p)|by destruct (Hd e)|]; shrink_by Hi; by rewrite ?He, ?Hr.
    + shrink_by Hi; rewrite ?He, ?Hr; try done. apply delete_subseteq.
    + rewrite He in Hl. pose proof (i_entries _ Hi _ _ Hl) as Hok. destruct (e_id _ _ _ Hok).
      assert (Hin : ID (reference e) ∉ all writing (Appending (ID (reference e)) (offset e) :: l)).
      { intros Hin. destruct (i_writing _ Hi _ Hin) as [_ Hx]. destruct (Hx e Hl) as (_ & ? & _). congruence. }
      assert (Hrd : ID (reference e) ∉ all reading (Appending (ID (reference e)) (offset e) :: l)).
      { intros Hrd. destruct (i_reading _ Hi _ Hrd) as (_ & _ & Hx). pose proof (Hx e Hl). congruence. }
      destruct (e_upload _ _ _ Hok U (or_introl B)) as [Hlen Hcomp]. cbn [fst] in *.
      apply (inv_update _ _ _ _ (ID (reference e)) (with_busy e true) _ Hi); try done; cbn [with_entries entries root decided]; rewrite ?He; try done.
      * destruct Hok. constructor; try done; cbn [with_busy busy complete]; rewrite C; intros _ [?|?]; done.
      * right. cbn. by rewrite U, C.
      * intros ? ?; by left.
      * intros ? Hx%elem_of_nil; done.
      * cbn [call_ok append_ok]. split; [done|]. split; [done|]. split; [unfold path_of; cbn; rewrite Hr; apply (e_path _ _ _ Hok)|].
        cbn [length]. split; [rewrite Z.add_0_r; exact Hlen|]. split; [lia|]. split; [intros E; rewrite C in Hcomp; symmetry in Hcomp; apply Z.eqb_neq in Hcomp; done|].
        intros e'. cbn [on_store st with_entries entries]. rewrite ?He, lookup_insert_eq. congruence.
  - pose proof (i_calls _ Hi) as Hc. apply Forall_cons in Hc as [Ha _]. cbn [fst] in *.
    shrink_by Hi. exists []. split; [done|]. intros _. cbn. split; [lia|]. intros E. by destruct Ha as (_ & _ & _ & _ & _ & N & _).
  - pose proof (i_calls _ Hi) as Hc. apply Forall_cons in Hc as [Ha _]. cbn [fst] in *. destruct (i_names _ Hi _ _ H) as (id & Hp & Hb).
    assert (ID (reference e) = id) as <-.
    { destruct Ha as (_ & _ & P & _). cbn [fst] in *. rewrite P in Hp. by apply Join_inj in Hp. }
    shrink_by Hi.
  - pose proof (i_calls _ Hi) as Hc. apply Forall_cons in Hc as [[Ha Hb] _]. cbn [fst] in *.
    assert (Hl : (Z.to_nat (offset e) + length w)%nat = length (sent_for s (ID (reference e)))) by (destruct Ha as (_ & _ & _ & L & O & _); lia).
    assert (Hn : append_ok (Shared (st s) (fs_write (fs s) ino (Z.to_nat (offset e) + length w) bs) (born s)
         (<[ID (reference e) := sent_for s (ID (reference e)) ++ bs]> (sent s)) (stuck s)) e (w ++ bs)).
    { destruct Ha as (U & C & P & L & O & N & E). repeat split; try done. rewrite sent_for_set, !length_app. lia. }
    apply (inv_write _ _ _ _ (ID (reference e)) ino _ _ Hi); try done; destruct stop; try done; by right.
  - pose proof (i_calls _ Hi) as Hc. apply Forall_cons in Hc as [Ha _]. cbn [fst] in *.
    destruct (append_verdict _ _ _ _ _ _) as [err|off] eqn:Hv; shrink_by Hi; exists w; split; try done.
    intros _. destruct (append_verdict_release _ _ _ _ _ _ Hv) as [-> Hsum]. split; [done|]. intros E.
    specialize (Hsum E). split; [destruct Ha as (_ & _ & _ & L & _); lia|].
    unfold fileSHA256, os_open in Hsum. destruct f1; [done|]. destruct (fs_open (fs s) (path e)) as [ino|] eqn:Ho; [|done].
    destruct f2; [done|]. destruct (i_names _ Hi _ _ Ho) as (id & Hp & Hb). cbn [fst] in *.
    assert (ID (reference e) = id) as <- by (destruct Ha as (_ & _ & P & _); rewrite P in Hp; by apply Join_inj in Hp).
    destruct (i_born _ Hi _ _ Hb) as [_ Hino]. cbn [fst] in Hino. unfold contents in Hsum. rewrite Hino in Hsum. by injection Hsum.
  - by eapply release_step_inv.
Qed.

Definition is_reader (c : call) : bool :=
  match c with
  | Taking _ | TakeOpening _ | Opening _ _ | OpenOpening _ _ | OpenGivingUp _ _ | Reading _ | Finishing _ => true
  | _ => false
  end.

(** A call that reads a file marks its entry free again. *)
Lemma free_entry_inv s c l o id p :
  inv (s, c :: l) -> writing c = [] -> id ∈ reading c ->
  inv (on_store s (finishDownload_locked (st s) id p false), Leaving o :: l).
Proof.
  intros Hi Hw Hrd. destruct (i_reading _ Hi id) as (Hb & Hnw & Hx); [cbn [snd]; rewrite all_cons, elem_of_app; by left|]. cbn [fst snd] in *.
  rewrite all_cons, Hw in Hnw.
  destruct (finishDownload_locked_spec (st s) id p false) as [[-> _]|(e & He & Hp & [[? _]|[_ ->]])]; [|done|].
  - shrink_by Hi.
  - pose proof (i_entries _ Hi _ _ He) as Hok. cbn [fst] in Hok. pose proof (Hx e He) as Hc.
    apply (inv_update _ _ _ _ id (with_busy e false) _ Hi); try done; [|by left|intros ? Hx'%elem_of_nil; done].
    destruct Hok. constructor; try done. intros U _. by apply e_upload0; [|right].
Qed.

Lemma finish_step_inv s dl l :
  inv (s, Finishing dl :: l) ->
  inv (on_store s (if dl_store dl then finishDownload_locked (st s) (dl_id dl) (dl_path dl) (dl_consume dl) else st s),
    (if dl_consume dl then Removing [dl_path dl] (ThenLeave DownloadClosed) else Leaving DownloadClosed) :: l).
Proof.
  intros Hi. pose proof (i_calls _ Hi) as Hc. apply Forall_cons in Hc as [(Hb & Hv & _ & Hid) _]. cbn [fst] in *.
  destruct (dl_store dl) eqn:Es.
  - specialize (Hid eq_refl). destruct (dl_consume dl) eqn:Ec.
    + destruct (finishDownload_locked_spec (st s) (dl_id dl) (dl_path dl) true) as [[-> _]|(e & He & Hp & [[_ ->]|[? _]])]; [| |done]; shrink_by Hi.
    + apply (free_entry_inv _ _ _ _ _ _ Hi); [done|]. rewrite Hid. left.
  - destruct (dl_consume dl); shrink_by Hi.
Qed.

Lemma reader_step_inv s c s' c' l : is_reader c = true ->
  call_step sha256 normalizeMediaType s c s' c' -> inv (s, c :: l) -> inv (s', c' :: l).
Proof.
  intros Hk Hs Hi. destruct Hs; try done.
  - shrink_by Hi.
  - destruct (begin_spec _ _ _ H) as (He & Hr & _). shrink_by Hi; by rewrite ?He, ?Hr.
  - destruct (begin_spec _ _ _ H) as (He & Hr & _). destruct (Take_locked_spec _ _ _ _ H0) as [(? & _ & ->)|(? & ? & _)]; [|done].
    shrink_by Hi; by rewrite ?He, ?Hr.
  - destruct (begin_spec _ _ _ H0) as (He & Hr & _). destruct (Take_locked_spec _ _ _ _ H1) as [(? & ? & _)|(e0 & E & Hl & Hc & ->)]; [done|].
    injection E as <-. rewrite He in Hl. pose proof (i_entries _ Hi _ _ Hl) as Hok. destruct (e_id _ _ _ Hok).
    shrink_by Hi; rewrite ?He, ?Hr; try done; [apply delete_subseteq| |].
    + intros id ->%list_elem_of_singleton. right. split; [apply not_elem_of_nil|]. eauto.
    + split; [unfold path_of; cbn; rewrite Hr; apply (e_path _ _ _ Hok)|]. by apply (e_complete _ _ _ Hok).
  - shrink_by Hi.
  - shrink_by Hi.
  - pose proof (i_calls _ Hi) as Hc. apply Forall_cons in Hc as [(Hp & Hv) _]. cbn [fst] in *.
    destruct (i_names _ Hi _ _ H0) as (id & Hp' & Hb). cbn [fst] in *. rewrite Hp in Hp'. apply Join_inj in Hp' as <-. shrink_by Hi.
  - shrink_by Hi.
  - destruct (begin_spec _ _ _ H) as (He & Hr & _). shrink_by Hi; by rewrite ?He, ?Hr.
  - destruct (begin_spec _ _ _ H0) as (He & Hr & _).
    destruct (OpenDownload_locked_spec _ _ _ _ _ _ H1) as [(-> & Hd & Hx)|(e & Hl & U & C & [[-> ->]|(-> & B & Ho & ->)])].
    + destruct d as [a er|p|e|a]; [|by destruct (Hx p)|by destruct (Hd e)|]; shrink_by Hi; by rewrite ?He, ?Hr.
    + shrink_by Hi; rewrite ?He, ?Hr; try done. apply delete_subseteq.
    + rewrite He in Hl. pose proof (i_entries _ Hi _ _ Hl) as Hok. destruct (e_id _ _ _ Hok).
      assert (Hin : ID (reference e) ∉ all writing (Opening (ID (reference e)) off :: l)).
      { intros Hin. destruct (i_writing _ Hi _ Hin) as [_ Hx]. destruct (Hx e Hl) as (? & _ & _). congruence. }
      apply (inv_update _ _ _ _ (ID (reference e)) (with_busy e true) _ Hi); try done; cbn [with_entries entries root decided]; rewrite ?He; try done.
      * destruct Hok. constructor; try done. cbn [with_busy upload]. by rewrite U.
      * by left.
      * intros id ->%list_elem_of_singleton. by right.
      * cbn [call_ok]. split; [unfold path_of; cbn; rewrite Hr; apply (e_path _ _ _ Hok)|]. apply orb_false_iff in H as [_ ?%Z.ltb_ge].
        split; [by apply (e_complete _ _ _ Hok)|done].
  - pose proof (i_calls _ Hi) as Hc. apply Forall_cons in Hc as [(Hp & Hv & _) _]. cbn [fst] in *. shrink_by Hi.
  - apply (free_entry_inv _ _ _ _ _ _ Hi); [done|]. left.
  - pose proof (i_calls _ Hi) as Hc. apply Forall_cons in Hc as [(Hp & Hv & Hq) _]. cbn [fst] in *.
    destruct (i_names _ Hi _ _ H) as (id & Hp' & Hb). cbn [fst] in *. rewrite Hp in Hp'. apply Join_inj in Hp' as <-. shrink_by Hi.
  - pose proof (i_calls _ Hi) as Hc. apply Forall_cons in Hc as [(Hb & Hv & Hq & Hid) _]. cbn [fst] in *. shrink_by Hi.
    cbn [call_ok dl_reference dl_inode dl_position dl_store dl_id]. repeat (split; [done|]). split; [lia|done].
  - pose proof (i_calls _ Hi) as Hc. apply Forall_cons in Hc as [Hc _]. cbn [fst] in *. shrink_by Hi.
  - pose proof (i_calls _ Hi) as Hc. apply Forall_cons in Hc as [Hc _]. cbn [fst] in *. shrink_by Hi.
  - by apply finish_step_inv.
Qed.

Lemma rest_step_inv s c s' c' l : is_make c = false -> is_append c = false -> is_reader c = false ->
  call_step sha256 normalizeMediaType s c s' c' -> inv (s, c :: l) -> inv (s', c' :: l).
Proof.
  intros Hm Ha Hr Hs Hi. destruct Hs; try done.
  - unfold discard_locked in H. destruct (entries (st s) !! id); injection H as <- <-; shrink_by Hi.
  - shrink_by Hi.
  - shrink_by Hi.
  - destruct k; shrink_by Hi.
  - shrink_by Hi.
  - unfold Close_locked in H. destruct (closed (st s)); injection H as <- <-; shrink_by Hi.
  - unfold Close_collect in H0. injection H0 as <- <-. shrink_by Hi.
  - shrink_by Hi.
  - shrink_by Hi.
  - shrink_by Hi.
  - shrink_by Hi.
Qed.

Lemma transfer_step_inv x x' : step sha256 normalizeMediaType x x' -> inv x -> inv x'.
Proof.
  intros [s l c Hc|s l1 c l2 s' c' Hs] Hi.
  - apply (transfer_inv_permutation _ (c :: l)); [by rewrite Permutation_app_comm|].
    destruct Hi; constructor; cbn [fst snd] in *; rewrite ?all_cons; try done; [by constructor; [destruct c|]| | |]; by destruct c.
  - apply (transfer_inv_permutation _ (c' :: l1 ++ l2)); [by rewrite Permutation_middle|].
    apply (transfer_inv_permutation _ _ (c :: l1 ++ l2)) in Hi; [|by rewrite Permutation_middle].
    destruct (is_make c) eqn:Hm; [by eapply make_step_inv|].
    destruct (is_append c) eqn:Ha; [by eapply append_step_inv|].
    destruct (is_reader c) eqn:Hr; [by eapply reader_step_inv|by eapply rest_step_inv].
Qed.

Lemma initially_inv t : entries t = ∅ -> inv (initially t, []).
Proof.
  intros E. constructor; cbn; try done.
  - intros id e. by rewrite E.
  - constructor.
  - intros id H. by apply elem_of_nil in H.
  - intros id H. by apply elem_of_nil in H.
Qed.

Lemma transfer_reachable_inv t x : entries t = ∅ -> reachable sha256 normalizeMediaType t x -> inv x.
Proof.
  intros E Hr. pose proof (initially_inv t E) as Hi. unfold reachable in Hr. revert Hi.
  induction Hr as [|x1 x2 x3 Hs _ IH]; [done|]. intros Hi. apply IH. by eapply transfer_step_inv.
Qed.

(** C14. Whatever uploads, appends, downloads, expirations and [Close] do and in
    whatever order, a download that is open reads exactly the bytes the sources
    sent for its identifier, from its position on; and those have the size and
    the SHA-256 digest that its reference announces. *)
Theorem download_reads_what_was_sent directory o t s l dl :
  NewFileTransferStore directory o = Ok t -> reachable sha256 normalizeMediaType t (s, l) -> Reading dl ∈ l ->
  let bytes := sent_for s (ID (dl_reference dl)) in
  download_bytes (fs s) dl = drop (Z.to_nat (dl_position dl)) bytes /\
  Z.of_nat (length bytes) = Size (dl_reference dl) /\ sha256 bytes = SHA256 (dl_reference dl).
Proof.
  intros Hn Hr Hin bytes. assert (entries t = ∅) as He.
  { unfold NewFileTransferStore in Hn. destruct (_ || _); [done|]. destruct directory; try done. by injection Hn as <-. }
  pose proof (transfer_reachable_inv _ _ He Hr) as Hi.
  pose proof (proj1 (Forall_forall _ _) (i_calls _ Hi) _ Hin) as (Hb & Hv & Hp & _). cbn [fst] in *.
  destruct (i_born _ Hi _ _ Hb) as [_ Hino]. cbn [fst] in Hino.
  split; [|exact Hv]. unfold download_bytes, contents. by rewrite Hino.
Qed.

(** Two calls never write the same file, and none writes one that is read. *)
Lemma one_writer t x : entries t = ∅ -> reachable sha256 normalizeMediaType t x ->
  NoDup (all writing x.2) /\ forall id, id ∈ all reading x.2 -> id ∉ all writing x.2.
Proof.
  intros He Hr. pose proof (transfer_reachable_inv _ _ He Hr) as Hi. split; [apply (i_writers _ Hi)|].
  intros id Hin. apply (i_reading _ Hi id Hin).
Qed.
End Facts.

(** ** A run: an upload of two chunks, taken *)
Module Sample.
Import Toy.
Definition options := MkFileTransferOptions "/files" 100 10 false.
Definition empty_store := MkFileTransferStore "/files" false 100 10 false 0 ∅ false.
Definition file : string := Join "/files" id.
Definition checksum : string := hex_encode (repeat 6 32).
Definition ref (expires : Z) := MkFileReference id "a.txt" "text/plain" 3 checksum expires "".
Definition entry (expires off : Z) (done_ busy_ : bool) := MkTransferEntry (ref expires) file off true done_ busy_.
Definition disk (bs : list Z) := FS {[file := 0%nat]} {[0%nat := bs]} 1.
Definition st_with (act : nat) (m : gmap string fileTransferEntry) := MkFileTransferStore "/files" false 100 10 false act m false.
Definition state (act : nat) (m : gmap string fileTransferEntry) (bs : list Z) :=
  Shared (st_with act m) (disk bs) {[id := 0%nat]} {[id := bs]} [].
Definition taken := taken_download (entry 101 3 true false) 0.

Abbreviation run := (rtc (step digest media)).
Lemma moves s c s' c' l x : call_step digest media s c s' c' -> run (s', l ++ [c']) x -> run (s, l ++ [c]) x.
Proof. intros H. apply rtc_l. exact (call_moves _ _ s l c [] s' c' H). Qed.
Lemma made_call s c l x : starts c -> run (s, l ++ [c]) x -> run (s, l) x.
Proof. intros H. apply rtc_l. by constructor. Qed.
Lemma run_trans x y z : run x y -> run y z -> run x z.
Proof. apply rtc_trans. Qed.

Lemma begins : exists l, run (initially empty_store, []) (state 0 {[id := entry 101 0 false false]} [], l).
Proof.
  eexists. apply (made_call _ (Making (MBegin "a.txt" "text/plain" 3 checksum)) [] _ I).
  eapply moves; [eapply make_begun; vm_compute; reflexivity|].
  eapply moves; [apply (make_pruned _ _ _ _ 0 (st_with 1 ∅) [] []); [vm_compute; reflexivity|constructor]|].
  eapply moves; [apply all_removed|].
  eapply moves; [apply (make_created _ _ _ _ (fun _ => Ok random) (fun _ => None) id file 0 (disk []) 1 None); vm_compute; reflexivity|].
  eapply moves; [eapply (begin_commit _ _ _ (entry 101 0 false false)); reflexivity|].
  eapply moves; [apply left_|]. apply rtc_refl.
Qed.

Lemma moves_to s c s1 c1 s' c' l x : call_step digest media s c s1 c1 -> s1 = s' -> c1 = c' ->
  run (s', l ++ [c']) x -> run (s, l ++ [c]) x.
Proof. intros H <- <-. by apply moves. Qed.
Ltac go s' c' lem := eapply (moves_to _ _ _ _ s' c'); [apply lem; vm_compute; reflexivity|vm_compute; reflexivity|vm_compute; reflexivity|].

(** One append of one chunk, at time 1, to what was sent before. *)
Ltac append_chunk old bs :=
  let off := constr:(Z.of_nat (length old)) in
  let n := constr:(Z.of_nat (length (old ++ bs))) in
  let e := constr:(entry 101 off false false) in
  let e' := constr:(entry 101 n (n =? 3) false) in
  let s := constr:(state 1 {[id := entry 101 off false true]}) in
  match goal with |- run (_, ?l) _ => apply (made_call _ (Appending id off) l _ I) end;
  go (s old) (AppendOpening e)
    (append_locked digest media (state 0 {[id := e]} old) id off (st_with 1 {[id := e]}) 1 (st_with 1 {[id := entry 101 off false true]}) (Proceed e));
  go (s old) (AppendCopying e 0%nat []) (append_opened digest media (s old) e 0%nat);
  go (s (old ++ bs)) (AppendCopying e 0%nat bs) (append_turn digest media (s old) e 0%nat [] (plain_turn bs) bs None);
  go (s (old ++ bs)) (AppendCopied e bs None)
    (append_turn digest media (s (old ++ bs)) e 0%nat bs (MkTurn None [] (Some io_EOF) None None) [] (Some None));
  go (s (old ++ bs)) (AppendReleasing e n false None true) (append_judged digest media (s (old ++ bs)) e bs None None None None None);
  go (state 1 {[id := e']} (old ++ bs)) (Leaving (Appended (uploadStatus e') None))
    (append_released digest media (s (old ++ bs)) e n false None true 1 (st_with 1 {[id := e']}) e');
  go (state 0 {[id := e']} (old ++ bs)) (Returned (Appended (uploadStatus e') None))
    (left_ digest media (state 1 {[id := e']} (old ++ bs)) (Appended (uploadStatus e') None)).

Lemma reads : exists l, reachable digest media empty_store (state 1 ∅ [1; 2; 3], l ++ [Reading taken]).
Proof.
  destruct begins as [l H]. eexists. unfold reachable. eapply run_trans; [exact H|]. clear H.
  append_chunk (@nil Z) [1; 2].
  append_chunk [1; 2] [3].
  match goal with |- run (_, ?l) _ => apply (made_call _ (Taking id) l _ I) end.
  go (state 1 ∅ [1; 2; 3]) (TakeOpening (entry 101 3 true false))
    (take_locked digest media (state 0 {[id := entry 101 3 true false]} [1; 2; 3]) id (st_with 1 {[id := entry 101 3 true false]}) (st_with 1 ∅)
       (entry 101 3 true false)).
  go (state 1 ∅ [1; 2; 3]) (Reading taken) (take_opened digest media (state 1 ∅ [1; 2; 3]) (entry 101 3 true false) 1 0%nat).
  apply rtc_refl.
Qed.
End Sample.

Import Toy Sample.
Lemma download_reads_what_was_sent_witness :
  exists s l, reachable digest media empty_store (s, l ++ [Reading taken]) /\ download_bytes (fs s) taken = [1; 2; 3] /\
    digest [1; 2; 3] = SHA256 (dl_reference taken).
Proof.
  destruct reads as [l H]. exists (state 1 ∅ [1; 2; 3]), l. split; [exact H|].
  destruct (download_reads_what_was_sent digest media eq_refl (Ok "/files") options empty_store _ _ taken eq_refl H) as (Hb & _ & Hd).
  { apply elem_of_app. right. left. }
  split; [rewrite Hb; vm_compute; reflexivity|exact Hd].
Defined.
