(* ===== verification/FileTransferClose.v ===== *)
(** * No file of the transfer store is lost sight of

    Every file there is belongs to an entry, to a call at work, or could not be
    removed; after [Close] only calls that are about to remove one are left. *)
From S2P Require Import Prelude GoTime GoStrings Json FileTransfer FileTransferUploads FileTransferCalls FileTransferFacts.
Open Scope Z_scope.
Open Scope go_scope.

#[local] Abbreviation all f l := (l ≫= f).
#[local] Abbreviation total f l := (sum_list_with f l).

(** The files a call will remove, or make an entry of. *)
Definition owning (c : call) : list string :=
  match c with
  | StageCopying _ p _ _ _ _ | StageCommitting _ p => [p]
  | BeginCommitting e | TakeOpening e => [path e]
  | AppendReleasing e _ true _ _ => [path e]
  | Reading dl | Finishing dl => if dl_consume dl then [dl_path dl] else []
  | Removing ps _ | ClosingRemoving ps => ps
  | _ => []
  end.
(** The calls that [active] counts, those that close the store and those past
    [active.Wait()]. *)
Definition counted (c : call) : nat :=
  match c with
  | Pruning _ | Creating _ | StageCopying _ _ _ _ _ _ | StageCommitting _ _ | BeginCommitting _
  | AppendOpening _ | AppendCopying _ _ _ | AppendCopied _ _ _ | AppendReleasing _ _ _ _ _
  | TakeOpening _ | OpenOpening _ _ | OpenGivingUp _ _ | Reading _ | Finishing _ | Leaving _
  | Removing _ (ThenMake _) | Removing _ (ThenLeave _) => 1
  | _ => 0
  end.
Definition closing (c : call) : nat := match c with ClosingWait | ClosingRemoving _ | ClosedStore => 1 | _ => 0 end.
Definition drained (c : call) : nat := match c with ClosingRemoving _ | ClosedStore => 1 | _ => 0 end.
Definition has_file (s : shared) (p : string) : Prop := is_Some (names (fs s) !! p).
Definition has_entry (s : shared) (p : string) : Prop := exists id e, entries (st s) !! id = Some e /\ path e = p.

Record kept (x : shared * list call) : Prop := Kept {
  k_owned : forall p, has_file x.1 p -> has_entry x.1 p \/ p ∈ all owning x.2 \/ p ∈ stuck x.1;
  k_active : active (st x.1) = total counted x.2;
  k_closed : total closing x.2 = if closed (st x.1) then 1%nat else 0%nat;
  k_drained : total drained x.2 = 0%nat \/ active (st x.1) = 0%nat /\ entries (st x.1) = ∅
}.

Lemma kept_permutation s l l' : l ≡ₚ l' -> kept (s, l) -> kept (s, l').
Proof.
  intros E []; cbn [fst snd] in *. assert (forall f, total f l' = total f l) as Ht.
  { intros f. clear -E. induction E; cbn [sum_list_with]; lia. }
  constructor; cbn [fst snd]; rewrite ?Ht; try done. intros p. rewrite <- E. apply k_owned0.
Qed.

(** A step of [c] to [c'] keeps track when what it drops it owned or owns. *)
Lemma kept_step s c s' c' l :
  kept (s, c :: l) ->
  (forall p, has_file s' p -> has_file s p \/ p ∈ owning c') ->
  (forall p, has_entry s p -> has_entry s' p \/ p ∈ owning c' \/ ~ has_file s' p) ->
  (forall p, p ∈ owning c -> has_entry s' p \/ p ∈ owning c' \/ p ∈ stuck s' \/ ~ has_file s' p) ->
  (forall p, p ∈ stuck s -> p ∈ stuck s') ->
  (active (st s') + counted c = active (st s) + counted c')%nat ->
  ((if closed (st s') then 1 else 0) + closing c = (if closed (st s) then 1 else 0) + closing c')%nat ->
  (total drained (c' :: l) = 0 \/ active (st s') = 0 /\ entries (st s') = ∅)%nat ->
  kept (s', c' :: l).
Proof.
  intros [] Hf He Ho Hs Ha Hc Hd; cbn [fst snd sum_list_with] in *. constructor; cbn [fst snd sum_list_with]; [|lia|lia|done].
  intros p Hp. cbn [mbind list_bind]. rewrite elem_of_app. destruct (Hf p Hp) as [H|H]; [|by right; left; left].
  destruct (k_owned0 p H) as [H1|[H1|H1]].
  - destruct (He p H1) as [?|[?|?]]; [by left|by right; left; left|done].
  - cbn [mbind list_bind] in H1. apply elem_of_app in H1 as [H1|H1]; [|by right; left; right].
    destruct (Ho p H1) as [?|[?|[?|?]]]; [by left|by right; left; left|by right; right|done].
  - right. right. by apply Hs.
Qed.

Lemma drained_closing l : (total drained l <= total closing l)%nat.
Proof. induction l as [|c l IH]; [done|]. cbn [sum_list_with]. enough (drained c <= closing c)%nat by lia. destruct c; cbn; lia. Qed.
Lemma open_undrained s l : kept (s, l) -> closed (st s) = false -> total drained l = 0%nat.
Proof. intros [] H. cbn [fst snd] in *. rewrite H in k_closed0. pose proof (drained_closing l). lia. Qed.
Lemma counted_undrained s c l : kept (s, c :: l) -> counted c = 1%nat -> total drained (c :: l) = 0%nat.
Proof. intros [] H. cbn [fst snd sum_list_with] in *. destruct k_drained0 as [|[? _]]; lia. Qed.

Lemma begin_refused t t' e : begin t = (t', Some e) -> t' = t.
Proof. unfold begin. destruct (closed t); [by intros H; injection H|done]. Qed.
Lemma begin_begun t t' : begin t = (t', None) -> closed t = false /\ t' = with_active t (S (active t)).
Proof. unfold begin. destruct (closed t); [done|]. intros H. by injection H as <-. Qed.

Lemma has_entry_delete s t id e p : entries (st s) !! id = Some e -> entries t = delete id (entries (st s)) ->
  has_entry s p -> has_entry (on_store s t) p \/ p = path e.
Proof.
  intros He Ht (id' & e' & He' & <-). destruct (decide (id' = id)) as [->|]; [right; congruence|].
  left. exists id', e'. cbn. by rewrite Ht, lookup_delete_ne.
Qed.
Lemma has_entry_insert s t id e p : (forall e0, entries (st s) !! id = Some e0 -> path e0 = path e) ->
  entries t = <[id := e]> (entries (st s)) -> has_entry s p \/ p = path e -> has_entry (on_store s t) p.
Proof.
  intros He Ht [(id' & e' & He' & <-)| ->].
  - destruct (decide (id' = id)) as [->|].
    + exists id, e. cbn. rewrite Ht, lookup_insert_eq. split; [done|]. symmetry. by apply He.
    + exists id', e'. cbn. by rewrite Ht, lookup_insert_ne.
  - exists id, e. cbn. by rewrite Ht, lookup_insert_eq.
Qed.
Lemma has_entry_same s t p : entries t = entries (st s) -> has_entry s p -> has_entry (on_store s t) p.
Proof. intros E (id & e & H & Hp). exists id, e. cbn. by rewrite E. Qed.

Lemma in_one (p q : string) : p = q -> p ∈ [q].
Proof. intros ->. left. Qed.
#[local] Hint Resolve in_one : core.

(** The obligations of [kept_step] that hold of most steps. *)
Ltac owned_easy := let q := fresh "q" in let Hq := fresh "Hq" in intros q Hq; cbn in Hq |- *;
  first [ by apply elem_of_nil in Hq | done | by left | by right; left | by right; right; left ].
Ltac undrained Hk := left; cbn [sum_list_with drained decided make_failed]; first
  [ pose proof (counted_undrained _ _ _ Hk eq_refl) as Hu; cbn [sum_list_with drained] in Hu; lia
  | (let Hu := fresh in pose proof (open_undrained _ _ Hk ltac:(assumption)) as Hu; cbn [sum_list_with drained] in Hu; lia) ].
Ltac kept_by Hk := apply (kept_step _ _ _ _ _ Hk);
  [owned_easy|try owned_easy|try owned_easy|try owned_easy
  |cbn [st on_store on_files with_active with_entries active counted decided]; try lia
  |cbn [st on_store on_files with_active with_entries closed closing make_failed decided]; try lia
  |first [exact (k_drained _ Hk) | undrained Hk | idtac]].

Section Closing.
Variable sha256 : list Z -> string.
Variable normalizeMediaType : string -> option string.
Hypothesis sha256_empty : sha256 [] = emptyFileSHA256.

Lemma make_step_kept s c s' c' l : is_make c = true ->
  call_step sha256 normalizeMediaType s c s' c' -> inv sha256 (s, c :: l) -> kept (s, c :: l) -> kept (s', c' :: l).
Proof.
  intros Hm Hs Hi Hk. destruct Hs; try done.
  - destruct m; kept_by Hk.
  - destruct r.
    + apply begin_refused in H0 as ->. destruct m; kept_by Hk.
    + apply begin_begun in H0 as [Hop ->]. kept_by Hk.
  - injection H as <- <-. kept_by Hk. intros p (id & e & He & Hp). destruct (prunable now e) eqn:E.
    + right. left. cbn. rewrite <- H0. apply list_elem_of_fmap. exists e. split; [done|]. apply list_elem_of_fmap. exists (id, e).
      split; [done|]. apply elem_of_map_to_list. by apply map_lookup_filter_Some.
    + left. exists id, e. split; [|done]. cbn. by apply map_lookup_filter_Some.
  - kept_by Hk.
  - apply createFile_ok in H as [-> Hf]. unfold fs_create in Hf. destruct (names (fs s) !! _) eqn:En; [done|]. injection Hf as <- <-.
    assert (forall c', counted c' = 1%nat -> closing c' = 0%nat -> drained c' = 0%nat -> Join (root (st s)) id ∈ owning c' ->
      kept (Shared (st s) (FS (<[Join (root (st s)) id := next_inode (fs s)]> (names (fs s)))
        (<[next_inode (fs s) := []]> (inodes (fs s))) (S (next_inode (fs s)))) (<[id := next_inode (fs s)]> (born s)) (<[id := []]> (sent s)) (stuck s), c' :: l)) as Hgo.
    { intros c' Hc Hcl Hdr Ho. apply (kept_step _ _ _ _ _ Hk).
      - intros p [ino Hp]. cbn in Hp. destruct (decide (p = Join (root (st s)) id)) as [->|]; [by right|].
        rewrite lookup_insert_ne in Hp by done. left. by eexists.
      - intros p Hp. by left.
      - intros p Hp. by apply elem_of_nil in Hp.
      - done.
      - cbn. lia.
      - cbn. lia.
      - left. pose proof (counted_undrained _ _ _ Hk eq_refl) as Hu. cbn in *. lia. }
    unfold made. destruct m; [apply Hgo; try done; left|]. destruct cf; [apply Hgo; try done; left|].
    destruct (_ && _); apply Hgo; try done; left.
  - assert (forall c', counted c' = 1%nat -> closing c' = 0%nat -> drained c' = 0%nat -> owning c' = [p] ->
      kept (Shared (st s) (fs_write (fs s) ino (length w) bs) (born s) (<[id := sent_for s id ++ bs]> (sent s)) (stuck s), c' :: l)) as Hgo.
    { intros c' Hc Hcl Hdr Ho. apply (kept_step _ _ _ _ _ Hk).
      - intros q Hq. by left.
      - intros q Hq. by left.
      - intros q Hq. right. left. by rewrite Ho.
      - done.
      - cbn. lia.
      - cbn. lia.
      - left. pose proof (counted_undrained _ _ _ Hk eq_refl) as Hu. cbn in *. lia. }
    destruct stop as [err|]; [destruct (stage_outcome _ _ _ _ _ _ _ _ _ err)|]; by apply Hgo.
  - pose proof (i_calls _ _ Hi) as Hc. apply Forall_cons in Hc as [(Hp & _) _]. cbn [fst] in *.
    destruct (commit_locked_spec _ _ _ _ _ H) as [[-> [err ->]]|(-> & Hop & ->)]; [kept_by Hk|].
    assert (forall q, has_entry s q \/ q = p -> has_entry (on_store s (with_entries (st s) (<[ID r := staged_entry r p]> (entries (st s))))) q) as Hins.
    { intros q. apply (has_entry_insert _ _ (ID r) (staged_entry r p)); [|done]. intros e0 He0. cbn. rewrite Hp. by destruct (i_entries _ _ Hi _ _ He0). }
    kept_by Hk; intros q Hq; left; apply Hins; [by left|]. right. by apply list_elem_of_singleton in Hq.
  - pose proof (i_calls _ _ Hi) as Hc. apply Forall_cons in Hc as [(Hp & _) _]. cbn [fst] in *.
    destruct (commit_locked_spec _ _ _ _ _ H) as [[-> [err ->]]|(-> & Hop & ->)]; [kept_by Hk|].
    assert (forall q, has_entry s q \/ q = path e -> has_entry (on_store s (with_entries (st s) (<[ID (reference e) := e]> (entries (st s))))) q) as Hins.
    { intros q. apply (has_entry_insert _ _ (ID (reference e)) e); [|done]. intros e0 He0. rewrite Hp. by destruct (i_entries _ _ Hi _ _ He0). }
    kept_by Hk; intros q Hq; left; apply Hins; [by left|]. right. by apply list_elem_of_singleton in Hq.
  - kept_by Hk.
  - destruct (UploadStatus_locked_spec _ _ _ _ _ H0) as [->|(e & He & -> & ->)].
    + destruct d; kept_by Hk.
    + kept_by Hk.
      * intros p Hp. destruct (has_entry_delete s (with_entries (st s) (delete id (entries (st s)))) id e p He eq_refl Hp) as [?|?]; [by left|]. right. left. cbn. auto.
      * destruct (k_drained _ Hk) as [Hd|[Hd Hd']]; [by left|right]. cbn in *. rewrite Hd' in He. done.
Qed.

(** An entry goes, to a call that removes its file. *)
Lemma delete_kept s c c' l id e t :
  kept (s, c :: l) -> entries (st s) !! id = Some e -> owning c = [] \/ owning c = [path e] -> owning c' = [path e] ->
  entries t = delete id (entries (st s)) -> closed t = closed (st s) -> closing c' = closing c -> drained c' = drained c ->
  (active t + counted c = active (st s) + counted c')%nat -> kept (on_store s t, c' :: l).
Proof.
  intros Hk He Ho Ho' Ht Hcl Hc Hd Ha. apply (kept_step _ _ _ _ _ Hk).
  - intros p Hp. by left.
  - intros p Hp. destruct (has_entry_delete s t id e p He Ht Hp) as [?| ->]; [by left|]. right. left. rewrite Ho'. left.
  - intros p Hp. right. left. rewrite Ho'. destruct Ho as [E|E]; rewrite E in Hp; [by apply elem_of_nil in Hp|done].
  - done.
  - exact Ha.
  - cbn [st on_store]. rewrite Hcl. lia.
  - left. destruct (k_drained _ Hk) as [H|[_ H]]; cbn in *; [lia|]. by rewrite H in He.
Qed.
(** An entry is set again, with the same path. *)
Lemma update_kept s c c' l id e e' t :
  kept (s, c :: l) -> entries (st s) !! id = Some e -> path e' = path e -> owning c = [] -> owning c' = [] ->
  entries t = <[id := e']> (entries (st s)) -> closed t = closed (st s) -> closing c' = closing c -> drained c' = drained c ->
  (active t + counted c = active (st s) + counted c')%nat -> kept (on_store s t, c' :: l).
Proof.
  intros Hk He Hp Ho Ho' Ht Hcl Hc Hd Ha. apply (kept_step _ _ _ _ _ Hk).
  - intros p H. by left.
  - intros p H. left. apply (has_entry_insert s t id e'); [|done|by left]. intros e0 He0. rewrite Hp. congruence.
  - intros p H. rewrite Ho in H. by apply elem_of_nil in H.
  - done.
  - exact Ha.
  - cbn [st on_store]. rewrite Hcl. lia.
  - left. destruct (k_drained _ Hk) as [H|[_ H]]; cbn in *; [lia|]. by rewrite H in He.
Qed.

Lemma append_step_kept s c s' c' l : is_append c = true ->
  call_step sha256 normalizeMediaType s c s' c' -> kept (s, c :: l) -> kept (s', c' :: l).
Proof.
  intros Hm Hs Hk. destruct Hs; try done.
  - kept_by Hk.
  - apply begin_refused in H as ->. kept_by Hk.
  - apply begin_begun in H0 as [Hop ->]. destruct (AppendUpload_locked_spec _ _ _ _ _ _ H1) as [(-> & Hd & Hx)|(e & He & U & [[-> ->]|(-> & B & C & -> & ->)])].
    + destruct d as [a er|p|e|a]; [|by destruct (Hx p)|by destruct (Hd e)|]; kept_by Hk.
    + apply (delete_kept _ _ _ _ id e _ Hk); try done; [by left|]. cbn. lia.
    + apply (update_kept _ _ _ _ id e (with_busy e true) _ Hk); try done. cbn. lia.
  - kept_by Hk.
  - kept_by Hk.
  - destruct stop; kept_by Hk.
  - destruct (append_verdict _ _ _ _ _ _); kept_by Hk.
  - destruct (releaseUpload_locked_spec _ _ _ _ _ _ _ _ H) as [[-> _]|(e0 & He & Hp & [[-> ->]|(-> & -> & ->)])].
    + destruct remove; kept_by Hk.
    + apply (delete_kept _ _ _ _ (ID (reference e)) e0 _ Hk); try done; [right|]; cbn; by rewrite Hp.
    + by apply (update_kept _ _ _ _ (ID (reference e)) e0 (released_entry now (st s) e0 off) _ Hk).
Qed.

Lemma reader_step_kept s c s' c' l : is_reader c = true ->
  call_step sha256 normalizeMediaType s c s' c' -> kept (s, c :: l) -> kept (s', c' :: l).
Proof.
  intros Hm Hs Hk. destruct Hs; try done.
  - kept_by Hk.
  - apply begin_refused in H as ->. kept_by Hk.
  - apply begin_begun in H as [Hop ->]. destruct (Take_locked_spec _ _ _ _ H0) as [(? & _ & ->)|(? & ? & _)]; [|done]. kept_by Hk.
  - apply begin_begun in H0 as [Hop ->]. destruct (Take_locked_spec _ _ _ _ H1) as [(? & ? & _)|(e0 & E & Hl & Hc & ->)]; [done|].
    injection E as <-. apply (delete_kept _ _ _ _ id e _ Hk); try done; [by left|]. cbn. lia.
  - kept_by Hk.
  - kept_by Hk.
  - kept_by Hk.
  - kept_by Hk.
  - apply begin_refused in H as ->. kept_by Hk.
  - apply begin_begun in H0 as [Hop ->]. destruct (OpenDownload_locked_spec _ _ _ _ _ _ H1) as [(-> & Hd & Hx)|(e & He & U & C & [[-> ->]|(-> & B & Ho & ->)])].
    + destruct d as [a er|p|e|a]; [|by destruct (Hx p)|by destruct (Hd e)|]; kept_by Hk.
    + apply (delete_kept _ _ _ _ id e _ Hk); try done; [by left|]. cbn. lia.
    + apply (update_kept _ _ _ _ id e (with_busy e true) _ Hk); try done. cbn. lia.
  - kept_by Hk.
  - destruct (finishDownload_locked_spec (st s) (ID (reference e)) (path e) false) as [[-> _]|(e0 & He & Hp & [[? _]|[_ E]])]; [kept_by Hk|done|].
    apply (update_kept _ _ _ _ (ID (reference e)) e0 (with_busy e0 false) _ Hk); try done; by rewrite E.
  - kept_by Hk.
  - kept_by Hk.
  - kept_by Hk.
  - kept_by Hk. intros q Hq. cbn in *. destruct (dl_consume dl); [by right; left|by apply elem_of_nil in Hq].
  - destruct (dl_store dl).
    + destruct (finishDownload_locked_spec (st s) (dl_id dl) (dl_path dl) (dl_consume dl)) as [[-> _]|(e0 & He & Hp & [[Hc E]|[Hc E]])].
      * destruct (dl_consume dl) eqn:Hc; kept_by Hk; intros q Hq; cbn in *; rewrite Hc in Hq; [by right; left|by apply elem_of_nil in Hq].
      * apply (delete_kept _ _ _ _ (dl_id dl) e0 _ Hk); try done; rewrite ?E, ?Hc; try done; [right|]; cbn; by rewrite ?Hc, Hp.
      * apply (update_kept _ _ _ _ (dl_id dl) e0 (with_busy e0 false) _ Hk); try done; rewrite ?E, ?Hc; try done. cbn. by rewrite Hc.
    + destruct (dl_consume dl) eqn:Hc; kept_by Hk; intros q Hq; cbn in *; rewrite Hc in Hq; [by right; left|by apply elem_of_nil in Hq].
Qed.

Lemma rest_step_kept s c s' c' l : is_make c = false -> is_append c = false -> is_reader c = false ->
  call_step sha256 normalizeMediaType s c s' c' -> kept (s, c :: l) -> kept (s', c' :: l).
Proof.
  intros Hm Ha Hr Hs Hk. destruct Hs; try done.
  - unfold discard_locked in H. destruct (entries (st s) !! id) as [e|] eqn:He; injection H as <- <-; [|kept_by Hk].
    apply (delete_kept _ _ _ _ id e _ Hk); try done. by left.
  - assert (forall q, has_file (on_files s (fs_remove (fs s) p)) q -> has_file s q /\ q <> p) as Hrm.
    { intros q [i Hq]. cbn in Hq. apply lookup_delete_Some in Hq as [? Hq]. split; [by eexists|congruence]. }
    apply (kept_step _ _ _ _ _ Hk); [intros q Hq; left; by apply Hrm|by left| |done|destruct k; cbn; lia|cbn; lia|exact (k_drained _ Hk)].
    intros q Hq. cbn in *. destruct (decide (q = p)) as [->|]; [right; right; right; by intros [_ ?]%Hrm|].
    right. left. apply elem_of_cons in Hq as [?|?]; done.
  - apply (kept_step _ _ _ _ _ Hk); [by left|by left| |by right|destruct k; cbn; lia|cbn; lia|exact (k_drained _ Hk)].
    intros q Hq. cbn in *. apply elem_of_cons in Hq as [->|?]; [right; right; left; left|by right; left].
  - destruct k; cbn [resumed]; kept_by Hk.
  - pose proof (k_active _ Hk) as Hac. cbn in Hac. kept_by Hk; cbn; lia.
  - unfold Close_locked in H. destruct (closed (st s)) eqn:Hcl; injection H as <- <-; kept_by Hk; cbn; rewrite ?Hcl; lia.
  - injection H0 as <- <-. kept_by Hk.
    + intros q (id & e & He & Hq). right. left. cbn. rewrite <- H1. apply list_elem_of_fmap. exists e. split; [done|]. apply list_elem_of_fmap. exists (id, e).
      split; [done|]. by apply elem_of_map_to_list.
    + right. done.
  - assert (forall q, has_file (on_files s (fs_remove (fs s) p)) q -> has_file s q /\ q <> p) as Hrm.
    { intros q [i Hq]. cbn in Hq. apply lookup_delete_Some in Hq as [? Hq]. split; [by eexists|congruence]. }
    apply (kept_step _ _ _ _ _ Hk); [intros q Hq; left; by apply Hrm|by left| |done|cbn; lia|cbn; lia|exact (k_drained _ Hk)].
    intros q Hq. cbn in *. destruct (decide (q = p)) as [->|]; [right; right; right; by intros [_ ?]%Hrm|].
    right. left. apply elem_of_cons in Hq as [?|?]; done.
  - apply (kept_step _ _ _ _ _ Hk); [by left|by left| |by right|cbn; lia|cbn; lia|exact (k_drained _ Hk)].
    intros q Hq. cbn in *. apply elem_of_cons in Hq as [->|?]; [right; right; left; left|by right; left].
  - kept_by Hk.
  - apply (kept_step _ _ _ _ _ Hk); [|by left|intros q Hq; by apply elem_of_nil in Hq|done|cbn; lia|cbn; lia|exact (k_drained _ Hk)].
    intros q [i Hq]. left. exists i. by eapply lookup_weaken.
Qed.

Lemma transfer_step_kept x x' : step sha256 normalizeMediaType x x' -> inv sha256 x -> kept x -> kept x'.
Proof.
  intros [s l c Hc|s l1 c l2 s' c' Hs] Hi Hk.
  - apply (kept_permutation _ (c :: l)); [by rewrite Permutation_app_comm|].
    destruct Hk; constructor; cbn [fst snd sum_list_with] in *; [|by destruct c|by destruct c|by destruct c].
    intros p Hp. destruct (k_owned0 p Hp) as [?|[?|?]]; [by left| |by right; right]. right. left. cbn. apply elem_of_app. by right.
  - apply (kept_permutation _ (c' :: l1 ++ l2)); [by rewrite Permutation_middle|].
    apply (kept_permutation _ _ (c :: l1 ++ l2)) in Hk; [|by rewrite Permutation_middle].
    apply (transfer_inv_permutation _ _ _ (c :: l1 ++ l2)) in Hi; [|by rewrite Permutation_middle].
    destruct (is_make c) eqn:Hm; [by eapply make_step_kept|].
    destruct (is_append c) eqn:Ha; [by eapply append_step_kept|].
    destruct (is_reader c) eqn:Hr; [by eapply reader_step_kept|by eapply rest_step_kept].
Qed.

Lemma transfer_reachable_kept directory o t x : NewFileTransferStore directory o = Ok t ->
  reachable sha256 normalizeMediaType t x -> kept x.
Proof.
  intros Hn Hr. unfold NewFileTransferStore in Hn. destruct (_ || _); [done|]. destruct directory; try done. injection Hn as <-.
  match type of Hr with reachable _ _ ?t _ => set (t0 := t) in * end.
  assert (inv sha256 (initially t0, []) /\ kept (initially t0, [])) as Hik.
  { split; [by apply initially_inv|]. constructor; cbn; try done; [|by left]. intros p [i Hp]. done. }
  unfold reachable in Hr. destruct Hik as [Hi Hk]. revert Hi Hk.
  induction Hr as [|x1 x2 x3 Hs _ IH]; [done|]. intros Hi Hk. apply IH; [by eapply transfer_step_inv|by eapply transfer_step_kept].
Qed.

Lemma total_in f c (l : list call) : c ∈ l -> (f c <= total f l)%nat.
Proof. induction 1 as [|c d l _ IH]; cbn [sum_list_with]; lia. Qed.

(** In every reachable state each file of the store's directory belongs to
    an entry of the store, or to a call at work that will remove it or make an
    entry of it, or the system refused to remove it. *)
Lemma no_file_is_lost directory o t s l p :
  NewFileTransferStore directory o = Ok t -> reachable sha256 normalizeMediaType t (s, l) -> has_file s p ->
  has_entry s p \/ (exists c, c ∈ l /\ p ∈ owning c) \/ p ∈ stuck s.
Proof.
  intros Hn Hr Hp. destruct (k_owned _ (transfer_reachable_kept _ _ _ _ Hn Hr) p Hp) as [?|[H|?]]; [by left| |by right; right].
  right. left. cbn in H. apply list_elem_of_bind in H as (c & ? & ?). eauto.
Qed.

(** C16. Once the call of [Close] that closed the store has returned, no
    transfer is left, and no file either, but for those that a call of
    [UploadStatus] or of [ImportUpload] is about to remove and those the system
    refused to remove. *)
Theorem closed_store_leaves_no_file directory o t s l p :
  NewFileTransferStore directory o = Ok t -> reachable sha256 normalizeMediaType t (s, l) -> ClosedStore ∈ l ->
  entries (st s) = ∅ /\ active (st s) = 0%nat /\
  (has_file s p -> p ∈ stuck s \/ exists ps o, Removing ps (ThenReturn o) ∈ l /\ p ∈ ps).
Proof.
  intros Hn Hr Hin. pose proof (transfer_reachable_kept _ _ _ _ Hn Hr) as [Ho Ha Hc Hd]. cbn [fst snd] in *.
  pose proof (total_in drained _ _ Hin) as H1. cbn in H1. destruct Hd as [?|[Hz He]]; [lia|]. split; [done|]. split; [done|].
  intros Hp. destruct (Ho p Hp) as [(id & e & H & _)|[H|?]]; [by rewrite He in H| |by left].
  apply list_elem_of_bind in H as (c & Hpc & Hcl). pose proof (total_in counted _ _ Hcl) as H2.
  destruct c; cbn in H2, Hpc; try lia; try by apply elem_of_nil in Hpc.
  - right. destruct k; cbn in H2; [lia|lia|]. eauto.
  - apply list_elem_of_split in Hin as (l1 & l2 & ->). rewrite sum_list_with_app in Hc. cbn in Hc.
    apply elem_of_app in Hcl. assert (total closing l1 + total closing l2 = 0)%nat as Hz2 by (destruct (closed (st s)); lia).
    destruct Hcl as [Hcl|Hcl]; [|apply elem_of_cons in Hcl as [?|Hcl]; [done|]]; pose proof (total_in closing _ _ Hcl) as H3; cbn in H3; lia.
Qed.
End Closing.

(** ** A run: a download is read to its end and committed, then the store closes *)
Module CloseSample.
Import Toy FileTransferFacts.Sample.

Lemma store_closes : exists l, reachable digest media empty_store
  (Shared (with_closed (st_with 0 ∅)) (FS ∅ {[0%nat := [1; 2; 3]]} 1) {[id := 0%nat]} {[id := [1; 2; 3]]} [], l ++ [ClosedStore]).
Proof.
  destruct reads as [l H]. unfold reachable in *. eexists. eapply run_trans; [exact H|]. clear H.
  set (s0 := Shared (st_with 1 ∅) (FS ∅ {[0%nat := [1; 2; 3]]} 1) {[id := 0%nat]} {[id := [1; 2; 3]]} []).
  eapply moves; [apply download_close|].
  eapply moves; [apply download_finish|].
  go s0 (Removing [] (ThenLeave DownloadClosed)) (removed digest media (state 1 ∅ [1; 2; 3]) file [] (ThenLeave DownloadClosed)).
  eapply moves; [apply all_removed|].
  eapply moves; [apply left_|].
  match goal with |- run (_, ?l) _ => apply (made_call _ Closing l _ I) end.
  eapply moves; [eapply close_begun; reflexivity|].
  eapply moves; [eapply (close_collected _ _ _ _ _ []); reflexivity|].
  go (Shared (with_closed (st_with 0 ∅)) (FS ∅ {[0%nat := [1; 2; 3]]} 1) {[id := 0%nat]} {[id := [1; 2; 3]]} []) ClosedStore
    (close_done digest media (Shared (with_closed (st_with 0 ∅)) (FS ∅ {[0%nat := [1; 2; 3]]} 1) {[id := 0%nat]} {[id := [1; 2; 3]]} [])).
  apply rtc_refl.
Qed.
End CloseSample.

Import Toy Sample CloseSample.
Lemma closed_store_leaves_no_file_witness : exists (s : shared) (l : list call), ClosedStore ∈ l /\ entries (st s) = ∅ /\ ~ has_file s file.
Proof.
  destruct store_closes as [l H]. eexists _, (l ++ [ClosedStore]). assert (ClosedStore ∈ l ++ [ClosedStore]) as Hin by (apply elem_of_app; right; left).
  split; [exact Hin|].
  destruct (closed_store_leaves_no_file digest media eq_refl (Ok "/files") options empty_store _ _ file eq_refl H Hin) as (He & _ & Hf).
  split; [exact He|]. intros [i Hi]. vm_compute in Hi. discriminate Hi.
Defined.
