(* ===== verification/Exceptions.v ===== *)
(** * Errors of a request and how they are rendered
    [backend/framework/exception.go], [protocol.go], [validation.go]

    The errors a handler can return, told apart as [errors.As] does, and the
    registry that turns them into the error of a response. *)
From S2P Require Import Prelude GoStrings.
Open Scope Z_scope.
Open Scope go_scope.

Definition ErrInvalidExceptionRenderer := ErrNew "framework: exception renderer cannot be nil".
Definition ErrInvalidExceptionMapper := ErrNew "framework: exception mapper cannot be nil".
Definition ErrInvalidValidationRule := ErrNew "framework: validation rule cannot be nil".

Section Exceptions.
Context {V : Type}.  (* the values of an [any] *)

Record FieldViolation := MkFieldViolation {
  Field : string;
  Rule : string;
  Message : string;
  Parameters : option (gmap string V)
}.

(** [RPCError.Data]: a map given by the application, or the violations. *)
Inductive error_data :=
| NoData
| MapData (m : gmap string V)
| ViolationsData (violations : list FieldViolation).
Record RPCError := MkRPCError {
  Code : string;
  ErrorMessage : string;
  Data : error_data
}.
Definition NewRPCError (code message : string) : RPCError := MkRPCError code message NoData.
Definition NewErrorWithData (code message : string) (data : error_data) : RPCError := MkRPCError code message data.

(** A non-nil error; [PlainException] stands for every other type. *)
Inductive exception :=
| RPCException (e : RPCError)
| ValidationException (violations : list FieldViolation)
| PlainException (text : string)
| WrappedException (text : string) (causes : list exception).

(** [ValidationErrors.Error]. *)
Definition ValidationErrors_Error (violations : list FieldViolation) : string :=
  match violations with
  | [] => "request validation failed"
  | first :: _ => "request validation failed for " +:+ Field first +:+ ": " +:+ Message first
  end.
Definition exception_text (e : exception) : string :=
  match e with
  | RPCException r => Code r +:+ ": " +:+ ErrorMessage r
  | ValidationException l => ValidationErrors_Error l
  | PlainException t | WrappedException t _ => t
  end.

(** [errors.As]: the first error of the type, the error itself first, then its
    causes in order. *)
Fixpoint first_some {A B} (f : A -> option B) (l : list A) : option B :=
  match l with
  | [] => None
  | x :: l => match f x with Some y => Some y | None => first_some f l end
  end.
Fixpoint as_rpc (e : exception) : option RPCError :=
  match e with
  | RPCException r => Some r
  | WrappedException _ causes => first_some as_rpc causes
  | _ => None
  end.
Fixpoint as_validation (e : exception) : option (list FieldViolation) :=
  match e with
  | ValidationException l => Some l
  | WrappedException _ causes => first_some as_validation causes
  | _ => None
  end.

(** ** [ValidationErrors.WithPrefix]

    The receiver may be nil; the parameters are copied, which is the identity
    on an immutable map. *)
Definition prefixed (prefix : string) (v : FieldViolation) : FieldViolation :=
  let field :=
    if String.eqb (Field v) "" then prefix
    else if negb (String.eqb prefix "") then prefix +:+ "." +:+ Field v else Field v in
  MkFieldViolation field (Rule v) (Message v) (Parameters v).
Definition WithPrefix (prefix : string) (e : option (list FieldViolation)) : list FieldViolation :=
  match e with None => [] | Some violations => prefixed prefix <$> violations end.

(** ** Rendering *)

Definition renderFrameworkException (e : exception) : RPCError :=
  match as_rpc e with
  | Some r => r
  | None =>
      match as_validation e with
      | Some violations => NewErrorWithData "validation_error" "The request failed validation." (ViolationsData violations)
      | None => NewRPCError "internal_error" "The Go backend could not complete the request."
      end
  end.

(** A mapper answers with an error, perhaps nil, and whether it applies. *)
Definition ExceptionMapper : Type := exception -> option RPCError * bool.
Record ExceptionRegistry := MkExceptionRegistry { mappers : list ExceptionMapper }.
Definition DefaultExceptionRenderer := MkExceptionRegistry [].

Definition Register (registry : ExceptionRegistry) (ms : list (option ExceptionMapper)) : ExceptionRegistry * option goerror :=
  match mapM id ms with
  | None => (registry, Some ErrInvalidExceptionMapper)
  | Some ms => (MkExceptionRegistry (mappers registry ++ ms), None)
  end.

Definition applied (m : ExceptionMapper) (e : exception) : option RPCError :=
  let '(rendered, ok) := m e in if ok then rendered else None.
Definition Render (registry : option ExceptionRegistry) (e : exception) : RPCError :=
  match registry with
  | None => renderFrameworkException e
  | Some registry => default (renderFrameworkException e) (first_some (fun m => applied m e) (mappers registry))
  end.

(** [MapException], for a type that [select] finds as [errors.As] does. *)
Definition MapException {T} (select : exception -> option T) (render : option (T -> option RPCError)) : result ExceptionMapper :=
  match render with
  | None => Panicked (error_text ErrInvalidExceptionMapper)
  | Some render => Ok (fun e => match select e with None => (None, false) | Some x => (render x, true) end)
  end.

(** A mapper that applies decides; mappers are asked in the order they were
    registered; and an error always renders to something. *)
Lemma Render_first registry ms1 m ms2 e r :
  mappers registry = ms1 ++ m :: ms2 -> Forall (fun m => applied m e = None) ms1 -> applied m e = Some r ->
  Render (Some registry) e = r.
Proof.
  intros E Hn Hr. unfold Render. rewrite E. clear E. induction Hn as [|m' ms1 Hm Hn IH]; cbn [app first_some].
  - by rewrite Hr.
  - by rewrite Hm.
Qed.
End Exceptions.
Arguments FieldViolation : clear implicits.
Arguments RPCError : clear implicits.
Arguments exception : clear implicits.
Arguments ExceptionRegistry : clear implicits.
Arguments ExceptionMapper : clear implicits.
