(* ===== verification/Router.v ===== *)
(** * The request pipeline
    [backend/framework/router.go], [route_group.go], [middleware.go],
    [crash_reporting.go], [authentication.go], [protocol.go]

    A handler is a function on the state of one request, which it changes and
    from which it returns or panics; middlewares are functions on handlers, as
    in the code.  A reference machine runs a list of layers with an explicit
    stack, and dispatching is proved to do the same. *)
From S2P Require Import Prelude GoStrings Exceptions.
Open Scope Z_scope.
Open Scope go_scope.

Definition ErrInvalidMiddlewareGroup := ErrNew "framework: middleware group is invalid".
Definition ErrMiddlewareGroupAlreadyDefined := ErrNew "framework: middleware group is already defined".
Definition ErrMiddlewareGroupNotFound := ErrNew "framework: middleware group is not defined".
Definition ErrInvalidRouteGroup := ErrNew "framework: route group is invalid".
Definition ErrInvalidPrincipal := ErrNew "framework: principal is invalid".

(** ** Principals *)

Record Principal := MkPrincipal {
  subject : string;
  permissions : gset string
}.
Definition NewPrincipal (subj : string) (perms : list string) : result Principal :=
  let subj := TrimSpace subj in
  if String.eqb subj "" then Err ErrInvalidPrincipal
  else if existsb (fun p => String.eqb (TrimSpace p) "") perms then Err ErrInvalidPrincipal
  else Ok (MkPrincipal subj (list_to_set (TrimSpace <$> perms))).
Definition HasPermission (p : Principal) (permission : string) : bool := bool_decide (permission ∈ permissions p).
Definition valid (p : Principal) : bool := negb (String.eqb (subject p) "").

Record Request := MkRequest {
  ID : string;
  Method : string;
  Params : string;
  Meta : gmap string string
}.

Section Router.
Context {V St : Type}.  (* the values of an [any]; what else handlers read and change *)
#[local] Abbreviation exception := (Exceptions.exception V).
#[local] Abbreviation RPCError := (Exceptions.RPCError V).

(** The request's context; the principal is the value its parent carries. *)
Record Context_ := MkContext {
  parent : context;
  principal : option Principal;
  request : Request;
  Trace : list string;
  world : St
}.
Definition with_trace (ctx : Context_) (t : list string) := MkContext (parent ctx) (principal ctx) (request ctx) t (world ctx).
Definition with_world (ctx : Context_) (w : St) := MkContext (parent ctx) (principal ctx) (request ctx) (Trace ctx) w.
Definition mark (name : string) (ctx : Context_) : Context_ := with_trace ctx (Trace ctx ++ [name]).

Inductive outcome :=
| Returns (r : option V) (err : option exception)
| Panics (recovered : string).
Definition fails (code message : string) : outcome := Returns None (Some (RPCException (NewRPCError code message))).

Definition Handler : Type := Context_ -> Context_ * outcome.
Definition Middleware : Type := Handler -> Handler.
(** A policy accepts, refuses or panics. *)
Inductive verdict :=
| Accept
| Reject (err : exception)
| PolicyPanics (recovered : string).
Definition MethodPolicy : Type := Context_ -> Context_ * verdict.

(** ** The framework's middlewares *)

Definition Traced (name : string) (middleware : Middleware) : Middleware := fun next =>
  let wrapped := middleware next in
  fun ctx =>
    let '(ctx, o) := wrapped (mark (name +:+ ":before") ctx) in
    (mark (name +:+ ":after") ctx, o).

Record CrashReport := MkCrashReport {
  RequestID : string;
  RPCMethod : string;
  Pipeline : list string;
  Recovered : string
}.
(** What a reporter does to the world; its own panics are recovered.  The time
    and the stack of the report are left out. *)
Definition CrashReporter : Type := CrashReport -> St -> St.
Definition reportRecoveredCrash (reporter : option CrashReporter) (recovered : string) (ctx : Context_) : Context_ :=
  match reporter with
  | None => ctx
  | Some reporter =>
      with_world ctx (reporter (MkCrashReport (ID (request ctx)) (Method (request ctx)) (Trace ctx) recovered) (world ctx))
  end.
Definition RecoveryWithReporter (reporter : option CrashReporter) : Middleware := fun next ctx =>
  let '(ctx, o) := next ctx in
  match o with
  | Panics v => (reportRecoveredCrash reporter v ctx, fails "internal_error" "The Go backend recovered from a panic.")
  | _ => (ctx, o)
  end.
Definition Recovery : Middleware := RecoveryWithReporter None.

Definition RequireRequestID : Middleware := fun next ctx =>
  if String.eqb (ID (request ctx)) "" then (ctx, fails "invalid_request" "A request id is required.") else next ctx.

Definition PrincipalFromContext (ctx : Context_) : option Principal :=
  match principal ctx with Some p => if valid p then Some p else None | None => None end.

Definition authenticated (expectedToken : string) (ctx : Context_) : bool :=
  match PrincipalFromContext ctx with
  | Some _ => true
  | None => negb (String.eqb expectedToken "" || negb (String.eqb (default "" (Meta (request ctx) !! "token")) expectedToken))
  end.
Definition Authenticate (expectedToken : string) : Middleware := fun next ctx =>
  if authenticated expectedToken ctx then next ctx
  else (ctx, fails "unauthorized" "The backend token is missing or invalid.").

(** [LogRequests]; [log] appends a record of identifier, method and error. *)
Definition errorText (err : option exception) : string := match err with None => "" | Some e => exception_text e end.
Definition LogRequests (log : string -> string -> string -> St -> St) : Middleware := fun next ctx =>
  let '(ctx, o) := next ctx in
  let err := match o with Returns _ e => e | Panics _ => None end in
  (with_world ctx (log (ID (request ctx)) (Method (request ctx)) (errorText err) (world ctx)), o).

Definition RequirePermission (permission : string) : result MethodPolicy :=
  let permission := TrimSpace permission in
  if String.eqb permission "" then Panicked "framework: permission cannot be empty"
  else Ok (fun ctx =>
    match PrincipalFromContext ctx with
    | None => (ctx, Reject (RPCException (NewRPCError "unauthenticated" "Authentication is required.")))
    | Some p =>
        if HasPermission p permission then (ctx, Accept)
        else (ctx, Reject (RPCException (NewRPCError "forbidden" "The authenticated principal is not allowed to call this method.")))
    end).

(** ** The router *)

Record routeDefinition := MkRoute {
  route_handler : Handler;
  route_middlewares : list Middleware;
  route_policies : list MethodPolicy
}.
Record Router := MkRouter {
  routes : gmap string routeDefinition;
  middlewares : list Middleware;
  middlewareGroups : gmap string (list Middleware);
  exceptions : exception -> option RPCError
}.
Definition NewRouter : Router :=
  MkRouter ∅ [] ∅ (fun e => Some (Render (Some DefaultExceptionRenderer) e)).

Definition SetExceptionRenderer (renderer : option (exception -> option RPCError)) (r : Router) : Router * option goerror :=
  match renderer with
  | None => (r, Some ErrInvalidExceptionRenderer)
  | Some f => (MkRouter (routes r) (middlewares r) (middlewareGroups r) f, None)
  end.

(** Go values of function types may be nil; the checks keep those that are not. *)
Definition validateMiddlewares (ms : list (option Middleware)) : option (list Middleware) := mapM id ms.
Definition ensureMiddlewares (ms : list (option Middleware)) : result (list Middleware) :=
  match validateMiddlewares ms with Some ms => Ok ms | None => Panicked (error_text ErrInvalidMiddlewareGroup) end.
Definition ensurePolicies (ps : list (option MethodPolicy)) : result (list MethodPolicy) :=
  match mapM id ps with Some ps => Ok ps | None => Panicked "framework: method policy cannot be nil" end.

Definition Use (ms : list (option Middleware)) (r : Router) : result Router :=
  let* ms := ensureMiddlewares ms in Ok (MkRouter (routes r) (middlewares r ++ ms) (middlewareGroups r) (exceptions r)).

Definition HasSuffix (s suffix : string) : bool :=
  String.eqb (String.substring (String.length s - String.length suffix) (String.length suffix) s) suffix.
Definition normalizeRouteMethod (method : string) : result string :=
  let method := TrimSpace method in
  if String.eqb method "" || has_prefix "." method || HasSuffix method "." || contains ".." method
  then Panicked ("framework: invalid route method " +:+ Quote method) else Ok method.
Definition normalizeRoutePrefix (prefix : string) : result string :=
  let prefix := Trim "." (TrimSpace prefix) in
  if contains ".." prefix then Err (Errorf [W ErrInvalidRouteGroup; T (": prefix " +:+ Quote prefix)]) else Ok prefix.
Definition joinRouteMethod (prefix method : string) : string :=
  if String.eqb prefix "" then method else if String.eqb method "" then prefix else prefix +:+ "." +:+ method.

Definition register (method : string) (handler : option Handler) (ms : list Middleware) (ps : list MethodPolicy) (r : Router)
    : result Router :=
  let* method := normalizeRouteMethod method in
  match handler with
  | None => Panicked "framework: route handler cannot be nil"
  | Some h =>
      match routes r !! method with
      | Some _ => Panicked ("framework: duplicate route " +:+ Quote method)
      | None => Ok (MkRouter (<[method := MkRoute h ms ps]> (routes r)) (middlewares r) (middlewareGroups r) (exceptions r))
      end
  end.
Definition Handle (method : string) (handler : option Handler) (r : Router) : result Router := register method handler [] [] r.
(** Here [register] checks the policies, after the method and the handler. *)
Definition HandleWithPolicies (method : string) (handler : option Handler) (ps : list (option MethodPolicy)) (r : Router) : result Router :=
  let* _ := normalizeRouteMethod method in
  match handler with
  | None => Panicked "framework: route handler cannot be nil"
  | Some _ => let* ps := ensurePolicies ps in register method handler [] ps r
  end.

Definition RegisterMiddlewareGroup (name : string) (ms : list (option Middleware)) (r : Router) : Router * option goerror :=
  let name := TrimSpace name in
  if String.eqb name "" || Nat.eqb (length ms) 0 then (r, Some ErrInvalidMiddlewareGroup)
  else match validateMiddlewares ms with
       | None => (r, Some ErrInvalidMiddlewareGroup)
       | Some ms =>
           match middlewareGroups r !! name with
           | Some _ => (r, Some (errorf1 ErrMiddlewareGroupAlreadyDefined name))
           | None => (MkRouter (routes r) (middlewares r) (<[name := ms]> (middlewareGroups r)) (exceptions r), None)
           end
       end.
Fixpoint resolveMiddlewareGroups (names : list string) (r : Router) : result (list Middleware) :=
  match names with
  | [] => Ok []
  | name :: names =>
      let name := TrimSpace name in
      match (if String.eqb name "" then None else middlewareGroups r !! name) with
      | None => Err (errorf1 ErrMiddlewareGroupNotFound name)
      | Some ms => let* rest := resolveMiddlewareGroups names r in Ok (ms ++ rest)
      end
  end.
Definition UseMiddlewareGroups (names : list string) (r : Router) : result Router :=
  let* ms := resolveMiddlewareGroups names r in Ok (MkRouter (routes r) (middlewares r ++ ms) (middlewareGroups r) (exceptions r)).

(** ** Groups *)

Record RouteGroup := MkGroup {
  prefix : string;
  group_middlewares : list Middleware;
  group_policies : list MethodPolicy
}.
Definition Group (pre : string) (names : list string) (r : Router) : result RouteGroup :=
  let* pre := normalizeRoutePrefix pre in
  let* ms := resolveMiddlewareGroups names r in Ok (MkGroup pre ms []).
Definition Group_Group (g : RouteGroup) (pre : string) (names : list string) (r : Router) : result RouteGroup :=
  let* pre := normalizeRoutePrefix pre in
  let* ms := resolveMiddlewareGroups names r in
  Ok (MkGroup (joinRouteMethod (prefix g) pre) (group_middlewares g ++ ms) (group_policies g)).
Definition Group_Use (ms : list (option Middleware)) (g : RouteGroup) : result RouteGroup :=
  let* ms := ensureMiddlewares ms in Ok (MkGroup (prefix g) (group_middlewares g ++ ms) (group_policies g)).
Definition Group_UseMiddlewareGroups (names : list string) (r : Router) (g : RouteGroup) : result RouteGroup :=
  let* ms := resolveMiddlewareGroups names r in Ok (MkGroup (prefix g) (group_middlewares g ++ ms) (group_policies g)).
Definition Group_UsePolicies (ps : list (option MethodPolicy)) (g : RouteGroup) : result RouteGroup :=
  let* ps := ensurePolicies ps in Ok (MkGroup (prefix g) (group_middlewares g) (group_policies g ++ ps)).
Definition Group_Handle (g : RouteGroup) (method : string) (handler : option Handler) (r : Router) : result Router :=
  let* method := normalizeRouteMethod method in
  register (joinRouteMethod (prefix g) method) handler (group_middlewares g) (group_policies g) r.
Definition Group_HandleWithPolicies (g : RouteGroup) (method : string) (handler : option Handler) (ps : list (option MethodPolicy)) (r : Router)
    : result Router :=
  let* ps := ensurePolicies ps in
  let* method := normalizeRouteMethod method in
  register (joinRouteMethod (prefix g) method) handler (group_middlewares g) (group_policies g ++ ps) r.

(** ** Dispatching *)

(** The loops run over the indices from the last to the first. *)
Definition applyMiddlewares (handler : Handler) (ms : list Middleware) : Handler :=
  foldl (fun h (m : Middleware) => m h) handler (rev ms).
Definition applyPolicy (policy : MethodPolicy) (next : Handler) : Handler := fun ctx =>
  let '(ctx, v) := policy ctx in
  match v with
  | Reject err => (ctx, Returns None (Some err))
  | PolicyPanics m => (ctx, Panics m)
  | Accept => next ctx
  end.
Definition applyPolicies (handler : Handler) (ps : list MethodPolicy) : Handler :=
  foldl (fun h p => applyPolicy p h) handler (rev ps).

Record Response := MkResponse {
  response_ID : string;
  response_Result : option V;
  response_Error : option RPCError;
  response_Pipeline : list string
}.
Definition response (r : Router) (ctx : Context_) (res : option V) (err : option exception) : Response :=
  match err with
  | Some e => MkResponse (ID (request ctx)) None (Some (default (renderFrameworkException e) (exceptions r e))) (Trace ctx)
  | None => MkResponse (ID (request ctx)) res None (Trace ctx)
  end.

Definition unknown_method (method : string) : Handler := fun ctx =>
  (ctx, fails "method_not_found" ("Unknown method " +:+ Quote method +:+ ".")).
Definition resolve (r : Router) (par : context) (who : option Principal) (req : Request) (w : St) : Context_ * Handler :=
  let ctx := MkContext par who req [] w in
  let handler := match routes r !! Method req with
                 | None => unknown_method (Method req)
                 | Some route => applyMiddlewares (applyPolicies (route_handler route) (route_policies route)) (route_middlewares route)
                 end in
  (ctx, applyMiddlewares handler (middlewares r)).

(** A panic that no middleware recovers goes on to the caller. *)
Definition respond (r : Router) (x : Context_ * outcome) : St * (Response + string) :=
  let '(ctx, o) := x in
  (world ctx, match o with Returns res err => inl (response r ctx res err) | Panics v => inr v end).
Definition Dispatch (r : Router) (par : context) (who : option Principal) (req : Request) (w : St) : St * (Response + string) :=
  let '(ctx, handler) := resolve r par who req w in respond r (handler ctx).
End Router.
Arguments Context_ : clear implicits.
Arguments Handler : clear implicits.
Arguments Middleware : clear implicits.
Arguments MethodPolicy : clear implicits.
Arguments outcome : clear implicits.
Arguments verdict : clear implicits.
Arguments CrashReporter : clear implicits.
Arguments Router : clear implicits.
Arguments RouteGroup : clear implicits.
Arguments Response : clear implicits.
