(* ===== verification/RouterFacts.v ===== *)
(** * Dispatching runs its layers like a stack

    The reference machine of the pipeline, and the proof that the closures the
    router builds do what it does, for routes of any nesting of groups. *)
From S2P Require Import Prelude GoStrings Exceptions Router.
Open Scope Z_scope.
Open Scope go_scope.

Section Layers.
Context {V St : Type}.
#[local] Abbreviation Context_ := (Router.Context_ St).
#[local] Abbreviation outcome := (Router.outcome V).
#[local] Abbreviation Handler := (Router.Handler V St).
#[local] Abbreviation Middleware := (Router.Middleware V St).
#[local] Abbreviation MethodPolicy := (Router.MethodPolicy V St).

(** The middlewares of the framework, policies, and those of an application
    that do something before, perhaps answering themselves, and after. *)
Inductive layer :=
| LTraced (name : string) (l : layer)
| LRecovery (reporter : option (CrashReporter St))
| LRequireRequestID
| LAuthenticate (expectedToken : string)
| LLog (log : string -> string -> string -> St -> St)
| LPolicy (policy : MethodPolicy)
| LCustom (before : Context_ -> Context_ * option outcome) (after : Context_ -> outcome -> Context_ * outcome).

(** A layer as the middleware of the code. *)
Fixpoint denote (l : layer) : Middleware :=
  match l with
  | LTraced name l => Traced name (denote l)
  | LRecovery reporter => RecoveryWithReporter reporter
  | LRequireRequestID => RequireRequestID
  | LAuthenticate token => Authenticate token
  | LLog log => LogRequests log
  | LPolicy p => applyPolicy p
  | LCustom before after => fun next ctx =>
      let '(ctx, o) := before ctx in
      match o with Some o => (ctx, o) | None => let '(ctx, o) := next ctx in after ctx o end
  end.

(** ** The reference machine

    [enter] is what a layer does on the way in, with the outcome if it goes no
    further; [leave] what it does on the way out. *)
Fixpoint leave (l : layer) (ctx : Context_) (o : outcome) : Context_ * outcome :=
  match l with
  | LTraced name l => let '(ctx, o) := leave l ctx o in (mark (name +:+ ":after") ctx, o)
  | LRecovery reporter =>
      match o with
      | Panics v => (reportRecoveredCrash reporter v ctx, fails "internal_error" "The Go backend recovered from a panic.")
      | _ => (ctx, o)
      end
  | LLog log =>
      (with_world ctx (log (ID (request ctx)) (Method (request ctx)) (errorText (match o with Returns _ e => e | Panics _ => None end)) (world ctx)), o)
  | LCustom _ after => after ctx o
  | _ => (ctx, o)
  end.
Fixpoint enter (l : layer) (ctx : Context_) : Context_ * option outcome :=
  match l with
  | LTraced name l =>
      let '(ctx, o) := enter l (mark (name +:+ ":before") ctx) in
      match o with None => (ctx, None) | Some o => (mark (name +:+ ":after") ctx, Some o) end
  | LRequireRequestID => (ctx, if String.eqb (ID (request ctx)) "" then Some (fails "invalid_request" "A request id is required.") else None)
  | LAuthenticate token => (ctx, if authenticated token ctx then None else Some (fails "unauthorized" "The backend token is missing or invalid."))
  | LPolicy p =>
      let '(ctx, v) := p ctx in
      (ctx, match v with Accept => None | Reject err => Some (Returns None (Some err)) | PolicyPanics m => Some (Panics m) end)
  | LCustom before _ => before ctx
  | LRecovery _ | LLog _ => (ctx, None)
  end.

(** The layers entered are left in reverse order, whatever the outcome. *)
Fixpoint unwind (stack : list layer) (x : Context_ * outcome) : Context_ * outcome :=
  match stack with
  | [] => x
  | l :: stack => unwind stack (leave l x.1 x.2)
  end.
Fixpoint run_stack (layers stack : list layer) (h : Handler) (ctx : Context_) : Context_ * outcome :=
  match layers with
  | [] => unwind stack (h ctx)
  | l :: layers =>
      let '(ctx, o) := enter l ctx in
      match o with
      | Some o => unwind stack (ctx, o)
      | None => run_stack layers (l :: stack) h ctx
      end
  end.

(** One layer: entered, then either it answers or it is left after the rest. *)
Lemma denote_one l next ctx :
  denote l next ctx =
    let '(ctx, o) := enter l ctx in
    match o with Some o => (ctx, o) | None => let '(ctx, o) := next ctx in leave l ctx o end.
Proof.
  revert ctx. induction l as [name l IH| | | | | |]; intros ctx; cbn [denote enter leave].
  - unfold Traced. rewrite IH. destruct (enter l _) as [c [o|]]; [done|]. destruct (next c) as [c' o]. by destruct (leave l c' o).
  - unfold RecoveryWithReporter. by destruct (next ctx) as [c [| ]].
  - unfold RequireRequestID. destruct (String.eqb _ _); [done|]. by destruct (next ctx).
  - unfold Authenticate. destruct (authenticated _ _); [by destruct (next ctx)|done].
  - unfold LogRequests. by destruct (next ctx).
  - unfold applyPolicy. destruct (policy ctx) as [c [| |]]; [by destruct (next c)|done|done].
  - by destruct (before ctx) as [c [o|]].
Qed.

Lemma run_stack_nested layers stack h ctx :
  run_stack layers stack h ctx = unwind stack (foldr (fun l next => denote l next) h layers ctx).
Proof.
  revert stack ctx. induction layers as [|l layers IH]; intros stack ctx; [done|]. cbn [run_stack foldr].
  rewrite denote_one. destruct (enter l ctx) as [c [o|]]; [done|]. rewrite IH. cbn [unwind].
  by destruct (foldr _ h layers c).
Qed.

Lemma applyMiddlewares_nested h (ms : list Middleware) : applyMiddlewares h ms = foldr (fun m next => m next) h ms.
Proof. unfold applyMiddlewares. induction ms as [|m ms IH]; [done|]. cbn [rev foldr].
  rewrite foldl_app. cbn [foldl]. by rewrite IH. Qed.

(** A registered route: what it adds, and what it leaves as it was. *)
Lemma register_spec method h ms ps (r r' : Router V St) : register method (Some h) ms ps r = Ok r' ->
  exists key, normalizeRouteMethod method = Ok key /\ routes r !! key = None /\
    r' = MkRouter (<[key := MkRoute h ms ps]> (routes r)) (middlewares r) (middlewareGroups r) (exceptions r).
Proof.
  unfold register. destruct (normalizeRouteMethod method) as [key| |]; try done. cbn [result_bind].
  destruct (routes r !! key) eqn:E; [done|]. intros H. injection H as <-. by exists key.
Qed.

Lemma policies_are_layers h (ps : list MethodPolicy) :
  applyPolicies h ps = foldr (fun l next => denote l next) h (LPolicy <$> ps).
Proof.
  unfold applyPolicies. induction ps as [|p ps IH]; [done|]. cbn [rev foldr fmap list_fmap denote].
  rewrite foldl_app. cbn [foldl]. by rewrite IH.
Qed.
Lemma middlewares_are_layers h (ls : list layer) :
  applyMiddlewares h (denote <$> ls) = foldr (fun l next => denote l next) h ls.
Proof. rewrite applyMiddlewares_nested. induction ls as [|l ls IH]; [done|]. cbn. by rewrite IH. Qed.

Lemma ensurePolicies_all (ps : list MethodPolicy) : ensurePolicies (Some <$> ps) = Ok ps.
Proof.
  unfold ensurePolicies. assert (mapM id (Some <$> ps) = Some ps) as ->; [|done].
  apply mapM_Some. induction ps; by constructor.
Qed.

(** What a route registered through a group does, from the group's own lists. *)
Lemma group_handle_dispatch g method h ps (r r' : Router V St) gl ml :
  Group_HandleWithPolicies g method (Some h) (Some <$> ps) r = Ok r' ->
  middlewares r = denote <$> gl -> group_middlewares g = denote <$> ml ->
  exists key, normalizeRouteMethod (joinRouteMethod (prefix g) (TrimSpace method)) = Ok key /\ routes r !! key = None /\
  forall par who req w,
    Dispatch r' par who req w =
      if String.eqb (Method req) key
      then respond r' (run_stack (gl ++ ml ++ (LPolicy <$> group_policies g ++ ps)) [] h (MkContext par who req [] w))
      else Dispatch r par who req w.
Proof.
  intros H Hg Hm. unfold Group_HandleWithPolicies in H. rewrite ensurePolicies_all in H. cbn [result_bind] in H.
  destruct (normalizeRouteMethod method) as [m| |] eqn:En; try done. cbn [result_bind] in H.
  assert (m = TrimSpace method) as ->.
  { unfold normalizeRouteMethod in En. cbn zeta in En. destruct (_ || _ || _ || _); [done|by injection En]. }
  apply register_spec in H as (key & Hk & Hnone & ->). exists key. split; [exact Hk|]. split; [exact Hnone|].
  intros par who req w. unfold Dispatch, resolve. cbn [routes middlewares]. destruct (String.eqb_spec (Method req) key) as [->|Hne].
  - rewrite lookup_insert_eq, run_stack_nested. cbn [route_handler route_policies route_middlewares unwind].
    rewrite Hg, Hm, !middlewares_are_layers, policies_are_layers. by rewrite !foldr_app.
  - rewrite lookup_insert_ne by done. done.
Qed.

(** ** Nested groups

The calls a program makes on a group until it registers a route: a group
inside it, middlewares, named lists of middlewares, policies. *)
Inductive group_call :=
| Nest (prefix : string) (names : list string)
| Adds (ls : list layer)
| AddsNamed (names : list string)
| Guards (ps : list MethodPolicy).
Definition run_call (r : Router V St) (g : RouteGroup V St) (c : group_call) : result (RouteGroup V St) :=
  match c with
  | Nest prefix names => Group_Group g prefix names r
  | Adds ls => Group_Use (Some <$> (denote <$> ls)) g
  | AddsNamed names => Group_UseMiddlewareGroups names r g
  | Guards ps => Group_UsePolicies (Some <$> ps) g
  end.
Fixpoint run_calls (r : Router V St) (g : RouteGroup V St) (calls : list group_call) : result (RouteGroup V St) :=
  match calls with [] => Ok g | c :: calls => let* g := run_call r g c in run_calls r g calls end.

Definition denote_all (ls : list layer) : list Middleware := denote <$> ls.

(** What these calls say, read off one after the other: the segments of the
    path, the layers and the policies. *)
Definition named_layers (table : gmap string (list layer)) (names : list string) : list layer :=
  concat ((fun name => default [] (table !! TrimSpace name)) <$> names).
Definition segment (prefix : string) : string := Trim "." (TrimSpace prefix).
Definition call_path (c : group_call) : list string := match c with Nest prefix _ => [segment prefix] | _ => [] end.
Definition call_layers (table : gmap string (list layer)) (c : group_call) : list layer :=
  match c with Nest _ names | AddsNamed names => named_layers table names | Adds ls => ls | Guards _ => [] end.
Definition call_policies (c : group_call) : list MethodPolicy := match c with Guards ps => ps | _ => [] end.
(** The segments that are not empty, with a dot between two of them. *)
Definition dotted (segments : list string) : string := join "." (filter (fun s => s <> "") segments).

Lemma resolve_named (r : Router V St) (table : gmap string (list layer)) names ms : middlewareGroups r = denote_all <$> table ->
  resolveMiddlewareGroups names r = Ok ms -> ms = denote <$> named_layers table names.
Proof.
  intros Ht. revert ms. induction names as [|name names IH]; intros ms H; cbn [resolveMiddlewareGroups] in H; [by injection H as <-|].
  unfold named_layers. cbn [fmap list_fmap concat]. rewrite Ht, lookup_fmap in H.
  destruct (String.eqb (TrimSpace name) ""); [done|]. destruct (table !! TrimSpace name) as [ls|]; [|done]. cbn [fmap option_fmap option_map result_bind] in H.
  destruct (resolveMiddlewareGroups names r) as [rest| |]; [|done..]. injection H as <-. change (from_option id [] (Some ls)) with ls. rewrite fmap_app. f_equal. by apply IH.
Qed.

Lemma dotted_snoc segments s : dotted (segments ++ [s]) = joinRouteMethod (dotted segments) s.
Proof.
  assert (forall l x, Forall (fun s => s <> "") l -> x <> "" -> join "." (l ++ [x]) = if String.eqb (join "." l) "" then x else join "." l +:+ "." +:+ x) as Hj.
  { intros l x Hl Hx. induction Hl as [|y l Hy Hl IH]; [done|]. destruct l as [|z l].
    - cbn. by destruct (String.eqb_spec y "").
    - change (join "." ((y :: z :: l) ++ [x])) with (y +:+ "." +:+ join "." ((z :: l) ++ [x])). rewrite IH.
      change (join "." (y :: z :: l)) with (y +:+ "." +:+ join "." (z :: l)).
      destruct (String.eqb_spec (join "." (z :: l)) "") as [E|_].
      { exfalso. apply Forall_cons in Hl as [Hz _]. destruct z; [done|]. by destruct l. }
      destruct (String.eqb_spec (y +:+ "." +:+ join "." (z :: l)) "") as [E|_]; [by destruct y|]. by rewrite !string_app_assoc. }
  unfold dotted, joinRouteMethod. rewrite filter_app, filter_cons, filter_nil. destruct (String.eqb_spec s "") as [->|Hs].
  - rewrite decide_False by auto. rewrite app_nil_r. by destruct (String.eqb_spec (join "." (filter (fun s => s <> "") segments)) "") as [->|].
  - rewrite decide_True by done. apply Hj; [|done]. apply Forall_forall. by intros x [? _]%list_elem_of_filter.
Qed.

(** The group's lists are what the calls on it and around it say. *)
Definition described (table : gmap string (list layer)) (path : list string) (ls : list layer) (ps : list MethodPolicy) (g : RouteGroup V St) : Prop :=
  prefix g = dotted path /\ group_middlewares g = denote <$> ls /\ group_policies g = ps.

Lemma ensureMiddlewares_all (ms : list Middleware) : ensureMiddlewares (Some <$> ms) = Ok ms.
Proof.
  unfold ensureMiddlewares, validateMiddlewares. assert (mapM id (Some <$> ms) = Some ms) as ->; [|done].
  apply mapM_Some. induction ms; by constructor.
Qed.
Lemma prefix_segment p p' : normalizeRoutePrefix p = Ok p' -> p' = segment p.
Proof. unfold normalizeRoutePrefix, segment. destruct (contains _ _); [done|by intros [= <-]]. Qed.

Lemma run_calls_described (r : Router V St) (table : gmap string (list layer)) calls : middlewareGroups r = denote_all <$> table ->
  forall path ls ps g g', described table path ls ps g -> run_calls r g calls = Ok g' ->
  described table (path ++ (calls ≫= call_path)) (ls ++ (calls ≫= call_layers table)) (ps ++ (calls ≫= call_policies)) g'.
Proof.
  intros Ht. induction calls as [|c calls IH]; intros path ls ps g g' Hg H; cbn [run_calls] in H.
  { injection H as <-. cbn. by rewrite !app_nil_r. }
  destruct (run_call r g c) as [g1| |] eqn:Ec; [|done..]. cbn [result_bind] in H.
  cbn [mbind list_bind]. rewrite !app_assoc. apply (IH _ _ _ g1); [|exact H]. destruct Hg as (Hp & Hm & Hps).
  destruct c as [pre names|new|names|new]; cbn [run_call call_path call_layers call_policies] in *; rewrite ?app_nil_r.
  - unfold Group_Group in Ec. destruct (normalizeRoutePrefix pre) as [p| |] eqn:En; [|done..]. apply prefix_segment in En as ->. cbn [result_bind] in Ec.
    destruct (resolveMiddlewareGroups names r) as [ms| |] eqn:Er; [|done..]. injection Ec as <-.
    rewrite (resolve_named _ _ _ _ Ht Er), Hm, Hp, Hps. split; [by rewrite dotted_snoc|]. split; [symmetry; apply fmap_app|done].
  - unfold Group_Use in Ec. rewrite ensureMiddlewares_all in Ec. injection Ec as <-. rewrite Hm. split; [done|]. split; [symmetry; apply fmap_app|done].
  - unfold Group_UseMiddlewareGroups in Ec. destruct (resolveMiddlewareGroups names r) as [ms| |] eqn:Er; [|done..]. injection Ec as <-.
    rewrite (resolve_named _ _ _ _ Ht Er), Hm. split; [done|]. split; [symmetry; apply fmap_app|done].
  - unfold Group_UsePolicies in Ec. rewrite ensurePolicies_all in Ec. injection Ec as <-. by rewrite Hps.
Qed.

(** C17. A route registered through nested groups.  Take any group of the
    router and any calls on it: groups inside it, middlewares, named lists of
    middlewares, policies; then register a route in the innermost group.  That
    adds one method, whose name is the segments of all prefixes and the method
    with dots between them, and changes no other.  A request for it runs, like a
    stack machine, the router's middlewares, those of all the groups around it
    from the outermost to the innermost, then the policies of all of them and
    the route's own, each in the order they were added, and then the handler;
    the layers entered are left in reverse order whether the handler, a layer or
    a policy returns, refuses or panics. *)
Theorem group_route_runs_like_a_stack (r r' : Router V St) gl (table : gmap string (list layer)) pre names calls method h ps :
  middlewares r = denote <$> gl -> middlewareGroups r = denote_all <$> table ->
  (let* outer := Group pre names r in
   let* inner := run_calls r outer calls in
   Group_HandleWithPolicies inner method (Some h) (Some <$> ps) r) = Ok r' ->
  let path := segment pre :: (calls ≫= call_path) ++ [TrimSpace method] in
  let layers := gl ++ named_layers table names ++ (calls ≫= call_layers table) in
  let policies := (calls ≫= call_policies) ++ ps in
  routes r !! TrimSpace (dotted path) = None /\
  forall par who req w,
    Dispatch r' par who req w =
      if String.eqb (Method req) (TrimSpace (dotted path))
      then respond r' (run_stack (layers ++ (LPolicy <$> policies)) [] h (MkContext par who req [] w))
      else Dispatch r par who req w.
Proof.
  intros Hg Ht H. cbn zeta. destruct (Group pre names r) as [outer| |] eqn:Eo; [|done..]. cbn [result_bind] in H.
  destruct (run_calls r outer calls) as [inner| |] eqn:Ei; [|done..]. cbn [result_bind] in H.
  assert (described table [segment pre] (named_layers table names) [] outer) as Ho.
  { unfold Group in Eo. destruct (normalizeRoutePrefix pre) as [p| |] eqn:En; [|done..]. apply prefix_segment in En as ->. cbn [result_bind] in Eo.
    destruct (resolveMiddlewareGroups names r) as [ms| |] eqn:Er; [|done..]. injection Eo as <-. rewrite (resolve_named _ _ _ _ Ht Er).
    split; [|done]. change [segment pre] with ([] ++ [segment pre]). by rewrite dotted_snoc. }
  destruct (run_calls_described r table calls Ht _ _ _ _ _ Ho Ei) as (Hp & Hm & Hps).
  destruct (group_handle_dispatch _ _ _ _ _ _ _ _ H Hg Hm) as (key & Hk & Hnone & Hd).
  rewrite Hp, <- dotted_snoc in Hk. change ([segment pre] ++ (calls ≫= call_path)) with (segment pre :: (calls ≫= call_path)) in Hk.
  assert (key = TrimSpace (dotted (segment pre :: (calls ≫= call_path) ++ [TrimSpace method]))) as ->.
  { unfold normalizeRouteMethod in Hk. cbn zeta in Hk. destruct (_ || _ || _ || _); [done|]. injection Hk as <-. done. }
  split; [exact Hnone|]. intros par who req w. rewrite Hd, Hps. by rewrite <- !app_assoc.
Qed.

(** ** What a permission guards *)

(** A layer through which the request's principal passes unchanged. *)
Definition keeps_principal (l : layer) : Prop := forall ctx, principal (enter l ctx).1 = principal ctx.
Lemma mark_principal name (ctx : Context_) : principal (mark name ctx) = principal ctx.
Proof. reflexivity. Qed.
(** Only policies and the layers of an application can change it. *)
Fixpoint plain (l : layer) : bool :=
  match l with LPolicy _ | LCustom _ _ => false | LTraced _ l => plain l | _ => true end.
Lemma plain_keeps l : plain l = true -> keeps_principal l.
Proof.
  unfold keeps_principal. induction l as [name l IH| | | | | |]; intros Hp ctx; try done. cbn [plain enter] in *.
  specialize (IH Hp (mark (name +:+ ":before") ctx)). destruct (enter l _) as [c [o|]]; exact IH.
Qed.

Lemma guarded_stack l2 (refuses : Context_ -> Prop) guard ls :
  (forall ctx ctx', principal ctx' = principal ctx -> refuses ctx -> refuses ctx') ->
  (forall ctx, refuses ctx -> (enter guard ctx).2 <> None) ->
  Forall keeps_principal ls -> forall stack h1 h2 ctx, refuses ctx ->
  run_stack (ls ++ guard :: l2) stack h1 ctx = run_stack (ls ++ guard :: l2) stack h2 ctx.
Proof.
  intros Hr Hg Hl stack h1 h2. revert stack. induction Hl as [|l ls Hk Hl IH]; intros stack ctx Hc; cbn [app run_stack].
  - specialize (Hg ctx Hc). destruct (enter guard ctx) as [c [o|]]; done.
  - specialize (Hk ctx). destruct (enter l ctx) as [c [o|]]; [done|]. apply IH. by apply (Hr ctx).
Qed.

Definition lacks_permission (permission : string) (who : option Principal) : Prop :=
  forall p, who = Some p -> valid p = true -> HasPermission p permission = false.

(** C18. A handler behind [RequirePermission] is not reached without the
    permission: for a request whose principal lacks it, or which has none, the
    response and everything the request does are the same whatever the handler
    is, as long as no application layer before the policy changes the
    principal. *)
Theorem permission_guards_the_handler g method h1 h2 ps permission policy (r r1 r2 : Router V St) gl ml before after :
  RequirePermission permission = Ok policy ->
  group_policies g ++ ps = before ++ policy :: after ->
  Group_HandleWithPolicies g method (Some h1) (Some <$> ps) r = Ok r1 ->
  Group_HandleWithPolicies g method (Some h2) (Some <$> ps) r = Ok r2 ->
  middlewares r = denote <$> gl -> group_middlewares g = denote <$> ml ->
  Forall keeps_principal (gl ++ ml ++ (LPolicy <$> before)) ->
  forall par who req w, lacks_permission (TrimSpace permission) who -> Dispatch r1 par who req w = Dispatch r2 par who req w.
Proof.
  intros Hp Hps H1 H2 Hg Hm Hk par who req w Hw.
  assert (exceptions r1 = exceptions r /\ exceptions r2 = exceptions r) as [E1 E2].
  { split; [clear H2; rename H1 into H|clear H1; rename H2 into H]; unfold Group_HandleWithPolicies in H; rewrite ensurePolicies_all in H; cbn [result_bind] in H;
      destruct (normalizeRouteMethod method); try done; cbn [result_bind] in H; by apply register_spec in H as (? & _ & _ & ->). }
  destruct (group_handle_dispatch _ _ _ _ _ _ _ _ H1 Hg Hm) as (k1 & N1 & _ & D1).
  destruct (group_handle_dispatch _ _ _ _ _ _ _ _ H2 Hg Hm) as (k2 & N2 & _ & D2).
  rewrite D1, D2. assert (k2 = k1) as -> by congruence. destruct (String.eqb _ _); [|done].
  rewrite Hps, fmap_app, fmap_cons, !app_assoc.
  erewrite (guarded_stack _ (fun ctx => lacks_permission (TrimSpace permission) (principal ctx)) (LPolicy policy) _ _ _ _ [] h1 h2).
  - unfold respond. destruct (run_stack _ _ _ _) as [c o]. f_equal. destruct o; [|done]. unfold response. by rewrite E1, E2.
  - exact Hw.
  Unshelve.
  + intros ctx ctx' E. cbn beta. by rewrite E.
  + intros ctx Hc. unfold RequirePermission in Hp. cbn zeta in Hp. destruct (String.eqb _ ""); [done|]. injection Hp as <-. cbn [enter].
    unfold PrincipalFromContext. destruct (principal ctx) as [p|] eqn:E; [|done]. destruct (valid p) eqn:Hv; [|done].
    by rewrite (Hc p E Hv).
  + by rewrite <- app_assoc.
Qed.
End Layers.

(** ** A nested group with a policy *)
Module Sample.
Definition note (name : string) : layer := LCustom (V := string) (St := list string)
  (fun ctx => (with_world ctx (world ctx ++ ["enter " +:+ name]), None)) (fun ctx o => (with_world ctx (world ctx ++ ["leave " +:+ name]), o)).
Definition globals : list (layer (V := string) (St := list string)) := [LRecovery None; LTraced "id" LRequireRequestID].
Definition group_layers : list (layer (V := string) (St := list string)) := [LTraced "audit" (note "audit")].
Definition base : Router string (list string) :=
  MkRouter ∅ (denote <$> globals) {["audited" := denote <$> group_layers]} (fun e => Some (renderFrameworkException e)).
Definition may_write : MethodPolicy string (list string) :=
  match RequirePermission "notes.write" with Ok p => p | _ => fun ctx => (ctx, Accept) end.
Definition group : RouteGroup string (list string) := MkGroup "admin.notes" (denote <$> group_layers) [may_write].
Definition saves (text : string) : Handler string (list string) := fun ctx => (with_world ctx (world ctx ++ [text]), Returns (Some text) None).
Definition with_route (h : Handler string (list string)) : Router string (list string) :=
  match Group_HandleWithPolicies group " save" (Some h) [] base with Ok r => r | _ => base end.
Definition writer := MkPrincipal "ann" {["notes.write"]}.
Definition reader := MkPrincipal "bob" {["notes.read"]}.
Definition save_request := MkRequest "1" "admin.notes.save" "" ∅.

(** The group is the one that nested calls of [Group] make. *)
Definition named : gmap string (list (layer (V := string) (St := list string))) := {["audited" := group_layers]}.
Definition calls : list (group_call (V := string) (St := list string)) := [Nest "notes" ["audited"]; Guards [may_write]].
Example nested_group : (let* outer := Group ".admin. " [] base in run_calls base outer calls) = Ok group.
Proof. reflexivity. Qed.
Lemma base_named : middlewareGroups base = denote_all <$> named.
Proof. unfold base, named. cbn [middlewareGroups]. by rewrite map_fmap_singleton. Qed.
End Sample.

Import Sample.
Lemma group_route_runs_like_a_stack_witness :
  Dispatch (with_route (saves "hello")) Background (Some writer) save_request [] =
    (["enter audit"; "hello"; "leave audit"],
     inl (MkResponse "1" (Some "hello") None ["id:before"; "audit:before"; "audit:after"; "id:after"])).
Proof.
  destruct (group_route_runs_like_a_stack base (with_route (saves "hello")) globals named ".admin. " [] calls " save" (saves "hello") []
    eq_refl base_named eq_refl) as (_ & Hd).
  rewrite Hd. vm_compute. reflexivity.
Defined.

Lemma permission_guards_the_handler_witness :
  Dispatch (with_route (saves "hello")) Background (Some reader) save_request [] =
  Dispatch (with_route (saves "other")) Background (Some reader) save_request [].
Proof.
  apply (permission_guards_the_handler group " save" (saves "hello") (saves "other") [] "notes.write" may_write base _ _ globals group_layers [] []
    eq_refl eq_refl eq_refl eq_refl eq_refl eq_refl).
  - cbn [app globals group_layers fmap list_fmap]. repeat constructor; try (by apply plain_keeps).
  - intros p H _. injection H as <-. vm_compute. reflexivity.
Defined.
