(* ===== verification/RequestValidation.v ===== *)
(** * The presence contract of request payloads
    [backend/framework/request_validation.go]

    A payload is checked against the Go type of its request: fields without
    [omitempty] are required and not null.  Types are given by a table, as
    [reflect.Type] values that may refer to each other; the check accepts a
    payload exactly when it has its type by a typing relation that is stated
    without the code's functions. *)
From S2P Require Import Prelude GoStrings Json JsonDecode Exceptions.
Open Scope Z_scope.
Open Scope go_scope.

(** ** Types *)

Record struct_field := MkField {
  f_name : string;
  f_exported : bool;
  f_tag : string;     (* the tag's [json] part *)
  f_type : nat        (* an index in the table *)
}.
Inductive kind :=
| Struct (fields : list struct_field)
| Pointer (elem : nat)
| OtherKind.

Section Types.
Variable types : nat -> kind.

(** [for t.Kind() == reflect.Pointer { t = t.Elem() }]; [None] when the fuel
    does not reach the end of the pointers. *)
Fixpoint elem (fuel : nat) (t : nat) : option kind :=
  match types t with
  | Pointer t => match fuel with O => None | S fuel => elem fuel t end
  | k => Some k
  end.
Lemma elem_more fuel fuel' t k : elem fuel t = Some k -> (fuel <= fuel')%nat -> elem fuel' t = Some k.
Proof.
  revert fuel' t. induction fuel as [|fuel IH]; intros fuel' t H Hle; cbn [elem] in H.
  - destruct fuel'; cbn [elem]; destruct (types t); congruence.
  - destruct fuel' as [|fuel']; [lia|]. cbn [elem]. destruct (types t); try done. apply IH; [done|lia].
Qed.
End Types.

(** ** Fields *)

(** Name, [omitempty] and whether the field is left out. *)
Definition requestJSONField (f : struct_field) : string * bool * bool :=
  match split "," (f_tag f) with
  | [] => (f_name f, false, false)
  | first :: options =>
      if String.eqb first "-" then (EmptyString, false, true)
      else (if String.eqb first EmptyString then f_name f else first, existsb (String.eqb "omitempty") options, false)
  end.
Definition json_name (f : struct_field) : string := (requestJSONField f).1.1.
Definition omitEmpty (f : struct_field) : bool := (requestJSONField f).1.2.
Definition skipped (f : struct_field) : bool := negb (f_exported f) || (requestJSONField f).2.

Section Validation.
Context {V : Type}.
(** [strings.EqualFold]; [unicode.ToUpper] of the text of one rune; the order
    in which a [range] over the map of an object visits it. *)
Variable EqualFold : string -> string -> bool.
Variable ToUpper : string -> string.
Variable range_ : gmap string json -> list (string * json).

Definition requestFieldLabel (name : string) : string :=
  match name with
  | EmptyString => name
  | String _ r =>
      match cut_rune name with
      | Some (width, rest) => ToUpper (take_bytes width name) +:+ rest
      | None => ToUpper (encode_rune 65533) +:+ r
      end
  end.

Definition lookupJSONField (object : gmap string json) (name : string) : option json :=
  match object !! name with
  | Some v => Some v
  | None => snd <$> List.find (fun kv => EqualFold kv.1 name) (range_ object)
  end.

(** [json.Unmarshal] into a [map[string]json.RawMessage]: a later member of
    the same name replaces an earlier one; null leaves the map nil. *)
Definition as_object (v : json) : option (gmap string json) :=
  match v with JObject members => Some (list_to_map (rev members)) | _ => None end.

Definition violation (path rule message : string) : FieldViolation V := MkFieldViolation path rule message None.
Definition err_not_object := ErrNew "request payload must be an object".

Section Struct.
Variable types : nat -> kind.
Variable pointers : nat.  (* how many pointers in a row a type has at most *)

(** One field: its violations, or the error of a nested object. *)
Definition validate_field (nested : list struct_field -> json -> string -> result (list (FieldViolation V)))
    (object : gmap string json) (prefix : string) (f : struct_field) : result (list (FieldViolation V)) :=
  if skipped f then Ok []
  else
    let name := json_name f in
    let path := if String.eqb prefix EmptyString then name else prefix +:+ "." +:+ name in
    match lookupJSONField object name with
    | None => Ok (if omitEmpty f then [] else [violation path "required" (requestFieldLabel name +:+ " is required.")])
    | Some JNull => Ok (if omitEmpty f then [] else [violation path "not_null" (requestFieldLabel name +:+ " must not be null.")])
    | Some raw =>
        match elem types pointers (f_type f) with
        | Some (Struct fields) => nested fields raw path
        | _ => Ok []
        end
    end.
Fixpoint validate_fields (nested : list struct_field -> json -> string -> result (list (FieldViolation V)))
    (object : gmap string json) (prefix : string) (fields : list struct_field) : result (list (FieldViolation V)) :=
  match fields with
  | [] => Ok []
  | f :: fields =>
      let* first := validate_field nested object prefix f in
      let* rest := validate_fields nested object prefix fields in
      Ok (first ++ rest)
  end.
Fixpoint validateJSONStruct (fuel : nat) (fields : list struct_field) (payload : json) (prefix : string)
    : result (list (FieldViolation V)) :=
  match fuel with
  | O => Panicked "out of fuel"
  | S fuel =>
      match as_object payload with
      | None => Err err_not_object
      | Some object => validate_fields (validateJSONStruct fuel) object prefix fields
      end
  end.

(** The empty payload counts as an empty object. *)
Definition ValidateRequestPayload (t : nat) (payload : string) : option (exception V) :=
  match elem types pointers t with
  | Some (Struct fields) =>
      let text := if String.eqb (TrimSpace payload) EmptyString then String (chr 123) (String (chr 125) EmptyString) else payload in
      match Unmarshal text with
      | None => Some (RPCException (NewRPCError "invalid_params" "The request parameters are invalid."))
      | Some v =>
          match validateJSONStruct (S (json_depth v)) fields v EmptyString with
          | Ok [] => None
          | Ok violations => Some (ValidationException violations)
          | _ => Some (RPCException (NewRPCError "invalid_params" "The request parameters are invalid."))
          end
      end
  | _ => None
  end.

(** ** Types of payloads

Written down from what [encoding/json] says of a struct, without the functions
of the check.  A field is a member of the objects of its struct unless it is
not exported or its tag is ["-"]; the tag's text before the first comma is the
member's name, or else the field's own, and the options after it say whether
it may be left out. *)
Definition declares (f : struct_field) (name : string) (optional : bool) : Prop :=
  f_exported f = true /\ f_tag f <> "-" /\ exists first options,
    f_tag f = join "," (first :: options) /\ Forall (fun s => contains_char "," s = false) (first :: options) /\
    name = (if String.eqb first "" then f_name f else first) /\ (optional = true <-> "omitempty" ∈ options).

(** A value of a type: any value of a type that is no struct, a value of the
    type a pointer points to, and of a struct an object in which each member
    that is declared is there, is not null and is of the field's type, but for
    those that may be left out or null. *)
Inductive has_type : nat -> json -> Prop :=
| other_type t v : types t = OtherKind -> has_type t v
| pointer_type t t' v : types t = Pointer t' -> has_type t' v -> has_type t v
| struct_type t fields members : types t = Struct fields ->
    (forall f name optional, f ∈ fields -> declares f name optional ->
       (optional = true /\ forall key v, (key, v) ∈ members -> EqualFold key name = true -> v = JNull) \/
       exists key v, (key, v) ∈ members /\ EqualFold key name = true /\ v <> JNull /\ has_type (f_type f) v) ->
    has_type t (JObject members).

(** No two members of one object have the same name up to case. *)
Inductive unambiguous : json -> Prop :=
| plain_value v : (forall members, v <> JObject members) -> unambiguous v
| distinct_members members :
    (forall i j a b, members !! i = Some a -> members !! j = Some b -> EqualFold a.1 b.1 = true -> i = j) ->
    (forall key v, (key, v) ∈ members -> unambiguous v) -> unambiguous (JObject members).

(** ** The check decides the type *)

(** [range] visits the members of the map, in some order; [EqualFold] is an
    equivalence; following pointers comes to an end; and no tag starts with
    ["-,"], which the check takes for ["-"]. *)
Hypothesis range_all : forall object, range_ object ≡ₚ map_to_list object.
Hypothesis fold_refl : forall s, EqualFold s s = true.
Hypothesis fold_sym : forall s t, EqualFold s t = true -> EqualFold t s = true.
Hypothesis fold_trans : forall s t u, EqualFold s t = true -> EqualFold t u = true -> EqualFold s u = true.
Hypothesis pointers_end : forall t, is_Some (elem types pointers t).
Hypothesis plain_tags : forall t fields f, types t = Struct fields -> f ∈ fields -> has_prefix "-," (f_tag f) = false.

Lemma has_prefix_app p s : has_prefix p (p +:+ s) = true.
Proof.
  unfold has_prefix. induction p as [|a p IH]; [by destruct s|]. change (String a p +:+ s) with (String a (p +:+ s)). cbn [cut_prefix].
  by rewrite Ascii.eqb_refl.
Qed.

(** The check reads the fields of a struct as they are declared. *)
Lemma declares_spec f name optional : has_prefix "-," (f_tag f) = false ->
  declares f name optional <-> skipped f = false /\ name = json_name f /\ optional = omitEmpty f.
Proof using Type.
  intros Ht. clear -Ht. unfold declares, skipped, json_name, omitEmpty, requestJSONField.
  destruct (join_split "," (f_tag f)) as [Hj Hf]. pose proof (split_inv "," (f_tag f)) as Hi.
  destruct (split "," (f_tag f)) as [|first options] eqn:Es; [done|]. clear Hi.
  assert (String.eqb first "-" = true -> f_tag f = "-") as Hdash.
  { intros ->%String.eqb_eq. destruct options as [|o options]; [by rewrite <- Hj|]. exfalso.
    assert (f_tag f = "-," +:+ join "," (o :: options)) as E by (rewrite <- Hj; reflexivity). by rewrite E, has_prefix_app in Ht. }
  assert (forall o, (o = true <-> "omitempty" ∈ options) <-> o = existsb (String.eqb "omitempty") options) as Hopt.
  { intros o. assert (existsb (String.eqb "omitempty") options = true <-> "omitempty" ∈ options) as <-.
    { rewrite existsb_exists. split; [intros (x & Hx & <-%String.eqb_eq); by apply list_elem_of_In|intros Hx; exists "omitempty"; split; [by apply list_elem_of_In|done]]. }
    destruct o, (existsb _ _); intuition congruence. }
  split.
  - intros (He & Hne & first' & options' & Hj' & Hf' & Hn & Ho). rewrite He. cbn [negb orb].
    assert (first' :: options' = first :: options) as [= -> ->].
    { rewrite <- Es, Hj'. symmetry. by apply split_join. }
    destruct (String.eqb first "-") eqn:Ed; [by destruct Hne; apply Hdash|]. cbn. split; [done|]. split; [done|]. by apply Hopt.
  - intros (Hs & -> & ->). apply orb_false_iff in Hs as [He Hs]. destruct (f_exported f); [|done].
    destruct (String.eqb_spec first "-") as [->|Hne]; [done|]. split; [done|]. split.
    + intros E. rewrite E in Es. cbn in Es. injection Es as <- <-. done.
    + exists first, options. cbn. split; [done|]. split; [done|]. split; [done|]. by apply Hopt.
Qed.

(** The member the check finds is the one that has the name up to case. *)
Lemma as_object_lookup members key v :
  (forall i j a b, members !! i = Some a -> members !! j = Some b -> EqualFold a.1 b.1 = true -> i = j) ->
  (list_to_map (rev members) : gmap string json) !! key = Some v <-> (key, v) ∈ members.
Proof using fold_refl.
  intros Hd. rewrite <- elem_of_list_to_map; [by rewrite <- Permutation_rev|].
  rewrite <- Permutation_rev. apply NoDup_alt. intros i j k Hi Hj.
  rewrite list_lookup_fmap in Hi, Hj. destruct (members !! i) as [a|] eqn:Ea; [|done]. destruct (members !! j) as [b|] eqn:Eb; [|done].
  injection Hi as <-. injection Hj as Hb. apply (Hd i j a b); [done..|]. by rewrite Hb.
Qed.
Lemma lookupJSONField_member members object name v :
  (forall i j a b, members !! i = Some a -> members !! j = Some b -> EqualFold a.1 b.1 = true -> i = j) ->
  as_object (JObject members) = Some object ->
  lookupJSONField object name = Some v <-> exists key, (key, v) ∈ members /\ EqualFold key name = true.
Proof using fold_refl fold_sym fold_trans range_all.
  intros Hd [= <-]. set (object := list_to_map (rev members)). pose proof (fun key v => as_object_lookup members key v Hd) as Hl. fold object in Hl.
  assert (forall key v key' v', (key, v) ∈ members -> (key', v') ∈ members -> EqualFold key name = true -> EqualFold key' name = true -> v = v') as Huniq.
  { intros key w key' w' [i Hi]%list_elem_of_lookup [j Hj]%list_elem_of_lookup E E'.
    assert (i = j) as -> by (apply (Hd _ _ _ _ Hi Hj); cbn; eauto). congruence. }
  assert (forall w, lookupJSONField object name = Some w -> exists key, (key, w) ∈ members /\ EqualFold key name = true) as Hsound.
  { unfold lookupJSONField. intros w Hw. destruct (object !! name) as [u|] eqn:E.
    - injection Hw as ->. apply Hl in E. by exists name.
    - apply fmap_Some in Hw as ([k u] & Hfind & ->). apply List.find_some in Hfind as [Hin Hk]. exists k. split; [|exact Hk].
      apply Hl, elem_of_map_to_list. rewrite <- range_all. by apply list_elem_of_In. }
  split; [apply Hsound|]. intros (key & Hin & Hk). destruct (lookupJSONField object name) as [w|] eqn:E.
  - destruct (Hsound w eq_refl) as (key' & Hin' & Hk'). by rewrite (Huniq _ _ _ _ Hin Hin' Hk Hk').
  - exfalso. unfold lookupJSONField in E. destruct (object !! name); [done|]. apply fmap_None in E.
    pose proof (List.find_none _ _ E (key, v)) as Hno. cbn in Hno. rewrite Hno in Hk; [done|].
    apply list_elem_of_In. rewrite range_all. by apply elem_of_map_to_list, Hl.
Qed.

(** A type is that of what its pointers lead to. *)
Lemma has_type_elem fuel t k v : elem types fuel t = Some k -> has_type t v <->
  match k with
  | Struct fields => exists members, v = JObject members /\
      forall f name optional, f ∈ fields -> declares f name optional ->
       (optional = true /\ forall key v, (key, v) ∈ members -> EqualFold key name = true -> v = JNull) \/
       exists key v, (key, v) ∈ members /\ EqualFold key name = true /\ v <> JNull /\ has_type (f_type f) v
  | _ => True
  end.
Proof using Type.
  assert (forall t fields, types t = Struct fields -> has_type t v <-> exists members, v = JObject members /\
      forall f name optional, f ∈ fields -> declares f name optional ->
       (optional = true /\ forall key v, (key, v) ∈ members -> EqualFold key name = true -> v = JNull) \/
       exists key v, (key, v) ∈ members /\ EqualFold key name = true /\ v <> JNull /\ has_type (f_type f) v) as Hstruct.
  { intros t0 fields Et. split; [|intros (members & -> & H); by eapply struct_type].
    intros H. inversion H as [t1 v1 H1|t1 t2 v1 H1 _|t1 fields1 members H1 H2]; subst; [congruence..|]. assert (fields1 = fields) as -> by congruence. by exists members. }
  revert t. induction fuel as [|fuel IH]; intros t He; cbn [elem] in He; destruct (types t) as [fields|t'|] eqn:Et; try done.
  - injection He as <-. by apply Hstruct.
  - injection He as <-. split; [done|]. by constructor.
  - injection He as <-. by apply Hstruct.
  - rewrite <- (IH t' He). split; [|by eapply pointer_type].
    intros H. inversion H as [t1 v1 H1|t1 t2 v1 H1 H2|t1 fields1 members H1 H2]; subst; [congruence| |congruence]. by assert (t2 = t') as -> by congruence.
  - injection He as <-. split; [done|]. by constructor.
Qed.

Lemma validate_fields_ok nested object prefix fields :
  validate_fields nested object prefix fields = Ok [] <-> Forall (fun f => validate_field nested object prefix f = Ok []) fields.
Proof.
  induction fields as [|f fields IH]; [split; [constructor|done]|]. cbn [validate_fields]. rewrite Forall_cons, <- IH.
  destruct (validate_field nested object prefix f) as [l| |]; cbn [result_bind]; [|split; [done|by intros []]..].
  destruct (validate_fields nested object prefix fields) as [l'| |]; cbn [result_bind]; [|split; [done|by intros []]..].
  split; [intros H|by intros [[= ->] [= ->]]]. injection H as H. apply app_nil in H as [-> ->]. done.
Qed.

Lemma lookup_member object name v : lookupJSONField object name = Some v -> exists key, object !! key = Some v.
Proof using range_all.
  unfold lookupJSONField. destruct (object !! name) as [v'|] eqn:E; [intros H; exists name; congruence|]. intros H.
  apply fmap_Some in H as ([k v'] & Hf & ->). apply List.find_some in Hf as [Hin _]. exists k. apply elem_of_map_to_list.
  rewrite <- range_all. by apply list_elem_of_In.
Qed.
Lemma member_depth payload object name v : as_object payload = Some object -> lookupJSONField object name = Some v ->
  (json_depth v < json_depth payload)%nat.
Proof.
  intros Ho Hl. apply lookup_member in Hl as [key Hk]. destruct payload as [| | | | |members]; try done. injection Ho as <-.
  apply elem_of_list_to_map_2 in Hk. rewrite list_elem_of_In, <- in_rev, <- list_elem_of_In in Hk. cbn [json_depth].
  assert (forall (l : list (string * json)) kv, kv ∈ l -> json_depth kv.2 <= list_max ((fun kv => json_depth kv.2) <$> l))%nat as Hmax.
  { induction 1 as [kv l|kv kv' l _ IH]; rewrite fmap_cons; unfold list_max in *; cbn [fold_right]; lia. }
  specialize (Hmax _ _ Hk). cbn [snd] in Hmax. lia.
Qed.

(** One field of a struct against its member. *)
Lemma validateJSONStruct_decides fuel : forall t fields v prefix, (json_depth v < fuel)%nat ->
  elem types pointers t = Some (Struct fields) -> unambiguous v ->
  validateJSONStruct fuel fields v prefix = Ok [] <-> has_type t v.
Proof using fold_refl fold_sym fold_trans pointers_end plain_tags range_all.
  induction fuel as [|fuel IH]; intros t fields v prefix Hd Ht Hu; [lia|]. cbn [validateJSONStruct].
  rewrite (has_type_elem _ _ _ _ Ht). destruct v as [| | | | |members]; try (split; [done|by intros (? & ? & _)]).
  inversion Hu as [? Hno|? Hdist Hsub]; [by destruct (Hno members)|subst]. cbn [as_object]. set (object := list_to_map (rev members)).
  assert (exists t0, types t0 = Struct fields) as [t0 Ht0].
  { clear -Ht. revert t Ht. generalize pointers as n. induction n as [|n IHn]; intros t Ht; cbn [elem] in Ht;
      destruct (types t) as [fs|t'|] eqn:Et; try done; try (injection Ht as <-; by exists t). by apply (IHn t'). }
  assert (forall f, f ∈ fields -> skipped f = false -> forall prefix',
    validate_field (validateJSONStruct fuel) object prefix' f = Ok [] <->
    (omitEmpty f = true /\ forall key v, (key, v) ∈ members -> EqualFold key (json_name f) = true -> v = JNull) \/
    exists key v, (key, v) ∈ members /\ EqualFold key (json_name f) = true /\ v <> JNull /\ has_type (f_type f) v) as Hfield.
  { intros f Hf Hs prefix'. unfold validate_field. rewrite Hs.
    pose proof (fun v => lookupJSONField_member members object (json_name f) v Hdist eq_refl) as Hl.
    destruct (lookupJSONField object (json_name f)) as [raw|] eqn:El.
    2:{ assert (forall key v, (key, v) ∈ members -> EqualFold key (json_name f) = true -> False) as Hnone
          by (intros key v H1 H2; by assert (None = Some v) by (apply Hl; eauto)).
        destruct (omitEmpty f); [split; [intros _; left; split; [done|]; intros key v H1 H2; by destruct (Hnone key v)|done]|].
        split; [done|]. intros [[? _]|(key & v & H1 & H2 & _)]; [done|by destruct (Hnone key v)]. }
    pose proof (proj1 (Hl raw) eq_refl) as (key0 & Hin0 & Hk0).
    assert (forall key v, (key, v) ∈ members -> EqualFold key (json_name f) = true -> v = raw) as Huniq
      by (intros key v H1 H2; assert (Some raw = Some v) by (apply Hl; eauto); congruence).
    assert (raw <> JNull -> match elem types pointers (f_type f) with
      | Some (Struct fields') => validateJSONStruct fuel fields' raw (if String.eqb prefix' EmptyString then json_name f else prefix' +:+ "." +:+ json_name f)
      | _ => Ok [] end = Ok [] <->
      (omitEmpty f = true /\ forall key v, (key, v) ∈ members -> EqualFold key (json_name f) = true -> v = JNull) \/
      exists key v, (key, v) ∈ members /\ EqualFold key (json_name f) = true /\ v <> JNull /\ has_type (f_type f) v) as Hgo.
    { intros Hnn.
      assert (match elem types pointers (f_type f) with
        | Some (Struct fields') => validateJSONStruct fuel fields' raw (if String.eqb prefix' EmptyString then json_name f else prefix' +:+ "." +:+ json_name f)
        | _ => Ok [] end = Ok [] <-> has_type (f_type f) raw) as ->.
      { destruct (pointers_end (f_type f)) as [k Hk]. rewrite Hk. destruct k as [fields'| |]; [|by rewrite (has_type_elem _ _ _ _ Hk)..].
        apply IH; [|done|by eapply Hsub]. pose proof (member_depth (JObject members) object _ _ eq_refl El). lia. }
      split; [intros H; right; by exists key0, raw|].
      intros [[_ H]|(key & v & H1 & H2 & _ & H4)]; [by destruct Hnn; eapply H|]. by rewrite (Huniq _ _ H1 H2) in H4. }
    destruct raw; try (by apply Hgo).
    destruct (omitEmpty f); [split; [intros _; left; split; [done|exact Huniq]|done]|].
    split; [done|]. intros [[? _]|(key & v & H1 & H2 & H3 & _)]; [done|by destruct H3; eapply Huniq]. }
  rewrite validate_fields_ok, Forall_forall. split.
  - intros H. exists members. split; [done|]. intros f name optional Hf (Hs & -> & ->)%(declares_spec f name optional (plain_tags _ _ _ Ht0 Hf)).
    by apply (Hfield f Hf Hs prefix), H.
  - intros (? & [= <-] & H) f Hf. destruct (skipped f) eqn:Hs; [unfold validate_field; by rewrite Hs|].
    apply (Hfield f Hf Hs). apply H; [done|]. by apply declares_spec; [eapply plain_tags|].
Qed.

End Struct.
End Validation.

(** ** A request with a recursive type *)
Module Sample.
Definition fold (a b : string) : bool := String.eqb (to_upper a) (to_upper b).
(** [type Note struct { Title string; Author *Author `json:"author,omitempty"` }]
    and [type Author struct { Name string `json:"name"`; Next *Author `json:",omitempty"` }]. *)
Definition note_fields := [MkField "Title" true "" 1; MkField "Author" true "author,omitempty" 2; MkField "cache" false "" 1].
Definition types (t : nat) : kind :=
  match t with
  | 0%nat => Struct note_fields
  | 2%nat => Pointer 3
  | 3%nat => Struct [MkField "Name" true "name" 1; MkField "Next" true ",omitempty" 2; MkField "Secret" true "-" 1]
  | _ => OtherKind
  end.
Definition check := ValidateRequestPayload (V := Z) fold to_upper map_to_list types 1 0.
Definition good : string := doc "{'title': 'a', 'author': {'name': 'x', 'Next': {'NAME': 'y'}}}".
Definition bad : string := doc "{'author': {'name': 'x', 'Next': {'name': null}}}".

Example reported : check bad = Some (ValidationException
  [MkFieldViolation "Title" "required" "Title is required." None;
   MkFieldViolation "author.Next.name" "not_null" "Name must not be null." None]).
Proof. vm_compute. reflexivity. Qed.
End Sample.

Lemma fold_is_equivalence :
  (forall s, Sample.fold s s = true) /\ (forall s t, Sample.fold s t = true -> Sample.fold t s = true) /\
  (forall s t u, Sample.fold s t = true -> Sample.fold t u = true -> Sample.fold s u = true).
Proof.
  unfold Sample.fold. split; [intros s; apply String.eqb_refl|]. split; [intros s t; by rewrite String.eqb_sym|].
  intros s t u ->%String.eqb_eq. done.
Qed.
Lemma sample_types_ok :
  (forall t, is_Some (elem Sample.types 1 t)) /\
  (forall t fields f, Sample.types t = Struct fields -> f ∈ fields -> has_prefix "-," (f_tag f) = false).
Proof.
  split; [intros [|[|[|[|t]]]]; by eexists|]. intros [|[|[|[|t]]]] fields f H Hf; try done; injection H as <-;
    apply list_elem_of_In in Hf; cbn in Hf; decompose [or] Hf; subst; done.
Qed.
Lemma sample_object members :
  ForallOrdPairs (fun a b => Sample.fold a.1 b.1 = false) members -> Forall (fun kv => unambiguous Sample.fold kv.2) members ->
  unambiguous Sample.fold (JObject members).
Proof.
  intros Hp Hf. assert (forall i j a b, (i < j)%nat -> members !! i = Some a -> members !! j = Some b -> Sample.fold a.1 b.1 = false) as Hij.
  { clear Hf. induction Hp as [|a0 l Ha _ IH]; [done|]. intros [|i] [|j] a b Hlt Hi Hj; try lia; cbn in Hi, Hj.
    - injection Hi as <-. rewrite List.Forall_forall in Ha. by apply Ha, list_elem_of_In, list_elem_of_lookup_2 with j.
    - by apply (IH i j); [lia|..]. }
  apply distinct_members.
  - intros i j a b Hi Hj He. destruct (Nat.lt_trichotomy i j) as [H|[H|H]]; [|done|].
    + by rewrite (Hij i j a b H Hi Hj) in He.
    + apply fold_is_equivalence in He. by rewrite (Hij j i b a H Hj Hi) in He.
  - intros key v Hin. rewrite Forall_forall in Hf. exact (Hf _ Hin).
Qed.
Ltac distinct_sample := repeat first [apply sample_object|by apply plain_value|constructor]; try (vm_compute; reflexivity).
Lemma unambiguous_good v : Unmarshal Sample.good = Some v -> unambiguous Sample.fold v.
Proof. intros H. vm_compute in H. injection H as <-. distinct_sample. Qed.
Lemma unambiguous_bad v : Unmarshal Sample.bad = Some v -> unambiguous Sample.fold v.
Proof. intros H. vm_compute in H. injection H as <-. distinct_sample. Qed.
