(* ===== verification/Statements.v ===== *)
(** * Calls that are programs of statements on a shared database

    A method of a store that keeps its data in a database is a program of
    statements, each of which the database carries out at once, with anything
    other clients do in between.  A statement may be answered, refused, or
    carried out without its answer arriving.  A program is run alone
    ([perform]) or among others ([advance]). *)
From S2P Require Import Prelude GoTime GoStrings.
Open Scope Z_scope.
Open Scope go_scope.

(** What becomes of one statement: the database carries it out and the answer
    arrives; it is not carried out; it is carried out and the answer is lost. *)
Inductive db_outcome :=
| Answered
| Refused (err : goerror)
| Lost (err : goerror).

(** A call on a database with contents [D]: it is over with a result, it goes
    around a loop more often than its environment provides for, or its next
    statement is [s] and it goes on with the statement's answer. *)
Inductive db_call (D A : Type) : Type :=
| Done (r : result A)
| Unfinished
| Statement (B : Type) (s : D -> D * (goerror + B)) (k : goerror + B -> db_call D A).
Arguments Done {D A} r.
Arguments Unfinished {D A}.
Arguments Statement {D A B} s k.

Definition execute {D B} (o : db_outcome) (s : D -> D * (goerror + B)) (d : D) : D * (goerror + B) :=
  match o with
  | Answered => s d
  | Refused err => (d, inl err)
  | Lost err => ((s d).1, inl err)
  end.

(** [perform os p d]: the call alone, its statements having the outcomes [os]. *)
Fixpoint perform {D A} (os : nat -> db_outcome) (p : db_call D A) (d : D) : D * option (result A) :=
  match p with
  | Done r => (d, Some r)
  | Unfinished => (d, None)
  | Statement s k => let '(d', a) := execute (os O) s d in perform (fun n => os (S n)) (k a) d'
  end.

(** The next statement of a call among others. *)
Definition advance {D A} (o : db_outcome) (p : db_call D A) (d : D) : option (D * db_call D A) :=
  match p with
  | Statement s k => let '(d', a) := execute o s d in Some (d', k a)
  | _ => None
  end.

Fixpoint map_call {D A B} (f : A -> B) (p : db_call D A) : db_call D B :=
  match p with
  | Done r => Done (match r with Ok a => Ok (f a) | Err err => Err err | Panicked m => Panicked m end)
  | Unfinished => Unfinished
  | Statement s k => Statement s (fun a => map_call f (k a))
  end.

(** ** Clients of one database

    The database, the calls under way, one per client, and the results of the
    calls that came back, the last one first. *)
Record system (D A : Type) := System {
  sys_db : D;
  sys_calls : gmap nat (db_call D A);
  sys_returned : list (result A)
}.
Arguments System {D A}.
Arguments sys_db {D A}.
Arguments sys_calls {D A}.
Arguments sys_returned {D A}.

Section Clients.
Context {D A : Type}.

(** Client [i] goes on with [p] on the database [d]. *)
Definition goes_on (x : system D A) (d : D) (i : nat) (p : db_call D A) : system D A :=
  match p with
  | Done r => System d (delete i (sys_calls x)) (r :: sys_returned x)
  | Unfinished => System d (delete i (sys_calls x)) (sys_returned x)
  | Statement _ _ => System d (<[i := p]> (sys_calls x)) (sys_returned x)
  end.

(** A client without a call starts one among [calls], or the next statement of
    a call is carried out. *)
Inductive system_step (calls : db_call D A -> Prop) (x : system D A) : system D A -> Prop :=
| step_call i p : sys_calls x !! i = None -> calls p -> system_step calls x (goes_on x (sys_db x) i p)
| step_statement i p o d p' : sys_calls x !! i = Some p -> advance o p (sys_db x) = Some (d, p') ->
    system_step calls x (goes_on x d i p').

Inductive system_run (calls : db_call D A -> Prop) : system D A -> system D A -> Prop :=
| system_refl x : system_run calls x x
| system_more x y z : system_step calls x y -> system_run calls y z -> system_run calls x z.

(** What is left of a call among [calls] after some of its statements. *)
Inductive in_flight (calls : db_call D A -> Prop) : db_call D A -> Prop :=
| flight_start p : calls p -> in_flight calls p
| flight_later B (s : D -> D * (goerror + B)) k d o :
    in_flight calls (Statement s k) -> in_flight calls (k (execute o s d).2).

Definition calls_in_flight (calls : db_call D A -> Prop) (x : system D A) : Prop :=
  map_Forall (fun _ => in_flight calls) (sys_calls x).

Lemma in_flight_goes_on calls x d i p : calls_in_flight calls x -> in_flight calls p ->
  calls_in_flight calls (goes_on x d i p).
Proof.
  intros Hc Hp. destruct p; cbn; [by apply map_Forall_delete..|by apply map_Forall_insert_2].
Qed.

Lemma in_flight_step calls x y : calls_in_flight calls x -> system_step calls x y -> calls_in_flight calls y.
Proof.
  intros Hc [i p Hi Hp|i p o d p' Hi Ha]; apply in_flight_goes_on; [done|by apply flight_start|done|].
  pose proof (Hc _ _ Hi) as Hp. destruct p as [r| |B s k]; [done..|]. cbn in Ha.
  destruct (execute o s (sys_db x)) as [d1 a] eqn:E. injection Ha as _ <-.
  replace a with (execute o s (sys_db x)).2 by (by rewrite E). by apply flight_later.
Qed.

(** The system after the next statement of client [i], answered. *)
Definition step_of (i : nat) (x : system D A) : option (system D A) :=
  match sys_calls x !! i with
  | Some p => match advance Answered p (sys_db x) with
              | Some (d, p') => Some (goes_on x d i p')
              | None => None
              end
  | None => None
  end.
Lemma step_of_step calls i x y : step_of i x = Some y -> system_step calls x y.
Proof.
  unfold step_of. destruct (sys_calls x !! i) as [p|] eqn:Hi; [|done].
  destruct (advance Answered p (sys_db x)) as [[d p']|] eqn:Ha; [|done]. intros [= <-].
  by eapply step_statement.
Qed.

(** Stepping, for concrete systems. *)
Definition system_moves (i : nat) (x : system D A) : bool :=
  match step_of i x with Some _ => true | None => false end.
Definition system_next (i : nat) (x : system D A) : system D A :=
  match step_of i x with Some y => y | None => x end.
Lemma system_next_step calls i x : system_moves i x = true -> system_step calls x (system_next i x).
Proof.
  unfold system_moves, system_next. destruct (step_of i x) eqn:E; [|done]. intros _. by apply (step_of_step _ i).
Qed.

Definition returns (Q : result A -> Prop) (p : db_call D A) : Prop :=
  match p with Done r => Q r | _ => True end.

(** From a [good] database every statement of the call, whatever answers a
    database may have given before, leaves a good one, on which [Q] holds of what the call returns
    then.  A call that returns at once satisfies [Q] anyway. *)
Fixpoint obeys (good : D -> Prop) (Q : D -> result A -> Prop) (p : db_call D A) : Prop :=
  match p with
  | Statement s k =>
      (forall d o, good d ->
         good (execute o s d).1 /\ returns (Q (execute o s d).1) (k (execute o s d).2)) /\
      (forall d o, obeys good Q (k (execute o s d).2))
  | _ => True
  end.

Definition obeys_call (good : D -> Prop) (Q : D -> result A -> Prop) (p : db_call D A) : Prop :=
  obeys good Q p /\ forall d, returns (Q d) p.

Lemma in_flight_obeys calls good Q p :
  (forall p, calls p -> obeys_call good Q p) -> in_flight calls p -> obeys good Q p.
Proof.
  intros Hcalls Hp. induction Hp as [p Hp|B s k d o _ IH]; [by apply Hcalls|]. by apply IH.
Qed.

(** One step of a system whose calls obey. *)
Lemma system_step_obeys calls good Q x y :
  (forall p, calls p -> obeys_call good Q p) -> calls_in_flight calls x -> good (sys_db x) ->
  system_step calls x y ->
  good (sys_db y) /\
  (sys_returned y = sys_returned x \/
   exists r, sys_returned y = r :: sys_returned x /\ Q (sys_db y) r).
Proof.
  intros Hcalls Hc Hgood [i p Hi Hp|i p o d p' Hi Ha].
  - destruct (Hcalls p Hp) as [_ Hr]. specialize (Hr (sys_db x)). destruct p as [r| |]; cbn in *; eauto.
  - pose proof (in_flight_obeys calls good Q p Hcalls (Hc _ _ Hi)) as Hob.
    destruct p as [r| |B s k]; [done..|]. cbn in Ha, Hob. destruct Hob as [Hs _].
    specialize (Hs (sys_db x) o Hgood). destruct (execute o s (sys_db x)) as [d1 a].
    injection Ha as <- <-. cbn in Hs. destruct Hs as [Hg Hr].
    destruct (k a) as [r| |]; cbn in *; eauto.
Qed.

(** An invariant of the database along a run, and a property of what is
    returned during it. *)
Lemma system_run_obeys calls good (Q : result A -> Prop) x y :
  (forall p, calls p -> obeys_call good (fun _ => Q) p) -> calls_in_flight calls x -> good (sys_db x) ->
  system_run calls x y ->
  good (sys_db y) /\ exists new, sys_returned y = new ++ sys_returned x /\ Forall Q new.
Proof.
  intros Hcalls Hc Hgood Hrun. induction Hrun as [x|x y z Hstep _ IH]; [split; [done|by exists []]|].
  destruct (system_step_obeys calls good _ x y Hcalls Hc Hgood Hstep) as [Hgood' Hr].
  destruct (IH (in_flight_step _ _ _ Hc Hstep) Hgood') as [Hz (new & E & Hnew)]. split; [done|].
  destruct Hr as [Hr|(r & Hr & Hq)]; rewrite E, Hr; [by exists new|].
  exists (new ++ [r]). rewrite <- app_assoc. split; [done|]. apply Forall_app; auto.
Qed.
End Clients.

(** ** Transitions

    A call that returns a value made the transition of that value.  Otherwise
    it changed nothing, or, unless that is certain not to happen, it made a
    transition whose answer it did not get. *)
Definition settled (o : db_outcome) : Prop := match o with Lost _ => False | _ => True end.
Definition all_settled (os : nat -> db_outcome) : Prop := forall n, settled (os n).

Section Effects.
Context {D : Type} (ok : D -> Prop).

Definition effect {A} (certain : Prop) (tr : A -> D -> D -> Prop) (d d' : D) (r : option (result A)) : Prop :=
  ok d' /\
  match r with
  | Some (Ok a) => tr a d d'
  | _ => d' = d \/ (~ certain /\ exists a, tr a d d')
  end.

Lemma effect_none {A} certain (tr : A -> D -> D -> Prop) d r :
  ok d -> (forall a, r <> Some (Ok a)) -> effect certain tr d d r.
Proof. intros Hok Hr. split; [done|]. destruct r as [[a| |]|]; auto. by destruct (Hr a). Qed.

(** A method that is one statement of at most one row; [counted] is the error
    of [RowsAffected]. *)
Lemma one_statement_effect (query : D -> D * (goerror + Z)) fin (counted : option goerror) os tr d d' r :
  ok d ->
  (forall a : goerror + Z, fin a = Ok tt <-> a = inr 1 /\ counted = None) ->
  (exists a, query d = (d, a) /\ a <> inr 1) \/ (exists d1, query d = (d1, inr 1) /\ ok d1 /\ tr tt d d1) ->
  perform os (Statement query (fun a => Done (fin a))) d = (d', r) ->
  effect (all_settled os /\ counted = None) tr d d' r.
Proof.
  intros Hok Hfin Hq. cbn [perform].
  assert (forall a, a <> inr 1 -> forall b, Some (fin a) <> Some (Ok b)) as Hno
    by (intros a Ha [] [= E]; by apply Hfin in E as [? _]).
  destruct Hq as [(a & Hq & Ha)|(d1 & Hq & Hok1 & Htr)]; destruct (os O) as [|err|err] eqn:Ho;
    cbn [execute]; rewrite ?Hq; cbn; intros [= <- <-]; try (by apply effect_none; [done|apply Hno]).
  - split; [done|]. destruct (fin (inr 1)) as [[]|e|m] eqn:E; [done|right..]; (split; [|by exists tt]);
      intros [_ Hc]; assert (fin (inr 1) = Ok tt) as E' by (by apply Hfin); congruence.
  - split; [done|]. destruct (fin (inl err)) as [[]|e|m] eqn:E; [by apply Hfin in E as [? _]|right..];
      (split; [|by exists tt]); intros [Hs _]; specialize (Hs O); by rewrite Ho in Hs.
Qed.
End Effects.

(** ** Calls whose statements keep an invariant *)
Section Preserving.
Context {D : Type} (good : D -> Prop).

Definition preserves {B} (s : D -> D * (goerror + B)) : Prop := forall d, good d -> good (s d).1.

Lemma preserves_execute {B} (s : D -> D * (goerror + B)) o d : preserves s -> good d -> good (execute o s d).1.
Proof. intros Hs Hd. destruct o; cbn; [by apply Hs|done|by apply Hs]. Qed.

Lemma preserves_query {B} (q : D -> D * (goerror + B)) : (forall d, (q d).1 = d) -> preserves q.
Proof. intros Hq d Hd. by rewrite Hq. Qed.

Fixpoint all_preserve {A} (p : db_call D A) : Prop :=
  match p with
  | Statement s k => preserves s /\ forall a, all_preserve (k a)
  | _ => True
  end.

(** They obey whatever holds of every result. *)
Lemma all_preserve_obeys {A B} (f : A -> B) (Q : D -> result B -> Prop) p :
  (forall d r, (match r with Ok b => exists a, b = f a | _ => True end) -> Q d r) ->
  all_preserve p -> obeys_call good Q (map_call f p).
Proof.
  intros HQ Hp. assert (forall (p : db_call D A) (d : D), returns (Q d) (map_call f p)) as Hret.
  { intros [r| |] d; cbn; [|done..]. apply HQ. destruct r; [by eexists|done..]. }
  split; [|by intros; apply Hret]. induction p as [r| |B' s k IH]; cbn in *; [done..|].
  destruct Hp as [Hs Hk]. split; [|by intros; apply IH]. intros d o Hd.
  split; [by apply preserves_execute|apply Hret].
Qed.
End Preserving.

(** ** SQL tables as the framework's statements use them

    A table is a finite map from its primary key, a string, to the other
    columns.  The statements of the stores have one of four shapes, each a
    function here: [SELECT] of the row of a key or of rows under a condition,
    [INSERT], [UPDATE] and [DELETE] of the row of a key under a further
    condition.  [NULL] is [None], and a comparison with it is not true. *)

(** [sql.ErrNoRows], what scanning a [QueryRow] without a row gives. *)
Definition sql_ErrNoRows := ErrNew "sql: no rows in result set".

(** Comparisons with a column that may be [NULL]. *)
Definition sql_le (column : option Z) (value : Z) : bool :=
  match column with Some c => c <=? value | None => false end.
Definition sql_eq (column : option string) (value : string) : bool :=
  match column with Some c => String.eqb c value | None => false end.
Definition is_null {A} (column : option A) : bool := match column with None => true | _ => false end.

(** [sql.NullInt64] and [sql.NullString] read as their value. *)
Definition null_string (column : option string) : string := default EmptyString column.

Section Table.
Context {Row : Type}.
Abbreviation table := (gmap string Row).

(** [SELECT ... WHERE key = k], through [QueryRow] and [Scan]. *)
Definition select_key {B} (k : string) (scan : Row -> goerror + B) (t : table) : table * (goerror + B) :=
  (t, match t !! k with Some row => scan row | None => inl sql_ErrNoRows end).

(** [SELECT ... WHERE p ORDER BY ... LIMIT 1]. *)
Definition select_first {B} (R : relation (string * Row)) `{!RelDecision R} (p : Row -> bool)
    (scan : string * Row -> goerror + B) (t : table) : table * (goerror + B) :=
  (t, match merge_sort R (filter (fun kr => p kr.2 = true) (map_to_list t)) with
      | row :: _ => scan row
      | [] => inl sql_ErrNoRows
      end).

(** [SELECT ... WHERE p ORDER BY ...]: the answer is what scanning the rows in
    turn gives. *)
Fixpoint scan_all {B} (scan : string * Row -> goerror + B) (rows : list (string * Row)) : goerror + list B :=
  match rows with
  | [] => inr []
  | row :: rest =>
      match scan row with
      | inl err => inl err
      | inr b => match scan_all scan rest with inl err => inl err | inr l => inr (b :: l) end
      end
  end.
Definition select_all {B} (R : relation (string * Row)) `{!RelDecision R} (p : Row -> bool)
    (scan : string * Row -> goerror + B) (t : table) : table * (goerror + (goerror + list B)) :=
  (t, inr (scan_all scan (merge_sort R (filter (fun kr => p kr.2 = true) (map_to_list t))))).

(** [INSERT]: a second row of a key is refused with the error [duplicate]. *)
Definition insert_row (duplicate : goerror) (k : string) (row : Row) (t : table) : table * (goerror + Z) :=
  match t !! k with
  | Some _ => (t, inl duplicate)
  | None => (<[k := row]> t, inr 1)
  end.

(** [UPDATE ... WHERE key = k AND p]; [set] may be refused, by a value out of
    the range of its column. *)
Definition update_row (k : string) (p : Row -> bool) (set : Row -> goerror + Row) (t : table)
    : table * (goerror + Z) :=
  match t !! k with
  | Some row =>
      if p row then
        match set row with
        | inr row' => (<[k := row']> t, inr 1)
        | inl err => (t, inl err)
        end
      else (t, inr 0)
  | None => (t, inr 0)
  end.

(** [DELETE ... WHERE key = k AND p]. *)
Definition delete_row (k : string) (p : Row -> bool) (t : table) : table * (goerror + Z) :=
  match t !! k with
  | Some row => if p row then (delete k t, inr 1) else (t, inr 0)
  | None => (t, inr 0)
  end.

(** What a statement can do to a table. *)
Lemma execute_table {B} o (s : table -> table * (goerror + B)) t : (execute o s t).1 = t \/ (execute o s t).1 = (s t).1.
Proof. destruct o; cbn; auto. Qed.

Lemma insert_row_cases dup k row t :
  insert_row dup k row t = (t, inl dup) \/
  (t !! k = None /\ insert_row dup k row t = (<[k := row]> t, inr 1)).
Proof. unfold insert_row. destruct (t !! k); auto. Qed.

Lemma update_row_cases k p set t :
  (exists e, update_row k p set t = (t, e) /\ e <> inr 1) \/
  (exists row row', t !! k = Some row /\ p row = true /\ set row = inr row' /\
     update_row k p set t = (<[k := row']> t, inr 1)).
Proof.
  unfold update_row. destruct (t !! k) as [row|]; [|left; by eexists].
  destruct (p row) eqn:Hp; [|left; by eexists].
  destruct (set row) as [err|row'] eqn:Hs; [left; by eexists|right; by exists row, row'].
Qed.

Lemma delete_row_cases k p t :
  (delete_row k p t = (t, inr 0)) \/
  (exists row, t !! k = Some row /\ p row = true /\ delete_row k p t = (delete k t, inr 1)).
Proof.
  unfold delete_row. destruct (t !! k) as [row|]; [|by left].
  destruct (p row) eqn:Hp; [right; by exists row|by left].
Qed.

(** The first row under a condition. *)
Lemma select_first_spec {B} R `{!RelDecision R, !Total R, !Transitive R} p (scan : string * Row -> goerror + B) t :
  (exists k row, t !! k = Some row /\ p row = true /\ select_first R p scan t = (t, scan (k, row)) /\
     forall k' row', t !! k' = Some row' -> p row' = true -> R (k, row) (k', row')) \/
  ((forall k row, t !! k = Some row -> p row = false) /\ select_first R p scan t = (t, inl sql_ErrNoRows)).
Proof.
  unfold select_first. destruct (merge_sort R _) as [|[k row] rest] eqn:E.
  - right. split; [|done]. intros k row Hk. apply merge_sort_nil_inv in E.
    destruct (p row) eqn:Hp; [|done]. exfalso.
    assert ((k, row) ∈ filter (fun kr => p kr.2 = true) (map_to_list t)) as Hin
      by (apply list_elem_of_filter; split; [done|by apply elem_of_map_to_list]).
    rewrite E in Hin. by apply not_elem_of_nil in Hin.
  - left. assert ((k, row) ∈ filter (fun kr => p kr.2 = true) (map_to_list t)) as Hin.
    { rewrite <- (merge_sort_Permutation R), E. apply list_elem_of_here. }
    apply list_elem_of_filter in Hin as [Hp Hk]. apply elem_of_map_to_list in Hk.
    exists k, row. split; [done|]. split; [done|]. split; [done|]. intros k' row' Hk' Hp'.
    apply (merge_sort_head_min R _ _ _ (k', row') E).
    apply list_elem_of_filter. split; [done|]. by apply elem_of_map_to_list.
Qed.

(** ** Invariants of rows

    Every row is in order, and the row of a key stays as it is while it meets no
    statement's condition. *)
Section RowInvariant.
Variable row_ok : Row -> Prop.

Definition rows_ok (t : table) : Prop := map_Forall (fun _ r => row_ok r) t.

Lemma insert_row_ok dup k row : row_ok row -> preserves rows_ok (insert_row dup k row).
Proof.
  intros Hrow t Hok. destruct (insert_row_cases dup k row t) as [-> |[_ ->]]; [done|]. by apply map_Forall_insert_2.
Qed.
Lemma update_row_ok k p set : (forall r r', row_ok r -> p r = true -> set r = inr r' -> row_ok r') ->
  preserves rows_ok (update_row k p set).
Proof.
  intros Hset t Hok. destruct (update_row_cases k p set t) as [(e & -> & _)|(r & r' & Hk & Hp & Hs & ->)]; [done|].
  apply map_Forall_insert_2; [|done]. eapply Hset; [apply (Hok _ _ Hk)|done|done].
Qed.
Lemma delete_row_ok k p : preserves rows_ok (delete_row k p).
Proof.
  intros t Hok. destruct (delete_row_cases k p t) as [-> |(r & _ & _ & ->)]; [done|]. by apply map_Forall_delete.
Qed.

Definition row_held (k : string) (held : Row -> Prop) (t : table) : Prop :=
  rows_ok t /\ exists r, t !! k = Some r /\ held r.

Lemma insert_row_held k0 held dup k row : row_ok row -> preserves (row_held k0 held) (insert_row dup k row).
Proof.
  intros Hrow t [Hok (r & Hr & Hl)]. split; [by apply insert_row_ok|].
  destruct (insert_row_cases dup k row t) as [-> |[Hn ->]]; [by exists r|].
  exists r. split; [|done]. cbn. rewrite lookup_insert_ne; [done|]. intros E. congruence.
Qed.
Lemma update_row_held k0 held k p set :
  (forall r r', row_ok r -> p r = true -> set r = inr r' -> row_ok r') ->
  (forall r, k = k0 -> held r -> p r = false) ->
  preserves (row_held k0 held) (update_row k p set).
Proof.
  intros Hset Hp t [Hok (r & Hr & Hl)]. split; [by apply (update_row_ok _ _ _ Hset)|]. exists r. split; [|done].
  destruct (update_row_cases k p set t) as [(e & -> & _)|(r0 & r' & Hk & Hp' & Hs & ->)]; [done|]. cbn.
  destruct (decide (k = k0)) as [Hd|Hd]; [|by rewrite lookup_insert_ne].
  rewrite Hd, Hr in Hk. injection Hk as <-. by rewrite Hp in Hp'.
Qed.
Lemma delete_row_held k0 held k p :
  (forall r, k = k0 -> held r -> p r = false) -> preserves (row_held k0 held) (delete_row k p).
Proof.
  intros Hp t [Hok (r & Hr & Hl)]. split; [by apply delete_row_ok|]. exists r. split; [|done].
  destruct (delete_row_cases k p t) as [-> |(r0 & Hk & Hp' & ->)]; [done|]. cbn.
  destruct (decide (k = k0)) as [Hd|Hd]; [|by rewrite lookup_delete_ne].
  rewrite Hd, Hr in Hk. injection Hk as <-. by rewrite Hp in Hp'.
Qed.
End RowInvariant.
End Table.

(** ** Calls alone

    One call takes from its environment the outcomes of its statements, each
    answered or refused with an error that is not [sql.ErrNoRows] (the package
    keeps that one for a result without rows). *)
Inductive settled_outcome :=
| SettledAnswer
| SettledRefusal (err : goerror) (other : errors_is err sql_ErrNoRows = false).
Definition as_outcome (o : settled_outcome) : db_outcome :=
  match o with SettledAnswer => Answered | SettledRefusal err _ => Refused err end.

Lemma outcomes_settled os : all_settled (fun n => as_outcome (os n)).
Proof. intros n. by destruct (os n). Qed.
Lemma finished_for_certain os : all_settled (fun n => as_outcome (os n)) /\ @None goerror = None.
Proof. split; [apply outcomes_settled|done]. Qed.

(** The call [p] of a store with state [s.1] on the database [s.2].  That a
    call whose turns are over is still running does not happen for the turns
    given to it. *)
Definition run_call {S D A} (os : nat -> settled_outcome) (p : db_call D A) (s : S * D) : (S * D) * result A :=
  let '(d, r) := perform (fun n => as_outcome (os n)) p s.2 in
  ((s.1, d), match r with Some r => r | None => Panicked "running" end).

Lemma effect_contract {S D A} (ok : D -> Prop) (P : Prop) (tr : A -> D -> D -> Prop) os (p : db_call D A) (s s' : S * D) r :
  P -> (forall d r, perform (fun n => as_outcome (os n)) p s.2 = (d, r) -> effect ok P tr s.2 d r) ->
  run_call os p s = (s', r) ->
  ok s'.2 /\ match r with Ok a => tr a s.2 s'.2 | _ => s'.2 = s.2 end.
Proof.
  intros HP Heff. unfold run_call. destruct (perform _ _ _) as [t q] eqn:E. intros [= <- <-]. cbn.
  destruct (Heff _ _ eq_refl) as [Hok He]. split; [done|].
  destruct q as [[a|err|m]|]; [done| | |]; destruct He as [->|[? _]]; done.
Qed.

(** ** Identifiers and placeholders: [backend/framework/migration_store.go] *)

(** [validSQLIdentifier]: the bytes of the name are checked; a rune beyond
    ASCII has bytes that are none of these. *)
Definition identifier_start (c : ascii) : bool :=
  let n := N_of_ascii c in
  ((97 <=? n) && (n <=? 122) || (65 <=? n) && (n <=? 90) || (n =? 95))%N.
Definition identifier_rest (c : ascii) : bool :=
  identifier_start c || ((48 <=? N_of_ascii c) && (N_of_ascii c <=? 57))%N.
Definition validSQLIdentifier (identifier : string) : bool :=
  match identifier with
  | EmptyString => false
  | String c rest => identifier_start c && string_forall identifier_rest rest
  end.

Definition SQLPlaceholderQuestionMark : string := "question-mark".
Definition SQLPlaceholderDollar : string := "dollar".
Definition placeholder (style : string) (index : Z) : string :=
  if String.eqb style SQLPlaceholderDollar then "$" +:+ Itoa index else "?".
