(* ===== verification/SqlJobStore.v ===== *)
(** * The SQL job store: [backend/framework/sql_job_store.go]

    A store is its options and works on a table ([Statements.v]) that it shares
    with the stores of other processes: each method is a program of statements
    ([Statements.v]).  Instants are columns of microseconds since 1970. *)
From S2P Require Import Prelude GoTime GoStrings Json EventLog JobStore FileJobStore Statements.
Open Scope Z_scope.
Open Scope go_scope.

Definition ErrInvalidSQLJobStoreOptions := ErrNew "framework: SQL job store options are invalid".
Definition defaultSQLJobStoreTable : string := "bridra_jobs".

(** ** Options *)

Record SQLJobStoreOptions := MkSQLJobStoreOptions {
  opt_Table : string;
  opt_PlaceholderStyle : string;
  opt_MaxPayloadBytes : Z
}.
Definition DefaultSQLJobStoreOptions : SQLJobStoreOptions :=
  MkSQLJobStoreOptions defaultSQLJobStoreTable SQLPlaceholderQuestionMark defaultFileJobStoreMaxPayloadBytes.

Record SQLJobStore := MkSQLJobStore {
  table : string;
  placeholderStyle : string;
  sql_maxPayloadBytes : Z
}.

Definition normalizeSQLJobStoreOptions (options : SQLJobStoreOptions) : result SQLJobStoreOptions :=
  let defaults := DefaultSQLJobStoreOptions in
  let name := TrimSpace (opt_Table options) in
  let name := if String.eqb name "" then opt_Table defaults else name in
  let style := if String.eqb (opt_PlaceholderStyle options) "" then opt_PlaceholderStyle defaults
               else opt_PlaceholderStyle options in
  let bytes := if opt_MaxPayloadBytes options =? 0 then opt_MaxPayloadBytes defaults
               else opt_MaxPayloadBytes options in
  if negb (validSQLIdentifier name) ||
     (negb (String.eqb style SQLPlaceholderQuestionMark) && negb (String.eqb style SQLPlaceholderDollar)) ||
     (bytes <? 0)
  then Err ErrInvalidSQLJobStoreOptions
  else Ok (MkSQLJobStoreOptions name style bytes).

(** [pool] tells whether the pool given is not nil. *)
Definition NewSQLJobStore (pool : bool) (options : SQLJobStoreOptions) : result SQLJobStore :=
  if negb pool then Err ErrJobStoreUnavailable else
  match normalizeSQLJobStoreOptions options with
  | Ok o => Ok (MkSQLJobStore (opt_Table o) (opt_PlaceholderStyle o) (opt_MaxPayloadBytes o))
  | Err err => Err err
  | Panicked m => Panicked m
  end.

(** ** The table *)

Record job_row := JobRow {
  row_handler : string;
  row_payload : string;
  row_available_at : Z;
  row_enqueued_at : Z;
  row_attempts : Z;
  row_reservation_token : option string;
  row_reserved_until : option Z;
  row_failed_at : option Z;
  row_last_error : option string
}.
Abbreviation job_table := (gmap string job_row).

Definition sqlJobStoreTime (value : Z) : Z := UnixMicro value.
Definition sqlJobStoreError (operation : string) (err : goerror) : goerror :=
  errorf2 ErrJobStoreOperationFailed operation err.

(** ** Scanning a row *)

(** The columns of the job itself, as [time.UnixMicro] and the rest give them. *)
Definition row_job (kr : string * job_row) : StoredJob :=
  MkStoredJob kr.1 (row_handler kr.2) (row_payload kr.2) (FromUnixMicro (row_available_at kr.2))
    (FromUnixMicro (row_enqueued_at kr.2)) (row_attempts kr.2).

Definition validated (j : StoredJob) (maxPayloadBytes : Z) : goerror + StoredJob :=
  match validateStoredJob j maxPayloadBytes with
  | Ok _ => inr j
  | Err err => inl err
  | Panicked m => inl (ErrNew m)
  end.

Definition scanSQLStoredJob (maxPayloadBytes : Z) (kr : string * job_row) : goerror + StoredJob :=
  if (row_attempts kr.2 <? 0) || (int64_max <? row_attempts kr.2)
  then inl (ErrNew "invalid SQL job attempt count")
  else validated (row_job kr) maxPayloadBytes.

Definition scanSQLFailedJob (maxPayloadBytes : Z) (kr : string * job_row) : goerror + FailedStoredJob :=
  match row_failed_at kr.2 with
  | None => inl (ErrNew "invalid failed SQL job")
  | Some failedAt =>
      if (row_attempts kr.2 <? 0) || (int64_max <? row_attempts kr.2)
      then inl (ErrNew "invalid failed SQL job")
      else match validated (row_job kr) maxPayloadBytes with
           | inl err => inl err
           | inr j => inr (MkFailedStoredJob j (FromUnixMicro failedAt) (null_string (row_last_error kr.2)))
           end
  end.

(** ** Statements

    [duplicate] is the database's error for a second row of one identifier,
    [overflow] its error for a count beyond [BIGINT], and [json_column] the
    text that a column of type [JSON] gives back for a text. *)
Section SqlJobs.
Variables (duplicate overflow : goerror) (json_column : string -> string).

Abbreviation job_call A := (db_call job_table A).

(** [failed_at IS NULL AND available_at <= now
     AND (reservation_token IS NULL OR reserved_until <= now)] *)
Definition row_ready (now : Z) (r : job_row) : bool :=
  is_null (row_failed_at r) && (row_available_at r <=? now) &&
  (is_null (row_reservation_token r) || sql_le (row_reserved_until r) now).

(** [ORDER BY available_at ASC, enqueued_at ASC, id ASC] *)
Definition row_before (a b : string * job_row) : Prop :=
  row_available_at a.2 < row_available_at b.2 \/
  (row_available_at a.2 = row_available_at b.2 /\
   (row_enqueued_at a.2 < row_enqueued_at b.2 \/
    (row_enqueued_at a.2 = row_enqueued_at b.2 /\ String.le a.1 b.1))).
#[export] Instance row_before_dec : RelDecision row_before.
Proof. intros a b. unfold row_before. apply _. Defined.

(** [ORDER BY failed_at ASC, id ASC]; the rows have no [NULL] there. *)
Definition failed_before (a b : string * job_row) : Prop :=
  default 0 (row_failed_at a.2) < default 0 (row_failed_at b.2) \/
  (default 0 (row_failed_at a.2) = default 0 (row_failed_at b.2) /\ String.le a.1 b.1).
#[export] Instance failed_before_dec : RelDecision failed_before.
Proof. intros a b. unfold failed_before. apply _. Defined.

Definition new_row (j : StoredJob) : job_row :=
  JobRow (Handler j) (json_column (Payload j)) (sqlJobStoreTime (AvailableAt j)) (sqlJobStoreTime (EnqueuedAt j))
    (Attempts j) None None None None.

Definition insert_job (j : StoredJob) : job_table -> job_table * (goerror + Z) :=
  insert_row duplicate (ID j) (new_row j).

Definition reserve_row (token : string) (until : Z) (r : job_row) : goerror + job_row :=
  if int64_max <? row_attempts r + 1 then inl overflow
  else inr (JobRow (row_handler r) (row_payload r) (row_available_at r) (row_enqueued_at r) (row_attempts r + 1)
              (Some token) (Some until) (row_failed_at r) (row_last_error r)).
Definition update_reserve (token : string) (until : Z) (id : string) (attempts now : Z)
    : job_table -> job_table * (goerror + Z) :=
  update_row id (fun r => (row_attempts r =? attempts) && row_ready now r) (reserve_row token until).

Definition release_row (availableAt : Z) (error : string) (r : job_row) : goerror + job_row :=
  inr (JobRow (row_handler r) (row_payload r) availableAt (row_enqueued_at r) (row_attempts r)
         None None (row_failed_at r) (Some error)).
Definition update_release (availableAt : Z) (error id token : string) : job_table -> job_table * (goerror + Z) :=
  update_row id (fun r => sql_eq (row_reservation_token r) token) (release_row availableAt error).

Definition delete_complete (id token : string) : job_table -> job_table * (goerror + Z) :=
  delete_row id (fun r => sql_eq (row_reservation_token r) token).

Definition fail_row (failedAt : Z) (error : string) (r : job_row) : goerror + job_row :=
  inr (JobRow (row_handler r) (row_payload r) (row_available_at r) (row_enqueued_at r) (row_attempts r)
         None None (Some failedAt) (Some error)).
Definition update_fail (failedAt : Z) (error id token : string) : job_table -> job_table * (goerror + Z) :=
  update_row id (fun r => sql_eq (row_reservation_token r) token) (fail_row failedAt error).

Definition retry_row (availableAt : Z) (r : job_row) : goerror + job_row :=
  inr (JobRow (row_handler r) (row_payload r) availableAt (row_enqueued_at r) 0 None None None None).
Definition update_retry (availableAt : Z) (id : string) : job_table -> job_table * (goerror + Z) :=
  update_row id (fun r => negb (is_null (row_failed_at r))) (retry_row availableAt).

Definition delete_failed (id : string) : job_table -> job_table * (goerror + Z) :=
  delete_row id (fun r => negb (is_null (row_failed_at r))).

(** ** Helpers of the source *)

(** What a call takes from its surroundings besides its statements' outcomes:
    the error of [RowsAffected], the clock. *)
Definition sql_ready (store : option SQLJobStore) (ctx : context) : result SQLJobStore :=
  match store with
  | None => Err ErrJobStoreUnavailable
  | Some s =>
      match ctx with
      | NilContext => Err ErrJobContextUnavailable
      | Ctx (Some err) => Err err
      | Ctx None => Ok s
      end
  end.

Definition with_ready {A} (store : option SQLJobStore) (ctx : context) (k : SQLJobStore -> job_call A) : job_call A :=
  match sql_ready store ctx with
  | Ok s => k s
  | Err err => Done (Err err)
  | Panicked m => Done (Panicked m)
  end.

Definition jobExists {A} (id : string) (k : goerror + bool -> job_call A) : job_call A :=
  Statement (select_key id (fun _ => inr 1)) (fun a =>
    k (match a with
       | inr _ => inr true
       | inl err => if errors_is err sql_ErrNoRows then inr false else inl err
       end)).

Definition requireOneAffected (counted : option goerror) (affected : Z) (operation : string) (zeroError : goerror)
    : result unit :=
  match counted with
  | Some err => Err (sqlJobStoreError ("inspect " +:+ operation) err)
  | None =>
      if affected =? 0 then Err zeroError
      else if negb (affected =? 1)
           then Err (sqlJobStoreError operation (ErrNew ("updated " +:+ Itoa affected +:+ " records")))
           else Ok tt
  end.

Definition finish_reservation (counted : option goerror) (ctx : context) (reservation : JobReservation)
    (query : job_table -> job_table * (goerror + Z)) (operation : string) (store : option SQLJobStore)
    : job_call unit :=
  if String.eqb (ID (res_Job reservation)) "" || String.eqb (res_Token reservation) ""
  then Done (Err ErrJobReservationInvalid)
  else with_ready store ctx (fun _ =>
    Statement query (fun a =>
      match a with
      | inl err => Done (Err (sqlJobStoreError operation err))
      | inr affected => Done (requireOneAffected counted affected operation ErrJobReservationInvalid)
      end)).

Definition readyJob {A} (now : Z) (store : SQLJobStore) (k : goerror + StoredJob -> job_call A) : job_call A :=
  Statement (select_first row_before (row_ready (sqlJobStoreTime now)) (scanSQLStoredJob (sql_maxPayloadBytes store))) k.

(** ** Operations *)

Definition SQL_Enqueue (ctx : context) (j : StoredJob) (store : option SQLJobStore) : job_call unit :=
  with_ready store ctx (fun s =>
    match validateStoredJob j (sql_maxPayloadBytes s) with
    | Ok _ =>
        jobExists (ID j) (fun exists_ =>
          match exists_ with
          | inl err => Done (Err (sqlJobStoreError "check enqueue conflict" err))
          | inr true => Done (Err ErrJobStoreConflict)
          | inr false =>
              Statement (insert_job j) (fun a =>
                match a with
                | inr _ => Done (Ok tt)
                | inl err =>
                    jobExists (ID j) (fun exists_ =>
                      match exists_ with
                      | inr true => Done (Err ErrJobStoreConflict)
                      | inr false => Done (Err (sqlJobStoreError "enqueue" err))
                      | inl conflictErr =>
                          Done (Err (errors_join (sqlJobStoreError "enqueue" err)
                                       (sqlJobStoreError "check enqueue result" conflictErr)))
                      end)
                end)
          end)
    | Err err => Done (Err err)
    | Panicked m => Done (Panicked m)
    end).

(** What one turn of the loop of [Reserve] takes from its surroundings:
    [ctx.Err()], [crypto/rand], the error of [RowsAffected]. *)
Record reserve_turn := ReserveTurn {
  turn_ctx : option goerror;
  turn_random : result (nat -> Z);
  turn_counted : option goerror
}.

Fixpoint reserve_loop (turns : list reserve_turn) (now reservedUntil : Z) (store : SQLJobStore)
    : job_call JobReservation :=
  match turns with
  | [] => Unfinished
  | turn :: turns =>
      match turn_ctx turn with
      | Some err => Done (Err err)
      | None =>
          readyJob now store (fun a =>
            match a with
            | inl err =>
                if errors_is err sql_ErrNoRows then Done (Err ErrJobStoreEmpty)
                else Done (Err (sqlJobStoreError "select ready job" err))
            | inr job =>
                match newJobIdentifier (turn_random turn) with
                | Err err => Done (Err err)
                | Panicked m => Done (Panicked m)
                | Ok token =>
                    Statement (update_reserve token (sqlJobStoreTime reservedUntil) (ID job) (Attempts job)
                                 (sqlJobStoreTime now)) (fun a =>
                      match a with
                      | inl err => Done (Err (sqlJobStoreError "reserve job" err))
                      | inr updated =>
                          match turn_counted turn with
                          | Some err => Done (Err (sqlJobStoreError "inspect reservation" err))
                          | None =>
                              if updated =? 0 then reserve_loop turns now reservedUntil store
                              else if negb (updated =? 1)
                                   then Done (Err (sqlJobStoreError "reserve job"
                                                     (ErrNew ("updated " +:+ Itoa updated +:+ " records"))))
                                   else Done (Ok (MkJobReservation
                                                    (with_attempts job (wrap64 (Attempts job + 1))) token reservedUntil))
                          end
                      end)
                end
            end)
      end
  end.

Definition SQL_Reserve (turns : list reserve_turn) (ctx : context) (now lease : Z) (store : option SQLJobStore)
    : job_call JobReservation :=
  with_ready store ctx (fun s =>
    if IsZero now || (lease <=? 0) then Done (Err ErrJobReservationInvalid)
    else reserve_loop turns now (now + lease) s).

Definition SQL_Release (counted : option goerror) (ctx : context) (reservation : JobReservation) (availableAt : Z)
    (lastError : string) (store : option SQLJobStore) : job_call unit :=
  if IsZero availableAt then Done (Err ErrJobReservationInvalid)
  else match store with
       | None => Done (Err ErrJobStoreUnavailable)
       | Some _ =>
           finish_reservation counted ctx reservation
             (update_release (sqlJobStoreTime availableAt) (normalizeFileJobStoreError lastError)
                (ID (res_Job reservation)) (res_Token reservation)) "release job" store
       end.

Definition SQL_Complete (counted : option goerror) (ctx : context) (reservation : JobReservation)
    (store : option SQLJobStore) : job_call unit :=
  match store with
  | None => Done (Err ErrJobStoreUnavailable)
  | Some _ =>
      finish_reservation counted ctx reservation
        (delete_complete (ID (res_Job reservation)) (res_Token reservation)) "complete job" store
  end.

Definition SQL_Fail (counted : option goerror) (clock : positive) (ctx : context) (reservation : JobReservation)
    (lastError : string) (store : option SQLJobStore) : job_call unit :=
  match store with
  | None => Done (Err ErrJobStoreUnavailable)
  | Some _ =>
      finish_reservation counted ctx reservation
        (update_fail (sqlJobStoreTime (Z.pos clock)) (normalizeFileJobStoreError lastError)
           (ID (res_Job reservation)) (res_Token reservation)) "fail job" store
  end.

(** [iterated] and [closed] are what [rows.Err] and [rows.Close] say. *)
Definition SQL_FailedJobs (iterated closed : option goerror) (ctx : context) (store : option SQLJobStore)
    : job_call (list FailedStoredJob) :=
  with_ready store ctx (fun s =>
    Statement (select_all failed_before (fun r => negb (is_null (row_failed_at r)))
                 (scanSQLFailedJob (sql_maxPayloadBytes s))) (fun a =>
      match a with
      | inl err => Done (Err (sqlJobStoreError "query failed jobs" err))
      | inr (inl err) => Done (Err (sqlJobStoreError "scan failed job" err))
      | inr (inr failed) =>
          match iterated, closed with
          | Some err, _ => Done (Err (sqlJobStoreError "iterate failed jobs" err))
          | None, Some err => Done (Err (sqlJobStoreError "close failed jobs" err))
          | None, None => Done (Ok failed)
          end
      end)).

Definition SQL_RetryFailed (counted : option goerror) (ctx : context) (id : string) (availableAt : Z)
    (store : option SQLJobStore) : job_call unit :=
  if String.eqb id "" || IsZero availableAt then Done (Err ErrJobStoreConflict)
  else with_ready store ctx (fun _ =>
    Statement (update_retry (sqlJobStoreTime availableAt) id) (fun a =>
      match a with
      | inl err => Done (Err (sqlJobStoreError "retry failed job" err))
      | inr affected => Done (requireOneAffected counted affected "retry failed job" ErrJobStoreConflict)
      end)).

Definition SQL_ForgetFailed (counted : option goerror) (ctx : context) (id : string) (store : option SQLJobStore)
    : job_call unit :=
  if String.eqb id "" then Done (Err ErrJobStoreConflict)
  else with_ready store ctx (fun _ =>
    Statement (delete_failed id) (fun a =>
      match a with
      | inl err => Done (Err (sqlJobStoreError "forget failed job" err))
      | inr affected => Done (requireOneAffected counted affected "forget failed job" ErrJobStoreConflict)
      end)).
End SqlJobs.
