(* ===== verification/SqlJobStoreFacts.v ===== *)
(** * The SQL job store implements the job store contract

    The rows seen as jobs with a status; what every call does to that view,
    lost answers included ([SQL_Enqueue_effect] and its fellows); the instance
    of [JobStoreLaws] for calls whose statements are answered or refused. *)
From S2P Require Import Prelude GoTime GoStrings Json EventLog JobStore FileJobStore FileJobStoreFacts Statements SqlJobStore.
Open Scope Z_scope.
Open Scope go_scope.

(** ** The view of a table *)

Definition row_status (r : job_row) : job_status :=
  match row_failed_at r with
  | Some f => Failed (FromUnixMicro f) (null_string (row_last_error r))
  | None => match row_reservation_token r with
            | None => Waiting
            | Some token => Reserved token (FromUnixMicro (default 0 (row_reserved_until r)))
            end
  end.
Definition row_entry (id : string) (r : job_row) : StoredJob * job_status := (row_job (id, r), row_status r).
Definition table_view (t : job_table) : job_view := map_imap (fun id r => Some (row_entry id r)) t.

(** A lease has a token and an end, or neither; a failed job has no lease. *)
Definition row_ok (r : job_row) : Prop :=
  is_null (row_reservation_token r) = is_null (row_reserved_until r) /\
  (row_failed_at r <> None -> row_reservation_token r = None).
Definition table_ok : job_table -> Prop := rows_ok row_ok.

Lemma table_view_lookup t k : table_view t !! k = row_entry k <$> t !! k.
Proof. unfold table_view. rewrite map_lookup_imap. by destruct (t !! k). Qed.
Lemma table_view_insert t k r : table_view (<[k := r]> t) = <[k := row_entry k r]> (table_view t).
Proof.
  apply map_eq. intros i. rewrite table_view_lookup.
  destruct (decide (k = i)) as [<-|Hne]; [by rewrite !lookup_insert_eq|].
  by rewrite !lookup_insert_ne, table_view_lookup by done.
Qed.
Lemma table_view_delete t k : table_view (delete k t) = delete k (table_view t).
Proof.
  apply map_eq. intros i. rewrite table_view_lookup.
  destruct (decide (k = i)) as [<-|Hne]; [by rewrite !lookup_delete_eq|].
  by rewrite !lookup_delete_ne, table_view_lookup by done.
Qed.

Lemma table_ok_insert t k r : table_ok t -> row_ok r -> table_ok (<[k := r]> t).
Proof. intros. by apply map_Forall_insert_2. Qed.
Lemma table_ok_delete t k : table_ok t -> table_ok (delete k t).
Proof. intros. by apply map_Forall_delete. Qed.
#[export] Hint Resolve table_ok_insert table_ok_delete : go.

(** The condition of the ready rows is that of the contract. *)
Lemma row_ready_reservable now id r : row_ok r ->
  row_ready now r = true <-> reservable (FromUnixMicro now) (row_entry id r).
Proof.
  intros [Hl Hf]. unfold row_ready, reservable, row_entry, row_status. cbn.
  rewrite FromUnixMicro_le, !andb_true_iff, Z.leb_le.
  destruct (row_failed_at r) as [f|]; cbn; [split; [intros [[? ?] ?]; done|tauto]|].
  destruct (row_reservation_token r) as [tok|]; cbn; [|tauto].
  destruct (row_reserved_until r) as [u|]; [|done]. cbn. rewrite FromUnixMicro_le, Z.leb_le. tauto.
Qed.

Lemma row_before_job a b : row_before a b <-> job_before (row_job a) (row_job b).
Proof.
  unfold row_before, job_before. cbn. unfold FromUnixMicro.
  assert (forall x y, x * 1000 + unix_epoch < y * 1000 + unix_epoch <-> x < y) as Hlt by (intros; lia).
  assert (forall x y, x * 1000 + unix_epoch = y * 1000 + unix_epoch <-> x = y) as Heq by (intros; lia).
  by rewrite !Hlt, !Heq.
Qed.
#[export] Instance row_before_trans : Transitive row_before.
Proof. intros a b c. rewrite !row_before_job. apply job_before_trans. Qed.
#[export] Instance row_before_total : Total row_before.
Proof. intros a b. rewrite !row_before_job. apply job_before_total. Qed.

(** ** What a call does *)

(** The transitions of the view, with the value a call returns for them. *)
Section Transitions.
Variable json_column : string -> string.

Definition sql_kept (j : StoredJob) : StoredJob :=
  MkStoredJob (ID j) (Handler j) (json_column (Payload j)) (to_microseconds (AvailableAt j))
    (to_microseconds (EnqueuedAt j)) (Attempts j).

Definition tr_enqueue (j : StoredJob) (_ : unit) (v v' : job_view) : Prop :=
  v !! ID j = None /\ v' = <[ID j := (sql_kept j, Waiting)]> v.
Definition tr_reserve (now lease : Z) (res : JobReservation) (v v' : job_view) : Prop :=
  exists j status, v !! ID j = Some (j, status) /\ reservable (to_microseconds now) (j, status) /\
    (forall id' j' status', v !! id' = Some (j', status') ->
       reservable (to_microseconds now) (j', status') -> job_before j j') /\
    res_Job res = with_attempts j (wrap64 (Attempts j + 1)) /\
    res_ReservedUntil res = now + lease /\
    v' = <[ID j := (res_Job res, Reserved (res_Token res) (to_microseconds (now + lease)))]> v.
Definition tr_release (res : JobReservation) (availableAt : Z) (_ : unit) (v v' : job_view) : Prop :=
  holds v res /\ v' = view_release v (ID (res_Job res)) (to_microseconds availableAt).
Definition tr_complete (res : JobReservation) (_ : unit) (v v' : job_view) : Prop :=
  holds v res /\ v' = delete (ID (res_Job res)) v.
Definition tr_fail (res : JobReservation) (failedAt : Z) (error : string) (_ : unit) (v v' : job_view) : Prop :=
  holds v res /\ v' = view_fail v (ID (res_Job res)) failedAt error.
Definition tr_retry (id : string) (availableAt : Z) (_ : unit) (v v' : job_view) : Prop :=
  exists j f e, v !! id = Some (j, Failed f e) /\
    v' = <[id := (with_available (with_attempts j 0) (to_microseconds availableAt), Waiting)]> v.
Definition tr_forget (id : string) (_ : unit) (v v' : job_view) : Prop :=
  (exists j f e, v !! id = Some (j, Failed f e)) /\ v' = delete id v.
End Transitions.

(** A transition of the view, as one of the table. *)
Abbreviation on_view tr := (fun a t t' => tr a (table_view t) (table_view t')).
Abbreviation effect certain tr := (Statements.effect table_ok certain (on_view tr)).
#[export] Hint Resolve effect_none : go.

(** A statement that needs the row of a reservation or of a failed job. *)
Lemma token_holds t k r token : table_ok t -> t !! k = Some r -> sql_eq (row_reservation_token r) token = true ->
  row_failed_at r = None /\ row_status r = Reserved token (FromUnixMicro (default 0 (row_reserved_until r))).
Proof.
  intros Hok Hk Htok. destruct (Hok _ _ Hk) as [_ Hf]. unfold row_status, sql_eq in *.
  destruct (row_reservation_token r) as [tok|]; [|done]. apply String.eqb_eq in Htok as ->.
  destruct (row_failed_at r) as [f|]; [by specialize (Hf ltac:(done))|done].
Qed.

Lemma update_token_cases t res set status :
  table_ok t ->
  (forall r, row_ok r -> row_failed_at r = None -> exists r', set r = inr r' /\ row_ok r' /\
     row_entry (ID (res_Job res)) r' = status (row_job (ID (res_Job res), r))) ->
  (exists a, update_row (ID (res_Job res)) (fun r => sql_eq (row_reservation_token r) (res_Token res)) set t = (t, a)
     /\ a <> inr 1) \/
  (exists t1, update_row (ID (res_Job res)) (fun r => sql_eq (row_reservation_token r) (res_Token res)) set t
       = (t1, inr 1) /\ table_ok t1 /\ holds (table_view t) res /\
     exists j st, table_view t !! ID (res_Job res) = Some (j, st) /\
       table_view t1 = <[ID (res_Job res) := status j]> (table_view t)).
Proof.
  intros Hok Hset. destruct (update_row_cases (ID (res_Job res))
    (fun r => sql_eq (row_reservation_token r) (res_Token res)) set t) as [?|(r & r' & Hk & Hp & Hr & E)]; [by left|].
  right. rewrite E. exists (<[ID (res_Job res) := r']> t). split; [done|].
  destruct (token_holds _ _ _ _ Hok Hk Hp) as [Hf Hst].
  destruct (Hset r (Hok _ _ Hk) Hf) as (r1 & Hr1 & Hok1 & Hv). rewrite Hr in Hr1. injection Hr1 as <-.
  split; [auto with go|]. split.
  - unfold holds. rewrite table_view_lookup, Hk. unfold row_entry. cbn. rewrite Hst. eauto.
  - exists (row_job (ID (res_Job res), r)), (row_status r). rewrite table_view_lookup, Hk. split; [done|].
    by rewrite table_view_insert, Hv.
Qed.

Lemma requireOneAffected_ok counted n op zero : requireOneAffected counted n op zero = Ok tt <-> n = 1 /\ counted = None.
Proof.
  unfold requireOneAffected. destruct counted; [split; [done|intros [_ ?]; done]|].
  destruct (Z.eqb_spec n 0) as [->|]; [split; [done|intros [? _]; done]|].
  destruct (Z.eqb_spec n 1) as [->|]; cbn; [done|]. split; [done|]. intros [? _]. done.
Qed.

Section Effects.
Variables (duplicate overflow : goerror) (json_column : string -> string).

Lemma with_ready_cases {A} store ctx (k : SQLJobStore -> db_call job_table A) :
  (exists s, store = Some s /\ ctx = Ctx None /\ with_ready store ctx k = k s) \/
  (exists err, with_ready store ctx k = Done (Err err) /\ (standard_context ctx -> err <> ErrJobStoreEmpty)).
Proof.
  unfold with_ready, sql_ready. destruct store as [s|]; [|right; by eexists].
  destruct ctx as [|[err|]]; [right; by eexists|right|left; by exists s].
  exists err. split; [done|]. by intros [-> | ->].
Qed.

Lemma sql_finish_effect counted ctx res query op store os tr t t' r :
  table_ok t ->
  (exists a, query t = (t, a) /\ a <> inr 1) \/
  (exists t1, query t = (t1, inr 1) /\ table_ok t1 /\ on_view tr tt t t1) ->
  perform os (finish_reservation counted ctx res query op store) t = (t', r) ->
  effect (all_settled os /\ counted = None) tr t t' r.
Proof.
  intros Hok Hq. unfold finish_reservation. destruct (_ || _); [by intros [= <- <-]; auto with go|].
  destruct (with_ready_cases store ctx (fun _ => Statement query (fun a =>
      match a with
      | inl err => Done (Err (sqlJobStoreError op err))
      | inr affected => Done (requireOneAffected counted affected op ErrJobReservationInvalid)
      end))) as [(s & _ & _ & ->)|(err & -> & _)]; [|by intros [= <- <-]; auto with go].
  intros H. apply (one_statement_effect table_ok query (fun a => match a with
      | inl err => Err (sqlJobStoreError op err)
      | inr affected => requireOneAffected counted affected op ErrJobReservationInvalid
      end) counted os (on_view tr) t t' r Hok); [|done|].
  - intros [err|n]; [split; [done|intros [? _]; done]|].
    rewrite requireOneAffected_ok. split; intros [? ?]; split; congruence.
  - revert H. cbn [perform]. destruct (execute _ _ _) as [t1 [err|n]]; done.
Qed.

Lemma SQL_Release_effect counted ctx res availableAt error store os t t' r :
  table_ok t -> perform os (SQL_Release counted ctx res availableAt error store) t = (t', r) ->
  effect (all_settled os /\ counted = None) (tr_release res availableAt) t t' r.
Proof.
  intros Hok. unfold SQL_Release. destruct (IsZero _); [by intros [= <- <-]; auto with go|].
  destruct store as [s|]; [|by intros [= <- <-]; auto with go]. apply sql_finish_effect; [done|].
  destruct (update_token_cases t res (release_row (sqlJobStoreTime availableAt) (normalizeFileJobStoreError error))
    (fun j => (with_available j (to_microseconds availableAt), Waiting)) Hok)
    as [?|(t1 & E & Hok1 & Hh & j & st & Hl & Hv)]; [|by left|].
  - intros r0 Hr0 Hf0. eexists. split; [done|]. split; [by split|].
    unfold row_entry, row_status. cbn. by rewrite Hf0.
  - right. exists t1. split; [exact E|]. split; [done|]. split; [done|]. unfold view_release. by rewrite Hl.
Qed.

Lemma SQL_Fail_effect counted clock ctx res error store os t t' r :
  table_ok t -> perform os (SQL_Fail counted clock ctx res error store) t = (t', r) ->
  effect (all_settled os /\ counted = None)
    (tr_fail res (to_microseconds (Z.pos clock)) (normalizeFileJobStoreError error)) t t' r.
Proof.
  intros Hok. unfold SQL_Fail. destruct store as [s|]; [|by intros [= <- <-]; auto with go].
  apply sql_finish_effect; [done|].
  destruct (update_token_cases t res (fail_row (sqlJobStoreTime (Z.pos clock)) (normalizeFileJobStoreError error))
    (fun j => (j, Failed (to_microseconds (Z.pos clock)) (normalizeFileJobStoreError error))) Hok)
    as [?|(t1 & E & Hok1 & Hh & j & st & Hl & Hv)]; [|by left|].
  - intros r0 Hr0 Hf0. eexists. split; [done|]. by split.
  - right. exists t1. split; [exact E|]. split; [done|]. split; [done|]. unfold view_fail. by rewrite Hl.
Qed.

Lemma SQL_Complete_effect counted ctx res store os t t' r :
  table_ok t -> perform os (SQL_Complete counted ctx res store) t = (t', r) ->
  effect (all_settled os /\ counted = None) (tr_complete res) t t' r.
Proof.
  intros Hok. unfold SQL_Complete. destruct store as [s|]; [|by intros [= <- <-]; auto with go].
  apply sql_finish_effect; [done|]. unfold delete_complete.
  destruct (delete_row_cases (ID (res_Job res)) (fun r => sql_eq (row_reservation_token r) (res_Token res)) t)
    as [E|(row & Hk & Hp & E)]; [left; by eexists|right].
  exists (delete (ID (res_Job res)) t). split; [done|]. split; [auto with go|].
  destruct (token_holds _ _ _ _ Hok Hk Hp) as [_ Hst]. split; [|by rewrite table_view_delete].
  unfold holds. rewrite table_view_lookup, Hk. unfold row_entry. cbn. rewrite Hst. eauto.
Qed.

Lemma failed_row t k r : t !! k = Some r -> negb (is_null (row_failed_at r)) = true ->
  exists j f e, table_view t !! k = Some (j, Failed f e) /\ j = row_job (k, r).
Proof.
  intros Hk Hf. rewrite table_view_lookup, Hk. unfold row_entry, row_status. cbn.
  destruct (row_failed_at r) as [f|]; [|done]. by repeat eexists.
Qed.

(** [one_statement_effect] for a method that checks its receiver first. *)
Lemma guarded_effect counted ctx (query : job_table -> job_table * (goerror + Z)) op store os tr t t' r :
  table_ok t ->
  (exists a, query t = (t, a) /\ a <> inr 1) \/
  (exists t1, query t = (t1, inr 1) /\ table_ok t1 /\ on_view tr tt t t1) ->
  perform os (with_ready store ctx (fun _ => Statement query (fun a =>
    match a with
    | inl err => Done (Err (sqlJobStoreError op err))
    | inr affected => Done (requireOneAffected counted affected op ErrJobStoreConflict)
    end))) t = (t', r) ->
  effect (all_settled os /\ counted = None) tr t t' r.
Proof.
  intros Hok Hq. match goal with |- context [with_ready store ctx ?k] =>
    destruct (with_ready_cases store ctx k) as [(s & _ & _ & ->)|(err & -> & _)] end;
    [|by intros [= <- <-]; auto with go].
  intros H. apply (one_statement_effect table_ok query (fun a => match a with
      | inl err => Err (sqlJobStoreError op err)
      | inr affected => requireOneAffected counted affected op ErrJobStoreConflict
      end) counted os (on_view tr) t t' r Hok); [|done|].
  - intros [err|n]; [split; [done|intros [? _]; done]|].
    rewrite requireOneAffected_ok. split; intros [? ?]; split; congruence.
  - revert H. cbn [perform]. destruct (execute _ _ _) as [t1 [err|n]]; done.
Qed.

Lemma SQL_RetryFailed_effect counted ctx id availableAt store os t t' r :
  table_ok t -> perform os (SQL_RetryFailed counted ctx id availableAt store) t = (t', r) ->
  effect (all_settled os /\ counted = None) (tr_retry id availableAt) t t' r.
Proof.
  intros Hok. unfold SQL_RetryFailed. destruct (_ || _); [by intros [= <- <-]; auto with go|].
  apply guarded_effect; [done|]. unfold update_retry.
  match goal with |- context [update_row _ ?p ?set t] =>
    destruct (update_row_cases id p set t) as [?|(row & row' & Hk & Hp & [= <-] & E)] end; [by left|right].
  eexists. split; [exact E|]. split; [by apply table_ok_insert|].
  destruct (failed_row _ _ _ Hk Hp) as (j & f & e & Hl & ->). exists (row_job (id, row)), f, e. split; [done|].
  by rewrite table_view_insert.
Qed.

Lemma SQL_ForgetFailed_effect counted ctx id store os t t' r :
  table_ok t -> perform os (SQL_ForgetFailed counted ctx id store) t = (t', r) ->
  effect (all_settled os /\ counted = None) (tr_forget id) t t' r.
Proof.
  intros Hok. unfold SQL_ForgetFailed. destruct (_ =? _)%string; [by intros [= <- <-]; auto with go|].
  apply guarded_effect; [done|]. unfold delete_failed.
  match goal with |- context [delete_row _ ?p t] =>
    destruct (delete_row_cases id p t) as [E|(row & Hk & Hp & E)] end; [left; by eexists|right].
  eexists. split; [exact E|]. split; [by apply table_ok_delete|].
  destruct (failed_row _ _ _ Hk Hp) as (j & f & e & Hl & _). split; [eauto|]. by rewrite table_view_delete.
Qed.

Lemma tr_enqueue_insert t j : t !! ID j = None ->
  tr_enqueue json_column j tt (table_view t) (table_view (<[ID j := new_row json_column j]> t)).
Proof.
  intros Hk. split; [by rewrite table_view_lookup, Hk|]. by rewrite table_view_insert.
Qed.

Lemma SQL_Enqueue_effect ctx j store os t t' r :
  table_ok t -> perform os (SQL_Enqueue duplicate json_column ctx j store) t = (t', r) ->
  effect (all_settled os) (tr_enqueue json_column j) t t' r.
Proof.
  intros Hok. unfold SQL_Enqueue. match goal with |- context [with_ready store ctx ?k] =>
    destruct (with_ready_cases store ctx k) as [(s & _ & _ & ->)|(err & -> & _)] end;
    [|by intros [= <- <-]; auto with go].
  destruct (validateStoredJob _ _) as [u|err|m]; [|by intros [= <- <-]; auto with go..].
  unfold jobExists. cbn [perform].
  destruct (execute (os O) _ t) as [t1 a] eqn:E0.
  assert (t1 = t) as -> by (destruct (os O); cbn in E0; by injection E0).
  destruct a as [err|n]; [destruct (errors_is err _)|]; [|by intros [= <- <-]; auto with go..].
  cbn [perform]. destruct (execute (os 1%nat) _ t) as [t1 a] eqn:E1. 
  assert (t1 = t /\ (exists err, a = inl err) \/
          t1 = <[ID j := new_row json_column j]> t /\ t !! ID j = None /\ (a = inr 1 \/ ~ all_settled os)) as H1.
  { destruct (insert_row_cases duplicate (ID j) (new_row json_column j) t) as [Hi|[Hk Hi]];
      unfold insert_job in E1; destruct (os 1%nat) as [|e|e] eqn:Ho; cbn [execute] in E1; rewrite ?Hi in E1; cbn in E1;
      injection E1 as <- <-; eauto. right. split; [done|]. split; [done|]. right. intros Hs.
    specialize (Hs 1%nat). by rewrite Ho in Hs. }
  clear E1. destruct a as [err0|n].
  - cbn [perform]. destruct (execute (os 2%nat) _ t1) as [t2 a2] eqn:E2.
    assert (t2 = t1) as -> by (destruct (os 2%nat); cbn in E2; by injection E2). clear E2.
    intros H. assert (t' = t1 /\ forall u, r <> Some (Ok u)) as [-> Hr].
    { destruct a2 as [err2|n2]; [destruct (errors_is err2 _)|]; cbn in H; by injection H as <- <-. }
    destruct H1 as [[-> _]|(-> & Hk & Hs)]; [by apply effect_none|].
    split; [by apply table_ok_insert|]. destruct Hs as [?|Hs]; [done|].
    assert (~ all_settled os /\ exists a : unit, tr_enqueue json_column j a (table_view t)
      (table_view (<[ID j := new_row json_column j]> t))) as Hl by (split; [done|exists tt; by apply tr_enqueue_insert]).
    destruct r as [[u0| |]|]; [by destruct (Hr u0)|auto..].
  - intros [= <- <-]. destruct H1 as [[_ (e & ?)]|(-> & Hk & _)]; [done|].
    split; [by apply table_ok_insert|]. by apply tr_enqueue_insert.
Qed.

End Effects.

(** ** [Reserve] *)
Section ReserveEffect.
Variable overflow : goerror.

Lemma scan_row_job max kr j : scanSQLStoredJob max kr = inr j -> j = row_job kr.
Proof.
  unfold scanSQLStoredJob, validated. destruct (_ || _); [done|]. destruct (validateStoredJob _ _); [|done..].
  by intros [= <-].
Qed.
Lemma scan_attempts max kr j : scanSQLStoredJob max kr = inr j -> 0 <= row_attempts kr.2.
Proof. unfold scanSQLStoredJob. destruct (_ || _) eqn:E; [done|]. bool_prop. lia. Qed.

(** The selected job is the first reservable one. *)
Lemma select_ready now max o t t1 j : table_ok t ->
  execute o (select_first row_before (row_ready (sqlJobStoreTime now)) (scanSQLStoredJob max)) t = (t1, inr j) ->
  exists row, t !! ID j = Some row /\ row_ready (sqlJobStoreTime now) row = true /\ j = row_job (ID j, row) /\
    0 <= row_attempts row /\
    reservable (to_microseconds now) (row_entry (ID j) row) /\
    forall id' j' status', table_view t !! id' = Some (j', status') ->
      reservable (to_microseconds now) (j', status') -> job_before j j'.
Proof.
  intros Hok He. destruct o as [|e|e]; cbn [execute] in He; [|by injection He..].
  destruct (select_first_spec row_before (row_ready (sqlJobStoreTime now)) (scanSQLStoredJob max) t)
    as [(k & row & Hk & Hp & E & Hmin)|[_ E]]; rewrite E in He; [|by injection He].
  injection He as _ Hs. apply scan_attempts in Hs as Ha. apply scan_row_job in Hs as ->. cbn [ID row_job fst].
  exists row. split; [done|]. split; [done|]. split; [done|]. split; [done|]. split.
  - apply row_ready_reservable; [by apply (Hok _ _ Hk)|done].
  - intros id' j' st' Hl Hr. rewrite table_view_lookup in Hl. destruct (t !! id') as [row'|] eqn:Hk'; [|done].
    injection Hl as <- <-. apply (row_before_job (k, row) (id', row')). apply Hmin; [done|].
    apply (row_ready_reservable _ id'); [by apply (Hok _ _ Hk')|done].
Qed.

Lemma select_keeps {B} o (scan : string * job_row -> goerror + B) p t : (execute o (select_first row_before p scan) t).1 = t.
Proof. by destruct o. Qed.

(** The conditional update of a selected row. *)
Lemma update_selected token until now j row t :
  t !! ID j = Some row -> j = row_job (ID j, row) -> row_ready now row = true -> table_ok t ->
  update_reserve overflow token until (ID j) (Attempts j) now t = (t, inl overflow) \/
  exists row', update_reserve overflow token until (ID j) (Attempts j) now t = (<[ID j := row']> t, inr 1) /\
    row_ok row' /\ Attempts j < int64_max /\
    row_entry (ID j) row' = (with_attempts j (Attempts j + 1), Reserved token (FromUnixMicro until)).
Proof.
  intros Hk Hj Hr Hok. unfold update_reserve, update_row. rewrite Hk, Hr.
  assert (Attempts j = row_attempts row) as Ha by (by rewrite Hj). rewrite <- Ha, Z.eqb_refl. cbn [andb].
  unfold reserve_row. rewrite <- Ha. destruct (Z.ltb_spec int64_max (Attempts j + 1)); [by left|right].
  eexists. split; [done|]. unfold row_ready in Hr. destruct (row_failed_at row) eqn:Hf; [done|].
  split; [by split|]. split; [lia|]. unfold row_entry, row_status. cbn. rewrite Hj. by rewrite Hj in Ha.
Qed.

Definition turns_counted (turns : list reserve_turn) : Prop := Forall (fun turn => turn_counted turn = None) turns.

Lemma reserve_loop_effect turns now lease s os t t' r :
  table_ok t -> perform os (reserve_loop overflow turns now (now + lease) s) t = (t', r) ->
  effect (all_settled os /\ turns_counted turns) (tr_reserve now lease) t t' r.
Proof.
  intros Hok. destruct turns as [|turn turns]; [by intros [= <- <-]; apply effect_none|].
  cbn [reserve_loop]. destruct (turn_ctx turn); [by intros [= <- <-]; apply effect_none|].
  unfold readyJob. cbn [perform]. destruct (execute (os O) _ t) as [t1 a] eqn:E0.
  pose proof (select_keeps (os O) (scanSQLStoredJob (sql_maxPayloadBytes s)) (row_ready (sqlJobStoreTime now)) t) as Ht.
  rewrite E0 in Ht. cbn in Ht. subst t1. destruct a as [err|j].
  { destruct (errors_is err _); intros [= <- <-]; by apply effect_none. }
  destruct (select_ready _ _ _ _ _ _ Hok E0) as (row & Hk & Hready & Hj & Ha & Hres & Hmin). clear E0.
  destruct (newJobIdentifier _) as [token|err|m]; [|by intros [= <- <-]; apply effect_none..].
  cbn [perform]. destruct (execute (os 1%nat) _ t) as [t1 a] eqn:E1.
  destruct (update_selected token (sqlJobStoreTime (now + lease)) (sqlJobStoreTime now) j row t Hk Hj Hready Hok)
    as [E|(row' & E & Hrow' & Hmax & Hentry)].
  { assert (t1 = t /\ exists e, a = inl e) as [-> [e ->]]
      by (destruct (os 1%nat); cbn [execute] in E1; rewrite ?E in E1; cbn in E1; injection E1 as <- <-; eauto).
    intros [= <- <-]. by apply effect_none. }
  assert (in_int64 (Attempts j + 1)) as Hin.
  { assert (0 <= Attempts j) by (by rewrite Hj). unfold in_int64, int64_min, int64_max in *. lia. }
  assert (tr_reserve now lease (MkJobReservation (with_attempts j (wrap64 (Attempts j + 1))) token (now + lease))
    (table_view t) (table_view (<[ID j := row']> t))) as Htr.
  { exists j, (row_status row). rewrite table_view_lookup, Hk.
    assert (row_entry (ID j) row = (j, row_status row)) as He by (unfold row_entry; by rewrite <- Hj).
    rewrite He in Hres. split; [exact (f_equal Some He)|]. split; [done|]. split; [done|]. split; [done|]. split; [done|].
    rewrite table_view_insert, Hentry. cbn [res_Job res_Token]. by rewrite wrap64_id. }
  assert (table_ok (<[ID j := row']> t)) as Hok1 by (by apply table_ok_insert).
  destruct (os 1%nat) as [|e|e] eqn:Ho; cbn [execute] in E1; rewrite ?E in E1; cbn in E1; injection E1 as <- <-.
  - destruct (turn_counted turn) eqn:Hc; intros [= <- <-]; (split; [done|]); [|done].
    right. split; [|by eexists]. intros [_ Hall]. apply Forall_cons in Hall as [Hc' _]. congruence.
  - intros [= <- <-]. by apply effect_none.
  - intros [= <- <-]. split; [done|]. right. split; [|by eexists]. intros [Hs _]. specialize (Hs 1%nat).
    by rewrite Ho in Hs.
Qed.

Lemma SQL_Reserve_effect turns ctx now lease store os t t' r :
  table_ok t -> perform os (SQL_Reserve overflow turns ctx now lease store) t = (t', r) ->
  effect (all_settled os /\ turns_counted turns) (tr_reserve now lease) t t' r.
Proof.
  intros Hok. unfold SQL_Reserve. match goal with |- context [with_ready store ctx ?k] =>
    destruct (with_ready_cases store ctx k) as [(s & _ & _ & ->)|(err & -> & _)] end;
    [|by intros [= <- <-]; apply effect_none].
  destruct (_ || _); [by intros [= <- <-]; apply effect_none|]. by apply reserve_loop_effect.
Qed.
End ReserveEffect.
