(* ===== verification/SqlJobStoreSpec.v ===== *)
(** * The SQL job store behind the contract, alone and among other clients

    The instance of [JobStoreLaws]; what a full table of [BIGINT]s or an
    unreadable row do to [Reserve]; and the store in any interleaving of the
    statements of its clients, with answers that get lost. *)
From S2P Require Import Prelude GoTime GoStrings Json EventLog JobStore FileJobStore FileJobStoreFacts Statements SqlJobStore SqlJobStoreFacts.
Open Scope Z_scope.
Open Scope go_scope.

(** ** The contract

    The instance is for calls whose statements are answered or refused; they
    also take random bytes and the clock from their environment. *)
Record sql_env := SqlEnv {
  sql_outcomes : nat -> settled_outcome;
  sql_random : result (nat -> Z);
  sql_clock : positive
}.
Definition turn_of (e : sql_env) : reserve_turn := ReserveTurn None (sql_random e) None.

(** A store and the table it works on. *)
Abbreviation sql_state := (option SQLJobStore * job_table)%type.

Section Contract.
Variables (duplicate overflow : goerror) (json_column : string -> string).

Lemma effect_on_view {A} (P : Prop) (tr : A -> job_view -> job_view -> Prop) os (p : db_call job_table A) (s s' : sql_state) r :
  P -> (forall t r, perform (fun n => as_outcome (os n)) p s.2 = (t, r) -> effect P tr s.2 t r) ->
  run_call os p s = (s', r) ->
  table_ok s'.2 /\
  match r with
  | Ok a => tr a (table_view s.2) (table_view s'.2)
  | _ => table_view s'.2 = table_view s.2
  end.
Proof.
  intros HP He H. destruct (effect_contract table_ok P (on_view tr) os p s s' r HP He H) as [Hok Hr].
  split; [done|]. destruct r; [done|by rewrite Hr..].
Qed.

(** [Reserve] that finds no job has looked at all of them. *)
Lemma reserve_empty turn now lease s os t t' :
  (forall n err, os n = Refused err \/ os n = Lost err -> errors_is err sql_ErrNoRows = false) ->
  turn_ctx turn = None -> table_ok t ->
  perform os (reserve_loop overflow [turn] now (now + lease) s) t = (t', Some (Err ErrJobStoreEmpty)) ->
  forall id entry, table_view t !! id = Some entry -> ~ reservable (to_microseconds now) entry.
Proof.
  intros Hos Hctx Hok. cbn [reserve_loop]. rewrite Hctx. unfold readyJob. cbn [perform].
  destruct (select_first_spec row_before (row_ready (sqlJobStoreTime now)) (scanSQLStoredJob (sql_maxPayloadBytes s)) t)
    as [(k & row & Hk & Hp & E & _)|[Hnone E]].
  2: { intros _ id entry Hl Hr. rewrite table_view_lookup in Hl. destruct (t !! id) as [row|] eqn:Hk; [|done].
       injection Hl as <-. apply (row_ready_reservable _ id) in Hr; [|by apply (Hok _ _ Hk)].
       specialize (Hnone _ _ Hk). unfold sqlJobStoreTime in Hnone. congruence. }
  destruct (execute (os O) _ t) as [t1 a] eqn:E0.
  assert (match a with inl err => errors_is err sql_ErrNoRows = false | _ => True end) as Ha.
  { destruct (os O) as [|e|e] eqn:Ho; cbn [execute] in E0; rewrite ?E in E0; cbn in E0; injection E0 as <- <-;
      [|apply (Hos O); auto..].
    unfold scanSQLStoredJob, validated, validateStoredJob. destruct (_ || _); [done|]. by destruct (_ || _). }
  destruct a as [err|j]; [rewrite Ha; by intros [= _ ?]|].
  destruct (newJobIdentifier _) as [token|err|m] eqn:Er; [|intros [= _ ->]|by intros [= _ ?]].
  2: { unfold newJobIdentifier in Er. destruct (turn_random turn); [done|by injection Er|done]. }
  cbn [perform]. destruct (execute (os 1%nat) _ t1) as [t2 [err|updated]]; [by intros [= _ ?]|].
  destruct (turn_counted turn); [by intros [= _ ?]|]. destruct (updated =? 0); [by intros [= _ ?]|].
  destruct (negb _); by intros [= _ ?].
Qed.

(** An undisturbed [Reserve] needs one turn of its loop. *)
Lemma SQL_Reserve_returns turn turns ctx now lease store os t :
  table_ok t -> is_Some (perform os (SQL_Reserve overflow (turn :: turns) ctx now lease store) t).2.
Proof.
  intros Hok. unfold SQL_Reserve. match goal with |- context [with_ready store ctx ?k] =>
    destruct (with_ready_cases store ctx k) as [(s & _ & _ & ->)|(err & -> & _)] end; [|by eexists].
  destruct (_ || _); [by eexists|]. cbn [reserve_loop]. destruct (turn_ctx turn); [by eexists|].
  unfold readyJob. cbn [perform]. destruct (execute (os O) _ t) as [t1 a] eqn:E0.
  pose proof (select_keeps (os O) (scanSQLStoredJob (sql_maxPayloadBytes s)) (row_ready (sqlJobStoreTime now)) t) as Ht.
  rewrite E0 in Ht. cbn in Ht. subst t1. destruct a as [err|j]; [destruct (errors_is err _); by eexists|].
  destruct (select_ready _ _ _ _ _ _ Hok E0) as (row & Hk & Hready & Hj & Ha & _).
  destruct (newJobIdentifier _) as [token|err|m]; [|by eexists..].
  cbn [perform]. destruct (execute (os 1%nat) _ t) as [t1 a] eqn:E1.
  assert ((exists e, a = inl e) \/ a = inr 1) as [[e ->]| -> ]; [|by eexists|].
  { destruct (update_selected overflow token (sqlJobStoreTime (now + lease)) (sqlJobStoreTime now) j row t Hk Hj Hready Hok)
      as [E|(row' & E & _)]; destruct (os 1%nat); cbn [execute] in E1; rewrite ?E in E1; cbn in E1;
      injection E1 as <- <-; eauto. }
  destruct (turn_counted turn); by eexists.
Qed.

#[export] Instance SqlJobStore_ops : JobStore sql_state sql_env := {
  store_Enqueue e ctx j s := run_call (sql_outcomes e) (SQL_Enqueue duplicate json_column ctx j s.1) s;
  store_Reserve e ctx now lease s := run_call (sql_outcomes e) (SQL_Reserve overflow [turn_of e] ctx now lease s.1) s;
  store_Release e ctx res availableAt error s := run_call (sql_outcomes e) (SQL_Release None ctx res availableAt error s.1) s;
  store_Complete e ctx res s := run_call (sql_outcomes e) (SQL_Complete None ctx res s.1) s;
  store_Fail e ctx res error s := run_call (sql_outcomes e) (SQL_Fail None (sql_clock e) ctx res error s.1) s
}.

Lemma sql_reserve_contract e ctx now lease (s s' : sql_state) r :
  table_ok s.2 -> run_call (sql_outcomes e) (SQL_Reserve overflow [turn_of e] ctx now lease s.1) s = (s', r) ->
  table_ok s'.2 /\
  match r with
  | Ok res => tr_reserve now lease res (table_view s.2) (table_view s'.2)
  | Err err => table_view s'.2 = table_view s.2 /\
      (standard_context ctx -> err = ErrJobStoreEmpty -> forall id entry, table_view s.2 !! id = Some entry ->
         ~ reservable (to_microseconds now) entry)
  | Panicked _ => table_view s'.2 = table_view s.2
  end.
Proof.
  intros Hok H.
  assert (all_settled (fun n => as_outcome (sql_outcomes e n)) /\ turns_counted [turn_of e]) as HP
    by (split; [apply outcomes_settled|by repeat constructor]).
  destruct (effect_on_view _ (tr_reserve now lease) (sql_outcomes e) _ s s' r HP
    (fun t r E => SQL_Reserve_effect overflow _ _ _ _ _ _ _ _ _ Hok E) H) as [Hok' Hr].
  split; [done|]. destruct r as [res|err|m]; [done| |done]. split; [done|]. intros Hctx ->.
  unfold run_call in H. destruct (perform _ _ _) as [t1 q] eqn:E. injection H as <- Hq.
  destruct q as [[a|err|m]|]; try done. injection Hq as ->. revert E.
  unfold SQL_Reserve. match goal with |- context [with_ready ?st ctx ?k] =>
    destruct (with_ready_cases st ctx k) as [(st' & _ & _ & ->)|(err & -> & He)] end.
  2: { intros [= _ ->]. by destruct (He Hctx). }
  destruct (_ || _); [by intros [= _ ?]|].
  apply reserve_empty; [|done|done]. intros n err.
  destruct (sql_outcomes e n) as [|err' Ho]; cbn; [by intros [?|?]|]. intros [[= <-]|?]; done.
Qed.

Lemma sql_enqueue_contract e ctx j (s s' : sql_state) r :
  table_ok s.2 -> run_call (sql_outcomes e) (SQL_Enqueue duplicate json_column ctx j s.1) s = (s', r) -> table_ok s'.2 /\
  match r with
  | Ok _ => table_view s.2 !! ID j = None /\
            table_view s'.2 = <[ID j := (sql_kept json_column j, Waiting)]> (table_view s.2)
  | _ => table_view s'.2 = table_view s.2
  end.
Proof.
  intros Hok. apply (effect_on_view _ (tr_enqueue json_column j) (sql_outcomes e) _ _ _ _ (outcomes_settled (sql_outcomes e))).
  intros t q. by apply SQL_Enqueue_effect.
Qed.

Lemma sql_release_contract e ctx res availableAt error (s s' : sql_state) r :
  table_ok s.2 -> run_call (sql_outcomes e) (SQL_Release None ctx res availableAt error s.1) s = (s', r) -> table_ok s'.2 /\
  match r with
  | Ok u => tr_release res availableAt u (table_view s.2) (table_view s'.2)
  | _ => table_view s'.2 = table_view s.2
  end.
Proof.
  intros Hok. apply (effect_on_view _ _ (sql_outcomes e) _ _ _ _ (finished_for_certain (sql_outcomes e))).
  intros t q. by apply SQL_Release_effect.
Qed.

Lemma sql_complete_contract e ctx res (s s' : sql_state) r :
  table_ok s.2 -> run_call (sql_outcomes e) (SQL_Complete None ctx res s.1) s = (s', r) -> table_ok s'.2 /\
  match r with
  | Ok u => tr_complete res u (table_view s.2) (table_view s'.2)
  | _ => table_view s'.2 = table_view s.2
  end.
Proof.
  intros Hok. apply (effect_on_view _ _ (sql_outcomes e) _ _ _ _ (finished_for_certain (sql_outcomes e))).
  intros t q. by apply SQL_Complete_effect.
Qed.

Lemma sql_fail_contract e ctx res error (s s' : sql_state) r :
  table_ok s.2 -> run_call (sql_outcomes e) (SQL_Fail None (sql_clock e) ctx res error s.1) s = (s', r) -> table_ok s'.2 /\
  match r with
  | Ok u => tr_fail res (to_microseconds (Z.pos (sql_clock e))) (normalizeFileJobStoreError error) u
              (table_view s.2) (table_view s'.2)
  | _ => table_view s'.2 = table_view s.2
  end.
Proof.
  intros Hok. apply (effect_on_view _ _ (sql_outcomes e) _ _ _ _ (finished_for_certain (sql_outcomes e))).
  intros t q. by apply SQL_Fail_effect.
Qed.

(** The SQL store is a job store like any other; instants are kept to the
    microsecond and a payload as its column gives it back. *)
#[export] Instance SqlJobStore_laws : JobStoreLaws sql_state sql_env := {
  store_ok s := table_ok s.2; store_view s := table_view s.2;
  store_failedAt e := to_microseconds (Z.pos (sql_clock e)); store_error := normalizeFileJobStoreError;
  store_instant := to_microseconds; store_kept := sql_kept json_column;
  kept_ID _ := eq_refl; kept_Attempts _ := eq_refl;
  Enqueue_ok := sql_enqueue_contract; Reserve_ok := sql_reserve_contract;
  Release_ok := sql_release_contract; Complete_ok := sql_complete_contract; Fail_ok := sql_fail_contract
}.
End Contract.

(** ** Any number of stores on one table

    Every statement of every client is a step of its own, in any order, and may
    lose its answer. *)
Inductive job_answer :=
| AnsDone
| AnsReservation (res : JobReservation)
| AnsFailedJobs (l : list FailedStoredJob).

Section Shared.
Variables (duplicate overflow : goerror) (json_column : string -> string).

(** The calls of the clients, [Reserve] only at instants in [Pnow] and finishing
    calls only for reservations in [Pfinish]. *)
Inductive client_call (Pnow : Z -> Prop) (Pfinish : JobReservation -> Prop) : db_call job_table job_answer -> Prop :=
| client_Enqueue ctx j store :
    client_call Pnow Pfinish (map_call (fun _ => AnsDone) (SQL_Enqueue duplicate json_column ctx j store))
| client_Reserve turns ctx now lease store : Pnow now ->
    client_call Pnow Pfinish (map_call AnsReservation (SQL_Reserve overflow turns ctx now lease store))
| client_Release counted ctx res at_ error store : Pfinish res ->
    client_call Pnow Pfinish (map_call (fun _ => AnsDone) (SQL_Release counted ctx res at_ error store))
| client_Complete counted ctx res store : Pfinish res ->
    client_call Pnow Pfinish (map_call (fun _ => AnsDone) (SQL_Complete counted ctx res store))
| client_Fail counted clock ctx res error store : Pfinish res ->
    client_call Pnow Pfinish (map_call (fun _ => AnsDone) (SQL_Fail counted clock ctx res error store))
| client_FailedJobs iterated closed ctx store :
    client_call Pnow Pfinish (map_call AnsFailedJobs (SQL_FailedJobs iterated closed ctx store))
| client_RetryFailed counted ctx id at_ store :
    client_call Pnow Pfinish (map_call (fun _ => AnsDone) (SQL_RetryFailed counted ctx id at_ store))
| client_ForgetFailed counted ctx id store :
    client_call Pnow Pfinish (map_call (fun _ => AnsDone) (SQL_ForgetFailed counted ctx id store)).

(** The row of a job under the lease of [res]. *)
Definition row_leased (res : JobReservation) (r : job_row) : Prop :=
  row_failed_at r = None /\ wrap64 (row_attempts r) = Attempts (res_Job res) /\
  row_reservation_token r = Some (res_Token res) /\
  row_reserved_until r = Some (UnixMicro (res_ReservedUntil res)).
Definition table_leased (res : JobReservation) (t : job_table) : Prop :=
  exists r, t !! ID (res_Job res) = Some r /\ row_leased res r.

(** *** Programs of statements *)
Lemma with_ready_preserve {A} good store ctx (k : SQLJobStore -> db_call job_table A) :
  (forall s, all_preserve good (k s)) -> all_preserve good (with_ready store ctx k).
Proof.
  intros Hk. destruct (with_ready_cases store ctx k) as [(s & _ & _ & ->)|(err & -> & _)]; [apply Hk|done].
Qed.

Lemma enqueue_preserve good ctx j store : preserves good (insert_job duplicate json_column j) ->
  all_preserve good (SQL_Enqueue duplicate json_column ctx j store).
Proof.
  intros Hs. apply with_ready_preserve. intros s. destruct (validateStoredJob _ _); [|done..].
  split; [by apply preserves_query|]. intros [err|n]; [destruct (errors_is _ _)|]; [|done..].
  split; [done|]. intros [err'|n]; [|done]. split; [by apply preserves_query|].
  intros [err''|n]; [by destruct (errors_is _ _)|done].
Qed.

Lemma finish_preserve good counted ctx res query op store : preserves good query ->
  all_preserve good (finish_reservation counted ctx res query op store).
Proof.
  intros Hs. unfold finish_reservation. destruct (_ || _); [done|]. apply with_ready_preserve.
  intros s. split; [done|]. by intros [].
Qed.

(** What a statement of [Reserve] leaves, and what it may return then. *)
Lemma reserve_obeys good (Q : job_table -> result job_answer -> Prop) turns ctx now lease store :
  (forall d r, (match r with Ok _ => False | _ => True end) -> Q d r) ->
  (forall d token j, good d -> 
     let '(d', a) := update_reserve overflow token (UnixMicro (now + lease)) (ID j) (Attempts j) (UnixMicro now) d in
     good d' /\ (a = inr 1 -> Q d' (Ok (AnsReservation
       (MkJobReservation (with_attempts j (wrap64 (Attempts j + 1))) token (now + lease)))))) ->
  obeys_call good Q (map_call AnsReservation (SQL_Reserve overflow turns ctx now lease store)).
Proof.
  intros HQ Hs. unfold SQL_Reserve. match goal with |- context [with_ready store ctx ?k] =>
    destruct (with_ready_cases store ctx k) as [(s & _ & _ & ->)|(err & -> & _)] end;
    [|by split; [|intros d; apply HQ]].
  destruct (_ || _); [by split; [|intros d; apply HQ]|].
  assert (forall turns d, returns (Q d) (map_call AnsReservation (reserve_loop overflow turns now (now + lease) s)))
    as Hret.
  { intros ts d. destruct ts as [|turn ts]; [done|]. cbn [reserve_loop]. destruct (turn_ctx turn); [by apply HQ|done]. }
  split; [|by intros d; apply Hret].
  induction turns as [|turn turns IH]; [done|]. cbn [reserve_loop]. destruct (turn_ctx turn); [done|].
  split.
  - intros d o Hd. rewrite select_keeps. split; [done|]. destruct (execute _ _ _).2 as [err|j]; cbn.
    + destruct (errors_is _ _); by apply HQ.
    + destruct (newJobIdentifier _); [done|by apply HQ..].
  - intros d0 o0. destruct (execute o0 _ d0).2 as [err|j]; [by destruct (errors_is _ _)|].
    destruct (newJobIdentifier _) as [token| |]; [|done..]. split.
    + intros d o Hd. specialize (Hs d token j Hd).
      destruct (update_reserve overflow token (UnixMicro (now + lease)) (ID j) (Attempts j) (UnixMicro now) d)
        as [d' a] eqn:E. destruct Hs as [Hg Hq].
      destruct o as [|e|e]; cbn [execute]; unfold sqlJobStoreTime; rewrite ?E; cbn [fst snd];
        [|split; [done|by apply HQ]..].
      split; [done|]. destruct a as [err|n]; [by apply HQ|]. destruct (turn_counted turn); [by apply HQ|].
      destruct (Z.eqb_spec n 0); [apply Hret|]. destruct (Z.eqb_spec n 1) as [->|]; [by apply Hq|by apply HQ].
    + intros d o. destruct (execute o _ d).2 as [err|n]; [done|]. destruct (turn_counted turn); [done|].
      destruct (n =? 0); [apply IH|].
      by destruct (negb _).
Qed.

(** *** Statements keep tables in order, and leases *)
Lemma token_row_ok r token : row_ok r -> sql_eq (row_reservation_token r) token = true -> row_failed_at r = None.
Proof.
  intros [_ Hf] Ht. destruct (row_failed_at r); [|done]. specialize (Hf ltac:(done)). by rewrite Hf in Ht.
Qed.

Definition lease_good (res : JobReservation) : job_table -> Prop :=
  row_held row_ok (ID (res_Job res)) (row_leased res).
Lemma new_row_ok j : row_ok (new_row json_column j).
Proof. by split. Qed.

Lemma leased_not_ready res now r : row_leased res r -> UnixMicro now < UnixMicro (res_ReservedUntil res) ->
  row_ready (UnixMicro now) r = false.
Proof.
  intros (Hf & _ & Ht & Hu) Hlt. unfold row_ready. rewrite Hf, Ht, Hu. cbn.
  destruct (Z.leb_spec (UnixMicro (res_ReservedUntil res)) (UnixMicro now)); [lia|]. by rewrite andb_false_r.
Qed.

Lemma leased_other_token res r res' k : k = ID (res_Job res') ->
  (ID (res_Job res') = ID (res_Job res) -> res_Token res' <> res_Token res) ->
  k = ID (res_Job res) -> row_leased res r -> sql_eq (row_reservation_token r) (res_Token res') = false.
Proof.
  intros -> Hne E (_ & _ & Ht & _). rewrite Ht. cbn. apply String.eqb_neq. intros E'. by apply (Hne E).
Qed.

Lemma leased_not_failed res r : row_leased res r -> negb (is_null (row_failed_at r)) = false.
Proof. intros (Hf & _). by rewrite Hf. Qed.

Lemma reserve_row_ok token until r r' now attempts : row_ok r ->
  (row_attempts r =? attempts) && row_ready now r = true -> reserve_row overflow token until r = inr r' -> row_ok r'.
Proof.
  intros Hok Hp. unfold reserve_row. destruct (_ <? _); [done|]. intros [= <-]. bool_prop.
  unfold row_ready in *. destruct (row_failed_at r) eqn:Hf; [done|]. split; [done|]. by cbn.
Qed.

Lemma release_row_ok at_ error r r' token : row_ok r -> sql_eq (row_reservation_token r) token = true ->
  release_row at_ error r = inr r' -> row_ok r'.
Proof. intros Hok Ht [= <-]. apply (token_row_ok _ _ Hok) in Ht. by split. Qed.
Lemma fail_row_ok at_ error r r' token : row_ok r -> sql_eq (row_reservation_token r) token = true ->
  fail_row at_ error r = inr r' -> row_ok r'.
Proof. by intros Hok Ht [= <-]. Qed.
Lemma retry_row_ok at_ r r' : row_ok r -> negb (is_null (row_failed_at r)) = true ->
  retry_row at_ r = inr r' -> row_ok r'.
Proof. by intros Hok Ht [= <-]. Qed.

(** Every call but [Reserve] under an invariant that its statement keeps. *)
Lemma other_calls_obey good (Q : job_table -> result job_answer -> Prop) Pnow (Pfinish : JobReservation -> Prop) p :
  (forall d r, (match r with Ok (AnsReservation _) => False | _ => True end) -> Q d r) ->
  (forall j, preserves good (insert_job duplicate json_column j)) ->
  (forall res at_ error, Pfinish res -> preserves good (update_release at_ error (ID (res_Job res)) (res_Token res))) ->
  (forall res, Pfinish res -> preserves good (delete_complete (ID (res_Job res)) (res_Token res))) ->
  (forall res at_ error, Pfinish res -> preserves good (update_fail at_ error (ID (res_Job res)) (res_Token res))) ->
  (forall id at_, preserves good (update_retry at_ id)) -> (forall id, preserves good (delete_failed id)) ->
  (forall turns ctx now lease store, Pnow now ->
     obeys_call good Q (map_call AnsReservation (SQL_Reserve overflow turns ctx now lease store))) ->
  client_call Pnow Pfinish p -> obeys_call good Q p.
Proof.
  intros HQ Hins Hrel Hcom Hfail Hretry Hforget Hres Hp.
  assert (forall d (r : result job_answer), match r with Ok b => exists a : unit, b = AnsDone | _ => True end -> Q d r) as HQ1
    by (intros d [b| |] Hb; apply HQ; [by destruct Hb as [_ ->]|done..]).
  destruct Hp as [ctx j store|turns ctx now lease store Hnow|counted ctx res at_ error store Hf|counted ctx res store Hf
    |counted clock ctx res error store Hf|iterated closed ctx store|counted ctx id at_ store|counted ctx id store].
  - apply all_preserve_obeys; [done|]. by apply enqueue_preserve.
  - by apply Hres.
  - apply all_preserve_obeys; [done|]. unfold SQL_Release. destruct (IsZero _); [done|].
    destruct store; [|done]. by apply finish_preserve, Hrel.
  - apply all_preserve_obeys; [done|]. destruct store; [|done]. by apply finish_preserve, Hcom.
  - apply all_preserve_obeys; [done|]. destruct store; [|done]. by apply finish_preserve, Hfail.
  - apply all_preserve_obeys; [intros d [b| |] Hb; apply HQ; [by destruct Hb as [l ->]|done..]|].
    apply with_ready_preserve. intros s. split; [by apply preserves_query|].
    intros [err|[err|l]]; [done..|]. destruct iterated, closed; done.
  - apply all_preserve_obeys; [done|]. unfold SQL_RetryFailed. destruct (_ || _); [done|].
    apply with_ready_preserve. intros s. split; [apply Hretry|]. by intros [].
  - apply all_preserve_obeys; [done|]. unfold SQL_ForgetFailed. destruct (_ =? _)%string; [done|].
    apply with_ready_preserve. intros s. split; [apply Hforget|]. by intros [].
Qed.

(** What [Reserve] returns is in the table at that moment. *)
Lemma client_call_takes Pnow Pfinish p : client_call Pnow Pfinish p ->
  obeys_call table_ok (fun d r => forall res, r = Ok (AnsReservation res) -> table_leased res d) p.
Proof.
  apply other_calls_obey.
  - by intros d [[]| |].
  - intros j. apply insert_row_ok, new_row_ok.
  - intros res at_ error _. apply update_row_ok. intros r r'. apply release_row_ok.
  - intros res _. apply delete_row_ok.
  - intros res at_ error _. apply update_row_ok. intros r r'. apply fail_row_ok.
  - intros id at_. apply update_row_ok. intros r r'. apply retry_row_ok.
  - intros id. apply delete_row_ok.
  - intros turns ctx now lease store _. apply reserve_obeys; [by intros d []|].
    intros d token j Hok. unfold update_reserve.
    match goal with |- context [update_row ?k ?p ?set d] =>
      destruct (update_row_cases k p set d) as [(e & E & He)|(r & r' & Hk & Hp & Hs & E)] end; rewrite E.
    + split; [done|]. intros ->. done.
    + pose proof (reserve_row_ok _ _ _ _ _ _ (Hok _ _ Hk) Hp Hs) as Hr'.
      split; [by apply table_ok_insert|]. intros _ res [= <-].
      exists r'. cbn [res_Job with_attempts ID]. rewrite lookup_insert_eq. split; [done|].
      unfold reserve_row in Hs. destruct (_ <? _); [done|]. injection Hs as <-. bool_prop.
      unfold row_ready in *. destruct (row_failed_at r) eqn:Hf; [done|].
      split; [done|]. split; [|done]. cbn. by match goal with H : row_attempts r = _ |- _ => rewrite H end.
Qed.

(** Calls that cannot end the lease of [res]. *)
Lemma client_call_peaceful Pnow (Pfinish : JobReservation -> Prop) res p :
  (forall now, Pnow now -> UnixMicro now < UnixMicro (res_ReservedUntil res)) ->
  (forall res', Pfinish res' -> ID (res_Job res') = ID (res_Job res) -> res_Token res' <> res_Token res) ->
  client_call Pnow Pfinish p ->
  obeys_call (lease_good res)
    (fun _ r => forall res', r = Ok (AnsReservation res') -> ID (res_Job res') <> ID (res_Job res)) p.
Proof.
  intros Hnow Hfin. apply other_calls_obey.
  - by intros d [[]| |].
  - intros j. apply insert_row_held, new_row_ok.
  - intros res' at_ error Hf. apply update_row_held; [intros r r'; apply release_row_ok|].
    intros r. apply (leased_other_token res r res'); [done|by apply Hfin].
  - intros res' Hf. apply delete_row_held. intros r. apply (leased_other_token res r res'); [done|by apply Hfin].
  - intros res' at_ error Hf. apply update_row_held; [intros r r'; apply fail_row_ok|].
    intros r. apply (leased_other_token res r res'); [done|by apply Hfin].
  - intros id at_. apply update_row_held; [intros r r'; apply retry_row_ok|]. intros r _. apply leased_not_failed.
  - intros id. apply delete_row_held. intros r _. apply leased_not_failed.
  - intros turns ctx now lease store Hn. apply reserve_obeys; [by intros d []|].
    intros d token j Hgood.
    assert (forall r, ID j = ID (res_Job res) -> row_leased res r ->
      (row_attempts r =? Attempts j) && row_ready (UnixMicro now) r = false) as Hnot
      by (intros r _ Hl; rewrite (leased_not_ready res now r Hl (Hnow _ Hn)); apply andb_false_r).
    pose proof (update_row_held row_ok (ID (res_Job res)) (row_leased res) (ID j) (fun r => (row_attempts r =? Attempts j) && row_ready (UnixMicro now) r)
      (reserve_row overflow token (UnixMicro (now + lease))) (fun r r' Hok Hp Hs => reserve_row_ok _ _ _ _ _ _ Hok Hp Hs)
      Hnot d Hgood) as Hg.
    unfold update_reserve in *. match goal with |- context [update_row ?k ?p ?set d] =>
      destruct (update_row_cases k p set d) as [(e & E & He)|(r & r' & Hk & Hp & Hs & E)] end; rewrite E in *.
    + split; [done|]. intros ->. done.
    + split; [done|]. intros _ res' [= <-]. cbn [res_Job with_attempts ID]. intros Hid.
      destruct Hgood as [_ (r0 & Hr0 & Hl)]. rewrite <- Hid, Hk in Hr0. injection Hr0 as ->.
      by rewrite (Hnot _ Hid Hl) in Hp.
Qed.

(** C20.  One holder at a time, for any number of stores on one table.  However
    the statements of all clients interleave and whatever answers get lost: once
    [Reserve] has returned a job, the row of the job carries that reservation,
    and no other [Reserve] returns the job, as long as no client's clock has
    reached the end of the lease (to the microsecond) and nobody finishes the
    job with its token. *)
Theorem sql_lease_is_exclusive Pnow (Pfinish : JobReservation -> Prop) x x1 y res :
  (forall now, Pnow now -> UnixMicro now < UnixMicro (res_ReservedUntil res)) ->
  (forall res', Pfinish res' -> ID (res_Job res') = ID (res_Job res) -> res_Token res' <> res_Token res) ->
  table_ok (sys_db x) -> calls_in_flight (client_call Pnow Pfinish) x ->
  system_step (client_call Pnow Pfinish) x x1 -> sys_returned x1 = Ok (AnsReservation res) :: sys_returned x ->
  system_run (client_call Pnow Pfinish) x1 y ->
  table_leased res (sys_db y) /\
  exists new, sys_returned y = new ++ sys_returned x1 /\
    Forall (fun r => forall res', r = Ok (AnsReservation res') -> ID (res_Job res') <> ID (res_Job res)) new.
Proof.
  intros Hnow Hfin Hok Hc Hstep Hret Hrun.
  destruct (system_step_obeys _ _ _ x x1 (client_call_takes Pnow Pfinish) Hc Hok Hstep) as [Hok1 [E|(r & E & Hr)]].
  { rewrite Hret in E. apply (f_equal length) in E. cbn in E. lia. }
  rewrite Hret in E. injection E as <-. specialize (Hr res eq_refl).
  destruct (system_run_obeys _ (lease_good res) _ x1 y (fun p => client_call_peaceful Pnow Pfinish res p Hnow Hfin)
    (in_flight_step _ _ _ Hc Hstep) (conj Hok1 Hr) Hrun) as [[_ Hl] Hnew]. done.
Qed.
End Shared.

(** Two workers have selected the only job; the first one gets it, the second
    one's update finds no row and its next turn no job. *)
Module Contest.
Definition duplicate := ErrNew "duplicate key".
Definition overflow := ErrNew "out of range".
Definition id1 : string := hex_encode (repeat 17 32).
Definition row : job_row := JobRow "mail" "{}" 5000 4000 0 None None None None.
Definition store : SQLJobStore := MkSQLJobStore "bridra_jobs" "dollar" 4096.
Definition at_micro (n : Z) : Z := FromUnixMicro n.
Definition turn (b : Z) : reserve_turn := ReserveTurn None (Ok (fun _ => b)) None.
Definition worker (b now : Z) : db_call job_table job_answer :=
  map_call AnsReservation (SQL_Reserve overflow [turn b; turn (b + 1)] Background (at_micro now) 1000000 (Some store)).
Definition table0 : job_table := {[id1 := row]}.
Definition started : system job_table job_answer :=
  System table0 {[0%nat := worker 51 6000; 1%nat := worker 68 6001]} [].
Definition x := system_next 1%nat (system_next 0%nat started).
Definition x1 := system_next 0%nat x.
Definition y := system_next 1%nat (system_next 1%nat x1).
Definition res : JobReservation :=
  MkJobReservation (MkStoredJob id1 "mail" "{}" (at_micro 5000) (at_micro 4000) 1)
    (hex_encode (repeat 51 32)) (at_micro 7000).
Definition Pnow (now : Z) : Prop := UnixMicro now < 7000.
Definition Pfinish (r : JobReservation) : Prop := res_Token r <> res_Token res.
Abbreviation client := (client_call duplicate overflow (fun text => text) Pnow Pfinish).

Lemma worker_client b now : now < 7000 -> in_int64 now -> client (worker b now).
Proof.
  intros H Hr. apply client_Reserve. unfold Pnow, at_micro. by rewrite UnixMicro_FromUnixMicro.
Qed.
Lemma job_contest_started_flight : calls_in_flight client started.
Proof.
  unfold calls_in_flight. cbn [started sys_calls]. apply map_Forall_insert_2; [|rewrite map_Forall_singleton];
    (apply flight_start, worker_client; [done|]; unfold in_int64, int64_min, int64_max; lia).
Qed.
Lemma job_contest_x_flight : calls_in_flight client x.
Proof.
  apply (in_flight_step _ (system_next 0%nat started)); [|apply system_next_step; vm_compute; reflexivity].
  apply (in_flight_step _ started); [exact job_contest_started_flight|apply system_next_step; vm_compute; reflexivity].
Qed.
Lemma job_contest_x_ok : table_ok (sys_db x).
Proof.
  assert (sys_db x = table0) as -> by (vm_compute; reflexivity). by apply map_Forall_singleton.
Qed.
Lemma job_contest_x1_step : system_step client x x1.
Proof. apply system_next_step. vm_compute. reflexivity. Qed.
Lemma job_contest_y_run : system_run client x1 y.
Proof.
  eapply system_more; [apply (system_next_step _ 1%nat); vm_compute; reflexivity|].
  eapply system_more; [apply (system_next_step _ 1%nat); vm_compute; reflexivity|]. apply system_refl.
Qed.
Lemma job_contest_peaceful_finish r : Pfinish r -> ID (res_Job r) = ID (res_Job res) -> res_Token r <> res_Token res.
Proof. by intros H _. Qed.
Lemma job_contest_early now : Pnow now -> UnixMicro now < UnixMicro (res_ReservedUntil res).
Proof. unfold Pnow. intros H. exact H. Qed.
End Contest.

Lemma sql_lease_is_exclusive_witness :
  table_leased Contest.res (sys_db Contest.y) /\ length (sys_returned Contest.y) = 2%nat.
Proof.
  split; [|vm_compute; reflexivity].
  refine (proj1 (sql_lease_is_exclusive Contest.duplicate Contest.overflow (fun text => text)
    Contest.Pnow Contest.Pfinish Contest.x Contest.x1 Contest.y Contest.res
    Contest.job_contest_early Contest.job_contest_peaceful_finish Contest.job_contest_x_ok Contest.job_contest_x_flight Contest.job_contest_x1_step _ Contest.job_contest_y_run)).
  vm_compute. reflexivity.
Defined.

(** ** A row that does not scan

    The row of a ready job may fail the checks of the store that reads it: its
    payload may be longer than that store's limit, or than any limit once its
    column has rewritten it. *)
Section Unreadable.
Variable overflow : goerror.

(** A ready row that does not scan, and comes first, makes every [Reserve]
    fail: the jobs behind it are not reached, and nothing is written that would
    let a later call get past it. *)
Theorem unreadable_row_blocks_reserve t id row s now lease turn turns err :
  t !! id = Some row -> row_ready (UnixMicro now) row = true ->
  (forall id' row', t !! id' = Some row' -> row_ready (UnixMicro now) row' = true ->
     row_before (id', row') (id, row) -> id' = id) ->
  scanSQLStoredJob (sql_maxPayloadBytes s) (id, row) = inl err ->
  now <> 0 -> 0 < lease -> turn_ctx turn = None ->
  perform (fun _ => Answered) (SQL_Reserve overflow (turn :: turns) Background now lease (Some s)) t =
    (t, Some (Err (sqlJobStoreError "select ready job" err))).
Proof.
  intros Hk Hready Hfirst Hscan Hnow Hlease Hctx. unfold SQL_Reserve. cbn [with_ready sql_ready Background].
  destruct (IsZero now || (lease <=? 0)) eqn:Hg.
  { apply orb_true_iff in Hg as [Hg|Hg]; [by apply Z.eqb_eq in Hg|apply Z.leb_le in Hg; lia]. }
  cbn [reserve_loop]. rewrite Hctx. unfold readyJob. cbn [perform execute].
  destruct (select_first_spec row_before (row_ready (sqlJobStoreTime now)) (scanSQLStoredJob (sql_maxPayloadBytes s)) t)
    as [(k & r & Hk' & Hp & E & Hmin)|[Hnone _]]; [|by specialize (Hnone _ _ Hk); unfold sqlJobStoreTime in Hnone; congruence].
  rewrite E. assert (k = id) as ->.
  { apply (Hfirst k r); [done|done|]. by apply Hmin. }
  rewrite Hk in Hk'. injection Hk' as <-. rewrite Hscan.
  assert (errors_is err sql_ErrNoRows = false) as Herr.
  { clear - Hscan. unfold scanSQLStoredJob, validated, validateStoredJob in Hscan.
    destruct (_ || _); [by injection Hscan as <-|]. destruct (_ || _); [by injection Hscan as <-|done]. }
  cbn [perform]. by rewrite Herr.
Qed.
End Unreadable.

(** A store that takes payloads of four bytes, on a table where another one
    left a payload of five, and a short one behind it. *)
Module Narrow.
Definition store : SQLJobStore := MkSQLJobStore "bridra_jobs" "dollar" 4.
Definition id2 : string := hex_encode (repeat 34 32).
Definition long : job_row := JobRow "mail" "[1,2]" 5000 4000 0 None None None None.
Definition short : job_row := JobRow "mail" "[]" 5500 4000 0 None None None None.
Definition shared : job_table := <[Contest.id1 := long]> {[id2 := short]}.
Lemma first_row id row : shared !! id = Some row -> row_before (id, row) (Contest.id1, long) -> id = Contest.id1.
Proof.
  unfold shared. destruct (decide (Contest.id1 = id)) as [<-|Hne]; [done|].
  rewrite lookup_insert_ne by done. intros [<- <-]%lookup_singleton_Some. by intros [H|[H _]].
Qed.
End Narrow.

Lemma unreadable_row_blocks_reserve_witness :
  perform (fun _ => Answered)
    (SQL_Reserve Contest.overflow [Contest.turn 51] Background (FromUnixMicro 6000) 1000 (Some Narrow.store))
    Narrow.shared = (Narrow.shared, Some (Err (sqlJobStoreError "select ready job" ErrJobStoreConflict))).
Proof.
  apply (unreadable_row_blocks_reserve Contest.overflow Narrow.shared Contest.id1 Narrow.long Narrow.store);
    [reflexivity|reflexivity|intros id row Hl _; by apply Narrow.first_row|vm_compute; reflexivity|done|done|done].
Defined.

(** A lost answer to the insert makes [Enqueue] report a conflict with the very
    job it has just stored. *)
Example lost_insert_reports_conflict :
  let j := MkStoredJob Contest.id1 "mail" "{}" (FromUnixMicro 5000) (FromUnixMicro 4000) 0 in
  let os n := match n with 1%nat => Lost (ErrNew "connection reset") | _ => Answered end in
  perform os (SQL_Enqueue Contest.duplicate (fun text => text) Background j (Some Contest.store)) ∅ =
    (<[Contest.id1 := Contest.row]> ∅, Some (Err ErrJobStoreConflict)).
Proof. vm_compute. reflexivity. Qed.
