(* ===== verification/SqlSchedulerStore.v ===== *)
(** * The SQL scheduler store: [backend/framework/sql_scheduler_store.go]

    As [SqlJobStore.v]: each method is a program of statements on a table shared
    with the schedulers of other processes, here one row per task. *)
From S2P Require Import Prelude GoTime GoStrings Json EventLog SchedulerStore FileSchedulerStore Statements.
Open Scope Z_scope.
Open Scope go_scope.

Definition ErrInvalidSQLSchedulerStoreOptions := ErrNew "framework: SQL scheduler store options are invalid".
Definition defaultSQLSchedulerStoreTable : string := "bridra_scheduled_tasks".
Definition sqlSchedulerStoreMaxNameBytes : Z := 255.

(** ** Options *)

Record SQLSchedulerStoreOptions := MkSQLSchedulerStoreOptions {
  sopt_Table : string;
  sopt_PlaceholderStyle : string
}.
Definition DefaultSQLSchedulerStoreOptions : SQLSchedulerStoreOptions :=
  MkSQLSchedulerStoreOptions defaultSQLSchedulerStoreTable SQLPlaceholderQuestionMark.

Record SQLSchedulerStore := MkSQLSchedulerStore {
  stable : string;
  splaceholderStyle : string
}.

Definition normalizeSQLSchedulerStoreOptions (options : SQLSchedulerStoreOptions) : result SQLSchedulerStoreOptions :=
  let defaults := DefaultSQLSchedulerStoreOptions in
  let name := TrimSpace (sopt_Table options) in
  let name := if String.eqb name "" then sopt_Table defaults else name in
  let style := if String.eqb (sopt_PlaceholderStyle options) "" then sopt_PlaceholderStyle defaults
               else sopt_PlaceholderStyle options in
  if negb (validSQLIdentifier name) ||
     (negb (String.eqb style SQLPlaceholderQuestionMark) && negb (String.eqb style SQLPlaceholderDollar))
  then Err ErrInvalidSQLSchedulerStoreOptions
  else Ok (MkSQLSchedulerStoreOptions name style).

Definition NewSQLSchedulerStore (pool : bool) (options : SQLSchedulerStoreOptions) : result SQLSchedulerStore :=
  if negb pool then Err ErrSchedulerStoreUnavailable else
  match normalizeSQLSchedulerStoreOptions options with
  | Ok o => Ok (MkSQLSchedulerStore (sopt_Table o) (sopt_PlaceholderStyle o))
  | Err err => Err err
  | Panicked m => Panicked m
  end.

(** ** The table *)

Record task_row := TaskRow {
  row_next_run_at : Z;
  row_last_scheduled_at : option Z;
  row_last_completed_at : option Z;
  row_last_error : option string;
  row_reservation_token : option string;
  row_reserved_until : option Z
}.
Abbreviation task_table := (gmap string task_row).
Abbreviation task_call A := (db_call task_table A).

Definition sqlSchedulerStoreTime (value : Z) : Z := UnixMicro value.
Definition sqlSchedulerStoreError (operation : string) (err : goerror) : goerror :=
  errorf2 ErrSchedulerStoreOperationFailed operation err.
Definition validSQLScheduledTaskName (name : string) : bool :=
  validStoredScheduledTaskName name && (string_length name <=? sqlSchedulerStoreMaxNameBytes).

Record sqlStoredScheduledTask := MkSqlStoredScheduledTask {
  sql_state : StoredScheduledTask;
  sql_reservationToken : string
}.

(** The fields that the columns are read into; a [NULL] leaves the zero value. *)
Definition scanned_time (column : option Z) : Z := from_option FromUnixMicro zero_time column.
Definition scanned_task (name : string) (r : task_row) : sqlStoredScheduledTask :=
  MkSqlStoredScheduledTask
    (MkStoredScheduledTask name (FromUnixMicro (row_next_run_at r)) (scanned_time (row_last_scheduled_at r))
       (scanned_time (row_last_completed_at r)) (null_string (row_last_error r)) (scanned_time (row_reserved_until r)))
    (null_string (row_reservation_token r)).

Definition scanSQLStoredScheduledTask (name : string) (r : task_row) : goerror + sqlStoredScheduledTask :=
  if negb (validSQLScheduledTaskName name) ||
     negb (Bool.eqb (is_null (row_last_scheduled_at r)) (is_null (row_last_completed_at r))) ||
     negb (Bool.eqb (is_null (row_reservation_token r)) (is_null (row_reserved_until r))) ||
     (negb (is_null (row_reservation_token r)) && String.eqb (null_string (row_reservation_token r)) "")
  then inl (ErrNew "invalid SQL scheduled task")
  else inr (scanned_task name r).

(** ** Statements *)
Section SqlTasks.
Variable duplicate : goerror.

Definition insert_task (name : string) (nextRunAt : Z) : task_table -> task_table * (goerror + Z) :=
  insert_row duplicate name (TaskRow nextRunAt None None None None None).

Definition task_row_ready (nextRunAt now : Z) (r : task_row) : bool :=
  (row_next_run_at r =? nextRunAt) && (row_next_run_at r <=? now) &&
  (is_null (row_reservation_token r) || sql_le (row_reserved_until r) now).
Definition update_reserve_task (token : string) (until : Z) (name : string) (nextRunAt now : Z)
    : task_table -> task_table * (goerror + Z) :=
  update_row name (task_row_ready nextRunAt now) (fun r =>
    inr (TaskRow (row_next_run_at r) (row_last_scheduled_at r) (row_last_completed_at r) (row_last_error r)
           (Some token) (Some until))).

Definition update_complete_task (nextRunAt scheduledAt completedAt : Z) (error name token : string) (occurrence : Z)
    : task_table -> task_table * (goerror + Z) :=
  update_row name (fun r => sql_eq (row_reservation_token r) token && (row_next_run_at r =? occurrence)) (fun r =>
    inr (TaskRow nextRunAt (Some scheduledAt) (Some completedAt) (Some error) None None)).

(** ** Helpers of the source *)

Definition task_ready (store : option SQLSchedulerStore) (ctx : context) : result SQLSchedulerStore :=
  match store with
  | None => Err ErrSchedulerStoreUnavailable
  | Some s =>
      match ctx with
      | NilContext => Err ErrSchedulerContextUnavailable
      | Ctx (Some err) => Err err
      | Ctx None => Ok s
      end
  end.
Definition with_task_ready {A} (store : option SQLSchedulerStore) (ctx : context) (k : task_call A) : task_call A :=
  match task_ready store ctx with
  | Ok _ => k
  | Err err => Done (Err err)
  | Panicked m => Done (Panicked m)
  end.

Definition stateExists {A} (name : string) (k : goerror + bool -> task_call A) : task_call A :=
  Statement (select_key name (fun _ => inr 1)) (fun a =>
    k (match a with
       | inr _ => inr true
       | inl err => if errors_is err sql_ErrNoRows then inr false else inl err
       end)).

Definition storedTask {A} (name : string) (k : goerror + sqlStoredScheduledTask -> task_call A) : task_call A :=
  Statement (select_key name (scanSQLStoredScheduledTask name)) k.

(** ** Operations *)

Definition SQL_Initialize (ctx : context) (name : string) (nextRunAt : Z) (store : option SQLSchedulerStore)
    : task_call unit :=
  with_task_ready store ctx (
    if negb (validSQLScheduledTaskName name) || IsZero nextRunAt then Done (Err ErrSchedulerStoreConflict)
    else stateExists name (fun exists_ =>
      match exists_ with
      | inl err => Done (Err (sqlSchedulerStoreError "check initialization conflict" err))
      | inr true => Done (Ok tt)
      | inr false =>
          Statement (insert_task name (sqlSchedulerStoreTime nextRunAt)) (fun a =>
            match a with
            | inr _ => Done (Ok tt)
            | inl err =>
                stateExists name (fun exists_ =>
                  match exists_ with
                  | inr true => Done (Ok tt)
                  | inr false => Done (Err (sqlSchedulerStoreError "initialize task" err))
                  | inl conflictErr =>
                      Done (Err (errors_join (sqlSchedulerStoreError "initialize task" err)
                                   (sqlSchedulerStoreError "check initialization result" conflictErr)))
                  end)
            end)
      end)).

Definition SQL_State (ctx : context) (name : string) (store : option SQLSchedulerStore) : task_call StoredScheduledTask :=
  with_task_ready store ctx (
    if negb (validSQLScheduledTaskName name) then Done (Err ErrSchedulerStoreConflict)
    else storedTask name (fun a =>
      match a with
      | inl err =>
          if errors_is err sql_ErrNoRows then Done (Err ErrScheduledTaskStateNotFound)
          else Done (Err (sqlSchedulerStoreError "read task state" err))
      | inr record => Done (Ok (sql_state record))
      end)).

(** One turn of the loop: [ctx.Err()], [crypto/rand], the error of
    [RowsAffected]. *)
Record task_turn := TaskTurn {
  tturn_ctx : option goerror;
  tturn_random : result (nat -> Z);
  tturn_counted : option goerror
}.

Fixpoint reserve_task_loop (turns : list task_turn) (name : string) (now reservedUntil : Z)
    : task_call ScheduledTaskReservation :=
  match turns with
  | [] => Unfinished
  | turn :: turns =>
      match tturn_ctx turn with
      | Some err => Done (Err err)
      | None =>
          storedTask name (fun a =>
            match a with
            | inl err =>
                if errors_is err sql_ErrNoRows then Done (Err ErrScheduledTaskStateNotFound)
                else Done (Err (sqlSchedulerStoreError "read reservation state" err))
            | inr record =>
                if negb (String.eqb (sql_reservationToken record) "") && After (ReservedUntil (sql_state record)) now
                then Done (Err ErrScheduledTaskReserved)
                else if After (NextRunAt (sql_state record)) now then Done (Err ErrScheduledTaskNotDue)
                else
                  match newSchedulerReservationToken (tturn_random turn) with
                  | Err err => Done (Err err)
                  | Panicked m => Done (Panicked m)
                  | Ok token =>
                      Statement (update_reserve_task token (sqlSchedulerStoreTime reservedUntil) name
                                   (sqlSchedulerStoreTime (NextRunAt (sql_state record))) (sqlSchedulerStoreTime now)) (fun a =>
                        match a with
                        | inl err => Done (Err (sqlSchedulerStoreError "reserve task" err))
                        | inr affected =>
                            match tturn_counted turn with
                            | Some err => Done (Err (sqlSchedulerStoreError "inspect reservation" err))
                            | None =>
                                if affected =? 0 then reserve_task_loop turns name now reservedUntil
                                else if negb (affected =? 1)
                                     then Done (Err (sqlSchedulerStoreError "reserve task"
                                                       (ErrNew ("updated " +:+ Itoa affected +:+ " records"))))
                                     else Done (Ok (MkScheduledTaskReservation
                                                      (with_lease (sql_state record) reservedUntil) token reservedUntil))
                            end
                        end)
                  end
            end)
      end
  end.

Definition SQL_Reserve_task (turns : list task_turn) (ctx : context) (name : string) (now lease : Z)
    (store : option SQLSchedulerStore) : task_call ScheduledTaskReservation :=
  with_task_ready store ctx (
    if negb (validSQLScheduledTaskName name) || IsZero now || (lease <=? 0)
    then Done (Err ErrScheduledTaskReservationInvalid)
    else reserve_task_loop turns name now (now + lease)).

Definition completion_result (counted : option goerror) (a : goerror + Z) : result unit :=
  match a with
  | inl err => Err (sqlSchedulerStoreError "complete task" err)
  | inr affected =>
      match counted with
      | Some err => Err (sqlSchedulerStoreError "inspect completion" err)
      | None =>
          if affected =? 0 then Err ErrScheduledTaskReservationInvalid
          else if negb (affected =? 1)
               then Err (sqlSchedulerStoreError "complete task" (ErrNew ("updated " +:+ Itoa affected +:+ " records")))
               else Ok tt
      end
  end.

Definition SQL_Complete_task (counted : option goerror) (ctx : context) (reservation : ScheduledTaskReservation)
    (nextRunAt completedAt : Z) (lastError : string) (store : option SQLSchedulerStore) : task_call unit :=
  let task := sres_Task reservation in
  with_task_ready store ctx (
    if negb (validSQLScheduledTaskName (Name task)) || String.eqb (sres_Token reservation) "" ||
       IsZero (NextRunAt task) || IsZero nextRunAt || IsZero completedAt || negb (After nextRunAt completedAt)
    then Done (Err ErrScheduledTaskReservationInvalid)
    else Statement (update_complete_task (sqlSchedulerStoreTime nextRunAt) (sqlSchedulerStoreTime (NextRunAt task))
                      (sqlSchedulerStoreTime completedAt) (normalizeFileSchedulerStoreError lastError)
                      (Name task) (sres_Token reservation) (sqlSchedulerStoreTime (NextRunAt task)))
           (fun a => Done (completion_result counted a))).
End SqlTasks.
