(* ===== verification/SqlSchedulerStoreSpec.v ===== *)
(** * The SQL scheduler store behind its contract, alone and among others

    The rows seen as task states, what every call does to them, the instance of
    [SchedulerStoreLaws], and the store in any interleaving of the statements of
    its clients. *)
From S2P Require Import Prelude GoTime GoStrings Json EventLog SchedulerStore FileSchedulerStore FileSchedulerStoreFacts Statements SqlSchedulerStore.
Open Scope Z_scope.
Open Scope go_scope.

(** ** The view of a table *)

Definition task_entry (name : string) (r : task_row) : StoredScheduledTask * string :=
  (sql_state (scanned_task name r), sql_reservationToken (scanned_task name r)).
Definition tasks_view (t : task_table) : task_view := map_imap (fun name r => Some (task_entry name r)) t.

(** The columns that are filled together, no empty token, and [BIGINT]s. *)
Definition task_row_ok (r : task_row) : Prop :=
  is_null (row_last_scheduled_at r) = is_null (row_last_completed_at r) /\
  is_null (row_reservation_token r) = is_null (row_reserved_until r) /\
  row_reservation_token r <> Some "" /\ in_int64 (row_next_run_at r).
Definition tasks_ok : task_table -> Prop := rows_ok task_row_ok.

Lemma tasks_view_lookup t k : tasks_view t !! k = task_entry k <$> t !! k.
Proof. unfold tasks_view. rewrite map_lookup_imap. by destruct (t !! k). Qed.
Lemma tasks_view_insert t k r : tasks_view (<[k := r]> t) = <[k := task_entry k r]> (tasks_view t).
Proof.
  apply map_eq. intros i. rewrite tasks_view_lookup.
  destruct (decide (k = i)) as [<-|Hne]; [by rewrite !lookup_insert_eq|].
  by rewrite !lookup_insert_ne, tasks_view_lookup by done.
Qed.
Lemma tasks_ok_insert t k r : tasks_ok t -> task_row_ok r -> tasks_ok (<[k := r]> t).
Proof. intros. by apply map_Forall_insert_2. Qed.
#[export] Hint Resolve tasks_ok_insert effect_none : go.

(** ** What a call does *)

Abbreviation tr_initialize := (initialize_to to_microseconds).
Abbreviation tr_reserve_task := (reserve_to to_microseconds).
Abbreviation tr_complete_task := (complete_to to_microseconds normalizeFileSchedulerStoreError).
Abbreviation on_tasks tr := (fun a t t' => tr a (tasks_view t) (tasks_view t')).
Abbreviation effect certain tr := (Statements.effect tasks_ok certain (on_tasks tr)).

Section Effects.
Variable duplicate : goerror.

Lemma with_task_ready_cases {A} store ctx (k : db_call task_table A) :
  (exists s, store = Some s /\ ctx = Ctx None /\ with_task_ready store ctx k = k) \/
  (exists err, with_task_ready store ctx k = Done (Err err)).
Proof.
  unfold with_task_ready, task_ready. destruct store as [s|]; [|right; by eexists].
  destruct ctx as [|[err|]]; [right; by eexists..|left; by exists s].
Qed.

Ltac ready_case :=
  match goal with |- context [with_task_ready ?st ?c ?k] =>
    let E := fresh "E" in
    destruct (with_task_ready_cases st c k) as [(s & _ & _ & E)|(err & E)]; rewrite E; clear E end;
    [|by intros [= <- <-]; apply effect_none].

Lemma new_task_row_ok next : task_row_ok (TaskRow (sqlSchedulerStoreTime next) None None None None None).
Proof. repeat split; try done; apply wrap64_range. Qed.

Lemma tr_initialize_insert t name next : t !! name = None ->
  tr_initialize name next tt (tasks_view t)
    (tasks_view (<[name := TaskRow (sqlSchedulerStoreTime next) None None None None None]> t)).
Proof. intros Hk. right. rewrite tasks_view_lookup, Hk. split; [done|]. by rewrite tasks_view_insert. Qed.

Lemma tr_initialize_there t name next row : t !! name = Some row -> tr_initialize name next tt (tasks_view t) (tasks_view t).
Proof. intros Hk. left. exists (task_entry name row). by rewrite tasks_view_lookup, Hk. Qed.

(** What [SELECT 1] tells. *)
Lemma exists_answer o name t t1 (a : goerror + Z) : execute o (select_key name (fun _ : task_row => inr 1)) t = (t1, a) ->
  t1 = t /\ forall n, a = inr n -> is_Some (t !! name).
Proof.
  destruct o as [|e|e]; cbn; intros [= <- <-]; (split; [done|]); [|done..]. intros n. by destruct (t !! name).
Qed.

Lemma SQL_Initialize_effect ctx name next store os t t' r :
  tasks_ok t -> perform os (SQL_Initialize duplicate ctx name next store) t = (t', r) ->
  effect (all_settled os) (tr_initialize name next) t t' r.
Proof.
  intros Hok. unfold SQL_Initialize. ready_case. destruct (_ || _); [by intros [= <- <-]; apply effect_none|].
  unfold stateExists. cbn [perform]. destruct (execute (os O) _ t) as [t1 a] eqn:E0.
  apply exists_answer in E0 as [-> Ha]. destruct a as [err|n].
  2: { destruct (Ha n eq_refl) as [row Hk]. intros [= <- <-]. split; [done|]. by eapply tr_initialize_there. }
  destruct (errors_is err _); [|by intros [= <- <-]; apply effect_none].
  cbn [perform]. destruct (execute (os 1%nat) _ t) as [t1 a] eqn:E1.
  assert (t1 = t /\ (exists err, a = inl err) \/
          t1 = <[name := TaskRow (sqlSchedulerStoreTime next) None None None None None]> t /\ t !! name = None /\
          (a = inr 1 \/ ~ all_settled os)) as H1.
  { destruct (insert_row_cases duplicate name (TaskRow (sqlSchedulerStoreTime next) None None None None None) t) as [Hi|[Hk Hi]];
      unfold insert_task in E1; destruct (os 1%nat) as [|e|e] eqn:Ho; cbn [execute] in E1; rewrite ?Hi in E1; cbn in E1;
      injection E1 as <- <-; eauto. right. split; [done|]. split; [done|]. right. intros Hs.
    specialize (Hs 1%nat). by rewrite Ho in Hs. }
  clear E1. destruct a as [err1|n].
  - cbn [perform]. destruct (execute (os 2%nat) _ t1) as [t2 a2] eqn:E2. apply exists_answer in E2 as [-> Ha2].
    destruct H1 as [[-> _]|(-> & Hk & Hs)].
    + destruct a2 as [err2|n]; [destruct (errors_is err2 _); intros [= <- <-]; by apply effect_none|].
      destruct (Ha2 n eq_refl) as [row Hk]. intros [= <- <-]. split; [done|]. by eapply tr_initialize_there.
    + pose proof (tr_initialize_insert t name next Hk) as Htr.
      assert (tasks_ok (<[name := TaskRow (sqlSchedulerStoreTime next) None None None None None]> t)) as Hok1
        by (apply tasks_ok_insert; [done|apply new_task_row_ok]).
      destruct Hs as [?|Hs]; [done|].
      destruct a2 as [err2|n]; [destruct (errors_is err2 _)|]; intros [= <- <-]; (split; [done|]); [right|right|done];
        (split; [done|by exists tt]).
  - intros [= <- <-]. destruct H1 as [[_ (e & ?)]|(-> & Hk & _)]; [done|].
    split; [apply tasks_ok_insert; [done|apply new_task_row_ok]|]. by apply tr_initialize_insert.
Qed.

(** What scanning the row of a task gives. *)
Lemma stored_answer o name t t1 record :
  execute o (select_key name (scanSQLStoredScheduledTask name)) t = (t1, inr record) ->
  exists row, t !! name = Some row /\ record = scanned_task name row.
Proof.
  destruct o as [|e|e]; cbn; intros [= _ H]. destruct (t !! name) as [row|]; [|done].
  exists row. split; [done|]. unfold scanSQLStoredScheduledTask in H. destruct (_ || _); [done|]. by injection H.
Qed.
Lemma stored_keeps {B} o name (scan : task_row -> goerror + B) t : (execute o (select_key name scan) t).1 = t.
Proof. by destruct o. Qed.

Lemma SQL_State_answer ctx name store os t t' st :
  perform os (SQL_State ctx name store) t = (t', Some (Ok st)) ->
  t' = t /\ exists token, tasks_view t !! name = Some (st, token).
Proof.
  unfold SQL_State. match goal with |- context [with_task_ready ?st ?c ?k] =>
    destruct (with_task_ready_cases st c k) as [(s & _ & _ & E)|(err & E)]; rewrite E; clear E end; [|done].
  destruct (negb _); [done|]. unfold storedTask. cbn [perform]. destruct (execute (os O) _ t) as [t1 a] eqn:E0.
  pose proof (stored_keeps (os O) name (scanSQLStoredScheduledTask name) t) as Ht. rewrite E0 in Ht. cbn in Ht. subst t1.
  destruct a as [err|record]; [destruct (errors_is err _); by intros [= _ ?]|].
  apply stored_answer in E0 as (row & Hk & ->). cbn [perform]. intros [= <- <-]. split; [done|].
  rewrite tasks_view_lookup, Hk. by eexists.
Qed.

(** The conditional update of a task under no live lease. *)
Lemma task_row_ready_reservable name next now r : task_row_ok r -> task_row_ready next now r = true ->
  task_reservable (FromUnixMicro now) (task_entry name r).
Proof.
  intros (_ & Hl & _) Hr. unfold task_row_ready in Hr. bool_prop. split; cbn; [by apply FromUnixMicro_le|].
  match goal with H : _ \/ _ |- _ => destruct H as [H|H] end.
  - left. by destruct (row_reservation_token r).
  - right. destruct (row_reserved_until r) as [u|]; [|done]. cbn in *. bool_prop. by apply FromUnixMicro_le.
Qed.

Definition leased_task_row (token : string) (until : Z) (r : task_row) : task_row :=
  TaskRow (row_next_run_at r) (row_last_scheduled_at r) (row_last_completed_at r) (row_last_error r) (Some token) (Some until).

Lemma leased_task_row_ok token until r : token <> "" -> task_row_ok r -> task_row_ok (leased_task_row token until r).
Proof. intros Ht (Hs & _ & _ & Hn). repeat split; try done; [by intros [=]|apply Hn..]. Qed.

Lemma update_reserve_task_cases token until name next now t : tasks_ok t ->
  (exists a, update_reserve_task token until name next now t = (t, a) /\ a <> inr 1) \/
  exists row, t !! name = Some row /\ task_reservable (FromUnixMicro now) (task_entry name row) /\
    update_reserve_task token until name next now t = (<[name := leased_task_row token until row]> t, inr 1) /\
    row_next_run_at row = next.
Proof.
  intros Hok. unfold update_reserve_task. match goal with |- context [update_row ?k ?p ?set t] =>
    destruct (update_row_cases k p set t) as [H|(row & row' & Hk & Hp & [= <-] & E)] end; [by left|right].
  exists row. split; [done|]. split; [by eapply task_row_ready_reservable; [apply (Hok _ _ Hk)|]|].
  split; [done|]. unfold task_row_ready in Hp. by bool_prop.
Qed.

Lemma token_not_empty random token : newSchedulerReservationToken random = Ok token -> token <> "".
Proof. intros H ->. by apply newSchedulerReservationToken_ok in H as [_ Hl]. Qed.

Definition task_turns_counted (turns : list task_turn) : Prop := Forall (fun turn => tturn_counted turn = None) turns.

Lemma reserve_task_loop_effect turns name now lease : forall os t t' r,
  tasks_ok t -> perform os (reserve_task_loop turns name now (now + lease)) t = (t', r) ->
  effect (all_settled os /\ task_turns_counted turns) (tr_reserve_task name now lease) t t' r.
Proof.
  induction turns as [|turn turns IH]; intros os t t' r Hok; [by intros [= <- <-]; apply effect_none|].
  cbn [reserve_task_loop]. destruct (tturn_ctx turn); [by intros [= <- <-]; apply effect_none|].
  unfold storedTask. cbn [perform]. destruct (execute (os O) _ t) as [t1 a] eqn:E0.
  pose proof (stored_keeps (os O) name (scanSQLStoredScheduledTask name) t) as Ht. rewrite E0 in Ht. cbn in Ht. subst t1.
  destruct a as [err|record]; [destruct (errors_is err _); intros [= <- <-]; by apply effect_none|].
  apply stored_answer in E0 as (row & Hk & ->).
  destruct (_ && _); [by intros [= <- <-]; apply effect_none|].
  destruct (After _ _); [by intros [= <- <-]; apply effect_none|].
  destruct (newSchedulerReservationToken _) as [token|err|m] eqn:Er; [|by intros [= <- <-]; apply effect_none..].
  apply token_not_empty in Er. cbn [perform].
  destruct (execute (os 1%nat) _ t) as [t1 a] eqn:E1.
  match type of E1 with execute _ (update_reserve_task ?tok ?u ?n ?nx ?nw) _ = _ =>
    destruct (update_reserve_task_cases tok u n nx nw t Hok) as [(a1 & E & Ha1)|(row1 & Hk1 & Hres & E & _)] end.
  - assert (t1 = t /\ (a = a1 \/ exists e, a = inl e)) as [-> Hcase].
    { destruct (os 1%nat); cbn [execute] in E1; rewrite ?E in E1; cbn in E1; injection E1 as <- <-; eauto. }
    destruct a as [err|n]; [by intros [= <- <-]; apply effect_none|].
    destruct Hcase as [<-|[e ?]]; [|done].
    destruct (tturn_counted turn) eqn:Hc; [by intros [= <- <-]; apply effect_none|].
    destruct (Z.eqb_spec n 0); [|].
    + intros H. apply IH in H as [Hok' H]; [|done]. split; [done|].
      destruct r as [[res| |]|]; [done|..]; (destruct H as [?|[Hn ?]]; [by left|right; split; [|done]]);
        intros [Hs Hall]; apply Hn; (split; [intros k; apply Hs|by apply Forall_cons in Hall as [_ ?]]).
    + destruct (Z.eqb_spec n 1) as [->|]; [done|]. intros [= <- <-]. by apply effect_none.
  - rewrite Hk in Hk1. injection Hk1 as <-.
    assert (tasks_ok (<[name := leased_task_row token (sqlSchedulerStoreTime (now + lease)) row]> t)) as Hok1.
    { apply tasks_ok_insert; [done|]. apply leased_task_row_ok; [done|apply (Hok _ _ Hk)]. }
    assert (tr_reserve_task name now lease
      (MkScheduledTaskReservation (with_lease (sql_state (scanned_task name row)) (now + lease)) token (now + lease))
      (tasks_view t) (tasks_view (<[name := leased_task_row token (sqlSchedulerStoreTime (now + lease)) row]> t))) as Htr.
    { exists (task_entry name row). rewrite tasks_view_lookup, Hk. split; [done|]. split; [done|].
      repeat (split; [done|]). by rewrite tasks_view_insert. }
    destruct (os 1%nat) as [|e|e] eqn:Ho; cbn [execute] in E1; rewrite ?E in E1; cbn in E1; injection E1 as <- <-.
    + destruct (tturn_counted turn) eqn:Hc; intros [= <- <-]; (split; [done|]); [|done].
      right. split; [|by eexists]. intros [_ Hall]. apply Forall_cons in Hall as [Hc' _]. congruence.
    + intros [= <- <-]. by apply effect_none.
    + intros [= <- <-]. split; [done|]. right. split; [|by eexists]. intros [Hs _]. specialize (Hs 1%nat).
      by rewrite Ho in Hs.
Qed.

Lemma SQL_Reserve_task_effect turns ctx name now lease store os t t' r :
  tasks_ok t -> perform os (SQL_Reserve_task turns ctx name now lease store) t = (t', r) ->
  effect (all_settled os /\ task_turns_counted turns) (tr_reserve_task name now lease) t t' r.
Proof.
  intros Hok. unfold SQL_Reserve_task. ready_case. destruct (_ || _); [by intros [= <- <-]; apply effect_none|].
  by apply reserve_task_loop_effect.
Qed.

Lemma completion_result_ok counted a : completion_result counted a = Ok tt <-> a = inr 1 /\ counted = None.
Proof.
  unfold completion_result. destruct a as [err|n]; [split; [done|by intros [? _]]|].
  destruct counted; [split; [done|by intros [_ ?]]|].
  destruct (Z.eqb_spec n 0) as [->|]; [split; [done|by intros [? _]]|].
  destruct (Z.eqb_spec n 1) as [->|]; cbn; [done|]. split; [done|]. by intros [[= ?] _].
Qed.

Lemma completed_task_row_ok next scheduled completed error : in_int64 next ->
  task_row_ok (TaskRow next (Some scheduled) (Some completed) (Some error) None None).
Proof. intros H. repeat split; try done; apply H. Qed.

Lemma SQL_Complete_task_effect counted ctx res next completed error store os t t' r :
  tasks_ok t -> perform os (SQL_Complete_task counted ctx res next completed error store) t = (t', r) ->
  effect (all_settled os /\ counted = None) (tr_complete_task res next completed error) t t' r.
Proof.
  intros Hok. unfold SQL_Complete_task. ready_case.
  destruct (_ || negb (After next completed)) eqn:Hg; [by intros [= <- <-]; apply effect_none|].
  assert (completed < next) as Hlt by (bool_prop; unfold After in *; by bool_prop). clear Hg.
  apply (one_statement_effect tasks_ok _ _ counted os (on_tasks (tr_complete_task res next completed error))); [done|apply completion_result_ok|].
  unfold update_complete_task. match goal with |- context [update_row ?k ?p ?set t] =>
    destruct (update_row_cases k p set t) as [H|(row & row' & Hk & Hp & [= <-] & E)] end; [by left|right].
  eexists. split; [exact E|]. split; [apply tasks_ok_insert; [done|apply completed_task_row_ok, wrap64_range]|].
  apply andb_true_iff in Hp as [Htok Hocc]. apply Z.eqb_eq in Hocc.
  split; [done|]. exists (sql_state (scanned_task (Name (sres_Task res)) row)).
  assert (null_string (row_reservation_token row) = sres_Token res) as Htoken.
  { unfold sql_eq in Htok. destruct (row_reservation_token row); [|done]. cbn. by apply String.eqb_eq in Htok. }
  rewrite tasks_view_lookup, Hk. unfold task_entry. cbn. rewrite Htoken. split; [done|].
  rewrite Hocc. split; [done|]. by rewrite tasks_view_insert.
Qed.
End Effects.

(** ** The contract *)

Record sql_task_env := SqlTaskEnv {
  sql_task_outcomes : nat -> settled_outcome;
  sql_task_random : result (nat -> Z)
}.
Definition task_turn_of (e : sql_task_env) : task_turn := TaskTurn None (sql_task_random e) None.
Abbreviation sql_task_state := (option SQLSchedulerStore * task_table)%type.

Section Contract.
Variable duplicate : goerror.

Lemma effect_on_tasks {A} (P : Prop) (tr : A -> task_view -> task_view -> Prop) os (p : db_call task_table A)
    (s s' : sql_task_state) r :
  P -> (forall t r, perform (fun n => as_outcome (os n)) p s.2 = (t, r) -> effect P tr s.2 t r) ->
  run_call os p s = (s', r) ->
  tasks_ok s'.2 /\
  match r with
  | Ok a => tr a (tasks_view s.2) (tasks_view s'.2)
  | _ => tasks_view s'.2 = tasks_view s.2
  end.
Proof.
  intros HP He H. destruct (effect_contract tasks_ok P (on_tasks tr) os p s s' r HP He H) as [Hok Hr].
  split; [done|]. destruct r; [done|by rewrite Hr..].
Qed.

#[export] Instance SqlSchedulerStore_ops : SchedulerStore sql_task_state sql_task_env := {
  sstore_Initialize e ctx name next s := run_call (sql_task_outcomes e) (SQL_Initialize duplicate ctx name next s.1) s;
  sstore_State e ctx name s := (run_call (sql_task_outcomes e) (SQL_State ctx name s.1) s).2;
  sstore_Reserve e ctx name now lease s :=
    run_call (sql_task_outcomes e) (SQL_Reserve_task [task_turn_of e] ctx name now lease s.1) s;
  sstore_Complete e ctx res next completed error s :=
    run_call (sql_task_outcomes e) (SQL_Complete_task None ctx res next completed error s.1) s
}.

Lemma sql_initialize_contract e ctx name next (s s' : sql_task_state) r :
  tasks_ok s.2 -> run_call (sql_task_outcomes e) (SQL_Initialize duplicate ctx name next s.1) s = (s', r) ->
  tasks_ok s'.2 /\
  match r with
  | Ok u => tr_initialize name next u (tasks_view s.2) (tasks_view s'.2)
  | _ => tasks_view s'.2 = tasks_view s.2
  end.
Proof.
  intros Hok. apply (effect_on_tasks _ _ _ _ _ _ _ (outcomes_settled (sql_task_outcomes e))).
  intros t q. by apply SQL_Initialize_effect.
Qed.

Lemma sql_state_contract e ctx name (s : sql_task_state) st :
  tasks_ok s.2 -> (run_call (sql_task_outcomes e) (SQL_State ctx name s.1) s).2 = Ok st ->
  exists token, tasks_view s.2 !! name = Some (st, token).
Proof.
  intros _. unfold run_call. destruct (perform _ _ _) as [t q] eqn:E. cbn.
  destruct q as [r|]; [intros ->|done]. by apply SQL_State_answer in E as [_ ?].
Qed.

Lemma sql_reserve_task_contract e ctx name now lease (s s' : sql_task_state) r :
  tasks_ok s.2 ->
  run_call (sql_task_outcomes e) (SQL_Reserve_task [task_turn_of e] ctx name now lease s.1) s = (s', r) ->
  tasks_ok s'.2 /\
  match r with
  | Ok res => tr_reserve_task name now lease res (tasks_view s.2) (tasks_view s'.2)
  | _ => tasks_view s'.2 = tasks_view s.2
  end.
Proof.
  intros Hok. eapply (effect_on_tasks (all_settled (fun n => as_outcome (sql_task_outcomes e n)) /\
    task_turns_counted [task_turn_of e])); [split; [apply outcomes_settled|by repeat constructor]|].
  intros t q. by apply SQL_Reserve_task_effect.
Qed.

Lemma sql_complete_task_contract e ctx res next completed error (s s' : sql_task_state) r :
  tasks_ok s.2 ->
  run_call (sql_task_outcomes e) (SQL_Complete_task None ctx res next completed error s.1) s = (s', r) ->
  tasks_ok s'.2 /\
  match r with
  | Ok u => tr_complete_task res next completed error u (tasks_view s.2) (tasks_view s'.2)
  | _ => tasks_view s'.2 = tasks_view s.2
  end.
Proof.
  intros Hok. apply (effect_on_tasks _ _ _ _ _ _ _ (finished_for_certain (sql_task_outcomes e))).
  intros t q. by apply SQL_Complete_task_effect.
Qed.

#[export] Instance SqlSchedulerStore_laws : SchedulerStoreLaws sql_task_state sql_task_env := {
  sstore_ok s := tasks_ok s.2; sstore_view s := tasks_view s.2;
  sstore_error := normalizeFileSchedulerStoreError; sstore_instant := to_microseconds;
  Initialize_ok := sql_initialize_contract; State_ok := sql_state_contract;
  Reserve_task_ok := sql_reserve_task_contract; Complete_task_ok := sql_complete_task_contract
}.
End Contract.

(** An undisturbed [Reserve] needs one turn of its loop, whatever instant a
    clock can show. *)
Lemma SQL_Reserve_task_returns turn turns ctx name now lease store os t :
  tasks_ok t -> in_int64 ((now - unix_epoch) / 1000) ->
  is_Some (perform os (SQL_Reserve_task (turn :: turns) ctx name now lease store) t).2.
Proof.
  intros Hok Hin. unfold SQL_Reserve_task. match goal with |- context [with_task_ready ?st ?c ?k] =>
    destruct (with_task_ready_cases st c k) as [(s & _ & _ & E)|(err & E)]; rewrite E; clear E end; [|by eexists].
  destruct (_ || _); [by eexists|]. cbn [reserve_task_loop]. destruct (tturn_ctx turn); [by eexists|].
  unfold storedTask. cbn [perform]. destruct (execute (os O) _ t) as [t1 a] eqn:E0.
  pose proof (stored_keeps (os O) name (scanSQLStoredScheduledTask name) t) as Ht. rewrite E0 in Ht. cbn in Ht. subst t1.
  destruct a as [err|record]; [destruct (errors_is err _); by eexists|].
  apply stored_answer in E0 as (row & Hk & ->). destruct (Hok _ _ Hk) as (_ & Hlease & Hne & Hrow).
  destruct (_ && _) eqn:Hheld; [by eexists|]. destruct (After (NextRunAt _) now) eqn:Hdue; [by eexists|].
  destruct (newSchedulerReservationToken _) as [token|err|m]; [|by eexists..].
  cbn [perform]. destruct (execute (os 1%nat) _ t) as [t1 a] eqn:E1.
  assert ((exists e, a = inl e) \/ a = inr 1) as [[e ->]| -> ]; [|by eexists|destruct (tturn_counted turn); by eexists].
  destruct (os 1%nat) as [|e|e]; cbn [execute] in E1; [|injection E1 as <- <-; by left; eexists..].
  assert (forall x, x * 1000 + unix_epoch <= now -> x <= UnixMicro now) as Hmicro.
  { intros x Hx. unfold UnixMicro. rewrite wrap64_id by done. apply Z.div_le_lower_bound; lia. }
  unfold update_reserve_task, update_row in E1. rewrite Hk in E1.
  match type of E1 with context [task_row_ready ?nx ?nw row] => assert (task_row_ready nx nw row = true) as Hr end.
  { unfold task_row_ready, sqlSchedulerStoreTime. cbn. rewrite UnixMicro_FromUnixMicro by done. rewrite Z.eqb_refl. cbn [andb].
    unfold After in *. cbn in Hheld, Hdue. bool_prop. unfold FromUnixMicro in Hdue. apply andb_true_iff. split.
    - apply Z.leb_le, Hmicro. lia.
    - destruct (row_reservation_token row) as [tok|]; [|done]. cbn.
      destruct (row_reserved_until row) as [u|]; [|done]. cbn in *. destruct Hheld as [Hh|Hh].
      + apply negb_false_iff, String.eqb_eq in Hh. by subst.
      + apply Z.ltb_ge in Hh. unfold FromUnixMicro in Hh. apply Z.leb_le, Hmicro. lia. }
  rewrite Hr in E1. injection E1 as _ <-. by right.
Qed.

(** ** Any number of schedulers on one table *)
Inductive task_answer :=
| TaskAnsDone
| TaskAnsState (st : StoredScheduledTask)
| TaskAnsReservation (res : ScheduledTaskReservation).

Section Shared.
Variable duplicate : goerror.

Inductive task_client (Pnow : Z -> Prop) (Pfinish : ScheduledTaskReservation -> Prop) : db_call task_table task_answer -> Prop :=
| task_client_Initialize ctx name next store :
    task_client Pnow Pfinish (map_call (fun _ => TaskAnsDone) (SQL_Initialize duplicate ctx name next store))
| task_client_State ctx name store : task_client Pnow Pfinish (map_call TaskAnsState (SQL_State ctx name store))
| task_client_Reserve turns ctx name now lease store : Pnow now ->
    task_client Pnow Pfinish (map_call TaskAnsReservation (SQL_Reserve_task turns ctx name now lease store))
| task_client_Complete counted ctx res next completed error store : Pfinish res ->
    task_client Pnow Pfinish
      (map_call (fun _ => TaskAnsDone) (SQL_Complete_task counted ctx res next completed error store)).

(** The row of a task under the lease of [res], for its occurrence. *)
Definition task_row_leased (res : ScheduledTaskReservation) (r : task_row) : Prop :=
  row_next_run_at r = UnixMicro (NextRunAt (sres_Task res)) /\
  row_reservation_token r = Some (sres_Token res) /\ row_reserved_until r = Some (UnixMicro (sres_ReservedUntil res)).
Definition task_table_leased (res : ScheduledTaskReservation) (t : task_table) : Prop :=
  exists r, t !! Name (sres_Task res) = Some r /\ task_row_leased res r.
Definition task_good (res : ScheduledTaskReservation) : task_table -> Prop :=
  row_held task_row_ok (Name (sres_Task res)) (task_row_leased res).

Lemma with_task_ready_preserve {A} good store ctx (k : db_call task_table A) :
  all_preserve good k -> all_preserve good (with_task_ready store ctx k).
Proof.
  intros Hk. destruct (with_task_ready_cases store ctx k) as [(s & _ & _ & ->)|(err & ->)]; [apply Hk|done].
Qed.

Lemma initialize_preserve good ctx name next store :
  (forall at_, in_int64 at_ -> preserves good (insert_task duplicate name at_)) ->
  all_preserve good (SQL_Initialize duplicate ctx name next store).
Proof.
  intros Hs. apply with_task_ready_preserve. destruct (_ || _); [done|]. split; [by apply preserves_query|].
  intros [err|n]; [destruct (errors_is _ _)|]; [|done..].
  split; [apply Hs, wrap64_range|]. intros [err'|n]; [|done]. split; [by apply preserves_query|].
  intros [err''|n]; [by destruct (errors_is _ _)|done].
Qed.

(** [Reserve] reads the task of its name, then updates it. *)
Lemma reserve_task_obeys good (Q : task_table -> result task_answer -> Prop) turns ctx name now lease store :
  (forall d r, (match r with Ok _ => False | _ => True end) -> Q d r) ->
  (forall d token record, good d -> Name (sql_state record) = name -> token <> "" ->
     let '(d', a) := update_reserve_task token (UnixMicro (now + lease)) name (UnixMicro (NextRunAt (sql_state record)))
                       (UnixMicro now) d in
     good d' /\ (a = inr 1 -> Q d' (Ok (TaskAnsReservation
       (MkScheduledTaskReservation (with_lease (sql_state record) (now + lease)) token (now + lease)))))) ->
  obeys_call good Q (map_call TaskAnsReservation (SQL_Reserve_task turns ctx name now lease store)).
Proof.
  intros HQ Hs. unfold SQL_Reserve_task. match goal with |- context [with_task_ready ?st ?c ?k] =>
    destruct (with_task_ready_cases st c k) as [(s & _ & _ & E)|(err & E)]; rewrite E; clear E end;
    [|by split; [|intros d; apply HQ]].
  destruct (_ || _); [by split; [|intros d; apply HQ]|].
  assert (forall turns d, returns (Q d) (map_call TaskAnsReservation (reserve_task_loop turns name now (now + lease)))) as Hret.
  { intros ts d. destruct ts as [|turn ts]; [done|]. cbn [reserve_task_loop]. destruct (tturn_ctx turn); [by apply HQ|done]. }
  split; [|by intros d; apply Hret].
  induction turns as [|turn turns IH]; [done|]. cbn [reserve_task_loop]. destruct (tturn_ctx turn); [done|].
  split.
  - intros d o Hd. rewrite stored_keeps. split; [done|]. destruct (execute _ _ _).2 as [err|record]; cbn.
    + destruct (errors_is _ _); by apply HQ.
    + destruct (_ && _); [by apply HQ|]. destruct (After _ _); [by apply HQ|].
      destruct (newSchedulerReservationToken _); [done|by apply HQ..].
  - intros d0 o0. destruct (execute o0 _ d0) as [d1 a1] eqn:E0. cbn [snd].
    destruct a1 as [err|record]; [by destruct (errors_is _ _)|].
    apply stored_answer in E0 as (row0 & _ & Erecord).
    assert (Name (sql_state record) = name) as Hname by (by rewrite Erecord). clear Erecord.
    destruct (_ && _); [done|]. destruct (After _ _); [done|].
    destruct (newSchedulerReservationToken _) as [token| |] eqn:Er; [|done..]. apply token_not_empty in Er. split.
    + intros d o Hd. specialize (Hs d token record Hd Hname Er). unfold sqlSchedulerStoreTime.
      match type of Hs with context [update_reserve_task ?tok ?u ?n ?nx ?nw d] =>
        destruct (update_reserve_task tok u n nx nw d) as [d' a] eqn:E end. destruct Hs as [Hg Hq].
      destruct o as [|e|e]; cbn [execute]; rewrite ?E; cbn [fst snd]; [|split; [done|by apply HQ]..].
      split; [done|]. destruct a as [err|n]; [by apply HQ|]. destruct (tturn_counted turn); [by apply HQ|].
      destruct (Z.eqb_spec n 0); [apply Hret|]. destruct (Z.eqb_spec n 1) as [->|]; [by apply Hq|by apply HQ].
    + intros d o. destruct (execute o _ d).2 as [err|n]; [done|]. destruct (tturn_counted turn); [done|].
      destruct (n =? 0); [apply IH|]. by destruct (negb _).
Qed.

(** Every call under an invariant that its statements keep. *)
Lemma task_calls_obey good (Q : task_table -> result task_answer -> Prop) Pnow (Pfinish : ScheduledTaskReservation -> Prop) p :
  (forall d r, (match r with Ok (TaskAnsReservation _) => False | _ => True end) -> Q d r) ->
  (forall name at_, in_int64 at_ -> preserves good (insert_task duplicate name at_)) ->
  (forall res next completed error, Pfinish res -> in_int64 next ->
     preserves good (update_complete_task next (UnixMicro (NextRunAt (sres_Task res))) completed error
       (Name (sres_Task res)) (sres_Token res) (UnixMicro (NextRunAt (sres_Task res))))) ->
  (forall turns ctx name now lease store, Pnow now ->
     obeys_call good Q (map_call TaskAnsReservation (SQL_Reserve_task turns ctx name now lease store))) ->
  task_client Pnow Pfinish p -> obeys_call good Q p.
Proof.
  intros HQ Hins Hcom Hres Hp.
  destruct Hp as [ctx name next store|ctx name store|turns ctx name now lease store Hnow
    |counted ctx res next completed error store Hf].
  - apply all_preserve_obeys; [intros d [b| |] Hb; apply HQ; [by destruct Hb as [u ->]|done..]|].
    apply initialize_preserve. auto.
  - apply all_preserve_obeys; [intros d [b| |] Hb; apply HQ; [by destruct Hb as [u ->]|done..]|].
    apply with_task_ready_preserve. destruct (negb _); [done|]. split; [by apply preserves_query|].
    intros [err|record]; [by destruct (errors_is _ _)|done].
  - by apply Hres.
  - apply all_preserve_obeys; [intros d [b| |] Hb; apply HQ; [by destruct Hb as [u ->]|done..]|].
    apply with_task_ready_preserve. destruct (_ || _); [done|]. split; [|done].
    apply Hcom; [done|apply wrap64_range].
Qed.

Lemma leased_row_set_ok token until (r r' : task_row) next now : token <> "" -> task_row_ok r ->
  task_row_ready next now r = true -> (inr (leased_task_row token until r) : goerror + task_row) = inr r' -> task_row_ok r'.
Proof. intros Ht Hr _ [= <-]. by apply leased_task_row_ok. Qed.

(** What [Reserve] returns is in the table at that moment. *)
Lemma task_client_takes Pnow Pfinish p : task_client Pnow Pfinish p ->
  obeys_call tasks_ok (fun d r => forall res, r = Ok (TaskAnsReservation res) -> task_table_leased res d) p.
Proof.
  apply task_calls_obey.
  - by intros d [[]| |].
  - intros name at_ Hat. apply insert_row_ok. repeat split; try done; apply Hat.
  - intros res next completed error _ Hn. apply update_row_ok. intros r r' _ _ [= <-]. by apply completed_task_row_ok.
  - intros turns ctx name now lease store _. apply reserve_task_obeys; [by intros d []|].
    intros d token record Hok Hname Htok.
    destruct (update_reserve_task_cases token (UnixMicro (now + lease)) name (UnixMicro (NextRunAt (sql_state record)))
      (UnixMicro now) d Hok) as [(a & -> & Ha)|(row & Hk & _ & -> & Hnext)]; [split; [done|by intros ->]|].
    split; [apply tasks_ok_insert; [done|]; apply leased_task_row_ok; [done|apply (Hok _ _ Hk)]|].
    intros _ res [= <-]. exists (leased_task_row token (UnixMicro (now + lease)) row). cbn [sres_Task with_lease Name].
    rewrite Hname, lookup_insert_eq. split; [done|]. by split.
Qed.

(** Calls that cannot end the lease of [res]. *)
Lemma task_client_peaceful Pnow (Pfinish : ScheduledTaskReservation -> Prop) res p :
  (forall now, Pnow now -> UnixMicro now < UnixMicro (sres_ReservedUntil res)) ->
  (forall res', Pfinish res' -> Name (sres_Task res') = Name (sres_Task res) -> sres_Token res' <> sres_Token res) ->
  task_client Pnow Pfinish p ->
  obeys_call (task_good res)
    (fun _ r => forall res', r = Ok (TaskAnsReservation res') -> Name (sres_Task res') <> Name (sres_Task res)) p.
Proof.
  intros Hnow Hfin. apply task_calls_obey.
  - by intros d [[]| |].
  - intros name at_ Hat. apply insert_row_held. repeat split; try done; apply Hat.
  - intros res' next completed error Hf Hn. apply update_row_held; [intros r r' _ _ [= <-]; by apply completed_task_row_ok|].
    intros r Hd (_ & Ht & _). rewrite Ht. cbn. apply andb_false_iff. left. apply String.eqb_neq. intros E.
    by apply (Hfin _ Hf Hd).
  - intros turns ctx name now lease store Hn. apply reserve_task_obeys; [by intros d []|].
    intros d token record Hgood Hname Htok.
    assert (forall r, name = Name (sres_Task res) -> task_row_leased res r ->
      task_row_ready (UnixMicro (NextRunAt (sql_state record))) (UnixMicro now) r = false) as Hnot.
    { intros r _ (_ & Ht & Hu). unfold task_row_ready. rewrite Ht, Hu. cbn. specialize (Hnow _ Hn).
      destruct (Z.leb_spec (UnixMicro (sres_ReservedUntil res)) (UnixMicro now)); [lia|]. by rewrite andb_false_r. }
    pose proof (update_row_held task_row_ok (Name (sres_Task res)) (task_row_leased res) name _
      (fun r => inr (leased_task_row token (UnixMicro (now + lease)) r))
      (fun r r' Hok Hp Hs => leased_row_set_ok _ _ _ _ _ _ Htok Hok Hp Hs) Hnot d Hgood) as Hg.
    destruct (update_reserve_task_cases token (UnixMicro (now + lease)) name (UnixMicro (NextRunAt (sql_state record)))
      (UnixMicro now) d (proj1 Hgood)) as [(a & E & Ha)|(row & Hk & Hres & E & Hnext)];
      change (task_good res (update_reserve_task token (UnixMicro (now + lease)) name
        (UnixMicro (NextRunAt (sql_state record))) (UnixMicro now) d).1) in Hg; rewrite E in Hg |- *; cbn [fst] in Hg.
    + split; [done|]. by intros ->.
    + split; [done|]. intros _ res' [= <-]. cbn [sres_Task with_lease Name]. rewrite Hname. intros Hd.
      destruct Hgood as [Hok (r0 & Hr0 & (_ & Ht & Hu))]. rewrite <- Hd, Hk in Hr0. injection Hr0 as ->.
      destruct Hres as [_ Hres]. cbn in Hres. rewrite Ht, Hu in Hres. cbn in Hres.
      specialize (Hnow _ Hn). destruct Hres as [Hres|Hres]; [|unfold FromUnixMicro in Hres; lia].
      destruct (Hok _ _ Hk) as (_ & _ & Hne & _). by rewrite Ht, Hres in Hne.
Qed.

(** One scheduler per occurrence, for any number of schedulers on one
    table.  However the statements of all clients interleave and whatever
    answers get lost: once [Reserve] has returned a task, its row carries that
    reservation for that occurrence, and no other [Reserve] returns the task, as
    long as no client's clock has reached the end of the lease (to the
    microsecond) and nobody completes the task with its token. *)
Theorem sql_task_lease_is_exclusive Pnow (Pfinish : ScheduledTaskReservation -> Prop) x x1 y res :
  (forall now, Pnow now -> UnixMicro now < UnixMicro (sres_ReservedUntil res)) ->
  (forall res', Pfinish res' -> Name (sres_Task res') = Name (sres_Task res) -> sres_Token res' <> sres_Token res) ->
  tasks_ok (sys_db x) -> calls_in_flight (task_client Pnow Pfinish) x ->
  system_step (task_client Pnow Pfinish) x x1 -> sys_returned x1 = Ok (TaskAnsReservation res) :: sys_returned x ->
  system_run (task_client Pnow Pfinish) x1 y ->
  task_table_leased res (sys_db y) /\
  exists new, sys_returned y = new ++ sys_returned x1 /\
    Forall (fun r => forall res', r = Ok (TaskAnsReservation res') -> Name (sres_Task res') <> Name (sres_Task res)) new.
Proof.
  intros Hnow Hfin Hok Hc Hstep Hret Hrun.
  destruct (system_step_obeys _ _ _ x x1 (task_client_takes Pnow Pfinish) Hc Hok Hstep) as [Hok1 [E|(r & E & Hr)]].
  { rewrite Hret in E. apply (f_equal length) in E. cbn in E. lia. }
  rewrite Hret in E. injection E as <-. specialize (Hr res eq_refl).
  destruct (system_run_obeys _ (task_good res) _ x1 y (fun p => task_client_peaceful Pnow Pfinish res p Hnow Hfin)
    (in_flight_step _ _ _ Hc Hstep) (conj Hok1 Hr) Hrun) as [[_ Hl] Hnew]. done.
Qed.
End Shared.

(** Two schedulers have read the due task; the first one gets it, the second
    one's update finds no row, and its next turn a reserved task. *)
Module TaskContest.
Definition duplicate := ErrNew "duplicate key".
Definition row : task_row := TaskRow 5000 None None None None None.
Definition store : SQLSchedulerStore := MkSQLSchedulerStore "bridra_scheduled_tasks" "dollar".
Definition turn (b : Z) : task_turn := TaskTurn None (Ok (fun _ => b)) None.
Definition scheduler (b now : Z) : db_call task_table task_answer :=
  map_call TaskAnsReservation
    (SQL_Reserve_task [turn b; turn (b + 1)] Background "report" (FromUnixMicro now) 1000000 (Some store)).
Definition started : system task_table task_answer :=
  System {["report" := row]} {[0%nat := scheduler 51 6000; 1%nat := scheduler 68 6001]} [].
Definition x := system_next 1%nat (system_next 0%nat started).
Definition x1 := system_next 0%nat x.
Definition y := system_next 1%nat (system_next 1%nat x1).
Definition res : ScheduledTaskReservation :=
  MkScheduledTaskReservation
    (MkStoredScheduledTask "report" (FromUnixMicro 5000) zero_time zero_time "" (FromUnixMicro 7000))
    (hex_encode (repeat 51 32)) (FromUnixMicro 7000).
Definition Pnow (now : Z) : Prop := UnixMicro now < 7000.
Definition Pfinish (r : ScheduledTaskReservation) : Prop := sres_Token r <> sres_Token res.
Abbreviation client := (task_client duplicate Pnow Pfinish).

Lemma scheduler_client b now : now < 7000 -> in_int64 now -> client (scheduler b now).
Proof. intros H Hr. apply task_client_Reserve. unfold Pnow. by rewrite UnixMicro_FromUnixMicro. Qed.
Lemma task_contest_started_flight : calls_in_flight client started.
Proof.
  unfold calls_in_flight. cbn [started sys_calls]. apply map_Forall_insert_2; [|rewrite map_Forall_singleton];
    (apply flight_start, scheduler_client; [done|]; unfold in_int64, int64_min, int64_max; lia).
Qed.
Lemma task_contest_x_flight : calls_in_flight client x.
Proof.
  apply (in_flight_step _ (system_next 0%nat started)); [|apply system_next_step; vm_compute; reflexivity].
  apply (in_flight_step _ started); [exact task_contest_started_flight|apply system_next_step; vm_compute; reflexivity].
Qed.
Lemma task_contest_x_ok : tasks_ok (sys_db x).
Proof.
  assert (sys_db x = {["report" := row]}) as -> by (vm_compute; reflexivity). apply map_Forall_singleton.
  repeat split; try done; cbn; unfold int64_min, int64_max; lia.
Qed.
Lemma task_contest_x1_step : system_step client x x1.
Proof. apply system_next_step. vm_compute. reflexivity. Qed.
Lemma task_contest_y_run : system_run client x1 y.
Proof.
  eapply system_more; [apply (system_next_step _ 1%nat); vm_compute; reflexivity|].
  eapply system_more; [apply (system_next_step _ 1%nat); vm_compute; reflexivity|]. apply system_refl.
Qed.
Lemma task_contest_peaceful_finish r : Pfinish r -> Name (sres_Task r) = Name (sres_Task res) -> sres_Token r <> sres_Token res.
Proof. by intros H _. Qed.
Lemma task_contest_early now : Pnow now -> UnixMicro now < UnixMicro (sres_ReservedUntil res).
Proof. unfold Pnow. intros H. exact H. Qed.
End TaskContest.

Lemma sql_task_lease_is_exclusive_witness :
  task_table_leased TaskContest.res (sys_db TaskContest.y) /\
  sys_returned TaskContest.y = Err ErrScheduledTaskReserved :: sys_returned TaskContest.x1.
Proof.
  split; [|vm_compute; reflexivity].
  refine (proj1 (sql_task_lease_is_exclusive TaskContest.duplicate TaskContest.Pnow TaskContest.Pfinish
    TaskContest.x TaskContest.x1 TaskContest.y TaskContest.res TaskContest.task_contest_early TaskContest.task_contest_peaceful_finish
    TaskContest.task_contest_x_ok TaskContest.task_contest_x_flight TaskContest.task_contest_x1_step _ TaskContest.task_contest_y_run)).
  vm_compute. reflexivity.
Defined.
