(* ===== verification/Redis.v ===== *)
(** * Redis as the framework's stores use it

    A store's keys are hashes of documents and, for jobs, sorted sets.  A Lua
    script runs at once, so that a method is a program of statements
    ([Statements.v]), each the effect of a script.  A document is the JSON text
    of an object whose members are strings; it is kept as the record of those
    members, [sanitize]d where [encoding/json] writes or reads them.  Numbers
    are text of an integer: here are how Go and Lua read them. *)
From stdpp Require Import pretty.
From S2P Require Import Prelude GoTime GoStrings Json Statements.
Open Scope Z_scope.
Open Scope go_scope.

(** [redis.Nil], what a client gives for a missing value. *)
Definition redis_Nil := ErrNew "redis: nil".

(** ** Instants as text *)

(** The integers that a double, a score or a Lua number, holds exactly. *)
Definition max_exact : Z := 2 ^ 53 - 1.
Definition exact_range (n : Z) : bool := (- max_exact <=? n) && (n <=? max_exact).

(** [redisJobStoreTime] and [redisSchedulerStoreTime], up to their texts. *)
Definition exact_time (zero range : string) (value : Z) : result string :=
  if IsZero value then Err (ErrNew zero)
  else let microseconds := UnixMicro value in
       if (microseconds <? - max_exact) || (max_exact <? microseconds) then Err (ErrNew range)
       else Ok (Itoa microseconds).
Definition parse_exact_time (invalid : string) (value : string) : goerror + Z :=
  match Atoi value with
  | Some microseconds =>
      if (microseconds <? - max_exact) || (max_exact <? microseconds) then inl (ErrNew invalid)
      else inr (FromUnixMicro microseconds)
  | None => inl (ErrNew invalid)
  end.

(** [tonumber(value)] of a text that matches [^%-?%d+$]. *)
Definition lua_integer (value : string) : option Z :=
  match value with
  | String c _ => if Ascii.eqb c "+"%char then None else Atoi value
  | EmptyString => None
  end.
(** [integer_string]: such a text, in the exact range. *)
Definition integer_string (value : string) : bool :=
  match lua_integer value with Some n => exact_range n | None => false end.

(** ** Sorted sets

    A score per member; the order is that of the scores, then of the bytes. *)
Abbreviation zset := (gmap string Z).
Definition zset_before (a b : string * Z) : Prop := a.2 < b.2 \/ (a.2 = b.2 /\ String.le a.1 b.1).
#[export] Instance zset_before_dec : RelDecision zset_before.
Proof. intros a b. unfold zset_before. apply _. Defined.
#[export] Instance zset_before_trans : Transitive zset_before.
Proof.
  intros a b c. unfold zset_before. intros [?|[? ?]] [?|[? ?]]; try (left; lia).
  right. split; [lia|]. by trans b.1.
Qed.
#[export] Instance zset_before_total : Total zset_before.
Proof.
  intros a b. unfold zset_before. destruct (Z.lt_trichotomy a.2 b.2) as [|[|]]; [tauto| |tauto].
  destruct (total String.le a.1 b.1); [left|right]; right; split; (lia || done).
Qed.

(** [ZRANGE key 0 -1 WITHSCORES]. *)
Definition zrange (z : zset) : list (string * Z) := merge_sort zset_before (map_to_list z).
(** [ZRANGEBYSCORE key -inf max LIMIT 0 count]. *)
Definition zrangebyscore (z : zset) (max : Z) (count : nat) : list string :=
  take count (filter (fun ms => ms.2 <= max) (zrange z)).*1.

Lemma zrange_elem z m s : (m, s) ∈ zrange z <-> z !! m = Some s.
Proof. unfold zrange. by rewrite merge_sort_elem_of, elem_of_map_to_list. Qed.

Lemma zrange_nil z : zrange z = [] <-> z = ∅.
Proof.
  split; [|by intros ->]. intros H. apply merge_sort_nil_inv in H. by apply map_to_list_empty_iff.
Qed.

Lemma zrange_head z m s rest : zrange z = (m, s) :: rest ->
  z !! m = Some s /\ forall m' s', z !! m' = Some s' -> zset_before (m, s) (m', s').
Proof.
  intros E. split; [apply zrange_elem; rewrite E; by left|]. intros m' s' H.
  apply (merge_sort_head_min zset_before _ _ _ (m', s') E). by apply elem_of_map_to_list.
Qed.

(** [ZRANGEBYSCORE]: no member twice, all within the bound, and every one of
    them when there are fewer than the limit. *)
Lemma fst_sublist {A B} (l l' : list (A * B)) : sublist l l' -> sublist l.*1 l'.*1.
Proof. induction 1; cbn; by constructor. Qed.
Lemma zrange_nodup z : NoDup (zrange z).*1.
Proof. unfold zrange. rewrite merge_sort_Permutation. apply NoDup_fst_map_to_list. Qed.
Lemma zrangebyscore_nodup z max count : NoDup (zrangebyscore z max count).
Proof.
  refine (sublist_NoDup _ _ (zrange_nodup z) _). unfold zrangebyscore.
  etrans; [apply sublist_take|]. apply fst_sublist, sublist_filter.
Qed.
Lemma zrangebyscore_elem z max count id : id ∈ zrangebyscore z max count -> exists s, z !! id = Some s /\ s <= max.
Proof.
  unfold zrangebyscore. intros H. apply elem_of_take in H as (i & Hi & _). apply list_elem_of_lookup_2 in Hi.
  apply list_elem_of_fmap in Hi as ([m s] & -> & Hms). apply list_elem_of_filter in Hms as [Hle Hms].
  exists s. by apply zrange_elem in Hms.
Qed.
Lemma zrangebyscore_all z max count id s : (length (zrangebyscore z max count) < count)%nat -> z !! id = Some s ->
  s <= max -> id ∈ zrangebyscore z max count.
Proof.
  unfold zrangebyscore. rewrite length_take. intros Hl Hk Hs. rewrite take_ge by lia.
  apply list_elem_of_fmap. exists (id, s). split; [done|]. apply list_elem_of_filter. split; [done|]. by apply zrange_elem.
Qed.

(** ** Reading what was written *)

Lemma lua_integer_Itoa n : in_int64 n -> lua_integer (Itoa n) = Some n.
Proof.
  intros Hn. pose proof (Atoi_Itoa n Hn) as Ha. unfold lua_integer.
  destruct (Itoa n) as [|c r] eqn:E; [done|]. destruct (Ascii.eqb_spec c "+"%char) as [->|]; [|done].
  exfalso. unfold Itoa in E. destruct (n <? 0) eqn:Hs; [done|]. apply Z.ltb_ge in Hs.
  pose proof (parse_digits_FormatUint n Hs) as Hp. rewrite E in Hp. done.
Qed.

Lemma exact_range_int64 n : exact_range n = true -> in_int64 n.
Proof.
  unfold exact_range, max_exact, in_int64, int64_min, int64_max. intros H. bool_prop. lia.
Qed.
Lemma exact_range_spec n : exact_range n = negb ((n <? - max_exact) || (max_exact <? n)).
Proof.
  unfold exact_range. destruct (Z.leb_spec (- max_exact) n), (Z.leb_spec n max_exact),
    (Z.ltb_spec n (- max_exact)), (Z.ltb_spec max_exact n); cbn; lia || done.
Qed.

Lemma exact_time_ok zero range value s : exact_time zero range value = Ok s ->
  s = Itoa (UnixMicro value) /\ exact_range (UnixMicro value) = true.
Proof.
  unfold exact_time. destruct (IsZero value); [done|]. rewrite exact_range_spec. destruct (_ || _); [done|].
  by intros [= <-].
Qed.
Lemma parse_exact_time_Itoa invalid n : exact_range n = true -> parse_exact_time invalid (Itoa n) = inr (FromUnixMicro n).
Proof.
  intros H. unfold parse_exact_time. rewrite Atoi_Itoa by (by apply exact_range_int64).
  rewrite exact_range_spec in H. by apply negb_true_iff in H as ->.
Qed.
Lemma integer_string_Itoa n : exact_range n = true -> integer_string (Itoa n) = true.
Proof. intros H. unfold integer_string. by rewrite lua_integer_Itoa by (by apply exact_range_int64). Qed.

(** Numbers are valid text. *)
Lemma pretty_digits (P : ascii -> bool) x : (forall d, (d < 10)%N -> P (pretty_N_char d) = true) -> forall s,
  string_forall P s = true -> string_forall P (pretty_N_go x s) = true.
Proof.
  intros HP. induction (N.lt_wf_0 x) as [x _ IH]. intros s Hs. destruct (decide (0 < x)%N).
  - rewrite pretty_N_go_step by done. apply IH; [apply N.div_lt; lia|]. cbn [string_forall].
    rewrite HP by (apply N.mod_lt; lia). done.
  - assert (x = 0%N) as -> by lia. by rewrite pretty_N_go_0.
Qed.
Lemma FormatUint_ascii n : string_forall (fun c => byte_of c <? 128) (FormatUint n) = true.
Proof.
  unfold FormatUint, pretty, pretty_N. destruct (decide _); [done|]. apply pretty_digits; [|done].
  intros d Hd. assert (d = 0 \/ d = 1 \/ d = 2 \/ d = 3 \/ d = 4 \/ d = 5 \/ d = 6 \/ d = 7 \/ d = 8 \/ d = 9)%N as Hc by lia.
  repeat destruct Hc as [->|Hc]; [done..|by subst].
Qed.
Lemma Itoa_valid n : ValidString (Itoa n) = true.
Proof.
  apply valid_ascii. unfold Itoa. destruct (n <? 0); [|apply FormatUint_ascii].
  change ("-" +:+ FormatUint (- n)) with (String "-"%char (FormatUint (- n))). cbn [string_forall].
  by rewrite FormatUint_ascii.
Qed.
Lemma Itoa_sanitize n : sanitize (Itoa n) = Itoa n.
Proof. apply sanitize_valid, Itoa_valid. Qed.

(** ** Namespaces *)

(** [normalizeRedis...StoreOptions]: the test of a namespace after trimming; a
    rune beyond ASCII is above the control characters. *)
Definition namespace_char (c : ascii) : bool :=
  negb ((byte_of c <? 32) || (byte_of c =? 127) || Ascii.eqb c "{"%char || Ascii.eqb c "}"%char).
Definition valid_namespace (max : Z) (namespace : string) : bool :=
  (string_length namespace <=? max) && string_forall namespace_char namespace.
