(* ===== verification/RedisSchedulerStore.v ===== *)
(** * The Redis scheduler store: [backend/framework/redis_scheduler_store.go]

    One hash of documents, one per task, and a script per method. *)
From S2P Require Import Prelude GoTime GoStrings Json EventLog SchedulerStore FileSchedulerStore Statements Redis.
Open Scope Z_scope.
Open Scope go_scope.

Definition ErrInvalidRedisSchedulerStoreOptions := ErrNew "framework: Redis scheduler store options are invalid".
Definition defaultRedisSchedulerStoreNamespace : string := "bridra:scheduler".
Definition redisSchedulerStoreMaxNamespaceBytes : Z := 256.
Definition redisSchedulerStoreMaxNameBytes : Z := 255.
Definition redisSchedulerStoreMaxExactTime : Z := max_exact.

Record RedisSchedulerStore := MkRedisSchedulerStore { redis_namespace : string; redis_keys : list string }.

(** The options are the namespace alone. *)
Definition normalizeRedisSchedulerStoreOptions (namespace : string) : result string :=
  let namespace := TrimSpace namespace in
  let namespace := if String.eqb namespace "" then defaultRedisSchedulerStoreNamespace else namespace in
  if negb (valid_namespace redisSchedulerStoreMaxNamespaceBytes namespace)
  then Err ErrInvalidRedisSchedulerStoreOptions else Ok namespace.
Definition NewRedisSchedulerStore (client : bool) (namespace : string) : result RedisSchedulerStore :=
  if negb client then Err ErrSchedulerStoreUnavailable else
  match normalizeRedisSchedulerStoreOptions namespace with
  | Ok n => Ok (MkRedisSchedulerStore n ["{" +:+ n +:+ "}" +:+ ":tasks"])
  | Err err => Err err
  | Panicked m => Panicked m
  end.

(** ** Documents *)

Record redisStoredScheduledTaskMetadata := TaskDoc {
  md_Name : string;
  md_NextRunAt : string;
  md_LastScheduledAt : string;
  md_LastCompletedAt : string;
  md_LastError : string;
  md_ReservationToken : string;
  md_ReservedUntil : string
}.
Abbreviation task_hash := (gmap string redisStoredScheduledTaskMetadata).
Abbreviation task_call A := (db_call task_hash A).

Record redisStoredScheduledTask := MkRedisStoredScheduledTask {
  redis_state : StoredScheduledTask;
  redis_reservationToken : string
}.

(** What [encoding/json] makes of the members' text. *)
Definition through_json (m : redisStoredScheduledTaskMetadata) : redisStoredScheduledTaskMetadata :=
  TaskDoc (sanitize (md_Name m)) (sanitize (md_NextRunAt m)) (sanitize (md_LastScheduledAt m))
    (sanitize (md_LastCompletedAt m)) (sanitize (md_LastError m)) (sanitize (md_ReservationToken m))
    (sanitize (md_ReservedUntil m)).

Definition validRedisScheduledTaskName (name : string) : bool :=
  validStoredScheduledTaskName name && (string_length name <=? redisSchedulerStoreMaxNameBytes).

Definition redisSchedulerStoreTime (value : Z) : result string :=
  exact_time "Redis scheduler time is zero" "Redis scheduler time exceeds exact range" value.
Definition parseRedisSchedulerStoreTime (value : string) : goerror + Z :=
  parse_exact_time "invalid Redis scheduler time" value.
Definition redisSchedulerStoreError (operation : string) (err : goerror) : goerror :=
  errorf2 ErrSchedulerStoreOperationFailed operation err.

Definition is_empty (s : string) : bool := String.eqb s "".
(** [parse...] of a member that may be empty, which leaves the zero time. *)
Definition optional_time (value : string) : goerror + Z :=
  if is_empty value then inr zero_time else parseRedisSchedulerStoreTime value.

Definition decodeRedisStoredScheduledTask (encoded : redisStoredScheduledTaskMetadata) : goerror + redisStoredScheduledTask :=
  let metadata := through_json encoded in
  if negb (validRedisScheduledTaskName (md_Name metadata)) ||
     negb (Bool.eqb (is_empty (md_LastScheduledAt metadata)) (is_empty (md_LastCompletedAt metadata))) ||
     negb (Bool.eqb (is_empty (md_ReservationToken metadata)) (is_empty (md_ReservedUntil metadata))) ||
     (is_empty (md_LastScheduledAt metadata) && negb (is_empty (md_LastError metadata))) ||
     (fileSchedulerStoreMaxErrorBytes <? string_length (md_LastError metadata))
  then inl (ErrNew "invalid Redis scheduled task metadata")
  else
    match parseRedisSchedulerStoreTime (md_NextRunAt metadata) with
    | inl err => inl err
    | inr nextRunAt =>
        match optional_time (md_LastScheduledAt metadata) with
        | inl err => inl err
        | inr lastScheduledAt =>
            match optional_time (md_LastCompletedAt metadata) with
            | inl err => inl err
            | inr lastCompletedAt =>
                match optional_time (md_ReservedUntil metadata) with
                | inl err => inl err
                | inr reservedUntil =>
                    inr (MkRedisStoredScheduledTask
                           (MkStoredScheduledTask (md_Name metadata) nextRunAt lastScheduledAt lastCompletedAt
                              (md_LastError metadata) reservedUntil)
                           (md_ReservationToken metadata))
                end
            end
        end
    end.

(** ** Scripts *)

Definition redisSchedulerStoreInitializeScript (name : string) (encoded : redisStoredScheduledTaskMetadata)
    (h : task_hash) : task_hash * (goerror + Z) :=
  match h !! name with
  | Some _ => (h, inr 0)
  | None => (<[name := encoded]> h, inr 1)
  end.

Definition redisSchedulerStoreStateScript (name : string) (h : task_hash)
    : task_hash * (goerror + redisStoredScheduledTaskMetadata) :=
  (h, match h !! name with Some m => inr m | None => inl redis_Nil end).

(** The check that both scripts make of a document; its members are strings. *)
Definition script_corrupt (name : string) (task : redisStoredScheduledTaskMetadata) : bool :=
  negb (String.eqb (md_Name task) name) ||
  negb (integer_string (md_NextRunAt task)) ||
  negb (Bool.eqb (is_empty (md_LastScheduledAt task)) (is_empty (md_LastCompletedAt task))) ||
  negb (Bool.eqb (is_empty (md_ReservationToken task)) (is_empty (md_ReservedUntil task))) ||
  (is_empty (md_LastScheduledAt task) && negb (is_empty (md_LastError task))) ||
  (negb (is_empty (md_LastScheduledAt task)) &&
   (negb (integer_string (md_LastScheduledAt task)) || negb (integer_string (md_LastCompletedAt task)))) ||
  (negb (is_empty (md_ReservedUntil task)) && negb (integer_string (md_ReservedUntil task))).
Definition corrupt_task : goerror := ErrNew "bridra: scheduled task state is corrupt".

(** [tonumber(a) > tonumber(b)] of checked texts. *)
Definition lua_after (a b : string) : bool :=
  match lua_integer a, lua_integer b with Some x, Some y => y <? x | _, _ => false end.

(** The reply of a script: words, or ['ok'] with a document. *)
Inductive reserve_reply :=
| ReplyWord (word : string)
| ReplyOk (encoded : redisStoredScheduledTaskMetadata).

Definition redisSchedulerStoreReserveScript (name now token until : string) (h : task_hash)
    : task_hash * (goerror + reserve_reply) :=
  match h !! name with
  | None => (h, inr (ReplyWord "missing"))
  | Some task =>
      if script_corrupt name task then (h, inl corrupt_task)
      else if negb (is_empty (md_ReservationToken task)) && lua_after (md_ReservedUntil task) now
      then (h, inr (ReplyWord "reserved"))
      else if lua_after (md_NextRunAt task) now then (h, inr (ReplyWord "not_due"))
      else
        let encoded := TaskDoc (md_Name task) (md_NextRunAt task) (md_LastScheduledAt task) (md_LastCompletedAt task)
                         (md_LastError task) token until in
        (<[name := encoded]> h, inr (ReplyOk encoded))
  end.

Definition redisSchedulerStoreCompleteScript (name token scheduledAt nextRunAt completedAt lastError : string)
    (h : task_hash) : task_hash * (goerror + Z) :=
  match h !! name with
  | None => (h, inr 0)
  | Some task =>
      if script_corrupt name task then (h, inl corrupt_task)
      else if negb (String.eqb (md_ReservationToken task) token) || negb (String.eqb (md_NextRunAt task) scheduledAt)
      then (h, inr 0)
      else (<[name := TaskDoc (md_Name task) nextRunAt scheduledAt completedAt lastError "" ""]> h, inr 1)
  end.

(** ** Methods *)

Definition redis_task_ready {A} (store : option RedisSchedulerStore) (ctx : context) (k : task_call A) : task_call A :=
  match store with
  | None => Done (Err ErrSchedulerStoreUnavailable)
  | Some _ =>
      match ctx with
      | NilContext => Done (Err ErrSchedulerContextUnavailable)
      | Ctx (Some err) => Done (Err err)
      | Ctx None => k
      end
  end.

(** Go on with a result, or give the error [err] instead of its own. *)
Definition or_error {A B} (r : result A) (err : goerror) (k : A -> task_call B) : task_call B :=
  match r with Ok a => k a | Err _ => Done (Err err) | Panicked m => Done (Panicked m) end.

Definition Redis_Initialize (ctx : context) (name : string) (nextRunAt : Z) (store : option RedisSchedulerStore)
    : task_call unit :=
  redis_task_ready store ctx (
    if negb (validRedisScheduledTaskName name) || IsZero nextRunAt then Done (Err ErrSchedulerStoreConflict)
    else
      or_error (redisSchedulerStoreTime nextRunAt) ErrSchedulerStoreConflict (fun nextRunAtValue =>
        let encoded := through_json (TaskDoc name nextRunAtValue "" "" "" "" "") in
        Statement (redisSchedulerStoreInitializeScript name encoded) (fun a =>
          match a with
          | inl err => Done (Err (redisSchedulerStoreError "initialize task" err))
          | inr r =>
              if negb (r =? 0) && negb (r =? 1)
              then Done (Err (redisSchedulerStoreError "initialize task" (ErrNew ("result " +:+ Itoa r))))
              else Done (Ok tt)
          end))).

Definition Redis_State (ctx : context) (name : string) (store : option RedisSchedulerStore)
    : task_call StoredScheduledTask :=
  redis_task_ready store ctx (
    if negb (validRedisScheduledTaskName name) then Done (Err ErrSchedulerStoreConflict)
    else
      Statement (redisSchedulerStoreStateScript name) (fun a =>
        match a with
        | inl err =>
            if errors_is err redis_Nil then Done (Err ErrScheduledTaskStateNotFound)
            else Done (Err (redisSchedulerStoreError "read task state" err))
        | inr encoded =>
            match decodeRedisStoredScheduledTask encoded with
            | inl err => Done (Err (redisSchedulerStoreError "decode task state" err))
            | inr record =>
                if negb (String.eqb (Name (redis_state record)) name)
                then Done (Err (redisSchedulerStoreError "decode task state" (ErrNew "task name does not match")))
                else Done (Ok (redis_state record))
            end
        end)).

Definition state_mismatch : goerror :=
  redisSchedulerStoreError "decode reserved task" (ErrNew "reservation state does not match").

(** The reply read: the part of [Reserve] after the script. *)
Definition reserved_reply (name token : string) (reservedUntil : Z) (reply : reserve_reply)
    : result ScheduledTaskReservation :=
  match reply with
  | ReplyWord word =>
      if String.eqb word "missing" then Err ErrScheduledTaskStateNotFound
      else if String.eqb word "reserved" then Err ErrScheduledTaskReserved
      else if String.eqb word "not_due" then Err ErrScheduledTaskNotDue
      else Err (redisSchedulerStoreError "reserve task" (ErrNew "returned 1 unexpected values"))
  | ReplyOk encoded =>
      match decodeRedisStoredScheduledTask encoded with
      | inl err => Err (redisSchedulerStoreError "decode reserved task" err)
      | inr record =>
          if negb (String.eqb (Name (redis_state record)) name) ||
             negb (String.eqb (redis_reservationToken record) token) ||
             negb (Equal (ReservedUntil (redis_state record)) reservedUntil)
          then Err state_mismatch
          else Ok (MkScheduledTaskReservation (redis_state record) token reservedUntil)
      end
  end.

Definition Redis_Reserve (random : result (nat -> Z)) (ctx : context) (name : string) (now lease : Z)
    (store : option RedisSchedulerStore) : task_call ScheduledTaskReservation :=
  redis_task_ready store ctx (
    if negb (validRedisScheduledTaskName name) || IsZero now || (lease <=? 0)
    then Done (Err ErrScheduledTaskReservationInvalid)
    else
      let reservedUntil := now + lease in
      or_error (redisSchedulerStoreTime now) ErrScheduledTaskReservationInvalid (fun nowValue =>
      or_error (redisSchedulerStoreTime reservedUntil) ErrScheduledTaskReservationInvalid (fun reservedUntilValue =>
        match newSchedulerReservationToken random with
        | Err err => Done (Err err)
        | Panicked m => Done (Panicked m)
        | Ok token =>
            Statement (redisSchedulerStoreReserveScript name nowValue token reservedUntilValue) (fun a =>
              match a with
              | inl err => Done (Err (redisSchedulerStoreError "reserve task" err))
              | inr reply => Done (reserved_reply name token reservedUntil reply)
              end)
        end))).

(** The result of a script that answers 0 or 1. *)
Definition redis_completion (a : goerror + Z) : result unit :=
  match a with
  | inl err => Err (redisSchedulerStoreError "complete task" err)
  | inr r =>
      if r =? 0 then Err ErrScheduledTaskReservationInvalid
      else if negb (r =? 1) then Err (redisSchedulerStoreError "complete task" (ErrNew ("result " +:+ Itoa r)))
      else Ok tt
  end.

Definition Redis_Complete (ctx : context) (reservation : ScheduledTaskReservation) (nextRunAt completedAt : Z)
    (lastError : string) (store : option RedisSchedulerStore) : task_call unit :=
  let task := sres_Task reservation in
  redis_task_ready store ctx (
    if negb (validRedisScheduledTaskName (Name task)) || String.eqb (sres_Token reservation) "" ||
       IsZero (NextRunAt task) || IsZero nextRunAt || IsZero completedAt || negb (After nextRunAt completedAt)
    then Done (Err ErrScheduledTaskReservationInvalid)
    else
      or_error (redisSchedulerStoreTime (NextRunAt task)) ErrScheduledTaskReservationInvalid (fun scheduledAtValue =>
      or_error (redisSchedulerStoreTime nextRunAt) ErrScheduledTaskReservationInvalid (fun nextRunAtValue =>
      or_error (redisSchedulerStoreTime completedAt) ErrScheduledTaskReservationInvalid (fun completedAtValue =>
        Statement (redisSchedulerStoreCompleteScript (Name task) (sres_Token reservation) scheduledAtValue
                     nextRunAtValue completedAtValue (normalizeFileSchedulerStoreError lastError))
          (fun a => Done (redis_completion a)))))).
