(* ===== verification/RedisSchedulerStoreSpec.v ===== *)
(** * The Redis scheduler store: documents, transitions, instants

    The documents that the methods write and read ([doc_of]), what every call
    does to the view, and what an instant between two microseconds does to
    [Reserve]. *)
From S2P Require Import Prelude GoTime GoStrings Json EventLog SchedulerStore FileSchedulerStore FileSchedulerStoreFacts Statements Redis RedisSchedulerStore.
Open Scope Z_scope.
Open Scope go_scope.

(** ** Documents in order *)

(** The columns of a document: the next run; the last occurrence, its
    completion and its error; the token and the end of the lease. *)
Record task_fields := TaskFields {
  tf_next : Z;
  tf_last : option (Z * Z * string);
  tf_lease : option (string * Z)
}.
Definition doc_of (name : string) (f : task_fields) : redisStoredScheduledTaskMetadata :=
  TaskDoc name (Itoa (tf_next f))
    (match tf_last f with Some (s, _, _) => Itoa s | None => "" end)
    (match tf_last f with Some (_, c, _) => Itoa c | None => "" end)
    (match tf_last f with Some (_, _, e) => e | None => "" end)
    (match tf_lease f with Some (token, _) => token | None => "" end)
    (match tf_lease f with Some (_, u) => Itoa u | None => "" end).
Definition fields_ok (f : task_fields) : Prop :=
  exact_range (tf_next f) = true /\
  match tf_last f with
  | Some (s, c, e) => exact_range s = true /\ exact_range c = true /\ ValidString e = true /\
      string_length e <= fileSchedulerStoreMaxErrorBytes
  | None => True
  end /\
  match tf_lease f with
  | Some (token, u) => token <> "" /\ ValidString token = true /\ exact_range u = true
  | None => True
  end.
Definition name_ok (name : string) : Prop := validRedisScheduledTaskName name = true /\ ValidString name = true.
Definition doc_ok (name : string) (m : redisStoredScheduledTaskMetadata) : Prop :=
  name_ok name /\ exists f, fields_ok f /\ m = doc_of name f.
Definition hash_ok (h : task_hash) : Prop := map_Forall doc_ok h.

Definition fields_state (name : string) (f : task_fields) : StoredScheduledTask :=
  MkStoredScheduledTask name (FromUnixMicro (tf_next f))
    (match tf_last f with Some (s, _, _) => FromUnixMicro s | None => zero_time end)
    (match tf_last f with Some (_, c, _) => FromUnixMicro c | None => zero_time end)
    (match tf_last f with Some (_, _, e) => e | None => "" end)
    (match tf_lease f with Some (_, u) => FromUnixMicro u | None => zero_time end).
Definition fields_token (f : task_fields) : string := match tf_lease f with Some (token, _) => token | None => "" end.
Definition fields_entry (name : string) (f : task_fields) : StoredScheduledTask * string :=
  (fields_state name f, fields_token f).

Lemma Itoa_nonempty n : exact_range n = true -> is_empty (Itoa n) = false.
Proof. intros H. apply String.eqb_neq, Itoa_not_empty. by apply exact_range_int64. Qed.

Lemma optional_Itoa n : exact_range n = true -> optional_time (Itoa n) = inr (FromUnixMicro n).
Proof. intros H. unfold optional_time. rewrite Itoa_nonempty by done. by apply parse_exact_time_Itoa. Qed.

(** Such a document goes through JSON unchanged, and is read back. *)
Lemma through_json_doc name f : ValidString name = true -> fields_ok f -> through_json (doc_of name f) = doc_of name f.
Proof.
  intros Hn (_ & Hl & Hr). unfold through_json, doc_of.
  cbn [md_Name md_NextRunAt md_LastScheduledAt md_LastCompletedAt md_LastError md_ReservationToken md_ReservedUntil].
  rewrite (sanitize_valid name Hn), Itoa_sanitize.
  destruct (tf_last f) as [[[s c] e]|]; destruct (tf_lease f) as [[token u]|];
    repeat match goal with H : _ /\ _ |- _ => destruct H end; rewrite ?Itoa_sanitize;
    repeat match goal with H : ValidString _ = true |- _ => rewrite (sanitize_valid _ H); clear H end; done.
Qed.

Ltac doc_cases :=
  cbn -[is_empty Itoa]; repeat match goal with H : _ /\ _ |- _ => destruct H end;
  change (is_empty "") with true; rewrite ?Itoa_nonempty by done;
  try (match goal with H : ?t <> "" |- _ => rewrite (proj2 (String.eqb_neq t "") H : is_empty t = false) end);
  try (match goal with H : string_length ?e <= _ |- _ =>
    rewrite (proj2 (Z.ltb_ge fileSchedulerStoreMaxErrorBytes (string_length e)) H) end);
  cbn -[is_empty Itoa].

Lemma decode_doc name f : name_ok name -> fields_ok f ->
  decodeRedisStoredScheduledTask (doc_of name f) = inr (MkRedisStoredScheduledTask (fields_state name f) (fields_token f)).
Proof.
  intros [Hn Hu] Hf. unfold decodeRedisStoredScheduledTask. rewrite through_json_doc by done.
  destruct Hf as (Hnext & Hl & Hr). unfold doc_of, fields_state, fields_token.
  cbn -[is_empty Itoa]. rewrite Hn. unfold parseRedisSchedulerStoreTime. rewrite parse_exact_time_Itoa by done.
  destruct (tf_last f) as [[[s c] e]|]; destruct (tf_lease f) as [[token u]|]; doc_cases;
    rewrite ?optional_Itoa by done; done.
Qed.

Lemma script_accepts_doc name f : fields_ok f -> script_corrupt name (doc_of name f) = false.
Proof.
  intros (Hnext & Hl & Hr). unfold script_corrupt, doc_of. cbn -[is_empty Itoa].
  rewrite String.eqb_refl, integer_string_Itoa by done.
  destruct (tf_last f) as [[[s c] e]|]; destruct (tf_lease f) as [[token u]|]; doc_cases;
    rewrite ?integer_string_Itoa by done; done.
Qed.

(** ** The view of a hash *)
Definition hash_view (h : task_hash) : task_view :=
  map_imap (fun _ m => match decodeRedisStoredScheduledTask m with
                       | inr r => Some (redis_state r, redis_reservationToken r)
                       | inl _ => None
                       end) h.

Lemma hash_view_none h name : h !! name = None -> hash_view h !! name = None.
Proof. intros H. unfold hash_view. by rewrite map_lookup_imap, H. Qed.
Lemma hash_view_doc h name f : name_ok name -> fields_ok f -> h !! name = Some (doc_of name f) ->
  hash_view h !! name = Some (fields_entry name f).
Proof. intros Hn Hf Hk. unfold hash_view. rewrite map_lookup_imap, Hk. cbn. by rewrite decode_doc. Qed.
Lemma hash_view_insert h name f : name_ok name -> fields_ok f ->
  hash_view (<[name := doc_of name f]> h) = <[name := fields_entry name f]> (hash_view h).
Proof.
  intros Hn Hf. apply map_eq. intros i. destruct (decide (name = i)) as [<-|Hne].
  - rewrite lookup_insert_eq. by rewrite (hash_view_doc _ _ f) by (done || apply lookup_insert_eq).
  - unfold hash_view. rewrite lookup_insert_ne, !map_lookup_imap, lookup_insert_ne by done. done.
Qed.
Lemma hash_ok_insert h name f : hash_ok h -> name_ok name -> fields_ok f -> hash_ok (<[name := doc_of name f]> h).
Proof. intros Hh Hn Hf. apply map_Forall_insert_2; [|done]. split; [done|by exists f]. Qed.
Lemma hash_doc h name m : hash_ok h -> h !! name = Some m -> name_ok name /\ exists f, fields_ok f /\ m = doc_of name f.
Proof. intros Hh Hk. by apply (Hh _ _ Hk). Qed.

(** ** What a call does *)
Abbreviation on_hash tr := (fun a h h' => tr a (hash_view h) (hash_view h')).
Abbreviation effect certain tr := (Statements.effect hash_ok certain (on_hash tr)).
Abbreviation tr_initialize := (initialize_to to_microseconds).
Abbreviation tr_reserve_task := (reserve_to to_microseconds).
Abbreviation tr_complete_task := (complete_to to_microseconds normalizeFileSchedulerStoreError).

Lemma redis_ready_cases {A} store ctx (k : db_call task_hash A) :
  redis_task_ready store ctx k = k \/ exists err, redis_task_ready store ctx k = Done (Err err).
Proof.
  unfold redis_task_ready. destruct store as [s|]; [|right; by eexists].
  destruct ctx as [|[err|]]; [right; by eexists..|by left].
Qed.
Lemma or_error_cases {A B} (r : result A) err (k : A -> db_call task_hash B) :
  (exists a, r = Ok a /\ or_error r err k = k a) \/ (exists e, or_error r err k = Done e /\ forall b, e <> Ok b).
Proof. destruct r as [a|e|m]; [left; by exists a|right; by eexists..]. Qed.
Lemma done_effect {A} certain (tr : A -> task_view -> task_view -> Prop) h os e h' r :
  hash_ok h -> (forall b, e <> Ok b) -> perform os (Done e) h = (h', r) -> effect certain tr h h' r.
Proof. intros Hok He [= <- <-]. apply effect_none; [done|]. intros b [= E]. by apply (He b). Qed.

Ltac past_ready :=
  match goal with |- context [redis_task_ready ?st ?c ?k] =>
    let E := fresh "E" in let err := fresh "err" in
    destruct (redis_ready_cases st c k) as [E|[err E]]; rewrite E; clear E;
    [|intros Hrun; eapply done_effect; [eassumption| |exact Hrun]; by intros ?]
  end.
Ltac past_time v H :=
  match goal with |- context [or_error ?r ?e ?k] =>
    let E := fresh "E" in let He := fresh "He" in let x := fresh "x" in
    destruct (or_error_cases r e k) as [(v & H & E)|(x & E & He)]; rewrite E; clear E;
    [|intros Hrun; eapply done_effect; [eassumption|exact He|exact Hrun]]
  end.

Lemma time_value v s : redisSchedulerStoreTime v = Ok s -> s = Itoa (UnixMicro v) /\ exact_range (UnixMicro v) = true.
Proof. apply exact_time_ok. Qed.

Lemma Redis_Initialize_effect ctx name next store os h h' r :
  hash_ok h -> ValidString name = true -> perform os (Redis_Initialize ctx name next store) h = (h', r) ->
  effect (all_settled os) (tr_initialize name next) h h' r.
Proof.
  intros Hok Hu. unfold Redis_Initialize. past_ready.
  destruct (negb (validRedisScheduledTaskName name) || _) eqn:Hg; [by intros [= <- <-]; apply effect_none|].
  assert (name_ok name) as Hn by (bool_prop; done). clear Hg.
  past_time v Hv. apply time_value in Hv as [-> Hr].
  pose (f := TaskFields (UnixMicro next) None None).
  assert (fields_ok f) as Hf by done.
  change (TaskDoc name (Itoa (UnixMicro next)) "" "" "" "" "") with (doc_of name f). rewrite through_json_doc by done.
  cbn [perform]. unfold redisSchedulerStoreInitializeScript.
  destruct (h !! name) as [m|] eqn:Hk.
  - destruct (hash_doc _ _ _ Hok Hk) as (_ & f0 & Hf0 & ->).
    destruct (os O) as [|e|e]; cbn [execute]; rewrite ?Hk; cbn; intros [= <- <-];
      [|by apply effect_none..]. split; [done|]. left. exists (fields_entry name f0). by rewrite (hash_view_doc h name f0).
  - assert (tr_initialize name next tt (hash_view h) (hash_view (<[name := doc_of name f]> h))) as Htr.
    { right. rewrite hash_view_none by done. split; [done|]. by rewrite hash_view_insert. }
    assert (hash_ok (<[name := doc_of name f]> h)) as Hok1 by (by apply hash_ok_insert).
    destruct (os O) as [|e|e] eqn:Ho; cbn [execute]; rewrite ?Hk; cbn; intros [= <- <-].
    + by split.
    + by apply effect_none.
    + split; [done|]. right. split; [|by exists tt]. intros Hs. specialize (Hs O). by rewrite Ho in Hs.
Qed.

(** What the Reserve script does to a document in order. *)
Definition reserved_fields (token : string) (until : Z) (f : task_fields) : task_fields :=
  TaskFields (tf_next f) (tf_last f) (Some (token, until)).
Definition fields_free (now : Z) (f : task_fields) : bool :=
  match tf_lease f with Some (_, u) => negb (now <? u) | None => true end.

Lemma lua_after_Itoa a b : exact_range a = true -> exact_range b = true -> lua_after (Itoa a) (Itoa b) = (b <? a).
Proof. intros Ha Hb. unfold lua_after. by rewrite !lua_integer_Itoa by (by apply exact_range_int64). Qed.

Lemma reserve_script_doc name now token until f h : fields_ok f -> exact_range now = true ->
  h !! name = Some (doc_of name f) ->
  redisSchedulerStoreReserveScript name (Itoa now) token (Itoa until) h =
    if negb (fields_free now f) then (h, inr (ReplyWord "reserved"))
    else if now <? tf_next f then (h, inr (ReplyWord "not_due"))
    else (<[name := doc_of name (reserved_fields token until f)]> h,
          inr (ReplyOk (doc_of name (reserved_fields token until f)))).
Proof.
  intros Hf Hnow Hk. unfold redisSchedulerStoreReserveScript. rewrite Hk, script_accepts_doc by done.
  destruct Hf as (Hnext & _ & Hr). unfold fields_free. cbn [doc_of md_ReservationToken md_ReservedUntil md_NextRunAt].
  rewrite lua_after_Itoa by done. destruct (tf_lease f) as [[tok u]|]; [|done].
  destruct Hr as (Ht & _ & Hu). rewrite lua_after_Itoa by done.
  rewrite (proj2 (String.eqb_neq tok "") Ht : is_empty tok = false). cbn. by rewrite negb_involutive.
Qed.

Lemma fields_reservable name now f : fields_ok f -> fields_free now f = true -> (now <? tf_next f) = false ->
  task_reservable (FromUnixMicro now) (fields_entry name f).
Proof.
  intros (_ & _ & Hr) Hfree Hdue. apply Z.ltb_ge in Hdue. split; cbn; [by apply FromUnixMicro_le|].
  unfold fields_free, fields_token in *. destruct (tf_lease f) as [[tok u]|]; [|by left]. right. cbn.
  bool_prop. by apply FromUnixMicro_le.
Qed.

Definition whole_microseconds (t : Z) : Prop := to_microseconds t = t.

(** The reply of the script read, for a document in order. *)
Lemma reserved_reply_ok name token until f : name_ok name -> fields_ok (reserved_fields token (UnixMicro until) f) ->
  reserved_reply name token until (ReplyOk (doc_of name (reserved_fields token (UnixMicro until) f))) =
    if Equal (to_microseconds until) until
    then Ok (MkScheduledTaskReservation (with_lease (fields_state name f) (to_microseconds until)) token until)
    else Err state_mismatch.
Proof.
  intros Hn Hf. unfold reserved_reply. rewrite decode_doc by done.
  cbn [redis_state redis_reservationToken fields_state fields_token reserved_fields tf_lease tf_next tf_last Name ReservedUntil].
  rewrite !String.eqb_refl. cbn [negb orb]. fold (to_microseconds until). by destruct (Equal _ _).
Qed.

Lemma Redis_Reserve_effect random ctx name now lease store os h h' r :
  hash_ok h -> perform os (Redis_Reserve random ctx name now lease store) h = (h', r) ->
  effect (all_settled os /\ whole_microseconds (now + lease)) (tr_reserve_task name now lease) h h' r.
Proof.
  intros Hok. unfold Redis_Reserve. past_ready. destruct (_ || _); [by intros [= <- <-]; apply effect_none|].
  cbv zeta. past_time nv Hnv. past_time uv Huv. apply time_value in Hnv as [-> Hnow], Huv as [-> Huntil].
  destruct (newSchedulerReservationToken random) as [token|err|m] eqn:Er; [|by intros [= <- <-]; apply effect_none..].
  apply newSchedulerReservationToken_ok in Er as [Htv Htl].
  assert (token <> "") as Hte by (by intros ->).
  destruct (h !! name) as [m|] eqn:Hk.
  2: { intros Hrun. assert (h' = h /\ forall b, r <> Some (Ok b)) as [-> Hr]; [|by apply effect_none].
       revert Hrun. cbn [perform]. unfold redisSchedulerStoreReserveScript.
       destruct (os O) as [|e|e]; cbn [execute]; rewrite ?Hk; cbn; by intros [= <- <-]. }
  destruct (hash_doc _ _ _ Hok Hk) as (Hn & f & Hf & ->).
  assert (fields_ok (reserved_fields token (UnixMicro (now + lease)) f)) as Hf'
    by (destruct Hf as (? & ? & _); by repeat split).
  pose proof (reserve_script_doc name (UnixMicro now) token (UnixMicro (now + lease)) f h Hf Hnow Hk) as Hscript.
  cbn [perform]. destruct (fields_free (UnixMicro now) f) eqn:Hfree; cbn [negb] in Hscript;
    [destruct (UnixMicro now <? tf_next f) eqn:Hdue|].
  1,3: destruct (os O) as [|e|e]; cbn [execute]; rewrite ?Hscript; cbn; intros [= <- <-]; by apply effect_none.
  pose (res := MkScheduledTaskReservation (with_lease (fields_state name f) (now + lease)) token (now + lease)).
  assert (tr_reserve_task name now lease res (hash_view h)
    (hash_view (<[name := doc_of name (reserved_fields token (UnixMicro (now + lease)) f)]> h))) as Htr.
  { exists (fields_entry name f). rewrite (hash_view_doc h name f) by done. split; [done|].
    split; [by apply fields_reservable|]. repeat (split; [done|]). by rewrite hash_view_insert. }
  assert (hash_ok (<[name := doc_of name (reserved_fields token (UnixMicro (now + lease)) f)]> h)) as Hok1
    by (by apply hash_ok_insert).
  destruct (os O) as [|e|e] eqn:Ho; cbn [execute]; rewrite ?Hscript; cbn [fst perform].
  - rewrite reserved_reply_ok by done. intros [= <- <-]. split; [done|].
    destruct (Z.eqb_spec (to_microseconds (now + lease)) (now + lease)) as [E|E]; unfold Equal; rewrite ?E.
    + by rewrite Z.eqb_refl.
    + rewrite (proj2 (Z.eqb_neq _ _) E). right. split; [|by exists res]. by intros [_ ?].
  - intros [= <- <-]. by apply effect_none.
  - intros [= <- <-]. split; [done|]. right. split; [|by exists res]. intros [Hs _]. specialize (Hs O). by rewrite Ho in Hs.
Qed.

Lemma normalized_error_valid e : ValidString e = true -> ValidString (normalizeFileSchedulerStoreError e) = true.
Proof.
  intros He. unfold normalizeFileSchedulerStoreError. destruct (_ <=? _); [done|].
  by apply shorten_to_valid_valid.
Qed.

Lemma redis_completion_ok a : redis_completion a = Ok tt <-> a = inr 1 /\ @None goerror = None.
Proof.
  unfold redis_completion. destruct a as [err|n]; [split; [done|by intros [? _]]|].
  destruct (Z.eqb_spec n 0) as [->|]; [split; [done|by intros [? _]]|].
  destruct (Z.eqb_spec n 1) as [->|]; cbn; [done|]. split; [done|]. by intros [[= ?] _].
Qed.

Definition completed_fields (scheduled next completed : Z) (error : string) : task_fields :=
  TaskFields next (Some (scheduled, completed, error)) None.

Lemma complete_script_doc name token scheduled next completed error f h : fields_ok f ->
  exact_range scheduled = true -> h !! name = Some (doc_of name f) -> token <> "" ->
  redisSchedulerStoreCompleteScript name token (Itoa scheduled) (Itoa next) (Itoa completed) error h =
    if decide (fields_token f = token /\ tf_next f = scheduled)
    then (<[name := doc_of name (completed_fields scheduled next completed error)]> h, inr 1) else (h, inr 0).
Proof.
  intros Hf Hs Hk Ht. unfold redisSchedulerStoreCompleteScript. rewrite Hk, script_accepts_doc by done.
  cbn [doc_of md_ReservationToken md_NextRunAt md_Name]. fold (fields_token f). destruct Hf as (Hn & _ & _).
  destruct (String.eqb_spec (fields_token f) token) as [E|E]; cbn [negb orb];
    [|by rewrite decide_False by (by intros [? _])].
  destruct (String.eqb_spec (Itoa (tf_next f)) (Itoa scheduled)) as [E'|E']; cbn [negb].
  - apply Itoa_inj in E'; [|by apply exact_range_int64..]. by rewrite decide_True by done.
  - rewrite decide_False by (intros [_ H]; by subst scheduled). done.
Qed.

Lemma Redis_Complete_effect ctx res next completed error store os h h' r :
  hash_ok h -> ValidString error = true -> perform os (Redis_Complete ctx res next completed error store) h = (h', r) ->
  effect (all_settled os) (tr_complete_task res next completed error) h h' r.
Proof.
  intros Hok Hu. unfold Redis_Complete. past_ready.
  destruct (_ || negb (After next completed)) eqn:Hg; [by intros [= <- <-]; apply effect_none|].
  past_time sv Hs. past_time nv Hn. past_time cv Hc.
  apply time_value in Hs as [-> Hs], Hn as [-> Hn], Hc as [-> Hc]. intros Hrun.
  assert (effect (all_settled os /\ @None goerror = None) (tr_complete_task res next completed error) h h' r) as [Hok' H].
  { eapply (one_statement_effect hash_ok _ redis_completion None os
      (fun a h h' => tr_complete_task res next completed error a (hash_view h) (hash_view h')) h h' r Hok
      redis_completion_ok); [|exact Hrun]. clear Hrun.
    destruct (h !! Name (sres_Task res)) as [m|] eqn:Hk.
    2: { left. unfold redisSchedulerStoreCompleteScript. rewrite Hk. by eexists. }
    destruct (hash_doc _ _ _ Hok Hk) as (Hname & f & Hf & ->).
    assert (completed < next) as Hlt by (unfold After in Hg; by bool_prop).
    assert (sres_Token res <> "") as Ht by (intros E; rewrite E in Hg; by bool_prop).
    rewrite (complete_script_doc _ _ _ _ _ _ f) by done. case_decide as Hcase; [right|left; by eexists].
    destruct Hcase as [Htok Hnx].
    assert (fields_ok (completed_fields (UnixMicro (NextRunAt (sres_Task res))) (UnixMicro next) (UnixMicro completed)
              (normalizeFileSchedulerStoreError error))) as Hf'.
    { split; [done|]. split; [|done]. split; [done|]. split; [done|].
      split; [by apply normalized_error_valid|apply normalizeFileSchedulerStoreError_length]. }
    eexists. split; [done|]. split; [by apply hash_ok_insert|]. split; [done|].
    exists (fields_state (Name (sres_Task res)) f). rewrite (hash_view_doc h _ f) by done. rewrite <- Htok.
    split; [done|]. unfold fields_state at 1. cbn [NextRunAt]. rewrite Hnx. split; [done|].
    rewrite hash_view_insert by done. unfold fields_state, fields_entry, completed_fields. cbn. by rewrite Hnx. }
  split; [done|]. destruct r as [[a| |]|]; [done|..]; (destruct H as [?|[Hn' ?]]; [by left|right]);
    (split; [|done]); intros ?; by apply Hn'.
Qed.

(** ** An instant between two microseconds *)

(** [now] and a lease that the guards of [Reserve] let through. *)
Definition reserve_args_ok (name : string) (now lease : Z) : bool :=
  validRedisScheduledTaskName name && negb (IsZero now) && (0 <? lease) && negb (IsZero (now + lease)) &&
  exact_range (UnixMicro now) && exact_range (UnixMicro (now + lease)).

Lemma exact_time_in_range zero range v : IsZero v = false -> exact_range (UnixMicro v) = true ->
  exact_time zero range v = Ok (Itoa (UnixMicro v)).
Proof.
  intros Hz Hr. unfold exact_time. rewrite Hz. rewrite exact_range_spec in Hr. by apply negb_true_iff in Hr as ->.
Qed.

(** [Reserve] past its guards is its script. *)
Lemma Redis_Reserve_script random name now lease s token :
  reserve_args_ok name now lease = true -> newSchedulerReservationToken random = Ok token ->
  Redis_Reserve random (Ctx None) name now lease (Some s) =
    Statement (redisSchedulerStoreReserveScript name (Itoa (UnixMicro now)) token (Itoa (UnixMicro (now + lease))))
      (fun a => match a with
                | inl err => Done (Err (redisSchedulerStoreError "reserve task" err))
                | inr reply => Done (reserved_reply name token (now + lease) reply)
                end).
Proof.
  intros Hargs Hr. unfold reserve_args_ok in Hargs. bool_prop. unfold Redis_Reserve. cbn [redis_task_ready].
  rewrite (proj2 (Z.leb_gt lease 0)) by done.
  repeat match goal with H : ?b = _ |- context [?b] => rewrite H end. cbn [negb orb].
  unfold redisSchedulerStoreTime. rewrite !exact_time_in_range by done. done.
Qed.

Lemma hash_view_inv h name t token : hash_ok h -> hash_view h !! name = Some (t, token) ->
  exists f, name_ok name /\ fields_ok f /\ h !! name = Some (doc_of name f) /\ t = fields_state name f /\ token = fields_token f.
Proof.
  intros Hok H. destruct (h !! name) as [m|] eqn:Hk; [|by rewrite hash_view_none in H].
  destruct (hash_doc _ _ _ Hok Hk) as (Hn & f & Hf & ->). exists f.
  rewrite (hash_view_doc h name f) in H by done. by injection H.
Qed.

Lemma reservable_fields name now f : fields_ok f -> task_reservable (FromUnixMicro now) (fields_entry name f) ->
  fields_free now f = true /\ (now <? tf_next f) = false.
Proof.
  intros (_ & _ & Hr) [Hdue Hfree]. unfold fields_entry, fields_state in Hdue. cbn [fst NextRunAt] in Hdue.
  apply (proj1 (FromUnixMicro_le _ _)), Z.ltb_ge in Hdue. split; [|done].
  unfold fields_free, fields_entry, fields_token, fields_state in *. cbn in Hfree.
  destruct (tf_lease f) as [[tok u]|]; [|done]. destruct Hfree as [?|Hfree]; [by destruct Hr|].
  apply (proj1 (FromUnixMicro_le _ _)) in Hfree. apply negb_true_iff. by apply Z.ltb_ge.
Qed.

(** C21. [RedisSchedulerStore.Reserve] writes the end of a lease in whole
    microseconds and compares what it reads back with the instant itself.  For a
    due task without a live lease, when [now] plus the lease is not a whole
    number of microseconds, the answered call fails with a mismatch although the
    task is left under the new lease; until that lease is over, every answered
    [Reserve] of the task says that it is reserved. *)
Theorem redis_reserve_loses_its_lease random name now lease s token os h t held :
  hash_ok h -> hash_view h !! name = Some (t, held) -> task_reservable (to_microseconds now) (t, held) ->
  reserve_args_ok name now lease = true -> newSchedulerReservationToken random = Ok token ->
  os O = Answered -> to_microseconds (now + lease) <> now + lease ->
  exists h', perform os (Redis_Reserve random (Ctx None) name now lease (Some s)) h = (h', Some (Err state_mismatch)) /\
    hash_view h' !! name = Some (with_lease t (to_microseconds (now + lease)), token) /\
    forall random' now' lease' os' token', reserve_args_ok name now' lease' = true ->
      newSchedulerReservationToken random' = Ok token' -> UnixMicro now' < UnixMicro (now + lease) -> os' O = Answered ->
      perform os' (Redis_Reserve random' (Ctx None) name now' lease' (Some s)) h' = (h', Some (Err ErrScheduledTaskReserved)).
Proof.
  intros Hok Hv Hres Hargs Hr Ho Hne. destruct (hash_view_inv _ _ _ _ Hok Hv) as (f & Hn & Hf & Hk & -> & ->).
  apply reservable_fields in Hres as [Hfree Hdue]; [|done].
  assert (forall n l, reserve_args_ok name n l = true -> exact_range (UnixMicro n) = true /\
    exact_range (UnixMicro (n + l)) = true) as Hex
    by (intros n l H; unfold reserve_args_ok in H; bool_prop; by split).
  pose proof (Hex _ _ Hargs) as [Hnow Huntil].
  pose proof (newSchedulerReservationToken_ok _ _ Hr) as [Htv Htl].
  pose (f' := reserved_fields token (UnixMicro (now + lease)) f).
  assert (fields_ok f') as Hf' by (destruct Hf as (? & ? & _); repeat split; try done; by intros ->).
  exists (<[name := doc_of name f']> h). split; [|split].
  - rewrite (Redis_Reserve_script _ _ _ _ _ token) by done. cbn [perform]. rewrite Ho. cbn [execute].
    rewrite (reserve_script_doc _ _ _ _ f), Hfree, Hdue by done. cbn [negb perform].
    rewrite reserved_reply_ok by done. unfold Equal. by rewrite (proj2 (Z.eqb_neq _ _) Hne).
  - rewrite hash_view_insert, lookup_insert_eq by done. done.
  - intros random' now' lease' os' token' Hargs' Hr' Hlt Ho'. pose proof (Hex _ _ Hargs') as [Hnow' _].
    rewrite (Redis_Reserve_script _ _ _ _ _ token') by done. cbn [perform]. rewrite Ho'. cbn [execute].
    rewrite (reserve_script_doc _ _ _ _ f') by (done || apply lookup_insert_eq).
    cbn [fields_free f' reserved_fields tf_lease]. by rewrite (proj2 (Z.ltb_lt _ _) Hlt).
Qed.

(** A task due at a microsecond, reserved for an hour 100 nanoseconds later. *)
Definition example_instant : Z := FromUnixMicro 1700000000000000.
Definition example_fields : task_fields := TaskFields 1700000000000000 None None.
Definition example_hash : task_hash := {["nightly" := doc_of "nightly" example_fields]}.
Definition example_random : result (nat -> Z) := Ok (fun n => Z.of_nat n).
Definition example_store : RedisSchedulerStore := MkRedisSchedulerStore "bridra:scheduler" ["{bridra:scheduler}:tasks"].

Lemma redis_reserve_loses_its_lease_witness : exists h',
  perform (fun _ => Answered)
    (Redis_Reserve example_random (Ctx None) "nightly" (example_instant + 100) (3600 * 1000000000) (Some example_store))
    example_hash = (h', Some (Err state_mismatch)).
Proof.
  assert (exists token, newSchedulerReservationToken example_random = Ok token) as [token Ht]
    by (eexists; vm_compute; reflexivity).
  assert (hash_ok example_hash) as Hok.
  { apply map_Forall_singleton. split; [by split; vm_compute|]. exists example_fields. by repeat split. }
  edestruct (redis_reserve_loses_its_lease example_random "nightly" (example_instant + 100) (3600 * 1000000000)
    example_store token (fun _ => Answered) example_hash (fields_state "nightly" example_fields) "" Hok) as (h' & H & _).
  - vm_compute. reflexivity.
  - split; [vm_compute; discriminate|by left].
  - vm_compute. reflexivity.
  - exact Ht.
  - reflexivity.
  - vm_compute. discriminate.
  - by exists h'.
Defined.
