(* ===== verification/RedisJobStore.v ===== *)
(** * The Redis job store: [backend/framework/redis_job_store.go]

    The contents of the five keys, each Lua script as a function of them, and
    the methods as programs of such statements.  A script that fails keeps what
    it wrote before. *)
From S2P Require Import Prelude GoTime GoStrings Json EventLog JobStore FileJobStore Statements Redis.
Open Scope Z_scope.
Open Scope go_scope.

Definition ErrInvalidRedisJobStoreOptions := ErrNew "framework: Redis job store options are invalid".
Definition defaultRedisJobStoreNamespace : string := "bridra:jobs".
Definition redisJobStoreMaxNamespaceBytes : Z := 256.
Definition redisJobStoreRecoveryBatch : nat := 128.
Definition redisJobStoreMaxExactTime : Z := max_exact.

Record RedisJobStoreOptions := MkRedisJobStoreOptions { ropt_Namespace : string; ropt_MaxPayloadBytes : Z }.
Definition DefaultRedisJobStoreOptions : RedisJobStoreOptions :=
  MkRedisJobStoreOptions defaultRedisJobStoreNamespace defaultFileJobStoreMaxPayloadBytes.

Record RedisJobStore := MkRedisJobStore {
  rjs_namespace : string;
  rjs_maxPayloadBytes : Z;
  rjs_keys : list string
}.

Definition normalizeRedisJobStoreOptions (options : RedisJobStoreOptions) : result RedisJobStoreOptions :=
  let defaults := DefaultRedisJobStoreOptions in
  let namespace := TrimSpace (ropt_Namespace options) in
  let namespace := if String.eqb namespace "" then ropt_Namespace defaults else namespace in
  let bytes := if ropt_MaxPayloadBytes options =? 0 then ropt_MaxPayloadBytes defaults
               else ropt_MaxPayloadBytes options in
  if negb (valid_namespace redisJobStoreMaxNamespaceBytes namespace) || (bytes <? 0)
  then Err ErrInvalidRedisJobStoreOptions else Ok (MkRedisJobStoreOptions namespace bytes).

(** [client] tells whether the client given is not nil. *)
Definition NewRedisJobStore (client : bool) (options : RedisJobStoreOptions) : result RedisJobStore :=
  if negb client then Err ErrJobStoreUnavailable else
  match normalizeRedisJobStoreOptions options with
  | Ok o =>
      let slot := "{" +:+ ropt_Namespace o +:+ "}" in
      Ok (MkRedisJobStore (ropt_Namespace o) (ropt_MaxPayloadBytes o)
            [slot +:+ ":records"; slot +:+ ":payloads"; slot +:+ ":ready"; slot +:+ ":reserved"; slot +:+ ":failed"])
  | Err err => Err err
  | Panicked m => Panicked m
  end.

(** ** Documents *)

Record redisStoredJobMetadata := JobDoc {
  jd_ID : string;
  jd_Handler : string;
  jd_AvailableAt : string;
  jd_EnqueuedAt : string;
  jd_Attempts : string;
  jd_ReadyMember : string;
  jd_ReservationToken : string;
  jd_ReservedUntil : string;
  jd_FailedAt : string;
  jd_LastError : string
}.

(** What [encoding/json] makes of the members' text. *)
Definition job_through_json (m : redisStoredJobMetadata) : redisStoredJobMetadata :=
  JobDoc (sanitize (jd_ID m)) (sanitize (jd_Handler m)) (sanitize (jd_AvailableAt m)) (sanitize (jd_EnqueuedAt m))
    (sanitize (jd_Attempts m)) (sanitize (jd_ReadyMember m)) (sanitize (jd_ReservationToken m))
    (sanitize (jd_ReservedUntil m)) (sanitize (jd_FailedAt m)) (sanitize (jd_LastError m)).

Definition redisJobStoreTime (value : Z) : result string :=
  exact_time "Redis job time is zero" "Redis job time exceeds exact score range" value.
Definition parseRedisJobStoreTime (value : string) : goerror + Z := parse_exact_time "invalid Redis job time" value.
Definition redisJobStoreError (operation : string) (err : goerror) : goerror :=
  errorf2 ErrJobStoreOperationFailed operation err.

(** [fmt.Sprintf("%016x", value)] of a [uint64]. *)
Definition hex16 (value : Z) : string :=
  hex_encode (map (fun i => Z.shiftr value (8 * (7 - Z.of_nat i)) mod 256) (seq 0 8)).
(** [uint64(v) ^ 1<<63]: the order of signed numbers as one of unsigned. *)
Definition redisJobStoreReadyMember (enqueuedAt : Z) (id : string) : string :=
  hex16 (Z.lxor (UnixMicro enqueuedAt mod 2 ^ 64) (2 ^ 63)) +:+ ":" +:+ id.

Definition newRedisStoredJobMetadata (job : StoredJob) : result redisStoredJobMetadata :=
  match redisJobStoreTime (AvailableAt job) with
  | Ok availableAt =>
      match redisJobStoreTime (EnqueuedAt job) with
      | Ok enqueuedAt =>
          Ok (JobDoc (ID job) (Handler job) availableAt enqueuedAt (Itoa (Attempts job))
                (redisJobStoreReadyMember (EnqueuedAt job) (ID job)) "" "" "" "")
      | _ => Err ErrJobStoreConflict
      end
  | _ => Err ErrJobStoreConflict
  end.

Definition decodeRedisStoredJob (encoded : redisStoredJobMetadata) (payload : string) (maxPayloadBytes : Z)
    : goerror + redisStoredJobMetadata * StoredJob :=
  let metadata := job_through_json encoded in
  match parseRedisJobStoreTime (jd_AvailableAt metadata) with
  | inl err => inl err
  | inr availableAt =>
      match parseRedisJobStoreTime (jd_EnqueuedAt metadata) with
      | inl err => inl err
      | inr enqueuedAt =>
          match Atoi (jd_Attempts metadata) with
          | None => inl (ErrNew "invalid Redis job attempt count")
          | Some attempts =>
              if attempts <? 0 then inl (ErrNew "invalid Redis job attempt count") else
              let job := MkStoredJob (jd_ID metadata) (jd_Handler metadata) payload availableAt enqueuedAt attempts in
              match validateStoredJob job maxPayloadBytes with
              | Ok _ =>
                  if negb (String.eqb (jd_ReadyMember metadata) (redisJobStoreReadyMember (EnqueuedAt job) (ID job)))
                  then inl (ErrNew "invalid Redis job ready member")
                  else inr (metadata, job)
              | Err err => inl err
              | Panicked m => inl (ErrNew m)
              end
          end
      end
  end.

(** ** The keys *)

Record job_keys := JobKeys {
  k_records : gmap string redisStoredJobMetadata;
  k_payloads : gmap string string;
  k_ready : zset;
  k_reserved : zset;
  k_failed : zset
}.
Abbreviation redis_call A := (db_call job_keys A).

(** The commands the scripts use. *)
Definition HSET_record (id : string) (m : redisStoredJobMetadata) (k : job_keys) : job_keys :=
  JobKeys (<[id := m]> (k_records k)) (k_payloads k) (k_ready k) (k_reserved k) (k_failed k).
Definition ZADD_ready (score : Z) (member : string) (k : job_keys) : job_keys :=
  JobKeys (k_records k) (k_payloads k) (<[member := score]> (k_ready k)) (k_reserved k) (k_failed k).
Definition ZREM_ready (member : string) (k : job_keys) : job_keys :=
  JobKeys (k_records k) (k_payloads k) (delete member (k_ready k)) (k_reserved k) (k_failed k).
Definition ZADD_reserved (score : Z) (id : string) (k : job_keys) : job_keys :=
  JobKeys (k_records k) (k_payloads k) (k_ready k) (<[id := score]> (k_reserved k)) (k_failed k).
Definition ZREM_reserved (id : string) (k : job_keys) : job_keys :=
  JobKeys (k_records k) (k_payloads k) (k_ready k) (delete id (k_reserved k)) (k_failed k).
Definition ZADD_failed (score : Z) (id : string) (k : job_keys) : job_keys :=
  JobKeys (k_records k) (k_payloads k) (k_ready k) (k_reserved k) (<[id := score]> (k_failed k)).
Definition ZREM_failed (id : string) (k : job_keys) : job_keys :=
  JobKeys (k_records k) (k_payloads k) (k_ready k) (k_reserved k) (delete id (k_failed k)).
Definition HDEL_job (id : string) (k : job_keys) : job_keys :=
  JobKeys (delete id (k_records k)) (delete id (k_payloads k)) (k_ready k) (k_reserved k) (k_failed k).

Definition is_empty (s : string) : bool := String.eqb s "".
Definition script_error (text : string) : goerror := ErrNew text.
Definition not_a_float : goerror := script_error "ERR value is not a valid float".

(** The documents the scripts write back. *)
Definition with_lease_doc (attempts token until : string) (m : redisStoredJobMetadata) : redisStoredJobMetadata :=
  JobDoc (jd_ID m) (jd_Handler m) (jd_AvailableAt m) (jd_EnqueuedAt m) attempts (jd_ReadyMember m) token until
    (jd_FailedAt m) (jd_LastError m).
Definition unreserved_doc (m : redisStoredJobMetadata) : redisStoredJobMetadata := with_lease_doc (jd_Attempts m) "" "" m.
Definition released_doc (availableAt lastError : string) (m : redisStoredJobMetadata) : redisStoredJobMetadata :=
  JobDoc (jd_ID m) (jd_Handler m) availableAt (jd_EnqueuedAt m) (jd_Attempts m) (jd_ReadyMember m) "" ""
    (jd_FailedAt m) lastError.
Definition failed_doc (failedAt lastError : string) (m : redisStoredJobMetadata) : redisStoredJobMetadata :=
  JobDoc (jd_ID m) (jd_Handler m) (jd_AvailableAt m) (jd_EnqueuedAt m) (jd_Attempts m) (jd_ReadyMember m) "" ""
    failedAt lastError.
Definition retried_doc (availableAt : string) (m : redisStoredJobMetadata) : redisStoredJobMetadata :=
  JobDoc (jd_ID m) (jd_Handler m) availableAt (jd_EnqueuedAt m) "0" (jd_ReadyMember m) "" "" "" "".

(** [string.sub(member, 18)]. *)
Fixpoint drop_bytes (n : nat) (s : string) : string :=
  match n, s with
  | S n, String _ r => drop_bytes n r
  | _, _ => s
  end.

(** ** Scripts

    [other_number] is what Redis and Lua read in a text that is not an integer
    they hold exactly, [other_count] what [tostring(tonumber(text) + 1)] is
    where [tostring] does not print the integer: beyond fourteen digits, or for
    a text that is not an integer; [None] where the count is refused. *)
Section Scripts.
Variables (other_number : string -> option Z) (other_count : string -> option string).

Definition number (text : string) : option Z :=
  match lua_integer text with
  | Some n => if exact_range n then Some n else other_number text
  | None => other_number text
  end.

Definition lua_count_limit : Z := 10 ^ 14 - 1.
Definition next_count (attempts : string) : option string :=
  match lua_integer attempts with
  | Some n => if n <? 0 then None else if n <? lua_count_limit then Some (Itoa (n + 1)) else other_count attempts
  | None => other_count attempts
  end.

(** A score given as text. *)
Definition ZADD_ready_text (score member : string) (k : job_keys) : job_keys * option goerror :=
  match number score with
  | Some s => (ZADD_ready s member k, None)
  | None => (k, Some not_a_float)
  end.

Definition redisJobStoreEnqueueScript (id : string) (encoded : redisStoredJobMetadata) (payload : string)
    (score member : string) (k : job_keys) : job_keys * (goerror + Z) :=
  if bool_decide (is_Some (k_records k !! id)) || bool_decide (is_Some (k_payloads k !! id)) then (k, inr 0)
  else
    let k := JobKeys (<[id := encoded]> (k_records k)) (<[id := payload]> (k_payloads k))
               (k_ready k) (k_reserved k) (k_failed k) in
    match ZADD_ready_text score member k with
    | (k, None) => (k, inr 1)
    | (k, Some err) => (k, inl err)
    end.

(** One identifier of the recovery loop. *)
Definition recover_one (now : Z) (id : string) (k : job_keys) : job_keys * option goerror :=
  match k_records k !! id with
  | None => (ZREM_reserved id k, None)
  | Some job =>
      if negb (is_empty (jd_FailedAt job)) then (k, Some (script_error "bridra: reserved job is failed"))
      else if is_empty (jd_ReservationToken job) then (ZREM_reserved id k, None)
      else match number (jd_ReservedUntil job) with
           | None => (k, Some (script_error "attempt to compare nil with number"))
           | Some until =>
               if until <=? now then
                 ZADD_ready_text (jd_AvailableAt job) (jd_ReadyMember job)
                   (ZREM_reserved id (HSET_record id (unreserved_doc job) k))
               else (k, None)
           end
  end.
Fixpoint recover_all (now : Z) (expired : list string) (k : job_keys) : job_keys * option goerror :=
  match expired with
  | [] => (k, None)
  | id :: expired =>
      match recover_one now id k with
      | (k, None) => recover_all now expired k
      | (k, Some err) => (k, Some err)
      end
  end.

(** The reply of the script: words, or a document and a payload. *)
Inductive job_reply :=
| JobWords (words : list string)
| JobReply (encoded : redisStoredJobMetadata) (payload : string).

(** The second half of the script: the first ready member. *)
Definition take_ready (now : Z) (token : string) (until : Z) (untilText : string) (recovered : nat) (batch : nat)
    (k : job_keys) : job_keys * (goerror + job_reply) :=
  let nothing := if Nat.eqb recovered batch then JobWords ["retry"] else JobWords [] in
  match zrange (k_ready k) with
  | [] => (k, inr nothing)
  | (member, score) :: _ =>
      if now <? score then (k, inr nothing)
      else
        let id := drop_bytes 17 member in
        match k_records k !! id, k_payloads k !! id with
        | Some job, Some payload =>
            if negb (String.eqb (jd_ID job) id) || negb (String.eqb (jd_ReadyMember job) member) ||
               negb (is_empty (jd_FailedAt job)) || negb (is_empty (jd_ReservationToken job))
            then (k, inl (script_error "bridra: ready job state is corrupt"))
            else match next_count (jd_Attempts job) with
                 | None => (k, inl (script_error "bridra: job attempt count is corrupt"))
                 | Some attempts =>
                     let encoded := with_lease_doc attempts token untilText job in
                     (ZADD_reserved until id (ZREM_ready member (HSET_record id encoded k)),
                      inr (JobReply encoded payload))
                 end
        | _, _ => (k, inl (script_error "bridra: ready job data is missing"))
        end
  end.

(** [now] and [until] are integers of the exact range, as the caller's texts
    of them say. *)
Definition redisJobStoreReserveScript (now : Z) (token : string) (until : Z) (untilText : string) (batch : nat)
    (k : job_keys) : job_keys * (goerror + job_reply) :=
  let expired := zrangebyscore (k_reserved k) now batch in
  match recover_all now expired k with
  | (k, Some err) => (k, inl err)
  | (k, None) => take_ready now token until untilText (length expired) batch k
  end.

(** The scripts that need the record of a job and its reservation. *)
Definition with_reserved_job (id token : string) (k : job_keys)
    (f : redisStoredJobMetadata -> job_keys * (goerror + Z)) : job_keys * (goerror + Z) :=
  match k_records k !! id with
  | None => (k, inr 0)
  | Some job => if negb (String.eqb (jd_ReservationToken job) token) then (k, inr 0) else f job
  end.

Definition redisJobStoreReleaseScript (id token : string) (available : Z) (availableText lastError : string)
    (k : job_keys) : job_keys * (goerror + Z) :=
  with_reserved_job id token k (fun job =>
    (ZADD_ready available (jd_ReadyMember job)
       (ZREM_reserved id (HSET_record id (released_doc availableText lastError job) k)), inr 1)).

Definition remove_job (id : string) (job : redisStoredJobMetadata) (k : job_keys) : job_keys :=
  ZREM_failed id (ZREM_reserved id (ZREM_ready (jd_ReadyMember job) (HDEL_job id k))).

Definition redisJobStoreCompleteScript (id token : string) (k : job_keys) : job_keys * (goerror + Z) :=
  with_reserved_job id token k (fun job => (remove_job id job k, inr 1)).

Definition redisJobStoreFailScript (id token : string) (failedAt : Z) (failedText lastError : string)
    (k : job_keys) : job_keys * (goerror + Z) :=
  with_reserved_job id token k (fun job =>
    (ZADD_failed failedAt id
       (ZREM_reserved id
          (ZREM_ready (jd_ReadyMember job) (HSET_record id (failed_doc failedText lastError job) k))), inr 1)).

Fixpoint failed_data (ids : list string) (k : job_keys) : goerror + list (redisStoredJobMetadata * string) :=
  match ids with
  | [] => inr []
  | id :: ids =>
      match k_records k !! id, k_payloads k !! id with
      | Some encoded, Some payload =>
          match failed_data ids k with inr l => inr ((encoded, payload) :: l) | inl err => inl err end
      | _, _ => inl (script_error "bridra: failed job data is missing")
      end
  end.
Definition redisJobStoreFailedJobsScript (k : job_keys)
    : job_keys * (goerror + list (redisStoredJobMetadata * string)) :=
  (k, failed_data (zrange (k_failed k)).*1 k).

Definition with_failed_job (id : string) (k : job_keys)
    (f : redisStoredJobMetadata -> job_keys * (goerror + Z)) : job_keys * (goerror + Z) :=
  match k_records k !! id with
  | None => (k, inr 0)
  | Some job => if is_empty (jd_FailedAt job) then (k, inr 0) else f job
  end.

Definition redisJobStoreRetryFailedScript (id : string) (available : Z) (availableText : string)
    (k : job_keys) : job_keys * (goerror + Z) :=
  with_failed_job id k (fun job =>
    (ZADD_ready available (jd_ReadyMember job)
       (ZREM_failed id (HSET_record id (retried_doc availableText job) k)), inr 1)).

Definition redisJobStoreForgetFailedScript (id : string) (k : job_keys) : job_keys * (goerror + Z) :=
  with_failed_job id k (fun job => (remove_job id job k, inr 1)).

(** ** Methods *)

Definition redis_ready {A} (store : option RedisJobStore) (ctx : context) (f : RedisJobStore -> redis_call A)
    : redis_call A :=
  match store with
  | None => Done (Err ErrJobStoreUnavailable)
  | Some s =>
      match ctx with
      | NilContext => Done (Err ErrJobContextUnavailable)
      | Ctx (Some err) => Done (Err err)
      | Ctx None => f s
      end
  end.

Definition validateRedisReservation (reservation : JobReservation) : result unit :=
  if is_empty (ID (res_Job reservation)) || is_empty (res_Token reservation)
  then Err ErrJobReservationInvalid else Ok tt.

(** An instant that the call needs in both forms, or the error [err]. *)
Definition with_time {A} (value : Z) (err : goerror -> goerror) (f : Z -> string -> redis_call A) : redis_call A :=
  match redisJobStoreTime value with
  | Ok text => f (UnixMicro value) text
  | Err e => Done (Err (err e))
  | Panicked m => Done (Panicked m)
  end.

Definition redis_requireOne (script : job_keys -> job_keys * (goerror + Z)) (operation : string) (zeroError : goerror)
    : redis_call unit :=
  Statement script (fun a =>
    match a with
    | inl err => Done (Err (redisJobStoreError operation err))
    | inr r =>
        if r =? 0 then Done (Err zeroError)
        else if negb (r =? 1) then Done (Err (redisJobStoreError operation (ErrNew ("result " +:+ Itoa r))))
        else Done (Ok tt)
    end).

Definition Redis_Enqueue (ctx : context) (job : StoredJob) (store : option RedisJobStore) : redis_call unit :=
  redis_ready store ctx (fun s =>
    match validateStoredJob job (rjs_maxPayloadBytes s) with
    | Ok _ =>
        match newRedisStoredJobMetadata job with
        | Ok metadata =>
            redis_requireOne
              (redisJobStoreEnqueueScript (ID job) (job_through_json metadata) (Payload job)
                 (jd_AvailableAt metadata) (jd_ReadyMember metadata)) "enqueue job" ErrJobStoreConflict
        | Err err => Done (Err err)
        | Panicked m => Done (Panicked m)
        end
    | Err err => Done (Err err)
    | Panicked m => Done (Panicked m)
    end).

(** One turn of the loop of [Reserve]: [ctx.Err()] and [crypto/rand]. *)
Record redis_turn := RedisTurn {
  rturn_ctx : option goerror;
  rturn_random : result (nat -> Z)
}.

Definition reserved_job (token untilText : string) (reservedUntil maxPayloadBytes : Z)
    (encoded : redisStoredJobMetadata) (payload : string) : result JobReservation :=
  match decodeRedisStoredJob encoded payload maxPayloadBytes with
  | inl err => Err (redisJobStoreError "decode reserved job" err)
  | inr (metadata, job) =>
      if negb (String.eqb (jd_ReservationToken metadata) token) ||
         negb (String.eqb (jd_ReservedUntil metadata) untilText)
      then Err (redisJobStoreError "decode reserved job" (ErrNew "reservation state does not match"))
      else Ok (MkJobReservation job token reservedUntil)
  end.

Fixpoint redis_reserve_loop (turns : list redis_turn) (now until : Z) (untilText : string) (reservedUntil : Z)
    (s : RedisJobStore) : redis_call JobReservation :=
  match turns with
  | [] => Unfinished
  | turn :: turns =>
      match rturn_ctx turn with
      | Some err => Done (Err err)
      | None =>
          match newJobIdentifier (rturn_random turn) with
          | Err err => Done (Err err)
          | Panicked m => Done (Panicked m)
          | Ok token =>
              Statement (redisJobStoreReserveScript now token until untilText redisJobStoreRecoveryBatch) (fun a =>
                match a with
                | inl err => Done (Err (redisJobStoreError "reserve job" err))
                | inr (JobWords []) => Done (Err ErrJobStoreEmpty)
                | inr (JobWords words) =>
                    if bool_decide (words = ["retry"])
                    then redis_reserve_loop turns now until untilText reservedUntil s
                    else Done (Err (redisJobStoreError "reserve job"
                                 (ErrNew ("returned " +:+ Itoa (Z.of_nat (length words)) +:+ " values"))))
                | inr (JobReply encoded payload) =>
                    Done (reserved_job token untilText reservedUntil (rjs_maxPayloadBytes s) encoded payload)
                end)
          end
      end
  end.

Definition Redis_Reserve_job (turns : list redis_turn) (ctx : context) (now lease : Z) (store : option RedisJobStore)
    : redis_call JobReservation :=
  redis_ready store ctx (fun s =>
    if IsZero now || (lease <=? 0) then Done (Err ErrJobReservationInvalid)
    else
      let reservedUntil := now + lease in
      with_time now (fun _ => ErrJobReservationInvalid) (fun now _ =>
      with_time reservedUntil (fun _ => ErrJobReservationInvalid) (fun until untilText =>
        redis_reserve_loop turns now until untilText reservedUntil s))).

(** The check of a reservation comes before that of the store. *)
Definition with_reservation {A} (reservation : JobReservation) (k : redis_call A) : redis_call A :=
  match validateRedisReservation reservation with Ok _ => k | Err err => Done (Err err) | Panicked m => Done (Panicked m) end.

Definition Redis_Release (ctx : context) (reservation : JobReservation) (availableAt : Z) (lastError : string)
    (store : option RedisJobStore) : redis_call unit :=
  if IsZero availableAt then Done (Err ErrJobReservationInvalid) else
  with_reservation reservation (redis_ready store ctx (fun _ =>
    with_time availableAt (fun _ => ErrJobReservationInvalid) (fun available availableText =>
      redis_requireOne
        (redisJobStoreReleaseScript (ID (res_Job reservation)) (res_Token reservation) available availableText
           (normalizeFileJobStoreError lastError)) "release job" ErrJobReservationInvalid))).

Definition Redis_Complete_job (ctx : context) (reservation : JobReservation) (store : option RedisJobStore)
    : redis_call unit :=
  with_reservation reservation (redis_ready store ctx (fun _ =>
    redis_requireOne (redisJobStoreCompleteScript (ID (res_Job reservation)) (res_Token reservation))
      "complete job" ErrJobReservationInvalid)).

(** [clock] is [time.Now()], after the zero time. *)
Definition Redis_Fail (clock : positive) (ctx : context) (reservation : JobReservation) (lastError : string)
    (store : option RedisJobStore) : redis_call unit :=
  with_reservation reservation (redis_ready store ctx (fun _ =>
    with_time (Z.pos clock) (redisJobStoreError "fail job") (fun failed failedText =>
      redis_requireOne
        (redisJobStoreFailScript (ID (res_Job reservation)) (res_Token reservation) failed failedText
           (normalizeFileJobStoreError lastError)) "fail job" ErrJobReservationInvalid))).

Fixpoint decode_failed (l : list (redisStoredJobMetadata * string)) (maxPayloadBytes : Z) : result (list FailedStoredJob) :=
  match l with
  | [] => Ok []
  | (encoded, payload) :: l =>
      match decodeRedisStoredJob encoded payload maxPayloadBytes with
      | inl err => Err (redisJobStoreError "decode failed job" err)
      | inr (metadata, job) =>
          match parseRedisJobStoreTime (jd_FailedAt metadata) with
          | inl err => Err (redisJobStoreError "decode failed job" err)
          | inr failedAt =>
              match decode_failed l maxPayloadBytes with
              | Ok failed => Ok (MkFailedStoredJob job failedAt (jd_LastError metadata) :: failed)
              | Err err => Err err
              | Panicked m => Panicked m
              end
          end
      end
  end.

Definition Redis_FailedJobs (ctx : context) (store : option RedisJobStore) : redis_call (list FailedStoredJob) :=
  redis_ready store ctx (fun s =>
    Statement redisJobStoreFailedJobsScript (fun a =>
      match a with
      | inl err => Done (Err (redisJobStoreError "query failed jobs" err))
      | inr l => Done (decode_failed l (rjs_maxPayloadBytes s))
      end)).

Definition Redis_RetryFailed (ctx : context) (id : string) (availableAt : Z) (store : option RedisJobStore)
    : redis_call unit :=
  if is_empty id || IsZero availableAt then Done (Err ErrJobStoreConflict) else
  redis_ready store ctx (fun _ =>
    with_time availableAt (fun _ => ErrJobStoreConflict) (fun available availableText =>
      redis_requireOne (redisJobStoreRetryFailedScript id available availableText)
        "retry failed job" ErrJobStoreConflict)).

Definition Redis_ForgetFailed (ctx : context) (id : string) (store : option RedisJobStore) : redis_call unit :=
  if is_empty id then Done (Err ErrJobStoreConflict) else
  redis_ready store ctx (fun _ =>
    redis_requireOne (redisJobStoreForgetFailedScript id) "forget failed job" ErrJobStoreConflict).
End Scripts.
