(* ===== verification/RedisJobStoreFacts.v ===== *)
(** * The Redis job store: keys that agree, and what the scripts do to them

    The five keys hold one finite map: the jobs with their status
    ([job_map]).  The records and the payloads are columns of it, the three
    sorted sets are indexes: of the waiting jobs by available time, of the
    reserved ones by the end of their lease, of the failed ones by the time of
    the failure ([agrees]).  Every script keeps that and makes one transition of
    the map. *)
From S2P Require Import Prelude GoTime GoStrings Json EventLog JobStore FileJobStore FileJobStoreFacts Statements Redis RedisJobStore.
Open Scope Z_scope.
Open Scope go_scope.

(** ** The order of ready members

    The ready set orders the jobs of one instant by the bytes of their members,
    sixteen hexadecimal digits and the identifier: that is the order of the
    signed enqueue times and then of the identifiers. *)

Definition after_cmp (c d : comparison) : comparison := match c with Eq => d | Lt => Lt | Gt => Gt end.

(** Digits compare like their values: by trying all of them. *)
Lemma hex_char_compare x y : 0 <= x < 16 -> 0 <= y < 16 -> Ascii.compare (hex_char x) (hex_char y) = (x ?= y).
Proof.
  intros Hx Hy.
  assert (forallb (fun a => forallb (fun b => bool_decide (Ascii.compare (hex_char (Z.of_nat a)) (hex_char (Z.of_nat b)) =
    (Z.of_nat a ?= Z.of_nat b))) (seq 0 16)) (seq 0 16) = true) as H by (vm_compute; reflexivity).
  rewrite forallb_forall in H. specialize (H (Z.to_nat x)). rewrite forallb_forall in H.
  assert (forall z, 0 <= z < 16 -> In (Z.to_nat z) (seq 0 16)) as Hin by (intros z Hz; apply in_seq; lia).
  specialize (H (Hin x Hx) (Z.to_nat y) (Hin y Hy)). apply bool_decide_eq_true in H. by rewrite !Z2Nat.id in H by lia.
Qed.

Lemma hex_byte_compare a b s t : 0 <= a < 256 -> 0 <= b < 256 ->
  String.compare (hex_byte a +:+ s) (hex_byte b +:+ t) = after_cmp (a ?= b) (String.compare s t).
Proof.
  intros Ha Hb. unfold hex_byte. rewrite !(Z.mod_small _ 256) by lia.
  change (after_cmp (Ascii.compare (hex_char (a / 16)) (hex_char (b / 16)))
    (after_cmp (Ascii.compare (hex_char (a mod 16)) (hex_char (b mod 16))) (String.compare s t)) =
    after_cmp (a ?= b) (String.compare s t)).
  rewrite !hex_char_compare by (split; [apply Z.div_pos || apply Z.mod_pos_bound; lia|
    apply Z.div_lt_upper_bound || apply Z.mod_pos_bound; lia]).
  pose proof (Z.div_mod a 16 ltac:(lia)). pose proof (Z.div_mod b 16 ltac:(lia)).
  pose proof (Z.mod_pos_bound a 16 ltac:(lia)). pose proof (Z.mod_pos_bound b 16 ltac:(lia)).
  destruct (Z.compare_spec (a / 16) (b / 16)), (Z.compare_spec (a mod 16) (b mod 16)), (Z.compare_spec a b);
    cbn [after_cmp]; try done; exfalso; nia.
Qed.

(** The number that bytes stand for, the most significant one first. *)
Fixpoint bytes_value (l : list Z) : Z :=
  match l with [] => 0 | b :: l => b * 256 ^ Z.of_nat (length l) + bytes_value l end.

Lemma bytes_value_bound l : Forall (fun b => 0 <= b < 256) l -> 0 <= bytes_value l < 256 ^ Z.of_nat (length l).
Proof.
  induction 1 as [|b l Hb _ IH]; [cbn; lia|]. cbn [bytes_value length]. rewrite Nat2Z.inj_succ, Z.pow_succ_r by lia. nia.
Qed.

Lemma hex_encode_compare l l' s t : length l = length l' -> Forall (fun b => 0 <= b < 256) l ->
  Forall (fun b => 0 <= b < 256) l' ->
  String.compare (hex_encode l +:+ s) (hex_encode l' +:+ t) =
    after_cmp (bytes_value l ?= bytes_value l') (String.compare s t).
Proof.
  intros Hl H. revert l' Hl. induction H as [|b l Hb Hf IH]; intros [|b' l'] Hl H'; [done..|].
  apply Forall_cons in H' as [Hb' Hf']. injection Hl as Hl.
  change (hex_encode (b :: l)) with (hex_byte b +:+ hex_encode l).
  change (hex_encode (b' :: l')) with (hex_byte b' +:+ hex_encode l').
  change ((hex_byte b +:+ hex_encode l) +:+ s) with (hex_byte b +:+ (hex_encode l +:+ s)).
  change ((hex_byte b' +:+ hex_encode l') +:+ t) with (hex_byte b' +:+ (hex_encode l' +:+ t)).
  rewrite hex_byte_compare, IH by done. cbn [bytes_value]. rewrite Hl.
  pose proof (bytes_value_bound l Hf) as B1. pose proof (bytes_value_bound l' Hf') as B2. rewrite Hl in B1.
  set (p := 256 ^ Z.of_nat (length l')) in *.
  destruct (Z.compare_spec b b'), (Z.compare_spec (bytes_value l) (bytes_value l')),
    (Z.compare_spec (b * p + bytes_value l) (b' * p + bytes_value l')); cbn [after_cmp]; try done; exfalso; nia.
Qed.

Lemma hex16_bytes v : 0 <= v < 2 ^ 64 ->
  bytes_value (map (fun i => Z.shiftr v (8 * (7 - Z.of_nat i)) mod 256) (seq 0 8)) = v.
Proof.
  intros Hv. cbn [seq map bytes_value length].
  rewrite !Z.shiftr_div_pow2 by lia.
  change (2 ^ (8 * (7 - Z.of_nat 0))) with (256 * (256 * (256 * (256 * (256 * (256 * 256)))))).
  change (2 ^ (8 * (7 - Z.of_nat 1))) with (256 * (256 * (256 * (256 * (256 * 256))))).
  change (2 ^ (8 * (7 - Z.of_nat 2))) with (256 * (256 * (256 * (256 * 256)))).
  change (2 ^ (8 * (7 - Z.of_nat 3))) with (256 * (256 * (256 * 256))).
  change (2 ^ (8 * (7 - Z.of_nat 4))) with (256 * (256 * 256)).
  change (2 ^ (8 * (7 - Z.of_nat 5))) with (256 * 256).
  change (2 ^ (8 * (7 - Z.of_nat 6))) with 256. change (2 ^ (8 * (7 - Z.of_nat 7))) with 1.
  rewrite Z.div_1_r. rewrite <- !Z.div_div by lia.
  repeat match goal with |- context [?x mod 256] => rewrite (Z.mod_eq x 256) by lia end.
  assert (v / 256 / 256 / 256 / 256 / 256 / 256 / 256 < 256) as Hq.
  { rewrite !Z.div_div by lia. apply Z.div_lt_upper_bound; lia. }
  assert (0 <= v / 256 / 256 / 256 / 256 / 256 / 256 / 256) as Hq0 by (rewrite !Z.div_div by lia; apply Z.div_pos; lia).
  rewrite (Z.div_small (v / 256 / 256 / 256 / 256 / 256 / 256 / 256) 256) by lia.
  change (256 ^ Z.of_nat 7) with (256 * (256 * (256 * (256 * (256 * (256 * 256)))))). change (256 ^ Z.of_nat 6) with (256 * (256 * (256 * (256 * (256 * 256))))).
  change (256 ^ Z.of_nat 5) with (256 * (256 * (256 * (256 * 256)))). change (256 ^ Z.of_nat 4) with (256 * (256 * (256 * 256))).
  change (256 ^ Z.of_nat 3) with (256 * (256 * 256)). change (256 ^ Z.of_nat 2) with (256 * 256).
  change (256 ^ Z.of_nat 1) with 256. change (256 ^ Z.of_nat 0) with 1. lia.
Qed.

(** The sign bit turned: an unsigned number in the order of the signed ones. *)
Lemma flipped_sign n : in_int64 n -> Z.lxor (n mod 2 ^ 64) (2 ^ 63) = n + 2 ^ 63.
Proof.
  unfold in_int64, int64_min, int64_max. intros Hn.
  assert (forall x, 0 <= x < 2 ^ 63 -> Z.lxor x (2 ^ 63) = x + 2 ^ 63) as Hx.
  { intros x Hx. symmetry. apply Z.add_nocarry_lxor. apply Z.bits_inj'. intros i Hi. rewrite Z.land_spec, Z.bits_0.
    destruct (Z.eq_dec i 63) as [->|Hne].
    - destruct (Z.eq_dec x 0) as [->|]; [done|]. rewrite (Z.bits_above_log2 x) by (try lia; apply Z.log2_lt_pow2; lia). done.
    - rewrite (Z.pow2_bits_false 63 i) by lia. by rewrite andb_false_r. }
  destruct (Z.lt_ge_cases n 0) as [Hneg|Hpos].
  - replace (n mod 2 ^ 64) with ((n + 2 ^ 63) + 2 ^ 63).
    2: { symmetry. replace n with ((n + 2 ^ 64) + (-1) * 2 ^ 64) at 1 by lia. rewrite Z.mod_add, Z.mod_small by lia. lia. }
    rewrite <- Hx by lia. by rewrite Z.lxor_assoc, Z.lxor_nilpotent, Z.lxor_0_r.
  - rewrite Z.mod_small by lia. apply Hx. lia.
Qed.

Lemma ready_member_compare a b id id' : in_int64 (UnixMicro a) -> in_int64 (UnixMicro b) ->
  String.compare (redisJobStoreReadyMember a id) (redisJobStoreReadyMember b id') =
    after_cmp (UnixMicro a ?= UnixMicro b) (String.compare id id').
Proof.
  intros Ha Hb. unfold redisJobStoreReadyMember. rewrite !flipped_sign by done. unfold in_int64, int64_min, int64_max in *.
  unfold hex16. rewrite hex_encode_compare.
  - rewrite !hex16_bytes by lia.
    change (String.compare (":" +:+ id) (":" +:+ id')) with (String.compare id id').
    destruct (Z.compare_spec (UnixMicro a) (UnixMicro b)), (Z.compare_spec (UnixMicro a + 2 ^ 63) (UnixMicro b + 2 ^ 63));
      try lia; done.
  - by rewrite !length_map, !length_seq.
  - apply Forall_map, Forall_true. intros i. apply Z.mod_pos_bound. lia.
  - apply Forall_map, Forall_true. intros i. apply Z.mod_pos_bound. lia.
Qed.

(** Members are in the order of enqueue time and identifier. *)
Lemma ready_member_le a b id id' : in_int64 (UnixMicro a) -> in_int64 (UnixMicro b) ->
  String.le (redisJobStoreReadyMember a id) (redisJobStoreReadyMember b id') <->
    UnixMicro a < UnixMicro b \/ (UnixMicro a = UnixMicro b /\ String.le id id').
Proof.
  intros Ha Hb. unfold String.le, String.leb. rewrite ready_member_compare by done.
  destruct (Z.compare_spec (UnixMicro a) (UnixMicro b)); cbn [after_cmp]; split; try (intros _; left; lia); try done;
    [intros H'; right; by split|intros [?|[_ ?]]; [lia|done]|intros [?|[? _]]; lia].
Qed.

(** ** The jobs behind the keys *)

Inductive redis_status :=
| RWaiting
| RReserved (token : string) (until : Z)
| RFailed (at_ : Z).
#[export] Instance redis_status_eq_dec : EqDecision redis_status.
Proof. solve_decision. Defined.

Record job_fields := JobFields {
  jf_handler : string;
  jf_payload : string;
  jf_available : Z;
  jf_enqueued : Z;
  jf_attempts : string;
  jf_status : redis_status;
  jf_error : string
}.
Abbreviation job_map := (gmap string job_fields).

Definition ready_member (id : string) (f : job_fields) : string :=
  redisJobStoreReadyMember (FromUnixMicro (jf_enqueued f)) id.
Definition status_token (s : redis_status) : string := match s with RReserved token _ => token | _ => "" end.
Definition status_until (s : redis_status) : string := match s with RReserved _ u => Itoa u | _ => "" end.
Definition status_failed (s : redis_status) : string := match s with RFailed at_ => Itoa at_ | _ => "" end.
Definition job_doc (id : string) (f : job_fields) : redisStoredJobMetadata :=
  JobDoc id (jf_handler f) (Itoa (jf_available f)) (Itoa (jf_enqueued f)) (jf_attempts f) (ready_member id f)
    (status_token (jf_status f)) (status_until (jf_status f)) (status_failed (jf_status f)) (jf_error f).

Definition with_status (s : redis_status) (f : job_fields) : job_fields :=
  JobFields (jf_handler f) (jf_payload f) (jf_available f) (jf_enqueued f) (jf_attempts f) s (jf_error f).
Definition with_count (attempts : string) (f : job_fields) : job_fields :=
  JobFields (jf_handler f) (jf_payload f) (jf_available f) (jf_enqueued f) attempts (jf_status f) (jf_error f).
Definition with_error (error : string) (f : job_fields) : job_fields :=
  JobFields (jf_handler f) (jf_payload f) (jf_available f) (jf_enqueued f) (jf_attempts f) (jf_status f) error.
Definition available_from (available : Z) (f : job_fields) : job_fields :=
  JobFields (jf_handler f) (jf_payload f) available (jf_enqueued f) (jf_attempts f) (jf_status f) (jf_error f).

Definition status_ok (s : redis_status) : Prop :=
  match s with
  | RWaiting => True
  | RReserved token u => token <> "" /\ exact_range u = true
  | RFailed at_ => exact_range at_ = true
  end.
Definition job_fields_ok (f : job_fields) : Prop :=
  exact_range (jf_available f) = true /\ exact_range (jf_enqueued f) = true /\ status_ok (jf_status f).

(** ** The indexes *)
Definition ready_entry (m : job_map) (member : string) : option Z :=
  f ← m !! drop_bytes 17 member;
  if decide (jf_status f = RWaiting /\ member = ready_member (drop_bytes 17 member) f) then Some (jf_available f) else None.
Definition reserved_entry (f : job_fields) : option Z := match jf_status f with RReserved _ u => Some u | _ => None end.
Definition failed_entry (f : job_fields) : option Z := match jf_status f with RFailed at_ => Some at_ | _ => None end.

Record agrees (k : job_keys) (m : job_map) : Prop := {
  agrees_records id : k_records k !! id = job_doc id <$> m !! id;
  agrees_payloads id : k_payloads k !! id = jf_payload <$> m !! id;
  agrees_ready member : k_ready k !! member = ready_entry m member;
  agrees_reserved id : k_reserved k !! id = m !! id ≫= reserved_entry;
  agrees_failed id : k_failed k !! id = m !! id ≫= failed_entry;
  agrees_ok : map_Forall (fun _ => job_fields_ok) m;
  agrees_ids id : is_Some (m !! id) -> validJobIdentifier id = true
}.

(** ** Ready members *)

Lemma hex16_length n : string_length (hex16 n) = 16.
Proof. unfold hex16. by destruct (hex_encode_spec (map (fun i => Z.shiftr n (8 * (7 - Z.of_nat i)) mod 256) (seq 0 8))) as [-> _]. Qed.

Lemma drop_bytes_app s t : drop_bytes (String.length s) (s +:+ t) = t.
Proof. induction s as [|c s IH]; [by destruct t|]. apply IH. Qed.

Lemma member_id enqueued id : drop_bytes 17 (redisJobStoreReadyMember enqueued id) = id.
Proof.
  unfold redisJobStoreReadyMember. set (h := hex16 _).
  assert (String.length (h +:+ ":") = 17%nat) as Hl.
  { pose proof (hex16_length (Z.lxor (UnixMicro enqueued mod 2 ^ 64) (2 ^ 63))) as H. fold h in H.
    pose proof (string_length_nat (h +:+ ":")) as Hn. rewrite string_length_app, H in Hn. change (string_length ":") with 1 in Hn. lia. }
  rewrite <- Hl. replace (h +:+ ":" +:+ id) with ((h +:+ ":") +:+ id); [apply drop_bytes_app|].
  clear. induction h as [|c h IH]; [done|]. change (String c ((h +:+ ":") +:+ id) = String c (h +:+ ":" +:+ id)). by rewrite IH.
Qed.

Lemma ready_member_id id f : drop_bytes 17 (ready_member id f) = id.
Proof. apply member_id. Qed.

Lemma ready_member_inj id id' f f' : ready_member id f = ready_member id' f' -> id = id'.
Proof. intros H. apply (f_equal (drop_bytes 17)) in H. by rewrite !ready_member_id in H. Qed.

(** A member belongs to one job. *)
Lemma ready_entry_insert_ne m id f member : drop_bytes 17 member <> id -> ready_entry (<[id := f]> m) member = ready_entry m member.
Proof. intros H. unfold ready_entry. by rewrite lookup_insert_ne by done. Qed.
Lemma ready_entry_delete_ne m id member : drop_bytes 17 member <> id -> ready_entry (delete id m) member = ready_entry m member.
Proof. intros H. unfold ready_entry. by rewrite lookup_delete_ne by done. Qed.

Lemma ready_entry_some m member s : ready_entry m member = Some s <->
  exists id f, m !! id = Some f /\ jf_status f = RWaiting /\ member = ready_member id f /\ s = jf_available f.
Proof.
  unfold ready_entry. split.
  - destruct (m !! drop_bytes 17 member) as [f|] eqn:E; [|done]. cbn. case_decide as H; [|done]. intros [= <-].
    destruct H. by eexists _, f.
  - intros (id & f & Hk & Hs & -> & ->). rewrite ready_member_id, Hk. cbn. by rewrite decide_True by done.
Qed.

(** ** Changing one job *)

Definition ready_of (f : job_fields) : option Z := if decide (jf_status f = RWaiting) then Some (jf_available f) else None.

Lemma ready_entry_insert m id f member : (forall g, m !! id = Some g -> ready_member id g = ready_member id f) ->
  ready_entry (<[id := f]> m) member = if decide (member = ready_member id f) then ready_of f else ready_entry m member.
Proof.
  intros Hm. unfold ready_of. destruct (decide (drop_bytes 17 member = id)) as [Hid|Hid].
  - unfold ready_entry. rewrite Hid, lookup_insert_eq. cbn [mbind option_bind].
    destruct (decide (member = ready_member id f)) as [E|E].
    + destruct (decide (jf_status f = RWaiting)); [by rewrite decide_True|]. by rewrite decide_False by (by intros [? _]).
    + rewrite (decide_False (P := _ /\ member = ready_member id f)) by (intros [_ ?]; by apply E).
      destruct (m !! id) as [g|] eqn:Hg; [|done]. cbn [mbind option_bind]. rewrite decide_False; [done|].
      intros [_ H]. apply E. rewrite H. by apply Hm.
  - rewrite ready_entry_insert_ne by done. rewrite decide_False; [done|]. intros ->. by rewrite ready_member_id in Hid.
Qed.

Lemma ready_entry_member m id f : m !! id = Some f -> ready_entry m (ready_member id f) = ready_of f.
Proof.
  intros Hk. rewrite <- (insert_id m id f Hk), ready_entry_insert, decide_True by (done || intros g Hg; congruence). done.
Qed.

(** The keys after job [id] became [f']. *)
Lemma agrees_insert k k' m id f' : agrees k m -> job_fields_ok f' ->
  (m !! id = None -> validJobIdentifier id = true) ->
  (forall g, m !! id = Some g -> ready_member id g = ready_member id f') ->
  (forall i, k_records k' !! i = if decide (i = id) then Some (job_doc id f') else k_records k !! i) ->
  (forall i, k_payloads k' !! i = if decide (i = id) then Some (jf_payload f') else k_payloads k !! i) ->
  (forall member, k_ready k' !! member =
     if decide (member = ready_member id f') then ready_of f' else k_ready k !! member) ->
  (forall i, k_reserved k' !! i = if decide (i = id) then reserved_entry f' else k_reserved k !! i) ->
  (forall i, k_failed k' !! i = if decide (i = id) then failed_entry f' else k_failed k !! i) ->
  agrees k' (<[id := f']> m).
Proof.
  intros [Hr Hp Hy Hv Hf Hok Hids] Hok' Hid Hm H1 H2 H3 H4 H5. split.
  1, 2, 4, 5: intros i; destruct (decide (i = id)) as [->|Hne];
    [rewrite lookup_insert_eq; first [rewrite H1|rewrite H2|rewrite H4|rewrite H5]; by rewrite decide_True by done|
     rewrite lookup_insert_ne by done; first [rewrite H1|rewrite H2|rewrite H4|rewrite H5]; by rewrite decide_False by done].
  - intros member. rewrite H3, ready_entry_insert by done. case_decide; [done|apply Hy].
  - by apply map_Forall_insert_2.
  - intros i. destruct (decide (i = id)) as [->|Hne]; [|by rewrite lookup_insert_ne by done; apply Hids].
    intros _. destruct (m !! id) eqn:E; [by apply Hids; rewrite E|by apply Hid].
Qed.

Lemma agrees_delete k m id f : agrees k m -> m !! id = Some f -> agrees (remove_job id (job_doc id f) k) (delete id m).
Proof.
  intros [Hr Hp Hy Hv Hf Hok Hids] Hk. unfold remove_job. split; cbn [k_records k_payloads k_ready k_reserved k_failed
    HDEL_job ZREM_ready ZREM_reserved ZREM_failed].
  1, 2, 4, 5: intros i; rewrite !lookup_delete; case_decide; [done|]; auto.
  - intros member. rewrite lookup_delete. cbn [job_doc jd_ReadyMember]. case_decide as E.
    + subst member. unfold ready_entry. by rewrite ready_member_id, lookup_delete_eq.
    + rewrite Hy. unfold ready_entry. rewrite lookup_delete. case_decide as Hid; [|done].
      rewrite <- Hid, Hk. cbn [mbind option_bind]. rewrite decide_False; [done|]. intros [_ H]. by apply E.
  - by apply map_Forall_delete.
  - intros i. rewrite lookup_delete. case_decide; [by intros [? ?]|apply Hids].
Qed.


(** ** The scripts *)

(** The jobs [ids] of [m] given back. *)
Definition give_back (ids : list string) (m : job_map) : job_map :=
  map_imap (fun id f => Some (if bool_decide (id ∈ ids) then with_status RWaiting f else f)) m.

Lemma give_back_lookup ids m id :
  give_back ids m !! id = (fun f => if bool_decide (id ∈ ids) then with_status RWaiting f else f) <$> m !! id.
Proof. unfold give_back. rewrite map_lookup_imap. by destruct (m !! id). Qed.
Lemma give_back_nil m : give_back [] m = m.
Proof. apply map_eq. intros i. rewrite give_back_lookup. rewrite bool_decide_false by apply not_elem_of_nil. by destruct (m !! i). Qed.
Lemma give_back_cons id ids m f : id ∉ ids -> m !! id = Some f ->
  give_back ids (<[id := with_status RWaiting f]> m) = give_back (id :: ids) m.
Proof.
  intros Hn Hk. apply map_eq. intros i. rewrite !give_back_lookup. destruct (decide (i = id)) as [->|Hne].
  - rewrite lookup_insert_eq, Hk. cbn [fmap option_fmap option_map].
    rewrite bool_decide_false by done. by rewrite bool_decide_true by (by left).
  - rewrite lookup_insert_ne by done. destruct (m !! i); [|done]. cbn.
    by rewrite (bool_decide_ext (i ∈ id :: ids) (i ∈ ids)) by (rewrite elem_of_cons; tauto).
Qed.

(** A lease that is over at [now]. *)
Definition lapsed (now : Z) (f : job_fields) : Prop := exists token u, jf_status f = RReserved token u /\ u <= now.

Section Scripts.
Variables (other_number : string -> option Z) (other_count : string -> option string).
Abbreviation number := (RedisJobStore.number other_number).
Abbreviation next_count := (RedisJobStore.next_count other_count).

Lemma number_Itoa n : exact_range n = true -> number (Itoa n) = Some n.
Proof.
  intros H. unfold RedisJobStore.number. rewrite lua_integer_Itoa by (by apply exact_range_int64). by rewrite H.
Qed.

Lemma agrees_record k m id f : agrees k m -> m !! id = Some f -> k_records k !! id = Some (job_doc id f).
Proof. intros H Hk. by rewrite (agrees_records k m H), Hk. Qed.
Lemma agrees_payload k m id f : agrees k m -> m !! id = Some f -> k_payloads k !! id = Some (jf_payload f).
Proof. intros H Hk. by rewrite (agrees_payloads k m H), Hk. Qed.
Lemma agrees_no_record k m id : agrees k m -> m !! id = None -> k_records k !! id = None /\ k_payloads k !! id = None.
Proof. intros H Hk. by rewrite (agrees_records k m H), (agrees_payloads k m H), Hk. Qed.

(** The two sets of a job that is in none of them, and the ready set. *)
Lemma agrees_indexes k m id f : agrees k m -> m !! id = Some f ->
  k_ready k !! ready_member id f = ready_of f /\ k_reserved k !! id = reserved_entry f /\ k_failed k !! id = failed_entry f.
Proof.
  intros H Hk. rewrite (agrees_ready k m H), (agrees_reserved k m H), (agrees_failed k m H), Hk.
  by rewrite (ready_entry_member m id f).
Qed.
Lemma agrees_fresh k m id f : agrees k m -> m !! id = None ->
  k_ready k !! ready_member id f = None /\ k_reserved k !! id = None /\ k_failed k !! id = None.
Proof.
  intros H Hk. rewrite (agrees_ready k m H), (agrees_reserved k m H), (agrees_failed k m H), Hk.
  unfold ready_entry. by rewrite ready_member_id, Hk.
Qed.

Lemma same_member (m : job_map) id f f' : m !! id = Some f -> jf_enqueued f' = jf_enqueued f ->
  forall g, m !! id = Some g -> ready_member id g = ready_member id f'.
Proof. intros Hk He g Hg. rewrite Hk in Hg. injection Hg as <-. unfold ready_member. by rewrite He. Qed.

(** [key_lookup]: the pointwise conditions of [agrees_insert]. *)
Ltac key_lookup :=
  intros ?; cbn [k_records k_payloads k_ready k_reserved k_failed HSET_record ZADD_ready ZREM_ready ZADD_reserved
    ZREM_reserved ZADD_failed ZREM_failed HDEL_job jd_ReadyMember job_doc];
  rewrite ?lookup_insert, ?lookup_delete; repeat case_decide; subst; (done || congruence).

Lemma enqueue_script k m id f : agrees k m -> validJobIdentifier id = true -> job_fields_ok f -> jf_status f = RWaiting ->
  exists k', redisJobStoreEnqueueScript other_number id (job_doc id f) (jf_payload f) (Itoa (jf_available f)) (ready_member id f) k =
      (k', inr (if bool_decide (is_Some (m !! id)) then 0 else 1)) /\
    agrees k' (if bool_decide (is_Some (m !! id)) then m else <[id := f]> m).
Proof.
  intros H Hv Hok Hs. unfold redisJobStoreEnqueueScript. destruct (m !! id) as [g|] eqn:Hk.
  - rewrite (agrees_record k m id g) by done. rewrite !bool_decide_true by done. by exists k.
  - destruct (agrees_no_record k m id H Hk) as [-> ->]. destruct (agrees_fresh k m id f H Hk) as (Hf1 & Hf2 & Hf3).
    rewrite !(bool_decide_false (is_Some None)) by (by intros [? ?]). cbn [orb]. unfold ZADD_ready_text.
    rewrite number_Itoa by apply Hok. eexists. split; [done|].
    assert (ready_of f = Some (jf_available f) /\ reserved_entry f = None /\ failed_entry f = None) as (E1 & E2 & E3)
      by (unfold ready_of, reserved_entry, failed_entry; by rewrite Hs, decide_True).
    apply (agrees_insert k); rewrite ?E1, ?E2, ?E3; try done; [congruence|key_lookup..].
Qed.

Lemma recover_one_lapsed k m now id f : agrees k m -> m !! id = Some f -> lapsed now f ->
  exists k', recover_one other_number now id k = (k', None) /\ agrees k' (<[id := with_status RWaiting f]> m) /\
    k_reserved k' = delete id (k_reserved k).
Proof.
  intros H Hk (token & u & Hs & Hu). destruct (agrees_ok k m H id f Hk) as (Ha & He & Hst). rewrite Hs in Hst.
  destruct (agrees_indexes k m id f H Hk) as (_ & _ & Hf3). unfold failed_entry in Hf3. rewrite Hs in Hf3.
  unfold recover_one. rewrite (agrees_record k m id f) by done. cbn [job_doc jd_FailedAt jd_ReservationToken jd_ReservedUntil].
  rewrite Hs. cbn [status_failed status_token status_until is_empty String.eqb negb].
  destruct Hst as [Ht Hue]. rewrite (proj2 (String.eqb_neq token "") Ht).
  rewrite number_Itoa by done. rewrite (proj2 (Z.leb_le u now) Hu). unfold ZADD_ready_text.
  cbn [jd_AvailableAt job_doc]. rewrite number_Itoa by done. eexists. split; [done|]. split; [|done].
  pose proof (agrees_payload k m id f H Hk) as Hp.
  assert (unreserved_doc (job_doc id f) = job_doc id (with_status RWaiting f)) as ->
    by (unfold unreserved_doc, with_lease_doc, job_doc; cbn; by rewrite Hs).
  apply (agrees_insert k); [done|done|by rewrite Hk|by apply (same_member m id f)|key_lookup..].
Qed.

Lemma recover_all_lapsed now : forall expired k m, agrees k m -> NoDup expired ->
  (forall id, id ∈ expired -> exists f, m !! id = Some f /\ lapsed now f) ->
  exists k', recover_all other_number now expired k = (k', None) /\ agrees k' (give_back expired m) /\
    (size (k_reserved k') + length expired = size (k_reserved k))%nat.
Proof.
  induction expired as [|id expired IH]; intros k m H Hnd Hex.
  - exists k. rewrite give_back_nil. split; [done|]. split; [done|]. cbn. lia.
  - apply NoDup_cons in Hnd as [Hn Hnd]. destruct (Hex id ltac:(by left)) as (f & Hk & Hl).
    destruct (recover_one_lapsed k m now id f H Hk Hl) as (k1 & E1 & H1 & Hr1).
    destruct (IH k1 _ H1 Hnd) as (k' & E & H' & Hs).
    { intros i Hi. destruct (Hex i ltac:(by right)) as (g & Hg & Hgl). exists g. rewrite lookup_insert_ne by congruence. done. }
    exists k'. cbn [recover_all]. rewrite E1. split; [done|]. rewrite give_back_cons in H' by done. split; [done|].
    rewrite Hr1 in Hs. destruct Hl as (token & u & Hst & _).
    assert (k_reserved k !! id = Some u) as Hin.
    { destruct (agrees_indexes k m id f H Hk) as (_ & -> & _). unfold reserved_entry. by rewrite Hst. }
    rewrite (map_size_delete_Some id) in Hs by done. cbn [length].
    assert (size (k_reserved k) <> 0%nat) by (rewrite map_size_ne_0_lookup; by eexists _, _). lia.
Qed.

(** *** Reserve *)

(** The order in which waiting jobs are taken. *)
Definition rjob_before (a b : string * job_fields) : Prop :=
  jf_available a.2 < jf_available b.2 \/
  (jf_available a.2 = jf_available b.2 /\
   (jf_enqueued a.2 < jf_enqueued b.2 \/ (jf_enqueued a.2 = jf_enqueued b.2 /\ String.le a.1 b.1))).

Lemma member_order id f id' f' : job_fields_ok f -> job_fields_ok f' ->
  zset_before (ready_member id f, jf_available f) (ready_member id' f', jf_available f') <-> rjob_before (id, f) (id', f').
Proof.
  intros (_ & He & _) (_ & He' & _). unfold zset_before, rjob_before, ready_member. cbn [fst snd].
  apply exact_range_int64 in He, He'. rewrite ready_member_le by (rewrite UnixMicro_FromUnixMicro by done; done).
  by rewrite !UnixMicro_FromUnixMicro by done.
Qed.

Definition taken (token : string) (until : Z) (attempts : string) (f : job_fields) : job_fields :=
  with_status (RReserved token until) (with_count attempts f).

(** The first waiting job of [m], due at [now]. *)
Definition first_due (now : Z) (m : job_map) (id : string) (f : job_fields) : Prop :=
  m !! id = Some f /\ jf_status f = RWaiting /\ jf_available f <= now /\
  forall id' f', m !! id' = Some f' -> jf_status f' = RWaiting -> rjob_before (id, f) (id', f').
Definition none_due (now : Z) (m : job_map) : Prop :=
  forall id f, m !! id = Some f -> jf_status f = RWaiting -> now < jf_available f.

Definition no_job (recovered batch : nat) : job_reply :=
  if Nat.eqb recovered batch then JobWords ["retry"] else JobWords [].

Lemma take_ready_ok k m now token until recovered batch : agrees k m -> exact_range until = true -> token <> "" ->
  (none_due now m /\ take_ready other_count now token until (Itoa until) recovered batch k = (k, inr (no_job recovered batch))) \/
  exists id f, first_due now m id f /\
    match next_count (jf_attempts f) with
    | None => exists err, take_ready other_count now token until (Itoa until) recovered batch k = (k, inl err)
    | Some n => exists k', take_ready other_count now token until (Itoa until) recovered batch k =
          (k', inr (JobReply (job_doc id (taken token until n f)) (jf_payload f))) /\
        agrees k' (<[id := taken token until n f]> m)
    end.
Proof.
  intros H Hu Ht. unfold take_ready. destruct (zrange (k_ready k)) as [|[member score] rest] eqn:Ez.
  - left. split; [|done]. intros id f Hk Hs. apply zrange_nil in Ez.
    destruct (agrees_indexes k m id f H Hk) as (Hy & _). rewrite Ez, lookup_empty in Hy. unfold ready_of in Hy.
    by rewrite decide_True in Hy.
  - apply zrange_head in Ez as [Hy Hmin]. rewrite (agrees_ready k m H) in Hy.
    apply ready_entry_some in Hy as (id & f & Hk & Hs & -> & ->).
    assert (forall id' f', m !! id' = Some f' -> jf_status f' = RWaiting -> rjob_before (id, f) (id', f')) as Hfirst.
    { intros id' f' Hk' Hs'. apply member_order; [by apply (agrees_ok k m H id)|by apply (agrees_ok k m H id')|].
      apply Hmin. rewrite (agrees_ready k m H). apply ready_entry_some. by exists id', f'. }
    destruct (Z.ltb_spec now (jf_available f)) as [Hlt|Hle].
    + left. split; [|done]. intros id' f' Hk' Hs'. destruct (Hfirst id' f' Hk' Hs') as [?|[? _]]; cbn in *; lia.
    + right. exists id, f. split; [by repeat split|]. cbv zeta.
      rewrite ready_member_id, (agrees_record k m id f), (agrees_payload k m id f) by done.
      cbn [job_doc jd_ID jd_ReadyMember jd_FailedAt jd_ReservationToken jd_Attempts]. rewrite Hs, !String.eqb_refl.
      cbn [status_failed status_token is_empty String.eqb negb orb]. destruct (next_count (jf_attempts f)) as [n|]; [|by eexists].
      assert (with_lease_doc n token (Itoa until) (job_doc id f) = job_doc id (taken token until n f)) as Hd
        by (unfold with_lease_doc, job_doc, taken; cbn; by rewrite Hs).
      eexists. split; [by rewrite <- Hd|]. destruct (agrees_ok k m H id f Hk) as (Ha & He & _).
      pose proof (agrees_payload k m id f H Hk) as Hp.
      destruct (agrees_indexes k m id f H Hk) as (_ & _ & Hf3). unfold failed_entry in Hf3. rewrite Hs in Hf3.
      fold (job_doc id f). rewrite Hd.
      apply (agrees_insert k); [done|by repeat split|by rewrite Hk|by apply (same_member m id f)|key_lookup..].
Qed.

(** What the Reserve script does: the lapsed leases it finds, fewer than a batch
    or exactly a batch of them, are given back; then the first due job, if any,
    is taken. *)
Lemma reserve_script k m now token until batch : agrees k m -> exact_range until = true -> token <> "" -> exists ids k' a,
  redisJobStoreReserveScript other_number other_count now token until (Itoa until) batch k = (k', a) /\
  NoDup ids /\ (length ids <= batch)%nat /\ (forall id, id ∈ ids -> exists f, m !! id = Some f /\ lapsed now f) /\
  ((length ids < batch)%nat -> forall id f, m !! id = Some f -> lapsed now f -> id ∈ ids) /\
  let m1 := give_back ids m in
  (none_due now m1 /\ a = inr (no_job (length ids) batch) /\ agrees k' m1 /\
   (size (k_reserved k') + length ids = size (k_reserved k))%nat) \/
  exists id f, first_due now m1 id f /\
    match next_count (jf_attempts f) with
    | None => (exists err, a = inl err) /\ agrees k' m1
    | Some n => a = inr (JobReply (job_doc id (taken token until n f)) (jf_payload f)) /\
        agrees k' (<[id := taken token until n f]> m1)
    end.
Proof.
  intros H Hu Ht. unfold redisJobStoreReserveScript. set (ids := zrangebyscore (k_reserved k) now batch).
  assert (forall id, id ∈ ids -> exists f, m !! id = Some f /\ lapsed now f) as Hids.
  { intros id Hi. apply zrangebyscore_elem in Hi as (s & Hk & Hs). rewrite (agrees_reserved k m H) in Hk.
    destruct (m !! id) as [f|] eqn:Hm; [|done]. cbn in Hk. exists f. split; [done|]. unfold reserved_entry in Hk.
    destruct (jf_status f) as [|tok u|] eqn:Hst; [done| |done]. injection Hk as ->. by exists tok, s. }
  pose proof (zrangebyscore_nodup (k_reserved k) now batch : NoDup ids) as Hnd.
  destruct (recover_all_lapsed now ids k m H Hnd Hids) as (k1 & -> & H1 & Hsize).
  assert ((length ids < batch)%nat -> forall id f, m !! id = Some f -> lapsed now f -> id ∈ ids) as Hall.
  { intros Hl id f Hm (tok & u & Hst & Hu'). apply (zrangebyscore_all _ _ _ _ u); [done| |done].
    rewrite (agrees_reserved k m H), Hm. cbn. unfold reserved_entry. by rewrite Hst. }
  assert (length ids <= batch)%nat as Hlen by (unfold ids, zrangebyscore; rewrite length_take; lia).
  exists ids. destruct (take_ready_ok k1 _ now token until (length ids) batch H1 Hu Ht) as [(Hn & ->)|(id & f & Hf & Hc)].
  - eexists _, _. split; [done|]. do 4 (split; [done|]). by left.
  - destruct (next_count (jf_attempts f)) as [n|] eqn:En.
    + destruct Hc as (k' & -> & Hk'). eexists _, _. split; [done|]. do 4 (split; [done|]). right. exists id, f. by rewrite En.
    + destruct Hc as (err & ->). eexists _, _. split; [done|]. do 4 (split; [done|]). right. exists id, f. rewrite En.
      split; [done|]. split; [by eexists|done].
Qed.

(** *** The other scripts

    Each changes the one job it names, if its reservation or its status is the
    one asked for. *)
Definition reserved_for (token : string) (f : job_fields) : Prop := exists u, jf_status f = RReserved token u.
#[export] Instance reserved_for_dec token f : Decision (reserved_for token f).
Proof.
  destruct (jf_status f) as [|tok u|at_] eqn:E; [right|destruct (decide (tok = token)) as [->|Hne]; [left; by exists u|right]|right];
    intros [u' E']; rewrite E in E'; congruence.
Defined.
Definition is_failed (f : job_fields) : Prop := exists at_, jf_status f = RFailed at_.
#[export] Instance is_failed_dec f : Decision (is_failed f).
Proof.
  destruct (jf_status f) as [|tok u|at_] eqn:E; [right|right|left; by exists at_]; intros [u' E']; rewrite E in E'; congruence.
Defined.

Definition gone_back (available : Z) (error : string) (f : job_fields) : job_fields :=
  with_status RWaiting (with_error error (available_from available f)).
Definition failed_at (at_ : Z) (error : string) (f : job_fields) : job_fields :=
  with_status (RFailed at_) (with_error error f).
Definition retried (available : Z) (f : job_fields) : job_fields := with_count "0" (gone_back available "" f).

(** The answer of a script that changes a job of which [P] holds, to [g]. *)
Definition answers (P : job_fields -> Prop) (g : job_fields -> option job_fields) (id : string) (k : job_keys) (m : job_map)
    (s : job_keys * (goerror + Z)) : Prop :=
  (s = (k, inr 0) /\ forall f, m !! id = Some f -> ~ P f) \/
  exists f k', s = (k', inr 1) /\ m !! id = Some f /\ P f /\
    agrees k' (match g f with Some f' => <[id := f']> m | None => delete id m end).

Lemma with_reserved_job_ok k m id token g script : agrees k m -> token <> "" ->
  (forall f, m !! id = Some f -> reserved_for token f ->
     exists k', script (job_doc id f) = (k', inr 1) /\ agrees k' (match g f with Some f' => <[id := f']> m | None => delete id m end)) ->
  answers (reserved_for token) g id k m (with_reserved_job id token k script).
Proof.
  intros H Ht Hs. unfold with_reserved_job. destruct (m !! id) as [f|] eqn:Hk.
  - rewrite (agrees_record k m id f) by done. cbn [job_doc jd_ReservationToken].
    destruct (String.eqb_spec (status_token (jf_status f)) token) as [E|E]; cbn [negb].
    + right. assert (reserved_for token f) as Hr by (unfold reserved_for, status_token in *; destruct (jf_status f); subst; by eauto).
      destruct (Hs f eq_refl Hr) as (k' & -> & H'). by exists f, k'.
    + left. split; [done|]. intros f' Hk' [u Hu]. rewrite Hk in Hk'. injection Hk' as <-. apply E. by rewrite Hu.
  - left. destruct (agrees_no_record k m id H Hk) as [-> _]. split; [done|]. by rewrite Hk.
Qed.

Lemma with_failed_job_ok k m id g script : agrees k m ->
  (forall f, m !! id = Some f -> is_failed f ->
     exists k', script (job_doc id f) = (k', inr 1) /\ agrees k' (match g f with Some f' => <[id := f']> m | None => delete id m end)) ->
  answers is_failed g id k m (with_failed_job id k script).
Proof.
  intros H Hs. unfold with_failed_job. destruct (m !! id) as [f|] eqn:Hk.
  - rewrite (agrees_record k m id f) by done. cbn [job_doc jd_FailedAt]. unfold is_empty.
    destruct (String.eqb_spec (status_failed (jf_status f)) "") as [E|E].
    + left. split; [done|]. intros f' Hk' [at_ Hat]. rewrite Hk in Hk'. injection Hk' as <-. destruct (agrees_ok k m H id f Hk) as (_ & _ & Hst).
      rewrite Hat in E, Hst. by apply (Itoa_not_empty at_ (exact_range_int64 at_ Hst)).
    + right. assert (is_failed f) as Hr by (unfold is_failed, status_failed in *; destruct (jf_status f); by eauto).
      destruct (Hs f eq_refl Hr) as (k' & -> & H'). by exists f, k'.
  - left. destruct (agrees_no_record k m id H Hk) as [-> _]. split; [done|]. by rewrite Hk.
Qed.

Lemma release_script k m id token available error : agrees k m -> token <> "" -> exact_range available = true ->
  answers (reserved_for token) (fun f => Some (gone_back available error f)) id k m
    (redisJobStoreReleaseScript id token available (Itoa available) error k).
Proof.
  intros H Ht Ha. apply with_reserved_job_ok; [done|done|]. intros f Hk [u Hs]. eexists. split; [done|].
  assert (released_doc (Itoa available) error (job_doc id f) = job_doc id (gone_back available error f)) as ->
    by (unfold released_doc, job_doc, gone_back; cbn; by rewrite Hs).
  destruct (agrees_ok k m H id f Hk) as (_ & He & _). pose proof (agrees_payload k m id f H Hk) as Hp.
  destruct (agrees_indexes k m id f H Hk) as (_ & _ & Hf3). unfold failed_entry in Hf3. rewrite Hs in Hf3.
  apply (agrees_insert k); [done|by repeat split|by rewrite Hk|by apply (same_member m id f)|key_lookup..].
Qed.

Lemma complete_script k m id token : agrees k m -> token <> "" ->
  answers (reserved_for token) (fun _ => None) id k m (redisJobStoreCompleteScript id token k).
Proof.
  intros H Ht. apply with_reserved_job_ok; [done|done|]. intros f Hk _. eexists. split; [done|]. by apply agrees_delete.
Qed.

Lemma fail_script k m id token at_ error : agrees k m -> token <> "" -> exact_range at_ = true ->
  answers (reserved_for token) (fun f => Some (failed_at at_ error f)) id k m
    (redisJobStoreFailScript id token at_ (Itoa at_) error k).
Proof.
  intros H Ht Ha. apply with_reserved_job_ok; [done|done|]. intros f Hk [u Hs]. eexists. split; [done|].
  change (failed_doc (Itoa at_) error (job_doc id f)) with (job_doc id (failed_at at_ error f)).
  destruct (agrees_ok k m H id f Hk) as (Hav & He & _). pose proof (agrees_payload k m id f H Hk) as Hp.
  destruct (agrees_indexes k m id f H Hk) as (_ & _ & Hf3). unfold failed_entry in Hf3. rewrite Hs in Hf3.
  apply (agrees_insert k); [done|by repeat split|by rewrite Hk|by apply (same_member m id f)|key_lookup..].
Qed.

Lemma retry_script k m id available : agrees k m -> exact_range available = true ->
  answers is_failed (fun f => Some (retried available f)) id k m
    (redisJobStoreRetryFailedScript id available (Itoa available) k).
Proof.
  intros H Ha. apply with_failed_job_ok; [done|]. intros f Hk [at_ Hs]. eexists. split; [done|].
  change (retried_doc (Itoa available) (job_doc id f)) with (job_doc id (retried available f)).
  destruct (agrees_ok k m H id f Hk) as (Hav & He & _). pose proof (agrees_payload k m id f H Hk) as Hp.
  destruct (agrees_indexes k m id f H Hk) as (_ & Hf2 & _). unfold reserved_entry in Hf2. rewrite Hs in Hf2.
  apply (agrees_insert k); [done|by repeat split|by rewrite Hk|by apply (same_member m id f)|key_lookup..].
Qed.

Lemma forget_script k m id : agrees k m ->
  answers is_failed (fun _ => None) id k m (redisJobStoreForgetFailedScript id k).
Proof.
  intros H. apply with_failed_job_ok; [done|]. intros f Hk _. eexists. split; [done|]. by apply agrees_delete.
Qed.
End Scripts.
