(* ===== verification/RedisJobStoreSpec.v ===== *)
(** * The Redis job store: refinement of a map of jobs, leases, Reserve

    However many clients share the keys, every statement of every call makes a
    transition of the one map of jobs behind them ([job_move]); a lease is
    exclusive; and [Reserve] alone comes back with the first due job. *)
From S2P Require Import Prelude GoTime GoStrings Json EventLog JobStore FileJobStore FileJobStoreFacts Statements Redis RedisJobStore RedisJobStoreFacts.
Open Scope Z_scope.
Open Scope go_scope.

Inductive redis_answer :=
| RAnsDone
| RAnsReservation (res : JobReservation)
| RAnsFailedJobs (l : list FailedStoredJob).

(** ** The documents written by Enqueue *)

Definition enqueued_fields (j : StoredJob) : job_fields :=
  JobFields (sanitize (Handler j)) (Payload j) (UnixMicro (AvailableAt j)) (UnixMicro (EnqueuedAt j)) (Itoa (Attempts j)) RWaiting "".

Lemma valid_identifier j max : validateStoredJob j max = Ok tt -> validJobIdentifier (ID j) = true.
Proof. unfold validateStoredJob. destruct (_ || _) eqn:E; [done|]. intros _. by bool_prop. Qed.

Lemma to_microseconds_member t id : in_int64 (UnixMicro t) ->
  redisJobStoreReadyMember (FromUnixMicro (UnixMicro t)) id = redisJobStoreReadyMember t id.
Proof. intros H. unfold redisJobStoreReadyMember. by rewrite UnixMicro_FromUnixMicro. Qed.

Lemma lower_hex_string s : string_forall lower_hex s = true -> sanitize s = s.
Proof. intros H. by apply sanitize_valid, lower_hex_valid. Qed.
Lemma identifier_sanitize id : validJobIdentifier id = true -> sanitize id = id.
Proof. unfold validJobIdentifier. intros H. bool_prop. by apply lower_hex_string. Qed.

Lemma member_sanitize t id : validJobIdentifier id = true -> sanitize (redisJobStoreReadyMember t id) = redisJobStoreReadyMember t id.
Proof.
  unfold validJobIdentifier, redisJobStoreReadyMember. intros H. bool_prop. apply sanitize_valid, valid_ascii.
  assert (forall s, string_forall lower_hex s = true -> string_forall (fun c => byte_of c <? 128) s = true) as Hw.
  { intros s. apply string_forall_weaken. intros c. unfold lower_hex, in_range. intros Hc. apply Z.ltb_lt. bool_prop.
    destruct Hc; bool_prop; lia. }
  rewrite !string_forall_app. unfold hex16.
  rewrite Hw by apply hex_encode_spec. by rewrite (Hw id) by done.
Qed.

Lemma enqueued_doc j metadata max : validateStoredJob j max = Ok tt -> newRedisStoredJobMetadata j = Ok metadata ->
  job_fields_ok (enqueued_fields j) /\ validJobIdentifier (ID j) = true /\
  job_through_json metadata = job_doc (ID j) (enqueued_fields j) /\
  jd_AvailableAt metadata = Itoa (jf_available (enqueued_fields j)) /\
  jd_ReadyMember metadata = ready_member (ID j) (enqueued_fields j).
Proof.
  intros Hv Hm. apply valid_identifier in Hv. unfold newRedisStoredJobMetadata, redisJobStoreTime in Hm.
  destruct (exact_time _ _ (AvailableAt j)) as [a| |] eqn:Ea; [|done..].
  destruct (exact_time _ _ (EnqueuedAt j)) as [e| |] eqn:Ee; [|done..]. injection Hm as <-.
  apply exact_time_ok in Ea as [-> Ha], Ee as [-> He].
  unfold ready_member, job_through_json, job_doc, enqueued_fields, ready_member.
  cbn [jf_handler jf_payload jf_available jf_enqueued jf_attempts jf_status jf_error status_token status_until status_failed
    jd_ID jd_Handler jd_AvailableAt jd_EnqueuedAt jd_Attempts jd_ReadyMember jd_ReservationToken jd_ReservedUntil jd_FailedAt jd_LastError].
  rewrite to_microseconds_member by (by apply exact_range_int64).
  split; [by repeat split|]. split; [done|]. split; [|done].
  rewrite !Itoa_sanitize, identifier_sanitize, member_sanitize by done. done.
Qed.

(** ** One call among others *)

Section Calls.
Variables (other_number : string -> option Z) (other_count : string -> option string).
Abbreviation enqueue_at j := (redisJobStoreEnqueueScript other_number (ID j) (job_doc (ID j) (enqueued_fields j))
  (Payload j) (Itoa (jf_available (enqueued_fields j))) (ready_member (ID j) (enqueued_fields j))).

(** The calls of the clients, [Reserve] only at instants in [Pnow] and finishing
    calls only for reservations in [Pfinish]. *)
Inductive redis_client (Pnow : Z -> Prop) (Pfinish : JobReservation -> Prop) : db_call job_keys redis_answer -> Prop :=
| rclient_Enqueue ctx j store :
    redis_client Pnow Pfinish (map_call (fun _ => RAnsDone) (Redis_Enqueue other_number ctx j store))
| rclient_Reserve turns ctx now lease store : Pnow now ->
    redis_client Pnow Pfinish (map_call RAnsReservation (Redis_Reserve_job other_number other_count turns ctx now lease store))
| rclient_Release ctx res at_ error store : Pfinish res ->
    redis_client Pnow Pfinish (map_call (fun _ => RAnsDone) (Redis_Release ctx res at_ error store))
| rclient_Complete ctx res store : Pfinish res ->
    redis_client Pnow Pfinish (map_call (fun _ => RAnsDone) (Redis_Complete_job ctx res store))
| rclient_Fail clock ctx res error store : Pfinish res ->
    redis_client Pnow Pfinish (map_call (fun _ => RAnsDone) (Redis_Fail clock ctx res error store))
| rclient_FailedJobs ctx store :
    redis_client Pnow Pfinish (map_call RAnsFailedJobs (Redis_FailedJobs ctx store))
| rclient_RetryFailed ctx id at_ store :
    redis_client Pnow Pfinish (map_call (fun _ => RAnsDone) (Redis_RetryFailed ctx id at_ store))
| rclient_ForgetFailed ctx id store :
    redis_client Pnow Pfinish (map_call (fun _ => RAnsDone) (Redis_ForgetFailed ctx id store)).

Lemma redis_ready_preserve {A} good store ctx (f : RedisJobStore -> db_call job_keys A) :
  (forall s, all_preserve good (f s)) -> all_preserve good (redis_ready store ctx f).
Proof. intros H. unfold redis_ready. destruct store as [s|]; [|done]. destruct ctx as [|[err|]]; [done..|apply H]. Qed.

Lemma with_time_preserve {A} good value err (f : Z -> string -> db_call job_keys A) :
  (exact_range (UnixMicro value) = true -> all_preserve good (f (UnixMicro value) (Itoa (UnixMicro value)))) ->
  all_preserve good (with_time value err f).
Proof.
  intros H. unfold with_time, redisJobStoreTime. destruct (exact_time _ _ value) as [s| |] eqn:E; [|done..].
  apply exact_time_ok in E as [-> Hr]. by apply H.
Qed.

Lemma requireOne_preserve good script op zero : preserves good script -> all_preserve good (redis_requireOne script op zero).
Proof.
  intros H. split; [done|]. intros [err|r]; [done|]. destruct (r =? 0); [done|]. by destruct (negb _).
Qed.

Lemma reservation_preserve {A} good res (k : db_call job_keys A) :
  (res_Token res <> "" -> all_preserve good k) -> all_preserve good (with_reservation res k).
Proof.
  intros H. unfold with_reservation, validateRedisReservation. destruct (_ || _) eqn:E; [done|].
  apply H. intros Ht. rewrite Ht in E. cbn in E. by rewrite orb_true_r in E.
Qed.

Lemma identifier_nonempty random token : newJobIdentifier random = Ok token -> token <> "" /\ ValidString token = true.
Proof.
  intros H. apply newJobIdentifier_ok in H as (_ & Hv & Hl). split; [|done]. intros ->. cbn in Hl. lia.
Qed.

(** What a turn of [Reserve] leaves, and what it may return then. *)
Lemma redis_reserve_obeys good (Q : job_keys -> result redis_answer -> Prop) turns ctx now lease store :
  (forall d r, (match r with Ok _ => False | _ => True end) -> Q d r) ->
  (forall d token, good d -> exact_range (UnixMicro (now + lease)) = true -> token <> "" -> ValidString token = true ->
     let '(d', a) := redisJobStoreReserveScript other_number other_count (UnixMicro now) token (UnixMicro (now + lease))
       (Itoa (UnixMicro (now + lease))) redisJobStoreRecoveryBatch d in
     good d' /\ forall max encoded payload res, a = inr (JobReply encoded payload) ->
       reserved_job token (Itoa (UnixMicro (now + lease))) (now + lease) max encoded payload = Ok res ->
       Q d' (Ok (RAnsReservation res))) ->
  obeys_call good Q (map_call RAnsReservation (Redis_Reserve_job other_number other_count turns ctx now lease store)).
Proof.
  intros HQ Hs. unfold Redis_Reserve_job, redis_ready.
  destruct store as [s|]; [|by split; [|intros d; apply HQ]].
  destruct ctx as [|[err|]]; [by split; [|intros d; apply HQ]..|].
  destruct (_ || _); [by split; [|intros d; apply HQ]|]. cbv zeta. unfold with_time, redisJobStoreTime.
  destruct (exact_time _ _ now) as [nt| |]; [|by split; [|intros d; apply HQ]..].
  destruct (exact_time _ _ (now + lease)) as [ut| |] eqn:Eu; [|by split; [|intros d; apply HQ]..].
  apply exact_time_ok in Eu as [-> Hu].
  assert (forall turns d, returns (Q d) (map_call RAnsReservation (redis_reserve_loop other_number other_count turns
    (UnixMicro now) (UnixMicro (now + lease)) (Itoa (UnixMicro (now + lease))) (now + lease) s))) as Hret.
  { intros ts d. destruct ts as [|turn ts]; [done|]. cbn [redis_reserve_loop]. destruct (rturn_ctx turn); [by apply HQ|].
    destruct (newJobIdentifier _); [done|by apply HQ..]. }
  split; [|by intros d; apply Hret].
  induction turns as [|turn turns IH]; [done|]. cbn [redis_reserve_loop]. destruct (rturn_ctx turn); [done|].
  destruct (newJobIdentifier (rturn_random turn)) as [token| |] eqn:Er; [|done..].
  apply identifier_nonempty in Er as [Ht Htv]. split.
  - intros d o Hd. specialize (Hs d token Hd Hu Ht Htv).
    destruct (redisJobStoreReserveScript _ _ _ _ _ _ _ d) as [d' a] eqn:E. destruct Hs as [Hg Hq].
    destruct o as [|e|e]; cbn [execute]; rewrite ?E; cbn [fst snd]; [|split; [done|by apply HQ]..].
    split; [done|]. destruct a as [err|[words|encoded payload]]; [by apply HQ| |].
    + destruct words as [|w words]; [by apply HQ|]. case_bool_decide; [apply Hret|by apply HQ].
    + cbn. destruct (reserved_job _ _ _ _ encoded payload) as [res| |] eqn:Er; [|by apply HQ..]. by eapply Hq.
  - intros d o. destruct (execute o _ d).2 as [err|[words|encoded payload]]; [done| |done].
    destruct words as [|w words]; [done|]. case_bool_decide; [apply IH|done].
Qed.

(** Every call under an invariant that its statements keep. *)
Lemma redis_calls_obey good (Q : job_keys -> result redis_answer -> Prop) Pnow (Pfinish : JobReservation -> Prop) p :
  (forall d r, (match r with Ok (RAnsReservation _) => False | _ => True end) -> Q d r) ->
  (forall j, job_fields_ok (enqueued_fields j) -> validJobIdentifier (ID j) = true -> preserves good (enqueue_at j)) ->
  (forall res at_ error, Pfinish res -> res_Token res <> "" -> exact_range at_ = true ->
     preserves good (redisJobStoreReleaseScript (ID (res_Job res)) (res_Token res) at_ (Itoa at_) error)) ->
  (forall res, Pfinish res -> res_Token res <> "" ->
     preserves good (redisJobStoreCompleteScript (ID (res_Job res)) (res_Token res))) ->
  (forall res at_ error, Pfinish res -> res_Token res <> "" -> exact_range at_ = true ->
     preserves good (redisJobStoreFailScript (ID (res_Job res)) (res_Token res) at_ (Itoa at_) error)) ->
  (forall id at_, exact_range at_ = true -> preserves good (redisJobStoreRetryFailedScript id at_ (Itoa at_))) ->
  (forall id, preserves good (redisJobStoreForgetFailedScript id)) ->
  (forall turns ctx now lease store, Pnow now ->
     obeys_call good Q (map_call RAnsReservation (Redis_Reserve_job other_number other_count turns ctx now lease store))) ->
  redis_client Pnow Pfinish p -> obeys_call good Q p.
Proof.
  intros HQ Hins Hrel Hcom Hfail Hretry Hforget Hres Hp.
  assert (forall d (r : result redis_answer), match r with Ok b => exists a : unit, b = RAnsDone | _ => True end -> Q d r) as HQ1
    by (intros d [b| |] Hb; apply HQ; [by destruct Hb as [_ ->]|done..]).
  destruct Hp as [ctx j store|turns ctx now lease store Hnow|ctx res at_ error store Hf|ctx res store Hf
    |clock ctx res error store Hf|ctx store|ctx id at_ store|ctx id store].
  - apply all_preserve_obeys; [done|]. apply redis_ready_preserve. intros s.
    destruct (validateStoredJob j _) as [[]| |] eqn:Ev; [|done..].
    destruct (newRedisStoredJobMetadata j) as [metadata| |] eqn:Em; [|done..].
    destruct (enqueued_doc _ _ _ Ev Em) as (Hok & Hid & E1 & E2 & E3). rewrite E1, E2, E3.
    by apply requireOne_preserve, Hins.
  - by apply Hres.
  - apply all_preserve_obeys; [done|]. unfold Redis_Release. destruct (IsZero _); [done|].
    apply reservation_preserve. intros Ht. apply redis_ready_preserve. intros s. apply with_time_preserve. intros Hr.
    by apply requireOne_preserve, Hrel.
  - apply all_preserve_obeys; [done|]. apply reservation_preserve. intros Ht. apply redis_ready_preserve. intros s.
    by apply requireOne_preserve, Hcom.
  - apply all_preserve_obeys; [done|]. apply reservation_preserve. intros Ht. apply redis_ready_preserve. intros s.
    apply with_time_preserve. intros Hr. by apply requireOne_preserve, Hfail.
  - apply all_preserve_obeys; [intros d [b| |] Hb; apply HQ; [by destruct Hb as [l ->]|done..]|].
    apply redis_ready_preserve. intros s. split; [by apply preserves_query|]. by intros [].
  - apply all_preserve_obeys; [done|]. unfold Redis_RetryFailed. destruct (_ || _); [done|].
    apply redis_ready_preserve. intros s. apply with_time_preserve. intros Hr. by apply requireOne_preserve, Hretry.
  - apply all_preserve_obeys; [done|]. unfold Redis_ForgetFailed. destruct (is_empty _); [done|].
    apply redis_ready_preserve. intros s. by apply requireOne_preserve, Hforget.
Qed.

(** ** The map of jobs *)

Abbreviation next_count := (RedisJobStore.next_count other_count).

Inductive job_move (m : job_map) : job_map -> Prop :=
| move_enqueue id f : m !! id = None -> jf_status f = RWaiting -> job_move m (<[id := f]> m)
| move_give_back ids now : (forall id, id ∈ ids -> exists f, m !! id = Some f /\ lapsed now f) -> job_move m (give_back ids m)
| move_take now id f token until n : first_due now m id f -> next_count (jf_attempts f) = Some n ->
    job_move m (<[id := taken token until n f]> m)
| move_release id f token available error : m !! id = Some f -> reserved_for token f ->
    job_move m (<[id := gone_back available error f]> m)
| move_complete id f token : m !! id = Some f -> reserved_for token f -> job_move m (delete id m)
| move_fail id f token at_ error : m !! id = Some f -> reserved_for token f ->
    job_move m (<[id := failed_at at_ error f]> m)
| move_retry id f available : m !! id = Some f -> is_failed f -> job_move m (<[id := retried available f]> m)
| move_forget id f : m !! id = Some f -> is_failed f -> job_move m (delete id m).

Definition moved (m0 : job_map) (k : job_keys) : Prop := exists m, agrees k m /\ rtc job_move m0 m.

Lemma answers_move P g id m0 (s : job_keys -> job_keys * (goerror + Z)) :
  (forall k m, agrees k m -> answers P g id k m (s k)) ->
  (forall m f, m !! id = Some f -> P f -> job_move m (match g f with Some f' => <[id := f']> m | None => delete id m end)) ->
  preserves (moved m0) s.
Proof.
  intros Hs Hm k (m & H & Hrun). destruct (Hs k m H) as [[-> _]|(f & k' & -> & Hk & HP & H')]; cbn; [by exists m|].
  eexists. split; [exact H'|]. eapply rtc_r; [done|]. by apply Hm.
Qed.

Lemma reserve_script_moves m0 k now token until batch : moved m0 k -> exact_range until = true -> token <> "" ->
  moved m0 (redisJobStoreReserveScript other_number other_count now token until (Itoa until) batch k).1.
Proof.
  intros (m & H & Hrun) Hu Ht.
  destruct (reserve_script other_number other_count k m now token until batch H Hu Ht)
    as (ids & k' & a & -> & _ & _ & Hids & _ & Hc). cbn [fst].
  assert (rtc job_move m0 (give_back ids m)) as H1 by (eapply rtc_r; [done|]; by apply (move_give_back m ids now)).
  destruct Hc as [(_ & _ & H' & _)|(id & f & Hf & Hc)]; [by eexists|].
  destruct (next_count (jf_attempts f)) as [n|] eqn:En; [destruct Hc as [_ H']|destruct Hc as [_ H']]; [|by eexists].
  eexists. split; [exact H'|]. eapply rtc_r; [done|]. by apply (move_take _ now).
Qed.

(** C22. One map of jobs behind the five keys.  Let any number of clients share
    the keys, the statements of their calls interleave in any way and any answers
    be lost: if the keys agree with a map of jobs at first, they agree at every
    later moment with a map that transitions of jobs lead to.  In particular each
    job is in the index of its status and in no other, and a transition leaves
    every other job as it was but for lapsed leases given back. *)
Theorem redis_keys_refine_jobs Pnow Pfinish x y m :
  calls_in_flight (redis_client Pnow Pfinish) x -> agrees (sys_db x) m -> system_run (redis_client Pnow Pfinish) x y ->
  exists m', agrees (sys_db y) m' /\ rtc job_move m m'.
Proof.
  intros Hc H Hrun.
  destruct (system_run_obeys (redis_client Pnow Pfinish) (moved m) (fun _ => True) x y) as [Hy _]; try done; [|by exists m].
  intros p. apply redis_calls_obey; try done.
  - intros j Hok Hid k (m1 & H1 & Hrun1).
    destruct (enqueue_script other_number k m1 (ID j) (enqueued_fields j) H1 Hid Hok eq_refl) as (k' & E & H').
    cbn [jf_payload enqueued_fields] in E. rewrite E. cbn [fst]. destruct (m1 !! ID j) eqn:Hk.
    + rewrite bool_decide_true in H' by done. by exists m1.
    + rewrite bool_decide_false in H' by (by intros [? ?]). eexists. split; [exact H'|]. eapply rtc_r; [done|]. by apply move_enqueue.
  - intros res at_ error _ Ht Hr. eapply answers_move; [intros k m1 H1; by apply release_script|].
    intros m1 f Hk HP. by eapply move_release.
  - intros res _ Ht. eapply answers_move; [intros k m1 H1; by apply complete_script|].
    intros m1 f Hk HP. by eapply move_complete.
  - intros res at_ error _ Ht Hr. eapply answers_move; [intros k m1 H1; by apply fail_script|].
    intros m1 f Hk HP. by eapply move_fail.
  - intros id at_ Hr. eapply answers_move; [intros k m1 H1; by apply retry_script|].
    intros m1 f Hk HP. by eapply move_retry.
  - intros id. eapply answers_move; [intros k m1 H1; by apply forget_script|].
    intros m1 f Hk HP. by eapply move_forget.
  - intros turns ctx now lease store _. apply redis_reserve_obeys; [done|]. intros d token Hd Hu Ht _.
    pose proof (reserve_script_moves m d (UnixMicro now) token _ redisJobStoreRecoveryBatch Hd Hu Ht) as Hm.
    destruct (redisJobStoreReserveScript _ _ _ _ _ _ _ d) as [d' a]. by split.
Qed.

(** ** Leases *)

(** The job of [res] under its lease. *)
Definition job_leased (res : JobReservation) (k : job_keys) : Prop :=
  exists m f, agrees k m /\ m !! ID (res_Job res) = Some f /\
    jf_status f = RReserved (res_Token res) (UnixMicro (res_ReservedUntil res)).
Definition in_agreement (k : job_keys) : Prop := exists m, agrees k m.

Lemma reserved_job_doc token ut until max id f payload res : validJobIdentifier id = true ->
  reserved_job token ut until max (job_doc id f) payload = Ok res ->
  ID (res_Job res) = id /\ res_Token res = token /\ res_ReservedUntil res = until.
Proof.
  intros Hid. unfold reserved_job. destruct (decodeRedisStoredJob _ _ _) as [err|[metadata job]] eqn:E; [done|].
  destruct (_ || _); [done|]. intros [= <-]. cbn. split; [|done].
  unfold decodeRedisStoredJob in E. destruct (parseRedisJobStoreTime _); [done|].
  destruct (parseRedisJobStoreTime _); [done|]. destruct (Atoi _) as [n|]; [|done]. destruct (n <? 0); [done|].
  destruct (validateStoredJob _ _); [|done..]. destruct (negb _); [done|]. injection E as _ <-. cbn.
  by apply identifier_sanitize.
Qed.

Lemma answers_agree P g id (s : job_keys -> job_keys * (goerror + Z)) :
  (forall k m, agrees k m -> answers P g id k m (s k)) -> preserves in_agreement s.
Proof.
  intros Hs k (m & H). destruct (Hs k m H) as [[-> _]|(f & k' & -> & Hk & HP & H')]; cbn; [by exists m|by eexists].
Qed.

Lemma answers_keep_lease P g id res (s : job_keys -> job_keys * (goerror + Z)) :
  (forall k m, agrees k m -> answers P g id k m (s k)) ->
  (forall f, id = ID (res_Job res) -> P f -> jf_status f <> RReserved (res_Token res) (UnixMicro (res_ReservedUntil res))) ->
  preserves (job_leased res) s.
Proof.
  intros Hs Hne k (m & f & H & Hf & Hst). destruct (Hs k m H) as [[-> _]|(f1 & k' & -> & Hk & HP & H')]; cbn; [by exists m, f|].
  assert (id <> ID (res_Job res)) as Hid.
  { intros E. rewrite E, Hf in Hk. injection Hk as <-. by apply (Hne f E HP). }
  eexists _, f. split; [exact H'|]. destruct (g f1); [rewrite lookup_insert_ne by done|rewrite lookup_delete_ne by done]; done.
Qed.

(** The answer of the Reserve script for a job of the map. *)
Lemma reserve_script_answer k m now token until batch : agrees k m -> exact_range until = true -> token <> "" ->
  exists k' a, redisJobStoreReserveScript other_number other_count now token until (Itoa until) batch k = (k', a) /\
    in_agreement k' /\
    (forall id f, m !! id = Some f -> ~ lapsed now f -> jf_status f <> RWaiting ->
       exists m', agrees k' m' /\ m' !! id = Some f /\ forall doc payload, a = inr (JobReply doc payload) -> jd_ID doc <> id) /\
    (forall doc payload, a = inr (JobReply doc payload) -> exists id f m',
       doc = job_doc id f /\ validJobIdentifier id = true /\ agrees k' m' /\ m' !! id = Some f /\ jf_status f = RReserved token until).
Proof.
  intros H Hu Ht. destruct (reserve_script other_number other_count k m now token until batch H Hu Ht)
    as (ids & k' & a & E & _ & _ & Hids & _ & Hc). exists k', a. split; [done|].
  assert (forall id f, m !! id = Some f -> ~ lapsed now f -> give_back ids m !! id = Some f) as Hkeep.
  { intros id f Hk Hl. rewrite give_back_lookup, Hk. cbn. rewrite bool_decide_false; [done|]. intros Hin.
    destruct (Hids id Hin) as (f' & Hk' & Hl'). rewrite Hk in Hk'. by injection Hk' as <-. }
  destruct Hc as [(_ & -> & H' & _)|(id1 & f1 & Hf & Hc)].
  - split; [by eexists|]. split.
    + intros id f Hk Hl _. eexists. split; [exact H'|]. split; [by apply Hkeep|]. unfold no_job. intros doc payload.
      by destruct (Nat.eqb _ _).
    + unfold no_job. intros doc payload. by destruct (Nat.eqb _ _).
  - destruct Hf as (Hk1 & Hs1 & _). destruct (next_count (jf_attempts f1)) as [n|].
    + destruct Hc as [-> H']. split; [by eexists|]. split.
      * intros id f Hk Hl Hs. assert (id <> id1) as Hne.
        { intros ->. rewrite (Hkeep _ _ Hk Hl) in Hk1. by injection Hk1 as ->. }
        eexists. split; [exact H'|]. rewrite lookup_insert_ne by done. split; [by apply Hkeep|].
        intros doc payload [= <- _] Eid. by apply Hne.
      * intros doc payload [= <- <-]. exists id1, (taken token until n f1), (<[id1 := taken token until n f1]> (give_back ids m)).
        split; [done|]. rewrite lookup_insert_eq. split; [|done]. apply (agrees_ids _ _ H'). by rewrite lookup_insert_eq.
    + destruct Hc as [(err & ->) H']. split; [by eexists|]. split; [|done].
      intros id f Hk Hl _. eexists. split; [exact H'|]. split; [by apply Hkeep|done].
Qed.

Lemma enqueue_agrees j : job_fields_ok (enqueued_fields j) -> validJobIdentifier (ID j) = true ->
  preserves in_agreement (enqueue_at j).
Proof.
  intros Hok Hid k (m & H). destruct (enqueue_script other_number k m (ID j) (enqueued_fields j) H Hid Hok eq_refl) as (k' & E & H').
  cbn [jf_payload enqueued_fields] in E. rewrite E. by eexists.
Qed.
Lemma enqueue_keeps_lease res j : job_fields_ok (enqueued_fields j) -> validJobIdentifier (ID j) = true ->
  preserves (job_leased res) (enqueue_at j).
Proof.
  intros Hok Hid k (m & f & H & Hf & Hst).
  destruct (enqueue_script other_number k m (ID j) (enqueued_fields j) H Hid Hok eq_refl) as (k' & E & H').
  cbn [jf_payload enqueued_fields] in E. rewrite E. cbn [fst]. eexists _, f. split; [exact H'|]. split; [|done].
  case_bool_decide as Hn; [done|]. rewrite lookup_insert_ne; [done|]. intros Heq. apply Hn. rewrite Heq. by eexists.
Qed.

Lemma redis_client_takes Pnow Pfinish p : redis_client Pnow Pfinish p ->
  obeys_call in_agreement (fun d r => forall res, r = Ok (RAnsReservation res) -> job_leased res d) p.
Proof.
  apply redis_calls_obey.
  - by intros d [[]| |].
  - apply enqueue_agrees.
  - intros res at_ error _ Ht Hr. eapply answers_agree. intros k m H. by apply release_script.
  - intros res _ Ht. eapply answers_agree. intros k m H. by apply complete_script.
  - intros res at_ error _ Ht Hr. eapply answers_agree. intros k m H. by apply fail_script.
  - intros id at_ Hr. eapply answers_agree. intros k m H. by apply retry_script.
  - intros id. eapply answers_agree. intros k m H. by apply forget_script.
  - intros turns ctx now lease store _. apply redis_reserve_obeys; [by intros d []|].
    intros d token (m & H) Hu Ht _.
    destruct (reserve_script_answer d m (UnixMicro now) token _ redisJobStoreRecoveryBatch H Hu Ht) as (k' & a & -> & Hg & _ & Hr).
    split; [done|]. intros max doc payload res -> Hres res' [= <-].
    destruct (Hr doc payload eq_refl) as (id & f & m' & -> & Hid & H' & Hk & Hs).
    apply reserved_job_doc in Hres as (Eid & Et & Eu); [|done]. exists m', f. by rewrite Eid, Et, Eu.
Qed.

Lemma redis_client_peaceful Pnow (Pfinish : JobReservation -> Prop) res p :
  (forall now, Pnow now -> UnixMicro now < UnixMicro (res_ReservedUntil res)) ->
  (forall res', Pfinish res' -> ID (res_Job res') = ID (res_Job res) -> res_Token res' <> res_Token res) ->
  redis_client Pnow Pfinish p ->
  obeys_call (job_leased res)
    (fun _ r => forall res', r = Ok (RAnsReservation res') -> ID (res_Job res') <> ID (res_Job res)) p.
Proof.
  intros Hnow Hfin. apply redis_calls_obey.
  - by intros d [[]| |].
  - apply enqueue_keeps_lease.
  - intros res' at_ error Hf Ht Hr. eapply answers_keep_lease; [intros k m H; by apply release_script|].
    intros f E [u Hu] Hs. rewrite Hu in Hs. injection Hs as Hs _. by apply (Hfin res' Hf E).
  - intros res' Hf Ht. eapply answers_keep_lease; [intros k m H; by apply complete_script|].
    intros f E [u Hu] Hs. rewrite Hu in Hs. injection Hs as Hs _. by apply (Hfin res' Hf E).
  - intros res' at_ error Hf Ht Hr. eapply answers_keep_lease; [intros k m H; by apply fail_script|].
    intros f E [u Hu] Hs. rewrite Hu in Hs. injection Hs as Hs _. by apply (Hfin res' Hf E).
  - intros id at_ Hr. eapply answers_keep_lease; [intros k m H; by apply retry_script|].
    intros f E [u Hu] Hs. by rewrite Hu in Hs.
  - intros id. eapply answers_keep_lease; [intros k m H; by apply forget_script|].
    intros f E [u Hu] Hs. by rewrite Hu in Hs.
  - intros turns ctx now lease store Hn. apply redis_reserve_obeys; [by intros d []|].
    intros d token (m & f & H & Hk & Hs) Hu Ht _.
    destruct (reserve_script_answer d m (UnixMicro now) token _ redisJobStoreRecoveryBatch H Hu Ht) as (k' & a & -> & _ & Hl & Hr).
    destruct (Hl _ f Hk) as (m' & H' & Hk' & Hne); [|by rewrite Hs|].
    { intros (tok & u & Hs' & Hle). rewrite Hs in Hs'. injection Hs' as _ <-. specialize (Hnow _ Hn). lia. }
    split; [by exists m', f|]. intros max doc payload res' Ea Hres res'' [= <-].
    destruct (Hr doc payload Ea) as (id & f' & m'' & -> & Hid & _). apply reserved_job_doc in Hres as (Eid & _); [|done].
    rewrite Eid. apply (Hne _ payload Ea).
Qed.

(** C23. One holder at a time, for any number of clients of the keys: once
    [Reserve] has returned a job, the keys hold that job under that reservation,
    and no other [Reserve] returns the job, as long as no client's clock has
    reached the end of the lease (to the microsecond) and nobody finishes the
    job with its token, whatever answers are lost. *)
Theorem redis_lease_is_exclusive Pnow (Pfinish : JobReservation -> Prop) x x1 y res :
  (forall now, Pnow now -> UnixMicro now < UnixMicro (res_ReservedUntil res)) ->
  (forall res', Pfinish res' -> ID (res_Job res') = ID (res_Job res) -> res_Token res' <> res_Token res) ->
  in_agreement (sys_db x) -> calls_in_flight (redis_client Pnow Pfinish) x ->
  system_step (redis_client Pnow Pfinish) x x1 -> sys_returned x1 = Ok (RAnsReservation res) :: sys_returned x ->
  system_run (redis_client Pnow Pfinish) x1 y ->
  job_leased res (sys_db y) /\
  exists new, sys_returned y = new ++ sys_returned x1 /\
    Forall (fun r => forall res', r = Ok (RAnsReservation res') -> ID (res_Job res') <> ID (res_Job res)) new.
Proof.
  intros Hnow Hfin Hok Hc Hstep Hret Hrun.
  destruct (system_step_obeys _ _ _ x x1 (redis_client_takes Pnow Pfinish) Hc Hok Hstep) as [Hok1 [E|(r & E & Hr)]].
  { rewrite Hret in E. apply (f_equal length) in E. cbn in E. lia. }
  rewrite Hret in E. injection E as <-. specialize (Hr res eq_refl).
  exact (system_run_obeys _ (job_leased res) _ x1 y (fun p => redis_client_peaceful Pnow Pfinish res p Hnow Hfin)
    (in_flight_step _ _ _ Hc Hstep) Hr Hrun).
Qed.

(** ** Reserve alone *)

(** The job that a document in order is read as. *)
Definition stored_of (id : string) (f : job_fields) (attempts : Z) : StoredJob :=
  MkStoredJob id (jf_handler f) (jf_payload f) (FromUnixMicro (jf_available f)) (FromUnixMicro (jf_enqueued f)) attempts.
Definition readable (max : Z) (id : string) (f : job_fields) (attempts : Z) : Prop :=
  jf_attempts f = Itoa attempts /\ ValidString (jf_handler f) = true /\
  validateStoredJob (stored_of id f attempts) max = Ok tt.

Lemma validate_attempts j max n : validateStoredJob j max = Ok tt -> 0 <= n -> validateStoredJob (with_attempts j n) max = Ok tt.
Proof.
  unfold validateStoredJob. cbn [with_attempts ID Handler Payload AvailableAt EnqueuedAt Attempts].
  intros H Hn. rewrite (proj2 (Z.ltb_ge n 0) Hn), orb_false_r.
  destruct (Attempts j <? 0); [by rewrite orb_true_r in H|]. by rewrite orb_false_r in H.
Qed.

Lemma readable_attempts max id f a : readable max id f a -> 0 <= a.
Proof.
  intros (_ & _ & H). unfold validateStoredJob in H. destruct (_ || _) eqn:E; [done|]. bool_prop.
  by cbn [stored_of Attempts] in *.
Qed.

Lemma taken_read token u until max id f a : readable max id f a -> a < lua_count_limit -> job_fields_ok f ->
  validJobIdentifier id = true -> exact_range u = true -> ValidString token = true ->
  next_count (jf_attempts f) = Some (Itoa (a + 1)) /\
  reserved_job token (Itoa u) until max (job_doc id (taken token u (Itoa (a + 1)) f)) (jf_payload f) =
    Ok (MkJobReservation (stored_of id f (a + 1)) token until).
Proof.
  intros Hr Ha (Hav & He & _) Hid Hu Ht. pose proof (readable_attempts _ _ _ _ Hr) as Ha0.
  destruct Hr as (Hat & Hh & Hv).
  assert (forall n, 0 <= n <= lua_count_limit -> in_int64 n) as Hint
    by (unfold lua_count_limit, in_int64, int64_min, int64_max; intros; lia).
  split.
  { unfold RedisJobStore.next_count. rewrite Hat, lua_integer_Itoa by (apply Hint; lia).
    rewrite (proj2 (Z.ltb_ge a 0)), (proj2 (Z.ltb_lt a _)) by lia. done. }
  unfold reserved_job, decodeRedisStoredJob, job_through_json, job_doc, taken.
  cbn [jf_handler jf_payload jf_available jf_enqueued jf_attempts jf_status jf_error status_token status_until status_failed
    jd_ID jd_Handler jd_AvailableAt jd_EnqueuedAt jd_Attempts jd_ReadyMember jd_ReservationToken jd_ReservedUntil jd_FailedAt jd_LastError
    with_status with_count].
  rewrite !Itoa_sanitize, (identifier_sanitize id), (sanitize_valid (jf_handler f)), (sanitize_valid token) by done.
  unfold parseRedisJobStoreTime. rewrite !parse_exact_time_Itoa, Atoi_Itoa by (done || apply Hint; lia).
  rewrite (proj2 (Z.ltb_ge (a + 1) 0)) by lia.
  change (MkStoredJob id (jf_handler f) (jf_payload f) (FromUnixMicro (jf_available f)) (FromUnixMicro (jf_enqueued f)) (a + 1))
    with (with_attempts (stored_of id f a) (a + 1)).
  rewrite validate_attempts by (done || lia). cbn [EnqueuedAt ID stored_of with_attempts].
  unfold ready_member. cbn [jf_enqueued]. rewrite member_sanitize by done. rewrite String.eqb_refl.
  cbn [negb jd_ReservationToken jd_ReservedUntil]. by rewrite !String.eqb_refl.
Qed.

(** Jobs of [m] whose leases lapsed, given back, some of them or all. *)
Definition gave_back (now : Z) (m m' : job_map) : Prop :=
  forall id, m' !! id = m !! id \/ exists f, m !! id = Some f /\ lapsed now f /\ m' !! id = Some (with_status RWaiting f).

Lemma gave_back_refl now m : gave_back now m m.
Proof. intros id. by left. Qed.
Lemma gave_back_trans now m1 m2 m3 : gave_back now m1 m2 -> gave_back now m2 m3 -> gave_back now m1 m3.
Proof.
  intros H12 H23 id. destruct (H23 id) as [->|(f & Hf & Hl & E)]; [apply H12|].
  destruct (H12 id) as [E1|(g & Hg & Hlg & E1)]; rewrite Hf in E1; [right; exists f; by rewrite <- E1|].
  injection E1 as ->. by destruct Hl as (? & ? & [=] & _).
Qed.
Lemma give_back_gave now ids m : (forall id, id ∈ ids -> exists f, m !! id = Some f /\ lapsed now f) ->
  gave_back now m (give_back ids m).
Proof.
  intros H id. rewrite give_back_lookup. destruct (m !! id) as [f|] eqn:E; [|by left]. cbn.
  case_bool_decide as Hin; [|by left]. right. exists f. destruct (H id Hin) as (f' & Hf' & Hl). rewrite E in Hf'. by injection Hf' as <-.
Qed.

Definition reservable_job (now : Z) (f : job_fields) : Prop :=
  jf_available f <= now /\ (jf_status f = RWaiting \/ lapsed now f).

Lemma gave_back_reservable now m m' id f : gave_back now m m' -> m !! id = Some f -> reservable_job now f ->
  exists f', m' !! id = Some f' /\ reservable_job now f' /\ jf_available f' = jf_available f.
Proof.
  intros H Hk [Ha Hs]. destruct (H id) as [E|(g & Hg & Hl & E)].
  - exists f. by rewrite E.
  - rewrite Hk in Hg. injection Hg as <-. exists (with_status RWaiting f). split; [done|]. split; [|done]. split; [done|by left].
Qed.

(** What [Reserve] comes to from the map [m]: [k'] and [r] after it. *)
Definition reserve_result (now lease max : Z) (m : job_map) (k' : job_keys) (r : result JobReservation) : Prop :=
  exists m1, gave_back (UnixMicro now) m m1 /\
    ((r = Err ErrJobStoreEmpty /\ agrees k' m1 /\ forall id f, m !! id = Some f -> ~ reservable_job (UnixMicro now) f) \/
     exists id f, first_due (UnixMicro now) m1 id f /\
       match next_count (jf_attempts f) with
       | None => agrees k' m1 /\ exists err, r = Err err
       | Some n => exists token, agrees k' (<[id := taken token (UnixMicro (now + lease)) n f]> m1) /\
           forall a, readable max id f a -> a < lua_count_limit ->
             r = Ok (MkJobReservation (stored_of id f (a + 1)) token (now + lease))
       end).

Lemma reserve_result_from now lease max m m1 k' r : gave_back (UnixMicro now) m m1 ->
  reserve_result now lease max m1 k' r -> reserve_result now lease max m k' r.
Proof.
  intros Hg (m2 & Hg2 & Hc). exists m2. split; [by eapply gave_back_trans|].
  destruct Hc as [(Hr & Hk & Hnone)|Hc]; [left|by right]. split; [done|]. split; [done|]. intros id f Hf Hres.
  destruct (gave_back_reservable _ _ _ _ _ Hg Hf Hres) as (f' & Hf' & Hres' & _). by apply (Hnone id f').
Qed.

Definition turn_ready (turn : redis_turn) : Prop :=
  rturn_ctx turn = None /\ exists token, newJobIdentifier (rturn_random turn) = Ok token.

Lemma none_due_reservable now m m1 ids : (forall id f, m !! id = Some f -> lapsed now f -> id ∈ ids) ->
  m1 = give_back ids m -> none_due now m1 -> forall id f, m !! id = Some f -> ~ reservable_job now f.
Proof.
  intros Hall -> Hnone id f Hf [Ha Hs]. destruct Hs as [Hs|Hl].
  - assert (give_back ids m !! id = Some (if bool_decide (id ∈ ids) then with_status RWaiting f else f)) as Hk
      by (by rewrite give_back_lookup, Hf).
    specialize (Hnone id _ Hk). case_bool_decide; cbn in Hnone; specialize (Hnone ltac:(done)); lia.
  - pose proof (Hall id f Hf Hl) as Hin.
    assert (give_back ids m !! id = Some (with_status RWaiting f)) as Hk
      by (rewrite give_back_lookup, Hf; cbn; by rewrite bool_decide_true).
    specialize (Hnone id _ Hk eq_refl). cbn in Hnone. lia.
Qed.

Lemma redis_reserve_loop_result turns now lease s : exact_range (UnixMicro (now + lease)) = true ->
  Forall turn_ready turns -> forall k m, agrees k m ->
  (size (k_reserved k) < redisJobStoreRecoveryBatch * length turns)%nat ->
  exists k' r, perform (fun _ => Answered) (redis_reserve_loop other_number other_count turns (UnixMicro now)
      (UnixMicro (now + lease)) (Itoa (UnixMicro (now + lease))) (now + lease) s) k = (k', Some r) /\
    reserve_result now lease (rjs_maxPayloadBytes s) m k' r.
Proof.
  intros Hu. induction 1 as [|turn turns (Hctx & token & Htok) _ IH]; intros k m H Hsize; [cbn in Hsize; lia|].
  cbn [redis_reserve_loop]. rewrite Hctx, Htok. destruct (identifier_nonempty _ _ Htok) as [Ht Htv]. cbn [perform execute].
  destruct (reserve_script other_number other_count k m (UnixMicro now) token _ redisJobStoreRecoveryBatch H Hu Ht)
    as (ids & k1 & a & E & _ & Hlen & Hids & Hall & Hc).
  assert (gave_back (UnixMicro now) m (give_back ids m)) as Hg by (by apply give_back_gave).
  rewrite E. cbn zeta in Hc. destruct Hc as [(Hnone & -> & H1 & Hs1)|(id & f & Hf & Hc)].
  - unfold no_job. destruct (Nat.eqb_spec (length ids) redisJobStoreRecoveryBatch) as [El|El].
    + rewrite bool_decide_true by done. cbn [length] in Hsize.
      destruct (IH k1 _ H1) as (k' & r & Hrun & Hres); [lia|].
      exists k', r. split; [exact Hrun|]. by eapply reserve_result_from.
    + eexists _, _. split; [done|]. exists (give_back ids m). split; [done|]. left. split; [done|]. split; [done|].
      apply (none_due_reservable _ m (give_back ids m) ids); [intros; apply (Hall ltac:(lia) _ f); done|done|done].
  - assert (forall r, (match next_count (jf_attempts f) with
       | None => agrees k1 (give_back ids m) /\ exists err, r = Err err
       | Some n => exists token, agrees k1 (<[id := taken token (UnixMicro (now + lease)) n f]> (give_back ids m)) /\
           forall a, readable (rjs_maxPayloadBytes s) id f a -> a < lua_count_limit ->
             r = Ok (MkJobReservation (stored_of id f (a + 1)) token (now + lease)) end) ->
       reserve_result now lease (rjs_maxPayloadBytes s) m k1 r) as Hres
      by (intros r Hr; exists (give_back ids m); split; [done|]; right; by exists id, f).
    destruct (next_count (jf_attempts f)) as [n|] eqn:En.
    + destruct Hc as [-> H1]. eexists _, _. split; [done|]. apply Hres. exists token. split; [done|]. intros a0 Hread Ha.
      assert (job_fields_ok f /\ validJobIdentifier id = true) as [Hfok Hid].
      { pose proof (agrees_ids _ _ H1 id) as Hid. rewrite lookup_insert_eq in Hid. split; [|by apply Hid; eexists].
        pose proof (agrees_ok _ _ H1 id _ (lookup_insert_eq _ _ _)) as (? & ? & _). destruct Hf as (_ & Hst & _).
        split; [done|]. split; [done|]. by rewrite Hst. }
      destruct (taken_read token (UnixMicro (now + lease)) (now + lease) _ id f a0 Hread Ha Hfok Hid Hu Htv) as [En' Er].
      rewrite En in En'. injection En' as ->. exact Er.
    + destruct Hc as [(err & ->) H1]. eexists _, _. split; [done|]. apply Hres. split; [done|]. by eexists.
Qed.

(** [Reserve] alone comes back, with the first due job.  When every statement
    is answered and the turns provided for are more than the reserved jobs
    divided by the batch of 128 that one turn recovers, the loop ends.  It says
    that there is no job only if no job is waiting and due, nor under a lapsed
    lease and due; otherwise it takes, of the waiting jobs, lapsed leases given
    back among them, the first by available time, enqueue time and identifier,
    counts the attempt, and returns that job if the document is in order. *)
Theorem redis_reserve_takes_first_due_job turns now lease s k m :
  IsZero now = false -> 0 < lease -> IsZero (now + lease) = false ->
  exact_range (UnixMicro now) = true -> exact_range (UnixMicro (now + lease)) = true ->
  Forall turn_ready turns -> agrees k m ->
  (size (k_reserved k) < redisJobStoreRecoveryBatch * length turns)%nat ->
  exists k' r, perform (fun _ => Answered)
      (Redis_Reserve_job other_number other_count turns (Ctx None) now lease (Some s)) k = (k', Some r) /\
    reserve_result now lease (rjs_maxPayloadBytes s) m k' r.
Proof.
  intros Hz Hl Hz' Hn Hu Hturns H Hsize. unfold Redis_Reserve_job. cbn [redis_ready]. rewrite Hz, (proj2 (Z.leb_gt lease 0) Hl).
  cbn [orb]. cbv zeta. unfold with_time, redisJobStoreTime.
  assert (forall t, IsZero t = false -> exact_range (UnixMicro t) = true ->
    exact_time "Redis job time is zero" "Redis job time exceeds exact score range" t = Ok (Itoa (UnixMicro t))) as Ht.
  { intros t Hz1 Hr. unfold exact_time. rewrite Hz1. rewrite exact_range_spec in Hr. by apply negb_true_iff in Hr as ->. }
  rewrite !Ht by done. by apply redis_reserve_loop_result.
Qed.
End Calls.

Lemma agrees_empty : agrees (JobKeys ∅ ∅ ∅ ∅ ∅) ∅.
Proof.
  split; cbn; try done. intros id. rewrite lookup_empty. by intros [? ?].
Qed.

(** One job; two workers reserve it, the first to come gets it. *)
Module RedisContest.
Definition no_number : string -> option Z := fun _ => None.
Definition no_count : string -> option string := fun _ => None.
Definition at_micro (n : Z) : Z := FromUnixMicro n.
Definition job : StoredJob :=
  MkStoredJob (hex_encode (repeat 17 32)) "mail" "{}" (at_micro 5000) (at_micro 4000) 0.
Definition fields : job_fields := enqueued_fields job.
Definition keys0 : job_keys :=
  (redisJobStoreEnqueueScript no_number (ID job) (job_doc (ID job) fields) (jf_payload fields) (Itoa (jf_available fields))
     (ready_member (ID job) fields) (JobKeys ∅ ∅ ∅ ∅ ∅)).1.
Definition store : RedisJobStore := MkRedisJobStore "bridra:jobs" 4096 [].
Definition turn (b : Z) : redis_turn := RedisTurn None (Ok (fun _ => b)).
Definition worker (b now : Z) : db_call job_keys redis_answer :=
  map_call RAnsReservation
    (Redis_Reserve_job no_number no_count [turn b; turn (b + 1)] (Ctx None) (at_micro now) 1000000 (Some store)).
Definition x : system job_keys redis_answer := System keys0 {[0%nat := worker 51 6000; 1%nat := worker 68 6001]} [].
Definition x1 := system_next 0%nat x.
Definition y := system_next 1%nat x1.
Definition res : JobReservation :=
  MkJobReservation (MkStoredJob (ID job) "mail" "{}" (at_micro 5000) (at_micro 4000) 1) (hex_encode (repeat 51 32)) (at_micro 7000).
Definition Pnow (now : Z) : Prop := UnixMicro now < 7000.
Definition Pfinish (r : JobReservation) : Prop := res_Token r <> res_Token res.
Abbreviation client := (redis_client no_number no_count Pnow Pfinish).

Lemma fields_in_order : job_fields_ok fields.
Proof. repeat split; vm_compute; reflexivity. Qed.
Lemma redis_contest_agrees : agrees keys0 (<[ID job := fields]> ∅).
Proof.
  destruct (enqueue_script no_number (JobKeys ∅ ∅ ∅ ∅ ∅) ∅ (ID job) fields agrees_empty) as (k' & E & H);
    [vm_compute; reflexivity|apply fields_in_order|reflexivity|].
  unfold keys0. rewrite E. rewrite bool_decide_false in H by (rewrite lookup_empty; by intros [? ?]). exact H.
Qed.
Lemma redis_worker_client b now : now < 7000 -> in_int64 now -> client (worker b now).
Proof. intros H Hr. apply rclient_Reserve. unfold Pnow, at_micro. by rewrite UnixMicro_FromUnixMicro. Qed.
Lemma redis_contest_flight : calls_in_flight client x.
Proof.
  unfold calls_in_flight. cbn [x sys_calls]. apply map_Forall_insert_2; [|rewrite map_Forall_singleton];
    (apply flight_start, redis_worker_client; [done|]; unfold in_int64, int64_min, int64_max; lia).
Qed.
Lemma redis_contest_x1_step : system_step client x x1.
Proof. apply system_next_step. vm_compute. reflexivity. Qed.
Lemma redis_contest_y_run : system_run client x1 y.
Proof. eapply system_more; [apply (system_next_step _ 1%nat); vm_compute; reflexivity|]. apply system_refl. Qed.
Lemma redis_contest_early now : Pnow now -> UnixMicro now < UnixMicro (res_ReservedUntil res).
Proof. unfold Pnow. intros H. exact H. Qed.
Lemma redis_contest_finish r : Pfinish r -> ID (res_Job r) = ID (res_Job res) -> res_Token r <> res_Token res.
Proof. by intros H _. Qed.
End RedisContest.

Lemma redis_lease_is_exclusive_witness :
  job_leased RedisContest.res (sys_db RedisContest.y) /\ length (sys_returned RedisContest.y) = 2%nat.
Proof.
  split; [|vm_compute; reflexivity].
  refine (proj1 (redis_lease_is_exclusive RedisContest.no_number RedisContest.no_count RedisContest.Pnow RedisContest.Pfinish
    RedisContest.x RedisContest.x1 RedisContest.y RedisContest.res RedisContest.redis_contest_early
    RedisContest.redis_contest_finish (ex_intro _ _ RedisContest.redis_contest_agrees) RedisContest.redis_contest_flight
    RedisContest.redis_contest_x1_step _ RedisContest.redis_contest_y_run)).
  vm_compute. reflexivity.
Defined.

Lemma redis_keys_refine_jobs_witness : exists m', agrees (sys_db RedisContest.y) m' /\
  rtc (job_move RedisContest.no_count) (<[ID RedisContest.job := RedisContest.fields]> ∅) m'.
Proof.
  apply (redis_keys_refine_jobs RedisContest.no_number RedisContest.no_count RedisContest.Pnow RedisContest.Pfinish
    RedisContest.x RedisContest.y _ RedisContest.redis_contest_flight RedisContest.redis_contest_agrees).
  eapply system_more; [exact RedisContest.redis_contest_x1_step|exact RedisContest.redis_contest_y_run].
Defined.

Lemma redis_reserve_takes_first_due_job_witness : exists k' r,
  perform (fun _ => Answered) (Redis_Reserve_job RedisContest.no_number RedisContest.no_count [RedisContest.turn 51]
    (Ctx None) (RedisContest.at_micro 6000) 1000000 (Some RedisContest.store)) RedisContest.keys0 = (k', Some r) /\
  reserve_result RedisContest.no_count (RedisContest.at_micro 6000) 1000000 4096
    (<[ID RedisContest.job := RedisContest.fields]> ∅) k' r.
Proof.
  apply (redis_reserve_takes_first_due_job RedisContest.no_number RedisContest.no_count [RedisContest.turn 51]
    (RedisContest.at_micro 6000) 1000000 RedisContest.store RedisContest.keys0 _); try reflexivity.
  - apply Forall_singleton. split; [reflexivity|]. eexists. reflexivity.
  - exact RedisContest.redis_contest_agrees.
  - vm_compute. lia.
Defined.
