(* ===== verification/Migrations.v ===== *)
(** * Migrations: [backend/framework/migrations.go] and [migration_store.go]

    The runner works on a database with contents [D] through a store of applied
    migrations, an interface here; the SQL store is an instance.  A migration's
    callbacks are the application's: a function of the contents that may fail or
    panic (with a value; an error as the value is not told apart). *)
From S2P Require Import Prelude GoTime GoStrings Statements.
Open Scope Z_scope.
Open Scope go_scope.

(** ** The database and its transactions: [backend/framework/database.go]

    A program on a database is a function of the [world]: the contents that the
    pool sees, those of an open transaction, and what becomes of the statements
    and the commits to come ([db_outcome] of [Statements.v]).  The contents of
    a database are a parameter. *)

Definition ErrDatabaseUnavailable := ErrNew "framework: database is unavailable".
Definition ErrDatabaseContextUnavailable := ErrNew "framework: database context is unavailable".
Definition ErrDatabasePingFailed := ErrNew "framework: database ping failed".
Definition ErrTransactionCallbackUnavailable := ErrNew "framework: transaction callback is unavailable".
Definition ErrTransactionAlreadyActive := ErrNew "framework: transaction is already active".
Definition ErrTransactionBeginFailed := ErrNew "framework: transaction begin failed".
Definition ErrTransactionCommitFailed := ErrNew "framework: transaction commit failed".
Definition ErrTransactionRollbackFailed := ErrNew "framework: transaction rollback failed".

(** A [*Database], by an identity; [None] is nil or without a pool. *)
Abbreviation Database := (option nat).

(** A context, and the databases whose transactions it carries, the innermost
    first: the chain of [transactionContextValue]s. *)
Record db_context := DbContext { dbc_ctx : context; dbc_transactions : list nat }.
Definition transactionFromContext (database : nat) (ctx : db_context) : bool :=
  existsb (Nat.eqb database) (dbc_transactions ctx).
Definition with_transaction (database : nat) (ctx : db_context) : db_context :=
  DbContext (dbc_ctx ctx) (database :: dbc_transactions ctx).

Section World.
Context {D : Type}.

Record world := World {
  w_pool : D;
  w_tx : option D;
  w_next : nat -> db_outcome
}.
Definition sql (A : Type) : Type := world -> world * result A.

Definition sql_ret {A} (r : result A) : sql A := fun w => (w, r).
Definition sql_bind {A B} (p : sql A) (k : A -> sql B) : sql B := fun w =>
  match p w with
  | (w, Ok a) => k a w
  | (w, Err err) => (w, Err err)
  | (w, Panicked m) => (w, Panicked m)
  end.

(** The outcome of the next thing asked of the database. *)
Definition next_outcome (w : world) : db_outcome * world :=
  (w_next w O, World (w_pool w) (w_tx w) (fun n => w_next w (S n))).

(** What an executor works on: the open transaction, or the pool. *)
Definition on_executor {A} (transaction : bool) (f : D -> D * result A) : sql A := fun w =>
  match transaction, w_tx w with
  | true, Some d => let '(d, r) := f d in (World (w_pool w) (Some d) (w_next w), r)
  | _, _ => let '(d, r) := f (w_pool w) in (World d (w_tx w) (w_next w), r)
  end.

(** [pool.BeginTx], [transaction.Commit] and [transaction.Rollback]: a commit or
    a rollback that fails ends the transaction nevertheless. *)
Definition BeginTx : sql unit := fun w =>
  let '(o, w) := next_outcome w in
  match o with
  | Answered => (World (w_pool w) (Some (w_pool w)) (w_next w), Ok tt)
  | Refused err | Lost err => (w, Err err)
  end.
Definition Commit : sql unit := fun w =>
  let '(o, w) := next_outcome w in
  let committed := default (w_pool w) (w_tx w) in
  match o with
  | Answered => (World committed None (w_next w), Ok tt)
  | Refused err => (World (w_pool w) None (w_next w), Err err)
  | Lost err => (World committed None (w_next w), Err err)
  end.
Definition Rollback : sql unit := fun w =>
  let '(o, w) := next_outcome w in
  (World (w_pool w) None (w_next w), match o with Answered => Ok tt | Refused err | Lost err => Err err end).

Definition Executor (database : Database) (ctx : db_context) : result bool :=
  match database with
  | None => Err ErrDatabaseUnavailable
  | Some d =>
      match dbc_ctx ctx with
      | NilContext => Err ErrDatabaseContextUnavailable
      | Ctx _ => Ok (transactionFromContext d ctx)
      end
  end.

(** [ping] is the answer of [pool.PingContext]. *)
Definition Ping (ping : option goerror) (database : Database) (ctx : context) : result unit :=
  match database with
  | None => Err ErrDatabaseUnavailable
  | Some _ =>
      match ctx with
      | NilContext => Err ErrDatabaseContextUnavailable
      | Ctx _ => match ping with
                 | Some err => Err (Errorf [W ErrDatabasePingFailed; T ": "; W err])
                 | None => Ok tt
                 end
      end
  end.

Definition WithinTransaction (database : Database) (ctx : db_context) (callback : option (db_context -> sql unit))
    : sql unit := fun w =>
  match database with
  | None => (w, Err ErrDatabaseUnavailable)
  | Some d =>
      match dbc_ctx ctx with
      | NilContext => (w, Err ErrDatabaseContextUnavailable)
      | Ctx _ =>
          match callback with
          | None => (w, Err ErrTransactionCallbackUnavailable)
          | Some callback =>
              if transactionFromContext d ctx then (w, Err ErrTransactionAlreadyActive)
              else match BeginTx w with
                   | (w, Err err) => (w, Err (Errorf [W ErrTransactionBeginFailed; T ": "; W err]))
                   | (w, Panicked m) => (w, Panicked m)
                   | (w, Ok _) =>
                       match callback (with_transaction d ctx) w with
                       | (w, Err err) =>
                           match Rollback w with
                           | (w, Err rollbackErr) =>
                               (w, Err (errors_join err (Errorf [W ErrTransactionRollbackFailed; T ": "; W rollbackErr])))
                           | (w, _) => (w, Err err)
                           end
                       | (w, Panicked m) => let '(w, _) := Rollback w in (w, Panicked m)
                       | (w, Ok _) =>
                           match Commit w with
                           | (w, Err commitErr) => (w, Err (Errorf [W ErrTransactionCommitFailed; T ": "; W commitErr]))
                           | (w, r) => (w, r)
                           end
                       end
                   end
          end
      end
  end.

(** ** A transaction takes place as a whole, or not at all *)

(** The outcomes to come after some were used. *)
Definition later (w w' : world) : Prop := exists k, forall n, w_next w' n = w_next w (k + n)%nat.
Lemma later_refl w : later w w.
Proof. by exists O. Qed.
Lemma later_trans w1 w2 w3 : later w1 w2 -> later w2 w3 -> later w1 w3.
Proof. intros [k H] [j H']. exists (k + j)%nat. intros n. rewrite H', H. f_equal. lia. Qed.
Lemma later_settled w w' : later w w' -> all_settled (w_next w) -> all_settled (w_next w').
Proof. intros [k H] Hs n. rewrite H. apply Hs. Qed.
Lemma next_later w o w' : next_outcome w = (o, w') -> later w w' /\ w_pool w' = w_pool w /\ w_tx w' = w_tx w /\ o = w_next w O.
Proof. intros [= <- <-]. split; [|done]. by exists 1%nat. Qed.

(** What a callback does to the transaction that is open: [P] relates its
    contents before and after and the result; the pool is left as it is. *)
Definition within (callback : sql unit) (P : D -> D -> result unit -> Prop) : Prop :=
  forall w d, w_tx w = Some d -> let '(w', r) := callback w in
    exists d', w_pool w' = w_pool w /\ w_tx w' = Some d' /\ later w w' /\ P d d' r.

Lemma BeginTx_cases w : exists w', later w w' /\ w_pool w' = w_pool w /\
  ((BeginTx w = (w', Ok tt) /\ w_tx w' = Some (w_pool w)) \/ (exists err, BeginTx w = (w', Err err) /\ w_tx w' = w_tx w)).
Proof.
  unfold BeginTx. destruct (next_outcome w) as [o w1] eqn:E. apply next_later in E as (Hl & Hp & Ht & _).
  destruct o as [|err|err]; eexists; (split; [|split]); [..|left; split; [reflexivity|]| | |right; by eexists| | |right; by eexists];
    try done; cbn; by rewrite Hp.
Qed.
Lemma Commit_cases w d : w_tx w = Some d -> let '(w', r) := Commit w in w_tx w' = None /\ later w w' /\
  ((w_pool w' = d /\ (r = Ok tt \/ (~ settled (w_next w O) /\ exists err, r = Err err))) \/
   (w_pool w' = w_pool w /\ exists err, r = Err err)).
Proof.
  intros Hd. unfold Commit. destruct (next_outcome w) as [o w1] eqn:E. apply next_later in E as (Hl & Hp & Ht & Ho).
  rewrite Ht, Hd. cbn [default]. destruct o as [|err|err]; cbn [w_tx w_pool]; (split; [done|]); (split; [done|]).
  - left. split; [done|by left].
  - right. split; [done|by eexists].
  - left. split; [done|]. right. rewrite <- Ho. split; [by intros []|by eexists].
Qed.
Lemma Rollback_cases w : let '(w', r) := Rollback w in w_tx w' = None /\ w_pool w' = w_pool w /\ later w w' /\
  forall m, r <> Panicked m.
Proof.
  unfold Rollback. destruct (next_outcome w) as [o w1] eqn:E. apply next_later in E as (Hl & Hp & Ht & Ho). cbn.
  split; [done|]. split; [done|]. split; [done|]. intros m. by destruct o.
Qed.

(** The contents afterwards are those the callback left, if it succeeded, or
    those of before; unless an answer is lost the result tells which. *)
Lemma WithinTransaction_all_or_nothing database ctx callback w P :
  w_tx w = None -> (forall d, database = Some d -> within (callback (with_transaction d ctx)) P) ->
  let '(w', r) := WithinTransaction database ctx (Some callback) w in
  w_tx w' = None /\ later w w' /\
  ((w_pool w' = w_pool w /\ forall u, r <> Ok u) \/
   (P (w_pool w) (w_pool w') (Ok tt) /\ (r = Ok tt \/ (~ all_settled (w_next w) /\ exists err, r = Err err)))).
Proof.
  intros Hw Hc. unfold WithinTransaction. destruct database as [d|]; [|by split; [|split; [apply later_refl|left]]].
  destruct (dbc_ctx ctx) as [|cerr]; [by split; [|split; [apply later_refl|left]]|].
  destruct (transactionFromContext d ctx); [by split; [|split; [apply later_refl|left]]|].
  destruct (BeginTx_cases w) as (w1 & Hl1 & Hp1 & [[E Ht1]|(err & E & Ht1)]); rewrite E.
  2: { split; [congruence|]. split; [done|]. by left. }
  specialize (Hc d eq_refl w1 (w_pool w) Ht1). destruct (callback (with_transaction d ctx) w1) as [w2 r].
  destruct Hc as (d' & Hp2 & Ht2 & Hl2 & HP). assert (later w w2) as Hl by (by eapply later_trans).
  destruct r as [[]|err|m].
  - pose proof (Commit_cases w2 d' Ht2) as Hcom. destruct (Commit w2) as [w3 r]. destruct Hcom as (Ht3 & Hl3 & Hcase).
    assert (later w w3) as Hl' by (by eapply later_trans).
    destruct Hcase as [(Hp3 & [->|(Hs & err & ->)])|(Hp3 & err & ->)]; (split; [done|]); (split; [done|]).
    + right. rewrite Hp3. split; [done|by left].
    + right. rewrite Hp3. split; [done|]. right. split; [|by eexists]. intros Hset. apply Hs. by apply (later_settled w).
    + left. split; [congruence|done].
  - pose proof (Rollback_cases w2) as Hr. destruct (Rollback w2) as [w3 r]. destruct Hr as (Ht3 & Hp3 & Hl3 & Hnp).
    destruct r as [u|rerr|m]; (split; [done|]); (split; [by eapply later_trans|]); left; (split; [congruence|done]).
  - pose proof (Rollback_cases w2) as Hr. destruct (Rollback w2) as [w3 r]. destruct Hr as (Ht3 & Hp3 & Hl3 & _).
    split; [done|]. split; [by eapply later_trans|]. left. split; [congruence|done].
Qed.
End World.
Arguments world : clear implicits.
Arguments sql : clear implicits.

Definition ErrMigrationRunnerUnavailable := ErrNew "framework: migration runner is unavailable".
Definition ErrMigrationContextUnavailable := ErrNew "framework: migration context is unavailable".
Definition ErrMigrationStoreUnavailable := ErrNew "framework: migration store is unavailable".
Definition ErrInvalidMigration := ErrNew "framework: migration is invalid".
Definition ErrMigrationAlreadyDefined := ErrNew "framework: migration is already defined".
Definition ErrMigrationRegistrationClosed := ErrNew "framework: migration registration is closed".
Definition ErrMigrationStoreFailed := ErrNew "framework: migration store operation failed".
Definition ErrMigrationHistoryInvalid := ErrNew "framework: migration history is invalid".
Definition ErrMigrationDefinitionMissing := ErrNew "framework: applied migration definition is missing".
Definition ErrMigrationNameMismatch := ErrNew "framework: applied migration name does not match".
Definition ErrMigrationDownUnavailable := ErrNew "framework: migration down callback is unavailable".
Definition ErrMigrationExecutionFailed := ErrNew "framework: migration execution failed".
Definition ErrMigrationRevertFailed := ErrNew "framework: migration revert failed".
Definition ErrMigrationPanicked := ErrNew "framework: migration callback panicked".
Definition nil_dereference := ErrNew "runtime error: invalid memory address or nil pointer dereference".

Record AppliedMigration := MkAppliedMigration { am_Version : string; am_Name : string; am_Batch : Z }.
Record MigrationRunResult := MkMigrationRunResult { run_Batch : Z; run_Applied : list AppliedMigration }.
Record MigrationRollbackResult := MkMigrationRollbackResult { back_Batch : Z; back_RolledBack : list AppliedMigration }.
Record MigrationStatus := MkMigrationStatus { st_Version : string; st_Name : string; st_Applied : bool; st_Batch : Z }.

Inductive MigrationDirection := MigrationDirectionUp | MigrationDirectionDown.
Record MigrationFailure := MkMigrationFailure {
  fail_Direction : MigrationDirection;
  fail_Migration : AppliedMigration;
  fail_Err : goerror
}.

(** The error a run ends with, if any: an ordinary one, or a failure. *)
Inductive run_stop :=
| StopErr (err : goerror)
| StopFailure (failure : MigrationFailure)
| StopPanic (message : string).
(** [errors.Is] of a failure: its own [Is], then what it unwraps to. *)
Definition failure_is (failure : MigrationFailure) (target : goerror) : bool :=
  match fail_Direction failure with
  | MigrationDirectionUp => errors_is ErrMigrationExecutionFailed target
  | MigrationDirectionDown => errors_is ErrMigrationRevertFailed target
  end || errors_is (fail_Err failure) target.

Definition migrationStoreError (operation : string) (err : goerror) : goerror := errorf2 ErrMigrationStoreFailed operation err.

(** ** The store of applied migrations

    Each operation with what becomes of its statement. *)
Class MigrationStore (D : Type) := {
  store_Ensure : db_outcome -> D -> D * result unit;
  store_Applied : db_outcome -> D -> D * result (list AppliedMigration);
  store_Record : db_outcome -> AppliedMigration -> D -> D * result unit;
  store_Remove : db_outcome -> string -> D -> D * result unit
}.

Section Runner.
Context {D : Type} `{!MigrationStore D}.

Definition MigrationFunc : Type := D -> D * result unit.
Record Migration := MkMigration {
  Version : string;
  Name : string;
  Up : option MigrationFunc;
  Down : option MigrationFunc;
  DisableTransaction : bool
}.
Record MigrationRunner := MkMigrationRunner {
  mr_database : Database;
  mr_migrations : gmap string Migration;
  mr_registrationClosed : bool
}.

Definition NewMigrationRunner (database : Database) (store : bool) : result MigrationRunner :=
  match database with
  | None => Err ErrDatabaseUnavailable
  | Some _ => if negb store then Err ErrMigrationStoreUnavailable else Ok (MkMigrationRunner database ∅ false)
  end.

(** ** Registration *)

Definition trimmed (m : Migration) : Migration :=
  MkMigration (TrimSpace (Version m)) (TrimSpace (Name m)) (Up m) (Down m) (DisableTransaction m).
Definition is_nil {A} (x : option A) : bool := match x with None => true | Some _ => false end.

Fixpoint normalize (defined : gmap string Migration) (seen : gset string) (normalized migrations : list Migration)
    : result (list Migration) :=
  match migrations with
  | [] => Ok normalized
  | m :: migrations =>
      let m := trimmed m in
      if String.eqb (Version m) "" || (255 <? string_length (Version m)) ||
         String.eqb (Name m) "" || (255 <? string_length (Name m)) || is_nil (Up m)
      then Err ErrInvalidMigration
      else if bool_decide (is_Some (defined !! Version m)) then Err (errorf1 ErrMigrationAlreadyDefined (Version m))
      else if bool_decide (Version m ∈ seen) then Err (errorf1 ErrMigrationAlreadyDefined (Version m))
      else normalize defined ({[Version m]} ∪ seen) (normalized ++ [m]) migrations
  end.

Definition Register_locked (migrations : list Migration) (r : MigrationRunner) : MigrationRunner * result unit :=
  if mr_registrationClosed r then (r, Err ErrMigrationRegistrationClosed)
  else match normalize (mr_migrations r) ∅ [] migrations with
       | Ok normalized =>
           (MkMigrationRunner (mr_database r)
              (fold_left (fun ms m => <[Version m := m]> ms) normalized (mr_migrations r)) (mr_registrationClosed r), Ok tt)
       | Err err => (r, Err err)
       | Panicked m => (r, Panicked m)
       end.
Definition Register (migrations : list Migration) : option MigrationRunner -> option MigrationRunner * result unit :=
  fun r => with_receiver ErrMigrationRunnerUnavailable r (Register_locked migrations).

Definition version_before (a b : Migration) : Prop := String.le (Version a) (Version b).
#[export] Instance version_before_dec : RelDecision version_before.
Proof. intros a b. unfold version_before. apply _. Defined.
Definition applied_before (a b : AppliedMigration) : Prop := String.le (am_Version a) (am_Version b).
#[export] Instance applied_before_dec : RelDecision applied_before.
Proof. intros a b. unfold applied_before. apply _. Defined.

Definition migrationSnapshotLocked (r : MigrationRunner) : list Migration :=
  merge_sort version_before (map_to_list (mr_migrations r)).*2.
Definition snapshot (closeRegistration : bool) (r : MigrationRunner) : MigrationRunner * list Migration :=
  (MkMigrationRunner (mr_database r) (mr_migrations r) (closeRegistration || mr_registrationClosed r),
   migrationSnapshotLocked r).
Definition Registered (r : option MigrationRunner) : list Migration :=
  match r with None => [] | Some r => migrationSnapshotLocked r end.

Definition validateContext (ctx : db_context) (r : MigrationRunner) : result unit :=
  match dbc_ctx ctx with
  | NilContext => Err ErrMigrationContextUnavailable
  | Ctx (Some err) => Err err
  | Ctx None =>
      match mr_database r with
      | Some d => if transactionFromContext d ctx then Err ErrTransactionAlreadyActive else Ok tt
      | None => Ok tt
      end
  end.

(** ** The applied migrations *)

Definition definitions_of (migrations : list Migration) : gmap string Migration :=
  fold_left (fun ms m => <[Version m := m]> ms) migrations ∅.

Fixpoint check_applied (definitions : gmap string Migration) (seen : gset string) (applied : list AppliedMigration)
    : option goerror :=
  match applied with
  | [] => None
  | record :: applied =>
      if String.eqb (TrimSpace (am_Version record)) "" || String.eqb (TrimSpace (am_Name record)) "" || (am_Batch record <=? 0)
      then Some (errorf1 ErrMigrationHistoryInvalid "malformed applied migration")
      else if bool_decide (am_Version record ∈ seen)
      then Some (errorf1 ErrMigrationHistoryInvalid ("duplicate version " +:+ am_Version record))
      else match definitions !! am_Version record with
           | None => Some (errorf1 ErrMigrationDefinitionMissing (am_Version record))
           | Some m =>
               if negb (String.eqb (Name m) (am_Name record))
               then Some (errorf1 ErrMigrationNameMismatch
                            (am_Version record +:+ " has stored name " +:+ Quote (am_Name record) +:+
                             " and registered name " +:+ Quote (Name m)))
               else check_applied definitions ({[am_Version record]} ∪ seen) applied
           end
  end.

(** A store operation on an executor, its errors wrapped. *)
Definition store_call {A} (operation : string) (transaction : bool) (op : db_outcome -> D -> D * result A) : sql D A := fun w =>
  let '(o, w) := next_outcome w in
  match on_executor transaction (op o) w with
  | (w, Err err) => (w, Err (migrationStoreError operation err))
  | (w, r) => (w, r)
  end.

Definition loadApplied (ctx : db_context) (migrations : list Migration) (r : MigrationRunner) : sql D (list AppliedMigration) :=
  match Executor (mr_database r) ctx with
  | Err err => sql_ret (Err err)
  | Panicked m => sql_ret (Panicked m)
  | Ok executor =>
      sql_bind (store_call "ensure" executor store_Ensure) (fun _ =>
      sql_bind (store_call "list applied" executor store_Applied) (fun applied =>
        match check_applied (definitions_of migrations) ∅ applied with
        | Some err => sql_ret (Err err)
        | None => sql_ret (Ok (merge_sort applied_before applied))
        end))
  end.

(** ** Execution *)

(** A panic of the callback becomes an error; a nil callback panics. *)
Definition invokeMigration (transaction : bool) (callback : option MigrationFunc) : sql D unit := fun w =>
  match callback with
  | None => (w, Err (Errorf [W ErrMigrationPanicked; T ": "; W nil_dereference]))
  | Some f =>
      match on_executor transaction f w with
      | (w, Panicked m) => (w, Err (Errorf [W ErrMigrationPanicked; T ": "; T m]))
      | (w, r) => (w, r)
      end
  end.

Definition execute_migration (ctx : db_context) (disableTransaction : bool) (operation : bool -> sql D unit)
    (r : MigrationRunner) : sql D unit :=
  let with_executor ctx :=
    match Executor (mr_database r) ctx with
    | Ok executor => operation executor
    | Err err => sql_ret (Err err)
    | Panicked m => sql_ret (Panicked m)
    end in
  if disableTransaction then with_executor ctx
  else WithinTransaction (mr_database r) ctx (Some with_executor).

Definition up_operation (m : Migration) (record : AppliedMigration) (executor : bool) : sql D unit :=
  sql_bind (invokeMigration executor (Up m)) (fun _ =>
    store_call "record" executor (fun o => store_Record o record)).
Definition down_operation (m : Migration) (record : AppliedMigration) (executor : bool) : sql D unit :=
  sql_bind (invokeMigration executor (Down m)) (fun _ =>
    store_call "remove" executor (fun o => store_Remove o (am_Version record))).

(** ** Operations *)

Definition latest_batch (applied : list AppliedMigration) : Z :=
  fold_left (fun latest record => if latest <? am_Batch record then am_Batch record else latest) applied 0.

Definition Status (ctx : db_context) (r : option MigrationRunner) : sql D (list MigrationStatus) :=
  match r with
  | None => sql_ret (Err ErrMigrationRunnerUnavailable)
  | Some r =>
      match validateContext ctx r with
      | Err err => sql_ret (Err err)
      | Panicked m => sql_ret (Panicked m)
      | Ok _ =>
          let '(_, migrations) := snapshot false r in
          sql_bind (loadApplied ctx migrations r) (fun applied =>
            let byVersion : gmap string AppliedMigration := fold_left (fun by_ record => <[am_Version record := record]> by_) applied ∅ in
            sql_ret (Ok ((fun m => match byVersion !! Version m with
                                   | Some record => MkMigrationStatus (Version m) (Name m) true (am_Batch record)
                                   | None => MkMigrationStatus (Version m) (Name m) false 0
                                   end) <$> migrations)))
      end
  end.

(** The loop of [Migrate]: the migrations applied, and the failure that ended it. *)
Fixpoint migrate_loop (ctx : db_context) (batch : Z) (pending : list Migration) (done_ : list AppliedMigration)
    (r : MigrationRunner) (w : world D) : world D * (MigrationRunResult * option run_stop) :=
  match pending with
  | [] => (w, (MkMigrationRunResult batch done_, None))
  | m :: pending =>
      let record := MkAppliedMigration (Version m) (Name m) batch in
      match execute_migration ctx (DisableTransaction m) (up_operation m record) r w with
      | (w, Err err) =>
          (w, (MkMigrationRunResult batch done_, Some (StopFailure (MkMigrationFailure MigrationDirectionUp record err))))
      | (w, Panicked msg) => (w, (MkMigrationRunResult batch done_, Some (StopPanic msg)))
      | (w, Ok _) => migrate_loop ctx batch pending (done_ ++ [record]) r w
      end
  end.

Definition no_run : MigrationRunResult := MkMigrationRunResult 0 [].
Definition stop_of {A} (r : result A) : option run_stop :=
  match r with Ok _ => None | Err err => Some (StopErr err) | Panicked m => Some (StopPanic m) end.

(** The versions of [migrations] without a record. *)
Definition pending_of (migrations : list Migration) (applied : list AppliedMigration) : list Migration :=
  let appliedVersions : gset string := list_to_set (am_Version <$> applied) in
  filter (fun m => Version m ∉ appliedVersions) migrations.

Definition Migrate_locked (ctx : db_context) (r : MigrationRunner) (w : world D)
    : MigrationRunner * (world D * (MigrationRunResult * option run_stop)) :=
  match validateContext ctx r with
  | Err err => (r, (w, (no_run, Some (StopErr err))))
  | Panicked m => (r, (w, (no_run, Some (StopPanic m))))
  | Ok _ =>
      let '(r, migrations) := snapshot true r in
      (r, match loadApplied ctx migrations r w with
          | (w, Ok applied) =>
              let latestBatch := latest_batch applied in
              if latestBatch =? int64_max
              then (w, (no_run, Some (StopErr (errorf1 ErrMigrationHistoryInvalid "migration batch overflow"))))
              else
                let pending := pending_of migrations applied in
                match pending with
                | [] => (w, (no_run, None))
                | _ => migrate_loop ctx (latestBatch + 1) pending [] r w
                end
          | (w, res) => (w, (no_run, stop_of res))
          end)
  end.
Definition Migrate (ctx : db_context) (r : option MigrationRunner) (w : world D)
    : option MigrationRunner * (world D * (MigrationRunResult * option run_stop)) :=
  match r with
  | None => (None, (w, (no_run, Some (StopErr ErrMigrationRunnerUnavailable))))
  | Some r => let '(r, res) := Migrate_locked ctx r w in (Some r, res)
  end.

(** The records of the latest batch, the last version first; every one needs a
    [Down] before any is run. *)
Fixpoint rollback_batch (definitions : gmap string Migration) (latestBatch : Z) (reversed : list AppliedMigration)
    : goerror + list AppliedMigration :=
  match reversed with
  | [] => inr []
  | record :: reversed =>
      if negb (am_Batch record =? latestBatch) then rollback_batch definitions latestBatch reversed
      else match definitions !! am_Version record ≫= Down with
           | None => inl (errorf1 ErrMigrationDownUnavailable (am_Version record))
           | Some _ => match rollback_batch definitions latestBatch reversed with
                       | inr batch => inr (record :: batch)
                       | inl err => inl err
                       end
           end
  end.

(** The zero [Migration], which a map gives for a missing version. *)
Definition zero_migration : Migration := MkMigration "" "" None None false.
Fixpoint rollback_loop (ctx : db_context) (definitions : gmap string Migration) (latestBatch : Z)
    (batch done_ : list AppliedMigration) (r : MigrationRunner) (w : world D)
    : world D * (MigrationRollbackResult * option run_stop) :=
  match batch with
  | [] => (w, (MkMigrationRollbackResult latestBatch done_, None))
  | record :: batch =>
      let m := default zero_migration (definitions !! am_Version record) in
      match execute_migration ctx (DisableTransaction m) (down_operation m record) r w with
      | (w, Err err) => (w, (MkMigrationRollbackResult latestBatch done_,
                             Some (StopFailure (MkMigrationFailure MigrationDirectionDown record err))))
      | (w, Panicked msg) => (w, (MkMigrationRollbackResult latestBatch done_, Some (StopPanic msg)))
      | (w, Ok _) => rollback_loop ctx definitions latestBatch batch (done_ ++ [record]) r w
      end
  end.

Definition no_rollback : MigrationRollbackResult := MkMigrationRollbackResult 0 [].
Definition Rollback_locked (ctx : db_context) (r : MigrationRunner) (w : world D)
    : MigrationRunner * (world D * (MigrationRollbackResult * option run_stop)) :=
  match validateContext ctx r with
  | Err err => (r, (w, (no_rollback, Some (StopErr err))))
  | Panicked m => (r, (w, (no_rollback, Some (StopPanic m))))
  | Ok _ =>
      let '(r, migrations) := snapshot true r in
      (r, match loadApplied ctx migrations r w with
          | (w, Ok applied) =>
              let latestBatch := latest_batch applied in
              if latestBatch =? 0 then (w, (no_rollback, None))
              else
                let definitions := definitions_of migrations in
                match rollback_batch definitions latestBatch (reverse applied) with
                | inl err => (w, (no_rollback, Some (StopErr err)))
                | inr batch => rollback_loop ctx definitions latestBatch batch [] r w
                end
          | (w, res) => (w, (no_rollback, stop_of res))
          end)
  end.
Definition Rollback_migrations (ctx : db_context) (r : option MigrationRunner) (w : world D)
    : option MigrationRunner * (world D * (MigrationRollbackResult * option run_stop)) :=
  match r with
  | None => (None, (w, (no_rollback, Some (StopErr ErrMigrationRunnerUnavailable))))
  | Some r => let '(r, res) := Rollback_locked ctx r w in (Some r, res)
  end.
End Runner.
Arguments Migration : clear implicits.
Arguments MigrationFunc : clear implicits.
Arguments MigrationRunner : clear implicits.

(** ** The SQL store *)

Definition ErrInvalidSQLMigrationStoreOptions := ErrNew "framework: SQL migration store options are invalid".
Record SQLMigrationStore := MkSQLMigrationStore { ms_table : string; ms_placeholderStyle : string }.
Definition DefaultSQLMigrationStoreOptions : SQLMigrationStore := MkSQLMigrationStore "bridra_migrations" SQLPlaceholderQuestionMark.
Definition NewSQLMigrationStore (options : SQLMigrationStore) : result SQLMigrationStore :=
  let name := if String.eqb (ms_table options) "" then ms_table DefaultSQLMigrationStoreOptions else ms_table options in
  let style := if String.eqb (ms_placeholderStyle options) "" then ms_placeholderStyle DefaultSQLMigrationStoreOptions
               else ms_placeholderStyle options in
  if negb (validSQLIdentifier name) ||
     (negb (String.eqb style SQLPlaceholderQuestionMark) && negb (String.eqb style SQLPlaceholderDollar))
  then Err ErrInvalidSQLMigrationStoreOptions else Ok (MkSQLMigrationStore name style).

(** What a database holds: the table of migrations, if it exists, and the rest. *)
Record migration_db (R : Type) := MigrationDb { mdb_rest : R; mdb_table : option (gmap string (string * Z)) }.
Arguments MigrationDb {R}.
Arguments mdb_rest {R}.
Arguments mdb_table {R}.

Section SqlStore.
Context {R : Type}.
(** The database's errors for a table that does not exist and for a second row of a key. *)
Variables (no_table duplicate : goerror).

Definition sql_statement {A} (o : db_outcome) (f : migration_db R -> migration_db R * result A) (d : migration_db R)
    : migration_db R * result A :=
  match o with
  | Answered => f d
  | Refused err => (d, Err err)
  | Lost err => ((f d).1, Err err)
  end.

(** [CREATE TABLE IF NOT EXISTS] *)
Definition SQL_Ensure_migrations (o : db_outcome) : migration_db R -> migration_db R * result unit :=
  sql_statement o (fun d => (MigrationDb (mdb_rest d) (Some (default ∅ (mdb_table d))), Ok tt)).
(** [SELECT ... ORDER BY version ASC] *)
Definition row_applied (row : string * (string * Z)) : AppliedMigration := MkAppliedMigration row.1 row.2.1 row.2.2.
Definition SQL_Applied (o : db_outcome) : migration_db R -> migration_db R * result (list AppliedMigration) :=
  sql_statement o (fun d => (d, match mdb_table d with
    | None => Err no_table
    | Some t => Ok (merge_sort applied_before (row_applied <$> map_to_list t))
    end)).
Definition SQL_Record (o : db_outcome) (record : AppliedMigration) : migration_db R -> migration_db R * result unit :=
  sql_statement o (fun d => match mdb_table d with
    | None => (d, Err no_table)
    | Some t => match t !! am_Version record with
                | Some _ => (d, Err duplicate)
                | None => (MigrationDb (mdb_rest d) (Some (<[am_Version record := (am_Name record, am_Batch record)]> t)), Ok tt)
                end
    end).
Definition SQL_Remove (o : db_outcome) (version : string) : migration_db R -> migration_db R * result unit :=
  sql_statement o (fun d => match mdb_table d with
    | None => (d, Err no_table)
    | Some t => (MigrationDb (mdb_rest d) (Some (delete version t)), Ok tt)
    end).

#[export] Instance SQLMigrationStore_ops : MigrationStore (migration_db R) := {
  store_Ensure := SQL_Ensure_migrations; store_Applied := SQL_Applied; store_Record := SQL_Record; store_Remove := SQL_Remove
}.
End SqlStore.
