(* ===== verification/MigrationsFacts.v ===== *)
(** * Migrations: what a run leaves behind

    Proved against the laws of a store of applied migrations; the SQL store
    satisfies them.  A migration takes place with its record or not at all, a
    run applies a first part of the pending versions in order, and a rollback
    undoes what the last run did. *)
From S2P Require Import Prelude GoTime GoStrings Statements Migrations.
Open Scope Z_scope.
Open Scope go_scope.

(** What a store of applied migrations promises: it keeps a history of name and
    batch per version, apart from the other contents of the database. *)
Class MigrationStoreLaws (D R : Type) `{!MigrationStore D} := {
  history : D -> gmap string (string * Z);
  contents : D -> R;
  Ensure_law o d d' r : store_Ensure o d = (d', r) -> history d' = history d /\ contents d' = contents d;
  Applied_law o d d' r : store_Applied o d = (d', r) -> history d' = history d /\ contents d' = contents d /\
    forall l, r = Ok l -> l ≡ₚ row_applied <$> map_to_list (history d);
  Record_law o a d d' u : store_Record o a d = (d', Ok u) -> contents d' = contents d /\
    history d !! am_Version a = None /\ history d' = <[am_Version a := (am_Name a, am_Batch a)]> (history d);
  Remove_law o v d d' u : store_Remove o v d = (d', Ok u) -> contents d' = contents d /\ history d' = delete v (history d)
}.

Section Facts.
Context {D R : Type} `{!MigrationStore D, !MigrationStoreLaws D R}.
Abbreviation world := (Migrations.world D).
Abbreviation Migration := (Migrations.Migration D).
Abbreviation MigrationRunner := (Migrations.MigrationRunner D).

#[local] Instance applied_before_trans : Transitive applied_before.
Proof. intros a b c. unfold applied_before. apply String.le_po. Qed.
#[local] Instance applied_before_total : Total applied_before.
Proof. intros a b. unfold applied_before. apply (total String.le). Qed.
#[local] Instance version_before_trans : Transitive (@version_before D).
Proof. intros a b c. unfold version_before. apply String.le_po. Qed.
#[local] Instance version_before_total : Total (@version_before D).
Proof. intros a b. unfold version_before. apply (total String.le). Qed.

(** ** Operations on an executor *)

(** What an operation does to the contents it works on, on the pool as well as
    in an open transaction. *)
Definition operates (p : bool -> sql D unit) (P : D -> D -> result unit -> Prop) : Prop :=
  within (p true) P /\
  forall w, w_tx w = None -> let '(w', r) := p false w in w_tx w' = None /\ later w w' /\ P (w_pool w) (w_pool w') r.

Definition if_ok (P : D -> D -> Prop) (d d' : D) (r : result unit) : Prop := r = Ok tt -> P d d'.

Lemma operates_bind p q (P Q : D -> D -> Prop) : operates p (if_ok P) -> operates q (if_ok Q) ->
  operates (fun tx => sql_bind (p tx) (fun _ => q tx)) (if_ok (fun d d' => exists d1, P d d1 /\ Q d1 d')).
Proof.
  intros [Hp Hp'] [Hq Hq']. split.
  - intros w d Hw. unfold sql_bind. specialize (Hp w d Hw). destruct (p true w) as [w1 r].
    destruct Hp as (d1 & H1 & H2 & H3 & H4). destruct r as [[]|err|m]; [|by exists d1..].
    specialize (Hq w1 d1 H2). destruct (q true w1) as [w2 r]. destruct Hq as (d2 & Q1 & Q2 & Q3 & Q4).
    exists d2. split; [congruence|]. split; [done|]. split; [by eapply later_trans|]. intros Hr. exists d1. split; [by apply H4|by apply Q4].
  - intros w Hw. unfold sql_bind. specialize (Hp' w Hw). destruct (p false w) as [w1 r].
    destruct Hp' as (H2 & H3 & H4). destruct r as [[]|err|m]; [|done..].
    specialize (Hq' w1 H2). destruct (q false w1) as [w2 r]. destruct Hq' as (Q2 & Q3 & Q4).
    split; [done|]. split; [by eapply later_trans|]. intros Hr. eexists. split; [by apply H4|by apply Q4].
Qed.

Lemma operates_invoke callback : operates (fun tx => invokeMigration tx callback)
  (if_ok (fun d d' => exists f, callback = Some f /\ f d = (d', Ok tt))).
Proof.
  unfold invokeMigration. split; intros w.
  - intros d Hw. destruct callback as [f|]; [|by exists d; repeat split; [|apply later_refl|]].
    unfold on_executor. rewrite Hw. destruct (f d) as [d' r] eqn:E.
    destruct r as [[]|err|m]; exists d'; (split; [done|]); (split; [done|]); (split; [by exists O|]); [|done..].
    intros _. by exists f.
  - intros Hw. destruct callback as [f|]; [|by split; [|split; [apply later_refl|]]].
    unfold on_executor. destruct (f (w_pool w)) as [d' r] eqn:E.
    destruct r as [[]|err|m]; (split; [done|]); (split; [by exists O|]); [|done..]. intros _. by exists f.
Qed.

Lemma store_call_pool {A} name (op : db_outcome -> D -> D * result A) w : let '(w', r) := store_call name false op w in
  w_tx w' = w_tx w /\ later w w' /\ exists o r', op o (w_pool w) = (w_pool w', r') /\ forall a, r = Ok a -> r' = Ok a.
Proof.
  unfold store_call, on_executor. destruct (next_outcome w) as [o w1] eqn:E. apply next_later in E as (Hl & Hp & Ht & _).
  rewrite Hp, Ht. destruct (op o (w_pool w)) as [d' r] eqn:E.
  destruct r as [a|err|m]; (split; [done|]); (split; [exact Hl|]); exists o; eexists; (split; [exact E|]); intros ?; congruence.
Qed.
Lemma operates_store name (op : db_outcome -> D -> D * result unit) : operates (fun tx => store_call name tx op)
  (if_ok (fun d d' => exists o, op o d = (d', Ok tt))).
Proof.
  split; intros w.
  - intros d Hw. unfold store_call, on_executor. destruct (next_outcome w) as [o w1] eqn:E.
    apply next_later in E as (Hl & Hp & Ht & _). rewrite Ht, Hw. destruct (op o d) as [d' r] eqn:E.
    destruct r as [[]|err|m]; exists d'; (split; [done|]); (split; [done|]); (split; [exact Hl|]); [|done..].
    intros _. by exists o.
  - intros Hw. pose proof (store_call_pool name op w) as H. destruct (store_call name false op w) as [w' r].
    destruct H as (Ht & Hl & o & r' & E & Hr). split; [congruence|]. split; [done|]. intros ->. exists o.
    by rewrite E, (Hr tt).
Qed.

(** ** One migration *)

(** The context carries no transaction of the runner's database. *)
Definition outside (ctx : db_context) (r : MigrationRunner) : Prop :=
  exists d err, mr_database r = Some d /\ dbc_ctx ctx = Ctx err /\ transactionFromContext d ctx = false.

Lemma validateContext_outside ctx r : validateContext ctx r = Ok tt -> mr_database r <> None -> outside ctx r.
Proof.
  unfold validateContext, outside. destruct (dbc_ctx ctx) as [|[err|]]; [done..|].
  destruct (mr_database r) as [d|]; [|done]. destruct (transactionFromContext d ctx) eqn:E; [done|]. intros _ _. by exists d, None.
Qed.

Lemma execute_cases ctx r disable p P w : operates p P -> outside ctx r -> w_tx w = None ->
  let '(w', res) := execute_migration ctx disable p r w in
  w_tx w' = None /\ later w w' /\ (res = Ok tt -> P (w_pool w) (w_pool w') (Ok tt)) /\
  (disable = false -> res <> Ok tt ->
    w_pool w' = w_pool w \/ (~ all_settled (w_next w) /\ P (w_pool w) (w_pool w') (Ok tt))).
Proof.
  intros [Hin Hout] (d & err & Hd & Hctx & Htx) Hw. unfold execute_migration. destruct disable.
  - rewrite Hd. unfold Executor. rewrite Hctx, Htx. specialize (Hout w Hw). destruct (p false w) as [w' res].
    destruct Hout as (Ht & Hl & HP). split; [done|]. split; [done|]. split; [by intros <-|done].
  - set (callback := fun ctx => match Executor (mr_database r) ctx with
      | Ok executor => p executor | Err err => sql_ret (Err err) | Panicked m => sql_ret (Panicked m) end).
    assert (forall d', mr_database r = Some d' -> within (callback (with_transaction d' ctx)) P) as Hc.
    { intros d' E. unfold callback. rewrite E. unfold Executor, with_transaction. cbn [dbc_ctx]. rewrite Hctx.
      unfold transactionFromContext. cbn [dbc_transactions existsb]. rewrite Nat.eqb_refl. cbn [orb]. exact Hin. }
    pose proof (WithinTransaction_all_or_nothing (mr_database r) ctx callback w P Hw Hc) as H.
    destruct (WithinTransaction _ _ _ w) as [w' res]. destruct H as (Ht & Hl & Hcase). split; [done|]. split; [done|].
    destruct Hcase as [[Hp Hno]|[HP Hcase]].
    + split; [intros E; by destruct (Hno tt)|]. intros _ _. by left.
    + split; [by intros _|]. intros _ Hne. destruct Hcase as [?|[Hs _]]; [done|]. by right.
Qed.

(** ** What the callbacks do

    [up v] and [down v] are what the callbacks of version [v] do to the contents
    when they succeed; they leave the history to the store. *)
Variables (up down : string -> R -> R).

Definition acts (f : MigrationFunc D) (g : R -> R) : Prop :=
  forall d d', f d = (d', Ok tt) -> contents d' = g (contents d) /\ history d' = history d.
Definition callbacks_act (m : Migration) : Prop :=
  (forall f, Up m = Some f -> acts f (up (Version m))) /\ (forall f, Down m = Some f -> acts f (down (Version m))).
Definition runner_ok (r : MigrationRunner) : Prop :=
  map_Forall (fun v m => Version m = v /\ callbacks_act m) (mr_migrations r) /\ mr_database r <> None.

Definition record_of (batch : Z) (m : Migration) : AppliedMigration := MkAppliedMigration (Version m) (Name m) batch.
Definition up_step (batch : Z) (m : Migration) (d d' : D) : Prop :=
  contents d' = up (Version m) (contents d) /\ history d !! Version m = None /\
  history d' = <[Version m := (Name m, batch)]> (history d).
Definition down_step (record : AppliedMigration) (d d' : D) : Prop :=
  contents d' = down (am_Version record) (contents d) /\ history d' = delete (am_Version record) (history d).

Lemma operates_weaken p (P Q : D -> D -> Prop) : (forall d d', P d d' -> Q d d') -> operates p (if_ok P) -> operates p (if_ok Q).
Proof.
  intros HPQ [Hin Hout]. split; intros w.
  - intros d Hw. specialize (Hin w d Hw). destruct (p true w) as [w' r]. destruct Hin as (d' & H1 & H2 & H3 & H4).
    exists d'. repeat (split; [done|]). intros Hr. by apply HPQ, H4.
  - intros Hw. specialize (Hout w Hw). destruct (p false w) as [w' r]. destruct Hout as (H1 & H2 & H3).
    repeat (split; [done|]). intros Hr. by apply HPQ, H3.
Qed.

Lemma up_operates m batch : callbacks_act m -> operates (up_operation m (record_of batch m)) (if_ok (up_step batch m)).
Proof.
  intros [Hup _]. unfold up_operation. eapply operates_weaken; [|apply operates_bind; [apply operates_invoke|apply operates_store]].
  intros d d' (d1 & (f & Hf & E) & o & E'). destruct (Hup f Hf _ _ E) as [Hc Hh].
  apply Record_law in E' as (Hc' & Hn & Hh'). cbn [record_of am_Version am_Name am_Batch] in *. rewrite Hh in Hn, Hh'.
  split; [congruence|]. by split.
Qed.
Lemma down_operates m record : callbacks_act m -> am_Version record = Version m ->
  operates (down_operation m record) (if_ok (down_step record)).
Proof.
  intros [_ Hdown] Hv. unfold down_operation. eapply operates_weaken; [|apply operates_bind; [apply operates_invoke|apply operates_store]].
  intros d d' (d1 & (f & Hf & E) & o & E'). destruct (Hdown f Hf _ _ E) as [Hc Hh].
  apply Remove_law in E' as (Hc' & Hh'). unfold down_step. rewrite Hh, Hv in *. split; [congruence|done].
Qed.

(** ** Loading the history *)

Lemma check_applied_ok (definitions : gmap string Migration) : forall applied seen, check_applied definitions seen applied = None ->
  NoDup (am_Version <$> applied) /\ Forall (fun a => (am_Version a ∉ seen) /\ 0 < am_Batch a /\
    exists m, definitions !! am_Version a = Some m /\ Name m = am_Name a) applied.
Proof.
  induction applied as [|a applied IH]; intros seen; cbn [check_applied]; [intros _; by split; constructor|].
  destruct (_ || _) eqn:Hm; [done|]. case_bool_decide as Hs; [done|].
  destruct (definitions !! am_Version a) as [m|] eqn:Hd; [|done].
  destruct (String.eqb_spec (Name m) (am_Name a)) as [Hn|]; [|done]. intros H. apply IH in H as [Hnd Hall].
  rewrite fmap_cons, NoDup_cons, Forall_cons. bool_prop. split; [split; [|done]|split].
  - intros Hin. apply list_elem_of_fmap in Hin as (a' & E & Hin). rewrite Forall_forall in Hall.
    destruct (Hall a' Hin) as [Hns _]. apply Hns. rewrite <- E. apply elem_of_union_l, elem_of_singleton. done.
  - split; [done|]. split; [done|]. by exists m.
  - eapply Forall_impl; [exact Hall|]. intros a' (Hns & Hb & Hex). split; [|done]. by apply not_elem_of_union in Hns as [_ ?].
Qed.

Definition load_ok (w w' : world) : Prop :=
  w_tx w' = None /\ later w w' /\ contents (w_pool w') = contents (w_pool w) /\ history (w_pool w') = history (w_pool w).

Lemma loadApplied_cases ctx migrations r w : outside ctx r -> w_tx w = None ->
  let '(w', res) := loadApplied ctx migrations r w in load_ok w w' /\
  forall l, res = Ok l -> l ≡ₚ row_applied <$> map_to_list (history (w_pool w)) /\
    StronglySorted applied_before l /\ Forall (fun a => 0 < am_Batch a /\
      exists m, definitions_of migrations !! am_Version a = Some m /\ Name m = am_Name a) l.
Proof.
  intros (d & err & Hd & Hctx & Htx) Hw. unfold loadApplied, Executor. rewrite Hd, Hctx, Htx. unfold sql_bind at 1.
  pose proof (store_call_pool "ensure" store_Ensure w) as H1. destruct (store_call "ensure" false store_Ensure w) as [w1 r1].
  destruct H1 as (Ht1 & Hl1 & o1 & r1' & E1 & _). apply Ensure_law in E1 as [Hh1 Hc1].
  destruct r1 as [[]|err1|m1]; [|by split; [split; [congruence|]|]..].
  unfold sql_bind. pose proof (store_call_pool "list applied" store_Applied w1) as H2.
  destruct (store_call "list applied" false store_Applied w1) as [w2 r2].
  destruct H2 as (Ht2 & Hl2 & o2 & r2' & E2 & Hr2). apply Applied_law in E2 as (Hh2 & Hc2 & Hl).
  assert (load_ok w w2) as Hload by (split; [congruence|]; split; [by eapply later_trans|]; split; congruence).
  destruct r2 as [applied|err2|m2]; [|done..]. destruct (check_applied _ ∅ applied) eqn:Hck; [done|].
  split; [done|]. intros l [= <-]. apply check_applied_ok in Hck as [_ Hall].
  specialize (Hl applied (Hr2 applied eq_refl)). rewrite Hh1 in Hl.
  split; [by rewrite merge_sort_Permutation|]. split.
  - apply (StronglySorted_merge_sort applied_before).
  - rewrite merge_sort_Permutation. eapply Forall_impl; [exact Hall|]. by intros a (_ & Hb & Hex).
Qed.

(** ** A run of [Migrate] *)

Definition done_up (ms : list Migration) (x : R) : R := fold_left (fun x m => up (Version m) x) ms x.
Definition recorded (batch : Z) (ms : list Migration) (h : gmap string (string * Z)) : gmap string (string * Z) :=
  fold_left (fun h m => <[Version m := (Name m, batch)]> h) ms h.
(** The migrations [ms] took place, with their records, and nothing else. *)
Definition took_place (batch : Z) (ms : list Migration) (d d' : D) : Prop :=
  contents d' = done_up ms (contents d) /\ history d' = recorded batch ms (history d).

Lemma took_place_cons batch m ms d d1 d' : up_step batch m d d1 -> took_place batch ms d1 d' -> took_place batch (m :: ms) d d'.
Proof. intros (H1 & _ & H2) [H3 H4]. unfold took_place, done_up, recorded in *. cbn [fold_left]. by rewrite <- H1, <- H2. Qed.
Lemma took_place_one batch m d d' : up_step batch m d d' -> took_place batch [m] d d'.
Proof. intros (H1 & _ & H2). by split. Qed.

Definition transactional (ms : list Migration) : Prop := Forall (fun m => DisableTransaction m = false) ms.

Lemma migrate_loop_cases ctx r batch : outside ctx r -> forall pending w done_, w_tx w = None -> Forall callbacks_act pending ->
  let '(w', (res, stop)) := migrate_loop ctx batch pending done_ r w in
  exists ms rest, pending = ms ++ rest /\ run_Batch res = batch /\ run_Applied res = done_ ++ (record_of batch <$> ms) /\
    w_tx w' = None /\ later w w' /\
    (stop = None -> rest = [] /\ took_place batch ms (w_pool w) (w_pool w')) /\
    (transactional pending -> took_place batch ms (w_pool w) (w_pool w') \/
       (~ all_settled (w_next w) /\ stop <> None /\ exists m rest', rest = m :: rest' /\ took_place batch (ms ++ [m]) (w_pool w) (w_pool w'))).
Proof.
  intros Hout. induction pending as [|m pending IH]; intros w done_ Hw Hact; cbn [migrate_loop].
  - exists [], []. do 2 (split; [done|]). split; [by rewrite app_nil_r|]. split; [done|]. split; [apply later_refl|]. split; [done|]. by left.
  - apply Forall_cons in Hact as [Hm Hact].
    pose proof (execute_cases ctx r (DisableTransaction m) _ _ w (up_operates m batch Hm) Hout Hw) as H.
    fold (record_of batch m). destruct (execute_migration _ _ _ r w) as [w1 res]. destruct H as (Ht & Hl & Hok & Hfail).
    assert (res <> Ok tt -> transactional (m :: pending) -> took_place batch [] (w_pool w) (w_pool w1) \/
       (~ all_settled (w_next w) /\ exists m0 rest', m :: pending = m0 :: rest' /\ took_place batch ([] ++ [m0]) (w_pool w) (w_pool w1))) as Hf.
    { intros Hne Htr. apply Forall_cons in Htr as [Hd _]. destruct (Hfail Hd Hne) as [->|[Hs HP]]; [by left|]. right. split; [done|].
      exists m, pending. split; [done|]. by apply took_place_one, HP. }
    destruct res as [[]|err|msg].
    2, 3: exists [], (m :: pending); do 2 (split; [done|]); split; [by rewrite app_nil_r|]; do 3 (split; [done|]);
      intros Htr; destruct (Hf ltac:(done) Htr) as [?|[? ?]]; [by left|by right].
    specialize (IH w1 (done_ ++ [record_of batch m]) Ht Hact). destruct (migrate_loop ctx batch pending _ r w1) as [w2 [res stop]].
    destruct IH as (ms & rest & -> & Hb & Happ & Ht2 & Hl2 & Hsucc & Htr). exists (m :: ms), rest. split; [done|]. split; [done|].
    split; [by rewrite Happ, <- app_assoc|]. split; [done|]. split; [by eapply later_trans|].
    pose proof (Hok eq_refl eq_refl : up_step batch m (w_pool w) (w_pool w1)) as Hstep. split.
    + intros E. destruct (Hsucc E) as [Hr Htook]. split; [done|]. by eapply took_place_cons.
    + intros Htrans. apply Forall_cons in Htrans as [_ Htrans]. destruct (Htr Htrans) as [?|(Hs & Hstop & m' & rest' & -> & Htook)].
      * left. by eapply took_place_cons.
      * right. split; [intros Hset; by apply Hs, (later_settled w)|]. split; [done|]. exists m', rest'. split; [done|].
        rewrite <- app_comm_cons. by eapply took_place_cons.
Qed.

(** The registered migrations without a record, in version order. *)
Definition pending_from (h : gmap string (string * Z)) (r : MigrationRunner) : list Migration :=
  filter (fun m => h !! Version m = None) (migrationSnapshotLocked r).

Lemma pending_of_history h migrations l : l ≡ₚ row_applied <$> map_to_list h ->
  pending_of migrations l = filter (fun m : Migration => h !! Version m = None) migrations.
Proof.
  intros Hl. unfold pending_of. apply list_filter_iff. intros m. rewrite elem_of_list_to_set, Hl, list_elem_of_fmap.
  rewrite eq_None_not_Some. apply not_iff_compat. split.
  - intros (a & E & Ha). apply list_elem_of_fmap in Ha as ([v nb] & -> & Hin). apply elem_of_map_to_list in Hin.
    cbn in E. subst. by eexists.
  - intros [[n b] Hk]. exists (MkAppliedMigration (Version m) n b). split; [done|]. apply list_elem_of_fmap.
    exists (Version m, (n, b)). split; [done|]. by apply elem_of_map_to_list.
Qed.

Lemma Forall_filtered {A} (P Q : A -> Prop) `{!forall x, Decision (Q x)} l : Forall P l -> Forall P (filter Q l).
Proof. rewrite !Forall_forall. intros HP x Hx. apply list_elem_of_filter in Hx as [_ Hx]. by apply HP. Qed.

Lemma snapshot_act r : runner_ok r -> Forall callbacks_act (migrationSnapshotLocked r).
Proof.
  intros [Hok _]. unfold migrationSnapshotLocked. rewrite merge_sort_Permutation. apply Forall_forall. intros m Hm.
  apply list_elem_of_fmap in Hm as ([v m'] & -> & Hin). apply elem_of_map_to_list in Hin. by destruct (Hok v m' Hin).
Qed.

Definition closed_runner (r : MigrationRunner) : MigrationRunner := MkMigrationRunner (mr_database r) (mr_migrations r) true.

(** What a run comes to, for its three ways to end. *)
Definition run_outcome (r : MigrationRunner) (w w' : world) (res : MigrationRunResult) (stop : option run_stop) : Prop :=
  exists ms rest, pending_from (history (w_pool w)) r = ms ++ rest /\
    run_Applied res = record_of (run_Batch res) <$> ms /\ w_tx w' = None /\
    (ms <> [] -> 0 < run_Batch res /\ forall v n b, history (w_pool w) !! v = Some (n, b) -> b < run_Batch res) /\
    (stop = None -> rest = [] /\ took_place (run_Batch res) ms (w_pool w) (w_pool w')) /\
    (transactional (migrationSnapshotLocked r) -> took_place (run_Batch res) ms (w_pool w) (w_pool w') \/
       (~ all_settled (w_next w) /\ stop <> None /\ exists m rest', rest = m :: rest' /\
          took_place (run_Batch res) (ms ++ [m]) (w_pool w) (w_pool w'))).

Lemma fold_latest l : forall z, z <= fold_left (fun latest record => if latest <? am_Batch record then am_Batch record else latest) l z /\
  Forall (fun a => am_Batch a <= fold_left (fun latest record => if latest <? am_Batch record then am_Batch record else latest) l z) l /\
  (fold_left (fun latest record => if latest <? am_Batch record then am_Batch record else latest) l z = z \/
   exists a, a ∈ l /\ fold_left (fun latest record => if latest <? am_Batch record then am_Batch record else latest) l z = am_Batch a).
Proof.
  induction l as [|a l IH]; intros z; cbn [fold_left]; [split; [lia|]; split; [constructor|by left]|].
  set (z' := if z <? am_Batch a then am_Batch a else z).
  assert (z <= z' /\ am_Batch a <= z' /\ (z' = z \/ z' = am_Batch a)) as (H1 & H2 & H3) by (unfold z'; destruct (Z.ltb_spec z (am_Batch a)); lia).
  destruct (IH z') as (H4 & H5 & H6). split; [lia|]. split; [constructor; [lia|done]|].
  destruct H6 as [->|(b & Hb & ->)]; [destruct H3 as [->| -> ]; [by left|right; exists a; split; [by left|done]]|].
  right. exists b. split; [by right|done].
Qed.
Lemma latest_batch_spec l : 0 <= latest_batch l /\ Forall (fun a => am_Batch a <= latest_batch l) l /\
  (latest_batch l = 0 \/ exists a, a ∈ l /\ latest_batch l = am_Batch a).
Proof. apply fold_latest. Qed.

Lemma Migrate_cases ctx r w : runner_ok r -> w_tx w = None ->
  let '(r', (w', (res, stop))) := Migrate ctx (Some r) w in
  run_outcome r w w' res stop /\ (exists closed, r' = Some (MkMigrationRunner (mr_database r) (mr_migrations r) closed)).
Proof.
  intros Hr Hw. unfold Migrate, Migrate_locked.
  assert (forall (w' : world) stop, w_tx w' = None -> contents (w_pool w') = contents (w_pool w) ->
    history (w_pool w') = history (w_pool w) -> stop <> None -> run_outcome r w w' no_run stop) as Hnone.
  { intros w' stop Ht Hc Hh Hs. exists [], (pending_from (history (w_pool w)) r). do 4 (split; [done|]). split; [done|]. intros _. by left. }
  destruct (validateContext ctx r) as [[]|err|m] eqn:Hv; [|by split; [apply Hnone|exists (mr_registrationClosed r); destruct r]..].
  apply validateContext_outside in Hv; [|by apply Hr]. cbn [snapshot]. cbv zeta beta iota.
  change (MkMigrationRunner (mr_database r) (mr_migrations r) (true || mr_registrationClosed r)) with (closed_runner r).
  assert (outside ctx (closed_runner r)) as Hout by done.
  pose proof (loadApplied_cases ctx (migrationSnapshotLocked r) (closed_runner r) w Hout Hw) as Hload.
  destruct (loadApplied _ _ _ w) as [w1 res]. destruct Hload as [(Ht1 & Hl1 & Hc1 & Hh1) Hload].
  destruct res as [applied|err|m]; [|by split; [apply Hnone|exists true]..]. destruct (Hload applied eq_refl) as (Hp & _ & _).
  destruct (latest_batch applied =? int64_max); [by split; [apply Hnone|exists true]|].
  rewrite (pending_of_history _ _ _ Hp). fold (pending_from (history (w_pool w)) r).
  assert (Forall callbacks_act (pending_from (history (w_pool w)) r)) as Hact by (by apply Forall_filtered, snapshot_act).
  destruct (pending_from (history (w_pool w)) r) as [|m pending] eqn:Epend.
  { split; [|by exists true]. exists [], []. do 4 (split; [done|]). split; [by split|]. intros _. by left. }
  pose proof (migrate_loop_cases ctx (closed_runner r) (latest_batch applied + 1) Hout (m :: pending) w1 [] Ht1 Hact) as Hloop.
  destruct (migrate_loop _ _ _ _ _ w1) as [w2 [res stop]]. split; [|by exists true].
  destruct Hloop as (ms & rest & E & Hb & Happ & Ht2 & Hl2 & Hsucc & Htr). exists ms, rest. split; [by rewrite Epend|].
  rewrite Hb. split; [done|]. split; [done|].
  assert (forall ms', took_place (latest_batch applied + 1) ms' (w_pool w1) (w_pool w2) ->
    took_place (latest_batch applied + 1) ms' (w_pool w) (w_pool w2)) as Hback by (intros ms' [H1 H2]; split; congruence).
  split; [|split].
  - intros _. destruct (latest_batch_spec applied) as (Hge & Hall & _). split; [lia|]. intros v n b Hk. rewrite Forall_forall in Hall.
    specialize (Hall (row_applied (v, (n, b)))). cbn in Hall. assert (b <= latest_batch applied); [|lia]. apply Hall.
    rewrite Hp. apply list_elem_of_fmap. exists (v, (n, b)). split; [done|]. by apply elem_of_map_to_list.
  - intros Es. destruct (Hsucc Es) as [? ?]. split; [done|by apply Hback].
  - intros Htrans. assert (transactional (m :: pending)) as Htp by (rewrite <- Epend; by apply Forall_filtered).
    destruct (Htr Htp) as [?|(Hs & Hstop & m' & rest' & -> & Htook)]; [left; by apply Hback|].
    right. split; [intros Hset; by apply Hs, (later_settled w)|]. split; [done|]. exists m', rest'. split; [done|by apply Hback].
Qed.

(** C24. [Migrate] applies pending versions in order.  Whatever statements,
    commits and callbacks fail: what the result lists is an initial part of the
    registered migrations without a record, in version order, under a batch
    above all recorded ones; if it reports no error that is all of them, and the
    contents are what their callbacks make of the contents before, the history
    that before with exactly their records.  When all migrations run in
    transactions this holds with an error too, but that one more of them may
    have been committed, and only when an answer of the database was lost.
    (Of a migration that runs without a transaction and fails nothing is said:
    its [Up] may have been applied in part, or without a record.) *)
Theorem migrate_applies_pending_in_order ctx r w :
  runner_ok r -> w_tx w = None ->
  let '(r', (w', (res, stop))) := Migrate ctx (Some r) w in
  exists ms rest, pending_from (history (w_pool w)) r = ms ++ rest /\
    run_Applied res = record_of (run_Batch res) <$> ms /\ w_tx w' = None /\
    (ms <> [] -> 0 < run_Batch res /\ forall v n b, history (w_pool w) !! v = Some (n, b) -> b < run_Batch res) /\
    (stop = None -> rest = [] /\ took_place (run_Batch res) ms (w_pool w) (w_pool w')) /\
    (transactional (migrationSnapshotLocked r) -> took_place (run_Batch res) ms (w_pool w) (w_pool w') \/
       (~ all_settled (w_next w) /\ stop <> None /\ exists m rest', rest = m :: rest' /\
          took_place (run_Batch res) (ms ++ [m]) (w_pool w) (w_pool w'))).
Proof.
  intros Hr Hw. pose proof (Migrate_cases ctx r w Hr Hw) as H. destruct (Migrate ctx (Some r) w) as [r' [w' [res stop]]].
  by destruct H as [H _].
Qed.

(** ** Undoing a run *)

Definition undone (records : list AppliedMigration) (d d' : D) : Prop :=
  contents d' = fold_left (fun x a => down (am_Version a) x) records (contents d) /\
  history d' = fold_left (fun h a => delete (am_Version a) h) records (history d).

Lemma undone_cons a records d d1 d' : down_step a d d1 -> undone records d1 d' -> undone (a :: records) d d'.
Proof. intros [H1 H2] [H3 H4]. unfold undone. cbn [fold_left]. by rewrite <- H1, <- H2. Qed.

Lemma rollback_batch_filter (definitions : gmap string Migration) latest : forall reversed batch,
  rollback_batch definitions latest reversed = inr batch -> batch = filter (fun a => am_Batch a = latest) reversed.
Proof.
  induction reversed as [|a reversed IH]; intros batch; cbn [rollback_batch]; [by intros [= <-]|].
  rewrite filter_cons. destruct (Z.eqb_spec (am_Batch a) latest) as [E|E]; cbn [negb].
  - rewrite decide_True by done. destruct (_ ≫= _); [|done]. destruct (rollback_batch _ _ reversed) as [|b] eqn:Eb; [done|].
    intros [= <-]. f_equal. by apply IH.
  - rewrite decide_False by done. apply IH.
Qed.

Lemma rollback_loop_cases ctx r (definitions : gmap string Migration) latest : outside ctx r ->
  (forall v m, definitions !! v = Some m -> Version m = v /\ callbacks_act m) -> forall batch w done_,
  w_tx w = None -> Forall (fun a => is_Some (definitions !! am_Version a)) batch ->
  let '(w', (res, stop)) := rollback_loop ctx definitions latest batch done_ r w in
  w_tx w' = None /\ (stop = None -> back_Batch res = latest /\ back_RolledBack res = done_ ++ batch /\
    undone batch (w_pool w) (w_pool w')).
Proof.
  intros Hout Hdef. induction batch as [|a batch IH]; intros w done_ Hw Hb; cbn [rollback_loop].
  - split; [done|]. intros _. by rewrite app_nil_r.
  - apply Forall_cons in Hb as [[m Hm] Hb]. destruct (Hdef _ _ Hm) as [Hv Hact]. rewrite Hm. cbn [default].
    pose proof (execute_cases ctx r (DisableTransaction m) _ _ w (down_operates m a Hact (eq_sym Hv)) Hout Hw) as H.
    destruct (execute_migration _ _ _ r w) as [w1 res]. destruct H as (Ht & _ & Hok & _).
    destruct res as [[]|err|msg]; [|done..].
    specialize (IH w1 (done_ ++ [a]) Ht Hb). destruct (rollback_loop _ _ _ batch _ r w1) as [w2 [res stop]].
    destruct IH as [Ht2 Hs]. split; [done|]. intros E. destruct (Hs E) as (H1 & H2 & H3). split; [done|].
    split; [by rewrite H2, <- app_assoc|]. eapply undone_cons; [|done]. by apply Hok.
Qed.

(** *** The last batch is the run *)

Lemma recorded_lookup batch ms h v : NoDup (Version <$> ms) ->
  recorded batch ms h !! v = match list_find (fun m : Migration => Version m = v) ms with
                             | Some (_, m) => Some (Name m, batch)
                             | None => h !! v
                             end.
Proof.
  unfold recorded. revert h. induction ms as [|m ms IH]; intros h Hnd; [done|].
  rewrite fmap_cons in Hnd. apply NoDup_cons in Hnd as [Hn Hnd]. cbn [fold_left]. rewrite IH by done. cbn [list_find].
  destruct (decide (Version m = v)) as [<-|Hne].
  - destruct (list_find _ ms) as [[i m']|] eqn:E; [|by rewrite lookup_insert_eq].
    apply list_find_Some in E as (Hi & Hv & _). exfalso. apply Hn. rewrite <- Hv. apply list_elem_of_fmap. exists m'.
    split; [done|]. by eapply list_elem_of_lookup_2.
  - destruct (list_find _ ms) as [[i m']|]; [done|]. by rewrite lookup_insert_ne.
Qed.

Lemma recorded_fresh_any batch ms h : NoDup (Version <$> ms) -> (forall m, m ∈ ms -> h !! Version m = None) ->
  fold_left (fun h v => delete v h) (Version <$> reverse ms) (recorded batch ms h) = h.
Proof.
  intros Hnd Hfresh. apply map_eq. intros v.
  assert (forall l (g : gmap string (string * Z)), fold_left (fun h v => delete v h) l g !! v = if decide (v ∈ l) then None else g !! v) as Hdel.
  { induction l as [|x l IH]; intros g; [done|]. cbn [fold_left]. rewrite IH. destruct (decide (v ∈ l)) as [Hin|Hin].
    - by rewrite decide_True by (by right).
    - destruct (decide (x = v)) as [->|Hne]; [rewrite decide_True by (by left); apply lookup_delete_eq|].
      rewrite decide_False by (intros [?|?]%elem_of_cons; congruence). by rewrite lookup_delete_ne. }
  rewrite Hdel, fmap_reverse. rewrite (decide_ext (v ∈ reverse (Version <$> ms)) (v ∈ Version <$> ms)) by apply elem_of_reverse.
  case_decide as Hin.
  - apply list_elem_of_fmap in Hin as (m & -> & Hm). by rewrite Hfresh.
  - rewrite recorded_lookup by done. destruct (list_find _ ms) as [[i m]|] eqn:E; [|done].
    apply list_find_Some in E as (Hi & Hv & _). exfalso. apply Hin. rewrite <- Hv. apply list_elem_of_fmap. exists m.
    split; [done|]. by eapply list_elem_of_lookup_2.
Qed.

Lemma down_after_up ms x : (forall v y, down v (up v y) = y) ->
  fold_left (fun x v => down v x) (reverse (Version <$> ms)) (done_up ms x) = x.
Proof.
  intros Hinv. unfold done_up. revert x. induction ms as [|m ms IH]; intros x; [done|]. cbn [fold_left].
  rewrite fmap_cons, reverse_cons, fold_left_app, IH. apply Hinv.
Qed.

Lemma definitions_of_lookup (l : list Migration) v m : definitions_of l !! v = Some m -> m ∈ l /\ Version m = v.
Proof.
  unfold definitions_of. assert (forall (g : gmap string Migration), fold_left (fun ms m => <[Version m := m]> ms) l g !! v = Some m ->
    (m ∈ l /\ Version m = v) \/ g !! v = Some m) as H.
  { induction l as [|x l IH]; intros g Hk; [by right|]. cbn [fold_left] in Hk. destruct (IH _ Hk) as [[Hin Hv]|Hg].
    - left. split; [by right|done].
    - destruct (decide (Version x = v)) as [<-|Hne]; [|rewrite lookup_insert_ne in Hg by done; by right].
      rewrite lookup_insert_eq in Hg. injection Hg as ->. left. split; [by left|done]. }
  intros Hk. destruct (H _ Hk) as [?|Hg]; [done|]. by rewrite lookup_empty in Hg.
Qed.

Lemma snapshot_elem r m : runner_ok r -> m ∈ migrationSnapshotLocked r -> mr_migrations r !! Version m = Some m.
Proof.
  intros [Hok _]. unfold migrationSnapshotLocked. rewrite merge_sort_Permutation. intros Hm.
  apply list_elem_of_fmap in Hm as ([v m'] & -> & Hin). apply elem_of_map_to_list in Hin. cbn [snd].
  destruct (Hok v m' Hin) as [-> _]. done.
Qed.
Lemma snapshot_nodup r : runner_ok r -> NoDup (Version <$> migrationSnapshotLocked r).
Proof.
  intros [Hok _]. unfold migrationSnapshotLocked. rewrite merge_sort_Permutation.
  assert (Version <$> (map_to_list (mr_migrations r)).*2 = (map_to_list (mr_migrations r)).*1) as ->; [|apply NoDup_fst_map_to_list].
  rewrite <- list_fmap_compose. apply list_fmap_ext. intros i [v m] Hi. apply list_elem_of_lookup_2, elem_of_map_to_list in Hi.
  cbn. by destruct (Hok v m Hi) as [-> _].
Qed.

Lemma sorted_filtered {A} (Rel : relation A) (Q : A -> Prop) `{!forall x, Decision (Q x)} l :
  StronglySorted Rel l -> StronglySorted Rel (filter Q l).
Proof.
  induction 1 as [|x l Hs IH Hx]; [constructor|]. rewrite filter_cons. case_decide; [|done]. constructor; [done|]. by apply Forall_filtered.
Qed.
Lemma pending_sorted h r : StronglySorted version_before (pending_from h r).
Proof. apply sorted_filtered, (StronglySorted_merge_sort version_before). Qed.
Lemma pending_nodup h r : runner_ok r -> NoDup (Version <$> pending_from h r).
Proof.
  intros Hr. unfold pending_from. pose proof (snapshot_nodup r Hr) as H. revert H. generalize (migrationSnapshotLocked r) as l.
  induction l as [|m l IH]; [done|]. rewrite fmap_cons, NoDup_cons. intros [Hn Hnd]. rewrite filter_cons. case_decide; [|by apply IH].
  rewrite fmap_cons, NoDup_cons. split; [|by apply IH]. intros Hin. apply Hn. apply list_elem_of_fmap in Hin as (m' & E & Hm').
  apply list_elem_of_filter in Hm' as [_ Hm']. rewrite E. apply list_elem_of_fmap. by exists m'.
Qed.

Lemma sorted_records batch ms : StronglySorted version_before ms -> StronglySorted applied_before (record_of batch <$> ms).
Proof. induction 1 as [|m ms Hs IH Hm]; [constructor|]. cbn. constructor; [done|]. by apply Forall_fmap. Qed.

(** The records of the last batch are those of the run. *)
Lemma last_batch batch ms h l : NoDup (Version <$> ms) -> StronglySorted version_before ms ->
  (forall v n b, h !! v = Some (n, b) -> b < batch) ->
  l ≡ₚ row_applied <$> map_to_list (recorded batch ms h) -> StronglySorted applied_before l ->
  filter (fun a => am_Batch a = batch) l = record_of batch <$> ms.
Proof.
  intros Hnd Hs Hh Hl Hsl.
  assert (forall a, a ∈ filter (fun a => am_Batch a = batch) l <-> a ∈ record_of batch <$> ms) as Hsame.
  { intros [v n b]. rewrite list_elem_of_filter, Hl, !list_elem_of_fmap. cbn [am_Batch]. split.
    - intros [-> ([v' [n' b']] & [= -> -> <-] & Hin)]. apply elem_of_map_to_list in Hin. cbn in Hin. rewrite recorded_lookup in Hin by done.
      destruct (list_find _ ms) as [[i m]|] eqn:E; [|apply Hh in Hin; lia]. injection Hin as <-.
      apply list_find_Some in E as (Hi & <- & _). exists m. split; [done|]. by eapply list_elem_of_lookup_2.
    - intros (m & [= -> -> ->] & Hm). split; [done|]. exists (Version m, (Name m, batch)). split; [done|].
      apply elem_of_map_to_list. rewrite recorded_lookup by done.
      destruct (list_find_elem_of (fun m' : Migration => Version m' = Version m) ms m Hm eq_refl) as [[i m'] E]. rewrite E.
      apply list_find_Some in E as (Hi & Hv & _). apply list_elem_of_lookup_2 in Hi. do 2 f_equal.
      assert (m' = m) as ->; [|done]. apply list_elem_of_lookup_1 in Hi as [i1 Hi], Hm as [i2 Hm].
      assert (i1 = i2) as ->; [|congruence]. apply (NoDup_lookup (Version <$> ms) i1 i2 (Version m) Hnd);
        rewrite list_lookup_fmap; [by rewrite Hi, <- Hv|by rewrite Hm]. }
  assert (NoDup (am_Version <$> l)) as Hndl.
  { rewrite Hl, <- list_fmap_compose. change (am_Version ∘ row_applied) with (@fst string (string * Z)). apply NoDup_fst_map_to_list. }
  assert (NoDup (record_of batch <$> ms)) as Hndr.
  { apply (NoDup_fmap_1 am_Version). rewrite <- list_fmap_compose. exact Hnd. }
  apply (StronglySorted_unique_strong applied_before).
  - intros a a' Ha Ha' H1 H2. assert (am_Version a = am_Version a') as E by (by apply (anti_symm String.le)).
    apply Hsame in Ha. apply list_elem_of_fmap in Ha as (m & -> & Hm), Ha' as (m' & -> & Hm'). cbn in E.
    apply list_elem_of_lookup_1 in Hm as [i Hi], Hm' as [i' Hi'].
    assert (i = i') as ->; [|congruence]. apply (NoDup_lookup (Version <$> ms) i i' (Version m) Hnd);
      rewrite list_lookup_fmap; [by rewrite Hi|by rewrite Hi', E].
  - by apply sorted_filtered.
  - by apply sorted_records.
  - apply NoDup_Permutation; [apply NoDup_filter, (NoDup_fmap_1 am_Version); exact Hndl|done|done].
Qed.

Lemma Rollback_cases_after ctx r w batch ms h : runner_ok r -> w_tx w = None -> ms <> [] -> 0 < batch ->
  NoDup (Version <$> ms) -> StronglySorted version_before ms -> (forall v n b, h !! v = Some (n, b) -> b < batch) ->
  history (w_pool w) = recorded batch ms h ->
  let '(_, (w', (res, stop))) := Rollback_migrations ctx (Some r) w in
  stop = None -> back_Batch res = batch /\ back_RolledBack res = reverse (record_of batch <$> ms) /\
    undone (reverse (record_of batch <$> ms)) (w_pool w) (w_pool w').
Proof.
  intros Hr Hw Hne Hpos Hnd Hs Hh Hhist. unfold Rollback_migrations, Rollback_locked.
  destruct (validateContext ctx r) as [[]|err|m] eqn:Hv; [|done..].
  apply validateContext_outside in Hv; [|by apply Hr]. cbn [snapshot]. cbv zeta beta iota.
  change (MkMigrationRunner (mr_database r) (mr_migrations r) (true || mr_registrationClosed r)) with (closed_runner r).
  assert (outside ctx (closed_runner r)) as Hout by done.
  pose proof (loadApplied_cases ctx (migrationSnapshotLocked r) (closed_runner r) w Hout Hw) as Hload.
  destruct (loadApplied _ _ _ w) as [w1 res]. destruct Hload as [(Ht1 & Hl1 & Hc1 & Hh1) Hload].
  destruct res as [applied|err|m]; [|done..]. destruct (Hload applied eq_refl) as (Hp & Hsort & Hdef). clear Hload.
  rewrite Hhist in Hp. pose proof (last_batch batch ms h applied Hnd Hs Hh Hp Hsort) as Hlast.
  assert (latest_batch applied = batch) as Hlatest.
  { destruct (latest_batch_spec applied) as (_ & Hall & Hex). rewrite Forall_forall in Hall. destruct ms as [|m0 ms0]; [done|].
    assert (record_of batch m0 ∈ applied) as Hin.
    { assert (record_of batch m0 ∈ record_of batch <$> m0 :: ms0) as Hin by (by left). rewrite <- Hlast in Hin.
      by apply list_elem_of_filter in Hin as [_ ?]. }
    specialize (Hall _ Hin) as Hge. cbn in Hge. destruct Hex as [E|([v n b] & Ha & E)]; [lia|]. rewrite E in *. cbn [am_Batch] in *.
    rewrite Hp in Ha. apply list_elem_of_fmap in Ha as ([v' [n' b']] & [= -> -> ->] & Hk). apply elem_of_map_to_list in Hk.
    rewrite recorded_lookup in Hk by done. destruct (list_find _ _) as [[i m]|]; [congruence|]. apply Hh in Hk. lia. }
  rewrite Hlatest, (proj2 (Z.eqb_neq batch 0)) by lia.
  destruct (rollback_batch _ batch (reverse applied)) as [err|todo] eqn:Etodo; [done|].
  apply rollback_batch_filter in Etodo. rewrite filter_reverse, Hlast in Etodo. subst todo.
  pose proof (rollback_loop_cases ctx (closed_runner r) (definitions_of (migrationSnapshotLocked r)) batch Hout) as Hloop.
  assert (forall v m, definitions_of (migrationSnapshotLocked r) !! v = Some m -> Version m = v /\ callbacks_act m) as Hd.
  { intros v m Hk. apply definitions_of_lookup in Hk as [Hm Hvm]. split; [done|]. pose proof (snapshot_act r Hr) as Hact.
    rewrite Forall_forall in Hact. by apply Hact. }
  specialize (Hloop Hd (reverse (record_of batch <$> ms)) w1 [] Ht1).
  destruct (rollback_loop _ _ _ _ _ _ w1) as [w2 [res stop]]. intros E. destruct Hloop as [_ Hloop].
  - apply Forall_reverse. rewrite <- Hlast. apply Forall_filtered. eapply Forall_impl; [exact Hdef|].
    intros a (_ & m & Hk & _). by eexists.
  - destruct (Hloop E) as (H1 & H2 & [H3 H4]). split; [done|]. split; [done|]. split; congruence.
Qed.

(** C25. [Rollback] undoes [Migrate].  If [Migrate] succeeded and applied at least
    one migration, and the [Rollback] that follows succeeds, it took back exactly
    the migrations of that run, the last one first; the history is that before
    the run, and so are the contents of the database when every [Down] undoes
    its [Up]. *)
Theorem rollback_undoes_migrate ctx ctx' r w : runner_ok r -> w_tx w = None ->
  let '(r1, (w1, (run, stop))) := Migrate ctx (Some r) w in
  stop = None -> run_Applied run <> [] ->
  let '(_, (w2, (back, stop'))) := Rollback_migrations ctx' r1 w1 in
  stop' = None ->
  back_RolledBack back = reverse (run_Applied run) /\ back_Batch back = run_Batch run /\
  history (w_pool w2) = history (w_pool w) /\
  ((forall v x, down v (up v x) = x) -> contents (w_pool w2) = contents (w_pool w)).
Proof.
  intros Hr Hw. pose proof (Migrate_cases ctx r w Hr Hw) as H. destruct (Migrate ctx (Some r) w) as [r1 [w1 [run stop]]].
  destruct H as [(ms & rest & Epend & Happ & Ht1 & Hbatch & Hsucc & _) [closed ->]]. intros Es Hne.
  destruct (Hsucc Es) as [-> [Hc1 Hh1]]. rewrite app_nil_r in Epend.
  assert (ms <> []) as Hms by (intros ->; by rewrite Happ in Hne). destruct (Hbatch Hms) as [Hpos Hlt].
  assert (NoDup (Version <$> ms)) as Hnd by (rewrite <- Epend; by apply pending_nodup).
  assert (StronglySorted version_before ms) as Hs by (rewrite <- Epend; apply pending_sorted).
  set (r' := MkMigrationRunner (mr_database r) (mr_migrations r) closed).
  assert (runner_ok r') as Hr' by done.
  pose proof (Rollback_cases_after ctx' r' w1 _ ms (history (w_pool w)) Hr' Ht1 Hms Hpos Hnd Hs Hlt Hh1) as Hback.
  destruct (Rollback_migrations ctx' (Some r') w1) as [r2 [w2 [back stop']]]. intros Es'.
  destruct (Hback Es') as (Hb & Hrb & Hc2 & Hh2). split; [by rewrite Hrb, Happ|]. split; [done|].
  assert (am_Version <$> reverse (record_of (run_Batch run) <$> ms) = reverse (Version <$> ms)) as Hv
    by (by rewrite fmap_reverse, <- list_fmap_compose).
  assert (forall {A B} (f : A -> string -> A) (g : B -> string) l a, fold_left (fun x b => f x (g b)) l a = fold_left f (g <$> l) a) as Hfold.
  { intros A B f g l. induction l as [|b l IH]; intros a; [done|]. apply IH. }
  rewrite (Hfold _ _ (fun h v => delete v h) am_Version), Hv, Hh1 in Hh2.
  rewrite (Hfold _ _ (fun x v => down v x) am_Version), Hv, Hc1 in Hc2. split.
  - rewrite Hh2, <- fmap_reverse. apply (recorded_fresh_any (run_Batch run)); [done|].
    intros m Hm. rewrite <- Epend in Hm. by apply list_elem_of_filter in Hm as [? _].
  - intros Hinv. rewrite Hc2. by apply down_after_up.
Qed.
End Facts.

(** ** Registration *)

Section Registration.
Context {D : Type}.
Abbreviation Migration := (Migrations.Migration D).

(** Every definition is under its own version. *)
Definition keyed (ms : gmap string Migration) : Prop := map_Forall (fun v m => Version m = v) ms.

Lemma normalize_ok (defined : gmap string Migration) : forall migrations seen normalized l,
  normalize defined seen normalized migrations = Ok l -> exists new, l = normalized ++ new /\
    new = trimmed <$> migrations /\ NoDup (Version <$> new) /\
    Forall (fun m => defined !! Version m = None /\ (Version m ∉ seen) /\ Up m <> None) new.
Proof.
  induction migrations as [|m migrations IH]; intros seen normalized l; cbn [normalize].
  - intros [= <-]. exists []. rewrite app_nil_r. split; [done|]. split; [done|]. by split; constructor.
  - destruct (_ || is_nil (Up (trimmed m))) eqn:Hv; [done|]. case_bool_decide as Hd; [done|]. case_bool_decide as Hs; [done|].
    intros H. apply IH in H as (new & -> & Enew & Hnd & Hall). exists (trimmed m :: new).
    split; [by rewrite <- app_assoc|]. split; [by rewrite fmap_cons, Enew|]. rewrite fmap_cons, NoDup_cons, Forall_cons.
    rewrite Forall_forall in Hall. split; [split; [|done]|split].
    + intros Hin. apply list_elem_of_fmap in Hin as (m' & E & Hm'). destruct (Hall m' Hm') as (_ & Hns & _).
      apply Hns. rewrite <- E. by apply elem_of_union_l, elem_of_singleton.
    + split; [by apply eq_None_not_Some|]. split; [done|]. bool_prop. intros E. by rewrite E in *.
    + apply Forall_forall. intros m' Hm'. destruct (Hall m' Hm') as (Hd' & Hns & Hup). split; [done|]. split; [|done].
      by apply not_elem_of_union in Hns as [_ ?].
Qed.

(** Registration takes all of the migrations or none, and replaces none. *)
Lemma Register_all_or_none (migrations : list Migration) r : keyed (mr_migrations r) ->
  let '(r', res) := Register_locked migrations r in
  keyed (mr_migrations r') /\ mr_database r' = mr_database r /\
  match res with
  | Ok _ => (forall v m, mr_migrations r !! v = Some m -> mr_migrations r' !! v = Some m) /\
      Forall (fun m => mr_migrations r !! Version m = None /\ mr_migrations r' !! Version m = Some m) (trimmed <$> migrations)
  | _ => r' = r
  end.
Proof.
  intros Hk. unfold Register_locked. destruct (mr_registrationClosed r); [done|].
  destruct (normalize _ ∅ [] migrations) as [l| |] eqn:E; [|done..]. apply normalize_ok in E as (new & -> & Enew & Hnd & Hall).
  cbn [app mr_migrations mr_database]. rewrite <- Enew. clear Enew. revert Hnd Hall.
  enough (forall (g : gmap string Migration), keyed g -> NoDup (Version <$> new) -> Forall (fun m => g !! Version m = None) new ->
    keyed (fold_left (fun ms m => <[Version m := m]> ms) new g) /\
    (forall v m, g !! v = Some m -> fold_left (fun ms m => <[Version m := m]> ms) new g !! v = Some m) /\
    Forall (fun m => fold_left (fun ms m => <[Version m := m]> ms) new g !! Version m = Some m) new) as H.
  { intros Hnd Hall. destruct (H _ Hk Hnd) as (H1 & H2 & H3); [eapply Forall_impl; [exact Hall|]; by intros m [? _]|].
    split; [done|]. split; [done|]. split; [done|]. apply Forall_forall. intros m Hm. rewrite Forall_forall in Hall, H3.
    split; [by apply Hall|by apply H3]. }
  induction new as [|m new IH]; intros g Hg Hnd Hall; cbn [fold_left]; [by split; [|split; [|constructor]]|].
  rewrite fmap_cons in Hnd. apply NoDup_cons in Hnd as [Hn Hnd]. apply Forall_cons in Hall as [Hm Hall].
  destruct (IH (<[Version m := m]> g)) as (H1 & H2 & H3); [by apply map_Forall_insert_2|done| |].
  { apply Forall_forall. intros m' Hm'. rewrite lookup_insert_ne; [by apply (proj1 (Forall_forall _ _) Hall)|]. intros E. apply Hn. rewrite E.
    apply list_elem_of_fmap. by exists m'. }
  split; [done|]. split.
  - intros v m' Hv. apply H2. rewrite lookup_insert_ne; [done|]. intros <-. congruence.
  - constructor; [|done]. apply H2. apply lookup_insert_eq.
Qed.
End Registration.

(** ** The SQL store *)

Section Sql.
Context {R : Type}.
Variables (no_table duplicate : goerror).
#[local] Existing Instance SQLMigrationStore_ops.

#[export] Instance SQLMigrationStore_laws :
  @MigrationStoreLaws (migration_db R) R (SQLMigrationStore_ops no_table duplicate).
Proof.
  refine {| history := fun d => default ∅ (mdb_table d); contents := mdb_rest |}.
  - intros o d d' r. cbn. unfold SQL_Ensure_migrations, sql_statement. by destruct o; intros [= <- <-].
  - intros o d d' r. cbn. unfold SQL_Applied, sql_statement.
    destruct o as [|e|e]; intros [= <- <-]; (split; [done|]); (split; [done|]); [|done..].
    intros l. destruct (mdb_table d); [|done]. intros [= <-]. cbn. by rewrite merge_sort_Permutation.
  - intros o a d d' u. cbn. unfold SQL_Record, sql_statement. destruct o; [|done..]. destruct (mdb_table d) as [t|]; [|done].
    destruct (t !! am_Version a) eqn:E; [done|]. by intros [= <- _].
  - intros o v d d' u. cbn. unfold SQL_Remove, sql_statement. destruct o; [|done..]. destruct (mdb_table d) as [t|]; [|done].
    by intros [= <- _].
Defined.
End Sql.

(** Two migrations that add and take back a name, on a database that has none. *)
Module TwoTables.
Definition schema : Type := list string.
Definition db : Type := migration_db schema.
Definition no_table := ErrNew "no such table".
Definition duplicate := ErrNew "duplicate key".
#[global] Instance store : MigrationStore db := SQLMigrationStore_ops no_table duplicate.
#[global] Instance laws : MigrationStoreLaws db schema := SQLMigrationStore_laws no_table duplicate.
Definition up (v : string) (x : schema) : schema := v :: x.
Definition down (_ : string) (x : schema) : schema := tail x.
Definition up_callback (v : string) : MigrationFunc db := fun d => (MigrationDb (up v (mdb_rest d)) (mdb_table d), Ok tt).
Definition down_callback (v : string) : MigrationFunc db := fun d => (MigrationDb (down v (mdb_rest d)) (mdb_table d), Ok tt).
Definition migration (v : string) (disable : bool) : Migration db :=
  MkMigration v ("create " +:+ v) (Some (up_callback v)) (Some (down_callback v)) disable.
Definition runner : MigrationRunner db :=
  (Register_locked [migration "002_users" false; migration "001_accounts" true]
     (MkMigrationRunner (Some 1%nat) ∅ false)).1.
Definition w0 : world db := World (MigrationDb [] None) None (fun _ => Answered).
Definition ctx : db_context := DbContext Background [].
Lemma two_tables_act v disable : callbacks_act (D := db) up down (migration v disable).
Proof. split; intros f [= <-] d d' [= <-]; done. Qed.
Lemma two_tables_ok : runner_ok up down runner.
Proof.
  assert (mr_migrations runner = <["001_accounts" := migration "001_accounts" true]> {["002_users" := migration "002_users" false]})
    as E by (vm_compute; reflexivity).
  split; [|done]. rewrite E. apply map_Forall_insert_2; [split; [done|apply two_tables_act]|].
  apply map_Forall_singleton. split; [done|apply two_tables_act].
Qed.
Definition after : option (MigrationRunner db) * (world db * (MigrationRunResult * option run_stop)) := Migrate ctx (Some runner) w0.
Definition back : option (MigrationRunner db) * (world db * (MigrationRollbackResult * option run_stop)) :=
  Rollback_migrations ctx after.1 after.2.1.
End TwoTables.

Lemma migrate_applies_pending_in_order_witness : exists ms rest,
  pending_from (history (w_pool TwoTables.w0)) TwoTables.runner = ms ++ rest /\
  run_Applied TwoTables.after.2.2.1 = record_of (run_Batch TwoTables.after.2.2.1) <$> ms /\
  (TwoTables.after.2.2.2 = None -> rest = []).
Proof.
  pose proof (migrate_applies_pending_in_order TwoTables.up TwoTables.down TwoTables.ctx TwoTables.runner TwoTables.w0
    TwoTables.two_tables_ok eq_refl) as H.
  unfold TwoTables.after. destruct (Migrate TwoTables.ctx (Some TwoTables.runner) TwoTables.w0) as [r' [w' [res stop]]].
  destruct H as (ms & rest & H1 & H2 & _ & _ & H3 & _). exists ms, rest. cbn. split; [exact H1|]. split; [exact H2|].
  intros E. exact (proj1 (H3 E)).
Defined.

Lemma rollback_undoes_migrate_witness :
  length (run_Applied TwoTables.after.2.2.1) = 2%nat /\
  back_RolledBack TwoTables.back.2.2.1 = reverse (run_Applied TwoTables.after.2.2.1) /\
  contents (w_pool TwoTables.back.2.1) = contents (w_pool TwoTables.w0).
Proof.
  split; [vm_compute; reflexivity|].
  assert (TwoTables.after.2.2.2 = None /\ run_Applied TwoTables.after.2.2.1 <> []) as [E1 E2]
    by (split; vm_compute; [reflexivity|discriminate]).
  assert (TwoTables.back.2.2.2 = None) as E3 by (vm_compute; reflexivity).
  pose proof (rollback_undoes_migrate TwoTables.up TwoTables.down TwoTables.ctx TwoTables.ctx TwoTables.runner TwoTables.w0
    TwoTables.two_tables_ok eq_refl) as H.
  unfold TwoTables.back in *. fold TwoTables.after in H. destruct TwoTables.after as [r1 [w1 [run stop]]].
  cbn [fst snd] in *. specialize (H E1 E2). destruct (Rollback_migrations TwoTables.ctx r1 w1) as [r2 [w2 [back stop']]].
  cbn [fst snd] in *. destruct (H E3) as (H1 & _ & _ & H2). split; [exact H1|]. apply H2. reflexivity.
Defined.
