(* ===== verification/Validation.v ===== *)
(** * Validation rules: [backend/framework/validation.go]

    Rules of a value, of a field and of a request, and the registry that runs
    them.  A nil rule or callback is [None]; a constructor that panics gives
    [Panicked].  A request's error is an [exception]; the parameters of a
    violation are copied where the code copies them, which is the identity on an
    immutable map. *)
From S2P Require Import Prelude GoStrings Exceptions.
Open Scope Z_scope.
Open Scope go_scope.

(** The values the rules put into a map of parameters. *)
Inductive any :=
| AnyInt (z : Z)
| AnyString (s : string)
| AnyList (l : list any).

(** [orderedNumber] and [comparable]: what [Minimum], [Maximum] and [OneOf] ask
    of their type. *)
Class OrderedNumber (T : Type) := { number_le : T -> T -> bool; number_any : T -> any }.
Class Comparable (T : Type) := { comparable_eq : T -> T -> bool; comparable_any : T -> any }.
#[export] Instance int_ordered : OrderedNumber Z := {| number_le := Z.leb; number_any := AnyInt |}.
#[export] Instance int_comparable : Comparable Z := {| comparable_eq := Z.eqb; comparable_any := AnyInt |}.
#[export] Instance string_comparable : Comparable string := {| comparable_eq := String.eqb; comparable_any := AnyString |}.

Record ValueViolation := MkValueViolation {
  vv_Rule : string;
  vv_Message : string;
  vv_Parameters : option (gmap string any)
}.
Definition ValueRule (V : Type) : Type := V -> option ValueViolation.
Definition RuleOf (T : Type) : Type := T -> option (exception any).
(** [Validate() error] of a value. *)
Class Validatable (V : Type) := { validatable_Validate : V -> option (exception any) }.

(** [nil] without a violation, otherwise [NewValidationErrors]. *)
Definition NewValidationErrors (violations : list (FieldViolation any)) : option (exception any) :=
  match violations with [] => None | _ => Some (ValidationException violations) end.

(** Every rule of a list, if none is nil. *)
Definition non_nil {A} (l : list (option A)) : option (list A) := mapM id l.

(** ** The registry *)

Record RuleRegistry (T : Type) := MkRuleRegistry { rules : list (RuleOf T) }.
Arguments MkRuleRegistry {T}.
Arguments rules {T}.

Section Registry.
Context {T : Type}.

Definition Register_rules (l : list (option (RuleOf T))) (registry : RuleRegistry T) : RuleRegistry T * option goerror :=
  match non_nil l with
  | None => (registry, Some ErrInvalidValidationRule)
  | Some l => (MkRuleRegistry (rules registry ++ l), None)
  end.
Definition NewRuleRegistry (l : list (option (RuleOf T))) : result (RuleRegistry T) :=
  match Register_rules l (MkRuleRegistry []) with
  | (registry, None) => Ok registry
  | (_, Some err) => Panicked (error_text err)
  end.

(** The loop over the rules: the violations found before, then an error that is
    not a validation error ends it. *)
Fixpoint run_rules (violations : list (FieldViolation any)) (l : list (RuleOf T)) (value : T) : option (exception any) :=
  match l with
  | [] => NewValidationErrors violations
  | rule :: l =>
      match rule value with
      | None => run_rules violations l value
      | Some err =>
          match as_validation err with
          | None => Some err
          | Some found => run_rules (violations ++ found) l value
          end
      end
  end.
Definition Validate (registry : option (RuleRegistry T)) (value : T) : option (exception any) :=
  match registry with None => None | Some registry => run_rules [] (rules registry) value end.
End Registry.

(** ** Rules of a field *)

Definition field_violation (field : string) (v : ValueViolation) : FieldViolation any :=
  MkFieldViolation field (vv_Rule v) (vv_Message v) (vv_Parameters v).

Definition ForField {T V} (field : string) (value : option (T -> V)) (l : list (option (ValueRule V))) : result (RuleOf T) :=
  match value with
  | None => Panicked (error_text ErrInvalidValidationRule)
  | Some value =>
      match non_nil l with
      | None => Panicked (error_text ErrInvalidValidationRule)
      | Some l => Ok (fun input => NewValidationErrors (field_violation field <$> omap (fun rule => rule (value input)) l))
      end
  end.

Definition MaxLength (maximum : Z) (message : string) : result (ValueRule string) :=
  if maximum <? 0 then Panicked "framework: maximum length cannot be negative"
  else Ok (fun value => if RuneCountInString value <=? maximum then None
                        else Some (MkValueViolation "max_length" message (Some {["max" := AnyInt maximum]}))).
Definition MinLength (minimum : Z) (message : string) : result (ValueRule string) :=
  if minimum <? 0 then Panicked "framework: minimum length cannot be negative"
  else Ok (fun value => if minimum <=? RuneCountInString value then None
                        else Some (MkValueViolation "min_length" message (Some {["min" := AnyInt minimum]}))).
Definition Minimum {T} `{!OrderedNumber T} (minimum : T) (message : string) : ValueRule T := fun value =>
  if number_le minimum value then None
  else Some (MkValueViolation "minimum" message (Some {["min" := number_any minimum]})).
Definition Maximum {T} `{!OrderedNumber T} (maximum : T) (message : string) : ValueRule T := fun value =>
  if number_le value maximum then None
  else Some (MkValueViolation "maximum" message (Some {["max" := number_any maximum]})).
Definition OneOf {T} `{!Comparable T} (message : string) (allowed : list T) : ValueRule T := fun value =>
  if existsb (comparable_eq value) allowed then None
  else Some (MkValueViolation "one_of" message (Some {["values" := AnyList (comparable_any <$> allowed)]})).
(** [Optional] turns a rule of a value into one of a pointer, [None] if nil. *)
Definition Optional {T} (rule : option (ValueRule T)) : result (ValueRule (option T)) :=
  match rule with
  | None => Panicked (error_text ErrInvalidValidationRule)
  | Some rule => Ok (fun value => match value with None => None | Some value => rule value end)
  end.

(** ** Nested values *)

Section Nested.
Context {T V : Type} `{!Validatable V}.

Definition validateNested (field : string) (validator : V) : option (exception any) :=
  match validatable_Validate validator with
  | None => None
  | Some err =>
      match as_validation err with
      | None => Some err
      | Some violations => Some (ValidationException (WithPrefix field (Some violations)))
      end
  end.

(** [fmt.Sprintf("%s[%d]", field, index)] *)
Definition element_path (field : string) (index : Z) : string := field +:+ "[" +:+ Itoa index +:+ "]".
Fixpoint validate_elements (violations : list (FieldViolation any)) (field : string) (index : Z) (values : list V)
    : option (exception any) :=
  match values with
  | [] => NewValidationErrors violations
  | value :: values =>
      match validateNested (element_path field index) value with
      | None => validate_elements violations field (index + 1) values
      | Some err =>
          match as_validation err with
          | None => Some err
          | Some found => validate_elements (violations ++ found) field (index + 1) values
          end
      end
  end.
Definition validateNestedList (field : string) (values : list V) : option (exception any) :=
  validate_elements [] field 0 values.

Definition nested_rule {A} (value : option (T -> A)) (rule : A -> option (exception any)) : result (RuleOf T) :=
  match value with
  | None => Panicked (error_text ErrInvalidValidationRule)
  | Some value => Ok (fun input => rule (value input))
  end.
Definition NestedField (field : string) (value : option (T -> V)) : result (RuleOf T) :=
  nested_rule value (validateNested field).
(** [interfaceIsNil(nested)] is [None]. *)
Definition OptionalNestedField (field : string) (value : option (T -> option V)) : result (RuleOf T) :=
  nested_rule value (fun nested => match nested with None => None | Some nested => validateNested field nested end).
Definition NestedListField (field : string) (value : option (T -> list V)) : result (RuleOf T) :=
  nested_rule value (validateNestedList field).
Definition OptionalNestedListField (field : string) (value : option (T -> option (list V))) : result (RuleOf T) :=
  nested_rule value (fun values => match values with None => None | Some values => validateNestedList field values end).
End Nested.

(** ** Binding

    The methods a request type has, on the value and on its pointer: the second
    set is the one [any(&value)] is asked for. *)
Record request_methods (T : Type) := MkRequestMethods {
  value_ValidatePayload : option (string -> option (exception any));
  pointer_ValidatePayload : option (string -> option (exception any));
  pointer_Normalize : option (T -> T);
  value_Normalize : option (T -> T);
  value_Validate : option (T -> option (exception any));
  pointer_Validate : option (T -> option (exception any))
}.
Arguments value_ValidatePayload {T}.
Arguments pointer_ValidatePayload {T}.
Arguments pointer_Normalize {T}.
Arguments value_Normalize {T}.
Arguments value_Validate {T}.
Arguments pointer_Validate {T}.

(** The first of two method sets that has the method. *)
Definition first_method {A} (a b : option A) : option A := match a with Some _ => a | None => b end.

Section Bind.
Context {T : Type}.
Variable zero : T.
(** [Decode] into a [T] of the first JSON value, unknown fields disallowed: the
    value as far as it got, and the decoder's error. *)
Variable Decode : string -> T * option goerror.
Variable methods : request_methods T.

Definition BindParams (params : string) : T * option (exception any) :=
  if String.eqb params "" then (zero, None)
  else match Decode params with
       | (value, None) => (value, None)
       | (value, Some _) => (value, Some (RPCException (NewRPCError "invalid_params" "The request parameters are invalid.")))
       end.
Definition BindAndValidate (params : string) : T * option (exception any) :=
  match BindParams params with
  | (value, Some err) => (value, Some err)
  | (value, None) =>
      match match first_method (value_ValidatePayload methods) (pointer_ValidatePayload methods) with
            | Some validate => validate params
            | None => None
            end with
      | Some err => (value, Some err)
      | None =>
          let value := match first_method (pointer_Normalize methods) (value_Normalize methods) with
                       | Some normalize => normalize value
                       | None => value
                       end in
          (value, match first_method (value_Validate methods) (pointer_Validate methods) with
                  | Some validate => validate value
                  | None => None
                  end)
      end
  end.
End Bind.

(** ** What the registry reports *)

(** The violations that the rules give in turn, until one of them fails with
    another error. *)
Fixpoint rule_outcomes {T} (l : list (RuleOf T)) (value : T) : list (FieldViolation any) * option (exception any) :=
  match l with
  | [] => ([], None)
  | rule :: l =>
      match rule value with
      | None => rule_outcomes l value
      | Some err =>
          match as_validation err with
          | None => ([], Some err)
          | Some found => let '(rest, failed) := rule_outcomes l value in (found ++ rest, failed)
          end
      end
  end.
Lemma run_rules_outcomes {T} (l : list (RuleOf T)) value : forall violations,
  run_rules violations l value =
  match rule_outcomes l value with
  | (_, Some err) => Some err
  | (found, None) => NewValidationErrors (violations ++ found)
  end.
Proof.
  induction l as [|rule l IH]; intros violations; cbn [run_rules rule_outcomes]; [by rewrite app_nil_r|].
  destruct (rule value) as [err|]; [|apply IH]. destruct (as_validation err) as [found|]; [|done].
  rewrite IH. destruct (rule_outcomes l value) as [rest [failed|]]; [done|]. by rewrite app_assoc.
Qed.

(** Two lists of rules that agree one by one report the same. *)
Lemma run_rules_ext {T U} (l : list (RuleOf T)) (l' : list (RuleOf U)) value value' : forall violations,
  Forall2 (fun r r' => r value = r' value') l l' -> run_rules violations l value = run_rules violations l' value'.
Proof.
  intros violations H. revert violations. induction H as [|r r' l l' Hr H IH]; intros violations; cbn [run_rules]; [done|].
  rewrite Hr. destruct (r' value') as [err|]; [|apply IH]. destruct (as_validation err); [apply IH|done].
Qed.

(** A registry whose rules only report violations accepts a value exactly when
    every rule does. *)
Lemma run_rules_accepts {T} (l : list (RuleOf T)) value :
  Forall (fun rule => forall err, rule value = Some err -> exists v vs, as_validation err = Some (v :: vs)) l ->
  run_rules [] l value = None <-> Forall (fun rule => rule value = None) l.
Proof.
  rewrite run_rules_outcomes. cbn [app]. induction 1 as [|rule l Hrule Hl IH]; cbn [rule_outcomes]; [by split; [constructor|]|].
  rewrite Forall_cons. destruct (rule value) as [err|] eqn:E.
  - destruct (Hrule err eq_refl) as (v & vs & Ev). rewrite Ev. destruct (rule_outcomes l value) as [rest [failed|]]; split; try done;
      by intros [? _].
  - rewrite IH. tauto.
Qed.

Lemma ForField_accepts {T V} field (value : T -> V) (l : list (option (ValueRule V))) (rule : RuleOf T) :
  ForField field (Some value) l = Ok rule -> exists rs : list (ValueRule V), non_nil l = Some rs /\ forall input,
    (rule input = None <-> Forall (fun r => r (value input) = None) rs) /\
    (forall err, rule input = Some err -> exists v vs, as_validation err = Some (v :: vs)).
Proof.
  unfold ForField. destruct (non_nil l) as [rs|]; [|discriminate]. intros H. injection H as <-. exists rs. split; [reflexivity|].
  intros input. split.
  - induction rs as [|r rs IH]; cbn [omap list_omap]; [by split; [constructor|]|]. rewrite Forall_cons.
    destruct (r (value input)) eqn:E; [split; [discriminate|intros [? _]; discriminate]|]. rewrite IH. tauto.
  - intros err. unfold NewValidationErrors. destruct (field_violation field <$> _) as [|v vs]; [done|]. intros [= <-].
    exists v, vs. done.
Qed.
