(* ===== verification/Schema.v ===== *)
(** * RPC schemas: [backend/codegen/schema.go], [schema_refs.go], [schema_names.go]

    The data model of a schema, its validation and the resolution of references
    to reusable types.  Decoding the schema's file is the JSON decoder's; what
    is modelled starts at the decoded value.  The functions on names see only
    names that matched their patterns, hence ASCII. *)
From S2P Require Import Prelude GoStrings.
Open Scope Z_scope.
Open Scope go_scope.

Definition SupportedSchemaVersion : Z := 1.

(** ** Data *)

Record object_of (F : Type) := MkObject {
  GoType : string;
  DartType : string;
  object_Fields : list F
}.
Arguments MkObject {F}.
Arguments GoType {F}.
Arguments DartType {F}.
Arguments object_Fields {F}.

Inductive Field := MkField {
  field_Name : string;
  Type_ : string;
  Format : string;
  Array : bool;
  Nullable : bool;
  Enum : list string;
  Object_ : option (object_of Field);
  Ref : string;
  MinLength : Z;
  MaxLength : Z;
  Minimum : option Z;
  Maximum : option Z;
  Trim : bool
}.
Definition Object : Type := object_of Field.
(** The zero [Object], which a map gives for a missing name. *)
Definition zero_object : Object := MkObject "" "" [].

Record NamedObject := MkNamedObject { type_Name : string; type_Object : Object }.
Record Method := MkMethod {
  method_Name : string;
  ClientName : string;
  Stream : bool;
  Params : option Object;
  Result : Object;
  Meta : list Field
}.
Record Schema := MkSchema {
  SchemaVersion : Z;
  ProtocolVersion : Z;
  Types : list NamedObject;
  Methods : list Method
}.

(** Induction over a field and the fields of its object. *)
Definition subfields (f : Field) : list Field := match Object_ f with Some o => object_Fields o | None => [] end.
Lemma Field_nested_ind (P : Field -> Prop) : (forall f, Forall P (subfields f) -> P f) -> forall f, P f.
Proof.
  intros IH. fix self 1. intros f. apply IH. destruct f as [? ? ? ? ? ? [o|] ? ? ? ? ? ?]; cbn; [|constructor].
  destruct o as [g d fields]. cbn. induction fields as [|x fields IHf]; constructor; [apply self|exact IHf].
Qed.
Definition with_object (f : Field) (enum : list string) (o : option Object) : Field :=
  MkField (field_Name f) (Type_ f) (Format f) (Array f) (Nullable f) enum o (Ref f) (MinLength f) (MaxLength f)
    (Minimum f) (Maximum f) (Trim f).

(** ** Names *)

Definition ascii_upper (c : ascii) : bool := in_range 65 90 c.
Definition ascii_lower (c : ascii) : bool := in_range 97 122 c.
Definition ascii_digit (c : ascii) : bool := in_range 48 57 c.
Definition ascii_letter (c : ascii) : bool := ascii_upper c || ascii_lower c.
Definition alphanumeric (c : ascii) : bool := ascii_letter c || ascii_digit c.
Definition begins_with (P : ascii -> bool) (s : string) : bool :=
  match s with String c r => P c && string_forall alphanumeric r | EmptyString => false end.
Definition non_empty_alphanumeric (s : string) : bool := negb (String.eqb s "") && string_forall alphanumeric s.

(** At least two segments between dots, each a lowercase letter and then letters
    and digits. *)
Definition methodPattern (s : string) : bool :=
  let segments := split "." s in (2 <=? length segments)%nat && forallb (begins_with ascii_lower) segments.
(** A letter and then letters and digits. *)
Definition identifierPattern (s : string) : bool := begins_with ascii_letter s.
(** An identifier, and parts of letters and digits after underscores. *)
Definition fieldNamePattern (s : string) : bool :=
  match split "_" s with
  | first :: rest => begins_with ascii_letter first && forallb non_empty_alphanumeric rest
  | [] => false
  end.

Definition upper_char (c : ascii) : ascii := if ascii_lower c then chr (byte_of c - 32) else c.
Definition lower_char (c : ascii) : ascii := if ascii_upper c then chr (byte_of c + 32) else c.

(** The loops over the characters; [upper] is their variable. *)
Fixpoint camelize (upper : bool) (name : string) : string :=
  match name with
  | EmptyString => EmptyString
  | String c r =>
      if Ascii.eqb c "_" then camelize true r
      else String (if upper then upper_char c else c) (camelize false r)
  end.
Definition camelizeUnderscores (name : string) : string := camelize false name.
Fixpoint from_separated (upper : bool) (value : string) : string :=
  match value with
  | EmptyString => EmptyString
  | String c r =>
      if negb (alphanumeric c) then from_separated true r
      else String (if upper then upper_char c else c) (from_separated false r)
  end.
Definition identifierFromSeparated (value : string) : string := from_separated true value.
Definition goIdentifier (name : string) : string :=
  match name with EmptyString => "Field" | String c r => String (upper_char c) (camelizeUnderscores r) end.
Definition dartFieldIdentifier (name : string) : string :=
  match name with EmptyString => "field" | String c r => String c (camelizeUnderscores r) end.
Definition lowerIdentifier (name : string) : string :=
  match name with EmptyString => "value" | String c r => String (lower_char c) r end.
Definition goMethodConstant (method : string) : string := "Method" +:+ identifierFromSeparated method.
Definition goRouteGroupConstant (group : string) : string := "RouteGroup" +:+ identifierFromSeparated group.
Definition goRouteActionConstant (method : string) : string := "RouteAction" +:+ identifierFromSeparated method.
Definition dartMethodConstant (method : string) : string :=
  match identifierFromSeparated method with EmptyString => "method" | String c r => String (lower_char c) r end.

(** [strings.LastIndex] of a dot: before and after it; a slice bound of -1
    panics. *)
Fixpoint cut_last (sep : ascii) (s : string) : option (string * string) :=
  match s with
  | EmptyString => None
  | String c r =>
      match cut_last sep r with
      | Some (before, after) => Some (String c before, after)
      | None => if Ascii.eqb c sep then Some (EmptyString, r) else None
      end
  end.
Definition splitRouteMethod (method : string) : result (string * string) :=
  match cut_last "." method with
  | Some parts => Ok parts
  | None => Panicked "runtime error: slice bounds out of range [:-1]"
  end.

(** ** Validation

    An error text is [codegen: ] and the parts of its format. *)
Definition codegen_error (parts : list string) : goerror := ErrNew ("codegen: " +:+ String.concat "" parts).
Definition fails {A} (parts : list string) : result A := Err (codegen_error parts).
Definition check (bad : bool) (parts : list string) : result unit := if bad then fails parts else Ok tt.
Definition indexed (path : string) (index : Z) : string := path +:+ "[" +:+ Itoa index +:+ "]".
Definition or_else {A} (r : result unit) (next : result A) : result A := let* _ := r in next.
Infix ";;" := or_else (at level 100, right associativity) : go_scope.

(** The generated type names seen so far, with the path that took each. *)
Record type_names := MkTypeNames { goTypes : gmap string string; dartTypes : gmap string string }.

Definition is_some {A} (x : option A) : bool := match x with Some _ => true | None => false end.
Definition non_zero_text (s : string) : bool := negb (String.eqb s "").

Fixpoint duplicate_enum (fieldPath : string) (index : Z) (seen : gset string) (values : list string) : result unit :=
  match values with
  | [] => Ok tt
  | value :: values =>
      if String.eqb value "" then fails [fieldPath; ".enum["; Itoa index; "] must not be empty"]
      else if bool_decide (value ∈ seen) then fails ["duplicate enum value "; Quote value; " in "; fieldPath]
      else duplicate_enum fieldPath (index + 1) ({[value]} ∪ seen) values
  end.

Definition scalar_of (field : Field) (type_ : string) : bool := String.eqb (Type_ field) type_ && negb (Array field).
Definition zero_or (z : option Z) : Z := default 0 z.

(** The checks after the switch over the type. *)
Definition validateOptions (fieldPath : string) (field : Field) : result unit :=
  check (non_zero_text (Format field) && (negb (String.eqb (Type_ field) "string") || negb (String.eqb (Format field) "date-time")))
    [fieldPath; ".format "; Quote (Format field); " is unsupported"] ;;
  check ((MinLength field <? 0) || ((0 <? MinLength field) && negb (scalar_of field "string")))
    [fieldPath; ".minLength requires a scalar string"] ;;
  check ((MaxLength field <? 0) || ((0 <? MaxLength field) && negb (scalar_of field "string")))
    [fieldPath; ".maxLength requires a scalar string"] ;;
  check ((0 <? MaxLength field) && (MaxLength field <? MinLength field))
    [fieldPath; ".minLength must not exceed maxLength"] ;;
  check (is_some (Minimum field) && negb (scalar_of field "integer")) [fieldPath; ".minimum requires a scalar integer"] ;;
  check (is_some (Maximum field) && negb (scalar_of field "integer")) [fieldPath; ".maximum requires a scalar integer"] ;;
  check (is_some (Minimum field) && is_some (Maximum field) && (zero_or (Maximum field) <? zero_or (Minimum field)))
    [fieldPath; ".minimum must not exceed maximum"] ;;
  check (Trim field && negb (scalar_of field "string")) [fieldPath; ".trim requires a scalar string"] ;;
  (if (0 <? length (Enum field))%nat then
     check (negb (scalar_of field "string")) [fieldPath; ".enum requires a scalar string"] ;;
     duplicate_enum fieldPath 0 ∅ (Enum field)
   else Ok tt) ;;
  check (String.eqb (Type_ field) "object" &&
         (non_zero_text (Format field) || negb (MinLength field =? 0) || negb (MaxLength field =? 0) ||
          is_some (Minimum field) || is_some (Maximum field) || Trim field || (0 <? length (Enum field))%nat))
    [fieldPath; " object field has scalar-only options"].

Definition generated_name_clash (path kind : string) (previous name generated : string) : list string :=
  ["fields "; Quote previous; " and "; Quote name; " in "; path; " generate the same "; kind; " field "; Quote generated].
Fixpoint generated_names (path : string) (hasGoStruct : bool) (goNames dartNames : gmap string string) (fields : list Field)
    : result unit :=
  match fields with
  | [] => Ok tt
  | field :: fields =>
      let goName := goIdentifier (field_Name field) in
      let dartName := dartFieldIdentifier (field_Name field) in
      match if hasGoStruct then goNames !! goName else None with
      | Some previous => fails (generated_name_clash path "Go" previous (field_Name field) goName)
      | None =>
          match dartNames !! dartName with
          | Some previous => fails (generated_name_clash path "Dart" previous (field_Name field) dartName)
          | None => generated_names path hasGoStruct (<[goName := field_Name field]> goNames)
                      (<[dartName := field_Name field]> dartNames) fields
          end
      end
  end.
Definition validateGeneratedFieldNames (path : string) (fields : list Field) (hasGoStruct : bool) : result unit :=
  generated_names path hasGoStruct ∅ ∅ fields.

Section Validation.
Variable definitions : gmap string Object.
Variable allowFile : bool.

(** The loop of [validateFields] and [validateObject] around the treatment of
    one field, which they call each other through. *)
Section Loops.
Variable validateField : string -> Field -> type_names -> result type_names.
Fixpoint validate_fields_from (path : string) (index : Z) (names : gset string) (fields : list Field) (ts : type_names)
    : result type_names :=
  match fields with
  | [] => Ok ts
  | field :: fields =>
      let fieldPath := indexed path index in
      if negb (fieldNamePattern (field_Name field)) then fails [fieldPath; ".name "; Quote (field_Name field); " is invalid"]
      else if bool_decide (field_Name field ∈ names) then fails ["duplicate field "; Quote (field_Name field); " in "; path]
      else let* ts := validateField fieldPath field ts in
           validate_fields_from path (index + 1) ({[field_Name field]} ∪ names) fields ts
  end.
Definition type_name_clash (kind name previous path : string) : list string :=
  ["generated "; kind; " type "; Quote name; " is shared by "; previous; " and "; path].
Definition validate_object_with (path : string) (object : Object) (ts : type_names) : result type_names :=
  if negb (identifierPattern (GoType object)) then fails [path; ".goType "; Quote (GoType object); " is invalid"]
  else if negb (identifierPattern (DartType object)) then fails [path; ".dartType "; Quote (DartType object); " is invalid"]
  else match goTypes ts !! GoType object with
       | Some previous => fails (type_name_clash "Go" (GoType object) previous path)
       | None =>
           match dartTypes ts !! DartType object with
           | Some previous => fails (type_name_clash "Dart" (DartType object) previous path)
           | None =>
               if (length (object_Fields object) =? 0)%nat then fails [path; ".fields must not be empty"]
               else
                 let* ts := validate_fields_from (path +:+ ".fields") 0 ∅ (object_Fields object)
                   (MkTypeNames (<[GoType object := path]> (goTypes ts)) (<[DartType object := path]> (dartTypes ts))) in
                 let* _ := validateGeneratedFieldNames (path +:+ ".fields") (object_Fields object) true in Ok ts
           end
       end.
End Loops.

Definition validate_reference (fieldPath : string) (field : Field) : result unit :=
  if bool_decide (is_Some (definitions !! Ref field)) then Ok tt
  else fails [fieldPath; ".ref "; Quote (Ref field); " is undefined"].
(** The switch over the type, and what follows. *)
Fixpoint validateField (fieldPath : string) (field : Field) (ts : type_names) : result type_names :=
  let no_object := check (is_some (Object_ field) || non_zero_text (Ref field))
                     [fieldPath; " object or ref requires type object"] in
  let is_type := String.eqb (Type_ field) in
  let* ts :=
    if is_type "string" || is_type "integer" || is_type "number" || is_type "boolean" then let* _ := no_object in Ok ts
    else if is_type "file" then
      check (negb allowFile) [fieldPath; " file fields are not allowed here"] ;;
      no_object ;;
      let* _ := check (Array field) [fieldPath; " file arrays are not supported"] in Ok ts
    else if is_type "object" then
      match Object_ field with
      | None =>
          if non_zero_text (Ref field) then let* _ := validate_reference fieldPath field in Ok ts
          else fails [fieldPath; ".object is required unless ref is set"]
      | Some object =>
          if non_zero_text (Ref field) then fails [fieldPath; " type object requires exactly one of object or ref"]
          else validate_object_with validateField (fieldPath +:+ ".object") object ts
      end
    else fails [fieldPath; ".type "; Quote (Type_ field); " is unsupported"] in
  let* _ := validateOptions fieldPath field in Ok ts.
Definition validateObject (path : string) (object : Object) (ts : type_names) : result type_names :=
  validate_object_with validateField path object ts.
Definition validateFields (path : string) (fields : list Field) (ts : type_names) : result type_names :=
  validate_fields_from validateField path 0 ∅ fields ts.
End Validation.

(** ** References to reusable types *)

Inductive visit_state := visiting | visited.
#[export] Instance visit_state_eq_dec : EqDecision visit_state.
Proof. solve_decision. Defined.
Abbreviation visit_states := (gmap string visit_state).

Section References.
Variable definitions : gmap string Object.
Definition definition_of (name : string) : Object := default zero_object (definitions !! name).

Section Visit.
Variable visitDefinition : string -> visit_states -> result visit_states.
(** The body of the loop of [visitObject]. *)
Fixpoint visit_field (field : Field) (states : visit_states) : result visit_states :=
  let* states := if non_zero_text (Ref field) then visitDefinition (Ref field) states else Ok states in
  match Object_ field with
  | Some o => fold_left (fun r f => let* states := r in visit_field f states) (object_Fields o) (Ok states)
  | None => Ok states
  end.
Definition visitObject (object : Object) (states : visit_states) : result visit_states :=
  fold_left (fun r f => let* states := r in visit_field f states) (object_Fields object) (Ok states).
End Visit.
Definition reference_cycle (name : string) : list string := ["reusable type reference cycle includes "; Quote name].
Fixpoint visitDefinition (fuel : nat) (name : string) (states : visit_states) : result visit_states :=
  match states !! name with
  | Some visiting => fails (reference_cycle name)
  | Some visited => Ok states
  | None =>
      match fuel with
      | O => Panicked "out of fuel"
      | S fuel =>
          let* states := visitObject (visitDefinition fuel) (definition_of name) (<[name := visiting]> states) in
          Ok (<[name := visited]> states)
      end
  end.
Definition reference_fuel : nat := S (size definitions).
(** [order] is the one in which [range] visits the map. *)
Definition validateReferenceCycles (order : list string) : result unit :=
  let* _ := fold_left (fun r name => let* states := r in visitDefinition reference_fuel name states) order (Ok ∅) in Ok tt.

(** [resolveFieldReferences] copies the enums; the recursion goes through the
    objects of the fields and the definitions of the references. *)
Section MapResult.
Context {A B : Type} (f : A -> result B).
Fixpoint map_result (l : list A) : result (list B) :=
  match l with
  | [] => Ok []
  | x :: l => let* y := f x in let* l := map_result l in Ok (y :: l)
  end.
End MapResult.
Section Resolve.
Variable resolveDefinition : string -> result Object.
Fixpoint resolve_field (field : Field) : result Field :=
  if non_zero_text (Ref field) then
    let* object := resolveDefinition (Ref field) in Ok (with_object field (Enum field) (Some object))
  else match Object_ field with
       | Some o =>
           let* fields := map_result resolve_field (object_Fields o) in
           Ok (with_object field (Enum field) (Some (MkObject (GoType o) (DartType o) fields)))
       | None => Ok (with_object field (Enum field) None)
       end.
Definition resolve_fields_with (fields : list Field) : result (list Field) := map_result resolve_field fields.
Definition resolve_object_with (object : Object) : result Object :=
  let* fields := resolve_fields_with (object_Fields object) in Ok (MkObject (GoType object) (DartType object) fields).
End Resolve.
Fixpoint resolveDefinition (fuel : nat) (name : string) : result Object :=
  match fuel with
  | O => Panicked "out of fuel"
  | S fuel => resolve_object_with (resolveDefinition fuel) (definition_of name)
  end.
Definition resolveObjectReferences (object : Object) : result Object :=
  resolve_object_with (resolveDefinition reference_fuel) object.
Definition resolveFieldReferences (fields : list Field) : result (list Field) :=
  resolve_fields_with (resolveDefinition reference_fuel) fields.
End References.

Definition definitions_by_name (types : list NamedObject) : gmap string Object :=
  fold_left (fun ds t => <[type_Name t := type_Object t]> ds) types ∅.
Definition resolve_method (definitions : gmap string Object) (method : Method) : result Method :=
  let* params := match Params method with
                 | None => Ok None
                 | Some p => let* p := resolveObjectReferences definitions p in Ok (Some p)
                 end in
  let* res := resolveObjectReferences definitions (Result method) in
  let* meta := resolveFieldReferences definitions (Meta method) in
  Ok (MkMethod (method_Name method) (ClientName method) (Stream method) params res meta).
Definition resolve_named (definitions : gmap string Object) (t : NamedObject) : result NamedObject :=
  let* object := resolveObjectReferences definitions (type_Object t) in Ok (MkNamedObject (type_Name t) object).
Definition resolveReferences (schema : Schema) : result Schema :=
  let definitions := definitions_by_name (Types schema) in
  let* types := map_result (resolve_named definitions) (Types schema) in
  let* methods := map_result (resolve_method definitions) (Methods schema) in
  Ok (MkSchema (SchemaVersion schema) (ProtocolVersion schema) types methods).

(** ** Members of generated types *)

Fixpoint field_has_trim (field : Field) : bool :=
  Trim field || match Object_ field with Some o => existsb field_has_trim (object_Fields o) | None => false end.
Definition objectHasTrim (object : Object) : bool := existsb field_has_trim (object_Fields object).
Definition has_rules (field : Field) : bool :=
  (0 <? MinLength field) || (0 <? MaxLength field) || is_some (Minimum field) || is_some (Maximum field) ||
  (0 <? length (Enum field))%nat.
Fixpoint field_has_validation (field : Field) : bool :=
  has_rules field || match Object_ field with Some o => existsb field_has_validation (object_Fields o) | None => false end.
Definition objectHasValidation (object : Object) : bool := existsb field_has_validation (object_Fields object).

Section Members.
(** A loop over the fields of an object, then those of their objects. *)
Variable conflicts : Object -> Field -> result unit.
Fixpoint check_members (object : Object) (field : Field) : result unit :=
  let* _ := conflicts object field in
  match Object_ field with
  | Some o => fold_left (fun r f => let* _ := r in check_members o f) (object_Fields o) (Ok tt)
  | None => Ok tt
  end.
Definition check_object_members (object : Object) : result unit :=
  fold_left (fun r f => let* _ := r in check_members object f) (object_Fields object) (Ok tt).
End Members.
Definition member_clash (field : Field) (type_ kind name : string) : list string :=
  ["field "; Quote (field_Name field); " in "; type_; " conflicts with generated "; kind; " "; Quote name].
Definition validateGoRequestMembers : Object -> result unit := check_object_members (fun object field =>
  let name := goIdentifier (field_Name field) in
  check (String.eqb name "ValidatePayload" || (String.eqb name "Normalize" && objectHasTrim object) ||
         (String.eqb name "Validate" && objectHasValidation object))
    (member_clash field (GoType object) "Go method" name)).
Definition validateDartEncoderMembers : Object -> result unit := check_object_members (fun object field =>
  let name := dartFieldIdentifier (field_Name field) in
  check (String.eqb name "toJson") (member_clash field (DartType object) "Dart member" name)).
Definition for_each {A} (f : A -> result unit) (l : list A) : result unit :=
  fold_left (fun r x => let* _ := r in f x) l (Ok tt).
Definition validateGeneratedMembers (schema : Schema) : result unit :=
  let* _ := for_each (fun t => validateDartEncoderMembers (type_Object t)) (Types schema) in
  for_each (fun m => match Params m with
                     | Some p => let* _ := validateGoRequestMembers p in validateDartEncoderMembers p
                     | None => Ok tt
                     end) (Methods schema).

(** ** [Schema.Validate] *)

Definition methodNameGuidance : string :=
  "use at least two dot-separated segments; each segment must start with a lowercase letter and contain only ASCII letters or digits (for example, " +:+
  String (chr 34) ("areas.listByBounds" +:+ String (chr 34) ")").

(** The loops over the types: their names, then their objects. *)
Fixpoint register_types (index : Z) (definitions : gmap string Object) (types : list NamedObject) : result (gmap string Object) :=
  match types with
  | [] => Ok definitions
  | t :: types =>
      if negb (identifierPattern (type_Name t)) then fails [indexed "types" index; ".name "; Quote (type_Name t); " is invalid"]
      else if bool_decide (is_Some (definitions !! type_Name t)) then fails ["duplicate reusable type "; Quote (type_Name t)]
      else register_types (index + 1) (<[type_Name t := type_Object t]> definitions) types
  end.
Fixpoint validate_types (definitions : gmap string Object) (index : Z) (types : list NamedObject) (ts : type_names) : result type_names :=
  match types with
  | [] => Ok ts
  | t :: types =>
      let* ts := validateObject definitions true (indexed "types" index) (type_Object t) ts in
      validate_types definitions (index + 1) types ts
  end.

(** The maps the loop over the methods keeps. *)
Record method_names := MkMethodNames {
  methods_seen : gset string;
  clients_seen : gset string;
  routeGroups : gmap string string;
  methodConstants : gmap string string
}.
Definition no_methods : method_names := MkMethodNames ∅ ∅ ∅ ∅.
(** The checks of a method's names. *)
Definition validate_method_names (path : string) (method : Method) (ns : method_names) : result method_names :=
  let name := method_Name method in
  if negb (methodPattern name) then fails [path; ".name "; Quote name; " is invalid; "; methodNameGuidance]
  else if bool_decide (name ∈ methods_seen ns) then fails ["duplicate method "; Quote name]
  else
    let* (group, _) := splitRouteMethod name in
    let groupConstant := goRouteGroupConstant group in
    let previous := default group (routeGroups ns !! groupConstant) in
    if negb (String.eqb previous group)
    then fails ["RPC route groups "; Quote previous; " and "; Quote group; " generate the same Go constant "; Quote groupConstant]
    else
      let methodConstant := goMethodConstant name in
      match methodConstants ns !! methodConstant with
      | Some previous => fails ["RPC methods "; Quote previous; " and "; Quote name; " generate the same constant "; Quote methodConstant]
      | None =>
          if negb (identifierPattern (ClientName method)) then fails [path; ".clientName "; Quote (ClientName method); " is invalid"]
          else if bool_decide (ClientName method ∈ clients_seen ns) then fails ["duplicate client method "; Quote (ClientName method)]
          else Ok (MkMethodNames ({[name]} ∪ methods_seen ns) ({[ClientName method]} ∪ clients_seen ns)
                     (<[groupConstant := group]> (routeGroups ns)) (<[methodConstant := name]> (methodConstants ns)))
      end.
Definition validate_method_objects (definitions : gmap string Object) (path : string) (method : Method) (ts : type_names)
    : result type_names :=
  let* ts := match Params method with
             | Some p => validateObject definitions true (path +:+ ".params") p ts
             | None => Ok ts
             end in
  let* ts := validateObject definitions true (path +:+ ".result") (Result method) ts in
  let* ts := validateFields definitions true (path +:+ ".meta") (Meta method) ts in
  let* _ := validateGeneratedFieldNames (path +:+ ".result/meta") (object_Fields (Result method) ++ Meta method) false in
  Ok ts.
Fixpoint validate_methods (definitions : gmap string Object) (index : Z) (methods : list Method) (ns : method_names) (ts : type_names)
    : result unit :=
  match methods with
  | [] => Ok tt
  | method :: methods =>
      let path := indexed "methods" index in
      let* ns := validate_method_names path method ns in
      let* ts := validate_method_objects definitions path method ts in
      validate_methods definitions (index + 1) methods ns ts
  end.

(** [range_]: the order in which [range] visits a map of definitions. *)
Definition Validate (range_ : gmap string Object -> list string) (schema : Schema) : result unit :=
  check (negb (SchemaVersion schema =? SupportedSchemaVersion))
    ["unsupported schema version "; Itoa (SchemaVersion schema); "; expected "; Itoa SupportedSchemaVersion] ;;
  check (ProtocolVersion schema <? 1) ["protocolVersion must be positive"] ;;
  check (length (Methods schema) =? 0)%nat ["schema must define at least one method"] ;;
  let* definitions := register_types 0 ∅ (Types schema) in
  let* ts := validate_types definitions 0 (Types schema) (MkTypeNames ∅ ∅) in
  validateReferenceCycles definitions (range_ definitions) ;;
  validate_methods definitions 0 (Methods schema) no_methods ts ;;
  let* resolved := resolveReferences schema in
  validateGeneratedMembers resolved.
