(* ===== verification/SchemaReferences.v ===== *)
(** * References between reusable types: what [validateReferenceCycles] decides
    and why [resolveReferences] ends. *)
From stdpp Require Import relations.
From S2P Require Import Prelude GoStrings Schema.
Open Scope Z_scope.
Open Scope go_scope.

(** ** Folds that stop at an error *)

Section Folds.
Context {A S : Type}.
Definition fold_result (g : A -> S -> result S) (l : list A) (r : result S) : result S :=
  fold_left (fun r x => let* s := r in g x s) l r.
Lemma fold_result_stuck g l r : is_ok r = false -> fold_result g l r = r.
Proof. intros H. unfold fold_result. induction l as [|x l IH]; [done|]. cbn. by destruct r. Qed.
Lemma fold_result_cons g x l s : fold_result g (x :: l) (Ok s) = fold_result g l (g x s).
Proof. done. Qed.
Lemma fold_result_app g l l' r : fold_result g (l ++ l') r = fold_result g l' (fold_result g l r).
Proof. apply fold_left_app. Qed.
(** An invariant of the steps, when the steps start in good states. *)
Lemma fold_result_inv g l (I : S -> Prop) (E : goerror -> Prop) s : I s ->
  (forall x s, x ∈ l -> I s -> match g x s with Ok s' => I s' | Err e => E e | Panicked _ => False end) ->
  match fold_result g l (Ok s) with Ok s' => I s' | Err e => E e | Panicked _ => False end.
Proof.
  intros Hs Hg. revert s Hs. induction l as [|x l IH]; intros s Hs; [done|]. rewrite fold_result_cons.
  pose proof (Hg x s ltac:(constructor) Hs) as Hx. destruct (g x s) as [s'|e|m]; [|by rewrite fold_result_stuck..].
  apply IH; [|done]. intros y t Hy. apply Hg. by right.
Qed.
End Folds.
Lemma fold_result_flatten {A B S} (g : A -> S -> result S) (h : B -> list A) (k : B -> S -> result S) l :
  Forall (fun x => forall s, k x s = fold_result g (h x) (Ok s)) l ->
  forall r, fold_result k l r = fold_result g (l ≫= h) r.
Proof.
  induction 1 as [|x l Hx Hl IH]; intros r; [done|]. rewrite bind_cons, fold_result_app, <- IH.
  destruct r as [s|e|m]; [rewrite fold_result_cons; by rewrite Hx|by rewrite (fold_result_stuck g), !fold_result_stuck..].
Qed.
Lemma map_result_ok {A B} (f : A -> result B) l : Forall (fun x => exists y, f x = Ok y) l -> exists l', map_result f l = Ok l'.
Proof. induction 1 as [|x l [y Hx] Hl [l' IH]]; cbn [map_result]; [eauto|]. rewrite Hx, IH. cbn. eauto. Qed.
Lemma map_result_Forall2 {A B} (f : A -> result B) l l' :
  map_result f l = Ok l' <-> Forall2 (fun x y => f x = Ok y) l l'.
Proof.
  revert l'. induction l as [|x l IH]; intros l'; cbn [map_result].
  - split; [intros [= <-]; constructor|]. by intros H%Forall2_nil_inv_l; subst.
  - split.
    + destruct (f x) as [y| |] eqn:Ex; [|done..]. cbn [result_bind]. destruct (map_result f l) as [k| |]; [|done..].
      cbn [result_bind]. intros [= <-]. constructor; [done|]. by apply IH.
    + intros (y & k & Hx & Hk & ->)%Forall2_cons_inv_l. rewrite Hx. cbn [result_bind]. apply IH in Hk. by rewrite Hk.
Qed.
Lemma map_result_ext {A B} (f g : A -> result B) l : Forall (fun x => f x = g x) l -> map_result f l = map_result g l.
Proof. induction 1 as [|x l Hx Hl IH]; cbn [map_result]; [done|]. by rewrite Hx, IH. Qed.

(** ** The graph of references *)

Definition own_refs (f : Field) : list string := if non_zero_text (Ref f) then [Ref f] else [].
Fixpoint field_refs (f : Field) : list string :=
  own_refs f ++ match Object_ f with Some o => object_Fields o ≫= field_refs | None => [] end.
Definition object_refs (o : Object) : list string := object_Fields o ≫= field_refs.

Lemma visit_field_refs visit f : forall states, visit_field visit f states = fold_result visit (field_refs f) (Ok states).
Proof.
  induction f as [f IH] using Field_nested_ind. intros states.
  assert (visit_field visit f states = let* states := fold_result visit (own_refs f) (Ok states) in
    match Object_ f with
    | Some o => fold_result (visit_field visit) (object_Fields o) (Ok states) | None => Ok states end) as ->.
  { destruct f as [? ? ? ? ? ? o r ? ? ? ? ?]. unfold own_refs. cbn. destruct (non_zero_text r); [|by destruct o].
    cbn. destruct (visit r states); by destruct o. }
  assert (field_refs f = own_refs f ++ match Object_ f with Some o => object_Fields o ≫= field_refs | None => [] end) as ->
    by by destruct f.
  rewrite fold_result_app. destruct (fold_result visit (own_refs f) (Ok states)) as [s|e|m]; cbn [result_bind].
  - unfold subfields in IH. destruct (Object_ f) as [o|]; [|done]. by apply fold_result_flatten.
  - by rewrite fold_result_stuck.
  - by rewrite fold_result_stuck.
Qed.
Lemma visitObject_refs visit o states : visitObject visit o states = fold_result visit (object_refs o) (Ok states).
Proof. apply (fold_result_flatten visit field_refs). apply Forall_forall. intros f _. apply visit_field_refs. Qed.

Section Graph.
Variable definitions : gmap string Object.
(** The definition named [n] mentions the one named [m]. *)
Definition refers (n m : string) : Prop := m ∈ object_refs (definition_of definitions n).
Definition acyclic : Prop := forall n, ~ tc refers n n.

Lemma refers_defined n m : refers n m -> n ∈ (dom definitions : gset string).
Proof.
  unfold refers, definition_of. intros H. destruct (definitions !! n) as [o|] eqn:E; [by apply elem_of_dom|].
  by apply elem_of_nil in H.
Qed.
Lemma visitDefinition_step fuel name states : states !! name = None ->
  visitDefinition definitions (S fuel) name states =
  (let* states := fold_result (visitDefinition definitions fuel) (object_refs (definition_of definitions name))
     (Ok (<[name := visiting]> states)) in
   Ok (<[name := visited]> states)).
Proof. intros H. cbn [visitDefinition]. by rewrite H, visitObject_refs. Qed.

(** How much of the map is not yet visited. *)
Definition unvisited (states : visit_states) : nat := size (dom definitions ∖ dom states : gset string).

(** The names that are being visited stay so, the visited ones too, and no
    cycle can be reached from those. *)
Record advanced (s s' : visit_states) : Prop := {
  adv_visiting : forall m, s' !! m = Some visiting <-> s !! m = Some visiting;
  adv_visited : forall m, s !! m = Some visited -> s' !! m = Some visited;
  adv_acc : forall m, s' !! m = Some visited -> Acc (flip refers) m
}.
Lemma advanced_unvisited s s' : advanced s s' -> (unvisited s' <= unvisited s)%nat.
Proof.
  intros [H1 H2 _]. unfold unvisited. apply subseteq_size. intros n. rewrite !elem_of_difference, !elem_of_dom. intros [Hd Hn]. split; [done|].
  intros [v Hv]. apply Hn. destruct v; eexists; [by apply H1|by apply H2].
Qed.
Lemma unvisited_insert s n v : n ∈ (dom definitions : gset string) -> s !! n = None -> (unvisited (<[n := v]> s) < unvisited s)%nat.
Proof.
  intros Hd Hn. unfold unvisited. apply subset_size. rewrite dom_insert_L. split; [set_solver|]. intros H.
  apply not_elem_of_dom in Hn. specialize (H n). rewrite !elem_of_difference, elem_of_union, elem_of_singleton in H. tauto.
Qed.

Lemma visit_spec fuel : forall name s, (unvisited s < fuel)%nat ->
  (forall m, s !! m = Some visiting -> tc refers m name) -> (forall m, s !! m = Some visited -> Acc (flip refers) m) ->
  match visitDefinition definitions fuel name s with
  | Ok s' => advanced s s' /\ s' !! name = Some visited
  | Err e => exists n, e = codegen_error (reference_cycle n) /\ tc refers n n
  | Panicked _ => False
  end.
Proof.
  induction fuel as [|fuel IH]; intros name s Hf Hv Ha; [lia|]. destruct (s !! name) as [[]|] eqn:En.
  - cbn [visitDefinition]. rewrite En. exists name. auto.
  - cbn [visitDefinition]. rewrite En. done.
  - rewrite visitDefinition_step by done. set (s0 := <[name := visiting]> s).
    assert (advanced s0 s0 /\ forall m, s0 !! m = Some visiting <-> m = name \/ s !! m = Some visiting) as [Ha0 Hv0].
    { split; [split; [done|done|]|]; subst s0; intros m; destruct (decide (m = name)) as [->|Hne].
      - by rewrite lookup_insert_eq.
      - rewrite lookup_insert_ne by done. apply Ha.
      - rewrite lookup_insert_eq. split; [by left|done].
      - rewrite lookup_insert_ne by done. split; [by right|by intros [|]]. }
    assert (forall rs, (forall r, r ∈ rs -> refers name r) ->
      match fold_result (visitDefinition definitions fuel) rs (Ok s0) with
      | Ok s' => advanced s0 s' /\ Forall (fun r => s' !! r = Some visited) rs
      | Err e => exists n, e = codegen_error (reference_cycle n) /\ tc refers n n
      | Panicked _ => False end) as Hloop.
    { intros rs. induction rs as [|r rs IHr] using rev_ind; intros Hrs; [by split; [|constructor]|]. rewrite fold_result_app.
      specialize (IHr (fun x Hx => Hrs x ltac:(set_solver))). destruct (fold_result _ rs (Ok s0)) as [s1|e|m]; [|done..].
      destruct IHr as [Hadv Hall]. cbn. assert (refers name r) as Hr by (apply Hrs; set_solver).
      assert (unvisited s1 < fuel)%nat as Hf1.
      { apply advanced_unvisited in Hadv. pose proof (unvisited_insert s name visiting (refers_defined _ _ Hr) En). fold s0 in H. lia. }
      specialize (IH r s1 Hf1). destruct Hadv as [H1 H2 H3].
      assert (forall m, s1 !! m = Some visiting -> tc refers m r) as Hv1.
      { intros m Hm. apply H1, Hv0 in Hm as [->|Hm]; [by apply tc_once|]. eapply tc_r; [by apply Hv|done]. }
      specialize (IH Hv1 H3). destruct (visitDefinition definitions fuel r s1) as [s2|e|m]; [|done..].
      destruct IH as [[G1 G2 G3] G4]. split.
      - split; [|auto|done]. intros m. rewrite G1. apply H1.
      - apply Forall_app. split; [|by constructor]. eapply Forall_impl; [exact Hall|]. auto. }
    specialize (Hloop _ (fun r Hr => Hr)). destruct (fold_result _ _ (Ok s0)) as [s1|e|m]; [|done..]. cbn [result_bind].
    destruct Hloop as [[H1 H2 H3] Hall]. assert (Acc (flip refers) name) as Hacc.
    { constructor. intros r Hr. apply H3. rewrite Forall_forall in Hall. by apply Hall. }
    split; [|apply lookup_insert_eq]. split.
    + intros m. destruct (decide (m = name)) as [->|Hne]; [by rewrite lookup_insert_eq, En|].
      rewrite lookup_insert_ne, H1, Hv0 by done. split; [by intros [|]|by right].
    + intros m Hm. destruct (decide (m = name)) as [->|Hne]; [apply lookup_insert_eq|]. rewrite lookup_insert_ne by done.
      apply H2. subst s0. by rewrite lookup_insert_ne.
    + intros m. destruct (decide (m = name)) as [->|Hne]; [done|]. rewrite lookup_insert_ne by done. apply H3.
Qed.

Lemma acc_no_cycle n : Acc (flip refers) n -> ~ tc refers n n.
Proof.
  induction 1 as [n _ IH]. intros Hc. inversion Hc as [? ? Hr|? m ? Hr Ht]; subst.
  - by apply (IH n Hr), tc_once.
  - apply (IH m Hr). by eapply tc_r.
Qed.

Lemma visit_all_spec order : forall s, (forall m, s !! m <> Some visiting) -> (forall m, s !! m = Some visited -> Acc (flip refers) m) ->
  match fold_result (visitDefinition definitions (reference_fuel definitions)) order (Ok s) with
  | Ok s' => (forall m, s' !! m = Some visited -> Acc (flip refers) m) /\ (forall m, s !! m = Some visited -> s' !! m = Some visited) /\ Forall (fun n => s' !! n = Some visited) order
  | Err e => exists n, e = codegen_error (reference_cycle n) /\ tc refers n n
  | Panicked _ => False
  end.
Proof.
  induction order as [|n order IH]; intros s Hv Ha; [done|]. rewrite fold_result_cons.
  assert (unvisited s < reference_fuel definitions)%nat as Hf.
  { unfold unvisited, reference_fuel. rewrite <- size_dom. apply Nat.lt_succ_r, subseteq_size. set_solver. }
  pose proof (visit_spec _ n s Hf (fun m Hm => False_ind _ (Hv m Hm)) Ha) as H.
  destruct (visitDefinition definitions _ n s) as [s1|e|m]; [|by rewrite fold_result_stuck..]. destruct H as [[H1 H2 H3] Hn].
  specialize (IH s1 (fun m Hm => Hv m (proj1 (H1 m) Hm)) H3). destruct (fold_result _ order (Ok s1)) as [s2|e|m]; [|done..].
  destruct IH as (G1 & G2 & G3). split; [exact G1|]. split; [intros m Hm; by apply G2, H2|]. constructor; [by apply G2|exact G3].
Qed.

(** The check answers, and with the right verdict. *)
Lemma reference_check_spec order : (forall n, n ∈ (dom definitions : gset string) -> n ∈ order) ->
  match validateReferenceCycles definitions order with
  | Ok _ => acyclic
  | Err e => exists n, e = codegen_error (reference_cycle n) /\ tc refers n n
  | Panicked _ => False
  end.
Proof.
  intros Hall. unfold validateReferenceCycles.
  change (fold_left _ order (Ok ∅)) with (fold_result (visitDefinition definitions (reference_fuel definitions)) order (Ok ∅)).
  pose proof (visit_all_spec order ∅ ltac:(by intros m; rewrite lookup_empty) ltac:(by intros m; rewrite lookup_empty)) as H.
  destruct (fold_result _ order (Ok ∅)) as [s|e|m]; [|done..]. cbn [result_bind]. destruct H as (Ha & _ & Hv).
  intros n Hc. assert (refers n n \/ exists m, refers n m) as Hr by (inversion Hc; eauto).
  assert (n ∈ (dom definitions : gset string)) as Hd by (destruct Hr as [Hr|[m Hr]]; by eapply refers_defined).
  rewrite Forall_forall in Hv. exact (acc_no_cycle n (Ha n (Hv n (Hall n Hd))) Hc).
Qed.

(** ** Resolution *)

Lemma resolve_field_eq resolve f : resolve_field resolve f =
  if non_zero_text (Ref f) then let* o := resolve (Ref f) in Ok (with_object f (Enum f) (Some o))
  else match Object_ f with
       | Some o => let* fields := map_result (resolve_field resolve) (object_Fields o) in
                   Ok (with_object f (Enum f) (Some (MkObject (GoType o) (DartType o) fields)))
       | None => Ok (with_object f (Enum f) None)
       end.
Proof. by destruct f. Qed.
Lemma field_refs_eq f : field_refs f =
  own_refs f ++ match Object_ f with Some o => object_Fields o ≫= field_refs | None => [] end.
Proof. by destruct f. Qed.

Lemma resolve_field_ok resolve f : (forall r, r ∈ field_refs f -> exists o, resolve r = Ok o) -> exists f', resolve_field resolve f = Ok f'.
Proof.
  induction f as [f IH] using Field_nested_ind. intros H. rewrite resolve_field_eq. rewrite field_refs_eq in H. unfold own_refs in H.
  destruct (non_zero_text (Ref f)).
  { destruct (H (Ref f)) as [o Ho]; [set_solver|]. rewrite Ho. cbn. eauto. }
  unfold subfields in IH. destruct (Object_ f) as [o|]; [|cbn; eauto].
  destruct (map_result_ok (resolve_field resolve) (object_Fields o)) as [fields Hf].
  { rewrite Forall_forall in IH |- *. intros g Hg. apply IH; [done|]. intros r Hr. apply H. cbn. apply list_elem_of_bind. eauto. }
  rewrite Hf. cbn. eauto.
Qed.
Lemma resolve_object_ok resolve o : (forall r, r ∈ object_refs o -> exists o', resolve r = Ok o') ->
  exists o', resolve_object_with resolve o = Ok o'.
Proof.
  intros H. unfold resolve_object_with, resolve_fields_with.
  destruct (map_result_ok (resolve_field resolve) (object_Fields o)) as [fields Hf]; [|rewrite Hf; cbn; eauto].
  apply Forall_forall. intros g Hg. apply resolve_field_ok. intros r Hr. apply H. apply list_elem_of_bind. eauto.
Qed.

(** A chain of references holds no name twice, so it is no longer than the map. *)
Lemma resolveDefinition_ok : acyclic -> forall fuel name (path : gset string), (forall m, m ∈ path -> tc refers m name) ->
  (size (dom definitions ∖ path : gset string) < fuel)%nat -> exists o, resolveDefinition definitions fuel name = Ok o.
Proof.
  intros Hac fuel. induction fuel as [|fuel IH]; intros name path Hp Hf; [lia|]. cbn [resolveDefinition].
  apply resolve_object_ok. intros r Hr. change (refers name r) in Hr. apply (IH r ({[name]} ∪ path)).
  - intros m Hm. apply elem_of_union in Hm as [->%elem_of_singleton|Hm]; [by apply tc_once|]. eapply tc_r; [by apply Hp|done].
  - assert (name ∉ path) as Hn by (intros Hn; by apply (Hac name), Hp).
    assert (size (dom definitions ∖ ({[name]} ∪ path) : gset string) < size (dom definitions ∖ path : gset string))%nat; [|lia].
    apply subset_size. pose proof (refers_defined name r Hr) as Hd. split; [set_solver|]. intros Hsub. specialize (Hsub name). set_solver.
Qed.
Lemma resolve_reference_ok : acyclic -> forall name, exists o, resolveDefinition definitions (reference_fuel definitions) name = Ok o.
Proof.
  intros Hac name. apply (resolveDefinition_ok Hac _ name ∅); [set_solver|]. unfold reference_fuel. rewrite <- size_dom.
  apply Nat.lt_succ_r, subseteq_size. set_solver.
Qed.
Lemma resolveObjectReferences_ok o : acyclic -> exists o', resolveObjectReferences definitions o = Ok o'.
Proof. intros Hac. apply resolve_object_ok. intros r _. by apply resolve_reference_ok. Qed.
Lemma resolveFieldReferences_ok fs : acyclic -> exists fs', resolveFieldReferences definitions fs = Ok fs'.
Proof.
  intros Hac. apply map_result_ok, Forall_forall. intros f _. apply resolve_field_ok. intros r _. by apply resolve_reference_ok.
Qed.
End Graph.

(** C26. The check of reusable types decides whether their references run in a
    circle, in whichever order it goes through the map: without a cycle it
    succeeds, and then the references of every object can be resolved; with one
    it fails with a name on a cycle. *)
Theorem reference_check_decides definitions order :
  (forall n, n ∈ (dom definitions : gset string) -> n ∈ order) ->
  (validateReferenceCycles definitions order = Ok tt <-> acyclic definitions) /\
  (acyclic definitions -> forall o, exists o', resolveObjectReferences definitions o = Ok o') /\
  (~ acyclic definitions ->
   exists n, validateReferenceCycles definitions order = Err (codegen_error (reference_cycle n)) /\ tc (refers definitions) n n).
Proof.
  intros Hall. pose proof (reference_check_spec definitions order Hall) as H.
  destruct (validateReferenceCycles definitions order) as [[]|e|m]; [..|done].
  - split; [done|]. split; [|done]. intros Ha o. by apply resolveObjectReferences_ok.
  - destruct H as (n & -> & Hc). split; [split; [done|intros Ha; by destruct (Ha n)]|]. split; [intros Ha; by destruct (Ha n)|].
    intros _. by exists n.
Qed.

(** ** Validation returns *)

Definition returns {A} (r : result A) : Prop := match r with Panicked _ => False | _ => True end.
Lemma returns_bind {A B} (r : result A) (k : A -> result B) : returns r -> (forall a, r = Ok a -> returns (k a)) -> returns (let* x := r in k x).
Proof. destruct r; cbn; auto. Qed.
Lemma returns_check bad parts : returns (check bad parts).
Proof. by destruct bad. Qed.
Lemma returns_if {A} (b : bool) (x y : result A) : returns x -> returns y -> returns (if b then x else y).
Proof. by destruct b. Qed.
Lemma returns_fold {A S} (g : A -> S -> result S) l r : returns r -> Forall (fun x => forall s, returns (g x s)) l -> returns (fold_result g l r).
Proof.
  intros Hr Hl. revert r Hr. induction Hl as [|x l Hx Hl IH]; intros r Hr; [done|]. apply (IH (let* s := r in g x s)).
  apply returns_bind; auto.
Qed.
Ltac returns_step :=
  match goal with
  | |- returns (check _ _) => apply returns_check
  | |- returns (fails _) => exact I
  | |- returns (Ok _) => exact I
  | |- returns (if _ then _ else _) => apply returns_if
  | |- returns (result_bind _ _) => apply returns_bind; [|intros ? ?]
  end.
Ltac returns_steps := repeat returns_step.

Lemma returns_enum path index seen values : returns (duplicate_enum path index seen values).
Proof. revert index seen. induction values as [|v values IH]; intros index seen; cbn [duplicate_enum]; returns_steps. apply IH. Qed.
Lemma returns_options path f : returns (validateOptions path f).
Proof. unfold validateOptions, or_else. returns_steps. apply returns_enum. Qed.
Lemma returns_generated path go fs : forall gns dns, returns (generated_names path go gns dns fs).
Proof.
  induction fs as [|f fs IH]; intros gns dns; cbn [generated_names]; [done|].
  destruct (if go then _ else _); [done|]. destruct (dns !! _); [done|]. apply IH.
Qed.
Lemma returns_fields_from validateField path fs : Forall (fun f => forall p ts, returns (validateField p f ts)) fs ->
  forall index names ts, returns (validate_fields_from validateField path index names fs ts).
Proof.
  induction 1 as [|f fs Hf Hfs IH]; intros index names ts; cbn [validate_fields_from]; [done|]. returns_steps; [apply Hf|apply IH].
Qed.
Lemma returns_object_with validateField path o ts : Forall (fun f => forall p ts, returns (validateField p f ts)) (object_Fields o) ->
  returns (validate_object_with validateField path o ts).
Proof.
  intros H. unfold validate_object_with. returns_steps. destruct (goTypes ts !! _); [done|]. destruct (dartTypes ts !! _); [done|].
  returns_steps; [by apply returns_fields_from|apply returns_generated].
Qed.
Lemma validateField_eq definitions allowFile fieldPath field ts : validateField definitions allowFile fieldPath field ts =
  let no_object := check (is_some (Object_ field) || non_zero_text (Ref field))
                     [fieldPath; " object or ref requires type object"] in
  let is_type := String.eqb (Type_ field) in
  let* ts :=
    if is_type "string" || is_type "integer" || is_type "number" || is_type "boolean" then let* _ := no_object in Ok ts
    else if is_type "file" then
      check (negb allowFile) [fieldPath; " file fields are not allowed here"] ;;
      no_object ;;
      let* _ := check (Array field) [fieldPath; " file arrays are not supported"] in Ok ts
    else if is_type "object" then
      match Object_ field with
      | None =>
          if non_zero_text (Ref field) then let* _ := validate_reference definitions fieldPath field in Ok ts
          else fails [fieldPath; ".object is required unless ref is set"]
      | Some object =>
          if non_zero_text (Ref field) then fails [fieldPath; " type object requires exactly one of object or ref"]
          else validate_object_with (validateField definitions allowFile) (fieldPath +:+ ".object") object ts
      end
    else fails [fieldPath; ".type "; Quote (Type_ field); " is unsupported"] in
  let* _ := validateOptions fieldPath field in Ok ts.
Proof. by destruct field. Qed.
Lemma returns_field definitions allowFile f : forall path ts, returns (validateField definitions allowFile path f ts).
Proof.
  induction f as [f IH] using Field_nested_ind. intros path ts. rewrite validateField_eq. cbv zeta. unfold or_else.
  apply returns_bind; [|intros ts' _; apply returns_bind; [apply returns_options|done]]. unfold subfields in IH.
  destruct (Object_ f) as [o|]; returns_steps.
  - by apply returns_object_with.
  - unfold validate_reference. by destruct (bool_decide _).
Qed.
Lemma returns_object definitions allowFile path o ts : returns (validateObject definitions allowFile path o ts).
Proof. apply returns_object_with, Forall_forall. intros f _. apply returns_field. Qed.
Lemma returns_fields definitions allowFile path fs ts : returns (validateFields definitions allowFile path fs ts).
Proof. apply returns_fields_from, Forall_forall. intros f _. apply returns_field. Qed.

Lemma returns_members conflicts : (forall o f, returns (conflicts o f)) -> forall o, returns (check_object_members conflicts o).
Proof.
  intros Hc. assert (forall f o, returns (check_members conflicts o f)) as Hf.
  { intros f. induction f as [f IH] using Field_nested_ind. intros o.
    assert (check_members conflicts o f = let* _ := conflicts o f in
      match Object_ f with Some o' => fold_result (fun g _ => check_members conflicts o' g) (object_Fields o') (Ok tt) | None => Ok tt end)
      as -> by by destruct f.
    apply returns_bind; [apply Hc|]. intros _ _. unfold subfields in IH. destruct (Object_ f) as [o'|]; [|done].
    apply returns_fold; [done|]. eapply Forall_impl; [exact IH|]. intros g Hg _. apply Hg. }
  intros o. apply (returns_fold (fun g _ => check_members conflicts o g)); [done|]. apply Forall_forall. intros g _ _. apply Hf.
Qed.
Lemma returns_generated_members schema : returns (validateGeneratedMembers schema).
Proof.
  unfold validateGeneratedMembers, for_each. apply returns_bind; [|intros _ _].
  - apply (returns_fold (fun t _ => validateDartEncoderMembers (type_Object t))); [done|]. apply Forall_forall. intros t _ _.
    apply returns_members. intros. apply returns_check.
  - apply (returns_fold (fun m _ => match Params m with Some p => let* _ := validateGoRequestMembers p in validateDartEncoderMembers p | None => Ok tt end));
      [done|]. apply Forall_forall. intros m _ _. destruct (Params m); [|done].
    apply returns_bind; [|intros _ _]; apply returns_members; intros; apply returns_check.
Qed.

(** A name that matches [methodPattern] holds a dot. *)
Lemma split_dot s : (2 <= length (split "." s))%nat -> exists parts, cut_last "." s = Some parts.
Proof.
  induction s as [|c s IH]; [cbn; lia|]. cbn [split cut_last]. destruct (Ascii.eqb c ".") eqn:E.
  - intros _. destruct (cut_last "." s) as [[before after]|]; eauto.
  - destruct (split "." s) as [|x xs]; [cbn; lia|]. intros H. destruct (IH H) as [[before after] ->]. eauto.
Qed.
Lemma splitRouteMethod_pattern s : methodPattern s = true -> exists group action, splitRouteMethod s = Ok (group, action).
Proof.
  intros H. apply andb_true_iff in H as [H _]. apply Nat.leb_le in H. unfold splitRouteMethod.
  destruct (split_dot s H) as [[group action] ->]. eauto.
Qed.
Lemma returns_method_names path m ns : returns (validate_method_names path m ns).
Proof.
  unfold validate_method_names. destruct (methodPattern (method_Name m)) eqn:Hp; cbn [negb]; [|done].
  destruct (splitRouteMethod_pattern _ Hp) as (group & action & ->). cbn [result_bind].
  returns_steps. destruct (methodConstants ns !! _); returns_steps.
Qed.
Lemma returns_method_objects definitions path m ts : returns (validate_method_objects definitions path m ts).
Proof.
  unfold validate_method_objects. apply returns_bind.
  { destruct (Params m); [apply returns_object|done]. }
  intros ts1 _. apply returns_bind; [apply returns_object|]. intros ts2 _. apply returns_bind; [apply returns_fields|].
  intros ts3 _. apply returns_bind; [apply returns_generated|done].
Qed.
Lemma returns_methods definitions ms : forall index ns ts, returns (validate_methods definitions index ms ns ts).
Proof.
  induction ms as [|m ms IH]; intros index ns ts; cbn [validate_methods]; [done|].
  apply returns_bind; [apply returns_method_names|]. intros ns' _. apply returns_bind; [apply returns_method_objects|]. intros; apply IH.
Qed.
Lemma returns_types definitions types : forall index ts, returns (validate_types definitions index types ts).
Proof.
  induction types as [|t types IH]; intros index ts; cbn [validate_types]; [done|]. apply returns_bind; [apply returns_object|]. intros; apply IH.
Qed.
Lemma register_types_spec types : forall index ds,
  match register_types index ds types with
  | Ok ds' => ds' = fold_left (fun ds t => <[type_Name t := type_Object t]> ds) types ds
  | Err _ => True
  | Panicked _ => False
  end.
Proof.
  induction types as [|t types IH]; intros index ds; cbn [register_types fold_left]; [done|].
  destruct (negb _); [done|]. destruct (bool_decide _); [done|]. apply IH.
Qed.
Lemma resolveReferences_ok schema : acyclic (definitions_by_name (Types schema)) -> exists resolved, resolveReferences schema = Ok resolved.
Proof.
  intros Ha. unfold resolveReferences. set (ds := definitions_by_name (Types schema)) in *.
  destruct (map_result_ok (resolve_named ds) (Types schema)) as [types ->].
  { apply Forall_forall. intros t _. unfold resolve_named. destruct (resolveObjectReferences_ok ds (type_Object t) Ha) as [o ->]. cbn. eauto. }
  destruct (map_result_ok (resolve_method ds) (Methods schema)) as [methods ->]; [|cbn; eauto].
  apply Forall_forall. intros m _. unfold resolve_method.
  destruct (resolveObjectReferences_ok ds (Result m) Ha) as [res ->]. destruct (resolveFieldReferences_ok ds (Meta m) Ha) as [meta ->].
  destruct (Params m) as [p|]; [|cbn; eauto]. destruct (resolveObjectReferences_ok ds p Ha) as [p' ->]. cbn. eauto.
Qed.

(** The validation of a schema returns: whatever the schema, it neither
    recurses without end through the reusable types, nor slices a method's name
    out of its bounds; and a schema it accepts has no circle of references and
    resolves. *)
Theorem schema_validation_returns (range_ : gmap string Object -> list string) schema :
  (forall ds n, n ∈ (dom ds : gset string) -> n ∈ range_ ds) ->
  returns (Validate range_ schema) /\
  (Validate range_ schema = Ok tt ->
   acyclic (definitions_by_name (Types schema)) /\ exists resolved, resolveReferences schema = Ok resolved).
Proof.
  intros Hrange. unfold Validate, or_else.
  destruct (check (negb _) _) as [[]|e|m] eqn:E1; cbn [result_bind]; [|done|by destruct (negb _)].
  destruct (check (ProtocolVersion schema <? 1) _) as [[]|e|m] eqn:E2; cbn [result_bind]; [|done|by destruct (ProtocolVersion schema <? 1)].
  destruct (check (length _ =? 0)%nat _) as [[]|e|m] eqn:E3; cbn [result_bind]; [|done|by destruct (length _ =? 0)%nat].
  pose proof (register_types_spec (Types schema) 0 ∅) as Hd. destruct (register_types 0 ∅ (Types schema)) as [ds|e|m]; cbn [result_bind]; [|done..].
  fold (definitions_by_name (Types schema)) in Hd. subst ds. set (ds := definitions_by_name (Types schema)).
  pose proof (returns_types ds (Types schema) 0 (MkTypeNames ∅ ∅)) as Ht.
  destruct (validate_types ds 0 (Types schema) _) as [ts|e|m]; cbn [result_bind]; [|done..]. clear Ht.
  pose proof (reference_check_spec ds (range_ ds) (Hrange ds)) as Hc.
  destruct (validateReferenceCycles ds (range_ ds)) as [[]|e|m]; cbn [result_bind]; [|done..].
  pose proof (returns_methods ds (Methods schema) 0 no_methods ts) as Hm.
  destruct (validate_methods ds 0 (Methods schema) no_methods ts) as [[]|e|m]; cbn [result_bind]; [|done..].
  destruct (resolveReferences_ok schema Hc) as [resolved ->]. cbn [result_bind].
  split; [apply returns_generated_members|]. intros _. eauto.
Qed.

(** ** Two reusable types and a method *)
Module Areas.
Definition field (name type_ : string) : Field := MkField name type_ "" false false [] None "" 0 0 None None false.
Definition point : Object := MkObject "Point" "Point" [field "x" "number"; field "y" "number"].
Definition area : Object := MkObject "Area" "Area"
  [field "title" "string"; MkField "corners" "object" "" true false [] None "Point" 0 0 None None false].
Definition schema (point : Object) : Schema := MkSchema 1 1 [MkNamedObject "Area" area; MkNamedObject "Point" point]
  [MkMethod "areas.list" "listAreas" false None
     (MkObject "AreasResponse" "AreasResponse" [MkField "areas" "object" "" true false [] None "Area" 0 0 None None false]) []].
(** A point that refers back to its area. *)
Definition circular : Object := MkObject "Point" "Point" [MkField "area" "object" "" false true [] None "Area" 0 0 None None false].
Definition keys (ds : gmap string Object) : list string := (map_to_list ds).*1.
Lemma keys_all ds n : n ∈ (dom ds : gset string) -> n ∈ keys ds.
Proof. intros [o Ho]%elem_of_dom. apply list_elem_of_fmap. exists (n, o). split; [done|]. by apply elem_of_map_to_list. Qed.
End Areas.

Lemma reference_check_decides_witness :
  acyclic (definitions_by_name (Types (Areas.schema Areas.point))) /\
  ~ acyclic (definitions_by_name (Types (Areas.schema Areas.circular))).
Proof.
  split.
  - apply (reference_check_decides _ (Areas.keys _) (Areas.keys_all _)). vm_compute. reflexivity.
  - intros H. apply (reference_check_decides _ (Areas.keys _) (Areas.keys_all _)) in H. vm_compute in H. discriminate H.
Defined.
Lemma schema_validation_returns_witness :
  (exists resolved, resolveReferences (Areas.schema Areas.point) = Ok resolved) /\
  returns (Validate Areas.keys (Areas.schema Areas.circular)).
Proof.
  split.
  - apply (schema_validation_returns Areas.keys (Areas.schema Areas.point) Areas.keys_all). vm_compute. reflexivity.
  - apply (schema_validation_returns Areas.keys (Areas.schema Areas.circular) Areas.keys_all).
Defined.

(** ** What validation guarantees of a resolved schema: objects where the type
    says so, field names that are unique, methods that are unique. *)

(** ** Shapes *)

(** A scalar: only strings have a format, and files are not in arrays. *)
Definition scalar_ok (f : Field) : Prop :=
  Type_ f <> "object" /\ (Format f <> "" -> Type_ f = "string") /\ (Type_ f = "file" -> Array f = false).

(** A field of a schema as written: an object, a reference or a scalar. *)
Inductive written (definitions : gmap string Object) : Field -> Prop :=
| written_object f o : Object_ f = Some o -> Type_ f = "object" -> Ref f = "" -> NoDup (field_Name <$> object_Fields o) ->
    (forall g, g ∈ object_Fields o -> written definitions g) -> written definitions f
| written_reference f : Object_ f = None -> Type_ f = "object" -> Ref f <> "" -> is_Some (definitions !! Ref f) -> written definitions f
| written_scalar f : Object_ f = None -> scalar_ok f -> Ref f = "" -> written definitions f.
Definition written_fields (definitions : gmap string Object) (fs : list Field) : Prop :=
  NoDup (field_Name <$> fs) /\ forall f, f ∈ fs -> written definitions f.

(** A field after its references are resolved. *)
Inductive shaped : Field -> Prop :=
| shaped_object f o : Object_ f = Some o -> Type_ f = "object" -> NoDup (field_Name <$> object_Fields o) ->
    (forall g, g ∈ object_Fields o -> shaped g) -> shaped f
| shaped_scalar f : Object_ f = None -> scalar_ok f -> shaped f.
Definition shaped_fields (fs : list Field) : Prop := NoDup (field_Name <$> fs) /\ forall f, f ∈ fs -> shaped f.

(** ** What the checks leave *)

Lemma check_ok bad parts a : check bad parts = Ok a -> bad = false.
Proof. by destruct bad. Qed.
Lemma bind_ok {A B} (r : result A) (k : A -> result B) b : (let* x := r in k x) = Ok b -> exists a, r = Ok a /\ k a = Ok b.
Proof. destruct r; [eauto|done..]. Qed.

Lemma fields_from_ok validateField path fs : forall index names ts ts', validate_fields_from validateField path index names fs ts = Ok ts' ->
  NoDup (field_Name <$> fs) /\ (forall f, f ∈ fs -> (field_Name f ∉ names) /\ exists p ts1 ts2, validateField p f ts1 = Ok ts2).
Proof.
  induction fs as [|f fs IH]; intros index names ts ts'; cbn [validate_fields_from]; [intros _; split; [constructor|set_solver]|].
  destruct (negb _); [done|]. destruct (bool_decide _) eqn:En; [done|]. apply bool_decide_eq_false in En. intros (ts1 & H1 & H2)%bind_ok.
  destruct (IH _ _ _ _ H2) as [Hnd Hall]. split.
  - rewrite fmap_cons. constructor; [|done]. intros (g & Eg & Hg)%list_elem_of_fmap. destruct (Hall g Hg) as [Hn _]. rewrite <- Eg in Hn. set_solver.
  - intros g [->|Hg]%elem_of_cons; [eauto 10|]. destruct (Hall g Hg) as [Hn Hv]. split; [set_solver|done].
Qed.
Lemma object_with_ok validateField path o ts ts' : validate_object_with validateField path o ts = Ok ts' ->
  NoDup (field_Name <$> object_Fields o) /\ forall f, f ∈ object_Fields o -> exists p ts1 ts2, validateField p f ts1 = Ok ts2.
Proof.
  unfold validate_object_with. destruct (negb _); [done|]. destruct (negb _); [done|]. destruct (goTypes ts !! _); [done|].
  destruct (dartTypes ts !! _); [done|]. destruct (length _ =? 0)%nat; [done|]. intros (ts1 & H1 & _)%bind_ok.
  apply fields_from_ok in H1 as [Hnd Hall]. split; [done|]. intros f Hf. by destruct (Hall f Hf).
Qed.
Lemma no_object_or_ref f parts a : check (is_some (Object_ f) || non_zero_text (Ref f)) parts = Ok a -> Object_ f = None /\ Ref f = "".
Proof.
  intros H%check_ok. unfold non_zero_text in H. apply orb_false_iff in H as [H1 H2]. split; [by destruct (Object_ f)|].
  apply negb_false_iff, String.eqb_eq in H2. done.
Qed.
Lemma format_ok path f a : validateOptions path f = Ok a -> Format f <> "" -> Type_ f = "string".
Proof.
  unfold validateOptions, or_else. intros (? & H%check_ok & _)%bind_ok Hf. unfold non_zero_text in H. apply andb_false_iff in H as [H|H].
  - apply negb_false_iff, String.eqb_eq in H. done.
  - apply orb_false_iff in H as [H _]. by apply negb_false_iff, String.eqb_eq in H.
Qed.
Lemma validateField_written definitions allowFile f : forall path ts ts',
  validateField definitions allowFile path f ts = Ok ts' -> written definitions f.
Proof.
  induction f as [f IH] using Field_nested_ind. intros path ts ts'. rewrite validateField_eq. cbv zeta. unfold or_else.
  intros (ts1 & H & (? & Hopt & _)%bind_ok)%bind_ok. destruct (String.eqb (Type_ f) "object") eqn:Eo.
  - apply String.eqb_eq in Eo. rewrite Eo in H. cbn [String.eqb orb] in H. cbv beta iota in H.
    change (("object" =? "string")%string || ("object" =? "integer")%string || ("object" =? "number")%string || ("object" =? "boolean")%string)
      with false in H. change ("object" =? "file")%string with false in H. change ("object" =? "object")%string with true in H. cbv iota in H.
    unfold subfields in IH. destruct (Object_ f) as [o|] eqn:Ef; destruct (non_zero_text (Ref f)) eqn:Er; try done.
    + apply object_with_ok in H as [Hnd Hall]. apply negb_false_iff, String.eqb_eq in Er. eapply written_object; [done..|].
      intros g Hg. destruct (Hall g Hg) as (p & t1 & t2 & Hv). rewrite Forall_forall in IH. by eapply IH.
    + apply bind_ok in H as (? & Hd & _). unfold validate_reference in Hd. destruct (bool_decide (is_Some (definitions !! Ref f))) eqn:E; [|done].
      apply bool_decide_eq_true in E. apply negb_true_iff, String.eqb_neq in Er. by apply written_reference.
  - apply String.eqb_neq in Eo.
    assert ((Object_ f = None /\ Ref f = "") /\ (Type_ f = "file" -> Array f = false)) as [[E1 E2] E3].
    2:{ apply written_scalar; [done| |done]. split; [done|]. split; [|done]. by eapply format_ok. }
    destruct (String.eqb_spec (Type_ f) "file") as [Ef|Ef].
    + rewrite Ef in H. change ("file" =? "file")%string with true in H.
      change (("file" =? "string")%string || ("file" =? "integer")%string || ("file" =? "number")%string || ("file" =? "boolean")%string)
        with false in H. cbv iota in H.
      apply bind_ok in H as (? & _ & (? & Ho & (? & Ha & _)%bind_ok)%bind_ok). split; [by eapply no_object_or_ref|]. intros _.
      by eapply check_ok.
    + split; [|done]. destruct (_ || _ || _ || _) in H; [by apply bind_ok in H as (? & H%no_object_or_ref & _)|].
      destruct (String.eqb_spec (Type_ f) "object"); done.
Qed.
Lemma validateObject_written definitions allowFile path o ts ts' :
  validateObject definitions allowFile path o ts = Ok ts' -> written_fields definitions (object_Fields o).
Proof.
  intros [Hnd Hall]%object_with_ok. split; [done|]. intros f Hf. destruct (Hall f Hf) as (? & ? & ? & H).
  by eapply validateField_written.
Qed.
Lemma validateFields_written definitions allowFile path fs ts ts' :
  validateFields definitions allowFile path fs ts = Ok ts' -> written_fields definitions fs.
Proof.
  intros [Hnd Hall]%fields_from_ok. split; [done|]. intros f Hf. destruct (Hall f Hf) as (_ & ? & ? & ? & H).
  by eapply validateField_written.
Qed.

(** ** Resolving written fields gives shaped ones *)

Definition keeps_name (f g : Field) : Prop := field_Name g = field_Name f.
Lemma names_kept fs gs : Forall2 keeps_name fs gs -> field_Name <$> gs = field_Name <$> fs.
Proof. induction 1 as [|f g fs gs H _ IH]; [done|]. rewrite !fmap_cons. by rewrite H, IH. Qed.

Section Resolve.
Variable definitions : gmap string Object.
Variable resolve : string -> result Object.
Hypothesis resolve_shaped : forall n o, is_Some (definitions !! n) -> resolve n = Ok o -> shaped_fields (object_Fields o).

Lemma resolve_field_shaped f : written definitions f -> forall f', resolve_field resolve f = Ok f' -> keeps_name f f' /\ shaped f'.
Proof.
  induction 1 as [f o Ho Ht Hr Hnd Hall IH|f Ho Ht Hr Hd|f Ho Ht Hr]; intros f'; rewrite resolve_field_eq; unfold non_zero_text.
  - rewrite Hr, Ho. cbn [String.eqb negb]. intros (fields & Hf & [= <-])%bind_ok. split; [done|]. apply map_result_Forall2 in Hf.
    assert (Forall2 (fun x y => keeps_name x y /\ shaped y) (object_Fields o) fields) as Hk.
    { apply Forall2_same_length_lookup. split; [by eapply Forall2_length|]. intros i x y Hx Hy.
      eapply IH; [by eapply list_elem_of_lookup_2|]. eapply Forall2_lookup_lr in Hf; eauto. }
    eapply shaped_object; [cbn; reflexivity|done|..]; cbn [object_Fields].
    + rewrite (names_kept (object_Fields o)); [done|]. eapply Forall2_impl; [exact Hk|]. by intros x y [? ?].
    + intros g [i Hi]%list_elem_of_lookup_1. destruct (Forall2_lookup_r _ _ _ _ _ Hk Hi) as (x & _ & _ & Hs). done.
  - apply String.eqb_neq in Hr as Hr'. rewrite Hr'. cbn [negb]. intros (o & Hres & [= <-])%bind_ok. split; [done|].
    destruct (resolve_shaped _ _ Hd Hres) as [Hnd Hall]. by eapply shaped_object; [cbn; reflexivity|..].
  - rewrite Hr, Ho. cbn [String.eqb negb]. intros [= <-]. split; [done|]. by apply shaped_scalar.
Qed.
Lemma resolve_fields_shaped fs fs' : written_fields definitions fs -> resolve_fields_with resolve fs = Ok fs' -> shaped_fields fs'.
Proof.
  intros [Hnd Hall] Hf. unfold resolve_fields_with in Hf. apply map_result_Forall2 in Hf.
  assert (Forall2 (fun x y => keeps_name x y /\ shaped y) fs fs') as Hk.
  { apply Forall2_same_length_lookup. split; [by eapply Forall2_length|]. intros i x y Hx Hy.
    apply resolve_field_shaped; [by eapply Hall, list_elem_of_lookup_2|]. eapply Forall2_lookup_lr in Hf; eauto. }
  split.
  - rewrite (names_kept fs); [done|]. eapply Forall2_impl; [exact Hk|]. by intros x y [? ?].
  - intros g [i Hi]%list_elem_of_lookup_1. destruct (Forall2_lookup_r _ _ _ _ _ Hk Hi) as (x & _ & _ & Hs). done.
Qed.
Lemma resolve_object_shaped o o' : written_fields definitions (object_Fields o) -> resolve_object_with resolve o = Ok o' ->
  shaped_fields (object_Fields o').
Proof. intros Hw. unfold resolve_object_with. intros (fs & Hf & [= <-])%bind_ok. by eapply resolve_fields_shaped. Qed.
End Resolve.

Section Definitions.
Variable definitions : gmap string Object.
Hypothesis all_written : forall n o, definitions !! n = Some o -> written_fields definitions (object_Fields o).
Lemma resolveDefinition_shaped fuel : forall n o, is_Some (definitions !! n) -> resolveDefinition definitions fuel n = Ok o ->
  shaped_fields (object_Fields o).
Proof.
  induction fuel as [|fuel IH]; intros n o [d Hd]; [done|]. cbn [resolveDefinition]. unfold definition_of. rewrite Hd.
  cbn [default]. intros H. eapply resolve_object_shaped; [exact IH|..|exact H]. by eapply all_written.
Qed.
Lemma resolveObjectReferences_shaped o o' : written_fields definitions (object_Fields o) ->
  resolveObjectReferences definitions o = Ok o' -> shaped_fields (object_Fields o').
Proof. apply resolve_object_shaped. intros. by eapply resolveDefinition_shaped. Qed.
Lemma resolveFieldReferences_shaped fs fs' : written_fields definitions fs ->
  resolveFieldReferences definitions fs = Ok fs' -> shaped_fields fs'.
Proof. apply resolve_fields_shaped. intros. by eapply resolveDefinition_shaped. Qed.
End Definitions.

(** ** A valid schema, resolved *)

Definition written_method (definitions : gmap string Object) (m : Method) : Prop :=
  (forall p, Params m = Some p -> written_fields definitions (object_Fields p)) /\
  written_fields definitions (object_Fields (Result m)) /\ written_fields definitions (Meta m).
Definition shaped_method (m : Method) : Prop :=
  (forall p, Params m = Some p -> shaped_fields (object_Fields p)) /\ shaped_fields (object_Fields (Result m)) /\ shaped_fields (Meta m).
Record shaped_schema (schema : Schema) : Prop := {
  shaped_names : NoDup (method_Name <$> Methods schema);
  shaped_methods : forall m, m ∈ Methods schema -> shaped_method m
}.

Lemma validate_types_written definitions types : forall index ts ts', validate_types definitions index types ts = Ok ts' ->
  forall t, t ∈ types -> written_fields definitions (object_Fields (type_Object t)).
Proof.
  induction types as [|t types IH]; intros index ts ts'; cbn [validate_types]; [set_solver|]. intros (ts1 & H1 & H2)%bind_ok.
  intros u [->|Hu]%elem_of_cons; [by eapply validateObject_written|]. by eapply IH.
Qed.
Lemma method_names_ok path m ns ns' : validate_method_names path m ns = Ok ns' ->
  (method_Name m ∉ methods_seen ns) /\ methods_seen ns' = {[method_Name m]} ∪ methods_seen ns.
Proof.
  unfold validate_method_names. destruct (negb _); [done|]. destruct (bool_decide (method_Name m ∈ _)) eqn:E; [done|].
  apply bool_decide_eq_false in E. intros ([group action] & _ & H)%bind_ok. destruct (negb _) in H; [done|].
  destruct (methodConstants ns !! _) in H; [done|]. destruct (negb _) in H; [done|]. destruct (bool_decide _) in H; [done|].
  injection H as <-. done.
Qed.
Lemma method_objects_written definitions path m ts ts' : validate_method_objects definitions path m ts = Ok ts' -> written_method definitions m.
Proof.
  unfold validate_method_objects. intros (ts1 & H1 & (ts2 & H2 & (ts3 & H3 & _)%bind_ok)%bind_ok)%bind_ok.
  split; [|split; [by eapply validateObject_written|by eapply validateFields_written]].
  intros p Hp. rewrite Hp in H1. by eapply validateObject_written.
Qed.
Lemma validate_methods_ok definitions ms : forall index ns ts a, validate_methods definitions index ms ns ts = Ok a ->
  NoDup (method_Name <$> ms) /\ forall m, m ∈ ms -> (method_Name m ∉ methods_seen ns) /\ written_method definitions m.
Proof.
  induction ms as [|m ms IH]; intros index ns ts a; cbn [validate_methods]; [intros _; split; [constructor|set_solver]|].
  intros (ns1 & H1 & (ts1 & H2 & H3)%bind_ok)%bind_ok. apply method_names_ok in H1 as [Hn Hs]. destruct (IH _ _ _ _ H3) as [Hnd Hall].
  split.
  - rewrite fmap_cons. constructor; [|done]. intros (k & Ek & Hk)%list_elem_of_fmap. destruct (Hall k Hk) as [Hkn _].
    rewrite Hs, <- Ek in Hkn. set_solver.
  - intros k [->|Hk]%elem_of_cons; [split; [done|by eapply method_objects_written]|]. destruct (Hall k Hk) as [Hkn Hw].
    split; [set_solver|done].
Qed.
Lemma definitions_by_name_elem types n o : definitions_by_name types !! n = Some o -> exists t, t ∈ types /\ type_Object t = o.
Proof.
  unfold definitions_by_name.
  revert n o. induction types as [|t types IH] using rev_ind; intros n o; [cbn [fold_left]; by rewrite lookup_empty|].
  rewrite fold_left_app. cbn [fold_left]. destruct (decide (n = type_Name t)) as [->|Hn].
  - rewrite lookup_insert_eq. intros [= <-]. exists t. set_solver.
  - rewrite lookup_insert_ne by done. intros (u & Hu & E)%IH. exists u. set_solver.
Qed.

Lemma validated_schema_shaped range_ schema resolved :
  Validate range_ schema = Ok tt -> resolveReferences schema = Ok resolved -> shaped_schema resolved.
Proof.
  unfold Validate, or_else. intros (? & _ & (? & _ & (? & _ & (ds & Hd & (ts & Ht & (? & _ & (? & Hm & _)%bind_ok)%bind_ok)%bind_ok)%bind_ok)%bind_ok)%bind_ok)%bind_ok.
  pose proof (register_types_spec (Types schema) 0 ∅) as Hds. rewrite Hd in Hds. fold (definitions_by_name (Types schema)) in Hds. subst ds.
  apply validate_methods_ok in Hm as [Hnd Hall]. pose proof (validate_types_written _ _ _ _ _ Ht) as Hw.
  assert (forall n o, definitions_by_name (Types schema) !! n = Some o -> written_fields (definitions_by_name (Types schema)) (object_Fields o)) as Hdw.
  { intros n o (t & Htt & <-)%definitions_by_name_elem. by apply Hw. }
  unfold resolveReferences. intros (types & _ & (methods & Hms & [= <-])%bind_ok)%bind_ok. apply map_result_Forall2 in Hms.
  assert (Forall2 (fun x y => method_Name y = method_Name x /\ shaped_method y) (Methods schema) methods) as Hk.
  { apply Forall2_same_length_lookup. split; [by eapply Forall2_length|]. intros i mx my Hx Hy.
    destruct (Hall mx ltac:(by eapply list_elem_of_lookup_2)) as (_ & Hp & Hr & Hme).
    eapply Forall2_lookup_lr in Hms; [|done..]. unfold resolve_method in Hms.
    apply bind_ok in Hms as (params & Ep & (res & Er & (meta & Eme & [= <-])%bind_ok)%bind_ok). split; [done|].
    split; [|split]; cbn [Params Result Meta].
    - intros p ->. destruct (Params mx) as [p0|] eqn:E0; [|done]. apply bind_ok in Ep as (p1 & Ep & [= ->]).
      exact (resolveObjectReferences_shaped _ Hdw _ _ (Hp _ eq_refl) Ep).
    - exact (resolveObjectReferences_shaped _ Hdw _ _ Hr Er).
    - exact (resolveFieldReferences_shaped _ Hdw _ _ Hme Eme). }
  split; cbn [Methods].
  - replace (method_Name <$> methods) with (method_Name <$> Methods schema); [done|].
    clear -Hk. induction Hk as [|m1 m2 ms1 ms2 [Hn _] _ IH]; [done|]. rewrite !fmap_cons. by rewrite Hn, IH.
  - intros m [i Hi]%list_elem_of_lookup_1. destruct (Forall2_lookup_r _ _ _ _ _ Hk Hi) as (? & _ & _ & Hs). done.
Qed.
