(* ===== verification/SchemaCompat.v ===== *)
(** * Wire compatibility of schemas: [backend/codegen/compatibility.go]

    The comparison of two schemas and its report.  A [*[]SchemaChange] that the
    functions append to is the list they return. *)
From S2P Require Import Prelude GoStrings Schema.
Open Scope Z_scope.
Open Scope go_scope.

Inductive SchemaCompatibilityStatus := SchemaCompatible | SchemaVersionedBreak | SchemaIncompatible.
Record SchemaChange := MkSchemaChange { Code : string; Path : string; Breaking : bool; Message : string }.
Record SchemaCompatibilityReport := MkReport {
  Status : SchemaCompatibilityStatus;
  BaselineProtocolVersion : Z;
  CurrentProtocolVersion : Z;
  ProtocolBumpRequired : bool;
  ProtocolBumpPresent : bool;
  MinimumProtocolVersion : Z;
  BreakingChanges : Z;
  Changes : list SchemaChange
}.
Definition breakingChange (code path message : string) : SchemaChange := MkSchemaChange code path true message.
Definition compatibleChange (code path message : string) : SchemaChange := MkSchemaChange code path false message.

Definition methodsByName (methods : list Method) : gmap string Method :=
  fold_left (fun ms m => <[method_Name m := m]> ms) methods ∅.
Definition fieldsByName (fields : list Field) : gmap string Field :=
  fold_left (fun fs f => <[field_Name f := f]> fs) fields ∅.

Inductive fieldDirection := requestFields | responseFields.
Definition is_request (direction : fieldDirection) : bool :=
  match direction with requestFields => true | responseFields => false end.

Definition equalOptionalInt (left right : option Z) : bool := bool_decide (left = right).
Definition equalStringSet (left right : list string) : bool :=
  (length left =? length right)%nat && bool_decide (merge_sort String.le left = merge_sort String.le right).

Section Fields.
Variable direction : fieldDirection.
Section Loop.
Variable compareField : string -> Field -> Field -> list SchemaChange.
Definition element (path name : string) : string := path +:+ "[" +:+ name +:+ "]".
Definition baseline_field (path : string) (current : list Field) (baselineField : Field) : list SchemaChange :=
  let fieldPath := element path (field_Name baselineField) in
  match fieldsByName current !! field_Name baselineField with
  | None =>
      let message := "Field " +:+ Quote (field_Name baselineField) +:+ " was removed." in
      if is_request direction || negb (Nullable baselineField) then [breakingChange "field_removed" fieldPath message]
      else [compatibleChange "nullable_response_field_removed" fieldPath message]
  | Some currentField => compareField fieldPath baselineField currentField
  end.
Definition current_field (path : string) (baseline : list Field) (currentField : Field) : list SchemaChange :=
  match fieldsByName baseline !! field_Name currentField with
  | Some _ => []
  | None =>
      let fieldPath := element path (field_Name currentField) in
      let message := "Field " +:+ Quote (field_Name currentField) +:+ " was added." in
      if is_request direction || negb (Nullable currentField) then [breakingChange "field_added" fieldPath message]
      else [compatibleChange "nullable_response_field_added" fieldPath message]
  end.
Definition compare_fields_with (path : string) (baseline current : list Field) : list SchemaChange :=
  (baseline ≫= baseline_field path current) ++ (current ≫= current_field path baseline).
End Loop.

Definition same_rules (baseline current : Field) : bool :=
  (MinLength baseline =? MinLength current) && (MaxLength baseline =? MaxLength current) &&
  equalOptionalInt (Minimum baseline) (Minimum current) && equalOptionalInt (Maximum baseline) (Maximum current) &&
  Bool.eqb (Trim baseline) (Trim current) && equalStringSet (Enum baseline) (Enum current).
Definition same_shape (baseline current : Field) : bool :=
  String.eqb (Type_ baseline) (Type_ current) && Bool.eqb (Array baseline) (Array current) &&
  String.eqb (Format baseline) (Format current).
Fixpoint compareField (path : string) (baseline current : Field) : list SchemaChange :=
  if negb (same_shape baseline current)
  then [breakingChange "field_shape_changed" path "The field type, array shape, or wire format changed."]
  else
    (if Bool.eqb (Nullable baseline) (Nullable current) then []
     else [breakingChange "field_nullability_changed" (path +:+ ".nullable") "The field presence or nullability contract changed."]) ++
    (if is_request direction && negb (same_rules baseline current)
     then [breakingChange "request_rules_changed" path "The request validation or normalization rules changed."] else []) ++
    (if negb (String.eqb (Type_ baseline) "object") then []
     else match Object_ baseline, Object_ current with
          | Some b, Some c => compare_fields_with compareField (path +:+ ".object" +:+ ".fields") (object_Fields b) (object_Fields c)
          | _, _ => []
          end).
Definition compareFields (path : string) (baseline current : list Field) : list SchemaChange :=
  compare_fields_with compareField path baseline current.
Definition compareObject (path : string) (baseline current : Object) : list SchemaChange :=
  compareFields (path +:+ ".fields") (object_Fields baseline) (object_Fields current).
End Fields.

Definition compareMethod (path : string) (baseline current : Method) : list SchemaChange :=
  (if Bool.eqb (Stream baseline) (Stream current) then []
   else [breakingChange "streaming_changed" (path +:+ ".stream") "The RPC method changed between unary and server streaming."]) ++
  match Params baseline, Params current with
  | None, Some _ => [breakingChange "params_added" (path +:+ ".params") "Request parameters were added to a method that had none."]
  | Some _, None => [breakingChange "params_removed" (path +:+ ".params") "Request parameters were removed from the method."]
  | Some b, Some c => compareObject requestFields (path +:+ ".params") b c
  | None, None => []
  end ++
  compareObject responseFields (path +:+ ".result") (Result baseline) (Result current) ++
  compareFields responseFields (path +:+ ".meta") (Meta baseline) (Meta current).

Definition baseline_method (current : Schema) (baselineMethod : Method) : list SchemaChange :=
  let path := element "methods" (method_Name baselineMethod) in
  match methodsByName (Methods current) !! method_Name baselineMethod with
  | None => [breakingChange "method_removed" path ("RPC method " +:+ Quote (method_Name baselineMethod) +:+ " was removed.")]
  | Some currentMethod => compareMethod path baselineMethod currentMethod
  end.
Definition current_method (baseline : Schema) (currentMethod : Method) : list SchemaChange :=
  match methodsByName (Methods baseline) !! method_Name currentMethod with
  | Some _ => []
  | None => [compatibleChange "method_added" (element "methods" (method_Name currentMethod))
               ("RPC method " +:+ Quote (method_Name currentMethod) +:+ " was added.")]
  end.
Definition schema_changes (baseline current : Schema) : list SchemaChange :=
  (Methods baseline ≫= baseline_method current) ++ (Methods current ≫= current_method baseline).

Definition make_report (baseline current : Schema) (changes : list SchemaChange) : SchemaCompatibilityReport :=
  let breakingChanges := Z.of_nat (length (filter (fun change => Breaking change = true) changes)) in
  let protocolBumpRequired := 0 <? breakingChanges in
  let minimumProtocolVersion :=
    if protocolBumpRequired then wrap64 (ProtocolVersion baseline + 1) else ProtocolVersion baseline in
  let protocolBumpPresent := ProtocolVersion baseline <? ProtocolVersion current in
  let compatible := (ProtocolVersion baseline <=? ProtocolVersion current) && (negb protocolBumpRequired || protocolBumpPresent) in
  let status := if negb compatible then SchemaIncompatible
                else if protocolBumpRequired then SchemaVersionedBreak else SchemaCompatible in
  MkReport status (ProtocolVersion baseline) (ProtocolVersion current) protocolBumpRequired protocolBumpPresent
    minimumProtocolVersion breakingChanges changes.

(** [fmt.Errorf("codegen: ...: %w", err)] of a validation error. *)
Definition validate_as {A} (what : string) (r : result A) : result A :=
  match r with Err e => Err (Errorf [T ("codegen: validate " +:+ what +:+ " schema: "); W e]) | r => r end.
Definition CompareSchemas (range_ : gmap string Object -> list string) (baseline current : Schema) : result SchemaCompatibilityReport :=
  validate_as "baseline" (Validate range_ baseline) ;;
  validate_as "current" (Validate range_ current) ;;
  let* baseline := resolveReferences baseline in
  let* current := resolveReferences current in
  Ok (make_report baseline current (schema_changes baseline current)).
