(* ===== verification/SchemaContract.v ===== *)
(** * The wire contract of a schema: what the generated servers accept and the
    generated clients decode [backend/codegen/generator.go, typescript.go]

    The generator writes program text; this file holds what the text it writes
    for a field does with a JSON value.  How a language reads a number or a
    date, and how it finds a member of an object, are parameters. *)
From S2P Require Import Prelude GoStrings JsonDecode RequestValidation Validation Schema.
Open Scope Z_scope.
Open Scope go_scope.

Definition is_absent (raw : option json) : bool := match raw with None | Some JNull => true | _ => false end.
Definition is_object (v : json) : bool := match v with JObject _ => true | _ => false end.

(** ** The generated Go server: requests *)

Section Server.
(** What decoding into a Go scalar gives. *)
Inductive scalar := SText (s : string) | SInt (z : Z) | SOther.
(** Decoding a value into a scalar of the Go type; the member of an object that
    decoding, and the check of the payload, take for a field; the names of an
    object's members, and when one is a field's. *)
Variable decodes : string -> json -> option scalar.
Variables decoded_member checked_member : json -> string -> option json.
Variable member_names : json -> list string.
Variable matches : string -> string -> bool.

(** [goType] of a field without its array and pointer. *)
Definition go_scalar (f : Field) : string :=
  let is_type := String.eqb (Type_ f) in
  if is_type "string" then "string" else if is_type "integer" then "int" else if is_type "number" then "float64"
  else if is_type "boolean" then "bool" else if is_type "file" then "framework.FileReference" else "".
Definition zero_scalar (f : Field) : scalar :=
  if String.eqb (go_scalar f) "string" then SText "" else if String.eqb (go_scalar f) "int" then SInt 0 else SOther.

(** Every member of an object is a field's: unknown fields are disallowed. *)
Definition known_members (fields : list Field) (v : json) : bool :=
  forallb (fun n => existsb (fun f => matches n (field_Name f)) fields) (member_names v).
(** Decoding a field of the request: a null changes nothing. *)
Fixpoint decodes_field (f : Field) (raw : option json) : bool :=
  let decodes_value (v : json) : bool :=
    match v with
    | JNull => true
    | _ =>
        match Object_ f with
        | Some o => is_object v && known_members (object_Fields o) v &&
                    forallb (fun g => decodes_field g (decoded_member v (field_Name g))) (object_Fields o)
        | None => is_some (decodes (go_scalar f) v)
        end
    end in
  match raw with
  | None | Some JNull => true
  | Some v => if Array f then match v with JArray l => forallb decodes_value l | _ => false end else decodes_value v
  end.
(** The check of a file reference, a struct whose expiry is again a struct,
    [time.Time], without exported fields: [expiresAt] must be an object. *)
Definition present_file (v : json) : bool :=
  is_object v &&
  forallb (fun name => match checked_member v name with
                       | None | Some JNull => false
                       | Some raw => if String.eqb name "expiresAt" then is_object raw else true
                       end) ["id"; "name"; "mediaType"; "size"; "sha256"; "expiresAt"].

(** [ValidatePayload]: the tag has [omitempty] for a nullable field; the check
    looks into objects and file references, but not into arrays. *)
Fixpoint present_field (f : Field) (raw : option json) : bool :=
  match raw with
  | None | Some JNull => Nullable f
  | Some v =>
      if Array f then true
      else match Object_ f with
           | Some o => is_object v && forallb (fun g => present_field g (checked_member v (field_Name g))) (object_Fields o)
           | None => if String.eqb (Type_ f) "file" then present_file v else true
           end
  end.

(** The rules that are written for a field, before [Optional]. *)
Definition humanName (name : string) : string := goIdentifier name.
Definition characterUnit (count : Z) : string := if count =? 1 then "character" else "characters".
Definition string_rules (f : Field) : list (result (ValueRule string)) :=
  (if 0 <? MinLength f then
     [Validation.MinLength (MinLength f)
        (humanName (field_Name f) +:+ " must be at least " +:+ Itoa (MinLength f) +:+ " " +:+ characterUnit (MinLength f) +:+ ".")] else []) ++
  (if 0 <? MaxLength f then
     [Validation.MaxLength (MaxLength f)
        (humanName (field_Name f) +:+ " must be " +:+ Itoa (MaxLength f) +:+ " " +:+ characterUnit (MaxLength f) +:+ " or fewer.")] else []) ++
  (if (0 <? length (Enum f))%nat then
     [Ok (OneOf (humanName (field_Name f) +:+ " must be one of: " +:+ join ", " (Enum f) +:+ ".") (Enum f))] else []).
Definition int_rules (f : Field) : list (result (ValueRule Z)) :=
  match Minimum f with
  | Some minimum => [Ok (Validation.Minimum minimum (humanName (field_Name f) +:+ " must be at least " +:+ Itoa minimum +:+ "."))]
  | None => []
  end ++
  match Maximum f with
  | Some maximum => [Ok (Validation.Maximum maximum (humanName (field_Name f) +:+ " must be " +:+ Itoa maximum +:+ " or less."))]
  | None => []
  end.
Definition passes {V} (value : V) (rule : result (ValueRule V)) : bool :=
  match rule with Ok rule => negb (is_some (rule value)) | _ => false end.
(** [ForField] with these rules, on the value the selector gives: trimmed if
    the field says so. *)
Definition scalar_passes (f : Field) (x : scalar) : bool :=
  match x with
  | SText s => forallb (passes (if Trim f then TrimSpace s else s)) (string_rules f)
  | SInt z => forallb (passes z) (int_rules f)
  | SOther => true
  end.
(** [Validate] of the request, field by field: a nil pointer is not looked at,
    an object that is missing from an array's element is the zero value. *)
Fixpoint passes_field (f : Field) (raw : option json) : bool :=
  match Object_ f with
  | Some o =>
      let passes_value (raw : option json) : bool :=
        forallb (fun g => passes_field g (match raw with Some v => decoded_member v (field_Name g) | None => None end)) (object_Fields o) in
      if Array f then match raw with Some (JArray l) => forallb (fun v => passes_value (Some v)) l | _ => true end
      else if Nullable f && is_absent raw then true else passes_value raw
  | None =>
      if Array f then true
      else if Nullable f && is_absent raw then true
      else scalar_passes f
             (match raw with
              | None | Some JNull => zero_scalar f
              | Some v => default (zero_scalar f) (decodes (go_scalar f) v)
              end)
  end.

(** [BindAndValidate] of the request type that is generated for the fields. *)
Definition server_accepts (fields : list Field) (v : json) : bool :=
  is_object v && known_members fields v &&
  forallb (fun g => decodes_field g (decoded_member v (field_Name g))) fields &&
  forallb (fun g => present_field g (checked_member v (field_Name g))) fields &&
  forallb (fun g => passes_field g (decoded_member v (field_Name g))) fields.
End Server.

(** ** Responses *)

Section Client.
(** Whether the text of a number reads as an integer, and as a finite number;
    whether a string parses as a date; whether an object is a file reference. *)
Variables reads_int reads_finite reads_date : string -> bool.
Variable is_file : json -> bool.

(** A value of the response a server of the schema sends.  The type of a field
    says what its scalar is, with the format and the enum of a string. *)
Definition sent_scalar (f : Field) (v : json) : bool :=
  let is_type := String.eqb (Type_ f) in
  match v with
  | JString s => is_type "string" && (String.eqb (Format f) "" || reads_date s) &&
                 ((length (Enum f) =? 0)%nat || bool_decide (s ∈ Enum f))
  | JNumber n => (is_type "integer" && reads_int n) || (is_type "number" && reads_finite n)
  | JBool _ => is_type "boolean"
  | JObject _ => is_type "file" && is_file v
  | _ => false
  end.
(** An object has the members of its fields and no others. *)
Definition only_fields (fields : list Field) (m : gmap string json) : bool :=
  forallb (fun n => bool_decide (n ∈ (field_Name <$> fields))) (map_to_list m).*1.
Fixpoint sent_field (f : Field) (raw : option json) : bool :=
  let sent_value (v : json) : bool :=
    match Object_ f with
    | Some o => match as_object v with
                | Some m => only_fields (object_Fields o) m && forallb (fun g => sent_field g (m !! field_Name g)) (object_Fields o)
                | None => false
                end
    | None => sent_scalar f v
    end in
  match raw with
  | None | Some JNull => Nullable f
  | Some v => if Array f then match v with JArray l => forallb sent_value l | _ => false end else sent_value v
  end.
Definition sent (fields : list Field) (v : json) : bool :=
  match as_object v with
  | Some m => only_fields fields m && forallb (fun g => sent_field g (m !! field_Name g)) fields
  | None => false
  end.

(** *** The Dart client *)

Definition dartType (f : Field) : string :=
  let is_type := String.eqb (Type_ f) in
  if is_type "string" then "String" else if is_type "integer" then "int" else if is_type "number" then "double"
  else if is_type "boolean" then "bool" else if is_type "file" then "RpcFileReference" else "".
(** The helper the decode expression of a field calls; [true] for the variant
    of a nullable field. *)
Inductive dart_helper :=
| NumberField (nullable : bool) | NumberListField (nullable : bool)
| FileField (nullable : bool)
| ObjectField (nullable : bool) | ObjectListField (nullable : bool)
| DateTimeField (nullable : bool) | DateTimeListField (nullable : bool)
| ScalarField (nullable : bool) (dart : string) | ListField (nullable : bool) (dart : string).
Definition dartDecodeExpression (f : Field) : dart_helper :=
  if String.eqb (Type_ f) "number" then if Array f then NumberListField (Nullable f) else NumberField (Nullable f)
  else if String.eqb (Type_ f) "file" then FileField (Nullable f)
  else match Object_ f with
       | Some _ => if Array f then ObjectListField (Nullable f) else ObjectField (Nullable f)
       | None =>
           if Array f then
             if String.eqb (Format f) "date-time" then DateTimeListField (Nullable f) else ListField (Nullable f) (dartType f)
           else if String.eqb (Format f) "date-time" then DateTimeField (Nullable f)
           else ScalarField (Nullable f) (dartType f)
       end.

(** [value is T]. *)
Definition dart_is (dart : string) (v : json) : bool :=
  match v with
  | JString _ => String.eqb dart "String"
  | JNumber n => String.eqb dart "int" && reads_int n
  | JBool _ => String.eqb dart "bool"
  | _ => false
  end.
Definition is_finite_number (v : json) : bool := match v with JNumber n => reads_finite n | _ => false end.
Definition is_date (v : json) : bool := match v with JString s => reads_date s | _ => false end.
(** The bodies of the helpers: the optional ones let null and a missing member
    pass, the lists check every element. *)
Definition optional_or (nullable : bool) (require : json -> bool) (raw : option json) : bool :=
  match raw with
  | None | Some JNull => nullable
  | Some v => require v
  end.
Definition list_of (require : json -> bool) (v : json) : bool := match v with JArray l => forallb require l | _ => false end.
Definition run_helper (helper : dart_helper) (object : json -> bool) : option json -> bool :=
  match helper with
  | NumberField n => optional_or n is_finite_number
  | NumberListField n => optional_or n (list_of is_finite_number)
  | FileField n => optional_or n (fun v => is_object v && is_file v)
  | ObjectField n => optional_or n object
  | ObjectListField n => optional_or n (list_of object)
  | DateTimeField n => optional_or n is_date
  | DateTimeListField n => optional_or n (list_of is_date)
  | ScalarField n dart => optional_or n (dart_is dart)
  | ListField n dart => optional_or n (list_of (dart_is dart))
  end.
Fixpoint dart_decodes (f : Field) (raw : option json) : bool :=
  run_helper (dartDecodeExpression f)
    (fun v => match Object_ f, as_object v with
              | Some o, Some m => forallb (fun g => dart_decodes g (m !! field_Name g)) (object_Fields o)
              | _, _ => false
              end) raw.
Definition dart_accepts (fields : list Field) (v : json) : bool :=
  match as_object v with Some m => forallb (fun g => dart_decodes g (m !! field_Name g)) fields | None => false end.

(** *** The Web client *)

(** [tsFieldType]'s decoder, run: a missing member is [undefined]. *)
Fixpoint web_decodes (f : Field) (raw : option json) : bool :=
  let is_type := String.eqb (Type_ f) in
  let base (v : json) : bool :=
    if is_type "integer" then match v with JNumber n => reads_int n | _ => false end
    else if is_type "number" then is_finite_number v
    else if is_type "boolean" then match v with JBool _ => true | _ => false end
    else if is_type "object" then
      match Object_ f, as_object v with
      | Some o, Some m => forallb (fun g => web_decodes g (m !! field_Name g)) (object_Fields o)
      | _, _ => false
      end
    else if is_type "string" then
      match v with
      | JString s => if (0 <? length (Enum f))%nat then bool_decide (s ∈ Enum f)
                     else if String.eqb (Format f) "date-time" then reads_date s else true
      | _ => false
      end
    else false in
  optional_or (Nullable f) (if Array f then list_of base else base) raw.
Definition web_accepts (fields : list Field) (v : json) : bool :=
  match as_object v with Some m => forallb (fun g => web_decodes g (m !! field_Name g)) fields | None => false end.
End Client.
