(* ===== verification/SchemaCompatFacts.v ===== *)
(** * What a report without breaking changes promises *)
From S2P Require Import Prelude GoStrings JsonDecode RequestValidation Validation Schema SchemaReferences SchemaCompat SchemaContract.
Open Scope Z_scope.
Open Scope go_scope.

Definition no_break (changes : list SchemaChange) : Prop := Forall (fun change => Breaking change = false) changes.
Lemma no_break_app l l' : no_break (l ++ l') <-> no_break l /\ no_break l'.
Proof. apply Forall_app. Qed.
Lemma no_break_bind {A} (f : A -> list SchemaChange) l : no_break (l ≫= f) <-> forall x, x ∈ l -> no_break (f x).
Proof.
  unfold no_break. induction l as [|x l IH]; [split; [set_solver|constructor]|]. rewrite bind_cons, Forall_app, IH. split.
  - intros [H1 H2] y [->|Hy]%elem_of_cons; auto.
  - intros H. split; [|intros y Hy]; apply H; set_solver.
Qed.
Lemma no_break_one code path message : ~ no_break [breakingChange code path message].
Proof. intros H. inversion H; subst. done. Qed.
Lemma no_break_if (b : bool) code path message : no_break (if b then [] else [breakingChange code path message]) -> b = true.
Proof. destruct b; [done|]. by intros ?%no_break_one. Qed.
Lemma no_break_unless (b : bool) code path message : no_break (if b then [breakingChange code path message] else []) -> b = false.
Proof. destruct b; [|done]. by intros ?%no_break_one. Qed.

(** ** Pairs of fields *)

Lemma by_name_spec {A} (name : A -> string) (l : list A) n :
  match fold_left (fun m x => <[name x := x]> m) l (∅ : gmap string A) !! n with
  | Some x => x ∈ l /\ name x = n
  | None => forall x, x ∈ l -> name x <> n
  end.
Proof.
  induction l as [|x l IH] using rev_ind; [cbn [fold_left]; rewrite lookup_empty; intros x Hx; by apply not_elem_of_nil in Hx|]. rewrite fold_left_app. cbn [fold_left].
  destruct (decide (name x = n)) as [E|Hn]; [rewrite E, lookup_insert_eq; split; [set_solver|done]|].
  rewrite lookup_insert_ne by done. destruct (_ !! n) as [y|].
  - destruct IH. split; [set_solver|done].
  - intros y [Hy| ->%list_elem_of_singleton]%elem_of_app; auto.
Qed.
Lemma NoDup_name {A} (name : A -> string) (l : list A) x y : NoDup (name <$> l) -> x ∈ l -> y ∈ l -> name x = name y -> x = y.
Proof.
  intros Hnd [i Hi]%list_elem_of_lookup_1 [j Hj]%list_elem_of_lookup_1 E.
  assert (i = j) as ->; [|congruence]. eapply (NoDup_lookup (name <$> l)); [done|by rewrite list_lookup_fmap, Hi|by rewrite list_lookup_fmap, Hj, E].
Qed.
Lemma by_name_unique {A} (name : A -> string) (l : list A) x : NoDup (name <$> l) -> x ∈ l ->
  fold_left (fun m x => <[name x := x]> m) l (∅ : gmap string A) !! name x = Some x.
Proof.
  intros Hnd Hx. pose proof (by_name_spec name l (name x)) as H. destruct (_ !! name x) as [y|]; [|by destruct (H x)].
  destruct H as [Hy E]. by rewrite (NoDup_name name l y x).
Qed.

(** [b] and [c] are compared as the same field, without a breaking change. *)
Definition compared (direction : fieldDirection) (b c : Field) : Prop :=
  field_Name c = field_Name b /\ exists path, no_break (compareField direction path b c).

Section Pairs.
Variables (direction : fieldDirection) (path : string) (bs cs : list Field).
Hypothesis quiet : no_break (compareFields direction path bs cs).
Hypothesis unique : NoDup (field_Name <$> cs).
Lemma baseline_paired b : b ∈ bs ->
  (exists c, c ∈ cs /\ compared direction b c) \/
  (direction = responseFields /\ Nullable b = true /\ forall c, c ∈ cs -> field_Name c <> field_Name b).
Proof.
  intros Hb. apply no_break_app in quiet as [H _]. rewrite no_break_bind in H. specialize (H b Hb). unfold baseline_field in H.
  pose proof (by_name_spec field_Name cs (field_Name b)) as Hn. unfold fieldsByName in H.
  destruct (_ !! field_Name b) as [c|]; [left; exists c; split; [apply Hn|]; split; [apply Hn|eauto]|].
  right. destruct (is_request direction || negb (Nullable b)) eqn:E; [by apply no_break_one in H|].
  apply orb_false_iff in E as [E1 E2%negb_false_iff]. by destruct direction.
Qed.
Lemma current_paired c : c ∈ cs ->
  (exists b, b ∈ bs /\ compared direction b c) \/ (direction = responseFields /\ Nullable c = true).
Proof.
  intros Hc. apply no_break_app in quiet as [H1 H2]. rewrite no_break_bind in H1, H2. specialize (H2 c Hc). unfold current_field in H2.
  pose proof (by_name_spec field_Name bs (field_Name c)) as Hn. unfold fieldsByName in H2.
  destruct (_ !! field_Name c) as [b|].
  - left. destruct Hn as [Hb En]. exists b. split; [done|]. specialize (H1 b Hb). unfold baseline_field, fieldsByName in H1.
    rewrite En, (by_name_unique field_Name cs c unique Hc) in H1. split; [done|]. eauto.
  - right. destruct (is_request direction || negb (Nullable c)) eqn:E; [by apply no_break_one in H2|].
    apply orb_false_iff in E as [E1 E2%negb_false_iff]. by destruct direction.
Qed.
End Pairs.

(** Two shaped fields compared without a breaking change agree, and their
    objects were compared. *)
Lemma compareField_quiet direction path b c : shaped b -> shaped c -> no_break (compareField direction path b c) ->
  Type_ b = Type_ c /\ Array b = Array c /\ Format b = Format c /\ Nullable b = Nullable c /\
  (direction = requestFields -> same_rules b c = true) /\
  match Object_ b, Object_ c with
  | Some ob, Some oc => (forall g, g ∈ object_Fields oc -> shaped g) /\ (forall g, g ∈ object_Fields ob -> shaped g) /\
      NoDup (field_Name <$> object_Fields oc) /\ exists p, no_break (compareFields direction p (object_Fields ob) (object_Fields oc))
  | None, None => scalar_ok b
  | _, _ => False
  end.
Proof.
  intros Hb Hc H.
  assert (compareField direction path b c = if negb (same_shape b c)
    then [breakingChange "field_shape_changed" path "The field type, array shape, or wire format changed."]
    else (if Bool.eqb (Nullable b) (Nullable c) then []
          else [breakingChange "field_nullability_changed" (path +:+ ".nullable") "The field presence or nullability contract changed."]) ++
         (if is_request direction && negb (same_rules b c)
          then [breakingChange "request_rules_changed" path "The request validation or normalization rules changed."] else []) ++
         (if negb (String.eqb (Type_ b) "object") then []
          else match Object_ b, Object_ c with
               | Some o, Some o' => compareFields direction (path +:+ ".object" +:+ ".fields") (object_Fields o) (object_Fields o')
               | _, _ => []
               end)) as E by by destruct b.
  rewrite E in H. clear E. destruct (same_shape b c) eqn:Es; cbn [negb] in H; [|by apply no_break_one in H].
  unfold same_shape in Es. apply andb_true_iff in Es as [[Et%String.eqb_eq Ea%Bool.eqb_prop]%andb_true_iff Ef%String.eqb_eq].
  apply no_break_app in H as [H1%no_break_if%Bool.eqb_prop [H2%no_break_unless H3]%no_break_app].
  repeat (split; [done|]). split; [intros ->; by apply negb_false_iff in H2|].
  destruct Hb as [b ob Hob Htb Hnb Hallb|b Hob Hsb]; destruct Hc as [c oc Hoc Htc Hnc Hallc|c Hoc Hsc]; rewrite Hob, Hoc in *.
  - rewrite Htb in H3. change (negb (String.eqb "object" "object")) with false in H3. cbv iota in H3.
    split; [done|]. split; [done|]. split; [done|]. by eexists.
  - destruct Hsc as [Hsc _]. congruence.
  - destruct Hsb as [Hsb _]. congruence.
  - done.
Qed.

(** ** Requests: the server accepts the same *)

Lemma forallb_pointwise {A} (P Q : A -> bool) l : (forall x, P x = Q x) -> forallb P l = forallb Q l.
Proof. intros H. induction l as [|x l IH]; [done|]. cbn. by rewrite H, IH. Qed.
Lemma forallb_paired {A} (P : A -> bool) bs cs :
  (forall b, b ∈ bs -> exists c, c ∈ cs /\ P b = P c) -> (forall c, c ∈ cs -> exists b, b ∈ bs /\ P b = P c) ->
  forallb P bs = forallb P cs.
Proof.
  intros H1 H2. apply eq_true_iff_eq. rewrite !forallb_forall. setoid_rewrite <- list_elem_of_In. split.
  - intros H c Hc. destruct (H2 c Hc) as (b & Hb & <-). auto.
  - intros H b Hb. destruct (H1 b Hb) as (c & Hc & ->). auto.
Qed.
Lemma existsb_paired {A} (P : A -> bool) bs cs :
  (forall b, b ∈ bs -> exists c, c ∈ cs /\ P b = P c) -> (forall c, c ∈ cs -> exists b, b ∈ bs /\ P b = P c) ->
  existsb P bs = existsb P cs.
Proof.
  intros H1 H2. apply eq_true_iff_eq. rewrite !existsb_exists. setoid_rewrite <- list_elem_of_In. split.
  - intros (b & Hb & Hp). destruct (H1 b Hb) as (c & Hc & E). exists c. by rewrite <- E.
  - intros (c & Hc & Hp). destruct (H2 c Hc) as (b & Hb & E). exists b. by rewrite E.
Qed.

Section RequestPairs.
Variables (path : string) (bs cs : list Field).
Hypothesis quiet : no_break (compareFields requestFields path bs cs).
Hypothesis unique : NoDup (field_Name <$> cs).
Hypothesis shaped_bs : forall g, g ∈ bs -> shaped g.
Hypothesis shaped_cs : forall g, g ∈ cs -> shaped g.

Lemma forallb_fields (P : Field -> bool) :
  (forall b c, b ∈ bs -> shaped b -> shaped c -> compared requestFields b c -> P b = P c) -> forallb P bs = forallb P cs.
Proof.
  intros HP. apply forallb_paired.
  - intros b Hb. destruct (baseline_paired _ _ _ _ quiet b Hb) as [(c & Hc & Hbc)|[E _]]; [|done]. exists c. auto.
  - intros c Hc. destruct (current_paired _ _ _ _ quiet unique c Hc) as [(b & Hb & Hbc)|[E _]]; [|done]. exists b. auto.
Qed.
Lemma known_members_fields member_names matches v : known_members member_names matches bs v = known_members member_names matches cs v.
Proof.
  unfold known_members. apply forallb_pointwise. intros n. apply existsb_paired.
  - intros b Hb. destruct (baseline_paired _ _ _ _ quiet b Hb) as [(c & Hc & E & _)|[E _]]; [|done]. exists c. by rewrite E.
  - intros c Hc. destruct (current_paired _ _ _ _ quiet unique c Hc) as [(b & Hb & E & _)|[E _]]; [|done]. exists b. by rewrite E.
Qed.
End RequestPairs.

(** Induction over a baseline field and the current one it is compared with. *)
Lemma request_fields_ind (P : Field -> Field -> Prop) :
  (forall b c, shaped b -> shaped c -> compared requestFields b c -> Array b = Array c -> Nullable b = Nullable c ->
    Type_ b = Type_ c -> same_rules b c = true ->
    match Object_ b, Object_ c with
    | Some ob, Some oc =>
        (exists p, no_break (compareFields requestFields p (object_Fields ob) (object_Fields oc))) /\
        NoDup (field_Name <$> object_Fields oc) /\ (forall g, g ∈ object_Fields ob -> shaped g) /\ (forall g, g ∈ object_Fields oc -> shaped g) /\
        forall b' c', b' ∈ object_Fields ob -> shaped b' -> shaped c' -> compared requestFields b' c' -> P b' c'
    | None, None => True
    | _, _ => False
    end -> P b c) ->
  forall b c, shaped b -> shaped c -> compared requestFields b c -> P b c.
Proof.
  intros HP b. induction b as [b IH] using Field_nested_ind. intros c Hb Hc Hbc. pose proof Hbc as [_ [p Hq]].
  destruct (compareField_quiet _ _ _ _ Hb Hc Hq) as (Et & Ea & _ & En & Er & Ho). apply HP; auto. unfold subfields in IH.
  destruct (Object_ b) as [ob|], (Object_ c) as [oc|]; try done. destruct Ho as (H1 & H2 & H3 & H4).
  split; [done|]. split; [done|]. split; [done|]. split; [done|]. rewrite Forall_forall in IH. auto.
Qed.

Section Server.
Variable decodes : string -> json -> option scalar.
Variables decoded_member checked_member : json -> string -> option json.
Variable member_names : json -> list string.
Variable matches : string -> string -> bool.
Let decodes_field := decodes_field decodes decoded_member member_names matches.
Let present_field := present_field checked_member.
Let passes_field := passes_field decodes decoded_member.

(** What decoding does with a value that is an element or not in an array. *)
Definition decodes_value (f : Field) (v : json) : bool :=
  match v with
  | JNull => true
  | _ =>
      match Object_ f with
      | Some o => is_object v && known_members member_names matches (object_Fields o) v &&
                  forallb (fun g => decodes_field g (decoded_member v (field_Name g))) (object_Fields o)
      | None => is_some (decodes (go_scalar f) v)
      end
  end.
Lemma decodes_field_eq f raw : decodes_field f raw =
  match raw with
  | None | Some JNull => true
  | Some v => if Array f then match v with JArray l => forallb (decodes_value f) l | _ => false end else decodes_value f v
  end.
Proof. by destruct f. Qed.
Lemma go_scalar_same b c : Type_ b = Type_ c -> go_scalar b = go_scalar c.
Proof. unfold go_scalar. by intros ->. Qed.

Lemma decodes_field_same b c : shaped b -> shaped c -> compared requestFields b c -> forall raw, decodes_field b raw = decodes_field c raw.
Proof.
  intros Hb Hc Hbc. revert b c Hb Hc Hbc.
  apply (request_fields_ind (fun b c => forall raw, decodes_field b raw = decodes_field c raw)).
  intros b c Hb Hc Hbc Ea En Et Er Ho raw.
  assert (forall v, decodes_value b v = decodes_value c v) as Hv.
  { intros v. unfold decodes_value. rewrite (go_scalar_same b c Et). destruct (Object_ b) as [ob|], (Object_ c) as [oc|]; try done.
    destruct Ho as ([p Hq] & Hnd & Hsb & Hsc & IH). rewrite (known_members_fields p _ _ Hq Hnd member_names matches v).
    destruct v; try done; f_equal. eapply forallb_fields; [done..|]. intros b' c' Hb' H1 H2 H3. pose proof H3 as [E _].
    rewrite E. by apply IH. }
  rewrite !decodes_field_eq, Ea. destruct raw as [v|]; [|done]. rewrite Hv.
  destruct v; try done. destruct (Array c); [|done]. by apply forallb_pointwise.
Qed.

Lemma present_field_eq f raw : present_field f raw =
  match raw with
  | None | Some JNull => Nullable f
  | Some v => if Array f then true
              else match Object_ f with
                   | Some o => is_object v && forallb (fun g => present_field g (checked_member v (field_Name g))) (object_Fields o)
                   | None => if String.eqb (Type_ f) "file" then present_file checked_member v else true
                   end
  end.
Proof. by destruct f. Qed.
Lemma present_field_same b c : shaped b -> shaped c -> compared requestFields b c -> forall raw, present_field b raw = present_field c raw.
Proof.
  intros Hb Hc Hbc. revert b c Hb Hc Hbc.
  apply (request_fields_ind (fun b c => forall raw, present_field b raw = present_field c raw)).
  intros b c Hb Hc Hbc Ea En Et Er Ho raw. rewrite !present_field_eq, Ea, En, Et.
  destruct raw as [v|]; [|done]. destruct (Object_ b) as [ob|], (Object_ c) as [oc|]; try done.
  destruct Ho as ([p Hq] & Hnd & Hsb & Hsc & IH).
  assert (forallb (fun g => present_field g (checked_member v (field_Name g))) (object_Fields ob) =
          forallb (fun g => present_field g (checked_member v (field_Name g))) (object_Fields oc)) as ->; [|done].
  eapply forallb_fields; [done..|]. intros b' c' Hb' H1 H2 H3. pose proof H3 as [E _]. rewrite E. by apply IH.
Qed.

(** *** Rules *)
Lemma equalStringSet_elem l l' : equalStringSet l l' = true -> forall s, s ∈ l <-> s ∈ l'.
Proof.
  unfold equalStringSet. intros [_ H%bool_decide_eq_true]%andb_true_iff s.
  rewrite <- (merge_sort_Permutation String.le l), H, (merge_sort_Permutation String.le l'). done.
Qed.
Lemma one_of_passes s message allowed : passes s (Ok (OneOf message allowed)) = bool_decide (s ∈ allowed).
Proof.
  unfold passes, OneOf. cbn [comparable_eq string_comparable].
  destruct (existsb (String.eqb s) allowed) eqn:E; cbn [is_some negb]; symmetry.
  - apply bool_decide_eq_true. apply existsb_exists in E as (x & Hx & ->%String.eqb_eq). by apply list_elem_of_In.
  - apply bool_decide_eq_false. intros Hs. apply not_true_iff_false in E. apply E, existsb_exists. exists s.
    split; [by apply list_elem_of_In|apply String.eqb_refl].
Qed.
Lemma min_length_passes s n message message' : passes s (Validation.MinLength n message) = passes s (Validation.MinLength n message').
Proof. unfold passes, Validation.MinLength. destruct (n <? 0); [done|]. by destruct (n <=? _). Qed.
Lemma max_length_passes s n message message' : passes s (Validation.MaxLength n message) = passes s (Validation.MaxLength n message').
Proof. unfold passes, Validation.MaxLength. destruct (n <? 0); [done|]. by destruct (_ <=? n). Qed.
Lemma minimum_passes z n message message' : passes z (Ok (Validation.Minimum n message)) = passes z (Ok (Validation.Minimum n message')).
Proof. unfold passes, Validation.Minimum. by destruct (number_le _ _). Qed.
Lemma maximum_passes z n message message' : passes z (Ok (Validation.Maximum n message)) = passes z (Ok (Validation.Maximum n message')).
Proof. unfold passes, Validation.Maximum. by destruct (number_le _ _). Qed.

Lemma scalar_passes_same b c x : same_rules b c = true -> scalar_passes b x = scalar_passes c x.
Proof.
  unfold same_rules. intros H. repeat (apply andb_true_iff in H as [H ?]). apply Z.eqb_eq in H.
  match goal with E : (MaxLength _ =? _) = true |- _ => apply Z.eqb_eq in E end.
  repeat match goal with E : equalOptionalInt _ _ = true |- _ => apply bool_decide_eq_true in E end.
  match goal with E : Bool.eqb _ _ = true |- _ => apply Bool.eqb_prop in E end.
  assert (length (Enum b) = length (Enum c)) as El.
  { match goal with E : equalStringSet _ _ = true |- _ => apply andb_true_iff in E as [E _]; by apply Nat.eqb_eq in E end. }
  match goal with E : equalStringSet _ _ = true |- _ => pose proof (equalStringSet_elem _ _ E) as He end.
  destruct x as [s|z|]; cbn [scalar_passes]; [..|done].
  - unfold string_rules. rewrite !forallb_app. replace (Trim c) with (Trim b) by done. replace (MinLength c) with (MinLength b) by done.
    replace (MaxLength c) with (MaxLength b) by done. rewrite <- El. set (s' := if Trim b then _ else _). f_equal; [|f_equal].
    + destruct (0 <? MinLength b); [|done]. cbn [forallb]. by erewrite min_length_passes.
    + destruct (0 <? MaxLength b); [|done]. cbn [forallb]. by erewrite max_length_passes.
    + destruct (0 <? length (Enum b))%nat; [|done]. cbn [forallb]. rewrite !one_of_passes. f_equal. by apply bool_decide_ext.
  - unfold int_rules. rewrite !forallb_app. replace (Minimum c) with (Minimum b) by done. replace (Maximum c) with (Maximum b) by done.
    f_equal.
    + destruct (Minimum b); [|done]. cbn [forallb]. by erewrite minimum_passes.
    + destruct (Maximum b); [|done]. cbn [forallb]. by erewrite maximum_passes.
Qed.

Lemma passes_field_eq f raw : passes_field f raw =
  match Object_ f with
  | Some o =>
      let passes_value (raw : option json) : bool :=
        forallb (fun g => passes_field g (match raw with Some v => decoded_member v (field_Name g) | None => None end)) (object_Fields o) in
      if Array f then match raw with Some (JArray l) => forallb (fun v => passes_value (Some v)) l | _ => true end
      else if Nullable f && is_absent raw then true else passes_value raw
  | None =>
      if Array f then true
      else if Nullable f && is_absent raw then true
      else scalar_passes f
             (match raw with
              | None | Some JNull => zero_scalar f
              | Some v => default (zero_scalar f) (decodes (go_scalar f) v)
              end)
  end.
Proof. by destruct f. Qed.
Lemma passes_field_same b c : shaped b -> shaped c -> compared requestFields b c -> forall raw, passes_field b raw = passes_field c raw.
Proof.
  intros Hb Hc Hbc. revert b c Hb Hc Hbc.
  apply (request_fields_ind (fun b c => forall raw, passes_field b raw = passes_field c raw)).
  intros b c Hb Hc Hbc Ea En Et Er Ho raw. rewrite !passes_field_eq, Ea, En.
  destruct (Object_ b) as [ob|], (Object_ c) as [oc|]; try done.
  - destruct Ho as ([p Hq] & Hnd & Hsb & Hsc & IH).
    assert (forall raw : option json,
      forallb (fun g => passes_field g (match raw with Some v => decoded_member v (field_Name g) | None => None end)) (object_Fields ob) =
      forallb (fun g => passes_field g (match raw with Some v => decoded_member v (field_Name g) | None => None end)) (object_Fields oc)) as Hv.
    { intros raw'. eapply forallb_fields; [done..|]. intros b' c' Hb' H1 H2 H3. pose proof H3 as [E _]. rewrite E. by apply IH. }
    cbv beta zeta. rewrite Hv. destruct (Array c); [|done]. destruct raw as [[]|]; try done. apply forallb_pointwise. intros v. apply (Hv (Some v)).
  - assert (zero_scalar b = zero_scalar c) as -> by (unfold zero_scalar; by rewrite (go_scalar_same b c Et)).
    rewrite (go_scalar_same b c Et). by rewrite (scalar_passes_same b c).
Qed.

Lemma server_accepts_same path bs cs v :
  no_break (compareFields requestFields path bs cs) -> shaped_fields bs -> shaped_fields cs ->
  server_accepts decodes decoded_member checked_member member_names matches bs v =
  server_accepts decodes decoded_member checked_member member_names matches cs v.
Proof.
  intros Hq [_ Hsb] [Hnd Hsc]. unfold server_accepts. rewrite (known_members_fields path bs cs Hq Hnd).
  f_equal; [f_equal; [f_equal|]|]; eapply forallb_fields; try done; intros b c Hb Hb' Hc Hbc; pose proof Hbc as [E _]; rewrite E.
  - by apply decodes_field_same.
  - by apply present_field_same.
  - by apply passes_field_same.
Qed.
End Server.

(** ** Responses: the old Dart client decodes what the new server sends *)

Section Client.
Variables reads_int reads_finite reads_date : string -> bool.
Variable is_file : json -> bool.
Let sent_field := sent_field reads_int reads_finite reads_date is_file.
Let dart_decodes := dart_decodes reads_int reads_finite reads_date is_file.

Definition sent_value (f : Field) (v : json) : bool :=
  match Object_ f with
  | Some o => match as_object v with
              | Some m => only_fields (object_Fields o) m && forallb (fun g => sent_field g (m !! field_Name g)) (object_Fields o)
              | None => false
              end
  | None => sent_scalar reads_int reads_finite reads_date is_file f v
  end.
Lemma sent_field_eq f raw : sent_field f raw =
  match raw with
  | None | Some JNull => Nullable f
  | Some v => if Array f then match v with JArray l => forallb (sent_value f) l | _ => false end else sent_value f v
  end.
Proof. by destruct f. Qed.
Definition dart_object (f : Field) (v : json) : bool :=
  match Object_ f, as_object v with
  | Some o, Some m => forallb (fun g => dart_decodes g (m !! field_Name g)) (object_Fields o)
  | _, _ => false
  end.
Lemma dart_decodes_eq f raw : dart_decodes f raw =
  run_helper reads_int reads_finite reads_date is_file (dartDecodeExpression f) (dart_object f) raw.
Proof. by destruct f. Qed.

(** What one helper takes for a value that is not null. *)
Definition dart_value (f : Field) (v : json) : bool :=
  match Object_ f with
  | Some _ => dart_object f v
  | None =>
      if String.eqb (Type_ f) "number" then is_finite_number reads_finite v
      else if String.eqb (Type_ f) "file" then is_object v && is_file v
      else if String.eqb (Format f) "date-time" then is_date reads_date v
      else dart_is reads_int (dartType f) v
  end.
Lemma dart_decodes_value f raw : (Object_ f <> None -> Type_ f = "object") -> (Type_ f = "file" -> Array f = false) ->
  dart_decodes f raw = optional_or (Nullable f) (if Array f then list_of (dart_value f) else dart_value f) raw.
Proof.
  intros Ho Hf. rewrite dart_decodes_eq. unfold dartDecodeExpression, dart_value. destruct (Object_ f) as [o|].
  - rewrite Ho by done. change (String.eqb "object" "number") with false. change (String.eqb "object" "file") with false. cbv iota.
    by destruct (Array f).
  - destruct (String.eqb (Type_ f) "number"); [by destruct (Array f)|]. destruct (String.eqb_spec (Type_ f) "file") as [E|E].
    + by rewrite Hf.
    + destruct (Array f), (String.eqb (Format f) "date-time"); done.
Qed.

Lemma sent_scalar_dart b c v : Type_ b = Type_ c -> Format b = Format c -> scalar_ok b -> Object_ b = None ->
  sent_scalar reads_int reads_finite reads_date is_file c v = true -> dart_value b v = true.
Proof.
  intros Et Ef (Ho & Hfmt & Hfile) Hn H. unfold dart_value. rewrite Hn. unfold sent_scalar in H. rewrite <- Et, <- Ef in H.
  destruct (String.eqb_spec (Type_ b) "number") as [E1|E1].
  { rewrite E1 in H. by destruct v. }
  destruct (String.eqb_spec (Type_ b) "file") as [E2|E2].
  { rewrite E2 in H. by destruct v. }
  unfold dartType. destruct (String.eqb_spec (Format b) "date-time") as [E3|E3].
  { assert (Type_ b = "string") as Es by (apply Hfmt; rewrite E3; done). rewrite Es, E3 in H.
    destruct v as [|x|n|s| |]; try done. cbn [is_date]. apply andb_true_iff in H as [H _]. exact H. }
  destruct v as [|x|n|s| |]; try done; cbn [dart_is].
  - apply String.eqb_eq in H. by rewrite H.
  - apply orb_true_iff in H as [[H1%String.eqb_eq H2]%andb_true_iff|[H1 _]%andb_true_iff]; [by rewrite H1|done].
  - apply andb_true_iff in H as [[H%String.eqb_eq _]%andb_true_iff _]. by rewrite H.
Qed.

Lemma only_fields_absent fields m n : only_fields fields m = true -> (forall f, f ∈ fields -> field_Name f <> n) -> m !! n = None.
Proof.
  intros H Hn. destruct (m !! n) as [v|] eqn:E; [|done]. unfold only_fields in H. rewrite forallb_forall in H.
  assert (n ∈ (map_to_list m).*1) as Hin by (apply list_elem_of_fmap; exists (n, v); split; [done|by apply elem_of_map_to_list]).
  apply list_elem_of_In in Hin. specialize (H n Hin). apply bool_decide_eq_true in H.
  apply list_elem_of_fmap in H as (f & -> & Hf). by destruct (Hn f Hf).
Qed.
Lemma optional_or_mono nullable (f g : json -> bool) raw : (forall v, f v = true -> g v = true) ->
  optional_or nullable f raw = true -> optional_or nullable g raw = true.
Proof. intros H. destruct raw as [[]|]; cbn; auto. Qed.
Lemma list_of_mono (f g : json -> bool) v : (forall v, f v = true -> g v = true) -> list_of f v = true -> list_of g v = true.
Proof. intros H. destruct v; try done. cbn. rewrite !forallb_forall. auto. Qed.

Lemma dart_decodes_sent b : forall c raw, shaped b -> shaped c -> compared responseFields b c -> sent_field c raw = true -> dart_decodes b raw = true.
Proof.
  induction b as [b IH] using Field_nested_ind. intros c raw Hb Hc [_ [p Hq]] Hs.
  destruct (compareField_quiet _ _ _ _ Hb Hc Hq) as (Et & Ea & Ef & En & _ & Ho).
  assert (forall v, sent_value c v = true -> dart_value b v = true) as Hv.
  { intros v. unfold sent_value. unfold subfields in IH. destruct (Object_ b) as [ob|] eqn:Eb, (Object_ c) as [oc|]; try done.
    - destruct Ho as (H1 & H2 & H3 & p' & H4). destruct (as_object v) as [m|] eqn:Em; [|done]. intros [Honly Hall]%andb_true_iff.
      unfold dart_value, dart_object. rewrite Eb, Em. rewrite forallb_forall in Hall |- *. intros g Hg%list_elem_of_In.
      rewrite Forall_forall in IH. destruct (baseline_paired _ _ _ _ H4 g Hg) as [(g' & Hg' & Hgg)|(_ & Hn & Hno)].
      + pose proof Hgg as [E _]. eapply IH; [done|by apply H2|by apply H1|done|]. rewrite <- E. by apply Hall, list_elem_of_In.
      + rewrite (only_fields_absent _ _ _ Honly Hno). specialize (H2 g Hg).
        rewrite dart_decodes_value; [done|..]; inversion H2 as [? ? Hog Htg|? Hog (? & ? & ?)]; subst; try done. congruence.
    - by apply sent_scalar_dart. }
  rewrite sent_field_eq in Hs. rewrite dart_decodes_value.
  - destruct raw as [v|]; [|cbn; congruence]. rewrite Ea, En.
    destruct v; try (cbn; done); cbn [optional_or]; destruct (Array c); try done; try (by apply Hv). cbn [list_of].
    rewrite forallb_forall in Hs |- *. auto.
  - intros Hne. inversion Hb; subst; [done|congruence].
  - inversion Hb as [? ? ? Ht|? ? (? & ? & ?)]; subst; [congruence|done].
Qed.
Lemma dart_accepts_sent path bs cs v : no_break (compareFields responseFields path bs cs) -> shaped_fields bs -> shaped_fields cs ->
  sent reads_int reads_finite reads_date is_file cs v = true -> dart_accepts reads_int reads_finite reads_date is_file bs v = true.
Proof.
  intros Hq [_ Hsb] [Hnd Hsc]. unfold sent, dart_accepts. destruct (as_object v) as [m|]; [|done].
  intros [Honly Hall]%andb_true_iff. rewrite forallb_forall in Hall |- *. intros g Hg%list_elem_of_In.
  destruct (baseline_paired _ _ _ _ Hq g Hg) as [(g' & Hg' & Hgg)|(_ & Hn & Hno)].
  - pose proof Hgg as [E _]. eapply dart_decodes_sent; [by apply Hsb|by apply Hsc|done|]. rewrite <- E. by apply Hall, list_elem_of_In.
  - rewrite (only_fields_absent _ _ _ Honly Hno). specialize (Hsb g Hg).
    pose proof dart_decodes_value as Hd. unfold dart_decodes in Hd.
    rewrite Hd; [done|..]; inversion Hsb as [? ? Hog Htg|? Hog (? & ? & ?)]; subst; try done. congruence.
Qed.
End Client.

(** ** A compatible schema keeps its peers: the theorems about [CompareSchemas] *)

Lemma breaking_count changes :
  length (filter (fun change => Breaking change = true) changes) = 0%nat -> no_break changes.
Proof.
  intros H%nil_length_inv. apply Forall_forall. intros c Hc. destruct (Breaking c) eqn:E; [|done].
  assert (c ∈ filter (fun change => Breaking change = true) changes) as Hin by by apply list_elem_of_filter.
  rewrite H in Hin. by apply not_elem_of_nil in Hin.
Qed.
Lemma validate_as_ok {A} what (r : result A) a : validate_as what r = Ok a -> r = Ok a.
Proof. by destruct r. Qed.
Lemma CompareSchemas_ok range_ baseline current report : CompareSchemas range_ baseline current = Ok report ->
  exists b c, resolveReferences baseline = Ok b /\ resolveReferences current = Ok c /\ shaped_schema b /\ shaped_schema c /\
    report = make_report b c (schema_changes b c).
Proof.
  unfold CompareSchemas, or_else. intros ([] & H1%validate_as_ok & ([] & H2%validate_as_ok & (b & Hb & (c & Hc & [= <-])%bind_ok)%bind_ok)%bind_ok)%bind_ok.
  exists b, c. split; [done|]. split; [done|]. split; [exact (validated_schema_shaped _ _ _ H1 Hb)|]. split; [exact (validated_schema_shaped _ _ _ H2 Hc)|done].
Qed.
Lemma compatible_no_break b c changes : Status (make_report b c changes) = SchemaCompatible -> no_break changes.
Proof.
  cbn. destruct (negb _); [done|]. destruct (0 <? _) eqn:E; [done|]. intros _. apply breaking_count. apply Z.ltb_ge in E. lia.
Qed.
Lemma compareMethod_quiet path b c : no_break (compareMethod path b c) ->
  Stream b = Stream c /\
  match Params b, Params c with
  | Some p, Some p' => exists path, no_break (compareFields requestFields path (object_Fields p) (object_Fields p'))
  | None, None => True
  | _, _ => False
  end /\
  (exists path, no_break (compareFields responseFields path (object_Fields (Result b)) (object_Fields (Result c)))) /\
  (exists path, no_break (compareFields responseFields path (Meta b) (Meta c))).
Proof.
  unfold compareMethod, compareObject. intros [H1%no_break_if%Bool.eqb_prop [H2 [H3 H4]%no_break_app]%no_break_app]%no_break_app.
  split; [done|]. split; [|eauto]. destruct (Params b), (Params c); eauto; by apply no_break_one in H2.
Qed.

(** What the peers of two versions of a method may rely on: for every way the
    languages read values, the new server takes the same requests, and the old
    Dart client decodes what the new server sends. *)
Definition keeps_peers (b c : Method) : Prop :=
  Stream c = Stream b /\
  match Params b, Params c with
  | Some p, Some p' => forall decodes decoded checked names matches v,
      server_accepts decodes decoded checked names matches (object_Fields p') v =
      server_accepts decodes decoded checked names matches (object_Fields p) v
  | None, None => True
  | _, _ => False
  end /\
  forall reads_int reads_finite reads_date is_file v,
    (sent reads_int reads_finite reads_date is_file (object_Fields (Result c)) v = true ->
     dart_accepts reads_int reads_finite reads_date is_file (object_Fields (Result b)) v = true) /\
    (sent reads_int reads_finite reads_date is_file (Meta c) v = true ->
     dart_accepts reads_int reads_finite reads_date is_file (Meta b) v = true).

Lemma compared_methods_keep_peers path b c :
  shaped_method b -> shaped_method c -> no_break (compareMethod path b c) -> keeps_peers b c.
Proof.
  intros (Hbp & Hbr & Hbm) (Hcp & Hcr & Hcm) (H1 & H2 & [pr H3] & [pm H4])%compareMethod_quiet. split; [done|]. split.
  - destruct (Params b) as [p|], (Params c) as [p'|]; try done. destruct H2 as [pp H2]. intros. symmetry.
    eapply server_accepts_same; [exact H2|by apply Hbp|by apply Hcp].
  - intros. split; by eapply dart_accepts_sent.
Qed.

(** C27. A report that calls the current schema compatible keeps its word: both
    schemas are valid, every method of the baseline is still there, the server
    of the current schema accepts exactly the requests that the one of the
    baseline accepts, and the Dart client generated from the baseline decodes
    every response and every metadata the current server sends. *)
Theorem compatible_schema_keeps_peers range_ baseline current report :
  CompareSchemas range_ baseline current = Ok report -> Status report = SchemaCompatible ->
  exists b c, resolveReferences baseline = Ok b /\ resolveReferences current = Ok c /\
    ProtocolVersion baseline <= ProtocolVersion current /\
    forall bm, bm ∈ Methods b -> exists cm, cm ∈ Methods c /\ method_Name cm = method_Name bm /\ keeps_peers bm cm.
Proof.
  intros (b & c & Eb & Ec & Hb & Hc & ->)%CompareSchemas_ok Hs. exists b, c. split; [done|]. split; [done|].
  pose proof (compatible_no_break _ _ _ Hs) as Hq. split.
  - assert (ProtocolVersion b = ProtocolVersion baseline /\ ProtocolVersion c = ProtocolVersion current) as [<- <-].
    { unfold resolveReferences in Eb, Ec. apply bind_ok in Eb as (? & _ & (? & _ & [= <-])%bind_ok).
      apply bind_ok in Ec as (? & _ & (? & _ & [= <-])%bind_ok). done. }
    cbn in Hs. destruct (ProtocolVersion b <=? ProtocolVersion c) eqn:E; [by apply Z.leb_le|done].
  - intros bm Hbm. apply no_break_app in Hq as [Hq _]. rewrite no_break_bind in Hq. specialize (Hq bm Hbm).
    unfold baseline_method in Hq. pose proof (by_name_spec method_Name (Methods c) (method_Name bm)) as Hn.
    unfold methodsByName in Hq. destruct (_ !! method_Name bm) as [cm|]; [|by apply no_break_one in Hq].
    destruct Hn as [Hcm En]. exists cm. split; [done|]. split; [done|].
    eapply compared_methods_keep_peers; [by apply Hb|by apply Hc|done].
Qed.

(** ** A response enum that grows *)
Module Tickets.
Definition ticket (states : list string) (extra : list Field) : Schema :=
  MkSchema 1 1 [] [MkMethod "tickets.show" "showTicket" false
    (Some (MkObject "ShowTicketRequest" "ShowTicketRequest" [MkField "id" "integer" "" false false [] None "" 0 0 (Some 1) None false]))
    (MkObject "Ticket" "Ticket" (MkField "state" "string" "" false false states None "" 0 0 None None false :: extra)) []].
Definition baseline := ticket ["open"] [].
Definition grown := ticket ["open"; "closed"] [].
Definition noted := ticket ["open"] [MkField "note" "string" "" false true [] None "" 0 0 None None false].
Definition renamed := MkSchema 1 1 [] [MkMethod "tickets.find" "showTicket" false None (MkObject "Ticket" "Ticket"
  [MkField "state" "string" "" false false [] None "" 0 0 None None false]) []].
Definition closed : json := JObject [("state", JString "closed")].
Definition compare (b c : Schema) : option (SchemaCompatibilityStatus * list string) :=
  match CompareSchemas Areas.keys b c with Ok r => Some (Status r, Code <$> Changes r) | _ => None end.
Definition all (_ : string) : bool := true.

Example a_note_is_compatible : compare baseline noted = Some (SchemaCompatible, ["nullable_response_field_added"]).
Proof. vm_compute. reflexivity. Qed.
Example a_renamed_method_is_not : compare baseline renamed = Some (SchemaIncompatible, ["method_removed"; "method_added"]).
Proof. vm_compute. reflexivity. Qed.
End Tickets.

(** A response enum may grow without a change being reported: the schema is
    called compatible, and the Web client generated from the baseline rejects a
    response that a server of the current schema sends. *)
Theorem web_client_rejects_compatible_response :
  match CompareSchemas Areas.keys Tickets.baseline Tickets.grown with
  | Ok report => Status report = SchemaCompatible /\ Changes report = []
  | _ => False
  end /\
  match Methods Tickets.baseline, Methods Tickets.grown with
  | [b], [c] => method_Name b = method_Name c /\
      sent Tickets.all Tickets.all Tickets.all is_object (object_Fields (Result c)) Tickets.closed = true /\
      web_accepts Tickets.all Tickets.all Tickets.all (object_Fields (Result b)) Tickets.closed = false
  | _, _ => False
  end.
Proof. split; vm_compute; auto. Qed.

Lemma compatible_schema_keeps_peers_witness :
  exists b c, resolveReferences Tickets.baseline = Ok b /\ resolveReferences Tickets.noted = Ok c /\
    ProtocolVersion Tickets.baseline <= ProtocolVersion Tickets.noted /\
    forall bm, bm ∈ Methods b -> exists cm, cm ∈ Methods c /\ method_Name cm = method_Name bm /\ keeps_peers bm cm.
Proof.
  destruct (CompareSchemas Areas.keys Tickets.baseline Tickets.noted) as [report|e|m] eqn:E; [|vm_compute in E; discriminate E..].
  apply (compatible_schema_keeps_peers Areas.keys Tickets.baseline Tickets.noted report E).
  assert (match CompareSchemas Areas.keys Tickets.baseline Tickets.noted with Ok r => Status r | _ => SchemaIncompatible end = SchemaCompatible)
    as Hs by (vm_compute; reflexivity). rewrite E in Hs. exact Hs.
Defined.
