(* ===== verification/Config.v ===== *)
(** * Configuration: [backend/framework/config.go], [config_loader.go]

    A configuration maps names and types to values, with the source each came
    from.  An [any] is a value of [V]; what the code knows of a type [T] is a
    class: the type's text, the conversion to [any] and the type assertion.
    Types are told apart by their text. *)
From S2P Require Import Prelude GoStrings.
Open Scope Z_scope.
Open Scope go_scope.

Definition ErrConfigFrozen := ErrNew "framework: config is frozen".
Definition ErrConfigUnavailable := ErrNew "framework: config is unavailable".
Definition ErrInvalidConfigKey := ErrNew "framework: config key is invalid".
Definition ErrInvalidConfigSetting := ErrNew "framework: config setting is invalid".
Definition ErrConfigSettingAlreadyExists := ErrNew "framework: config setting is already defined".
Definition ErrInvalidConfigSource := ErrNew "framework: config source is invalid".

Class Dynamic (V T : Type) := {
  type_text : string;
  inject : T -> V;
  cast : V -> option T;
  cast_inject (x : T) : cast (inject x) = Some x
}.

(** ** Keys *)

Definition configID : Type := string * string.
(** A key; the zero key, which no constructor gives, has no type. *)
Record ConfigKey (T : Type) := MkConfigKey {
  key_name : string;
  key_valueType : option string;
  key_default : T;
  key_secret : bool
}.
Arguments MkConfigKey {T}.
Arguments key_name {T}.
Arguments key_valueType {T}.
Arguments key_default {T}.
Arguments key_secret {T}.
Definition key_id {T} (key : ConfigKey T) : option configID :=
  if String.eqb (key_name key) "" then None else (fun t => (key_name key, t)) <$> key_valueType key.

Section Config.
Context {V : Type}.

Definition newConfigKey {T} `{!Dynamic V T} (name : string) (defaultValue : T) (secret : bool) : result (ConfigKey T) :=
  let name := TrimSpace name in
  if String.eqb name "" then Panicked "framework: config key name cannot be empty"
  else Ok (MkConfigKey name (Some (type_text (V := V) (T := T))) defaultValue secret).
Definition NewConfigKey {T} `{!Dynamic V T} (name : string) (defaultValue : T) : result (ConfigKey T) := newConfigKey name defaultValue false.
Definition NewSecretConfigKey {T} `{!Dynamic V T} (name : string) (defaultValue : T) : result (ConfigKey T) := newConfigKey name defaultValue true.

(** ** The configuration *)

Record storedConfigValue := MkStored { stored_value : V; stored_source : string; stored_secret : bool }.
Record Config := MkConfig { values : gmap configID storedConfigValue; frozen : bool }.
Definition NewConfig : Config := MkConfig ∅ false.

Definition config_set (id : configID) (value : V) (source : string) (secret : bool) (config : Config) : Config * result unit :=
  if frozen config then (config, Err ErrConfigFrozen)
  else (MkConfig (<[id := MkStored value source secret]> (values config)) (frozen config), Ok tt).
Definition SetConfig {T} `{!Dynamic V T} (key : ConfigKey T) (value : T) (config : option Config) : option Config * result unit :=
  with_receiver ErrConfigUnavailable config (fun config =>
    match key_id key with
    | None => (config, Err ErrInvalidConfigKey)
    | Some id => config_set id (inject value) "runtime" (key_secret key) config
    end).
Definition ConfigValue {T} `{!Dynamic V T} (config : option Config) (key : ConfigKey T) : T :=
  match config, key_id key with
  | Some config, Some id =>
      match values config !! id with
      | None => key_default key
      | Some entry => default (key_default key) (cast (stored_value entry))
      end
  | _, _ => key_default key
  end.
Definition HasConfig {T} (config : option Config) (key : ConfigKey T) : bool :=
  match config, key_id key with
  | Some config, Some id => bool_decide (is_Some (values config !! id))
  | _, _ => false
  end.
Definition Freeze (config : option Config) : option Config := (fun c => MkConfig (values c) true) <$> config.
Definition Frozen (config : option Config) : bool := match config with None => false | Some c => frozen c end.

(** [RedactedConfigValue], a string, as an [any]. *)
Variable redacted : V.
Record ConfigEntry := MkConfigEntry {
  entry_Name : string;
  entry_Type : string;
  entry_Value : V;
  entry_Source : string;
  entry_Secret : bool
}.
Definition entry_of (stored : configID * storedConfigValue) : ConfigEntry :=
  let '((name, type_), s) := stored in
  MkConfigEntry name type_ (if stored_secret s then redacted else stored_value s) (stored_source s) (stored_secret s).
(** The order of [sort.Slice]: by name, then by type. *)
Definition entry_before (a b : ConfigEntry) : Prop :=
  if String.eqb (entry_Name a) (entry_Name b) then String.le (entry_Type a) (entry_Type b) else String.le (entry_Name a) (entry_Name b).
#[export] Instance entry_before_dec : RelDecision entry_before.
Proof. intros a b. unfold entry_before. destruct (String.eqb _ _); apply _. Defined.
Definition Entries (config : option Config) : list ConfigEntry :=
  match config with None => [] | Some c => merge_sort entry_before (entry_of <$> map_to_list (values c)) end.

(** ** Sources *)

Record ConfigSource := MkConfigSource { source_Name : string; Lookup : string -> option V }.
Definition NewMapConfigSource (name : string) (vs : gmap string V) : result ConfigSource :=
  let name := TrimSpace name in
  if String.eqb name "" then Panicked (error_text ErrInvalidConfigSource) else Ok (MkConfigSource name (fun key => vs !! key)).
(** [strings.ToUpper] after the dots and dashes have become underscores. *)
Fixpoint underscores (s : string) : string :=
  match s with
  | EmptyString => EmptyString
  | String c r => String (if Ascii.eqb c "." || Ascii.eqb c "-" then "_"%char else c) (underscores r)
  end.
Definition environment_name (prefix key : string) : string := prefix +:+ to_upper (underscores key).
Definition NewEnvironmentConfigSourceWithLookup `{!Dynamic V string} (name prefix : string) (lookup : option (string -> option string))
    : result ConfigSource :=
  let name := TrimSpace name in
  match lookup with
  | None => Panicked (error_text ErrInvalidConfigSource)
  | Some lookup =>
      if String.eqb name "" then Panicked (error_text ErrInvalidConfigSource)
      else Ok (MkConfigSource name (fun key => inject <$> lookup (environment_name prefix key)))
  end.

(** ** Settings *)

Record ConfigViolation := MkConfigViolation { violation_Key : string; violation_Source : string; violation_Message : string }.
(** The error of a validator; [safe] when it holds a [safeConfigError], whose
    text was written for the reader. *)
Record config_error := MkConfigError { ce_text : string; ce_safe : bool }.
Definition ConfigDecoder (T : Type) : Type := string -> T + string.
Definition ConfigValidator (T : Type) : Type := T -> option config_error.
Record configSetting (T : Type) := MkConfigSetting {
  cs_key : ConfigKey T;
  cs_decoder : option (ConfigDecoder T);
  cs_validators : list (ConfigValidator T)
}.
Arguments MkConfigSetting {T}.
Arguments cs_key {T}.
Arguments cs_decoder {T}.
Arguments cs_validators {T}.
Record resolvedConfigValue := MkResolved { res_id : configID; res_value : V; res_source : string; res_secret : bool }.

(** The interface [ConfigSetting]; a value without a violation, or violations. *)
Record ConfigSetting := MkSetting {
  setting_id : configID;
  setting_name : string;
  resolve : list ConfigSource -> option resolvedConfigValue * list ConfigViolation
}.

Section Setting.
Context {T : Type} `{!Dynamic V T} `{!Dynamic V string}.

Definition decode (setting : configSetting T) (candidate : V) : T + string :=
  match cast candidate with
  | Some typed => inl typed
  | None =>
      match cast (T := string) candidate, cs_decoder setting with
      | Some raw, Some decoder => decoder raw
      | _, _ => inr ("must be " +:+ default "" (key_valueType (cs_key setting)))
      end
  end.
(** The loop over the sources: the last one that has the name. *)
Fixpoint find_candidate (name : string) (candidate : V) (sourceName : string) (sources : list ConfigSource) : V * string :=
  match sources with
  | [] => (candidate, sourceName)
  | source :: sources =>
      match Lookup source name with
      | Some value => find_candidate name value (source_Name source) sources
      | None => find_candidate name candidate sourceName sources
      end
  end.
Definition validator_message (secret : bool) (err : config_error) : string :=
  if secret && negb (ce_safe err) then "value is invalid" else ce_text err.
Definition resolve_setting (setting : configSetting T) (sources : list ConfigSource)
    : option resolvedConfigValue * list ConfigViolation :=
  let key := cs_key setting in
  let '(candidate, sourceName) := find_candidate (key_name key) (inject (key_default key)) "default" sources in
  match decode setting candidate with
  | inr message =>
      (None, [MkConfigViolation (key_name key) sourceName (if key_secret key then "value is invalid" else message)])
  | inl value =>
      (Some (MkResolved (default ("", "") (key_id key)) (inject value) sourceName (key_secret key)),
       (fun err => MkConfigViolation (key_name key) sourceName (validator_message (key_secret key) err)) <$>
         omap (fun validator => validator value) (cs_validators setting))
  end.
Definition as_setting (setting : configSetting T) : ConfigSetting :=
  MkSetting (default ("", "") (key_id (cs_key setting))) (key_name (cs_key setting)) (resolve_setting setting).
(** [ParsedConfig] and [TypedConfig]; a nil validator panics. *)
Definition TypedConfig (key : ConfigKey T) (validators : list (option (ConfigValidator T))) : result ConfigSetting :=
  match key_id key, mapM id validators with
  | Some _, Some validators => Ok (as_setting (MkConfigSetting key None validators))
  | _, _ => Panicked (error_text ErrInvalidConfigSetting)
  end.
Definition ParsedConfig (key : ConfigKey T) (decoder : option (ConfigDecoder T)) (validators : list (option (ConfigValidator T)))
    : result ConfigSetting :=
  match key_id key, decoder, mapM id validators with
  | Some _, Some decoder, Some validators => Ok (as_setting (MkConfigSetting key (Some decoder) validators))
  | _, _, _ => Panicked (error_text ErrInvalidConfigSetting)
  end.
End Setting.

(** *** Decoders *)
Definition StringConfig `{!Dynamic V string} (key : ConfigKey string) (validators : list (option (ConfigValidator string))) : result ConfigSetting :=
  ParsedConfig key (Some inl) validators.
Definition decode_int (value : string) : Z + string :=
  match Atoi value with Some parsed => inl parsed | None => inr "must be an integer" end.
Definition IntConfig `{!Dynamic V Z} `{!Dynamic V string} (key : ConfigKey Z) (validators : list (option (ConfigValidator Z))) : result ConfigSetting :=
  ParsedConfig key (Some decode_int) validators.
(** [strconv.ParseBool]. *)
Definition ParseBool (value : string) : option bool :=
  if bool_decide (value ∈ ["1"; "t"; "T"; "TRUE"; "true"; "True"]) then Some true
  else if bool_decide (value ∈ ["0"; "f"; "F"; "FALSE"; "false"; "False"]) then Some false else None.
Definition decode_bool (value : string) : bool + string :=
  match ParseBool value with Some parsed => inl parsed | None => inr "must be a boolean" end.
Definition BoolConfig `{!Dynamic V bool} `{!Dynamic V string} (key : ConfigKey bool) (validators : list (option (ConfigValidator bool))) : result ConfigSetting :=
  ParsedConfig key (Some decode_bool) validators.
Definition RequiredString (message : string) : ConfigValidator string := fun value =>
  if String.eqb (TrimSpace value) "" then Some (MkConfigError message true) else None.

(** ** The loader *)

Record ConfigLoader := MkConfigLoader {
  settings : list ConfigSetting;
  ids : gset configID;
  names : gmap string configID
}.
Definition already_exists (setting : ConfigSetting) : goerror := errorf1 ErrConfigSettingAlreadyExists (setting_name setting).
Definition other_id (known : option configID) (id : configID) : bool :=
  match known with Some previous => negb (bool_decide (previous = id)) | None => false end.
(** The loop that checks the settings against the loader and against each other. *)
Fixpoint check_settings (loader : ConfigLoader) (pendingIDs : gset configID) (pendingNames : gmap string configID) (l : list ConfigSetting)
    : result unit :=
  match l with
  | [] => Ok tt
  | setting :: l =>
      let id := setting_id setting in
      if bool_decide (id ∈ ids loader) || bool_decide (id ∈ pendingIDs) ||
         other_id (names loader !! setting_name setting) id || other_id (pendingNames !! setting_name setting) id
      then Err (already_exists setting)
      else check_settings loader ({[id]} ∪ pendingIDs) (<[setting_name setting := id]> pendingNames) l
  end.
Definition add_setting (loader : ConfigLoader) (setting : ConfigSetting) : ConfigLoader :=
  MkConfigLoader (settings loader ++ [setting]) ({[setting_id setting]} ∪ ids loader)
    (<[setting_name setting := setting_id setting]> (names loader)).
Definition Register_settings (l : list (option ConfigSetting)) (loader : option ConfigLoader) : option ConfigLoader * result unit :=
  with_receiver ErrInvalidConfigSetting loader (fun loader =>
    match mapM id l with
    | None => (loader, Err ErrInvalidConfigSetting)
    | Some l =>
        match check_settings loader ∅ ∅ l with
        | Ok _ => (fold_left add_setting l loader, Ok tt)
        | r => (loader, r)
        end
    end).
Definition empty_loader : ConfigLoader := MkConfigLoader [] ∅ ∅.
Definition NewConfigLoader (l : list (option ConfigSetting)) : result ConfigLoader :=
  match Register_settings l (Some empty_loader) with
  | (Some loader, Ok _) => Ok loader
  | (_, Err err) => Panicked (error_text err)
  | (_, Panicked m) => Panicked m
  | (None, Ok _) => Panicked ""
  end.

(** [Load] fails with the violations of every setting. *)
Inductive load_error :=
| LoadErr (err : goerror)
| ConfigLoadErrors (violations : list ConfigViolation).
Definition sources_ok (sources : list (option ConfigSource)) : option (list ConfigSource) :=
  match mapM id sources with
  | Some sources => if existsb (fun s => String.eqb (TrimSpace (source_Name s)) "") sources then None else Some sources
  | None => None
  end.
Fixpoint set_all (resolved : list (option resolvedConfigValue)) (config : Config) : Config + load_error :=
  match resolved with
  | [] => inl config
  | None :: resolved => set_all resolved config
  | Some value :: resolved =>
      match config_set (res_id value) (res_value value) (res_source value) (res_secret value) config with
      | (config, Ok _) => set_all resolved config
      | (_, Err err) => inr (LoadErr err)
      | (_, Panicked m) => inr (LoadErr (ErrNew m))
      end
  end.
Definition Load (sources : list (option ConfigSource)) (loader : option ConfigLoader) : Config + load_error :=
  match loader with
  | None => inr (LoadErr ErrInvalidConfigSetting)
  | Some loader =>
      match sources_ok sources with
      | None => inr (LoadErr ErrInvalidConfigSource)
      | Some sources =>
          let outcomes := (fun setting => resolve setting sources) <$> settings loader in
          match outcomes ≫= snd with
          | [] => set_all (fst <$> outcomes) NewConfig
          | violations => inr (ConfigLoadErrors violations)
          end
      end
  end.
End Config.
Arguments Config : clear implicits.
Arguments ConfigSource : clear implicits.
Arguments ConfigSetting : clear implicits.
Arguments ConfigLoader : clear implicits.
Arguments ConfigEntry : clear implicits.
Arguments storedConfigValue : clear implicits.
Arguments resolvedConfigValue : clear implicits.
Arguments MkConfigSetting {T}.
Arguments cs_key {T}.
Arguments cs_decoder {T}.
Arguments cs_validators {T}.

(** ** Configuration: what a loaded configuration holds, and what it hides *)

Section Facts.
Context {V : Type} `{!Dynamic V string}.

(** ** The loader's settings have distinct identities *)

Definition loader_ok (loader : ConfigLoader V) : Prop :=
  NoDup (setting_id <$> settings loader) /\ ids loader = list_to_set (setting_id <$> settings loader).
Lemma add_settings_fields (l : list (ConfigSetting V)) : forall loader,
  settings (fold_left add_setting l loader) = settings loader ++ l /\
  ids (fold_left add_setting l loader) = list_to_set (setting_id <$> l) ∪ ids loader.
Proof.
  induction l as [|s l IH]; intros loader; cbn [fold_left]; [rewrite app_nil_r; split; [done|set_solver]|].
  destruct (IH (add_setting loader s)) as [-> ->]. cbn [settings ids add_setting]. rewrite <- app_assoc. split; [done|].
  rewrite fmap_cons. cbn [list_to_set]. set_solver.
Qed.
Lemma check_settings_ok loader (l : list (ConfigSetting V)) : forall pending pendingNames, check_settings loader pending pendingNames l = Ok tt ->
  NoDup (setting_id <$> l) /\ forall s, s ∈ l -> (setting_id s ∉ ids loader) /\ (setting_id s ∉ pending).
Proof.
  induction l as [|s l IH]; intros pending pendingNames; cbn [check_settings].
  { intros _. split; [constructor|]. intros s Hs. by apply not_elem_of_nil in Hs. }
  destruct (_ || _ || _ || _) eqn:E; [done|]. apply orb_false_iff in E as [[[E1 E2]%orb_false_iff _]%orb_false_iff _].
  apply bool_decide_eq_false in E1, E2. intros H. destruct (IH _ _ H) as [Hnd Hall]. split.
  - rewrite fmap_cons. constructor; [|done]. intros (t & Et & Ht)%list_elem_of_fmap. destruct (Hall t Ht) as [_ Hn].
    rewrite <- Et in Hn. apply Hn. set_solver.
  - intros t [->|Ht]%elem_of_cons; [done|]. destruct (Hall t Ht) as [H1 H2]. split; [done|]. set_solver.
Qed.
Lemma Register_settings_ok (l : list (option (ConfigSetting V))) loader loader' r : loader_ok loader -> Register_settings l (Some loader) = (Some loader', r) -> loader_ok loader'.
Proof.
  intros [Hnd Hids]. unfold Register_settings, with_receiver. destruct (mapM id l) as [l'|]; [|by intros [= <- _]].
  destruct (check_settings loader ∅ ∅ l') as [[]|e|m] eqn:E; [|by intros [= <- _]..]. intros [= <- _].
  apply check_settings_ok in E as [Hnd' Hall]. destruct (add_settings_fields l' loader) as [Es Ei]. split; rewrite Es, fmap_app.
  - apply NoDup_app. split; [done|]. split; [|done]. intros i Hi (t & -> & Ht)%list_elem_of_fmap. destruct (Hall t Ht) as [Hn _].
    rewrite Hids in Hn. set_solver.
  - rewrite Ei, Hids, list_to_set_app_L. set_solver.
Qed.
Lemma NewConfigLoader_ok (l : list (option (ConfigSetting V))) loader : NewConfigLoader l = Ok loader -> loader_ok loader.
Proof.
  unfold NewConfigLoader. destruct (Register_settings l (Some empty_loader)) as [[loader'|] [[]|e|m]] eqn:E; try done.
  intros [= <-]. eapply Register_settings_ok; [|exact E]. split; [constructor|done].
Qed.

Lemma NewConfigLoader_settings (l : list (ConfigSetting V)) loader : NewConfigLoader (Some <$> l) = Ok loader -> settings loader = l.
Proof.
  unfold NewConfigLoader, Register_settings, with_receiver. replace (mapM id (Some <$> l)) with (Some l).
  - destruct (check_settings empty_loader ∅ ∅ l) as [[]|e|m]; try done. intros [= <-]. by destruct (add_settings_fields l empty_loader) as [-> _].
  - symmetry. apply mapM_Some. induction l; constructor; auto.
Qed.

(** ** Loading *)

Lemma set_all_spec (resolved : list (option (resolvedConfigValue V))) : forall config config', frozen config = false -> NoDup (res_id <$> omap id resolved) ->
  set_all resolved config = inl config' ->
  frozen config' = false /\
  (forall r, Some r ∈ resolved -> values config' !! res_id r = Some (MkStored (res_value r) (res_source r) (res_secret r))) /\
  (forall i, (i ∉ res_id <$> omap id resolved) -> values config' !! i = values config !! i).
Proof.
  induction resolved as [|[r|] resolved IH]; intros config config' Hf Hnd H; cbn [set_all] in H.
  - injection H as <-. split; [done|]. split; [|done]. intros r Hr. by apply not_elem_of_nil in Hr.
  - unfold config_set in H. rewrite Hf in H. cbn [omap list_omap id] in Hnd. rewrite fmap_cons in Hnd. apply NoDup_cons in Hnd as [Hn Hnd].
    apply IH in H as (H1 & H2 & H3); [|done..]. split; [done|]. split.
    + intros r' [[= ->]|Hr]%elem_of_cons; [|by apply H2]. rewrite H3 by done. apply lookup_insert_eq.
    + intros i Hi. cbn [omap list_omap id] in Hi. rewrite fmap_cons in Hi. rewrite H3 by set_solver. cbn [values].
      apply lookup_insert_ne. set_solver.
  - apply IH in H as (H1 & H2 & H3); [|done..]. split; [done|]. split; [|done].
    intros r' [[=]|Hr]%elem_of_cons. by apply H2.
Qed.
Lemma Load_ok sources (loader : ConfigLoader V) config : Load sources (Some loader) = inl config ->
  exists given, sources_ok sources = Some given /\
    (forall s, s ∈ settings loader -> (resolve s given).2 = []) /\
    set_all ((fun s => (resolve s given).1) <$> settings loader) NewConfig = inl config.
Proof.
  unfold Load. destruct (sources_ok sources) as [given|]; [|done]. intros H. exists given. split; [done|].
  destruct (((fun s => resolve s given) <$> settings loader) ≫= snd) as [|v vs] eqn:E; [|done]. split.
  - intros s Hs. destruct ((resolve s given).2) as [|v vs] eqn:Ev; [done|].
    assert (v ∈ ((fun s => resolve s given) <$> settings loader) ≫= snd) as Hv.
    { apply list_elem_of_bind. exists (resolve s given). split; [rewrite Ev; set_solver|]. apply list_elem_of_fmap. by exists s. }
    rewrite E in Hv. by apply not_elem_of_nil in Hv.
  - by rewrite <- list_fmap_compose in H.
Qed.

(** The value a setting takes: of the last source that has it, or the default. *)
Definition last_candidate (name : string) (initial : V * string) (sources : list (ConfigSource V)) : V * string :=
  default initial (last (omap (fun s => (fun v => (v, source_Name s)) <$> Lookup s name) sources)).
Lemma find_candidate_last name sources : forall v n, find_candidate name v n sources = last_candidate name (v, n) sources.
Proof.
  unfold last_candidate. induction sources as [|s sources IH]; intros v n; cbn [find_candidate omap list_omap]; [done|].
  destruct (Lookup s name) as [v'|]; cbn [fmap option_fmap option_map]; [|apply IH]. rewrite IH, last_cons. by destruct (last _).
Qed.

(** A setting of the loader as its constructors make it. *)
Definition made_by {T} `{!Dynamic V T} (cs : configSetting T) (s : ConfigSetting V) : Prop :=
  s = as_setting cs /\ key_name (cs_key cs) <> "" /\ key_valueType (cs_key cs) = Some (type_text (V := V) (T := T)).
Definition well_made (s : ConfigSetting V) : Prop := exists T (dynamic : Dynamic V T) (cs : configSetting T), made_by cs s.

Lemma made_by_id {T} `{!Dynamic V T} (cs : configSetting T) s : made_by cs s -> key_id (cs_key cs) = Some (setting_id s).
Proof.
  intros (-> & Hn & Ht). unfold key_id. apply String.eqb_neq in Hn as E. cbn [setting_id as_setting]. unfold key_id. by rewrite E, Ht.
Qed.
Lemma made_by_resolve {T} `{!Dynamic V T} (cs : configSetting T) s given : made_by cs s -> (resolve s given).2 = [] ->
  let '(candidate, source) := last_candidate (key_name (cs_key cs)) (inject (key_default (cs_key cs)), "default") given in
  exists value, decode cs candidate = inl value /\ Forall (fun validator => validator value = None) (cs_validators cs) /\
    (resolve s given).1 = Some (MkResolved (setting_id s) (inject value) source (key_secret (cs_key cs))).
Proof.
  intros Hm. pose proof (made_by_id _ _ Hm) as Hid. destruct Hm as (-> & _). cbn [resolve as_setting setting_id] in *.
  unfold resolve_setting. rewrite find_candidate_last. destruct (last_candidate _ _ given) as [candidate source].
  destruct (decode cs candidate) as [value|message]; [|done]. intros H%fmap_nil_inv. exists value. split; [done|]. split; [|by rewrite Hid].
  induction (cs_validators cs) as [|validator l IH]; [constructor|]. cbn [omap list_omap] in H.
  destruct (validator value) eqn:E; [done|]. constructor; auto.
Qed.
Lemma resolved_ids given (l : list (ConfigSetting V)) : (forall s, s ∈ l -> well_made s) -> (forall s, s ∈ l -> (resolve s given).2 = []) ->
  res_id <$> omap id ((fun s => (resolve s given).1) <$> l) = setting_id <$> l.
Proof.
  intros Hw Hv. induction l as [|s l IH]; [done|]. rewrite !fmap_cons. cbn [omap list_omap id].
  destruct (Hw s ltac:(set_solver)) as (T & d & cs & Hm). pose proof (made_by_resolve cs s given Hm (Hv s ltac:(set_solver))) as H.
  destruct (last_candidate _ _ given). destruct H as (value & _ & _ & ->). rewrite fmap_cons. cbn [res_id]. f_equal.
  apply IH; intros; [apply Hw|apply Hv]; set_solver.
Qed.

(** A configuration that loads holds for every setting the value of the last
    source that has its name, or the key's default, decoded and accepted by
    every validator, with the name of that source; it holds nothing else, and
    is not frozen. *)
Theorem load_takes_last_source l loader sources config :
  NewConfigLoader l = Ok loader -> (forall s, s ∈ settings loader -> well_made s) -> Load sources (Some loader) = inl config ->
  exists given, sources_ok sources = Some given /\ frozen config = false /\
    (forall i, is_Some (values config !! i) -> i ∈ (setting_id <$> settings loader)) /\
    forall T (dynamic : Dynamic V T) (cs : configSetting T) s, s ∈ settings loader -> made_by cs s ->
      let '(candidate, source) := last_candidate (key_name (cs_key cs)) (inject (key_default (cs_key cs)), "default") given in
      decode cs candidate = inl (ConfigValue (Some config) (cs_key cs)) /\
      Forall (fun validator => validator (ConfigValue (Some config) (cs_key cs)) = None) (cs_validators cs) /\
      stored_source <$> values config !! setting_id s = Some source.
Proof.
  intros [Hnd _]%NewConfigLoader_ok Hw (given & Hg & Hv & Hset)%Load_ok. exists given. split; [done|].
  pose proof (resolved_ids given _ Hw Hv) as Hids. apply set_all_spec in Hset as (H1 & H2 & H3); [|done|by rewrite Hids].
  split; [done|]. split.
  - intros i [v Hi]. destruct (decide (i ∈ (setting_id <$> settings loader))) as [Hin|Hout]; [done|]. rewrite H3 in Hi by (by rewrite Hids).
    cbn [values NewConfig] in Hi. by rewrite lookup_empty in Hi.
  - intros T d cs s Hs Hm. pose proof (made_by_resolve cs s given Hm (Hv s Hs)) as H.
    destruct (last_candidate _ _ given) as [candidate source]. destruct H as (value & Hd & Hall & Hr).
    assert (values config !! setting_id s = Some (MkStored (inject value) source (key_secret (cs_key cs)))) as Hl.
    { specialize (H2 (MkResolved (setting_id s) (inject value) source (key_secret (cs_key cs)))). apply H2. rewrite <- Hr.
      apply list_elem_of_fmap. by exists s. }
    assert (ConfigValue (Some config) (cs_key cs) = value) as ->.
    { unfold ConfigValue. rewrite (made_by_id cs s Hm), Hl. cbn [stored_value]. by rewrite cast_inject. }
    split; [done|]. split; [done|]. by rewrite Hl.
Qed.

(** ** Secrets *)

(** What anyone may see of a stored value. *)
Definition public (s : storedConfigValue V) : option V * string * bool :=
  (if stored_secret s then None else Some (stored_value s), stored_source s, stored_secret s).
(** The texts a validator gives for safe errors do not depend on the value. *)
Definition safe_texts {T} (validator : ConfigValidator T) (texts : list string) : Prop :=
  forall value err, validator value = Some err -> ce_safe err = true -> ce_text err ∈ texts.
Lemma RequiredString_safe message : safe_texts (RequiredString message) [message].
Proof. intros value err. unfold RequiredString. destruct (String.eqb _ _); [|done]. intros [= <-] _. set_solver. Qed.

(** A secret does not get out through the entries of a configuration, which
    are the same for any two values of it, nor through the violations of a
    failed load, whose messages are fixed texts. *)
Theorem configuration_hides_secrets :
  (forall redacted config config',
    (forall i, public <$> values config !! i = public <$> values config' !! i) ->
    Entries redacted (Some config) = Entries redacted (Some config')) /\
  (forall T (dynamic : Dynamic V T) (cs : configSetting T) texts sources,
    key_secret (cs_key cs) = true -> (forall validator, validator ∈ cs_validators cs -> safe_texts validator texts) ->
    forall v, v ∈ (resolve_setting cs sources).2 -> violation_Message v = "value is invalid" \/ violation_Message v ∈ texts).
Proof.
  split.
  - intros redacted config config' H. unfold Entries. f_equal.
    set (redact := fun s : storedConfigValue V => MkStored (if stored_secret s then redacted else stored_value s) (stored_source s) (stored_secret s)).
    assert (redact <$> values config = redact <$> values config') as Er.
    { apply map_eq. intros i. rewrite !lookup_fmap. specialize (H i). destruct (values config !! i) as [s|], (values config' !! i) as [s'|]; try done.
      cbn in *. injection H as H1 H2 H3. f_equal. unfold redact. rewrite H2, H3 in *. destruct (stored_secret s'); congruence. }
    assert (forall m : gmap configID (storedConfigValue V), entry_of redacted <$> map_to_list m = entry_of redacted <$> map_to_list (redact <$> m)) as Hm.
    { intros m. rewrite map_to_list_fmap, <- list_fmap_compose. apply list_fmap_ext. intros ? [[n t] s] _. cbn. unfold redact. cbn.
      by destruct (stored_secret s). }
    by rewrite Hm, Er, <- Hm.
  - intros T d cs texts sources Hs Hsafe v. unfold resolve_setting. destruct (find_candidate _ _ _ sources) as [candidate source].
    destruct (decode cs candidate) as [value|message]; cbn [snd].
    + intros (err & -> & Herr)%list_elem_of_fmap. cbn [violation_Message]. unfold validator_message. rewrite Hs. cbn [andb].
      apply list_elem_of_omap in Herr as (validator & Hin & Hv). destruct (ce_safe err) eqn:Es; [|by left]. right. by eapply Hsafe.
    + rewrite Hs. intros ->%list_elem_of_singleton. by left.
Qed.
End Facts.

(** ** A name from the defaults, the file and the environment, and a secret *)
Module Deployment.
Inductive value := VInt (z : Z) | VString (s : string).
#[global] Instance int_dynamic : Dynamic value Z :=
  {| type_text := "int"; inject := VInt; cast v := match v with VInt z => Some z | _ => None end;
     cast_inject x := eq_refl |}.
#[global] Instance string_dynamic : Dynamic value string :=
  {| type_text := "string"; inject := VString; cast v := match v with VString s => Some s | _ => None end;
     cast_inject x := eq_refl |}.
Definition port : ConfigKey Z := MkConfigKey "http.port" (Some "int") 80 false.
Definition token : ConfigKey string := MkConfigKey "api.token" (Some "string") "" true.
Definition port_setting : configSetting Z := MkConfigSetting port (Some decode_int) [].
Definition token_setting : configSetting string := MkConfigSetting token (Some inl) [RequiredString "a token is required"].
Definition given : list (ConfigSource value) :=
  [MkConfigSource "file" (fun name => if String.eqb name "http.port" then Some (VInt 8080) else None);
   MkConfigSource "environment" (fun name =>
     inject <$> (if String.eqb (environment_name "APP_" name) "APP_HTTP_PORT" then Some "9090"
                 else if String.eqb (environment_name "APP_" name) "APP_API_TOKEN" then Some "s3cret" else None))].
Definition declared : list (ConfigSetting value) := [as_setting port_setting; as_setting token_setting].
Definition loaded : option (Config value) :=
  match NewConfigLoader (Some <$> declared) with
  | Ok loader => match Load (Some <$> given) (Some loader) with inl config => Some config | inr _ => None end
  | _ => None
  end.
Example what_is_seen : (fun config => Entries (VString "[redacted]") (Some config)) <$> loaded =
  Some [MkConfigEntry "api.token" "string" (VString "[redacted]") "environment" true;
        MkConfigEntry "http.port" "int" (VInt 9090) "environment" false].
Proof. vm_compute. reflexivity. Qed.
End Deployment.

Lemma load_takes_last_source_witness : exists config, ConfigValue (Some config) Deployment.port = 9090 /\ frozen config = false.
Proof.
  assert (bool_decide (is_Some Deployment.loaded) = true) as Hl by (vm_compute; reflexivity). unfold Deployment.loaded in Hl.
  destruct (NewConfigLoader (Some <$> Deployment.declared)) as [loader|e|m] eqn:El; [|discriminate Hl..].
  destruct (Load (Some <$> Deployment.given) (Some loader)) as [config|e] eqn:Ec; [|discriminate Hl].
  pose proof (NewConfigLoader_settings _ loader El) as Es.
  assert (made_by Deployment.port_setting (as_setting Deployment.port_setting)) as Hport by (repeat split; discriminate).
  destruct (load_takes_last_source _ loader (Some <$> Deployment.given) config El) as (given & Hg & Hf & _ & Hall); [|exact Ec|].
  - rewrite Es. intros s [-> |[-> |[]%not_elem_of_nil]%elem_of_cons]%elem_of_cons.
    + exists Z, Deployment.int_dynamic, Deployment.port_setting. exact Hport.
    + exists string, Deployment.string_dynamic, Deployment.token_setting. repeat split; discriminate.
  - exists config. split; [|exact Hf]. assert (given = Deployment.given) as -> by (injection Hg as <-; reflexivity).
    specialize (Hall Z Deployment.int_dynamic Deployment.port_setting (as_setting Deployment.port_setting)).
    rewrite Es in Hall. specialize (Hall ltac:(apply elem_of_cons; left; reflexivity) Hport).
    assert (last_candidate (key_name (cs_key Deployment.port_setting)) (inject (key_default (cs_key Deployment.port_setting)), "default")
      Deployment.given = (Deployment.VString "9090", "environment")) as E by (vm_compute; reflexivity).
    rewrite E in Hall. destruct Hall as [Hd _].
    assert (decode Deployment.port_setting (Deployment.VString "9090") = inl 9090) as E' by (vm_compute; reflexivity).
    rewrite E' in Hd. injection Hd as Hd. symmetry. exact Hd.
Defined.
Lemma configuration_hides_secrets_witness :
  let violations := (resolve_setting Deployment.token_setting [MkConfigSource "file" (fun _ => Some (Deployment.VInt 7))]).2 in
  length violations = 1%nat /\
  Forall (fun v => violation_Message v = "value is invalid" \/ violation_Message v ∈ ["a token is required"]) violations.
Proof.
  split; [vm_compute; reflexivity|]. apply Forall_forall. intros v Hv. revert Hv.
  apply (configuration_hides_secrets (V := Deployment.value)); [reflexivity|].
  intros validator ->%list_elem_of_singleton. apply RequiredString_safe.
Defined.
