(* ===== verification/Application.v ===== *)
(** * Application lifecycle: [backend/framework/application.go], [provider_manifest.go]

    Registration, boot and shutdown of service providers.  Callers run
    concurrently: a step is a critical section or the beginning or the end of a
    call of a provider, whose outcome is a label.  What a provider's methods do
    besides, calls of the application included, is other callers' steps. *)
From S2P Require Import Prelude GoStrings GoTime.
Open Scope Z_scope.
Open Scope go_scope.

Definition ErrApplicationBooted := ErrNew "framework: application has already booted".
Definition ErrApplicationBusy := ErrNew "framework: application lifecycle is busy".
Definition ErrApplicationFailed := ErrNew "framework: application lifecycle failed".
Definition ErrApplicationShutdown := ErrNew "framework: application has shut down".
Definition ErrApplicationShutdownFailed := ErrNew "framework: application shutdown failed".
Definition ErrShutdownContextUnavailable := ErrNew "framework: shutdown context is unavailable".

(** A provider: its identity, the text of its type ([%T]), the name it gives
    itself, and whether it has the optional methods. *)
Record ServiceProvider := MkServiceProvider {
  prov_id : nat;
  prov_type : string;
  prov_name : option string;
  bootable : bool;
  terminable : bool
}.
Definition serviceProviderName (p : ServiceProvider) : string :=
  match TrimSpace <$> prov_name p with
  | Some name => if String.eqb name "" then prov_type p else name
  | None => prov_type p
  end.

Inductive applicationState :=
| applicationCollecting | applicationRegistering | applicationBooting | applicationBooted | applicationFailed.
Inductive applicationShutdownState :=
| applicationShutdownIdle | applicationShuttingDown | applicationShutdownComplete.
#[export] Instance applicationState_eq_dec : EqDecision applicationState.
Proof. solve_decision. Defined.
#[export] Instance applicationShutdownState_eq_dec : EqDecision applicationShutdownState.
Proof. solve_decision. Defined.

Record ShutdownFailure := MkShutdownFailure { fail_Provider : string; fail_Err : goerror }.
(** [ApplicationShutdownErrors], with the error it is. *)
Definition shutdown_errors (failures : list ShutdownFailure) : option goerror :=
  match failures with
  | [] => None
  | first :: _ =>
      Some (ErrWrap ("application shutdown failed for provider " +:+ Quote (fail_Provider first) +:+ ": " +:+ error_text (fail_Err first))
              (ErrApplicationShutdownFailed :: (fail_Err <$> failures)))
  end.

Record Application := MkApplication {
  providers : list ServiceProvider;
  shutdownProviders : list ServiceProvider;
  state : applicationState;
  failure : option goerror;
  shutdownState : applicationShutdownState;
  shutdownErr : option goerror;
  config_frozen : bool
}.
Definition NewApplication : Application := MkApplication [] [] applicationCollecting None applicationShutdownIdle None false.
Definition with_state (a : Application) (s : applicationState) : Application :=
  MkApplication (providers a) (shutdownProviders a) s (failure a) (shutdownState a) (shutdownErr a) (config_frozen a).

(** ** The critical sections *)

Definition option_result (err : option goerror) : result unit := match err with None => Ok tt | Some err => Err err end.
(** The start of [Register]: its result, or [None] when the loop follows. *)
Definition Register_begin (a : Application) : Application * option (result unit) :=
  if bool_decide (shutdownState a = applicationShutdownIdle) then
    match state a with
    | applicationBooted => (a, Some (Err ErrApplicationBooted))
    | applicationFailed => (a, Some (option_result (failure a)))
    | applicationCollecting => (with_state a applicationRegistering, None)
    | _ => (a, Some (Err ErrApplicationBusy))
    end
  else (a, Some (Err ErrApplicationShutdown)).
Definition trackShutdownProvider (p : ServiceProvider) (a : Application) : Application :=
  MkApplication (providers a) (shutdownProviders a ++ [p]) (state a) (failure a) (shutdownState a) (shutdownErr a) (config_frozen a).
Definition finishRegistration (registered : list ServiceProvider) (a : Application) : Application :=
  MkApplication (providers a ++ registered) (shutdownProviders a) applicationCollecting (failure a) (shutdownState a) (shutdownErr a) (config_frozen a).
Definition fail (err : goerror) (a : Application) : Application :=
  MkApplication (providers a) (shutdownProviders a) applicationFailed (Some err) (shutdownState a) (shutdownErr a) (config_frozen a).

(** The start of [Boot]: the providers to boot, or the result. *)
Definition Boot_begin (a : Application) : Application * (list ServiceProvider + result unit) :=
  if bool_decide (shutdownState a = applicationShutdownIdle) then
    match state a with
    | applicationBooted => (a, inr (Ok tt))
    | applicationFailed => (a, inr (option_result (failure a)))
    | applicationCollecting => (with_state a applicationBooting, inl (providers a))
    | _ => (a, inr (Err ErrApplicationBusy))
    end
  else (a, inr (Err ErrApplicationShutdown)).
(** The end of [Boot]: the configuration is frozen, then the state is set. *)
Definition freeze_config (a : Application) : Application :=
  MkApplication (providers a) (shutdownProviders a) (state a) (failure a) (shutdownState a) (shutdownErr a) true.
Definition Boot_end (a : Application) : Application := with_state (freeze_config a) applicationBooted.

(** The start of [Shutdown]: who starts the termination, who waits for it, and
    who returns at once; [ctx] is what [ctx.Err()] gives. *)
Inductive shutdown_entry := StartTermination (todo : list ServiceProvider) | WaitForShutdown | ReturnNow (r : result unit).
Definition Shutdown_begin (ctx : context) (a : Application) : Application * shutdown_entry :=
  match ctx with
  | NilContext => (a, ReturnNow (Err ErrShutdownContextUnavailable))
  | Ctx done =>
      match shutdownState a with
      | applicationShutdownComplete => (a, ReturnNow (option_result (shutdownErr a)))
      | applicationShuttingDown => (a, WaitForShutdown)
      | applicationShutdownIdle =>
          match done with
          | Some err => (a, ReturnNow (Err err))
          | None =>
              if bool_decide (state a = applicationRegistering) || bool_decide (state a = applicationBooting)
              then (a, ReturnNow (Err ErrApplicationBusy))
              else (MkApplication (providers a) (shutdownProviders a) (state a) (failure a) applicationShuttingDown (shutdownErr a) (config_frozen a),
                    StartTermination (shutdownProviders a))
          end
      end
  end.
Definition Shutdown_end (failures : list ShutdownFailure) (a : Application) : Application :=
  MkApplication (providers a) (shutdownProviders a) (state a) (failure a) applicationShutdownComplete (shutdown_errors failures) (config_frozen a).

(** ** The context of a termination *)

Definition applicationShutdownCleanupTimeout : Z := 1000000000.
(** What the caller's context is when a provider is terminated: done, or live
    with a deadline or without. *)
Inductive caller_context := CallerDone | CallerDeadline (deadline : Z) | CallerLive.
(** The deadline of the provider's context, and whether it is cut off from the
    caller's cancellation. *)
Inductive termination_context := GracePeriod (deadline : Z) | ShareOfDeadline (deadline : Z) | CallersContext.
Definition terminationContext (ctx : caller_context) (now : Z) (remaining : Z) : termination_context :=
  match ctx with
  | CallerDone => GracePeriod (now + applicationShutdownCleanupTimeout)
  | CallerDeadline deadline => ShareOfDeadline (Z.min deadline (now + Z.quot (deadline - now) remaining))
  | CallerLive => CallersContext
  end.

(** ** Calls in progress *)

Inductive call :=
| Registering (todo : list (option ServiceProvider)) (registered : list ServiceProvider)
| RegisterRunning (p : ServiceProvider) (todo : list (option ServiceProvider)) (registered : list ServiceProvider)
| Booting (todo : list ServiceProvider)
| BootRunning (p : ServiceProvider) (todo : list ServiceProvider)
| Waiting
| Returned (r : result unit).
(** The goroutine of [terminateProviders]. *)
Inductive terminator :=
| Terminating (todo : list ServiceProvider) (remaining : Z) (failures : list ShutdownFailure)
| TerminateRunning (p : ServiceProvider) (todo : list ServiceProvider) (remaining : Z) (failures : list ShutdownFailure).

(** What providers are told, in order. *)
Inductive event :=
| Registered (p : ServiceProvider)
| Booted (p : ServiceProvider)
| Terminated (p : ServiceProvider) (context : termination_context).

Record system := MkSystem {
  app : Application;
  calls : gmap nat call;
  goroutine : option terminator;
  log : list event
}.
Definition initial : system := MkSystem NewApplication ∅ None [].
Definition with_call (s : system) (i : nat) (c : call) : system := MkSystem (app s) (<[i := c]> (calls s)) (goroutine s) (log s).
Definition with_app (s : system) (a : Application) : system := MkSystem a (calls s) (goroutine s) (log s).
Definition tell (s : system) (e : event) : system := MkSystem (app s) (calls s) (goroutine s) (log s ++ [e]).
Definition with_goroutine (s : system) (g : option terminator) : system := MkSystem (app s) (calls s) g (log s).

Definition register_error (what : string) (p : ServiceProvider) (err : goerror) : goerror :=
  Errorf [W ErrApplicationFailed; T (": " +:+ what +:+ " provider " +:+ prov_type p +:+ ": "); W err].
Definition nil_provider_error : goerror :=
  Errorf [W ErrApplicationFailed; T ": register provider: service provider cannot be nil"].

(** One step of a call that is in progress; the outcome is the provider's. *)
Definition advance_call (s : system) (i : nat) (c : call) (outcome : option goerror) : option system :=
  match c with
  | Registering [] registered => Some (with_call (with_app s (finishRegistration registered (app s))) i (Returned (Ok tt)))
  | Registering (None :: _) _ => Some (with_call (with_app s (fail nil_provider_error (app s))) i (Returned (Err nil_provider_error)))
  | Registering (Some p :: todo) registered =>
      Some (with_call (tell (with_app s (trackShutdownProvider p (app s))) (Registered p)) i (RegisterRunning p todo registered))
  | RegisterRunning p todo registered =>
      match outcome with
      | Some err => let err := register_error "register" p err in Some (with_call (with_app s (fail err (app s))) i (Returned (Err err)))
      | None => Some (with_call s i (Registering todo (registered ++ [p])))
      end
  | Booting [] => Some (with_call (with_app s (Boot_end (app s))) i (Returned (Ok tt)))
  | Booting (p :: todo) =>
      if bootable p then Some (with_call (tell s (Booted p)) i (BootRunning p todo)) else Some (with_call s i (Booting todo))
  | BootRunning p todo =>
      match outcome with
      | Some err => let err := register_error "boot" p err in Some (with_call (with_app s (fail err (app s))) i (Returned (Err err)))
      | None => Some (with_call s i (Booting todo))
      end
  | Waiting =>
      match shutdownState (app s), outcome with
      | applicationShutdownComplete, None => Some (with_call s i (Returned (option_result (shutdownErr (app s)))))
      | _, Some err => Some (with_call s i (Returned (Err err)))
      | _, None => None
      end
  | Returned _ => None
  end.

(** The loop of [terminateProviders]: [providers] in reverse. *)
Definition terminator_of (todo : list ServiceProvider) : terminator :=
  Terminating (reverse todo) (Z.of_nat (length (filter (fun p => terminable p = true) todo))) [].
Definition advance_terminator (s : system) (g : terminator) (ctx : caller_context) (now : Z) (outcome : option goerror) : system :=
  match g with
  | Terminating [] _ failures => with_goroutine (with_app s (Shutdown_end failures (app s))) None
  | Terminating (p :: todo) remaining failures =>
      if terminable p
      then with_goroutine (tell s (Terminated p (terminationContext ctx now remaining))) (Some (TerminateRunning p todo remaining failures))
      else with_goroutine s (Some (Terminating todo remaining failures))
  | TerminateRunning p todo remaining failures =>
      let failures := match outcome with Some err => failures ++ [MkShutdownFailure (serviceProviderName p) err] | None => failures end in
      with_goroutine s (Some (Terminating todo (remaining - 1) failures))
  end.

Inductive step : system -> system -> Prop :=
| step_register s i ps a r : calls s !! i = None -> Register_begin (app s) = (a, r) ->
    step s (with_call (with_app s a) i (match r with None => Registering ps [] | Some r => Returned r end))
| step_boot s i a r : calls s !! i = None -> Boot_begin (app s) = (a, r) ->
    step s (with_call (with_app s a) i (match r with inl todo => Booting todo | inr r => Returned r end))
| step_shutdown s i ctx a e : calls s !! i = None -> Shutdown_begin ctx (app s) = (a, e) ->
    step s (match e with
            | StartTermination todo => with_goroutine (with_call (with_app s a) i Waiting) (Some (terminator_of todo))
            | WaitForShutdown => with_call (with_app s a) i Waiting
            | ReturnNow r => with_call (with_app s a) i (Returned r)
            end)
| step_call s i c outcome s' : calls s !! i = Some c -> advance_call s i c outcome = Some s' -> step s s'
| step_terminator s g ctx now outcome : goroutine s = Some g -> step s (advance_terminator s g ctx now outcome).
Inductive reachable : system -> Prop :=
| reachable_initial : reachable initial
| reachable_step s s' : reachable s -> step s s' -> reachable s'.

(** ** Manifests *)

Definition ErrInvalidProviderManifest := ErrNew "framework: provider manifest is invalid".
Definition ErrInvalidProviderName := ErrNew "framework: provider name is invalid".
Definition ErrProviderAlreadyDefined := ErrNew "framework: provider is already defined".
Record ProviderEntry := MkProviderEntry { entry_Name : string; entry_Provider : ServiceProvider }.
Record ProviderManifest := MkManifest { entries : list ProviderEntry; names : gset string }.
Definition NewProviderManifest : ProviderManifest := MkManifest [] ∅.
Definition Add (name : string) (provider : option ServiceProvider) (manifest : option ProviderManifest) : option ProviderManifest * result unit :=
  match manifest, provider with
  | Some m, Some p =>
      let name := TrimSpace name in
      if String.eqb name "" then (manifest, Err ErrInvalidProviderName)
      else if bool_decide (name ∈ names m) then (manifest, Err (errorf1 ErrProviderAlreadyDefined name))
      else (Some (MkManifest (entries m ++ [MkProviderEntry name p]) ({[name]} ∪ names m)), Ok tt)
  | _, _ => (manifest, Err ErrInvalidProviderManifest)
  end.
(** The wrapper of an entry: it can always be booted, and terminated if the
    provider can. *)
Definition manifestServiceProvider (entry : ProviderEntry) : ServiceProvider :=
  MkServiceProvider (prov_id (entry_Provider entry))
    (if terminable (entry_Provider entry) then "framework.manifestTerminableServiceProvider" else "framework.manifestServiceProvider")
    (Some (entry_Name entry)) true (terminable (entry_Provider entry)).
Definition RegisterManifest (manifest : option ProviderManifest) : result (list (option ServiceProvider)) :=
  match manifest with
  | None => Err ErrInvalidProviderManifest
  | Some m => Ok (Some ∘ manifestServiceProvider <$> entries m)
  end.
