(* ===== verification/ApplicationFacts.v ===== *)
(** * The order in which an application's providers are called *)
From S2P Require Import Prelude GoStrings GoTime Application.
Open Scope Z_scope.
Open Scope go_scope.

Abbreviation bootables := (filter (fun p => bootable p = true)).
Abbreviation terminables := (filter (fun p => terminable p = true)).

(** ** The invariant *)

(** The state of the application that a call in progress stands for. *)
Definition active (c : call) : option applicationState :=
  match c with
  | Registering _ _ | RegisterRunning _ _ _ => Some applicationRegistering
  | Booting _ | BootRunning _ _ => Some applicationBooting
  | _ => None
  end.
Definition settled (st : applicationState) : Prop := st <> applicationRegistering /\ st <> applicationBooting.

Definition registered_ok (a : Application) (c : call) : Prop :=
  match c with
  | Registering _ registered => shutdownProviders a = providers a ++ registered
  | RegisterRunning p _ registered => shutdownProviders a = providers a ++ registered ++ [p]
  | _ => True
  end.
Definition booted_ok (a : Application) (boots : list ServiceProvider) (c : call) : Prop :=
  match c with
  | Booting todo => exists done_, providers a = done_ ++ todo /\ boots = bootables done_
  | BootRunning p todo => exists done_, providers a = done_ ++ p :: todo /\ boots = bootables (done_ ++ [p])
  | _ => True
  end.
Definition state_ok (a : Application) (boots : list ServiceProvider) : Prop :=
  match state a with
  | applicationCollecting => shutdownProviders a = providers a /\ boots = []
  | applicationRegistering => boots = []
  | applicationBooting => shutdownProviders a = providers a /\ exists done_ rest, providers a = done_ ++ rest /\ boots = bootables done_
  | applicationBooted => shutdownProviders a = providers a /\ boots = bootables (providers a)
  | applicationFailed => exists done_ rest, shutdownProviders a = done_ ++ rest /\ boots = bootables done_
  end.
Definition terminator_ok (ps : list ServiceProvider) (terms : list ServiceProvider) (g : terminator) : Prop :=
  match g with
  | Terminating todo remaining _ =>
      exists done_, reverse ps = done_ ++ todo /\ terms = terminables done_ /\ remaining = Z.of_nat (length (terminables todo))
  | TerminateRunning p todo remaining _ =>
      exists done_, reverse ps = done_ ++ p :: todo /\ terminable p = true /\ terms = terminables (done_ ++ [p]) /\
        remaining = Z.of_nat (length (terminables (p :: todo)))
  end.
Definition shutdown_ok (a : Application) (g : option terminator) (terms : list ServiceProvider) : Prop :=
  match shutdownState a with
  | applicationShutdownIdle => g = None /\ terms = []
  | applicationShuttingDown => settled (state a) /\ exists g', g = Some g' /\ terminator_ok (shutdownProviders a) terms g'
  | applicationShutdownComplete => settled (state a) /\ g = None /\ terms = terminables (reverse (shutdownProviders a))
  end.

Record lifecycle (s : system) (boots : list ServiceProvider) (terms : list (ServiceProvider * termination_context)) : Prop := {
  lc_log : log s = (Registered <$> shutdownProviders (app s)) ++ (Booted <$> boots) ++ ((fun t => Terminated t.1 t.2) <$> terms);
  lc_active : forall i c st, calls s !! i = Some c -> active c = Some st -> state (app s) = st;
  lc_single : forall i j c d, calls s !! i = Some c -> calls s !! j = Some d -> active c <> None -> active d <> None -> i = j;
  lc_calls : forall i c, calls s !! i = Some c -> registered_ok (app s) c /\ booted_ok (app s) boots c;
  lc_state : state_ok (app s) boots;
  lc_shutdown : shutdown_ok (app s) (goroutine s) terms.*1
}.

(** A call that comes to no activity keeps the rest. *)
Lemma lifecycle_other_call s boots terms i c : lifecycle s boots terms -> active c = None -> lifecycle (with_call s i c) boots terms.
Proof.
  intros [H1 H2 H3 H4 H5 H6] Hc. split; cbn [app calls goroutine log with_call]; try done.
  - intros j d st. destruct (decide (i = j)) as [->|Hj]; [rewrite lookup_insert_eq; intros [= <-]; congruence|].
    rewrite lookup_insert_ne by done. apply H2.
  - intros j k d e Hd He Ad Ae. destruct (decide (i = j)) as [->|Hj]; [rewrite lookup_insert_eq in Hd; congruence|].
    destruct (decide (i = k)) as [->|Hk]; [rewrite lookup_insert_eq in He; congruence|].
    rewrite lookup_insert_ne in Hd, He by done. by eapply H3.
  - intros j d. destruct (decide (i = j)) as [->|Hj]; [rewrite lookup_insert_eq; intros [= <-]; by destruct c|].
    rewrite lookup_insert_ne by done. apply H4.
Qed.

(** The only active call moves on: the others have nothing to say about the
    application. *)
Lemma lifecycle_move s a lg boots terms i c c' :
  calls s !! i = Some c -> active c <> None -> (forall j d, calls s !! j = Some d -> active d <> None -> i = j) ->
  (forall st, active c' = Some st -> state a = st) -> registered_ok a c' -> booted_ok a boots c' ->
  state_ok a boots -> shutdown_ok a (goroutine s) terms.*1 ->
  lg = (Registered <$> shutdownProviders a) ++ (Booted <$> boots) ++ ((fun t => Terminated t.1 t.2) <$> terms) ->
  lifecycle (MkSystem a (<[i := c']> (calls s)) (goroutine s) lg) boots terms.
Proof.
  intros Hi Hc Honly Ha Hr Hb Hst Hsh Hlog.
  assert (forall j d, <[i := c']> (calls s) !! j = Some d -> (i = j /\ d = c') \/ (calls s !! j = Some d /\ active d = None)) as Hcalls.
  { intros j d. destruct (decide (i = j)) as [->|Hj]; [rewrite lookup_insert_eq; intros [= <-]; by left|].
    rewrite lookup_insert_ne by done. intros Hd. right. split; [done|]. destruct (active d) eqn:Ad; [|done].
    destruct Hj. eapply Honly; [done|congruence]. }
  split; cbn [app calls goroutine log]; try done.
  - intros j d st [[-> ->]|[_ Hn]]%Hcalls; [apply Ha|congruence].
  - intros j k d e [[-> ->]|[_ Hn]]%Hcalls [[-> ->]|[_ Hn']]%Hcalls; congruence.
  - intros j d [[-> ->]|[_ Hn]]%Hcalls; [done|]. by destruct d.
Qed.

(** While a call is active, no shutdown has begun. *)
Lemma active_not_shut a g terms : shutdown_ok a g terms -> ~ settled (state a) -> shutdownState a = applicationShutdownIdle /\ g = None /\ terms = [].
Proof. unfold shutdown_ok. destruct (shutdownState a); naive_solver. Qed.

Ltac settle := match goal with
  | Hst : state ?a = _, E1 : shutdownState ?a = applicationShutdownIdle |- _ =>
      first [ done | by intros ? [= <-] | by unfold state_ok; cbn; rewrite ?Hst | by unfold shutdown_ok in *; cbn; rewrite E1 in * ]
  end.
Lemma lifecycle_advance s boots terms i c outcome s' : lifecycle s boots terms -> calls s !! i = Some c ->
  advance_call s i c outcome = Some s' -> exists boots', lifecycle s' boots' terms.
Proof.
  intros L Hi. pose proof L as [H1 H2 H3 H4 H5 H6]. destruct (H4 i c Hi) as [Hr Hb].
  assert (active c <> None -> forall j d, calls s !! j = Some d -> active d <> None -> i = j) as Honly
    by (intros Hc j d Hd Hda; by eapply H3).
  destruct (active c) as [st|] eqn:Ha.
  2:{ destruct c; try done; cbn [advance_call]. intros E. exists boots.
      destruct (shutdownState (app s)), outcome; try done; injection E as <-; by apply lifecycle_other_call. }
  specialize (Honly ltac:(done)). assert (active c <> None) as Hact by congruence.
  pose proof (H2 _ _ _ Hi Ha) as Hst. assert (~ settled (state (app s))) as Hns by (rewrite Hst; destruct c; try done; injection Ha as <-; by intros []).
  destruct (active_not_shut _ _ _ H6 Hns) as (E1 & E2 & E3%fmap_nil_inv). clear Hns. subst terms. unfold state_ok in H5.
  destruct c as [[|[p|] todo] registered|p todo registered|[|p todo]|p todo| |r]; cbn [advance_call active] in *; try done;
    injection Ha as <-; rewrite Hst in H5; cbn [registered_ok booted_ok] in *.
  - intros [= <-]. exists boots. eapply lifecycle_move; try settle.
  - intros [= <-]. exists boots. eapply lifecycle_move; try settle.
    + cbn. by rewrite Hr, <- app_assoc.
    + cbn. rewrite H1, H5. cbn. by rewrite !app_nil_r, fmap_app.
  - intros [= <-]. exists boots. eapply lifecycle_move; try settle. cbn. exists [], (shutdownProviders (app s)). by rewrite H5.
  - destruct outcome as [err|]; intros [= <-]; exists boots; (eapply lifecycle_move; try settle).
    cbn. exists [], (shutdownProviders (app s)). by rewrite H5.
  - intros [= <-]. exists boots. destruct Hb as (d & Ed & Eb). rewrite app_nil_r in Ed. destruct H5 as [H5 _].
    eapply lifecycle_move; try settle. cbn. split; [done|]. by rewrite Ed.
  - destruct Hb as (d & Ed & Eb). destruct H5 as [H5 H5']. destruct (bootable p) eqn:Ep; intros [= <-].
    + exists (boots ++ [p]). assert (boots ++ [p] = bootables (d ++ [p])) as Eb' by (by rewrite filter_app, Eb, filter_cons_True).
      eapply lifecycle_move; try settle.
      * by exists d.
      * unfold state_ok. cbn. rewrite Hst. split; [done|]. exists (d ++ [p]), todo. by rewrite <- app_assoc.
      * cbn. rewrite H1. cbn. by rewrite !app_nil_r, fmap_app, app_assoc.
    + exists boots. eapply lifecycle_move; try settle.
      exists (d ++ [p]). rewrite <- app_assoc. split; [done|]. rewrite filter_app, filter_cons_False, app_nil_r by congruence. done.
  - destruct Hb as (d & Ed & Eb). destruct H5 as [H5 H5']. destruct outcome as [err|]; intros [= <-]; exists boots; (eapply lifecycle_move; try settle).
    + cbn. exists (d ++ [p]), todo. rewrite H5, Ed, <- app_assoc. done.
    + exists (d ++ [p]). by rewrite <- app_assoc.
Qed.

Lemma lifecycle_terminator s boots terms g ctx now outcome : lifecycle s boots terms -> goroutine s = Some g ->
  exists terms', lifecycle (advance_terminator s g ctx now outcome) boots terms'.
Proof.
  intros [H1 H2 H3 H4 H5 H6] Hg. unfold shutdown_ok in H6. rewrite Hg in H6.
  destruct (shutdownState (app s)) eqn:Es; [by destruct H6| |by destruct H6 as (_ & [=] & _)].
  destruct H6 as (Hset & g' & [= <-] & Hok). destruct g as [[|p todo] remaining failures|p todo remaining failures]; cbn [advance_terminator].
  - exists terms. destruct Hok as (d & Ed & Et & _). rewrite app_nil_r in Ed.
    split; cbn [app calls goroutine log with_goroutine with_app Shutdown_end shutdownProviders providers state]; try done.
    unfold shutdown_ok. cbn [shutdownState state shutdownProviders Shutdown_end with_app app with_goroutine]. split; [done|]. split; [done|]. by rewrite Et, Ed.
  - destruct Hok as (d & Ed & Et & Er). destruct (terminable p) eqn:Ep.
    + exists (terms ++ [(p, terminationContext ctx now remaining)]). split; cbn [app calls goroutine log with_goroutine tell]; try done.
      * by rewrite H1, !fmap_app, !app_assoc.
      * unfold shutdown_ok. rewrite Es. split; [done|]. eexists. split; [done|]. exists d. rewrite fmap_app, Et, filter_app.
        rewrite (filter_cons_True _ p []) by done. auto.
    + exists terms. split; cbn [app calls goroutine log with_goroutine]; try done.
      unfold shutdown_ok. rewrite Es. split; [done|]. eexists. split; [done|]. exists (d ++ [p]).
      rewrite <- app_assoc, filter_app, filter_cons_False, app_nil_r by congruence.
      rewrite filter_cons_False in Er by congruence. done.
  - destruct Hok as (d & Ed & Hp & Et & Er). exists terms. split; cbn [app calls goroutine log with_goroutine]; try done.
    unfold shutdown_ok. rewrite Es. split; [done|]. eexists. split; [done|]. exists (d ++ [p]). rewrite <- app_assoc.
    split; [done|]. split; [done|]. rewrite filter_cons_True in Er by done. cbn [length] in Er. lia.
Qed.

(** A call enters: with the application in a settled state, as far as others
    are concerned. *)
Lemma lifecycle_enter s a boots terms i c g : lifecycle s boots terms -> calls s !! i = None ->
  shutdownProviders a = shutdownProviders (app s) -> providers a = providers (app s) ->
  (active c <> None -> forall j d, calls s !! j = Some d -> active d = None) ->
  (forall j d st, calls s !! j = Some d -> active d = Some st -> state a = st) ->
  (forall st, active c = Some st -> state a = st) -> registered_ok a c -> booted_ok a boots c -> state_ok a boots -> shutdown_ok a g terms.*1 ->
  lifecycle (MkSystem a (<[i := c]> (calls s)) g (log s)) boots terms.
Proof.
  intros [H1 H2 H3 H4 H5 H6] Hi Esp Ep Hc Hold Hnew Hr Hb Hst Hsh. split; cbn [app calls goroutine log]; try done.
  - by rewrite Esp.
  - intros j d st. destruct (decide (i = j)) as [->|Hj]; [rewrite lookup_insert_eq; intros [= <-]; apply Hnew|].
    rewrite lookup_insert_ne by done. apply Hold.
  - intros j k d e Hd He Ad Ae. destruct (decide (i = j)) as [->|Hj], (decide (j = k)) as [->|Hk]; try done.
    + rewrite lookup_insert_eq in Hd. injection Hd as <-. rewrite lookup_insert_ne in He by done. by rewrite (Hc Ad k e He) in Ae.
    + destruct (decide (i = k)) as [->|Hk']; [rewrite lookup_insert_eq in He; injection He as <-; rewrite lookup_insert_ne in Hd by done;
        by rewrite (Hc Ae j d Hd) in Ad|]. rewrite lookup_insert_ne in Hd, He by done. by eapply H3.
  - intros j d. destruct (decide (i = j)) as [->|Hj]; [rewrite lookup_insert_eq; by intros [= <-]|].
    rewrite lookup_insert_ne by done. intros Hd. destruct (H4 j d Hd) as [G1 G2].
    destruct d; cbn in *; rewrite ?Esp, ?Ep; done.
Qed.
Lemma lifecycle_idle_active s boots terms : lifecycle s boots terms -> settled (state (app s)) ->
  forall j d, calls s !! j = Some d -> active d = None.
Proof.
  intros [H1 H2 H3 H4 H5 H6] [Hs1 Hs2] j d Hd. destruct (active d) as [st|] eqn:E; [|done]. pose proof (H2 _ _ _ Hd E) as Hst.
  destruct d; cbn in E; try done; injection E as <-; congruence.
Qed.

Lemma lifecycle_begin s s' boots terms : lifecycle s boots terms -> step s s' -> exists boots' terms', lifecycle s' boots' terms'.
Proof.
  intros L. pose proof L as [H1 H2 H3 H4 H5 H6].
  destruct 1 as [s i ps a r Hi E|s i a r Hi E|s i ctx a e Hi E|s i c outcome s' Hi E|s g ctx now outcome Hg].
  - exists boots, terms. unfold Register_begin in E. destruct (bool_decide_reflect (shutdownState (app s) = applicationShutdownIdle)) as [Es|Es].
    2:{ injection E as <- <-. destruct s. by apply lifecycle_other_call. }
    destruct (state (app s)) eqn:Est; injection E as <- <-; try (destruct s; by apply lifecycle_other_call).
    unfold state_ok in H5. rewrite Est in H5. destruct H5 as [H5 ->].
    assert (settled (state (app s))) as Hset by (by rewrite Est).
    eapply (lifecycle_enter s (with_state (app s) applicationRegistering)); try done.
    + intros _. by eapply lifecycle_idle_active.
    + intros j d st Hd Hst. by rewrite (lifecycle_idle_active _ _ _ L Hset j d Hd) in Hst.
    + by intros st [= <-].
    + cbn. by rewrite app_nil_r.
    + unfold shutdown_ok in *. cbn. by rewrite Es in *.
  - exists boots, terms. unfold Boot_begin in E. destruct (bool_decide_reflect (shutdownState (app s) = applicationShutdownIdle)) as [Es|Es].
    2:{ injection E as <- <-. destruct s. by apply lifecycle_other_call. }
    destruct (state (app s)) eqn:Est; injection E as <- <-; try (destruct s; by apply lifecycle_other_call).
    unfold state_ok in H5. rewrite Est in H5. destruct H5 as [H5 ->].
    assert (settled (state (app s))) as Hset by (by rewrite Est).
    eapply (lifecycle_enter s (with_state (app s) applicationBooting)); try done.
    + intros _. by eapply lifecycle_idle_active.
    + intros j d st Hd Hst. by rewrite (lifecycle_idle_active _ _ _ L Hset j d Hd) in Hst.
    + by intros st [= <-].
    + by exists [].
    + unfold state_ok. cbn. split; [done|]. by exists [], (providers (app s)).
    + unfold shutdown_ok in *. cbn. by rewrite Es in *.
  - exists boots, terms. unfold Shutdown_begin in E. destruct ctx as [|done_]; [injection E as <- <-; destruct s; by apply lifecycle_other_call|].
    destruct (shutdownState (app s)) eqn:Es; [|injection E as <- <-; destruct s; by apply lifecycle_other_call..].
    destruct done_; [injection E as <- <-; destruct s; by apply lifecycle_other_call|].
    destruct (bool_decide_reflect (state (app s) = applicationRegistering)) as [E1|E1]; [injection E as <- <-; destruct s; by apply lifecycle_other_call|].
    destruct (bool_decide_reflect (state (app s) = applicationBooting)) as [E2|E2]; [injection E as <- <-; destruct s; by apply lifecycle_other_call|].
    injection E as <- <-. unfold shutdown_ok in H6. rewrite Es in H6. destruct H6 as [Hg ->%fmap_nil_inv].
    eapply (lifecycle_enter s (MkApplication _ _ _ _ _ _ _)); try done.
    unfold shutdown_ok. cbn [shutdownState state]. split; [done|]. eexists. split; [done|]. exists [].
    split; [done|]. split; [done|]. f_equal. apply Permutation_length. by rewrite reverse_Permutation.
  - destruct (lifecycle_advance _ _ _ _ _ _ _ L Hi E) as [boots' L']. by exists boots', terms.
  - destruct (lifecycle_terminator _ _ _ _ ctx now outcome L Hg) as [terms' L']. by exists boots, terms'.
Qed.
Lemma lifecycle_reachable s : reachable s -> exists boots terms, lifecycle s boots terms.
Proof.
  induction 1 as [|s s' _ (boots & terms & IH) Hs]; [|by eapply lifecycle_begin].
  exists [], []. split; cbn; try done; intros *; by rewrite ?lookup_empty.
Qed.

(** ** The theorems *)

(** Whatever providers do and however calls of [Register], [Boot] and
    [Shutdown] interleave, the calls of providers come in one order: first
    every registration, then the bootable providers in the order of
    registration, then the terminable ones in the reverse order, each at most
    once.  A booted application has booted all of them, and one whose shutdown
    is complete has terminated every provider whose [Register] was ever called. *)
Theorem providers_follow_lifecycle s : reachable s ->
  exists boots terms,
    log s = (Registered <$> shutdownProviders (app s)) ++ (Booted <$> boots) ++ ((fun t => Terminated t.1 t.2) <$> terms) /\
    boots `prefix_of` bootables (shutdownProviders (app s)) /\
    terms.*1 `prefix_of` terminables (reverse (shutdownProviders (app s))) /\
    (state (app s) = applicationBooted -> boots = bootables (shutdownProviders (app s))) /\
    (shutdownState (app s) = applicationShutdownIdle -> terms = []) /\
    (shutdownState (app s) = applicationShutdownComplete -> terms.*1 = terminables (reverse (shutdownProviders (app s)))).
Proof.
  intros (boots & terms & [H1 H2 H3 H4 H5 H6])%lifecycle_reachable. exists boots, terms. split; [done|]. split; [|split; [|split; [|split]]].
  - unfold state_ok in H5. destruct (state (app s)).
    + destruct H5 as [_ ->]. apply prefix_nil.
    + rewrite H5. apply prefix_nil.
    + destruct H5 as (-> & d & rest & -> & ->). rewrite filter_app. by apply prefix_app_r.
    + by destruct H5 as [-> ->].
    + destruct H5 as (d & rest & -> & ->). rewrite filter_app. by apply prefix_app_r.
  - unfold shutdown_ok in H6. destruct (shutdownState (app s)).
    + destruct H6 as [_ ->]. apply prefix_nil.
    + destruct H6 as (_ & [todo remaining failures|p todo remaining failures] & _ & Hok).
      * destruct Hok as (d & -> & -> & _). rewrite filter_app. by apply prefix_app_r.
      * destruct Hok as (d & -> & _ & -> & _). replace (d ++ p :: todo) with ((d ++ [p]) ++ todo) by by rewrite <- app_assoc.
        rewrite (filter_app _ (d ++ [p]) todo). by apply prefix_app_r.
    + destruct H6 as (_ & _ & ->). done.
  - intros E. unfold state_ok in H5. rewrite E in H5. by destruct H5 as [-> ->].
  - intros E. unfold shutdown_ok in H6. rewrite E in H6. destruct H6 as [_ H6]. by apply fmap_nil_inv in H6.
  - intros E. unfold shutdown_ok in H6. rewrite E in H6. by destruct H6 as (_ & _ & ?).
Qed.

(** Steps of the goroutine still to come. *)
Definition work (g : terminator) : nat :=
  match g with Terminating todo _ _ => S (2 * length todo) | TerminateRunning _ todo _ _ => S (S (2 * length todo)) end.
Fixpoint run_terminator (s : system) (inputs : list (caller_context * Z * option goerror)) : system :=
  match inputs with
  | [] => s
  | (ctx, now, outcome) :: inputs =>
      match goroutine s with
      | Some g => run_terminator (advance_terminator s g ctx now outcome) inputs
      | None => s
      end
  end.
Lemma advance_terminator_work s g ctx now outcome : goroutine s = Some g ->
  let s' := advance_terminator s g ctx now outcome in
  (goroutine s' = None /\ shutdownState (app s') = applicationShutdownComplete) \/
  exists g', goroutine s' = Some g' /\ (work g' < work g)%nat.
Proof.
  intros Hg. destruct g as [[|p todo] remaining failures|p todo remaining failures]; cbn [advance_terminator]; [by left|right..].
  - destruct (terminable p); eexists; (split; [done|cbn [work length]; lia]).
  - eexists. split; [done|]. cbn [work]. lia.
Qed.
Lemma run_terminator_complete inputs : forall s g, goroutine s = Some g -> (work g <= length inputs)%nat ->
  goroutine (run_terminator s inputs) = None /\ shutdownState (app (run_terminator s inputs)) = applicationShutdownComplete.
Proof.
  induction inputs as [|[[ctx now] outcome] inputs IH]; intros s g Hg Hw; [destruct g; cbn in Hw; lia|]. cbn [run_terminator]. rewrite Hg.
  pose proof (advance_terminator_work s g ctx now outcome Hg) as [[Hn Hc]|(g' & Hg' & Hlt)].
  - destruct inputs as [|[[ctx' now'] outcome'] inputs]; cbn [run_terminator]; [done|]. by rewrite Hn.
  - eapply IH; [done|]. cbn [length] in Hw. lia.
Qed.
Lemma advance_call_shutdown s i c outcome s' : advance_call s i c outcome = Some s' ->
  goroutine s' = goroutine s /\ shutdownState (app s') = shutdownState (app s) /\ shutdownErr (app s') = shutdownErr (app s).
Proof.
  destruct c as [[|[p|] todo] registered|p todo registered|[|p todo]|p todo| |r]; cbn [advance_call];
    repeat case_match; intros E; simplify_eq/=; done.
Qed.

(** A shutdown that has begun ends: its goroutine is there, whatever the
    providers answer it needs two steps for each of them and one more, no step
    of another caller touches it, and then every caller that waits returns the
    same result. *)
Theorem shutdown_terminates_providers s : reachable s -> shutdownState (app s) = applicationShuttingDown ->
  exists g, goroutine s = Some g /\ (work g <= S (2 * length (shutdownProviders (app s))))%nat /\
    (forall inputs, (work g <= length inputs)%nat -> shutdownState (app (run_terminator s inputs)) = applicationShutdownComplete) /\
    (forall s', step s s' ->
      (goroutine s' = Some g /\ shutdownState (app s') = applicationShuttingDown) \/
      exists ctx now outcome, s' = advance_terminator s g ctx now outcome) /\
    forall s' i, reachable s' -> shutdownState (app s') = applicationShutdownComplete -> calls s' !! i = Some Waiting ->
      advance_call s' i Waiting None = Some (with_call s' i (Returned (option_result (shutdownErr (app s'))))).
Proof.
  intros (boots & terms & [H1 H2 H3 H4 H5 H6])%lifecycle_reachable Es. unfold shutdown_ok in H6. rewrite Es in H6.
  destruct H6 as (Hset & g & Hg & Hok). exists g. split; [done|]. split; [|split; [|split]].
  - destruct g as [todo r f|p todo r f]; [destruct Hok as (d & Ed & _)|destruct Hok as (d & Ed & _)]; cbn [work];
      apply (f_equal length) in Ed; rewrite length_reverse, length_app in Ed; cbn [length] in Ed; lia.
  - intros inputs Hw. by eapply run_terminator_complete.
  - intros s' Hs. destruct Hs as [s i ps a r Hi E|s i a r Hi E|s i ctx a e Hi E|s i c outcome s' Hi E|s g' ctx now outcome Hg'].
    + left. unfold Register_begin in E. rewrite Es in E. cbn in E. injection E as <- <-. done.
    + left. unfold Boot_begin in E. rewrite Es in E. cbn in E. injection E as <- <-. done.
    + left. unfold Shutdown_begin in E. rewrite Es in E. by destruct ctx; injection E as <- <-.
    + left. apply advance_call_shutdown in E as (-> & -> & _). done.
    + right. rewrite Hg in Hg'. injection Hg' as <-. eauto.
  - intros s' i _ Ec Hi. cbn [advance_call]. by rewrite Ec.
Qed.

(** ** The time left for cleaning up *)

(** Under a deadline, a provider that keeps to its time leaves every later
    provider at least as much: the share of the remaining time does not shrink,
    and no context ends after the caller's deadline. *)
Theorem termination_shares_do_not_shrink deadline now now' remaining share :
  1 < remaining -> now <= now' -> now' <= deadline ->
  terminationContext (CallerDeadline deadline) now remaining = ShareOfDeadline share -> now' <= share ->
  exists share', terminationContext (CallerDeadline deadline) now' (remaining - 1) = ShareOfDeadline share' /\
    share - now <= share' - now' /\ share' <= deadline.
Proof.
  intros Hr Hn Hd [= <-] Hs. eexists. split; [done|].
  assert (0 <= deadline - now) as H0 by lia. assert (0 <= deadline - now') as H1 by lia.
  rewrite (Z.quot_div_nonneg (deadline - now)) in * by lia. rewrite (Z.quot_div_nonneg (deadline - now')) by lia.
  set (q := (deadline - now) / remaining) in *. assert (remaining * q <= deadline - now) as Hq by (apply Z.mul_div_le; lia).
  assert (0 <= q) as Hq0 by (apply Z.div_pos; lia). assert (now' <= now + q) as Hn' by lia. assert (q <= deadline - now') as Hq' by nia.
  assert (q <= (deadline - now') / (remaining - 1)) as Hle; [|lia].
  apply Z.div_le_lower_bound; nia.
Qed.

(** ** Two providers *)
Module TwoProviders.
Definition queue := MkServiceProvider 1 "*app.QueueProvider" (Some "queue") true true.
Definition routes := MkServiceProvider 2 "app.RoutesProvider" None true false.
Definition begin_register (s : system) (i : nat) (ps : list (option ServiceProvider)) : system :=
  let '(a, r) := Register_begin (app s) in with_call (with_app s a) i (match r with None => Registering ps [] | Some r => Returned r end).
Definition begin_boot (s : system) (i : nat) : system :=
  let '(a, r) := Boot_begin (app s) in with_call (with_app s a) i (match r with inl todo => Booting todo | inr r => Returned r end).
Definition begin_shutdown (s : system) (i : nat) : system :=
  let '(a, e) := Shutdown_begin Background (app s) in
  match e with
  | StartTermination todo => with_goroutine (with_call (with_app s a) i Waiting) (Some (terminator_of todo))
  | WaitForShutdown => with_call (with_app s a) i Waiting
  | ReturnNow r => with_call (with_app s a) i (Returned r)
  end.
Definition advance (s : system) (i : nat) : system :=
  match calls s !! i with Some c => default s (advance_call s i c None) | None => s end.
Fixpoint repeat_advance (n : nat) (i : nat) (s : system) : system :=
  match n with O => s | S n => repeat_advance n i (advance s i) end.
Lemma reachable_register s i ps : reachable s -> calls s !! i = None -> reachable (begin_register s i ps).
Proof. intros Hr Hi. eapply reachable_step; [exact Hr|]. unfold begin_register. destruct (Register_begin (app s)) eqn:E. by apply step_register. Qed.
Lemma reachable_boot s i : reachable s -> calls s !! i = None -> reachable (begin_boot s i).
Proof. intros Hr Hi. eapply reachable_step; [exact Hr|]. unfold begin_boot. destruct (Boot_begin (app s)) eqn:E. by apply step_boot. Qed.
Lemma reachable_shutdown s i : reachable s -> calls s !! i = None -> reachable (begin_shutdown s i).
Proof.
  intros Hr Hi. eapply reachable_step; [exact Hr|]. unfold begin_shutdown. destruct (Shutdown_begin Background (app s)) eqn:E.
  by apply (step_shutdown s i Background).
Qed.
Lemma reachable_advance n i s : reachable s -> reachable (repeat_advance n i s).
Proof.
  revert s. induction n as [|n IH]; intros s Hr; [done|]. apply IH. unfold advance. destruct (calls s !! i) as [c|] eqn:Ec; [|done].
  destruct (advance_call s i c None) as [s'|] eqn:E; [|done]. eapply reachable_step; [exact Hr|]. by eapply step_call.
Qed.
Definition registered := repeat_advance 5 0 (begin_register initial 0 [Some queue; Some routes]).
Definition booted := repeat_advance 5 1 (begin_boot registered 1).
Definition stopping := begin_shutdown booted 2.
Lemma stopping_reachable : reachable stopping.
Proof.
  apply reachable_shutdown; [|vm_compute; reflexivity]. apply reachable_advance, reachable_boot; [|vm_compute; reflexivity].
  apply reachable_advance, reachable_register; [constructor|reflexivity].
Qed.
Example the_calls : log (run_terminator stopping (replicate 5 (CallerDeadline 900, 300, None))) =
  [Registered queue; Registered routes; Booted queue; Booted routes; Terminated queue (ShareOfDeadline 900)].
Proof. vm_compute. reflexivity. Qed.
End TwoProviders.

Lemma providers_follow_lifecycle_witness : exists boots,
  boots `prefix_of` bootables (shutdownProviders (app TwoProviders.stopping)) /\
  boots = [TwoProviders.queue; TwoProviders.routes].
Proof.
  destruct (providers_follow_lifecycle TwoProviders.stopping TwoProviders.stopping_reachable) as (boots & terms & _ & Hp & _ & Hb & _).
  exists boots. split; [exact Hp|]. rewrite Hb; vm_compute; reflexivity.
Defined.
Lemma shutdown_terminates_providers_witness :
  shutdownState (app (run_terminator TwoProviders.stopping (replicate 5 (CallerLive, 0, None)))) = applicationShutdownComplete.
Proof.
  destruct (shutdown_terminates_providers TwoProviders.stopping TwoProviders.stopping_reachable) as (g & _ & Hw & Hrun & _);
    [vm_compute; reflexivity|]. apply Hrun. exact Hw.
Defined.
Lemma termination_shares_do_not_shrink_witness : exists share',
  terminationContext (CallerDeadline 900) 250 2 = ShareOfDeadline share' /\ 300 - 0 <= share' - 250 /\ share' <= 900.
Proof. apply (termination_shares_do_not_shrink 900 0 250 3 300); [lia|lia|lia|reflexivity|lia]. Defined.
