(* ===== verification/Events.v ===== *)
(** * Events: [backend/framework/events.go], [queued_events.go]

    A dispatcher keeps listeners per type of event.  A listener acts on a
    [World], in which the caller's context may be cancelled meanwhile; the listeners
    of a dispatch are those registered when it begins. *)
From S2P Require Import Prelude GoStrings.
Open Scope Z_scope.
Open Scope go_scope.

Definition ErrEventDispatcherUnavailable := ErrNew "framework: event dispatcher is unavailable".
Definition ErrEventContextUnavailable := ErrNew "framework: event context is unavailable".
Definition ErrInvalidEventListener := ErrNew "framework: event listener is invalid".
Definition ErrEventListenerAlreadyDefined := ErrNew "framework: event listener is already defined".
Definition ErrEventDispatchFailed := ErrNew "framework: event dispatch failed".
Definition ErrStopEventPropagation := ErrNew "framework: stop event propagation".
Definition ErrJobQueueUnavailable := ErrNew "framework: job queue is unavailable".
Definition ErrInvalidQueuedEventMapper := ErrNew "framework: queued event mapper is invalid".
Definition ErrQueuedEventMappingFailed := ErrNew "framework: queued event mapping failed".
Definition ErrQueuedEventEnqueueFailed := ErrNew "framework: queued event enqueue failed".

Section Events.
Context {World V : Type}.
(** [ctx.Err()] in a world. *)
Variable ctx_Err : World -> option goerror.

(** What a listener does: it changes the world and may fail. *)
Definition handler (E : Type) : Type := E -> World -> World * option goerror.
Record eventListenerEntry := MkListener { listener_name : string; listener_handle : handler V }.
Record EventDispatcher := MkDispatcher { listeners : gmap string (list eventListenerEntry) }.
Definition NewEventDispatcher : EventDispatcher := MkDispatcher ∅.
Definition listeners_of (d : EventDispatcher) (type_ : string) : list eventListenerEntry := default [] (listeners d !! type_).

(** A type of events: its text, its values as [any], and the type assertion. *)
Class EventType (E : Type) := { event_type : string; event_any : E -> V; event_cast : V -> option E }.

Section Typed.
Context {E : Type} `{!EventType E}.

Definition invalid_event : goerror := ErrNew ("framework: event " +:+ event_type (E := E) +:+ " has an invalid runtime type").
Definition entry_of (name : string) (listener : handler E) : eventListenerEntry :=
  MkListener name (fun event w => match event_cast event with Some typed => listener typed w | None => (w, Some invalid_event) end).
Definition Listen (name : string) (listener : option (handler E)) (dispatcher : option EventDispatcher)
    : option EventDispatcher * result unit :=
  with_receiver ErrEventDispatcherUnavailable dispatcher (fun d =>
    let name := TrimSpace name in
    match listener with
    | None => (d, Err ErrInvalidEventListener)
    | Some listener =>
        if String.eqb name "" then (d, Err ErrInvalidEventListener)
        else if existsb (fun registered => String.eqb (listener_name registered) name) (listeners_of d (event_type (E := E)))
        then (d, Err (errorf1 ErrEventListenerAlreadyDefined (event_type (E := E) +:+ " listener " +:+ Quote name)))
        else (MkDispatcher (<[event_type (E := E) := listeners_of d (event_type (E := E)) ++ [entry_of name listener]]> (listeners d)), Ok tt)
    end).

Definition context_error (err : goerror) : goerror :=
  Errorf [W ErrEventDispatchFailed; T (": event " +:+ event_type (E := E) +:+ " context: "); W err].
Definition listener_error (name : string) (err : goerror) : goerror :=
  Errorf [W ErrEventDispatchFailed; T (": event " +:+ event_type (E := E) +:+ " listener " +:+ Quote name +:+ ": "); W err].
Fixpoint dispatch_loop (l : list eventListenerEntry) (event : V) (w : World) : World * result unit :=
  match l with
  | [] => (w, Ok tt)
  | listener :: l =>
      match ctx_Err w with
      | Some err => (w, Err (context_error err))
      | None =>
          match listener_handle listener event w with
          | (w, None) => dispatch_loop l event w
          | (w, Some err) =>
              if errors_is err ErrStopEventPropagation then (w, Ok tt) else (w, Err (listener_error (listener_name listener) err))
          end
      end
  end.
(** [ctx_nil]: the caller gave a nil context. *)
Definition Dispatch (ctx_nil : bool) (dispatcher : option EventDispatcher) (event : E) (w : World) : World * result unit :=
  match dispatcher with
  | None => (w, Err ErrEventDispatcherUnavailable)
  | Some d =>
      if ctx_nil then (w, Err ErrEventContextUnavailable)
      else match ctx_Err w with
           | Some err => (w, Err (context_error err))
           | None => dispatch_loop (listeners_of d (event_type (E := E))) (event_any event) w
           end
  end.
Definition EventListeners (dispatcher : option EventDispatcher) : list string :=
  match dispatcher with None => [] | Some d => listener_name <$> listeners_of d (event_type (E := E)) end.

(** [ListenQueued]: a listener that maps the event to a job and enqueues it;
    [dispatch_job] is [DispatchJob] on the queue, [job_type] the job type's text. *)
Definition ListenQueued {J} (job_type : string) (dispatch_job : option (J -> World -> World * option goerror)) (name : string)
    (mapper : option (E -> World -> World * (J + goerror))) (dispatcher : option EventDispatcher) : option EventDispatcher * result unit :=
  let failed sentinel err := Errorf [W sentinel; T (": event " +:+ event_type (E := E) +:+ " to job " +:+ job_type +:+ ": "); W err] in
  match dispatcher, dispatch_job, mapper with
  | None, _, _ => (None, Err ErrEventDispatcherUnavailable)
  | _, None, _ => (dispatcher, Err ErrJobQueueUnavailable)
  | _, _, None => (dispatcher, Err ErrInvalidQueuedEventMapper)
  | Some _, Some dispatch_job, Some mapper =>
      Listen name (Some (fun event w =>
        match mapper event w with
        | (w, inr err) => (w, Some (failed ErrQueuedEventMappingFailed err))
        | (w, inl job) => match dispatch_job job w with
                          | (w, Some err) => (w, Some (failed ErrQueuedEventEnqueueFailed err))
                          | (w, None) => (w, None)
                          end
        end)) dispatcher
  end.
End Typed.

(** ** What a dispatch does *)

(** The listeners [l] ran one after the other, each in a live context, and none
    failed. *)
Inductive ran (event : V) : list eventListenerEntry -> World -> World -> Prop :=
| ran_nil w : ran event [] w w
| ran_cons listener l w w1 w2 : ctx_Err w = None -> listener_handle listener event w = (w1, None) -> ran event l w1 w2 ->
    ran event (listener :: l) w w2.

(** A dispatch runs a first part of the listeners in the order they registered;
    why it stopped is in its result. *)
Lemma dispatch_loop_spec {E} `{!EventType E} l event : forall w w' r, dispatch_loop (E := E) l event w = (w', r) ->
  (r = Ok tt /\ ran event l w w') \/
  exists l1 listener l2 w1, l = l1 ++ listener :: l2 /\ ran event l1 w w1 /\
    ((exists err, ctx_Err w1 = Some err /\ w' = w1 /\ r = Err (context_error (E := E) err)) \/
     (ctx_Err w1 = None /\ exists err, listener_handle listener event w1 = (w', Some err) /\
       r = if errors_is err ErrStopEventPropagation then Ok tt else Err (listener_error (E := E) (listener_name listener) err))).
Proof.
  induction l as [|listener l IH]; intros w w' r; cbn [dispatch_loop].
  { intros [= <- <-]. left. split; [done|constructor]. }
  destruct (ctx_Err w) as [err|] eqn:Ec.
  { intros [= <- <-]. right. exists [], listener, l, w. split; [done|]. split; [constructor|]. left. eauto. }
  destruct (listener_handle listener event w) as [w1 [err|]] eqn:El.
  - intros H. right. exists [], listener, l, w. split; [done|]. split; [constructor|]. right. split; [done|]. exists err.
    destruct (errors_is err ErrStopEventPropagation); injection H as <- <-; done.
  - intros [[-> Hr]|(l1 & x & l2 & w2 & -> & Hr & H)]%IH; [left; split; [done|by econstructor]|].
    right. exists (listener :: l1), x, l2, w2. split; [done|]. split; [by econstructor|done].
Qed.
Lemma Listen_appends {E} `{!EventType E} name listener d d' : Listen (E := E) name (Some listener) (Some d) = (Some d', Ok tt) ->
  listeners_of d' (event_type (E := E)) = listeners_of d (event_type (E := E)) ++ [entry_of (TrimSpace name) listener] /\
  forall t, t <> event_type (E := E) -> listeners_of d' t = listeners_of d t.
Proof.
  unfold Listen, with_receiver. destruct (String.eqb _ ""); [done|]. destruct (existsb _ _); [done|]. intros [= <-].
  unfold listeners_of. cbn [listeners]. rewrite lookup_insert_eq. split; [done|]. intros t Ht. by rewrite lookup_insert_ne.
Qed.
End Events.
