(* ===== verification/SemanticVersion.v ===== *)
(** * Semantic versions: [backend/cmd/bridra/semantic_version.go]

    The strict pattern is read from left to right: three runs of digits with
    dots between them, then an optional pre-release after [-], then optional
    build metadata after [+].  A pre-release holds no [+], so it ends at the
    first one.  The theorems show that comparing is the precedence of semantic
    versions: a total order, with numeric identifiers compared by value. *)
From S2P Require Import Prelude GoStrings.
Open Scope Z_scope.
Open Scope go_scope.

Record semanticVersion := MkVersion {
  major : Z;
  minor : Z;
  patch : Z;
  prerelease : list string
}.

(** ** Parsing *)

Definition digit (c : ascii) : bool := in_range 48 57 c.
(** The class [[0-9A-Za-z-]]. *)
Definition identifier_char (c : ascii) : bool :=
  digit c || in_range 65 90 c || in_range 97 122 c || Ascii.eqb c "-".
(** [[0-9A-Za-z-]+(?:\.[0-9A-Za-z-]+)*]. *)
Definition identifiers (s : string) : bool :=
  forallb (fun i => negb (String.eqb i "") && string_forall identifier_char i) (split "." s).

(** The longest run of digits, and what follows it. *)
Fixpoint take_digits (s : string) : string * string :=
  match s with
  | EmptyString => (EmptyString, EmptyString)
  | String c r => if digit c then let '(ds, rest) := take_digits r in (String c ds, rest) else (EmptyString, s)
  end.
(** [[0-9]+]. *)
Definition number (s : string) : option (string * string) :=
  let '(ds, rest) := take_digits s in if String.eqb ds "" then None else Some (ds, rest).
(** [[0-9]+\.]. *)
Definition number_dot (s : string) : option (string * string) :=
  match number s with
  | Some (ds, String "." rest) => Some (ds, rest)
  | _ => None
  end.
Definition build (s : string) (found : bool) : bool := negb found || identifiers s.
(** What follows the numbers: the fourth group, empty if it does not match. *)
Definition suffix (s : string) : option string :=
  match s with
  | EmptyString => Some EmptyString
  | String "-" r =>
      let '(pre, meta, found) := cut "+" r in
      if identifiers pre && build meta found then Some pre else None
  | String "+" r => if identifiers r then Some EmptyString else None
  | _ => None
  end.
(** [strictSemanticVersionPattern.FindStringSubmatch(value)[1:]]. *)
Definition strictSemanticVersionPattern (value : string) : option (list string * string) :=
  match number_dot value with
  | Some (a, r) =>
      match number_dot r with
      | Some (b, r) =>
          match number r with
          | Some (c, r) => match suffix r with Some pre => Some ([a; b; c], pre) | None => None end
          | None => None
          end
      | None => None
      end
  | None => None
  end.

Definition numericIdentifier (value : string) : bool := negb (String.eqb value "") && string_forall digit value.
(** [len(s) > 1 && s[0] == '0']. *)
Definition leading_zero (s : string) : bool :=
  match s with String "0" (String _ _) => true | _ => false end.

(** The error of [strconv.Atoi] on digits: they exceed an [int]. *)
Definition atoi_range (s : string) : goerror :=
  ErrWrap ("strconv.Atoi: parsing " +:+ Quote s +:+ ": value out of range") [ErrNew "value out of range"].
Definition parse_component (component : string) : result Z :=
  if leading_zero component then Err (Errorf [T "numeric component "; T (Quote component); T " has a leading zero"])
  else match Atoi component with
       | Some parsed => Ok parsed
       | None => Err (Errorf [T "parse numeric component "; T (Quote component); T ": "; W (atoi_range component)])
       end.
Fixpoint parse_components (components : list string) : result (list Z) :=
  match components with
  | [] => Ok []
  | c :: cs => let* parsed := parse_component c in let* parts := parse_components cs in Ok (parsed :: parts)
  end.
Definition zero_led_identifier (identifier : string) : bool := numericIdentifier identifier && leading_zero identifier.
Definition parse_prerelease (group : string) : result (list string) :=
  if String.eqb group "" then Ok []
  else let prerelease := split "." group in
       match list_find (fun i => zero_led_identifier i = true) prerelease with
       | Some (_, identifier) =>
           Err (Errorf [T "numeric prerelease identifier "; T (Quote identifier); T " has a leading zero"])
       | None => Ok prerelease
       end.
Definition parseSemanticVersion (value : string) : result semanticVersion :=
  match strictSemanticVersionPattern value with
  | None => Err (Errorf [T "invalid semantic version "; T (Quote value)])
  | Some (components, group) =>
      let* parts := parse_components components in
      let* pre := parse_prerelease group in
      match parts with
      | [a; b; c] => Ok (MkVersion a b c pre)
      | _ => Panicked "runtime error: index out of range"
      end
  end.

(** ** Comparing *)

(** The loop over the identifiers both versions have, then the lengths. *)
Fixpoint compare_identifiers (ls rs : list string) : Z :=
  match ls, rs with
  | [], [] => 0
  | [], _ :: _ => -1
  | _ :: _, [] => 1
  | l :: ls, r :: rs =>
      if String.eqb l r then compare_identifiers ls rs
      else if numericIdentifier l && numericIdentifier r then
        if (string_length l <? string_length r) || ((string_length l =? string_length r) && string_lt l r) then -1 else 1
      else if numericIdentifier l then -1
      else if numericIdentifier r then 1
      else if string_lt l r then -1 else 1
  end.
Fixpoint compare_numbers (pairs : list (Z * Z)) : option Z :=
  match pairs with
  | [] => None
  | (l, r) :: pairs => if l <? r then Some (-1) else if r <? l then Some 1 else compare_numbers pairs
  end.
Definition compareSemanticVersions (left right : semanticVersion) : Z :=
  match compare_numbers [(major left, major right); (minor left, minor right); (patch left, patch right)] with
  | Some sign => sign
  | None =>
      match prerelease left, prerelease right with
      | [], [] => 0
      | [], _ => 1
      | _, [] => -1
      | l, r => compare_identifiers l r
      end
  end.

Definition versions_before (a b : semanticVersion) : Prop := compareSemanticVersions a b < 0.

(** ** The order of semantic versions

    A sign-valued comparison is an [ordering] when it is antisymmetric,
    transitive and zero on equal values only; orderings are closed under
    lexicographic pairs and lists and under injective keys, and
    [compareSemanticVersions] is built of these. *)

Class ordering {A} (c : A -> A -> Z) : Prop := {
  ordering_flip : forall x y, c y x = - c x y;
  ordering_trans : forall x y z, c x y <= 0 -> c y z <= 0 -> c x z <= 0;
  ordering_zero : forall x y, c x y = 0 <-> x = y
}.

Section Closure.
Context {A B : Type}.

Definition then_by (first second : Z) : Z := if first =? 0 then second else first.
Definition pair_by (c : A -> A -> Z) (d : B -> B -> Z) (p q : A * B) : Z := then_by (c p.1 q.1) (d p.2 q.2).
Fixpoint list_by (c : A -> A -> Z) (ls rs : list A) : Z :=
  match ls, rs with
  | [], [] => 0
  | [], _ :: _ => -1
  | _ :: _, [] => 1
  | l :: ls, r :: rs => then_by (c l r) (list_by c ls rs)
  end.
Definition key_by (f : B -> A) (c : A -> A -> Z) (x y : B) : Z := c (f x) (f y).

Lemma then_by_zero a b : then_by a b = 0 <-> a = 0 /\ b = 0.
Proof. unfold then_by. destruct (Z.eqb_spec a 0); lia. Qed.
Lemma then_by_flip a b : then_by (- a) (- b) = - then_by a b.
Proof. unfold then_by. destruct (Z.eqb_spec a 0), (Z.eqb_spec (- a) 0); lia. Qed.

Lemma ordering_refl (c : A -> A -> Z) `{!ordering c} x : c x x = 0.
Proof. by apply ordering_zero. Qed.
Lemma ordering_lt_le (c : A -> A -> Z) `{!ordering c} x y z : c x y < 0 -> c y z <= 0 -> c x z < 0.
Proof.
  intros H1 H2. pose proof (ordering_trans (c := c) x y z ltac:(lia) H2). destruct (Z.eq_dec (c x z) 0) as [E|]; [|lia].
  apply (ordering_zero (c := c)) in E. subst. pose proof (ordering_flip (c := c) z y). lia.
Qed.
Lemma ordering_le_lt (c : A -> A -> Z) `{!ordering c} x y z : c x y <= 0 -> c y z < 0 -> c x z < 0.
Proof.
  intros H1 H2. pose proof (ordering_trans (c := c) x y z H1 ltac:(lia)). destruct (Z.eq_dec (c x z) 0) as [E|]; [|lia].
  apply (ordering_zero (c := c)) in E. subst. pose proof (ordering_flip (c := c) z y). lia.
Qed.

#[export] Instance ordering_key (f : B -> A) (c : A -> A -> Z) `{!Inj (=) (=) f, !ordering c} : ordering (key_by f c).
Proof.
  constructor; unfold key_by; intros.
  - apply ordering_flip.
  - by eapply ordering_trans.
  - rewrite ordering_zero. split; [apply (inj f)|congruence].
Qed.
End Closure.

#[export] Instance ordering_pair {A B} (c : A -> A -> Z) (d : B -> B -> Z) `{!ordering c, !ordering d} : ordering (pair_by c d).
Proof.
  constructor.
  - intros [a b] [a' b']. unfold pair_by. cbn. by rewrite (ordering_flip (c := c) a a'), (ordering_flip (c := d) b b'), then_by_flip.
  - intros [a b] [a' b'] [a'' b'']. unfold pair_by, then_by. cbn. intros H1 H2.
    destruct (Z.eqb_spec (c a a') 0) as [E1|N1], (Z.eqb_spec (c a' a'') 0) as [E2|N2].
    + apply (ordering_zero (c := c)) in E1, E2. subst. rewrite ordering_refl by done. cbn. by eapply ordering_trans.
    + apply (ordering_zero (c := c)) in E1. subst. by destruct (Z.eqb_spec (c a' a'') 0).
    + apply (ordering_zero (c := c)) in E2. subst. by destruct (Z.eqb_spec (c a a'') 0).
    + pose proof (ordering_lt_le c a a' a'' ltac:(lia) ltac:(lia)). destruct (Z.eqb_spec (c a a'') 0); lia.
  - intros [a b] [a' b']. unfold pair_by. cbn. rewrite then_by_zero, !ordering_zero. split; [intros [-> ->]|intros [= -> ->]]; done.
Qed.

#[export] Instance ordering_list {A} (c : A -> A -> Z) `{!ordering c} : ordering (list_by c).
Proof.
  constructor.
  - induction x as [|a x IH]; intros [|b y]; cbn; try done. by rewrite (ordering_flip (c := c) a b), IH, then_by_flip.
  - induction x as [|a x IH]; intros [|a' y] [|a'' z]; cbn; try lia. intros H1 H2. unfold then_by in *.
    destruct (Z.eqb_spec (c a a') 0) as [E1|N1], (Z.eqb_spec (c a' a'') 0) as [E2|N2].
    + apply (ordering_zero (c := c)) in E1, E2. subst. rewrite ordering_refl by done. cbn. by eapply IH.
    + apply (ordering_zero (c := c)) in E1. subst. by destruct (Z.eqb_spec (c a' a'') 0).
    + apply (ordering_zero (c := c)) in E2. subst. by destruct (Z.eqb_spec (c a a'') 0).
    + pose proof (ordering_lt_le c a a' a'' ltac:(lia) ltac:(lia)). destruct (Z.eqb_spec (c a a'') 0); lia.
  - induction x as [|a x IH]; intros [|b y]; cbn; try done. rewrite then_by_zero, ordering_zero, IH.
    split; [intros [-> ->]|intros [= -> ->]]; done.
Qed.

(** ** Numbers and byte strings *)

Definition sign (c : comparison) : Z := match c with Lt => -1 | Eq => 0 | Gt => 1 end.
Definition number_by (a b : Z) : Z := sign (Z.compare a b).
Definition string_by (a b : string) : Z := sign (String.compare a b).

Lemma string_compare_refl s : String.compare s s = Eq.
Proof. pose proof (String.compare_antisym s s) as E. by destruct (String.compare s s). Qed.

#[export] Instance ordering_number : ordering number_by.
Proof.
  constructor; unfold number_by; intros.
  - rewrite (Z.compare_antisym x y). by destruct (Z.compare x y).
  - destruct (Z.compare_spec x y), (Z.compare_spec y z), (Z.compare_spec x z); cbn in *; lia.
  - destruct (Z.compare_spec x y); cbn; lia.
Qed.
#[export] Instance ordering_string : ordering string_by.
Proof.
  constructor; unfold string_by; intros.
  - rewrite (String.compare_antisym y x). by destruct (String.compare x y).
  - assert (forall a b, sign (String.compare a b) <= 0 <-> String.le a b) as R.
    { intros a b. unfold String.le, String.leb. destruct (String.compare a b); cbn; split; try done; lia. }
    rewrite R in *. by etrans.
  - split; [|intros ->; by rewrite string_compare_refl].
    destruct (String.compare x y) eqn:E; [|discriminate..]. by intros _; apply String.compare_eq_iff.
Qed.

(** ** [compareSemanticVersions] is an ordering *)

(** Identifiers in order: numeric ones first, shorter ones first, then by text. *)
Definition identifier_key (s : string) : Z * (Z * string) :=
  if numericIdentifier s then (0, (string_length s, s)) else (1, (0, s)).
Definition identifier_by : string -> string -> Z := key_by identifier_key (pair_by number_by (pair_by number_by string_by)).
(** A release comes after its pre-releases. *)
Definition version_key (v : semanticVersion) : Z * (Z * (Z * (Z * list string))) :=
  (major v, (minor v, (patch v, (match prerelease v with [] => 1 | _ => 0 end, prerelease v)))).
Definition version_by : semanticVersion -> semanticVersion -> Z :=
  key_by version_key
    (pair_by number_by (pair_by number_by (pair_by number_by (pair_by number_by (list_by identifier_by))))).

#[export] Instance identifier_key_inj : Inj (=) (=) identifier_key.
Proof. intros a b. unfold identifier_key. destruct (numericIdentifier a), (numericIdentifier b); congruence. Qed.
#[export] Instance version_key_inj : Inj (=) (=) version_key.
Proof. intros [] [] [=]. by subst. Qed.
#[export] Instance ordering_identifier : ordering identifier_by.
Proof. unfold identifier_by. apply _. Qed.
#[export] Instance ordering_version_by : ordering version_by.
Proof. unfold version_by. apply _. Qed.

Lemma string_by_lt a b : a <> b -> string_by a b = if string_lt a b then -1 else 1.
Proof.
  unfold string_by, string_lt, String.ltb. intros Hne. destruct (String.compare a b) eqn:E; try done.
  by apply String.compare_eq_iff in E.
Qed.
Lemma number_by_eq a b : a = b -> number_by a b = 0.
Proof. intros ->. by apply ordering_zero. Qed.
Lemma number_by_lt a b : a < b -> number_by a b = -1.
Proof. unfold number_by. by intros ->%Z.compare_lt_iff. Qed.
Lemma number_by_gt a b : b < a -> number_by a b = 1.
Proof. unfold number_by. by intros ->%Z.compare_gt_iff. Qed.

Lemma compare_identifiers_by ls rs : compare_identifiers ls rs = list_by identifier_by ls rs.
Proof.
  revert rs. induction ls as [|l ls IH]; intros [|r rs]; cbn [compare_identifiers list_by]; try done.
  destruct (String.eqb_spec l r) as [->|Hne]; [by rewrite ordering_refl, IH by apply _|].
  unfold identifier_by, key_by, identifier_key, pair_by.
  destruct (numericIdentifier l), (numericIdentifier r); cbn [andb fst snd].
  - rewrite (number_by_eq 0 0) by done. cbn [then_by Z.eqb].
    destruct (Z.ltb_spec (string_length l) (string_length r)); [by rewrite number_by_lt|].
    destruct (Z.eqb_spec (string_length l) (string_length r)) as [E|N]; cbn [orb andb].
    + rewrite number_by_eq by done. cbn [then_by Z.eqb]. rewrite string_by_lt by done. by destruct (string_lt l r).
    + by rewrite number_by_gt by lia.
  - by rewrite (number_by_lt 0 1).
  - by rewrite (number_by_gt 1 0).
  - rewrite !number_by_eq by done. cbn [then_by Z.eqb]. rewrite string_by_lt by done. by destruct (string_lt l r).
Qed.

Lemma compareSemanticVersions_by l r : compareSemanticVersions l r = version_by l r.
Proof.
  unfold compareSemanticVersions, version_by, key_by, pair_by. destruct l as [a b c p], r as [a' b' c' p'].
  cbn [compare_numbers version_key major minor patch prerelease fst snd].
  destruct (Z.ltb_spec a a'); [by rewrite number_by_lt|]. destruct (Z.ltb_spec a' a); [by rewrite (number_by_gt a)|].
  rewrite (number_by_eq a a') by lia.
  destruct (Z.ltb_spec b b'); [by rewrite (number_by_lt b)|]. destruct (Z.ltb_spec b' b); [by rewrite (number_by_gt b)|].
  rewrite (number_by_eq b b') by lia.
  destruct (Z.ltb_spec c c'); [by rewrite (number_by_lt c)|]. destruct (Z.ltb_spec c' c); [by rewrite (number_by_gt c)|].
  rewrite (number_by_eq c c') by lia.
  destruct p, p'; try done. by rewrite compare_identifiers_by.
Qed.

#[export] Instance ordering_compare : ordering compareSemanticVersions.
Proof.
  constructor; intros; rewrite !compareSemanticVersions_by in *.
  - apply ordering_flip.
  - by eapply ordering_trans.
  - apply ordering_zero.
Qed.

(** ** Precedence, as semantic versioning states it

    The numbers first, from left to right; a pre-release before its release;
    identifiers from left to right, a numeric one by its value and before any
    other, the others in ASCII order; a longer list after its prefix. *)
Fixpoint value_of (acc : Z) (s : string) : Z :=
  match s with EmptyString => acc | String c r => value_of (10 * acc + (byte_of c - 48)) r end.
Definition lexically (first second : comparison) : comparison := match first with Eq => second | c => c end.
Definition identifier_precedence (a b : string) : comparison :=
  match numericIdentifier a, numericIdentifier b with
  | true, true => Z.compare (value_of 0 a) (value_of 0 b)
  | true, false => Lt
  | false, true => Gt
  | false, false => String.compare a b
  end.
Fixpoint identifiers_precedence (a b : list string) : comparison :=
  match a, b with
  | [], [] => Eq
  | [], _ => Lt
  | _, [] => Gt
  | x :: a, y :: b => lexically (identifier_precedence x y) (identifiers_precedence a b)
  end.
Definition precedence (a b : semanticVersion) : comparison :=
  lexically (Z.compare (major a) (major b))
    (lexically (Z.compare (minor a) (minor b))
      (lexically (Z.compare (patch a) (patch b))
        match prerelease a, prerelease b with
        | [], [] => Eq
        | [], _ => Gt
        | _, [] => Lt
        | p, q => identifiers_precedence p q
        end)).

(** What the parser lets through: no numeric identifier starts with a zero, unless it is one digit. *)
Definition canonical (s : string) : Prop := zero_led_identifier s = false.
Definition canonical_version (v : semanticVersion) : Prop := Forall canonical (prerelease v).

Lemma digit_range c : digit c = true -> 0 <= byte_of c - 48 <= 9.
Proof. unfold digit, in_range. intros H. bool_prop. lia. Qed.

Lemma value_of_acc s acc : value_of acc s = acc * 10 ^ string_length s + value_of 0 s.
Proof.
  revert acc. induction s as [|c s IH]; intros acc; cbn [value_of string_length]; [lia|].
  rewrite IH, (IH (10 * 0 + _)). rewrite Z.pow_add_r by (pose proof (string_length_pos s); lia). ring.
Qed.
Lemma value_of_bounds s : string_forall digit s = true -> 0 <= value_of 0 s < 10 ^ string_length s.
Proof.
  induction s as [|c s IH]; cbn [value_of string_forall string_length]; [lia|]. intros H. bool_prop.
  specialize (IH ltac:(done)). pose proof (digit_range c ltac:(done)).
  rewrite value_of_acc, Z.pow_add_r by (pose proof (string_length_pos s); lia). nia.
Qed.
Lemma value_of_cons c s : value_of 0 (String c s) = (byte_of c - 48) * 10 ^ string_length s + value_of 0 s.
Proof. cbn [value_of]. rewrite value_of_acc. lia. Qed.

(** Of two runs of digits of one length the greater in text is the greater number. *)
Lemma same_length_values a b :
  string_forall digit a = true -> string_forall digit b = true -> string_length a = string_length b ->
  String.compare a b = Z.compare (value_of 0 a) (value_of 0 b).
Proof.
  revert b. induction a as [|c a IH]; intros [|d b] Ha Hb Hl; cbn [string_length] in Hl.
  - done.
  - pose proof (string_length_pos b). lia.
  - pose proof (string_length_pos a). lia.
  - cbn [string_forall] in Ha, Hb. bool_prop. assert (string_length a = string_length b) as El by lia.
    rewrite !value_of_cons, El. pose proof (value_of_bounds a ltac:(done)) as Ba. pose proof (value_of_bounds b ltac:(done)) as Bb.
    rewrite El in Ba. cbn [String.compare]. unfold Ascii.compare. unfold byte_of in *.
    rewrite <- N2Z.inj_compare. destruct (Z.compare_spec (Z.of_N (N_of_ascii c)) (Z.of_N (N_of_ascii d))) as [E|L|L].
    + rewrite IH by done. rewrite E. symmetry. apply Z.add_compare_mono_l.
    + symmetry. apply Z.compare_lt_iff. nia.
    + symmetry. apply Z.compare_gt_iff. nia.
Qed.

(** A canonical number is at least the power of ten of its length. *)
Lemma canonical_value s : numericIdentifier s = true -> canonical s -> 1 < string_length s ->
  10 ^ (string_length s - 1) <= value_of 0 s.
Proof.
  unfold numericIdentifier, canonical, zero_led_identifier. intros Hn Hc Hl. unfold numericIdentifier in Hc. rewrite Hn in Hc. cbn [andb] in Hc.
  destruct s as [|c [|d s]]; cbn [string_length] in Hl; try lia.
  apply andb_true_iff in Hn as [_ Hn]. change (string_forall digit (String c (String d s))) with (digit c && string_forall digit (String d s)) in Hn.
  apply andb_true_iff in Hn as [Hd Hs]. rewrite value_of_cons. pose proof (value_of_bounds _ Hs) as B.
  pose proof (digit_range c Hd). assert (byte_of c - 48 <> 0) as Hnz.
  { intros E. assert (c = "0"%char) as ->; [|done]. unfold byte_of in E.
    assert (N_of_ascii c = 48%N) as En by lia. by rewrite <- (ascii_N_embedding c), En. }
  change (string_length (String c (String d s)) - 1) with (1 + string_length (String d s) - 1).
  replace (1 + string_length (String d s) - 1) with (string_length (String d s)) by lia. nia.
Qed.

Lemma shorter_is_less a b : numericIdentifier a = true -> numericIdentifier b = true -> canonical b ->
  string_length a < string_length b -> value_of 0 a < value_of 0 b.
Proof.
  intros Ha Hb Cb Hl. assert (1 <= string_length a) as La.
  { destruct a; [done|]. cbn [string_length]. pose proof (string_length_pos a0). lia. }
  pose proof (canonical_value b Hb Cb ltac:(lia)) as Vb.
  unfold numericIdentifier in Ha. apply andb_true_iff in Ha as [_ Ha]. pose proof (value_of_bounds a Ha).
  pose proof (Z.pow_le_mono_r 10 (string_length a) (string_length b - 1) ltac:(lia) ltac:(lia)). lia.
Qed.

Lemma identifier_by_precedence a b : canonical a -> canonical b -> identifier_by a b = sign (identifier_precedence a b).
Proof.
  intros Ca Cb. unfold identifier_by, key_by, identifier_key, identifier_precedence, pair_by.
  destruct (numericIdentifier a) eqn:Na, (numericIdentifier b) eqn:Nb; cbn [fst snd]; try done.
  rewrite (number_by_eq 0 0) by done. cbn [then_by Z.eqb].
  destruct (Z.lt_trichotomy (string_length a) (string_length b)) as [L|[E|G]].
  - rewrite number_by_lt by done. apply shorter_is_less in L as L'; [|done..]. by rewrite (proj2 (Z.compare_lt_iff _ _) L').
  - rewrite number_by_eq by done. cbn [then_by Z.eqb]. unfold string_by.
    unfold numericIdentifier in Na, Nb. apply andb_true_iff in Na as [_ Na], Nb as [_ Nb].
    by rewrite same_length_values.
  - rewrite number_by_gt by done. apply shorter_is_less in G as G'; [|done..]. by rewrite (proj2 (Z.compare_gt_iff _ _) G').
Qed.

Lemma sign_lexically c d : sign (lexically c d) = then_by (sign c) (sign d).
Proof. by destruct c. Qed.
Lemma identifiers_by_precedence a b : Forall canonical a -> Forall canonical b ->
  list_by identifier_by a b = sign (identifiers_precedence a b).
Proof.
  intros Ha. revert b. induction Ha as [|x a Hx Ha IH]; intros b [|y b' Hy Hb]; cbn [list_by identifiers_precedence]; try done.
  by rewrite identifier_by_precedence, IH, sign_lexically.
Qed.
Lemma version_by_precedence a b : canonical_version a -> canonical_version b -> version_by a b = sign (precedence a b).
Proof.
  intros Ha Hb. unfold version_by, key_by, version_key, pair_by, precedence. cbn [fst snd]. rewrite !sign_lexically.
  unfold number_by at 1 2 3. do 3 f_equal. unfold canonical_version in *.
  destruct (prerelease a) eqn:Ea, (prerelease b) eqn:Eb; try done. rewrite number_by_eq by done. cbn [then_by Z.eqb].
  by apply identifiers_by_precedence.
Qed.

(** What the parser returns: numbers of an [int] that are not negative, and canonical identifiers. *)
Lemma parse_prerelease_canonical group l : parse_prerelease group = Ok l -> Forall canonical l.
Proof.
  unfold parse_prerelease. destruct (String.eqb group ""); [intros [= <-]; by constructor|].
  destruct (list_find _ _) as [[]|] eqn:E; [done|]. intros [= <-].
  apply list_find_None in E. eapply Forall_impl; [done|]. cbn. intros i Hi. unfold canonical. by destruct (zero_led_identifier i).
Qed.
Lemma parse_canonical value v : parseSemanticVersion value = Ok v -> canonical_version v.
Proof.
  unfold parseSemanticVersion. intros H. destruct (strictSemanticVersionPattern value) as [[components group]|]; [|done].
  destruct (parse_components components) as [parts|e|m]; cbn in H; try done.
  destruct (parse_prerelease group) as [pre|e|m] eqn:E; cbn in H; try done.
  destruct parts as [|a [|b [|c [|]]]]; try done. injection H as <-. by eapply parse_prerelease_canonical.
Qed.

(** Comparing two parsed versions is the precedence of semantic
    versioning: the numbers, then a pre-release before its release, then the
    identifiers, numeric ones by value; on all versions it is a total order
    that holds different versions apart, build metadata aside. *)
Theorem compare_is_precedence va vb a b c :
  parseSemanticVersion va = Ok a -> parseSemanticVersion vb = Ok b ->
  compareSemanticVersions a b = sign (precedence a b) /\
  (compareSemanticVersions a b = 0 <-> a = b) /\
  compareSemanticVersions b a = - compareSemanticVersions a b /\
  (compareSemanticVersions a b <= 0 -> compareSemanticVersions b c <= 0 -> compareSemanticVersions a c <= 0).
Proof.
  intros Ha%parse_canonical Hb%parse_canonical. repeat split.
  - rewrite compareSemanticVersions_by. by apply version_by_precedence.
  - apply ordering_zero.
  - apply ordering_zero.
  - apply ordering_flip.
  - apply ordering_trans.
Qed.
Lemma compare_is_precedence_witness :
  exists a b, parseSemanticVersion "1.0.0-rc.9+linux" = Ok a /\ parseSemanticVersion "1.0.0-rc.10" = Ok b /\
    precedence a b = Lt /\ compareSemanticVersions a b = -1.
Proof.
  eexists _, _. split; [reflexivity|]. split; [reflexivity|]. split; [vm_compute; reflexivity|].
  refine (eq_trans (proj1 (compare_is_precedence "1.0.0-rc.9+linux" "1.0.0-rc.10" _ _ (MkVersion 0 0 0 []) _ _)) _); reflexivity.
Defined.
