(* ===== verification/Project.v ===== *)
(** * Project metadata: [backend/internal/projectplatform/platform.go],
    [backend/cmd/bridra/project.go] and [rpc_contract.go]

    What the command line reads and checks before it plans an upgrade: the
    platforms a project selects, its metadata, and the protocol versions its
    generated files declare.  What is decoded from a file, or found in one, is
    an argument. *)
From S2P Require Import Prelude GoStrings SemanticVersion.
Open Scope Z_scope.
Open Scope go_scope.

(** [strings.ToLower], as far as the result is ASCII: besides [A-Z], the two
    runes U+0130 and U+212A have ASCII lower cases; every other non-ASCII rune
    stays non-ASCII and is kept as it is. *)
Fixpoint to_lower (s : string) : string :=
  match s with
  | EmptyString => EmptyString
  | String c r =>
      let lower := if in_range 65 90 c then chr (byte_of c + 32) else c in
      match r with
      | String d r' =>
          if (byte_of c =? 196) && (byte_of d =? 176) then String "i" (to_lower r')
          else match r' with
               | String e r'' =>
                   if (byte_of c =? 226) && (byte_of d =? 132) && (byte_of e =? 170) then String "k" (to_lower r'')
                   else String lower (to_lower r)
               | EmptyString => String lower (to_lower r)
               end
      | EmptyString => String lower EmptyString
      end
  end.

(** ** Platforms *)

Definition Android := "android".
Definition IOS := "ios".
Definition Linux := "linux".
Definition MacOS := "macos".
Definition Windows := "windows".
Definition Web := "web".
Definition All : list string := [Android; IOS; Linux; MacOS; Windows; Web].

Definition Contains (platforms : list string) (target : string) : bool := existsb (fun p => String.eqb p target) platforms.
Fixpoint select (selected : gset string) (values : list string) : result (gset string) :=
  match values with
  | [] => Ok selected
  | value :: values =>
      let value := TrimSpace (to_lower value) in
      if negb (Contains All value) then
        Err (Errorf [T "unsupported platform "; T (Quote value); T "; expected android, ios, linux, macos, windows, or web"])
      else if bool_decide (value ∈ selected) then Err (Errorf [T "duplicate platform "; T (Quote value)])
      else select ({[value]} ∪ selected) values
  end.
Definition Normalize (values : list string) : result (list string) :=
  if values is [] then Err (ErrWrap "platform selection must not be empty" [])
  else let* selected := select ∅ values in Ok (filter (fun platform => platform ∈ selected) All).
Definition CloneAll : list string := All.
Definition Resolve (selection : string) : result (list string) :=
  let selection := TrimSpace (to_lower selection) in
  if String.eqb selection "" || String.eqb selection "all" then Ok CloneAll
  else if String.eqb selection "desktop" then Ok [Linux; MacOS; Windows]
  else if String.eqb selection "mobile" then Ok [Android; IOS]
  else Normalize (split "," selection).

(** ** Metadata *)

Definition ProjectMetadataVersion : Z := 3.
Definition WebProjectMetadataVersion : Z := 4.
Definition errProjectInvalid := ErrNew "invalid Bridra project".

Record projectUI := MkProjectUI { ui_Mode : string; ui_Preset : string; ui_Dist : string }.
Record projectMetadata := MkMetadata {
  UI : option projectUI;
  SchemaVersion : Z;
  ProjectName : string;
  GoModule : string;
  FrameworkModule : string;
  FrameworkVersion : string;
  TemplateVersion : Z;
  ProtocolVersion : Z;
  Platforms : list string
}.
Definition with_platforms (platforms : list string) (m : projectMetadata) : projectMetadata :=
  MkMetadata (UI m) (SchemaVersion m) (ProjectName m) (GoModule m) (FrameworkModule m) (FrameworkVersion m)
    (TemplateVersion m) (ProtocolVersion m) platforms.

Definition isWebUI (m : projectMetadata) : bool :=
  (SchemaVersion m =? WebProjectMetadataVersion) &&
  match UI m with Some ui => String.eqb (ui_Mode ui) "web" | None => false end.
Definition validateWebPlatforms (platforms : list string) : option goerror :=
  if Contains platforms IOS || Contains platforms Android
  then Some (ErrNew "mobile targets require --ui flutter") else None.

Definition invalid_project (parts : list fmt_part) : goerror := Errorf (W errProjectInvalid :: T ": " :: parts).
Definition is_empty {A} (l : list A) : bool := if l is [] then true else false.
Definition blank (s : string) : bool := String.eqb (TrimSpace s) "".

(** The version, and the fields each version of the metadata may have. *)
Definition check_schema_version (m : projectMetadata) : result unit :=
  if negb (existsb (Z.eqb (SchemaVersion m)) [1; 2; ProjectMetadataVersion; WebProjectMetadataVersion]) then
    Err (invalid_project [T "unsupported project metadata version "; T (Itoa (SchemaVersion m))])
  else if (SchemaVersion m =? 1) &&
          (negb (String.eqb (FrameworkVersion m) "") || negb (TemplateVersion m =? 0) ||
           negb (ProtocolVersion m =? 0) || negb (is_empty (Platforms m))) then
    Err (invalid_project [T "project metadata version 1 cannot declare version contract fields"])
  else if (SchemaVersion m =? 2) && negb (is_empty (Platforms m)) then
    Err (invalid_project [T "project metadata version 2 cannot declare platforms"])
  else Ok tt.
Definition check_contract_versions (m : projectMetadata) : result unit :=
  if 2 <=? SchemaVersion m then
    match parseSemanticVersion (FrameworkVersion m) with
    | Err err => Err (invalid_project [T "frameworkVersion must be a semantic version: "; T (error_text err)])
    | Panicked p => Panicked p
    | Ok _ =>
        if (TemplateVersion m <? 1) || (ProtocolVersion m <? 1) then
          Err (invalid_project [T "templateVersion and protocolVersion must be positive"])
        else Ok tt
    end
  else Ok tt.
Definition check_ui (m : projectMetadata) : result unit :=
  if SchemaVersion m =? WebProjectMetadataVersion then
    if negb (isWebUI m) ||
       match UI m with
       | Some ui => (negb (String.eqb (ui_Preset ui) "vue") && negb (String.eqb (ui_Preset ui) "react")) ||
                    negb (String.eqb (ui_Dist ui) "frontend/dist")
       | None => true
       end
    then Err (invalid_project [T "metadata v4 requires ui.mode web, preset vue or react, and dist frontend/dist"])
    else Ok tt
  else match UI m with
       | Some _ => Err (invalid_project [T "ui requires project metadata version 4"])
       | None => Ok tt
       end.
Definition metadata_platforms (m : projectMetadata) : result (list string) :=
  if SchemaVersion m <=? 2 then Ok CloneAll
  else match Normalize (Platforms m) with
       | Err err => Err (invalid_project [T "platforms: "; T (error_text err)])
       | Panicked p => Panicked p
       | Ok platforms =>
           match (if isWebUI m then validateWebPlatforms platforms else None) with
           | Some err => Err (invalid_project [T "platforms: "; T (error_text err)])
           | None => Ok platforms
           end
       end.
(** [decoded]: what the decoder makes of the contents; [single]: nothing follows the object. *)
Definition decodeProjectMetadata (decoded : result projectMetadata) (single : bool) : result projectMetadata :=
  match decoded with
  | Err err => Err (invalid_project [T "decode project metadata: "; W err])
  | Panicked p => Panicked p
  | Ok m =>
      if negb single then Err (invalid_project [T "project metadata must contain one JSON object"])
      else
        let* _ := check_schema_version m in
        let* _ := check_contract_versions m in
        let* _ := check_ui m in
        let* platforms := metadata_platforms m in
        if blank (ProjectName m) || blank (GoModule m) || blank (FrameworkModule m) then
          Err (invalid_project [T "projectName, goModule, and frameworkModule are required"])
        else Ok (with_platforms platforms m)
  end.

(** [os.Stat] of [backend/app]: whether it is a directory. *)
Definition validateProjectLayout (backend : result bool) : option goerror :=
  match backend with
  | Ok true => None
  | Ok false => Some (invalid_project [T "backend/app is not a directory"])
  | Err err => Some (invalid_project [T "backend/app is unavailable: "; W err])
  | Panicked _ => None
  end.
Definition and_layout (backend : result bool) (m : projectMetadata) : result projectMetadata :=
  match validateProjectLayout backend with Some err => Err err | None => Ok m end.
(** [contents]: reading the metadata file failed, with whether the file is missing, or what decoding finds. *)
Definition loadProjectMetadata (path : string) (contents : (bool * goerror) + (result projectMetadata * bool)) (backend : result bool)
    : result projectMetadata :=
  match contents with
  | inl (true, err) => Err (invalid_project [T path; T " is missing; run inside a Bridra project: "; W err])
  | inl (false, err) => Err (invalid_project [T "read Bridra project metadata: "; W err])
  | inr (decoded, single) => let* m := decodeProjectMetadata decoded single in and_layout backend m
  end.

(** ** The protocol versions of the generated files *)

(** [matches]: the groups [FindAllSubmatch] finds in the contents. *)
Definition loadGeneratedProtocolVersion (language : string) (matches : result (list string)) : result Z :=
  match matches with
  | Err err => Err (Errorf [T "read generated "; T language; T " protocol: "; W err])
  | Panicked p => Panicked p
  | Ok [group] =>
      match Atoi group with
      | Some version => Ok version
      | None => Err (Errorf [T "parse generated "; T language; T " protocol: "; W (atoi_range group)])
      end
  | Ok _ => Err (Errorf [T "generated "; T language; T " contract must contain exactly one protocol version"])
  end.
(** [schema]: the protocol version of the schema that is loaded; the client is the Web's or Dart's. *)
Definition verifyApplicationRPCContract (schema : result Z) (go_matches dart_matches web_matches : result (list string))
    (m : projectMetadata) : option goerror :=
  let language := if isWebUI m then "TypeScript" else "Dart" in
  match schema, loadGeneratedProtocolVersion "Go" go_matches,
        loadGeneratedProtocolVersion language (if isWebUI m then web_matches else dart_matches) with
  | Err err, _, _ => Some err
  | Ok _, Err err, _ => Some err
  | Ok _, Ok _, Err err => Some err
  | Ok s, Ok g, Ok c =>
      if negb (ProtocolVersion m =? s) || negb (ProtocolVersion m =? g) || negb (ProtocolVersion m =? c) then
        Some (Errorf [T "protocol versions disagree: metadata "; T (Itoa (ProtocolVersion m)); T ", schema "; T (Itoa s);
                      T ", Go "; T (Itoa g); T ", "; T language; T " "; T (Itoa c)])
      else None
  | _, _, _ => None
  end.
