(* ===== verification/Upgrade.v ===== *)
(** * Planning an upgrade: [backend/cmd/bridra/upgrade_catalog.go],
    [upgrade_requirements.go] and [upgrade.go]

    A catalog holds the releases a CLI knows and the migrations between them.
    A path of migrations is searched breadth first and read back from the
    predecessors the search leaves.  Both loops run on fuel, [None] being a
    loop that has not ended; the theorems show that it ends. *)
From S2P Require Import Prelude GoStrings SemanticVersion Project.
Open Scope Z_scope.
Open Scope go_scope.

Record upgradeRelease := MkRelease {
  rel_FrameworkVersion : string;
  rel_ProjectMetadataVersion : Z;
  rel_TemplateVersion : Z;
  rel_TemplateProtocolVersion : Z
}.
Record migrationRequirement := MkRequirement { req_Description : string; req_Platforms : list string }.
Record frameworkMigration := MkMigration {
  ID : string;
  From : string;
  To : string;
  Description : string;
  Automatic : bool;
  Requirements : list migrationRequirement
}.
Record upgradeCatalog := MkCatalog {
  cat_CLIVersion : string;
  cat_DefaultTarget : string;
  Releases : list upgradeRelease;
  Migrations : list frameworkMigration
}.
Record upgradeTarget := MkTarget {
  tgt_CLIVersion : string;
  tgt_ProjectMetadataVersion : Z;
  tgt_FrameworkVersion : string;
  tgt_TemplateVersion : Z;
  tgt_TemplateProtocolVersion : Z
}.

(** [releaseinfo.Current] as far as the catalog uses it. *)
Record release_metadata := MkReleaseMetadata {
  info_CLIVersion : string;
  info_FrameworkVersion : string;
  info_TemplateVersion : Z;
  info_ProtocolVersion : Z
}.
Definition currentUpgradeCatalog (registered : list upgradeRelease) (migrations : list frameworkMigration) (metadata : release_metadata)
    : upgradeCatalog :=
  let found := existsb (fun r => String.eqb (rel_FrameworkVersion r) (info_FrameworkVersion metadata)) registered in
  MkCatalog (info_CLIVersion metadata) (info_FrameworkVersion metadata)
    (registered ++ if found then [] else
       [MkRelease (info_FrameworkVersion metadata) ProjectMetadataVersion (info_TemplateVersion metadata) (info_ProtocolVersion metadata)])
    migrations.

Definition prefixed (prefix : string) (r : result semanticVersion) : result semanticVersion :=
  match r with Err err => Err (Errorf [T prefix; T ": "; W err]) | r => r end.
Definition find_release (version : string) (releases : list upgradeRelease) : option upgradeRelease :=
  find (fun r => String.eqb (rel_FrameworkVersion r) version) releases.
Definition target (catalog : upgradeCatalog) (version : string) : result upgradeTarget :=
  let* _ := prefixed "invalid target framework version" (parseSemanticVersion version) in
  match find_release version (Releases catalog) with
  | Some r => Ok (MkTarget (cat_CLIVersion catalog) (rel_ProjectMetadataVersion r) (rel_FrameworkVersion r)
                    (rel_TemplateVersion r) (rel_TemplateProtocolVersion r))
  | None => Err (Errorf [T "framework version "; T version; T " is not available in the installed Bridra CLI ";
                         T (cat_CLIVersion catalog); T " migration catalog"])
  end.

(** ** The graph of migrations *)

(** [v, _ := parseSemanticVersion(s)]: the zero version where parsing fails. *)
Definition version_of (s : string) : semanticVersion :=
  match parseSemanticVersion s with Ok v => v | _ => MkVersion 0 0 0 [] end.

Fixpoint known_releases (known : gset string) (releases : list upgradeRelease) : result (gset string) :=
  match releases with
  | [] => Ok known
  | r :: releases =>
      match parseSemanticVersion (rel_FrameworkVersion r) with
      | Ok _ => known_releases ({[rel_FrameworkVersion r]} ∪ known) releases
      | Err err => Err (Errorf [T "invalid migration catalog release "; T (Quote (rel_FrameworkVersion r)); T ": "; W err])
      | Panicked p => Panicked p
      end
  end.

Fixpoint normalized_requirements (id : string) (requirements : list migrationRequirement) : result (list migrationRequirement) :=
  match requirements with
  | [] => Ok []
  | r :: requirements =>
      if String.eqb (req_Description r) "" then Err (Errorf [T "migration "; T id; T " has an empty requirement"])
      else
        let* platforms :=
          if is_empty (req_Platforms r) then Ok (req_Platforms r)
          else match Normalize (req_Platforms r) with
               | Err err => Err (Errorf [T "migration "; T id; T ": "; W err])
               | normalized => normalized
               end in
        let* rest := normalized_requirements id requirements in
        Ok (MkRequirement (req_Description r) platforms :: rest)
  end.
Definition with_requirements (requirements : list migrationRequirement) (m : frameworkMigration) : frameworkMigration :=
  MkMigration (ID m) (From m) (To m) (Description m) (Automatic m) requirements.

(** A catalog entry as the search uses it. *)
Definition checked_migration (releases : gset string) (m : frameworkMigration) : result frameworkMigration :=
  if String.eqb (ID m) "" || String.eqb (Description m) "" then
    Err (ErrWrap "migration catalog entries require an ID and description" [])
  else
    let* requirements := normalized_requirements (ID m) (Requirements m) in
    if negb (bool_decide (From m ∈ releases)) then
      Err (Errorf [T "migration "; T (ID m); T " references unknown source release "; T (From m)])
    else if negb (bool_decide (To m ∈ releases)) then
      Err (Errorf [T "migration "; T (ID m); T " references unknown target release "; T (To m)])
    else if 0 <=? compareSemanticVersions (version_of (From m)) (version_of (To m)) then
      Err (Errorf [T "migration "; T (ID m); T " must move forward from "; T (From m); T " to "; T (To m)])
    else Ok (with_requirements requirements m).

(** [edges]: the checked migrations by the release they start from. *)
Abbreviation graph := (gmap string (list frameworkMigration)).
Definition edges_from (edges : graph) (release : string) : list frameworkMigration := default [] (edges !! release).
Fixpoint add_edges (releases : gset string) (edges : graph) (migrations : list frameworkMigration) : result graph :=
  match migrations with
  | [] => Ok edges
  | m :: migrations =>
      let* m := checked_migration releases m in
      add_edges releases (<[From m := edges_from edges (From m) ++ [m]]> edges) migrations
  end.

(** The order of [sort.Slice]: by target, then by ID. *)
Definition edge_before (a b : frameworkMigration) : Prop :=
  let c := compareSemanticVersions (version_of (To a)) (version_of (To b)) in c < 0 \/ (c = 0 /\ String.le (ID a) (ID b)).
#[export] Instance edge_before_dec : RelDecision edge_before.
Proof. intros a b. unfold edge_before. apply _. Defined.
Definition sorted_edges (edges : graph) : graph := merge_sort edge_before <$> edges.

(** ** Breadth-first search *)

(** [migrationPredecessor]: the release before, and the migration from it. *)
Abbreviation predecessors := (gmap string (string * frameworkMigration)).
Record search := MkSearch { queue : list string; visited : gset string; previous : predecessors }.

(** The inner loop: over the edges of [current], ended by the target. *)
Fixpoint expand (toVersion : semanticVersion) (to current : string) (edges : list frameworkMigration) (s : search)
    : search + predecessors :=
  match edges with
  | [] => inl s
  | m :: edges =>
      if (0 <? compareSemanticVersions (version_of (To m)) toVersion) || bool_decide (To m ∈ visited s)
      then expand toVersion to current edges s
      else
        let previous := <[To m := (current, m)]> (previous s) in
        if String.eqb (To m) to then inr previous
        else expand toVersion to current edges (MkSearch (queue s ++ [To m]) ({[To m]} ∪ visited s) previous)
  end.
(** The outer loop: [Some None] when the queue is empty. *)
Fixpoint bfs (fuel : nat) (edges : graph) (toVersion : semanticVersion) (to : string) (s : search)
    : option (option predecessors) :=
  match fuel with
  | O => None
  | S fuel =>
      match queue s with
      | [] => Some None
      | current :: rest =>
          match expand toVersion to current (edges_from edges current) (MkSearch rest (visited s) (previous s)) with
          | inr previous => Some (Some previous)
          | inl s => bfs fuel edges toVersion to s
          end
      end
  end.

Definition no_migration : string * frameworkMigration := ("", MkMigration "" "" "" "" false []).
(** The migrations from [from] to [current], before those already read. *)
Fixpoint reconstructMigrationPath (fuel : nat) (from current : string) (previous : predecessors) (path : list frameworkMigration)
    : option (list frameworkMigration) :=
  if String.eqb current from then Some path
  else match fuel with
       | O => None
       | S fuel =>
           let '(version, migration) := default no_migration (previous !! current) in
           reconstructMigrationPath fuel from version previous (migration :: path)
       end.

(** A computation of results that may not end. *)
Definition outcome (A : Type) : Type := option (result A).
Definition outcome_bind {A B} (o : outcome A) (k : A -> outcome B) : outcome B :=
  match o with
  | None => None
  | Some (Ok a) => k a
  | Some (Err e) => Some (Err e)
  | Some (Panicked m) => Some (Panicked m)
  end.
Notation "'let!' x ':=' o 'in' k" := (outcome_bind o (fun x => k))
  (at level 10, x pattern, o at level 100, k at level 200) : go_scope.

(** The search in a graph, for releases that are both known. *)
Definition search_path (releases : gset string) (edges : graph) (toVersion : semanticVersion) (from to : string)
    : outcome (list frameworkMigration * bool) :=
  match bfs (S (size releases)) edges toVersion to (MkSearch [from] {[from]} ∅) with
  | None => None
  | Some None => Some (Ok ([], false))
  | Some (Some previous) =>
      match reconstructMigrationPath (S (size previous)) from to previous [] with
      | None => None
      | Some path => Some (Ok (path, true))
      end
  end.
Definition migrationPath (catalog : upgradeCatalog) (from to : string) : outcome (list frameworkMigration * bool) :=
  let! fromVersion := Some (prefixed "invalid source framework version" (parseSemanticVersion from)) in
  let! toVersion := Some (prefixed "invalid target framework version" (parseSemanticVersion to)) in
  let comparison := compareSemanticVersions fromVersion toVersion in
  if comparison =? 0 then Some (Ok ([], true))
  else if 0 <? comparison then Some (Ok ([], false))
  else
    let! releases := Some (known_releases ∅ (Releases catalog)) in
    if negb (bool_decide (from ∈ releases)) then Some (Ok ([], false))
    else if negb (bool_decide (to ∈ releases)) then Some (Ok ([], false))
    else
      let! edges := Some (add_edges releases ∅ (Migrations catalog)) in
      search_path releases (sorted_edges edges) toVersion from to.

(** ** Reports *)

Definition upgradeReportSchemaVersion : Z := 5.
Definition errUpgradeRequired := ErrNew "upgrade migration required".
Definition errUpgradeUnsupported := ErrNew "upgrade state is unsupported".
Definition errUpgradeApply := ErrNew "upgrade apply failed".

Inductive upgradeStatus := upgradeCurrent | upgradeMigrationRequired | upgradeUnsupported | upgradeApplied | upgradeApplyFailed.
#[export] Instance upgradeStatus_eq_dec : EqDecision upgradeStatus.
Proof. solve_decision. Defined.

Record upgradeProject := MkProject {
  proj_Name : string;
  proj_ProjectMetadataVersion : Z;
  proj_FrameworkVersion : string;
  proj_TemplateVersion : Z;
  proj_ProtocolVersion : Z;
  proj_Platforms : list string
}.
Record upgradeDiagnostic := MkDiagnostic { diag_Level : string; diag_Code : string; diag_Message : string; diag_Action : string }.
Record upgradePlanStep := MkStep {
  step_Order : Z;
  step_ID : string;
  step_Kind : string;
  step_From : string;
  step_To : string;
  step_Automatic : bool;
  step_Description : string
}.
Record upgradeReport := MkReport {
  rep_SchemaVersion : Z;
  rep_Mode : string;
  rep_Status : upgradeStatus;
  rep_ReadOnly : bool;
  rep_PlanAvailable : bool;
  rep_ApplyAvailable : bool;
  rep_Applied : bool;
  rep_RolledBack : bool;
  rep_MigrationRequired : bool;
  rep_Project : upgradeProject;
  rep_Target : upgradeTarget;
  rep_Steps : list upgradePlanStep;
  rep_Diagnostics : list upgradeDiagnostic
}.
(** A report with what planning changes of it. *)
Definition replan (status : upgradeStatus) (plan apply required : bool) (steps : list upgradePlanStep)
    (diagnostics : list upgradeDiagnostic) (r : upgradeReport) : upgradeReport :=
  MkReport (rep_SchemaVersion r) (rep_Mode r) status (rep_ReadOnly r) plan apply (rep_Applied r) (rep_RolledBack r)
    required (rep_Project r) (rep_Target r) steps diagnostics.

Definition requireMigration (diagnostic : upgradeDiagnostic) (r : upgradeReport) : upgradeReport :=
  replan (if decide (rep_Status r = upgradeUnsupported) then rep_Status r else upgradeMigrationRequired)
    (rep_PlanAvailable r) (rep_ApplyAvailable r) true (rep_Steps r) (rep_Diagnostics r ++ [diagnostic]) r.
Definition markUnsupported (diagnostic : upgradeDiagnostic) (r : upgradeReport) : upgradeReport :=
  replan upgradeUnsupported (rep_PlanAvailable r) (rep_ApplyAvailable r) (rep_MigrationRequired r) (rep_Steps r)
    (rep_Diagnostics r ++ [diagnostic]) r.
Definition add_diagnostic (diagnostic : upgradeDiagnostic) (r : upgradeReport) : upgradeReport :=
  replan (rep_Status r) (rep_PlanAvailable r) (rep_ApplyAvailable r) (rep_MigrationRequired r) (rep_Steps r)
    (rep_Diagnostics r ++ [diagnostic]) r.
Definition set_steps (steps : list upgradePlanStep) (r : upgradeReport) : upgradeReport :=
  replan (rep_Status r) (rep_PlanAvailable r) (rep_ApplyAvailable r) (rep_MigrationRequired r) steps (rep_Diagnostics r) r.
(** [report.PlanAvailable = false]. *)
Definition no_plan (r : upgradeReport) : upgradeReport :=
  replan (rep_Status r) false (rep_ApplyAvailable r) (rep_MigrationRequired r) (rep_Steps r) (rep_Diagnostics r) r.
Definition with_order (order : nat) (s : upgradePlanStep) : upgradePlanStep :=
  MkStep (Z.of_nat order) (step_ID s) (step_Kind s) (step_From s) (step_To s) (step_Automatic s) (step_Description s).
Definition addStep (step : upgradePlanStep) (r : upgradeReport) : upgradeReport :=
  set_steps (rep_Steps r ++ [with_order (length (rep_Steps r) + 1) step]) r.
Definition finalize (r : upgradeReport) : upgradeReport :=
  replan (rep_Status r) (rep_PlanAvailable r)
    (bool_decide (rep_Status r = upgradeMigrationRequired) && rep_PlanAvailable r && negb (is_empty (rep_Steps r)) &&
     forallb step_Automatic (rep_Steps r))
    (rep_MigrationRequired r) (rep_Steps r) (rep_Diagnostics r) r.

Definition olderVersionDiagnostic (code name project target action : string) : upgradeDiagnostic :=
  MkDiagnostic "migration" code
    ("Project " +:+ name +:+ " version " +:+ project +:+ " is older than CLI target " +:+ target +:+ ".") action.
Definition newerVersionDiagnostic (code name project target : string) : upgradeDiagnostic :=
  MkDiagnostic "unsupported" code
    ("Project " +:+ name +:+ " version " +:+ project +:+ " is newer than CLI target " +:+ target +:+ ".")
    "Install the CLI version recorded for this project; an older CLI cannot safely evaluate a newer contract.".

Definition compareIntegerContract (name : string) (projectVersion targetVersion : Z) (action kind : string) (r : upgradeReport)
    : upgradeReport :=
  let project := Itoa projectVersion in
  let target := Itoa targetVersion in
  if projectVersion <? targetVersion then
    let r := requireMigration (olderVersionDiagnostic (name +:+ "_upgrade_required") name project target action) r in
    if rep_PlanAvailable r then
      addStep (MkStep 0 (name +:+ "-" +:+ project +:+ "-to-" +:+ target) kind project target false action) r
    else r
  else if targetVersion <? projectVersion then
    markUnsupported (newerVersionDiagnostic (name +:+ "_newer_than_cli") name project target) (no_plan r)
  else r.

(** ** Requirements *)

Definition applicable (platforms : list string) (r : migrationRequirement) : bool :=
  is_empty (req_Platforms r) || existsb (Contains (req_Platforms r)) platforms.
Definition update_together := "Update the Go and Flutter framework dependencies together.".
Definition migrationForPlatforms (m : frameworkMigration) (platforms : list string) : bool * string :=
  if is_empty (Requirements m) then (Automatic m, Description m)
  else
    let descriptions := update_together :: (req_Description <$> List.filter (applicable platforms) (Requirements m)) in
    (Nat.eqb (length descriptions) 1, join " " descriptions).

(** The newest release with the project's template, not above its framework. *)
Fixpoint adoption_source (templateVersion : Z) (projectVersion : semanticVersion) (source : string) (releases : list upgradeRelease)
    : result string :=
  match releases with
  | [] => Ok source
  | r :: releases =>
      let* version := parseSemanticVersion (rel_FrameworkVersion r) in
      if negb (rel_TemplateVersion r =? templateVersion) || (0 <? compareSemanticVersions version projectVersion)
      then adoption_source templateVersion projectVersion source releases
      else if String.eqb source "" || (0 <? compareSemanticVersions version (version_of source))
      then adoption_source templateVersion projectVersion (rel_FrameworkVersion r) releases
      else adoption_source templateVersion projectVersion source releases
  end.
Definition template_of (releases : list upgradeRelease) (version : string) : Z :=
  match find_release version releases with Some r => rel_TemplateVersion r | None => 0 end.
(** A migration of the path that the project has to adopt by hand. *)
Definition manual_adoption (releases : list upgradeRelease) (metadata : projectMetadata) (m : frameworkMigration) : bool :=
  negb (template_of releases (To m) <=? TemplateVersion metadata) && negb (migrationForPlatforms m (Platforms metadata)).1.
Definition adoption_step (metadata : projectMetadata) (m : frameworkMigration) : upgradePlanStep :=
  MkStep 0 (ID m) "project_template" (From m) (To m) false (migrationForPlatforms m (Platforms metadata)).2.
Definition missing_adoptions (metadata : projectMetadata) (steps : list upgradePlanStep) (required : list frameworkMigration)
    : list upgradePlanStep :=
  adoption_step metadata <$> List.filter (fun m => negb (existsb (fun s => String.eqb (step_ID s) (ID m)) steps)) required.

Definition adopt_template (releases : list upgradeRelease) (metadata : projectMetadata) (path : list frameworkMigration) (r : upgradeReport)
    : upgradeReport :=
  let required := List.filter (manual_adoption releases metadata) path in
  let r := set_steps (imap (fun i => with_order (i + 1)) (missing_adoptions metadata (rep_Steps r) required ++ rep_Steps r)) r in
  if negb (is_empty required) then
    requireMigration (MkDiagnostic "migration" "template_adoption_required"
      "Registered application changes still require adoption for the selected platforms."
      "Complete and verify the applicable manual steps, then explicitly record the adopted template baseline. Dependencies alone do not prove adoption.") r
  else
    add_diagnostic (MkDiagnostic "notice" "template_update_available"
      "A newer starter template is available; its registered changes require no manual adoption for this project's selected platforms."
      "Review optional starter improvements as needed. Application-owned files and the recorded template baseline remain unchanged.") r.
Definition adoption_path_error (o : outcome (list frameworkMigration * bool)) : outcome (list frameworkMigration * bool) :=
  match o with Some (Err err) => Some (Err (Errorf [T "resolve template adoption: "; W err])) | o => o end.
Definition planTemplateAdoption (metadata : projectMetadata) (tgt : upgradeTarget) (catalog : upgradeCatalog) (r : upgradeReport)
    : outcome upgradeReport :=
  let compare := compareIntegerContract "template" (TemplateVersion metadata) (tgt_TemplateVersion tgt) in
  if tgt_TemplateVersion tgt <=? TemplateVersion metadata then
    Some (Ok (compare "Review the application-owned template changes." "project_template" r))
  else if negb (rep_PlanAvailable r) then Some (Ok r)
  else
    let! source := Some (adoption_source (TemplateVersion metadata) (version_of (FrameworkVersion metadata)) "" (Releases catalog)) in
    let! (path, available) :=
      if String.eqb source "" then Some (Ok ([], false))
      else adoption_path_error (migrationPath catalog source (tgt_FrameworkVersion tgt)) in
    if negb available then
      Some (Ok (compare "No classified template adoption path is available; review docs/UPGRADING.md manually." "project_template" r))
    else Some (Ok (adopt_template (Releases catalog) metadata path r)).

(** ** The plan *)

Definition new_report (metadata : projectMetadata) (tgt : upgradeTarget) : upgradeReport :=
  MkReport upgradeReportSchemaVersion "plan" upgradeCurrent true true false false false false
    (MkProject (ProjectName metadata) (SchemaVersion metadata) (FrameworkVersion metadata) (TemplateVersion metadata)
       (ProtocolVersion metadata) (Platforms metadata))
    tgt [] [].
Definition framework_step (platforms : list string) (m : frameworkMigration) : upgradePlanStep :=
  let '(automatic, description) := migrationForPlatforms m platforms in
  MkStep 0 (ID m) "framework" (From m) (To m) automatic description.
Definition add_framework_steps (platforms : list string) (path : list frameworkMigration) (r : upgradeReport) : upgradeReport :=
  fold_left (fun r m => addStep (framework_step platforms m) r) path r.

Definition legacy_plan (tgt : upgradeTarget) (r : upgradeReport) : upgradeReport :=
  let schema := Itoa (tgt_ProjectMetadataVersion tgt) in
  let contract := "framework " +:+ tgt_FrameworkVersion tgt +:+ ", template " +:+ Itoa (tgt_TemplateVersion tgt) in
  let protocol := Itoa (tgt_TemplateProtocolVersion tgt) in
  addStep (MkStep 0 ("project-metadata-1-to-" +:+ schema) "project_metadata" "1" schema false
    ("Inspect the installed Go and Flutter dependencies, then record " +:+ contract +:+ ", and protocol " +:+ protocol +:+
     " in .bridra/project.json."))
  (requireMigration (MkDiagnostic "migration" "legacy_project_metadata"
    "Project metadata v1 predates explicit framework, template, and protocol versions."
    ("After updating dependencies, migrate .bridra/project.json to schema " +:+ schema +:+ " and record " +:+ contract +:+
     ", protocol " +:+ protocol +:+ ".")) r).

(** The framework's part of the plan: a path, none, or a downgrade. *)
Definition plan_framework (metadata : projectMetadata) (tgt : upgradeTarget) (catalog : upgradeCatalog) (comparison : Z) (r : upgradeReport)
    : outcome upgradeReport :=
  let project := FrameworkVersion metadata in
  let wanted := tgt_FrameworkVersion tgt in
  if comparison <? 0 then
    match migrationPath catalog project wanted with
    | None => None
    | Some (Panicked p) => Some (Panicked p)
    | Some (Err err) => Some (Err (Errorf [T "resolve framework migration path: "; W err]))
    | Some (Ok (path, available)) =>
        if negb available then
          let r := no_plan r in
          Some (Ok (markUnsupported (MkDiagnostic "unsupported" "framework_migration_path_missing"
            ("No complete migration path is registered from framework " +:+ project +:+ " to " +:+ wanted +:+ ".")
            "Install a CLI containing every required migration or upgrade through a documented intermediate release.")
            (replan (rep_Status r) (rep_PlanAvailable r) (rep_ApplyAvailable r) true (rep_Steps r) (rep_Diagnostics r) r)))
        else
          Some (Ok (add_framework_steps (Platforms metadata) path
            (requireMigration (olderVersionDiagnostic "framework_upgrade_required" "framework" project wanted
              "Review every ordered migration step, then update the Go and Flutter framework dependencies together.") r)))
    end
  else if 0 <? comparison then
    Some (Ok (markUnsupported (MkDiagnostic "unsupported" "framework_downgrade_unsupported"
      ("Project framework version " +:+ project +:+ " is newer than requested target " +:+ wanted +:+ ".")
      "Choose the same or a newer target; Bridra upgrade plans never perform framework downgrades.") (no_plan r)))
  else Some (Ok r).

(** What the report says about protocol, and that it says something. *)
Definition plan_protocol (metadata : projectMetadata) (tgt : upgradeTarget) (r : upgradeReport) : upgradeReport :=
  let r := if ProtocolVersion metadata =? tgt_TemplateProtocolVersion tgt then r else
    add_diagnostic (MkDiagnostic "ok" "application_protocol_custom"
      ("Application RPC protocol " +:+ Itoa (ProtocolVersion metadata) +:+
       " is internally consistent; the target template baseline is " +:+ Itoa (tgt_TemplateProtocolVersion tgt) +:+
       " and does not constrain application-owned contracts.") "") r in
  if is_empty (rep_Diagnostics r) then
    add_diagnostic (MkDiagnostic "ok" "contract_current"
      "Project metadata matches the framework and template target, and the application RPC contract is internally consistent." "") r
  else r.

(** [contract]: what [verifyApplicationRPCContract] finds in the project. *)
Definition evaluateUpgrade (contract : option goerror) (metadata : projectMetadata) (tgt : upgradeTarget) (catalog : upgradeCatalog)
    : outcome upgradeReport :=
  let! targetVersion := Some (prefixed "invalid target framework version" (parseSemanticVersion (tgt_FrameworkVersion tgt))) in
  let r := new_report metadata tgt in
  if isWebUI metadata then
    Some (Ok (finalize (markUnsupported (MkDiagnostic "unsupported" "web_ui_upgrade_unavailable"
      "Automatic upgrades for Web UI projects are not available yet." "") (no_plan r))))
  else if tgt_ProjectMetadataVersion tgt <? SchemaVersion metadata then
    Some (Ok (finalize (markUnsupported (newerVersionDiagnostic "project_metadata_newer_than_cli" "metadata schema"
      (Itoa (SchemaVersion metadata)) (Itoa (tgt_ProjectMetadataVersion tgt))) (no_plan r))))
  else if SchemaVersion metadata =? 1 then Some (Ok (finalize (legacy_plan tgt r)))
  else match contract with
  | Some err =>
      Some (Ok (finalize (markUnsupported (MkDiagnostic "unsupported" "application_rpc_contract_inconsistent"
        ("Application RPC contract is inconsistent: " +:+ error_text err)
        "Regenerate the typed RPC contract, make metadata match schema/bridra.json, and run `make verify` before planning the framework upgrade again.")
        (no_plan r))))
  | None =>
      let! projectVersion := Some (prefixed "invalid project framework version" (parseSemanticVersion (FrameworkVersion metadata))) in
      let! r := plan_framework metadata tgt catalog (compareSemanticVersions projectVersion targetVersion) r in
      let! r := planTemplateAdoption metadata tgt catalog r in
      Some (Ok (finalize (plan_protocol metadata tgt r)))
  end.

(** The error the command ends with after a plan. *)
Definition upgradeReportError (r : upgradeReport) : option goerror :=
  match rep_Status r with
  | upgradeMigrationRequired => Some (errorf1 errUpgradeRequired "review and follow the reported upgrade plan")
  | upgradeUnsupported => Some (errorf1 errUpgradeUnsupported "install a compatible Bridra CLI or choose a target with a complete migration path")
  | _ => None
  end.
