(* ===== verification/UpgradeFacts.v ===== *)
(** * The search for a path of migrations

    The search is analysed with a ghost depth of every visited release: the
    queue holds releases in the order of their depth, a release that has left
    it has all its successors visited at most one deeper, and a predecessor is
    one less deep.  So the path read back is a chain of migrations, no chain is
    shorter, and an empty queue means that there is none. *)
From S2P Require Import Prelude GoStrings SemanticVersion Project Upgrade.
Open Scope Z_scope.
Open Scope go_scope.

(** Migrations that lead from one release to another, each allowed by [E]. *)
Fixpoint chain (E : frameworkMigration -> Prop) (u : string) (p : list frameworkMigration) (v : string) : Prop :=
  match p with
  | [] => u = v
  | m :: p => E m /\ From m = u /\ chain E (To m) p v
  end.

Lemma chain_app E p q u v w : chain E u p v -> chain E v q w -> chain E u (p ++ q) w.
Proof. revert u. induction p as [|m p IH]; intros u; cbn; [by intros ->|]. intros (? & ? & ?). eauto. Qed.
Lemma chain_mono (E F : frameworkMigration -> Prop) p u v : (forall m, E m -> F m) -> chain E u p v -> chain F u p v.
Proof. intros H. revert u. induction p as [|m p IH]; intros u; cbn; [done|]. intros (? & ? & ?). eauto. Qed.

Definition forward (m : frameworkMigration) : Prop := compareSemanticVersions (version_of (From m)) (version_of (To m)) < 0.

Lemma chain_forward (E : frameworkMigration -> Prop) p u v : (forall m, E m -> forward m) -> chain E u p v ->
  compareSemanticVersions (version_of u) (version_of v) <= 0.
Proof.
  intros H. revert u. induction p as [|m p IH]; intros u; cbn.
  - intros ->. by rewrite ordering_refl by apply _.
  - intros (Em & <- & C). specialize (H m Em). apply IH in C. unfold forward in H.
    eapply (ordering_trans (c := compareSemanticVersions)); [|done]. lia.
Qed.

Section Search.
Context (edges : graph) (releases : gset string) (from to : string).
Hypothesis edges_wf : forall u m, m ∈ edges_from edges u -> From m = u /\ To m ∈ releases /\ forward m.
Hypothesis from_known : from ∈ releases.
Hypothesis from_to : from <> to.

Definition edge (m : frameworkMigration) : Prop := m ∈ edges_from edges (From m).
(** What the inner loop does not skip for its version. *)
Definition relevant (m : frameworkMigration) : Prop := compareSemanticVersions (version_of (To m)) (version_of to) <= 0.

Lemma edge_of u m : m ∈ edges_from edges u -> edge m.
Proof. intros H. destruct (edges_wf u m H) as [<- _]. done. Qed.

(** ** The invariant, with the depth [d] *)
Record invariant (d : string -> nat) (s : search) : Prop := {
  inv_root : from ∈ visited s /\ d from = 0%nat;
  inv_known : visited s ⊆ releases;
  inv_target : to ∉ visited s;
  inv_previous : forall v u m, previous s !! v = Some (u, m) ->
    edge m /\ From m = u /\ To m = v /\ u ∈ visited s /\ v ∈ visited s /\ d v = S (d u);
  inv_reached : forall v, v ∈ visited s -> v <> from -> is_Some (previous s !! v);
  inv_count : size (visited s) = S (size (previous s));
  inv_depth : forall v, v ∈ visited s -> (d v < size (visited s))%nat;
  inv_queue : forall v, v ∈ queue s -> v ∈ visited s;
  inv_sorted : StronglySorted le (d <$> queue s);
  inv_window : forall v w, v ∈ queue s -> w ∈ queue s -> (d w <= S (d v))%nat;
  inv_closed : forall v m, v ∈ visited s -> v ∉ queue s -> m ∈ edges_from edges v -> relevant m ->
    To m ∈ visited s /\ (d (To m) <= S (d v))%nat;
  inv_left : forall v w, v ∈ visited s -> v ∉ queue s -> w ∈ queue s -> (d v <= d w)%nat
}.

Lemma invariant_start : invariant (fun _ => 0%nat) (MkSearch [from] {[from]} ∅).
Proof.
  constructor; cbn; try (by clear edges_wf; set_solver).
  - by rewrite size_singleton.
  - intros v _. rewrite size_singleton. lia.
  - repeat constructor.
Qed.

(** Whatever chain leads on from a visited release goes through the queue. *)
Lemma chain_through_queue d s p v :
  invariant d s -> v ∈ visited s -> chain edge v p to ->
  exists w, w ∈ queue s /\ (S (d w) <= d v + length p)%nat.
Proof.
  intros I. revert v. induction p as [|m p IH]; intros v Hv; cbn [chain length].
  - intros ->. by destruct (inv_target d s I).
  - intros (Em & <- & C). destruct (decide (From m ∈ queue s)) as [Hq|Hq]; [exists (From m); split; [done|lia]|].
    assert (relevant m) as Hr.
    { unfold relevant. eapply chain_forward; [|done]. intros m' Em'. by eapply edges_wf. }
    destruct (inv_closed d s I (From m) m Hv Hq Em Hr) as [Ht Hd].
    destruct (IH (To m) Ht C) as (w & Hw & Hl). exists w. split; [done|lia].
Qed.

Lemma head_is_least d s u q w : invariant d s -> queue s = u :: q -> w ∈ queue s -> (d u <= d w)%nat.
Proof.
  intros I E Hw. pose proof (inv_sorted d s I) as S. rewrite E in S, Hw. cbn in S. apply StronglySorted_inv in S as [_ F].
  apply elem_of_cons in Hw as [->|Hw]; [done|]. rewrite Forall_fmap in F. by eapply (proj1 (Forall_forall _ _) F).
Qed.

(** No chain to the target is shorter than one more than the head's depth. *)
Lemma chain_at_least d s u q p : invariant d s -> queue s = u :: q -> chain edge from p to -> (S (d u) <= length p)%nat.
Proof.
  intros I E C. destruct (inv_root d s I) as [Hf Df].
  destruct (chain_through_queue d s p from I Hf C) as (w & Hw & Hl). pose proof (head_is_least d s u q w I E Hw). lia.
Qed.
Lemma no_chain_left d s p : invariant d s -> queue s = [] -> ~ chain edge from p to.
Proof.
  intros I E C. destruct (chain_through_queue d s p from I (proj1 (inv_root d s I)) C) as (w & Hw & _). rewrite E in Hw. by apply not_elem_of_nil in Hw.
Qed.

(** ** Steps *)

Definition deeper (d : string -> nat) (x : string) (n : nat) (v : string) : nat := if decide (v = x) then n else d v.
Lemma deeper_at d x n : deeper d x n x = n.
Proof. unfold deeper. by rewrite decide_True. Qed.
Lemma deeper_other d x n v : v <> x -> deeper d x n v = d v.
Proof. intros H. unfold deeper. by rewrite decide_False. Qed.

(** A release is visited from the head of the queue, which stays for now. *)
Lemma invariant_visit d u q vs prev m :
  invariant d (MkSearch (u :: q) vs prev) -> m ∈ edges_from edges u -> To m ∉ vs -> To m <> to ->
  invariant (deeper d (To m) (S (d u))) (MkSearch (u :: q ++ [To m]) ({[To m]} ∪ vs) (<[To m := (u, m)]> prev)).
Proof.
  intros I Hm Hnew Hto. pose proof (edges_wf u m Hm) as (Hu & Hk & _).
  assert (u ∈ vs) as Hcur by (apply (inv_queue _ _ I); cbn; set_solver).
  assert (forall v, v ∈ vs -> deeper d (To m) (S (d u)) v = d v) as Hold by (intros v Hv; apply deeper_other; by intros ->).
  assert (forall v, v ∈ u :: q -> v ∈ vs) as Hq by (intros v; apply (inv_queue _ _ I)).
  assert (To m <> from) as Hnf by (intros E; apply Hnew; rewrite E; apply (inv_root _ _ I)).
  assert (prev !! To m = None) as Hnone.
  { destruct (prev !! To m) as [[u' m']|] eqn:E; [|done]. by destruct (inv_previous _ _ I _ _ _ E) as (_ & _ & _ & _ & ? & _). }
  assert (forall w, w ∈ u :: q -> (d u <= d w <= S (d u))%nat) as Hwin.
  { intros w Hw. split; [by eapply (head_is_least _ _ u q w I)|]. apply (inv_window _ _ I); cbn; set_solver. }
  constructor; cbn [queue visited previous].
  - destruct (inv_root _ _ I) as [Hf Df]. rewrite Hold by done. split; [set_solver|done].
  - pose proof (inv_known _ _ I). cbn in *. set_solver.
  - pose proof (inv_target _ _ I). cbn in *. set_solver.
  - intros v u' m' Hp. apply lookup_insert_Some in Hp as [[<- [= <- <-]]|[Hne Hp]].
    + rewrite deeper_at, Hold by done. repeat split; try done; try set_solver.
    + destruct (inv_previous _ _ I _ _ _ Hp) as (He & Hf & Ht & Hu' & Hv & Hd). cbn in *.
      rewrite !Hold by done. repeat split; try done; set_solver.
  - intros v Hv Hne. destruct (decide (v = To m)) as [->|Hnv]; [rewrite lookup_insert_eq; eauto|].
    rewrite lookup_insert_ne by done. apply (inv_reached _ _ I); [cbn; set_solver|done].
  - rewrite size_union by set_solver. rewrite size_singleton, map_size_insert_None by done. pose proof (inv_count _ _ I). cbn in *. lia.
  - intros v Hv. rewrite size_union by set_solver. rewrite size_singleton. destruct (decide (v = To m)) as [->|Hnv].
    + rewrite deeper_at. pose proof (inv_depth _ _ I u Hcur). cbn in *. lia.
    + assert (v ∈ vs) as Hv' by set_solver. rewrite Hold by done. pose proof (inv_depth _ _ I v Hv'). cbn in *. lia.
  - intros v. rewrite app_comm_cons, elem_of_app, list_elem_of_singleton. intros [Hv| ->]; [apply Hq in Hv|]; set_solver.
  - rewrite app_comm_cons, fmap_app. apply StronglySorted_app_2.
    + cbn. rewrite deeper_at. intros x y Hx Hy%list_elem_of_singleton. subst y.
      change (x ∈ deeper d (To m) (S (d u)) <$> u :: q) in Hx. apply list_elem_of_fmap in Hx as (w & -> & Hw).
      rewrite Hold by auto. apply Hwin in Hw. lia.
    + rewrite (list_fmap_ext _ d); [exact (inv_sorted _ _ I)|]. intros i v Hv. apply Hold, Hq. by eapply list_elem_of_lookup_2.
    + repeat constructor.
  - intros v w. rewrite !app_comm_cons, !elem_of_app, !list_elem_of_singleton.
    intros [Hv| ->] [Hw| ->]; rewrite ?deeper_at, ?Hold by auto; try lia.
    + apply (inv_window _ _ I); done.
    + apply Hwin in Hv. lia.
    + apply Hwin in Hw. lia.
  - intros v m' Hv Hnq Hm' Hr. assert (v ∈ vs) as Hv' by set_solver.
    destruct (inv_closed _ _ I v m' Hv' ltac:(cbn; set_solver) Hm' Hr) as [Ht Hd]. cbn in *. rewrite !Hold by done. split; [set_solver|done].
  - intros v w Hv Hnq. assert (v ∈ vs) as Hv' by set_solver. rewrite app_comm_cons, elem_of_app, list_elem_of_singleton.
    rewrite (Hold v) by done. intros [Hw| ->]; rewrite ?deeper_at, ?Hold by auto.
    + apply (inv_left _ _ I); cbn; [done|set_solver|done].
    + pose proof (inv_left _ _ I v u Hv' ltac:(cbn; set_solver) ltac:(cbn; set_solver)). lia.
Qed.

(** The search with the release being expanded still at the head of the queue. *)
Definition with_head (u : string) (s : search) : search := MkSearch (u :: queue s) (visited s) (previous s).

Lemma expand_spec u es : forall d before s,
  edges_from edges u = before ++ es -> invariant d (with_head u s) ->
  (forall m, m ∈ before -> relevant m -> To m ∈ visited s /\ (d (To m) <= S (d u))%nat) ->
  match expand (version_of to) to u es s with
  | inl s' => exists d', invariant d' (with_head u s') /\
      (forall m, m ∈ edges_from edges u -> relevant m -> To m ∈ visited s' /\ (d' (To m) <= S (d' u))%nat) /\
      (length (queue s') + size (visited s) = length (queue s) + size (visited s'))%nat
  | inr previous' => exists d' s' m, invariant d' (with_head u s') /\ m ∈ edges_from edges u /\ To m = to /\
      previous' = <[to := (u, m)]> (previous s')
  end.
Proof.
  induction es as [|m es IH]; intros d before s E I Hb; cbn [expand].
  - rewrite app_nil_r in E. exists d. rewrite E. done.
  - assert (m ∈ edges_from edges u) as Hm by (rewrite E; set_solver).
    rewrite cons_middle, app_assoc in E. destruct ((0 <? _) || _) eqn:Eskip.
    + apply (IH d (before ++ [m]) s E I). intros m' [Hm'|Hm'%list_elem_of_singleton]%elem_of_app; [auto|subst m'].
      unfold relevant. intros Hr. bool_prop. destruct Eskip as [?|Hv]; bool_prop; [lia|]. split; [done|].
      assert (To m ∈ visited (with_head u s)) as Hv' by done. destruct (decide (To m ∈ u :: queue s)) as [Hq|Hq].
      * apply (inv_window _ _ I); cbn; [set_solver|done].
      * pose proof (inv_left _ _ I (To m) u Hv' Hq ltac:(cbn; set_solver)). lia.
    + apply orb_false_iff in Eskip as [_ Hnew]. bool_prop. destruct (String.eqb_spec (To m) to) as [Et|Nt].
      * exists d, s, m. by rewrite Et.
      * pose proof (invariant_visit d u (queue s) (visited s) (previous s) m I Hm Hnew Nt) as I'.
        assert (u ∈ visited s) as Hu by (apply (inv_queue _ _ I); cbn; set_solver).
        specialize (IH _ (before ++ [m]) (MkSearch (queue s ++ [To m]) ({[To m]} ∪ visited s) (<[To m:=(u, m)]> (previous s))) E I').
        rewrite (deeper_other _ _ _ u) in IH by (intros ->; done). cbn [queue visited previous] in IH.
        rewrite size_union in IH by set_solver. rewrite size_singleton, length_app in IH. cbn [length] in IH.
        assert (forall m', m' ∈ before ++ [m] -> relevant m' ->
          To m' ∈ {[To m]} ∪ visited s /\ (deeper d (To m) (S (d u)) (To m') <= S (d u))%nat) as Hb'.
        { intros m' [Hm'|Hm'%list_elem_of_singleton]%elem_of_app Hr; [|subst m'; rewrite deeper_at; split; [set_solver|lia]].
          destruct (Hb m' Hm' Hr) as [Hv' Hd']. split; [set_solver|]. by rewrite deeper_other by (intros Eq; rewrite Eq in Hv'; done). }
        specialize (IH Hb'). destruct (expand _ _ _ _ _) as [s'|prev']; [|done].
        destruct IH as (d' & I'' & Hall & Hsize). exists d'. split; [done|]. split; [done|]. lia.
Qed.

(** The head leaves the queue once all its edges have been seen. *)
Lemma invariant_pop d u s : invariant d (with_head u s) ->
  (forall m, m ∈ edges_from edges u -> relevant m -> To m ∈ visited s /\ (d (To m) <= S (d u))%nat) -> invariant d s.
Proof.
  intros I Hu. constructor.
  - apply (inv_root _ _ I).
  - apply (inv_known _ _ I).
  - apply (inv_target _ _ I).
  - apply (inv_previous _ _ I).
  - apply (inv_reached _ _ I).
  - apply (inv_count _ _ I).
  - apply (inv_depth _ _ I).
  - intros v Hv. apply (inv_queue _ _ I). by right.
  - pose proof (inv_sorted _ _ I) as S. by apply StronglySorted_inv in S as [S _].
  - intros v w Hv Hw. apply (inv_window _ _ I); by right.
  - intros v m Hv Hq Hm Hr. destruct (decide (v = u)) as [->|Hne]; [auto|].
    apply (inv_closed _ _ I v m Hv); [|done|done]. cbn. by apply not_elem_of_cons.
  - intros v w Hv Hq Hw. destruct (decide (v = u)) as [->|Hne].
    + by apply (head_is_least d (with_head u s) u (queue s) w I); [|right].
    + apply (inv_left _ _ I); [done|cbn; by apply not_elem_of_cons|by right].
Qed.

(** What the search comes back with. *)
Definition search_result (o : option predecessors) : Prop :=
  match o with
  | None => forall p, ~ chain edge from p to
  | Some previous' => exists d u m s, invariant d (with_head u s) /\ m ∈ edges_from edges u /\ To m = to /\
      previous' = <[to := (u, m)]> (previous s)
  end.
Lemma bfs_spec fuel : forall d s,
  invariant d s -> (length (queue s) + (size releases - size (visited s)) < fuel)%nat ->
  exists o, bfs fuel edges (version_of to) to s = Some o /\ search_result o.
Proof.
  induction fuel as [|fuel IH]; intros d s I Hf; [lia|]. cbn [bfs]. destruct (queue s) as [|u q] eqn:Eq.
  - exists None. split; [done|]. intros p. by eapply no_chain_left.
  - assert (invariant d (with_head u (MkSearch q (visited s) (previous s)))) as I'.
    { unfold with_head. cbn [queue visited previous]. rewrite <- Eq. by destruct s. }
    pose proof (expand_spec u (edges_from edges u) d [] (MkSearch q (visited s) (previous s)) eq_refl I') as X.
    specialize (X ltac:(intros m H; by apply not_elem_of_nil in H)). destruct (expand _ _ _ _ _) as [s'|previous'].
    + destruct X as (d' & I'' & Hu & Hsize). cbn in Hsize. apply (IH d' s').
      * by eapply invariant_pop.
      * pose proof (subseteq_size _ _ (inv_known _ _ I'')). pose proof (subseteq_size _ _ (inv_known _ _ I')). cbn in *. lia.
    + exists (Some previous'). split; [done|]. destruct X as (d' & s' & m & ?). by exists d', u, m, s'.
Qed.

(** ** Reading the path back *)

Lemma reconstruct_step fuel v u m p tail : v <> from -> p !! v = Some (u, m) ->
  reconstructMigrationPath (S fuel) from v p tail = reconstructMigrationPath fuel from u p (m :: tail).
Proof. intros Hne E. cbn [reconstructMigrationPath]. destruct (String.eqb_spec v from); [done|]. by rewrite E. Qed.
Lemma reconstruct_spec d s p v tail fuel :
  invariant d s -> v ∈ visited s -> (d v <= fuel)%nat ->
  (forall x, x ∈ visited s -> p !! x = previous s !! x) -> chain edge v tail to ->
  exists path, reconstructMigrationPath fuel from v p tail = Some path /\ chain edge from path to /\
    length path = (d v + length tail)%nat.
Proof.
  intros I Hv Hd Hp. revert v tail Hv Hd. induction fuel as [|fuel IH]; intros v tail Hv Hd C; cbn [reconstructMigrationPath].
  all: destruct (String.eqb_spec v from) as [->|Hne]; [exists tail; repeat split; [done|]; by rewrite (proj2 (inv_root _ _ I))|].
  all: destruct (inv_reached _ _ I v Hv Hne) as [[u m] E]; destruct (inv_previous _ _ I v u m E) as (Em & Hf & Ht & Hu & _ & Hdv).
  - lia.
  - rewrite Hp, E by done. cbn [from_option id]. subst u v.
    destruct (IH (From m) (m :: tail) Hu ltac:(lia) ltac:(done)) as (path & ? & ? & Hl).
    exists path. repeat split; [done..|]. rewrite Hl, Hdv. cbn. lia.
Qed.

Lemma search_path_spec :
  exists path available, search_path releases edges (version_of to) from to = Some (Ok (path, available)) /\
    if available then chain edge from path to /\ (forall p, chain edge from p to -> (length path <= length p)%nat)
    else path = [] /\ forall p, ~ chain edge from p to.
Proof.
  unfold search_path. destruct (bfs_spec (S (size releases)) _ _ invariant_start) as (o & -> & Ho).
  { cbn [queue visited length]. rewrite size_singleton.
    assert (size ({[from]} : gset string) <= size releases)%nat as Hs by (apply subseteq_size; set_solver).
    rewrite size_singleton in Hs. lia. }
  destruct o as [previous'|]; [|by exists [], false].
  destruct Ho as (d & u & m & s & I & Hm & Ht & ->). destruct (edges_wf u m Hm) as (Hu & _).
  assert (u ∈ visited s) as Huv by (apply (inv_queue _ _ I); cbn; set_solver).
  assert (previous s !! to = None) as Hnone.
  { destruct (previous s !! to) as [[u' m']|] eqn:E; [|done].
    destruct (inv_previous _ _ I to u' m' E) as (_ & _ & _ & _ & Hv & _). by destruct (inv_target _ _ I). }
  rewrite map_size_insert_None by done. rewrite (reconstruct_step _ to u m) by first [congruence|apply lookup_insert_eq].
  destruct (reconstruct_spec d (with_head u s) (<[to:=(u, m)]> (previous s)) u [m] (S (size (previous s))) I Huv) as (path & -> & Hc & Hl).
  - pose proof (inv_depth _ _ I u Huv). pose proof (inv_count _ _ I). cbn in *. lia.
  - intros x Hx. apply lookup_insert_ne. intros <-. exact (inv_target _ _ I Hx).
  - cbn. split; [by eapply edge_of|done].
  - exists path, true. split; [done|]. split; [done|]. intros p Hp.
    pose proof (chain_at_least d (with_head u s) u (queue s) p I eq_refl Hp). cbn in Hl. lia.
Qed.
End Search.

(** ** Catalogs *)

Definition valid_requirement (r : migrationRequirement) : Prop :=
  req_Description r <> "" /\ (req_Platforms r = [] \/ is_ok (Normalize (req_Platforms r)) = true).
Definition release_names (catalog : upgradeCatalog) : list string := rel_FrameworkVersion <$> Releases catalog.
Definition valid_migration (known : list string) (m : frameworkMigration) : Prop :=
  ID m <> "" /\ Description m <> "" /\ Forall valid_requirement (Requirements m) /\ From m ∈ known /\ To m ∈ known /\ forward m.
Record well_formed (catalog : upgradeCatalog) : Prop := {
  wf_releases : Forall (fun v => is_ok (parseSemanticVersion v) = true) (release_names catalog);
  wf_migrations : Forall (valid_migration (release_names catalog)) (Migrations catalog)
}.
(** [m] is a migration of a list with the platforms of its requirements put in order. *)
Definition ordered_from (original m : frameworkMigration) : Prop :=
  exists requirements, normalized_requirements (ID original) (Requirements original) = Ok requirements /\
    m = with_requirements requirements original.
Definition in_catalog (catalog : upgradeCatalog) (m : frameworkMigration) : Prop :=
  exists original, original ∈ Migrations catalog /\ ordered_from original m.

Lemma known_releases_spec releases known :
  Forall (fun v => is_ok (parseSemanticVersion v) = true) (rel_FrameworkVersion <$> releases) ->
  exists known', known_releases known releases = Ok known' /\
    forall v, v ∈ known' <-> v ∈ known \/ v ∈ rel_FrameworkVersion <$> releases.
Proof.
  revert known. induction releases as [|r releases IH]; intros known; cbn [known_releases fmap list_fmap].
  - intros _. exists known. split; [done|]. intros v. rewrite elem_of_nil. tauto.
  - intros [Hr Hrs]%Forall_cons. destruct (parseSemanticVersion (rel_FrameworkVersion r)); try done.
    destruct (IH ({[rel_FrameworkVersion r]} ∪ known) Hrs) as (known' & -> & Hk). exists known'. split; [done|].
    intros v. rewrite Hk, elem_of_cons. set_solver.
Qed.

Lemma normalized_requirements_ok id rs : Forall valid_requirement rs -> exists rs', normalized_requirements id rs = Ok rs'.
Proof.
  induction 1 as [|r rs [Hd Hp] _ [rs' IH]]; cbn [normalized_requirements]; [eauto|].
  apply String.eqb_neq in Hd as ->. rewrite IH. destruct Hp as [->|Hp]; cbn; [eauto|].
  destruct (req_Platforms r) as [|p ps]; [cbn; eauto|]. cbn [is_empty]. destruct (Normalize (p :: ps)); try done. cbn. eauto.
Qed.

Lemma checked_migration_ok releases known m :
  (forall v, v ∈ releases <-> v ∈ known) -> valid_migration known m ->
  exists m', checked_migration releases m = Ok m' /\ ordered_from m m'.
Proof.
  intros Hk (Hi & Hd & Hr & Hf & Ht & Hfw). unfold checked_migration.
  apply String.eqb_neq in Hi as ->. apply String.eqb_neq in Hd as ->. cbn [orb].
  destruct (normalized_requirements_ok (ID m) _ Hr) as [rs E]. rewrite E. cbn [result_bind].
  rewrite !bool_decide_eq_true_2 by (by apply Hk). cbn [negb]. unfold forward in Hfw.
  rewrite (proj2 (Z.leb_gt _ _)) by done. eexists. split; [done|]. by exists rs.
Qed.
Lemma ordered_from_ends original m : ordered_from original m -> From m = From original /\ To m = To original /\ ID m = ID original.
Proof. by intros (rs & _ & ->). Qed.

Lemma edges_from_insert edges u ms v : edges_from (<[u := ms]> edges) v = if decide (v = u) then ms else edges_from edges v.
Proof.
  unfold edges_from. destruct (decide (v = u)) as [->|]; [by rewrite lookup_insert_eq|by rewrite lookup_insert_ne].
Qed.
Lemma add_edges_spec releases known migrations : (forall v, v ∈ releases <-> v ∈ known) ->
  forall edges, Forall (valid_migration known) migrations ->
  exists edges', add_edges releases edges migrations = Ok edges' /\
    (forall u m, m ∈ edges_from edges' u -> m ∈ edges_from edges u \/
       exists original, original ∈ migrations /\ ordered_from original m /\ From m = u) /\
    (forall u m, m ∈ edges_from edges u -> m ∈ edges_from edges' u) /\
    (forall original, original ∈ migrations -> exists m, ordered_from original m /\ m ∈ edges_from edges' (From original)).
Proof.
  intros Hk. induction migrations as [|m ms IH]; intros edges; cbn [add_edges].
  - intros _. exists edges. split; [done|]. split; [tauto|]. split; [done|]. by intros ? ?%not_elem_of_nil.
  - intros [Hm Hms]%Forall_cons. destruct (checked_migration_ok releases known m Hk Hm) as (m' & -> & Hord). cbn [result_bind].
    pose proof (ordered_from_ends _ _ Hord) as (-> & _ & _). set (e := <[From m:=_]> edges).
    assert (forall u x, x ∈ edges_from e u <-> x ∈ edges_from edges u \/ (u = From m /\ x = m')) as He.
    { intros u x. unfold e. rewrite edges_from_insert. destruct (decide (u = From m)) as [->|]; set_solver. }
    destruct (IH e Hms) as (edges' & -> & H1 & H2 & H3). exists edges'. split; [done|]. split; [|split].
    + intros u x Hx. destruct (H1 u x Hx) as [He'|(o & ? & ? & ?)].
      * apply He in He' as [?|[-> ->]]; [by left|right]. exists m. split; [by left|]. split; [done|]. by apply ordered_from_ends.
      * right. exists o. split; [by right|done].
    + intros u x Hx. apply H2, He. by left.
    + intros o [->|Ho]%elem_of_cons; [|by apply H3]. exists m'. split; [done|]. apply H2, He. by right.
Qed.

#[export] Instance edge_before_total : Total edge_before.
Proof.
  intros a b. unfold edge_before. pose proof (ordering_flip (c := compareSemanticVersions) (version_of (To a)) (version_of (To b))) as E.
  destruct (total String.le (ID a) (ID b)); destruct (Z.lt_trichotomy (compareSemanticVersions (version_of (To a)) (version_of (To b))) 0) as [|[|]]; try lia;
    first [left; right; by split|right; right; split; [lia|done]|left; left; lia|right; left; lia].
Qed.
#[export] Instance edge_before_trans : Transitive edge_before.
Proof.
  intros a b c. unfold edge_before. set (x := version_of (To a)). set (y := version_of (To b)). set (z := version_of (To c)).
  intros [H1|[H1 L1]] [H2|[H2 L2]].
  - left. by eapply (ordering_lt_le compareSemanticVersions); [|apply Z.lt_le_incl].
  - left. eapply (ordering_lt_le compareSemanticVersions); [done|]. by rewrite H2.
  - left. eapply (ordering_le_lt compareSemanticVersions); [|done]. by rewrite H1.
  - apply (ordering_zero (c := compareSemanticVersions)) in H1, H2. right. split; [|by etrans].
    rewrite H1, H2. by apply ordering_refl; apply _.
Qed.
Lemma sorted_edges_from edges u m : m ∈ edges_from (sorted_edges edges) u <-> m ∈ edges_from edges u.
Proof.
  unfold edges_from, sorted_edges. rewrite lookup_fmap. destruct (edges !! u); cbn; [apply merge_sort_elem_of|done].
Qed.

(** A chain of the catalog is a chain of the graph, up to platforms' order. *)
Lemma chain_in_graph edges (E : frameworkMigration -> Prop) p u v :
  (forall m, E m -> exists m', ordered_from m m' /\ m' ∈ edges_from edges (From m)) -> chain E u p v ->
  exists p', chain (edge edges) u p' v /\ length p' = length p.
Proof.
  intros H. revert u. induction p as [|m p IH]; intros u; cbn; [by intros ->; exists []|].
  intros (Em & Hu & C). destruct (IH _ C) as (p' & Hp & Hl). destruct (H m Em) as (m' & Ho & Hm').
  apply ordered_from_ends in Ho as (Hf & Ht & _). exists (m' :: p'). cbn. split; [|by rewrite Hl].
  unfold edge. by rewrite Hf, Ht.
Qed.

(** A chain between different releases starts and ends at releases of the catalog. *)
Lemma chain_ends catalog p from to : well_formed catalog -> from <> to ->
  chain (fun m => m ∈ Migrations catalog) from p to -> from ∈ release_names catalog /\ to ∈ release_names catalog.
Proof.
  intros [_ Hmig] Hne C. rewrite Forall_forall in Hmig. split.
  - destruct p as [|m p]; [by cbn in C|]. destruct C as (Hm & <- & _). by apply Hmig in Hm as (_ & _ & _ & ? & _).
  - revert from C Hne. induction p as [|m p IH]; intros u; cbn; [by intros -> ?|]. intros (Hm & _ & C) _.
    apply Hmig in Hm as (_ & _ & _ & _ & Hto & _). destruct (decide (To m = to)) as [<-|N]; [done|]. by eapply IH.
Qed.

(** The path that planning asks for, in a catalog without mistakes. *)
Lemma migrationPath_spec catalog from to vf vt :
  well_formed catalog -> parseSemanticVersion from = Ok vf -> parseSemanticVersion to = Ok vt -> compareSemanticVersions vf vt < 0 ->
  exists path available, migrationPath catalog from to = Some (Ok (path, available)) /\
    if available
    then chain (in_catalog catalog) from path to /\
         forall p, chain (fun m => m ∈ Migrations catalog) from p to -> (length path <= length p)%nat
    else path = [] /\ forall p, ~ chain (fun m => m ∈ Migrations catalog) from p to.
Proof.
  intros Hcat Hf Ht Hlt. pose proof Hcat as [Hrel Hmig]. unfold migrationPath. rewrite Hf, Ht. cbn [prefixed outcome_bind].
  rewrite (proj2 (Z.eqb_neq _ _)), (proj2 (Z.ltb_ge _ _)) by lia.
  destruct (known_releases_spec (Releases catalog) ∅ Hrel) as (releases & -> & Hk). cbn [outcome_bind].
  assert (forall v, v ∈ releases <-> v ∈ release_names catalog) as Hk' by (intros v; rewrite Hk; set_solver).
  assert (from <> to) as Hne.
  { intros ->. rewrite Hf in Ht. injection Ht as ->. rewrite ordering_refl in Hlt by apply _. lia. }
  assert (forall p, chain (fun m => m ∈ Migrations catalog) from p to -> from ∈ releases /\ to ∈ releases) as Hends
    by (intros p C; rewrite !Hk'; by eapply chain_ends).
  destruct (decide (from ∈ releases)) as [Hfr|Hfr]; [rewrite bool_decide_eq_true_2 by done|rewrite bool_decide_eq_false_2 by done].
  2: { exists [], false. cbn. split; [done|]. split; [done|]. intros p C. by destruct (Hends p C). }
  destruct (decide (to ∈ releases)) as [Htr|Htr]; [rewrite bool_decide_eq_true_2 by done|rewrite bool_decide_eq_false_2 by done].
  2: { exists [], false. cbn. split; [done|]. split; [done|]. intros p C. by destruct (Hends p C). }
  cbn [negb]. destruct (add_edges_spec releases (release_names catalog) (Migrations catalog) Hk' ∅ Hmig) as (edges & -> & H1 & _ & H3).
  cbn [outcome_bind].
  assert (forall u m, m ∈ edges_from (sorted_edges edges) u -> in_catalog catalog m /\ From m = u /\ To m ∈ releases /\ forward m) as Hwf.
  { intros u m Hm. apply (proj1 (sorted_edges_from _ _ _)) in Hm. destruct (H1 u m Hm) as [Hn|(o & Ho & Hord & Hu)].
    - unfold edges_from in Hn. rewrite lookup_empty in Hn. by apply not_elem_of_nil in Hn.
    - split; [by exists o|]. apply ordered_from_ends in Hord as (Hfm & Htm & _). apply (proj1 (Forall_forall _ _) Hmig) in Ho as (_ & _ & _ & _ & Hto & Hfw).
      split; [done|]. unfold forward. rewrite Hfm, Htm. split; [by apply Hk'|done]. }
  assert (vt = version_of to) as -> by (unfold version_of; by rewrite Ht).
  destruct (search_path_spec (sorted_edges edges) releases from to (fun u m H => proj2 (Hwf u m H)) Hfr Hne) as (path & available & -> & Hs).
  exists path, available. split; [done|].
  assert (forall p, chain (fun m => m ∈ Migrations catalog) from p to ->
    exists p', chain (edge (sorted_edges edges)) from p' to /\ length p' = length p) as Hgraph.
  { intros p. apply chain_in_graph. intros m Hm. destruct (H3 m Hm) as (m' & ? & ?). exists m'. split; [done|]. by apply sorted_edges_from. }
  destruct available; destruct Hs as [Hc Hmin]; (split; [try done|]).
  - eapply chain_mono; [|done]. intros m Hm. by apply Hwf in Hm as [? _].
  - intros p (p' & Hp' & <-)%Hgraph. by apply Hmin.
  - intros p (p' & Hp' & _)%Hgraph. by apply (Hmin p').
Qed.

(** Between two releases of a catalog without mistakes the search ends:
    with a chain of the catalog's migrations from the one to the other, none
    shorter, if there is a chain at all, and otherwise with no path. *)
Theorem migration_path_is_shortest catalog from to vf vt :
  well_formed catalog -> parseSemanticVersion from = Ok vf -> parseSemanticVersion to = Ok vt -> compareSemanticVersions vf vt < 0 ->
  exists path available, migrationPath catalog from to = Some (Ok (path, available)) /\
    (available = true -> chain (in_catalog catalog) from path to) /\
    (available = true <-> exists p, chain (fun m => m ∈ Migrations catalog) from p to) /\
    forall p, chain (fun m => m ∈ Migrations catalog) from p to -> (length path <= length p)%nat.
Proof.
  intros Hwf Hf Ht Hlt. destruct (migrationPath_spec catalog from to vf vt Hwf Hf Ht Hlt) as (path & available & E & H).
  exists path, available. split; [done|]. destruct available; destruct H as [Hc Hmin].
  - repeat split; try done. intros _. clear -Hc. revert from Hc.
    enough (forall from, chain (in_catalog catalog) from path to -> exists p, chain (fun m => m ∈ Migrations catalog) from p to) by auto.
    induction path as [|m path IH]; intros from; cbn; [by intros ->; exists []|].
    intros ((o & Ho & (Hfo & Hto & _)%ordered_from_ends) & Hu & C).
    destruct (IH _ C) as [p Hp]. exists (o :: p). cbn. by rewrite <- Hfo, <- Hto.
  - subst path. repeat split; try done; [by intros [p ?%Hmin]|]. intros p ?%Hmin. done.
Qed.

Module Sample.
Definition release (v : string) (template : Z) := MkRelease v 3 template 1.
Definition step (from to : string) (automatic : bool) := MkMigration (from +:+ "-to-" +:+ to) from to "Update." automatic [].
Definition catalog := MkCatalog "1.2.0" "1.2.0" [release "1.0.0" 8; release "1.1.0" 8; release "1.1.1" 9; release "1.2.0" 9]
  [step "1.0.0" "1.1.0" true; step "1.1.0" "1.1.1" true; step "1.1.1" "1.2.0" true; step "1.1.0" "1.2.0" false].
Lemma catalog_well_formed : well_formed catalog.
Proof. constructor; repeat constructor; try discriminate; vm_compute; set_solver. Qed.
End Sample.

Lemma migration_path_is_shortest_witness :
  exists path, migrationPath Sample.catalog "1.0.0" "1.2.0" = Some (Ok (path, true)) /\
    forall p, chain (fun m => m ∈ Migrations Sample.catalog) "1.0.0" p "1.2.0" -> (2 <= length p)%nat.
Proof.
  destruct (migration_path_is_shortest Sample.catalog "1.0.0" "1.2.0" (MkVersion 1 0 0 []) (MkVersion 1 2 0 [])
    Sample.catalog_well_formed eq_refl eq_refl eq_refl) as (path & available & E & _ & _ & Hmin).
  vm_compute in E. injection E as <- <-. eexists. split; [vm_compute; reflexivity|]. exact Hmin.
Defined.
