(* ===== verification/UpgradeReleases.v ===== *)
(** * The registered releases and migrations: [backend/cmd/bridra/upgrade_catalog.go]

    The catalog the command line is built with, entry by entry. *)
From S2P Require Import Prelude GoStrings Project Upgrade.
Open Scope Z_scope.

Definition registeredUpgradeReleases : list upgradeRelease := [
  MkRelease "0.1.0" 2 2 1;
  MkRelease "0.1.1" 2 2 1;
  MkRelease "0.2.0" 2 2 1;
  MkRelease "0.3.0" 2 2 1;
  MkRelease "0.4.0" 2 2 1;
  MkRelease "0.5.0" 2 2 1;
  MkRelease "0.6.0" 2 2 1;
  MkRelease "0.6.1" 2 2 1;
  MkRelease "0.7.0" 2 2 1;
  MkRelease "0.8.0" 2 2 1;
  MkRelease "0.9.0" 2 2 1;
  MkRelease "0.10.0" 2 2 1;
  MkRelease "0.10.1" 2 2 1;
  MkRelease "0.11.0" 2 2 1;
  MkRelease "0.12.0" 2 2 1;
  MkRelease "0.13.0" 2 2 1;
  MkRelease "0.14.0" 2 3 1;
  MkRelease "0.15.0" 3 5 1;
  MkRelease "0.16.0" 3 6 1;
  MkRelease "0.17.0" 3 7 1;
  MkRelease "0.18.0" 3 7 1;
  MkRelease "0.19.0" 3 7 1;
  MkRelease "0.20.0" 3 8 1;
  MkRelease "0.21.0" 3 8 1;
  MkRelease "0.22.0" 3 9 1;
  MkRelease "0.23.0" 3 9 1;
  MkRelease "0.23.1" 3 9 1;
  MkRelease "0.23.2" 3 9 1;
  MkRelease "0.24.0" 3 9 1;
  MkRelease "0.24.1" 3 9 1
].

Definition registeredFrameworkMigrations : list frameworkMigration := [
  MkMigration "framework-0.1.0-to-0.1.1" "0.1.0" "0.1.1"
    "Update the Go and Flutter framework dependencies to the create hotfix."
    true [];
  MkMigration "framework-0.1.1-to-0.2.0" "0.1.1" "0.2.0"
    "Update the Go and Flutter framework dependencies for concurrent and cancellable RPC."
    true [];
  MkMigration "framework-0.2.0-to-0.3.0" "0.2.0" "0.3.0"
    "Update the Go and Flutter framework dependencies for delayed Jobs and cron Tasks."
    true [];
  MkMigration "framework-0.3.0-to-0.4.0" "0.3.0" "0.4.0"
    "Update both framework dependencies and adopt parent-process observation in the application-owned Sidecar entrypoint."
    false [MkRequirement "Adopt parent-process observation in the application-owned Sidecar entrypoint." [Linux; MacOS; Windows]];
  MkMigration "framework-0.4.0-to-0.5.0" "0.4.0" "0.5.0"
    "Update both framework dependencies and adopt desktop single-instance ownership in the application-owned Flutter entrypoint."
    false [MkRequirement "Adopt desktop single-instance ownership in the application-owned Flutter entrypoint." [Linux; MacOS; Windows]];
  MkMigration "framework-0.5.0-to-0.6.0" "0.5.0" "0.6.0"
    "Update the Go and Flutter framework dependencies for opt-in streaming and verified out-of-band file transfer."
    true [];
  MkMigration "framework-0.6.0-to-0.6.1" "0.6.0" "0.6.1"
    "Update the Go and Flutter framework dependencies to the generated-consumer verification patch."
    false [];
  MkMigration "framework-0.6.1-to-0.7.0" "0.6.1" "0.7.0"
    "Update the Go and Flutter framework dependencies for opt-in persistent Queue and Scheduler stores."
    true [];
  MkMigration "framework-0.7.0-to-0.8.0" "0.7.0" "0.8.0"
    "Update the Go and Flutter framework dependencies for opt-in SQL-backed Queue and Scheduler stores."
    true [];
  MkMigration "framework-0.8.0-to-0.9.0" "0.8.0" "0.9.0"
    "Update the Go and Flutter framework dependencies for opt-in Redis-backed Queue and Scheduler stores."
    true [];
  MkMigration "framework-0.9.0-to-0.10.0" "0.9.0" "0.10.0"
    "Update the Go and Flutter framework dependencies for opt-in HTTP authentication, rate limiting, and observability."
    true [];
  MkMigration "framework-0.10.0-to-0.10.1" "0.10.0" "0.10.1"
    "Update the Go and Flutter framework dependencies for runtime diagnostics and application-owned RPC protocol upgrade planning."
    true [];
  MkMigration "framework-0.10.1-to-0.11.0" "0.10.1" "0.11.0"
    "Update the Go and Flutter framework dependencies to the supply-chain metadata release without changing application runtime contracts."
    true [];
  MkMigration "framework-0.11.0-to-0.12.0" "0.11.0" "0.12.0"
    "Update the Go and Flutter framework dependencies for bounded stdin Sidecar launch authentication; application-owned legacy entrypoints remain compatible."
    true [];
  MkMigration "framework-0.12.0-to-0.13.0" "0.12.0" "0.13.0"
    "Update the Go and Flutter framework dependencies for RPC schema compatibility checking without changing application runtime contracts."
    true [];
  MkMigration "framework-0.13.0-to-0.14.0" "0.13.0" "0.14.0"
    "Adopt the application-owned deployed RPC schema baseline and automatic make verify compatibility gate, then update both framework dependencies."
    false [];
  MkMigration "framework-0.14.0-to-0.15.0" "0.14.0" "0.15.0"
    "Adopt the application-owned generated Sidecar and Application shutdown lifecycle, then update both framework dependencies."
    false [MkRequirement "Adopt the application-owned Sidecar and Application shutdown lifecycle and await secondary-instance termination." [Linux; MacOS; Windows];
      MkRequirement "Review the macOS native terminateSecondary handler and Runner tests." [MacOS]];
  MkMigration "framework-0.15.0-to-0.16.0" "0.15.0" "0.16.0"
    "Adopt the application-owned macOS bookmark bridge and ResourceBroker-enabled Sidecar entrypoint, then update both framework dependencies."
    false [MkRequirement "Review the ResourceBroker-enabled application-owned Sidecar provider wiring." [Linux; MacOS; Windows];
      MkRequirement "Review the macOS bookmark channel, native resource lifecycle and entitlements." [MacOS]];
  MkMigration "framework-0.16.0-to-0.17.0" "0.16.0" "0.17.0"
    "Adopt the application-owned iOS Embedded Core bridge, XCFramework packaging, and security-scoped resource lifecycle, then update both framework dependencies."
    false [MkRequirement "Review the opt-in iOS Embedded Core bridge, XCFramework packaging and security-scoped resource lifecycle before adopting them." [IOS]];
  MkMigration "framework-0.17.0-to-0.18.0" "0.17.0" "0.18.0"
    "Update the Go and Flutter framework dependencies for opt-in RPC number scalar codegen without changing existing application contracts."
    true [];
  MkMigration "framework-0.18.0-to-0.19.0" "0.18.0" "0.19.0"
    "Update the Go and Flutter framework dependencies for opt-in camelCase RPC methods and snake_case wire fields without rewriting application contracts."
    true [];
  MkMigration "framework-0.19.0-to-0.20.0" "0.19.0" "0.20.0"
    "Adopt Application-owned HTTP shutdown and macOS single-instance socket entitlements, review native display metadata, and regenerate Dart unary APIs with timeout-aware implementations before updating both framework dependencies and Template 8 metadata."
    false [MkRequirement "Review Application-owned HTTP shutdown in the application backend; custom entrypoints require manual verification." [];
      MkRequirement "Regenerate unary Dart APIs and review handwritten timeout-aware implementations and mocks." [];
      MkRequirement "Enable client and server socket entitlements in both macOS sandbox profiles while preserving app-sandbox." [MacOS]];
  MkMigration "framework-0.20.0-to-0.21.0" "0.20.0" "0.21.0"
    "Update the Go and Flutter framework dependencies without rewriting application-owned files or changing the adopted template baseline or RPC protocol. Review CLI upgrade-report schema 5 separately if automation consumes its JSON output."
    true [];
  MkMigration "framework-0.21.0-to-0.22.0" "0.21.0" "0.22.0"
    "Update the Go and Flutter framework dependencies. Template 9's modular starter and native window controls are optional application-owned improvements; preserve existing UI, runners and the adopted template baseline unless explicitly adopting them."
    true [];
  MkMigration "framework-0.22.0-to-0.23.0" "0.22.0" "0.23.0"
    "Update the Go and Flutter framework dependencies for opt-in long-lived subscriptions. Preserve application-owned schema, UI, runners, protocol and adopted template baseline; subscription adoption and durable replay remain application-owned."
    true [];
  MkMigration "framework-0.23.0-to-0.23.1" "0.23.0" "0.23.1"
    "Update the Go and Flutter framework dependencies to the publication recovery release. Preserve application-owned files, protocol and adopted template baseline."
    true [];
  MkMigration "framework-0.23.1-to-0.23.2" "0.23.1" "0.23.2"
    "Update the Go and Flutter framework dependencies to the starter navigation fixes. UI adoption is optional; preserve application-owned files, protocol and adopted template baseline."
    true [];
  MkMigration "framework-0.23.2-to-0.24.0" "0.23.2" "0.24.0"
    "Update the Go and Flutter framework dependencies. Existing Flutter projects keep their UI, runners, adopted template baseline and RPC protocol. Adoption of the Android startup diagnostics is optional."
    true [];
  MkMigration "framework-0.24.0-to-0.24.1" "0.24.0" "0.24.1"
    "Update the Go and Flutter framework dependencies. The starter theme, component gallery and slider semantics fixes are optional application-owned UI improvements; preserve existing UI, runners, RPC protocol and adopted template baseline."
    true []
].

(** [currentUpgradeCatalog] of a command line at the newest registered release. *)
Definition registered_metadata : release_metadata := MkReleaseMetadata "0.24.1" "0.24.1" 9 1.
Definition registered_catalog : upgradeCatalog :=
  currentUpgradeCatalog registeredUpgradeReleases registeredFrameworkMigrations registered_metadata.
