(* ===== verification/UpgradeManifest.v ===== *)
(** * Updating manifests: [backend/cmd/bridra/upgrade_apply.go]

    How an upgrade rewrites the version of a dependency in [go.mod] and
    [pubspec.yaml], line by line on the bytes, and encodes the metadata.  A Go
    slice of bytes is a string. *)
From S2P Require Import Prelude GoStrings Json Project Upgrade.
Open Scope Z_scope.
Open Scope go_scope.

(** ** Lines *)

Definition newline : ascii := chr 10.
(** Every line with its line feed. *)
Fixpoint splitLines (contents : string) : list string :=
  match contents with
  | EmptyString => []
  | String c r =>
      if Ascii.eqb c newline then String c EmptyString :: splitLines r
      else match splitLines r with
           | [] => [String c EmptyString]
           | line :: lines => String c line :: lines
           end
  end.
Definition join_lines (lines : list string) : string := foldr String.append EmptyString lines.
(** [bytes.TrimSuffix] of one byte, and what it trims. *)
Fixpoint cut_suffix (c : ascii) (s : string) : string * string :=
  match s with
  | EmptyString => (EmptyString, EmptyString)
  | String d EmptyString => if Ascii.eqb c d then (EmptyString, s) else (s, EmptyString)
  | String d r => let '(kept, cut) := cut_suffix c r in (String d kept, cut)
  end.
(** The line without its ending, and the ending. *)
Definition line_and_ending (line : string) : string * string :=
  let '(line, lf) := cut_suffix newline line in
  let '(line, cr) := cut_suffix (chr 13) line in (line, cr +:+ lf).
Definition trimLineEnding (line : string) : string := (line_and_ending line).1.

(** [strings.SplitN(s, "//", 2)[0]]. *)
Fixpoint before_comment (s : string) : string :=
  match s with
  | EmptyString => EmptyString
  | String "/" (String "/" _) => EmptyString
  | String c r => String c (before_comment r)
  end.
(** [bytes.Index]: what is before the first occurrence and after it. *)
Fixpoint cut_at (anchor s : string) : option (string * string) :=
  match cut_prefix anchor s with
  | Some rest => Some (EmptyString, rest)
  | None => match s with
            | EmptyString => None
            | String c r => match cut_at anchor r with Some (before, after) => Some (String c before, after) | None => None end
            end
  end.
(** The longest prefix whose bytes satisfy [P], and the rest. *)
Fixpoint span (P : ascii -> bool) (s : string) : string * string :=
  match s with
  | EmptyString => (EmptyString, EmptyString)
  | String c r => if P c then let '(a, b) := span P r in (String c a, b) else (EmptyString, s)
  end.
Definition space_or_tab (c : ascii) : bool := Ascii.eqb c " " || Ascii.eqb c (chr 9).
Definition token_end (c : ascii) : bool := space_or_tab c || Ascii.eqb c (chr 13) || Ascii.eqb c newline.

Definition version_mismatch (anchor actual expected : string) : goerror :=
  Errorf [T anchor; T " declares "; T actual; T ", but project metadata records "; T expected].
Definition replaceManifestToken (line anchor actual expected target : string) : result string :=
  if negb (String.eqb actual expected) then Err (version_mismatch anchor actual expected)
  else match cut_at anchor line with
       | None => Err (Errorf [T "cannot locate "; T anchor; T " in manifest line"])
       | Some (before, after) =>
           let '(blanks, rest) := span space_or_tab after in
           let '(_, rest) := span (fun c => negb (token_end c)) rest in
           Ok (before +:+ anchor +:+ blanks +:+ target +:+ rest)
       end.

(** ** go.mod *)

Section GoMod.
Context (module expectedVersion targetVersion : string).

(** What the fields of a line mean in a require block, or outside one. *)
Inductive line_kind := Plain | BlockOpens | BlockCloses | Requires (version : string).
Definition classify (inRequireBlock : bool) (fields : list string) : line_kind :=
  if inRequireBlock then
    match fields with
    | [] => Plain
    | first :: rest =>
        if String.eqb first ")" then BlockCloses
        else match rest with
             | version :: _ => if String.eqb first module then Requires version else Plain
             | [] => Plain
             end
    end
  else
    match fields with
    | "require" :: rest =>
        match rest with
        | ["("] => BlockOpens
        | second :: version :: _ => if String.eqb second module then Requires version else Plain
        | _ => Plain
        end
    | _ => Plain
    end.
Definition fields_of (line : string) : list string := Fields (TrimSpace (before_comment (trimLineEnding line))).
(** The lines updated, and how many requirements were. *)
Fixpoint go_mod_lines (inRequireBlock : bool) (lines : list string) : result (list string * Z) :=
  match lines with
  | [] => Ok ([], 0)
  | line :: lines =>
      match classify inRequireBlock (fields_of line) with
      | Plain => let* (updated, matches) := go_mod_lines inRequireBlock lines in Ok (line :: updated, matches)
      | BlockOpens => let* (updated, matches) := go_mod_lines true lines in Ok (line :: updated, matches)
      | BlockCloses => let* (updated, matches) := go_mod_lines false lines in Ok (line :: updated, matches)
      | Requires version =>
          let* line := replaceManifestToken line module version expectedVersion targetVersion in
          let* (updated, matches) := go_mod_lines inRequireBlock lines in Ok (line :: updated, matches + 1)
      end
  end.
Definition updateGoModRequirement (contents : string) : result string :=
  let* (lines, matches) := go_mod_lines false (splitLines contents) in
  if negb (matches =? 1) then
    Err (Errorf [T "expected exactly one require for "; T module; T ", found "; T (Itoa matches)])
  else Ok (join_lines lines).
End GoMod.

(** ** pubspec.yaml *)

(** The value, and the comment that a [#] at its start or after a blank begins. *)
Fixpoint cut_yaml_comment (after_blank : bool) (value : string) : option (string * string) :=
  match value with
  | EmptyString => None
  | String c r =>
      if Ascii.eqb c "#" && after_blank then Some (EmptyString, value)
      else match cut_yaml_comment (space_or_tab c) r with
           | Some (before, comment) => Some (String c before, comment)
           | None => None
           end
  end.
Definition splitYAMLComment (value : string) : string * string :=
  match cut_yaml_comment true value with
  | Some (before, comment) => (TrimSpace before, TrimSpace comment)
  | None => (TrimSpace value, EmptyString)
  end.
(** A constraint in single or double quotes, without them. *)
Definition unquote (constraint : string) : string * string :=
  match constraint with
  | String q r =>
      if Ascii.eqb q (chr 39) || Ascii.eqb q (chr 34) then
        match cut_suffix q r with
        | (inner, EmptyString) => (EmptyString, constraint)
        | (inner, _) => (String q EmptyString, inner)
        end
      else (EmptyString, constraint)
  | EmptyString => (EmptyString, constraint)
  end.

Section Pubspec.
Context (packageName expectedConstraint targetConstraint : string).

Inductive yaml_kind := Skipped | Opens (section : string) | Entry (value : string).
Definition classify_yaml (section plain : string) : yaml_kind :=
  let trimmed := TrimSpace plain in
  if String.eqb trimmed "" || has_prefix "#" trimmed then Skipped
  else if match plain with String c _ => negb (space_or_tab c) | EmptyString => false end then
    let '(name, _, found) := cut ":" trimmed in if found then Opens (TrimSpace name) else Skipped
  else if negb (String.eqb section "dependencies") then Skipped
  else let '(key, value, found) := cut ":" trimmed in
       if negb found || negb (String.eqb (TrimSpace key) packageName) then Skipped else Entry (TrimSpace value).
Definition update_entry (plain ending value : string) : result string :=
  if String.eqb value "" then Err (Errorf [T packageName; T " must use a scalar version constraint"])
  else
    let '(constraint, suffix) := splitYAMLComment value in
    let '(quote, constraint) := unquote constraint in
    if negb (String.eqb constraint expectedConstraint) then Err (version_mismatch packageName constraint expectedConstraint)
    else
      let '(prefix, _, _) := cut ":" plain in
      let replacement := " " +:+ quote +:+ targetConstraint +:+ quote in
      Ok (prefix +:+ ":" +:+ replacement +:+ (if String.eqb suffix "" then "" else " " +:+ suffix) +:+ ending).
Fixpoint pubspec_lines (section : string) (lines : list string) : result (list string * Z) :=
  match lines with
  | [] => Ok ([], 0)
  | line :: lines =>
      let '(plain, ending) := line_and_ending line in
      match classify_yaml section plain with
      | Skipped => let* (updated, matches) := pubspec_lines section lines in Ok (line :: updated, matches)
      | Opens section => let* (updated, matches) := pubspec_lines section lines in Ok (line :: updated, matches)
      | Entry value =>
          let* line := update_entry plain ending value in
          let* (updated, matches) := pubspec_lines section lines in Ok (line :: updated, matches + 1)
      end
  end.
Definition updatePubspecDependency (contents : string) : result string :=
  let* (lines, matches) := pubspec_lines "" (splitLines contents) in
  if negb (matches =? 1) then
    Err (Errorf [T "expected exactly one "; T packageName; T " entry under dependencies, found "; T (Itoa matches)])
  else Ok (join_lines lines).
End Pubspec.

(** ** Metadata *)

Definition lf : string := String newline EmptyString.
(** The members of an object or array, one per line. *)
Definition indented (opening closing indent : string) (members : list string) : string :=
  opening +:+ lf +:+ join ("," +:+ lf) ((fun m => indent +:+ "  " +:+ m) <$> members) +:+ lf +:+ indent +:+ closing.
Definition indented_member (name value : string) : string := encode_string name +:+ ": " +:+ value.
Definition optional_member (omitted : bool) (name value : string) : list string :=
  if omitted then [] else [indented_member name value].
(** [json.MarshalIndent(metadata, "", "  ")]. *)
Definition encode_ui (ui : projectUI) : string :=
  indented "{" "}" "  " [indented_member "mode" (encode_string (ui_Mode ui)); indented_member "preset" (encode_string (ui_Preset ui));
                         indented_member "dist" (encode_string (ui_Dist ui))].
Definition marshal_metadata (m : projectMetadata) : string :=
  indented "{" "}" "" (
    match UI m with Some ui => [indented_member "ui" (encode_ui ui)] | None => [] end ++
    [indented_member "schemaVersion" (Itoa (SchemaVersion m)); indented_member "projectName" (encode_string (ProjectName m));
     indented_member "goModule" (encode_string (GoModule m)); indented_member "frameworkModule" (encode_string (FrameworkModule m))] ++
    optional_member (String.eqb (FrameworkVersion m) "") "frameworkVersion" (encode_string (FrameworkVersion m)) ++
    optional_member (TemplateVersion m =? 0) "templateVersion" (Itoa (TemplateVersion m)) ++
    optional_member (ProtocolVersion m =? 0) "protocolVersion" (Itoa (ProtocolVersion m)) ++
    optional_member (is_empty (Platforms m)) "platforms" (indented "[" "]" "  " (encode_string <$> Platforms m))).

(** The template's version stays: new dependencies do not prove that it was adopted. *)
Definition updated_metadata (m : projectMetadata) (tgt : upgradeTarget) : projectMetadata :=
  MkMetadata (UI m) (tgt_ProjectMetadataVersion tgt) (ProjectName m) (GoModule m) (FrameworkModule m) (tgt_FrameworkVersion tgt)
    (TemplateVersion m) (ProtocolVersion m) (Platforms m).
Definition FlutterPackage := "bridra_flutter".
Definition labelled {A} (label : string) (r : result A) : result A :=
  match r with Err err => Err (Errorf [T label; T ": "; W err]) | r => r end.
(** The new contents of go.mod, pubspec.yaml and the metadata. *)
Definition prepareUpgradeFiles (goMod pubspec : string) (m : projectMetadata) (tgt : upgradeTarget) : result (string * string * string) :=
  let* goMod := labelled "prepare backend/go.mod"
    (updateGoModRequirement (FrameworkModule m) ("v" +:+ FrameworkVersion m) ("v" +:+ tgt_FrameworkVersion tgt) goMod) in
  let* pubspec := labelled "prepare pubspec.yaml"
    (updatePubspecDependency FlutterPackage ("^" +:+ FrameworkVersion m) ("^" +:+ tgt_FrameworkVersion tgt) pubspec) in
  Ok (goMod, pubspec, marshal_metadata (updated_metadata m tgt) +:+ lf).
