(* ===== verification/UpgradePlan.v ===== *)
(** * What a plan may be applied automatically

    A plan that offers [--apply] is one chain of migrations from the project's
    release to the target, each automatic on the project's platforms, of a
    project whose contract is consistent and whose template needs nothing by
    hand.  Every other plan says what is missing and offers nothing. *)
From S2P Require Import Prelude GoStrings SemanticVersion Project Upgrade UpgradeFacts UpgradeReleases UpgradeManifest.
Open Scope Z_scope.
Open Scope go_scope.

Definition automatic (s : upgradePlanStep) : Prop := step_Automatic s = true.
Lemma forallb_automatic l : forallb step_Automatic l = true <-> Forall automatic l.
Proof. induction l as [|s l IH]; cbn; [done|]. by rewrite andb_true_iff, Forall_cons, IH. Qed.
Lemma finalize_apply r : rep_ApplyAvailable (finalize r) = true <->
  rep_Status r = upgradeMigrationRequired /\ rep_PlanAvailable r = true /\ rep_Steps r <> [] /\ Forall automatic (rep_Steps r).
Proof.
  unfold finalize. cbn [rep_ApplyAvailable replan]. rewrite !andb_true_iff, bool_decide_eq_true, negb_true_iff, forallb_automatic.
  assert (is_empty (rep_Steps r) = false <-> rep_Steps r <> []) as -> by (by destruct (rep_Steps r)). tauto.
Qed.

(** ** Steps in order *)

Definition numbered (steps : list upgradePlanStep) : list upgradePlanStep := imap (fun i => with_order (i + 1)) steps.

Lemma numbered_numbered l : numbered (numbered l) = numbered l.
Proof. unfold numbered. apply list_eq. intros i. rewrite !list_lookup_imap. by destruct (l !! i). Qed.
Lemma numbered_automatic l : Forall automatic (numbered l) <-> Forall automatic l.
Proof.
  rewrite !Forall_lookup. unfold numbered. split; intros H i s.
  - intros Hs. specialize (H i (with_order (i + 1) s)). rewrite list_lookup_imap, Hs in H. by apply H.
  - rewrite list_lookup_imap. destruct (l !! i) eqn:E; [|done]. intros [= <-]. exact (H i _ E).
Qed.

Lemma add_framework_steps_spec platforms path r :
  rep_Steps (add_framework_steps platforms path r) =
    rep_Steps r ++ imap (fun i => with_order (length (rep_Steps r) + i + 1)) (framework_step platforms <$> path) /\
  rep_Status (add_framework_steps platforms path r) = rep_Status r /\
  rep_PlanAvailable (add_framework_steps platforms path r) = rep_PlanAvailable r.
Proof.
  unfold add_framework_steps. revert r. induction path as [|m path IH]; intros r; cbn [fold_left fmap list_fmap imap].
  - by rewrite app_nil_r.
  - destruct (IH (addStep (framework_step platforms m) r)) as (-> & -> & ->). split; [|done].
    unfold addStep. cbn [rep_Steps set_steps replan]. rewrite length_app, <- app_assoc. cbn [app length]. f_equal.
    f_equal; [f_equal; lia|]. apply imap_ext. intros i s _. cbn. f_equal. lia.
Qed.
Lemma framework_step_automatic platforms m : step_Automatic (framework_step platforms m) = (migrationForPlatforms m platforms).1.
Proof. unfold framework_step. by destruct (migrationForPlatforms m platforms). Qed.
Lemma framework_step_ID platforms m : step_ID (framework_step platforms m) = ID m.
Proof. unfold framework_step. by destruct (migrationForPlatforms m platforms). Qed.

(** ** The parts of a plan *)

Lemma plan_protocol_keeps metadata tgt r :
  rep_Status (plan_protocol metadata tgt r) = rep_Status r /\ rep_PlanAvailable (plan_protocol metadata tgt r) = rep_PlanAvailable r /\
  rep_Steps (plan_protocol metadata tgt r) = rep_Steps r.
Proof. unfold plan_protocol. by repeat case_match. Qed.

Lemma compareIntegerContract_apply name project wanted action kind r :
  let r' := compareIntegerContract name project wanted action kind r in
  rep_Status r' = upgradeMigrationRequired -> rep_PlanAvailable r' = true -> Forall automatic (rep_Steps r') ->
  project = wanted /\ r' = r.
Proof.
  unfold compareIntegerContract. destruct (Z.ltb_spec project wanted); [|destruct (Z.ltb_spec wanted project)]; cbn.
  - destruct (rep_PlanAvailable r) eqn:E; cbn; intros _ Hp; [|congruence].
    rewrite Forall_app, Forall_singleton. by intros [_ ?].
  - done.
  - intros _ _ _. split; [lia|done].
Qed.

Lemma missing_adoptions_nil metadata steps required :
  missing_adoptions metadata steps required = [] <-> Forall (fun m => exists s, s ∈ steps /\ step_ID s = ID m) required.
Proof.
  unfold missing_adoptions. induction required as [|m ms IH]; cbn [List.filter fmap list_fmap]; [done|].
  rewrite Forall_cons, <- IH. destruct (existsb (fun s => String.eqb (step_ID s) (ID m)) steps) eqn:E; cbn [negb].
  - apply existsb_exists in E as (s & Hs%list_elem_of_In & He%String.eqb_eq). split; [|by intros [_ ?]]. intros ?. split; [by exists s|done].
  - split; [done|]. intros [(s & Hs & He) _]. exfalso. rewrite <- not_true_iff_false, existsb_exists in E. apply E.
    exists s. split; [by apply list_elem_of_In|]. by apply String.eqb_eq.
Qed.
Lemma missing_adoptions_manual metadata steps required s : s ∈ missing_adoptions metadata steps required -> ~ automatic s.
Proof. unfold missing_adoptions. by intros (m & -> & _)%list_elem_of_fmap. Qed.

(** What a template older than the target's asks for: nothing, where each
    migration of the adoption path is already adopted or automatic. *)
Definition adoption_of (metadata : projectMetadata) (tgt : upgradeTarget) (catalog : upgradeCatalog) (path : list frameworkMigration) : Prop :=
  exists source,
    adoption_source (TemplateVersion metadata) (version_of (FrameworkVersion metadata)) "" (Releases catalog) = Ok source /\
    migrationPath catalog source (tgt_FrameworkVersion tgt) = Some (Ok (path, true)).

Lemma planTemplateAdoption_apply metadata tgt catalog r r' :
  planTemplateAdoption metadata tgt catalog r = Some (Ok r') ->
  rep_Status r' = upgradeMigrationRequired -> rep_PlanAvailable r' = true -> Forall automatic (rep_Steps r') ->
  (TemplateVersion metadata = tgt_TemplateVersion tgt /\ r' = r) \/
  (exists path, adoption_of metadata tgt catalog path /\
     Forall (fun m => exists s, s ∈ rep_Steps r /\ step_ID s = ID m) (List.filter (manual_adoption (Releases catalog) metadata) path) /\
     rep_Steps r' = numbered (rep_Steps r) /\ rep_PlanAvailable r = true /\
     (List.filter (manual_adoption (Releases catalog) metadata) path = [] -> rep_Status r = upgradeMigrationRequired)).
Proof.
  unfold planTemplateAdoption. intros H Hs Hp Ha. destruct (Z.leb_spec (tgt_TemplateVersion tgt) (TemplateVersion metadata)) as [Hl|Hl].
  { injection H as <-. left. by eapply compareIntegerContract_apply. }
  destruct (rep_PlanAvailable r) eqn:Ep; cbn [negb] in H; [|injection H as <-; congruence].
  destruct (adoption_source _ _ _ _) as [source|e|p] eqn:Esource; cbn [outcome_bind] in H; try done.
  assert (forall path available, (if String.eqb source "" then Some (Ok ([], false))
      else adoption_path_error (migrationPath catalog source (tgt_FrameworkVersion tgt))) = Some (Ok (path, available)) ->
    available = true -> adoption_of metadata tgt catalog path) as Hpath.
  { intros path available. destruct (String.eqb source ""); [by intros [= _ <-]|]. unfold adoption_path_error.
    destruct (migrationPath _ _ _) as [[[path' available']|e|p]|] eqn:E; try done. intros [= -> ->] ->. by exists source. }
  destruct (if String.eqb source "" then _ else _) as [[[path available]|e|p]|]; cbn [outcome_bind] in H; try done.
  specialize (Hpath path available eq_refl). destruct available; cbn [negb] in H; injection H as <-.
  2: { apply compareIntegerContract_apply in Hs as [? _]; [lia|done..]. }
  right. exists path. split; [by apply Hpath|]. unfold adopt_template in *. set (required := List.filter _ _) in *. fold (numbered (missing_adoptions metadata (rep_Steps r) required ++ rep_Steps r)) in *.
  assert (missing_adoptions metadata (rep_Steps r) required = []) as Hm.
  { destruct (missing_adoptions _ _ _) as [|s l] eqn:E; [done|]. exfalso. eapply (missing_adoptions_manual metadata (rep_Steps r) required s).
    - rewrite E. by left.
    - assert (Forall automatic (numbered ((s :: l) ++ rep_Steps r))) as Ha' by (by destruct (is_empty required)).
      apply (proj1 (numbered_automatic _)) in Ha'. by apply Forall_cons in Ha' as [? _]. }
  rewrite Hm in *. split; [by apply missing_adoptions_nil in Hm|]. split; [by destruct (is_empty required)|]. split; [done|].
  intros E. rewrite E in Hs. done.
Qed.

(** ** Planning ends *)

Lemma migrationPath_returns catalog from to : well_formed catalog -> exists o, migrationPath catalog from to = Some o.
Proof.
  intros Hwf. destruct (parseSemanticVersion from) as [vf|e|p] eqn:Ef; [|by unfold migrationPath; rewrite Ef; eexists..].
  destruct (parseSemanticVersion to) as [vt|e|p] eqn:Et; [|by unfold migrationPath; rewrite Ef, Et; eexists..].
  destruct (Z.lt_ge_cases (compareSemanticVersions vf vt) 0) as [Hl|Hl].
  - destruct (migrationPath_spec catalog from to vf vt Hwf Ef Et Hl) as (path & available & -> & _). eauto.
  - unfold migrationPath. rewrite Ef, Et. cbn [prefixed outcome_bind]. destruct (Z.eqb_spec (compareSemanticVersions vf vt) 0); [eauto|].
    rewrite (proj2 (Z.ltb_lt _ _)) by lia. eauto.
Qed.
Lemma outcome_bind_returns {A B} (o : outcome A) (k : A -> outcome B) :
  (exists r, o = Some r) -> (forall a, exists r, k a = Some r) -> exists r, outcome_bind o k = Some r.
Proof. intros [[a|e|p] ->] H; cbn; eauto. Qed.
Lemma planTemplateAdoption_returns metadata tgt catalog r : well_formed catalog ->
  exists o, planTemplateAdoption metadata tgt catalog r = Some o.
Proof.
  intros Hwf. unfold planTemplateAdoption. destruct (_ <=? _); [eauto|]. destruct (negb _); [eauto|].
  apply outcome_bind_returns; [eauto|]. intros source. apply outcome_bind_returns.
  - destruct (String.eqb source ""); [eauto|]. destruct (migrationPath_returns catalog source (tgt_FrameworkVersion tgt) Hwf) as [[] ->]; cbn; eauto.
  - intros [path available]. destruct (negb available); eauto.
Qed.
Lemma plan_framework_returns metadata tgt catalog c r : well_formed catalog -> exists o, plan_framework metadata tgt catalog c r = Some o.
Proof.
  intros Hwf. unfold plan_framework. destruct (c <? 0); [|destruct (0 <? c); eauto].
  destruct (migrationPath_returns catalog (FrameworkVersion metadata) (tgt_FrameworkVersion tgt) Hwf) as [[[path available]|e|p] ->]; [|eauto..].
  destruct (negb available); eauto.
Qed.
Lemma evaluateUpgrade_returns contract metadata tgt catalog : well_formed catalog ->
  exists o, evaluateUpgrade contract metadata tgt catalog = Some o.
Proof.
  intros Hwf. unfold evaluateUpgrade. apply outcome_bind_returns; [eauto|]. intros targetVersion.
  destruct (isWebUI metadata); [eauto|]. destruct (_ <? _); [eauto|]. destruct (_ =? _); [eauto|]. destruct contract; [eauto|].
  apply outcome_bind_returns; [eauto|]. intros projectVersion. apply outcome_bind_returns; [by apply plan_framework_returns|].
  intros r. apply outcome_bind_returns; [by apply planTemplateAdoption_returns|]. eauto.
Qed.

(** ** What is applied *)

Lemma ordered_from_inj original m m' : ordered_from original m -> ordered_from original m' -> m = m'.
Proof. intros (rs & E & ->) (rs' & E' & ->). congruence. Qed.
(** IDs tell the migrations of a catalog apart. *)
Definition distinct_IDs (catalog : upgradeCatalog) : Prop := NoDup (ID <$> Migrations catalog).
Lemma same_ID catalog m m' : distinct_IDs catalog -> in_catalog catalog m -> in_catalog catalog m' -> ID m = ID m' -> m = m'.
Proof.
  intros Hnd (o & Ho & Hm) (o' & Ho' & Hm') E.
  assert (o = o') as ->; [|by eapply ordered_from_inj].
  apply ordered_from_ends in Hm as (_ & _ & E1), Hm' as (_ & _ & E2).
  apply list_elem_of_lookup in Ho as [i Hi], Ho' as [j Hj].
  assert (i = j) as ->; [|congruence]. apply (NoDup_lookup (ID <$> Migrations catalog) i j (ID o)); [done|by rewrite list_lookup_fmap, Hi|].
  rewrite list_lookup_fmap, Hj. cbn. congruence.
Qed.

(** The path of the framework's part, where it leaves a plan to apply. *)
Lemma plan_framework_apply metadata tgt catalog c r :
  plan_framework metadata tgt catalog c (new_report metadata tgt) = Some (Ok r) ->
  (c = 0 /\ rep_Steps r = [] /\ rep_Status r = upgradeCurrent) \/ rep_PlanAvailable r = false \/
  (c < 0 /\ exists path, migrationPath catalog (FrameworkVersion metadata) (tgt_FrameworkVersion tgt) = Some (Ok (path, true)) /\
    rep_Steps r = numbered (framework_step (Platforms metadata) <$> path)).
Proof.
  unfold plan_framework. destruct (Z.ltb_spec c 0); [|destruct (Z.ltb_spec 0 c)].
  - destruct (migrationPath _ _ _) as [[[path available]|e|p]|]; try done. destruct available; cbn [negb]; intros [= <-]; [|by right; left].
    right; right. split; [done|]. exists path. split; [done|]. by destruct (add_framework_steps_spec (Platforms metadata) path
      (requireMigration (olderVersionDiagnostic "framework_upgrade_required" "framework" (FrameworkVersion metadata) (tgt_FrameworkVersion tgt)
         "Review every ordered migration step, then update the Go and Flutter framework dependencies together.") (new_report metadata tgt))) as (-> & _).
  - intros [= <-]. by right; left.
  - intros [= <-]. left. split; [lia|done].
Qed.

Lemma framework_steps_automatic platforms path :
  Forall automatic (numbered (framework_step platforms <$> path)) <-> Forall (fun m => (migrationForPlatforms m platforms).1 = true) path.
Proof. rewrite numbered_automatic, Forall_fmap. apply Forall_iff. intros m. cbn. unfold automatic. by rewrite framework_step_automatic. Qed.

Lemma framework_step_of platforms path s : s ∈ numbered (framework_step platforms <$> path) ->
  exists m, m ∈ path /\ step_ID s = ID m.
Proof.
  unfold numbered. intros (i & s' & -> & Hs)%elem_of_lookup_imap. rewrite list_lookup_fmap in Hs.
  destruct (path !! i) as [m|] eqn:E; [|done]. injection Hs as <-. exists m. split; [by eapply list_elem_of_lookup_2|]. apply framework_step_ID.
Qed.

Lemma migrationPath_in_catalog catalog from to path : well_formed catalog ->
  migrationPath catalog from to = Some (Ok (path, true)) -> Forall (in_catalog catalog) path.
Proof.
  intros Hwf E. destruct (parseSemanticVersion from) as [vf|e|p] eqn:Ef; [|by unfold migrationPath in E; rewrite Ef in E..].
  destruct (parseSemanticVersion to) as [vt|e|p] eqn:Et; [|by unfold migrationPath in E; rewrite Ef, Et in E..].
  destruct (Z.lt_ge_cases (compareSemanticVersions vf vt) 0) as [Hl|Hl].
  - destruct (migrationPath_spec catalog from to vf vt Hwf Ef Et Hl) as (path' & available & E' & H).
    rewrite E' in E. injection E as -> ->. destruct H as [C _]. clear -C. revert from C.
    induction path as [|m path IH]; intros from; cbn; [by constructor|]. intros (Hm & _ & C). constructor; [done|by eapply IH].
  - unfold migrationPath in E. rewrite Ef, Et in E. cbn [prefixed outcome_bind] in E.
    destruct (Z.eqb_spec (compareSemanticVersions vf vt) 0); [injection E as <-; by constructor|].
    rewrite (proj2 (Z.ltb_lt _ _)) in E by lia. done.
Qed.
Lemma migrationPath_chain catalog from to vf vt path : well_formed catalog ->
  parseSemanticVersion from = Ok vf -> parseSemanticVersion to = Ok vt -> compareSemanticVersions vf vt < 0 ->
  migrationPath catalog from to = Some (Ok (path, true)) -> chain (in_catalog catalog) from path to.
Proof.
  intros Hwf Ef Et Hl E. destruct (migrationPath_spec catalog from to vf vt Hwf Ef Et Hl) as (path' & available & E' & H).
  rewrite E' in E. injection E as -> ->. by destruct H.
Qed.

(** Nothing to adopt is missing from a plan whose steps are all automatic. *)
Lemma no_manual_adoption catalog metadata path apath :
  distinct_IDs catalog -> Forall (in_catalog catalog) path -> Forall (in_catalog catalog) apath ->
  Forall (fun m => (migrationForPlatforms m (Platforms metadata)).1 = true) path ->
  Forall (fun m => exists s, s ∈ numbered (framework_step (Platforms metadata) <$> path) /\ step_ID s = ID m)
    (List.filter (manual_adoption (Releases catalog) metadata) apath) ->
  List.filter (manual_adoption (Releases catalog) metadata) apath = [].
Proof.
  intros Hnd Hp Hap Hauto Hall. destruct (List.filter _ apath) as [|m l] eqn:E; [done|]. exfalso.
  apply Forall_cons in Hall as [(s & Hs & Hid) _]. apply framework_step_of in Hs as (m' & Hm' & Hid').
  assert (In m apath /\ manual_adoption (Releases catalog) metadata m = true) as [Hm Hman]
    by (apply filter_In; rewrite E; by left).
  apply list_elem_of_In in Hm. rewrite Forall_forall in Hp, Hap, Hauto.
  assert (m = m') as -> by (apply (same_ID catalog); [done|by apply Hap|by apply Hp|congruence]).
  unfold manual_adoption in Hman. rewrite (Hauto m' Hm') in Hman. cbn [negb] in Hman. by rewrite andb_false_r in Hman.
Qed.

(** Planning ends, and a plan that may be applied automatically belongs to
    a project whose contract is consistent and is exactly one chain of the
    catalog's migrations from the project's release to the target, numbered,
    each automatic on the project's platforms; its template is the target's, or
    no registered change of a newer template is left to adopt by hand. *)
Theorem automatic_plan_is_complete contract metadata tgt catalog :
  well_formed catalog -> distinct_IDs catalog ->
  (exists o, evaluateUpgrade contract metadata tgt catalog = Some o) /\
  forall r, evaluateUpgrade contract metadata tgt catalog = Some (Ok r) -> rep_ApplyAvailable r = true ->
    contract = None /\ isWebUI metadata = false /\ SchemaVersion metadata <> 1 /\ SchemaVersion metadata <= tgt_ProjectMetadataVersion tgt /\
    exists path, path <> [] /\ chain (in_catalog catalog) (FrameworkVersion metadata) path (tgt_FrameworkVersion tgt) /\
      Forall (fun m => (migrationForPlatforms m (Platforms metadata)).1 = true) path /\
      rep_Steps r = numbered (framework_step (Platforms metadata) <$> path) /\
      (TemplateVersion metadata = tgt_TemplateVersion tgt \/
       exists adoption, adoption_of metadata tgt catalog adoption /\
         List.filter (manual_adoption (Releases catalog) metadata) adoption = []).
Proof.
  intros Hwf Hnd. split; [by apply evaluateUpgrade_returns|]. intros r H Ha. unfold evaluateUpgrade in H.
  destruct (parseSemanticVersion (tgt_FrameworkVersion tgt)) as [vt|e|p] eqn:Et; cbn [prefixed outcome_bind] in H; try done.
  destruct (isWebUI metadata) eqn:Ew; [by injection H as <-|]. destruct (Z.ltb_spec (tgt_ProjectMetadataVersion tgt) (SchemaVersion metadata)); [by injection H as <-|].
  destruct (Z.eqb_spec (SchemaVersion metadata) 1) as [E1|N1]; [by injection H as <-|]. destruct contract as [err|]; [by injection H as <-|].
  destruct (parseSemanticVersion (FrameworkVersion metadata)) as [vp|e|p] eqn:Ef; cbn [prefixed outcome_bind] in H; try done.
  destruct (plan_framework _ _ _ _ _) as [[r1|e|p]|] eqn:E1; cbn [outcome_bind] in H; try done.
  destruct (planTemplateAdoption _ _ _ _) as [[r2|e|p]|] eqn:E2; cbn [outcome_bind] in H; try done.
  injection H as <-. apply finalize_apply in Ha as (Hs & Hp & Hne & Hauto).
  destruct (plan_protocol_keeps metadata tgt r2) as (Es & Ep & Est). rewrite Es in Hs. rewrite Ep in Hp. rewrite Est in Hne, Hauto.
  do 4 (split; [done|]). pose proof (planTemplateAdoption_apply _ _ _ _ _ E2 Hs Hp Hauto) as Hcase.
  apply plan_framework_apply in E1 as [(_ & E0 & Ec)|[Ep'|(Hlt & path & Epath & Esteps)]].
  { destruct Hcase as [[_ ->]|(apath & _ & _ & Er & _)]; [congruence|]. by rewrite E0 in Er. }
  { destruct Hcase as [[_ ->]|(apath & _ & _ & _ & Er & _)]; congruence. }
  assert (rep_Steps r2 = numbered (framework_step (Platforms metadata) <$> path)) as Er2.
  { destruct Hcase as [[_ ->]|(apath & _ & _ & -> & _)]; [done|]. by rewrite Esteps, numbered_numbered. }
  rewrite Er2 in Hne, Hauto. apply framework_steps_automatic in Hauto. exists path. split; [by intros ->|].
  split; [by eapply migrationPath_chain|]. split; [done|]. split; [unfold finalize; cbn [rep_Steps replan]; by rewrite Est|].
  destruct Hcase as [[? _]|(apath & Had & Hpresent & _)]; [by left|right]. exists apath. split; [done|].
  rewrite Esteps in Hpresent. pose proof Had as (source & _ & Eap).
  eapply (no_manual_adoption catalog metadata path apath); eauto using migrationPath_in_catalog.
Qed.

(** ** The registered catalog *)

#[export] Instance valid_requirement_dec r : Decision (valid_requirement r).
Proof. unfold valid_requirement. apply _. Defined.
#[export] Instance forward_dec m : Decision (forward m).
Proof. unfold forward. apply _. Defined.
#[export] Instance valid_migration_dec known m : Decision (valid_migration known m).
Proof. unfold valid_migration. apply _. Defined.

Lemma registered_well_formed : well_formed registered_catalog.
Proof.
  constructor.
  - apply (bool_decide_unpack _). vm_compute. exact I.
  - apply (bool_decide_unpack _). vm_compute. exact I.
Qed.
Lemma registered_distinct : distinct_IDs registered_catalog.
Proof. unfold distinct_IDs. apply (bool_decide_unpack _). vm_compute. exact I. Qed.

(** From every registered release the search finds the migrations to the
    newest one, through all the releases between them and in their order. *)
Theorem registered_releases_reach_newest i release :
  registeredUpgradeReleases !! i = Some release ->
  migrationPath registered_catalog (rel_FrameworkVersion release) (cat_DefaultTarget registered_catalog) =
    Some (Ok (drop i registeredFrameworkMigrations, true)).
Proof.
  intros H.
  assert (imap (fun _ r => migrationPath registered_catalog (rel_FrameworkVersion r) (cat_DefaultTarget registered_catalog)) registeredUpgradeReleases =
    imap (fun i _ => Some (Ok (drop i registeredFrameworkMigrations, true))) registeredUpgradeReleases) as E by (vm_compute; reflexivity).
  apply (f_equal (fun l => l !! i)) in E. rewrite !list_lookup_imap, H in E. by injection E.
Qed.
Lemma registered_releases_reach_newest_witness :
  exists path, migrationPath registered_catalog "0.23.2" "0.24.1" = Some (Ok (path, true)) /\ length path = 2%nat.
Proof.
  eexists. split; [exact (registered_releases_reach_newest 27 (MkRelease "0.23.2" 3 9 1) eq_refl)|reflexivity].
Defined.

(** A project two releases behind, on a template that needs nothing. *)
Lemma automatic_plan_is_complete_witness :
  exists r, let metadata := MkMetadata None 3 "notes" "example/notes" "example/bridra" "0.23.2" 9 4 [Linux; MacOS] in
    evaluateUpgrade None metadata (MkTarget "0.24.1" 3 "0.24.1" 9 1) registered_catalog = Some (Ok r) /\
    rep_ApplyAvailable r = true /\ length (rep_Steps r) = 2%nat /\
    exists path, chain (in_catalog registered_catalog) "0.23.2" path "0.24.1".
Proof.
  destruct (automatic_plan_is_complete None (MkMetadata None 3 "notes" "example/notes" "example/bridra" "0.23.2" 9 4 [Linux; MacOS])
    (MkTarget "0.24.1" 3 "0.24.1" 9 1) registered_catalog registered_well_formed registered_distinct) as [_ H].
  eexists. cbv zeta. split; [vm_compute; reflexivity|]. split; [reflexivity|]. split; [reflexivity|].
  edestruct H as (_ & _ & _ & _ & path & _ & C & _); [vm_compute; reflexivity|reflexivity|]. exists path. exact C.
Defined.

(** ** The metadata an upgrade writes

    Whether the command line can read back the metadata that an upgrade wrote.
    Loading fills the platforms of a project of version 2 in, and an upgrade
    writes what was loaded: a target that keeps version 2 gets platforms that
    version 2 does not allow. *)

(** ** Platforms in order *)

Definition chosen (selected : gset string) : list string := filter (fun platform => platform ∈ selected) All.

Lemma select_spec values : forall selected selected', select selected values = Ok selected' ->
  selected ⊆ selected' /\ forall v, v ∈ values -> TrimSpace (to_lower v) ∈ selected' /\ TrimSpace (to_lower v) ∈ All.
Proof.
  induction values as [|v values IH]; intros s s'; cbn [select].
  - intros [= <-]. split; [done|]. by intros v ?%not_elem_of_nil.
  - destruct (Contains All (TrimSpace (to_lower v))) eqn:Ec; cbn [negb]; [|done].
    destruct (bool_decide _); [done|]. intros H. apply IH in H as [Hs Hv]. split; [set_solver|].
    intros w [->|Hw]%elem_of_cons; [|by apply Hv]. split; [set_solver|].
    apply existsb_exists in Ec as (p & Hp%list_elem_of_In & E%String.eqb_eq). by rewrite <- E.
Qed.
Lemma Normalize_chosen values ps : Normalize values = Ok ps -> exists selected, ps = chosen selected /\ ps <> [].
Proof.
  unfold Normalize. destruct values as [|v values]; [done|]. destruct (select ∅ (v :: values)) as [s|e|p] eqn:E; cbn [result_bind]; try done.
  intros [= <-]. exists s. split; [done|]. destruct (select_spec _ _ _ E) as [_ H]. destruct (H v ltac:(by left)) as [Hs Ha].
  intros Hn. assert (TrimSpace (to_lower v) ∈ chosen s) as Hin by (by apply list_elem_of_filter). unfold chosen in Hin. rewrite Hn in Hin.
  by apply not_elem_of_nil in Hin.
Qed.
(** Normalizing what is normalized changes nothing. *)
Lemma Normalize_chosen_again selected : chosen selected <> [] -> Normalize (chosen selected) = Ok (chosen selected).
Proof.
  unfold chosen, All. rewrite !filter_cons, filter_nil.
  destruct (decide (Android ∈ selected)), (decide (IOS ∈ selected)), (decide (Linux ∈ selected)), (decide (MacOS ∈ selected)),
    (decide (Windows ∈ selected)), (decide (Web ∈ selected)); intros Hne; try (vm_compute; reflexivity); done.
Qed.
Lemma metadata_platforms_again m m' ps :
  metadata_platforms m = Ok ps -> isWebUI m' = false -> 2 < SchemaVersion m' -> Platforms m' = ps -> metadata_platforms m' = Ok ps.
Proof.
  unfold metadata_platforms. intros H Hw Hv ->. rewrite (proj2 (Z.leb_gt _ _)), Hw by done.
  assert (exists selected, ps = chosen selected /\ ps <> []) as (s & -> & Hne).
  { destruct (_ <=? 2).
    - injection H as <-. exists (list_to_set All). by split; [vm_compute|].
    - destruct (Normalize (Platforms m)) as [qs|e|p] eqn:E; try done. destruct (if isWebUI m then _ else _); [done|]. injection H as ->.
      by eapply Normalize_chosen. }
  by rewrite Normalize_chosen_again.
Qed.

(** ** What is loaded *)

Lemma decode_inv m0 single m : decodeProjectMetadata (Ok m0) single = Ok m ->
  exists ps, m = with_platforms ps m0 /\ metadata_platforms m0 = Ok ps /\ check_contract_versions m0 = Ok tt /\ check_ui m0 = Ok tt /\
    blank (ProjectName m0) || blank (GoModule m0) || blank (FrameworkModule m0) = false.
Proof.
  unfold decodeProjectMetadata. intros H. destruct (negb single); [done|].
  destruct (check_schema_version m0) as [[]|e|p]; cbn [result_bind] in H; try done.
  destruct (check_contract_versions m0) as [[]|e|p]; cbn [result_bind] in H; try done.
  destruct (check_ui m0) as [[]|e|p]; cbn [result_bind] in H; try done.
  destruct (metadata_platforms m0) as [ps|e|p]; cbn [result_bind] in H; try done.
  destruct (blank _ || _ || _) eqn:E; [done|]. injection H as <-. by exists ps.
Qed.

Lemma platforms_not_empty m ps : metadata_platforms m = Ok ps -> is_empty ps = false.
Proof.
  unfold metadata_platforms. destruct (_ <=? 2); [by intros [= <-]|]. destruct (Normalize (Platforms m)) as [qs|e|p] eqn:E; try done.
  destruct (if isWebUI m then _ else _); [done|]. intros [= ->]. apply Normalize_chosen in E as (_ & _ & ?). by destruct ps.
Qed.

(** The metadata of a loaded project (of version 2 or 3, as a plan to apply
    asks for) after an upgrade loads again, with nothing changed but the two
    versions, if the target's metadata is of version 3; but of a target whose
    metadata is of version 2 it is refused, because it names platforms. *)
Theorem upgraded_metadata_loads m0 m tgt v :
  decodeProjectMetadata (Ok m0) true = Ok m -> 2 <= SchemaVersion m <= 3 ->
  parseSemanticVersion (tgt_FrameworkVersion tgt) = Ok v ->
  (tgt_ProjectMetadataVersion tgt = 3 ->
     decodeProjectMetadata (Ok (updated_metadata m tgt)) true = Ok (updated_metadata m tgt)) /\
  (tgt_ProjectMetadataVersion tgt = 2 ->
     decodeProjectMetadata (Ok (updated_metadata m tgt)) true =
       Err (invalid_project [T "project metadata version 2 cannot declare platforms"])).
Proof.
  intros (ps & -> & Hps & Hcv & Hui & Hblank)%decode_inv. cbn [SchemaVersion with_platforms]. intros Hv Hver.
  pose proof (platforms_not_empty _ _ Hps) as Hne.
  assert (UI m0 = None) as Hnone.
  { unfold check_ui in Hui. rewrite (proj2 (Z.eqb_neq _ _)) in Hui by (unfold WebProjectMetadataVersion; lia). by destruct (UI m0). }
  split; intros Ht; unfold decodeProjectMetadata; cbn [negb].
  - assert (check_schema_version (updated_metadata (with_platforms ps m0) tgt) = Ok tt) as ->.
    { unfold check_schema_version. cbn [SchemaVersion updated_metadata]. by rewrite Ht. }
    assert (check_contract_versions (updated_metadata (with_platforms ps m0) tgt) = Ok tt) as ->.
    { unfold check_contract_versions in *. cbn [SchemaVersion updated_metadata FrameworkVersion TemplateVersion ProtocolVersion with_platforms].
      rewrite Ht, Hver. rewrite (proj2 (Z.leb_le _ _)) in Hcv by lia. destruct (parseSemanticVersion (FrameworkVersion m0)); try done. }
    assert (check_ui (updated_metadata (with_platforms ps m0) tgt) = Ok tt) as ->.
    { unfold check_ui. cbn [SchemaVersion UI updated_metadata with_platforms]. by rewrite Ht, Hnone. }
    rewrite (metadata_platforms_again m0 (updated_metadata (with_platforms ps m0) tgt) ps Hps).
    + cbn [result_bind updated_metadata with_platforms ProjectName GoModule FrameworkModule]. by rewrite Hblank.
    + unfold isWebUI. cbn [SchemaVersion updated_metadata]. by rewrite Ht.
    + cbn. lia.
    + done.
  - assert (check_schema_version (updated_metadata (with_platforms ps m0) tgt) =
      Err (invalid_project [T "project metadata version 2 cannot declare platforms"])) as ->; [|done].
    unfold check_schema_version. cbn [SchemaVersion Platforms updated_metadata with_platforms]. by rewrite Ht, Hne.
Qed.

(** The plan from 0.7.0 to 0.12.0 offers to write such metadata. *)
Lemma upgraded_metadata_loads_witness :
  let m0 := MkMetadata None 2 "notes" "example/notes" "example/bridra" "0.7.0" 2 1 [] in
  exists m tgt r, decodeProjectMetadata (Ok m0) true = Ok m /\ target registered_catalog "0.12.0" = Ok tgt /\
    evaluateUpgrade None m tgt registered_catalog = Some (Ok r) /\ rep_ApplyAvailable r = true /\
    decodeProjectMetadata (Ok (updated_metadata m tgt)) true = Err (invalid_project [T "project metadata version 2 cannot declare platforms"]).
Proof.
  cbv zeta. exists (MkMetadata None 2 "notes" "example/notes" "example/bridra" "0.7.0" 2 1 All), (MkTarget "0.24.1" 2 "0.12.0" 2 1).
  eexists. split; [reflexivity|]. split; [reflexivity|]. split; [vm_compute; reflexivity|]. split; [reflexivity|].
  refine (proj2 (upgraded_metadata_loads (MkMetadata None 2 "notes" "example/notes" "example/bridra" "0.7.0" 2 1 [])
    (MkMetadata None 2 "notes" "example/notes" "example/bridra" "0.7.0" 2 1 All) (MkTarget "0.24.1" 2 "0.12.0" 2 1) (MkVersion 0 12 0 []) eq_refl _ eq_refl) eq_refl).
  vm_compute. split; discriminate.
Defined.
