(* ===== verification/UpgradeApply.v ===== *)
(** * Applying an upgrade: [backend/cmd/bridra/upgrade_apply.go]

    An upgrade snapshots the five files it manages, writes three of them, runs
    three commands, and writes the snapshot back if anything fails.  A disk maps
    absolute paths to files; what the system answers to each call, and what a
    command does to the disk, is an argument. *)
From S2P Require Import Prelude GoStrings Project Upgrade UpgradeManifest.
Open Scope Z_scope.
Open Scope go_scope.

Record file := MkFile { file_mode : Z; file_contents : string }.
(** What a path names: a regular file, or a directory, a link or a device. *)
Inductive node := Regular (f : file) | Irregular.
Abbreviation disk := (gmap string node).

(** [filepath.Join] of a clean absolute root and a relative path. *)
Definition under (root path : string) : string := if String.eqb root "/" then "/" +:+ path else root +:+ "/" +:+ path.
Definition goModPath (root : string) : string := under root "backend/go.mod".
Definition goSumPath (root : string) : string := under root "backend/go.sum".
Definition pubspecPath (root : string) : string := under root "pubspec.yaml".
Definition pubspecLockPath (root : string) : string := under root "pubspec.lock".
Definition metadataPath (root : string) : string := under root ".bridra/project.json".

(** [managedUpgradeFile]: [saved] is its mode and contents if it [existed]. *)
Record managedUpgradeFile := MkManaged { path : string; required : bool; saved : option file }.
Definition managed_files (root : string) : list managedUpgradeFile := [
  MkManaged (goModPath root) true None;
  MkManaged (goSumPath root) false None;
  MkManaged (pubspecPath root) true None;
  MkManaged (pubspecLockPath root) false None;
  MkManaged (metadataPath root) true None
].
Definition managed_paths (root : string) : list string := path <$> managed_files root.

(** ** Snapshots *)

Definition snapshot_error (file : string) (err : goerror) : goerror := Errorf [T "snapshot "; T file; T ": "; W err].
(** [fails]: what [Lstat], then [ReadFile], of the path fails with. *)
Definition snapshot_file (fails : string -> option goerror * option goerror) (d : disk) (f : managedUpgradeFile) : result managedUpgradeFile :=
  match (fails (path f)).1 with
  | Some err => Err (snapshot_error (path f) err)
  | None =>
      match d !! path f with
      | None => if required f then Err (snapshot_error (path f) (ErrNew "file does not exist")) else Ok f
      | Some Irregular => Err (Errorf [T "snapshot "; T (path f); T ": not a regular file"])
      | Some (Regular contents) =>
          match (fails (path f)).2 with
          | Some err => Err (snapshot_error (path f) err)
          | None => Ok (MkManaged (path f) (required f) (Some contents))
          end
      end
  end.
Fixpoint snapshot_files (fails : string -> option goerror * option goerror) (d : disk) (files : list managedUpgradeFile)
    : result (list managedUpgradeFile) :=
  match files with
  | [] => Ok []
  | f :: files => let* f := snapshot_file fails d f in let* fs := snapshot_files fails d files in Ok (f :: fs)
  end.
Definition snapshotUpgradeFiles (fails : string -> option goerror * option goerror) (d : disk) (root : string) : result (list managedUpgradeFile) :=
  snapshot_files fails d (managed_files root).
(** [snapshots[path]], its zero value where there is none. *)
Definition snapshot_of (snapshots : list managedUpgradeFile) (p : string) : file :=
  match find (fun f => String.eqb (path f) p) snapshots with
  | Some (MkManaged _ _ (Some f)) => f
  | _ => MkFile 0 ""
  end.

(** ** Atomic writes *)

Record write_io := MkWriteIO {
  create : goerror + string;
  chmod_fails : option goerror;
  write_fails : option (goerror * string);
  sync_fails : option goerror;
  close_fails : option goerror;
  rename_fails : option goerror;
  remove_fails : option goerror
}.
(** [os.Remove]: a path that names nothing is an error that [os.IsNotExist] tells. *)
Definition remove (fails : option goerror) (p : string) (d : disk) : disk * option goerror :=
  match d !! p with
  | None => (d, None)
  | Some _ => match fails with Some err => (d, Some err) | None => (delete p d, None) end
  end.
(** The deferred call: it removes the temporary file if it is still there. *)
Definition finish (io : write_io) (temporary : string) (d : disk) (resultErr : option goerror) : disk * option goerror :=
  let '(d, removeErr) := remove (remove_fails io) temporary d in
  (d, match resultErr with Some _ => resultErr | None => removeErr end).
Definition atomicWriteUpgradeFile (io : write_io) (p contents : string) (mode : Z) (d : disk) : disk * option goerror :=
  match create io with
  | inl err => (d, Some err)
  | inr temporary =>
      let d := <[temporary := Regular (MkFile 384 "")]> d in
      match chmod_fails io with
      | Some err => finish io temporary d (Some err)
      | None =>
          let d := <[temporary := Regular (MkFile mode "")]> d in
          match write_fails io with
          | Some (err, written) => finish io temporary (<[temporary := Regular (MkFile mode written)]> d) (Some err)
          | None =>
              let d := <[temporary := Regular (MkFile mode contents)]> d in
              match sync_fails io, close_fails io, rename_fails io with
              | Some err, _, _ | None, Some err, _ | None, None, Some err => finish io temporary d (Some err)
              | None, None, None => finish io temporary (<[p := Regular (MkFile mode contents)]> (delete temporary d)) None
              end
          end
      end
  end.

(** ** Rolling back *)

(** One file of the snapshot; [restores] in any order, since the code ranges over a map. *)
Definition restore_file (io : write_io) (f : managedUpgradeFile) (d : disk) : disk * option goerror :=
  match saved f with
  | None =>
      let '(d, err) := remove (remove_fails io) (path f) d in
      (d, (fun err => Errorf [T "remove "; T (path f); T ": "; W err]) <$> err)
  | Some contents =>
      let '(d, err) := atomicWriteUpgradeFile io (path f) (file_contents contents) (file_mode contents) d in
      (d, (fun err => Errorf [T "restore "; T (path f); T ": "; W err]) <$> err)
  end.
Fixpoint restoreUpgradeFiles (restores : list (write_io * managedUpgradeFile)) (d : disk) (restoreErr : option goerror) : disk * option goerror :=
  match restores with
  | [] => (d, restoreErr)
  | (io, f) :: restores =>
      let '(d, err) := restore_file io f d in
      restoreUpgradeFiles restores d (match err with None => restoreErr | Some err => errors_Join [restoreErr; Some err] end)
  end.

(** ** Reports of failures *)

Definition reported (mode : string) (status : upgradeStatus) (readOnly applied rolledBack required : bool)
    (diagnostics : list upgradeDiagnostic) (r : upgradeReport) : upgradeReport :=
  MkReport (rep_SchemaVersion r) mode status readOnly (rep_PlanAvailable r) (rep_ApplyAvailable r) applied rolledBack
    required (rep_Project r) (rep_Target r) (rep_Steps r) diagnostics.
Definition failUpgradeApply (r : upgradeReport) (wroteFiles rolledBack : bool) (cause : goerror) : upgradeReport * option goerror :=
  (reported (rep_Mode r) upgradeApplyFailed (negb wroteFiles) (rep_Applied r) rolledBack (rep_MigrationRequired r)
     (rep_Diagnostics r ++ [MkDiagnostic "error" "upgrade_apply_failed" (error_text cause)
        "Fix the reported cause and run the read-only plan again before retrying --apply."]) r,
   Some (Errorf [W errUpgradeApply; T ": "; W cause])).
Definition rollbackUpgradeFailure (r : upgradeReport) (restores : list (write_io * managedUpgradeFile)) (wroteFiles : bool)
    (cause : goerror) (d : disk) : disk * (upgradeReport * option goerror) :=
  if negb wroteFiles then (d, failUpgradeApply r false false cause)
  else match restoreUpgradeFiles restores d None with
       | (d, Some err) => (d, failUpgradeApply r true false (errors_join cause (Errorf [T "rollback managed files: "; W err])))
       | (d, None) => (d, failUpgradeApply r true true cause)
       end.

(** ** The command *)

Record upgradeProcess := MkProcess {
  Label : string;
  proc_Name : string;
  Arguments : list string;
  Directory : string;
  Environment : list string
}.
Definition processes (root : string) : list upgradeProcess := [
  MkProcess "Resolve Go dependencies" "go" ["mod"; "tidy"] (under root "backend") ["GOWORK=off"];
  MkProcess "Resolve Flutter dependencies" "fvm" ["flutter"; "pub"; "get"] root [];
  MkProcess "Verify upgraded project" "make" ["verify"] root []
].

(** What the surroundings of one run do: [run] gives the disk a command leaves,
    its error, and whether its time was up, which [timeout] spells. *)
Record system := MkSystem {
  absolute : goerror + string;
  snapshot_fails : string -> option goerror * option goerror;
  write_of : string -> write_io;
  restores_of : list managedUpgradeFile -> list (write_io * managedUpgradeFile);
  run : upgradeProcess -> disk -> disk * option goerror * bool;
  timeout : string
}.

(** [filepath.Base]. *)
Fixpoint base_go (s last : string) : string :=
  match s with
  | EmptyString => last
  | String c r => if Ascii.eqb c "/" then base_go r r else base_go r last
  end.
Definition Base (p : string) : string := base_go p p.

(** The writes, in the order of the paths; [inr] carries what failed. *)
Fixpoint write_updates (sys : system) (snapshots : list managedUpgradeFile) (wroteFiles : bool) (updates : list (string * string)) (d : disk)
    : disk * option (bool * goerror) :=
  match updates with
  | [] => (d, None)
  | (p, contents) :: updates =>
      match atomicWriteUpgradeFile (write_of sys p) p contents (file_mode (snapshot_of snapshots p)) d with
      | (d, Some err) => (d, Some (wroteFiles, Errorf [T "write "; T (Base p); T ": "; W err]))
      | (d, None) => write_updates sys snapshots true updates d
      end
  end.
Fixpoint run_processes (sys : system) (ps : list upgradeProcess) (d : disk) : disk * option goerror :=
  match ps with
  | [] => (d, None)
  | p :: ps =>
      match run sys p d with
      | (d, None, _) => run_processes sys ps d
      | (d, Some err, timedOut) =>
          (d, Some (Errorf [T (Label p); T ": ";
                 W (if timedOut : bool then Errorf [T "timed out after "; T (timeout sys); T ": "; W err] else err)]))
      end
  end.
(** The updates sorted by path. *)
Definition update_before (a b : string * string) : Prop := String.le a.1 b.1.
#[export] Instance update_before_dec : RelDecision update_before.
Proof. intros a b. unfold update_before. apply _. Defined.
Definition sorted_updates (root : string) (files : string * string * string) : list (string * string) :=
  let '(goMod, pubspec, metadata) := files in
  merge_sort update_before [(goModPath root, goMod); (pubspecPath root, pubspec); (metadataPath root, metadata)].

Definition applied_report (tgt : upgradeTarget) (r : upgradeReport) : upgradeReport :=
  reported (rep_Mode r) upgradeApplied false true (rep_RolledBack r) false
    (rep_Diagnostics r ++ [MkDiagnostic "ok" "upgrade_applied"
       ("Updated the managed Go, Flutter, lockfile, and project metadata surfaces to Bridra " +:+ tgt_FrameworkVersion tgt +:+
        " and completed full verification.") ""]) r.
(** The part of [applyUpgrade] that changes files; nothing in it panics. *)
Definition apply_files (sys : system) (root : string) (m : projectMetadata) (tgt : upgradeTarget) (r : upgradeReport) (d : disk)
    : disk * (upgradeReport * option goerror) :=
  match snapshotUpgradeFiles (snapshot_fails sys) d root with
  | Err err => (d, failUpgradeApply r false false err)
  | Panicked _ => (d, (r, None))
  | Ok snapshots =>
      match prepareUpgradeFiles (file_contents (snapshot_of snapshots (goModPath root)))
              (file_contents (snapshot_of snapshots (pubspecPath root))) m tgt with
      | Err err => (d, failUpgradeApply r false false err)
      | Panicked _ => (d, (r, None))
      | Ok updates =>
          let restores := restores_of sys snapshots in
          match write_updates sys snapshots false (sorted_updates root updates) d with
          | (d, Some (wroteFiles, err)) => rollbackUpgradeFailure r restores wroteFiles err d
          | (d, None) =>
              match run_processes sys (processes root) d with
              | (d, Some err) => rollbackUpgradeFailure r restores true err d
              | (d, None) => (d, (applied_report tgt r, None))
              end
          end
      end
  end.
Definition applyUpgrade (sys : system) (m : projectMetadata) (tgt : upgradeTarget) (r : upgradeReport) (d : disk)
    : disk * (upgradeReport * option goerror) :=
  if decide (rep_Status r = upgradeCurrent) then (d, (r, None))
  else if bool_decide (rep_Status r = upgradeUnsupported) || negb (rep_PlanAvailable r) then (d, (r, upgradeReportError r))
  else if negb (rep_ApplyAvailable r) then
    (d, (add_diagnostic (MkDiagnostic "migration" "manual_steps_required" "The complete upgrade plan contains one or more manual steps."
           "Complete the reported manual steps first; --apply does not guess or rewrite application-owned code.") r,
         Some (errorf1 errUpgradeRequired "the upgrade plan contains manual steps; no files were changed")))
  else match absolute sys with
       | inl err => (d, failUpgradeApply r false false (Errorf [T "resolve project root: "; W err]))
       | inr root => apply_files sys root m tgt r d
       end.
