(* ===== verification/UpgradeApplyFacts.v ===== *)
(** * An upgrade is applied whole or not at all *)
From S2P Require Import Prelude GoStrings Project Upgrade UpgradeManifest UpgradeApply.
Open Scope Z_scope.
Open Scope go_scope.

(** [d] and [d'] hold the same at the paths of [ps]. *)
Definition same_at (ps : list string) (d d' : disk) : Prop := forall p, p ∈ ps -> d' !! p = d !! p.
Lemma same_at_refl ps d : same_at ps d d.
Proof. done. Qed.
Lemma same_at_trans ps d1 d2 d3 : same_at ps d1 d2 -> same_at ps d2 d3 -> same_at ps d1 d3.
Proof. intros H1 H2 p Hp. by rewrite H2, H1. Qed.
(** The temporary file is none of the managed ones: [os.CreateTemp] makes a new name. *)
Definition fresh (ps : list string) (io : write_io) : Prop := forall t, create io = inr t -> t ∉ ps.

(** ** One write *)

Section Write.
Context (ps : list string).

Lemma same_at_insert t n d : t ∉ ps -> same_at ps d (<[t := n]> d).
Proof. intros Ht p Hp. apply lookup_insert_ne. by intros ->. Qed.
Lemma same_at_remove fails t d : t ∉ ps -> same_at ps d (remove fails t d).1.
Proof.
  intros Ht p Hp. unfold remove. destruct (d !! t); [|done]. destruct fails; [done|]. cbn. apply lookup_delete_ne. by intros ->.
Qed.
Lemma finish_same io t d r : t ∉ ps -> same_at ps d (finish io t d r).1.
Proof. intros Ht. unfold finish. pose proof (same_at_remove (remove_fails io) t d Ht) as H. by destruct (remove _ _ _). Qed.
Lemma finish_error io t d e : (finish io t d (Some e)).2 = Some e.
Proof. unfold finish. by destruct (remove _ _ _). Qed.

(** A write that fails changes no managed file; one that succeeds replaces one. *)
Lemma atomic_write_spec io p contents mode d :
  fresh ps io -> p ∈ ps ->
  let '(d', err) := atomicWriteUpgradeFile io p contents mode d in
  match err with
  | Some _ => same_at ps d d'
  | None => d' !! p = Some (Regular (MkFile mode contents)) /\ forall q, q ∈ ps -> q <> p -> d' !! q = d !! q
  end.
Proof.
  intros Hf Hp. unfold atomicWriteUpgradeFile. destruct (create io) as [e|t] eqn:Et; [done|]. specialize (Hf t Et).
  assert (forall d0 e, same_at ps d d0 -> let '(d', err) := finish io t d0 (Some e) in match err with Some _ => same_at ps d d' | None =>
    d' !! p = Some (Regular (MkFile mode contents)) /\ forall q, q ∈ ps -> q <> p -> d' !! q = d !! q end) as Hfail.
  { intros d0 e H0. pose proof (finish_same io t d0 (Some e) Hf) as H1. pose proof (finish_error io t d0 e) as H2.
    destruct (finish io t d0 (Some e)) as [d' err]. cbn in *. subst. by eapply same_at_trans. }
  assert (forall n d0, same_at ps d d0 -> same_at ps d (<[t := n]> d0)) as Hins
    by (intros n d0 H0; eapply same_at_trans; [done|by apply same_at_insert]).
  destruct (chmod_fails io); [by apply Hfail, Hins|]. destruct (write_fails io) as [[e w]|]; [by apply Hfail, Hins, Hins, Hins|].
  destruct (sync_fails io); [by apply Hfail, Hins, Hins, Hins|]. destruct (close_fails io); [by apply Hfail, Hins, Hins, Hins|].
  destruct (rename_fails io); [by apply Hfail, Hins, Hins, Hins|].
  unfold finish, remove. assert (t <> p) as Htp by (by intros ->). rewrite lookup_insert_ne by done. rewrite lookup_delete_eq.
  split; [apply lookup_insert_eq|]. intros q Hq Hqp. rewrite lookup_insert_ne by done.
  assert (t <> q) by (by intros ->). rewrite lookup_delete_ne by done. by rewrite !lookup_insert_ne by done.
Qed.

(** ** Snapshots *)

(** What a saved file stands for. *)
Definition node_of (saved : option file) : option node := Regular <$> saved.
Lemma snapshot_files_spec fails d files snapshots :
  snapshot_files fails d files = Ok snapshots -> Forall (fun f => saved f = None) files ->
  (path <$> snapshots) = (path <$> files) /\ Forall (fun f => d !! path f = node_of (saved f)) snapshots.
Proof.
  revert snapshots. induction files as [|f files IH]; intros snapshots; cbn [snapshot_files]; [by intros [= <-]|].
  intros H [Hn Hns]%Forall_cons. destruct (snapshot_file fails d f) as [f'|e|p] eqn:Ef; cbn [result_bind] in H; try done.
  destruct (snapshot_files fails d files) as [fs|e|p]; cbn [result_bind] in H; try done. injection H as <-.
  destruct (IH fs eq_refl Hns) as [IHp IHs]. assert (path f' = path f /\ d !! path f' = node_of (saved f')) as [Hp Hd].
  { unfold snapshot_file in Ef. destruct ((fails (path f)).1); [done|]. destruct (d !! path f) as [[c|]|] eqn:El; try done.
    - destruct ((fails (path f)).2); [done|]. injection Ef as <-. by cbn.
    - destruct (required f); [done|]. injection Ef as <-. by rewrite Hn. }
  split; [cbn; by rewrite Hp, IHp|]. by constructor.
Qed.

(** ** Rolling back *)

Lemma restore_file_spec io f d :
  fresh ps io -> path f ∈ ps ->
  let '(d', err) := restore_file io f d in
  match err with
  | Some _ => True
  | None => d' !! path f = node_of (saved f) /\ forall q, q ∈ ps -> q <> path f -> d' !! q = d !! q
  end.
Proof.
  intros Hf Hp. unfold restore_file. destruct (saved f) as [[mode contents]|] eqn:Es.
  - pose proof (atomic_write_spec io (path f) contents mode d Hf Hp) as H. cbn [file_contents file_mode].
    destruct (atomicWriteUpgradeFile _ _ _ _ _) as [d' [e|]]; cbn; [done|]. exact H.
  - unfold remove. destruct (d !! path f) eqn:El; [destruct (remove_fails io); [done|]|]; cbn.
    + split; [apply lookup_delete_eq|]. intros q Hq Hne. by rewrite lookup_delete_ne by congruence.
    + by split.
Qed.

Lemma errors_Join_some a e : errors_Join [a; Some e] <> None.
Proof. by destruct a. Qed.

(** A rollback that succeeds has put back every file it was given. *)
Lemma restoreUpgradeFiles_spec restores d d' :
  Forall (fun x => fresh ps x.1 /\ path x.2 ∈ ps) restores -> NoDup (path <$> restores.*2) ->
  restoreUpgradeFiles restores d None = (d', None) ->
  (forall f, f ∈ restores.*2 -> d' !! path f = node_of (saved f)) /\
  (forall q, q ∈ ps -> q ∉ path <$> restores.*2 -> d' !! q = d !! q).
Proof.
  intros Hall. revert d. induction Hall as [|[io f] restores [Hf Hp] Hall IH]; intros d; cbn [restoreUpgradeFiles fmap list_fmap fst snd].
  - intros _ [= ->]. split; [by intros f ?%not_elem_of_nil|done].
  - intros [Hnin Hnd]%NoDup_cons H. pose proof (restore_file_spec io f d Hf Hp) as Hr.
    destruct (restore_file io f d) as [d1 [e|]].
    { exfalso. pose proof (errors_Join_some None e) as Hj. destruct (errors_Join [None; Some e]) as [j|]; [|done].
      clear -H. revert j d1 H. induction restores as [|[io f] restores IH]; intros j d1; cbn [restoreUpgradeFiles]; [by intros [=]|].
      destruct (restore_file io f d1) as [d2 [e'|]]; [|apply IH].
      pose proof (errors_Join_some (Some j) e') as Hj. destruct (errors_Join [Some j; Some e']); [apply IH|done]. }
    destruct Hr as [Hr1 Hr2]. destruct (IH d1 Hnd H) as [IH1 IH2]. cbn in Hp. split.
    + intros g [->|Hg]%elem_of_cons; [|by apply IH1]. by rewrite IH2.
    + intros q Hq [Hne Hn]%not_elem_of_cons. by rewrite IH2, Hr2.
Qed.
End Write.

(** ** The managed paths *)

Lemma under_inj root p q : under root p = under root q -> p = q.
Proof.
  unfold under. destruct (String.eqb root "/").
  - by intros [= ?].
  - intros H. apply (inj (String.append root)) in H. by injection H.
Qed.
Lemma managed_paths_NoDup root : NoDup (managed_paths root).
Proof.
  unfold managed_paths, managed_files, goModPath, goSumPath, pubspecPath, pubspecLockPath, metadataPath. cbn.
  repeat constructor; rewrite ?elem_of_cons, ?elem_of_nil; intros H; repeat destruct H as [H|H]; try done; by apply under_inj in H.
Qed.
Lemma sorted_updates_paths root updates : (sorted_updates root updates).*1 ≡ₚ [goModPath root; pubspecPath root; metadataPath root].
Proof. destruct updates as [[g p] m]. unfold sorted_updates. by rewrite merge_sort_Permutation. Qed.
Lemma update_is_managed root p : p ∈ [goModPath root; pubspecPath root; metadataPath root] -> p ∈ managed_paths root.
Proof. unfold managed_paths, managed_files. cbn. set_solver. Qed.
Lemma updates_NoDup root : NoDup [goModPath root; pubspecPath root; metadataPath root].
Proof.
  eapply (sublist_NoDup); [apply (managed_paths_NoDup root)|]. unfold managed_paths, managed_files. cbn. repeat constructor.
Qed.

(** ** The writes *)

Lemma write_updates_spec ps sys snapshots wrote updates d d' failed :
  (forall p, p ∈ updates.*1 -> p ∈ ps /\ fresh ps (write_of sys p)) -> NoDup updates.*1 ->
  write_updates sys snapshots wrote updates d = (d', failed) ->
  match failed with
  | Some (wrote', _) => wrote' = false -> same_at ps d d'
  | None => (forall p contents, (p, contents) ∈ updates -> d' !! p = Some (Regular (MkFile (file_mode (snapshot_of snapshots p)) contents))) /\
            (forall q, q ∈ ps -> q ∉ updates.*1 -> d' !! q = d !! q)
  end.
Proof.
  revert wrote d. induction updates as [|[p contents] updates IH]; intros wrote d Hps Hnd; cbn [write_updates].
  - intros [= <- <-]. split; [by intros ?? ?%not_elem_of_nil|done].
  - cbn in Hps, Hnd. apply NoDup_cons in Hnd as [Hnin Hnd]. destruct (Hps p ltac:(set_solver)) as [Hp Hf].
    pose proof (atomic_write_spec ps _ p contents (file_mode (snapshot_of snapshots p)) d Hf Hp) as Hw.
    destruct (atomicWriteUpgradeFile _ _ _ _ _) as [d1 [e|]]; [by intros [= <- <-]|]. intros H.
    pose proof (IH true d1 ltac:(set_solver) Hnd H) as IHs. destruct Hw as [Hw1 Hw2]. destruct failed as [[wrote' e]|].
    + intros ->. exfalso. clear -H. revert d1 H. induction updates as [|[p c] updates IH]; intros d1; cbn [write_updates]; [done|].
      destruct (atomicWriteUpgradeFile _ _ _ _ _) as [d2 [e'|]]; [by intros [=]|apply IH].
    + destruct IHs as [IH1 IH2]. split.
      * intros q c [[= -> ->]|Hq]%elem_of_cons; [|by apply IH1]. by rewrite IH2.
      * intros q Hq Hn. cbn in Hn. apply not_elem_of_cons in Hn as [Hne Hn]. by rewrite IH2, Hw2.
Qed.

(** ** Nothing panics *)

Definition panics {A} (r : result A) : Prop := match r with Panicked _ => True | _ => False end.
Lemma bind_no_panic {A B} (r : result A) (k : A -> result B) : ~ panics r -> (forall a, ~ panics (k a)) -> ~ panics (result_bind r k).
Proof. destruct r; cbn; auto. Qed.
Lemma snapshot_no_panic fails d root p : snapshotUpgradeFiles fails d root <> Panicked p.
Proof.
  assert (forall files, ~ panics (snapshot_files fails d files)) as H.
  { induction files as [|f files IH]; cbn; [auto|]. apply bind_no_panic.
    - unfold snapshot_file. repeat case_match; cbn; auto.
    - intros f'. apply bind_no_panic; [done|]. cbn. auto. }
  intros E. specialize (H (managed_files root)). unfold snapshotUpgradeFiles in E. rewrite E in H. by apply H.
Qed.
Lemma go_mod_no_panic module e t lines b : ~ panics (go_mod_lines module e t b lines).
Proof.
  revert b. induction lines as [|line lines IH]; intros b; cbn [go_mod_lines]; [cbn; auto|].
  destruct (classify module b (fields_of line)); [apply bind_no_panic; [done|intros []; cbn; auto]..|].
  apply bind_no_panic; [unfold replaceManifestToken; repeat case_match; cbn; auto|].
  intros l. apply bind_no_panic; [done|intros []; cbn; auto].
Qed.
Lemma pubspec_no_panic name e t lines section : ~ panics (pubspec_lines name e t section lines).
Proof.
  revert section. induction lines as [|line lines IH]; intros section; cbn [pubspec_lines]; [cbn; auto|].
  destruct (line_and_ending line) as [plain ending]. destruct (classify_yaml name section plain); [apply bind_no_panic; [done|intros []; cbn; auto]..|].
  apply bind_no_panic; [unfold update_entry; repeat case_match; cbn; auto|].
  intros l. apply bind_no_panic; [done|intros []; cbn; auto].
Qed.
Lemma labelled_no_panic {A} label (r : result A) : ~ panics r -> ~ panics (labelled label r).
Proof. by destruct r. Qed.
Lemma prepare_no_panic goMod pubspec m tgt p : prepareUpgradeFiles goMod pubspec m tgt <> Panicked p.
Proof.
  intros E. assert (~ panics (prepareUpgradeFiles goMod pubspec m tgt)) as H; [|rewrite E in H; by apply H]. clear E.
  unfold prepareUpgradeFiles. apply bind_no_panic; [apply labelled_no_panic|intros g; apply bind_no_panic; [apply labelled_no_panic|cbn; auto]].
  - apply bind_no_panic; [apply go_mod_no_panic|]. intros [lines n]. destruct (negb _); cbn; auto.
  - apply bind_no_panic; [apply pubspec_no_panic|]. intros [lines n]. destruct (negb _); cbn; auto.
Qed.

(** ** What is written *)

(** The files before and after the writes, with their modes kept. *)
Definition new_contents (d d1 : disk) (root : string) (oldMod oldPub : file) (files : string * string * string) : Prop :=
  let '(goMod, pubspec, metadata) := files in
  d !! goModPath root = Some (Regular oldMod) /\ d !! pubspecPath root = Some (Regular oldPub) /\
  d1 !! goModPath root = Some (Regular (MkFile (file_mode oldMod) goMod)) /\
  d1 !! pubspecPath root = Some (Regular (MkFile (file_mode oldPub) pubspec)) /\
  exists old, d !! metadataPath root = Some (Regular old) /\ d1 !! metadataPath root = Some (Regular (MkFile (file_mode old) metadata)).

(** A file the upgrade needs was there, and its snapshot is its contents. *)
Lemma snapshot_files_required fails d files snapshots :
  snapshot_files fails d files = Ok snapshots ->
  ((fun f => (path f, required f)) <$> snapshots) = ((fun f => (path f, required f)) <$> files) /\
  Forall (fun s => required s = true -> saved s <> None) snapshots.
Proof.
  revert snapshots. induction files as [|f files IH]; intros snapshots; cbn [snapshot_files]; [by intros [= <-]|].
  intros H. destruct (snapshot_file fails d f) as [f'|e|p] eqn:Ef; cbn [result_bind] in H; try done.
  destruct (snapshot_files fails d files) as [fs|e|p]; cbn [result_bind] in H; try done. injection H as <-.
  destruct (IH fs eq_refl) as [IHp IHs]. assert ((path f', required f') = (path f, required f) /\ (required f' = true -> saved f' <> None)) as [Hp Hr].
  { unfold snapshot_file in Ef. repeat case_match; simplify_eq; cbn; (split; congruence). }
  split; [cbn; by rewrite Hp, IHp|]. by constructor.
Qed.
Lemma find_path snapshots f : NoDup (path <$> snapshots) -> f ∈ snapshots ->
  find (fun g => String.eqb (path g) (path f)) snapshots = Some f.
Proof.
  induction snapshots as [|g snapshots IH]; cbn; [by intros _ ?%not_elem_of_nil|]. intros [Hn Hnd]%NoDup_cons [->|Hf]%elem_of_cons.
  - by rewrite String.eqb_refl.
  - destruct (String.eqb_spec (path g) (path f)) as [E|]; [|by apply IH]. exfalso. apply Hn. rewrite E. apply list_elem_of_fmap. by exists f.
Qed.
Lemma snapshot_of_required fails d root snapshots p :
  snapshotUpgradeFiles fails d root = Ok snapshots -> p ∈ [goModPath root; pubspecPath root; metadataPath root] ->
  d !! p = Some (Regular (snapshot_of snapshots p)).
Proof.
  intros Hs Hp. destruct (snapshot_files_spec _ _ _ _ Hs ltac:(repeat constructor)) as [Hpaths Hsaved].
  destruct (snapshot_files_required _ _ _ _ Hs) as [Hpairs Hreq].
  assert ((p, true) ∈ (fun f => (path f, required f)) <$> snapshots) as Hin.
  { rewrite Hpairs. cbn. rewrite !elem_of_cons in Hp. destruct Hp as [->|[->|[->|[]%not_elem_of_nil]]]; repeat first [apply list_elem_of_here|apply list_elem_of_further]. }
  apply list_elem_of_fmap in Hin as (f & [= -> Hr] & Hf). unfold snapshot_of.
  rewrite (find_path snapshots f); [|rewrite Hpaths; apply managed_paths_NoDup|done].
  rewrite Forall_forall in Hsaved, Hreq. rewrite (Hsaved f Hf). specialize (Hreq f Hf (eq_sym Hr)).
  destruct f as [q r [c|]]; [done|]. by cbn in Hreq.
Qed.
Lemma written_contents fails d d1 root snapshots files :
  snapshotUpgradeFiles fails d root = Ok snapshots ->
  (forall p contents, (p, contents) ∈ sorted_updates root files -> d1 !! p = Some (Regular (MkFile (file_mode (snapshot_of snapshots p)) contents))) ->
  new_contents d d1 root (snapshot_of snapshots (goModPath root)) (snapshot_of snapshots (pubspecPath root)) files.
Proof.
  intros Hs Hw. destruct files as [[g p] m]. unfold new_contents.
  assert (forall x, x ∈ [(goModPath root, g); (pubspecPath root, p); (metadataPath root, m)] -> x ∈ sorted_updates root (g, p, m)) as Hin
    by (intros x Hx; unfold sorted_updates; by rewrite merge_sort_Permutation).
  split; [eapply snapshot_of_required; [done|set_solver]|]. split; [eapply snapshot_of_required; [done|set_solver]|].
  split; [apply Hw, Hin; set_solver|]. split; [apply Hw, Hin; set_solver|].
  eexists. split; [eapply snapshot_of_required; [done|set_solver]|]. apply Hw, Hin. set_solver.
Qed.

(** ** The whole upgrade *)

Section Atomic.
Context (sys : system) (root : string).
Hypothesis writes_fresh : forall p, fresh (managed_paths root) (write_of sys p).
Hypothesis restores_snapshot : forall snapshots,
  (restores_of sys snapshots).*2 ≡ₚ snapshots /\ Forall (fun x => fresh (managed_paths root) x.1) (restores_of sys snapshots).

Lemma restore_puts_back snapshots d d1 d2 :
  snapshotUpgradeFiles (snapshot_fails sys) d root = Ok snapshots ->
  restoreUpgradeFiles (restores_of sys snapshots) d1 None = (d2, None) -> same_at (managed_paths root) d d2.
Proof.
  intros Hs Hr. destruct (snapshot_files_spec _ _ _ _ Hs ltac:(repeat constructor)) as [Hpaths Hsaved].
  destruct (restores_snapshot snapshots) as [Hperm Hfresh].
  assert (path <$> (restores_of sys snapshots).*2 ≡ₚ managed_paths root) as Hp by (rewrite Hperm; by rewrite Hpaths).
  destruct (restoreUpgradeFiles_spec (managed_paths root) (restores_of sys snapshots) d1 d2) as [Hput _]; [| |done|].
  - apply Forall_forall. intros x Hx. split; [by eapply (proj1 (Forall_forall _ _) Hfresh)|].
    rewrite <- Hp. apply list_elem_of_fmap. exists x.2. split; [done|]. apply list_elem_of_fmap. by exists x.
  - rewrite Hp. apply managed_paths_NoDup.
  - intros p Hpm. rewrite <- Hp in Hpm. apply list_elem_of_fmap in Hpm as (f & -> & Hf). rewrite (Hput f Hf).
    symmetry. eapply (proj1 (Forall_forall _ _) Hsaved). by rewrite <- Hperm.
Qed.

Lemma rollback_spec snapshots r wrote cause d d1 d2 r' err :
  snapshotUpgradeFiles (snapshot_fails sys) d root = Ok snapshots ->
  (wrote = false -> same_at (managed_paths root) d d1) ->
  rollbackUpgradeFailure r (restores_of sys snapshots) wrote cause d1 = (d2, (r', err)) ->
  rep_Status r' = upgradeApplyFailed /\ err <> None /\
  (rep_ReadOnly r' = true \/ rep_RolledBack r' = true -> same_at (managed_paths root) d d2).
Proof.
  intros Hs Hw. unfold rollbackUpgradeFailure. destruct wrote; cbn [negb].
  - destruct (restoreUpgradeFiles _ d1 None) as [d' [e|]] eqn:Er; intros [= <- <- <-]; (split; [done|]); (split; [done|]); cbn.
    + by intros [|].
    + intros _. by eapply restore_puts_back.
  - intros [= <- <- <-]. split; [done|]. split; [done|]. intros _. by apply Hw.
Qed.

Lemma apply_files_spec m tgt r d d' r' err :
  apply_files sys root m tgt r d = (d', (r', err)) ->
  match err with
  | None => rep_Status r' = upgradeApplied /\ rep_ReadOnly r' = false /\
      exists oldMod oldPub files d1, new_contents d d1 root oldMod oldPub files /\
        prepareUpgradeFiles (file_contents oldMod) (file_contents oldPub) m tgt = Ok files /\
        run_processes sys (processes root) d1 = (d', None)
  | Some _ => rep_Status r' = upgradeApplyFailed /\
      (rep_ReadOnly r' = true \/ rep_RolledBack r' = true -> same_at (managed_paths root) d d')
  end.
Proof.
  unfold apply_files. destruct (snapshotUpgradeFiles _ d root) as [snapshots|e|p] eqn:Hs; [|by intros [= <- <- <-]|by apply snapshot_no_panic in Hs].
  destruct (prepareUpgradeFiles _ _ m tgt) as [files|e|p] eqn:Hprep; [|by intros [= <- <- <-]|by apply prepare_no_panic in Hprep].
  destruct (write_updates _ _ _ _ _) as [d1 failed] eqn:Hw.
  pose proof (write_updates_spec (managed_paths root) _ _ _ _ _ _ _ (fun p Hp => conj (update_is_managed root p ltac:(by rewrite <- (sorted_updates_paths root files))) (writes_fresh p))
    ltac:(rewrite sorted_updates_paths; apply updates_NoDup) Hw) as Hspec.
  destruct failed as [[wrote e]|].
  { intros H. destruct (rollback_spec snapshots r wrote e d d1 d' r' err Hs Hspec H) as (? & ? & ?). by destruct err. }
  destruct (run_processes sys (processes root) d1) as [d2 [e|]] eqn:Hrun.
  { intros H. destruct (rollback_spec snapshots r true e d d2 d' r' err Hs ltac:(done) H) as (? & ? & ?). by destruct err. }
  intros [= <- <- <-]. split; [done|]. split; [done|].
  exists (snapshot_of snapshots (goModPath root)), (snapshot_of snapshots (pubspecPath root)), files, d1.
  split; [|by split]. eapply written_contents; [done|apply Hspec].
Qed.
End Atomic.

(** What is asked of the surroundings: temporary files get new names, and the
    rollback goes through the snapshot, in any order. *)
Definition well_behaved (sys : system) : Prop :=
  forall root, absolute sys = inr root ->
    (forall p, fresh (managed_paths root) (write_of sys p)) /\
    (forall snapshots, (restores_of sys snapshots).*2 ≡ₚ snapshots /\
       Forall (fun x => fresh (managed_paths root) x.1) (restores_of sys snapshots)).

(** C28. However the writes and the commands of an upgrade end, without an error
    the three files have their new contents, with their modes, and all three
    commands succeeded on them (or nothing was done or reported); and with an error a
    report that says read-only or rolled back is true: every managed file is as
    it was.  A plan that may not be applied changes nothing. *)
Theorem upgrade_is_all_or_nothing sys m tgt r d d' r' err :
  well_behaved sys -> applyUpgrade sys m tgt r d = (d', (r', err)) ->
  (err = None -> r' = r /\ d' = d \/
     rep_Status r' = upgradeApplied /\ rep_ReadOnly r' = false /\
     exists root oldMod oldPub files d1, absolute sys = inr root /\ new_contents d d1 root oldMod oldPub files /\
       prepareUpgradeFiles (file_contents oldMod) (file_contents oldPub) m tgt = Ok files /\
       run_processes sys (processes root) d1 = (d', None)) /\
  (err <> None -> rep_ReadOnly r' = true \/ rep_RolledBack r' = true ->
     forall root, absolute sys = inr root -> same_at (managed_paths root) d d') /\
  (rep_ApplyAvailable r = false -> d' = d).
Proof.
  intros Hsys. unfold applyUpgrade. destruct (decide (rep_Status r = upgradeCurrent)) as [Hc|Hc]; [intros [= <- <- <-]; by split; [left|]|].
  destruct (bool_decide (rep_Status r = upgradeUnsupported) || negb (rep_PlanAvailable r)) eqn:Hp; [intros [= <- <- <-]; by split; [left|]|].
  destruct (rep_ApplyAvailable r) eqn:Ha; cbn [negb]; [|by intros [= <- <- <-]].
  destruct (absolute sys) as [e|root] eqn:Habs; [by intros [= <- <- <-]|]. destruct (Hsys root Habs) as [Hw Hr]. intros H.
  pose proof (apply_files_spec sys root Hw Hr m tgt r d d' r' err H) as Hspec. destruct err as [e|].
  - split; [done|]. split; [|done]. intros _ Hread root' [= <-]. by apply Hspec.
  - destruct Hspec as (Hs & Hro & oldMod & oldPub & files & d1 & Hnew & Hprep & Hrun). split; [|done].
    intros _. right. split; [done|]. split; [done|]. by exists root, oldMod, oldPub, files, d1.
Qed.

(** A project whose verification fails after the commands have changed the lock file. *)
Module RolledBack.
Definition io : write_io := MkWriteIO (inr "/p/.tmp") None None None None None None.
Definition sys : system := MkSystem (inr "/p") (fun _ => (None, None)) (fun _ => io) (fun snapshots => (fun f => (io, f)) <$> snapshots)
  (fun p d => if String.eqb (proc_Name p) "make" then (d, Some (ErrNew "exit status 2"), false)
              else (<["/p/pubspec.lock" := Regular (MkFile 420 "new")]> d, None, false)) "30m0s".
Definition metadata := MkMetadata None 3 "notes" "example/notes" "example/bridra" "0.24.0" 9 4 [Linux].
Definition tgt := MkTarget "0.24.1" 3 "0.24.1" 9 1.
Definition plan := MkReport 5 "apply" upgradeMigrationRequired true true true false false true
  (MkProject "notes" 3 "0.24.0" 9 4 [Linux]) tgt [MkStep 1 "a" "framework" "0.24.0" "0.24.1" true ""] [].
Definition before : disk := list_to_map [
  ("/p/backend/go.mod", Regular (MkFile 420 "require example/bridra v0.24.0"));
  ("/p/pubspec.yaml", Regular (MkFile 420 ("dependencies:" +:+ lf +:+ "  bridra_flutter: ^0.24.0")));
  ("/p/.bridra/project.json", Regular (MkFile 420 "{}"))].
Lemma sys_well_behaved : well_behaved sys.
Proof.
  intros root [= <-]. assert (fresh (managed_paths "/p") io) as Hf.
  { intros t [= <-]. apply (bool_decide_unpack _). vm_compute. exact I. }
  split; [by intros p|]. intros snapshots. split; [|by apply Forall_fmap, Forall_true].
  cbn. rewrite <- list_fmap_compose. by rewrite list_fmap_id.
Qed.
End RolledBack.

Lemma upgrade_is_all_or_nothing_witness :
  exists d' r' err, applyUpgrade RolledBack.sys RolledBack.metadata RolledBack.tgt RolledBack.plan RolledBack.before = (d', (r', Some err)) /\
    rep_RolledBack r' = true /\ d' !! "/p/pubspec.lock" = None /\ d' !! "/p/backend/go.mod" = RolledBack.before !! "/p/backend/go.mod".
Proof.
  assert (bool_decide (is_Some (applyUpgrade RolledBack.sys RolledBack.metadata RolledBack.tgt RolledBack.plan RolledBack.before).2.2) = true) as He
    by (vm_compute; reflexivity).
  assert (rep_RolledBack (applyUpgrade RolledBack.sys RolledBack.metadata RolledBack.tgt RolledBack.plan RolledBack.before).2.1 = true) as Hr
    by (vm_compute; reflexivity).
  destruct (applyUpgrade RolledBack.sys RolledBack.metadata RolledBack.tgt RolledBack.plan RolledBack.before) as [d' [r' err]] eqn:E.
  pose proof (upgrade_is_all_or_nothing _ _ _ _ _ _ _ _ RolledBack.sys_well_behaved E) as (_ & H & _).
  cbn [fst snd] in He, Hr. destruct err as [err|]; [|discriminate He].
  exists d', r', err. split; [done|]. split; [done|]. specialize (H ltac:(done) (or_intror Hr) "/p" eq_refl).
  split; [exact (H "/p/pubspec.lock" ltac:(apply (bool_decide_unpack _); vm_compute; exact I))|].
  exact (H "/p/backend/go.mod" ltac:(apply (bool_decide_unpack _); vm_compute; exact I)).
Defined.
