(* ===== verification/Server.v ===== *)
(** * The sidecar server: [backend/framework/server.go]

    The registry of active requests, the flow control of streams, the encoder
    that all writers share and the control methods are functions; [Serve] is a
    transition system over them: the goroutine that scans the input and the
    workers, with the channel of jobs between them.  A step is what one of
    them does between two synchronisations.  Every request gets a number when
    it is registered, which stands for its pointer. *)
From S2P Require Import Prelude GoStrings ResourceBroker FileTransfer Router Stream.
Open Scope Z_scope.
Open Scope go_scope.

Definition defaultMaxConcurrentRequests : Z := 8.
Definition defaultMaxPendingRequests : Z := 64.
Definition defaultStreamWindow : Z := 16.
Definition maxStreamWindow : Z := 256.
Definition rpcCancellationMethod := "rpc.cancel".
Definition rpcFileUploadMethod := "rpc.file_upload".
Definition rpcResourceGrantMethod := "rpc.resource_grant".
Definition rpcResourceReleaseMethod := "rpc.resource_release".
Definition rpcStreamAckMethod := "rpc.stream_ack".

(** [request.Meta[key]]: the empty string where there is none. *)
Definition meta (request : Request) (key : string) : string := default "" (Meta request !! key).
Definition token_of (request : Request) : string := meta request "token".
Definition requestsStream (request : Request) : bool := String.eqb (meta request "stream") "1".
Definition parseStreamWindow (value : string) : Z :=
  if String.eqb value "" then defaultStreamWindow
  else match Atoi value with
       | Some window => if (window <? 1) || (maxStreamWindow <? window) then defaultStreamWindow else window
       | None => defaultStreamWindow
       end.

(** The limits [Serve] uses, zero standing for a default. *)
Definition server_limits (complete : bool) (maxConcurrentRequests maxPendingRequests : Z) : result (Z * Z) :=
  if negb complete then Err (ErrWrap "framework: context, router, input, and output are required" [])
  else
    let concurrent := if maxConcurrentRequests =? 0 then defaultMaxConcurrentRequests else maxConcurrentRequests in
    if concurrent <? 0 then Err (ErrWrap "framework: max concurrent requests cannot be negative" [])
    else
      let pending := if maxPendingRequests =? 0 then defaultMaxPendingRequests else maxPendingRequests in
      if pending <? 0 then Err (ErrWrap "framework: max pending requests cannot be negative" [])
      else Ok (concurrent, pending).

(** ** Flow control *)

Record streamFlow := MkFlow { window : Z; credits : Z; sent : Z; acked : Z }.
Definition newStreamFlow (window : Z) : streamFlow := MkFlow window window 0 0.
(** The two halves of [Acquire]: a credit is taken, then [sent] is raised. *)
Definition take_credit (f : streamFlow) : option streamFlow :=
  if 0 <? credits f then Some (MkFlow (window f) (credits f - 1) (sent f) (acked f)) else None.
Definition note_sent (sequence : Z) (f : streamFlow) : streamFlow :=
  MkFlow (window f) (credits f) (if sent f <? sequence then sequence else sent f) (acked f).
(** The locked half of [Acknowledge], with the credits it will release. *)
Definition note_acked (sequence : Z) (f : streamFlow) : streamFlow * Z :=
  if (sequence <=? acked f) || (sent f <? sequence) then (f, 0)
  else (MkFlow (window f) (credits f) (sent f) sequence, sequence - acked f).
(** One turn of its loop: a credit goes back, unless the channel is full. *)
Definition put_credit (f : streamFlow) : option streamFlow :=
  if credits f <? window f then Some (MkFlow (window f) (credits f + 1) (sent f) (acked f)) else None.

(** ** The registry *)

Record serverRequest := MkServerRequest { Request_ : Request; flow : option streamFlow }.
Definition new_request (request : Request) : serverRequest :=
  MkServerRequest request
    (if requestsStream request then Some (newStreamFlow (parseStreamWindow (meta request "stream_window"))) else None).

(** [active] are the registered requests by their ids; [table] all that were
    ever made, [cancelled] those whose context was cancelled. *)
Record registry := MkRegistry {
  active : gmap string nat;
  table : list serverRequest;
  cancelled : gset nat
}.
Definition newServerRequestRegistry : registry := MkRegistry ∅ [] ∅.
(** The new request's number, or [None] for a duplicate. *)
Definition Register (request : Request) (r : registry) : registry * option nat :=
  let h := length (table r) in
  let table' := table r ++ [new_request request] in
  if String.eqb (ID request) "" then (MkRegistry (active r) table' (cancelled r), Some h)
  else match active r !! ID request with
       | Some _ => (r, None)
       | None => (MkRegistry (<[ID request := h]> (active r)) table' (cancelled r), Some h)
       end.
Definition cancel (h : nat) (r : registry) : registry := MkRegistry (active r) (table r) ({[h]} ∪ cancelled r).
(** The active request that a control message of this id and token means. *)
Definition addressed (id token : string) (r : registry) : option (nat * serverRequest) :=
  if String.eqb id "" || String.eqb token "" then None
  else match active r !! id with
       | None => None
       | Some h => match table r !! h with
                   | Some q => if String.eqb (token_of (Request_ q)) token then Some (h, q) else None
                   | None => None
                   end
       end.
Definition Cancel (id token : string) (r : registry) : registry :=
  match addressed id token r with Some (h, _) => cancel h r | None => r end.
Definition set_flow (h : nat) (f : streamFlow) (r : registry) : registry :=
  MkRegistry (active r) (alter (fun q => MkServerRequest (Request_ q) (Some f)) h (table r)) (cancelled r).
Definition flow_of (h : nat) (r : registry) : option streamFlow := match table r !! h with Some q => flow q | None => None end.
(** The locked part of [Acknowledge]; what is left is to put credits back. *)
Definition Acknowledge (id token : string) (sequence : option Z) (r : registry) : registry * option (nat * Z) :=
  match sequence with
  | None => (r, None)
  | Some sequence =>
      match addressed id token r with
      | Some (h, MkServerRequest _ (Some f)) =>
          let '(f, release) := note_acked sequence f in (set_flow h f r, Some (h, release))
      | _ => (r, None)
      end
  end.
Definition Complete (h : nat) (r : registry) : registry :=
  match table r !! h with
  | None => r
  | Some q =>
      let id := ID (Request_ q) in
      let active' := if String.eqb id "" then active r
                     else match active r !! id with
                          | Some h' => if Nat.eqb h h' then delete id (active r) else active r
                          | None => active r
                          end in
      cancel h (MkRegistry active' (table r) (cancelled r))
  end.
Definition is_stream (r : registry) (h : nat) : bool := match flow_of h r with Some _ => true | None => false end.
Definition CancelStreams (r : registry) : registry :=
  MkRegistry (active r) (table r) (list_to_set (List.filter (is_stream r) (map_to_list (active r)).*2) ∪ cancelled r).

(** ** Control methods

    [decoded]: what [decodeSidecarControlParams] makes of the parameters. *)
Section Control.
Context {V : Type}.

Definition answer (request : Request) (r : V + (string * string)) : Stream.Response V :=
  match r with
  | inl v => Stream.MkResponse (ID request) (Some v) None None
  | inr (code, message) => Stream.MkResponse (ID request) None (Some (NewError code message)) None
  end.
Definition authenticatesSidecarControl (Token : string) (request : Request) : bool :=
  negb (String.eqb Token "") && String.eqb (token_of request) Token.
Definition renderSidecarResourceError (err : goerror) : string * string :=
  let is_any (targets : list goerror) := existsb (errors_is err) targets in
  if is_any [ErrResourceBookmarkUnavailable; ErrResourceBrokerClosed] then ("resource_unavailable", "Native Sidecar resources are unavailable.")
  else if is_any [ErrResourceBookmarkInvalid; ErrResourceCapabilityInvalid; ErrResourceLeaseInvalid] then ("resource_invalid", "The native resource grant is invalid.")
  else if is_any [ErrResourceBookmarkTooLarge] then ("resource_too_large", "The resource bookmark exceeds the configured size.")
  else if is_any [ErrResourceBookmarkStale] then ("resource_stale", "The resource bookmark is stale and must be recreated.")
  else if is_any [ErrResourceBookmarkAccess] then ("resource_access_denied", "The Sidecar could not access the resource.")
  else if is_any [ErrResourceGrantLimit] then ("resource_limit", "The active native resource limit was reached.")
  else if is_any [ErrResourceCapabilityNotFound] then ("resource_not_found", "The native resource capability was not found.")
  else ("resource_failed", "The native resource operation failed.").
(** [base64.StdEncoding.EncodedLen]. *)
Definition EncodedLen (n : Z) : Z := Z.quot (n + 2) 3 * 4.
Definition resource_unconfigured := ("resource_unavailable", "Native Sidecar resources are not configured.").
Definition bad_token := ("unauthenticated", "The request token is invalid.").
Definition bad_grant := ("resource_invalid", "The resource grant parameters are invalid.").
Definition bad_release := ("resource_invalid", "The resource release parameters are invalid.").

(** [maxBookmarkBytes] of the broker, if there is one; [decode64] is the base64 decoder. *)
Definition grantSidecarResource (Token : string) (Resources : option Z) (decoded : option (string * string))
    (decode64 : string -> option (list Z)) (Grant : list Z -> string -> goerror + string) (capability : string -> V) (request : Request) : Stream.Response V :=
  answer request match Resources with
  | None => inr resource_unconfigured
  | Some maxBookmarkBytes =>
      if negb (authenticatesSidecarControl Token request) then inr bad_token
      else match decoded with
      | None => inr bad_grant
      | Some (bookmark, scope) =>
          if String.eqb bookmark "" || negb (validResourceBookmarkScope scope) then inr bad_grant
          else if EncodedLen maxBookmarkBytes <? string_length bookmark then
            inr ("resource_too_large", "The resource bookmark exceeds the configured size.")
          else match decode64 bookmark with
          | None => inr bad_grant
          | Some bytes =>
              match Grant bytes scope with
              | inr c => inl (capability c)
              | inl err => inr (renderSidecarResourceError err)
              end
          end
      end
  end.
Definition releaseSidecarResource (Token : string) (configured : bool) (decoded : option string)
    (Release : string -> option goerror) (released : V) (request : Request) : Stream.Response V :=
  answer request (
    if negb configured then inr resource_unconfigured
    else if negb (authenticatesSidecarControl Token request) then inr bad_token
    else match decoded with
    | None => inr bad_release
    | Some capability =>
        if negb (validResourceCapability capability) then inr bad_release
        else match Release capability with Some err => inr (renderSidecarResourceError err) | None => inl released end
    end).

Record upload_params := MkUploadParams { up_Path : string; up_Name : string; up_MediaType : string; up_Size : Z; up_SHA256 : string }.
Definition bad_upload := ("invalid_params", "The file upload parameters are invalid.").
Definition upload_error (err : goerror) : string * string :=
  if errors_is err ErrFileTransferTooLarge then ("file_upload_too_large", "The file upload exceeds its declared or configured size.")
  else if errors_is err ErrFileTransferChecksum then ("file_upload_checksum_mismatch", "The file upload failed SHA-256 verification.")
  else if errors_is err ErrFileTransferInvalid || errors_is err ErrFileTransferIncomplete then ("file_upload_invalid", "The file upload is invalid.")
  else if errors_is err context_Canceled then ("request_cancelled", "The request was cancelled.")
  else ("file_upload_failed", "The Sidecar could not store the file upload.").
(** [import]: opening the source ([None] if it fails) and [ImportUpload] from it. *)
Definition importSidecarUpload (Token : string) (configured : bool) (decoded : option upload_params)
    (import : upload_params -> option (goerror + V)) (request : Request) : Stream.Response V :=
  answer request (
    if negb configured then inr ("file_upload_unavailable", "The Sidecar file transfer store is not configured.")
    else if negb (authenticatesSidecarControl Token request) then inr bad_token
    else match decoded with
    | None => inr bad_upload
    | Some params =>
        if String.eqb (up_Path params) "" then inr bad_upload
        else match import params with
        | None => inr ("file_upload_unavailable", "The Sidecar could not open the upload source.")
        | Some (inr reference) => inl reference
        | Some (inl err) => inr (upload_error err)
        end
    end).

(** Whatever a control method does, its answer carries the request's id. *)
Lemma answer_ID request r : Stream.response_ID (answer request r) = ID request.
Proof. by destruct r as [|[]]. Qed.
End Control.

(** ** Serving *)

Section Serve.
Context {V : Type}.
#[local] Abbreviation Response := (Stream.Response V).

(** A line of the input: what [json.Unmarshal] makes of it, with the sequence
    that the parameters of an acknowledgement hold. *)
Inductive line := Malformed | Message (request : Request) (sequence : option Z).

(** Where the scanning goroutine is. *)
Inductive scanner_at :=
| AtScan
| Handling (l : line)
| Selecting (h : nat)                        (* at the select that queues a request *)
| Answering (response : Response)            (* about to encode an error of its own *)
| Crediting (h : nat) (release : Z)          (* in the loop of [streamFlow.Acknowledge] *)
| Stopping (scanError : option goerror)      (* past the loop *)
| Draining (scanError : option goerror)      (* the jobs are closed; at [workers.Wait] *)
| Served (result : option goerror).

Inductive worker_at :=
| Idle
| Received (h : nat)
| Running (h : nat)                          (* in a unary method *)
| Producing (h : nat) (sequence : Z)         (* in a streaming handler, after that many frames *)
| Acquiring (h : nat) (sequence : Z)         (* in [Acquire], for the frame of that number *)
| Acquired (h : nat) (sequence : Z)          (* a credit is taken *)
| Emitting (h : nat) (sequence : Z)          (* about to encode the frame *)
| Completing (h : nat) (sequence : Z)        (* about to encode the last frame *)
| Finishing (h : nat)
| Exited.

#[export] Instance worker_at_dec : EqDecision worker_at.
Proof. solve_decision. Defined.

(** Who wrote a response: the scanner, or the worker of a request. *)
Inductive source := FromScanner | FromWorker (h : nat).

Record server := MkServer {
  capacity : nat;
  reg : registry;
  jobs : list nat;
  scanner : scanner_at;
  workers : list worker_at;
  dispatchDone : bool;                       (* [dispatchCtx] is done *)
  encoderErr : option goerror;
  output : list (source * Response);
  accepted : list nat;                       (* history: the requests that were queued *)
  skipped : list nat                         (* history: those whose context was done when a worker took them *)
}.
Definition start (concurrent pending : nat) : server :=
  MkServer pending newServerRequestRegistry [] AtScan (replicate concurrent Idle) false None [] [] [].

Definition set_scanner (x : scanner_at) (s : server) : server :=
  MkServer (capacity s) (reg s) (jobs s) x (workers s) (dispatchDone s) (encoderErr s) (output s) (accepted s) (skipped s).
Definition set_reg (r : registry) (s : server) : server :=
  MkServer (capacity s) r (jobs s) (scanner s) (workers s) (dispatchDone s) (encoderErr s) (output s) (accepted s) (skipped s).
Definition set_jobs (l : list nat) (s : server) : server :=
  MkServer (capacity s) (reg s) l (scanner s) (workers s) (dispatchDone s) (encoderErr s) (output s) (accepted s) (skipped s).
Definition set_worker (i : nat) (x : worker_at) (s : server) : server :=
  MkServer (capacity s) (reg s) (jobs s) (scanner s) (<[i := x]> (workers s)) (dispatchDone s) (encoderErr s) (output s) (accepted s) (skipped s).
Definition skip (h : nat) (s : server) : server :=
  MkServer (capacity s) (reg s) (jobs s) (scanner s) (workers s) (dispatchDone s) (encoderErr s) (output s) (accepted s) (h :: skipped s).

(** [encoder.Encode]: [fails] is what the output answers; the first error sticks and ends dispatching. *)
Definition Encode (from : source) (response : Response) (fails : option goerror) (s : server) : server * option goerror :=
  match encoderErr s with
  | Some err => (s, Some err)
  | None =>
      match fails with
      | Some err => (MkServer (capacity s) (reg s) (jobs s) (scanner s) (workers s) true (Some err) (output s) (accepted s) (skipped s), Some err)
      | None => (MkServer (capacity s) (reg s) (jobs s) (scanner s) (workers s) (dispatchDone s) None (output s ++ [(from, response)])
                   (accepted s) (skipped s), None)
      end
  end.

Definition invalid_json : Response := Stream.MkResponse "" None (Some (NewError "invalid_json" "The request is not valid JSON.")) None.
Definition duplicate_request (id : string) : Response :=
  Stream.MkResponse id None (Some (NewError "duplicate_request" "Another request already uses this id.")) None.
Definition server_busy (id : string) : Response :=
  Stream.MkResponse id None (Some (NewError "server_busy" "The Go sidecar request queue is full.")) None.
Definition id_of (h : nat) (r : registry) : string := match table r !! h with Some q => ID (Request_ q) | None => "" end.

(** The body of the loop for one line, up to its next synchronisation. *)
Definition handle (l : line) (s : server) : server :=
  match l with
  | Malformed => set_scanner (Answering invalid_json) s
  | Message request sequence =>
      if String.eqb (Method request) rpcCancellationMethod then
        set_scanner AtScan (set_reg (Cancel (ID request) (token_of request) (reg s)) s)
      else if String.eqb (Method request) rpcStreamAckMethod then
        let '(r, release) := Acknowledge (ID request) (token_of request) sequence (reg s) in
        set_scanner (match release with Some (h, n) => Crediting h n | None => AtScan end) (set_reg r s)
      else
        let '(r, registered) := Register request (reg s) in
        set_scanner (match registered with Some h => Selecting h | None => Answering (duplicate_request (ID request)) end) (set_reg r s)
  end.
(** [jobs <- registered]. *)
Definition enqueue (h : nat) (s : server) : server :=
  MkServer (capacity s) (reg s) (jobs s ++ [h]) AtScan (workers s) (dispatchDone s) (encoderErr s) (output s) (accepted s ++ [h]) (skipped s).
Definition after_encoding (x : server * option goerror) : server :=
  match x with (s, None) => set_scanner AtScan s | (s, Some _) => set_scanner (Stopping None) s end.

(** Whether the context of a request is done. *)
Definition request_done (h : nat) (s : server) : bool := dispatchDone s || bool_decide (h ∈ cancelled (reg s)).
Definition begin_request (i h : nat) (s : server) : server :=
  if request_done h s then set_worker i (Finishing h) (skip h s)
  else set_worker i (if is_stream (reg s) h then Producing h 0 else Running h) s.
Definition frame (id : string) (sequence : Z) (kind : string) (progress : option Stream.Progress) (result : option V) (err : option goerror) : Response :=
  Stream.MkResponse id result err (Some (Stream.MkStreamFrame sequence kind progress)).

Inductive step : server -> server -> Prop :=
(** The surroundings: the parent's context is cancelled. *)
| ParentDone s :
    step s (MkServer (capacity s) (reg s) (jobs s) (scanner s) (workers s) true (encoderErr s) (output s) (accepted s) (skipped s))
(** The scanner. *)
| Scan s l : scanner s = AtScan -> step s (set_scanner (if dispatchDone s then Stopping None else Handling l) s)
| ScanEnds s scanError : scanner s = AtScan -> step s (set_scanner (Stopping scanError) s)
| HandleLine s l : scanner s = Handling l -> step s (handle l s)
| Queue s h : scanner s = Selecting h -> (length (jobs s) < capacity s)%nat -> step s (enqueue h s)
| GiveUp s h : scanner s = Selecting h -> dispatchDone s = true ->
    step s (set_scanner (Stopping None) (set_reg (Complete h (reg s)) s))
| Busy s h : scanner s = Selecting h -> (capacity s <= length (jobs s))%nat -> dispatchDone s = false ->
    step s (set_scanner (Answering (server_busy (id_of h (reg s)))) (set_reg (Complete h (reg s)) s))
| Answer s response fails : scanner s = Answering response -> step s (after_encoding (Encode FromScanner response fails s))
| PutCredit s h n f f' : scanner s = Crediting h n -> 0 < n -> flow_of h (reg s) = Some f -> put_credit f = Some f' ->
    step s (set_scanner (Crediting h (n - 1)) (set_reg (set_flow h f' (reg s)) s))
| CreditsPut s h n : scanner s = Crediting h n ->
    n <= 0 \/ (exists f, flow_of h (reg s) = Some f /\ put_credit f = None) -> step s (set_scanner AtScan s)
| Stop s scanError : scanner s = Stopping scanError -> step s (set_scanner (Draining scanError) (set_reg (CancelStreams (reg s)) s))
| Return s scanError : scanner s = Draining scanError -> Forall (fun w => w = Exited) (workers s) ->
    step s (set_scanner (Served (errors_Join [scanError; encoderErr s])) s)
(** The workers. *)
| Take s i h q : workers s !! i = Some Idle -> jobs s = h :: q -> step s (set_worker i (Received h) (set_jobs q s))
| Exit s i scanError : workers s !! i = Some Idle -> jobs s = [] -> scanner s = Draining scanError -> step s (set_worker i Exited s)
| Begin s i h : workers s !! i = Some (Received h) -> step s (begin_request i h s)
| Reply s i h response fails : workers s !! i = Some (Running h) -> Stream.response_ID response = id_of h (reg s) ->
    step s (set_worker i (Finishing h) (Encode (FromWorker h) response fails s).1)
| Emit s i h n : workers s !! i = Some (Producing h n) -> request_done h s = false -> step s (set_worker i (Acquiring h (n + 1)) s)
| TakeCredit s i h n f f' : workers s !! i = Some (Acquiring h n) -> flow_of h (reg s) = Some f -> take_credit f = Some f' ->
    step s (set_worker i (Acquired h n) (set_reg (set_flow h f' (reg s)) s))
| AcquireFails s i h n : workers s !! i = Some (Acquiring h n) -> request_done h s = true -> step s (set_worker i (Finishing h) s)
| NoteSent s i h n f : workers s !! i = Some (Acquired h n) -> flow_of h (reg s) = Some f ->
    step s (set_worker i (Emitting h n) (set_reg (set_flow h (note_sent n f) (reg s)) s))
| Frame s i h n kind progress result fails : workers s !! i = Some (Emitting h n) -> kind <> streamCompleteKind ->
    let x := Encode (FromWorker h) (frame (id_of h (reg s)) n kind progress result None) fails s in
    step s (set_worker i (match x.2 with None => Producing h n | Some _ => Finishing h end) x.1)
| LastFrame s i h n : workers s !! i = Some (Producing h n) -> request_done h s = false -> step s (set_worker i (Completing h (n + 1)) s)
| CompleteFrame s i h n err fails : workers s !! i = Some (Completing h n) ->
    step s (set_worker i (Finishing h) (Encode (FromWorker h) (frame (id_of h (reg s)) n streamCompleteKind None None err) fails s).1)
| Interrupted s i h n : workers s !! i = Some (Producing h n) -> request_done h s = true -> step s (set_worker i (Finishing h) s)
| Finish s i h : workers s !! i = Some (Finishing h) -> step s (set_worker i Idle (set_reg (Complete h (reg s)) s)).

Definition reachable (concurrent pending : nat) : server -> Prop := rtc step (start concurrent pending).
End Serve.
Arguments server : clear implicits.
