(* ===== verification/ServerFacts.v ===== *)
(** * What the sidecar server promises

    A request is in one place at a time: about to be queued, queued, with one
    worker, or done.  So a unary request is answered at most once, and when
    [Serve] returns every request that was queued has its answer, unless its
    context was done before it began or the output failed.  The credits of a
    stream, the frames it has in flight and those not acknowledged always make
    up its window.  A stream without an id waits for ever once its window is
    used up and the input has ended. *)
From S2P Require Import Prelude GoStrings ResourceBroker FileTransfer Router Stream Server.
Open Scope Z_scope.
Open Scope go_scope.

Section Facts.
Context {V : Type}.
#[local] Abbreviation server := (Server.server V).
Implicit Types s : server.

(** ** The registry *)

Definition flows_kept (r r' : registry) : Prop := forall h, flow_of h r' = flow_of h r.

Lemma cancel_table h r : table (cancel h r) = table r.
Proof. done. Qed.
Lemma Complete_table h r : table (Complete h r) = table r.
Proof. unfold Complete. by destruct (table r !! h). Qed.
Lemma Cancel_table id token r : table (Cancel id token r) = table r.
Proof. unfold Cancel. by destruct (addressed id token r) as [[]|]. Qed.
Lemma set_flow_length h f r : length (table (set_flow h f r)) = length (table r).
Proof. unfold set_flow. cbn. by rewrite length_alter. Qed.
Lemma flow_of_set h f r h' : flow_of h' (set_flow h f r) =
  if decide (h = h') then match table r !! h with Some _ => Some f | None => None end else flow_of h' r.
Proof.
  unfold flow_of, set_flow. cbn. destruct (decide (h = h')) as [<-|Hne].
  - rewrite list_lookup_alter_eq. by destruct (table r !! h).
  - by rewrite list_lookup_alter_ne.
Qed.
Lemma flow_of_set_eq h f g r : flow_of h r = Some g -> flow_of h (set_flow h f r) = Some f.
Proof. intros H. rewrite flow_of_set, decide_True by done. unfold flow_of in H. by destruct (table r !! h). Qed.
Lemma flow_of_table r r' h : table r' = table r -> flow_of h r' = flow_of h r.
Proof. unfold flow_of. by intros ->. Qed.

(** Registering makes the next number, or nothing for a duplicate. *)
Lemma Register_spec request r :
  let '(r', registered) := Register request r in
  match registered with
  | Some h => h = length (table r) /\ table r' = table r ++ [new_request request]
  | None => r' = r
  end.
Proof.
  unfold Register. destruct (String.eqb (ID request) ""); [by split|]. by destruct (active r !! ID request).
Qed.
Lemma addressed_spec id token r h q : addressed id token r = Some (h, q) -> table r !! h = Some q.
Proof.
  unfold addressed. destruct (_ || _); [done|]. destruct (active r !! id) as [h'|]; [|done].
  destruct (table r !! h') as [q'|] eqn:E; [|done]. destruct (String.eqb _ _); [|done]. by intros [= <- <-].
Qed.

(** ** Places *)

(** The request a worker holds. *)
Definition held (w : worker_at) : option nat :=
  match w with
  | Idle | Exited => None
  | Received h | Running h | Producing h _ | Acquiring h _ | Acquired h _ | Emitting h _ | Completing h _ | Finishing h => Some h
  end.
Definition selecting (s : server) : option nat := match scanner s with Selecting h => Some h | _ => None end.

Record places (s : server) : Prop := {
  pl_workers : forall i j w w' h, workers s !! i = Some w -> workers s !! j = Some w' -> held w = Some h -> held w' = Some h -> i = j;
  pl_held : forall i w h, workers s !! i = Some w -> held w = Some h -> (h ∉ jobs s) /\ h ∈ accepted s;
  pl_jobs : NoDup (jobs s) /\ forall h, h ∈ jobs s -> h ∈ accepted s;
  pl_selecting : forall h, selecting s = Some h -> (h ∉ accepted s) /\ (h < length (table (reg s)))%nat;
  pl_accepted : forall h, h ∈ accepted s -> (h < length (table (reg s)))%nat;
  pl_exited : forall i, workers s !! i = Some Exited -> jobs s = [] /\ match scanner s with Draining _ | Served _ => True | _ => False end
}.

(** What a step leaves alone of places: the same but for one worker, who keeps or drops his request. *)
Lemma places_worker s s' i w w' :
  places s -> workers s !! i = Some w -> workers s' = <[i := w']> (workers s) -> (held w' = held w \/ held w' = None) -> w' <> Exited ->
  jobs s' = jobs s -> accepted s' = accepted s -> selecting s' = selecting s -> scanner s' = scanner s ->
  length (table (reg s')) = length (table (reg s)) -> places s'.
Proof.
  intros P Hw Ew Hh Hx Ej Ea Es Esc Et. assert (i < length (workers s))%nat as Hi by (by eapply lookup_lt_Some).
  assert (forall j x h, workers s' !! j = Some x -> held x = Some h -> exists x0, workers s !! j = Some x0 /\ held x0 = Some h) as Hback.
  { intros j x h Hj Hx'. rewrite Ew in Hj. apply list_lookup_insert_Some in Hj as [(<- & -> & _)|[_ Hj]]; [|by exists x].
    exists w. split; [done|]. destruct Hh as [E|E]; congruence. }
  constructor.
  - intros j k x y h Hj Hk Hx' Hy. destruct (Hback _ _ _ Hj Hx') as (x0 & ? & ?), (Hback _ _ _ Hk Hy) as (y0 & ? & ?). by eapply (pl_workers s P).
  - intros j x h Hj Hx'. destruct (Hback _ _ _ Hj Hx') as (x0 & ? & ?). rewrite Ej, Ea. by eapply (pl_held s P).
  - rewrite Ej, Ea. apply (pl_jobs s P).
  - intros h. rewrite Es, Ea, Et. apply (pl_selecting s P).
  - intros h. rewrite Ea, Et. apply (pl_accepted s P).
  - intros j Hj. rewrite Ew in Hj. apply list_lookup_insert_Some in Hj as [(_ & Hc & _)|[_ Hj]]; [congruence|].
    rewrite Ej, Esc. by apply (pl_exited s P j).
Qed.
(** The same for a step of the scanner that queues nothing. *)
Lemma places_scanner s s' :
  places s -> workers s' = workers s -> jobs s' = jobs s -> accepted s' = accepted s ->
  (length (table (reg s)) <= length (table (reg s')))%nat ->
  (forall h, selecting s' = Some h -> (h ∉ accepted s) /\ (h < length (table (reg s')))%nat) ->
  (forall i, workers s !! i = Some Exited -> match scanner s' with Draining _ | Served _ => True | _ => False end) -> places s'.
Proof.
  intros P Ew Ej Ea Et Hs Hx. constructor; rewrite ?Ew, ?Ej, ?Ea.
  - apply (pl_workers s P).
  - apply (pl_held s P).
  - apply (pl_jobs s P).
  - done.
  - intros h Hh. apply (pl_accepted s P) in Hh. lia.
  - intros i Hi. split; [by apply (pl_exited s P i)|]. by eapply Hx.
Qed.

(** Encoding changes what was written and whether dispatching goes on, nothing else. *)
Lemma Encode_same from response fails s :
  let s' := (Encode from response fails s).1 in
  workers s' = workers s /\ jobs s' = jobs s /\ scanner s' = scanner s /\ accepted s' = accepted s /\ reg s' = reg s /\
  skipped s' = skipped s /\ capacity s' = capacity s.
Proof. unfold Encode. destruct (encoderErr s); [done|]. by destruct fails. Qed.

Lemma handle_places s l : places s -> scanner s = Handling l -> places (handle l s).
Proof.
  intros P E. assert (selecting s = None) as Hs by (unfold selecting; by rewrite E).
  assert (forall i, workers s !! i <> Some Exited) as Hx by (intros i Hi; apply (pl_exited s P) in Hi as [_ Hi]; by rewrite E in Hi).
  assert (forall r x, (length (table (reg s)) <= length (table r))%nat ->
    (forall h, x = Selecting h -> (length (table (reg s)) <= h < length (table r))%nat) -> places (set_scanner x (set_reg r s))) as H.
  { intros r x Ht Hx'. eapply (places_scanner s); try done; cbn.
    - intros h Hh. unfold selecting in Hh. cbn in Hh. destruct x; try done. injection Hh as ->. specialize (Hx' h eq_refl).
      split; [|lia]. intros Ha. apply (pl_accepted s P) in Ha. lia.
    - intros i Hi. by apply Hx in Hi. }
  destruct l as [|request sequence]; cbn [handle].
  - apply (H (reg s)); [lia|done].
  - destruct (String.eqb _ _); [apply H; [by rewrite Cancel_table|done]|]. destruct (String.eqb _ _).
    + unfold Acknowledge. destruct sequence as [n|]; [|by apply H]. destruct (addressed _ _ _) as [[h [q [f|]]]|]; [|by apply H..].
      destruct (note_acked n f) as [f' k]. apply H; [by rewrite set_flow_length|done].
    + pose proof (Register_spec request (reg s)) as Hr. destruct (Register request (reg s)) as [r [h|]].
      * destruct Hr as [-> Et]. apply H; rewrite Et, length_app; cbn; [lia|]. intros h [= <-]. lia.
      * subst r. by apply H.
Qed.

Ltac exited_late P := let i := fresh in let Hi := fresh in
  intros i Hi; apply (pl_exited _ P) in Hi as [_ Hi]; cbn; repeat match goal with E : scanner _ = _ |- _ => rewrite E in Hi end; done.
Ltac places_by_scanner s P := apply (places_scanner s); [done|done|done|done|cbn [reg set_reg set_scanner]; rewrite ?Complete_table; done|try done|exited_late P].
Ltac places_by_worker P i w :=
  eapply (places_worker _ _ i w _ P); cbn [reg set_reg set_scanner set_worker set_jobs workers held jobs accepted scanner]; rewrite ?Complete_table, ?set_flow_length; try done; auto.

Lemma enqueue_places s h : places s -> scanner s = Selecting h -> places (enqueue h s).
Proof.
  intros P E. destruct (pl_selecting s P h ltac:(unfold selecting; by rewrite E)) as [Hna Hlt].
  assert (h ∉ jobs s) as Hnj by (intros Hj; by apply (pl_jobs s P) in Hj).
  constructor; cbn.
  - apply (pl_workers s P).
  - intros i w h' Hi Hh. destruct (pl_held s P i w h' Hi Hh) as [Hj Ha]. rewrite !elem_of_app, list_elem_of_singleton. split; [|by left].
    intros [?| ->]; [done|]. by apply Hna.
  - destruct (pl_jobs s P) as [Hnd Hin]. split.
    + apply NoDup_app. split; [done|]. split; [|apply NoDup_singleton]. intros x Hx ->%list_elem_of_singleton. by apply Hnj.
    + intros x. rewrite !elem_of_app. intros [?|?]; [left; auto|by right].
  - done.
  - intros x. rewrite elem_of_app, list_elem_of_singleton. intros [?| ->]; [by apply (pl_accepted s P)|done].
  - intros i Hi. apply (pl_exited s P) in Hi as [_ Hi]. by rewrite E in Hi.
Qed.

Lemma encode_places s i w w' from r f : places s -> workers s !! i = Some w -> held w' = held w -> w' <> Exited ->
  places (set_worker i w' (Encode from r f s).1).
Proof.
  intros P Ew Hh Hx. destruct (Encode_same from r f s) as (Hw & Hj & Hs & Ha & Hr & _).
  eapply (places_worker s _ i _ _ P Ew); cbn; rewrite ?Hw, ?Hr; auto. unfold selecting. cbn. by rewrite Hs.
Qed.
Lemma take_places s i h q : places s -> workers s !! i = Some Idle -> jobs s = h :: q -> places (set_worker i (Received h) (set_jobs q s)).
Proof.
  intros P Ew Ej. destruct (pl_jobs s P) as [Hnd Hin]. rewrite Ej in Hnd, Hin. apply NoDup_cons in Hnd as [Hnq Hnd].
  assert (forall j w h', workers s !! j = Some w -> held w = Some h' -> h' <> h /\ (h' ∉ q) /\ h' ∈ accepted s) as Hheld.
  { intros j w h' Hj Hh. destruct (pl_held s P j w h' Hj Hh) as [Hn Ha]. rewrite Ej in Hn. by apply not_elem_of_cons in Hn as [? ?]. }
  constructor; cbn.
  - intros j k w w' h' Hj Hk Hh Hh'. apply list_lookup_insert_Some in Hj as [(<- & <- & _)|[Hij Hj]], Hk as [(<- & <- & _)|[Hik Hk]]; cbn in *.
    + done.
    + injection Hh as <-. by apply (Hheld k w' h Hk) in Hh' as [? _].
    + injection Hh' as <-. by apply (Hheld j w h Hj) in Hh as [? _].
    + exact (pl_workers s P j k w w' h' Hj Hk Hh Hh').
  - intros j w h' Hj Hh. apply list_lookup_insert_Some in Hj as [(<- & <- & _)|[_ Hj]]; cbn in *.
    + injection Hh as <-. split; [done|]. apply Hin. by left.
    + by destruct (Hheld j w h' Hj Hh) as (_ & ? & ?).
  - split; [done|]. intros x Hx. apply Hin. by right.
  - apply (pl_selecting s P).
  - apply (pl_accepted s P).
  - intros j Hj. apply list_lookup_insert_Some in Hj as [(_ & ? & _)|[_ Hj]]; [done|]. apply (pl_exited s P) in Hj as [Hj _]. congruence.
Qed.
Lemma exit_places s i e : places s -> workers s !! i = Some Idle -> jobs s = [] -> scanner s = Draining e -> places (set_worker i Exited s).
Proof.
  intros P Ew Ej E.
  assert (forall j w h, <[i:=Exited]> (workers s) !! j = Some w -> held w = Some h -> workers s !! j = Some w) as Hb.
  { intros j w h Hj Hh. apply list_lookup_insert_Some in Hj as [(_ & <- & _)|[_ Hj]]; done. }
  constructor; cbn.
  - intros j k w w' h Hj Hk Hh Hh'. exact (pl_workers s P j k w w' h (Hb _ _ _ Hj Hh) (Hb _ _ _ Hk Hh') Hh Hh').
  - intros j w h Hj Hh. exact (pl_held s P j w h (Hb _ _ _ Hj Hh) Hh).
  - apply (pl_jobs s P).
  - apply (pl_selecting s P).
  - apply (pl_accepted s P).
  - intros j _. by rewrite Ej, E.
Qed.

Lemma step_places s s' : places s -> step s s' -> places s'.
Proof.
  intros P St. destruct St as [s|s l E|s e E|s l E|s h E _|s h E _|s h E _ _|s r f E|s h n f f' E _ _ _|s h n E _|s e E|s e E _|s i h q Ew Ej
    |s i e Ew Ej E|s i h Ew|s i h r f Ew _|s i h n Ew _|s i h n f f' Ew _ _|s i h n Ew _|s i h n f Ew _|s i h n k pr r f Ew _ x|s i h n Ew _|s i h n e f Ew|s i h n Ew _|s i h Ew].
  - apply (places_scanner s); try done; [apply (pl_selecting s P)|exited_late P].
  - places_by_scanner s P. cbn. unfold selecting. cbn. by destruct (dispatchDone s).
  - places_by_scanner s P.
  - by apply handle_places.
  - by apply enqueue_places.
  - places_by_scanner s P.
  - places_by_scanner s P.
  - unfold after_encoding. destruct (Encode_same FromScanner r f s) as (Hw & Hj & Hs & Ha & Hr & _).
    destruct (Encode FromScanner r f s) as [s' [e|]]; cbn in *; (apply (places_scanner s); [done|done|done|done|cbn; by rewrite Hr|done|exited_late P]).
  - apply (places_scanner s); [done|done|done|done|cbn [reg set_reg set_scanner]; by rewrite set_flow_length|done|exited_late P].
  - places_by_scanner s P.
  - places_by_scanner s P.
  - places_by_scanner s P.
  - by apply take_places.
  - by eapply exit_places.
  - unfold begin_request. destruct (request_done h s); [|destruct (is_stream (reg s) h)]; places_by_worker P i (Received h).
  - by eapply encode_places.
  - places_by_worker P i (Producing h n).
  - places_by_worker P i (Acquiring h n).
  - places_by_worker P i (Acquiring h n).
  - places_by_worker P i (Acquired h n).
  - eapply encode_places; [done|done|by destruct x.2|by destruct x.2].
  - places_by_worker P i (Producing h n).
  - by eapply encode_places.
  - places_by_worker P i (Producing h n).
  - places_by_worker P i (Finishing h).
Qed.

(** ** What a request is, once registered, stays *)

Definition keeps (r r' : registry) : Prop :=
  forall h, (h < length (table r))%nat -> is_stream r' h = is_stream r h /\ id_of h r' = id_of h r.
Lemma keeps_same r r' : table r' = table r -> keeps r r'.
Proof. intros E h _. unfold is_stream, flow_of, id_of. by rewrite E. Qed.
Lemma keeps_set_flow h f r : is_stream r h = true -> keeps r (set_flow h f r).
Proof.
  intros Hs h' _. unfold is_stream, id_of. rewrite flow_of_set. unfold is_stream, flow_of in *.
  destruct (decide (h = h')) as [<-|Hne].
  - unfold set_flow. cbn. rewrite list_lookup_alter_eq. by destruct (table r !! h) as [q|].
  - unfold set_flow. cbn. by rewrite list_lookup_alter_ne.
Qed.
Lemma keeps_flow h f f' r : flow_of h r = Some f -> keeps r (set_flow h f' r).
Proof. intros E. apply keeps_set_flow. unfold is_stream. by rewrite E. Qed.
Lemma handle_keeps l s : keeps (reg s) (reg (handle l s)).
Proof.
  destruct l as [|request sequence]; cbn [handle]; [by apply keeps_same|].
  destruct (String.eqb _ _); [apply keeps_same; cbn; apply Cancel_table|]. destruct (String.eqb _ _).
  - unfold Acknowledge. destruct sequence as [n|]; [|by apply keeps_same]. destruct (addressed _ _ _) as [[h [q [f|]]]|] eqn:E; try (by apply keeps_same).
    destruct (note_acked n f) as [f' k]. apply (keeps_flow h f). unfold flow_of. apply addressed_spec in E. by rewrite E.
  - pose proof (Register_spec request (reg s)) as Hr. destruct (Register request (reg s)) as [r [h|]]; [|subst; by apply keeps_same].
    destruct Hr as [_ Et]. intros h' Hh'. unfold is_stream, flow_of, id_of. cbn. by rewrite Et, lookup_app_l.
Qed.
Lemma step_keeps s s' : step s s' -> keeps (reg s) (reg s').
Proof.
  intros St. destruct St; try (by apply keeps_same); try (apply handle_keeps).
  - apply keeps_same. cbn. apply Complete_table.
  - apply keeps_same. cbn. apply Complete_table.
  - apply keeps_same. unfold after_encoding. destruct (Encode_same FromScanner response fails s) as (_ & _ & _ & _ & Hr & _).
    destruct (Encode FromScanner response fails s) as [s' [e|]]; cbn in *; by rewrite Hr.
  - by eapply keeps_flow.
  - apply keeps_same. unfold begin_request. by repeat case_match.
  - apply keeps_same. destruct (Encode_same (FromWorker h) response fails s) as (_ & _ & _ & _ & Hr & _). cbn. by rewrite Hr.
  - by eapply keeps_flow.
  - by eapply keeps_flow.
  - apply keeps_same. unfold x. destruct (Encode_same (FromWorker h) (frame (id_of h (reg s)) n kind progress result None) fails s) as (_ & _ & _ & _ & Hr & _). cbn. by rewrite Hr.
  - apply keeps_same. destruct (Encode_same (FromWorker h) (frame (id_of h (reg s)) n streamCompleteKind None None err) fails s) as (_ & _ & _ & _ & Hr & _). cbn. by rewrite Hr.
  - apply keeps_same. cbn. apply Complete_table.
Qed.

(** What the flow of a request has seen sent; zero for a unary request. *)
Definition sent_of (h : nat) (r : registry) : Z := match flow_of h r with Some f => sent f | None => 0 end.
Lemma sent_of_table r r' h : table r' = table r -> sent_of h r' = sent_of h r.
Proof. unfold sent_of, flow_of. by intros ->. Qed.
Lemma sent_of_set h f f' r : flow_of h r = Some f -> sent f' = sent f -> forall h', sent_of h' (set_flow h f' r) = sent_of h' r.
Proof.
  intros E Es h'. unfold sent_of. rewrite flow_of_set. destruct (decide (h = h')) as [<-|]; [|done].
  unfold flow_of in *. destruct (table r !! h); [|done]. by rewrite E.
Qed.
Lemma take_credit_spec f f' : take_credit f = Some f' -> sent f' = sent f /\ acked f' = acked f /\ window f' = window f /\ credits f' = credits f - 1 /\ 0 < credits f.
Proof. unfold take_credit. destruct (Z.ltb_spec 0 (credits f)); [|done]. by intros [= <-]. Qed.
Lemma put_credit_spec f f' : put_credit f = Some f' -> sent f' = sent f /\ acked f' = acked f /\ window f' = window f /\ credits f' = credits f + 1 /\ credits f < window f.
Proof. unfold put_credit. destruct (Z.ltb_spec (credits f) (window f)); [|done]. by intros [= <-]. Qed.
(** Only the worker's own note changes what is sent. *)
Lemma handle_sent l s h : sent_of h (reg (handle l s)) = sent_of h (reg s).
Proof.
  destruct l as [|request sequence]; cbn [handle]; [done|].
  destruct (String.eqb _ _); [apply sent_of_table; cbn; apply Cancel_table|]. destruct (String.eqb _ _).
  - unfold Acknowledge. destruct sequence as [n|]; [|done]. destruct (addressed _ _ _) as [[h' [q [f|]]]|] eqn:E; try done.
    apply addressed_spec in E. assert (flow_of h' (reg s) = Some f) as Ef by (unfold flow_of; by rewrite E).
    unfold note_acked. destruct (_ || _); cbn; by apply (sent_of_set h' f).
  - pose proof (Register_spec request (reg s)) as Hr. destruct (Register request (reg s)) as [r [h'|]]; [|by subst].
    destruct Hr as [_ Et]. unfold sent_of, flow_of. cbn. rewrite Et. destruct (decide (h < length (table (reg s)))%nat) as [Hlt|Hge].
    + by rewrite lookup_app_l.
    + rewrite lookup_app_r, (lookup_ge_None_2 (table (reg s))) by lia. destruct (h - _)%nat; [|done]. cbn. unfold new_request. cbn.
      by destruct (requestsStream request).
Qed.

(** ** Answers *)

Definition writes (h : nat) (x : source * Stream.Response V) : bool :=
  match x.1 with FromWorker h' => Nat.eqb h h' | FromScanner => false end.
(** What the worker of a request has written. *)
Definition answers (h : nat) (s : server) : list (source * Stream.Response V) := List.filter (writes h) (output s).
(** A unary request that is over: it has its one answer, or there was none to give. *)
Definition resolved (h : nat) (s : server) : Prop :=
  (exists response, answers h s = [(FromWorker h, response)] /\ Stream.response_ID response = id_of h (reg s)) \/
  (answers h s = [] /\ (h ∈ skipped s \/ encoderErr s <> None)).

(** [m] frames are written, numbered from 1, and the flow has seen [k] sent. *)
Definition numbered (h : nat) (s : server) (m k : Z) : Prop :=
  0 <= m /\ map (fun x => Stream.sequence_of x.2) (answers h s) = seqZ 1 m /\ sent_of h (reg s) = k.
(** A stream that is over: the last frame, which takes no credit, may be beyond those sent. *)
Definition framed (h : nat) (s : server) : Prop := exists m k, numbered h s m k /\ m <= k + 1.
Definition over (h : nat) (s : server) : Prop := if is_stream (reg s) h then framed h s else resolved h s.
Definition fresh (h : nat) (s : server) : Prop := answers h s = [] /\ sent_of h (reg s) = 0.

Definition local (s : server) (h : nat) (w : worker_at) : Prop :=
  match w with
  | Idle | Exited => True
  | Received _ => fresh h s
  | Running _ => is_stream (reg s) h = false /\ answers h s = []
  | Producing _ n => is_stream (reg s) h = true /\ numbered h s n n
  | Acquiring _ n | Acquired _ n | Completing _ n => is_stream (reg s) h = true /\ numbered h s (n - 1) (n - 1)
  | Emitting _ n => is_stream (reg s) h = true /\ numbered h s (n - 1) n
  | Finishing _ => over h s
  end.
Record answered (s : server) : Prop := {
  an_workers : forall i w h, workers s !! i = Some w -> held w = Some h -> local s h w;
  an_jobs : forall h, h ∈ jobs s -> fresh h s;
  an_new : forall h, h ∉ accepted s -> fresh h s;
  an_over : forall h, h ∈ accepted s -> h ∉ jobs s -> (forall i w, workers s !! i = Some w -> held w <> Some h) -> over h s
}.

(** What only grows, and the answers of all requests but perhaps one. *)
Record grows (except : nat -> Prop) (s s' : server) : Prop := {
  gr_answers : forall h, ~ except h -> answers h s' = answers h s;
  gr_skipped : forall h, h ∈ skipped s -> h ∈ skipped s';
  gr_sent : forall h, ~ except h -> sent_of h (reg s') = sent_of h (reg s);
  gr_error : encoderErr s <> None -> encoderErr s' <> None;
  gr_keeps : keeps (reg s) (reg s')
}.
Lemma resolved_grows except s s' h : grows except s s' -> ~ except h -> (h < length (table (reg s)))%nat -> resolved h s -> resolved h s'.
Proof.
  intros G Hne Hh [(response & Ha & Hi)|[Ha He]]; unfold resolved; rewrite (gr_answers _ _ _ G h Hne).
  - left. exists response. split; [done|]. by rewrite (proj2 (gr_keeps _ _ _ G h Hh)).
  - right. split; [done|]. destruct He as [He|He]; [left; by apply G|right; by apply G].
Qed.
Lemma numbered_grows except s s' h m k : grows except s s' -> ~ except h -> numbered h s m k -> numbered h s' m k.
Proof. intros G Hne. unfold numbered. by rewrite (gr_answers _ _ _ G h Hne), (gr_sent _ _ _ G h Hne). Qed.
Lemma fresh_grows except s s' h : grows except s s' -> ~ except h -> fresh h s -> fresh h s'.
Proof. intros G Hne. unfold fresh. by rewrite (gr_answers _ _ _ G h Hne), (gr_sent _ _ _ G h Hne). Qed.
Lemma over_grows except s s' h : grows except s s' -> ~ except h -> (h < length (table (reg s)))%nat -> over h s -> over h s'.
Proof.
  intros G Hne Hh. unfold over. rewrite (proj1 (gr_keeps _ _ _ G h Hh)). destruct (is_stream (reg s) h); [|by eapply resolved_grows].
  intros (m & k & Hn & Hm). exists m, k. split; [by eapply numbered_grows|done].
Qed.
Lemma local_grows except s s' h w : grows except s s' -> ~ except h -> (h < length (table (reg s)))%nat -> local s h w -> local s' h w.
Proof.
  intros G Hne Hh. unfold local. rewrite ?(gr_answers _ _ _ G h Hne), (proj1 (gr_keeps _ _ _ G h Hh)).
  destruct w; try done; try (intros [? Hn]; split; [done|by eapply numbered_grows]); [by eapply fresh_grows|by eapply over_grows].
Qed.

(** A step that moves no request. *)
Lemma answered_same s s' : places s -> answered s -> grows (fun _ => False) s s' ->
  workers s' = workers s -> jobs s' = jobs s -> accepted s' = accepted s -> answered s'.
Proof.
  intros P A G Ew Ej Ea. constructor; rewrite ?Ew, ?Ej, ?Ea.
  - intros i w h Hi Hh. eapply (local_grows _ s); [done|auto| |by eapply (an_workers s A)].
    apply (pl_accepted s P). apply (pl_held s P i w h Hi Hh).
  - intros h Hh. eapply (fresh_grows _ s); [done|auto|]. by apply (an_jobs s A).
  - intros h Hh. eapply (fresh_grows _ s); [done|auto|]. by apply (an_new s A).
  - intros h Ha Hj Hw. eapply (over_grows _ s); [done|auto|by apply (pl_accepted s P)|]. by apply (an_over s A).
Qed.
(** A step of the worker of [h0]. *)
Lemma answered_worker s s' i w w' h0 :
  places s -> answered s -> grows (fun h => h = h0) s s' -> workers s !! i = Some w -> held w = Some h0 ->
  workers s' = <[i := w']> (workers s) -> jobs s' = jobs s -> accepted s' = accepted s ->
  (held w' = Some h0 /\ local s' h0 w') \/ (held w' = None /\ over h0 s') -> answered s'.
Proof.
  intros P A G Hw Hh Ew Ej Ea Hl. destruct (pl_held s P i w h0 Hw Hh) as [Hnj Hacc].
  assert (forall j x h, j <> i -> workers s !! j = Some x -> held x = Some h -> h <> h0) as Hother.
  { intros j x h Hne Hj Hx ->. apply Hne. by eapply (pl_workers s P). }
  constructor; rewrite ?Ej, ?Ea.
  - intros j x h Hj Hx. rewrite Ew in Hj. apply list_lookup_insert_Some in Hj as [(<- & <- & _)|[Hne Hj]].
    + destruct Hl as [[E Hl]|[E _]]; [|congruence]. by rewrite E in Hx; injection Hx as <-.
    + eapply (local_grows _ s); [done|by eapply Hother| |by eapply (an_workers s A)]. apply (pl_accepted s P), (pl_held s P j x h Hj Hx).
  - intros h Hj. eapply (fresh_grows _ s); [done| |by apply (an_jobs s A)]. by intros ->.
  - intros h Hn. eapply (fresh_grows _ s); [done| |by apply (an_new s A)]. by intros ->.
  - intros h Ha Hj Hn. assert (i < length (workers s))%nat as Hi by (by eapply lookup_lt_Some).
    destruct (decide (h = h0)) as [->|Hne].
    + destruct Hl as [[E _]|[_ Hl]]; [|done]. exfalso. apply (Hn i w'); [|done]. rewrite Ew. by apply list_lookup_insert_eq.
    + eapply (over_grows _ s); [done|done|by apply (pl_accepted s P)|]. apply (an_over s A); [done..|].
      intros j x Hj' Hx. destruct (decide (j = i)) as [->|Hji]; [congruence|]. apply (Hn j x); [|done]. rewrite Ew. by rewrite list_lookup_insert_ne.
Qed.

Lemma grows_encode h response f s :
  grows (fun h' => h' = h) s (Encode (FromWorker h) response f s).1 /\
  (encoderErr (Encode (FromWorker h) response f s).1 = None ->
   answers h (Encode (FromWorker h) response f s).1 = answers h s ++ [(FromWorker h, response)]) /\
  (encoderErr (Encode (FromWorker h) response f s).1 <> None -> answers h (Encode (FromWorker h) response f s).1 = answers h s).
Proof.
  unfold Encode. destruct (encoderErr s) as [e|] eqn:E; [|destruct f as [e|]]; cbn.
  - split; [|by rewrite E]. by constructor; try apply keeps_same.
  - split; [|done]. by constructor; try apply keeps_same.
  - split.
    + constructor; try (by try apply keeps_same). intros h' Hne. unfold answers. cbn [output]. rewrite List.filter_app. cbn [List.filter].
      unfold writes at 2. cbn. destruct (Nat.eqb_spec h' h); [done|]. by rewrite app_nil_r.
    + split; [|done]. intros _. unfold answers. cbn [output]. rewrite List.filter_app. cbn [List.filter]. unfold writes at 2. cbn. by rewrite Nat.eqb_refl.
Qed.

Lemma grows_all s s' except : grows (fun _ => False) s s' -> grows except s s'.
Proof. intros [H1 H2 H3 H4 H5]. constructor; auto. Qed.
Lemma grows_quiet s s' : output s' = output s -> skipped s' = skipped s -> encoderErr s' = encoderErr s ->
  (forall h, sent_of h (reg s') = sent_of h (reg s)) -> keeps (reg s) (reg s') -> forall except, grows except s s'.
Proof. intros Eo Es Ee En K except. constructor; [intros h _; unfold answers; by rewrite Eo|intros h; by rewrite Es|done|by rewrite Ee|done]. Qed.
Lemma grows_scanner s response f : grows (fun _ => False) s (Encode FromScanner response f s).1.
Proof.
  unfold Encode. destruct (encoderErr s) as [e|] eqn:E; [|destruct f as [e|]]; constructor; cbn; try done; try by apply keeps_same.
  - intros h _. unfold answers. cbn [output]. rewrite List.filter_app. cbn. by rewrite app_nil_r.
Qed.

Lemma enqueue_answered s h : places s -> answered s -> scanner s = Selecting h -> answered (enqueue h s).
Proof.
  intros P A E. destruct (pl_selecting s P h ltac:(unfold selecting; by rewrite E)) as [Hna _]. constructor; cbn.
  - intros i w h' Hi Hh. exact (an_workers s A i w h' Hi Hh).
  - intros h' [Hj| ->%list_elem_of_singleton]%elem_of_app; [by apply (an_jobs s A)|by apply (an_new s A)].
  - intros h' [Hn _]%not_elem_of_app. by apply (an_new s A).
  - intros h' [Ha| ->%list_elem_of_singleton]%elem_of_app Hj; [|exfalso; apply Hj, elem_of_app; right; by left].
    apply not_elem_of_app in Hj as [Hj _]. by apply (an_over s A).
Qed.
Lemma take_answered s i h q : places s -> answered s -> workers s !! i = Some Idle -> jobs s = h :: q ->
  answered (set_worker i (Received h) (set_jobs q s)).
Proof.
  intros P A Ew Ej. constructor; cbn.
  - intros j w h' Hj Hh. apply list_lookup_insert_Some in Hj as [(<- & <- & _)|[_ Hj]].
    + cbn in Hh. injection Hh as <-. apply (an_jobs s A). rewrite Ej. by left.
    + exact (an_workers s A j w h' Hj Hh).
  - intros h' Hj. apply (an_jobs s A). rewrite Ej. by right.
  - apply (an_new s A).
  - intros h' Ha Hj Hn. apply (an_over s A); [done| |].
    + rewrite Ej. apply not_elem_of_cons. split; [|done]. intros ->. apply (Hn i (Received h)); [|done].
      apply list_lookup_insert_eq. by eapply lookup_lt_Some.
    + intros j w Hj' Hh. destruct (decide (i = j)) as [<-|Hne]; [rewrite Ew in Hj'; by injection Hj' as <-|].
      apply (Hn j w); [by rewrite list_lookup_insert_ne|done].
Qed.
Lemma exit_answered s i : answered s -> workers s !! i = Some Idle -> answered (set_worker i Exited s).
Proof.
  intros A Ew. constructor; cbn.
  - intros j w h Hj Hh. apply list_lookup_insert_Some in Hj as [(<- & <- & _)|[_ Hj]]; [done|]. exact (an_workers s A j w h Hj Hh).
  - apply (an_jobs s A).
  - apply (an_new s A).
  - intros h Ha Hj Hn. apply (an_over s A); [done..|]. intros j w Hj' Hh. destruct (decide (i = j)) as [<-|Hne]; [rewrite Ew in Hj'; by injection Hj' as <-|].
    apply (Hn j w); [by rewrite list_lookup_insert_ne|done].
Qed.

(** The answer of a unary request, or the error that stops all answers. *)
Lemma reply_resolved s i h response f : local s h (Running h) -> Stream.response_ID response = id_of h (reg s) ->
  resolved h (set_worker i (Finishing h) (Encode (FromWorker h) response f s).1).
Proof.
  intros [_ Hn] Hid. destruct (grows_encode h response f s) as (_ & Hok & Hfail). unfold resolved.
  change (answers h (set_worker i (Finishing h) ?x)) with (answers h x). change (encoderErr (set_worker i (Finishing h) ?x)) with (encoderErr x).
  change (reg (set_worker i (Finishing h) ?x)) with (reg x). destruct (Encode_same (FromWorker h) response f s) as (_ & _ & _ & _ & Hr & _). rewrite Hr.
  destruct (encoderErr (Encode (FromWorker h) response f s).1) eqn:Ee.
  - right. split; [|by right]. by rewrite Hfail.
  - left. exists response. rewrite Hok by done. by rewrite Hn.
Qed.
Lemma grows_set_worker except s s' i w : grows except s s' -> grows except s (set_worker i w s').
Proof. by intros []. Qed.

Lemma seqZ_snoc n : 0 <= n - 1 -> seqZ 1 n = seqZ 1 (n - 1) ++ [n].
Proof.
  intros H. assert (n = n - 1 + 1) as E by lia. rewrite E at 1. rewrite seqZ_app by lia. f_equal.
  rewrite seqZ_cons by lia. rewrite seqZ_nil by lia. f_equal. lia.
Qed.
(** The answer to a stream is a frame with the next number, if the output takes it. *)
Lemma frame_numbered i w h n k pr r e f s : numbered h s (n - 1) (sent_of h (reg s)) ->
  let x := Encode (FromWorker h) (frame (id_of h (reg s)) n k pr r e) f s in
  numbered h (set_worker i w x.1) (match x.2 with Some _ => n - 1 | None => n end) (sent_of h (reg s)).
Proof.
  intros (Hm & Hn & _) x. destruct (Encode_same (FromWorker h) (frame (id_of h (reg s)) n k pr r e) f s) as (_ & _ & _ & _ & Hr & _).
  unfold numbered. change (answers h (set_worker i w x.1)) with (answers h x.1). change (reg (set_worker i w x.1)) with (reg x.1).
  unfold x at 4. rewrite Hr. unfold x. destruct (grows_encode h (frame (id_of h (reg s)) n k pr r e) f s) as (_ & Hok & Hfail).
  assert (encoderErr (Encode (FromWorker h) (frame (id_of h (reg s)) n k pr r e) f s).1 =
    (Encode (FromWorker h) (frame (id_of h (reg s)) n k pr r e) f s).2) as Ee.
  { unfold Encode. destruct (encoderErr s) eqn:E; [by cbn; rewrite E|]. by destruct f. }
  destruct (Encode _ _ _ _).2 eqn:E2.
  - rewrite Hfail by congruence. done.
  - rewrite Hok by congruence. split; [lia|]. split; [|done]. rewrite map_app, Hn, (seqZ_snoc n) by done. done.
Qed.

Ltac quiet := try done; apply grows_quiet; try done; try (by apply keeps_same).
Ltac quiet_step s := apply (answered_same s); [done|done|quiet|done|done|done].
Ltac worker_step s i w h := eapply (answered_worker s _ i w _ h); [done|done| |done|done|done|done|done|left; split; [done|]]; [try by quiet|].

Lemma step_answered s s' : places s -> answered s -> step s s' -> answered s'.
Proof.
  intros P A St. pose proof (step_keeps s s' St) as K.
  destruct St as [s|s l E|s e E|s l E|s h E _|s h E _|s h E _ _|s r f E|s h n f f' E _ Ef Hf|s h n E _|s e E|s e E _|s i h q Ew Ej
    |s i e Ew Ej E|s i h Ew|s i h r f Ew Hid|s i h n Ew _|s i h n f f' Ew Ef Hf|s i h n Ew _|s i h n f Ew Ef|s i h n k pr r f Ew _ x|s i h n Ew _|s i h n e f Ew|s i h n Ew _|s i h Ew];
    try (pose proof (an_workers s A i _ h Ew eq_refl) as L; assert (h < length (table (reg s)))%nat as Hlt by (apply (pl_accepted s P), (pl_held s P i _ h Ew eq_refl))).
  - quiet_step s.
  - quiet_step s.
  - quiet_step s.
  - assert (output (handle l s) = output s /\ skipped (handle l s) = skipped s /\ encoderErr (handle l s) = encoderErr s /\
      workers (handle l s) = workers s /\ jobs (handle l s) = jobs s /\ accepted (handle l s) = accepted s) as (? & ? & ? & ? & ? & ?).
    { destruct l as [|request sequence]; cbn [handle]; [done|]. destruct (String.eqb _ _); [done|]. destruct (String.eqb _ _).
      - by destruct (Acknowledge _ _ _ _).
      - by destruct (Register _ _). }
    apply (answered_same s); [done|done|apply grows_quiet; try done; intros h; apply handle_sent|done..].
  - by apply enqueue_answered.
  - apply (answered_same s); [done|done|apply grows_quiet; try done; intros h'; apply sent_of_table, Complete_table|done..].
  - apply (answered_same s); [done|done|apply grows_quiet; try done; intros h'; apply sent_of_table, Complete_table|done..].
  - pose proof (grows_scanner s r f) as G. destruct (Encode_same FromScanner r f s) as (Hw & Hj & _ & Ha & _). unfold after_encoding.
    destruct (Encode FromScanner r f s) as [s' [e|]]; cbn in *; (apply (answered_same s); [done|done|by destruct G|done..]).
  - apply (answered_same s); [done|done|apply grows_quiet; try done|done..]. apply (sent_of_set h f); [done|by apply put_credit_spec].
  - quiet_step s.
  - quiet_step s.
  - quiet_step s.
  - by apply take_answered.
  - by apply exit_answered.
  - unfold begin_request in *. destruct L as [L1 L2]. destruct (request_done h s).
    + worker_step s i (Received h) h; [constructor; try done; intros ? ?; by right|]. cbn. unfold over. cbn. destruct (is_stream (reg s) h).
      * exists 0, 0. split; [|lia]. unfold numbered. change (answers h (set_worker _ _ _)) with (answers h s). by rewrite L1.
      * right. split; [done|]. left. by left.
    + destruct (is_stream (reg s) h) eqn:Es; worker_step s i (Received h) h; [|done]. split; [done|]. unfold numbered.
      change (answers h (set_worker _ _ _)) with (answers h s). by rewrite L1.
  - destruct (Encode_same (FromWorker h) r f s) as (Hw & Hj & _ & Ha & Hr & _).
    apply (answered_worker s _ i (Running h) (Finishing h) h); [done|done|apply grows_set_worker, grows_encode|done|done|cbn; by rewrite Hw|done|done|].
    left. split; [done|]. cbn [local]. unfold over. cbn [reg set_worker]. rewrite Hr, (proj1 L). by apply reply_resolved.
  - destruct L as [L1 L2]. worker_step s i (Producing h n) h. split; [done|]. by replace (n + 1 - 1) with n by lia.
  - destruct L as [L1 L2]. apply take_credit_spec in Hf as (Hs & _). pose proof (sent_of_set h f f' (reg s) Ef Hs) as Hse.
    worker_step s i (Acquiring h n) h. split; [by rewrite (proj1 (K h Hlt))|]. unfold numbered in *. cbn [reg set_worker set_reg]. by rewrite Hse.
  - destruct L as [L1 (L2 & L3 & L4)]. worker_step s i (Acquiring h n) h. cbn [local]. unfold over. cbn [reg set_worker]. rewrite L1. exists (n - 1), (n - 1).
    split; [done|lia].
  - destruct L as [L1 (L2 & L3 & L4)]. unfold sent_of in L4. rewrite Ef in L4.
    eapply (answered_worker s _ i (Acquired h n) (Emitting h n) h); [done|done| |done|done|done|done|done|left; split; [done|]].
    + constructor; try done. intros h' Hne. unfold sent_of. cbn. rewrite flow_of_set. by rewrite decide_False.
    + cbn [local]. split; [by rewrite (proj1 (K h Hlt))|]. split; [done|]. split; [done|]. unfold sent_of. cbn.
      rewrite (flow_of_set_eq _ _ f) by done. cbn. destruct (Z.ltb_spec (sent f) n); lia.
  - destruct L as [L1 L2]. destruct (Encode_same (FromWorker h) (frame (id_of h (reg s)) n k pr r None) f s) as (Hw & Hj & _ & Ha & Hr & _).
    assert (sent_of h (reg s) = n) as Hs by apply L2.
    pose proof (frame_numbered i (match x.2 with None => Producing h n | Some _ => Finishing h end) h n k pr r None f s ltac:(by rewrite Hs)) as Hn.
    eapply (answered_worker s _ i _ _ h); [done|done|apply grows_set_worker, grows_encode|done|done|unfold x; cbn; by rewrite Hw|done|done|].
    left. fold x in Hn |- *. cbn in Hn. assert (is_stream (reg x.1) h = true) as Hst by (unfold x; by rewrite Hr). rewrite Hs in Hn.
    destruct x.2; (split; [done|]); cbn [local]; unfold over; cbn [reg set_worker]; rewrite Hst; [|done]. exists (n - 1), n. split; [done|lia].
  - destruct L as [L1 L2]. worker_step s i (Producing h n) h. split; [done|]. by replace (n + 1 - 1) with n by lia.
  - destruct L as [L1 L2]. destruct (Encode_same (FromWorker h) (frame (id_of h (reg s)) n streamCompleteKind None None e) f s) as (Hw & Hj & _ & Ha & Hr & _).
    assert (sent_of h (reg s) = n - 1) as Hs by apply L2.
    pose proof (frame_numbered i (Finishing h) h n streamCompleteKind None None e f s ltac:(by rewrite Hs)) as Hn. cbn in Hn.
    eapply (answered_worker s _ i _ _ h); [done|done|apply grows_set_worker, grows_encode|done|done|cbn; by rewrite Hw|done|done|].
    left. split; [done|]. cbn [local]. unfold over. cbn [reg set_worker]. rewrite Hr, L1. rewrite Hs in Hn.
    eexists _, _. split; [exact Hn|]. destruct (Encode _ _ _ _).2; lia.
  - destruct L as [L1 L2]. worker_step s i (Producing h n) h. cbn [local]. unfold over. cbn [reg set_worker]. rewrite L1. exists n, n. split; [done|lia].
  - assert (grows (fun _ => False) s (set_worker i Idle (set_reg (Complete h (reg s)) s))) as G.
    { apply grows_quiet; try done. intros h'. apply sent_of_table, Complete_table. }
    eapply (answered_worker s _ i _ Idle h); [done|done|by destruct G; constructor; auto|done..|]. right. split; [done|]. apply (over_grows _ s _ h G); [by intros []|done|exact L].
Qed.

(** ** Flow control *)

Definition taking (h : nat) (w : worker_at) : Z := match w with Acquired h' _ => if Nat.eqb h h' then 1 else 0 | _ => 0 end.
(** The credits of [h] that workers have taken and not yet noted as sent. *)
Definition taken (h : nat) (l : list worker_at) : Z := foldr (fun w n => taking h w + n) 0 l.
(** The credits the scanner still has to put back. *)
Definition releasing (h : nat) (s : server) : Z := match scanner s with Crediting h' n => if Nat.eqb h h' then n else 0 | _ => 0 end.

Lemma taken_insert h i w w' l : l !! i = Some w -> taken h (<[i := w']> l) = taken h l - taking h w + taking h w'.
Proof.
  revert i. induction l as [|x l IH]; intros i; [done|]. destruct i as [|i].
  - intros [= ->]. cbn. lia.
  - intros H. change (taking h x + taken h (<[i := w']> l) = taking h x + taken h l - taking h w + taking h w'). rewrite (IH i H). lia.
Qed.
Lemma taken_nonneg h l : 0 <= taken h l.
Proof. induction l as [|w l IH]; [done|]. change (0 <= taking h w + taken h l). assert (0 <= taking h w) by (unfold taking; repeat case_match; lia). lia. Qed.

(** Every credit is in the channel, with a worker, with the scanner, or
    stands for a frame that is not acknowledged. *)
Record balanced (h : nat) (s : server) (f : streamFlow) : Prop := {
  ba_window : 1 <= window f <= maxStreamWindow;
  ba_credits : 0 <= credits f;
  ba_acked : 0 <= acked f <= sent f;
  ba_releasing : 0 <= releasing h s;
  ba_sum : credits f + taken h (workers s) + releasing h s + (sent f - acked f) = window f
}.
Definition flows_balanced (s : server) : Prop := forall h f, flow_of h (reg s) = Some f -> balanced h s f.

Lemma parseStreamWindow_bounds value : 1 <= parseStreamWindow value <= maxStreamWindow.
Proof.
  unfold parseStreamWindow, maxStreamWindow, defaultStreamWindow. case_match; [lia|]. destruct (Atoi value); [|lia].
  destruct (Z.ltb_spec z 1); cbn; [lia|]. destruct (Z.ltb_spec 256 z); lia.
Qed.
(** A step that changes neither credits nor who has them. *)
Lemma balanced_same s s' : flows_balanced s -> (forall h, flow_of h (reg s') = flow_of h (reg s)) ->
  (forall h, taken h (workers s') = taken h (workers s)) -> (forall h, releasing h s' = releasing h s) -> flows_balanced s'.
Proof. intros B Hf Ht Hr h f E. rewrite Hf in E. destruct (B h f E). by constructor; rewrite ?Ht, ?Hr. Qed.
(** A step of one worker that leaves the flows alone. *)
Lemma balanced_worker s s' i w w' : flows_balanced s -> workers s !! i = Some w -> workers s' = <[i := w']> (workers s) ->
  (forall h, taking h w' = taking h w) -> table (reg s') = table (reg s) -> scanner s' = scanner s -> flows_balanced s'.
Proof.
  intros B Hw Ew Ht Er Es. apply (balanced_same s); [done|intros h; by apply flow_of_table| |].
  - intros h. rewrite Ew, (taken_insert h i w w') by done. rewrite Ht. lia.
  - intros h. unfold releasing. by rewrite Es.
Qed.
Lemma balanced_scanner s s' : flows_balanced s -> workers s' = workers s -> table (reg s') = table (reg s) ->
  (forall h, releasing h s' = releasing h s) -> flows_balanced s'.
Proof. intros B Ew Er. apply balanced_same; [done|intros h; by apply flow_of_table|by rewrite Ew]. Qed.
(** One flow changes, with what is taken or released from it. *)
Lemma balanced_flow s s' h f f' : flows_balanced s -> flow_of h (reg s) = Some f -> reg s' = set_flow h f' (reg s) ->
  (forall h', h' <> h -> taken h' (workers s') = taken h' (workers s) /\ releasing h' s' = releasing h' s) ->
  (balanced h s f -> balanced h s' f') -> flows_balanced s'.
Proof.
  intros B Ef Er Ho Hb h' g Hg. rewrite Er, flow_of_set in Hg. destruct (decide (h = h')) as [<-|Hne].
  - unfold flow_of in Ef. destruct (table (reg s) !! h) eqn:E; [|done]. injection Hg as <-. apply Hb, B. unfold flow_of. by rewrite E.
  - destruct (Ho h' (not_eq_sym Hne)) as [Ht Hr]. destruct (B h' g Hg). by constructor; rewrite ?Ht, ?Hr.
Qed.
Lemma taken_none h l : (forall i n, l !! i <> Some (Acquired h n)) -> taken h l = 0.
Proof.
  induction l as [|w l IH]; [done|]. intros H. change (taking h w + taken h l = 0). rewrite IH by (intros i n; apply (H (S i) n)).
  destruct w; try done. cbn. destruct (Nat.eqb_spec h h0) as [<-|]; [|done]. by destruct (H 0%nat sequence).
Qed.
Lemma registered_balanced s request r registered x : places s -> flows_balanced s -> (forall h, releasing h s = 0) ->
  Register request (reg s) = (r, registered) -> (forall h, releasing h (set_scanner x s) = 0) -> flows_balanced (set_scanner x (set_reg r s)).
Proof.
  intros P B Hr E Hx h f Hf. pose proof (Register_spec request (reg s)) as H. rewrite E in H. cbn in Hf.
  assert (releasing h (set_scanner x (set_reg r s)) = 0) as Hx' by apply (Hx h).
  assert (flow_of h (reg s) = Some f -> balanced h (set_scanner x (set_reg r s)) f) as Hold.
  { intros H'. destruct (B h f H') as [? ? ? _ Hs]. rewrite Hr in Hs. by constructor; rewrite ?Hx'. }
  destruct registered as [h0|]; [|subst; auto]. destruct H as [-> Et]. unfold flow_of in Hf. rewrite Et in Hf.
  destruct (decide (h < length (table (reg s)))%nat) as [Hlt|Hge]; [rewrite lookup_app_l in Hf by done; by apply Hold|].
  rewrite lookup_app_r in Hf by lia. destruct (h - _)%nat; [|done]. cbn in Hf. destruct (requestsStream request); [|done]. injection Hf as <-.
  pose proof (parseStreamWindow_bounds (meta request "stream_window")) as Hw.
  assert (taken h (workers s) = 0) as Ht.
  { apply taken_none. intros i n Hi. destruct (pl_held s P i _ h Hi eq_refl) as [_ Ha]. apply (pl_accepted s P) in Ha. lia. }
  constructor; rewrite ?Hx'; cbn [workers set_scanner set_reg]; rewrite ?Ht; cbn [window credits sent acked newStreamFlow]; lia.
Qed.
Lemma acknowledged_balanced s id token sequence x : flows_balanced s -> (forall h, releasing h s = 0) ->
  let '(r, release) := Acknowledge id token sequence (reg s) in
  x = match release with Some (h, n) => Crediting h n | None => AtScan end -> flows_balanced (set_scanner x (set_reg r s)).
Proof.
  intros B Hr. assert (x = AtScan -> flows_balanced (set_scanner x (set_reg (reg s) s))) as Hsame.
  { intros ->. apply (balanced_scanner s); try done; intros h; by rewrite Hr. }
  unfold Acknowledge. destruct sequence as [sequence|]; [|done]. destruct (addressed _ _ _) as [[h [q [f|]]]|] eqn:E; [|done..].
  apply addressed_spec in E. assert (flow_of h (reg s) = Some f) as Ef by (unfold flow_of; by rewrite E).
  unfold note_acked. destruct (Z.leb_spec sequence (acked f)); cbn [orb];
    [|destruct (Z.ltb_spec (sent f) sequence)]; (intros ->; eapply (balanced_flow s _ h f); [done|done|done| |]).
  1, 3, 5: (intros h' Hne; split; [done|]; rewrite Hr; unfold releasing; cbn; destruct (Nat.eqb_spec h' h); done).
  all: intros [? ? ? _ Hs]; rewrite Hr in Hs; constructor; try done; unfold releasing; cbn [scanner set_scanner set_reg workers window credits acked sent]; rewrite ?Nat.eqb_refl; lia.
Qed.
Lemma handle_balanced s l : places s -> flows_balanced s -> scanner s = Handling l -> flows_balanced (handle l s).
Proof.
  intros P B E. assert (forall h, releasing h s = 0) as Hr by (intros h; unfold releasing; by rewrite E).
  destruct l as [|request sequence]; cbn [handle].
  - apply (balanced_scanner s); [done..|intros h; by rewrite Hr].
  - destruct (String.eqb _ _); [apply (balanced_scanner s); [done|done|apply Cancel_table|intros h; by rewrite Hr]|]. destruct (String.eqb _ _).
    + pose proof (acknowledged_balanced s (ID request) (token_of request) sequence) as H.
      destruct (Acknowledge _ _ _ _) as [r release]. by apply H.
    + destruct (Register request (reg s)) as [r registered] eqn:Er. eapply (registered_balanced s); try done. intros h. by destruct registered.
Qed.

Lemma step_balanced s s' : places s -> answered s -> flows_balanced s -> step s s' -> flows_balanced s'.
Proof.
  intros P A B St.
  destruct St as [s|s l E|s e E|s l E|s h E _|s h E _|s h E _ _|s r f E|s h n f f' E Hn Ef Hf|s h n E Hn|s e E|s e E _|s i h q Ew Ej
    |s i e Ew Ej E|s i h Ew|s i h r f Ew Hid|s i h n Ew _|s i h n f f' Ew Ef Hf|s i h n Ew _|s i h n f Ew Ef|s i h n k pr r f Ew _ x|s i h n Ew _|s i h n e f Ew|s i h n Ew _|s i h Ew].
  - by apply (balanced_scanner s).
  - apply (balanced_scanner s); [done..|]. intros h. unfold releasing. rewrite E. cbn. by destruct (dispatchDone s).
  - apply (balanced_scanner s); [done..|]. intros h. unfold releasing. by rewrite E.
  - by apply handle_balanced.
  - apply (balanced_scanner s); [done..|]. intros h'. unfold releasing. by rewrite E.
  - apply (balanced_scanner s); [done|done|apply Complete_table|]. intros h'. unfold releasing. by rewrite E.
  - apply (balanced_scanner s); [done|done|apply Complete_table|]. intros h'. unfold releasing. by rewrite E.
  - destruct (Encode_same FromScanner r f s) as (Hw & _ & Hs & _ & Hr & _). unfold after_encoding.
    destruct (Encode FromScanner r f s) as [s' [e|]]; cbn in *; (apply (balanced_scanner s); [done|done|cbn; by rewrite Hr|]);
      intros h; unfold releasing; by rewrite E.
  - apply put_credit_spec in Hf as (H1 & H2 & H3 & H4 & H5). eapply (balanced_flow s _ h f); [done|done|done| |].
    + intros h' Hne. split; [done|]. unfold releasing. rewrite E. cbn. by destruct (Nat.eqb_spec h' h).
    + intros [? ? ? ? Hs]. unfold releasing in *. rewrite E in *. rewrite Nat.eqb_refl in *. constructor; unfold releasing; cbn [scanner set_scanner set_reg workers]; rewrite ?Nat.eqb_refl; lia.
  - intros h' g Hg. destruct (B h' g Hg) as [? ? ? Hge Hs]. constructor; try done. cbn [workers set_scanner]. enough (releasing h' s = 0) by (unfold releasing at 1; cbn; lia).
    unfold releasing in *. rewrite E in *. destruct (Nat.eqb_spec h' h) as [->|]; [|done].
    destruct Hn as [Hn|(f & Ef & Hn)]; [lia|]. cbn in Hg. rewrite Hg in Ef. injection Ef as <-. unfold put_credit in Hn.
    destruct (Z.ltb_spec (credits g) (window g)); [done|]. pose proof (taken_nonneg h (workers s)). lia.
  - apply (balanced_scanner s); [done..|]. intros h. unfold releasing. by rewrite E.
  - apply (balanced_scanner s); [done..|]. intros h. unfold releasing. by rewrite E.
  - by eapply (balanced_worker s _ i Idle).
  - by eapply (balanced_worker s _ i Idle).
  - unfold begin_request. destruct (request_done h s); [|destruct (is_stream (reg s) h)]; by eapply (balanced_worker s _ i (Received h)).
  - destruct (Encode_same (FromWorker h) r f s) as (Hw & _ & Hs & _ & Hr & _).
    eapply (balanced_worker s _ i (Running h) (Finishing h)); try done; cbn; by rewrite ?Hw, ?Hr.
  - by eapply (balanced_worker s _ i (Producing h n)).
  - apply take_credit_spec in Hf as (H1 & H2 & H3 & H4 & H5). eapply (balanced_flow s _ h f); [done|done|done| |].
    + intros h' Hne. split; [|done]. cbn [workers set_worker set_reg]. rewrite (taken_insert h' i (Acquiring h n)) by done. cbn [taking]. destruct (Nat.eqb_spec h' h); [done|lia].
    + intros [? ? ? ? Hs]. constructor; try done; cbn [workers set_worker set_reg]; rewrite ?(taken_insert h i (Acquiring h n)) by done; cbn [taking];
        rewrite ?Nat.eqb_refl; try lia. change (releasing h (set_worker i (Acquired h n) (set_reg (set_flow h f' (reg s)) s))) with (releasing h s). lia.
  - by eapply (balanced_worker s _ i (Acquiring h n)).
  - pose proof (an_workers s A i _ h Ew eq_refl) as (_ & _ & _ & Hs). unfold sent_of in Hs. rewrite Ef in Hs.
    eapply (balanced_flow s _ h f); [done|done|done| |].
    + intros h' Hne. split; [|done]. cbn [workers set_worker set_reg]. rewrite (taken_insert h' i (Acquired h n)) by done. cbn [taking]. destruct (Nat.eqb_spec h' h); [done|lia].
    + intros [? ? ? ? Hs']. unfold note_sent. destruct (Z.ltb_spec (sent f) n); [|lia].
      constructor; try done; cbn [workers set_worker set_reg window credits sent acked]; rewrite ?(taken_insert h i (Acquired h n)) by done; cbn [taking];
        rewrite ?Nat.eqb_refl; try lia. change (releasing h (set_worker i (Emitting h n) (set_reg (set_flow h ?g (reg s)) s))) with (releasing h s). lia.
  - destruct (Encode_same (FromWorker h) (frame (id_of h (reg s)) n k pr r None) f s) as (Hw & _ & Hs & _ & Hr & _). fold x in Hw, Hs, Hr.
    eapply (balanced_worker s _ i (Emitting h n)); [done|done|cbn; by rewrite Hw|unfold x; by destruct (Encode _ _ _ _).2|cbn; by rewrite Hr|done].
  - by eapply (balanced_worker s _ i (Producing h n)).
  - destruct (Encode_same (FromWorker h) (frame (id_of h (reg s)) n streamCompleteKind None None e) f s) as (Hw & _ & Hs & _ & Hr & _).
    eapply (balanced_worker s _ i (Completing h n)); [done|done|cbn; by rewrite Hw|done|cbn; by rewrite Hr|done].
  - by eapply (balanced_worker s _ i (Producing h n)).
  - eapply (balanced_worker s _ i (Finishing h)); try done. apply Complete_table.
Qed.
(** ** Who is registered *)

Definition live (h : nat) (s : server) : Prop :=
  selecting s = Some h \/ h ∈ jobs s \/ exists i w, workers s !! i = Some w /\ held w = Some h.
Definition late (s : server) : Prop := match scanner s with Draining _ | Served _ => True | _ => False end.
(** A request with an id is active while it is anywhere, and past
    [CancelStreams] the active streams are cancelled. *)
Record registered (s : server) : Prop := {
  rg_live : forall h, live h s -> (h < length (table (reg s)))%nat;
  rg_active : forall h, live h s -> id_of h (reg s) <> "" -> active (reg s) !! id_of h (reg s) = Some h;
  rg_late : late s -> forall h id, active (reg s) !! id = Some h -> is_stream (reg s) h = true -> h ∈ cancelled (reg s)
}.

Lemma registered_moves s s' : registered s -> keeps (reg s) (reg s') -> active (reg s') = active (reg s) ->
  (length (table (reg s)) <= length (table (reg s')))%nat -> (forall h, live h s' -> live h s) ->
  (late s' -> forall h id, active (reg s) !! id = Some h -> is_stream (reg s') h = true -> h ∈ cancelled (reg s')) -> registered s'.
Proof.
  intros R K Ea Et Hl Hc. constructor.
  - intros h H. apply Hl, (rg_live s R) in H. lia.
  - intros h H. apply Hl in H. rewrite Ea, (proj2 (K h (rg_live s R h H))). by apply (rg_active s R).
  - rewrite Ea. exact Hc.
Qed.
Lemma live_worker s s' i w w' : workers s !! i = Some w -> workers s' = <[i := w']> (workers s) -> (held w' = held w \/ held w' = None) ->
  jobs s' = jobs s -> selecting s' = selecting s -> forall h, live h s' -> live h s.
Proof.
  intros Hw Ew Hh Ej Es h [H|[H|(j & x & H & Hx)]]; [left; by rewrite <- Es|right; left; by rewrite <- Ej|].
  right. right. rewrite Ew in H. apply list_lookup_insert_Some in H as [(<- & <- & _)|[_ H]]; [|by exists j, x].
  exists i, w. split; [done|]. destruct Hh; congruence.
Qed.
Lemma registered_worker s s' i w w' : registered s -> workers s !! i = Some w -> workers s' = <[i := w']> (workers s) ->
  (held w' = held w \/ held w' = None) -> jobs s' = jobs s -> scanner s' = scanner s -> keeps (reg s) (reg s') ->
  active (reg s') = active (reg s) -> cancelled (reg s') = cancelled (reg s) -> length (table (reg s')) = length (table (reg s)) ->
  (forall h, is_stream (reg s') h = is_stream (reg s) h) -> registered s'.
Proof.
  intros R Hw Ew Hh Ej Es K Ea Ec Et Hst. apply (registered_moves s); [done|done|done|lia| |].
  - eapply live_worker; eauto. unfold selecting. by rewrite Es.
  - unfold late. rewrite Es, Ec. intros Hl h id H1 H2. rewrite Hst in H2. by eapply (rg_late s R).
Qed.
Lemma Complete_active h r id h' : active (Complete h r) !! id = Some h' -> active r !! id = Some h'.
Proof.
  unfold Complete. destruct (table r !! h) as [q|]; [|done]. cbn. destruct (String.eqb _ _); [done|].
  destruct (active r !! ID (Request_ q)); [|done]. destruct (Nat.eqb _ _); [|done]. by intros [_ ?]%lookup_delete_Some.
Qed.
Lemma Complete_other h r id h' : h' <> h -> active r !! id = Some h' -> active (Complete h r) !! id = Some h'.
Proof.
  intros Hne Ha. unfold Complete. destruct (table r !! h) as [q|]; [|done]. cbn. destruct (String.eqb _ _); [done|].
  destruct (active r !! ID (Request_ q)) as [h0|] eqn:E; [|done]. destruct (Nat.eqb_spec h h0) as [<-|]; [|done].
  rewrite lookup_delete_ne; [done|]. intros <-. congruence.
Qed.
Lemma Complete_cancelled h h' r : h' ∈ cancelled r -> h' ∈ cancelled (Complete h r).
Proof. unfold Complete. destruct (table r !! h); [|done]. cbn. set_solver. Qed.
Lemma is_stream_table r r' h : table r' = table r -> is_stream r' h = is_stream r h.
Proof. intros E. unfold is_stream. by rewrite (flow_of_table r r'). Qed.
(** A request is completed: it must be nowhere afterwards. *)
Lemma registered_complete s s' h : registered s -> reg s' = Complete h (reg s) -> (forall h', live h' s' -> live h' s /\ h' <> h) ->
  (late s' -> late s) -> registered s'.
Proof.
  intros R Er Hl Hd. assert (table (reg s') = table (reg s)) as Et by (rewrite Er; apply Complete_table).
  assert (keeps (reg s) (reg s')) as K by by apply keeps_same. constructor.
  - intros h' [H _]%Hl. rewrite Et. by apply (rg_live s R).
  - intros h' [H Hne]%Hl. rewrite (proj2 (K h' (rg_live s R h' H))). intros Hid. rewrite Er. apply Complete_other; [done|]. by apply (rg_active s R).
  - intros Hlate h' id Ha Hs. rewrite Er in Ha. apply Complete_active in Ha. rewrite (is_stream_table _ _ _ Et) in Hs. rewrite Er.
    apply Complete_cancelled. by eapply (rg_late s R); [apply Hd| |].
Qed.
Lemma CancelStreams_cancelled r id h : active r !! id = Some h -> is_stream r h = true -> h ∈ cancelled (CancelStreams r).
Proof.
  intros Ha Hs. cbn. apply elem_of_union_l, elem_of_list_to_set, list_elem_of_In, List.filter_In. split; [|done].
  apply list_elem_of_In, list_elem_of_fmap. exists (id, h). split; [done|]. by apply elem_of_map_to_list.
Qed.
Lemma handle_registered s l : places s -> registered s -> scanner s = Handling l -> registered (handle l s).
Proof.
  intros P R E.
  assert (forall x r, active r = active (reg s) -> keeps (reg s) r -> (length (table (reg s)) <= length (table r))%nat ->
    match x with Selecting _ | Draining _ | Served _ => False | _ => True end -> registered (set_scanner x (set_reg r s))) as Hq.
  { intros x r Ea K Et Hx. apply (registered_moves s); [done..| |].
    - intros h [H|H]; [|by right]. unfold selecting in H. cbn in H. by destruct x.
    - unfold late. cbn. by destruct x. }
  pose proof (handle_keeps l s) as K.
  destruct l as [|request sequence]; cbn [handle] in *; [by apply (Hq _ (reg s))|].
  destruct (String.eqb _ _); [apply Hq; [by unfold Cancel; destruct (addressed _ _ _) as [[]|]|done|by rewrite Cancel_table|done]|].
  destruct (String.eqb _ _).
  - unfold Acknowledge in *. destruct sequence as [n|]; [|by apply (Hq _ (reg s))]. destruct (addressed _ _ _) as [[h [q [f|]]]|]; try (by apply (Hq _ (reg s))).
    destruct (note_acked n f) as [f' k]. apply Hq; [done|done|by rewrite set_flow_length|done].
  - unfold Register in *. set (h0 := length (table (reg s))) in *.
    assert (forall r, table r = table (reg s) ++ [new_request request] -> keeps (reg s) r ->
      (forall id h, active (reg s) !! id = Some h -> active r !! id = Some h) -> (ID request <> "" -> active r !! ID request = Some h0) ->
      registered (set_scanner (Selecting h0) (set_reg r s))) as Hnew.
    { intros r Et K' Hold Hown. assert (id_of h0 r = ID request) as Ei by (unfold id_of; by rewrite Et, lookup_app_r, Nat.sub_diag by lia).
      assert (forall h, live h (set_scanner (Selecting h0) (set_reg r s)) -> h = h0 \/ live h s) as Hl.
      { intros h [[= <-]|H]; [by left|right; by right]. }
      constructor; cbn.
      - intros h [->|H]%Hl; rewrite Et, length_app; cbn; [lia|]. apply (rg_live s R) in H. lia.
      - intros h [->|H]%Hl; [by rewrite Ei|]. rewrite (proj2 (K' h (rg_live s R h H))). intros Hid. apply Hold. by apply (rg_active s R).
      - done. }
    destruct (String.eqb_spec (ID request) "") as [Eid|Eid]; [by apply Hnew|].
    destruct (active (reg s) !! ID request) eqn:Ea; [by apply (Hq _ (reg s))|].
    apply Hnew; [done|done| |]; cbn; [|intros _; by apply lookup_insert_eq]. intros id h H. rewrite lookup_insert_ne; [done|]. congruence.
Qed.

(** A step of the scanner after which it holds no request. *)
Lemma registered_scanner s s' : registered s -> table (reg s') = table (reg s) -> active (reg s') = active (reg s) ->
  cancelled (reg s') = cancelled (reg s) -> workers s' = workers s -> jobs s' = jobs s -> selecting s' = None -> (late s' -> late s) -> registered s'.
Proof.
  intros R Et Ea Ec Ew Ej Es Hl. apply (registered_moves s); [done|by apply keeps_same|done|by rewrite Et| |].
  - intros h [H|[H|(i & w & H & Hh)]]; [congruence|right; left; by rewrite <- Ej|]. right. right. exists i, w. by rewrite <- Ew.
  - intros Hlate h id H1 H2. rewrite Ec. rewrite (is_stream_table _ _ _ Et) in H2. by eapply (rg_late s R); [apply Hl| |].
Qed.
Lemma registered_flow s s' h f f' : registered s -> flow_of h (reg s) = Some f -> reg s' = set_flow h f' (reg s) ->
  (forall h', live h' s' -> live h' s) -> (late s' -> late s) -> registered s'.
Proof.
  intros R Ef Er Hl Hd. assert (keeps (reg s) (reg s')) as K by (rewrite Er; by eapply keeps_flow).
  apply (registered_moves s); [done|done|by rewrite Er|by rewrite Er, set_flow_length|done|].
  intros Hlate h' id Ha Hs. assert (h' < length (table (reg s)))%nat as Hlt.
  { unfold is_stream, flow_of in Hs. destruct (table (reg s') !! h') eqn:E; [|done]. apply lookup_lt_Some in E. by rewrite Er, set_flow_length in E. }
  rewrite (proj1 (K h' Hlt)) in Hs. rewrite Er. by eapply (rg_late s R); [apply Hd| |].
Qed.
Lemma registered_encode s i w w' from r f : registered s -> workers s !! i = Some w -> (held w' = held w \/ held w' = None) ->
  registered (set_worker i w' (Encode from r f s).1).
Proof.
  intros R Ew Hh. destruct (Encode_same from r f s) as (Hw & Hj & Hs & _ & Hr & _).
  eapply (registered_worker s _ i w w'); [done|done|cbn; by rewrite Hw|done|done|done|apply keeps_same|..]; cbn; try (by rewrite Hr).
Qed.

Lemma step_registered s s' : places s -> registered s -> step s s' -> registered s'.
Proof.
  intros P R St. pose proof (step_keeps s s' St) as K.
  assert (forall i w h, workers s !! i = Some w -> held w = Some h -> forall j x, j <> i -> workers s !! j = Some x -> held x <> Some h) as Hone.
  { intros i w h Hi Hh j x Hne Hj Hx. apply Hne. by eapply (pl_workers s P). }
  destruct St as [s|s l E|s e E|s l E|s h E _|s h E _|s h E _ _|s r f E|s h n f f' E Hn Ef Hf|s h n E Hn|s e E|s e E _|s i h q Ew Ej
    |s i e Ew Ej E|s i h Ew|s i h r f Ew Hid|s i h n Ew _|s i h n f f' Ew Ef Hf|s i h n Ew _|s i h n f Ew Ef|s i h n k pr r f Ew _ x|s i h n Ew _|s i h n e f Ew|s i h n Ew _|s i h Ew].
  - by destruct R.
  - apply (registered_scanner s); try done; unfold selecting, late; cbn; by destruct (dispatchDone s).
  - by apply (registered_scanner s).
  - by apply handle_registered.
  - apply (registered_moves s); [done|done|done|done| |by unfold late].
    intros h' [H|[[H| ->%list_elem_of_singleton]%elem_of_app|H]]; [done|right; by left|left; unfold selecting; by rewrite E|right; by right].
  - eapply (registered_complete s _ h); [done|done| |done].
    destruct (pl_selecting s P h ltac:(unfold selecting; by rewrite E)) as [Hna _].
    intros h' [H|[H|(i & w & H & Hh)]]; [done| |]; (split; [right|intros ->; apply Hna]); [by left|by apply (pl_jobs s P)|right; by exists i, w|by eapply (pl_held s P)].
  - eapply (registered_complete s _ h); [done|done| |done].
    destruct (pl_selecting s P h ltac:(unfold selecting; by rewrite E)) as [Hna _].
    intros h' [H|[H|(i & w & H & Hh)]]; [done| |]; (split; [right|intros ->; apply Hna]); [by left|by apply (pl_jobs s P)|right; by exists i, w|by eapply (pl_held s P)].
  - destruct (Encode_same FromScanner r f s) as (Hw & Hj & Hs & _ & Hr & _). unfold after_encoding.
    destruct (Encode FromScanner r f s) as [s' [e|]]; cbn in *; (apply (registered_scanner s); cbn; rewrite ?Hr; done).
  - eapply (registered_flow s _ h f); [done|done|done| |done]. intros h' [H|H]; [done|by right].
  - by apply (registered_scanner s).
  - apply (registered_moves s); [done|done|done|done| |].
    + intros h' [H|H]; [done|by right].
    + intros _ h id Ha Hs. by apply (CancelStreams_cancelled _ id).
  - apply (registered_scanner s); try done. intros _. unfold late. by rewrite E.
  - apply (registered_moves s); [done|done|done|done| |apply (rg_late s R)].
    intros h' [H|[H|(j & w & H & Hh)]]; [by left|right; left; rewrite Ej; by right|].
    apply list_lookup_insert_Some in H as [(<- & <- & _)|[_ H]]; [|right; right; by exists j, w]. injection Hh as <-. right. left. rewrite Ej. by left.
  - eapply (registered_worker s _ i Idle Exited); try done. by left.
  - unfold begin_request. destruct (request_done h s); [|destruct (is_stream (reg s) h)]; (eapply (registered_worker s _ i (Received h)); try done; by left).
  - eapply registered_encode; [done|done|by left].
  - eapply (registered_worker s _ i (Producing h n)); try done; by left.
  - eapply (registered_flow s _ h f); [done|done|done| |done]. eapply (live_worker s _ i (Acquiring h n)); try done; by left.
  - eapply (registered_worker s _ i (Acquiring h n)); try done; by left.
  - eapply (registered_flow s _ h f); [done|done|done| |done]. eapply (live_worker s _ i (Acquired h n)); try done; by left.
  - eapply registered_encode; [done|done|]. left. by destruct x.2.
  - eapply (registered_worker s _ i (Producing h n)); try done; by left.
  - eapply registered_encode; [done|done|by left].
  - eapply (registered_worker s _ i (Producing h n)); try done; by left.
  - destruct (pl_held s P i _ h Ew eq_refl) as [Hnj _].
    eapply (registered_complete s _ h); [done|done| |done]. intros h' H. split.
    + refine (live_worker s _ i (Finishing h) Idle Ew _ _ _ _ h' H); [done|by right|done|done].
    + intros ->. destruct H as [H|[H|(j & w & H & Hh)]]; [|done|].
      * destruct (pl_selecting s P h H) as [Hna _]. apply Hna, (pl_held s P i _ h Ew eq_refl).
      * apply list_lookup_insert_Some in H as [(_ & <- & _)|[Hne H]]; [done|]. apply (Hone i _ h Ew eq_refl j w); [by apply not_eq_sym|done|done].
Qed.

(** ** Reachable servers *)

Record sound (concurrent : nat) (s : server) : Prop := {
  so_places : places s;
  so_answered : answered s;
  so_flows : flows_balanced s;
  so_registered : registered s;
  so_workers : length (workers s) = concurrent;
  so_served : forall r, scanner s = Served r -> Forall (fun w => w = Exited) (workers s)
}.
Lemma start_sound concurrent pending : sound concurrent (start concurrent pending).
Proof.
  assert (forall i w, workers (start (V:=V) concurrent pending) !! i = Some w -> w = Idle) as Hw by (intros i w; apply lookup_replicate_1).
  assert (forall i w h, workers (start (V:=V) concurrent pending) !! i = Some w -> held w <> Some h) as Hh by (by intros i w h ->%Hw).
  split; [| | | |apply length_replicate|done].
  - constructor; [intros; exfalso; by eapply Hh|intros; exfalso; by eapply Hh|split; [apply NoDup_nil_2|]|..|intros i Hi; by apply Hw in Hi]; cbn; intros; set_solver.
  - constructor; [intros; exfalso; by eapply Hh|done..|]. cbn. intros; set_solver.
  - done.
  - assert (forall h, ~ live h (start (V:=V) concurrent pending)) as Hl.
    { intros h [H|[H|(i & w & H & H')]]; [done|cbn in H; set_solver|by eapply Hh]. }
    constructor; [intros h H|intros h H|by intros []]; by destruct (Hl h).
Qed.
Lemma step_workers s s' : step s s' -> length (workers s') = length (workers s).
Proof.
  destruct 1; cbn; rewrite ?length_insert; try done.
  - destruct l as [|request sequence]; cbn [handle]; [done|]. destruct (String.eqb _ _); [done|].
    destruct (String.eqb _ _); [by destruct (Acknowledge _ _ _ _)|by destruct (Register _ _)].
  - unfold after_encoding. destruct (Encode_same FromScanner response fails s) as [Hw _]. destruct (Encode _ _ _ _) as [? []]; cbn in *; by rewrite Hw.
  - unfold begin_request. repeat case_match; cbn; by rewrite length_insert.
  - by destruct (Encode_same (FromWorker h) response fails s) as [-> _].
  - unfold x. by destruct (Encode_same (FromWorker h) (frame (id_of h (reg s)) n kind progress result None) fails s) as [-> _].
  - by destruct (Encode_same (FromWorker h) (frame (id_of h (reg s)) n streamCompleteKind None None err) fails s) as [-> _].
Qed.
Lemma step_served s s' : (forall r, scanner s = Served r -> Forall (fun w => w = Exited) (workers s)) -> step s s' ->
  forall r, scanner s' = Served r -> Forall (fun w => w = Exited) (workers s').
Proof.
  intros So St r E.
  assert (forall r i w, scanner s = Served r -> workers s !! i = Some w -> w = Exited) as Hall.
  { intros r' i w Hs Hi. by eapply (Forall_lookup_1 _ _ _ _ (So r' Hs)). }
  assert (forall h response fails, scanner (Encode (FromWorker h) response fails s).1 = scanner s) as He by (intros; apply Encode_same).
  destruct St; cbn in *; try congruence; try (by eapply So);
    try (match goal with H : workers s !! _ = Some _ |- _ => refine (match Hall r _ _ _ H with end) end; try (unfold x in E); rewrite ?He in E; first [done|unfold begin_request in E; by repeat case_match]).
  - by destruct (dispatchDone s).
  - destruct l as [|request sequence]; cbn [handle] in E; [done|]. destruct (String.eqb _ _); [done|].
    destruct (String.eqb _ _); [destruct (Acknowledge _ _ _ _) as [? [[]|]]|destruct (Register _ _) as [? []]]; done.
  - unfold after_encoding in E. by destruct (Encode _ _ _ _) as [? []].
Qed.
Lemma reachable_sound concurrent pending s : reachable concurrent pending s -> sound concurrent s.
Proof.
  unfold reachable. intros H. refine (rtc_ind_r (sound concurrent) _ (start_sound concurrent pending) _ s H).
  intros x y _ St [P A B R Hw Hs]. split.
  - by eapply step_places.
  - by eapply step_answered.
  - by eapply step_balanced.
  - by eapply step_registered.
  - by rewrite (step_workers x y).
  - by eapply step_served.
Qed.

(** What is known of a request depends on where it is; answers are at most one everywhere. *)
Lemma unary_answers concurrent s h : sound concurrent s -> h ∈ accepted s -> is_stream (reg s) h = false -> (length (answers h s) <= 1)%nat.
Proof.
  intros [P A _ _ _ _] Ha Hs.
  assert (resolved h s -> (length (answers h s) <= 1)%nat) as Hr by (intros [(response & -> & _)|[-> _]]; cbn; lia).
  destruct (decide (h ∈ jobs s)) as [Hj|Hj]; [by rewrite (proj1 (an_jobs s A h Hj)); cbn; lia|].
  destruct (decide (Exists (fun w => held w = Some h) (workers s))) as [(w & Hin & Hw)%Exists_exists|Hn].
  - apply list_elem_of_lookup in Hin as [i Hi]. pose proof (an_workers s A i w h Hi Hw) as L.
    destruct w; try done; cbn in Hw, L; injection Hw as ->; try (destruct L as [L1 L2]; congruence).
    + rewrite (proj1 L). cbn. lia.
    + rewrite (proj2 L). cbn. lia.
    + unfold over in L. rewrite Hs in L. auto.
  - assert (over h s) as L.
    { apply (an_over s A h Ha Hj). intros i w Hi Hw. apply Hn, Exists_exists. exists w. split; [|done]. by eapply list_elem_of_lookup_2. }
    unfold over in L. rewrite Hs in L. auto.
Qed.
Lemma fresh_framed h s : fresh h s -> framed h s.
Proof. intros [Ha Hs]. exists 0, 0. unfold numbered. rewrite Ha. split; [done|lia]. Qed.
Lemma stream_numbered concurrent s h f : sound concurrent s -> flow_of h (reg s) = Some f -> framed h s.
Proof.
  intros [P A _ _ _ _] Ef. assert (is_stream (reg s) h = true) as Hs by (unfold is_stream; by rewrite Ef).
  assert (over h s -> framed h s) as Ho by (unfold over; by rewrite Hs).
  destruct (decide (h ∈ accepted s)) as [Ha|Ha]; [|by apply fresh_framed, (an_new s A)].
  destruct (decide (h ∈ jobs s)) as [Hj|Hj]; [by apply fresh_framed, (an_jobs s A)|].
  destruct (decide (Exists (fun w => held w = Some h) (workers s))) as [(w & Hin & Hw)%Exists_exists|Hn].
  - apply list_elem_of_lookup in Hin as [i Hi]. pose proof (an_workers s A i w h Hi Hw) as L.
    destruct w; try done; cbn in Hw, L; injection Hw as ->; auto; try (destruct L as [L1 L2]; eexists _, _; split; [exact L2|lia]).
    + by apply fresh_framed.
    + destruct L; congruence.
  - apply Ho, (an_over s A h Ha Hj). intros i w Hi Hw. apply Hn, Exists_exists. exists w. split; [|done]. by eapply list_elem_of_lookup_2.
Qed.
(** When [Serve] has returned, no request is anywhere. *)
Lemma served_over concurrent s r : sound concurrent s -> (0 < concurrent)%nat -> scanner s = Served r -> forall h, h ∈ accepted s -> over h s.
Proof.
  intros [P A _ _ Hw Hs] Hc E h Ha. specialize (Hs r E). rewrite Forall_lookup in Hs.
  assert (exists w, workers s !! 0%nat = Some w) as [w H0] by (apply lookup_lt_is_Some; lia).
  assert (jobs s = []) as Hj. { apply (pl_exited s P 0). rewrite H0. f_equal. by eapply Hs. }
  apply (an_over s A h Ha); [rewrite Hj; set_solver|]. intros i x Hi. by rewrite (Hs i x Hi).
Qed.
End Facts.

(** C29. However requests, acknowledgements, cancellations, workers and
    failures of the output interleave, a unary request that was queued is
    answered by its worker at most once; and when [Serve] returns it has been
    answered exactly once, under its own id, unless its context was already
    done when a worker took it or writing to the output failed. *)
Theorem queued_requests_are_answered_once {V : Type} concurrent pending (s : server V) h :
  (0 < concurrent)%nat -> reachable concurrent pending s -> h ∈ accepted s -> is_stream (reg s) h = false ->
  (length (answers h s) <= 1)%nat /\
  forall r, scanner s = Served r ->
    (exists response, answers h s = [(FromWorker h, response)] /\ Stream.response_ID response = id_of h (reg s)) \/
    (answers h s = [] /\ (h ∈ skipped s \/ encoderErr s <> None)).
Proof.
  intros Hc Hr Ha Hs. apply reachable_sound in Hr. split; [by eapply unary_answers|].
  intros r E. pose proof (served_over concurrent s r Hr Hc E h Ha) as L. unfold over in L. by rewrite Hs in L.
Qed.

(** C30. The frames a stream has written are numbered 1, 2, 3, … without gaps.
    The data frames sent are never more than the window (1 to 256) ahead of
    the acknowledged ones, and all frames, with the last that completes the
    stream and takes no credit, at most one more; no more are acknowledged than
    were sent, and an acknowledgement's credits all come back. *)
Theorem stream_frames_stay_within_window {V : Type} concurrent pending (s : server V) h f :
  reachable concurrent pending s -> flow_of h (reg s) = Some f ->
  1 <= window f <= maxStreamWindow /\ 0 <= acked f <= sent f /\ sent f <= acked f + window f /\
  credits f + taken h (workers s) + releasing h s + (sent f - acked f) = window f /\
  exists m, map (fun x => Stream.sequence_of x.2) (answers h s) = seqZ 1 m /\ m <= sent f + 1.
Proof.
  intros Hr Ef. apply reachable_sound in Hr. destruct (so_flows _ s Hr h f Ef) as [? ? ? ? Hs].
  pose proof (taken_nonneg h (workers s)). split; [done|]. split; [done|]. split; [lia|]. split; [done|].
  destruct (stream_numbered concurrent s h f Hr Ef) as (m & k & (_ & Hm & Hk) & Hle). exists m. split; [done|].
  unfold sent_of in Hk. rewrite Ef in Hk. lia.
Qed.

(** C31. After the input has ended, [Serve] does not get stuck: as long as
    every stream that was queued has an id, some worker or the server itself
    can always go on, whatever acknowledgements are missing. *)
Theorem draining_server_goes_on {V : Type} concurrent pending (s : server V) e :
  reachable concurrent pending s -> scanner s = Draining e ->
  (forall h, h ∈ accepted s -> is_stream (reg s) h = true -> id_of h (reg s) <> "") ->
  exists s', step s s' /\ (scanner s' <> scanner s \/ workers s' <> workers s).
Proof.
  intros Hr E Hid. apply reachable_sound in Hr. destruct Hr as [P A B R _ _].
  destruct (decide (Forall (fun w => w = Exited) (workers s))) as [Hall|Hex].
  { eexists. split; [by eapply Return|]. left. cbn. by rewrite E. }
  apply not_Forall_Exists in Hex; [|exact (fun w => _)].
  apply Exists_exists in Hex as (w & [i Hi]%list_elem_of_lookup & Hw).
  assert (i < length (workers s))%nat as Hlt by by eapply lookup_lt_Some.
  assert (forall w' (s' : server V), w' <> w -> workers s' = <[i := w']> (workers s) -> step s s' ->
    exists s', step s s' /\ (scanner s' <> scanner s \/ workers s' <> workers s)) as Hgo.
  { intros w' s' Hne Ew St. exists s'. split; [done|]. right. intros Ec. rewrite Ew in Ec.
    assert (Some w' = Some w) as [= ?] by (rewrite <- Hi, <- Ec; symmetry; by apply list_lookup_insert_eq). done. }
  pose proof (fun h H => an_workers s A i w h Hi H) as L.
  destruct w as [|h|h|h n|h n|h n|h n|h n|h|]; [| | | | | | | | |by destruct Hw].
  - destruct (jobs s) as [|h q] eqn:Ej; [by apply (Hgo Exited (set_worker i Exited s)); [| |eapply Exit]|by apply (Hgo (Received h) (set_worker i (Received h) (set_jobs q s))); [| |eapply Take]].
  - assert (exists w', w' <> Received h /\ workers (begin_request i h s) = <[i := w']> (workers s)) as (w' & Hne & Ew).
    { unfold begin_request. repeat case_match; (eexists; split; [|reflexivity]; done). }
    by apply (Hgo w' (begin_request i h s)); [| |apply Begin].
  - eapply (Hgo (Finishing h)); [done| |by apply (Reply s i h (Stream.MkResponse (id_of h (reg s)) None None None) None)].
    cbn. by destruct (Encode_same (FromWorker h) (Stream.MkResponse (id_of h (reg s)) None None None) None s) as [-> _].
  - destruct (request_done h s) eqn:Ed; [eapply (Hgo (Finishing h)); [done| |by eapply Interrupted]; done|].
    eapply (Hgo (Completing h (n + 1))); [done| |by eapply LastFrame]. done.
  - destruct (L h eq_refl) as [Hs _]. destruct (pl_held s P i _ h Hi eq_refl) as [_ Ha].
    assert (h ∈ cancelled (reg s)) as Hc.
    { eapply (rg_late s R); [unfold late; by rewrite E| |done]. apply (rg_active s R); [right; right; by exists i, (Acquiring h n)|by apply Hid]. }
    eapply (Hgo (Finishing h)); [done| |eapply AcquireFails; [done|]]; [done|]. unfold request_done. rewrite bool_decide_true by done. apply orb_true_r.
  - destruct (L h eq_refl) as [Hs _]. unfold is_stream in Hs. destruct (flow_of h (reg s)) as [f|] eqn:Ef; [|done].
    eapply (Hgo (Emitting h n)); [done| |by eapply NoteSent]. done.
  - pose (x := Encode (FromWorker h) (frame (id_of h (reg s)) n streamDataKind None None None) None s).
    apply (Hgo (match x.2 with None => Producing h n | Some _ => Finishing h end) (set_worker i (match x.2 with None => Producing h n | Some _ => Finishing h end) x.1));
      [by destruct x.2| |by apply (Frame s i h n streamDataKind None None None)].
    unfold x. cbn. by destruct (Encode_same (FromWorker h) (frame (V:=V) (id_of h (reg s)) n streamDataKind None None None) None s) as [-> _].
  - eapply (Hgo (Finishing h)); [done| |by apply (CompleteFrame s i h n None None)].
    cbn. by destruct (Encode_same (FromWorker h) (frame (V:=V) (id_of h (reg s)) n streamCompleteKind None None None) None s) as [-> _].
  - eapply (Hgo Idle); [done| |by apply Finish]. done.
Qed.

(** A stream without an id, whose one credit is used up, when the input ends. *)
Definition idless : Request := MkRequest "" "logs.follow" "" {["stream" := "1"; "stream_window" := "1"]}.
Definition blocked : server nat :=
  MkServer 64 (MkRegistry ∅ [MkServerRequest idless (Some (MkFlow 1 0 1 0))] ∅) [] (Draining None) [Acquiring 0 2] false None
    [(FromWorker 0, frame "" 1 streamDataKind None (Some 7%nat) None)] [0%nat] [].
Lemma blocked_reachable : reachable 1 64 blocked.
Proof.
  unfold reachable.
  eapply rtc_l; [apply (Scan _ (Message idless None)); reflexivity|]. eapply rtc_l; [eapply HandleLine; reflexivity|].
  eapply rtc_l; [eapply (Queue _ 0%nat); [reflexivity|cbn; lia]|]. eapply rtc_l; [eapply (Take _ 0 0); reflexivity|].
  eapply rtc_l; [eapply (Begin _ 0 0); reflexivity|]. eapply rtc_l; [eapply (Emit _ 0 0 0); reflexivity|].
  eapply rtc_l; [eapply (TakeCredit _ 0 0 1); reflexivity|]. eapply rtc_l; [eapply (NoteSent _ 0 0 1); reflexivity|].
  eapply rtc_l; [eapply (Frame _ 0 0 1 streamDataKind None (Some 7%nat) None); [reflexivity|done]|].
  eapply rtc_l; [eapply (Emit _ 0 0 1); reflexivity|]. eapply rtc_l; [eapply (ScanEnds _ None); reflexivity|].
  eapply rtc_l; [eapply Stop; reflexivity|]. apply rtc_refl.
Qed.
(** A stream without an id: it is in no map of the registry, and its context
    is cancelled by nobody while it is anywhere in the server. *)
Section Nameless.
Context {V : Type}.
#[local] Abbreviation server := (server V).
Record nameless (s : server) : Prop := Nameless {
  nl_active : forall id h, active (reg s) !! id = Some h -> id <> "" /\ (h < length (table (reg s)))%nat /\ id_of h (reg s) = id;
  nl_cancelled : forall h, h ∈ cancelled (reg s) -> (h < length (table (reg s)))%nat;
  nl_live : forall h, live h s -> id_of h (reg s) = "" -> h ∉ cancelled (reg s)
}.
Lemma nameless_moves (s s' : server) : nameless s -> registered s -> keeps (reg s) (reg s') -> (length (table (reg s)) <= length (table (reg s')))%nat ->
  (forall id h, active (reg s') !! id = Some h -> active (reg s) !! id = Some h) ->
  (forall h, h ∈ cancelled (reg s') -> h ∈ cancelled (reg s) \/ (exists id, active (reg s) !! id = Some h) \/ (h < length (table (reg s)))%nat /\ ~ live h s') ->
  (forall h, live h s' -> live h s) -> nameless s'.
Proof.
  intros [Na Nc Nl] R K Hlen Hact Hcan Hlive. constructor.
  - intros id h H. destruct (Na id h (Hact id h H)) as (Hid & Hh & E). split; [done|]. split; [lia|]. by rewrite (proj2 (K h Hh)).
  - intros h [H|[[id H]|[H _]]]%Hcan; [apply Nc in H; lia|apply Na in H as (_ & ? & _); lia|lia].
  - intros h H Hid Hin. pose proof (rg_live s R h (Hlive h H)) as Hh. rewrite (proj2 (K h Hh)) in Hid.
    apply Hcan in Hin as [Hin|[[id Hin]|[_ Hin]]]; [by apply (Nl h (Hlive h H))| |done]. apply Na in Hin as (? & _ & ?). congruence.
Qed.
Lemma nameless_same (s s' : server) : nameless s -> registered s -> keeps (reg s) (reg s') -> length (table (reg s')) = length (table (reg s)) ->
  active (reg s') = active (reg s) -> cancelled (reg s') = cancelled (reg s) -> (forall h, live h s' -> live h s) -> nameless s'.
Proof. intros N R K El Ea Ec Hl. apply (nameless_moves s); rewrite ?El, ?Ea, ?Ec; auto. Qed.
Lemma nameless_scanner (s s' : server) : nameless s -> registered s -> reg s' = reg s -> workers s' = workers s -> jobs s' = jobs s ->
  selecting s' = None \/ selecting s' = selecting s -> nameless s'.
Proof.
  intros N R Er Ew Ej Es. apply (nameless_same s); rewrite ?Er; try done. intros h [H|[H|H]]; [destruct Es; [congruence|left; congruence]|right; left; congruence|].
  right. right. by rewrite <- Ew.
Qed.
Lemma nameless_worker (s s' : server) i w w' : nameless s -> registered s -> workers s !! i = Some w -> workers s' = <[i := w']> (workers s) ->
  (held w' = held w \/ held w' = None) -> jobs s' = jobs s -> scanner s' = scanner s -> keeps (reg s) (reg s') ->
  active (reg s') = active (reg s) -> cancelled (reg s') = cancelled (reg s) -> length (table (reg s')) = length (table (reg s)) -> nameless s'.
Proof.
  intros N R Hw Ew Hh Ej Es K Ea Ec El. apply (nameless_same s); try done. eapply live_worker; try done. unfold selecting. by rewrite Es.
Qed.
Lemma Complete_cancelled_inv h r h' : h' ∈ cancelled (Complete h r) -> h' ∈ cancelled r \/ h' = h /\ (h < length (table r))%nat.
Proof.
  unfold Complete. destruct (table r !! h) as [q|] eqn:E; [|by left]. apply lookup_lt_Some in E. cbn. set_solver.
Qed.
Lemma nameless_complete (s s' : server) h : nameless s -> registered s -> reg s' = Complete h (reg s) -> (forall h', live h' s' -> live h' s /\ h' <> h) -> nameless s'.
Proof.
  intros N R Er Hl. assert (table (reg s') = table (reg s)) as Et by (rewrite Er; apply Complete_table).
  apply (nameless_moves s); [done|done|by apply keeps_same|by rewrite Et| | |by intros h' [? _]%Hl].
  - intros id h' H. rewrite Er in H. by apply Complete_active in H.
  - intros h' H. rewrite Er in H. apply Complete_cancelled_inv in H as [H|[-> H]]; [by left|]. right. right. split; [done|]. by intros [_ ?]%Hl.
Qed.
Lemma addressed_active id token r h q : addressed id token r = Some (h, q) -> active r !! id = Some h.
Proof.
  unfold addressed. destruct (_ || _); [done|]. destruct (active r !! id) as [h0|]; [|done]. destruct (table r !! h0); [|done].
  destruct (String.eqb _ _); [|done]. by intros [= -> _].
Qed.
Lemma handle_nameless (s : server) l : registered s -> nameless s -> scanner s = Handling l -> nameless (handle l s).
Proof.
  intros R N E.
  assert (forall h x r, live h (set_scanner x (set_reg r s)) -> match x with Selecting h' => h = h' | _ => False end \/ live h s) as Hlive.
  { intros h x r [H|H]; [|right; by right]. unfold selecting in H. cbn in H. destruct x; try done. injection H as ->. by left. }
  pose proof (handle_keeps l s) as K. destruct l as [|request sequence]; cbn [handle] in *.
  { apply (nameless_same s); try done. by intros h [[]|]%Hlive. }
  destruct (String.eqb _ _).
  { unfold Cancel in *. destruct (addressed _ _ _) as [[h q]|] eqn:Ea; [|apply (nameless_same s); try done; by intros h [[]|]%Hlive].
    apply addressed_active in Ea. apply (nameless_moves s); try done; [|by intros h' [[]|]%Hlive].
    intros h' [->%elem_of_singleton|H]%elem_of_union; [right; left; by eexists|by left]. }
  destruct (String.eqb _ _).
  { assert (forall x r, keeps (reg s) r -> length (table r) = length (table (reg s)) -> active r = active (reg s) -> cancelled r = cancelled (reg s) ->
      match x with Selecting _ => False | _ => True end -> nameless (set_scanner x (set_reg r s))) as Hq.
    { intros x r Kr El Ea Ec Hx. apply (nameless_same s); try done. intros h [H|]%Hlive; [by destruct x|done]. }
    unfold Acknowledge in *. destruct sequence as [n|]; [|by apply Hq]. destruct (addressed _ _ _) as [[h [q [f|]]]|]; [|by apply Hq..].
    destruct (note_acked n f) as [f' k]. apply Hq; [done|by rewrite set_flow_length|done..]. }
  unfold Register in *. set (h0 := length (table (reg s))) in *.
  assert (forall r, table r = table (reg s) ++ [new_request request] -> cancelled r = cancelled (reg s) -> keeps (reg s) r ->
    (forall id h, active r !! id = Some h -> active (reg s) !! id = Some h \/ id = ID request /\ id <> "" /\ h = h0) ->
    nameless (set_scanner (Selecting h0) (set_reg r s))) as Hnew.
  { intros r Et Ec K' Hact. assert (id_of h0 r = ID request) as Ei by (unfold id_of; by rewrite Et, lookup_app_r, Nat.sub_diag by lia).
    destruct N as [Na Nc Nl]. constructor; cbn; rewrite ?Ec.
    - intros id h [H|(-> & Hid & ->)]%Hact.
      + destruct (Na id h H) as (? & Hh & E1). split; [done|]. split; [rewrite Et, length_app; cbn; lia|]. by rewrite (proj2 (K' h Hh)).
      + split; [done|]. split; [|done]. rewrite Et, length_app. cbn. lia.
    - intros h H%Nc. rewrite Et, length_app. cbn. lia.
    - intros h [->|H]%Hlive Hid Hin; [apply Nc in Hin; lia|]. pose proof (rg_live s R h H) as Hh. rewrite (proj2 (K' h Hh)) in Hid. by apply (Nl h H). }
  destruct (String.eqb_spec (ID request) "") as [Eid|Eid]; [apply Hnew; try done; by left|].
  destruct (active (reg s) !! ID request) eqn:Ea; [apply (nameless_same s); try done; by intros h [[]|]%Hlive|].
  apply Hnew; try done. cbn. intros id h H. apply lookup_insert_Some in H as [[<- <-]|[_ H]]; [by right|by left].
Qed.
Lemma step_nameless (s s' : server) : places s -> registered s -> nameless s -> step s s' -> nameless s'.
Proof.
  intros P R N St. pose proof (step_keeps s s' St) as K.
  assert (forall h x r, live h (set_scanner x (set_reg r s)) -> match x with Selecting h' => h = h' | _ => False end \/ live h s) as Hlive.
  { intros h x r [H|H]; [|right; by right]. unfold selecting in H. cbn in H. destruct x; try done. injection H as ->. by left. }
  destruct St as [s|s l E|s e E|s l E|s h E _|s h E _|s h E _ _|s r f E|s h n f f' E Hn Ef Hf|s h n E Hn|s e E|s e E _|s i h q Ew Ej
    |s i e Ew Ej E|s i h Ew|s i h r f Ew Hid|s i h n Ew _|s i h n f f' Ew Ef Hf|s i h n Ew _|s i h n f Ew Ef|s i h n k pr r f Ew _ x|s i h n Ew _|s i h n e f Ew|s i h n Ew _|s i h Ew].
  - by destruct N.
  - apply (nameless_scanner s); try done. left. unfold selecting. cbn. by destruct (dispatchDone s).
  - apply (nameless_scanner s); try done. by left.
  - by apply handle_nameless.
  - apply (nameless_same s); try done.
    intros h' [H|[[H| ->%list_elem_of_singleton]%elem_of_app|H]]; [done|right; by left|left; unfold selecting; by rewrite E|right; by right].
  - eapply (nameless_complete s _ h); [done|done|done|]. destruct (pl_selecting s P h ltac:(unfold selecting; by rewrite E)) as [Hna _].
    intros h' [H|[H|(i & w & H & Hh)]]; [done| |]; (split; [right|intros ->; apply Hna]); [by left|by apply (pl_jobs s P)|right; by exists i, w|by eapply (pl_held s P)].
  - eapply (nameless_complete s _ h); [done|done|done|]. destruct (pl_selecting s P h ltac:(unfold selecting; by rewrite E)) as [Hna _].
    intros h' [H|[H|(i & w & H & Hh)]]; [done| |]; (split; [right|intros ->; apply Hna]); [by left|by apply (pl_jobs s P)|right; by exists i, w|by eapply (pl_held s P)].
  - destruct (Encode_same FromScanner r f s) as (Hw & Hj & Hs & _ & Hr & _). unfold after_encoding.
    destruct (Encode FromScanner r f s) as [s' [e|]]; cbn in *; (apply (nameless_scanner s); try done; by left).
  - apply (nameless_same s); [done|done|done|apply set_flow_length|done|done|]. by intros h' [[]|]%Hlive.
  - apply (nameless_scanner s); try done. by left.
  - apply (nameless_moves s); try done; [|by intros h' [[]|]%Hlive]. cbn. intros h' [H|H]%elem_of_union; [|by left]. right. left.
    apply elem_of_list_to_set, list_elem_of_In, List.filter_In in H as [H _]. apply list_elem_of_In, list_elem_of_fmap in H as ([id h2] & -> & H).
    exists id. by apply elem_of_map_to_list.
  - apply (nameless_scanner s); try done. by left.
  - apply (nameless_same s); try done. intros h' [H|[H|(j & w & H & Hh)]]; [by left|right; left; rewrite Ej; by right|].
    apply list_lookup_insert_Some in H as [(<- & <- & _)|[_ H]]; [|right; right; by exists j, w]. injection Hh as <-. right. left. rewrite Ej. by left.
  - eapply (nameless_worker s _ i Idle Exited); try done. by left.
  - unfold begin_request. destruct (request_done h s); [|destruct (is_stream (reg s) h)]; (eapply (nameless_worker s _ i (Received h)); try done; by left).
  - destruct (Encode_same (FromWorker h) r f s) as (Hw & Hj & Hs & _ & Hr & _).
    eapply (nameless_worker s _ i (Running h) (Finishing h)); cbn; rewrite ?Hw, ?Hr; try done; by left.
  - eapply (nameless_worker s _ i (Producing h n)); try done; by left.
  - eapply (nameless_worker s _ i (Acquiring h n)); try done; [by left|apply set_flow_length].
  - eapply (nameless_worker s _ i (Acquiring h n)); try done; by left.
  - eapply (nameless_worker s _ i (Acquired h n)); try done; [by left|apply set_flow_length].
  - unfold x in *. set (y := frame _ _ _ _ _ _) in *. destruct (Encode_same (FromWorker h) y f s) as (Hw & Hj & Hs & _ & Hr & _).
    eapply (nameless_worker s _ i (Emitting h n)); cbn; rewrite ?Hw, ?Hr; try done. left. by destruct (Encode (FromWorker h) y f s).2.
  - eapply (nameless_worker s _ i (Producing h n)); try done; by left.
  - set (y := frame _ _ _ _ _ _) in *. destruct (Encode_same (FromWorker h) y f s) as (Hw & Hj & Hs & _ & Hr & _).
    eapply (nameless_worker s _ i (Completing h n) (Finishing h)); cbn; rewrite ?Hw, ?Hr; try done; by left.
  - eapply (nameless_worker s _ i (Producing h n)); try done; by left.
  - destruct (pl_held s P i _ h Ew eq_refl) as [Hnj _]. eapply (nameless_complete s _ h); [done|done|done|]. intros h' H. split.
    + refine (live_worker s _ i (Finishing h) Idle Ew _ _ _ _ h' H); [done|by right|done|done].
    + intros ->. destruct H as [H|[H|(j & w & H & Hh)]]; [|done|].
      * destruct (pl_selecting s P h H) as [Hna _]. apply Hna, (pl_held s P i _ h Ew eq_refl).
      * apply list_lookup_insert_Some in H as [(_ & <- & _)|[Hne H]]; [done|]. apply Hne. by apply (pl_workers s P i j (Finishing h) w h).
Qed.
Lemma reachable_nameless concurrent pending (s : server) : reachable concurrent pending s -> nameless s.
Proof.
  unfold reachable. intros H. assert (sound concurrent s /\ nameless s) as [_ ?]; [|done]. revert s H. apply rtc_ind_r.
  - split; [apply start_sound|]. constructor; cbn; [done|set_solver|set_solver].
  - intros x y Hx St [S N]. split.
    + apply (reachable_sound concurrent pending). eapply rtc_r; [exact Hx|exact St].
    + eapply step_nameless; [apply S|apply S|done|done].
Qed.

(** What a worker waits for that waits for a credit which never comes. *)
Definition starved (i h : nat) (n : Z) (e : option goerror) (s : server) : Prop :=
  scanner s = Draining e /\ workers s !! i = Some (Acquiring h n) /\ id_of h (reg s) = "" /\
  exists f, flow_of h (reg s) = Some f /\ credits f = 0.
Lemma step_dispatchDone (s s' : server) : step s s' -> dispatchDone s = true -> dispatchDone s' = true.
Proof.
  assert (forall from r f (t : server), dispatchDone t = true -> dispatchDone (Encode from r f t).1 = true) as HE.
  { intros from r f t Ht. unfold Encode. destruct (encoderErr t); [done|]. by destruct f. }
  intros St Hd. destruct St; cbn; try done; try by apply HE.
  - destruct l as [|request sequence]; cbn [handle]; [done|]. destruct (String.eqb _ _); [done|]. destruct (String.eqb _ _).
    + by destruct (Acknowledge _ _ _ _).
    + by destruct (Register _ _).
  - pose proof (HE FromScanner response fails s Hd) as H1. unfold after_encoding. by destruct (Encode FromScanner response fails s) as [t [x|]].
  - unfold begin_request. by destruct (request_done h s).
Qed.
Lemma step_starved i h n e (s s' : server) : places s -> nameless s -> starved i h n e s -> step s s' -> dispatchDone s' = false -> starved i h n e s'.
Proof.
  intros P N (Es & Hi & Hid & f & Ef & Ec) St Hd.
  assert (dispatchDone s = false) as Hd0.
  { destruct (dispatchDone s) eqn:E0; [|done]. by rewrite (step_dispatchDone s s' St E0) in Hd. }
  assert (request_done h s = false) as Hnd.
  { unfold request_done. rewrite Hd0. apply bool_decide_eq_false_2. apply (nl_live s N); [|done]. right. right. by exists i, (Acquiring h n). }
  assert ((h < length (table (reg s)))%nat) as Hh.
  { unfold flow_of in Ef. destruct (table (reg s) !! h) eqn:Eq; [by apply lookup_lt_Some in Eq|done]. }
  pose proof (step_keeps s s' St h Hh) as [_ Kid].
  assert (forall j w h', workers s !! j = Some w -> held w = Some h' -> h' = h -> j = i) as Hone.
  { intros j w h' Hj Hw ->. by apply (pl_workers s P j i w (Acquiring h n) h). }
  assert (forall j w, j <> i -> scanner s' = scanner s -> workers s' = <[j := w]> (workers s) -> flow_of h (reg s') = Some f -> starved i h n e s') as Hgo.
  { intros j w Hne E1 E2 E3. split; [congruence|]. split; [by rewrite E2, list_lookup_insert_ne|]. split; [congruence|]. by exists f. }
  assert (forall j w, workers s !! j = Some w -> w <> Acquiring h n -> j <> i) as Hne by (intros j w Hj Hw ->; congruence).
  destruct St; try congruence; cbn in Hd; try congruence.
  - match goal with H : Forall _ _ |- _ => rewrite Forall_forall in H; pose proof (H _ (list_elem_of_lookup_2 _ _ _ Hi)) end. done.
  - by eapply Hgo; [by eapply Hne|..].
  - by eapply Hgo; [by eapply Hne|..].
  - assert (i0 <> i) as Hn by by eapply Hne. unfold begin_request in *. destruct (request_done h0 s); [by eapply Hgo|]. destruct (is_stream (reg s) h0); by eapply Hgo.
  - destruct (Encode_same (FromWorker h0) response fails s) as (Hw & Hj & Hs & _ & Hr & _).
    eapply Hgo; [by eapply Hne|cbn; by rewrite Hs|cbn; by rewrite Hw|cbn; by rewrite Hr].
  - by eapply Hgo; [by eapply Hne|..].
  - destruct (decide (h0 = h)) as [->|Hh0].
    + match goal with H : flow_of h _ = Some ?g, H' : take_credit ?g = _ |- _ => assert (g = f) as -> by congruence; apply take_credit_spec in H' end. lia.
    + eapply Hgo; [|done|done|cbn; rewrite flow_of_set; by rewrite decide_False]. intros ->. congruence.
  - eapply Hgo; [|done..]. intros ->. assert (h0 = h) as -> by congruence. congruence.
  - eapply Hgo; [by eapply Hne|done|done|]. cbn. rewrite flow_of_set. rewrite decide_False; [done|]. intros ->.
    match goal with H : workers s !! _ = Some (Acquired h ?n0) |- _ => pose proof (Hone _ _ h H eq_refl eq_refl) as ->; congruence end.
  - unfold x in *. set (y := frame _ _ _ _ _ _) in *. destruct (Encode_same (FromWorker h0) y fails s) as (Hw & Hj & Hs & _ & Hr & _).
    eapply Hgo; [by eapply Hne|cbn; by rewrite Hs|cbn; by rewrite Hw|cbn; by rewrite Hr].
  - by eapply Hgo; [by eapply Hne|..].
  - set (y := frame _ _ _ _ _ _) in *. destruct (Encode_same (FromWorker h0) y fails s) as (Hw & Hj & Hs & _ & Hr & _).
    eapply Hgo; [by eapply Hne|cbn; by rewrite Hs|cbn; by rewrite Hw|cbn; by rewrite Hr].
  - by eapply Hgo; [by eapply Hne|..].
  - eapply Hgo; [by eapply Hne|done|done|]. cbn. rewrite (flow_of_table (reg s)); [done|apply Complete_table].
Qed.
End Nameless.

(** C32. A stream whose request has an empty id is never registered: no
    acknowledgement or cancellation reaches it and [CancelStreams] passes it
    by.  So once the input has ended, a worker that waits for a credit of such
    a stream after its window was used up waits for ever, and [Serve] does not
    return: in whatever way the server goes on, as long as the context it was
    given is not cancelled and no answer fails to be written. *)
Theorem stream_without_id_blocks_shutdown {V : Type} concurrent pending (s : server V) e i h n f :
  reachable concurrent pending s -> scanner s = Draining e ->
  workers s !! i = Some (Acquiring h n) -> id_of h (reg s) = "" -> flow_of h (reg s) = Some f -> credits f = 0 ->
  forall s', rtc step s s' -> dispatchDone s' = false -> scanner s' = Draining e /\ workers s' !! i = Some (Acquiring h n).
Proof.
  intros Hr Es Hi Hid Ef Ec s' Hrun.
  assert (reachable concurrent pending s' /\ (dispatchDone s' = false -> starved i h n e s')) as [_ H]; [|intros Hd; by destruct (H Hd) as (? & ? & _)].
  revert s' Hrun. apply rtc_ind_r.
  - split; [done|]. intros _. split; [done|]. split; [done|]. split; [done|]. by exists f.
  - intros x y _ St [Hx IH]. split; [by eapply rtc_r|]. intros Hd.
    assert (dispatchDone x = false) as Hdx by (destruct (dispatchDone x) eqn:E0; [by rewrite (step_dispatchDone x y St E0) in Hd|done]).
    eapply step_starved; [|by eapply reachable_nameless|by apply IH|done|done]. by eapply so_places, reachable_sound.
Qed.
Lemma stream_without_id_blocks_shutdown_witness : reachable 1 64 blocked /\
  forall s', rtc step blocked s' -> dispatchDone s' = false -> scanner s' = Draining None /\ workers s' !! 0%nat = Some (Acquiring 0 2).
Proof.
  split; [exact blocked_reachable|].
  exact (stream_without_id_blocks_shutdown 1 64 blocked None 0 0 2 (MkFlow 1 0 1 0) blocked_reachable eq_refl eq_refl eq_refl eq_refl eq_refl).
Defined.

Lemma stream_frames_stay_within_window_witness :
  reachable 1 64 blocked /\ flow_of 0 (reg blocked) = Some (MkFlow 1 0 1 0) /\ (exists m, [1] = seqZ 1 m /\ m <= 1 + 1).
Proof.
  split; [exact blocked_reachable|]. split; [reflexivity|].
  destruct (stream_frames_stay_within_window 1 64 blocked 0 (MkFlow 1 0 1 0) blocked_reachable eq_refl) as (_ & _ & _ & _ & H). exact H.
Defined.

(** A unary request, answered, and the server that has returned. *)
Definition ping : Request := MkRequest "7" "app.ping" "" ∅.
Definition pong : Stream.Response nat := Stream.MkResponse "7" (Some 3%nat) None None.
Definition ponged (at_ : scanner_at) (w : worker_at) : server nat :=
  MkServer 64 (MkRegistry ∅ [MkServerRequest ping None] {[0%nat]}) [] at_ [w] false None [(FromWorker 0, pong)] [0%nat] [].
Lemma ponged_reachable : reachable 1 64 (ponged (Draining None) Idle) /\ reachable 1 64 (ponged (Served (errors_Join [None; None])) Exited).
Proof.
  assert (reachable 1 64 (ponged (Draining None) Idle)) as H.
  { unfold reachable.
    eapply rtc_l; [apply (Scan _ (Message ping None)); reflexivity|]. eapply rtc_l; [eapply HandleLine; reflexivity|].
    eapply rtc_l; [eapply (Queue _ 0%nat); [reflexivity|vm_compute; lia]|]. eapply rtc_l; [eapply (Take _ 0 0); reflexivity|].
    eapply rtc_l; [eapply (Begin _ 0 0); reflexivity|]. eapply rtc_l; [apply (Reply _ 0 0 pong None); reflexivity|].
    eapply rtc_l; [eapply (Finish _ 0 0); reflexivity|].
    eapply rtc_l; [eapply (ScanEnds _ None); reflexivity|]. eapply rtc_l; [eapply Stop; reflexivity|]. apply rtc_refl. }
  split; [exact H|]. eapply rtc_r; [eapply rtc_r; [exact H|]|].
  - by eapply (Exit _ 0).
  - eapply Return; [done|]. by repeat constructor.
Qed.
Lemma queued_requests_are_answered_once_witness :
  (exists response, answers 0 (ponged (Served (errors_Join [None; None])) Exited) = [(FromWorker 0, response)] /\ Stream.response_ID response = "7") \/
  (answers 0 (ponged (Served (errors_Join [None; None])) Exited) = [] /\ ((0%nat ∈ @nil nat) \/ @None goerror <> None)).
Proof.
  exact (proj2 (queued_requests_are_answered_once 1 64 (ponged (Served (errors_Join [None; None])) Exited) 0 (le_n 1) (proj2 ponged_reachable)
    (list_elem_of_here _ _) eq_refl) _ eq_refl).
Defined.
Lemma draining_server_goes_on_witness :
  exists s', step (ponged (Draining None) Idle) s' /\ (scanner s' <> Draining None \/ workers s' <> [Idle]).
Proof.
  refine (draining_server_goes_on 1 64 (ponged (Draining None) Idle) None (proj1 ponged_reachable) eq_refl _).
  intros h [->|H]%elem_of_cons; [discriminate|by apply not_elem_of_nil in H].
Defined.
