(* ===== verification/RateLimiter.v ===== *)
(** * The rate limiter in memory: [backend/framework/rate_limiter.go], [http_rate_limit.go]

    A bucket of tokens per key, refilled as time passes.  Tokens are [float64]:
    the operations are those of IEEE 754 binary64 as the Standard Library
    specifies them, each rounded on its own (Go may fuse a product and a sum on
    some machines). *)
From Stdlib Require Import SpecFloat.
From S2P Require Import Prelude GoStrings GoTime Router.
Open Scope Z_scope.
Open Scope go_scope.

(** ** [float64] *)

Definition float64 : Type := spec_float.
Definition of_int (n : Z) : float64 := binary_normalize 53 1024 n 0 false.
Definition f_add : float64 -> float64 -> float64 := SFadd 53 1024.
Definition f_sub : float64 -> float64 -> float64 := SFsub 53 1024.
Definition f_mul : float64 -> float64 -> float64 := SFmul 53 1024.
Definition f_div : float64 -> float64 -> float64 := SFdiv 53 1024.
(** [math.Min]. *)
Definition f_min (x y : float64) : float64 :=
  match x, y with
  | S754_infinity true, _ | _, S754_infinity true => S754_infinity true
  | S754_nan, _ | _, S754_nan => S754_nan
  | S754_zero s, S754_zero _ => if s then x else y
  | _, _ => if SFltb x y then x else y
  end.
(** [int64(math.Floor(x))] and [int64(math.Ceil(x))]; what Go leaves to the
    machine, out of range, is [wild]. *)
Definition in_range (wild : float64 -> Z) (x : float64) (n : Z) : Z := if (int64_min <=? n) && (n <=? int64_max) then n else wild x.
Definition f_floor (wild : float64 -> Z) (x : float64) : Z :=
  match x with
  | S754_zero _ => 0
  | S754_finite s m e => in_range wild x (Z.shiftl (cond_Zopp s (Zpos m)) e)
  | _ => wild x
  end.
Definition f_ceil (wild : float64 -> Z) (x : float64) : Z :=
  match x with
  | S754_zero _ => 0
  | S754_finite s m e => in_range wild x (- Z.shiftl (- cond_Zopp s (Zpos m)) e)
  | _ => wild x
  end.

(** ** The limiter *)

Definition defaultRateLimitRequests : Z := 600.
Definition defaultRateLimitWindow : Z := Minute.
Definition defaultRateLimitMaxKeys : Z := 10000.
Definition maxRateLimitKeyBytes : Z := 512.
Definition ErrInvalidRateLimiterOptions := ErrNew "framework: rate limiter options are invalid".
Definition ErrInvalidRateLimitKey := ErrNew "framework: rate limit key is invalid".
Definition ErrHTTPRateLimitKey := ErrNew "framework: HTTP rate limit key is unavailable".

Record RateLimitDecision := MkDecision {
  Allowed : bool;
  Limit : Z;
  Remaining : Z;
  RetryAfter : Z
}.
Definition no_decision := MkDecision false 0 0 0.
Record MemoryRateLimiterOptions := MkLimiterOptions { opt_Requests : Z; opt_Window : Z; opt_MaxKeys : Z }.
Definition DefaultMemoryRateLimiterOptions := MkLimiterOptions defaultRateLimitRequests defaultRateLimitWindow defaultRateLimitMaxKeys.

Record rateLimitBucket := MkBucket { tokens : float64; last : Z }.
Record MemoryRateLimiter := MkLimiter {
  requests : Z;
  window : Z;
  maxKeys : Z;
  buckets : gmap string rateLimitBucket
}.
Definition or_default (n d : Z) : Z := if n =? 0 then d else n.
Definition NewMemoryRateLimiter (o : MemoryRateLimiterOptions) : result MemoryRateLimiter :=
  if (opt_Requests o <? 0) || (opt_Window o <? 0) || (opt_MaxKeys o <? 0) then Err ErrInvalidRateLimiterOptions
  else
    let r := or_default (opt_Requests o) defaultRateLimitRequests in
    let w := or_default (opt_Window o) defaultRateLimitWindow in
    let k := or_default (opt_MaxKeys o) defaultRateLimitMaxKeys in
    if (r <? 1) || (w <=? 0) || (k <? 1) then Err ErrInvalidRateLimiterOptions
    else Ok (MkLimiter r w k ∅).

Definition with_buckets (l : MemoryRateLimiter) b := MkLimiter (requests l) (window l) (maxKeys l) b.
Definition pruneFullBuckets (now : Z) (l : MemoryRateLimiter) : MemoryRateLimiter :=
  with_buckets l (filter (fun kb => Sub now (last kb.2) < window l) (buckets l)).
(** The loop over the map looks for a minimum, so its order does not matter. *)
Definition sooner (now w : Z) (b : rateLimitBucket) (retryAfter : Z) : Z :=
  let candidate := Sub (last b + w) now in
  if (0 <? candidate) && (candidate <? retryAfter) then candidate else retryAfter.
Definition at_least_one (d : Z) : Z := if d <? 1 then 1 else d.
Definition capacityDecision (now : Z) (l : MemoryRateLimiter) : RateLimitDecision :=
  MkDecision false (requests l) 0 (at_least_one (map_fold (fun _ b acc => sooner now (window l) b acc) (window l) (buckets l))).

Section Allow.
Variable wild : float64 -> Z.

Definition refillPerNanosecond (l : MemoryRateLimiter) : float64 := f_div (of_int (requests l)) (of_int (window l)).
Definition refilled (now : Z) (l : MemoryRateLimiter) (b : rateLimitBucket) : float64 :=
  let elapsed := Sub now (last b) in
  let elapsed := if elapsed <? 0 then 0 else elapsed in
  f_min (of_int (requests l)) (f_add (tokens b) (f_mul (of_int elapsed) (refillPerNanosecond l))).
(** The rest of [Allow] for a key that has a bucket. *)
Definition take_token (now : Z) (l : MemoryRateLimiter) (key : string) (b : rateLimitBucket) : MemoryRateLimiter * RateLimitDecision :=
  let t := refilled now l b in
  if SFleb (of_int 1) t then
    let t := f_sub t (of_int 1) in
    (with_buckets l (<[key := MkBucket t now]> (buckets l)), MkDecision true (requests l) (f_floor wild t) 0)
  else
    (with_buckets l (<[key := MkBucket t now]> (buckets l)),
     MkDecision false (requests l) 0 (at_least_one (f_ceil wild (f_div (f_sub (of_int 1) t) (refillPerNanosecond l))))).
Definition Allow_locked (now : Z) (key : string) (l : MemoryRateLimiter) : MemoryRateLimiter * RateLimitDecision :=
  match buckets l !! key with
  | Some b => take_token now l key b
  | None =>
      let l := pruneFullBuckets now l in
      if maxKeys l <=? Z.of_nat (size (buckets l)) then (l, capacityDecision now l)
      else take_token now l key (MkBucket (of_int (requests l)) now)
  end.
Definition valid_key (key : string) : bool := negb (String.eqb key "") && (string_length key <=? maxRateLimitKeyBytes).
Definition Allow (ctx : context) (now : Z) (key : string) (l : MemoryRateLimiter) : MemoryRateLimiter * result RateLimitDecision :=
  match ctx with
  | NilContext => (l, Err ErrInvalidRateLimitKey)
  | Ctx (Some err) => (l, Err err)
  | Ctx None =>
      let key := TrimSpace key in
      if valid_key key then let '(l, d) := Allow_locked now key l in (l, Ok d) else (l, Err ErrInvalidRateLimitKey)
  end.
End Allow.

(** ** Keys of HTTP requests

    [SplitHostPort] and [ParseIP] are package net's, [sha256_hex] the hash. *)
Section Keys.
Variables (SplitHostPort : string -> option string) (ParseIP : string -> bool) (sha256_hex : string -> string).
Definition rateLimitIdentityKey (kind value : string) : string := kind +:+ ":" +:+ sha256_hex value.
Definition host_of (remoteAddress : string) : option string :=
  let remoteAddress := TrimSpace remoteAddress in
  match SplitHostPort remoteAddress with
  | Some host => Some (TrimSpace host)
  | None => if ParseIP remoteAddress then Some (TrimSpace remoteAddress) else None
  end.
(** [RemoteAddr] of the request, if there is one. *)
Definition DefaultHTTPRateLimitKey (RemoteAddr : option string) (p : Principal) : goerror + string :=
  if valid p then inr (rateLimitIdentityKey "principal" (subject p))
  else match RemoteAddr with
       | None => inl ErrHTTPRateLimitKey
       | Some address =>
           match host_of address with
           | None => inl ErrHTTPRateLimitKey
           | Some host => if String.eqb host "" then inl ErrHTTPRateLimitKey else inr (rateLimitIdentityKey "ip" host)
           end
       end.
End Keys.

(** ** Integers as floats *)

Definition digits (n : Z) : Z := Zdigits2 n.
Lemma digits2_bounds p : 2 ^ (Zpos (digits2_pos p) - 1) <= Zpos p < 2 ^ Zpos (digits2_pos p).
Proof.
  induction p as [p IH|p IH|]; cbn [digits2_pos]; [| |by cbn].
  all: rewrite Pos2Z.inj_succ; rewrite Z.pow_succ_r by lia; replace (Z.succ (Zpos (digits2_pos p)) - 1) with (Z.succ (Zpos (digits2_pos p) - 1)) by lia;
    rewrite Z.pow_succ_r by lia; lia.
Qed.
Lemma digits_unique p d : 2 ^ (d - 1) <= Zpos p < 2 ^ d -> 0 < d -> Zpos (digits2_pos p) = d.
Proof.
  intros H Hd. pose proof (digits2_bounds p) as H'.
  assert (d - 1 < Zpos (digits2_pos p)) by (apply (Z.pow_lt_mono_r_iff 2); lia).
  assert (Zpos (digits2_pos p) - 1 < d) by (apply (Z.pow_lt_mono_r_iff 2); lia). lia.
Qed.
Lemma digits2_mul p q k : Zpos q = Zpos p * 2 ^ k -> 0 <= k -> Zpos (digits2_pos q) = Zpos (digits2_pos p) + k.
Proof.
  intros E Hk. pose proof (digits2_bounds p). apply digits_unique; [|lia]. rewrite E.
  replace (Zpos (digits2_pos p) + k - 1) with (Zpos (digits2_pos p) - 1 + k) by lia. rewrite !Z.pow_add_r by lia. nia.
Qed.
Lemma iter_xO p k : Zpos (Pos.iter xO p k) = Zpos p * 2 ^ Zpos k.
Proof.
  induction k using Pos.peano_ind.
  - cbn. lia.
  - rewrite Pos.iter_succ. rewrite Pos2Z.inj_succ, Z.pow_succ_r by lia. change (Zpos (Pos.iter xO p k)~0) with (2 * Zpos (Pos.iter xO p k)). lia.
Qed.
Lemma iter_pos_iter {A} (f : A -> A) n x : SpecFloat.iter_pos f n x = @Nat.iter (Pos.to_nat n) A f x.
Proof.
  revert x. induction n as [n IH|n IH|]; intros x; cbn [SpecFloat.iter_pos].
  - rewrite !IH, Pos2Nat.inj_xI, Nat.iter_succ_r, <- Nat.iter_add. f_equal. lia.
  - rewrite !IH, <- Nat.iter_add. f_equal. lia.
  - done.
Qed.
Lemma shr_exact m k e : shr (Build_shr_record (Zpos m * 2 ^ Z.of_nat k) false false) e (Z.of_nat k) = (Build_shr_record (Zpos m) false false, e + Z.of_nat k).
Proof.
  destruct k as [|k]; [cbn [Z.of_nat shr]; by rewrite Z.add_0_r, Z.mul_1_r|].
  unfold shr. destruct (Z.of_nat (S k)) as [|p|p] eqn:Ez; try lia. rewrite iter_pos_iter. f_equal.
  replace (Pos.to_nat p) with (S k) by lia. rewrite <- Ez. clear Ez p. induction k as [|k IH].
  - cbn -[Z.mul Z.pow]. by rewrite Z.pow_1_r, Z.mul_comm.
  - rewrite Nat.iter_succ_r. rewrite <- IH. f_equal. replace (Z.of_nat (S (S k))) with (Z.succ (Z.of_nat (S k))) by lia.
    rewrite Z.pow_succ_r by lia. set (x := 2 ^ Z.of_nat (S k)). assert (0 < x) by (apply Z.pow_pos_nonneg; lia). destruct x as [|x|x]; try lia.
    by replace (Zpos m * (2 * Zpos x)) with (2 * (Zpos m * Zpos x)) by lia.
Qed.
Lemma fexp_53 x : -1000 <= x -> fexp 53 1024 x = x - 53.
Proof. unfold fexp, emin. lia. Qed.

(** The canonical float of [v * 2 ^ e]. *)
Definition canonical (m : positive) (e : Z) : Prop := Zpos (digits2_pos m) = 53 /\ -900 <= e <= 900.
Lemma round_aux_canonical m e k : canonical m (e + Z.of_nat k) -> -900 <= e ->
  binary_round_aux 53 1024 false (Zpos m * 2 ^ Z.of_nat k) e loc_Exact = S754_finite false m (e + Z.of_nat k).
Proof.
  intros [Hd He] He'. unfold binary_round_aux, shr_fexp, shr_record_of_loc.
  assert (Zdigits2 (Zpos m * 2 ^ Z.of_nat k) = 53 + Z.of_nat k) as Hdk.
  { assert (0 < Zpos m * 2 ^ Z.of_nat k) by (apply Z.mul_pos_pos; [lia|apply Z.pow_pos_nonneg; lia]).
    destruct (Zpos m * 2 ^ Z.of_nat k) as [|q|q] eqn:E; try lia. cbn [Zdigits2]. rewrite (digits2_mul m q (Z.of_nat k)); lia. }
  rewrite Hdk, fexp_53 by lia. replace (53 + Z.of_nat k + e - 53 - e) with (Z.of_nat k) by lia. rewrite shr_exact.
  cbn [shr_m loc_of_shr_record round_nearest_even Zdigits2]. rewrite Hd, fexp_53 by lia.
  replace (53 + (e + Z.of_nat k) - 53 - (e + Z.of_nat k)) with 0 by lia. cbn [shr shr_m]. 
  destruct (Z.leb_spec (e + Z.of_nat k) (1024 - 53)); [done|lia].
Qed.
(** The float of a positive integer below [2 ^ 53]. *)
Definition mantissa (k : positive) : positive := Z.to_pos (Zpos k * 2 ^ (53 - Zpos (digits2_pos k))).
Definition exponent (k : positive) : Z := Zpos (digits2_pos k) - 53.
Definition exact (k : positive) : float64 := S754_finite false (mantissa k) (exponent k).
Lemma digits_small k : Zpos k < 2 ^ 53 -> 1 <= Zpos (digits2_pos k) <= 53.
Proof.
  intros H. pose proof (digits2_bounds k). split; [lia|]. assert (Zpos (digits2_pos k) - 1 < 53) by (apply (Z.pow_lt_mono_r_iff 2); lia). lia.
Qed.
Lemma mantissa_spec k : Zpos k < 2 ^ 53 -> Zpos (mantissa k) = Zpos k * 2 ^ (53 - Zpos (digits2_pos k)).
Proof. intros H%digits_small. unfold mantissa. rewrite Z2Pos.id; [done|]. apply Z.mul_pos_pos; [lia|apply Z.pow_pos_nonneg; lia]. Qed.
Lemma exact_canonical k : Zpos k < 2 ^ 53 -> canonical (mantissa k) (exponent k).
Proof.
  intros H. pose proof (digits_small k H). split; [|unfold exponent; lia].
  rewrite (digits2_mul k (mantissa k) (53 - Zpos (digits2_pos k))); [lia|by apply mantissa_spec|lia].
Qed.
Lemma round_scaled k mx j : Zpos k < 2 ^ 53 -> 0 <= j <= 52 -> Zpos mx = Zpos k * 2 ^ j -> binary_round 53 1024 false mx (- j) = exact k.
Proof.
  intros H Hj E. pose proof (digits_small k H) as Hd. pose proof (exact_canonical k H) as Hc. pose proof (mantissa_spec k H) as Hm.
  unfold binary_round. rewrite (digits2_mul k mx j) by (done || lia). rewrite fexp_53 by lia.
  unfold shl_align. destruct (Z_lt_le_dec (Zpos (digits2_pos k) + j - 53) 0) as [Hlt|Hge].
  - destruct (Zpos (digits2_pos k) + j + - j - 53 - - j) as [|d|d] eqn:Ed; try lia.
    replace (Zpos (digits2_pos k) + j + - j - 53) with (exponent k + Z.of_nat 0) by (unfold exponent; lia).
    replace (Zpos (Pos.iter xO mx d)) with (Zpos (mantissa k) * 2 ^ Z.of_nat 0).
    + assert (exponent k + Z.of_nat 0 = exponent k) as E0 by lia. rewrite round_aux_canonical; rewrite ?E0; [done|done|]. unfold exponent. lia.
    + rewrite iter_xO, E, Hm, Z.mul_1_r, <- Z.mul_assoc, <- Z.pow_add_r by lia. f_equal. f_equal. lia.
  - replace (Z.sub (Zpos (digits2_pos k) + j + - j - 53) (- j)) with (Zpos (digits2_pos k) + j - 53) by lia.
    assert (exists n : nat, Z.of_nat n = Zpos (digits2_pos k) + j - 53) as [n Hn] by (exists (Z.to_nat (Zpos (digits2_pos k) + j - 53)); lia).
    assert (exponent k = - j + Z.of_nat n) as He by (unfold exponent; lia).
    rewrite <- Hn. assert (match Z.of_nat n with Zneg d => (Pos.iter xO mx d, Zpos (digits2_pos k) + j + - j - 53) | _ => (mx, - j) end = (mx, - j)) as ->.
    { destruct (Z.of_nat n) eqn:En; [done|done|lia]. }
    rewrite E. replace (Zpos k * 2 ^ j) with (Zpos (mantissa k) * 2 ^ Z.of_nat n).
    + rewrite round_aux_canonical; [by rewrite <- He|by rewrite <- He|lia].
    + rewrite Hm, <- Z.mul_assoc, <- Z.pow_add_r by lia. f_equal. f_equal. lia.
Qed.
Lemma of_int_exact k : Zpos k < 2 ^ 53 -> of_int (Zpos k) = exact k.
Proof. intros H. unfold of_int, binary_normalize. apply (round_scaled k k 0); lia. Qed.
Lemma of_int_zero : of_int 0 = S754_zero false.
Proof. done. Qed.
Lemma one_exact : of_int 1 = exact 1.
Proof. by apply of_int_exact. Qed.
Lemma exponent_range k : Zpos k < 2 ^ 53 -> -52 <= exponent k <= 0.
Proof. intros H%digits_small. unfold exponent. lia. Qed.
Lemma mantissa_value k : Zpos k < 2 ^ 53 -> Zpos (mantissa k) = Zpos k * 2 ^ (- exponent k).
Proof. intros H. rewrite mantissa_spec by done. f_equal. f_equal. unfold exponent. lia. Qed.
(** Aligned to the exponent of 1. *)
Lemma align_exact k : Zpos k < 2 ^ 53 -> Zpos (shl_align (mantissa k) (exponent k) (-52)).1 = Zpos k * 2 ^ 52.
Proof.
  intros H. pose proof (exponent_range k H). pose proof (mantissa_value k H) as Hm. unfold shl_align.
  destruct (-52 - exponent k) as [|d|d] eqn:Ed; try lia; cbn [fst].
  - rewrite Hm. f_equal. f_equal. lia.
  - rewrite iter_xO, Hm, <- Z.mul_assoc, <- Z.pow_add_r by lia. f_equal. f_equal. lia.
Qed.
Lemma sub_one k : Zpos k < 2 ^ 53 -> f_sub (exact k) (of_int 1) = of_int (Zpos k - 1).
Proof.
  intros H. pose proof (exponent_range k H). rewrite one_exact. unfold f_sub, SFsub, exact.
  replace (Z.min (exponent k) (exponent 1)) with (-52) by (change (exponent 1) with (-52); lia).
  cbn [cond_Zopp]. rewrite (align_exact k H), (align_exact 1) by lia. rewrite Z.mul_1_l.
  destruct (Zpos k - 1) as [|q|q] eqn:Eq; [|..]; [|replace (Zpos k * 2 ^ 52 - 2 ^ 52) with (Zpos q * 2 ^ 52) by lia|lia].
  - replace (Zpos k) with 1 by lia. done.
  - destruct (Zpos q * 2 ^ 52) as [|mx|mx] eqn:Em; try lia. unfold binary_normalize at 1.
    pose proof (round_scaled q mx 52 ltac:(lia) ltac:(lia) ltac:(lia)) as Hr. change (- (52)) with (-52) in Hr. rewrite Hr.
    rewrite of_int_exact; [done|lia].
Qed.
Lemma compare_exact k n : Zpos k < 2 ^ 53 -> Zpos n < 2 ^ 53 -> Zpos k <= Zpos n -> SFltb (exact n) (exact k) = false /\ SFleb (exact k) (exact n) = true.
Proof.
  intros Hk Hn Hkn. pose proof (digits2_bounds k). pose proof (digits2_bounds n). pose proof (mantissa_value k Hk) as Ek. pose proof (mantissa_value n Hn) as En.
  assert (exponent k <= exponent n).
  { unfold exponent. assert (Zpos (digits2_pos k) - 1 < Zpos (digits2_pos n)) by (apply (Z.pow_lt_mono_r_iff 2); lia). lia. }
  unfold SFltb, SFleb, SFcompare, exact. destruct (Z.eq_dec (exponent k) (exponent n)) as [Ee|Hne].
  - rewrite Ee, Z.compare_refl. change (Pos.compare_cont Eq) with Pos.compare. rewrite Ee in Ek.
    assert (Zpos (mantissa k) <= Zpos (mantissa n)) by (rewrite Ek, En; apply Z.mul_le_mono_nonneg_r; [apply Z.pow_nonneg; lia|done]).
    destruct (Pos.compare_spec (mantissa n) (mantissa k)), (Pos.compare_spec (mantissa k) (mantissa n)); lia || done.
  - destruct (Z.compare_spec (exponent n) (exponent k)), (Z.compare_spec (exponent k) (exponent n)); lia || done.
Qed.
Lemma min_exact k n : Zpos k < 2 ^ 53 -> Zpos n < 2 ^ 53 -> Zpos k <= Zpos n -> f_min (exact n) (exact k) = exact k.
Proof.
  intros Hk Hn Hkn. unfold f_min, exact at 1 2. fold (exact n). fold (exact k).
  by rewrite (proj1 (compare_exact k n Hk Hn Hkn)).
Qed.
Lemma floor_exact wild k : Zpos k < 2 ^ 53 -> f_floor wild (exact k) = Zpos k.
Proof.
  intros H. pose proof (exponent_range k H). pose proof (mantissa_value k H) as Hm. unfold f_floor, exact. cbn [cond_Zopp].
  rewrite <- (Z.opp_involutive (exponent k)), Z.shiftl_opp_r, Z.shiftr_div_pow2 by lia. rewrite Hm, Z.div_mul by (apply Z.pow_nonzero; lia).
  unfold in_range. change (2 ^ 53) with 9007199254740992 in H. unfold int64_min, int64_max.
  rewrite (proj2 (Z.leb_le _ _)) by lia. by rewrite (proj2 (Z.leb_le _ _)) by lia.
Qed.

(** A quotient of such integers is finite and not negative. *)
Definition plain (x : float64) : Prop := match x with S754_zero false | S754_finite false _ _ => True | _ => False end.
Lemma shr_m_nonneg n : forall r, 0 <= shr_m r -> 0 <= shr_m (Nat.iter n shr_1 r) <= shr_m r.
Proof.
  induction n as [|n IH]; intros r Hr; [cbn; lia|]. rewrite Nat.iter_succ_r.
  assert (0 <= shr_m (shr_1 r) <= shr_m r) as H by (destruct r as [[|[p|p|]|p] a b]; cbn in *; lia).
  specialize (IH (shr_1 r)). lia.
Qed.
Lemma digits_le m b : 0 <= m < 2 ^ b -> 0 <= b -> 0 <= Zdigits2 m <= b.
Proof.
  intros H Hb. destruct m as [|p|p]; cbn [Zdigits2]; [lia| |lia]. pose proof (digits2_bounds p).
  assert (Zpos (digits2_pos p) - 1 < b) by (apply (Z.pow_lt_mono_r_iff 2); lia). lia.
Qed.
Lemma shr_fexp_bounds m e l b : 0 <= m < 2 ^ b -> 0 <= b -> -900 <= e ->
  let x := shr_fexp 53 1024 m e l in 0 <= shr_m x.1 <= m /\ e <= x.2 <= Z.max e (b + e).
Proof.
  intros Hm Hb He. unfold shr_fexp. pose proof (digits_le m b Hm Hb) as Hd. rewrite fexp_53 by lia.
  assert (shr_m (shr_record_of_loc m l) = m) as E by (by destruct l as [|[]]).
  unfold shr. destruct (Zdigits2 m + e - 53 - e) as [|p|p] eqn:Ep; cbn [fst snd]; rewrite ?E; try lia.
  rewrite iter_pos_iter. pose proof (shr_m_nonneg (Pos.to_nat p) (shr_record_of_loc m l)) as H. rewrite E in H. lia.
Qed.
Lemma round_aux_plain m e l b : 0 <= m < 2 ^ b -> 0 <= b <= 200 -> -900 <= e <= 200 -> plain (binary_round_aux 53 1024 false m e l).
Proof.
  intros Hm Hb He. unfold binary_round_aux. pose proof (shr_fexp_bounds m e l b Hm ltac:(lia) ltac:(lia)) as H1. cbn zeta in H1.
  destruct (shr_fexp 53 1024 m e l) as [r1 e1]. cbn [fst snd] in H1.
  set (m2 := round_nearest_even _ _). assert (0 <= m2 <= shr_m r1 + 1) as H2.
  { unfold m2, round_nearest_even. destruct (loc_of_shr_record r1) as [|[]]; try lia. destruct (Z.even _); lia. }
  assert (0 <= m2 < 2 ^ (b + 1)) as H3.
  { rewrite Z.pow_add_r by lia. change (2 ^ 1) with 2. lia. }
  pose proof (shr_fexp_bounds m2 e1 loc_Exact (b + 1) H3 ltac:(lia) ltac:(lia)) as H4. cbn zeta in H4.
  destruct (shr_fexp 53 1024 m2 e1 loc_Exact) as [r2 e2]. cbn [fst snd] in H4.
  destruct (shr_m r2) as [|p|p]; [done| |lia]. destruct (Z.leb_spec e2 (1024 - 53)); [done|lia].
Qed.
Lemma div_plain a b : Zpos a < 2 ^ 53 -> Zpos b < 2 ^ 53 -> plain (f_div (exact a) (exact b)).
Proof.
  intros Ha Hb. destruct (exact_canonical a Ha) as [Da _], (exact_canonical b Hb) as [Db _].
  pose proof (exponent_range a Ha). pose proof (exponent_range b Hb).
  unfold f_div, SFdiv, exact, SFdiv_core_binary. cbn [Zdigits2]. rewrite Da, Db, fexp_53 by lia.
  replace (Z.min (53 + exponent a - (53 + exponent b) - 53) (exponent a - exponent b)) with (exponent a - exponent b - 53) by lia.
  replace (exponent a - exponent b - (exponent a - exponent b - 53)) with 53 by lia.
  pose proof (Z.div_eucl_eq (Z.shiftl (Zpos (mantissa a)) 53) (Zpos (mantissa b)) ltac:(lia)) as Hq.
  pose proof (Z.mod_pos_bound (Z.shiftl (Zpos (mantissa a)) 53) (Zpos (mantissa b)) ltac:(lia)) as Hr. unfold Z.modulo in Hr.
  destruct (Z.div_eucl (Z.shiftl (Zpos (mantissa a)) 53) (Zpos (mantissa b))) as [q r].
  rewrite Z.shiftl_mul_pow2 in Hq by lia. pose proof (digits2_bounds (mantissa a)) as Hma. rewrite Da in Hma.
  apply (round_aux_plain _ _ _ 106); [|lia|lia]. change (2 ^ 106) with (2 ^ 53 * 2 ^ 53). nia.
Qed.
Lemma zero_mul x : plain x -> f_mul (of_int 0) x = S754_zero false.
Proof. by destruct x as [[]|[]| |[]]. Qed.

(** ** Calls at one instant *)

Section Burst.
Variable wild : float64 -> Z.

Lemma Sub_same now : Sub now now = 0.
Proof. unfold Sub. rewrite Z.sub_diag. done. Qed.
Lemma refilled_same now l n w k : requests l = Zpos n -> window l = Zpos w -> Zpos n < 2 ^ 53 -> Zpos w < 2 ^ 53 -> 0 <= k <= Zpos n ->
  refilled now l (MkBucket (of_int k) now) = of_int k.
Proof.
  intros En Ew Hn Hw Hk. unfold refilled, refillPerNanosecond. cbn [tokens last]. rewrite Sub_same, En, Ew. cbn [Z.ltb Z.compare].
  rewrite (of_int_exact n Hn), (of_int_exact w Hw), zero_mul by by apply div_plain.
  destruct k as [|k|k]; [done| |lia]. rewrite (of_int_exact k) by lia. unfold f_add at 1. cbn [SFadd exact]. fold (exact k).
  apply min_exact; lia.
Qed.
(** The decision when [k] tokens are left. *)
Definition burst_decision (l : MemoryRateLimiter) (k : Z) : RateLimitDecision :=
  if 0 <? k then MkDecision true (requests l) (k - 1) 0
  else MkDecision false (requests l) 0 (at_least_one (f_ceil wild (f_div (of_int 1) (refillPerNanosecond l)))).
Lemma take_token_same now l key n w k : requests l = Zpos n -> window l = Zpos w -> Zpos n < 2 ^ 53 -> Zpos w < 2 ^ 53 -> 0 <= k <= Zpos n ->
  take_token wild now l key (MkBucket (of_int k) now) =
  (with_buckets l (<[key := MkBucket (of_int (Z.max 0 (k - 1))) now]> (buckets l)), burst_decision l k).
Proof.
  intros En Ew Hn Hw Hk. unfold take_token. rewrite (refilled_same now l n w k) by done. unfold burst_decision.
  destruct k as [|k|k]; [done| |lia]. rewrite (of_int_exact k) by lia. pose proof (compare_exact 1 k ltac:(lia) ltac:(lia) ltac:(lia)) as [_ Hle].
  rewrite one_exact, Hle, <- one_exact, sub_one by lia. cbn [Z.ltb Z.compare]. replace (Z.max 0 (Zpos k - 1)) with (Zpos k - 1) by lia.
  do 2 f_equal. destruct (Zpos k - 1) as [|q|q] eqn:Eq; [done| |lia]. rewrite of_int_exact by lia. apply floor_exact. lia.
Qed.

(** [k] calls of [Allow] for a key at one instant. *)
Fixpoint calls (now : Z) (key : string) (k : nat) (l : MemoryRateLimiter) : list (result RateLimitDecision) :=
  match k with
  | O => []
  | S k => let '(l, d) := Allow wild Background now key l in d :: calls now key k l
  end.
Lemma calls_from now key c : forall l n w k, requests l = Zpos n -> window l = Zpos w -> Zpos n < 2 ^ 53 -> Zpos w < 2 ^ 53 -> 0 <= k <= Zpos n ->
  valid_key (TrimSpace key) = true -> buckets l !! TrimSpace key = Some (MkBucket (of_int k) now) ->
  calls now key c l = (fun i => Ok (burst_decision l (Z.max 0 (k - Z.of_nat i)))) <$> seq 0 c.
Proof.
  induction c as [|c IH]; intros l n w k En Ew Hn Hw Hk Hv Hb; [done|].
  cbn [calls Allow Background]. rewrite Hv. unfold Allow_locked. rewrite Hb, (take_token_same now l _ n w k) by done.
  cbn [seq fmap list_fmap]. f_equal; [do 2 f_equal; lia|].
  rewrite (IH _ n w (Z.max 0 (k - 1))); [|done..|lia|done|cbn; by rewrite lookup_insert_eq].
  rewrite <- seq_shift, <- list_fmap_compose. apply list_fmap_ext. intros i x Hx. cbn. do 2 f_equal. lia.
Qed.
End Burst.


(** Waiting for the reported time is not always enough: with three
    requests an hour used up, the limiter asks for a delay of exactly twenty
    minutes, and refuses the call made after exactly that delay, because the
    refill is rounded down to less than one token. *)
Lemma retry_after_is_refused wild :
  calls wild 0 "api" 4 (MkLimiter 3 (60 * Minute) 10 ∅) !! 3%nat = Some (Ok (MkDecision false 3 0 (20 * Minute))) /\
  (let spent := foldl (fun l _ => (Allow wild Background 0 "api" l).1) (MkLimiter 3 (60 * Minute) 10 ∅) (seq 0 4) in
   (Allow wild Background (20 * Minute) "api" spent).2 = Ok (MkDecision false 3 0 1)).
Proof. split; vm_compute; reflexivity. Qed.

(** ** Keys and decisions in general *)

Record well_formed (l : MemoryRateLimiter) : Prop := {
  wf_window : 0 < window l;
  wf_size : Z.of_nat (size (buckets l)) <= maxKeys l;
  wf_keys : forall key, is_Some (buckets l !! key) -> valid_key key = true
}.
Lemma prune_well_formed now l : well_formed l -> well_formed (pruneFullBuckets now l).
Proof.
  intros [Hw Hs Hk]. constructor; cbn; [done| |].
  - assert (size (filter (fun kb : string * rateLimitBucket => (Sub now (last kb.2) < window l)%Z) (buckets l)) <= size (buckets l))%nat; [|lia].
    apply map_subseteq_size, map_filter_subseteq.
  - intros key [b Hb]. apply map_lookup_filter_Some in Hb as [Hb _]. apply Hk. by exists b.
Qed.
(** No sequence of calls makes the limiter keep more keys than it may, or a
    key that is empty or too long. *)
Lemma Allow_well_formed wild ctx now key l : well_formed l -> well_formed (Allow wild ctx now key l).1.
Proof.
  intros W. unfold Allow. destruct ctx as [|[err|]]; [done..|]. destruct (valid_key (TrimSpace key)) eqn:Hv; [|done].
  assert (forall l b, well_formed l -> Z.of_nat (size (delete (TrimSpace key) (buckets l))) < maxKeys l ->
    well_formed (take_token wild now l (TrimSpace key) b).1) as Htake.
  { intros l' b [Hw Hs Hk] Hroom. assert (forall x, well_formed (with_buckets l' (<[TrimSpace key := x]> (buckets l')))) as H.
    { intros x. constructor; cbn; [done| |].
      - rewrite <- insert_delete_eq, map_size_insert_None by (apply lookup_delete_eq). lia.
      - intros k Hk'. destruct (decide (TrimSpace key = k)) as [<-|Hne]; [done|]. rewrite lookup_insert_ne in Hk' by done. by apply Hk. }
    unfold take_token. cbn zeta. case_match; apply H. }
  unfold Allow_locked. destruct (buckets l !! TrimSpace key) as [b|] eqn:Hb.
  - destruct (take_token wild now l (TrimSpace key) b) as [l' d] eqn:E. cbn. change l' with (l', d).1. rewrite <- E. apply Htake; [done|].
    assert (size (buckets l) = S (size (delete (TrimSpace key) (buckets l)))) as Hsz.
    { rewrite <- (map_size_insert_None (TrimSpace key) b) by apply lookup_delete_eq.
      by rewrite insert_delete_id. }
    destruct W. lia.
  - pose proof (prune_well_formed now l W) as Wp. destruct (Z.leb_spec (maxKeys (pruneFullBuckets now l)) (Z.of_nat (size (buckets (pruneFullBuckets now l))))) as [|Hroom]; [done|].
    destruct (take_token _ _ _ _ _) as [l' d] eqn:E. cbn. change l' with (l', d).1. rewrite <- E. apply Htake; [done|].
    rewrite delete_id; [done|]. cbn. apply map_lookup_filter_None. by left.
Qed.
