(* ===== verification/StreamDispatch.v ===== *)
(** * Dispatching a stream: [Router.DispatchStream] of [backend/framework/router.go]
    and the writer of [stream.go] in the context of a handler

    The world of the handlers holds the stream's writer and the frames its
    transport took; [rest] is the world besides.  The transport, [emit], acts
    on the rest and may refuse a frame.  The theorem shows what a client sees
    of a stream. *)
From S2P Require Import Prelude GoStrings Exceptions Stream Router.
Open Scope Z_scope.
Open Scope go_scope.

Section Dispatch.
Context {V W : Type}.
(** Whether a result is the value [streamCompleted{}]; what the context of the
    request says in a state of the rest. *)
Variables (is_streamed : V -> bool) (streamCompleted : V) (ctx_err : W -> option goerror).
#[local] Abbreviation RPCError := (Exceptions.RPCError V).
#[local] Abbreviation exception := (Exceptions.exception V).

Record StreamResponse := MkStreamResponse {
  sr_ID : string;
  sr_Result : option V;
  sr_Error : option RPCError;
  sr_Pipeline : list string;
  sr_Stream : StreamFrame
}.
Record StreamWorld := MkStreamWorld {
  stream : option StreamWriter;
  frames : list StreamResponse;
  rest : W
}.
#[local] Abbreviation Context_ := (Router.Context_ StreamWorld).
Variable emit : StreamResponse -> W -> W * option goerror.

Definition emitFrame (kind : string) (value : option V) (progress : option Progress) (rpcError : option RPCError) (ctx : Context_)
    : Context_ * option goerror :=
  let s := world ctx in
  match stream s with
  | None => (ctx, Some (ErrNew "framework: stream writer is nil"))
  | Some w =>
      match w_err w with
      | Some err => (ctx, Some err)
      | None =>
          if w_completed w then (ctx, Some (NewError "stream_closed" "The stream is already complete."))
          else match ctx_err (rest s) with
          | Some err => (ctx, Some err)
          | None =>
              let sequence := wrap64 (w_sequence w + 1) in
              let response := MkStreamResponse (w_requestID w) value rpcError (Trace ctx) (MkStreamFrame sequence kind progress) in
              match emit response (rest s) with
              | (r, Some err) =>
                  (with_world ctx (MkStreamWorld (Some (MkStreamWriter (w_ctx w) (w_requestID w) sequence (w_completed w) (Some err))) (frames s) r), Some err)
              | (r, None) =>
                  (with_world ctx (MkStreamWorld (Some (MkStreamWriter (w_ctx w) (w_requestID w) sequence
                     (String.eqb kind streamCompleteKind || w_completed w) None)) (frames s ++ [response]) r), None)
              end
          end
      end
  end.
Definition Send (value : option V) (ctx : Context_) := emitFrame streamDataKind value None None ctx.
Definition Report (p : Progress) (ctx : Context_) : Context_ * option goerror :=
  if (progress_Completed p <? 0) || (progress_Total p <=? 0) || (progress_Total p <? progress_Completed p)
  then (ctx, Some (NewError "invalid_progress" "Progress requires 0 <= completed <= total and total > 0."))
  else emitFrame streamProgressKind None (Some p) None ctx.
Definition complete (rpcError : option RPCError) (ctx : Context_) := emitFrame streamCompleteKind None None rpcError ctx.

(** [ProduceStream] as a handler; the producer answers with an error, if any. *)
Definition ProduceStream (producer : option (Context_ -> Context_ * option exception)) : Handler V StreamWorld := fun ctx =>
  match stream (world ctx) with
  | None => (ctx, fails "streaming_required" "This method must be called through the streaming RPC API.")
  | Some _ =>
      match producer with
      | None => (ctx, fails "invalid_stream" "The stream producer is required.")
      | Some producer =>
          let '(ctx, err) := producer ctx in
          (ctx, match err with Some e => Returns None (Some e) | None => Returns (Some streamCompleted) None end)
      end
  end.

Definition writer_error (s : StreamWorld) : option goerror := match stream s with Some w => w_err w | None => None end.
Definition streamed (res : option V) : bool := match res with Some v => is_streamed v | None => false end.
Definition rendered (r : Router V StreamWorld) (e : exception) : RPCError := default (renderFrameworkException e) (exceptions r e).
(** What is left to do when the handler has returned. *)
Definition conclude (r : Router V StreamWorld) (res : option V) (err : option exception) (ctx : Context_) : Context_ * option goerror :=
  match writer_error (world ctx) with
  | Some e => (ctx, Some e)
  | None =>
      match err with
      | Some e => complete (Some (rendered r e)) ctx
      | None =>
          if streamed res then complete None ctx
          else match Send res ctx with
               | (ctx, Some e) => (ctx, Some e)
               | (ctx, None) => complete None ctx
               end
      end
  end.
(** The second value is an error, or a panic that goes on to the caller. *)
Definition DispatchStream (r : Router V StreamWorld) (par : context) (who : option Principal) (req : Request) (w : W)
    : StreamWorld * (option goerror + string) :=
  let '(ctx, handler) := resolve r par who req (MkStreamWorld (Some (MkStreamWriter par (ID req) 0 false None)) [] w) in
  let '(ctx, o) := handler ctx in
  match o with
  | Panics v => (world ctx, inr v)
  | Returns res err => let '(ctx, e) := conclude r res err ctx in (world ctx, inl e)
  end.
End Dispatch.
Arguments StreamResponse : clear implicits.
Arguments StreamWorld : clear implicits.

(** ** What a client sees of a stream *)

Lemma wrap64_succ z : wrap64 (wrap64 z + 1) = wrap64 (z + 1).
Proof.
  unfold wrap64. f_equal. replace ((z + 2 ^ 63) mod 2 ^ 64 - 2 ^ 63 + 1 + 2 ^ 63) with ((z + 2 ^ 63) mod 2 ^ 64 + 1) by lia.
  rewrite Z.add_mod_idemp_l by lia. f_equal. lia.
Qed.

Section Facts.
Context {V W : Type}.
Variables (is_streamed : V -> bool) (ctx_err : W -> option goerror) (emit : StreamResponse V -> W -> W * option goerror).
#[local] Abbreviation Context_ := (Router.Context_ (StreamWorld V W)).
Implicit Types ctx : Context_.

(** What code that only has the writer's methods can do to the stream. *)
Inductive writes : Context_ -> Context_ -> Prop :=
| Leaves ctx ctx' : stream (world ctx') = stream (world ctx) -> frames (world ctx') = frames (world ctx) -> writes ctx ctx'
| Sends ctx value : writes ctx (Send ctx_err emit value ctx).1
| Reports ctx p : writes ctx (Report ctx_err emit p ctx).1.
Definition fair (h : Handler V (StreamWorld V W)) : Prop := forall ctx, rtc writes ctx (h ctx).1.

Definition kind_of (f : StreamResponse V) : string := frame_Kind (sr_Stream f).
Definition number_of (f : StreamResponse V) : Z := frame_Sequence (sr_Stream f).
Definition numbered (fs : list (StreamResponse V)) : Prop := number_of <$> fs = (fun i => wrap64 (Z.of_nat i + 1)) <$> seq 0 (length fs).
(** A stream under way: its frames are numbered and none completes it. *)
Record under_way (id : string) (s : StreamWorld V W) (w : StreamWriter) : Prop := {
  uw_stream : stream s = Some w;
  uw_open : w_completed w = false;
  uw_id : w_requestID w = id;
  uw_numbered : numbered (frames s);
  uw_frames : Forall (fun f => sr_ID f = id /\ kind_of f <> streamCompleteKind) (frames s);
  uw_sequence : w_err w = None -> w_sequence w = wrap64 (Z.of_nat (length (frames s)))
}.

Lemma numbered_snoc fs f : numbered fs -> number_of f = wrap64 (Z.of_nat (length fs) + 1) -> numbered (fs ++ [f]).
Proof. intros H E. unfold numbered. rewrite fmap_app, H, length_app, seq_app, fmap_app. cbn. by rewrite E. Qed.

(** One frame: it is refused and everything stays open, or it is the next. *)
Lemma emitFrame_spec id kind value progress err ctx w :
  under_way id (world ctx) w ->
  let '(ctx', e) := emitFrame ctx_err emit kind value progress err ctx in
  match e with
  | Some _ => exists w', under_way id (world ctx') w' /\ frames (world ctx') = frames (world ctx)
  | None => exists f w', frames (world ctx') = frames (world ctx) ++ [f] /\ sr_ID f = id /\ kind_of f = kind /\ sr_Error f = err /\
      sr_Result f = value /\ numbered (frames (world ctx')) /\ stream (world ctx') = Some w' /\ w_err w' = None /\
      (kind <> streamCompleteKind -> under_way id (world ctx') w')
  end.
Proof.
  intros U. pose proof U as [Es Eo Ei En Ef Eq]. unfold emitFrame. rewrite Es. destruct (w_err w) as [e|] eqn:Ew; [by exists w|].
  rewrite Eo. destruct (ctx_err _) as [e|]; [by exists w|]. specialize (Eq eq_refl).
  assert (wrap64 (w_sequence w + 1) = wrap64 (Z.of_nat (length (frames (world ctx))) + 1)) as Enum by (rewrite Eq; apply wrap64_succ).
  destruct (emit _ _) as [r [e|]]; cbn.
  - eexists. split; [|done]. by constructor; cbn.
  - eexists _, _. split; [done|]. cbn. do 4 (split; [done|]).
    assert (numbered (frames (world ctx) ++ [MkStreamResponse (w_requestID w) value err (Trace ctx) (MkStreamFrame (wrap64 (w_sequence w + 1)) kind progress)]))
      as Hn by (apply numbered_snoc; [done|exact Enum]).
    split; [exact Hn|]. do 2 (split; [done|]). intros Hk. constructor; cbn; [done|by apply orb_false_intro; [apply String.eqb_neq|]|done|done| |].
    + apply Forall_app. split; [done|]. by constructor.
    + intros _. rewrite length_app. cbn. rewrite Enum. f_equal. lia.
Qed.
Lemma writes_under_way id ctx ctx' w : writes ctx ctx' -> under_way id (world ctx) w -> exists w', under_way id (world ctx') w'.
Proof.
  assert (forall kind value progress ctx, kind <> streamCompleteKind -> under_way id (world ctx) w ->
    exists w', under_way id (world (emitFrame ctx_err emit kind value progress None ctx).1) w') as He.
  { intros kind value progress c Hk U. pose proof (emitFrame_spec id kind value progress None c w U) as H.
    destruct (emitFrame _ _ _ _ _ _ _) as [c' [e|]]; [by destruct H as (w' & H & _); exists w'|].
    destruct H as (f & w' & _ & _ & _ & _ & _ & _ & _ & _ & H). exists w'. by apply H. }
  intros [c c' E1 E2|c value|c p] U.
  - exists w. destruct U as [H1 H2 H3 H4 H5 H6]. constructor; rewrite ?E1, ?E2; done.
  - by apply He.
  - unfold Report. destruct (_ || _); [by exists w|]. by apply He.
Qed.
Lemma fair_under_way id ctx ctx' w : rtc writes ctx ctx' -> under_way id (world ctx) w -> exists w', under_way id (world ctx') w'.
Proof. intros H. revert w. induction H as [|x y z Hxy _ IH]; intros w U; [by exists w|]. destruct (writes_under_way _ _ _ _ Hxy U) as [w' U']. by eapply IH. Qed.

(** The last frame, and the error that keeps it from being sent. *)
Lemma complete_spec id err ctx w : under_way id (world ctx) w ->
  let '(ctx', e) := complete ctx_err emit err ctx in
  numbered (frames (world ctx')) /\
  match e with
  | Some _ => Forall (fun f => sr_ID f = id /\ kind_of f <> streamCompleteKind) (frames (world ctx'))
  | None => exists front f, frames (world ctx') = front ++ [f] /\ sr_ID f = id /\ kind_of f = streamCompleteKind /\ sr_Error f = err /\
      Forall (fun f => sr_ID f = id /\ kind_of f <> streamCompleteKind) front
  end.
Proof.
  intros U. pose proof (emitFrame_spec id streamCompleteKind None None err ctx w U) as H. unfold complete.
  destruct (emitFrame _ _ _ _ _ _ _) as [c [e|]].
  - destruct H as (w' & U' & E). split; [apply U'|]. apply U'.
  - destruct H as (f & w' & E & Hid & Hk & He & _ & Hn & _). split; [done|]. exists (frames (world ctx)), f. repeat split; try done. apply U.
Qed.
End Facts.

(** C34. Whatever the handler does with the stream's writer, and whatever the
    transport refuses, the frames a client gets carry the request's id and the
    numbers 1, 2, 3, … in order (wrapping as an [int64]).  If [DispatchStream]
    reports no error, exactly one frame completes the stream, it is the last,
    and it carries the rendered error of a handler that failed and no error
    otherwise; if it reports an error or panics, no frame completes it. *)
Theorem dispatched_stream_completes_once {V W} (is_streamed : V -> bool) (ctx_err : W -> option goerror)
    (emit : StreamResponse V -> W -> W * option goerror) r par who req w :
  let start := MkStreamWorld (Some (MkStreamWriter par (ID req) 0 false None)) [] w in
  let '(ctx, handler) := resolve r par who req start in
  fair ctx_err emit handler ->
  let '(s, answer) := DispatchStream is_streamed ctx_err emit r par who req w in
  numbered (frames s) /\
  match answer with
  | inl None => exists front f, frames s = front ++ [f] /\ Forall (fun f => sr_ID f = ID req /\ kind_of f <> streamCompleteKind) front /\
      sr_ID f = ID req /\ kind_of f = streamCompleteKind /\
      sr_Error f = match (handler ctx).2 with Returns _ (Some e) => Some (rendered r e) | _ => None end
  | _ => Forall (fun f => sr_ID f = ID req /\ kind_of f <> streamCompleteKind) (frames s)
  end.
Proof.
  intros start. destruct (resolve r par who req start) as [ctx handler] eqn:Er. intros Hfair.
  assert (under_way (ID req) (world ctx) (MkStreamWriter par (ID req) 0 false None)) as U.
  { unfold resolve in Er. injection Er as <- _. by constructor. }
  unfold DispatchStream. fold start. rewrite Er. specialize (Hfair ctx). destruct (handler ctx) as [ctx1 o]. cbn [fst snd] in *.
  destruct (fair_under_way _ _ _ _ _ _ Hfair U) as [w1 U1].
  destruct o as [res err|v]; [|by split; apply U1].
  unfold conclude. unfold writer_error. destruct (stream (world ctx1)) as [sw|] eqn:Es; [|by destruct U1; congruence].
  destruct (w_err sw) as [e|]; [by split; apply U1|].
  assert (forall err ctx2 w2, under_way (ID req) (world ctx2) w2 ->
    let '(ctx, e) := complete ctx_err emit err ctx2 in
    numbered (frames (world ctx)) /\
    match e with
    | None => exists front f, frames (world ctx) = front ++ [f] /\ Forall (fun f => sr_ID f = ID req /\ kind_of f <> streamCompleteKind) front /\
        sr_ID f = ID req /\ kind_of f = streamCompleteKind /\ sr_Error f = err
    | Some _ => Forall (fun f => sr_ID f = ID req /\ kind_of f <> streamCompleteKind) (frames (world ctx))
    end) as Hc.
  { intros err' c2 w2 U2. pose proof (complete_spec ctx_err emit (ID req) err' c2 w2 U2) as H. destruct (complete _ _ _ _) as [c3 [e|]]; [done|].
    destruct H as [Hn (front & f & E1 & E2 & E3 & E4 & E5)]. split; [done|]. by exists front, f. }
  destruct err as [e|].
  - specialize (Hc (Some (rendered r e)) ctx1 w1 U1). destruct (complete _ _ _ _) as [c3 x]. by destruct x.
  - destruct (streamed is_streamed res).
    + specialize (Hc None ctx1 w1 U1). destruct (complete _ _ _ _) as [c3 x]. by destruct x.
    + pose proof (emitFrame_spec ctx_err emit (ID req) streamDataKind res None None ctx1 w1 U1) as H. unfold Send.
      destruct (emitFrame _ _ _ _ _ _ _) as [c2 [e|]].
      * destruct H as (w2 & U2 & _). split; apply U2.
      * destruct H as (f & w2 & _ & _ & _ & _ & _ & _ & _ & _ & U2). specialize (Hc None c2 w2 (U2 ltac:(done))).
        destruct (complete _ _ _ _) as [c3 x]. by destruct x.
Qed.

(** A route that sends two values and fails. *)
Definition counting : Handler nat (StreamWorld nat unit) :=
  ProduceStream 0%nat (Some (fun ctx =>
    let ctx := (Send (fun _ => None) (fun _ w => (w, None)) (Some 1%nat) ctx).1 in
    let ctx := (Send (fun _ => None) (fun _ w => (w, None)) (Some 2%nat) ctx).1 in
    (ctx, Some (RPCException (NewRPCError "stopped" "The count stopped."))))).
Lemma counting_fair : fair (fun _ => None) (fun _ w => (w, None)) counting.
Proof.
  intros ctx. unfold counting, ProduceStream. destruct (stream (world ctx)); [|apply rtc_refl].
  eapply rtc_l; [apply Sends|]. eapply rtc_l; [apply Sends|]. apply rtc_refl.
Qed.
Definition counter : Router nat (StreamWorld nat unit) :=
  MkRouter {["count" := MkRoute counting [] []]} [] ∅ (fun e => Some (renderFrameworkException e)).
Lemma dispatched_stream_completes_once_witness :
  let '(s, answer) := DispatchStream (fun _ => false) (fun _ => None) (fun _ w => (w, None)) counter Background None (MkRequest "7" "count" "" ∅) tt in
  answer = inl None /\ number_of <$> frames s = [1; 2; 3] /\ numbered (frames s).
Proof.
  pose proof (dispatched_stream_completes_once (fun _ => false) (fun _ => None) (fun _ w => (w, None)) counter Background None (MkRequest "7" "count" "" ∅) tt counting_fair) as H.
  destruct H as [H _]. split; [reflexivity|]. split; [reflexivity|exact H].
Defined.
