(* ===== verification/Http.v ===== *)
(** * The HTTP handler: [backend/framework/http_handler.go], [http_observability.go]

    A connection is what a response writer and the observation of its request
    hold: headers, the status once sent, what was written, the log, and the
    world of the application besides.  A handler is a function of it.  Header
    names are written as the code writes them.  What package mime, package net
    and the JSON codec make of a text is a parameter or part of the request. *)
From S2P Require Import Prelude GoTime GoStrings Json Exceptions Stream Router StreamDispatch RateLimiter.
Open Scope Z_scope.
Open Scope go_scope.

Definition StatusOK := 200.
Definition StatusNoContent := 204.
Definition StatusBadRequest := 400.
Definition StatusUnauthorized := 401.
Definition StatusForbidden := 403.
Definition StatusMethodNotAllowed := 405.
Definition StatusRequestEntityTooLarge := 413.
Definition StatusUnsupportedMediaType := 415.
Definition StatusTooManyRequests := 429.
Definition StatusInternalServerError := 500.
Definition StatusServiceUnavailable := 503.

(** A Go interface value: nil, holding a nil pointer, map or function, or not. *)
Inductive interface (A : Type) := NilInterface | NilValue | Value (a : A).
Arguments NilInterface {A}.
Arguments NilValue {A}.
Arguments Value {A} a.
Definition IsNil {A} (x : interface A) : bool := match x with NilValue => true | _ => false end.

Abbreviation Header := (gmap string (list string)).
Definition Get (name : string) (h : Header) : string := match h !! name with Some (v :: _) => v | _ => "" end.
Definition Values (name : string) (h : Header) : list string := default [] (h !! name).
Definition Set_ (name value : string) (h : Header) : Header := <[name := [value]]> h.
Definition Add (name value : string) (h : Header) : Header := <[name := Values name h ++ [value]]> h.

(** What [http.MaxBytesReader] and the decoder make of the body. *)
Inductive rpc_body :=
| NotJSON (err : goerror) (too_large : bool)
| NotOneObject
| OneRequest (request : Request).
Record HTTPRequest := MkHTTPRequest {
  hr_Method : string;
  hr_Header : Header;
  hr_RemoteAddr : string;
  hr_Path : string;
  hr_principal : option Principal;
  hr_Body : rpc_body
}.
Definition with_principal (r : HTTPRequest) (p : Principal) : HTTPRequest :=
  MkHTTPRequest (hr_Method r) (hr_Header r) (hr_RemoteAddr r) (hr_Path r) (Some p) (hr_Body r).

Definition maxHTTPObservationValueBytes : Z := 256.
Definition boundedHTTPObservationValue (value : string) : string :=
  let value := TrimSpace value in
  if string_length value <=? maxHTTPObservationValueBytes then value else take_bytes maxHTTPObservationValueBytes value.

Definition ErrAuthenticationFailed := ErrNew "framework: authentication failed".

Record httpObservationState := MkObservation { surface : string; rpcMethod : string; obs_principal : string; errorCode : string }.
Definition no_observation := MkObservation "" "" "" "".

Section Http.
Context {V W C : Type}.  (* values, the world, and what else handlers write *)

(** What is written: a response, a frame of a stream, or something else. *)
Inductive chunk := RpcResponse (r : Router.Response V) | RpcFrame (f : StreamResponse V) | Other (c : C).
(** [observed]: the state of an observation, where a handler observes. *)
Record conn := MkConn {
  headers : Header;
  statusCode : option Z;
  sent_headers : Header;
  body : list chunk;
  observed : option httpObservationState;
  responseBytes : Z;
  log : list string;
  app : W
}.
Definition with_headers (h : Header) (c : conn) :=
  MkConn h (statusCode c) (sent_headers c) (body c) (observed c) (responseBytes c) (log c) (app c).
Definition with_observed (o : option httpObservationState) (c : conn) :=
  MkConn (headers c) (statusCode c) (sent_headers c) (body c) o (responseBytes c) (log c) (app c).
Definition with_app (w : W) (c : conn) :=
  MkConn (headers c) (statusCode c) (sent_headers c) (body c) (observed c) (responseBytes c) (log c) w.
Definition set_header (name value : string) (c : conn) := with_headers (Set_ name value (headers c)) c.
Definition add_header (name value : string) (c : conn) := with_headers (Add name value (headers c)) c.
(** [logf] of a line, when [Errors] is configured. *)
Definition logf (Errors : bool) (line : string) (c : conn) : conn :=
  if Errors then MkConn (headers c) (statusCode c) (sent_headers c) (body c) (observed c) (responseBytes c) (log c ++ [line]) (app c) else c.
(** Only the first status counts, and it is sent with the headers of then. *)
Definition WriteHeader (status : Z) (c : conn) : conn :=
  match statusCode c with
  | Some _ => c
  | None => MkConn (headers c) (Some status) (headers c) (body c) (observed c) (responseBytes c) (log c) (app c)
  end.

(** [marshals]: what [json.Marshal] says; [writes]: how much of a chunk the
    network took, and its error. *)
Variables (marshals : chunk -> option goerror) (writes : chunk -> W -> W * (Z * option goerror)).
Definition Write (x : chunk) (c : conn) : conn * option goerror :=
  let c := WriteHeader StatusOK c in
  let '(w, (n, err)) := writes x (app c) in
  (MkConn (headers c) (statusCode c) (sent_headers c) (body c ++ [x]) (observed c) (responseBytes c + n) (log c) w, err).
Definition Encode (x : chunk) (c : conn) : conn * option goerror :=
  match marshals x with Some err => (c, Some err) | None => Write x c end.
Definition Flush (c : conn) : conn := WriteHeader StatusOK c.

Definition mark_ (f : httpObservationState -> httpObservationState) (c : conn) : conn := with_observed (f <$> observed c) c.
Definition markHTTPObservationSurface (s : string) : conn -> conn :=
  mark_ (fun o => MkObservation (boundedHTTPObservationValue s) (rpcMethod o) (obs_principal o) (errorCode o)).
Definition markHTTPObservationRPCMethod (s : string) : conn -> conn :=
  mark_ (fun o => MkObservation (surface o) (boundedHTTPObservationValue s) (obs_principal o) (errorCode o)).
Definition markHTTPObservationPrincipal (s : string) : conn -> conn :=
  mark_ (fun o => MkObservation (surface o) (rpcMethod o) (boundedHTTPObservationValue s) (errorCode o)).
Definition markHTTPObservationError (s : string) : conn -> conn :=
  mark_ (fun o => MkObservation (surface o) (rpcMethod o) (obs_principal o) (boundedHTTPObservationValue s)).

(** ** The handler *)

Definition Authenticator : Type := string -> W -> W * (goerror + Principal).
Definition RateLimiter_ : Type := string -> W -> W * (goerror + RateLimitDecision).
Definition HTTPRateLimitKeyFunc : Type := HTTPRequest -> Principal -> goerror + string.
Record HTTPHandler := MkHTTPHandler {
  h_Router : option (Router V (StreamWorld V conn));
  h_Authenticator : interface Authenticator;
  h_RateLimiter : interface RateLimiter_;
  h_RateLimitKey : option HTTPRateLimitKeyFunc;
  h_AllowedOrigin : string;
  h_Errors : bool
}.

Definition writeJSON (h : HTTPHandler) (status : Z) (r : Router.Response V) (c : conn) : conn :=
  match Encode (RpcResponse r) (WriteHeader status (set_header "Content-Type" "application/json" c)) with
  | (c, Some err) => logf (h_Errors h) ("http backend: encode response: " +:+ error_text err) c
  | (c, None) => c
  end.
Definition error_response (code message : string) : Router.Response V := MkResponse "" None (Some (NewRPCError code message)) [].
Definition writeError (h : HTTPHandler) (status : Z) (code message : string) (c : conn) : conn :=
  writeJSON h status (error_response code message) (markHTTPObservationError code c).
Definition writeUnauthenticated (h : HTTPHandler) (c : conn) : conn :=
  writeError h StatusUnauthorized "unauthenticated" "A valid Bearer token is required." (set_header "WWW-Authenticate" "Bearer" c).

Definition allowOrigin (h : HTTPHandler) (r : HTTPRequest) (c : conn) : conn * bool :=
  let origin := Get "Origin" (hr_Header r) in
  if String.eqb origin "" then (c, true)
  else
    let c := add_header "Vary" "Origin" c in
    if String.eqb (h_AllowedOrigin h) "" then (c, false)
    else
      let allow origin c :=
        (set_header "Access-Control-Expose-Headers" "Retry-After, WWW-Authenticate, X-Request-ID"
          (set_header "Access-Control-Allow-Methods" "POST, OPTIONS"
            (set_header "Access-Control-Allow-Headers" "Authorization, Content-Type"
              (set_header "Access-Control-Allow-Origin" origin c))), true) in
      if String.eqb (h_AllowedOrigin h) "*" then allow "*" c
      else if String.eqb origin (h_AllowedOrigin h) then allow origin c else (c, false).

(** [EqualFold] with a word that no other letters fold to. *)
Definition bearerCredential (values : list string) : option string :=
  match values with
  | [value] =>
      match Fields value with
      | [scheme; token] => if String.eqb (to_upper scheme) "BEARER" && negb (String.eqb token "") then Some token else None
      | _ => None
      end
  | _ => None
  end.
Definition retryAfterSeconds (retryAfter : Z) : string :=
  let seconds := Z.quot retryAfter Second in
  let seconds := if negb (Z.rem retryAfter Second =? 0) then seconds + 1 else seconds in
  Itoa (if seconds <? 1 then 1 else seconds).

Variables (ParseMediaType : string -> option string) (defaultKey : HTTPRateLimitKeyFunc) (ctx_err : W -> option goerror).

(** [NewStaticTokenAuthenticator], with the context of the call in the world. *)
Definition ErrInvalidAuthenticator := ErrNew "framework: authenticator is invalid".
Definition staticTokenAuthenticator (expectedToken : string) (p : Principal) : Authenticator := fun credential w =>
  (w, match ctx_err w with
      | Some err => inl err
      | None => if String.eqb credential expectedToken then inr p else inl ErrAuthenticationFailed
      end).
Definition NewStaticTokenAuthenticator (expectedToken : string) (p : Principal) : result Authenticator :=
  if String.eqb expectedToken "" || negb (valid p) then Err ErrInvalidAuthenticator else Ok (staticTokenAuthenticator expectedToken p).

(** The part of [ServeHTTP] that authenticates: the request goes on or not. *)
Definition authenticate (h : HTTPHandler) (r : HTTPRequest) (c : conn) : conn * option HTTPRequest :=
  match h_Authenticator h with
  | NilInterface => (c, Some r)
  | NilValue => (writeError h StatusInternalServerError "configuration_error" "The HTTP authenticator is not configured." c, None)
  | Value auth =>
      match bearerCredential (Values "Authorization" (hr_Header r)) with
      | None => (writeUnauthenticated h c, None)
      | Some credential =>
          let '(w, answer) := auth credential (app c) in
          let c := with_app w c in
          match answer with
          | inl err =>
              if errors_is err ErrAuthenticationFailed then (writeUnauthenticated h c, None)
              else (writeError h StatusServiceUnavailable "authentication_unavailable" "Authentication is temporarily unavailable."
                      (logf (h_Errors h) ("http backend: authenticate request: " +:+ error_text err) c), None)
          | inr p =>
              if valid p then (markHTTPObservationPrincipal (subject p) c, Some (with_principal r p))
              else (writeError h StatusInternalServerError "authentication_error" "Authentication could not complete."
                      (logf (h_Errors h) "http backend: authenticator returned an invalid principal" c), None)
          end
      end
  end.
Definition zero_principal : Principal := MkPrincipal "" ∅.
Definition principal_of (r : HTTPRequest) : Principal :=
  default zero_principal (match hr_principal r with Some p => if valid p then Some p else None | None => None end).
(** The part that asks the rate limiter. *)
Definition limit_rate (h : HTTPHandler) (r : HTTPRequest) (c : conn) : conn * bool :=
  match h_RateLimiter h with
  | NilInterface => (c, true)
  | NilValue => (writeError h StatusInternalServerError "configuration_error" "The HTTP rate limiter is not configured." c, false)
  | Value limiter =>
      let no_key err := (writeError h StatusInternalServerError "rate_limit_error" "The request rate limit could not be evaluated."
                           (logf (h_Errors h) ("http backend: resolve rate limit key: " +:+ err) c), false) in
      match default defaultKey (h_RateLimitKey h) r (principal_of r) with
      | inl err => no_key (error_text err)
      | inr key =>
          let key := TrimSpace key in
          if negb (valid_key key) then no_key "<nil>"
          else
            let '(w, answer) := limiter key (app c) in
            let c := with_app w c in
            match answer with
            | inl err =>
                (writeError h StatusServiceUnavailable "rate_limit_unavailable" "Rate limiting is temporarily unavailable."
                   (logf (h_Errors h) ("http backend: evaluate rate limit: " +:+ error_text err) c), false)
            | inr d =>
                if Allowed d then (c, true)
                else (writeError h StatusTooManyRequests "rate_limited" "Too many requests were sent. Retry later."
                        (set_header "Retry-After" (retryAfterSeconds (RetryAfter d)) c), false)
            end
      end
  end.
Definition decode_request (h : HTTPHandler) (r : HTTPRequest) (c : conn) : conn * option Request :=
  if match ParseMediaType (Get "Content-Type" (hr_Header r)) with Some t => String.eqb t "application/json" | None => false end then
    match hr_Body r with
    | NotJSON err too_large =>
        (writeError h (if too_large then StatusRequestEntityTooLarge else StatusBadRequest) "invalid_json" "The request is not valid JSON."
           (logf (h_Errors h) ("http backend: invalid JSON request: " +:+ error_text err) c), None)
    | NotOneObject => (writeError h StatusBadRequest "invalid_json" "The request must contain one JSON object." c, None)
    | OneRequest request => (markHTTPObservationRPCMethod (Method request) c, Some request)
    end
  else (writeError h StatusUnsupportedMediaType "unsupported_media_type" "Content-Type must be application/json." c, None).

(** Everything before the router is asked: what goes on to it, if anything. *)
Definition admit_request (h : HTTPHandler) (r : HTTPRequest) (c : conn) : conn * option (Router V (StreamWorld V conn) * HTTPRequest * Request) :=
  let c := markHTTPObservationSurface "rpc" c in
  let c := set_header "X-Content-Type-Options" "nosniff" (set_header "Cache-Control" "no-store" c) in
  match h_Router h with
  | None => (writeError h StatusInternalServerError "configuration_error" "The HTTP backend is not configured." c, None)
  | Some router =>
      let '(c, allowed) := allowOrigin h r c in
      if negb allowed then (writeError h StatusForbidden "origin_not_allowed" "The request origin is not allowed." c, None)
      else if String.eqb (hr_Method r) "OPTIONS" then (WriteHeader StatusNoContent c, None)
      else if negb (String.eqb (hr_Method r) "POST") then
        (writeError h StatusMethodNotAllowed "method_not_allowed" "Use POST for RPC requests." (set_header "Allow" "POST, OPTIONS" c), None)
      else
        match authenticate h r c with
        | (c, None) => (c, None)
        | (c, Some r) =>
            match limit_rate h r c with
            | (c, false) => (c, None)
            | (c, true) =>
                match decode_request h r c with
                | (c, None) => (c, None)
                | (c, Some request) => (c, Some (router, r, request))
                end
            end
        end
  end.

Definition requestsStream (request : Request) : bool := String.eqb (default "" (Meta request !! "stream")) "1".
(** The transport of a stream; what it refuses is nothing the client sees. *)
Definition emit_http (f : StreamResponse V) (c : conn) : conn * option goerror :=
  let c := match sr_Error f with Some e => markHTTPObservationError (Code e) c | None => c end in
  match Encode (RpcFrame f) c with
  | (c, Some err) => (c, Some err)
  | (c, None) => (Flush c, None)
  end.
Definition request_context (c : conn) : context := Ctx (ctx_err (app c)).
Variable is_streamed : V -> bool.

(** A panic of a handler goes on to the server: the second value. *)
Definition writeStream (h : HTTPHandler) (router : Router V (StreamWorld V conn)) (flusher : bool) (r : HTTPRequest) (request : Request) (c : conn)
    : conn * option string :=
  if negb flusher then
    (writeError h StatusInternalServerError "streaming_not_supported" "The HTTP response writer does not support streaming." c, None)
  else
    let c := set_header "X-Content-Type-Options" "nosniff" (set_header "Content-Type" "application/x-ndjson" c) in
    let c := WriteHeader StatusOK c in
    let '(s, answer) := DispatchStream is_streamed (fun c => ctx_err (app c)) emit_http router (request_context c) (hr_principal r) request c in
    let c := rest s in
    match answer with
    | inr v => (c, Some v)
    | inl (Some err) =>
        (match ctx_err (app c) with None => logf (h_Errors h) ("http backend: stream response: " +:+ error_text err) c | Some _ => c end, None)
    | inl None => (c, None)
    end.
Definition answer_rpc (h : HTTPHandler) (router : Router V (StreamWorld V conn)) (r : HTTPRequest) (request : Request) (c : conn) : conn * option string :=
  let '(s, answer) := Dispatch router (request_context c) (hr_principal r) request (MkStreamWorld None [] c) in
  let c := rest s in
  match answer with
  | inr v => (c, Some v)
  | inl response =>
      let c := match response_Error response with Some e => markHTTPObservationError (Code e) c | None => c end in
      (writeJSON h StatusOK response c, None)
  end.
Definition ServeHTTP (h : HTTPHandler) (flusher : bool) (r : HTTPRequest) (c : conn) : conn * option string :=
  match admit_request h r c with
  | (c, None) => (c, None)
  | (c, Some (router, r, request)) =>
      if requestsStream request then writeStream h router flusher r request c else answer_rpc h router r request c
  end.
End Http.
Arguments chunk : clear implicits.
Arguments conn : clear implicits.
Arguments HTTPHandler : clear implicits.

(** ** Observation *)

Record HTTPRequestStart := MkStart { RequestID : string; HTTPMethod : string; ClientIP : string }.
Inductive HTTPOutcome := OutcomeSuccess | OutcomeRPCError | OutcomeClientError | OutcomeServerError | OutcomeCanceled.
#[export] Instance HTTPOutcome_dec : EqDecision HTTPOutcome.
Proof. solve_decision. Defined.
Record HTTPRequestObservation := MkRequestObservation {
  ro_Start : HTTPRequestStart;
  ro_Surface : string;
  ro_RPCMethod : string;
  ro_Principal : string;
  ro_StatusCode : Z;
  ro_ErrorCode : string;
  ro_ResponseBytes : Z;
  ro_Duration : Z;
  ro_Outcome : HTTPOutcome
}.
Definition httpObservationOutcome (status : Z) (code : string) (requestError : option goerror) : HTTPOutcome :=
  match requestError with
  | Some _ => OutcomeCanceled
  | None =>
      if (StatusInternalServerError <=? status) || (status =? 0) then OutcomeServerError
      else if StatusBadRequest <=? status then OutcomeClientError
      else if negb (String.eqb code "") then OutcomeRPCError
      else OutcomeSuccess
  end.

(** The bytes [crypto/rand] gave, or the hash of the time and a counter. *)
Definition newHTTPRequestID (sha256_hex : string -> string) (random : option (list Z)) (nanos counter : Z) : string :=
  match random with
  | Some value => hex_encode value
  | None => take_bytes 32 (sha256_hex (Itoa nanos +:+ ":" +:+ Itoa counter))
  end.
Definition newRequestID (requestID : option string) (generated : string) : string :=
  match requestID with
  | Some id => let id := boundedHTTPObservationValue id in if String.eqb id "" then generated else id
  | None => generated
  end.
Definition directHTTPClientIP (SplitHostPort : string -> option string) (ParseIP : string -> bool) (remoteAddress : string) : string :=
  match host_of SplitHostPort ParseIP remoteAddress with
  | Some host => boundedHTTPObservationValue host
  | None => ""
  end.

Section Observation.
Context {V W C : Type}.
#[local] Abbreviation conn := (Http.conn V W C).

(** An observer acts on the world and may panic; the contexts that observers
    make carry nothing the framework reads. *)
Record observer := MkObserver {
  BeginHTTP : HTTPRequestStart -> W -> W * option string;
  EndHTTP : HTTPRequestObservation -> W -> W * option string
}.
Inductive HTTPObserver := Single (o : observer) | Group_ (l : list observer).
(** [HTTPObserverFuncs]. *)
Definition HTTPObserverFuncs (BeginFunc : option (HTTPRequestStart -> W -> W * option string))
    (EndFunc : option (HTTPRequestObservation -> W -> W * option string)) : observer :=
  MkObserver (fun start w => match BeginFunc with Some f => f start w | None => (w, None) end)
    (fun observation w => match EndFunc with Some f => f observation w | None => (w, None) end).
Definition NewHTTPObserverGroup (observers : list (interface HTTPObserver)) : HTTPObserver :=
  Group_ (observers ≫= fun x => match x with Value (Single o) => [o] | Value (Group_ l) => l | _ => [] end).
Definition observers_of (o : interface HTTPObserver) : list observer :=
  match o with Value (Single o) => [o] | Value (Group_ l) => l | _ => [] end.
(** A group called as one observer: a panic ends it. *)
Fixpoint call_all (calls : list (W -> W * option string)) (w : W) : W * option string :=
  match calls with
  | [] => (w, None)
  | f :: calls => match f w with (w, Some v) => (w, Some v) | (w, None) => call_all calls w end
  end.
Definition group_observer (l : list observer) : observer :=
  MkObserver (fun start => call_all ((fun o => BeginHTTP o start) <$> l)) (fun observation => call_all ((fun o => EndHTTP o observation) <$> rev l)).

(** A call of one observer by the handler, its panic recovered. *)
Definition guarded (Errors : bool) (phase : string) (f : W -> W * option string) (c : conn) : conn :=
  let '(w, panicked) := f (app c) in
  let c := with_app w c in
  match panicked with Some v => logf Errors ("http observer: " +:+ phase +:+ ": " +:+ v) c | None => c end.
Definition beginObservation (Errors : bool) (o : interface HTTPObserver) (start : HTTPRequestStart) (c : conn) : conn :=
  foldl (fun c o => guarded Errors "begin" (BeginHTTP o start) c) c (observers_of o).
Definition endObservation (Errors : bool) (o : interface HTTPObserver) (observation : HTTPRequestObservation) (c : conn) : conn :=
  foldl (fun c o => guarded Errors "end" (EndHTTP o observation) c) c (rev (observers_of o)).

Variables (writes : chunk V C -> W -> W * (Z * option goerror)) (plain : string -> C) (ctx_err : W -> option goerror).
(** [http.Error]. *)
Definition http_Error (message : string) (status : Z) (c : conn) : conn :=
  (Write writes (Other (plain (message +:+ String "010" "")))
    (WriteHeader status (set_header "X-Content-Type-Options" "nosniff" (set_header "Content-Type" "text/plain; charset=utf-8" c)))).1.

Record HTTPObservationHandler := MkObservationHandler {
  oh_Handler : option (HTTPRequest -> conn -> conn * option string);
  oh_Observer : interface HTTPObserver;
  oh_Errors : bool
}.
(** What the deferred call reports: [c] is the connection the handler left,
    [inner] what its recorder saw, [ctx] the context's error. *)
Definition observation_of (start : HTTPRequestStart) (duration : Z) (state : httpObservationState) (status : option Z) (written : Z)
    (ctx : option goerror) : HTTPRequestObservation :=
  let status := match status, ctx with Some s, _ => s | None, None => StatusOK | None, Some _ => 0 end in
  MkRequestObservation start (surface state) (rpcMethod state) (obs_principal state) status (errorCode state) written duration
    (httpObservationOutcome status (errorCode state) ctx).
(** The recorder starts empty around a writer that has not written; it counts
    its own bytes. *)
Definition ObserveHTTP (h : HTTPObservationHandler) (requestID clientIP : string) (startedAt finishedAt : Z) (r : HTTPRequest) (c : conn)
    : conn * option string :=
  match oh_Handler h with
  | None => (http_Error "The HTTP handler is not configured." StatusInternalServerError c, None)
  | Some handler =>
      let c := set_header "X-Request-ID" requestID c in
      let start := MkStart requestID (boundedHTTPObservationValue (hr_Method r)) clientIP in
      let c := beginObservation (oh_Errors h) (oh_Observer h) start c in
      let outer := observed c in
      let written := responseBytes c in
      let '(c, panicked) := handler r (with_observed (Some no_observation) c) in
      let state := default no_observation (observed c) in
      let duration := Z.max 0 (Sub finishedAt startedAt) in
      let observation := observation_of start duration state (statusCode c) (responseBytes c - written) (ctx_err (app c)) in
      (endObservation (oh_Errors h) (oh_Observer h) observation (with_observed outer c), panicked)
  end.

(** The attributes that [NewJSONHTTPObserver] logs, and their level. *)
Inductive level := LevelInfo | LevelWarn | LevelError.
Inductive attr := Str (key value : string) | Int (key : string) (value : Z).
Definition outcome_text (o : HTTPOutcome) : string :=
  match o with
  | OutcomeSuccess => "success" | OutcomeRPCError => "rpc_error" | OutcomeClientError => "client_error"
  | OutcomeServerError => "server_error" | OutcomeCanceled => "canceled"
  end.
Definition json_record (sha256_hex : string -> string) (o : HTTPRequestObservation) : level * list attr :=
  (match ro_Outcome o with OutcomeServerError => LevelError | OutcomeSuccess => LevelInfo | _ => LevelWarn end,
   [Str "event" "bridra_http_request"; Str "request_id" (RequestID (ro_Start o)); Str "http_method" (HTTPMethod (ro_Start o));
    Str "client_ip" (ClientIP (ro_Start o)); Str "surface" (ro_Surface o); Str "rpc_method" (ro_RPCMethod o);
    Int "status" (ro_StatusCode o); Str "error_code" (ro_ErrorCode o); Str "outcome" (outcome_text (ro_Outcome o));
    Int "response_bytes" (ro_ResponseBytes o); Int "duration_micros" (Z.quot (ro_Duration o) 1000)] ++
   (if String.eqb (ro_Principal o) "" then [] else [Str "principal_sha256" (sha256_hex (ro_Principal o))])).
End Observation.

(** ** What the HTTP handler lets through *)

Section Facts.
Context {V W C : Type}.
#[local] Abbreviation conn := (Http.conn V W C).
#[local] Abbreviation handler := (HTTPHandler V W C).
Variables (marshals : chunk V C -> option goerror) (writes : chunk V C -> W -> W * (Z * option goerror)).
Variables (ParseMediaType : string -> option string) (defaultKey : HTTPRateLimitKeyFunc).
Implicit Types c : conn.
Implicit Types h : handler.

(** ** What the response has, whatever a step did *)

(** [c'] has sent nothing that [c] had not. *)
Record unsent c c' : Prop := {
  us_status : statusCode c' = statusCode c;
  us_body : body c' = body c
}.
(** The origin a browser may be told. *)
Definition cors_ok h (r : HTTPRequest) (hd : Header) : Prop :=
  forall o, hd !! "Access-Control-Allow-Origin" = Some o ->
    (o = ["*"] /\ h_AllowedOrigin h = "*") \/ (o = [Get "Origin" (hr_Header r)] /\ Get "Origin" (hr_Header r) = h_AllowedOrigin h).
Definition guarded_headers h r (hd : Header) : Prop :=
  hd !! "Cache-Control" = Some ["no-store"] /\ hd !! "X-Content-Type-Options" = Some ["nosniff"] /\ cors_ok h r hd.

(** Nothing sent yet, or a response to a request refused before the router:
    one status, one error at most, no data. *)
Inductive refused h r c : Prop :=
| Refused status code message :
    statusCode c = Some status -> StatusBadRequest <= status -> guarded_headers h r (sent_headers c) ->
    (body c = [RpcResponse (error_response code message)] \/ exists err, marshals (RpcResponse (error_response code message)) = Some err /\ body c = []) ->
    refused h r c
| Preflight : statusCode c = Some StatusNoContent -> hr_Method r = "OPTIONS" -> body c = [] -> guarded_headers h r (sent_headers c) -> refused h r c.
Record pending h r c : Prop := {
  pe_status : statusCode c = None;
  pe_body : body c = [];
  pe_headers : guarded_headers h r (headers c)
}.

Lemma set_other name value hd key : name <> key -> Set_ name value hd !! key = hd !! key.
Proof. intros H. unfold Set_. by rewrite lookup_insert_ne. Qed.
Lemma guarded_set h r name value hd : guarded_headers h r hd ->
  name <> "Cache-Control" -> name <> "X-Content-Type-Options" -> name <> "Access-Control-Allow-Origin" -> guarded_headers h r (Set_ name value hd).
Proof. intros (H1 & H2 & H3) N1 N2 N3. unfold guarded_headers, cors_ok. rewrite !set_other by done. done. Qed.
Lemma guarded_add h r name value hd : guarded_headers h r hd ->
  name <> "Cache-Control" -> name <> "X-Content-Type-Options" -> name <> "Access-Control-Allow-Origin" -> guarded_headers h r (Add name value hd).
Proof. intros (H1 & H2 & H3) N1 N2 N3. unfold guarded_headers, cors_ok, Add. rewrite !lookup_insert_ne by done. done. Qed.
Lemma pending_set h r name value c : pending h r c ->
  name <> "Cache-Control" -> name <> "X-Content-Type-Options" -> name <> "Access-Control-Allow-Origin" -> pending h r (set_header name value c).
Proof. intros [H1 H2 H3] N1 N2 N3. constructor; [done|done|]. by apply guarded_set. Qed.
(** What does not concern the response. *)
Lemma pending_like h r c c' : pending h r c -> statusCode c' = statusCode c -> body c' = body c -> headers c' = headers c -> pending h r c'.
Proof. intros [H1 H2 H3] E1 E2 E3. constructor; by rewrite ?E1, ?E2, ?E3. Qed.
Lemma pending_logf h r b line c : pending h r c -> pending h r (logf b line c).
Proof. intros P. destruct b; [|done]. by apply (pending_like h r c). Qed.

Lemma writeError_refused h r status code message c : pending h r c -> StatusBadRequest <= status -> refused h r (writeError marshals writes h status code message c).
Proof.
  intros [H1 H2 H3] Hs. unfold writeError, writeJSON, Encode. set (c1 := WriteHeader _ _).
  assert (statusCode c1 = Some status /\ body c1 = [] /\ guarded_headers h r (sent_headers c1)) as (E1 & E2 & E3).
  { unfold c1, WriteHeader, markHTTPObservationError, mark_. cbn [set_header with_headers statusCode with_observed]. rewrite H1. cbn.
    split; [done|]. split; [done|]. by apply guarded_set. }
  assert (forall c2, statusCode c2 = statusCode c1 -> sent_headers c2 = sent_headers c1 ->
    body c2 = [RpcResponse (error_response code message)] \/ (exists err, marshals (RpcResponse (error_response code message)) = Some err /\ body c2 = []) ->
    refused h r c2) as Hr.
  { intros c2 F1 F2 F3. eapply Refused; [by rewrite F1|done|by rewrite F2|done]. }
  destruct (marshals _) as [err|] eqn:Em.
  - unfold logf. destruct (h_Errors h); (apply Hr; [done|done|right; by exists err]).
  - unfold Write, WriteHeader. rewrite E1. destruct (writes _ _) as [w [n [err|]]]; unfold logf; [destruct (h_Errors h)|];
      (apply Hr; [done|done|left; cbn; by rewrite E2]).
Qed.
Lemma writeUnauthenticated_refused h r c : pending h r c -> refused h r (writeUnauthenticated marshals writes h c).
Proof. intros P. unfold writeUnauthenticated. apply writeError_refused; [by apply pending_set|done]. Qed.

(** ** The steps of the handler *)

(** An origin that the handler accepts. *)
Definition origin_allowed h (r : HTTPRequest) : Prop :=
  let origin := Get "Origin" (hr_Header r) in origin = "" \/ h_AllowedOrigin h = "*" \/ origin = h_AllowedOrigin h.
Lemma allowOrigin_spec h r c : pending h r c ->
  let '(c', allowed) := allowOrigin h r c in pending h r c' /\ app c' = app c /\ (allowed = true -> origin_allowed h r).
Proof.
  intros P. pose proof P as [H1 H2 H3]. unfold allowOrigin, origin_allowed. destruct (String.eqb_spec (Get "Origin" (hr_Header r)) "") as [->|Hne]; [by auto|].
  assert (pending h r (add_header "Vary" "Origin" c)) as Pv by (constructor; [done|done|by apply guarded_add]).
  destruct (String.eqb (h_AllowedOrigin h) ""); [by split|].
  assert (forall origin c, pending h r c -> (origin = "*" /\ h_AllowedOrigin h = "*") \/ (origin = Get "Origin" (hr_Header r) /\ Get "Origin" (hr_Header r) = h_AllowedOrigin h) ->
    pending h r (set_header "Access-Control-Expose-Headers" "Retry-After, WWW-Authenticate, X-Request-ID"
      (set_header "Access-Control-Allow-Methods" "POST, OPTIONS" (set_header "Access-Control-Allow-Headers" "Authorization, Content-Type"
        (set_header "Access-Control-Allow-Origin" origin c))))) as Hallow.
  { intros origin c0 P0 Ho. do 3 (apply pending_set; [|done..]). destruct P0 as [G1 G2 (G3 & G4 & _)]. constructor; [done|done|].
    cbn. unfold guarded_headers, cors_ok. rewrite !set_other by done. split; [done|]. split; [done|]. unfold Set_. rewrite lookup_insert_eq.
    intros o [= <-]. destruct Ho as [[-> ?]|[-> ?]]; auto. }
  destruct (String.eqb_spec (h_AllowedOrigin h) "*") as [E|_].
  - split; [apply Hallow; [done|by left]|]. split; [done|auto].
  - destruct (String.eqb_spec (Get "Origin" (hr_Header r)) (h_AllowedOrigin h)) as [E|_]; [|by split].
    split; [apply Hallow; [done|by right]|]. split; [done|auto].
Qed.

(** Who the request is from, once authenticated. *)
Definition authenticated_as h (r : HTTPRequest) (w : W) (r' : HTTPRequest) : Prop :=
  match h_Authenticator h with
  | NilInterface => r' = r
  | NilValue => False
  | Value auth => exists token p, bearerCredential (Values "Authorization" (hr_Header r)) = Some token /\
      (auth token w).2 = inr p /\ valid p = true /\ r' = with_principal r p
  end.
(** The world in which the rate limiter is asked. *)
Definition after_authentication h (r : HTTPRequest) (w : W) : W :=
  match h_Authenticator h, bearerCredential (Values "Authorization" (hr_Header r)) with
  | Value auth, Some token => (auth token w).1
  | _, _ => w
  end.
Definition within_rate h (r : HTTPRequest) (w : W) : Prop :=
  match h_RateLimiter h with
  | NilInterface => True
  | NilValue => False
  | Value limiter => exists key d, default defaultKey (h_RateLimitKey h) r (principal_of r) = inr key /\ valid_key (TrimSpace key) = true /\
      (limiter (TrimSpace key) w).2 = inr d /\ Allowed d = true
  end.

Lemma pending_app h r w c : pending h r c -> pending h r (with_app w c).
Proof. intros P. by apply (pending_like h r c). Qed.
Lemma pending_mark h r f c : pending h r c -> pending h r (mark_ f c).
Proof. intros P. by apply (pending_like h r c). Qed.
(** [pending] and [refused] know only the header of a request. *)
Lemma pending_principal h r p c : pending h (with_principal r p) c <-> pending h r c.
Proof. split; intros [H1 H2 H3]; by constructor. Qed.

Ltac refuse := repeat first [apply writeError_refused; [|done] | apply writeUnauthenticated_refused | apply pending_set; [|done..] | apply pending_logf | apply pending_app | apply pending_mark]; try done.

Lemma authenticate_spec h r c : pending h r c ->
  let '(c', x) := authenticate marshals writes h r c in
  match x with
  | None => refused h r c'
  | Some r' => pending h r c' /\ authenticated_as h r (app c) r' /\ app c' = after_authentication h r (app c)
  end.
Proof.
  intros P. unfold authenticate, authenticated_as, after_authentication. destruct (h_Authenticator h) as [| |auth]; [done|by refuse|].
  destruct (bearerCredential _) as [token|]; [|by refuse]. destruct (auth token (app c)) as [w [err|p]] eqn:Ea.
  - destruct (errors_is _ _); by refuse.
  - destruct (valid p) eqn:Ev; [|by refuse]. split; [by refuse|]. split; [|done]. exists token, p. by rewrite Ea.
Qed.
Lemma limit_rate_spec h r c : pending h r c ->
  let '(c', x) := limit_rate marshals writes defaultKey h r c in
  if x then pending h r c' /\ within_rate h r (app c) else refused h r c'.
Proof.
  intros P. unfold limit_rate, within_rate. destruct (h_RateLimiter h) as [| |limiter]; [done|by refuse|].
  destruct (default defaultKey (h_RateLimitKey h) r (principal_of r)) as [err|key]; [by refuse|]. destruct (valid_key _) eqn:Ev; cbn [negb]; [|by refuse].
  destruct (limiter _ _) as [w [err|d]] eqn:El; [by refuse|]. destruct (Allowed d) eqn:Ed; [|by refuse].
  split; [by refuse|]. exists key, d. by rewrite El.
Qed.
Lemma decode_request_spec h r c : pending h r c ->
  let '(c', x) := decode_request marshals writes ParseMediaType h r c in
  match x with
  | None => refused h r c'
  | Some request => pending h r c' /\ hr_Body r = OneRequest request /\ ParseMediaType (Get "Content-Type" (hr_Header r)) = Some "application/json"
  end.
Proof.
  intros P. unfold decode_request. destruct (ParseMediaType _) as [t|]; [|by refuse]. destruct (String.eqb_spec t "application/json") as [->|]; [|by refuse].
  destruct (hr_Body r) as [err too_large| |request]; [destruct too_large; by refuse|by refuse|]. split; [by refuse|done].
Qed.
Lemma refused_principal h r p c : refused h (with_principal r p) c -> refused h r c.
Proof. intros [status code message H1 H2 H3 H4|H1 H2 H3 H4]; [by eapply Refused|by eapply Preflight]. Qed.
End Facts.
Arguments authenticated_as {V W C} h r w r' : simpl never.


(** A handler with a token and an origin, asked with both. *)
Definition alice : Principal := MkPrincipal "alice" ∅.
Definition no_routes : Router nat (StreamWorld nat (conn nat nat unit)) := MkRouter ∅ [] ∅ (fun _ => None).
Definition shop : HTTPHandler nat nat unit :=
  MkHTTPHandler (Some no_routes) (Value (staticTokenAuthenticator (fun _ => None) "secret" alice))
    (Value (fun key asked => (S asked, inr (MkDecision (Nat.ltb asked 1) 1 0 Second)))) None "https://shop.example" true.
Definition order : HTTPRequest :=
  MkHTTPRequest "POST" {["Origin" := ["https://shop.example"]; "Authorization" := ["bearer secret"]; "Content-Type" := ["application/json"]]}
    "127.0.0.1:80" "/rpc" None (OneRequest (MkRequest "7" "order.place" "" ∅)).
Definition fresh_conn (w : nat) : conn nat nat unit := MkConn ∅ None ∅ [] (Some no_observation) 0 [] w.
Definition admit_order (asked : nat) :=
  admit_request (fun _ => None) (fun _ w => (w, (0, None))) Some (fun _ p => inr (subject p)) shop order (fresh_conn asked).
Definition passed (asked : nat) : bool := match (admit_order asked).2 with Some _ => true | None => false end.
