(* ===== verification/HttpMetrics.v ===== *)
(** * Metrics of HTTP requests: [HTTPMetrics] of [backend/framework/http_observability.go]

    The counters are atomics of 64 bits, so that a call is a sequence of atomic
    operations among those of other calls; the largest duration is raised in a
    loop of loads and compare-and-swaps.  However they interleave, the counters
    add up when the calls are over. *)
From S2P Require Import Prelude GoStrings Http.
Open Scope Z_scope.
Open Scope go_scope.

Inductive counter :=
| Active | Total | Success | RPCErrors | ClientErrors | ServerErrors | Canceled
| Unauthorized | Forbidden | RateLimited | TotalDuration.
#[export] Instance counter_dec : EqDecision counter.
Proof. solve_decision. Defined.

Record HTTPMetrics := MkMetrics {
  active : Z; total : Z; success : Z; rpcErrors : Z; clientErrors : Z; serverErrors : Z; canceled : Z;
  unauthorized : Z; forbidden : Z; rateLimited : Z; totalDuration : Z; maxDuration : Z
}.
Definition NewHTTPMetrics := MkMetrics 0 0 0 0 0 0 0 0 0 0 0 0.
(** The one signed counter is [active]. *)
Definition wrap (c : counter) (z : Z) : Z := match c with Active => wrap64 z | _ => z mod 2 ^ 64 end.
Definition count (c : counter) (m : HTTPMetrics) : Z :=
  match c with
  | Active => active m | Total => total m | Success => success m | RPCErrors => rpcErrors m | ClientErrors => clientErrors m
  | ServerErrors => serverErrors m | Canceled => canceled m | Unauthorized => unauthorized m | Forbidden => forbidden m
  | RateLimited => rateLimited m | TotalDuration => totalDuration m
  end.
(** [Add] of an atomic. *)
Definition add (c : counter) (n : Z) (m : HTTPMetrics) : HTTPMetrics :=
  let x c' old := if decide (c = c') then wrap c (old + n) else old in
  MkMetrics (x Active (active m)) (x Total (total m)) (x Success (success m)) (x RPCErrors (rpcErrors m)) (x ClientErrors (clientErrors m))
    (x ServerErrors (serverErrors m)) (x Canceled (canceled m)) (x Unauthorized (unauthorized m)) (x Forbidden (forbidden m))
    (x RateLimited (rateLimited m)) (x TotalDuration (totalDuration m)) (maxDuration m).
Definition set_max (d : Z) (m : HTTPMetrics) : HTTPMetrics :=
  MkMetrics (active m) (total m) (success m) (rpcErrors m) (clientErrors m) (serverErrors m) (canceled m) (unauthorized m) (forbidden m)
    (rateLimited m) (totalDuration m) d.

(** What is left of a call. *)
Inductive op :=
| AddTo (c : counter) (n : Z)
| LoadMax (d : Z)                (* at the head of the loop *)
| CompareAndSwap (current d : Z).
Definition BeginHTTP : list op := [AddTo Active 1].
Definition outcome_counter (o : HTTPOutcome) : counter :=
  match o with
  | OutcomeSuccess => Success | OutcomeRPCError => RPCErrors | OutcomeClientError => ClientErrors
  | OutcomeServerError => ServerErrors | OutcomeCanceled => Canceled
  end.
Definition code_counter (code : string) : option counter :=
  if String.eqb code "unauthenticated" then Some Unauthorized
  else if String.eqb code "forbidden" then Some Forbidden
  else if String.eqb code "rate_limited" then Some RateLimited else None.
Definition duration_of (o : HTTPRequestObservation) : Z := Z.max (ro_Duration o) 0.
Definition EndHTTP (o : HTTPRequestObservation) : list op :=
  [AddTo Active (-1); AddTo Total 1; AddTo (outcome_counter (ro_Outcome o)) 1] ++
  match code_counter (ro_ErrorCode o) with Some c => [AddTo c 1] | None => [] end ++
  [AddTo TotalDuration (duration_of o); LoadMax (duration_of o)].

Definition perform (x : op) (rest : list op) (m : HTTPMetrics) : HTTPMetrics * list op :=
  match x with
  | AddTo c n => (add c n m, rest)
  | LoadMax d => if maxDuration m <? d then (m, CompareAndSwap (maxDuration m) d :: rest) else (m, rest)
  | CompareAndSwap current d => if maxDuration m =? current then (set_max d m, rest) else (m, LoadMax d :: rest)
  end.
Inductive step : HTTPMetrics * list (list op) -> HTTPMetrics * list (list op) -> Prop :=
| Step m calls i x rest : calls !! i = Some (x :: rest) ->
    step (m, calls) ((perform x rest m).1, <[i := (perform x rest m).2]> calls).

Record HTTPMetricsSnapshot := MkSnapshot { snap_counts : counter -> Z; snap_TotalDuration : Z; snap_MaxDuration : Z }.
(** The reads of a snapshot while nothing else happens. *)
Definition Snapshot (m : HTTPMetrics) : HTTPMetricsSnapshot := MkSnapshot (fun c => count c m) (wrap64 (totalDuration m)) (wrap64 (maxDuration m)).

(** ** Facts *)

Lemma wrap_add c x n : wrap c (wrap c x + n) = wrap c (x + n).
Proof.
  destruct c; cbn [wrap]; try (apply Z.add_mod_idemp_l; lia).
  unfold wrap64. f_equal. replace ((x + 2 ^ 63) mod 2 ^ 64 - 2 ^ 63 + n + 2 ^ 63) with ((x + 2 ^ 63) mod 2 ^ 64 + n) by lia.
  rewrite Z.add_mod_idemp_l by lia. f_equal. lia.
Qed.
Lemma count_add c c' n m : count c (add c' n m) = if decide (c' = c) then wrap c' (count c m + n) else count c m.
Proof. by destruct c. Qed.
Lemma count_set_max c d m : count c (set_max d m) = count c m.
Proof. by destruct c. Qed.

(** What calls still have to add to a counter. *)
Definition owed_op (c : counter) (x : op) : Z := match x with AddTo c' n => if decide (c' = c) then n else 0 | _ => 0 end.
Definition owed (c : counter) (ops : list op) : Z := foldr (fun x n => owed_op c x + n) 0 ops.
Definition owed_all (c : counter) (calls : list (list op)) : Z := foldr (fun ops n => owed c ops + n) 0 calls.
Lemma owed_all_insert c i ops ops' calls : calls !! i = Some ops -> owed_all c (<[i := ops']> calls) = owed_all c calls - owed c ops + owed c ops'.
Proof.
  revert i. induction calls as [|x calls IH]; intros i; [done|]. destruct i as [|i].
  - intros [= ->]. cbn. lia.
  - intros H. change (owed c x + owed_all c (<[i := ops']> calls) = owed c x + owed_all c calls - owed c ops + owed c ops'). rewrite (IH i H). lia.
Qed.
(** The counters and what is owed to them stay in balance. *)
Definition balanced (goal : counter -> Z) (s : HTTPMetrics * list (list op)) : Prop :=
  forall c, count c s.1 = wrap c (goal c - owed_all c s.2).
Lemma observer_step_balanced goal s s' : balanced goal s -> step s s' -> balanced goal s'.
Proof.
  intros B St. revert B. destruct St as [m calls i x rest Hi]. intros B c. specialize (B c). cbn [fst snd] in *. rewrite (owed_all_insert c i (x :: rest)) by done.
  change (owed c (x :: rest)) with (owed_op c x + owed c rest).
  destruct x as [c' n|d|current d]; cbn [perform owed_op].
  - cbn [fst snd]. rewrite count_add. destruct (decide (c' = c)) as [->|].
    + rewrite B, wrap_add. f_equal. lia.
    + rewrite B. f_equal. lia.
  - destruct (maxDuration m <? d); cbn [fst snd]; rewrite B; f_equal; cbn [owed foldr owed_op]; change (foldr (fun x n => owed_op c x + n) 0 rest) with (owed c rest); lia.
  - destruct (maxDuration m =? current); cbn [fst snd]; rewrite ?count_set_max, B; f_equal; cbn [owed foldr owed_op];
      change (foldr (fun x n => owed_op c x + n) 0 rest) with (owed c rest); lia.
Qed.

(** A call will still raise the maximum to [d], or need not. *)
Definition raises (d : Z) (ops : list op) : Prop := LoadMax d ∈ ops \/ exists current, CompareAndSwap current d ∈ ops.
Record bounded (durations : list Z) (s : HTTPMetrics * list (list op)) : Prop := {
  bo_max : maxDuration s.1 = 0 \/ maxDuration s.1 ∈ durations;
  bo_calls : Forall2 (fun d ops => d <= maxDuration s.1 \/ raises d ops) durations s.2;
  bo_ops : Forall2 (fun d ops => forall d', raises d' ops -> d' = d) durations s.2;
  bo_swaps : Forall (fun ops => forall current d, CompareAndSwap current d ∈ ops -> current < d) s.2
}.
Lemma perform_raises x rest m d : raises d (perform x rest m).2 -> raises d (x :: rest).
Proof.
  unfold raises. destruct x as [c n|e|current e]; cbn [perform].
  - intros [H|[k H]]; [left|right; exists k]; by right.
  - destruct (maxDuration m <? e); cbn [snd].
    + intros [H|[k H]]; apply elem_of_cons in H as [H|H]; [done|left; by right|injection H as -> ->; left; by left|right; exists k; by right].
    + intros [H|[k H]]; [left|right; exists k]; by right.
  - destruct (maxDuration m =? current); cbn [snd].
    + intros [H|[k H]]; [left|right; exists k]; by right.
    + intros [H|[k H]]; apply elem_of_cons in H as [H|H]; [injection H as ->; right; exists current; by left|left; by right|done|right; exists k; by right].
Qed.
(** The maximum never falls. *)
Lemma perform_max x rest m : (forall current d, x = CompareAndSwap current d -> current < d) -> maxDuration m <= maxDuration (perform x rest m).1.
Proof.
  intros H. destruct x as [c n|e|current e]; cbn [perform]; [by cbn|by case_match|].
  destruct (Z.eqb_spec (maxDuration m) current) as [E|]; [|done]. cbn. rewrite E. specialize (H current e eq_refl). lia.
Qed.
Lemma step_bounded durations s s' : bounded durations s -> step s s' -> bounded durations s'.
Proof.
  intros B St. revert B. destruct St as [m calls i x rest Hi]. intros [Bm Bc Bo Bs]. cbn [fst snd] in *.
  pose proof (Forall_lookup_1 _ _ _ _ Bs Hi) as Hsw. cbn in Hsw.
  assert (maxDuration m <= maxDuration (perform x rest m).1) as Hle by (apply perform_max; intros current d ->; apply Hsw; by left).
  destruct (Forall2_lookup_r _ _ _ _ _ Bo Hi) as (d & Hd & Hops).
  destruct (Forall2_lookup_r _ _ _ _ _ Bc Hi) as (d' & Hd' & Hcall). rewrite Hd in Hd'. injection Hd' as <-.
  assert (forall d', raises d' (perform x rest m).2 -> d' = d) as Hops' by (intros d' H%perform_raises; auto).
  constructor; cbn [fst snd].
  - destruct x as [c n|e|current e]; cbn [perform]; [by cbn|by case_match|]. destruct (maxDuration m =? current); [|done]. right. cbn.
    rewrite (Hops e) by (right; exists current; by left). by eapply list_elem_of_lookup_2.
  - apply Forall2_same_length_lookup. split; [rewrite length_insert; by eapply Forall2_length|].
    intros j dj ops Hj Hopsj. apply list_lookup_insert_Some in Hopsj as [(<- & <- & _)|[Hne Hj']].
    + rewrite Hd in Hj. injection Hj as <-. destruct Hcall as [Hcall|Hcall]; [left; lia|].
      destruct x as [c n|e|current e]; cbn [perform] in *.
      * right. destruct Hcall as [H|[k H]]; apply elem_of_cons in H as [H|H]; try done; [by left|right; by exists k].
      * assert (e = d) as -> by (apply Hops; left; by left). destruct (Z.ltb_spec (maxDuration m) d); cbn [fst snd]; [right; right; exists (maxDuration m); by left|by left].
      * assert (e = d) as -> by (apply Hops; right; exists current; by left). destruct (maxDuration m =? current); cbn [fst snd]; [left; by cbn|right; left; by left].
    + destruct (Forall2_lookup_lr _ _ _ _ _ _ Bc Hj Hj') as [H|H]; [left; lia|by right].
  - apply Forall2_same_length_lookup. split; [rewrite length_insert; by eapply Forall2_length|].
    intros j dj ops Hj Hopsj. apply list_lookup_insert_Some in Hopsj as [(<- & <- & _)|[Hne Hj']]; [|by eapply (Forall2_lookup_lr _ _ _ _ _ _ Bo)].
    rewrite Hd in Hj. by injection Hj as <-.
  - apply Forall_insert; [done|]. intros current e H. destruct x as [c n|e'|current' e']; cbn [perform] in H.
    + apply Hsw. by right.
    + destruct (Z.ltb_spec (maxDuration m) e'); cbn [snd] in H; [|apply Hsw; by right]. apply elem_of_cons in H as [[= -> ->]|H]; [done|apply Hsw; by right].
    + destruct (maxDuration m =? current'); cbn [snd] in H; [apply Hsw; by right|]. apply elem_of_cons in H as [H|H]; [done|apply Hsw; by right].
Qed.

(** ** Requests that are begun and ended *)

Definition request (o : HTTPRequestObservation) : list op := BeginHTTP ++ EndHTTP o.
(** What one request adds to a counter, all in all. *)
Definition contribution (c : counter) (o : HTTPRequestObservation) : Z :=
  match c with
  | Active => 0
  | Total => 1
  | TotalDuration => duration_of o
  | Unauthorized | Forbidden | RateLimited => if decide (code_counter (ro_ErrorCode o) = Some c) then 1 else 0
  | _ => if decide (outcome_counter (ro_Outcome o) = c) then 1 else 0
  end.
Definition sum (f : HTTPRequestObservation -> Z) (rs : list HTTPRequestObservation) : Z := foldr (fun o n => f o + n) 0 rs.
Lemma code_counter_cases code : code_counter code = None \/ code_counter code = Some Unauthorized \/ code_counter code = Some Forbidden \/ code_counter code = Some RateLimited.
Proof. unfold code_counter. repeat case_match; auto. Qed.
Lemma request_owes c o : owed c (request o) = contribution c o.
Proof.
  unfold request, EndHTTP, contribution. destruct (code_counter_cases (ro_ErrorCode o)) as [->|[->|[->| ->]]];
    destruct (ro_Outcome o); destruct c; cbn; repeat (case_decide; simplify_eq); lia.
Qed.
Lemma requests_owe c rs : owed_all c (request <$> rs) = sum (contribution c) rs.
Proof. induction rs as [|o rs IH]; [done|]. change (owed c (request o) + owed_all c (request <$> rs) = contribution c o + sum (contribution c) rs).
  by rewrite IH, request_owes. Qed.
Lemma owed_done c calls : Forall (fun ops => ops = []) calls -> owed_all c calls = 0.
Proof. induction 1 as [|ops calls -> _ IH]; [done|]. cbn. exact IH. Qed.
Lemma start_balanced rs : balanced (fun c => sum (contribution c) rs) (NewHTTPMetrics, request <$> rs).
Proof. intros c. cbn [fst snd]. rewrite requests_owe, Z.sub_diag. by destruct c. Qed.
Lemma raises_request d o : raises d (request o) -> d = duration_of o.
Proof.
  unfold raises, request, EndHTTP. destruct (code_counter _); cbn;
    (intros [H|[k H]]; repeat (apply elem_of_cons in H as [H|H]; [try discriminate H|]); try (by apply not_elem_of_nil in H); by injection H).
Qed.
Lemma start_bounded rs : bounded (duration_of <$> rs) (NewHTTPMetrics, request <$> rs).
Proof.
  constructor; cbn [fst snd]; [by left|..].
  - apply Forall2_fmap_2, Forall_Forall2_diag, Forall_forall. intros o _. right. left. unfold request, EndHTTP.
    rewrite !elem_of_app. right. right. right. right. by left.
  - apply Forall2_fmap_2, Forall_Forall2_diag, Forall_forall. intros o _ d. apply raises_request.
  - apply Forall_fmap, Forall_forall. intros o _ current d H. exfalso. unfold request, EndHTTP in H.
    destruct (code_counter _); cbn in H; repeat (apply elem_of_cons in H as [H|H]; [discriminate H|]); by apply not_elem_of_nil in H.
Qed.

Lemma max_nonneg l : 0 <= foldr Z.max 0 l.
Proof. induction l as [|d l IH]; cbn; lia. Qed.
Lemma max_elem d l : d ∈ l -> d <= foldr Z.max 0 l.
Proof. induction 1 as [d l|d d' l _ IH]; cbn; lia. Qed.

(** However the atomic operations of any number of requests interleave,
    once all of them have ended the metrics add up: none is active, every
    counter is the sum of what the requests contribute (as far as 64 bits
    hold it), so that each is in the total and in exactly one outcome, and the
    largest duration is the maximum, no update of it being lost. *)
Theorem metrics_add_up rs m calls :
  rtc step (NewHTTPMetrics, request <$> rs) (m, calls) -> Forall (fun ops => ops = []) calls ->
  active m = 0 /\ total m = Z.of_nat (length rs) mod 2 ^ 64 /\
  (forall c, count c m = wrap c (sum (contribution c) rs)) /\
  maxDuration m = foldr Z.max 0 (duration_of <$> rs).
Proof.
  intros Hs Hd.
  assert (balanced (fun c => sum (contribution c) rs) (m, calls) /\ bounded (duration_of <$> rs) (m, calls)) as [B [Bm Bc _ _]].
  { refine (rtc_ind_r (fun s => balanced (fun c => sum (contribution c) rs) s /\ bounded (duration_of <$> rs) s) _ _ _ _ Hs).
    - split; [apply start_balanced|apply start_bounded].
    - intros x y _ St [B1 B2]. split; [by eapply observer_step_balanced|by eapply step_bounded]. }
  assert (forall c, count c m = wrap c (sum (contribution c) rs)) as Hc.
  { intros c. specialize (B c). cbn [fst snd] in B. by rewrite B, owed_done, Z.sub_0_r. }
  assert (forall n : Z, sum (fun _ => n) rs = Z.of_nat (length rs) * n) as Hconst.
  { intros n. clear. induction rs as [|o rs IH]; [done|]. change (n + sum (fun _ => n) rs = Z.of_nat (length (o :: rs)) * n). rewrite IH. cbn [length]. lia. }
  split; [|split; [|split; [done|]]].
  - change (active m) with (count Active m). rewrite Hc. change (contribution Active) with (fun _ : HTTPRequestObservation => 0). by rewrite Hconst, Z.mul_0_r.
  - change (total m) with (count Total m). rewrite Hc. change (contribution Total) with (fun _ : HTTPRequestObservation => 1). by rewrite Hconst, Z.mul_1_r.
  - cbn [fst snd] in *. apply Z.le_antisymm.
    + destruct Bm as [->|Hin]; [apply max_nonneg|by apply max_elem].
    + assert (0 <= maxDuration m) as H0.
      { destruct Bm as [->|Hin]; [done|]. apply list_elem_of_fmap in Hin as (o & -> & _). unfold duration_of. lia. }
      clear Bm B Hc Hconst Hs. revert Bc. generalize (duration_of <$> rs). intros l Bc. induction Bc as [|d ops l calls Hh _ IH]; [done|].
      apply Forall_cons in Hd as [-> Hd]. cbn. specialize (IH Hd). destruct Hh as [H|[H|[k H]]]; [lia|by apply not_elem_of_nil in H|by apply not_elem_of_nil in H].
Qed.

(** A schedule says which call makes each step. *)
Fixpoint run (schedule : list nat) (s : HTTPMetrics * list (list op)) : option (HTTPMetrics * list (list op)) :=
  match schedule with
  | [] => Some s
  | i :: schedule =>
      match s.2 !! i with
      | Some (x :: rest) => run schedule ((perform x rest s.1).1, <[i := (perform x rest s.1).2]> s.2)
      | _ => None
      end
  end.
Lemma run_steps schedule : forall s s', run schedule s = Some s' -> rtc step s s'.
Proof.
  induction schedule as [|i schedule IH]; intros [m calls] s'; cbn [run fst snd]; [intros [= ->]; apply rtc_refl|].
  destruct (calls !! i) as [[|x rest]|] eqn:E; [done| |done]. intros H. eapply rtc_l; [by apply Step|]. by apply IH.
Qed.
(** Two requests, whose updates of the maximum interleave: the first one's swap
    fails and its loop runs again. *)
Definition quick : HTTPRequestObservation := MkRequestObservation (MkStart "1" "POST" "") "rpc" "app.ping" "" 200 "" 10 5 OutcomeSuccess.
Definition slow : HTTPRequestObservation := MkRequestObservation (MkStart "2" "POST" "") "rpc" "app.list" "" 401 "unauthenticated" 10 9 OutcomeClientError.
Definition final : HTTPMetrics := MkMetrics 0 2 1 0 1 0 0 1 0 0 14 9.
Lemma metrics_add_up_witness :
  rtc step (NewHTTPMetrics, request <$> [quick; slow]) (final, [[]; []]) /\ active final = 0 /\ maxDuration final = 9.
Proof.
  assert (rtc step (NewHTTPMetrics, request <$> [quick; slow]) (final, [[]; []])) as H.
  { apply (run_steps [0; 0; 0; 0; 0; 0; 1; 1; 1; 1; 1; 1; 1; 1; 0; 0]%nat). vm_compute. reflexivity. }
  destruct (metrics_add_up [quick; slow] final [[]; []] H ltac:(repeat constructor)) as (Ha & _ & _ & Hm).
  split; [exact H|]. split; [exact Ha|]. rewrite Hm. vm_compute. reflexivity.
Defined.
