(* ===== verification/HttpTransfers.v ===== *)
(** * File transfers over HTTP: [backend/framework/file_transfer_http_handler.go]

    [FileTransferHTTPHandler] on a connection of [Http.v], whose world is the
    network beside the store and the disk of [FileTransfer.v].  What the JSON
    decoder makes of a body, package mime, the clock and the outcomes of system
    calls are parameters; [io.Copy] to the client is one write of what it
    read. *)
From S2P Require Import Prelude GoTime GoStrings Json Http FileTransfer.
Open Scope Z_scope.
Open Scope go_scope.

Definition StatusCreated := 201.
Definition StatusPartialContent := 206.
Definition StatusNotFound := 404.
Definition StatusConflict := 409.
Definition StatusRequestedRangeNotSatisfiable := 416.
Definition StatusUnprocessableEntity := 422.
Definition fileTransferTokenHeader : string := "X-Bridra-Token".

(** [strings.TrimSuffix] and [strings.HasSuffix] of one character. *)
Fixpoint without_last (c : ascii) (s : string) : option string :=
  match s with
  | EmptyString => None
  | String a EmptyString => if Ascii.eqb a c then Some EmptyString else None
  | String a r => String a <$> without_last c r
  end.
Definition TrimSuffix (c : ascii) (s : string) : string := default s (without_last c s).
Definition HasSuffix (c : ascii) (s : string) : bool := match without_last c s with Some _ => true | None => false end.

(** What the decoder, behind [http.MaxBytesReader], makes of the metadata. *)
Inductive upload_metadata :=
| InvalidMetadata
| TrailingMetadata
| Metadata (name mediaType : string) (size : Z) (sha256 : string).
Record TransferRequest := MkTransferRequest {
  tr_Method : string;
  tr_Header : Header;
  tr_Path : string;
  tr_metadata : upload_metadata;
  tr_Body : list copy_turn
}.
(** What a handler writes besides headers. *)
Inductive transfer_chunk := Message (m : string) | Status_ (st : FileUploadStatus) | Contents (bs : list Z).

(** The clock, the system calls of the store, how far the download can be read
    and what closing its file and removing it return. *)
Record surroundings := MkSurroundings {
  te_prune : Z;
  te_now : Z;
  te_release : Z;
  te_sys : syscalls;
  te_read : option (nat * goerror);
  te_close : option goerror;
  te_remove : option goerror
}.

Record FileTransferHTTPHandler := MkFileTransferHandler {
  th_Store : bool;
  th_AllowedOrigin : string;
  th_Token : string;
  th_Errors : bool
}.

(** A range: the offset it starts at, and whether there is one. *)
Definition parseFileRange (value : string) : goerror + Z * bool :=
  if String.eqb value "" then inr (0, false)
  else if negb (has_prefix "bytes=" value) || contains_char "," value || negb (HasSuffix "-" value) then inl ErrFileTransferOffset
  else match Atoi (TrimSuffix "-" (default value (cut_prefix "bytes=" value))) with
       | Some offset => if offset <? 0 then inl ErrFileTransferOffset else inr (offset, true)
       | None => inl ErrFileTransferOffset
       end.

(** [Format(time.RFC3339Nano)] in UTC. *)
Definition FormatRFC3339Nano (t : Z) : string :=
  pad 4 (Year UTC t) +:+ "-" +:+ pad 2 (Month UTC t) +:+ "-" +:+ pad 2 (Day UTC t) +:+ "T" +:+ pad 2 (ClockHour UTC t) +:+ ":" +:+
  pad 2 (ClockMinute UTC t) +:+ ":" +:+ pad 2 (ClockSecond UTC t) +:+ fraction (ClockNanosecond t) +:+ "Z".

Definition error_code (status : Z) : string :=
  if status =? StatusUnauthorized then "unauthenticated"
  else if status =? StatusForbidden then "origin_not_allowed"
  else if status =? StatusNotFound then "not_found"
  else if status =? StatusRequestEntityTooLarge then "payload_too_large"
  else "file_transfer_error".

(** The table of [writeTransferError]; [None]: its default, which logs. *)
Definition transfer_status (err : goerror) : option (Z * string) :=
  if errors_is err ErrFileTransferNotFound || errors_is err ErrFileTransferExpired then
    Some (StatusNotFound, "The upload is unavailable or has expired.")
  else if errors_is err ErrFileTransferOffset || errors_is err ErrFileTransferBusy || errors_is err ErrFileTransferIncomplete then
    Some (StatusConflict, "The upload offset or state does not match.")
  else if errors_is err ErrFileTransferTooLarge then
    Some (StatusRequestEntityTooLarge, "The upload exceeds its declared or configured size.")
  else if errors_is err ErrFileTransferChecksum then Some (StatusUnprocessableEntity, "The upload failed SHA-256 verification.")
  else if errors_is err ErrFileTransferInvalid then Some (StatusBadRequest, "The upload is invalid.")
  else None.
(** That of [writeDownloadError]. *)
Definition download_status (err : goerror) : option (Z * string) :=
  if errors_is err ErrFileTransferNotFound || errors_is err ErrFileTransferExpired then
    Some (StatusNotFound, "The file is unavailable or has expired.")
  else if errors_is err ErrFileTransferBusy then Some (StatusConflict, "The file is already being transferred.")
  else None.

Section HttpTransfers.
Context {V Net : Type}.
#[local] Abbreviation conn := (Http.conn V (Net * world) transfer_chunk).
#[local] Abbreviation chunk := (Http.chunk V transfer_chunk).
Variables (sha256 : list Z -> string) (normalizeMediaType : string -> option string).
Variables (ParseMediaType : string -> option string) (FormatDisposition : string -> string).
Variables (marshals : transfer_chunk -> option goerror) (net : transfer_chunk -> Net -> Net * (Z * option goerror)).
Variable ctx_err : Net -> option goerror.
Implicit Types c : conn.
Implicit Types h : FileTransferHTTPHandler.

Definition writes (x : chunk) (w : Net * world) : (Net * world) * (Z * option goerror) :=
  match x with
  | Other x => let '(n, answer) := net x w.1 in ((n, w.2), answer)
  | _ => (w, (0, None))
  end.
Definition marshals_ (x : chunk) : option goerror := match x with Other x => marshals x | _ => None end.
(** The store and the disk of a connection. *)
Definition store_of c : world := (app c).2.
Definition with_store (w : world) c : conn := with_app ((app c).1, w) c.
Definition context_done c : bool := match ctx_err (app c).1 with Some _ => true | None => false end.

Definition writeError h (status : Z) (message : string) c : conn :=
  let c := markHTTPObservationError (error_code status) c in
  match Encode marshals_ writes (Other (Message message)) (WriteHeader status (set_header "Content-Type" "application/json" c)) with
  | (c, Some err) => logf (th_Errors h) ("http file transfer: encode error: " +:+ error_text err) c
  | (c, None) => c
  end.
Definition writeUploadHeaders (st : FileUploadStatus) c : conn :=
  set_header "Upload-Complete" (if us_complete st then "true" else "false")
    (set_header "Upload-Expires-At" (FormatRFC3339Nano (ExpiresAt (us_reference st)))
      (set_header "Upload-Length" (Itoa (Size (us_reference st)))
        (set_header "Upload-Offset" (Itoa (us_offset st)) c))).
Definition writeUploadStatus h (code : Z) (st : FileUploadStatus) c : conn :=
  match Encode marshals_ writes (Other (Status_ st)) (WriteHeader code (set_header "Content-Type" "application/json" (writeUploadHeaders st c))) with
  | (c, Some err) => logf (th_Errors h) ("http file transfer: encode upload status: " +:+ error_text err) c
  | (c, None) => c
  end.
Definition writeTransferError h (err : goerror) (st : FileUploadStatus) c : conn :=
  let c := if String.eqb (ID (us_reference st)) "" then c else writeUploadHeaders st c in
  match transfer_status err with
  | Some (status, message) => writeError h status message c
  | None => writeError h StatusInternalServerError "The upload could not be stored."
              (logf (th_Errors h) ("http file transfer: upload: " +:+ error_text err) c)
  end.
Definition writeDownloadError h (err : goerror) c : conn :=
  match download_status err with
  | Some (status, message) => writeError h status message c
  | None => writeError h StatusInternalServerError "The file could not be opened."
              (logf (th_Errors h) ("http file transfer: open: " +:+ error_text err) c)
  end.

Definition allowFileTransferOrigin (r : TransferRequest) (allowedOrigin : string) c : conn * bool :=
  let origin := Get "Origin" (tr_Header r) in
  if String.eqb origin "" then (c, true)
  else
    let c := add_header "Vary" "Origin" c in
    let allow origin c :=
      (set_header "Access-Control-Expose-Headers"
        "Accept-Ranges, Content-Range, Upload-Complete, Upload-Expires-At, Upload-Length, Upload-Offset, X-Request-ID"
        (set_header "Access-Control-Allow-Methods" "GET, HEAD, POST, PATCH, OPTIONS"
          (set_header "Access-Control-Allow-Headers" "Content-Type, Range, Upload-Offset, X-Bridra-Token"
            (set_header "Access-Control-Allow-Origin" origin c))), true) in
    if String.eqb allowedOrigin "*" then allow "*" c
    else if String.eqb allowedOrigin origin then allow origin c else (c, false).
Definition authenticated h (r : TransferRequest) : bool :=
  String.eqb (th_Token h) "" || String.eqb (Get fileTransferTokenHeader (tr_Header r)) (th_Token h).
Definition is_media (r : TransferRequest) (mediaType : string) : bool :=
  match ParseMediaType (Get "Content-Type" (tr_Header r)) with Some t => String.eqb t mediaType | None => false end.

(** A panic of [crypto/rand] goes on to the server: the second value. *)
Definition serveUploadCreation (e : surroundings) h (r : TransferRequest) c : conn * option string :=
  if negb (String.eqb (tr_Method r) "POST") then
    (writeError h StatusMethodNotAllowed "Use POST to create a file upload." (set_header "Allow" "POST, OPTIONS" c), None)
  else if negb (authenticated h r) then (writeError h StatusUnauthorized "The upload token is invalid." c, None)
  else if negb (is_media r "application/json") then
    (writeError h StatusUnsupportedMediaType "Content-Type must be application/json." c, None)
  else
    match tr_metadata r with
    | InvalidMetadata => (writeError h StatusBadRequest "The upload metadata is invalid." c, None)
    | TrailingMetadata => (writeError h StatusBadRequest "The upload metadata must contain one JSON object." c, None)
    | Metadata name mediaType size sum =>
        let '(w, answer) := BeginUpload normalizeMediaType (te_prune e) (te_now e) (te_sys e) name mediaType size sum (store_of c) in
        let c := with_store w c in
        match answer with
        | Err err => (writeTransferError h err zero_status c, None)
        | Panicked m => (c, Some m)
        | Ok st => (writeUploadStatus h StatusCreated st c, None)
        end
    end.

Definition serveUploadStatus (e : surroundings) h (id : string) c : conn * option string :=
  let '(w, answer) := UploadStatus (te_now e) id (store_of c) in
  let c := with_store w c in
  match answer with
  | Err err => (writeTransferError h err zero_status c, None)
  | Panicked m => (c, Some m)
  | Ok st => (WriteHeader StatusNoContent (writeUploadHeaders st c), None)
  end.

Definition serveUploadAppend (e : surroundings) h (r : TransferRequest) (id : string) c : conn * option string :=
  if negb (is_media r "application/offset+octet-stream") then
    (writeError h StatusUnsupportedMediaType "Content-Type must be application/offset+octet-stream." c, None)
  else
    let refused := (writeError h StatusBadRequest "Upload-Offset must be a non-negative integer." c, None) in
    match Atoi (Get "Upload-Offset" (tr_Header r)) with
    | None => refused
    | Some offset =>
        if offset <? 0 then refused
        else
          let '(w, (st, err)) := AppendUpload sha256 (te_now e) (te_release e) (te_sys e) Background true id offset (tr_Body r) (store_of c) in
          let c := with_store w c in
          match err with
          | Some err => (if context_done c then c else writeTransferError h err st c, None)
          | None => (writeUploadStatus h StatusOK st c, None)
          end
    end.

(** [io.Copy] from the download to the client. *)
Definition send (e : surroundings) (dl : FileDownload) c : conn * option goerror :=
  let all := download_bytes (files (store_of c)) dl in
  let bs := match te_read e with Some (n, _) => take n all | None => all end in
  let '(c, written) := match bs with [] => (c, None) | _ => Write writes (Other (Contents bs)) c end in
  (c, match written with Some err => Some err | None => snd <$> te_read e end).
Definition log_error h (what : string) (err : option goerror) c : conn :=
  match err with Some err => logf (th_Errors h) ("http file transfer: " +:+ what +:+ ": " +:+ error_text err) c | None => c end.
(** The deferred call of [Close]: after [Commit] it returns what that did. *)
Definition close_download (e : surroundings) h (dl : FileDownload) c : conn :=
  let '(w, err) := FileDownload_Close (te_close e) (te_remove e) dl (store_of c) in
  log_error h "close" err (with_store w c).
Definition commit_download (e : surroundings) h (dl : FileDownload) c : conn :=
  let '(w, err) := Commit (te_close e) (te_remove e) dl (store_of c) in
  log_error h "close" err (log_error h "commit" err (with_store w c)).

Definition download_headers (dl : FileDownload) (offset : Z) (ranged : bool) c : conn :=
  let r := dl_reference dl in
  let c := set_header "Accept-Ranges" "bytes" c in
  let c := set_header "Content-Disposition" (FormatDisposition (Name r)) c in
  let c := set_header "Content-Length" (Itoa (wrap64 (Size r - offset))) c in
  let c := set_header "Content-Type" (MediaType r) c in
  let c := set_header "ETag" (quote +:+ SHA256 r +:+ quote) c in
  if ranged then set_header "Content-Range" ("bytes " +:+ Itoa offset +:+ "-" +:+ Itoa (wrap64 (Size r - 1)) +:+ "/" +:+ Itoa (Size r)) c else c.
Definition invalid_range h c : conn := writeError h StatusRequestedRangeNotSatisfiable "The requested file range is invalid." c.
Definition serveDownload (e : surroundings) h (r : TransferRequest) (id : string) c : conn * option string :=
  match parseFileRange (Get "Range" (tr_Header r)) with
  | inl _ => (invalid_range h c, None)
  | inr (offset, ranged) =>
      let '(w, answer) := OpenDownload (te_now e) (te_sys e) id offset (store_of c) in
      let c := with_store w c in
      match answer with
      | Err err => (if errors_is err ErrFileTransferOffset then invalid_range h c else writeDownloadError h err c, None)
      | Panicked m => (c, Some m)
      | Ok dl =>
          if ranged && (Size (dl_reference dl) <=? offset) then
            let c := set_header "Content-Range" ("bytes */" +:+ Itoa (Size (dl_reference dl))) c in
            (close_download e h dl (invalid_range h c), None)
          else
            let c := WriteHeader (if ranged then StatusPartialContent else StatusOK) (download_headers dl offset ranged c) in
            match send e dl c with
            | (c, Some err) => (close_download e h dl (if context_done c then c else log_error h "stream" (Some err) c), None)
            | (c, None) => (commit_download e h dl c, None)
            end
      end
  end.

Definition ServeTransfer (e : surroundings) h (r : TransferRequest) c : conn * option string :=
  let c := markHTTPObservationSurface "file_transfer" c in
  let c := set_header "X-Content-Type-Options" "nosniff" (set_header "Cache-Control" "no-store" c) in
  if negb (th_Store h) then (writeError h StatusInternalServerError "The file transfer store is not configured." c, None)
  else
    let '(c, allowed) := allowFileTransferOrigin r (th_AllowedOrigin h) c in
    if negb allowed then (writeError h StatusForbidden "The request origin is not allowed." c, None)
    else if String.eqb (tr_Method r) "OPTIONS" then (WriteHeader StatusNoContent c, None)
    else
      let id := Base (TrimSuffix "/" (tr_Path r)) in
      if String.eqb id "files" then serveUploadCreation e h r c
      else if String.eqb (tr_Method r) "GET" then serveDownload e h r id c
      else if String.eqb (tr_Method r) "HEAD" then serveUploadStatus e h id c
      else if String.eqb (tr_Method r) "PATCH" then serveUploadAppend e h r id c
      else (writeError h StatusMethodNotAllowed "Use GET for downloads or HEAD/PATCH for uploads."
              (set_header "Allow" "GET, HEAD, PATCH, OPTIONS" c), None).
End HttpTransfers.

(** ** What a download does to the file it delivers *)

Lemma without_last_app ch s : without_last ch (s +:+ String ch EmptyString) = Some s.
Proof.
  induction s as [|a s IH]; [change (without_last ch (String ch EmptyString) = Some EmptyString); cbn [without_last]; by rewrite Ascii.eqb_refl|].
  change (String a s +:+ String ch EmptyString) with (String a (s +:+ String ch EmptyString)). cbn [without_last]. rewrite IH. by destruct s.
Qed.
Lemma contains_char_app ch s t : contains_char ch (s +:+ t) = contains_char ch s || contains_char ch t.
Proof.
  induction s as [|a s IH]; [done|]. change (String a s +:+ t) with (String a (s +:+ t)). cbn [contains_char]. by rewrite IH, orb_assoc.
Qed.
Lemma parse_digits_only ch : digit_value ch = None -> forall s acc n, parse_digits acc s = Some n -> contains_char ch s = false.
Proof.
  intros Hc s. induction s as [|a s IH]; [done|]. intros acc n. cbn [parse_digits contains_char].
  destruct (Ascii.eqb_spec ch a) as [<-|]; [by rewrite Hc|]. destruct (digit_value a); [apply IH|done].
Qed.
Lemma parseFileRange_from n : 0 <= n <= int64_max -> parseFileRange ("bytes=" +:+ Itoa n +:+ "-") = inr (n, true).
Proof.
  intros Hn. unfold parseFileRange. set (rest := Itoa n +:+ "-").
  change (String.eqb ("bytes=" +:+ rest) "") with false. change (has_prefix "bytes=" ("bytes=" +:+ rest)) with true.
  change (cut_prefix "bytes=" ("bytes=" +:+ rest)) with (Some rest). cbn [negb orb from_option id].
  assert (contains_char "," ("bytes=" +:+ rest) = false) as ->.
  { rewrite contains_char_app. unfold rest. rewrite contains_char_app. unfold Itoa.
    destruct (Z.ltb_spec n 0); [lia|]. by rewrite (parse_digits_only "," eq_refl _ _ _ (parse_digits_FormatUint n ltac:(lia))). }
  assert (HasSuffix "-" ("bytes=" +:+ rest) = true) as ->.
  { unfold HasSuffix. change ("bytes=" +:+ rest) with (("bytes=" +:+ Itoa n) +:+ "-"). by rewrite without_last_app. }
  unfold TrimSuffix, rest. rewrite without_last_app. cbn [negb orb from_option id]. rewrite Atoi_Itoa by (unfold in_int64, int64_min; lia).
  by destruct (Z.ltb_spec n 0); [lia|].
Qed.

(** A file that waits to be downloaded, and one that is no more. *)
Record staged (w : world) (id : string) (en : fileTransferEntry) (ino : nat) (bs : list Z) : Prop := Staged {
  sg_open : closed (store w) = false;
  sg_id : validFileTransferID id = true;
  sg_entry : entries (store w) !! id = Some en;
  sg_state : upload en = false /\ complete en = true /\ busy en = false;
  sg_file : names (files w) !! path en = Some ino /\ inodes (files w) !! ino = Some bs;
  sg_size : Size (reference en) = Z.of_nat (length bs) /\ Z.of_nat (length bs) <= int64_max
}.
(** Its entry is gone, and so is the file unless it could not be removed. *)
Definition consumed (w : world) (id p : string) (ino : nat) (removing : option goerror) : Prop :=
  entries (store w) !! id = None /\ names (files w) !! p = (match removing with None => None | Some _ => Some ino end).

Definition opened (w : world) (id : string) (en : fileTransferEntry) : world :=
  World (with_entries (with_active (store w) (S (active (store w)))) (<[id := with_busy en true]> (entries (store w)))) (files w).
Lemma OpenDownload_staged w id en ino bs t sys off : staged w id en ino bs -> Before t (ExpiresAt (reference en)) = true ->
  open_fault sys = None -> seek_fault sys = None -> 0 <= off <= Z.of_nat (length bs) ->
  OpenDownload t sys id off w = (opened w id en, Ok (opened_download en id ino off)).
Proof.
  intros [Ho Hv He (Hu & Hc & Hb) [Hn Hi] [Hs _]] Ht Hopen Hseek Hoff. unfold OpenDownload. rewrite Hv. cbn [negb orb].
  destruct (Z.ltb_spec off 0); [lia|]. unfold begin. rewrite Ho. unfold OpenDownload_locked. cbn [with_active closed entries].
  rewrite Ho, He, Hu, Hc, Ht, Hb. cbn [negb orb]. rewrite Hs. destruct (Z.ltb_spec (Z.of_nat (length bs)) off); [lia|].
  cbn [files]. unfold os_open, fs_open. by rewrite Hopen, Hn, Hseek.
Qed.
Lemma Close_staged closing removing w id en ino bs off : staged w id en ino bs ->
  let w' := (FileDownload_Close closing removing (opened_download en id ino off) (opened w id en)).1 in
  staged w' id en ino bs /\ active (store w') = active (store w).
Proof.
  intros [Ho Hv He (Hu & Hc & Hb) Hf Hs]. unfold FileDownload_Close. cbn [opened_download dl_store dl_id dl_path dl_consume opened store files].
  unfold finishDownload_locked. cbn [with_entries entries]. rewrite lookup_insert_eq. cbn [with_busy path]. rewrite String.eqb_refl. cbn [negb].
  split; [|cbn; lia]. split; cbn; try done; [|by repeat split..]. rewrite lookup_insert_eq. destruct en. cbn in *. by subst.
Qed.
(** [Commit] of the download of a staged file. *)
Lemma Commit_consumed closing removing w id en ino bs off : staged w id en ino bs ->
  let '(w', err) := Commit closing removing (opened_download en id ino off) (opened w id en) in
  consumed w' id (path en) ino removing /\ active (store w') = active (store w) /\ err = errors_Join [closing; removing].
Proof.
  intros [Ho Hv He (Hu & Hc & Hb) [Hn Hi] Hs]. unfold Commit, FileDownload_Close, consumed.
  cbn [opened_download dl_store dl_id dl_path dl_consume opened store files]. unfold remove_present. rewrite Hn.
  unfold finishDownload_locked. cbn [with_entries entries]. rewrite lookup_insert_eq. cbn [with_busy path]. rewrite String.eqb_refl. cbn [negb].
  destruct removing; cbn; rewrite !lookup_delete_eq; (split; [done|]); by split; [lia|].
Qed.

#[local] Create HintDb transfers.
Section Facts.
Context {V Net : Type}.
#[local] Abbreviation conn := (Http.conn V (Net * world) transfer_chunk).
Variables (sha256 : list Z -> string) (normalizeMediaType : string -> option string).
Variables (ParseMediaType : string -> option string) (FormatDisposition : string -> string).
Variables (marshals : transfer_chunk -> option goerror) (net : transfer_chunk -> Net -> Net * (Z * option goerror)).
Variable ctx_err : Net -> option goerror.
Implicit Types c : conn.

(** Headers and the observation apart, nothing happened yet. *)
Definition untouched c c' : Prop := app c' = app c /\ statusCode c' = statusCode c /\ body c' = body c.
Lemma untouched_trans c1 c2 c3 : untouched c1 c2 -> untouched c2 c3 -> untouched c1 c3.
Proof. intros (? & ? & ?) (? & ? & ?). repeat split; congruence. Qed.
Lemma set_header_untouched c name value : untouched c (set_header name value c).
Proof. by repeat split. Qed.
Lemma add_header_untouched c name value : untouched c (add_header name value c).
Proof. by repeat split. Qed.
Lemma mark_untouched c s : untouched c (markHTTPObservationSurface s c).
Proof. by repeat split. Qed.
#[local] Hint Resolve set_header_untouched add_header_untouched mark_untouched untouched_trans : transfers.

Definition let_in (h : FileTransferHTTPHandler) (r : TransferRequest) : Prop :=
  Get "Origin" (tr_Header r) = "" \/ th_AllowedOrigin h = "*" \/ th_AllowedOrigin h = Get "Origin" (tr_Header r).
Lemma let_in_allowed h r c : let_in h r -> exists c', allowFileTransferOrigin r (th_AllowedOrigin h) c = (c', true) /\ untouched c c'.
Proof.
  unfold let_in, allowFileTransferOrigin. intros H. destruct (String.eqb_spec (Get "Origin" (tr_Header r)) ""); [by exists c|].
  destruct (String.eqb_spec (th_AllowedOrigin h) "*"); [eexists; split; [reflexivity|by repeat split]|].
  destruct H as [|[|H]]; [done..|]. rewrite H, String.eqb_refl. eexists. split; [reflexivity|by repeat split].
Qed.

(** The request asks for the file from an offset on, or for all of it. *)
Definition asks_from (r : TransferRequest) (off : Z) (ranged : bool) : Prop :=
  if ranged then Get "Range" (tr_Header r) = "bytes=" +:+ Itoa off +:+ "-" else Get "Range" (tr_Header r) = "" /\ off = 0.
Lemma asks_parse r off ranged : asks_from r off ranged -> 0 <= off <= int64_max -> parseFileRange (Get "Range" (tr_Header r)) = inr (off, ranged).
Proof. destruct ranged; cbn [asks_from]; [intros -> ?; by apply parseFileRange_from|intros [-> ->] _; done]. Qed.

Definition serve := ServeTransfer (V := V) (Net := Net) sha256 normalizeMediaType ParseMediaType FormatDisposition marshals net ctx_err.
Lemma serve_download e h r c id : th_Store h = true -> let_in h r -> tr_Method r = "GET" -> Base (TrimSuffix "/" (tr_Path r)) = id ->
  validFileTransferID id = true -> exists c', untouched c c' /\ serve e h r c = serveDownload FormatDisposition marshals net ctx_err e h r id c'.
Proof.
  intros Hs Hl Hm Hp Hv. unfold serve, ServeTransfer. rewrite Hs. cbn [negb].
  match goal with |- context [allowFileTransferOrigin r _ ?c0] => destruct (let_in_allowed h r c0 Hl) as (c' & -> & Hc) end.
  exists c'. split; [by eauto with transfers|]. cbn [negb]. rewrite Hm, Hp.
  destruct (String.eqb_spec id "files") as [->|]; [done|]. done.
Qed.

(** [send] and the call of [Close] or [Commit] after it. *)
Lemma send_spec e dl c bs : download_bytes (files (store_of c)) dl = bs -> bs <> [] -> exists (c' : conn) (err : option goerror),
  send net e dl c = (c', err) /\ store_of c' = store_of c /\
  (forall s, statusCode c = Some s -> statusCode c' = Some s /\ sent_headers c' = sent_headers c) /\
  match te_read e, (net (Contents bs) (app c).1).2.2 with
  | None, None => err = None /\ body c' = body c ++ [Other (Contents bs)]
  | _, _ => err <> None
  end.
Proof.
  intros Hbs Hne. unfold send. rewrite Hbs.
  assert (forall x, x <> [] -> exists c', Write (writes net) (Other (Contents x)) c = (c', (net (Contents x) (app c).1).2.2) /\
    store_of c' = store_of c /\ (forall s, statusCode c = Some s -> statusCode c' = Some s /\ sent_headers c' = sent_headers c) /\
    body c' = body c ++ [Other (Contents x)]) as HW.
  { intros x _. unfold Write, WriteHeader. destruct (statusCode c) eqn:Es; cbn [app writes];
      destruct (net (Contents x) (app c).1) as [n [k err]] eqn:En; eexists; (split; [reflexivity|]); cbn; repeat split; congruence. }
  destruct (te_read e) as [[k ferr]|].
  - destruct (take k bs) as [|b l] eqn:Et.
    + exists c, (Some ferr). split; [done|]. split; [done|]. split; [by intros|done].
    + destruct (HW (b :: l) ltac:(done)) as (c' & -> & Ha & Hh & _). eexists c', _. split; [reflexivity|]. split; [done|]. split; [done|].
      cbn [fmap option_fmap option_map snd]. by destruct ((net (Contents (b :: l)) (app c).1).2.2).
  - destruct bs as [|b l]; [done|]. destruct (HW (b :: l) ltac:(done)) as (c' & -> & Ha & Hh & Hb). eexists c', _. split; [reflexivity|].
    split; [done|]. split; [done|]. by destruct ((net (Contents (b :: l)) (app c).1).2.2).
Qed.

(** [c'] has sent what [c] has, and its store is [w]. *)
Definition left_with c (w : world) c' : Prop :=
  store_of c' = w /\ statusCode c' = statusCode c /\ sent_headers c' = sent_headers c /\ body c' = body c.
Lemma log_error_left h what err c w c0 : left_with c0 w c -> left_with c0 w (log_error h what err c).
Proof. destruct err; [|done]. cbn [log_error]. unfold logf. by destruct (th_Errors h). Qed.
Lemma close_left e h dl c : left_with c (FileDownload_Close (te_close e) (te_remove e) dl (store_of c)).1 (close_download e h dl c).
Proof. unfold close_download. destruct (FileDownload_Close _ _ _ _). apply log_error_left. by repeat split. Qed.
Lemma commit_left e h dl c : left_with c (Commit (te_close e) (te_remove e) dl (store_of c)).1 (commit_download e h dl c).
Proof. unfold commit_download. destruct (Commit _ _ _ _). do 2 apply log_error_left. by repeat split. Qed.
(** An error of [Commit] is logged. *)
Definition logs_commit h (err : option goerror) c : Prop :=
  th_Errors h = true -> match err with Some err => ("http file transfer: commit: " +:+ error_text err) ∈ log c | None => True end.
Lemma commit_logs e h dl c : logs_commit h (Commit (te_close e) (te_remove e) dl (store_of c)).2 (commit_download e h dl c).
Proof.
  unfold logs_commit, commit_download. intros He. destruct (Commit _ _ _ _) as [w [err|]]; [|done]. cbn [log_error snd]. unfold logf. rewrite He.
  cbn. set_solver.
Qed.

(** The headers of a response with the file from [off] on. *)
Definition delivers (r : FileReference) (off : Z) (ranged : bool) (sent : Header) : Prop :=
  Get "Content-Length" sent = Itoa (Size r - off) /\ Get "Content-Type" sent = MediaType r /\ Get "ETag" sent = quote +:+ SHA256 r +:+ quote /\
  (ranged = true -> Get "Content-Range" sent = "bytes " +:+ Itoa off +:+ "-" +:+ Itoa (Size r - 1) +:+ "/" +:+ Itoa (Size r)).
Lemma download_headers_spec dl off ranged c : 0 <= off < Size (dl_reference dl) -> Size (dl_reference dl) <= int64_max ->
  untouched c (download_headers FormatDisposition dl off ranged c) /\
  delivers (dl_reference dl) off ranged (headers (download_headers FormatDisposition dl off ranged c)).
Proof.
  intros Hoff Hs. unfold int64_max in Hs. split; [by destruct ranged|]. unfold download_headers, delivers.
  rewrite !wrap64_id by (unfold in_int64, int64_min, int64_max; lia).
  destruct ranged; (split; [|split; [|split]]); try done; try (intros _); unfold Get; cbn [set_header with_headers headers Set_]; unfold Set_;
    by simplify_map_eq.
Qed.

(** What becomes of the response and of the file. *)
Definition delivered e h c (off : Z) (ranged : bool) id en ino bs c' : Prop :=
  statusCode c' = Some (if ranged then StatusPartialContent else StatusOK) /\
  delivers (reference en) off ranged (sent_headers c') /\ active (store (store_of c')) = active (store (store_of c)) /\
  let rest := drop (Z.to_nat off) bs in
  match te_read e, (net (Contents rest) (app c).1).2.2 with
  | None, None => body c' = body c ++ [Other (Contents rest)] /\ consumed (store_of c') id (path en) ino (te_remove e) /\
      logs_commit h (errors_Join [te_close e; te_remove e]) c'
  | _, _ => staged (store_of c') id en ino bs
  end.
Lemma serveDownload_staged e h r c id en ino bs off ranged : asks_from r off ranged ->
  staged (store_of c) id en ino bs -> Before (te_now e) (ExpiresAt (reference en)) = true ->
  open_fault (te_sys e) = None -> seek_fault (te_sys e) = None -> 0 <= off < Z.of_nat (length bs) -> statusCode c = None ->
  exists c', serveDownload FormatDisposition marshals net ctx_err e h r id c = (c', None) /\ delivered e h c off ranged id en ino bs c'.
Proof.
  intros Hr Hg Ht Ho Hk Hoff Hst. pose proof (sg_size _ _ _ _ _ Hg) as [Hz Hmax].
  unfold serveDownload. rewrite (asks_parse _ _ _ Hr) by lia. unfold delivered, store_of in Hg |- *.
  rewrite (OpenDownload_staged _ _ _ _ _ _ _ _ Hg Ht Ho Hk) by lia. set (dl := opened_download en id ino off).
  change (Size (dl_reference dl)) with (Size (reference en)). destruct (Z.leb_spec (Size (reference en)) off); [lia|]. rewrite andb_false_r.
  set (c2 := with_store _ c). destruct (download_headers_spec dl off ranged c2) as [(Ha3 & Hs3 & Hb3) Hh];
    [change (Size (dl_reference dl)) with (Size (reference en)); lia..|].
  set (c3 := download_headers _ dl off ranged c2) in *. set (status := if ranged then _ else _). set (c4 := WriteHeader status c3).
  assert (c4 = MkConn (headers c3) (Some status) (headers c3) (body c3) (observed c3) (responseBytes c3) (log c3) (app c3)) as Hc4.
  { unfold c4, WriteHeader. rewrite Hs3. unfold c2. cbn [with_store with_app statusCode]. by rewrite Hst. }
  assert (app c4 = ((app c).1, opened (app c).2 id en)) as Ha4 by (by rewrite Hc4; cbn [app]; rewrite Ha3).
  destruct (sg_file _ _ _ _ _ Hg) as [_ Hi].
  destruct (send_spec e dl c4 (drop (Z.to_nat off) bs)) as (c5 & err & -> & Hw5 & Hh5 & Hend).
  { unfold store_of. rewrite Ha4. unfold download_bytes, contents. cbn [dl opened_download dl_position dl_inode opened files snd]. by rewrite Hi. }
  { intros E. apply (f_equal length) in E. rewrite length_drop in E. cbn in E. lia. }
  destruct (Hh5 status ltac:(by rewrite Hc4)) as [Hs5 Hsent]. rewrite Hc4 in Hsent. cbn [sent_headers] in Hsent.
  unfold store_of in Hw5. rewrite Ha4 in Hw5, Hend. cbn [fst snd] in Hw5, Hend.
  assert (body c4 = body c) as Hb4 by (by rewrite Hc4).
  assert (forall c' w, left_with c5 w c' -> statusCode c' = Some status /\ delivers (reference en) off ranged (sent_headers c')) as Hout.
  { intros c' w (_ & -> & -> & _). by rewrite Hs5, Hsent. }
  destruct err as [err|].
  - pose proof (Close_staged (te_close e) (te_remove e) (app c).2 id en ino bs off Hg) as [Hback Hact].
    set (c6 := if context_done ctx_err c5 then c5 else _). assert (left_with c5 (app c5).2 c6) as H6.
    { unfold c6. destruct (context_done ctx_err c5); [done|]. by apply log_error_left. }
    assert (left_with c5 (FileDownload_Close (te_close e) (te_remove e) dl (app c5).2).1 (close_download e h dl c6)) as H7.
    { destruct H6 as (<- & H10 & H11 & H12), (close_left e h dl c6) as (Hw & H7 & H8 & H9). repeat split; congruence. }
    destruct (Hout _ _ H7) as [Hst' Hd']. destruct H7 as (Hw & _). unfold store_of in Hw. rewrite Hw5 in Hw.
    eexists. split; [reflexivity|]. split; [done|]. split; [done|]. rewrite Hw. split; [done|]. cbn zeta.
    destruct (te_read e) as [[]|]; [done|]. destruct ((net _ _).2.2); [done|]. by destruct Hend.
  - pose proof (Commit_consumed (te_close e) (te_remove e) (app c).2 id en ino bs off Hg) as Hcom. pose proof (commit_left e h dl c5) as H7.
    pose proof (commit_logs e h dl c5) as H8. unfold store_of in H7, H8. rewrite Hw5 in H7, H8. fold dl in Hcom.
    destruct (Commit _ _ dl (opened (app c).2 id en)) as [w' cerr]. destruct Hcom as (Hgone & Hact & ->).
    destruct (Hout _ _ H7) as [Hst' Hd']. destruct H7 as (Hw & _ & _ & Hb7). unfold store_of in Hw. cbn [fst] in Hw.
    eexists. split; [reflexivity|]. split; [done|]. split; [done|]. rewrite Hw. split; [done|]. cbn zeta.
    destruct (te_read e) as [[]|]; [done|]. destruct ((net _ _).2.2); [done|]. destruct Hend as [_ Hb5]. split; [by rewrite Hb7, Hb5, Hb4|done].
Qed.

(** C36. A staged file goes out whole or stays: the answer to a request for
    the file from an offset on, by a range or from the start, announces the
    rest of the file.  If the disk and the network let it, exactly the bytes
    from that offset on are written, and then the entry is gone, and the file
    too; only if the system cannot remove it, it stays on the disk without an
    entry, and the error is logged, as is one of closing the file.  If reading
    or writing fails, at whatever point, the file stays staged and not busy, so
    that the client can ask for the rest.  The store waits for no transfer
    that is over. *)
Theorem download_is_consumed_when_delivered e h r c id en ino bs off ranged :
  th_Store h = true -> let_in h r -> tr_Method r = "GET" -> Base (TrimSuffix "/" (tr_Path r)) = id -> asks_from r off ranged ->
  staged (store_of c) id en ino bs -> Before (te_now e) (ExpiresAt (reference en)) = true ->
  open_fault (te_sys e) = None -> seek_fault (te_sys e) = None -> 0 <= off < Z.of_nat (length bs) -> statusCode c = None ->
  exists c', serve e h r c = (c', None) /\ delivered e h c off ranged id en ino bs c'.
Proof.
  intros Hs Hl Hm Hp Hr Hg Ht Ho Hk Hoff Hst.
  destruct (serve_download e h r c id Hs Hl Hm Hp (sg_id _ _ _ _ _ Hg)) as (c1 & (Ha1 & Hs1 & Hb1) & ->).
  destruct (serveDownload_staged e h r c1 id en ino bs off ranged) as (c' & -> & Hd); try done.
  { unfold store_of in *. by rewrite Ha1. }
  { by rewrite Hs1. }
  exists c'. split; [done|]. unfold delivered, store_of in *. by rewrite Ha1, Hb1 in Hd.
Qed.
End Facts.

Definition example_id : string := hex_encode (repeat 171 32).
Definition example_entry : fileTransferEntry :=
  staged_entry (MkFileReference example_id "a.txt" "text/plain" 3 (hex_encode (repeat 6 32)) 100 "") ("/files/" +:+ example_id).
Definition example_world : world :=
  World (MkFileTransferStore "/files" false 100 10 false 0 {[example_id := example_entry]} false)
    (FS {[("/files/" +:+ example_id)%string := 0%nat]} {[0%nat := [1; 2; 3]]} 1).
Definition example_conn : Http.conn unit (unit * world) transfer_chunk := MkConn ∅ None ∅ [] None 0 [] (tt, example_world).
Definition example_request : TransferRequest :=
  MkTransferRequest "GET" {["Range" := ["bytes=1-"]]} ("/files/" +:+ example_id +:+ "/") InvalidMetadata [].
Definition example_surroundings : surroundings := MkSurroundings 0 50 50 (working []) None None None.
Definition example_handler : FileTransferHTTPHandler := MkFileTransferHandler true "" "" false.
Definition example_serve := serve (V := unit) (Net := unit) (fun _ => EmptyString) Some Some id (fun _ => None) (fun _ n => (n, (2, None))) (fun _ => None).
Lemma download_is_consumed_when_delivered_witness :
  exists c', example_serve example_surroundings example_handler example_request example_conn = (c', None) /\
    delivered (fun _ n => (n, (2, None))) example_surroundings example_handler example_conn 1 true example_id example_entry 0 [1; 2; 3] c'.
Proof.
  apply (download_is_consumed_when_delivered (V := unit) (Net := unit) (fun _ => EmptyString) Some Some id (fun _ => None)
    (fun _ n => (n, (2, None))) (fun _ => None) example_surroundings example_handler example_request example_conn example_id example_entry 0 [1; 2; 3] 1 true);
    try (vm_compute; reflexivity).
  - left. vm_compute. reflexivity.
  - split; try split; try split; vm_compute; try reflexivity; discriminate.
  - split; vm_compute; [discriminate|reflexivity].
Defined.
