(* ===== verification/EmbeddedRuntime.v ===== *)
(** * The embedded runtime: [backend/framework/embedded_runtime.go]

    The operations under the mutex are functions on the runtime; the goroutines
    that call it, produce its streams and close it are a transition system over
    them, a step being what one goroutine does between two synchronisations, or
    the hand-over of a frame from one to another.  A context is known by its
    number, a stream by its index.  What the router answers and the frames it
    produces are parameters: [Dispatch] and [DispatchStream] themselves are in
    [Router.v] and [StreamDispatch.v].  The runtime is not nil. *)
From S2P Require Import Prelude GoStrings Stream Router.
Open Scope Z_scope.
Open Scope go_scope.

Definition ErrEmbeddedRuntimeInvalid := ErrNew "framework: embedded runtime is invalid".
Definition ErrEmbeddedRuntimeClosed := ErrNew "framework: embedded runtime is closed".
Definition ErrEmbeddedRuntimeContextUnavailable := ErrNew "framework: embedded runtime context is unavailable".
Definition ErrEmbeddedRuntimeInvalidJSON := ErrNew "framework: embedded runtime request is not valid JSON".
Definition ErrEmbeddedRuntimeRequestTooLarge := ErrNew "framework: embedded runtime request is too large".
Definition ErrEmbeddedRuntimeDuplicateRequest := ErrNew "framework: embedded runtime request id is already active".
Definition ErrEmbeddedRuntimeStreamingUnsupported := ErrNew "framework: embedded runtime streaming requires the streaming API".
Definition ErrEmbeddedRuntimeStreamingRequired := ErrNew "framework: embedded runtime streaming request metadata is required".
Definition ErrEmbeddedRuntimeStreamIDRequired := ErrNew "framework: embedded runtime streaming request id is required".
Definition context_Canceled := ErrNew "context canceled".
Definition defaultEmbeddedRuntimeShutdownTimeout : Z := 5 * 1000000000.

Inductive embeddedRuntimeState := Open | Closing | Closed.
#[export] Instance embeddedRuntimeState_dec : EqDecision embeddedRuntimeState.
Proof. solve_decision. Defined.

(** [causes]: by number, why a request's context was cancelled, if it was. *)
Record EmbeddedRuntime := MkRuntime {
  shutdownTimeout : Z;
  rootCause : option goerror;
  causes : list (option goerror);
  state : embeddedRuntimeState;
  active : nat;
  requests : gmap string nat;
  closeDone : bool;
  closeErr : option goerror
}.
Definition NewEmbeddedRuntimeWithOptions (has_router has_shutdown : bool) (ShutdownTimeout : Z) : result EmbeddedRuntime :=
  if negb has_router || negb has_shutdown then Err ErrEmbeddedRuntimeInvalid
  else
    let t := if ShutdownTimeout =? 0 then defaultEmbeddedRuntimeShutdownTimeout else ShutdownTimeout in
    if t <? 0 then Err ErrEmbeddedRuntimeInvalid else Ok (MkRuntime t None [] Open 0 ∅ false None).

(** The first cancellation of a context is its cause; that of the root is one
    of all its children. *)
Definition cancelled (err : option goerror) (cause : option goerror) : option goerror :=
  match cause with Some e => Some e | None => Some (default context_Canceled err) end.
Definition cancelContext (ctx : nat) (err : option goerror) (rt : EmbeddedRuntime) : EmbeddedRuntime :=
  MkRuntime (shutdownTimeout rt) (rootCause rt) (alter (cancelled err) ctx (causes rt)) (state rt) (active rt) (requests rt) (closeDone rt) (closeErr rt).
Definition cancelRoot (err : goerror) (rt : EmbeddedRuntime) : EmbeddedRuntime :=
  MkRuntime (shutdownTimeout rt) (cancelled (Some err) (rootCause rt)) (cancelled (Some err) <$> causes rt) (state rt) (active rt) (requests rt)
    (closeDone rt) (closeErr rt).
Definition cause_of (rt : EmbeddedRuntime) (ctx : nat) : option goerror := default None (causes rt !! ctx).

(** The locked parts: [beginRequest] with the number of the new context, the
    two halves of the function it returns, [Close] and the end of
    [finishClose]. *)
Definition beginRequest (requestID : string) (rt : EmbeddedRuntime) : EmbeddedRuntime * (goerror + nat) :=
  match state rt with
  | Open =>
      if negb (String.eqb requestID "") && bool_decide (is_Some (requests rt !! requestID)) then (rt, inl ErrEmbeddedRuntimeDuplicateRequest)
      else
        let ctx := length (causes rt) in
        (MkRuntime (shutdownTimeout rt) (rootCause rt) (causes rt ++ [rootCause rt]) (state rt) (S (active rt))
           (if String.eqb requestID "" then requests rt else <[requestID := ctx]> (requests rt)) (closeDone rt) (closeErr rt), inr ctx)
  | _ => (rt, inl ErrEmbeddedRuntimeClosed)
  end.
Definition deleteRequest (requestID : string) (rt : EmbeddedRuntime) : EmbeddedRuntime :=
  MkRuntime (shutdownTimeout rt) (rootCause rt) (causes rt) (state rt) (active rt) (delete requestID (requests rt)) (closeDone rt) (closeErr rt).
Definition activeDone (rt : EmbeddedRuntime) : EmbeddedRuntime :=
  MkRuntime (shutdownTimeout rt) (rootCause rt) (causes rt) (state rt) (active rt - 1) (requests rt) (closeDone rt) (closeErr rt).
Definition with_state (rt : EmbeddedRuntime) (x : embeddedRuntimeState) : EmbeddedRuntime :=
  MkRuntime (shutdownTimeout rt) (rootCause rt) (causes rt) x (active rt) (requests rt) (closeDone rt) (closeErr rt).
(** Whether it is this call that starts [finishClose]. *)
Definition Close_locked (rt : EmbeddedRuntime) : EmbeddedRuntime * bool :=
  match state rt with Open => (cancelRoot ErrEmbeddedRuntimeClosed (with_state rt Closing), true) | _ => (rt, false) end.
Definition finishClose_locked (shutdownErr : option goerror) (rt : EmbeddedRuntime) : EmbeddedRuntime :=
  MkRuntime (shutdownTimeout rt) (rootCause rt) (causes rt) Closed (active rt) (requests rt) true shutdownErr.

Record EmbeddedJSONStream := MkStream { requestID : string; frames_closed : bool; stream_err : option goerror }.
Definition finish (err : option goerror) (st : EmbeddedJSONStream) : EmbeddedJSONStream := MkStream (requestID st) true err.

(** What the decoder makes of a text. *)
Inductive decoded := Malformed (err : goerror) | Trailing | OneRequest (request : Request).

(** ** The launch of a sidecar: [sidecar_launch.go]

    [flags]: the token, [--token-stdin] and the number of other arguments that
    package flag finds, if the arguments parse; the input is what the reader
    gives until it ends.  A line is one that fits the buffer. *)
Definition SidecarLaunchProtocolVersion : Z := 1.
Definition maxSidecarLaunchFrameBytes : Z := 4096.
Definition maxSidecarLaunchTokenBytes : Z := 1024.
Record SidecarLaunch := MkLaunch { Token : string; Input : option string; UsesStdinHandshake : bool }.
Definition ReadSlice_newline (input : string) : option (string * string) :=
  let '(line, rest, found) := cut "010" input in
  if found && (string_length line + 1 <=? maxSidecarLaunchFrameBytes) then Some (line +:+ String "010" EmptyString, rest) else None.
(** [handshake]: the version and the token in a line of JSON, if it is one
    object with no other members. *)
Definition ReadSidecarLaunch (handshake : string -> option (Z * string)) (flags : option (string * bool * nat)) (input : option string)
    : result SidecarLaunch :=
  match flags with
  | Some (token, tokenStdin, O) =>
      if Bool.eqb tokenStdin (negb (String.eqb token "")) then Err (ErrNew "exactly one sidecar launch token source is required")
      else if negb tokenStdin then
        if maxSidecarLaunchTokenBytes <? string_length token then Err (ErrNew "sidecar launch token is too large")
        else Ok (MkLaunch token input false)
      else
        match input with
        | None => Err (ErrNew "sidecar launch input is required")
        | Some bytes =>
            match ReadSlice_newline bytes with
            | None => Err (ErrNew "invalid sidecar launch handshake")
            | Some (line, rest) =>
                match handshake line with
                | None => Err (ErrNew "invalid sidecar launch handshake")
                | Some (version, token) =>
                    if negb (version =? SidecarLaunchProtocolVersion) then Err (ErrNew "unsupported sidecar launch protocol")
                    else if String.eqb token "" then Err (ErrNew "sidecar launch token is required")
                    else if maxSidecarLaunchTokenBytes <? string_length token then Err (ErrNew "sidecar launch token is too large")
                    else Ok (MkLaunch token (Some rest) true)
                end
            end
        end
  | _ => Err (ErrNew "invalid sidecar launch arguments")
  end.

Section Runtime.
Context {V : Type}.
Variable Decode : string -> decoded.
(** [json.Marshal] of a unary response and of a frame. *)
Variables (encode : Router.Response V -> goerror + string) (encode_frame : @Stream.Response V -> goerror + string).

Definition decodeEmbeddedRuntimeRequest (requestJSON : string) : goerror + Request :=
  if MaxRequestBytes <? string_length requestJSON then inl ErrEmbeddedRuntimeRequestTooLarge
  else match Decode requestJSON with
       | Malformed err => inl (Errorf [W ErrEmbeddedRuntimeInvalidJSON; T ": "; T (error_text err)])
       | Trailing => inl ErrEmbeddedRuntimeInvalidJSON
       | OneRequest request => inr request
       end.
Definition requestsStream (request : Request) : bool := String.eqb (default "" (Meta request !! "stream")) "1".
(** The request that [CallJSON], and the one that [StreamJSON] goes on with. *)
Definition unary_request (requestJSON : string) : goerror + Request :=
  match decodeEmbeddedRuntimeRequest requestJSON with
  | inl err => inl err
  | inr request => if requestsStream request then inl ErrEmbeddedRuntimeStreamingUnsupported else inr request
  end.
Definition stream_request (requestJSON : string) : goerror + Request :=
  match decodeEmbeddedRuntimeRequest requestJSON with
  | inl err => inl err
  | inr request =>
      if negb (requestsStream request) then inl ErrEmbeddedRuntimeStreamingRequired
      else if String.eqb (ID request) "" then inl ErrEmbeddedRuntimeStreamIDRequired
      else inr request
  end.

(** What [DispatchStream] does to its transport: it gives frames, each time
    told what came of it, and ends. *)
Inductive producer := Ends (err : option goerror) | Emits (frame : @Stream.Response V) (k : option goerror -> producer).
(** What [Dispatch] may answer, a panic being a text, and what
    [DispatchStream] may do. *)
Variables (answers : Request -> Router.Response V + string -> Prop) (streams_as : Request -> producer -> Prop).

Inductive answer := Text (text : string) | Fails (err : goerror) | Panics (v : string) | Nothing.
Inductive returned := Stream_ (st : nat) | Found (b : bool) | CloseAnswers (err : option goerror) | CloseFails (err : goerror).
Inductive call :=
| CallJSON (requestJSON : string)
| Dispatching (request : Request) (ctx : nat)
| StreamJSON (requestJSON : string)
| Producing (st : nat) (id : string) (ctx : nat) (p : producer)
| Selecting (st : nat) (id : string) (ctx : nat) (frame : string) (k : option goerror -> producer)
| Concluding (st : nat) (id : string) (ctx : nat) (err : option goerror)
| Finishing (id : string) (ctx : nat) (r : answer)     (* the three parts of finish *)
| Deleting (id : string) (ctx : nat) (r : answer)
| Leaving (r : answer)
| NextJSON (st : option nat)                             (* of no stream: of one not made by the runtime *)
| ReadingError (st : nat)
| Cancel (id : string)
| Cancelling (ctx : nat)
| Close (has_context : bool)
| CloseWaiting
| FinishWaiting                                          (* finishClose, in active.Wait() *)
| ShuttingDown
| ShutDown (err : option goerror)
| Finished (err : option goerror)
| Answered (r : answer)
| Returned (r : returned).

Record shared := Shared { rt : EmbeddedRuntime; streams : list EmbeddedJSONStream }.
Definition on_runtime (s : shared) (x : EmbeddedRuntime) : shared := Shared x (streams s).
Definition encoded (request : Request) (a : Router.Response V + string) : answer :=
  match a with
  | inr v => Panics v
  | inl response =>
      match encode response with
      | inl err => Fails (Errorf [T "framework: encode embedded runtime response: "; W err])
      | inr text => Text text
      end
  end.

(** [moves s old s' new]: the goroutines [old] become [new]. *)
Inductive moves : shared -> list call -> shared -> list call -> Prop :=
| call_refused s text err : unary_request text = inl err -> moves s [CallJSON text] s [Answered (Fails err)]
| call_not_begun s text request x err : unary_request text = inr request -> beginRequest (ID request) (rt s) = (x, inl err) ->
    moves s [CallJSON text] (on_runtime s x) [Answered (Fails err)]
| call_begun s text request x ctx : unary_request text = inr request -> beginRequest (ID request) (rt s) = (x, inr ctx) ->
    moves s [CallJSON text] (on_runtime s x) [Dispatching request ctx]
| call_answered s request ctx a : answers request a -> moves s [Dispatching request ctx] s [Finishing (ID request) ctx (encoded request a)]
| stream_refused s text err : stream_request text = inl err -> moves s [StreamJSON text] s [Answered (Fails err)]
| stream_not_begun s text request x err : stream_request text = inr request -> beginRequest (ID request) (rt s) = (x, inl err) ->
    moves s [StreamJSON text] (on_runtime s x) [Answered (Fails err)]
| stream_begun s text request x ctx p : stream_request text = inr request -> beginRequest (ID request) (rt s) = (x, inr ctx) ->
    streams_as request p ->
    moves s [StreamJSON text] (Shared x (streams s ++ [MkStream (ID request) false None]))
      [Returned (Stream_ (length (streams s))); Producing (length (streams s)) (ID request) ctx p]
| frame_not_encoded s st id ctx frame k err : encode_frame frame = inl err ->
    moves s [Producing st id ctx (Emits frame k)] s
      [Producing st id ctx (k (Some (Errorf [T "framework: encode embedded runtime stream response: "; W err])))]
| frame_encoded s st id ctx frame k text : encode_frame frame = inr text ->
    moves s [Producing st id ctx (Emits frame k)] s [Selecting st id ctx text k]
| frame_handed_over s st id ctx text k :
    moves s [Selecting st id ctx text k; NextJSON (Some st)] s [Producing st id ctx (k None); Answered (Text text)]
| frame_given_up s st id ctx text k cause : cause_of (rt s) ctx = Some cause ->
    moves s [Selecting st id ctx text k] s [Producing st id ctx (k (Some cause))]
| stream_ended s st id ctx err : moves s [Producing st id ctx (Ends err)] s [Concluding st id ctx err]
| stream_finished s st id ctx err :
    moves s [Concluding st id ctx err] (Shared (rt s) (alter (finish err) st (streams s))) [Finishing id ctx Nothing]
| finish_cancels s id ctx r : moves s [Finishing id ctx r] (on_runtime s (cancelContext ctx None (rt s))) [Deleting id ctx r]
| finish_deletes s id ctx r : moves s [Deleting id ctx r] (on_runtime s (deleteRequest id (rt s))) [Leaving r]
| finish_leaves s r : moves s [Leaving r] (on_runtime s (activeDone (rt s))) [Answered r]
| next_of_none s : moves s [NextJSON None] s [Answered (Fails ErrEmbeddedRuntimeInvalid)]
| next_at_end s st x : streams s !! st = Some x -> frames_closed x = true -> moves s [NextJSON (Some st)] s [ReadingError st]
| next_ended s st x : streams s !! st = Some x ->
    moves s [ReadingError st] s [Answered (match stream_err x with Some err => Fails err | None => Text EmptyString end)]
| cancel_not_found s id : id = EmptyString \/ requests (rt s) !! id = None -> moves s [Cancel id] s [Returned (Found false)]
| cancel_found s id ctx : id <> EmptyString -> requests (rt s) !! id = Some ctx -> moves s [Cancel id] s [Cancelling ctx]
| cancel_cancels s ctx :
    moves s [Cancelling ctx] (on_runtime s (cancelContext ctx (Some context_Canceled) (rt s))) [Returned (Found true)]
| close_without_context s : moves s [Close false] s [Returned (CloseFails ErrEmbeddedRuntimeContextUnavailable)]
| close_locked s x first : Close_locked (rt s) = (x, first) ->
    moves s [Close true] (on_runtime s x) (CloseWaiting :: if first then [FinishWaiting] else [])
| close_answers s : closeDone (rt s) = true -> moves s [CloseWaiting] s [Returned (CloseAnswers (closeErr (rt s)))]
| close_times_out s err : moves s [CloseWaiting] s [Returned (CloseFails err)]
| all_requests_done s : active (rt s) = 0%nat -> moves s [FinishWaiting] s [ShuttingDown]
| shutdown_returns s err : moves s [ShuttingDown] s [ShutDown err]
| close_finished s err : moves s [ShutDown err] (on_runtime s (finishClose_locked err (rt s))) [Finished err].

(** The calls a program makes. *)
Definition starts (c : call) : Prop :=
  match c with CallJSON _ | StreamJSON _ | NextJSON _ | Cancel _ | Close _ => True | _ => False end.
Inductive step : shared * list call -> shared * list call -> Prop :=
| call_made s l c : starts c -> step (s, l) (s, c :: l)
| calls_move s s' l l' old new rest : l ≡ₚ old ++ rest -> l' ≡ₚ new ++ rest -> moves s old s' new -> step (s, l) (s', l').
Definition reachable (x : EmbeddedRuntime) (y : shared * list call) : Prop := rtc step (Shared x [], []) y.
End Runtime.
Arguments call : clear implicits.
Arguments producer : clear implicits.

Lemma cut_found sep s b a : cut sep s = (b, a, true) -> s = b +:+ String sep a /\ contains_char sep b = false.
Proof.
  revert b a. induction s as [|c s IH]; cbn [cut]; [done|]. intros b a. destruct (Ascii.eqb_spec c sep) as [->|Hne]; [by intros [= <- <-]|].
  destruct (cut sep s) as [[b' a'] ok]. intros [= <- <- ->]. destruct (IH _ _ eq_refl) as [-> Hb]. split; [done|]. cbn [contains_char].
  rewrite Hb, orb_false_r. apply Ascii.eqb_neq. congruence.
Qed.
(** A launch has a token that fits, and the server reads on where the line of
    the handshake ended. *)
Lemma launch_keeps_input handshake flags input launch : ReadSidecarLaunch handshake flags input = Ok launch ->
  Token launch <> EmptyString /\ string_length (Token launch) <= maxSidecarLaunchTokenBytes /\
  if UsesStdinHandshake launch
  then exists line rest, input = Some (line +:+ String "010" rest) /\ Input launch = Some rest /\ contains_char "010" line = false /\
         handshake (line +:+ String "010" EmptyString) = Some (SidecarLaunchProtocolVersion, Token launch)
  else Input launch = input.
Proof.
  unfold ReadSidecarLaunch. intros H. destruct flags as [[[token stdin] [|]]|]; try done. destruct (Bool.eqb _ _) eqn:Es; [done|].
  destruct stdin; cbn [negb] in H.
  - destruct input as [bytes|]; [|done]. unfold ReadSlice_newline in H. destruct (cut _ bytes) as [[line rest] found] eqn:Ec.
    destruct found; [|done]. cbn [andb] in H. destruct (_ <=? _); [|done]. destruct (handshake _) as [[version tok]|] eqn:Eh; [|done].
    destruct (Z.eqb_spec version SidecarLaunchProtocolVersion) as [->|]; [|done]. cbn [negb] in H. destruct (String.eqb_spec tok ""); [done|].
    destruct (Z.ltb_spec maxSidecarLaunchTokenBytes (string_length tok)); [done|]. injection H as <-. apply cut_found in Ec as [-> Hl].
    split; [done|]. split; [done|]. by exists line, rest.
  - destruct (Z.ltb_spec maxSidecarLaunchTokenBytes (string_length token)); [done|]. injection H as <-.
    destruct (String.eqb_spec token ""); [done|]. done.
Qed.

(** ** One shutdown, after the last request *)

#[local] Abbreviation total f l := (sum_list_with f l).
#[local] Abbreviation flag b := (if b then 1%nat else 0%nat).

Section Facts.
Context {V : Type}.
Variable Decode : string -> decoded.
Variables (encode : Router.Response V -> goerror + string) (encode_frame : @Stream.Response V -> goerror + string).
Variables (answers : Request -> Router.Response V + string -> Prop) (streams_as : Request -> producer V -> Prop).
#[local] Abbreviation call := (EmbeddedRuntime.call V).
#[local] Abbreviation moves := (EmbeddedRuntime.moves Decode encode encode_frame answers streams_as).
#[local] Abbreviation step := (EmbeddedRuntime.step Decode encode encode_frame answers streams_as).
Implicit Types (c : call) (l : list call) (s : shared).

(** The request a call is at work on, by its id and context, as long as the
    runtime has it; the calls that [active] counts. *)
Definition request_of c : option (string * nat) :=
  match c with
  | Dispatching request ctx => Some (ID request, ctx)
  | Producing _ id ctx _ | Selecting _ id ctx _ _ | Concluding _ id ctx _ | Finishing id ctx _ | Deleting id ctx _ => Some (id, ctx)
  | _ => None
  end.
Definition holding c : nat := match c with Leaving _ => 1 | _ => match request_of c with Some _ => 1 | None => 0 end end.
Definition named (id : string) c : nat := match request_of c with Some (i, _) => flag (String.eqb i id) | None => 0 end.
(** The goroutine that runs [finishClose], and from its call of [shutdown] on. *)
Definition closer c : nat := match c with FinishWaiting | ShuttingDown | ShutDown _ | Finished _ => 1 | _ => 0 end.
Definition shutting c : nat := match c with ShuttingDown | ShutDown _ | Finished _ => 1 | _ => 0 end.
Definition finished c : nat := match c with Finished _ => 1 | _ => 0 end.

Record runs (x : shared * list call) : Prop := Runs {
  r_active : active (rt x.1) = total holding x.2;
  r_closers : total closer x.2 = flag (negb (bool_decide (state (rt x.1) = Open)));
  r_shutting : total shutting x.2 = 0%nat \/ active (rt x.1) = 0%nat;
  r_named : forall id, id <> EmptyString -> total (named id) x.2 = flag (bool_decide (is_Some (requests (rt x.1) !! id)));
  r_nameless : requests (rt x.1) !! EmptyString = None;
  r_contexts : forall id ctx, Some (id, ctx) ∈ request_of <$> x.2 ->
    (ctx < length (causes (rt x.1)))%nat /\ (id <> EmptyString -> requests (rt x.1) !! id = Some ctx);
  r_cancelled : state (rt x.1) <> Open -> Forall is_Some (causes (rt x.1));
  r_finished : total finished x.2 = flag (closeDone (rt x.1)) /\ forall err, Finished err ∈ x.2 -> closeErr (rt x.1) = err;
  r_answers : forall err, Returned (CloseAnswers err) ∈ x.2 -> closeDone (rt x.1) = true /\ closeErr (rt x.1) = err
}.
Lemma total_permutation f l l' : l ≡ₚ l' -> total f l = total f l'.
Proof. induction 1; cbn [sum_list_with]; lia. Qed.
Lemma runs_permutation s l l' : l ≡ₚ l' -> runs (s, l) -> runs (s, l').
Proof.
  intros E []; cbn [fst snd] in *. constructor; cbn [fst snd]; rewrite <-?(total_permutation _ _ _ E); try done.
  - intros id Hid. rewrite <-(total_permutation _ _ _ E). by apply r_named0.
  - intros id ctx H. rewrite <-E in H. by apply r_contexts0.
  - split; [by apply r_finished0|]. intros err H. rewrite <-E in H. by apply r_finished0.
  - intros err H. rewrite <-E in H. by apply r_answers0.
Qed.

Lemma total_app f l l' : total f (l ++ l') = (total f l + total f l')%nat.
Proof. apply sum_list_with_app. Qed.
(** [x'] differs from [x] in why contexts were cancelled, if at all. *)
Definition like (x x' : EmbeddedRuntime) : Prop :=
  state x' = state x /\ active x' = active x /\ requests x' = requests x /\ closeDone x' = closeDone x /\ closeErr x' = closeErr x /\
  length (causes x') = length (causes x) /\ (Forall is_Some (causes x) -> Forall is_Some (causes x')).
Lemma like_refl x : like x x.
Proof. by repeat split. Qed.
Lemma like_cancel ctx err x : like x (cancelContext ctx err x).
Proof.
  repeat split; cbn; [by rewrite length_alter|]. intros H. apply Forall_alter; [done|]. intros y _ _. by destruct y.
Qed.
(** A move that leaves that be, and the requests at work. *)
Lemma runs_quiet s s' old new rest : like (rt s) (rt s') ->
  total holding new = total holding old -> total closer new = total closer old ->
  total shutting new = total shutting old \/ active (rt s) = 0%nat ->
  (forall id, total (named id) new = total (named id) old) ->
  (forall x, Some x ∈ request_of <$> new -> Some x ∈ request_of <$> old) ->
  total finished new = total finished old -> (forall err, Finished err ∈ new -> Finished err ∈ old) ->
  (forall err, Returned (CloseAnswers err) ∈ new -> Returned (CloseAnswers err) ∈ old \/ closeDone (rt s) = true /\ closeErr (rt s) = err) ->
  runs (s, old ++ rest) -> runs (s', new ++ rest).
Proof.
  intros (E1 & E2 & E3 & E4 & E5 & E6 & E7) Hh Hc Hs Hn Hq Hf Hfe Ha []; cbn [fst snd] in *.
  constructor; cbn [fst snd]; rewrite ?E1, ?E2, ?E3, ?E4, ?E5, ?E6, ?total_app in *; try lia; try done.
  - intros id Hid. rewrite total_app, Hn, <-total_app. by apply r_named0.
  - intros id ctx. rewrite fmap_app. intros H. apply r_contexts0. rewrite fmap_app. set_solver.
  - intros Hst. by apply E7, r_cancelled0.
  - split; [rewrite Hf; lia|]. intros err H. apply r_finished0. set_solver.
  - intros err H. apply elem_of_app in H as [H|H]; [|apply r_answers0; set_solver].
    destruct (Ha err H) as [|]; [apply r_answers0; set_solver|done].
Qed.

Lemma beginRequest_refused id x x' err : beginRequest id x = (x', inl err) -> x' = x.
Proof. unfold beginRequest. intros H. destruct (state x); [|by injection H..]. destruct (_ && _); by injection H. Qed.
Lemma beginRequest_spec id x x' ctx : beginRequest id x = (x', inr ctx) -> state x = Open /\ ctx = length (causes x) /\
  (id <> EmptyString -> requests x !! id = None) /\ state x' = Open /\ active x' = S (active x) /\
  requests x' = (if String.eqb id "" then requests x else <[id := ctx]> (requests x)) /\
  length (causes x') = S (length (causes x)) /\ closeDone x' = closeDone x /\ closeErr x' = closeErr x.
Proof.
  unfold beginRequest. intros H. destruct (state x) eqn:E; [|done..]. destruct (negb (String.eqb id "") && _) eqn:Eb; [done|].
  injection H as <- <-. split; [done|]. split; [done|]. split; [|cbn; rewrite length_app; cbn; repeat split; lia || done].
  intros Hid. apply String.eqb_neq in Hid. rewrite Hid in Eb. cbn in Eb. apply bool_decide_eq_false in Eb. by apply eq_None_not_Some.
Qed.

(** A request begins. *)
Lemma runs_begin s s' c new rest id ctx : beginRequest id (rt s) = (rt s', inr ctx) ->
  request_of c = None -> holding c = 0%nat -> closer c = 0%nat -> shutting c = 0%nat -> finished c = 0%nat ->
  total holding new = 1%nat -> total closer new = 0%nat -> total shutting new = 0%nat -> total finished new = 0%nat ->
  (forall i, total (named i) new = flag (String.eqb id i)) ->
  (forall x, Some x ∈ request_of <$> new -> x = (id, ctx)) ->
  (forall err, Finished err ∉ new) -> (forall err, Returned (CloseAnswers err) ∉ new) ->
  runs (s, [c] ++ rest) -> runs (s', new ++ rest).
Proof.
  intros Hb Rc Hc Cc Sc Fc Hn Cn Sn Fn Nn Rn Fin Ans []; cbn [fst snd app sum_list_with] in *.
  apply beginRequest_spec in Hb as (E1 & -> & E2 & E3 & E4 & E5 & E6 & E7 & E8).
  rewrite E1 in *. rewrite bool_decide_eq_true_2 in r_closers0 by done. cbn in r_closers0.
  constructor; cbn [fst snd]; rewrite ?E3, ?E4, ?E6, ?E7, ?E8, ?total_app; try done.
  - lia.
  - rewrite bool_decide_eq_true_2 by done. cbn. lia.
  - left. assert (forall c, (shutting c <= closer c)%nat) as Hle by (by intros []; cbn; lia). 
    assert (total shutting rest <= total closer rest)%nat; [|lia]. clear -Hle. induction rest as [|d rest IH]; cbn; [lia|]. specialize (Hle d). lia.
  - intros i Hi. rewrite total_app, Nn. specialize (r_named0 i Hi). unfold named at 1 in r_named0. rewrite Rc in r_named0. cbn in r_named0.
    rewrite r_named0, E5. destruct (String.eqb_spec id "") as [->|Hid].
    + by destruct (String.eqb_spec EmptyString i) as [<-|].
    + destruct (String.eqb_spec id i) as [<-|Hne]; [|by rewrite lookup_insert_ne].
      rewrite lookup_insert_eq, E2 by done. by rewrite bool_decide_eq_false_2, bool_decide_eq_true_2 by (try done; by intros []).
  - rewrite E5. destruct (String.eqb_spec id "") as [->|Hid]; [done|]. by rewrite lookup_insert_ne.
  - intros i x. rewrite fmap_app, elem_of_app. intros [H|H].
    + apply Rn in H as [= -> ->]. split; [lia|]. intros Hid. rewrite E5. apply String.eqb_neq in Hid as Hid'. rewrite Hid'. by rewrite lookup_insert_eq.
    + destruct (r_contexts0 i x) as [Hlt Hreq]; [cbn; set_solver|]. split; [lia|]. intros Hi. specialize (Hreq Hi). rewrite E5.
      destruct (String.eqb_spec id "") as [->|Hid]; [done|]. rewrite lookup_insert_ne; [done|]. intros ->. by rewrite (E2 Hid) in Hreq.
  - split; [lia|]. intros err H. apply elem_of_app in H as [H|H]; [by apply Fin in H|]. apply r_finished0. set_solver.
  - intros err H. apply elem_of_app in H as [H|H]; [by apply Ans in H|]. apply r_answers0. set_solver.
Qed.

(** The id of a request that ends is free; no other request had it. *)
Lemma runs_delete s id ctx r rest : runs (s, [Deleting id ctx r] ++ rest) -> runs (on_runtime s (deleteRequest id (rt s)), [Leaving r] ++ rest).
Proof.
  intros []; cbn [fst snd app sum_list_with] in *.
  constructor; cbn [fst snd app sum_list_with on_runtime rt deleteRequest state active requests causes closeDone closeErr]; try done.
  - intros i Hi. specialize (r_named0 i Hi). unfold named at 1 in r_named0. cbn [request_of] in r_named0. unfold named at 1. cbn [request_of].
    destruct (String.eqb_spec id i) as [E|Hne]; [subst i|].
    + rewrite lookup_delete_eq. destruct (bool_decide _) in r_named0; cbn in *; lia.
    + rewrite lookup_delete_ne by done. cbn in *. lia.
  - destruct (decide (id = EmptyString)) as [->|]; [by rewrite lookup_delete_eq|by rewrite lookup_delete_ne].
  - intros i x Hx. cbn in Hx. apply elem_of_cons in Hx as [|Hx]; [done|].
    destruct (r_contexts0 i x) as [Hlt Hreq]; [cbn; set_solver|]. split; [done|]. intros Hi. rewrite lookup_delete_ne; [by apply Hreq|].
    intros ->. specialize (r_named0 i Hi). unfold named at 1 in r_named0. cbn [request_of] in r_named0. rewrite String.eqb_refl in r_named0.
    assert (1 <= total (named i) rest)%nat; [|destruct (bool_decide _) in r_named0; lia].
    clear -Hx. induction rest as [|c rest IH]; [by apply elem_of_nil in Hx|]. cbn in Hx |- *. apply elem_of_cons in Hx as [Hx|Hx].
    + unfold named at 1. rewrite <-Hx, String.eqb_refl. lia.
    + specialize (IH Hx). lia.
  - split; [by apply r_finished0|]. intros err H. apply r_finished0. set_solver.
  - intros err H. apply r_answers0. set_solver.
Qed.
Lemma runs_leave s r rest : runs (s, [Leaving r] ++ rest) -> runs (on_runtime s (activeDone (rt s)), [Answered r] ++ rest).
Proof.
  intros []; cbn [fst snd app sum_list_with] in *.
  constructor; cbn [fst snd app sum_list_with on_runtime rt activeDone state active requests causes closeDone closeErr]; try done; try (cbn in *; lia).
  - split; [by apply r_finished0|]. intros err H. apply r_finished0. set_solver.
  - intros err H. apply r_answers0. set_solver.
Qed.
Ltac quiet H :=
  refine (runs_quiet _ _ _ _ _ _ _ _ _ _ _ _ _ _ H);
  [apply like_refl || apply like_cancel|reflexivity|reflexivity|first [left; reflexivity|right; assumption]|reflexivity|cbn; set_solver|reflexivity|set_solver|set_solver].
Lemma runs_close s x first rest : Close_locked (rt s) = (x, first) -> runs (s, [Close true] ++ rest) ->
  runs (on_runtime s x, (CloseWaiting :: if first then [FinishWaiting] else []) ++ rest).
Proof.
  unfold Close_locked. destruct (state (rt s)) eqn:E; intros [= <- <-] H;
    [|by quiet H..].
  destruct H as []; cbn [fst snd app sum_list_with] in *. rewrite E in *.
  rewrite bool_decide_eq_true_2 in r_closers0 by done. cbn in r_closers0.
  constructor; cbn [fst snd app sum_list_with on_runtime rt cancelRoot with_state state active requests causes closeDone closeErr];
    rewrite ?length_fmap; try done.
  - rewrite bool_decide_eq_false_2 by done. cbn in *. lia.
  - intros i x Hx. apply r_contexts0. cbn in *. set_solver.
  - intros _. apply Forall_fmap, Forall_true. intros y. destruct y; by eexists.
  - split; [by apply r_finished0|]. intros err H. apply r_finished0. set_solver.
  - intros err H. apply r_answers0. set_solver.
Qed.
Lemma runs_finish s err rest : runs (s, [ShutDown err] ++ rest) -> runs (on_runtime s (finishClose_locked err (rt s)), [Finished err] ++ rest).
Proof.
  intros []; cbn [fst snd app sum_list_with] in *.
  assert (state (rt s) <> Open /\ total finished rest = 0%nat) as [Hst Hf].
  { assert (forall c, (finished c <= closer c)%nat) as Hle by (by intros []; cbn; lia).
    assert (total finished rest <= total closer rest)%nat.
    { clear -Hle. induction rest as [|d rest IH]; cbn; [lia|]. specialize (Hle d). lia. }
    cbn in r_closers0. destruct (decide (state (rt s) = Open)) as [E|E]; [rewrite bool_decide_eq_true_2 in r_closers0 by done; cbn in *; lia|].
    rewrite bool_decide_eq_false_2 in r_closers0 by done. cbn in r_closers0. split; [done|lia]. }
  assert (closeDone (rt s) = false) as Hd by (destruct r_finished0 as [Hd _]; cbn in Hd; rewrite Hf in Hd; by destruct (closeDone _)).
  assert (forall e, Finished e ∉ rest) as Hnone.
  { intros e He. clear -Hf He. induction rest as [|c rest IH]; [by apply elem_of_nil in He|]. cbn in Hf.
    apply elem_of_cons in He as [<-|He]; [cbn in Hf; lia|]. apply IH; [lia|done]. }
  constructor; cbn [fst snd app sum_list_with on_runtime rt finishClose_locked state active requests causes closeDone closeErr]; try done.
  - rewrite bool_decide_eq_false_2 in r_closers0 by done. by rewrite bool_decide_eq_false_2 by done.
  - intros _. by apply r_cancelled0.
  - split; [cbn; lia|]. intros e H. apply elem_of_cons in H as [[= ->]|H]; [done|]. by apply Hnone in H.
  - intros e H. apply elem_of_cons in H as [|H]; [done|]. destruct (r_answers0 e) as [Hdone _]; [set_solver|]. congruence.
Qed.

Ltac begins s' H :=
  refine (runs_begin _ s' _ _ _ _ _ _ _ _ _ _ _ _ _ _ _ _ _ _ _ H);
  [eassumption|reflexivity|reflexivity|reflexivity|reflexivity|reflexivity|reflexivity|reflexivity|reflexivity|reflexivity
  |intros i; unfold named; cbn; lia|cbn; set_solver|set_solver|set_solver].
Lemma moves_runs s old s' new rest : moves s old s' new -> runs (s, old ++ rest) -> runs (s', new ++ rest).
Proof.
  intros Hm H. destruct Hm;
    repeat match goal with Hb : beginRequest _ _ = (?x, inl _) |- _ => apply beginRequest_refused in Hb as -> end;
    try (by quiet H).
  - by begins (on_runtime s x) H.
  - by begins (Shared x (streams s ++ [MkStream (ID request) false None])) H.
  - by eapply runs_delete.
  - by apply runs_leave.
  - by apply runs_close.
  - by apply runs_finish.
Qed.
Lemma step_runs y y' : step y y' -> runs y -> runs y'.
Proof.
  destruct 1 as [s l c Hc|s s' l l' old new rest E E' Hm]; intros H.
  - change (runs (s, [] ++ l)) in H. change (runs (s, [c] ++ l)). destruct c; try done; by quiet H.
  - apply (runs_permutation _ (new ++ rest)); [done|]. eapply moves_runs; [done|]. by apply (runs_permutation _ l).
Qed.
Lemma reachable_runs has_router has_shutdown t x y : NewEmbeddedRuntimeWithOptions has_router has_shutdown t = Ok x ->
  reachable Decode encode encode_frame answers streams_as x y -> runs y.
Proof.
  intros Hx. unfold reachable. assert (runs (Shared x [], [])) as H0.
  { unfold NewEmbeddedRuntimeWithOptions in Hx. destruct (_ || _); [done|]. destruct (_ <? 0); [done|]. injection Hx as <-.
    constructor; cbn; try done; [by left|..]; intros; try by apply elem_of_nil in H. split; [done|]. by intros err ?%elem_of_nil. }
  intros H. revert H0. induction H as [|a b c Hab _ IH]; [done|]. intros Ha. apply IH. by eapply step_runs.
Qed.

(** ** What follows *)

Lemma total_le_pointwise (f g : call -> nat) l : (forall c, f c <= g c)%nat -> (total f l <= total g l)%nat.
Proof. intros H. induction l as [|c l IH]; cbn; [lia|]. specialize (H c). lia. Qed.
Lemma total_pos (f : call -> nat) c l : c ∈ l -> (f c <= total f l)%nat.
Proof. induction 1; cbn; lia. Qed.
Lemma total_found (f : call -> nat) l : (0 < total f l)%nat -> exists c, c ∈ l /\ (0 < f c)%nat.
Proof.
  induction l as [|c l IH]; cbn; [lia|]. intros H. destruct (decide (0 < f c)%nat) as [|Hc]; [exists c; set_solver|].
  destruct IH as (d & ? & ?); [lia|]. exists d. set_solver.
Qed.
Lemma total_two (f : call -> nat) l : forall i j c d, l !! i = Some c -> l !! j = Some d -> (0 < f c)%nat -> (0 < f d)%nat ->
  (total f l <= 1)%nat -> i = j.
Proof.
  induction l as [|a l IH]; intros [|i] [|j] c d; cbn; try done.
  - intros [= ->] Hd%list_elem_of_lookup_2 Hc Hfd. apply (total_pos f) in Hd. lia.
  - intros Hc%list_elem_of_lookup_2 [= ->] Hfc Hd. apply (total_pos f) in Hc. lia.
  - intros Hc Hd Hfc Hfd Ht. f_equal. eapply IH; eauto. lia.
Qed.
Lemma named_holding id c : (named id c <= holding c)%nat.
Proof. unfold named, holding. destruct (request_of c) as [[i x]|] eqn:E; [|lia]. destruct c; try done; destruct (String.eqb i id); lia. Qed.
Lemma no_requests s l : runs (s, l) -> total holding l = 0%nat -> requests (rt s) = ∅.
Proof.
  intros [] Ht; cbn [fst snd] in *. apply map_empty. intros id. destruct (decide (id = EmptyString)) as [->|Hid]; [done|].
  specialize (r_named0 id Hid). pose proof (total_le_pointwise _ _ l (named_holding id)) as Hle.
  destruct (bool_decide _) eqn:E in r_named0; [lia|]. apply bool_decide_eq_false in E. by apply eq_None_not_Some.
Qed.

(** C37. However calls, cancellations, streams and any number of [Close] calls
    interleave, the application is shut down at most once, and only when every
    request that was ever begun is over, none can begin any more and no id is
    registered; every [Close] that waits it out returns the error of that one
    shutdown; and no two requests with the same id are at work at once. *)
Theorem shutdown_follows_the_last_request has_router has_shutdown t x s l :
  NewEmbeddedRuntimeWithOptions has_router has_shutdown t = Ok x ->
  reachable Decode encode encode_frame answers streams_as x (s, l) ->
  (forall i j c d, l !! i = Some c -> l !! j = Some d -> shutting c = 1%nat -> shutting d = 1%nat -> i = j) /\
  (forall c, c ∈ l -> shutting c = 1%nat ->
    state (rt s) <> Open /\ active (rt s) = 0%nat /\ requests (rt s) = ∅ /\ forall d, d ∈ l -> holding d = 0%nat) /\
  (forall err, Returned (CloseAnswers err) ∈ l -> Finished err ∈ l) /\
  (forall i j c d id a b, l !! i = Some c -> l !! j = Some d -> request_of c = Some (id, a) -> request_of d = Some (id, b) ->
    id <> EmptyString -> i = j).
Proof.
  intros Hx Hr. pose proof (reachable_runs _ _ _ _ _ Hx Hr) as H. pose proof (no_requests _ _ H) as Hnone. destruct H as []; cbn [fst snd] in *.
  assert (total shutting l <= total closer l)%nat as Hle by (apply total_le_pointwise; intros []; cbn; lia).
  split; [|split; [|split]].
  - intros i j c d Hi Hj Hc Hd. apply (total_two shutting l i j c d); try done; try lia. destruct (negb _) in r_closers0; lia.
  - intros c Hc Hsc. apply (total_pos shutting) in Hc. destruct r_shutting0 as [|Ha]; [lia|]. rewrite Ha in r_active0.
    split; [|split; [done|split; [by apply Hnone|]]].
    + intros E. rewrite E, bool_decide_eq_true_2 in r_closers0 by done. cbn in r_closers0. lia.
    + intros d Hd. apply (total_pos holding) in Hd. lia.
  - intros err Hc. apply r_answers0 in Hc as [Hd He]. rewrite Hd in r_finished0. destruct r_finished0 as [Hf Hfe].
    destruct (total_found finished l) as (c & Hc & Hfc); [lia|]. destruct c; cbn in Hfc; try lia. by rewrite <-He, (Hfe _ Hc).
  - intros i j c d id a b Hi Hj Hc Hd Hid. apply (total_two (named id) l i j c d); try done;
      [unfold named; rewrite Hc, String.eqb_refl; lia|unfold named; rewrite Hd, String.eqb_refl; lia|].
    rewrite (r_named0 id Hid). clear; case_bool_decide; cbn; repeat constructor.
Qed.

(** ** Closing comes to an end *)

(** A move of the goroutines there are: no new call is made. *)
Definition goes (y y' : shared * list call) : Prop :=
  exists old new rest, y.2 ≡ₚ old ++ rest /\ y'.2 ≡ₚ new ++ rest /\ moves y.1 old y'.1 new.
Lemma goes_step y y' : goes y y' -> step y y'.
Proof. destruct y, y'. intros (old & new & rest & E & E' & H). by econstructor. Qed.
Lemma goes_runs y y' : rtc goes y y' -> runs y -> runs y'.
Proof. induction 1 as [|a b c Hab _ IH]; [done|]. intros H. apply IH. by eapply step_runs, H; apply goes_step. Qed.
Lemma goes_one s c s' c' rest : moves s [c] s' [c'] -> goes (s, c :: rest) (s', c' :: rest).
Proof. intros H. by exists [c], [c'], rest. Qed.

(** A request at work can end, whatever the goroutines of others do. *)
Definition settles s c rest : Prop :=
  exists s' r, rtc goes (s, c :: rest) (s', Answered r :: rest) /\ state (rt s') = state (rt s).
Lemma settles_by s c s' c' rest : moves s [c] s' [c'] -> state (rt s') = state (rt s) -> settles s' c' rest -> settles s c rest.
Proof.
  intros Hm Hst (s'' & r & Hg & E). exists s'', r. split; [|by rewrite E]. eapply rtc_l; [|exact Hg]. by apply goes_one.
Qed.
Lemma finishing_settles s id ctx r rest : settles s (Finishing id ctx r) rest.
Proof.
  eapply settles_by; [apply finish_cancels|done|]. eapply settles_by; [apply finish_deletes|done|]. eexists _, _. split; [|shelve].
  eapply rtc_once, goes_one, finish_leaves. Unshelve. done.
Qed.
Lemma context_cancelled s c rest id ctx : state (rt s) <> Open -> runs (s, c :: rest) -> request_of c = Some (id, ctx) ->
  exists cause, cause_of (rt s) ctx = Some cause.
Proof.
  intros Hst [] Hc; cbn [fst snd] in *. destruct (r_contexts0 id ctx) as [Hlt _]; [cbn; rewrite Hc; set_solver|].
  apply lookup_lt_is_Some in Hlt as [y Hy]. pose proof (Forall_lookup_1 _ _ _ _ (r_cancelled0 Hst) Hy) as [cause ->].
  exists cause. unfold cause_of. by rewrite Hy.
Qed.
Lemma goes_one_runs s c s' c' rest : moves s [c] s' [c'] -> runs (s, c :: rest) -> runs (s', c' :: rest).
Proof. intros Hm. apply step_runs, goes_step, goes_one, Hm. Qed.
Lemma producing_settles st id ctx p : forall s rest, state (rt s) <> Open -> runs (s, Producing st id ctx p :: rest) ->
  settles s (Producing st id ctx p) rest.
Proof.
  induction p as [err|frame k IH]; intros s rest Hst Hr.
  - eapply settles_by; [apply stream_ended|done|]. eapply settles_by; [apply stream_finished|done|]. apply finishing_settles.
  - destruct (encode_frame frame) as [err|text] eqn:E.
    + eapply settles_by; [by apply frame_not_encoded|done|]. apply IH; [done|]. eapply goes_one_runs, Hr. by apply frame_not_encoded.
    + destruct (context_cancelled _ _ _ id ctx Hst Hr eq_refl) as [cause Hc].
      eapply settles_by; [by apply frame_encoded|done|]. eapply settles_by; [by apply frame_given_up|done|]. apply IH; [done|].
      eapply goes_one_runs; [by apply frame_given_up|]. eapply goes_one_runs, Hr. by apply frame_encoded.
Qed.
Hypothesis dispatch_answers : forall request, exists a, answers request a.
Lemma request_settles s c rest : state (rt s) <> Open -> runs (s, c :: rest) -> (0 < holding c)%nat -> settles s c rest.
Proof.
  intros Hst Hr Hc. destruct c; cbn in Hc; try lia.
  - destruct (dispatch_answers request) as [a Ha]. eapply settles_by; [by apply call_answered|done|]. apply finishing_settles.
  - by apply producing_settles.
  - destruct (context_cancelled _ _ _ id ctx Hst Hr eq_refl) as [cause Hcause].
    eapply settles_by; [by apply frame_given_up|done|]. apply producing_settles; [done|]. eapply goes_one_runs, Hr. by apply frame_given_up.
  - eapply settles_by; [apply stream_finished|done|]. apply finishing_settles.
  - apply finishing_settles.
  - eapply settles_by; [apply finish_deletes|done|]. eexists _, _. split; [by eapply rtc_once, goes_one, finish_leaves|done].
  - eexists _, _. split; [by eapply rtc_once, goes_one, finish_leaves|done].
Qed.
Lemma goes_permutation s l l' y : l ≡ₚ l' -> rtc goes (s, l') y -> y = (s, l') \/ rtc goes (s, l) y.
Proof.
  intros E H. inversion H as [|? b ? (old & new & rest & E1 & E2 & Hm)]; subst; [by left|]. right. eapply rtc_l; [|done].
  exists old, new, rest. cbn [fst snd] in *. by rewrite E.
Qed.
Lemma pick c l : c ∈ l -> exists rest, l ≡ₚ c :: rest.
Proof. intros (l1 & l2 & ->)%list_elem_of_split. exists (l1 ++ l2). by rewrite Permutation_middle. Qed.
Lemma all_settle n : forall s l, total holding l = n -> state (rt s) <> Open -> runs (s, l) ->
  exists s' l', rtc goes (s, l) (s', l') /\ total holding l' = 0%nat /\ state (rt s') = state (rt s).
Proof.
  induction n as [|n IH]; intros s l Hn Hst Hr; [by exists s, l|].
  destruct (total_found holding l) as (c & Hc & Hpos); [lia|]. destruct (pick c l Hc) as [rest E].
  destruct (request_settles s c rest Hst) as (s' & r & Hg & Est); [by eapply runs_permutation|done|].
  destruct (goes_permutation _ _ _ _ E Hg) as [Heq|Hg']; [injection Heq as -> <-; cbn in Hpos; lia|].
  destruct (IH s' (Answered r :: rest)) as (s'' & l' & Hg'' & Hz & Est'); [|by rewrite Est|by eapply goes_runs|].
  - rewrite (total_permutation _ _ _ E) in Hn. cbn in *. assert (holding c = 1)%nat; [|lia]. by destruct c; cbn in *; try lia.
  - exists s'', l'. split; [by etrans|]. split; [done|]. congruence.
Qed.

Lemma closer_finishes c s rest : (0 < closer c)%nat -> active (rt s) = 0%nat ->
  exists s' err, rtc goes (s, c :: rest) (s', Finished err :: rest).
Proof.
  intros Hc Ha.
  assert (forall e, goes (s, ShutDown e :: rest) (on_runtime s (finishClose_locked e (rt s)), Finished e :: rest)) as H3
    by (intros e; apply goes_one, close_finished).
  assert (goes (s, ShuttingDown :: rest) (s, ShutDown None :: rest)) as H2 by apply goes_one, shutdown_returns.
  assert (goes (s, FinishWaiting :: rest) (s, ShuttingDown :: rest)) as H1 by by apply goes_one, all_requests_done.
  destruct c; cbn in Hc; try lia; eexists _, _; [| | |apply rtc_refl].
  - eapply rtc_l; [exact H1|]. eapply rtc_l; [exact H2|]. apply rtc_once, H3.
  - eapply rtc_l; [exact H2|]. apply rtc_once, H3.
  - apply rtc_once, H3.
Qed.

(** C38. Closing comes to an end: from any state in which [Close] was called,
    the goroutines there are can go on, with nobody reading a stream or
    cancelling a request, until every request is over, the application is shut
    down and every waiting [Close] has that shutdown's error to return.  What
    is assumed is that [Dispatch] comes back. *)
Theorem closing_can_always_finish has_router has_shutdown t x s l :
  NewEmbeddedRuntimeWithOptions has_router has_shutdown t = Ok x ->
  reachable Decode encode encode_frame answers streams_as x (s, l) -> state (rt s) <> Open ->
  exists s' l' err, rtc goes (s, l) (s', l') /\ total holding l' = 0%nat /\ Finished err ∈ l' /\
    closeDone (rt s') = true /\ closeErr (rt s') = err.
Proof.
  intros Hx Hr Hst. pose proof (reachable_runs _ _ _ _ _ Hx Hr) as H.
  destruct (all_settle _ s l eq_refl Hst H) as (s1 & l1 & Hg1 & Hz & Est). pose proof (goes_runs _ _ Hg1 H) as H1.
  assert (exists c rest, l1 ≡ₚ c :: rest /\ (0 < closer c)%nat) as (c & rest & E & Hc).
  { destruct H1 as []; cbn [fst snd] in *. rewrite Est, bool_decide_eq_false_2 in r_closers0 by done. cbn in r_closers0.
    destruct (total_found closer l1) as (c & Hc & Hpos); [lia|]. destruct (pick c l1 Hc) as [rest E]. by exists c, rest. }
  destruct (closer_finishes c s1 rest Hc) as (s2 & err & Hg2); [pose proof (r_active _ H1) as Ha; cbn in Ha; lia|].
  pose proof (goes_runs _ _ Hg2 (runs_permutation _ _ _ E H1)) as H2.
  assert (total holding (Finished err :: rest) = 0%nat) as Hz2.
  { rewrite (total_permutation _ _ _ E) in Hz. cbn in *. lia. }
  assert (closeDone (rt s2) = true /\ closeErr (rt s2) = err) as [Hd He].
  { destruct (r_finished _ H2) as [Hf Hfe]. cbn in Hf. split; [by destruct (closeDone _)|]. apply Hfe. set_solver. }
  destruct (goes_permutation _ _ _ _ E Hg2) as [[= -> <-]|Hg2'].
  - exists s1, l1, err. split; [done|]. split; [done|]. split; [|done]. rewrite E. set_solver.
  - exists s2, (Finished err :: rest), err. split; [by etrans|]. split; [done|]. split; [set_solver|done].
Qed.
End Facts.

(** ** A run: a request is at work when the runtime is closed *)

Section Example.
Definition example_decode (text : string) : decoded := OneRequest (MkRequest text "method" "null" ∅).
Definition example_answers (_ : Request) (_ : Router.Response unit + string) : Prop := True.
Definition example_streams (_ : Request) (_ : producer unit) : Prop := True.
Definition example_encode (_ : Router.Response unit) : goerror + string := inr "{}".
Definition example_frame (_ : @Stream.Response unit) : goerror + string := inr "{}".
Definition example_runtime : EmbeddedRuntime := MkRuntime defaultEmbeddedRuntimeShutdownTimeout None [] Open 0 ∅ false None.
#[local] Abbreviation step := (EmbeddedRuntime.step example_decode example_encode example_frame example_answers example_streams).
#[local] Abbreviation moves := (EmbeddedRuntime.moves example_decode example_encode example_frame example_answers example_streams).
Lemma run_made s l c y : starts c -> rtc step (s, c :: l) y -> rtc step (s, l) y.
Proof. intros Hc. apply rtc_l. by constructor. Qed.
Lemma run_first s c s' new rest y : moves s [c] s' new -> rtc step (s', new ++ rest) y -> rtc step (s, c :: rest) y.
Proof. intros Hm. apply rtc_l. by refine (calls_move _ _ _ _ _ _ _ _ _ [c] new rest _ _ Hm). Qed.
Lemma run_last s c s' new rest y : moves s [c] s' new -> rtc step (s', new ++ rest) y -> rtc step (s, rest ++ [c]) y.
Proof. intros Hm. apply rtc_l. refine (calls_move _ _ _ _ _ _ _ _ _ [c] new rest _ _ Hm); [|done]. symmetry. apply Permutation_cons_append. Qed.

Definition example_answer : Router.Response unit + string := inl (Router.MkResponse "a" None None []).
Definition begun : shared := Shared (beginRequest "a" example_runtime).1 [].
Definition closing : shared := Shared (Close_locked (rt begun)).1 [].
Definition waiting : list (call unit) := [CloseWaiting; FinishWaiting; Dispatching (MkRequest "a" "method" "null" ∅) 0].
Lemma closing_reached y : rtc step (closing, waiting) y -> rtc step (Shared example_runtime [], []) y.
Proof.
  intros H. apply (run_made _ _ (CallJSON "a")); [done|].
  apply (run_first _ _ begun [Dispatching (MkRequest "a" "method" "null" ∅) 0]); [by eapply call_begun|].
  apply (run_made _ _ (Close true)); [done|]. by apply (run_first _ _ closing [CloseWaiting; FinishWaiting]); [apply (close_locked _ _ _ _ _ begun _ true)|].
Qed.
Lemma closed_reached : exists s l, reachable example_decode example_encode example_frame example_answers example_streams example_runtime (s, l) /\
  Returned (CloseAnswers None) ∈ l.
Proof.
  eexists _, _. split.
  - apply closing_reached. eapply (run_last _ _ _ _ [_; _]); [by apply (call_answered _ _ _ _ _ _ _ _ example_answer)|].
    eapply run_first; [apply finish_cancels|]. eapply run_first; [apply finish_deletes|]. eapply run_first; [apply finish_leaves|].
    eapply (run_last _ _ _ _ [_; _]); [by apply all_requests_done|]. eapply run_first; [apply (shutdown_returns _ _ _ _ _ _ None)|].
    eapply run_first; [apply close_finished|]. eapply (run_last _ _ _ _ [_; _]); [by apply close_answers|]. apply rtc_refl.
  - cbn. set_solver.
Qed.

Lemma shutdown_follows_the_last_request_witness : exists s l,
  reachable example_decode example_encode example_frame example_answers example_streams example_runtime (s, l) /\ Finished None ∈ l.
Proof.
  destruct closed_reached as (s & l & Hr & Hl). exists s, l. split; [exact Hr|].
  apply (shutdown_follows_the_last_request example_decode example_encode example_frame example_answers example_streams true true 0
    example_runtime s l eq_refl Hr). exact Hl.
Defined.
Lemma closing_can_always_finish_witness : state (rt closing) <> Open /\ exists s' l' err,
  rtc (goes example_decode example_encode example_frame example_answers example_streams) (closing, waiting) (s', l') /\
  sum_list_with holding l' = 0%nat /\ Finished err ∈ l' /\ closeDone (rt s') = true /\ closeErr (rt s') = err.
Proof.
  split; [discriminate|].
  apply (closing_can_always_finish example_decode example_encode example_frame example_answers example_streams
    (fun _ => ex_intro _ example_answer I) true true 0 example_runtime closing waiting eq_refl); [|discriminate].
  apply closing_reached. apply rtc_refl.
Defined.
End Example.
