(* ===== verification/DevSession.v ===== *)
(** * A development session: [backend/cmd/bridra/dev_watch.go], [dev.go]

    The watcher of Go sources is a function of what its ticker and the file
    system give; the supervision of the child processes is a transition
    system: processes exit whenever they like, and a step of the supervisor is
    what it does between two waits.  Builds, starts, installs and the calls
    that signal or kill a process have any outcome.  Paths are those of a
    system whose separator is the slash. *)
From S2P Require Import Prelude GoTime GoStrings FileTransfer Router Project.
Open Scope Z_scope.
Open Scope go_scope.

(** ** The options of a session

    The strings of URLs and addresses are taken apart by packages net and
    net/url, which are parameters, and so is what the file system says. *)
Definition errDevInvalid := ErrNew "dev: invalid configuration".
Definition invalid (detail : string) : goerror := Errorf [W errDevInvalid; T (": " +:+ detail)].
Definition devTransportAuto : string := "auto".
Definition devTransportSidecar : string := "sidecar".
Definition devTransportHTTP : string := "http".
Record devOptions := MkDevOptions {
  root : string;
  device : string;
  transport : string;
  listen : string;
  readyAddress : string;
  backendURL : string;
  token : string;
  corsOrigin : string;
  sidecarPath : string;
  serverPath : string;
  watch : bool
}.
Record url := MkURL {
  Scheme : string;
  Host : string;
  Hostname : string;
  Port : string;
  has_User : bool;
  Fragment : string;
  RawQuery : string;
  URLPath : string
}.
Definition hostDesktopDevice (goos : string) : goerror + string :=
  if String.eqb goos "linux" then inr "linux"
  else if String.eqb goos "darwin" then inr "macos"
  else if String.eqb goos "windows" then inr "windows"
  else inl (invalid ("no default desktop device for host " +:+ goos +:+ "; pass --device and --transport http")).
Definition isDesktopDevice (device : string) : bool := existsb (String.eqb device) ["linux"; "macos"; "windows"].
Definition isWebDevice (device : string) : bool := existsb (String.eqb device) ["chrome"; "edge"; "web-server"].
Section Options.
Variables (SplitHostPort : string -> goerror + string * string) (JoinHostPort : string -> string -> string).
Variables (ParseRequestURI : string -> goerror + url) (loopback_ip : string -> bool).
Definition isLoopbackHost (host : string) : bool := String.eqb host "localhost" || loopback_ip host.
Definition localReadyAddress (listen : string) : goerror + string :=
  match SplitHostPort (TrimSpace listen) with
  | inl err => inl (invalid ("invalid listen address: " +:+ error_text err))
  | inr (host, port) =>
      match ParseUint port with
      | Some number =>
          if (number <? 1) || (65535 <? number) then inl (invalid "listen port must be between 1 and 65535")
          else inr (JoinHostPort (if existsb (String.eqb host) [""; "0.0.0.0"; "::"] then "127.0.0.1" else host) port)
      | None => inl (invalid "listen port must be between 1 and 65535")
      end
  end.
Definition validateDevelopmentBackendURL (value : string) : option goerror :=
  let absolute := Some (invalid "backend URL must be an absolute http:// URL") in
  match ParseRequestURI (TrimSpace value) with
  | inl _ => absolute
  | inr u =>
      if negb (String.eqb (Scheme u) "http") || String.eqb (Host u) "" then absolute
      else if has_User u || negb (String.eqb (Fragment u) "") || negb (String.eqb (RawQuery u) "") || negb (String.eqb (URLPath u) "/rpc")
      then Some (invalid "backend URL must target /rpc without credentials, query parameters, or fragments")
      else None
  end.
Definition validateDevelopmentBackendBinding (listen backendURL : string) : option goerror :=
  match SplitHostPort (TrimSpace listen) with
  | inl err => Some (invalid ("invalid listen address: " +:+ error_text err))
  | inr (listenHost, listenPort) =>
      match ParseRequestURI (TrimSpace backendURL) with
      | inl err => Some (invalid ("invalid backend URL: " +:+ error_text err))
      | inr u =>
          let backendPort := if String.eqb (Port u) "" then "80" else Port u in
          if negb (String.eqb backendPort listenPort)
          then Some (invalid ("backend URL port " +:+ backendPort +:+ " does not match listen port " +:+ listenPort))
          else if isLoopbackHost listenHost && negb (isLoopbackHost (Hostname u))
          then Some (invalid ("listen address " +:+ listenHost +:+ " is not reachable through backend URL host " +:+ Hostname u))
          else None
      end
  end.

(** [clean_root]: the clean absolute root; [web_ui]: what the project's
    metadata says; [stat] of a name in the root: whether it is a directory. *)
Variables (goos : string) (stat : string -> goerror + bool).
Definition missing_file (name : string) : option goerror :=
  match stat name with
  | inl err => Some (invalid (name +:+ " is unavailable: " +:+ error_text err))
  | inr true => Some (invalid (name +:+ " must be a file"))
  | inr false => None
  end.
Definition resolve_transport (transport backendURL device : string) : goerror + string :=
  let transport := Project.to_lower (TrimSpace transport) in
  if String.eqb transport devTransportAuto then
    inr (if negb (String.eqb (TrimSpace backendURL) "") then devTransportHTTP
         else if isDesktopDevice device then devTransportSidecar else devTransportHTTP)
  else if String.eqb transport devTransportSidecar || String.eqb transport devTransportHTTP then inr transport
  else inl (invalid "transport must be auto, sidecar, or http").
Definition resolve_sidecar (o : devOptions) : goerror + devOptions :=
  match hostDesktopDevice goos with
  | inl err => inl err
  | inr expected =>
      if negb (String.eqb (device o) expected) then
        inl (invalid ("sidecar device " +:+ Quote (device o) +:+ " is unavailable on " +:+ goos +:+ "; expected " +:+ Quote expected))
      else if negb (String.eqb (TrimSpace (backendURL o)) "") then inl (invalid "--backend-url requires HTTP transport")
      else inr o
  end.
Definition resolve_http (o : devOptions) : goerror + devOptions :=
  let listen := TrimSpace (listen o) in
  let given := TrimSpace (backendURL o) in
  let cors := TrimSpace (corsOrigin o) in
  match localReadyAddress listen with
  | inl err => inl err
  | inr ready =>
      if String.eqb given "" && negb (isDesktopDevice (device o)) && negb (isWebDevice (device o)) then
        inl (invalid ("device " +:+ Quote (device o) +:+ " requires an explicit --backend-url reachable from the device"))
      else
        let target := if String.eqb given "" then "http://" +:+ ready +:+ "/rpc" else given in
        match validateDevelopmentBackendURL target, validateDevelopmentBackendBinding listen target with
        | Some err, _ => inl err
        | None, Some err => inl err
        | None, None =>
            if String.eqb (TrimSpace (token o)) "" then inl (invalid "token cannot be empty")
            else if String.eqb cors "" then inl (invalid "CORS origin cannot be empty")
            else inr (MkDevOptions (root o) (device o) (transport o) listen ready target (token o) cors (sidecarPath o) (serverPath o) (watch o))
        end
  end.
Definition resolveOptions (clean_root : goerror + string) (web_ui : goerror + bool) (o : devOptions) : goerror + devOptions :=
  match clean_root, web_ui with
  | inl err, _ => inl (Errorf [T "dev: resolve project root: "; W err])
  | inr _, inl err => inl (Errorf [W errDevInvalid; T ": project metadata: "; W err])
  | inr _, inr true => inl (invalid "bridra dev does not support Web UI projects yet; see the generated README for browser development")
  | inr clean, inr false =>
      match missing_file ".fvmrc", missing_file "pubspec.yaml" with
      | Some err, _ => inl err
      | None, Some err => inl err
      | None, None =>
          match (if String.eqb (TrimSpace (device o)) "" then hostDesktopDevice goos else inr (TrimSpace (device o))) with
          | inl err => inl err
          | inr device =>
              match resolve_transport (transport o) (backendURL o) device with
              | inl err => inl err
              | inr transport =>
                  let suffix := if String.eqb goos "windows" then ".exe" else "" in
                  let o := MkDevOptions clean device transport (listen o) (readyAddress o) (backendURL o) (token o) (corsOrigin o)
                             (Join (Join (Join clean "build") "sidecar") ("bridra_backend" +:+ suffix))
                             (Join (Join (Join clean "build") "server") ("bridra_server" +:+ suffix)) (watch o) in
                  if String.eqb transport devTransportSidecar then resolve_sidecar o else resolve_http o
              end
          end
      end
  end.
End Options.

(** ** The watcher *)

Record devSourceState := MkSource { size : Z; modifiedAt : Z; permissions : Z }.
#[export] Instance devSourceState_dec : EqDecision devSourceState.
Proof. solve_decision. Defined.
Abbreviation sources := (gmap string devSourceState).

(** What [filepath.WalkDir] finds: directories in the order of their entries,
    files with what [Info] returns of them, regular or not, and what it cannot
    read. *)
Inductive entry :=
| Dir (entries : list (string * entry))
| File (information : goerror + bool * devSourceState)
| Unreadable (err : goerror).

(** The paths [WalkDir] gives are clean. *)
Definition isDevSourcePath (path : string) : bool :=
  if String.eqb path "go.work" || String.eqb path "go.work.sum" then true
  else if negb (has_prefix "backend/" path) then false
  else
    let name := Base path in
    if String.eqb name "go.mod" || String.eqb name "go.sum" then true
    else HasSuffix name ".go" && negb (HasSuffix name "_test.go").
Definition child (relative name : string) : string := if String.eqb relative "" then name else relative +:+ "/" +:+ name.
(** The root is the empty path. *)
Definition walks_into (relative : string) : bool :=
  String.eqb relative "" || String.eqb relative "backend" || has_prefix "backend/" relative.
Fixpoint scan_from (relative : string) (e : entry) (states : sources) : goerror + sources :=
  match e with
  | Unreadable err => inl err
  | Dir l =>
      if negb (walks_into relative) then inr states
      else
        (fix scan_all (l : list (string * entry)) (states : sources) : goerror + sources :=
           match l with
           | [] => inr states
           | (name, e) :: l => match scan_from (child relative name) e states with inl err => inl err | inr states => scan_all l states end
           end) l states
  | File information =>
      if negb (isDevSourcePath relative) then inr states
      else match information with
           | inl err => inl err
           | inr (regular, state) => inr (if regular then <[relative := state]> states else states)
           end
  end.
Definition scanDevSourceFiles (root : entry) : goerror + sources := scan_from "" root ∅.

Definition changedDevSourceFiles (previous current : sources) : list string :=
  merge_sort (fun a b => string_le a b)
    (filter (fun path => previous !! path ≠ current !! path) (map_to_list current).*1 ++
     filter (fun path => current !! path = None) (map_to_list previous).*1).

(** What the goroutine of [watch] has between two turns of its loop, and what
    is in its two channels. *)
Record watcher := MkWatcher {
  previous : sources;
  pending : gset string;
  lastChange : Z;
  events : option (list string);
  errors : option goerror
}.
Definition newPollingDevWatcher (interval debounce : Z) (root : entry) : result watcher :=
  if (interval <=? 0) || (debounce <? 0) then Err (ErrNew "dev: watcher intervals must be positive")
  else match scanDevSourceFiles root with
       | inl err => Err (Errorf [T "dev: scan Go sources: "; W err])
       | inr initial => Ok (MkWatcher initial ∅ zero_time None None)
       end.
Definition reportError (err : goerror) (w : watcher) : watcher :=
  MkWatcher (previous w) (pending w) (lastChange w) (events w) (match errors w with None => Some err | some => some end).
Definition note_changes (current : sources) (now : Z) (w : watcher) : watcher :=
  let changed := changedDevSourceFiles (previous w) current in
  MkWatcher current (list_to_set changed ∪ pending w) (match changed with [] => lastChange w | _ => now end) (events w) (errors w).
Definition sorted_paths (paths : gset string) : list string := merge_sort (fun a b => string_le a b) (elements paths).
Definition emit_pending (debounce now : Z) (w : watcher) : watcher :=
  if bool_decide (pending w = ∅) || (Sub now (lastChange w) <? debounce) then w
  else match events w with
       | Some _ => w
       | None => MkWatcher (previous w) ∅ (lastChange w) (Some (sorted_paths (pending w))) (errors w)
       end.
(** A turn of the loop at a tick; the channels' readers. *)
Definition tick (debounce now : Z) (root : entry) (w : watcher) : watcher :=
  match scanDevSourceFiles root with
  | inl err => reportError (Errorf [T "dev: scan Go sources: "; W err]) w
  | inr current => emit_pending debounce now (note_changes current now w)
  end.
Definition take_event (w : watcher) : watcher := MkWatcher (previous w) (pending w) (lastChange w) None (errors w).
Definition take_error (w : watcher) : watcher := MkWatcher (previous w) (pending w) (lastChange w) (events w) None.

Definition describeDevWatchEvent (paths : list string) : string :=
  match paths with
  | [] => "Go sources"
  | _ =>
      if (length paths <=? 3)%nat then join ", " paths
      else join ", " (take 3 paths) +:+ " and " +:+ Itoa (Z.of_nat (length paths) - 3) +:+ " more"
  end.

(** ** Installing a rebuilt backend

    The files by name; a fault is the error of a call that fails. *)
Record install_faults := MkInstallFaults {
  remove_backup : option goerror;
  preserve_current : option goerror;
  install_candidate : option goerror;
  restore_previous : option goerror
}.
Definition err_missing := ErrNew "file does not exist".
Definition os_Rename (old new : string) (fault : option goerror) (d : gmap string string) : gmap string string * option goerror :=
  match fault, d !! old with
  | Some err, _ => (d, Some err)
  | None, None => (d, Some err_missing)
  | None, Some c => (<[new := c]> (delete old d), None)
  end.
Definition os_Remove (p : string) (fault : option goerror) (d : gmap string string) : gmap string string * option goerror :=
  match fault, d !! p with
  | Some err, _ => (d, Some err)
  | None, None => (d, Some err_missing)
  | None, Some _ => (delete p d, None)
  end.
Definition wrapDevRollbackError (err : option goerror) : option goerror :=
  match err with None => None | Some err => Some (Errorf [T "dev: restore previous backend: "; W err]) end.
Definition other_than_missing (err : option goerror) : option goerror :=
  match err with Some e => if errors_is e err_missing then None else Some e | None => None end.
Definition place_candidate (f : install_faults) (last_remove : option goerror) (current candidate : string) (hasPrevious : bool)
    (d : gmap string string) : gmap string string * option goerror :=
  let previous := current +:+ ".previous" in
  match os_Rename candidate current (install_candidate f) d with
  | (d, Some e) =>
      let failed := Errorf [T "dev: install rebuilt backend: "; W e] in
      if hasPrevious then
        let '(d, rollbackErr) := os_Rename previous current (restore_previous f) d in
        (d, errors_Join [Some failed; wrapDevRollbackError rollbackErr])
      else (d, Some failed)
  | (d, None) => (if hasPrevious then (os_Remove previous last_remove d).1 else d, None)
  end.
Definition installDevBackend (f : install_faults) (last_remove : option goerror) (current candidate : string) (d : gmap string string)
    : gmap string string * option goerror :=
  let previous := current +:+ ".previous" in
  let '(d, err) := os_Remove previous (remove_backup f) d in
  match other_than_missing err with
  | Some e => (d, Some (Errorf [T "dev: remove stale backend backup: "; W e]))
  | None =>
      let '(d, err) := os_Rename current previous (preserve_current f) d in
      match other_than_missing err with
      | Some e => (d, Some (Errorf [T "dev: preserve current backend: "; W e]))
      | None => place_candidate f last_remove current candidate (match err with None => true | _ => false end) d
      end
  end.

(** ** The supervision *)

Definition errDevBackendExited := ErrNew "dev: backend exited unexpectedly".
Definition backendExitError (err : option goerror) : goerror :=
  match err with None => errDevBackendExited | Some e => Errorf [W errDevBackendExited; T ": "; W e] end.

(** A child: [p_exit] is what its [Wait] returns once it has exited, [p_sent]
    whether the goroutine that waits for it has sent the exit, [p_done] the
    supervisor's mark. *)
Record process := MkProcess { p_name : string; p_exit : option (option goerror); p_sent : bool; p_done : bool }.
Definition started (name : string) : process := MkProcess name None false false.
Definition exited (err : option goerror) (p : process) : process := MkProcess (p_name p) (Some err) (p_sent p) (p_done p).
Definition sent_exit (p : process) : process := MkProcess (p_name p) (p_exit p) true (p_done p).
Definition mark_done (p : process) : process := MkProcess (p_name p) (p_exit p) (p_sent p) true.

(** Every process ever started, by number; those the supervisor has, the
    backend or the only one first; the channel of exits. *)
Record session := MkSession { table : list process; processes : list nat; exits : list (nat * option goerror) }.
Definition is_done (s : session) (n : nat) : bool := match table s !! n with Some p => p_done p | None => true end.
Definition name_of (s : session) (n : nat) : string := match table s !! n with Some p => p_name p | None => "" end.
Definition running (s : session) : list nat := filter (fun n => is_done s n = false) (processes s).

(** Errors of calls on processes, one answer for each; a process that is gone
    already is no error. *)
Definition call_errors (what : string) (s : session) (answers : nat -> option goerror) (ns : list nat) : list (option goerror) :=
  (fun n => match answers n with Some e => Some (Errorf [T ("dev: " +:+ what +:+ " " +:+ name_of s n +:+ ": "); W e]) | None => None end) <$> ns.
Definition not_killed_error := ErrNew "dev: child processes did not exit after kill".
Definition one_not_killed_error (name : string) := ErrNew ("dev: " +:+ name +:+ " did not exit after kill").

(** How a session is supervised: without a watcher, or a desktop or HTTP
    session with one. *)
Inductive mode := Plain | Desktop | HTTPMode.

(** Where the supervisor waits; [remaining] is the count of [stopProcesses],
    [k] what is made of the error it returns.  Only [supervise] and its variants
    listen for signals: before they do, and while [stopProcesses] works for
    [runHTTP], a signal ends the program. *)
Inductive control :=
| Starting                                                    (* started, before [signals] *)
| Supervising
| Rebuilt                                                     (* the poll before a restart *)
| StoppingOne (n : nat) (killed : bool) (errs : list (option goerror)) (others : list (nat * option goerror))
| Installing
| WaitingReady (first : bool)
| StoppingAll (listening killed : bool) (remaining : nat) (errs : list (option goerror)) (k : option goerror -> option goerror)
| Done (err : option goerror)
| Interrupted.                                                (* ended by a signal, without a return *)
Definition listens (c : control) : bool :=
  match c with Starting | WaitingReady true | StoppingAll false _ _ _ _ | Interrupted => false | _ => true end.

(** [stopProcesses] up to its first wait. *)
Definition stopProcesses (listening : bool) (s : session) (answers : nat -> option goerror) (k : option goerror -> option goerror) : control :=
  let errs := call_errors "signal" s answers (running s) in
  match length (running s) with O => Done (k (errors_Join errs)) | remaining => StoppingAll listening false remaining errs k end.
(** What [finishDevProcessExit] makes of its cleanup. *)
Definition exit_result (name : string) (err : option goerror) (cleanup : option goerror) : option goerror :=
  if String.eqb name "Flutter" then
    match err with Some e => errors_Join [Some (Errorf [T "dev: Flutter: "; W e]); cleanup] | None => cleanup end
  else errors_Join [Some (backendExitError err); cleanup].
Definition set_done (n : nat) (s : session) : session := MkSession (alter mark_done n (table s)) (processes s) (exits s).
Definition finishDevProcessExit (s : session) (n : nat) (err : option goerror) (answers : nat -> option goerror)
    (k : option goerror -> option goerror) : session * control :=
  let s := set_done n s in
  (s, stopProcesses true s answers (fun cleanup => k (exit_result (name_of s n) err cleanup))).
(** A restart that fails: the other processes of an HTTP session are stopped. *)
Definition fail_restart (m : mode) (s : session) (e : goerror) (answers : nat -> option goerror) : session * control :=
  match m with
  | HTTPMode => (s, stopProcesses true s answers (fun cleanup => errors_Join [Some e; cleanup]))
  | _ => (s, Done (Some e))
  end.
(** The process that a restart stops: Flutter, or the HTTP backend. *)
Definition restarted (s : session) : nat := default 0%nat (head (processes s)).
Definition restart_name (m : mode) : string := match m with HTTPMode => "Go HTTP backend" | _ => "Flutter" end.
(** After [stopDevProcess] returned [others] and the errors [errs]. *)
Definition after_stop (m : mode) (s : session) (errs : list (option goerror)) (others : list (nat * option goerror))
    (answers : nat -> option goerror) : session * control :=
  match others, errors_Join errs with
  | (n, err) :: _, stopErr => finishDevProcessExit s n err answers (fun r => errors_Join [stopErr; r])
  | [], Some e => fail_restart m s e answers
  | [], None => (s, Installing)
  end.
Definition start_replacement (m : mode) (s : session) : session :=
  MkSession (table s ++ [started (restart_name m)]) (length (table s) :: tail (processes s)) (exits s).
Definition start_flutter (s : session) : session :=
  MkSession (table s ++ [started "Flutter"]) (processes s ++ [length (table s)]) (exits s).
Definition receive (s : session) : option (nat * option goerror * session) :=
  match exits s with [] => None | (n, err) :: l => Some (n, err, MkSession (table s) (processes s) l) end.
Definition selects (c : control) : Prop := c = Supervising \/ c = Rebuilt \/ c = WaitingReady false.

(** A signal, an exit, a change of the sources, a timer: [answers] are the
    errors of the calls on processes that follow. *)
Inductive step (m : mode) : session * control -> session * control -> Prop :=
| process_exits s c n p err : table s !! n = Some p -> p_exit p = None ->
    step m (s, c) (MkSession (alter (exited err) n (table s)) (processes s) (exits s), c)
| exit_sent s c n p err : table s !! n = Some p -> p_exit p = Some err -> p_sent p = false ->
    step m (s, c) (MkSession (alter sent_exit n (table s)) (processes s) (exits s ++ [(n, err)]), c)
| signal_received s c answers : selects c -> step m (s, c) (s, stopProcesses true s answers (fun cleanup => cleanup))
| program_interrupted s c : listens c = false -> step m (s, c) (s, Interrupted)
| signals_registered s : step m (s, Starting) (s, Supervising)
| exit_received s c n err s' answers : selects c -> receive s = Some (n, err, s') ->
    step m (s, c) (finishDevProcessExit s' n err answers (fun r => r))
| rebuild_failed s : m <> Plain -> step m (s, Supervising) (s, Supervising)
| rebuild_done s : m <> Plain -> step m (s, Supervising) (s, Rebuilt)
| stop_for_restart s answers : exits s = [] -> is_done s (restarted s) = false ->
    step m (s, Rebuilt) (s, StoppingOne (restarted s) false (call_errors "signal" s answers [restarted s]) [])
| stopped_already s answers : exits s = [] -> is_done s (restarted s) = true -> step m (s, Rebuilt) (after_stop m s [] [] answers)
| one_exited s n killed errs others err s' answers : receive s = Some (n, err, s') ->
    step m (s, StoppingOne n killed errs others) (after_stop m (set_done n s') errs others answers)
| another_exited s n killed errs others i err s' : receive s = Some (i, err, s') -> i <> n ->
    step m (s, StoppingOne n killed errs others)
      (set_done i s', StoppingOne n killed errs (if is_done s' i then others else others ++ [(i, err)]))
| one_killed s n errs others answers :
    step m (s, StoppingOne n false errs others) (s, StoppingOne n true (errs ++ call_errors "kill" s answers [n]) others)
| one_given_up s n errs others answers :
    step m (s, StoppingOne n true errs others) (after_stop m s (errs ++ [Some (one_not_killed_error (name_of s n))]) others answers)
| install_or_start_failed s e answers : step m (s, Installing) (fail_restart m s e answers)
| replacement_started s :
    step m (s, Installing) (start_replacement m s, match m with HTTPMode => WaitingReady false | _ => Supervising end)
| backend_exited_early s n err s' : receive s = Some (n, err, s') ->
    step m (s, WaitingReady true) (set_done n s', Done (Some (backendExitError err)))
| not_ready s first e answers :
    step m (s, WaitingReady first) (s, stopProcesses (negb first) s answers (fun cleanup => errors_Join [Some e; cleanup]))
| flutter_not_started s e answers :
    step m (s, WaitingReady true) (s, stopProcesses false s answers (fun cleanup => errors_Join [Some e; cleanup]))
| flutter_started s : step m (s, WaitingReady true) (start_flutter s, Starting)
| ready_again s : step m (s, WaitingReady false) (s, Supervising)
| all_exit s l killed remaining errs k n err s' : receive s = Some (n, err, s') ->
    let remaining' := if is_done s' n then remaining else (remaining - 1)%nat in
    step m (s, StoppingAll l killed remaining errs k)
      (set_done n s', match remaining' with O => Done (k (errors_Join errs)) | _ => StoppingAll l killed remaining' errs k end)
| all_killed s l remaining errs k answers :
    step m (s, StoppingAll l false remaining errs k) (s, StoppingAll l true remaining (errs ++ call_errors "kill" s answers (running s)) k)
| all_given_up s l remaining errs k :
    step m (s, StoppingAll l true remaining errs k) (s, Done (k (errors_Join (errs ++ [Some not_killed_error])))).

(** A session whose first process has been started. *)
Definition begun (m : mode) : list (session * control) :=
  let desktop := (MkSession [started "Flutter"] [0%nat] [], Starting) in
  let http := (MkSession [started "Go HTTP backend"] [0%nat] [], WaitingReady true) in
  match m with Plain => [desktop; http] | Desktop => [desktop] | HTTPMode => [http] end.
Definition reachable (m : mode) (x : session * control) : Prop := exists x0, x0 ∈ begun m /\ rtc (step m) x0 x.

(** ** Options that are accepted fit together *)

Section AcceptedOptions.
Variables (SplitHostPort : string -> goerror + string * string) (JoinHostPort : string -> string -> string).
Variables (ParseRequestURI : string -> goerror + url) (loopback_ip : string -> bool) (goos : string) (stat : string -> goerror + bool).
Lemma resolve_http_fits o o' : resolve_http SplitHostPort JoinHostPort ParseRequestURI loopback_ip o = inr o' ->
  transport o' = transport o /\ localReadyAddress SplitHostPort JoinHostPort (listen o') = inr (readyAddress o') /\
  validateDevelopmentBackendURL ParseRequestURI (backendURL o') = None /\
  validateDevelopmentBackendBinding SplitHostPort ParseRequestURI loopback_ip (listen o') (backendURL o') = None /\
  TrimSpace (token o') <> EmptyString.
Proof.
  unfold resolve_http. intros H. destruct (localReadyAddress _ _ _) as [|ready] eqn:Er; [done|].
  destruct (String.eqb (TrimSpace (backendURL o)) "" && _ && _); [done|]. destruct (validateDevelopmentBackendURL _ _) eqn:Eu; [done|].
  destruct (validateDevelopmentBackendBinding _ _ _ _ _) eqn:Eb; [done|]. destruct (String.eqb_spec (TrimSpace (token o)) ""); [done|].
  destruct (String.eqb (TrimSpace (corsOrigin o)) ""); [done|]. injection H as <-. by repeat split.
Qed.
(** A sidecar session runs on the host's desktop; an HTTP session waits for the
    address it listens at, and the clients' URL leads there. *)
Lemma resolved_options_fit root web_ui o o' :
  resolveOptions SplitHostPort JoinHostPort ParseRequestURI loopback_ip goos stat root web_ui o = inr o' ->
  (transport o' = devTransportSidecar /\ hostDesktopDevice goos = inr (device o')) \/
  (transport o' = devTransportHTTP /\ localReadyAddress SplitHostPort JoinHostPort (listen o') = inr (readyAddress o') /\
   validateDevelopmentBackendURL ParseRequestURI (backendURL o') = None /\
   validateDevelopmentBackendBinding SplitHostPort ParseRequestURI loopback_ip (listen o') (backendURL o') = None /\
   TrimSpace (token o') <> EmptyString).
Proof.
  unfold resolveOptions. intros H. destruct root as [|clean]; [done|]. destruct web_ui as [|[|]]; [done..|].
  destruct (missing_file _ _); [done|]. destruct (missing_file _ _); [done|]. destruct (if String.eqb _ _ then _ else _) as [|dev]; [done|].
  destruct (resolve_transport _ _ _) as [|t] eqn:Et; [done|].
  destruct (String.eqb_spec t devTransportSidecar) as [->|Hne].
  - left. unfold resolve_sidecar in H. destruct (hostDesktopDevice goos) as [|expected]; [done|]. cbn [device] in H.
    destruct (String.eqb_spec dev expected) as [->|]; [|done]. cbn [negb] in H. destruct (negb _); [done|]. by injection H as <-.
  - right. apply resolve_http_fits in H as [Ht H]. split; [|exact H]. rewrite Ht. cbn [transport]. unfold resolve_transport in Et.
    destruct (String.eqb _ devTransportAuto); [destruct (negb _); [congruence|destruct (isDesktopDevice dev); congruence]|].
    destruct (String.eqb_spec (Project.to_lower (TrimSpace (transport o))) devTransportSidecar) as [E|]; cbn [orb] in Et; [congruence|].
    destruct (String.eqb_spec (Project.to_lower (TrimSpace (transport o))) devTransportHTTP) as [E|]; congruence.
Qed.
End AcceptedOptions.

(** ** No change of the sources is missed *)

Section Watching.
Variable debounce : Z.
Inductive watch_input := Tick (now : Z) (root : entry) | TakeEvent | TakeError.
Definition watch_one (w : watcher) (i : watch_input) : watcher :=
  match i with Tick now root => tick debounce now root w | TakeEvent => take_event w | TakeError => take_error w end.
(** What the watcher had seen of a path when it gave the last event about it. *)
Definition known_after (w : watcher) (i : watch_input) (known : string -> option devSourceState) : string -> option devSourceState :=
  match i, events w, events (watch_one w i) with
  | Tick _ _, None, Some paths => fun path => if decide (path ∈ paths) then previous (watch_one w i) !! path else known path
  | _, _, _ => known
  end.
Fixpoint watch_all (inputs : list watch_input) (w : watcher) (known : string -> option devSourceState)
    : watcher * (string -> option devSourceState) :=
  match inputs with [] => (w, known) | i :: inputs => watch_all inputs (watch_one w i) (known_after w i known) end.

Lemma changed_elem previous current path : path ∈ changedDevSourceFiles previous current <-> previous !! path <> current !! path.
Proof.
  unfold changedDevSourceFiles. rewrite merge_sort_elem_of, elem_of_app, !list_elem_of_filter, !list_elem_of_fmap. split.
  - intros [[H _]|[H ((k & v) & -> & Hk%elem_of_map_to_list)]]; [done|]. cbn in *. by rewrite H, Hk.
  - intros H. destruct (current !! path) as [v|] eqn:E.
    + left. split; [done|]. exists (path, v). split; [done|]. by apply elem_of_map_to_list.
    + destruct (previous !! path) as [v|] eqn:Ep; [|done]. right. split; [done|]. exists (path, v). split; [done|]. by apply elem_of_map_to_list.
Qed.
Definition up_to_date (w : watcher) (known : string -> option devSourceState) : Prop :=
  forall path, previous w !! path <> known path -> path ∈ pending w.
Lemma sorted_paths_elem paths path : path ∈ sorted_paths paths <-> path ∈ paths.
Proof. unfold sorted_paths. by rewrite merge_sort_elem_of, elem_of_elements. Qed.
Lemma note_changes_up_to_date current now w known : up_to_date w known -> up_to_date (note_changes current now w) known.
Proof.
  intros H path Hp. cbn in *. destruct (decide (previous w !! path = current !! path)) as [E|E].
  - apply elem_of_union_r, H. congruence.
  - apply elem_of_union_l, elem_of_list_to_set. by apply changed_elem.
Qed.
Lemma watch_one_up_to_date w i known : up_to_date w known -> up_to_date (watch_one w i) (known_after w i known).
Proof.
  intros H. destruct i as [now root| |]; [|done..]. unfold known_after. cbn [watch_one]. unfold tick.
  destruct (scanDevSourceFiles root) as [err|current]; [cbn [reportError events]; by destruct (events w)|].
  apply (note_changes_up_to_date current now) in H. unfold emit_pending.
  destruct (bool_decide _ || _); [cbn [note_changes events]; by destruct (events w)|]. cbn [note_changes events].
  destruct (events w); [done|]. cbn [events]. intros path. cbn [previous pending]. intros Hp. exfalso. apply Hp.
  destruct (decide (path ∈ sorted_paths _)) as [|Hn]; [done|]. rewrite sorted_paths_elem in Hn.
  destruct (decide (current !! path = known path)) as [|E]; [done|]. by destruct (Hn (H path E)).
Qed.
Lemma watch_all_up_to_date inputs : forall w known, up_to_date w known ->
  up_to_date (watch_all inputs w known).1 (watch_all inputs w known).2.
Proof. induction inputs as [|i inputs IH]; [done|]. intros w known H. by apply IH, watch_one_up_to_date. Qed.

(** C40. No change of the sources is missed: however ticks, failed scans and
    slow readers interleave, a path whose state differs from what it was when
    an event last named it is pending; and once the sources have been quiet for
    the debounce time and the last event was taken, the next tick gives an
    event with all pending paths, each once and in order. *)
Theorem watcher_misses_no_change interval root w0 inputs :
  newPollingDevWatcher interval debounce root = Ok w0 ->
  let '(w, known) := watch_all inputs w0 (fun path => previous w0 !! path) in
  (forall path, previous w !! path <> known path -> path ∈ pending w) /\
  forall now root', scanDevSourceFiles root' = inr (previous w) -> pending w <> ∅ -> debounce <= Sub now (lastChange w) -> events w = None ->
    exists paths, events (tick debounce now root' w) = Some paths /\ pending (tick debounce now root' w) = ∅ /\
      (forall path, path ∈ paths <-> path ∈ pending w) /\ NoDup paths /\ Sorted (fun a b => string_le a b) paths.
Proof.
  intros H0. pose proof (watch_all_up_to_date inputs w0 (fun path => previous w0 !! path)) as H.
  destruct (watch_all inputs w0 _) as [w known]. split.
  - apply H. by intros path.
  - intros now root' Hscan Hp Hq Hev. unfold tick. rewrite Hscan.
    assert (changedDevSourceFiles (previous w) (previous w) = []) as Hnone.
    { destruct (changedDevSourceFiles _ _) as [|path l] eqn:E; [done|]. assert (path ∈ path :: l) as Hin by set_solver.
      rewrite <-E in Hin. by apply changed_elem in Hin. }
    unfold note_changes. rewrite Hnone. cbn [list_to_set]. rewrite union_empty_l_L. unfold emit_pending. cbn [pending lastChange events].
    rewrite bool_decide_eq_false_2 by done. destruct (Z.ltb_spec (Sub now (lastChange w)) debounce); [lia|]. cbn [orb]. rewrite Hev.
    cbn [events pending]. eexists. split; [done|]. split; [done|]. split; [intros path; apply sorted_paths_elem|]. split.
    + unfold sorted_paths. rewrite merge_sort_Permutation. apply NoDup_elements.
    + apply Sorted_merge_sort, _.
Qed.
End Watching.

(** ** An install never loses the backend *)

Lemma os_Remove_spec p fault d d' err : os_Remove p fault d = (d', err) ->
  (d' = d /\ is_Some err) \/ (err = None /\ is_Some (d !! p) /\ d' = delete p d).
Proof. unfold os_Remove. destruct fault, (d !! p) eqn:E; intros [= <- <-]; eauto 6. Qed.
Lemma os_Rename_spec a b fault d d' err : os_Rename a b fault d = (d', err) ->
  (d' = d /\ is_Some err) \/ (exists c, err = None /\ d !! a = Some c /\ d' = <[b := c]> (delete a d)).
Proof. unfold os_Rename. destruct fault, (d !! a) eqn:E; intros [= <- <-]; eauto 6. Qed.
Lemma backup_name_differs current : current +:+ ".previous" <> current.
Proof.
  intros E. apply (f_equal string_length) in E. rewrite string_length_app in E. cbn in E. lia.
Qed.
Section Installing.
Variables (f : install_faults) (last_remove : option goerror) (current candidate : string).
#[local] Abbreviation backup := (current +:+ ".previous").
Hypothesis candidate_differs : candidate <> current /\ candidate <> backup.
Definition kept_backend (old new : string) (d : gmap string string) (err : option goerror) : Prop :=
  match err with
  | None => d !! current = Some new /\ d !! candidate = None
  | Some _ => d !! candidate = Some new /\ (d !! current = Some old \/ is_Some (restore_previous f) /\ d !! backup = Some old)
  end.
Ltac look := repeat first [rewrite lookup_insert_ne by congruence|rewrite lookup_delete_ne by congruence|rewrite lookup_insert_eq|rewrite lookup_delete_eq].
(** [hasPrevious] says where the old backend is. *)
Lemma place_keeps old new d (hasPrevious : bool) d' err : d !! candidate = Some new ->
  (if hasPrevious then d !! backup = Some old /\ d !! current = None else d !! current = Some old) ->
  place_candidate f last_remove current candidate hasPrevious d = (d', err) -> kept_backend old new d' err.
Proof.
  destruct candidate_differs as [Hc Hb]. pose proof (backup_name_differs current) as Hp. intros Hn Ho. unfold place_candidate.
  destruct (os_Rename candidate current _ d) as [d1 e1] eqn:E1. apply os_Rename_spec in E1 as [[-> [e ->]]|(c & -> & Hcc & ->)].
  - destruct hasPrevious; [|intros [= <- <-]; cbn; auto]. destruct Ho as [Ho Hcur].
    destruct (os_Rename backup current _ d) as [d2 e2] eqn:E2. intros [= <- <-]. unfold os_Rename in E2. rewrite Ho in E2.
    destruct (restore_previous f) eqn:Ef; injection E2 as <- <-; cbn; rewrite Ef.
    + eauto.
    + look. auto.
  - assert (c = new) as -> by congruence. intros [= <- <-]. cbn. destruct hasPrevious; [|look; auto].
    destruct (os_Remove backup last_remove _) as [d2 e2] eqn:E2. cbn. apply os_Remove_spec in E2 as [[-> _]|(_ & _ & ->)]; look; auto.
Qed.
(** Whatever calls fail, the candidate is installed or still there; and the old
    backend is in its place then, or in the backup if it could not be put back. *)
Lemma install_keeps_backend old new d d' err : d !! current = Some old -> d !! candidate = Some new ->
  installDevBackend f last_remove current candidate d = (d', err) -> kept_backend old new d' err.
Proof.
  destruct candidate_differs as [Hc Hb]. pose proof (backup_name_differs current) as Hp. intros Ho Hn. unfold installDevBackend.
  destruct (os_Remove backup _ d) as [d1 e1] eqn:E1.
  assert (d1 !! current = Some old /\ d1 !! candidate = Some new) as [Ho1 Hn1].
  { apply os_Remove_spec in E1 as [[-> _]|(_ & _ & ->)]; look; auto. }
  destruct (other_than_missing e1); [intros [= <- <-]; cbn; auto|].
  destruct (os_Rename current backup _ d1) as [d2 e2] eqn:E2. apply os_Rename_spec in E2 as [[-> [e ->]]|(c & -> & Hcc & ->)].
  - destruct (other_than_missing _); [intros [= <- <-]; cbn; auto|]. by apply place_keeps.
  - assert (c = old) as -> by congruence. cbn [other_than_missing]. apply place_keeps; look; auto.
Qed.
End Installing.

(** ** No child outlives the session unnoticed *)

Section Session.
Implicit Types (s : session) (r : option goerror).

(** An error that says so, wherever it was joined to others. *)
Definition says r (t : goerror) : Prop := match r with Some e => errors_is e t = true | None => False end.
Definition names_survivor (name : string) r : Prop := says r not_killed_error \/ says r (one_not_killed_error name).
Definition keeps (k : option goerror -> option goerror) : Prop := forall r t, says r (ErrNew t) -> says (k r) (ErrNew t).
Lemma says_join es r t : r ∈ es -> says r (ErrNew t) -> says (errors_Join es) (ErrNew t).
Proof.
  intros Hin Hr. destruct r as [e|]; [|done]. unfold errors_Join. assert (e ∈ omap id es) as Hin'.
  { apply list_elem_of_omap. exists (Some e). done. }
  destruct (omap id es) as [|e' l]; [by apply elem_of_nil in Hin'|]. cbn [says errors_is]. apply existsb_exists. exists e.
  split; [by apply list_elem_of_In|done].
Qed.
Lemma keeps_id : keeps (fun r => r).
Proof. by intros r t. Qed.
Lemma keeps_join e : keeps (fun r => errors_Join [e; r]).
Proof. intros r t. apply says_join. set_solver. Qed.
Lemma keeps_exit k name err : keeps k -> keeps (fun cleanup => k (exit_result name err cleanup)).
Proof.
  intros Hk r t Hr. apply Hk. unfold exit_result. destruct (String.eqb name "Flutter"); [destruct err; [|done]|];
    (eapply says_join; [|exact Hr]); set_solver.
Qed.

(** Every process the supervisor has not seen exit is one of [processes]. *)
Record sound s : Prop := Sound {
  s_done : forall n p, table s !! n = Some p -> p_done p = true -> p_exit p <> None;
  s_exits : forall n err, (n, err) ∈ exits s -> exists p, table s !! n = Some p /\ p_exit p = Some err;
  s_known : forall n p, table s !! n = Some p -> p_done p = false -> n ∈ processes s;
  s_processes : NoDup (processes s) /\ forall n, n ∈ processes s -> is_Some (table s !! n)
}.
Definition has_exited s (n : nat) : Prop := exists p err, table s !! n = Some p /\ p_exit p = Some err.
Definition survivors_named s r : Prop := forall n p, table s !! n = Some p -> p_exit p = None -> names_survivor (p_name p) r.
(** A desktop session has one process. *)
Definition shape (m : mode) s : Prop := processes s <> [] /\ (m = Desktop -> length (processes s) = 1%nat).
Definition control_ok (m : mode) s (c : control) : Prop :=
  match c with
  | Starting | Supervising => shape m s
  | Rebuilt => shape m s /\ m <> Plain
  | WaitingReady first => processes s <> [] /\ m <> Desktop /\ (first = true -> length (table s) = 1%nat)
  | StoppingOne n _ _ others => shape m s /\ m <> Plain /\ n = restarted s /\ Forall (fun x => has_exited s x.1) others
  | Installing => shape m s /\ m <> Plain /\ is_done s (restarted s) = true
  | StoppingAll _ _ remaining _ k => remaining = length (running s) /\ (0 < remaining)%nat /\ keeps k
  | Done r => survivors_named s r
  | Interrupted => True
  end.
Definition ok (m : mode) (x : session * control) : Prop := sound x.1 /\ control_ok m x.1 x.2.

Lemma running_elem s n : n ∈ running s <-> n ∈ processes s /\ is_done s n = false.
Proof. unfold running. rewrite list_elem_of_filter. tauto. Qed.
Lemma all_done_survivors s r : sound s -> running s = [] -> survivors_named s r.
Proof.
  intros H Hr n p Hp He. destruct (p_done p) eqn:Ed; [by destruct (s_done s H n p Hp Ed)|].
  assert (n ∈ running s) as Hin; [|by rewrite Hr in Hin; apply elem_of_nil in Hin].
  apply running_elem. split; [by eapply s_known|]. unfold is_done. by rewrite Hp.
Qed.
Lemma stopProcesses_ok m l s answers k : sound s -> keeps k -> ok m (s, stopProcesses l s answers k).
Proof.
  intros H Hk. split; [done|]. unfold stopProcesses. destruct (running s) as [|n l'] eqn:E; cbn [length fst snd control_ok].
  - by apply all_done_survivors.
  - rewrite E. cbn. repeat split; [lia|done].
Qed.

Lemma table_alter (g : process -> process) s n i p : alter g n (table s) !! i = Some p ->
  (i <> n /\ table s !! i = Some p) \/ (i = n /\ exists q, table s !! n = Some q /\ p = g q).
Proof.
  intros H. destruct (decide (i = n)) as [->|Hn]; [|left; by rewrite list_lookup_alter_ne in H].
  right. rewrite list_lookup_alter_eq in H. destruct (table s !! n) as [q|]; [|done]. injection H as <-. eauto.
Qed.
(** What a process does by itself changes nothing for the supervisor. *)
Lemma own_step_sound s (g : process -> process) n p l : sound s -> table s !! n = Some p ->
  (forall q, p_name (g q) = p_name q /\ p_done (g q) = p_done q) -> p_exit (g p) <> None -> (forall e, p_exit p = Some e -> p_exit (g p) = Some e) ->
  (forall i err, (i, err) ∈ l -> (i, err) ∈ exits s \/ i = n /\ p_exit (g p) = Some err) ->
  let s' := MkSession (alter g n (table s)) (processes s) l in
  sound s' /\ (forall i, is_done s' i = is_done s i) /\ (forall i, has_exited s i -> has_exited s' i) /\
  (forall i q, table s' !! i = Some q -> p_exit q = None -> exists q', table s !! i = Some q' /\ p_exit q' = None /\ p_name q' = p_name q).
Proof.
  intros H Hp Hg Hx Hm Hl s'. assert (forall i q, table s' !! i = Some q -> (i <> n /\ table s !! i = Some q) \/ (i = n /\ q = g p)) as Hinv.
  { intros i q [|[-> (q' & Hq' & ->)]]%table_alter; [by left|]. right. rewrite Hp in Hq'. by injection Hq' as ->. }
  assert (table s' !! n = Some (g p)) as Hn by (cbn; by rewrite list_lookup_alter_eq, Hp).
  assert (forall i, i <> n -> table s' !! i = table s !! i) as Hne by (intros i Hi; cbn; by rewrite list_lookup_alter_ne).
  split; [constructor|split; [|split]].
  - intros i q Hq Hd. destruct (Hinv i q Hq) as [[_ Hq']|[-> ->]]; [by eapply s_done|done].
  - intros i err Hin. apply Hl in Hin as [Hin|[-> He]]; [|eauto]. destruct (s_exits s H i err Hin) as (q & Hq & Hqe).
    destruct (decide (i = n)) as [->|Hi]; [|exists q; by rewrite Hne]. exists (g p). split; [done|]. apply Hm. congruence.
  - intros i q Hq Hd. destruct (Hinv i q Hq) as [[_ Hq']|[-> ->]]; [by apply (s_known s H i q)|]. apply (s_known s H n p Hp). by rewrite <-(proj2 (Hg p)).
  - destruct (s_processes s H) as [Hnd Hall]. split; [done|]. intros i Hi.
    destruct (decide (i = n)) as [->|Hne']; [by rewrite Hn|]. rewrite (Hne i Hne'). by apply Hall.
  - intros i. unfold is_done. destruct (decide (i = n)) as [->|Hi]; [rewrite Hn, Hp; apply Hg|by rewrite Hne].
  - intros i (q & err & Hq & Hqe). destruct (decide (i = n)) as [->|Hi]; [|exists q, err; by rewrite Hne].
    exists (g p), err. split; [done|]. apply Hm. congruence.
  - intros i q Hq He. destruct (Hinv i q Hq) as [[_ Hq']|[-> ->]]; [eauto|done].
Qed.
Lemma control_ok_frame m s s' c : processes s' = processes s -> length (table s') = length (table s) -> (forall i, is_done s' i = is_done s i) ->
  (forall i, has_exited s i -> has_exited s' i) ->
  (forall i q, table s' !! i = Some q -> p_exit q = None -> exists q', table s !! i = Some q' /\ p_exit q' = None /\ p_name q' = p_name q) ->
  control_ok m s c -> control_ok m s' c.
Proof.
  intros Hp Ht Hd Hx Hs. assert (running s' = running s) as Hr.
  { unfold running. rewrite Hp. apply list_filter_iff. intros i. by rewrite Hd. }
  destruct c as [| | |n killed errs others| |first|l killed remaining errs k|r|]; cbn [control_ok]; unfold shape, restarted; rewrite ?Hp, ?Hr, ?Hd, ?Ht; try done.
  - intros (H1 & H2 & H3 & H4). repeat split; try apply H1; try done. eapply Forall_impl; [exact H4|]. intros x. apply Hx.
  - intros H i q Hq He. destruct (Hs i q Hq He) as (q' & Hq' & He' & <-). by eapply H.
Qed.

Lemma receive_spec s n err s' : sound s -> receive s = Some (n, err, s') ->
  sound s' /\ table s' = table s /\ processes s' = processes s /\ has_exited s n.
Proof.
  intros H. unfold receive. destruct (exits s) as [|[i e] l] eqn:E; [done|]. intros [= -> -> <-].
  destruct (s_exits s H n err) as (p & Hp & He); [rewrite E; set_solver|]. split; [|split; [done|split; [done|by exists p, err]]].
  destruct H as [H1 H2 H3 H4]. constructor; try done. intros i e Hin. apply H2. rewrite E. set_solver.
Qed.
Lemma set_done_spec s n : sound s -> has_exited s n ->
  sound (set_done n s) /\ (forall i, is_done (set_done n s) i = (is_done s i || bool_decide (i = n))) /\
  (forall i, has_exited s i -> has_exited (set_done n s) i) /\ forall i, name_of (set_done n s) i = name_of s i.
Proof.
  intros H (p & err & Hp & He). assert (forall i q, table (set_done n s) !! i = Some q -> (i <> n /\ table s !! i = Some q) \/ (i = n /\ q = mark_done p)) as Hinv.
  { intros i q [|[-> (q' & Hq' & ->)]]%table_alter; [by left|]. right. rewrite Hp in Hq'. by injection Hq' as ->. }
  assert (table (set_done n s) !! n = Some (mark_done p)) as Hn by (cbn; by rewrite list_lookup_alter_eq, Hp).
  assert (forall i, i <> n -> table (set_done n s) !! i = table s !! i) as Hne by (intros i Hi; cbn; by rewrite list_lookup_alter_ne).
  split; [constructor|split; [|split]].
  - intros i q Hq Hd. destruct (Hinv i q Hq) as [[_ Hq']|[-> ->]]; [by apply (s_done s H i q)|]. cbn. congruence.
  - intros i e Hin. destruct (s_exits s H i e Hin) as (q & Hq & Hqe).
    destruct (decide (i = n)) as [->|Hi]; [|exists q; by rewrite Hne]. exists (mark_done p). split; [done|]. cbn. congruence.
  - intros i q Hq Hd. destruct (Hinv i q Hq) as [[_ Hq']|[-> ->]]; [by apply (s_known s H i q)|done].
  - destruct (s_processes s H) as [Hnd Hall]. split; [done|]. intros i Hi.
    destruct (decide (i = n)) as [->|Hne']; [by rewrite Hn|]. rewrite (Hne i Hne'). by apply Hall.
  - intros i. unfold is_done. destruct (decide (i = n)) as [->|Hi]; [rewrite Hn, bool_decide_eq_true_2, orb_true_r by done; done|].
    rewrite Hne, bool_decide_eq_false_2, orb_false_r by done. done.
  - intros i (q & e & Hq & Hqe). destruct (decide (i = n)) as [->|Hi]; [|exists q, e; by rewrite Hne]. exists (mark_done p), e. split; [done|]. cbn. congruence.
  - intros i. unfold name_of. destruct (decide (i = n)) as [->|Hi]; [by rewrite Hn, Hp|by rewrite Hne].
Qed.
(** Each exit that is news takes one process off those that run. *)
Lemma running_set_done s n : sound s -> has_exited s n ->
  length (running s) = (length (running (set_done n s)) + if is_done s n then 0 else 1)%nat.
Proof.
  intros H Hx. destruct (set_done_spec s n H Hx) as (_ & Hd & _ & _). destruct (s_processes s H) as [Hnd _].
  assert (NoDup (running s)) as N1 by by apply NoDup_filter. assert (NoDup (running (set_done n s))) as N2 by by apply NoDup_filter.
  destruct (is_done s n) eqn:E.
  - rewrite Nat.add_0_r. apply Permutation_length, NoDup_Permutation; [done..|]. intros i. rewrite !running_elem, Hd. cbn [set_done processes].
    destruct (bool_decide_reflect (i = n)) as [->|]; [rewrite E|rewrite orb_false_r]; done.
  - rewrite Nat.add_1_r. change (S (length (running (set_done n s)))) with (length (n :: running (set_done n s))).
    apply Permutation_length, NoDup_Permutation; [done|constructor; [|done]|].
    + rewrite running_elem, Hd, bool_decide_eq_true_2, orb_true_r by done. by intros [_ ?].
    + intros i. rewrite elem_of_cons, !running_elem, Hd. cbn [set_done processes]. destruct (bool_decide_reflect (i = n)) as [->|Hi].
      * rewrite orb_true_r. split; [by left|]. intros [_|[_ ?]]; [|done]. split; [|done]. destruct Hx as (p & err & Hp & _).
        apply (s_known s H n p Hp). unfold is_done in E. by rewrite Hp in E.
      * rewrite orb_false_r. split; [by right|]. by intros [|].
Qed.
Lemma finish_ok m s n err answers k : sound s -> has_exited s n -> keeps k -> ok m (finishDevProcessExit s n err answers k).
Proof.
  intros H Hx Hk. destruct (set_done_spec s n H Hx) as (Hs & _). apply stopProcesses_ok; [done|]. by apply keeps_exit.
Qed.

Lemma fail_restart_ok m s e answers : sound s -> shape m s -> m <> Plain ->
  is_done s (restarted s) = true \/ says (Some e) (one_not_killed_error (name_of s (restarted s))) -> ok m (fail_restart m s e answers).
Proof.
  intros H [Hne Hl] Hm He. destruct m; [done| |by apply stopProcesses_ok, keeps_join]. specialize (Hl eq_refl). split; [done|].
  change (survivors_named s (Some e)). unfold restarted in He. destruct (processes s) as [|h [|]] eqn:Ep; try done. cbn in He.
  intros n p Hp Hx. destruct (p_done p) eqn:Ed; [by destruct (s_done s H n p Hp Ed)|].
  pose proof (s_known s H n p Hp Ed) as Hin. rewrite Ep in Hin. apply list_elem_of_singleton in Hin as ->.
  unfold is_done, name_of in He. rewrite Hp, Ed in He. destruct He as [|He]; [done|by right].
Qed.
Lemma after_stop_ok m s errs others answers : sound s -> shape m s -> m <> Plain -> Forall (fun x => has_exited s x.1) others ->
  is_done s (restarted s) = true \/ says (errors_Join errs) (one_not_killed_error (name_of s (restarted s))) ->
  ok m (after_stop m s errs others answers).
Proof.
  intros H Hsh Hm Ho He. unfold after_stop. destruct others as [|[i e] others].
  - destruct (errors_Join errs) as [e|]; [by apply fail_restart_ok|]. split; [done|]. by destruct He.
  - apply Forall_cons_1 in Ho as [Hi _]. apply finish_ok; [done..|]. apply keeps_join.
Qed.
Lemma restarted_frame s s' : processes s' = processes s -> restarted s' = restarted s.
Proof. unfold restarted. by intros ->. Qed.

Lemma started_sound s name ps : sound s -> NoDup ps -> length (table s) ∈ ps ->
  (forall n, n ∈ ps -> n = length (table s) \/ is_Some (table s !! n)) ->
  (forall n, n ∈ processes s -> is_done s n = false -> n ∈ ps) ->
  sound (MkSession (table s ++ [started name]) ps (exits s)).
Proof.
  intros H Hnd Hin Hall Hps.
  assert (forall n p, (table s ++ [started name]) !! n = Some p -> table s !! n = Some p \/ n = length (table s) /\ p = started name) as Hinv.
  { intros n p [|[Hle Hp]]%lookup_app_Some; [by left|]. right. apply list_lookup_singleton_Some in Hp as [Hz <-]. split; [lia|done]. }
  constructor; cbn [table processes exits].
  - intros n p Hp Hd. destruct (Hinv n p Hp) as [Hp'|[-> ->]]; [by apply (s_done s H n p)|done].
  - intros n err He. destruct (s_exits s H n err He) as (p & Hp & Hx). exists p. split; [|done]. by apply lookup_app_l_Some.
  - intros n p Hp Hd. destruct (Hinv n p Hp) as [Hp'|[-> ->]]; [|done]. apply Hps; [by apply (s_known s H n p)|]. unfold is_done. by rewrite Hp'.
  - split; [done|]. intros n Hn. destruct (Hall n Hn) as [->|[p Hp]].
    + exists (started name). by rewrite lookup_app_r, Nat.sub_diag.
    + exists p. by apply lookup_app_l_Some.
Qed.
Lemma new_number s n : sound s -> n ∈ processes s -> n <> length (table s).
Proof. intros H Hn ->. destruct (proj2 (s_processes s H) _ Hn) as [p Hp]. apply lookup_lt_Some in Hp. lia. Qed.
Lemma start_replacement_sound m s : sound s -> is_done s (restarted s) = true -> sound (start_replacement m s).
Proof.
  intros H Hd. destruct (s_processes s H) as [Hnd Hall]. pose proof (fun n => new_number s n H) as Hnew. unfold restarted in Hd.
  apply started_sound; [done|..]; destruct (processes s) as [|h l] eqn:E; cbn [tail head from_option id] in *.
  - constructor; [|constructor]. by intros ?%elem_of_nil.
  - constructor; [|by apply NoDup_cons in Hnd as [_ ?]]. intros Hin. by apply (Hnew (length (table s))); [set_solver|].
  - set_solver.
  - set_solver.
  - intros n Hn. left. set_solver.
  - intros n Hn. apply elem_of_cons in Hn as [->|Hn]; [by left|]. right. apply Hall. set_solver.
  - set_solver.
  - intros n Hn Hnd'. apply elem_of_cons in Hn as [->|Hn]; [congruence|]. set_solver.
Qed.
Lemma start_flutter_sound s : sound s -> sound (start_flutter s).
Proof.
  intros H. destruct (s_processes s H) as [Hnd Hall]. pose proof (fun n => new_number s n H) as Hnew. apply started_sound; [done|..].
  - apply NoDup_app. split; [done|]. split; [|apply NoDup_singleton]. intros n Hn Hin. apply list_elem_of_singleton in Hin. by apply (Hnew n Hn).
  - set_solver.
  - intros n [Hn|Hn]%elem_of_app; [right; by apply Hall|left; set_solver].
  - set_solver.
Qed.

Lemma frame_ok m s s' c : sound s' -> processes s' = processes s -> length (table s') = length (table s) -> (forall i, is_done s' i = is_done s i) ->
  (forall i, has_exited s i -> has_exited s' i) ->
  (forall i q, table s' !! i = Some q -> p_exit q = None -> exists q', table s !! i = Some q' /\ p_exit q' = None /\ p_name q' = p_name q) ->
  control_ok m s c -> ok m (s', c).
Proof. intros. split; [done|]. by eapply control_ok_frame. Qed.
(** The exit of the process that a restart waits for, and of another one. *)
Lemma one_exited_ok m s n errs others killed answers err s' : ok m (s, StoppingOne n killed errs others) -> receive s = Some (n, err, s') ->
  ok m (after_stop m (set_done n s') errs others answers).
Proof.
  intros [H (Hsh & Hm & -> & Ho)] Hr; cbn [fst snd] in *. destruct (receive_spec _ _ _ _ H Hr) as (H' & Ht & Hp & p & e & Hx).
  assert (has_exited s' (restarted s)) as Hx' by (exists p, e; by rewrite Ht). destruct (set_done_spec _ _ H' Hx') as (Hs & Hd & Hex & _).
  apply after_stop_ok; [done| |done| |].
  - unfold shape in *. cbn [set_done processes]. by rewrite Hp.
  - eapply Forall_impl; [exact Ho|]. intros x (q & e' & Hq & Hqe). apply Hex. exists q, e'. by rewrite Ht.
  - left. rewrite Hd. rewrite (restarted_frame s); [by rewrite bool_decide_eq_true_2, orb_true_r|]. cbn. by rewrite Hp.
Qed.
Lemma another_exited_ok m s n killed errs others i err s' : ok m (s, StoppingOne n killed errs others) -> receive s = Some (i, err, s') ->
  ok m (set_done i s', StoppingOne n killed errs (if is_done s' i then others else others ++ [(i, err)])).
Proof.
  intros [H (Hsh & Hm & -> & Ho)] Hr; cbn [fst snd] in *. destruct (receive_spec _ _ _ _ H Hr) as (H' & Ht & Hp & p & e & Hx).
  assert (has_exited s' i) as Hx' by (exists p, e; by rewrite Ht). destruct (set_done_spec _ _ H' Hx') as (Hs & Hd & Hex & _).
  split; [done|]. cbn [fst snd control_ok]. split; [unfold shape in *; cbn [set_done processes]; by rewrite Hp|]. split; [done|].
  split; [symmetry; apply restarted_frame; cbn; by rewrite Hp|].
  assert (Forall (fun x => has_exited (set_done i s') x.1) others) as Ho'.
  { eapply Forall_impl; [exact Ho|]. intros x (q & e' & Hq & Hqe). apply Hex. exists q, e'. by rewrite Ht. }
  destruct (is_done s' i); [done|]. apply Forall_app. split; [done|]. constructor; [by apply Hex|constructor].
Qed.
Lemma all_exit_ok m s l killed remaining errs k n err s' : ok m (s, StoppingAll l killed remaining errs k) -> receive s = Some (n, err, s') ->
  let remaining' := if is_done s' n then remaining else (remaining - 1)%nat in
  ok m (set_done n s', match remaining' with O => Done (k (errors_Join errs)) | _ => StoppingAll l killed remaining' errs k end).
Proof.
  intros [H (Hrem & Hpos & Hk)] Hr remaining'; cbn [fst snd] in *. destruct (receive_spec _ _ _ _ H Hr) as (H' & Ht & Hp & p & e & Hx).
  assert (has_exited s' n) as Hx' by (exists p, e; by rewrite Ht). destruct (set_done_spec _ _ H' Hx') as (Hs & _).
  assert (remaining' = length (running (set_done n s'))) as Hrem'.
  { pose proof (running_set_done _ _ H' Hx') as E. assert (running s' = running s) as E'.
    { unfold running. rewrite Hp. apply list_filter_iff. intros i. unfold is_done. by rewrite Ht. }
    rewrite E', <-Hrem in E. unfold remaining'. destruct (is_done s' n); lia. }
  split; [done|]. destruct remaining' as [|r] eqn:Er; cbn [fst snd control_ok].
  - apply all_done_survivors; [done|]. by apply length_zero_iff_nil.
  - split; [done|]. split; [lia|done].
Qed.
Lemma step_ok m x x' : step m x x' -> ok m x -> ok m x'.
Proof.
  intros Hst Hok. destruct Hst as [s c n p err Hp He|s c n p err Hp He Hsent|s c answers Hc|s c _| |s c n err s' answers Hc Hr| | | | |
    s n killed errs others err s' answers Hr|s n killed errs others i err s' Hr _| | | | |s n err s' Hr| | | | |s l killed remaining errs k n err s' Hr| |].
  - destruct Hok as [H Hc]. destruct (own_step_sound s (exited err) n p (exits s) H Hp) as (Hs & Hd & Hx & Hl); [done|done|congruence|by left|].
    apply (frame_ok m s); try done. cbn. apply length_alter.
  - destruct Hok as [H Hc]. destruct (own_step_sound s sent_exit n p (exits s ++ [(n, err)]) H Hp) as (Hs & Hd & Hx & Hl);
      [done|cbn; congruence|done| |apply (frame_ok m s); try done; cbn; apply length_alter].
    intros i e Hin. apply elem_of_app in Hin as [Hin|Hin]; [by left|]. apply list_elem_of_singleton in Hin as [= -> ->]. by right.
  - destruct Hok as [H _]. apply stopProcesses_ok; [done|apply keeps_id].
  - by destruct Hok as [H _].
  - done.
  - destruct Hok as [H _]. destruct (receive_spec _ _ _ _ H Hr) as (H' & Ht & _ & p & e & Hx).
    apply finish_ok; [done| |apply keeps_id]. exists p, e. by rewrite Ht.
  - done.
  - destruct Hok as [Hso Hc]. by split.
  - destruct Hok as [Hso [Hsh Hm]]. split; [done|]. by cbn.
  - destruct Hok as [Hso [Hsh Hm]]. apply after_stop_ok; [done..|constructor|by left].
  - by eapply one_exited_ok.
  - by eapply another_exited_ok.
  - done.
  - destruct Hok as [Hso (Hsh & Hm & -> & Ho)]. apply after_stop_ok; [done..|]. right.
    apply (says_join _ (Some (one_not_killed_error (name_of s (restarted s))))); [set_solver|]. cbn. apply String.eqb_refl.
  - destruct Hok as [Hso (Hsh & Hm & Hd)]. apply fail_restart_ok; [done..|by left].
  - destruct Hok as [Hso (Hsh & Hm & Hd)]. split; [by apply start_replacement_sound|]. destruct Hsh as [Hne Hl].
    destruct m; [done| |by repeat split]. split; [done|]. intros _. specialize (Hl eq_refl). cbn in *. destruct (processes s); cbn in *; lia.
  - destruct Hok as [Hso (Hne & Hm & Hl)]; cbn [fst snd] in *. destruct (receive_spec _ _ _ _ Hso Hr) as (H' & Ht & Hp & p & e & Hx).
    assert (has_exited s' n) as Hx' by (exists p, e; by rewrite Ht). destruct (set_done_spec _ _ H' Hx') as (Hs & _). split; [done|].
    specialize (Hl eq_refl). intros i q Hq Hqe. exfalso. cbn in Hq. rewrite Ht in Hq. destruct (table s) as [|q0 [|]] eqn:Et; try done.
    destruct Hx as [Hx Hxe]. destruct n; [|done]. destruct i; cbn in Hq; [|by destruct i]. injection Hx as ->. injection Hq as <-. cbn in Hqe. congruence.
  - destruct Hok as [Hso _]. apply stopProcesses_ok; [done|apply keeps_join].
  - destruct Hok as [Hso _]. apply stopProcesses_ok; [done|apply keeps_join].
  - destruct Hok as [Hso (Hne & Hm & _)]. split; [by apply start_flutter_sound|]. cbn [fst snd control_ok start_flutter] in *. split; [cbn; by destruct (processes s)|by intros ?].
  - destruct Hok as [Hso (Hne & Hm & _)]. by split.
  - exact (all_exit_ok m s l killed remaining errs k n err s' Hok Hr).
  - done.
  - destruct Hok as [Hso (Hrem & Hpos & Hk)]. split; [done|]. intros n p _ _. left. apply Hk.
    apply (says_join _ (Some not_killed_error)); [set_solver|reflexivity].
Qed.

(** Who listens for signals goes on listening. *)
Lemma stopProcesses_listens s answers k : listens (stopProcesses true s answers k) = true.
Proof. unfold stopProcesses. by destruct (length (running s)). Qed.
Lemma fail_restart_listens m s e answers : listens (fail_restart m s e answers).2 = true.
Proof. destruct m; [done..|]. apply stopProcesses_listens. Qed.
Lemma after_stop_listens m s errs others answers : listens (after_stop m s errs others answers).2 = true.
Proof.
  unfold after_stop. destruct others as [|[n err] others]; [|apply stopProcesses_listens].
  destruct (errors_Join errs); [apply fail_restart_listens|done].
Qed.
Lemma step_listens m x x' : step m x x' -> listens x.2 = true -> listens x'.2 = true.
Proof.
  intros Hst. destruct Hst; cbn [snd]; intros Hl; try done;
    first [apply stopProcesses_listens|apply after_stop_listens|apply fail_restart_listens|congruence|idtac].
  - destruct m; done.
  - destruct first; [done|]. apply stopProcesses_listens.
  - destruct remaining'; [done|]. exact Hl.
Qed.

(** C39. No child outlives a development session unnoticed: however builds,
    restarts, signals, exits and the errors of calls interleave, when the
    command returns every process it ever started has exited, or the error it
    returns says which one, or that some, did not exit after being killed.
    Only a signal can end the program without a return, and only before the
    session listens for signals; from then on none does. *)
Theorem session_leaves_no_process m s c :
  reachable m (s, c) ->
  (forall r n p, c = Done r -> table s !! n = Some p -> p_exit p = None -> names_survivor (p_name p) r) /\
  (listens c = true -> forall s', ~ rtc (step m) (s, c) (s', Interrupted)).
Proof.
  intros (x0 & Hin & Hr). split.
  - assert (ok m x0) as H0.
    { assert (forall name, sound (MkSession [started name] [0%nat] [])) as Hs.
      { intros name. constructor; cbn; try done.
        - intros [|i] q Hq; [injection Hq as <-|]; done.
        - by intros ? ? ?%elem_of_nil.
        - intros [|i] q Hq; [set_solver|done].
        - split; [apply NoDup_singleton|]. intros i ->%list_elem_of_singleton. by eexists. }
      destruct m; cbn in Hin; rewrite ?elem_of_cons in Hin; destruct_or?; subst; try (by apply elem_of_nil in Hin); split; try apply Hs; by cbn. }
    assert (ok m (s, c)) as [_ H]; [|intros r n p -> Hp He; by eapply H].
    revert H0. clear Hin. induction Hr as [|a b d Hab _ IH]; [done|]. intros Ha. by apply IH, (step_ok m a).
  - intros Hl s' Hrun. clear Hr. remember (s, c) as x eqn:Ex. remember (s', Interrupted) as y eqn:Ey.
    assert (listens x.2 = true) as Hx by by rewrite Ex. clear Ex Hl. induction Hrun as [x|x y z Hxy _ IH]; [by rewrite Ey in Hx|].
    by apply IH; [|eapply step_listens].
Qed.

(** Before, it does: interrupted while it waits for the backend to be ready,
    the command ends and leaves the backend, which has a process group of its
    own, running. *)
Lemma early_signal_leaves_backend :
  exists s p, reachable HTTPMode (s, Interrupted) /\ table s !! 0%nat = Some p /\ p_exit p = None.
Proof.
  exists (MkSession [started "Go HTTP backend"] [0%nat] []), (started "Go HTTP backend"). split; [|done].
  exists (MkSession [started "Go HTTP backend"] [0%nat] [], WaitingReady true). split; [cbn; set_solver|].
  by apply rtc_once, program_interrupted.
Qed.
End Session.

(** ** Examples *)

Definition source_tree (modified : Z) : entry :=
  Dir [("backend", Dir [("main.go", File (inr (true, MkSource 1 modified 420)))]); ("docs", Dir [("a.go", Unreadable err_missing)])].
Definition example_watcher : watcher := MkWatcher {["backend/main.go" := MkSource 1 7 420]} ∅ zero_time None None.
Definition example_inputs : list watch_input := [Tick 100 (source_tree 8); TakeError; TakeEvent].
Lemma watcher_misses_no_change_witness : newPollingDevWatcher 50 10 (source_tree 7) = Ok example_watcher /\
  exists paths, events (tick 10 110 (source_tree 8) (watch_all 10 example_inputs example_watcher (fun path => previous example_watcher !! path)).1) = Some paths.
Proof.
  assert (newPollingDevWatcher 50 10 (source_tree 7) = Ok example_watcher) as H by (vm_compute; reflexivity). split; [exact H|].
  pose proof (watcher_misses_no_change 10 50 (source_tree 7) example_watcher example_inputs H) as T.
  destruct (watch_all 10 example_inputs example_watcher _) as [w known] eqn:E. destruct T as [_ T].
  assert (w = (watch_all 10 example_inputs example_watcher (fun path => previous example_watcher !! path)).1) as Hw by (rewrite E; reflexivity).
  vm_compute in Hw. subst w. destruct (T 110 (source_tree 8)) as (paths & Hp & _);
    [vm_compute; reflexivity|vm_compute; discriminate|vm_compute; discriminate|vm_compute; reflexivity|]. exists paths. exact Hp.
Defined.

Definition one_child : session := MkSession [started "Flutter"] [0%nat] [].
Lemma child_survives : exists r, reachable Plain (one_child, Done r).
Proof.
  eexists. exists (one_child, Starting). split; [cbn; set_solver|]. eapply rtc_l; [apply signals_registered|].
  eapply rtc_l; [apply (signal_received _ _ _ (fun _ => None)); by left|]. eapply rtc_l; [by apply (all_killed _ _ _ _ _ _ (fun _ => None))|].
  eapply rtc_once, all_given_up.
Qed.
Lemma session_leaves_no_process_witness : exists r, reachable Plain (one_child, Done r) /\ names_survivor "Flutter" r.
Proof.
  destruct child_survives as [r Hr]. exists r. split; [exact Hr|].
  apply (proj1 (session_leaves_no_process Plain one_child (Done r) Hr) r 0%nat (started "Flutter")); reflexivity.
Defined.
